(* ===== verification/_CoqProject ===== *)
-Q . S2P
Prelude.v
FourState.v
Verinum.v
VerinumValue.v
VerinumArith.v
VerinumConv.v
VerinumCmp.v
VerinumDiv.v
VerinumPow.v
Vector4.v
Vector4Value.v
Vector4Ops.v
Vector4Parts.v
Vector4Copy.v
Vector4Arith.v
Vector4Logic.v
Vector4Reduce.v
Vector4Conv.v
Vector4Array.v
Vector2.v
Vector2Value.v
Vector2Arith.v
Vector2Div.v
Bits.v
Functor.v
ArithFun.v
ArithFunSpec.v
Ring.v
Schedule.v
ScheduleQueue.v
ScheduleInv.v
ScheduleOrder.v
ScheduleRun.v
Thread.v
ThreadDiv.v
ThreadSpec.v
ThreadCmp.v
ThreadData.v
ThreadShift.v
ThreadDivSpec.v
Machine.v
MachineRun.v
Codegen.v
EmitWp.v
CodegenAlloc.v
EmitOps.v
ExprSem.v
CodegenNumber.v
CodegenSpec.v
CodegenSelect.v
CodegenCond.v
CodegenMain.v
Signal.v
SignalSpec.v
SignalRun.v
Process.v
ProcessSpec.v
Stmt.v
StmtSem.v
StmtFrag.v
StmtPiece.v
StmtLval.v
StmtLoop.v
StmtWf.v
StmtCode.v
StmtMain.v
Udp.v
UdpSpec.v
UdpRun.v
Strength.v
StrengthSpec.v
ResolvSpec.v
Logic.v
LogicSpec.v
Delay.v
DelaySpec.v
Devices.v
EvalTree.v
EvalTreeSpec.v
EvalTreeFold.v
