(* ===== verification/Prelude.v ===== *)
(** * Icarus Verilog: values, scheduler, and the procedural code from generator to machine

    A verification of core parts of the compiler [iverilog] and of its run-time
    engine [vvp]: the values that Verilog expressions denote while a design is
    compiled and the folding of constants, the vectors they become when it runs, the
    event queue that decides
    what runs when, the variables with their assignments and forces, the virtual
    machine that runs procedural code, the generator of that code, whose output is
    proved to do what the statement means, and the nodes of the net list: gates,
    primitives, delays, switches, and nets with several drivers.  Paths below are
    relative to src/.

    ** The program

    [iverilog] parses a design into a net list and folds constants with
    [verinum], numbers of any width whose bits are 0, 1, x or z (verinum.cc).
    A loadable target (tgt-vvp) prints the design as a text of [vvp] assembly: the
    statements of a process become the instructions of a stack machine.  [vvp]
    assembles the text (vvp/compile.cc), keeps net and variable values in
    [vvp_vector4_t], two bit planes packed in machine words (vvp/vvp_net.cc), and
    runs threads (vvp/vthread.cc) and propagations from the stratified event queue
    of vvp/schedule.cc.  An event that assigns or forces a value carries a
    [vvp_vector4_t]; running it may schedule others.  A thread writes to a variable
    through the node of its signal (vvp/vvp_net_sig.cc), which keeps continuous
    assignments and forces apart and tells the receivers of the signal.

    ** The files

    - Prelude: loops, binary expansions, 64-bit words, automation.
    - FourState: [verinum::V] (Module VNum) and [vvp_bit4_t] (Module Bit4) with
      their operators; class [FourState] and its laws, the interface both types
      satisfy; the bit-serial adder, verified once against the interface.
    - Verinum: the class [verinum] - constructors, bit access, strings, native
      conversions, widths.  VerinumValue: [value], the integer a number denotes,
      and its laws.  VerinumConv: conversions, round trips and width changes.
      VerinumCmp: comparisons.  VerinumArith, VerinumDiv, VerinumPow: the
      operators of verinum.cc and their theorems.
    - Vector4: [vvp_vector4_t] and the operations on its storage.  Vector4Ops:
      its operators.  Vector4Value: [value] of a bit through the planes, the
      well-formedness [vec_wf], lemmas on words and fields.  Vector4Parts (part
      selects and part writes), Vector4Copy (copies, resizing, moves),
      Vector4Arith (add, sub, mul), Vector4Logic (bitwise operators),
      Vector4Reduce (tests and reductions), Vector4Conv (increment, native
      integers, ordering), Vector4Array (arrays of native words): the theorems.
    - Vector2: [vvp_vector2_t], the two-state vectors of any width.  Vector2Value:
      the integer one denotes, and its storage.  Vector2Arith: shifts, sums,
      products, order.  Vector2Div: division, and the theorems of all operators.
    - Functor: what the nodes of the run-time net list share.  ArithFun: the
      functors of vvp/arith.cc; ArithFunSpec: their theorems, on top of those of
      both kinds of vectors.
    - Ring: the circular lists of event objects on a heap of [next] pointers, all
      queues of the scheduler on one heap, with the objects that [new] makes and
      [delete] gives back.
    - Schedule: events, time cells, the functions of vvp/schedule.h ([call]), and
      [schedule_simulate] as the machine [step].  ScheduleQueue: the time cells
      as a map.  ScheduleInv: the invariant.  ScheduleOrder: order and time.
      ScheduleRun: complete runs.

    - Bits: values as lists of bits, and the operators of the language on them; the
      meaning that the machine and the generator share.
    - Thread: the thread of the virtual machine and its handlers (vvp/vthread.cc);
      ThreadDiv: the long division of [%div].  ThreadSpec, ThreadCmp, ThreadData,
      ThreadShift, ThreadDivSpec: what each handler does to the flags,
      the index registers and the stack of bits.  Machine: the opcodes, the table of
      mnemonics, the assembly of lines, and the loop of [vthread_run].  MachineRun:
      the abstract step [effect], and runs of the machine.
    - Codegen: the expressions of ivl_target.h and the functions that print their
      code (tgt-vvp/eval_vec4.c, eval_condit.c, eval_expr.c), in a monad with the
      counters of labels, flags and registers.  EmitWp: fragments in place
      and what running them does; from a generator to the runs of what it prints;
      CodegenAlloc: allocation; EmitOps: the instructions.  ExprSem: the meaning of
      expressions, and which are well-formed; their laws.  CodegenNumber,
      CodegenSpec, CodegenSelect, CodegenCond: the generators of each kind of
      expression; CodegenMain: all of them.
    - Signal: the functor and the wire of a variable (vvp/vvp_net_sig.cc).
      SignalSpec: the abstract signal - value, assigned bits, forced bits - and the
      theorem of every operation; SignalRun: sequences of operations.
    - Process: the instructions that write to signals, and processes.  ProcessSpec:
      their abstract step [net_effect], and processes through their code.
    - Stmt: the statements of ivl_target.h and the functions that print their code
      (tgt-vvp/vvp_process.c, vvp_proc_loops.c, stmt_assign.c).  StmtSem: the
      execution [exec] of statements on abstract signals.  StmtFrag: texts with
      jumps out of them; StmtPiece, StmtLval: expressions, branches, offsets and
      l-values; StmtLoop: blocks, loops and cases from the runs of their parts;
      StmtWf: well-formed statements; StmtCode: what the generators of control
      statements print; StmtMain: all of them, and where the code is wrong.
    - Udp: user-defined primitives (vvp/udp.cc).  UdpSpec: what a table says, and the
      compiled table; UdpRun: instances.
    - Strength: [vvp_scalar_t], values with strengths and their resolution, and
      [vvp_vector8_t], and the trees of nodes that resolve the drivers of a net
      (vvp/resolv.cc).  StrengthSpec, ResolvSpec: their theorems.
    - Logic: gates, multiplexer and concatenation, which have an event of their own
      (vvp/logic.cc, concat.cc), and the reductions; LogicSpec: the interface
      [lawful], the laws of each, and runs of a node.
    - Delay: [vvp_fun_delay] (vvp/delay.cc); DelaySpec: the inertial element that it
      implements, in the world of the scheduler.
    - Devices: three-state buffers, switches, latches and flip-flops (vvp/bufif.cc,
      npmos.cc, latch.cc, dff.cc), and the theorem of buffers and switches.
    - EvalTree: the expressions of the net list (netlist.h), their evaluation by the
      compiler (eval_tree.cc, netmisc.cc), and the expressions of ivl_target.h that
      they become (t-dll-expr.cc).  EvalTreeSpec: an operator on numbers computes
      the operator on their bits.  EvalTreeFold: which expressions elaboration
      makes, and that evaluation keeps their meaning.

    ** How the model corresponds to the code

    A definition has the name of the function or type it models, or says in its
    comment what it is.  Machine integers are [Z] with the wrap-around of their
    width ([u64], [add64], ...); sizes and indexes are [nat].  A [verinum] is the
    list of its bits with its two flags.  A plane of a vector is the list of its
    words, also where the code keeps one word in place; statements the code
    repeats for abits and bbits are one definition applied to both.  A failed
    assertion, and a trap, is [None].  A mutating method returns the new value.
    The queues of a time cell are lists: Ring proves that the pointer code
    implements insertion at both ends of a list, removal at its head and the taking
    over of a queue by another, that it leaves other queues alone, and that an event
    can be deleted once it was pulled, with no pointer left to it.  The numbers of
    the queues stand for the fields of the time cells and the two global lists.  What the scheduler calls outside of
    schedule.cc - threads, nets, arrays, VPI callbacks - is the class [Design]: any
    functions on a state of any type that return the scheduler calls they make.
    A functor of the net list is the record of its members; receiving a value
    gives the new record and the vector sent ([arith_recv]); the functors differ in
    the function from the operands to what is sent ([sum_out], ...).  A shift of
    an [unsigned long] by 64, which the code does and C++ leaves undefined, has
    the value that the class [Host] gives it, and the theorems say where they
    need it to be all ones.
    A thread is the record of its program counter, flags, index registers and vector
    stack; a handler of an opcode takes the thread and the instruction and gives the
    thread with the value it returns.  The nets that it reads are the class [World];
    a process has the nodes themselves, and the log of what they sent.  A generator
    is a function of the counters in vvp_priv.h that gives its result, the counters
    and the lines it prints; [Exit] is a call of exit, [Bug] a failed assertion.
    Labels are [T_t.n] (SymCode) and the names of nets (SymNet).
    The field [log] of the scheduler's state is not in the code: it records what
    was put, run and dropped, for the theorems.

    ** What the theorems show

    - verinum: the operators return the integer result when it fits, at the width
      the code chooses; x for undefined operands; comparison and the order used
      for maps; strings and native integers round-trip; [trim_vnum],
      [cast_to_width] and [pad_to_width] keep what they promise.
    - [vvp_vector4_t]: every word-parallel routine equals its definition bit by
      bit, or on integers modulo [2^size], in all its branches: one partial word,
      one full word, several words with any tail, aligned and not.
    - [vvp_vector2_t]: the operators are those of the integers modulo [2^size];
      division and power end, and the theorem says for which operands the
      quotient is right (see the findings).
    - arithmetic functors: the native path for up to 64 bits and the multi-word
      path beyond it send the same function of the integers of the operands, x
      for operands with x or z; the comparisons are characterized pair of bits by
      pair of bits, the shifts bit by bit.
    - the scheduler: [schedule_event_] is insertion at the end of a queue of a map
      from times to queues; each event runs once, at the time it was scheduled
      for; regions run in order and first in first out; time advances only to the
      nearest time at which something waits; what a time slot can drop; a step
      fails just when the event that is next forces a value beyond its target, so
      that no null cell is followed and no other assertion fails; a run whose events schedule nothing ends and its
      order is given.
    - the virtual machine: each instruction takes the step that [effect] lists for
      it on lists of bits ([MachineRun.vm_step_refines]): the packed vectors are
      those of the theorems above, the words are 64 bits.  [effect] has the bounds
      given below for division, parts and indexes, and the signed comparison with
      the unknown eq of the code.
    - the generator of expressions: the code of an expression, placed anywhere,
      pushes its value and changes nothing else that is in use
      ([CodegenMain.compile_expr_correct]).
    - constant folding: the expression that is left after the compiler evaluated
      one has the same meaning, the [eval] that the generated code is proved to
      compute; an expression of constants becomes a number, unless it has a [~&] or
      [~|] ([EvalTreeFold.constant_folding_correct]): the arithmetic of the compiler
      and that of the run agree, for the expressions of [shape_ok] and [folds_ok];
      three lemmas show folds outside of them that change a value.
    - variables: any sequence of stores, assignments, forces and their ends, whose
      operands fit ([op_ok]), keeps a node equal to the abstract signal, and what its receivers were sent equal to
      what is seen of it ([SignalRun.signal_refines]).
    - the generator of statements: the code of a statement takes a process to its
      end with the signals as the execution of the statement leaves them
      ([StmtMain.compile_stmt_correct]); every loop, condition, case, break and
      continue is followed, and the fan-out of each signal has heard of its value.
      [exec] is the language's, and undefined in the five cases, listed at the
      theorem and in StmtSem, in which the code does something else.
    - primitives: the masks of a compiled table, and the state and the output of an
      instance, are those of the table as the standard reads it
      ([UdpRun.udp_correct]).
    - nets with several drivers: after any arrivals the tree of a net has sent the
      resolution of the last values at its ports, in their order ([tri_resolves],
      [wired_resolves]).
    - gates: whatever the interleaving of arrivals and events, a gate has sent the
      language's function of its inputs or has an event queued that will
      ([gates_catch_up]); a multiplexer may send z for a bit that is z in both of
      its data inputs under an unknown select, where the language has x.
    - delays: what is sent, and when, is what an element shows that holds one
      future change ([delay_correct]); the last value is shown in the end.  At the
      time of a change that is due and not sent at most one value may arrive, and
      none before the first change was sent ([calm]).
    - buffers and switches: each bit sent is the interval of strengths that the
      language gives, and a value that other nodes accept ([switches_correct]), for
      the arrivals of [arrival_ok].
    - findings: lemmas on concrete inputs, at the end of the files concerned,
      where the code does something surprising.

    ** Bounds and fuel

    Loops over indexes are [for_loop]/[for_down] with the loop's own count.  Loops
    that consume a quantity have fuel that bounds it: [whole_words], [mov_loop],
    [subarray_loop], [setarray_loop] the number of bits left (each round takes at
    least one), [sub_loop] the number of words written, [pow_fuel] twice the width
    of the exponent and one ([VerinumPow.pow_fuel_spec]; so does [vec2_pow]),
    [div_grow] and [div_shrink] the width and one or two (a round shifts the
    divisor by a bit), [int64_nbits] and [process_quotes] the bits and characters
    left; their theorems are about the
    result with that fuel.  [draw_eval_vec4] and [draw_eval_condition] call each
    other at most twice per level of an expression, so fuel of twice its depth and
    one is enough ([vec4_fuel]); the theorems of the generators ask for it, and for
    free flags and registers in proportion to depth and nesting ([room]).  The
    generator handles widths below 2^30; division and remainder are proved up to 64
    bits, select bases up to 31 bits (32 signed), offsets of l-values up to 63 (64
    signed).  [exec] has fuel for the depth of the statement and the rounds of its
    loops: the theorem holds for every amount with which the execution ends.
    Delays and times are below 2^62 in DelaySpec, so that sums of two do not wrap.
    [step] has none: a Verilog program may run for ever,
    so the theorems are about every reachable state, and about termination where
    it holds.

    ** What is not modelled

    Values of type double and the conversions to and from them; output on
    streams; allocation and deallocation other than that of events in Ring (a fresh
    array is all 0 where the code writes every word before it reads one); the host is LP64.  Vectors of size 0
    are outside of theorems where the code shifts a word by 64.  In the scheduler:
    the statistics counters, signal handlers, messages and the single-step
    display.  In the virtual machine: the stacks of reals, strings and objects,
    arrays, forking, waiting and ending of threads, non-blocking stores; [%pow],
    wide [%mod], and a few instructions on index registers are translated without a
    theorem.  In the generators: operands and l-values that are reals, strings,
    objects, arrays or return values, function and task calls, delays, events,
    forks, non-blocking assignments; compressed assignments are translated without
    a theorem; a force or assignment from a signal, which links it to the node, is
    outside of the theorem.  Of the signals: automatic, two-state, real and strength
    variables, and how a value goes on through the fan-out.  Of the nodes: values of
    type real; module paths and the delays between modules (delay.cc), which hang
    on the VPI objects of specify blocks; part selects of nets, events and user
    functions (part.cc, event.cc, ufunc.cc), whose state is that of the contexts of
    automatic scopes and of waiting threads; tran switches (vvp_island.cc), which
    resolve a graph of pointers.  The assumption [calm] of [delay_correct]
    cannot be dropped: see the lemmas after it.  Of constant folding: reals, strings as operands, the
    built-in functions and the power operator are outside of the theorem; so are
    the operands for which the compiler and the run differ ([folds_ok], and the
    lemmas after the theorem).  Not modelled at all: run-time objects (queues, classes,
    memories), the loader, the VPI, the front end and elaboration, which work on
    graphs of heap objects, and the code generators other than vvp's. *)

(** Shared by every component:
    - [for_loop], the counted C loop, with its invariant rule;
    - [Zbits], the integer denoted by the low bits of a boolean stream, which is
      the common value function of the compile-time numbers and of the run-time
      vectors;
    - [u64] and the operators of [unsigned long] on an LP64 host, with the
      rewriting database [bits] and the tactic [bitwise]. *)

From Stdlib Require Export ZArith Lia Bool Btauto.
From stdpp Require Export base decidable countable list option numbers.

#[export] Set Default Goal Selector "!".

Declare Scope ivl_scope.
Delimit Scope ivl_scope with ivl.

Open Scope Z_scope.

(** ** Counted loops *)

(** [for (unsigned idx = start; idx < start + n; idx += 1) s = body(idx, s);] *)
Fixpoint for_loop {S : Type} (n start : nat) (body : nat -> S -> S) (s : S) : S :=
  match n with
  | O => s
  | Datatypes.S n' => for_loop n' (Datatypes.S start) body (body start s)
  end.

Lemma for_loop_ind {S : Type} (P : nat -> S -> Prop) n start body (s : S) :
  P start s ->
  (forall i s', (start <= i < start + n)%nat -> P i s' -> P (Datatypes.S i) (body i s')) ->
  P (start + n)%nat (for_loop n start body s).
Proof.
  revert start s. induction n as [|n IH]; intros start s H0 Hstep; simpl.
  - by rewrite Nat.add_0_r.
  - replace (start + Datatypes.S n)%nat with (Datatypes.S start + n)%nat by lia.
    apply IH.
    + apply Hstep; [lia | done].
    + intros i s' Hi HP. apply Hstep; [lia | done].
Qed.

(** The same loop counting down:
    [for (idx = n; idx > 0; idx -= 1) s = body(idx-1, s);] *)
Fixpoint for_down {S : Type} (n : nat) (body : nat -> S -> S) (s : S) : S :=
  match n with
  | O => s
  | Datatypes.S n' => for_down n' body (body n' s)
  end.

Lemma for_down_ind {S : Type} (P : nat -> S -> Prop) n body (s : S) :
  P n s ->
  (forall i s', (i < n)%nat -> P (Datatypes.S i) s' -> P i (body i s')) ->
  P O (for_down n body s).
Proof.
  revert s. induction n as [|n IH]; intros s H0 Hstep; simpl; [done|].
  apply IH.
  - apply Hstep; [lia | done].
  - intros i s' Hi HP. apply Hstep; [lia | done].
Qed.

(** ** Binary expansions *)

(** [Zbits f n] is the number whose bit [i] is [f i], for [i < n]. *)
Fixpoint Zbits (f : nat -> bool) (n : nat) : Z :=
  match n with
  | O => 0
  | S n' => Zbits f n' + Z.b2z (f n') * 2 ^ Z.of_nat n'
  end.

Lemma pow2_pos n : 0 <= n -> 0 < 2 ^ n.
Proof. intros. apply Z.pow_pos_nonneg; lia. Qed.

Lemma pow2_S n : 2 ^ Z.of_nat (S n) = 2 * 2 ^ Z.of_nat n.
Proof. rewrite Nat2Z.inj_succ, Z.pow_succ_r; lia. Qed.

Lemma Zbits_range f n : 0 <= Zbits f n < 2 ^ Z.of_nat n.
Proof.
  induction n as [|n IH]; [simpl; lia|].
  rewrite pow2_S. simpl Zbits. destruct (f n); simpl Z.b2z; lia.
Qed.

Lemma Zbits_ext f g n : (forall i, (i < n)%nat -> f i = g i) -> Zbits f n = Zbits g n.
Proof.
  induction n as [|n IH]; intros H; [done|]. simpl.
  rewrite IH, H; [done | lia | intros; apply H; lia].
Qed.

Lemma testbit_small a n i : 0 <= a < 2 ^ n -> n <= i -> 0 <= n -> Z.testbit a i = false.
Proof.
  intros Ha Hi Hn. rewrite <- (Z.mod_small a (2 ^ n)) by lia.
  apply Z.mod_pow2_bits_high. lia.
Qed.

(** [a + b*2^n] is the concatenation of [b] and the [n] bits of [a]. *)
Lemma testbit_add_high a b n i :
  0 <= n -> 0 <= a < 2 ^ n -> 0 <= i ->
  Z.testbit (a + b * 2 ^ n) i = if i <? n then Z.testbit a i else Z.testbit b (i - n).
Proof.
  intros Hn Ha Hi.
  rewrite <- Z.shiftl_mul_pow2 by lia.
  assert (Hdisj : Z.land a (Z.shiftl b n) = 0).
  { apply Z.bits_inj'. intros j Hj.
    rewrite Z.land_spec, Z.shiftl_spec, Z.bits_0 by lia.
    destruct (Z.lt_ge_cases j n).
    - rewrite (Z.testbit_neg_r _ (j - n)) by lia. btauto.
    - by rewrite (testbit_small a n j) by lia. }
  rewrite Z.add_nocarry_lxor, Z.lxor_lor by done.
  rewrite Z.lor_spec, Z.shiftl_spec by lia.
  destruct (Z.ltb_spec i n).
  - rewrite (Z.testbit_neg_r _ (i - n)) by lia. btauto.
  - by rewrite (testbit_small a n i) by lia.
Qed.

Lemma testbit_b2z b i : Z.testbit (Z.b2z b) i = b && (i =? 0).
Proof.
  destruct b, (Z.eqb_spec i 0) as [->|]; simpl Z.b2z; rewrite ?Z.bits_0; try done.
  destruct (Z.lt_ge_cases i 0).
  - by rewrite Z.testbit_neg_r by lia.
  - apply (testbit_small 1 1 i); lia.
Qed.

Lemma Zbits_testbit f n i :
  0 <= i -> Z.testbit (Zbits f n) i = (i <? Z.of_nat n) && f (Z.to_nat i).
Proof.
  intros Hi. induction n as [|n IH].
  - simpl. rewrite Z.bits_0. destruct (Z.ltb_spec i (Z.of_nat 0)); [lia|done].
  - simpl Zbits. rewrite testbit_add_high, testbit_b2z, IH by (try apply Zbits_range; lia).
    destruct (Z.ltb_spec i (Z.of_nat n)), (Z.ltb_spec i (Z.of_nat (S n))),
      (Z.eqb_spec (i - Z.of_nat n) 0) as [?|?]; try lia; try btauto.
    replace i with (Z.of_nat n) by lia. rewrite Nat2Z.id. btauto.
Qed.

(** The low [n] bits of [z] denote [z] modulo [2^n]. *)
Lemma Zbits_of_Z z n : Zbits (fun i => Z.testbit z (Z.of_nat i)) n = z mod 2 ^ Z.of_nat n.
Proof.
  apply Z.bits_inj'. intros i Hi. rewrite Zbits_testbit by lia.
  rewrite Z2Nat.id by lia.
  destruct (Z.ltb_spec i (Z.of_nat n)).
  - by rewrite Z.mod_pow2_bits_low by lia.
  - by rewrite Z.mod_pow2_bits_high by lia.
Qed.

Lemma Zbits_S f n : Zbits f (S n) = Zbits f n + Z.b2z (f n) * 2 ^ Z.of_nat n.
Proof. done. Qed.

Lemma Zbits_pair f g n :
  (forall i, (i < n)%nat -> f i = Z.testbit (Zbits g n) (Z.of_nat i)) -> Zbits f n = Zbits g n.
Proof.
  intros H. rewrite (Zbits_ext f (fun i => Z.testbit (Zbits g n) (Z.of_nat i))) by done.
  rewrite Zbits_of_Z. apply Z.mod_small, Zbits_range.
Qed.

(** ** Lists *)

Lemma existsb_ext_in {A} (f g : A -> bool) l : (forall x, In x l -> f x = g x) -> existsb f l = existsb g l.
Proof. induction l as [|x l IH]; intros H; [done|]. simpl. rewrite IH, (H x); auto with datatypes. Qed.

Lemma forallb_ext_in {A} (f g : A -> bool) l : (forall x, In x l -> f x = g x) -> forallb f l = forallb g l.
Proof. induction l as [|x l IH]; intros H; [done|]. simpl. rewrite IH, (H x); auto with datatypes. Qed.

Lemma forallb_negb {A} (f : A -> bool) l : forallb f l = negb (existsb (fun x => negb (f x)) l).
Proof. induction l as [|x l IH]; [done|]. simpl. rewrite IH. by destruct (f x). Qed.

(** ** 64-bit words: [unsigned long] on an LP64 host *)

Definition CPU_WORD_BITS : Z := 64.

(** Conversion to [unsigned long]: reduction modulo [2^64]. *)
Definition u64 (z : Z) : Z := z mod 2 ^ 64.
(** Conversion to [unsigned] and to [long]. *)
Definition u32 (z : Z) : Z := z mod 2 ^ 32.
Definition s64 (z : Z) : Z := (z + 2 ^ 63) mod 2 ^ 64 - 2 ^ 63.

(** [~x], [x << k], [x >> k], [x + y], [x - y], [x * y] and [-1UL].  The shifts
    are those of C for [0 <= k < 64]; C leaves a larger count undefined. *)
Definition not64 (x : Z) : Z := u64 (Z.lnot x).
Definition shl64 (x k : Z) : Z := u64 (Z.shiftl x k).
Definition shr64 (x k : Z) : Z := Z.shiftr x k.
Definition add64 (x y : Z) : Z := u64 (x + y).
Definition sub64 (x y : Z) : Z := u64 (x - y).
Definition mul64 (x y : Z) : Z := u64 (x * y).
Definition ones64 : Z := 2 ^ 64 - 1.
(** [(1UL << k) - 1UL] *)
Definition mask64 (k : Z) : Z := sub64 (shl64 1 k) 1.

Definition is_word (x : Z) : Prop := 0 <= x < 2 ^ 64.

Lemma u64_range x : is_word (u64 x).
Proof. apply Z.mod_pos_bound. lia. Qed.

Lemma u64_small x : is_word x -> u64 x = x.
Proof. intros. by apply Z.mod_small. Qed.

Lemma word_high x i : is_word x -> 64 <= i -> Z.testbit x i = false.
Proof. intros Hx Hi. apply (testbit_small x 64 i); [exact Hx|lia|lia]. Qed.

Lemma is_word_bits x :
  0 <= x -> (forall i, 64 <= i -> Z.testbit x i = false) -> is_word x.
Proof.
  intros H0 H. unfold is_word. split; [done|].
  destruct (Z.lt_ge_cases x (2 ^ 64)) as [|Hge]; [done|].
  assert (64 <= Z.log2 x) by (apply Z.log2_le_pow2; lia).
  pose proof (Z.bit_log2 x ltac:(lia)) as Hb. rewrite H in Hb by lia. done.
Qed.

Lemma u64_bit x i : 0 <= i -> Z.testbit (u64 x) i = (i <? 64) && Z.testbit x i.
Proof.
  intros. unfold u64. destruct (Z.ltb_spec i 64).
  - by rewrite Z.mod_pow2_bits_low by lia.
  - by rewrite Z.mod_pow2_bits_high by lia.
Qed.

Lemma not64_bit x i : 0 <= i -> Z.testbit (not64 x) i = (i <? 64) && negb (Z.testbit x i).
Proof. intros. unfold not64. rewrite u64_bit by lia. by rewrite Z.lnot_spec by lia. Qed.

Lemma shl64_bit x k i :
  0 <= k -> 0 <= i ->
  Z.testbit (shl64 x k) i = (i <? 64) && ((k <=? i) && Z.testbit x (i - k)).
Proof.
  intros. unfold shl64. rewrite u64_bit by lia. rewrite Z.shiftl_spec by lia.
  destruct (Z.leb_spec k i); [done|]. rewrite (Z.testbit_neg_r _ (i - k)) by lia. done.
Qed.

Lemma shr64_bit x k i :
  0 <= k -> 0 <= i -> Z.testbit (shr64 x k) i = Z.testbit x (i + k).
Proof. intros. unfold shr64. by rewrite Z.shiftr_spec by lia. Qed.

Lemma ones64_bit i : 0 <= i -> Z.testbit ones64 i = (i <? 64).
Proof.
  intros. change ones64 with (Z.ones 64). destruct (Z.ltb_spec i 64).
  - by rewrite Z.ones_spec_low by lia.
  - by rewrite Z.ones_spec_high by lia.
Qed.

Lemma mask64_ones k : 0 <= k <= 64 -> mask64 k = Z.ones k.
Proof.
  intros. unfold mask64, sub64, shl64. rewrite Z.shiftl_1_l, Z.ones_equiv, <- Z.sub_1_r.
  destruct (Z.eq_dec k 64) as [->|]; [done|].
  rewrite (u64_small (2 ^ k)).
  - apply u64_small. split; [pose proof (pow2_pos k ltac:(lia)); lia|].
    assert (2 ^ k < 2 ^ 64) by (apply Z.pow_lt_mono_r; lia). lia.
  - split; [apply Z.pow_nonneg; lia|]. apply Z.pow_lt_mono_r; lia.
Qed.

Lemma mask64_bit k i : 0 <= k <= 64 -> 0 <= i -> Z.testbit (mask64 k) i = (i <? k).
Proof.
  intros. rewrite mask64_ones by done. destruct (Z.ltb_spec i k).
  - by rewrite Z.ones_spec_low by lia.
  - by rewrite Z.ones_spec_high by lia.
Qed.

Create Rewrite HintDb bits.
Create HintDb word.

#[export] Hint Rewrite Z.land_spec Z.lor_spec Z.lxor_spec Z.bits_0 : bits.
#[export] Hint Rewrite u64_bit not64_bit shl64_bit shr64_bit ones64_bit mask64_bit using lia : bits.

(** Decide a goal about bits: push [Z.testbit] inwards, split on the index
    comparisons, finish with arithmetic or boolean reasoning. *)
Ltac split_ltb :=
  repeat match goal with
  | |- context [?a <? ?b] => destruct (Z.ltb_spec a b)
  | |- context [?a <=? ?b] => destruct (Z.leb_spec a b)
  | |- context [?a =? ?b] => destruct (Z.eqb_spec a b)
  end.
Ltac bits_finish :=
  cbn [andb orb negb xorb]; try lia; try btauto;
  try solve [repeat (first [done | lia | progress f_equal])].
Ltac bits_simpl := autorewrite with bits.
Ltac bits_solve := bits_simpl; split_ltb; try lia; bits_finish.
Ltac bitwise i := apply Z.bits_inj'; intros i ?; bits_solve.

Lemma is_word_land x y : is_word x -> is_word (Z.land x y).
Proof.
  intros Hx. apply is_word_bits; [apply Z.land_nonneg; left; apply Hx|].
  intros i Hi. rewrite Z.land_spec, (word_high x) by done. done.
Qed.
Lemma is_word_land_r x y : is_word y -> is_word (Z.land x y).
Proof. intros. rewrite Z.land_comm. by apply is_word_land. Qed.
Lemma is_word_lor x y : is_word x -> is_word y -> is_word (Z.lor x y).
Proof.
  intros Hx Hy. apply is_word_bits; [apply Z.lor_nonneg; split; [apply Hx|apply Hy]|].
  intros i Hi. by rewrite Z.lor_spec, (word_high x), (word_high y).
Qed.
Lemma is_word_lxor x y : is_word x -> is_word y -> is_word (Z.lxor x y).
Proof.
  intros Hx Hy. apply is_word_bits.
  - apply Z.lxor_nonneg. destruct Hx, Hy. tauto.
  - intros i Hi. by rewrite Z.lxor_spec, (word_high x), (word_high y).
Qed.
Lemma is_word_shr x k : 0 <= k -> is_word x -> is_word (shr64 x k).
Proof.
  intros Hk Hx. apply is_word_bits; [apply Z.shiftr_nonneg, Hx|].
  intros i Hi. rewrite shr64_bit by lia. apply word_high; [done|lia].
Qed.
Lemma is_word_0 : is_word 0.
Proof. unfold is_word. lia. Qed.
Lemma is_word_ones64 : is_word ones64.
Proof. unfold is_word, ones64. lia. Qed.
Lemma is_word_not64 x : is_word (not64 x).
Proof. apply u64_range. Qed.
Lemma is_word_shl64 x k : is_word (shl64 x k).
Proof. apply u64_range. Qed.
Lemma is_word_add64 x y : is_word (add64 x y).
Proof. apply u64_range. Qed.
Lemma is_word_sub64 x y : is_word (sub64 x y).
Proof. apply u64_range. Qed.
Lemma is_word_mul64 x y : is_word (mul64 x y).
Proof. apply u64_range. Qed.
Lemma is_word_mask64 k : is_word (mask64 k).
Proof. apply u64_range. Qed.

#[export] Hint Resolve u64_range is_word_land is_word_land_r is_word_lor is_word_lxor
  is_word_0 is_word_ones64 is_word_not64 is_word_shl64 is_word_add64 is_word_sub64
  is_word_mul64 is_word_mask64 : word.
#[export] Hint Extern 2 (is_word (shr64 _ _)) => apply is_word_shr; [lia|] : word.

(** Two words are equal when their 64 bits are. *)
Lemma word_ext x y :
  is_word x -> is_word y ->
  (forall i, 0 <= i < 64 -> Z.testbit x i = Z.testbit y i) -> x = y.
Proof.
  intros Hx Hy H. apply Z.bits_inj'. intros i Hi.
  destruct (Z.lt_ge_cases i 64); [apply H; lia|].
  by rewrite (word_high x), (word_high y).
Qed.
