(* ===== verification/FourState.v ===== *)
(** * FourState: the two four-valued bit types and the interface they share

    - Module [VNum]: [verinum::V], the bits of compile-time numbers
      (verinum.h, verinum.cc), whose operators are written as case analyses;
    - Module [Bit4]: [vvp_bit4_t], the bits of the run-time vectors
      (vvp/vvp_net.h, vvp/vvp_net.cc), whose operators work on the integer
      encoding 0, 1, 3 (X), 2 (Z);
    - class [FourState]: what both promise to the arithmetic built on them -
      the operators are the strong Kleene connectives on known bits, and the
      full adder adds known bits and yields x otherwise - with an instance for
      each type;
    - Section [Ripple]: the bit-serial adder loop that verinum.cc and
      [vvp_vector4_t::operator +=] run, verified once against the interface. *)

From S2P Require Import Prelude.

(** ** verinum::V *)
Module VNum.

(** [enum V { V0 = 0, V1, Vx, Vz };] *)
Inductive V : Set := V0 | V1 | Vx | Vz.

#[export] Instance V_eq_dec : EqDecision V.
Proof. solve_decision. Defined.

(** The numeric value of the enumerator, used where the code compares bits with [<]. *)
Definition V_to_int (v : V) : Z :=
  match v with V0 => 0 | V1 => 1 | Vx => 2 | Vz => 3 end.

Definition bit4_z2x (bit : V) : V := if V_to_int bit <? 2 then bit else Vx.

Definition V_not (l : V) : V :=
  match l with V0 => V1 | V1 => V0 | _ => Vx end.

Definition V_or (l r : V) : V :=
  if decide (l = V1) then V1
  else if decide (r = V1) then V1
  else if decide (l <> V0) then Vx
  else if decide (r <> V0) then Vx
  else V0.

Definition V_and (l r : V) : V :=
  if decide (l = V0) then V0
  else if decide (r = V0) then V0
  else if decide (l <> V1) then Vx
  else if decide (r <> V1) then Vx
  else V1.

Definition V_xor (l r : V) : V :=
  if decide (l = V0) then bit4_z2x r
  else if decide (r = V0) then bit4_z2x l
  else if decide (l = V1 /\ r = V1) then V0
  else Vx.

(** [add_with_carry(l, r, c)]: the sum bit and the new value of [c]. *)
Definition add_with_carry (l r c : V) : V * V :=
  let sum := 0 in
  match c with
  | Vx | Vz => (Vx, Vx)
  | V0 | V1 =>
  let sum := if decide (c = V1) then sum + 1 else sum in
  match l with
  | Vx | Vz => (Vx, Vx)
  | V0 | V1 =>
    let sum := if decide (l = V1) then sum + 1 else sum in
    match r with
    | Vx | Vz => (Vx, Vx)
    | V0 | V1 =>
      let sum := if decide (r = V1) then sum + 1 else sum in
      (if Z.land sum 1 =? 0 then V0 else V1,
       if Z.land sum 2 =? 0 then V0 else V1)
    end
  end
  end.

End VNum.

(** ** vvp_bit4_t *)
Module Bit4.

(** [enum vvp_bit4_t { BIT4_0 = 0, BIT4_1 = 1, BIT4_X = 3, BIT4_Z = 2 };] *)
Inductive vvp_bit4_t : Set := BIT4_0 | BIT4_1 | BIT4_X | BIT4_Z.

#[export] Instance bit4_eq_dec : EqDecision vvp_bit4_t.
Proof. solve_decision. Defined.

Definition bit4_to_int (a : vvp_bit4_t) : Z :=
  match a with BIT4_0 => 0 | BIT4_1 => 1 | BIT4_X => 3 | BIT4_Z => 2 end.

(** The cast [(vvp_bit4_t) n]; the code only casts values in 0..3. *)
Definition int_to_bit4 (n : Z) : vvp_bit4_t :=
  if n =? 0 then BIT4_0 else if n =? 1 then BIT4_1 else if n =? 2 then BIT4_Z else BIT4_X.

Definition bit4_is_xz (a : vvp_bit4_t) : bool := 2 <=? bit4_to_int a.

Definition bit4_z2x (a : vvp_bit4_t) : vvp_bit4_t :=
  int_to_bit4 (Z.lor (bit4_to_int a) (Z.shiftr (bit4_to_int a) 1)).

Definition bit4_not (a : vvp_bit4_t) : vvp_bit4_t :=
  bit4_z2x (int_to_bit4 (Z.lxor (bit4_to_int a) 1)).

Definition bit4_or (a b : vvp_bit4_t) : vvp_bit4_t :=
  if bool_decide (a = BIT4_1) || bool_decide (b = BIT4_1) then BIT4_1
  else bit4_z2x (int_to_bit4 (Z.lor (bit4_to_int a) (bit4_to_int b))).

Definition bit4_and (a b : vvp_bit4_t) : vvp_bit4_t :=
  if bool_decide (a = BIT4_0) || bool_decide (b = BIT4_0) then BIT4_0
  else bit4_z2x (int_to_bit4 (Z.lor (bit4_to_int a) (bit4_to_int b))).

Definition bit4_xor (a b : vvp_bit4_t) : vvp_bit4_t :=
  if bit4_is_xz a then BIT4_X
  else if bit4_is_xz b then BIT4_X
  else if decide (a = BIT4_0) then b
  else if decide (b = BIT4_0) then a
  else BIT4_0.

Definition add_with_carry (a b c : vvp_bit4_t) : vvp_bit4_t * vvp_bit4_t :=
  if bit4_is_xz a || bit4_is_xz b || bit4_is_xz c then (BIT4_X, BIT4_X)
  else
  let sum := bit4_to_int a + bit4_to_int b + bit4_to_int c in
  if sum =? 0 then (BIT4_0, c)
  else if sum =? 1 then (BIT4_1, BIT4_0)
  else if sum =? 2 then (BIT4_0, BIT4_1)
  else (BIT4_1, BIT4_1).

(** [VVP_EDGE(from, to)] and the two edge masks (the 16-bit [edge_t]). *)
Definition VVP_EDGE (from to : vvp_bit4_t) : Z :=
  Z.shiftl 1 (Z.lor (Z.shiftl (bit4_to_int from) 2) (bit4_to_int to)).

Definition vvp_edge_posedge : Z :=
  Z.lor (VVP_EDGE BIT4_0 BIT4_1) (Z.lor (VVP_EDGE BIT4_0 BIT4_X)
  (Z.lor (VVP_EDGE BIT4_0 BIT4_Z) (Z.lor (VVP_EDGE BIT4_X BIT4_1) (VVP_EDGE BIT4_Z BIT4_1)))).

Definition vvp_edge_negedge : Z :=
  Z.lor (VVP_EDGE BIT4_1 BIT4_0) (Z.lor (VVP_EDGE BIT4_1 BIT4_X)
  (Z.lor (VVP_EDGE BIT4_1 BIT4_Z) (Z.lor (VVP_EDGE BIT4_X BIT4_0) (VVP_EDGE BIT4_Z BIT4_0)))).

Definition edge (from to : vvp_bit4_t) : Z :=
  let mask := VVP_EDGE from to in
  if negb (Z.land mask vvp_edge_posedge =? 0) then 1
  else if negb (Z.land mask vvp_edge_negedge =? 0) then -1
  else 0.

End Bit4.

(** ** The interface *)

(** Kleene's strong connectives on "known" bits. *)
Definition kl_not (a : option bool) : option bool := option_map negb a.
Definition kl_and (a b : option bool) : option bool :=
  match a, b with
  | Some false, _ | _, Some false => Some false
  | Some true, Some true => Some true
  | _, _ => None
  end.
Definition kl_or (a b : option bool) : option bool := kl_not (kl_and (kl_not a) (kl_not b)).
Definition kl_xor (a b : option bool) : option bool :=
  match a, b with Some x, Some y => Some (xorb x y) | _, _ => None end.

(** The operations; [fs_known] is the bit's boolean when it is 0 or 1. *)
Class FourState (A : Type) := {
  fs_of_bool : bool -> A;
  fs_x : A;
  fs_known : A -> option bool;
  fs_not : A -> A;
  fs_and : A -> A -> A;
  fs_or : A -> A -> A;
  fs_xor : A -> A -> A;
  fs_add : A -> A -> A -> A * A;
}.

(** The laws: Kleene connectives, an unknown result is x and never z, and the
    full adder. *)
Class FourStateLaws (A : Type) `{FourState A} : Prop := {
  fs_known_of_bool (b : bool) : fs_known (fs_of_bool b) = Some b;
  fs_known_inv (a : A) b : fs_known a = Some b -> a = fs_of_bool b;
  fs_known_x : fs_known fs_x = None;
  fs_not_spec (a : A) : fs_known (fs_not a) = kl_not (fs_known a);
  fs_and_spec (a b : A) : fs_known (fs_and a b) = kl_and (fs_known a) (fs_known b);
  fs_or_spec (a b : A) : fs_known (fs_or a b) = kl_or (fs_known a) (fs_known b);
  fs_xor_spec (a b : A) : fs_known (fs_xor a b) = kl_xor (fs_known a) (fs_known b);
  fs_not_x (a : A) : fs_known (fs_not a) = None -> fs_not a = fs_x;
  fs_and_x (a b : A) : fs_known (fs_and a b) = None -> fs_and a b = fs_x;
  fs_or_x (a b : A) : fs_known (fs_or a b) = None -> fs_or a b = fs_x;
  fs_xor_x (a b : A) : fs_known (fs_xor a b) = None -> fs_xor a b = fs_x;
  fs_add_spec x y z :
    fs_add (fs_of_bool x) (fs_of_bool y) (fs_of_bool z) =
      (fs_of_bool (xorb (xorb x y) z), fs_of_bool ((x && y) || (z && xorb x y)));
  fs_add_x (a b c : A) :
    fs_known a = None \/ fs_known b = None \/ fs_known c = None ->
    fs_add a b c = (fs_x, fs_x);
}.

#[export] Instance V_FourState : FourState VNum.V := {
  fs_of_bool b := if b then VNum.V1 else VNum.V0;
  fs_x := VNum.Vx;
  fs_known a := match a with VNum.V0 => Some false | VNum.V1 => Some true | _ => None end;
  fs_not := VNum.V_not; fs_and := VNum.V_and; fs_or := VNum.V_or; fs_xor := VNum.V_xor;
  fs_add := VNum.add_with_carry;
}.

#[export] Instance Bit4_FourState : FourState Bit4.vvp_bit4_t := {
  fs_of_bool b := if b then Bit4.BIT4_1 else Bit4.BIT4_0;
  fs_x := Bit4.BIT4_X;
  fs_known a :=
    match a with Bit4.BIT4_0 => Some false | Bit4.BIT4_1 => Some true | _ => None end;
  fs_not := Bit4.bit4_not; fs_and := Bit4.bit4_and; fs_or := Bit4.bit4_or;
  fs_xor := Bit4.bit4_xor; fs_add := Bit4.add_with_carry;
}.

(** Enumerate every bit of the context and compute. *)
Ltac bit_cases :=
  intros;
  repeat match goal with
  | a : VNum.V |- _ => destruct a
  | a : Bit4.vvp_bit4_t |- _ => destruct a
  | b : bool |- _ => destruct b
  end;
  cbn in *; first [reflexivity | discriminate | intuition congruence].

#[export] Instance V_FourStateLaws : FourStateLaws VNum.V.
Proof. split; bit_cases. Qed.

#[export] Instance Bit4_FourStateLaws : FourStateLaws Bit4.vvp_bit4_t.
Proof. split; bit_cases. Qed.

(** The compile-time and the run-time encodings of the same bit. *)
Definition bit4_of_V (v : VNum.V) : Bit4.vvp_bit4_t :=
  match v with
  | VNum.V0 => Bit4.BIT4_0 | VNum.V1 => Bit4.BIT4_1
  | VNum.Vx => Bit4.BIT4_X | VNum.Vz => Bit4.BIT4_Z
  end.

(** ** The bit-serial adder *)

(** The carry into bit [i] of [x + y + c0] in two's complement. *)
Definition carry_into (x y : Z) (c0 : bool) (i : nat) : bool :=
  2 ^ Z.of_nat i <=? x mod 2 ^ Z.of_nat i + y mod 2 ^ Z.of_nat i + Z.b2z c0.

Lemma carry_into_0 x y c0 : carry_into x y c0 0 = c0.
Proof. unfold carry_into. simpl. rewrite !Z.mod_1_r. by destruct c0. Qed.

Lemma carry_into_b2z x y c0 i :
  Z.b2z (carry_into x y c0 i) =
    (x mod 2 ^ Z.of_nat i + y mod 2 ^ Z.of_nat i + Z.b2z c0) / 2 ^ Z.of_nat i.
Proof.
  unfold carry_into. pose proof (pow2_pos (Z.of_nat i) ltac:(lia)).
  set (p := 2 ^ Z.of_nat i) in *.
  pose proof (Z.mod_pos_bound x p). pose proof (Z.mod_pos_bound y p).
  assert (0 <= Z.b2z c0 <= 1) by (destruct c0; simpl; lia).
  set (t := x mod p + y mod p + Z.b2z c0) in *.
  destruct (Z.leb_spec p t); simpl Z.b2z.
  - apply (Z.div_unique t p 1 (t - p)); lia.
  - symmetry. apply Z.div_small. lia.
Qed.

Lemma sum_bit x y c0 i :
  Z.testbit (x + y + Z.b2z c0) (Z.of_nat i) =
    xorb (xorb (Z.testbit x (Z.of_nat i)) (Z.testbit y (Z.of_nat i))) (carry_into x y c0 i).
Proof.
  apply Z.b2z_inj. rewrite Z.testbit_spec' by lia.
  pose proof (pow2_pos (Z.of_nat i) ltac:(lia)) as Hp.
  pose proof (Z.testbit_spec' x (Z.of_nat i) ltac:(lia)) as Hx.
  pose proof (Z.testbit_spec' y (Z.of_nat i) ltac:(lia)) as Hy.
  pose proof (carry_into_b2z x y c0 i) as Hc.
  set (p := 2 ^ Z.of_nat i) in *.
  replace (x + y + Z.b2z c0) with
    ((x / p + y / p) * p + (x mod p + y mod p + Z.b2z c0))
    by (pose proof (Z.div_mod x p); pose proof (Z.div_mod y p); lia).
  rewrite Z.div_add_l, <- Hc by lia.
  destruct (Z.testbit x (Z.of_nat i)), (Z.testbit y (Z.of_nat i)),
    (carry_into x y c0 i); simpl Z.b2z in *;
    Z.div_mod_to_equations; lia.
Qed.

Lemma mod_pow2_S x i :
  x mod 2 ^ Z.of_nat (S i) =
    x mod 2 ^ Z.of_nat i + Z.b2z (Z.testbit x (Z.of_nat i)) * 2 ^ Z.of_nat i.
Proof. by rewrite <- !Zbits_of_Z. Qed.

Lemma carry_into_S x y c0 i :
  carry_into x y c0 (S i) =
    (Z.testbit x (Z.of_nat i) && Z.testbit y (Z.of_nat i)) ||
    (carry_into x y c0 i && xorb (Z.testbit x (Z.of_nat i)) (Z.testbit y (Z.of_nat i))).
Proof.
  unfold carry_into. rewrite !mod_pow2_S, pow2_S.
  pose proof (pow2_pos (Z.of_nat i) ltac:(lia)). set (p := 2 ^ Z.of_nat i) in *.
  pose proof (Z.mod_pos_bound x p). pose proof (Z.mod_pos_bound y p).
  destruct (Z.testbit x (Z.of_nat i)), (Z.testbit y (Z.of_nat i)), c0; simpl Z.b2z in *;
    split_ltb; simpl; lia.
Qed.

Section Ripple.
Context {A : Type} `{FourStateLaws A}.

(** [for (idx = start; idx < start+n; idx += 1)
       val_bits[idx] = add_with_carry(lf(idx), rf(idx), carry);] *)
Definition ripple (lf rf : nat -> A) (n start : nat) (s : list A * A) : list A * A :=
  for_loop n start
    (fun idx s =>
       let '(sum, c) := fs_add (lf idx) (rf idx) (snd s) in
       (<[idx := sum]> (fst s), c)) s.

Lemma fs_add_step x y c0 i :
  fs_add (fs_of_bool (Z.testbit x (Z.of_nat i))) (fs_of_bool (Z.testbit y (Z.of_nat i)))
    (fs_of_bool (carry_into x y c0 i)) =
  (fs_of_bool (A := A) (Z.testbit (x + y + Z.b2z c0) (Z.of_nat i)),
   fs_of_bool (carry_into x y c0 (S i))).
Proof. by rewrite fs_add_spec, sum_bit, carry_into_S. Qed.

(** Fed with the bits of [x] and [y], the loop writes the bits of their sum. *)
Lemma ripple_spec (lf rf : nat -> A) x y c0 n start vb :
  (forall i, (start <= i < start + n)%nat ->
     lf i = fs_of_bool (Z.testbit x (Z.of_nat i)) /\
     rf i = fs_of_bool (Z.testbit y (Z.of_nat i))) ->
  (start + n <= length vb)%nat ->
  exists vb',
    ripple lf rf n start (vb, fs_of_bool (carry_into x y c0 start)) =
      (vb', fs_of_bool (carry_into x y c0 (start + n))) /\
    length vb' = length vb /\
    (forall i, (start <= i < start + n)%nat ->
       vb' !! i = Some (fs_of_bool (Z.testbit (x + y + Z.b2z c0) (Z.of_nat i)))) /\
    (forall i, (i < start)%nat -> vb' !! i = vb !! i).
Proof.
  intros Hf Hlen.
  set (P := fun (k : nat) (s : list A * A) =>
    snd s = fs_of_bool (carry_into x y c0 k) /\ length (fst s) = length vb /\
    (forall i, (start <= i < k)%nat ->
       fst s !! i = Some (fs_of_bool (Z.testbit (x + y + Z.b2z c0) (Z.of_nat i)))) /\
    (forall i, (i < start)%nat -> fst s !! i = vb !! i)).
  assert (HP : P (start + n)%nat
    (ripple lf rf n start (vb, fs_of_bool (carry_into x y c0 start)))).
  { unfold ripple. apply (for_loop_ind P).
    - unfold P; simpl. repeat split; auto. intros; lia.
    - intros i [v c] Hi (Hc & Hl & Hb & Ho). simpl in *. subst c.
      destruct (Hf i Hi) as [-> ->]. rewrite fs_add_step.
      unfold P; simpl. rewrite length_insert. repeat split; auto.
      + intros j Hj. destruct (decide (i = j)) as [->|].
        * apply list_lookup_insert_eq. lia.
        * rewrite list_lookup_insert_ne by done. apply Hb. lia.
      + intros j Hj. rewrite list_lookup_insert_ne by lia. auto. }
  destruct (ripple lf rf n start _) as [vb' c'].
  destruct HP as (Hc & Hl & Hb & Ho). simpl in *. subst c'. eauto 10.
Qed.

(** The same loop accumulating in place:
    [val_bits[idx] = add_with_carry(lf(idx), val_bits[idx], carry);] *)
Definition ripple_acc (lf : nat -> A) (n start : nat) (s : list A * A) : list A * A :=
  for_loop n start
    (fun idx s =>
       let '(sum, c) := fs_add (lf idx) (default fs_x (fst s !! idx)) (snd s) in
       (<[idx := sum]> (fst s), c)) s.

Lemma ripple_acc_eq lf n start (vb vb0 : list A) c :
  (forall i, (start <= i)%nat -> vb !! i = vb0 !! i) ->
  ripple_acc lf n start (vb, c) = ripple lf (fun i => default fs_x (vb0 !! i)) n start (vb, c).
Proof.
  unfold ripple_acc, ripple. revert start vb c.
  induction n as [|n IH]; intros start vb c Hvb; simpl; [done|].
  rewrite Hvb by lia.
  destruct (fs_add _ _ _) as [sum c'] eqn:E; simpl.
  apply IH. intros i Hi. rewrite list_lookup_insert_ne by lia. apply Hvb. lia.
Qed.
End Ripple.
