(* ===== verification/Verinum.v ===== *)
(** * Verinum: the compile-time numbers of the compiler (verinum.h, verinum.cc)

    The record, the constructors, bit access, the conversions to native
    integers, the string forms and the width changes.  Arithmetic, comparison
    and division are in VerinumArith, VerinumCmp and VerinumDiv.

    [bits_]/[nbits_] are one list, least significant bit first.  Reads the C++
    code guards with [idx < len()] use the total [bit_at]; [get] keeps the
    assertion.  An aborted assertion is [None]. *)

From Stdlib Require Import Ascii.
From S2P Require Import Prelude FourState.
Import VNum.

Record verinum : Type := Verinum {
  bits_ : list V;
  has_len_ : bool;
  has_sign_ : bool;
  is_single_ : bool;
  string_flag_ : bool;
}.

Definition len (v : verinum) : nat := length (bits_ v).
Definition bit_at (v : verinum) (idx : nat) : V := default V0 (bits_ v !! idx).

Definition set_has_len (v : verinum) (flag : bool) : verinum :=
  Verinum (bits_ v) flag (has_sign_ v) (is_single_ v) (string_flag_ v).
Definition set_has_sign (v : verinum) (flag : bool) : verinum :=
  Verinum (bits_ v) (has_len_ v) flag (is_single_ v) (string_flag_ v).

(** ** Constructors *)

Definition verinum_default : verinum := Verinum [] false false false false.

(** [verinum(const V*bits, unsigned nbits, bool has_len)] *)
Definition verinum_of_bits (bits : list V) (nbits : nat) (has_len : bool) : verinum :=
  Verinum (take nbits bits) has_len false false false.

(** [verinum(V val, unsigned n, bool h)] *)
Definition verinum_fill (val : V) (n : nat) (h : bool) : verinum :=
  Verinum (replicate n val) h false false false.

(** The low [n] bits of a native integer, shifted out one at a time. *)
Fixpoint native_bits (n : nat) (val : Z) : list V :=
  match n with
  | O => []
  | S n' => (if Z.land val 1 =? 0 then V0 else V1) :: native_bits n' (Z.shiftr val 1)
  end.

(** [verinum(uint64_t val, unsigned n)] *)
Definition verinum_of_uint64 (val : Z) (n : nat) : verinum :=
  Verinum (native_bits n val) true false false false.

(** [while (tmp != 0) { nbits_ += 1; tmp /= 2; }] on an [int64_t]; 64 rounds
    are enough for any 64-bit value ([int64_nbits_exact]). *)
Fixpoint int64_nbits (fuel : nat) (tmp : Z) (nbits : nat) : nat :=
  match fuel with
  | O => nbits
  | S f => if tmp =? 0 then nbits else int64_nbits f (Z.quot tmp 2) (S nbits)
  end.

(** [verinum(int64_t that)] *)
Definition verinum_of_int64 (that : Z) : verinum :=
  let tmp := if that <? 0 then Z.quot (that + 1) 2 else Z.quot that 2 in
  let nbits := S (int64_nbits 64 tmp 1) in
  Verinum (native_bits nbits that) false true false false.

(** [verinum(const verinum&that, unsigned nbits)] *)
Definition verinum_resize (that : verinum) (nbits : nat) : verinum :=
  let copy := if (len that <? nbits)%nat then len that else nbits in
  let bits := take copy (bits_ that) in
  let bits :=
    if (copy <? nbits)%nat then
      if has_sign_ that || is_single_ that then
        for_loop (nbits - copy) copy (fun idx b => b ++ [default V0 (b !! (idx - 1)%nat)]) bits
      else bits ++ replicate (nbits - copy) V0
    else bits in
  Verinum bits true (has_sign_ that) false
    (string_flag_ that && (len that =? nbits)%nat).

(** ** Bit access *)

Definition get (v : verinum) (idx : nat) : option V := bits_ v !! idx.

Definition set (v : verinum) (idx : nat) (val : V) : verinum :=
  Verinum (<[idx := val]> (bits_ v)) (has_len_ v) (has_sign_ v) (is_single_ v) (string_flag_ v).

(** [void set(unsigned off, const verinum&val)] with its assertion *)
Definition set_range (v : verinum) (off : nat) (val : verinum) : option verinum :=
  if (off + len val <=? len v)%nat then
    Some (for_loop (len val) 0 (fun idx r => set r (off + idx) (bit_at val idx)) v)
  else None.

(** [sign_bit]: for a signed number the code asserts [len() > 0]. *)
Definition sign_bit (v : verinum) : V :=
  if has_sign_ v then bit_at v (len v - 1) else V0.

(** ** Predicates *)

Definition is_defined (v : verinum) : bool :=
  forallb (fun b => negb (bool_decide (b = Vx)) && negb (bool_decide (b = Vz))) (bits_ v).

Definition is_zero (v : verinum) : bool :=
  forallb (fun b => bool_decide (b = V0)) (bits_ v).

Definition is_negative (v : verinum) : bool :=
  bool_decide (bit_at v (len v - 1) = V1) && has_sign_ v.

(** The loop of [is_before], from the top bit down, on numbers of one length. *)
Fixpoint is_before_loop (l r : list V) (idx : nat) : bool :=
  match idx with
  | O => false
  | S i =>
    let a := V_to_int (default V0 (l !! i)) in
    let b := V_to_int (default V0 (r !! i)) in
    if a <? b then true else if b <? a then false else is_before_loop l r i
  end.

Definition is_before (this that : verinum) : bool :=
  if (len this <? len that)%nat then true
  else if (len that <? len this)%nat then false
  else is_before_loop (bits_ this) (bits_ that) (len this).

(** [while ((sbits > 1) && (bits_[sbits-off] == b)) sbits -= 1;] *)
Fixpoint drop_while_bit (v : verinum) (off : nat) (b : V) (sbits : nat) : nat :=
  match sbits with
  | S (S s' as s) =>
    if bool_decide (bit_at v (sbits - off) = b) then drop_while_bit v off b s else sbits
  | _ => sbits
  end.

Definition significant_bits (v : verinum) : nat :=
  if has_sign_ v then drop_while_bit v 2 (bit_at v (len v - 1)) (len v)
  else drop_while_bit v 1 V0 (len v).

Definition cast_to_int2 (v : verinum) : verinum :=
  Verinum (map (fun b => if decide (b = Vx \/ b = Vz) then V0 else b) (bits_ v))
    (has_len_ v) (has_sign_ v) (is_single_ v) (string_flag_ v).

(** ** Native integers *)

(** The loop shared by [as_unsigned], [as_ulong] and [as_ulong64]; [w] is the
    width of the returned type. *)
Fixpoint as_native_loop (w : Z) (bits : list V) (mask val : Z) : Z :=
  match bits with
  | [] => val
  | b :: r =>
    if decide (b = V1) then
      if mask =? 0 then Z.lnot mask mod 2 ^ w
      else as_native_loop w r (Z.shiftl mask 1 mod 2 ^ w) (Z.lor val mask)
    else as_native_loop w r (Z.shiftl mask 1 mod 2 ^ w) val
  end.

Definition as_native (w : Z) (v : verinum) : Z :=
  if (len v =? 0)%nat then 0
  else if negb (is_defined v) then 0
  else as_native_loop w (bits_ v) 1 0.

Definition as_unsigned (v : verinum) : Z := as_native 32 v.
Definition as_ulong (v : verinum) : Z := as_native 64 v.
Definition as_ulong64 (v : verinum) : Z := as_native 64 v.

Definition IVLLBITS : nat := 63.

(** [as_long], less the warning it prints when bits at or above IVLLBITS are
    lost.  The masks are two's complement integers. *)
Definition as_long (v : verinum) : Z :=
  if (len v =? 0)%nat then 0
  else if negb (is_defined v) then 0
  else
    let top := if (IVLLBITS <? len v)%nat then IVLLBITS else len v in
    if has_sign_ v && bool_decide (bit_at v (len v - 1) = V1) then
      fst (for_loop top 0
        (fun idx '(val, mask) =>
           (if decide (bit_at v idx = V0) then Z.land val mask else val,
            Z.lor (Z.shiftl mask 1) 1)) (-1, Z.lnot 1))
    else
      fst (for_loop top 0
        (fun idx '(val, mask) =>
           (if decide (bit_at v idx = V1) then Z.lor val mask else val,
            Z.shiftl mask 1)) (0, 1)).

(** ** Strings *)

#[export] Instance ascii_eq_dec : EqDecision ascii := ascii_dec.

Definition char_code (c : ascii) : Z := Z.of_nat (nat_of_ascii c).
(** The conversion of an [int] to [char]. *)
Definition char_of_Z (z : Z) : ascii := ascii_of_nat (Z.to_nat (z mod 256)).

Definition in_range (lo hi : Z) (c : ascii) : bool := (lo <=? char_code c) && (char_code c <=? hi).
Definition is_octal : ascii -> bool := in_range 48 55.

Definition backslash : ascii := "\"%char.
Definition dquote : ascii := ascii_of_nat 34.

(** [while (odx < 3 && idx+odx < str_len && '0' <= str[idx+odx] <= '7')]: the
    byte and the rest of the string; [n] is [3 - odx]. *)
Fixpoint octal_loop (n : nat) (str : list ascii) (byte_val : Z) : Z * list ascii :=
  match n, str with
  | S n', c :: rest =>
    if is_octal c then octal_loop n' rest ((8 * byte_val + char_code c - 48) mod 256)
    else (byte_val, str)
  | _, _ => (byte_val, str)
  end.

(** The loop of the [\x] case, entered after the [x]: [n] is [3 - odx], from 2. *)
Fixpoint hex_loop (n : nat) (str : list ascii) (byte_val : Z) : Z * list ascii :=
  match n, str with
  | S n', c :: rest =>
    if in_range 48 57 c then hex_loop n' rest ((16 * byte_val + char_code c - 48) mod 256)
    else if in_range 97 102 c then
      hex_loop n' rest ((16 * byte_val + char_code c - 97 + 10) mod 256)
    else if in_range 65 70 c then
      hex_loop n' rest ((16 * byte_val + char_code c - 65 + 10) mod 256)
    else (byte_val, str)
  | _, _ => (byte_val, str)
  end.

(** [process_verilog_string_quotes]; each round of the outer loop consumes at
    least one character, so [length str] rounds are enough.  A string that ends
    in a lone backslash fails the assertion. *)
Fixpoint process_quotes (fuel : nat) (str : list ascii) : option (list ascii) :=
  match fuel, str with
  | _, [] => Some []
  | O, _ => None
  | S f, c :: rest =>
    if decide (c = backslash) then
      match rest with
      | [] => None
      | e :: rest' =>
        if decide (e = "n"%char) then (char_of_Z 10 ::.) <$> process_quotes f rest'
        else if decide (e = "t"%char) then (char_of_Z 9 ::.) <$> process_quotes f rest'
        else if decide (e = "v"%char) then (char_of_Z 11 ::.) <$> process_quotes f rest'
        else if decide (e = "f"%char) then (char_of_Z 12 ::.) <$> process_quotes f rest'
        else if decide (e = "a"%char) then (char_of_Z 7 ::.) <$> process_quotes f rest'
        else if is_octal e then
          let '(byte_val, rest'') := octal_loop 3 rest 0 in
          (char_of_Z byte_val ::.) <$> process_quotes f rest''
        else if decide (e = "x"%char) then
          let '(byte_val, rest'') := hex_loop 2 rest' 0 in
          (char_of_Z byte_val ::.) <$> process_quotes f rest''
        else (e ::.) <$> process_quotes f rest'
      end
    else (c ::.) <$> process_quotes f rest
  end.

Definition process_verilog_string_quotes (str : list ascii) : option (list ascii) :=
  process_quotes (length str) str.

Definition V_of_bool (b : bool) : V := if b then V1 else V0.

(** The eight bits of a character, least significant first. *)
Definition char_bits (c : ascii) : list V :=
  match c with Ascii b0 b1 b2 b3 b4 b5 b6 b7 => map V_of_bool [b0; b1; b2; b3; b4; b5; b6; b7] end.

(** [verinum(const string&s)]: the first character ends up in the top byte. *)
Definition verinum_of_string (s : list ascii) : option verinum :=
  str ← process_verilog_string_quotes s;
  let nbits := (length str * 8)%nat in
  if (nbits =? 0)%nat then Some (Verinum (replicate 8 V0) true false false true)
  else Some (Verinum (concat (map char_bits (reverse str))) true false false true).

(** [isprint] in the C locale. *)
Definition isprint (c : ascii) : bool := in_range 32 126 c.

(** [snprintf(tmp, sizeof tmp, "\\%03o", c)] *)
Definition octal_digit (n : Z) : ascii := char_of_Z (48 + n).
Definition octal_escape (c : ascii) : list ascii :=
  [backslash; octal_digit (char_code c / 64); octal_digit (char_code c / 8 mod 8);
   octal_digit (char_code c mod 8)].

(** The character stored in the eight bits below [idx]. *)
Definition char_below (bits : list V) (idx : nat) : ascii :=
  let b k := bool_decide (default V0 (bits !! (idx - k)%nat) = V1) in
  Ascii (b 8%nat) (b 7%nat) (b 6%nat) (b 5%nat) (b 4%nat) (b 3%nat) (b 2%nat) (b 1%nat).

Definition print_char (c : ascii) : list ascii :=
  if decide (c = dquote \/ c = backslash) then octal_escape c
  else if isprint c then [c]
  else octal_escape c.

(** [for (idx = nbits_; idx > 0; idx -= 8)], [n] bytes to go. *)
Fixpoint as_string_loop (n : nat) (bits : list V) : list ascii :=
  match n with
  | O => []
  | S n' => print_char (char_below bits (8 * n)) ++ as_string_loop n' bits
  end.

Definition as_string (v : verinum) : option (list ascii) :=
  if (len v mod 8 =? 0)%nat then Some (as_string_loop (len v / 8) (bits_ v)) else None.

(** ** Width changes *)

(** The padding bit computed by [pad_to_width] and [cast_to_width]. *)
Definition pad_bit (that : verinum) : V :=
  let pad := bit_at that (len that - 1) in
  let pad := if bool_decide (pad = V1) && negb (has_sign_ that) && negb (is_single_ that)
             then V0 else pad in
  if has_len_ that && negb (has_sign_ that) && negb (is_single_ that) then
    let pad := if decide (pad = Vx) then V0 else pad in
    if decide (pad = Vz) then V0 else pad
  else pad.

(** [for (idx = 0; idx < n; idx += 1) val.set(idx, src(idx));] *)
Definition copy_loop (n : nat) (src : nat -> V) (val : verinum) : verinum :=
  for_loop n 0 (fun idx val => set val idx (src idx)) val.

Definition pad_to_width (that : verinum) (width : nat) : option verinum :=
  if (width <=? len that)%nat then Some that
  else if (len that =? 0)%nat then
    Some (set_has_sign (verinum_fill V0 width (has_len_ that)) (has_sign_ that))
  else
    let val := verinum_fill (pad_bit that) width (has_len_ that) in
    let val := copy_loop (len that) (bit_at that) val in
    let val := set_has_sign val (has_sign_ that) in
    if string_flag_ that && (width mod 8 =? 0)%nat then
      s ← as_string val; verinum_of_string s
    else Some val.

Definition cast_to_width (that : verinum) (width : nat) : verinum :=
  if has_len_ that && (len that =? width)%nat then that
  else if (width <=? len that)%nat then verinum_resize that width
  else if (len that =? 0)%nat then
    set_has_sign (verinum_fill V0 width true) (has_sign_ that)
  else
    let val := verinum_fill (pad_bit that) width true in
    let val := copy_loop (len that) (bit_at that) val in
    set_has_sign val (has_sign_ that).

(** [while ((top > 0) && (that.get(top) == b)) top -= 1;] *)
Fixpoint top_differs (v : verinum) (b : V) (top : nat) : nat :=
  match top with
  | O => O
  | S t => if bool_decide (bit_at v top = b) then top_differs v b t else top
  end.

Definition trim_vnum (that : verinum) : verinum :=
  if has_len_ that then that
  else if (len that <? 2)%nat then that
  else
    let cut tlen :=
      copy_loop tlen (bit_at that)
        (set_has_sign (verinum_fill V0 tlen false) (has_sign_ that)) in
    if has_sign_ that then
      let sign := bit_at that (len that - 1) in
      let top := top_differs that sign (len that - 1) in
      let top := if decide (bit_at that top <> sign) then (top + 1)%nat else top in
      cut (top + 1)%nat
    else
      let top := top_differs that V0 (len that - 1) in
      if (top + 1 =? len that)%nat then that
      else
        let tlen := (top + 2)%nat in
        let tlen := if decide (bit_at that top = V0) then (tlen - 1)%nat else tlen in
        cut tlen.

(** [signed_trim], used by the constructor from [double]. *)
Definition signed_trim (v : verinum) : verinum :=
  let tlen := (len v - 1)%nat in
  let sign := bit_at v tlen in
  let tlen := top_differs v sign tlen in
  let tlen := if decide (bit_at v tlen <> sign) then (tlen + 1)%nat else tlen in
  let tlen := (tlen + 1)%nat in
  if (tlen <? len v)%nat then
    Verinum (take tlen (bits_ v)) (has_len_ v) (has_sign_ v) (is_single_ v) (string_flag_ v)
  else v.

Definition concat_bits (left right : verinum) : verinum :=
  let res := verinum_fill V0 (len left + len right) true in
  let res := for_loop (len right) 0 (fun idx res => set res idx (bit_at right idx)) res in
  for_loop (len left) 0 (fun idx res => set res (idx + len right) (bit_at left idx)) res.

(** [concat]; the string case goes through the escaped text of both operands. *)
Definition concat_vnum (left right : verinum) : option verinum :=
  if string_flag_ left && string_flag_ right then
    l ← as_string left; r ← as_string right; verinum_of_string (l ++ r)
  else Some (concat_bits left right).

(** [operator ~ (const verinum&)] *)
Definition verinum_not (left : verinum) : verinum :=
  for_loop (len left) 0
    (fun idx val =>
       set val idx (match bit_at val idx with V0 => V1 | V1 => V0 | _ => Vx end)) left.
