(* ===== verification/VerinumValue.v ===== *)
(** * VerinumValue: the integer a verinum denotes

    [value v] is the two's complement (signed) or plain (unsigned) reading of
    the bits; [Z.testbit (value v)] is then exactly the infinite sequence the
    arithmetic operators see: the stored bits followed by [sign_bit v].  The
    lemmas here carry every arithmetic proof, and give the functional
    correctness of the constructors, conversions and width changes. *)

From S2P Require Import Prelude FourState Verinum.
Import VNum.

Definition is_one (b : V) : bool := bool_decide (b = V1).

(** The bits as an unsigned number; x and z count as 0. *)
Definition uval (bits : list V) : Z := Zbits (fun i => is_one (default V0 (bits !! i))) (length bits).

Definition value (v : verinum) : Z :=
  if has_sign_ v && is_one (bit_at v (len v - 1)) then uval (bits_ v) - 2 ^ Z.of_nat (len v)
  else uval (bits_ v).

(** A signed number has at least one bit (its sign). *)
Definition wf (v : verinum) : Prop := has_sign_ v = true -> (0 < len v)%nat.

#[export] Instance wf_dec v : Decision (wf v).
Proof. unfold wf. apply _. Defined.

Lemma uval_range bits : 0 <= uval bits < 2 ^ Z.of_nat (length bits).
Proof. apply Zbits_range. Qed.

Lemma testbit_uval bits (i : nat) :
  Z.testbit (uval bits) (Z.of_nat i) = is_one (default V0 (bits !! i)).
Proof.
  unfold uval. rewrite Zbits_testbit, Nat2Z.id by lia.
  destruct (Z.ltb_spec (Z.of_nat i) (Z.of_nat (length bits))); [done|].
  rewrite lookup_ge_None_2 by lia. done.
Qed.

Lemma testbit_value v (i : nat) :
  wf v ->
  Z.testbit (value v) (Z.of_nat i) =
    if (i <? len v)%nat then is_one (bit_at v i) else is_one (sign_bit v).
Proof.
  intros Hwf. unfold value, sign_bit, bit_at, wf, len in *.
  pose proof (uval_range (bits_ v)) as Hr.
  destruct (has_sign_ v); simpl.
  - specialize (Hwf eq_refl). destruct (is_one (default V0 (bits_ v !! _))) eqn:Hs.
    + replace (uval (bits_ v) - 2 ^ Z.of_nat (length (bits_ v))) with
        (uval (bits_ v) + -1 * 2 ^ Z.of_nat (length (bits_ v))) by lia.
      rewrite testbit_add_high, testbit_uval by lia.
      destruct (Nat.ltb_spec i (length (bits_ v))),
        (Z.ltb_spec (Z.of_nat i) (Z.of_nat (length (bits_ v)))); try lia; [done|].
      apply Z.bits_m1. lia.
    + rewrite testbit_uval. destruct (Nat.ltb_spec i (length (bits_ v))); [done|].
      by rewrite lookup_ge_None_2 by lia.
  - rewrite testbit_uval. destruct (Nat.ltb_spec i (length (bits_ v))); [done|].
    rewrite lookup_ge_None_2 by lia. done.
Qed.

Lemma uval_mod v : uval (bits_ v) = value v mod 2 ^ Z.of_nat (len v).
Proof.
  pose proof (uval_range (bits_ v)) as Hr. unfold value, len in *.
  destruct (has_sign_ v && _).
  - replace (uval (bits_ v) - 2 ^ Z.of_nat (length (bits_ v))) with
      (uval (bits_ v) + -1 * 2 ^ Z.of_nat (length (bits_ v))) by lia.
    rewrite Z.mod_add by lia. by rewrite Z.mod_small.
  - by rewrite Z.mod_small.
Qed.

Lemma value_unsigned v : has_sign_ v = false -> value v = uval (bits_ v).
Proof. unfold value. by intros ->. Qed.

Lemma value_range_unsigned v : has_sign_ v = false -> 0 <= value v < 2 ^ Z.of_nat (len v).
Proof. intros. rewrite value_unsigned by done. apply uval_range. Qed.

Lemma pow2_half n : (0 < n)%nat -> 2 ^ Z.of_nat n = 2 * 2 ^ (Z.of_nat n - 1).
Proof.
  intros. replace (Z.of_nat n) with (Z.succ (Z.of_nat n - 1)) at 1 by lia.
  rewrite Z.pow_succ_r by lia. done.
Qed.

Lemma top_bit u n : (0 < n)%nat -> 0 <= u < 2 ^ Z.of_nat n ->
  Z.testbit u (Z.of_nat (n - 1)) = (2 ^ (Z.of_nat n - 1) <=? u).
Proof.
  intros Hn Hu. rewrite pow2_half in Hu by done.
  replace (Z.of_nat (n - 1)) with (Z.of_nat n - 1) by lia.
  pose proof (pow2_pos (Z.of_nat n - 1) ltac:(lia)) as Hp.
  destruct (Z.leb_spec (2 ^ (Z.of_nat n - 1)) u) as [H|H].
  - apply Z.testbit_true; [lia|].
    replace (u / 2 ^ (Z.of_nat n - 1)) with 1; [done|].
    apply Z.div_unique with (u - 2 ^ (Z.of_nat n - 1)); lia.
  - apply Z.testbit_false; [lia|]. by rewrite Z.div_small by lia.
Qed.

Lemma value_range_signed v :
  has_sign_ v = true -> (0 < len v)%nat ->
  - 2 ^ (Z.of_nat (len v) - 1) <= value v < 2 ^ (Z.of_nat (len v) - 1).
Proof.
  intros Hs Hl. unfold value. rewrite Hs; simpl.
  pose proof (uval_range (bits_ v)) as Hr. fold (len v) in Hr.
  pose proof (top_bit (uval (bits_ v)) (len v) Hl Hr) as Ht.
  rewrite testbit_uval in Ht. unfold bit_at. rewrite Ht.
  rewrite pow2_half in Hr |- * by done.
  destruct (Z.leb_spec (2 ^ (Z.of_nat (len v) - 1)) (uval (bits_ v))); lia.
Qed.

(** ** Defined numbers *)

Lemma is_defined_lookup v i b :
  is_defined v = true -> bits_ v !! i = Some b -> b = V_of_bool (is_one b).
Proof.
  unfold is_defined. rewrite forallb_forall. intros H Hb.
  specialize (H b). apply list_elem_of_lookup_2, list_elem_of_In, H in Hb.
  by destruct b.
Qed.

Lemma is_defined_iff v :
  is_defined v = true <-> forall i b, bits_ v !! i = Some b -> b = V0 \/ b = V1.
Proof.
  split.
  - intros H i b Hb. rewrite (is_defined_lookup v i b H Hb). destruct b; simpl; auto.
  - intros H. unfold is_defined. apply forallb_forall. intros b Hb.
    apply list_elem_of_In, list_elem_of_lookup in Hb as [i Hi].
    destruct (H i b Hi); by subst.
Qed.

Lemma bit_defined v i : is_defined v = true -> bit_at v i = V_of_bool (is_one (bit_at v i)).
Proof.
  intros Hd. unfold bit_at. destruct (bits_ v !! i) eqn:E; [|done].
  simpl. by apply (is_defined_lookup v i).
Qed.

(** The two facts the arithmetic proofs use: the stored bits and the padding
    are the bits of [value v]. *)
Lemma bit_value v i :
  is_defined v = true -> wf v -> (i < len v)%nat ->
  bit_at v i = V_of_bool (Z.testbit (value v) (Z.of_nat i)).
Proof.
  intros Hd Hwf Hi. rewrite testbit_value by done.
  destruct (Nat.ltb_spec i (len v)); [|lia]. by apply bit_defined.
Qed.

Lemma pad_value v i :
  is_defined v = true -> wf v -> (len v <= i)%nat ->
  sign_bit v = V_of_bool (Z.testbit (value v) (Z.of_nat i)).
Proof.
  intros Hd Hwf Hi. rewrite testbit_value by done.
  destruct (Nat.ltb_spec i (len v)); [lia|].
  unfold sign_bit. destruct (has_sign_ v); [|done]. by apply bit_defined.
Qed.

(** Bits that are those of [z] denote [z] modulo [2^n], and [z] itself when it
    fits. *)
Lemma uval_bits bits z :
  (forall i, (i < length bits)%nat -> bits !! i = Some (V_of_bool (Z.testbit z (Z.of_nat i)))) ->
  uval bits = z mod 2 ^ Z.of_nat (length bits).
Proof.
  intros H. rewrite <- Zbits_of_Z. apply Zbits_ext. intros i Hi.
  rewrite H by done. simpl. by destruct (Z.testbit z (Z.of_nat i)).
Qed.

Lemma uval_is_one bits z :
  (forall i, (i < length bits)%nat ->
     is_one (default V0 (bits !! i)) = Z.testbit z (Z.of_nat i)) ->
  uval bits = z mod 2 ^ Z.of_nat (length bits).
Proof. intros H. rewrite <- Zbits_of_Z. by apply Zbits_ext. Qed.

Lemma value_fits v z :
  uval (bits_ v) = z mod 2 ^ Z.of_nat (len v) ->
  (if has_sign_ v then (0 < len v)%nat /\ - 2 ^ (Z.of_nat (len v) - 1) <= z < 2 ^ (Z.of_nat (len v) - 1)
   else 0 <= z < 2 ^ Z.of_nat (len v)) ->
  value v = z.
Proof.
  intros Hu Hz. destruct (has_sign_ v) eqn:Hs.
  - destruct Hz as [Hl Hz]. pose proof (value_range_signed v Hs Hl) as Hv.
    rewrite uval_mod, pow2_half in Hu by done.
    pose proof (pow2_pos (Z.of_nat (len v) - 1) ltac:(lia)).
    set (p := 2 ^ (Z.of_nat (len v) - 1)) in *.
    assert (Hd : (value v - z) mod (2 * p) = 0)
      by (rewrite Zminus_mod, Hu, Z.sub_diag; apply Z.mod_0_l; lia).
    apply Z.mod_divide in Hd; [|lia]. destruct Hd as [q Hq].
    assert (q = 0) by nia. lia.
  - rewrite value_unsigned, Hu by done. by apply Z.mod_small.
Qed.

Lemma is_defined_bits v z :
  (forall i, (i < len v)%nat -> bits_ v !! i = Some (V_of_bool (Z.testbit z (Z.of_nat i)))) ->
  is_defined v = true.
Proof.
  intros H. apply is_defined_iff. intros i b Hb.
  rewrite H in Hb by (by apply lookup_lt_Some in Hb).
  destruct (Z.testbit z (Z.of_nat i)); simplify_eq; simpl; auto.
Qed.

(** ** Lists of bits *)

Lemma lookup_map_seq {A} (f : nat -> A) n i :
  (map f (seq 0 n)) !! i = if (i <? n)%nat then Some (f i) else None.
Proof.
  change (map f (seq 0 n)) with (f <$> seq 0 n). rewrite list_lookup_fmap.
  destruct (Nat.ltb_spec i n).
  - rewrite lookup_seq_lt by lia. done.
  - by rewrite lookup_seq_ge by lia.
Qed.

Lemma set_loop_bits (src : nat -> V) n l :
  (n <= length l)%nat ->
  for_loop n 0 (fun i b => <[i := src i]> b) l = map src (seq 0 n) ++ drop n l.
Proof.
  intros Hn.
  apply (for_loop_ind (fun k b => (k <= n)%nat -> b = map src (seq 0 k) ++ drop k l) n 0); [..|lia].
  - done.
  - intros i b Hi Hb Hin. rewrite Hb by lia.
    rewrite insert_app_r_alt by (rewrite length_map, length_seq; lia).
    rewrite length_map, length_seq, Nat.sub_diag.
    destruct (drop i l) as [|x r] eqn:E.
    { apply (f_equal length) in E. rewrite length_drop in E. simpl in E. lia. }
    assert (Hr : r = drop (S i) l).
    { replace (S i) with (i + 1)%nat by lia. rewrite <- drop_drop, E. done. }
    rewrite seq_S, map_app, <- app_assoc, Hr. done.
Qed.

Lemma for_loop_set (f : nat -> V) (g : nat -> nat) n start v :
  for_loop n start (fun i r => set r (g i) (f i)) v =
  Verinum (for_loop n start (fun i b => <[g i := f i]> b) (bits_ v))
    (has_len_ v) (has_sign_ v) (is_single_ v) (string_flag_ v).
Proof.
  revert start v. induction n as [|n IH]; intros start v; simpl; [by destruct v|].
  by rewrite IH.
Qed.

Lemma copy_loop_eq n src v :
  (n <= len v)%nat ->
  copy_loop n src v =
  Verinum (map src (seq 0 n) ++ drop n (bits_ v))
    (has_len_ v) (has_sign_ v) (is_single_ v) (string_flag_ v).
Proof.
  intros. unfold copy_loop. rewrite (for_loop_set src (fun i => i)). by rewrite set_loop_bits.
Qed.

Lemma map_bit_at v n : (n <= len v)%nat -> map (bit_at v) (seq 0 n) = take n (bits_ v).
Proof.
  intros Hn. apply list_eq. intros i. rewrite lookup_map_seq. unfold bit_at, len in *.
  destruct (Nat.ltb_spec i n).
  - rewrite lookup_take_lt by done. destruct (bits_ v !! i) eqn:E; [done|].
    apply lookup_ge_None in E. lia.
  - rewrite lookup_take_ge by done. done.
Qed.

Lemma copy_fill_eq that w p h :
  (len that <= w)%nat ->
  copy_loop (len that) (bit_at that) (verinum_fill p w h) =
  Verinum (bits_ that ++ replicate (w - len that) p) h false false false.
Proof.
  intros. rewrite copy_loop_eq by (unfold len at 2; simpl; rewrite length_replicate; lia).
  simpl. rewrite map_bit_at by done. unfold len. by rewrite firstn_all, drop_replicate.
Qed.

Lemma cut_eq that tlen s :
  (tlen <= len that)%nat ->
  copy_loop tlen (bit_at that) (set_has_sign (verinum_fill V0 tlen false) s) =
  Verinum (take tlen (bits_ that)) false s false false.
Proof.
  intros. rewrite copy_loop_eq by (unfold len; simpl; rewrite length_replicate; lia).
  simpl. rewrite map_bit_at by done.
  rewrite drop_ge, app_nil_r by (rewrite length_replicate; lia). done.
Qed.

(** [for (idx = start; idx < start+n; idx += 1) b[idx] = f(idx);] *)
Lemma set_from_loop (f : nat -> V) n start (l : list V) :
  (start + n <= length l)%nat ->
  let l' := for_loop n start (fun i b => <[i := f i]> b) l in
  length l' = length l /\
  forall i, l' !! i = if (start <=? i)%nat && (i <? start + n)%nat then Some (f i) else l !! i.
Proof.
  intros Hn.
  apply (for_loop_ind (fun k b => length b = length l /\
    forall i, b !! i = if (start <=? i)%nat && (i <? k)%nat then Some (f i) else l !! i)).
  - split; [done|]. intros i. destruct (Nat.leb_spec start i), (Nat.ltb_spec i start); done || lia.
  - intros i b Hi [Hl Hb]. rewrite length_insert. split; [done|]. intros j.
    destruct (decide (i = j)) as [->|].
    + rewrite list_lookup_insert_eq by lia.
      destruct (Nat.leb_spec start j), (Nat.ltb_spec j (S j)); done || lia.
    + rewrite list_lookup_insert_ne, Hb by done.
      destruct (Nat.leb_spec start j), (Nat.ltb_spec j i), (Nat.ltb_spec j (S i)); done || lia.
Qed.

(** ** Trimming *)

Lemma top_differs_spec v b top :
  let t := top_differs v b top in
  (t <= top)%nat /\ (forall i, (t < i <= top)%nat -> bit_at v i = b) /\
  (t = 0%nat \/ bit_at v t <> b).
Proof.
  induction top as [|top IH]; simpl.
  - split; [lia|]. split; [intros; lia|auto].
  - case_bool_decide as Hb; simpl in *.
    + destruct IH as (H1 & H2 & H3). split; [lia|]. split; [|done].
      intros i Hi. destruct (decide (i = S top)) as [->|]; [done|]. apply H2. lia.
    + split; [lia|]. split; [intros; lia|]. by right.
Qed.

(** Dropping copies of the sign (or leading zeros of an unsigned number) keeps
    every bit of the value. *)
Lemma take_value v r n :
  bits_ r = take n (bits_ v) -> has_sign_ r = has_sign_ v -> (0 < n <= len v)%nat ->
  (forall i, (n <= i < len v)%nat -> bit_at v i = if has_sign_ v then bit_at v (n - 1) else V0) ->
  value r = value v.
Proof.
  intros Hb Hs Hn Hext.
  assert (Hlen : len r = n) by (unfold len in *; rewrite Hb, length_take; lia).
  assert (Hbit : forall i, (i < n)%nat -> bit_at r i = bit_at v i).
  { intros i Hi. unfold bit_at. by rewrite Hb, lookup_take_lt. }
  apply Z.bits_inj'. intros i Hi. rewrite <- (Z2Nat.id i) by lia.
  rewrite !testbit_value by (unfold wf; intros; lia).
  rewrite Hlen. destruct (Nat.ltb_spec (Z.to_nat i) n) as [H1|H1].
  - destruct (Nat.ltb_spec (Z.to_nat i) (len v)); [|lia]. by rewrite Hbit.
  - unfold sign_bit. rewrite Hs, Hlen, Hbit by lia.
    destruct (Nat.ltb_spec (Z.to_nat i) (len v)) as [H2|H2].
    + rewrite (Hext (Z.to_nat i)) by lia. by destruct (has_sign_ v).
    + destruct (has_sign_ v) eqn:E; [|done].
      destruct (decide (n = len v)) as [->|]; [done|]. by rewrite (Hext (len v - 1)%nat) by lia.
Qed.

(** The three outcomes of [trim_vnum]. *)
Lemma trim_vnum_cases v :
  trim_vnum v = v \/
  exists n, (0 < n <= len v)%nat /\ has_len_ v = false /\
    trim_vnum v = Verinum (take n (bits_ v)) false (has_sign_ v) false false /\
    (forall i, (n <= i < len v)%nat -> bit_at v i = if has_sign_ v then bit_at v (n - 1) else V0).
Proof.
  unfold trim_vnum. destruct (has_len_ v) eqn:Hl; [by left|].
  destruct (Nat.ltb_spec (len v) 2); [by left|].
  destruct (has_sign_ v) eqn:Hs.
  - right. pose proof (top_differs_spec v (bit_at v (len v - 1)) (len v - 1)) as Ht.
    cbv zeta in Ht. set (t := top_differs _ _ _) in *. destruct Ht as (H1 & H2 & H3).
    case_decide as Hd.
    + assert (t <> (len v - 1)%nat) by (intros E; by rewrite E in Hd).
      exists (t + 1 + 1)%nat. rewrite cut_eq by lia. repeat split; [lia|lia|].
      intros i Hi. replace (t + 1 + 1 - 1)%nat with (t + 1)%nat by lia.
      rewrite (H2 i), (H2 (t + 1)%nat) by lia. done.
    + exists (t + 1)%nat. rewrite cut_eq by lia. repeat split; [lia|lia|].
      intros i Hi. replace (t + 1 - 1)%nat with t by lia. rewrite (H2 i) by lia. done.
  - pose proof (top_differs_spec v V0 (len v - 1)) as Ht.
    cbv zeta in Ht. set (t := top_differs _ _ _) in *. destruct Ht as (H1 & H2 & H3).
    destruct (Nat.eqb_spec (t + 1) (len v)); [by left|]. right.
    case_decide as Hd.
    + exists (t + 2 - 1)%nat. rewrite cut_eq by lia. repeat split; [lia|lia|].
      intros i Hi. apply H2. lia.
    + exists (t + 2)%nat. rewrite cut_eq by lia. repeat split; [lia|lia|].
      intros i Hi. apply H2. lia.
Qed.

Lemma trim_vnum_value v : value (trim_vnum v) = value v.
Proof.
  destruct (trim_vnum_cases v) as [->|(n & Hn & _ & -> & Hext)]; [done|].
  by apply (take_value v _ n).
Qed.

Lemma trim_vnum_has_sign v : has_sign_ (trim_vnum v) = has_sign_ v.
Proof. by destruct (trim_vnum_cases v) as [->|(n & Hn & _ & -> & Hext)]. Qed.

Lemma trim_vnum_has_len v : has_len_ (trim_vnum v) = has_len_ v.
Proof. by destruct (trim_vnum_cases v) as [->|(n & Hn & Hl & -> & Hext)]. Qed.

Lemma trim_vnum_sized v : has_len_ v = true -> trim_vnum v = v.
Proof. unfold trim_vnum. by intros ->. Qed.

Lemma is_defined_take v r n :
  bits_ r = take n (bits_ v) -> is_defined v = true -> is_defined r = true.
Proof.
  rewrite !is_defined_iff. intros Hb Hd i b Hi. apply (Hd i).
  rewrite Hb in Hi. by apply lookup_take_Some in Hi as [? _].
Qed.

Lemma trim_vnum_defined v : is_defined v = true -> is_defined (trim_vnum v) = true.
Proof.
  intros Hd. destruct (trim_vnum_cases v) as [->|(n & Hn & _ & -> & _)]; [done|].
  by apply (is_defined_take v _ n).
Qed.

Lemma trim_vnum_wf v : wf v -> wf (trim_vnum v).
Proof.
  intros Hwf. destruct (trim_vnum_cases v) as [->|(n & Hn & _ & -> & _)]; [done|].
  unfold wf, len in *; simpl. rewrite length_take. lia.
Qed.

Lemma trim_vnum_len v : (len (trim_vnum v) <= len v)%nat /\ ((0 < len v)%nat -> (0 < len (trim_vnum v))%nat).
Proof.
  destruct (trim_vnum_cases v) as [->|(n & Hn & _ & -> & _)]; [lia|].
  unfold len in *; simpl. rewrite length_take. lia.
Qed.
