(* ===== verification/VerinumArith.v ===== *)
(** * VerinumArith: addition, subtraction, multiplication and shifts
    (verinum.cc)

    The operators as the code runs them, bit by bit, and their meaning: on
    defined operands a sized result is the exact result modulo [2^len], and the
    result for unsized operands is the exact integer (except for unsigned
    subtraction, which the code lets wrap). *)

From S2P Require Import Prelude FourState Verinum VerinumValue.
Import VNum.

(** [verinum result (Vx, len, has_len_flag); result.has_sign(signed_flag);] *)
Definition undefined_result (len : nat) (has_len_flag signed_flag : bool) : verinum :=
  set_has_sign (verinum_fill Vx len has_len_flag) signed_flag.

(** The column loops of binary [+] and [-]: [val_bits] (uninitialised at first)
    and the final carry.  [rbit] is the identity for [+] and [~] for [-]. *)
Definition add_columns (rbit : V -> V) (left right : verinum) (carry : V) : list V * V :=
  let min_len := Nat.min (len left) (len right) in
  let max_len := Nat.max (len left) (len right) in
  let val_bits := replicate (max_len + 1) V0 in
  let s := ripple (bit_at left) (fun idx => rbit (bit_at right idx)) min_len 0 (val_bits, carry) in
  let rpad := sign_bit right in
  let lpad := sign_bit left in
  if (len right <? len left)%nat then
    ripple (bit_at left) (fun _ => rbit rpad) (max_len - min_len) min_len s
  else
    ripple (fun _ => lpad) (fun idx => rbit (bit_at right idx)) (max_len - min_len) min_len s.

(** [operator + (const verinum&, const verinum&)] *)
Definition verinum_plus (left right : verinum) : verinum :=
  let has_len_flag := has_len_ left && has_len_ right in
  let signed_flag := has_sign_ left && has_sign_ right in
  let max_len := Nat.max (len left) (len right) in
  if negb (is_defined left) || negb (is_defined right) then
    undefined_result (if has_len_flag then max_len else 1%nat) has_len_flag signed_flag
  else
    let '(val_bits, carry) := add_columns id left right V0 in
    let '(val_bits, rlen) :=
      if negb has_len_flag then
        let top := fst (add_with_carry (sign_bit left) (sign_bit right) carry) in
        let val_bits := <[max_len := top]> val_bits in
        if signed_flag then
          (val_bits, if decide (Some top <> val_bits !! (max_len - 1)%nat)
                     then (max_len + 1)%nat else max_len)
        else (val_bits, if decide (top <> V0) then (max_len + 1)%nat else max_len)
      else (val_bits, max_len) in
    set_has_sign (verinum_of_bits val_bits rlen has_len_flag) signed_flag.

(** [operator - (const verinum&, const verinum&)] *)
Definition verinum_minus (left right : verinum) : verinum :=
  let has_len_flag := has_len_ left && has_len_ right in
  let signed_flag := has_sign_ left && has_sign_ right in
  let max_len := Nat.max (len left) (len right) in
  if negb (is_defined left) || negb (is_defined right) then
    undefined_result (if has_len_flag then max_len else 1%nat) has_len_flag signed_flag
  else
    let '(val_bits, carry) := add_columns V_not left right V1 in
    let '(val_bits, rlen) :=
      if signed_flag && negb has_len_flag then
        let top := fst (add_with_carry (sign_bit left) (V_not (sign_bit right)) carry) in
        let val_bits := <[max_len := top]> val_bits in
        (val_bits, if decide (Some top <> val_bits !! (max_len - 1)%nat)
                   then (max_len + 1)%nat else max_len)
      else (val_bits, max_len) in
    set_has_sign (verinum_of_bits val_bits rlen has_len_flag) signed_flag.

(** [operator - (const verinum&)] *)
Definition verinum_uminus (right : verinum) : verinum :=
  let has_len_flag := has_len_ right in
  let signed_flag := has_sign_ right in
  let rlen := len right in
  if negb (is_defined right) then
    undefined_result (if has_len_flag then rlen else 1%nat) has_len_flag signed_flag
  else
    let '(val_bits, carry) :=
      ripple (fun _ => V0) (fun idx => V_not (bit_at right idx)) rlen 0
        (replicate (rlen + 1) V0, V1) in
    let '(val_bits, rlen) :=
      if signed_flag && negb has_len_flag then
        let top := fst (add_with_carry V0 (V_not (sign_bit right)) carry) in
        let val_bits := <[rlen := top]> val_bits in
        (val_bits, if decide (Some top <> val_bits !! (rlen - 1)%nat)
                   then (rlen + 1)%nat else rlen)
      else (val_bits, rlen) in
    set_has_sign (verinum_of_bits val_bits rlen has_len_flag) signed_flag.

(** The inner loop of [operator *]: add the left operand, shifted by [rdx], into
    the result. *)
Definition times_row (left : verinum) (rlen rdx : nat) (bits : list V) : list V :=
  fst (ripple_acc
         (fun idx => let ldx := (idx - rdx)%nat in
            if (ldx <? len left)%nat then bit_at left ldx else sign_bit left)
         (rlen - rdx) rdx (bits, V0)).

(** [operator * (const verinum&, const verinum&)] *)
Definition verinum_times (left right : verinum) : verinum :=
  let has_len_flag := has_len_ left && has_len_ right in
  let signed_flag := has_sign_ left && has_sign_ right in
  let l_len := len left in
  let r_len := len right in
  let rlen := if has_len_flag then Nat.max l_len r_len else (l_len + r_len)%nat in
  if negb (is_defined left) || negb (is_defined right) then
    undefined_result (if has_len_flag then rlen else 1%nat) has_len_flag signed_flag
  else
    let bits :=
      for_loop rlen 0
        (fun rdx bits =>
           let r_bit := if (rdx <? r_len)%nat then bit_at right rdx else sign_bit right in
           if decide (r_bit = V0) then bits else times_row left rlen rdx bits)
        (replicate rlen V0) in
    trim_vnum (Verinum bits has_len_flag signed_flag false false).

(** [operator << (const verinum&, unsigned)] *)
Definition verinum_shl (that : verinum) (shift : nat) : verinum :=
  let has_len_flag := has_len_ that in
  let rlen := if has_len_flag then len that else (len that + shift)%nat in
  let result := set_has_sign (verinum_fill V0 rlen has_len_flag) (has_sign_ that) in
  trim_vnum
    (for_loop (rlen - shift) shift (fun idx r => set r idx (bit_at that (idx - shift))) result).

(** [operator >> (const verinum&, unsigned)] *)
Definition verinum_shr (that : verinum) (shift : nat) : verinum :=
  let has_len_flag := has_len_ that in
  let rlen := len that in
  let sgn_bit := if has_sign_ that then bit_at that (rlen - 1) else V0 in
  if (rlen <=? shift)%nat then
    set_has_sign (verinum_fill sgn_bit (if has_len_flag then rlen else 1%nat) has_len_flag)
      (has_sign_ that)
  else
    let result :=
      set_has_sign (verinum_fill sgn_bit (if has_len_flag then rlen else (rlen - shift)%nat) has_len_flag)
        (has_sign_ that) in
    trim_vnum
      (for_loop (rlen - shift) shift (fun idx r => set r (idx - shift) (bit_at that idx)) result).

(** ** Addition and subtraction *)

Lemma V_not_of_bool b : V_not (V_of_bool b) = V_of_bool (negb b).
Proof. by destruct b. Qed.

Lemma V_add_step x y c0 i :
  add_with_carry (V_of_bool (Z.testbit x (Z.of_nat i))) (V_of_bool (Z.testbit y (Z.of_nat i)))
    (V_of_bool (carry_into x y c0 i)) =
  (V_of_bool (Z.testbit (x + y + Z.b2z c0) (Z.of_nat i)), V_of_bool (carry_into x y c0 (S i))).
Proof. exact (fs_add_step (A := V) x y c0 i). Qed.

(** The columns are the bits of [x + y + c0], where [y] is the right operand or
    its complement. *)
Lemma add_columns_spec rbit left right y c0 :
  is_defined left = true -> wf left -> is_defined right = true -> wf right ->
  (forall i, rbit (V_of_bool (Z.testbit (value right) (Z.of_nat i))) =
             V_of_bool (Z.testbit y (Z.of_nat i))) ->
  let m := Nat.max (len left) (len right) in
  exists vb,
    add_columns rbit left right (V_of_bool c0) =
      (vb, V_of_bool (carry_into (value left) y c0 m)) /\
    length vb = (m + 1)%nat /\
    forall i, (i < m)%nat ->
      vb !! i = Some (V_of_bool (Z.testbit (value left + y + Z.b2z c0) (Z.of_nat i))).
Proof.
  intros Hdl Hwl Hdr Hwr Hy m. unfold add_columns. fold m.
  set (k := Nat.min (len left) (len right)).
  assert (V_of_bool c0 = fs_of_bool (carry_into (value left) y c0 0)) as ->
    by by rewrite carry_into_0.
  destruct (ripple_spec (bit_at left) (fun idx => rbit (bit_at right idx)) (value left) y c0 k 0
    (replicate (m + 1) V0)) as (vb1 & E1 & Hl1 & Hb1 & _).
  { intros i Hi. rewrite (bit_value left), (bit_value right), Hy by (done || lia). done. }
  { rewrite length_replicate. lia. }
  rewrite length_replicate in Hl1. rewrite E1. simpl (0 + k)%nat.
  match goal with |- exists vb, ?t = _ /\ _ =>
    assert (Hs : exists lf rf, t =
      ripple lf rf (m - k) k (vb1, fs_of_bool (carry_into (value left) y c0 k)) /\
      forall i, (k <= i < k + (m - k))%nat ->
        lf i = fs_of_bool (Z.testbit (value left) (Z.of_nat i)) /\
        rf i = fs_of_bool (Z.testbit y (Z.of_nat i))) end.
  { destruct (Nat.ltb_spec (len right) (len left)); do 2 eexists; (split; [reflexivity|]);
      intros i Hi; simpl.
    - rewrite (bit_value left), (pad_value right i), Hy by (done || lia). done.
    - rewrite (pad_value left i), (bit_value right), Hy by (done || lia). done. }
  destruct Hs as (lf & rf & -> & Hf).
  destruct (ripple_spec lf rf (value left) y c0 (m - k) k vb1 Hf) as (vb2 & E2 & Hl2 & Hb2 & Ho2);
    [lia|].
  replace (k + (m - k))%nat with m in E2, Hb2 by lia.
  exists vb2. rewrite E2. split; [reflexivity|]. split; [lia|].
  intros i Hi. destruct (Nat.lt_ge_cases i k).
  - rewrite Ho2 by lia. apply Hb1. lia.
  - apply Hb2. lia.
Qed.

(** The extra column. *)
Lemma top_column left rpad y c0 i :
  is_defined left = true -> wf left -> (len left <= i)%nat ->
  rpad = V_of_bool (Z.testbit y (Z.of_nat i)) ->
  fst (add_with_carry (sign_bit left) rpad (V_of_bool (carry_into (value left) y c0 i))) =
    V_of_bool (Z.testbit (value left + y + Z.b2z c0) (Z.of_nat i)).
Proof.
  intros Hd Hw Hi ->. rewrite (pad_value left i) by done. by rewrite V_add_step.
Qed.

(** A sum whose two top bits agree fits in one bit less. *)
Lemma top_bits_equal s m :
  (0 < m)%nat -> - 2 ^ Z.of_nat m <= s < 2 ^ Z.of_nat m ->
  Z.testbit s (Z.of_nat m) = Z.testbit s (Z.of_nat (m - 1)) ->
  - 2 ^ (Z.of_nat m - 1) <= s < 2 ^ (Z.of_nat m - 1).
Proof.
  intros Hm Hs Ht. apply (f_equal Z.b2z) in Ht. rewrite !Z.testbit_spec' in Ht by lia.
  rewrite pow2_half in Hs, Ht by done.
  replace (Z.of_nat (m - 1)) with (Z.of_nat m - 1) in Ht by lia.
  pose proof (pow2_pos (Z.of_nat m - 1) ltac:(lia)). set (p := 2 ^ (Z.of_nat m - 1)) in *.
  rewrite (Z.mul_comm 2 p), <- Z.div_div in Ht by lia.
  assert (s / p = -2 \/ s / p = -1 \/ s / p = 0 \/ s / p = 1) as Hq.
  { assert (-2 <= s / p) by (apply Z.div_le_lower_bound; lia).
    assert (s / p < 2) by (apply Z.div_lt_upper_bound; lia). lia. }
  pose proof (Z.div_mod s p ltac:(lia)). pose proof (Z.mod_pos_bound s p ltac:(lia)).
  destruct Hq as [Hq|[Hq|[Hq|Hq]]]; rewrite Hq in *; cbn in Ht; try discriminate; lia.
Qed.

Lemma pow2_le a b : (a <= b)%nat -> 2 ^ (Z.of_nat a) <= 2 ^ (Z.of_nat b).
Proof. intros. apply Z.pow_le_mono_r; lia. Qed.

(** Both operands lie in the signed range of the wider one. *)
Lemma value_range_wide v m :
  has_sign_ v = true -> (0 < len v <= m)%nat ->
  - 2 ^ (Z.of_nat m - 1) <= value v < 2 ^ (Z.of_nat m - 1).
Proof.
  intros Hs Hm. pose proof (value_range_signed v Hs ltac:(lia)).
  assert (2 ^ (Z.of_nat (len v) - 1) <= 2 ^ (Z.of_nat m - 1)) by (apply Z.pow_le_mono_r; lia). lia.
Qed.

Lemma value_range_wide_u v m :
  has_sign_ v = false -> (len v <= m)%nat -> 0 <= value v < 2 ^ Z.of_nat m.
Proof. intros Hs Hm. pose proof (value_range_unsigned v Hs). pose proof (pow2_le _ _ Hm). lia. Qed.

(** The number made of the first [n] columns. *)
Lemma uval_take (vb : list V) n z :
  (n <= length vb)%nat ->
  (forall i, (i < n)%nat -> vb !! i = Some (V_of_bool (Z.testbit z (Z.of_nat i)))) ->
  uval (take n vb) = z mod 2 ^ Z.of_nat n.
Proof.
  intros Hn Hb. rewrite (uval_bits _ z).
  - by rewrite length_take, Nat.min_l.
  - rewrite length_take. intros i Hi. rewrite lookup_take_lt by lia. apply Hb. lia.
Qed.

Lemma take_defined (vb : list V) n z hl hs sg st :
  (n <= length vb)%nat ->
  (forall i, (i < n)%nat -> vb !! i = Some (V_of_bool (Z.testbit z (Z.of_nat i)))) ->
  is_defined (Verinum (take n vb) hl hs sg st) = true.
Proof.
  intros Hn Hb. apply (is_defined_bits _ z). unfold len; simpl. rewrite length_take.
  intros i Hi. rewrite lookup_take_lt by lia. apply Hb. lia.
Qed.

(** The shape shared by the three results: the columns of [z], cut where the
    code cuts them. *)
Definition columns_result (z : Z) (m : nat) (hl hs extend : bool) (r : verinum) : Prop :=
  has_len_ r = hl /\ has_sign_ r = hs /\ is_defined r = true /\
  uval (bits_ r) = z mod 2 ^ Z.of_nat (len r) /\
  (len r = m \/
   (len r = (m + 1)%nat /\ extend = true)) /\
  (extend = true -> len r = m ->
   Z.testbit z (Z.of_nat m) = if hs then Z.testbit z (Z.of_nat (m - 1)) else false).

Lemma columns_result_intro z m hl (hs : bool) extend (vb : list V) n :
  (n <= length vb)%nat ->
  (forall i, (i < n)%nat -> vb !! i = Some (V_of_bool (Z.testbit z (Z.of_nat i)))) ->
  n = m \/ n = (m + 1)%nat /\ extend = true ->
  (extend = true -> n = m ->
   Z.testbit z (Z.of_nat m) = if hs then Z.testbit z (Z.of_nat (m - 1)) else false) ->
  columns_result z m hl hs extend (set_has_sign (verinum_of_bits vb n hl) hs).
Proof.
  intros Hn Hb Hm Htop.
  assert (Hlen : len (set_has_sign (verinum_of_bits vb n hl) hs) = n)
    by (unfold len; simpl; rewrite length_take; lia).
  unfold columns_result. rewrite Hlen. repeat split; [| |done|done].
  - by apply (take_defined vb n z).
  - by apply uval_take.
Qed.

Lemma insert_top (vb : list V) m z :
  length vb = (m + 1)%nat ->
  (forall i, (i < m)%nat -> vb !! i = Some (V_of_bool (Z.testbit z (Z.of_nat i)))) ->
  forall i : nat, (i < m + 1)%nat ->
    (<[m := V_of_bool (Z.testbit z (Z.of_nat m))]> vb : list V) !! i =
      Some (V_of_bool (Z.testbit z (Z.of_nat i))).
Proof.
  intros Hl Hb i Hi. destruct (decide (i = m)) as [->|].
  - rewrite list_lookup_insert_eq by lia. done.
  - rewrite list_lookup_insert_ne by done. apply Hb. lia.
Qed.

Lemma V_of_bool_inj a b : V_of_bool a = V_of_bool b -> a = b.
Proof. by destruct a, b. Qed.

(** The shapes of the three operators. *)
Lemma verinum_plus_columns l r :
  is_defined l = true -> wf l -> is_defined r = true -> wf r ->
  columns_result (value l + value r) (Nat.max (len l) (len r))
    (has_len_ l && has_len_ r) (has_sign_ l && has_sign_ r)
    (negb (has_len_ l && has_len_ r)) (verinum_plus l r).
Proof.
  intros Hdl Hwl Hdr Hwr. unfold verinum_plus. rewrite Hdl, Hdr. simpl negb.
  destruct (add_columns_spec id l r (value r) false) as (vb & E & Hl & Hb); [done..|].
  change V0 with (V_of_bool false) at 1. rewrite E. simpl Z.b2z in *. rewrite Z.add_0_r in Hb.
  set (m := Nat.max (len l) (len r)) in *. simpl orb. cbv iota.
  assert (Htop : fst (add_with_carry (sign_bit l) (sign_bit r)
      (V_of_bool (carry_into (value l) (value r) false m))) =
    V_of_bool (Z.testbit (value l + value r) (Z.of_nat m))).
  { rewrite (top_column l _ (value r)), Z.add_0_r; [done..|lia|].
    apply pad_value; [done..|lia]. }
  destruct (has_len_ l && has_len_ r); simpl negb; cbv iota.
  - apply columns_result_intro; [lia|done|by left|done].
  - rewrite Htop. pose proof (insert_top vb m _ Hl Hb) as Hb'.
    destruct (has_sign_ l && has_sign_ r) eqn:Hs.
    + assert (0 < m)%nat by (unfold wf in *; destruct (has_sign_ l); simpl in Hs; [|done];
        specialize (Hwl eq_refl); lia).
      rewrite Hb' by lia. case_decide as Hd.
      * apply columns_result_intro; [rewrite length_insert; lia|done|by right|lia].
      * apply columns_result_intro; [rewrite length_insert; lia|intros; apply Hb'; lia|by left|].
        intros _ _. apply V_of_bool_inj. by simplify_eq.
    + case_decide as Hd.
      * apply columns_result_intro; [rewrite length_insert; lia|done|by right|lia].
      * apply columns_result_intro; [rewrite length_insert; lia|intros; apply Hb'; lia|by left|].
        intros _ _. by destruct (Z.testbit _ _).
Qed.

Lemma testbit_lnot_V z i :
  V_not (V_of_bool (Z.testbit z (Z.of_nat i))) = V_of_bool (Z.testbit (Z.lnot z) (Z.of_nat i)).
Proof. rewrite V_not_of_bool, Z.lnot_spec by lia. done. Qed.

Lemma sub_as_add x y : x + Z.lnot y + Z.b2z true = x - y.
Proof. unfold Z.lnot. simpl. lia. Qed.

Lemma verinum_minus_columns l r :
  is_defined l = true -> wf l -> is_defined r = true -> wf r ->
  columns_result (value l - value r) (Nat.max (len l) (len r))
    (has_len_ l && has_len_ r) (has_sign_ l && has_sign_ r)
    (has_sign_ l && has_sign_ r && negb (has_len_ l && has_len_ r)) (verinum_minus l r).
Proof.
  intros Hdl Hwl Hdr Hwr. unfold verinum_minus. rewrite Hdl, Hdr. simpl negb.
  destruct (add_columns_spec V_not l r (Z.lnot (value r)) true) as (vb & E & Hl & Hb);
    [done..|intros; apply testbit_lnot_V|].
  change V1 with (V_of_bool true) at 1. rewrite E. rewrite sub_as_add in Hb.
  set (m := Nat.max (len l) (len r)) in *. simpl orb. cbv iota.
  destruct (has_sign_ l && has_sign_ r) eqn:Hs; simpl andb; cbv iota.
  2: { apply columns_result_intro; [lia|done|by left|done]. }
  destruct (has_len_ l && has_len_ r); simpl negb; cbv iota.
  - apply columns_result_intro; [lia|done|by left|done].
  - assert (0 < m)%nat by (unfold wf in *; destruct (has_sign_ l); simpl in Hs; [|done];
      specialize (Hwl eq_refl); lia).
    rewrite (top_column l _ (Z.lnot (value r))), sub_as_add; [|done..|lia|].
    2: { rewrite (pad_value r m) by (done || lia). apply testbit_lnot_V. }
    pose proof (insert_top vb m _ Hl Hb) as Hb'. rewrite (Hb' (m - 1)%nat) by lia.
    case_decide as Hd.
    + apply columns_result_intro; [rewrite length_insert; lia|done|by right|lia].
    + apply columns_result_intro; [rewrite length_insert; lia|intros; apply Hb'; lia|by left|].
      intros _ _. apply V_of_bool_inj. by simplify_eq.
Qed.

Lemma verinum_uminus_columns r :
  is_defined r = true -> wf r ->
  columns_result (- value r) (len r) (has_len_ r) (has_sign_ r)
    (has_sign_ r && negb (has_len_ r)) (verinum_uminus r).
Proof.
  intros Hdr Hwr. unfold verinum_uminus. rewrite Hdr. simpl negb. cbv iota.
  set (m := len r).
  destruct (ripple_spec (fun _ => V0) (fun idx => V_not (bit_at r idx)) 0 (Z.lnot (value r)) true m 0
    (replicate (m + 1) V0)) as (vb & E & Hl & Hb & _).
  { intros i Hi. rewrite (bit_value r) by (done || lia). rewrite testbit_lnot_V, Z.bits_0. done. }
  { rewrite length_replicate. lia. }
  rewrite length_replicate in Hl. rewrite carry_into_0 in E.
  change (fs_of_bool true) with V1 in E. rewrite E. simpl (0 + m)%nat.
  rewrite sub_as_add, Z.sub_0_l in Hb.
  assert (Hb0 : forall i, (i < m)%nat ->
    vb !! i = Some (V_of_bool (Z.testbit (- value r) (Z.of_nat i)))) by (intros; apply Hb; lia).
  destruct (has_sign_ r) eqn:Hs; simpl andb; cbv iota.
  2: { apply columns_result_intro; [lia|done|by left|done]. }
  destruct (has_len_ r); simpl negb; cbv iota.
  - apply columns_result_intro; [lia|done|by left|done].
  - assert (0 < m)%nat by (by apply Hwr).
    assert (Htop : fst (add_with_carry V0 (V_not (sign_bit r))
        (fs_of_bool (carry_into 0 (Z.lnot (value r)) true m))) =
      V_of_bool (Z.testbit (- value r) (Z.of_nat m))).
    { rewrite (pad_value r m) by (done || lia).
      pose proof (V_add_step 0 (Z.lnot (value r)) true m) as H1.
      rewrite Z.bits_0, sub_as_add, Z.sub_0_l in H1. rewrite testbit_lnot_V.
      exact (f_equal fst H1). }
    rewrite Htop. pose proof (insert_top vb m _ Hl Hb0) as Hb'. rewrite (Hb' (m - 1)%nat) by lia.
    case_decide as Hd.
    + apply columns_result_intro; [rewrite length_insert; lia|done|by right|lia].
    + apply columns_result_intro; [rewrite length_insert; lia|intros; apply Hb'; lia|by left|].
      intros _ _. apply V_of_bool_inj. by simplify_eq.
Qed.

Lemma columns_exact z m hl hs r :
  columns_result z m hl hs true r ->
  (if hs then (0 < m)%nat /\ - 2 ^ Z.of_nat m <= z < 2 ^ Z.of_nat m
   else 0 <= z < 2 ^ Z.of_nat (m + 1)) ->
  value r = z.
Proof.
  intros (Hl & Hs & Hd & Hu & Hm & Ht) Hz. apply value_fits; [done|]. rewrite Hs.
  destruct hs.
  - destruct Hz as [Hm0 Hz]. destruct Hm as [Hm|[Hm _]]; rewrite Hm in *.
    + split; [done|]. apply top_bits_equal; auto.
    + split; [lia|]. replace (Z.of_nat (m + 1) - 1) with (Z.of_nat m) by lia. done.
  - destruct Hm as [Hm|[Hm _]]; rewrite Hm in *; [|done].
    specialize (Ht eq_refl eq_refl).
    assert (Hu' : uval (bits_ r) < 2 ^ Z.of_nat m) by (rewrite <- Hm; apply uval_range).
    split; [lia|]. destruct (Z.lt_ge_cases z (2 ^ Z.of_nat m)) as [|Hge]; [done|]. exfalso.
    replace m with (m + 1 - 1)%nat in Ht by lia.
    rewrite top_bit in Ht by (lia || done). apply Z.leb_gt in Ht.
    replace (Z.of_nat (m + 1) - 1) with (Z.of_nat m) in Ht by lia. lia.
Qed.

(** The range of a sum or difference of operands at most [m] bits wide. *)
Lemma signed_pair_range l r m :
  has_sign_ l && has_sign_ r = true -> wf l -> wf r -> (len l <= m)%nat -> (len r <= m)%nat ->
  (0 < m)%nat /\
  - 2 ^ (Z.of_nat m - 1) <= value l < 2 ^ (Z.of_nat m - 1) /\
  - 2 ^ (Z.of_nat m - 1) <= value r < 2 ^ (Z.of_nat m - 1).
Proof.
  intros Hs Hwl Hwr Hl Hr. apply andb_true_iff in Hs as [Hs1 Hs2].
  specialize (Hwl Hs1). specialize (Hwr Hs2).
  split; [lia|]. split; apply value_range_wide; (done || lia).
Qed.

Lemma unsigned_pair_range l r m :
  has_sign_ l = false -> has_sign_ r = false -> (len l <= m)%nat -> (len r <= m)%nat ->
  0 <= value l < 2 ^ Z.of_nat m /\ 0 <= value r < 2 ^ Z.of_nat m.
Proof. intros. split; apply value_range_wide_u; (done || lia). Qed.

Lemma columns_wf z m hl hs e r : columns_result z m hl hs e r -> (hs = true -> (0 < m)%nat) -> wf r.
Proof. intros (Hl & Hs & _ & _ & Hm & _) H Hr. rewrite Hs in Hr. specialize (H Hr). lia. Qed.

(** ** Multiplication *)

Definition low_bits (z : Z) (bits : list V) : Prop :=
  forall i, (i < length bits)%nat -> bits !! i = Some (V_of_bool (Z.testbit z (Z.of_nat i))).

Lemma times_row_spec left rlen rdx bits z :
  is_defined left = true -> wf left -> (rdx <= rlen)%nat -> length bits = rlen ->
  low_bits z bits ->
  length (times_row left rlen rdx bits) = rlen /\
  low_bits (z + value left * 2 ^ Z.of_nat rdx) (times_row left rlen rdx bits).
Proof.
  intros Hd Hw Hr Hl Hb. unfold times_row.
  rewrite (ripple_acc_eq _ _ _ _ bits) by done.
  set (x := value left * 2 ^ Z.of_nat rdx).
  assert (Hx : forall i, (rdx <= i)%nat ->
    Z.testbit x (Z.of_nat i) = Z.testbit (value left) (Z.of_nat (i - rdx))).
  { intros i Hi. unfold x. rewrite <- Z.shiftl_mul_pow2, Z.shiftl_spec by lia.
    f_equal. lia. }
  assert (Hx0 : forall i, (i < rdx)%nat -> Z.testbit x (Z.of_nat i) = false).
  { intros i Hi. unfold x. rewrite <- Z.shiftl_mul_pow2 by lia. apply Z.shiftl_spec_low. lia. }
  assert (Hc : carry_into x z false rdx = false).
  { unfold carry_into, x. rewrite Z.mod_mul by lia. simpl.
    pose proof (Z.mod_pos_bound z (2 ^ Z.of_nat rdx)). split_ltb; lia. }
  destruct (ripple_spec (A := V)
    (fun idx => if (idx - rdx <? len left)%nat then bit_at left (idx - rdx) else sign_bit left)
    (fun i => default Vx (bits !! i)) x z false (rlen - rdx) rdx bits) as (vb & E & Hvl & Hvb & Hvo).
  { intros i Hi. rewrite Hx by lia. split.
    - destruct (Nat.ltb_spec (i - rdx) (len left)).
      + by rewrite (bit_value left) by done.
      + by rewrite (pad_value left (i - rdx)) by done.
    - rewrite Hb by lia. done. }
  { lia. }
  rewrite Hc in E. change (fs_of_bool false) with V0 in E. change fs_x with Vx. rewrite E. simpl fst.
  split; [lia|]. intros i Hi. replace (z + x) with (x + z + Z.b2z false) by (simpl; lia).
  destruct (Nat.lt_ge_cases i rdx) as [H|H].
  - rewrite Hvo, Hb by lia. do 2 f_equal. rewrite sum_bit, Hx0 by done.
    assert (carry_into x z false i = false) as ->; [|btauto].
    unfold carry_into, x. replace rdx with (i + (rdx - i))%nat by lia.
    rewrite Nat2Z.inj_add, Z.pow_add_r, (Z.mul_comm (2 ^ Z.of_nat i)), Z.mul_assoc, Z.mod_mul by lia.
    simpl. pose proof (Z.mod_pos_bound z (2 ^ Z.of_nat i)). split_ltb; lia.
  - apply Hvb. lia.
Qed.

Lemma times_loop_spec l r rlen :
  is_defined l = true -> wf l -> is_defined r = true -> wf r ->
  let bits :=
    for_loop rlen 0
      (fun rdx bits =>
         let r_bit := if (rdx <? len r)%nat then bit_at r rdx else sign_bit r in
         if decide (r_bit = V0) then bits else times_row l rlen rdx bits)
      (replicate rlen V0) in
  length bits = rlen /\ low_bits (value l * (value r mod 2 ^ Z.of_nat rlen)) bits.
Proof.
  intros Hdl Hwl Hdr Hwr. cbv zeta.
  apply (for_loop_ind (fun k b => length b = rlen /\
    low_bits (value l * (value r mod 2 ^ Z.of_nat k)) b) rlen 0).
  - rewrite length_replicate. split; [done|]. intros i Hi. rewrite length_replicate in Hi.
    rewrite lookup_replicate_2 by done. simpl. by rewrite Z.mod_1_r, Z.mul_0_r, Z.bits_0.
  - intros k b Hk [Hl Hb].
    assert (Hbit : (if (k <? len r)%nat then bit_at r k else sign_bit r) =
                   V_of_bool (Z.testbit (value r) (Z.of_nat k))).
    { destruct (Nat.ltb_spec k (len r)); [by apply bit_value|by apply pad_value]. }
    rewrite Hbit, mod_pow2_S. destruct (Z.testbit (value r) (Z.of_nat k)); simpl V_of_bool; case_decide.
    + done.
    + rewrite Z.mul_add_distr_l, Z.mul_1_l. apply times_row_spec; (done || lia).
    + by rewrite Z.mul_0_l, Z.add_0_r.
    + done.
Qed.

(** The untrimmed product. *)
Definition times_len (l r : verinum) : nat :=
  if has_len_ l && has_len_ r then Nat.max (len l) (len r) else (len l + len r)%nat.

Lemma verinum_times_columns l r :
  is_defined l = true -> wf l -> is_defined r = true -> wf r ->
  exists p, verinum_times l r = trim_vnum p /\
    columns_result (value l * value r) (times_len l r)
      (has_len_ l && has_len_ r) (has_sign_ l && has_sign_ r) false p.
Proof.
  intros Hdl Hwl Hdr Hwr. unfold verinum_times. rewrite Hdl, Hdr. simpl orb. cbv iota.
  fold (times_len l r). set (n := times_len l r).
  destruct (times_loop_spec l r n) as [Hl Hb]; [done..|].
  eexists; split; [reflexivity|]. cbv zeta in *.
  set (bits := for_loop _ _ _ _) in *. unfold columns_result, len at 1 2; simpl.
  rewrite Hl. repeat split; [|..]; try done; try by left.
  - by apply (is_defined_bits _ (value l * (value r mod 2 ^ Z.of_nat n))).
  - rewrite (uval_bits _ _ Hb), Hl. rewrite Z.mul_mod_idemp_r by lia. done.
Qed.

(** ** Shifts *)

Lemma testbit_value_ge v i :
  wf v -> (len v <= i)%nat -> Z.testbit (value v) (Z.of_nat i) = is_one (sign_bit v).
Proof. intros. rewrite testbit_value by done. destruct (Nat.ltb_spec i (len v)); [lia|done]. Qed.

Lemma testbit_value_lt v i :
  wf v -> (i < len v)%nat -> Z.testbit (value v) (Z.of_nat i) = is_one (bit_at v i).
Proof. intros. rewrite testbit_value by done. destruct (Nat.ltb_spec i (len v)); [done|lia]. Qed.

(** The result of a set loop that writes the bits of [z]. *)
Lemma set_loop_value (f : nat -> V) n start v z r :
  r = for_loop n start (fun idx r => set r idx (f idx)) v ->
  (start + n = len v)%nat ->
  (forall i, (i < start)%nat -> is_one (bit_at v i) = Z.testbit z (Z.of_nat i)) ->
  (forall i, (start <= i < len v)%nat -> is_one (f i) = Z.testbit z (Z.of_nat i)) ->
  len r = len v /\ has_len_ r = has_len_ v /\ has_sign_ r = has_sign_ v /\
  uval (bits_ r) = z mod 2 ^ Z.of_nat (len r).
Proof.
  intros -> Hn Hlo Hhi. rewrite (for_loop_set f (fun i => i)).
  destruct (set_from_loop f n start (bits_ v)) as [Hl Hb]; [unfold len in *; lia|].
  cbv zeta in Hl, Hb. unfold len; simpl. repeat split; [done|].
  rewrite Hl. rewrite <- Hl. apply uval_is_one. rewrite Hl. intros i Hi. rewrite Hb.
  unfold len in *.
  destruct (Nat.leb_spec start i); simpl.
  - destruct (Nat.ltb_spec i (start + n)); [|lia]. simpl. apply Hhi. lia.
  - apply Hlo. lia.
Qed.

Lemma verinum_shl_spec v k :
  wf v ->
  exists p, verinum_shl v k = trim_vnum p /\
    len p = (if has_len_ v then len v else (len v + k)%nat) /\
    has_len_ p = has_len_ v /\ has_sign_ p = has_sign_ v /\
    uval (bits_ p) = (value v * 2 ^ Z.of_nat k) mod 2 ^ Z.of_nat (len p).
Proof.
  intros Hw. unfold verinum_shl. eexists; split; [reflexivity|].
  set (n := if has_len_ v then len v else (len v + k)%nat).
  assert (Hbit : forall i, Z.testbit (value v * 2 ^ Z.of_nat k) (Z.of_nat i) =
    if (i <? k)%nat then false else Z.testbit (value v) (Z.of_nat (i - k))).
  { intros i. rewrite <- Z.shiftl_mul_pow2 by lia. destruct (Nat.ltb_spec i k).
    - apply Z.shiftl_spec_low. lia.
    - rewrite Z.shiftl_spec by lia. f_equal. lia. }
  destruct (Nat.le_gt_cases k n) as [Hkn|Hkn].
  - match goal with |- len ?p = _ /\ _ =>
      destruct (set_loop_value (fun idx => bit_at v (idx - k)) (n - k) k
        (set_has_sign (verinum_fill V0 n (has_len_ v)) (has_sign_ v))
        (value v * 2 ^ Z.of_nat k) p eq_refl) as (H1 & H2 & H3 & H4) end;
      [..|by rewrite H1 in *; unfold len in *; simpl in *; rewrite length_replicate in *];
      unfold len, bit_at; simpl; rewrite ?length_replicate.
    + lia.
    + intros i Hi. rewrite Hbit, lookup_replicate_2 by lia.
      destruct (Nat.ltb_spec i k); [done|lia].
    + intros i Hi. rewrite Hbit. destruct (Nat.ltb_spec i k); [lia|].
      fold (bit_at v (i - k)). rewrite testbit_value_lt; [done..|].
      unfold n in Hi. destruct (has_len_ v); lia.
  - replace (n - k)%nat with 0%nat by lia. simpl. unfold len; simpl. rewrite length_replicate.
    repeat split. rewrite (uval_is_one _ (value v * 2 ^ Z.of_nat k)); rewrite length_replicate; [done|].
    intros i Hi. rewrite Hbit, lookup_replicate_2 by lia. destruct (Nat.ltb_spec i k); [done|lia].
Qed.

Lemma verinum_shl_unsized v k :
  wf v -> has_len_ v = false -> value (verinum_shl v k) = value v * 2 ^ Z.of_nat k.
Proof.
  intros Hw Hl. destruct (verinum_shl_spec v k Hw) as (p & -> & Hlp & _ & Hs & Hu).
  rewrite trim_vnum_value. rewrite Hl in Hlp. apply value_fits; [done|]. rewrite Hs, Hlp.
  pose proof (pow2_pos (Z.of_nat k) ltac:(lia)).
  destruct (has_sign_ v) eqn:E.
  - specialize (Hw E). split; [lia|]. pose proof (value_range_signed v E Hw).
    replace (Z.of_nat (len v + k) - 1) with (Z.of_nat (len v) - 1 + Z.of_nat k) by lia.
    rewrite Z.pow_add_r by lia. nia.
  - pose proof (value_range_unsigned v E). rewrite Nat2Z.inj_add, Z.pow_add_r by lia. nia.
Qed.

Lemma testbit_div_pow2 z (k i : nat) :
  Z.testbit (z / 2 ^ Z.of_nat k) (Z.of_nat i) = Z.testbit z (Z.of_nat (i + k)).
Proof. rewrite Z.div_pow2_bits by lia. f_equal. lia. Qed.

(** A value fits in at least one bit of its width after division. *)
Lemma div_range_signed z n (k : nat) :
  0 <= n -> - 2 ^ n <= z < 2 ^ n -> - 2 ^ n <= z / 2 ^ Z.of_nat k < 2 ^ n.
Proof.
  intros Hn Hz. pose proof (pow2_pos (Z.of_nat k) ltac:(lia)). pose proof (pow2_pos n Hn).
  split; [apply Z.div_le_lower_bound|apply Z.div_lt_upper_bound]; nia.
Qed.

Lemma shr_loop_eq v k n sgn :
  for_loop (len v - k) k (fun idx r => set r (idx - k) (bit_at v idx))
    (set_has_sign (verinum_fill sgn n (has_len_ v)) (has_sign_ v)) =
  Verinum (for_loop (len v - k) 0 (fun i b => <[i := bit_at v (i + k)]> b) (replicate n sgn))
    (has_len_ v) (has_sign_ v) false false.
Proof.
  rewrite (for_loop_set (bit_at v) (fun i => (i - k)%nat)). simpl. f_equal.
  generalize (len v - k)%nat as c, (replicate n sgn) as l. intros c.
  assert (H : forall s (l : list V), for_loop c (k + s) (fun i b => <[(i - k)%nat := bit_at v i]> b) l =
    for_loop c s (fun i b => <[i := bit_at v (i + k)]> b) l).
  { induction c as [|c IH]; intros s l; simpl; [done|].
    rewrite <- IH. replace (k + S s)%nat with (S (k + s)) by lia.
    do 2 f_equal; [lia|f_equal; lia]. }
  intros l. rewrite <- H. by rewrite Nat.add_0_r.
Qed.

(** Shifting past the width leaves copies of the sign. *)
Lemma shr_past_value v k n :
  wf v -> (len v <= k)%nat -> (has_sign_ v = true -> (0 < n)%nat) ->
  value (Verinum (replicate n (sign_bit v)) (has_len_ v) (has_sign_ v) false false) =
    value v / 2 ^ Z.of_nat k.
Proof.
  intros Hw Hle Hn. pose proof (pow2_pos (Z.of_nat k) ltac:(lia)) as Hk.
  apply value_fits; unfold len; simpl; rewrite length_replicate.
  - rewrite (uval_is_one _ (value v / 2 ^ Z.of_nat k)); rewrite length_replicate; [done|].
    intros i Hi. rewrite testbit_div_pow2, testbit_value_ge, lookup_replicate_2 by (done || lia). done.
  - destruct (has_sign_ v) eqn:E.
    + specialize (Hw E). specialize (Hn eq_refl). split; [done|].
      pose proof (value_range_signed v E Hw).
      assert (2 ^ (Z.of_nat (len v) - 1) <= 2 ^ Z.of_nat k) by (apply Z.pow_le_mono_r; lia).
      assert (- 1 <= value v / 2 ^ Z.of_nat k) by (apply Z.div_le_lower_bound; lia).
      assert (value v / 2 ^ Z.of_nat k < 1) by (apply Z.div_lt_upper_bound; lia).
      pose proof (pow2_pos (Z.of_nat n - 1) ltac:(lia)). lia.
    + pose proof (value_range_wide_u v k E Hle). rewrite Z.div_small by lia.
      pose proof (pow2_pos (Z.of_nat n) ltac:(lia)). lia.
Qed.

(** The quotient fits in the bits that are left. *)
Lemma shr_fits v k n :
  wf v -> (k < len v)%nat -> (len v - k <= n <= len v)%nat ->
  if has_sign_ v then (0 < n)%nat /\
    - 2 ^ (Z.of_nat n - 1) <= value v / 2 ^ Z.of_nat k < 2 ^ (Z.of_nat n - 1)
  else 0 <= value v / 2 ^ Z.of_nat k < 2 ^ Z.of_nat n.
Proof.
  intros Hw Hlt Hn. pose proof (pow2_pos (Z.of_nat k) ltac:(lia)) as Hk.
  destruct (has_sign_ v) eqn:E.
  - split; [lia|]. pose proof (value_range_signed v E (Hw E)) as Hv.
    assert (2 ^ (Z.of_nat (len v) - 1) <= 2 ^ (Z.of_nat n - 1) * 2 ^ Z.of_nat k) as Hp
      by (rewrite <- Z.pow_add_r by lia; apply Z.pow_le_mono_r; lia).
    split; [apply Z.div_le_lower_bound|apply Z.div_lt_upper_bound]; lia.
  - pose proof (value_range_unsigned v E) as Hv. split; [apply Z.div_pos; lia|].
    apply Z.div_lt_upper_bound; [lia|].
    assert (2 ^ Z.of_nat (len v) <= 2 ^ Z.of_nat k * 2 ^ Z.of_nat n); [|lia].
    rewrite <- Z.pow_add_r by lia. apply Z.pow_le_mono_r; lia.
Qed.

Lemma verinum_shr_value v k :
  wf v -> value (verinum_shr v k) = value v / 2 ^ Z.of_nat k.
Proof.
  intros Hw. unfold verinum_shr. fold (sign_bit v).
  destruct (Nat.leb_spec (len v) k) as [Hle|Hlt].
  - refine (shr_past_value v k _ Hw _ _); [done..|]. intros E. specialize (Hw E). destruct (has_len_ v); lia.
  - rewrite trim_vnum_value, shr_loop_eq. set (n := if has_len_ v then len v else (len v - k)%nat).
    assert (Hn : (len v - k <= n <= len v)%nat) by (unfold n; destruct (has_len_ v); lia).
    pose proof (set_from_loop (fun i => bit_at v (i + k)) (len v - k) 0 (replicate n (sign_bit v))) as Hset.
    rewrite length_replicate in Hset. cbv zeta in Hset. destruct (Hset ltac:(lia)) as [Hl Hb]. clear Hset.
    set (bits := for_loop _ 0 _ _) in *.
    apply value_fits; unfold len at 1; simpl; rewrite ?Hl.
    + rewrite <- Hl. apply uval_is_one. rewrite Hl. intros i Hi. rewrite Hb. simpl.
      rewrite testbit_div_pow2. destruct (Nat.ltb_spec i (len v - k)); simpl.
      * by rewrite testbit_value_lt by (done || lia).
      * rewrite lookup_replicate_2 by done. by rewrite testbit_value_ge by (done || lia).
    + pose proof (shr_fits v k n Hw Hlt Hn). unfold len; simpl. by rewrite Hl.
Qed.

Lemma verinum_shr_flags v k :
  has_len_ (verinum_shr v k) = has_len_ v /\ has_sign_ (verinum_shr v k) = has_sign_ v.
Proof.
  unfold verinum_shr. destruct (len v <=? k)%nat; [done|].
  by rewrite shr_loop_eq, trim_vnum_has_len, trim_vnum_has_sign.
Qed.

Lemma pow2_mul_range x y a b :
  0 <= a -> 0 <= b -> - 2 ^ a <= x <= 2 ^ a -> - 2 ^ b <= y <= 2 ^ b ->
  - 2 ^ (a + b) <= x * y <= 2 ^ (a + b).
Proof.
  intros. rewrite Z.pow_add_r by lia. pose proof (pow2_pos a ltac:(lia)).
  pose proof (pow2_pos b ltac:(lia)). nia.
Qed.

(** The exact product fits in [l_len + r_len] bits. *)
Lemma times_fits l r :
  has_sign_ l = has_sign_ r -> wf l -> wf r ->
  if has_sign_ l && has_sign_ r then
    (0 < len l + len r)%nat /\
    - 2 ^ (Z.of_nat (len l + len r) - 1) <= value l * value r < 2 ^ (Z.of_nat (len l + len r) - 1)
  else 0 <= value l * value r < 2 ^ Z.of_nat (len l + len r).
Proof.
  intros Hs Hwl Hwr. rewrite <- Hs. destruct (has_sign_ l) eqn:E; simpl.
  - specialize (Hwl E). symmetry in Hs. specialize (Hwr Hs). split; [lia|].
    pose proof (value_range_signed l E Hwl). pose proof (value_range_signed r Hs Hwr).
    pose proof (pow2_mul_range (value l) (value r) (Z.of_nat (len l) - 1) (Z.of_nat (len r) - 1)
      ltac:(lia) ltac:(lia) ltac:(lia) ltac:(lia)).
    replace (Z.of_nat (len l + len r) - 1) with
      (Z.succ (Z.of_nat (len l) - 1 + (Z.of_nat (len r) - 1))) by lia.
    rewrite Z.pow_succ_r by lia.
    pose proof (pow2_pos (Z.of_nat (len l) - 1 + (Z.of_nat (len r) - 1)) ltac:(lia)). lia.
  - pose proof (value_range_unsigned l E). pose proof (value_range_unsigned r (eq_sym Hs)).
    rewrite Nat2Z.inj_add, Z.pow_add_r by lia. nia.
Qed.

Lemma columns_fits z m hl hs r :
  columns_result z m hl hs false r ->
  (if hs then (0 < m)%nat /\ - 2 ^ (Z.of_nat m - 1) <= z < 2 ^ (Z.of_nat m - 1)
   else 0 <= z < 2 ^ Z.of_nat m) ->
  value r = z.
Proof.
  intros (Hl & Hs & Hd & Hu & Hm & Ht) Hz. destruct Hm as [Hm|[_ ?]]; [|done].
  apply value_fits; [done|]. by rewrite Hs, Hm.
Qed.

Section ArithProps.
Context (l r : verinum).
Context (Hdl : is_defined l = true) (Hwl : wf l) (Hdr : is_defined r = true) (Hwr : wf r).

Lemma plus_unsized_value :
  has_len_ l && has_len_ r = false -> has_sign_ l = has_sign_ r ->
  value (verinum_plus l r) = value l + value r.
Proof using All.
  intros Hl Hs. pose proof (verinum_plus_columns l r Hdl Hwl Hdr Hwr) as Hc.
  rewrite Hl in Hc. simpl negb in Hc. eapply columns_exact; [exact Hc|].
  rewrite <- Hs. destruct (has_sign_ l) eqn:E; simpl.
  - destruct (signed_pair_range l r (Nat.max (len l) (len r))) as (H1 & H2 & H3);
      rewrite ?E, <- ?Hs; try done; try lia.
    split; [done|]. rewrite pow2_half by done. lia.
  - destruct (unsigned_pair_range l r (Nat.max (len l) (len r))); try done; try lia.
    rewrite Nat.add_1_r, pow2_S. lia.
Qed.

Lemma minus_unsized_signed :
  has_len_ l && has_len_ r = false -> has_sign_ l && has_sign_ r = true ->
  value (verinum_minus l r) = value l - value r.
Proof using All.
  intros Hl Hs. pose proof (verinum_minus_columns l r Hdl Hwl Hdr Hwr) as Hc.
  rewrite Hl, Hs in Hc. simpl negb in Hc. eapply columns_exact; [exact Hc|]. simpl.
  destruct (signed_pair_range l r (Nat.max (len l) (len r)) Hs) as (H1 & H2 & H3);
    try done; try lia.
  split; [done|]. rewrite pow2_half by done. lia.
Qed.

(** The subtraction the divider relies on: no borrow. *)
Lemma minus_unsigned_value :
  has_sign_ l = false -> has_sign_ r = false -> value r <= value l ->
  value (verinum_minus l r) = value l - value r.
Proof using All.
  intros Hs1 Hs2 Hle. pose proof (verinum_minus_columns l r Hdl Hwl Hdr Hwr) as Hc.
  rewrite Hs1, Hs2 in Hc. simpl in Hc. eapply columns_fits; [exact Hc|]. simpl.
  destruct (unsigned_pair_range l r (Nat.max (len l) (len r))); try done; lia.
Qed.

Lemma times_unsized_value :
  has_len_ l && has_len_ r = false -> has_sign_ l = has_sign_ r ->
  value (verinum_times l r) = value l * value r.
Proof using All.
  intros Hl Hs. destruct (verinum_times_columns l r Hdl Hwl Hdr Hwr) as (p & -> & Hc).
  rewrite trim_vnum_value. unfold times_len in Hc. rewrite Hl in Hc.
  eapply columns_fits; [exact Hc|]. by apply times_fits.
Qed.

Lemma times_sized_uval :
  has_len_ l && has_len_ r = true ->
  len (verinum_times l r) = Nat.max (len l) (len r) /\
  uval (bits_ (verinum_times l r)) =
    (value l * value r) mod 2 ^ Z.of_nat (Nat.max (len l) (len r)).
Proof using All.
  intros Hl. destruct (verinum_times_columns l r Hdl Hwl Hdr Hwr) as (p & -> & Hc).
  unfold times_len in Hc. rewrite Hl in Hc. destruct Hc as (Hlp & _ & _ & Hu & Hm & _).
  rewrite trim_vnum_sized by done. destruct Hm as [Hm|[_ ?]]; [|done].
  by rewrite Hm in Hu.
Qed.
End ArithProps.

(** ** Properties *)

Definition defined_pair (l r : verinum) : Prop :=
  is_defined l = true /\ wf l /\ is_defined r = true /\ wf r.

#[export] Instance defined_pair_dec l r : Decision (defined_pair l r).
Proof. unfold defined_pair. apply _. Defined.

(** Addition of compile-time numbers: on defined operands the result is
    defined; when both are sized it has the larger width and is the sum modulo
    [2^width]; when one is unsized and the signedness agrees it is the exact
    sum, with no overflow. *)
Lemma verinum_plus_correct (l r : verinum) :
  defined_pair l r ->
  is_defined (verinum_plus l r) = true /\
  (has_len_ l && has_len_ r = true ->
   len (verinum_plus l r) = Nat.max (len l) (len r) /\
   uval (bits_ (verinum_plus l r)) =
     (value l + value r) mod 2 ^ Z.of_nat (Nat.max (len l) (len r))) /\
  (has_len_ l && has_len_ r = false -> has_sign_ l = has_sign_ r ->
   value (verinum_plus l r) = value l + value r).
Proof.
  intros (Hdl & Hwl & Hdr & Hwr).
  destruct (verinum_plus_columns l r Hdl Hwl Hdr Hwr) as (Hl & Hs & Hd & Hu & Hm & _).
  split; [done|]. split; [|by apply plus_unsized_value].
  intros Hsz. rewrite Hsz in Hm. destruct Hm as [Hm|[_ ?]]; [|done]. by rewrite Hm in Hu.
Qed.

(** Subtraction and negation: sized results are the difference modulo
    [2^width]; an unsized signed difference or negation is exact (one bit is
    added when needed); an unsigned difference wraps at the width of the wider
    operand even when unsized. *)
Lemma verinum_minus_correct (l r : verinum) :
  defined_pair l r ->
  (has_len_ l && has_len_ r = true \/ has_sign_ l && has_sign_ r = false ->
   len (verinum_minus l r) = Nat.max (len l) (len r) /\
   uval (bits_ (verinum_minus l r)) =
     (value l - value r) mod 2 ^ Z.of_nat (Nat.max (len l) (len r))) /\
  (has_len_ l && has_len_ r = false -> has_sign_ l && has_sign_ r = true ->
   value (verinum_minus l r) = value l - value r) /\
  (has_len_ r = false -> has_sign_ r = true -> value (verinum_uminus r) = - value r) /\
  (has_len_ r = true ->
   len (verinum_uminus r) = len r /\
   uval (bits_ (verinum_uminus r)) = (- value r) mod 2 ^ Z.of_nat (len r)).
Proof.
  intros (Hdl & Hwl & Hdr & Hwr).
  destruct (verinum_minus_columns l r Hdl Hwl Hdr Hwr) as (_ & _ & _ & Hu & Hm & _).
  pose proof (verinum_uminus_columns r Hdr Hwr) as Hc.
  split; [|split; [by apply minus_unsized_signed|split]].
  - intros Hor. destruct Hm as [Hm|[_ Hf]]; [by rewrite Hm in Hu|].
    destruct Hor as [Hor|Hor]; rewrite Hor in Hf; [|done].
    by rewrite andb_false_r in Hf.
  - intros Hl Hs. rewrite Hl, Hs in Hc. eapply columns_exact; [exact Hc|]. simpl.
    specialize (Hwr Hs). pose proof (value_range_signed r Hs Hwr) as Hr.
    split; [done|]. rewrite pow2_half by done. lia.
  - intros Hl. rewrite Hl, andb_false_r in Hc. destruct Hc as (_ & _ & _ & Hcu & Hcm & _).
    destruct Hcm as [Hcm|[_ ?]]; [|done]. by rewrite Hcm in Hcu.
Qed.

(** Multiplication: the shift-and-add loops compute the product modulo
    [2^width] for sized operands, and the exact product for unsized operands of
    one signedness; the result is trimmed without changing its value. *)
Lemma verinum_times_correct (l r : verinum) :
  defined_pair l r ->
  (has_len_ l && has_len_ r = true ->
   len (verinum_times l r) = Nat.max (len l) (len r) /\
   uval (bits_ (verinum_times l r)) =
     (value l * value r) mod 2 ^ Z.of_nat (Nat.max (len l) (len r))) /\
  (has_len_ l && has_len_ r = false -> has_sign_ l = has_sign_ r ->
   value (verinum_times l r) = value l * value r /\
   (len (verinum_times l r) <= len l + len r)%nat).
Proof.
  intros (Hdl & Hwl & Hdr & Hwr). split; [by apply times_sized_uval|].
  intros Hl Hs. split; [by apply times_unsized_value|].
  destruct (verinum_times_columns l r Hdl Hwl Hdr Hwr) as (p & -> & Hc).
  unfold times_len in Hc. rewrite Hl in Hc. destruct Hc as (_ & _ & _ & _ & Hm & _).
  pose proof (trim_vnum_len p). destruct Hm as [?|[_ ?]]; [lia|done].
Qed.

(** C33. Shifts: a sized left shift is multiplication by [2^k] modulo [2^width],
    an unsized one is exact; a right shift is floor division by [2^k]
    (arithmetic for signed numbers), also past the width. *)
Theorem verinum_shift_correct (v : verinum) (k : nat) :
  wf v ->
  (has_len_ v = true ->
   len (verinum_shl v k) = len v /\
   uval (bits_ (verinum_shl v k)) = (value v * 2 ^ Z.of_nat k) mod 2 ^ Z.of_nat (len v)) /\
  (has_len_ v = false -> value (verinum_shl v k) = value v * 2 ^ Z.of_nat k) /\
  value (verinum_shr v k) = value v / 2 ^ Z.of_nat k.
Proof.
  intros Hw. split; [|split; [by apply verinum_shl_unsized|by apply verinum_shr_value]].
  intros Hl. destruct (verinum_shl_spec v k Hw) as (p & -> & Hlp & Hl' & _ & Hu).
  rewrite Hl in Hlp, Hl'. rewrite trim_vnum_sized by done. by rewrite Hlp in Hu.
Qed.

(** An undefined operand makes every bit of the sum, difference, product and
    negation x, never z and never a stale bit. *)
Lemma verinum_arith_undefined (l r : verinum) :
  is_defined l && is_defined r = false ->
  Forall (fun v => Forall (fun b => b = Vx) (bits_ v) /\
                   (has_len_ l && has_len_ r = true -> len v = Nat.max (len l) (len r)))
    [verinum_plus l r; verinum_minus l r; verinum_times l r].
Proof.
  intros H.
  assert (Hu : negb (is_defined l) || negb (is_defined r) = true)
    by (destruct (is_defined l), (is_defined r); done).
  unfold verinum_plus, verinum_minus, verinum_times. rewrite Hu.
  assert (Hx : forall hl hs,
    Forall (fun b => b = Vx)
      (bits_ (undefined_result (if hl : bool then Nat.max (len l) (len r) else 1%nat) hl hs)) /\
    (hl = true -> len (undefined_result (if hl then Nat.max (len l) (len r) else 1%nat) hl hs) =
       Nat.max (len l) (len r))).
  { intros hl hs. unfold len; simpl. split.
    - apply Forall_replicate. done.
    - intros ->. apply length_replicate. }
  constructor; [apply Hx|constructor; [apply Hx|constructor; [|constructor]]].
  destruct (has_len_ l && has_len_ r); [apply (Hx true _)|apply (Hx false _)].
Qed.

Definition sized (z : Z) (n : nat) (s : bool) : verinum :=
  set_has_sign (verinum_of_uint64 z n) s.
Definition unsized (z : Z) : verinum := verinum_of_int64 z.


Lemma verinum_minus_correct_witness :
  value (verinum_minus (unsized (-8)) (unsized 9)) = -17 /\
  value (verinum_uminus (unsized (-8))) = 8.
Proof.
  pose proof (verinum_minus_correct (unsized (-8)) (unsized 9)
    ltac:(apply (bool_decide_unpack _); vm_compute; exact I)) as (_ & H & _).
  pose proof (verinum_minus_correct (unsized 1) (unsized (-8))
    ltac:(apply (bool_decide_unpack _); vm_compute; exact I)) as (_ & _ & H2 & _).
  split; [exact (H eq_refl eq_refl)|exact (H2 eq_refl eq_refl)].
Defined.

Lemma verinum_times_correct_witness :
  value (verinum_times (unsized (-12)) (unsized 11)) = -132.
Proof.
  pose proof (verinum_times_correct (unsized (-12)) (unsized 11)
    ltac:(apply (bool_decide_unpack _); vm_compute; exact I)) as (_ & H).
  exact (proj1 (H eq_refl eq_refl)).
Defined.

Lemma verinum_shift_correct_witness : value (verinum_shr (unsized (-9)) 2) = -3.
Proof.
  pose proof (verinum_shift_correct (unsized (-9)) 2
    ltac:(apply (bool_decide_unpack _); vm_compute; exact I)) as (_ & _ & H).
  exact H.
Defined.

Lemma verinum_arith_undefined_witness :
  Forall (fun b => b = Vx) (bits_ (verinum_plus (verinum_fill Vz 4 true) (sized 3 4 false))).
Proof.
  pose proof (verinum_arith_undefined (verinum_fill Vz 4 true) (sized 3 4 false) eq_refl) as H.
  exact (proj1 (Forall_inv H)).
Defined.

Lemma verinum_uminus_undefined (r : verinum) : is_defined r = false ->
  Forall (fun b => b = Vx) (bits_ (verinum_uminus r)) /\ (has_len_ r = true -> len (verinum_uminus r) = len r).
Proof.
  intros H. unfold verinum_uminus. rewrite H. cbn [negb]. unfold undefined_result, len. simpl. split; [by apply Forall_replicate|].
  intros ->. apply length_replicate.
Qed.

(** C21. Addition, subtraction, negation and multiplication of compile-time
    numbers.  Of defined operands: sized results are the integer result modulo
    [2^width] at the larger width; unsized sums and products are exact when the
    signedness of the operands agrees; unsized differences and negations are exact
    when they are signed, and an unsigned difference wraps at the larger width.  In
    all four an undefined operand makes every bit of the result x, never z and never
    a stale bit, at the larger width when the operands are sized. *)
Theorem verinum_ring_correct (l r : verinum) :
  (defined_pair l r ->
   is_defined (verinum_plus l r) = true /\
   (has_len_ l && has_len_ r = true ->
    len (verinum_plus l r) = Nat.max (len l) (len r) /\
    uval (bits_ (verinum_plus l r)) =
      (value l + value r) mod 2 ^ Z.of_nat (Nat.max (len l) (len r))) /\
   (has_len_ l && has_len_ r = false -> has_sign_ l = has_sign_ r ->
    value (verinum_plus l r) = value l + value r)) /\
  (defined_pair l r ->
   (has_len_ l && has_len_ r = true \/ has_sign_ l && has_sign_ r = false ->
    len (verinum_minus l r) = Nat.max (len l) (len r) /\
    uval (bits_ (verinum_minus l r)) =
      (value l - value r) mod 2 ^ Z.of_nat (Nat.max (len l) (len r))) /\
   (has_len_ l && has_len_ r = false -> has_sign_ l && has_sign_ r = true ->
    value (verinum_minus l r) = value l - value r) /\
   (has_len_ r = false -> has_sign_ r = true -> value (verinum_uminus r) = - value r) /\
   (has_len_ r = true ->
    len (verinum_uminus r) = len r /\
    uval (bits_ (verinum_uminus r)) = (- value r) mod 2 ^ Z.of_nat (len r))) /\
  (defined_pair l r ->
   (has_len_ l && has_len_ r = true ->
    len (verinum_times l r) = Nat.max (len l) (len r) /\
    uval (bits_ (verinum_times l r)) =
      (value l * value r) mod 2 ^ Z.of_nat (Nat.max (len l) (len r))) /\
   (has_len_ l && has_len_ r = false -> has_sign_ l = has_sign_ r ->
    value (verinum_times l r) = value l * value r /\
    (len (verinum_times l r) <= len l + len r)%nat)) /\
  (is_defined l && is_defined r = false ->
   Forall (fun v => Forall (fun b => b = Vx) (bits_ v) /\
                    (has_len_ l && has_len_ r = true -> len v = Nat.max (len l) (len r)))
     [verinum_plus l r; verinum_minus l r; verinum_times l r]) /\
  (is_defined r = false ->
   Forall (fun b => b = Vx) (bits_ (verinum_uminus r)) /\ (has_len_ r = true -> len (verinum_uminus r) = len r)).
Proof.
  exact (conj (verinum_plus_correct l r) (conj (verinum_minus_correct l r) (conj (verinum_times_correct l r)
    (conj (verinum_arith_undefined l r) (verinum_uminus_undefined r))))).
Qed.

Lemma verinum_ring_correct_witness :
  uval (bits_ (verinum_plus (sized 200 8 false) (sized 100 8 false))) = (200 + 100) mod 256 /\
  value (verinum_plus (unsized 7) (unsized (-9))) = -2.
Proof.
  pose proof (fun l r => proj1 (verinum_ring_correct l r)) as verinum_plus_correct.
  split.
  - pose proof (verinum_plus_correct (sized 200 8 false) (sized 100 8 false)
      ltac:(apply (bool_decide_unpack _); vm_compute; exact I)) as (_ & H & _).
    exact (proj2 (H eq_refl)).
  - pose proof (verinum_plus_correct (unsized 7) (unsized (-9))
      ltac:(apply (bool_decide_unpack _); vm_compute; exact I)) as (_ & _ & H).
    exact (H eq_refl eq_refl).
Defined.
