(* ===== verification/VerinumConv.v ===== *)
(** * VerinumConv: conversions of compile-time numbers

    Trimming, padding and casting, the native integer conversions, the string
    constructor and printer, and the sorting order, with their correctness. *)

From Stdlib Require Import Ascii.
From S2P Require Import Prelude FourState Verinum VerinumValue.
Import VNum.

(** ** Trimming is idempotent *)

Lemma top_differs_take (v r : verinum) b n :
  bits_ r = take n (bits_ v) -> forall top, (top < n)%nat -> top_differs r b top = top_differs v b top.
Proof.
  intros Hb. induction top as [|top IH]; intros Ht; simpl; [done|].
  assert (bit_at r (S top) = bit_at v (S top)) as ->.
  { unfold bit_at. by rewrite Hb, lookup_take_lt by lia. }
  case_bool_decide; [apply IH; lia|done].
Qed.

Lemma top_differs_max v b top : bit_at v top <> b -> top_differs v b top = top.
Proof. destruct top; simpl; [done|]. intros. by rewrite bool_decide_eq_false_2. Qed.

(** What is left after trimming cannot be trimmed again. *)
Definition minimal (v : verinum) : Prop :=
  (2 <= len v)%nat ->
  if has_sign_ v then bit_at v (len v - 2) <> bit_at v (len v - 1)
  else bit_at v (len v - 2) <> V0 \/ bit_at v (len v - 1) <> V0.

Lemma bit_at_take v r n i :
  bits_ r = take n (bits_ v) -> (i < n)%nat -> bit_at r i = bit_at v i.
Proof. intros Hb Hi. unfold bit_at. by rewrite Hb, lookup_take_lt. Qed.

Lemma minimal_take v n r :
  bits_ r = take n (bits_ v) -> (n <= len v)%nat -> has_sign_ r = has_sign_ v ->
  ((2 <= n)%nat -> if has_sign_ v then bit_at v (n - 2) <> bit_at v (n - 1)
                   else bit_at v (n - 2) <> V0 \/ bit_at v (n - 1) <> V0) ->
  minimal r.
Proof.
  intros Hb Hn Hs H. assert (Hl : len r = n) by (unfold len in *; rewrite Hb, length_take; lia).
  unfold minimal. rewrite Hl, Hs. intros H2. specialize (H H2).
  rewrite !(bit_at_take v r n) by (done || lia). done.
Qed.

Lemma trim_vnum_minimal v : has_len_ v = false -> minimal (trim_vnum v).
Proof.
  intros Hl. unfold trim_vnum. rewrite Hl.
  destruct (Nat.ltb_spec (len v) 2); [unfold minimal; lia|].
  destruct (has_sign_ v) eqn:Hs.
  - pose proof (top_differs_spec v (bit_at v (len v - 1)) (len v - 1)) as Ht.
    cbv zeta in Ht. set (t := top_differs _ _ _) in *. destruct Ht as (H1 & H2 & H3).
    case_decide as Hd.
    + assert (t <> (len v - 1)%nat) by (intros E; by rewrite E in Hd).
      rewrite cut_eq by lia. apply (minimal_take v (t + 1 + 1)); simpl; [done|lia|done|].
      rewrite Hs. intros _. replace (t + 1 + 1 - 2)%nat with t by lia.
      by rewrite (H2 (t + 1 + 1 - 1)%nat) by lia.
    + rewrite cut_eq by lia. apply (minimal_take v (t + 1)); simpl; [done|lia|done|].
      destruct H3 as [H3|H3]; [lia|done].
  - pose proof (top_differs_spec v V0 (len v - 1)) as Ht.
    cbv zeta in Ht. set (t := top_differs _ _ _) in *. destruct Ht as (H1 & H2 & H3).
    destruct (Nat.eqb_spec (t + 1) (len v)) as [Heq|Hne].
    + unfold minimal. rewrite Hs. intros _. right. destruct H3 as [H3|H3]; [lia|].
      by replace (len v - 1)%nat with t by lia.
    + case_decide as Hd.
      * rewrite cut_eq by lia. apply (minimal_take v (t + 2 - 1)); simpl; [done|lia|done|].
        rewrite Hs. intros. destruct H3 as [H3|H3]; [lia|done].
      * rewrite cut_eq by lia. apply (minimal_take v (t + 2)); simpl; [done|lia|done|].
        rewrite Hs. intros _. left. by replace (t + 2 - 2)%nat with t by lia.
Qed.

(** ** Padding and casting *)

(** The padding bit of a defined number that is not a ['N] literal is its sign. *)
Lemma pad_bit_defined v :
  is_defined v = true -> is_single_ v = false -> pad_bit v = sign_bit v.
Proof.
  intros Hd Hsg. unfold pad_bit, sign_bit. rewrite Hsg, !andb_true_r.
  rewrite (bit_defined v (len v - 1)) by done.
  by destruct (is_one _), (has_sign_ v), (has_len_ v).
Qed.

Lemma pad_append_value v w h :
  (0 < len v <= w)%nat -> wf v ->
  value (Verinum (bits_ v ++ replicate (w - len v) (sign_bit v)) h (has_sign_ v) false false) = value v.
Proof.
  intros Hl Hw. apply Z.bits_inj'. intros i Hi. rewrite <- (Z2Nat.id i) by lia.
  set (j := Z.to_nat i). set (r := Verinum _ _ _ _ _).
  assert (Hlen : len r = w)
    by (unfold r; unfold len at 1; simpl; rewrite length_app, length_replicate; unfold len in *; lia).
  assert (Hlo : forall k, (k < len v)%nat -> bit_at r k = bit_at v k).
  { intros k Hk. unfold bit_at, r; simpl. by rewrite lookup_app_l. }
  assert (Hhi : forall k, (len v <= k < w)%nat -> bit_at r k = sign_bit v).
  { intros k Hk. unfold bit_at, r; simpl. rewrite lookup_app_r by (unfold len in *; lia).
    by rewrite lookup_replicate_2 by (unfold len in *; lia). }
  rewrite !testbit_value by (unfold wf; intros; rewrite ?Hlen; lia).
  rewrite Hlen. destruct (Nat.ltb_spec j w) as [H|H].
  - destruct (Nat.ltb_spec j (len v)); [by rewrite Hlo|by rewrite Hhi].
  - destruct (Nat.ltb_spec j (len v)); [lia|]. f_equal.
    unfold sign_bit at 1. simpl. destruct (has_sign_ v) eqn:E; [|by unfold sign_bit; rewrite E].
    rewrite Hlen. destruct (decide (w = len v)) as [->|].
    + rewrite Hlo by lia. unfold sign_bit. by rewrite E.
    + by rewrite Hhi by lia.
Qed.

Lemma zero_value n h s : value (set_has_sign (verinum_fill V0 n h) s) = 0.
Proof.
  assert (Hz : forall i, is_one (default V0 (replicate n V0 !! i)) = false).
  { intros i. destruct (replicate n V0 !! i) eqn:E; [|done].
    by apply lookup_replicate in E as [-> _]. }
  unfold value, bit_at; simpl. rewrite Hz, andb_false_r.
  rewrite (uval_is_one _ 0).
  - apply Z.mod_0_l. lia.
  - intros i _. by rewrite Hz, Z.bits_0.
Qed.

Lemma empty_value v : len v = 0%nat -> wf v -> value v = 0.
Proof.
  intros Hl Hw. unfold value, wf in *. destruct (has_sign_ v); [specialize (Hw eq_refl); lia|].
  simpl. unfold uval, len in *. by rewrite Hl.
Qed.

Lemma verinum_resize_narrow v n :
  (n <= len v)%nat -> bits_ (verinum_resize v n) = take n (bits_ v) /\
  has_sign_ (verinum_resize v n) = has_sign_ v /\ has_len_ (verinum_resize v n) = true.
Proof.
  intros Hn. unfold verinum_resize. simpl. split; [|done].
  destruct (Nat.ltb_spec (len v) n); [lia|]. by destruct (Nat.ltb_spec n n); [lia|].
Qed.

Lemma cast_to_width_spec v w :
  is_defined v = true -> wf v -> is_single_ v = false ->
  len (cast_to_width v w) = w /\ has_len_ (cast_to_width v w) = true /\
  has_sign_ (cast_to_width v w) = has_sign_ v /\
  uval (bits_ (cast_to_width v w)) = value v mod 2 ^ Z.of_nat w /\
  is_defined (cast_to_width v w) = true.
Proof.
  intros Hd Hw Hsg. unfold cast_to_width.
  destruct (has_len_ v && (len v =? w)%nat) eqn:E.
  { apply andb_true_iff in E as [Hl Hn]. apply Nat.eqb_eq in Hn. subst w.
    repeat split; [done| |done]. by rewrite uval_mod. }
  destruct (Nat.leb_spec w (len v)) as [Hle|Hgt].
  { destruct (verinum_resize_narrow v w Hle) as (Hb & Hs & Hl).
    assert (Hlen : len (verinum_resize v w) = w) by (unfold len in *; rewrite Hb, length_take; lia).
    repeat split; [done..| |].
    - rewrite Hb, (uval_is_one _ (value v)); rewrite length_take;
        [by rewrite Nat.min_l by (unfold len in *; lia)|].
      intros i Hi. rewrite lookup_take_lt by lia. fold (bit_at v i).
      rewrite testbit_value by done. destruct (Nat.ltb_spec i (len v)); [done|lia].
    - by apply (is_defined_take v _ w). }
  destruct (Nat.eqb_spec (len v) 0) as [H0|H0].
  { rewrite (empty_value v) by done. rewrite Z.mod_0_l by lia.
    repeat split; simpl; [by unfold len; simpl; rewrite length_replicate| |].
    - rewrite (uval_is_one _ 0); [by apply Z.mod_0_l; lia|]. rewrite length_replicate.
      intros i Hi. by rewrite lookup_replicate_2, Z.bits_0.
    - apply (is_defined_bits _ 0). unfold len; simpl. rewrite length_replicate.
      intros i Hi. by rewrite lookup_replicate_2, Z.bits_0. }
  rewrite copy_fill_eq, pad_bit_defined by (done || lia).
  pose proof (pad_append_value v w true ltac:(lia) Hw) as Hv.
  match goal with |- context [set_has_sign ?a ?b] => set (r := set_has_sign a b) end.
  change (value r = value v) in Hv.
  assert (Hlen : len r = w)
    by (unfold r; unfold len at 1; simpl; rewrite length_app, length_replicate; unfold len in *; lia).
  repeat split; [done| |].
  - by rewrite uval_mod, Hv, Hlen.
  - apply is_defined_iff. intros i b Hb. unfold r in Hb; simpl in Hb.
    rewrite is_defined_iff in Hd. apply lookup_app_Some in Hb as [Hb|[_ Hb]]; [by apply (Hd i)|].
    apply lookup_replicate in Hb as [-> _]. unfold sign_bit.
    destruct (has_sign_ v); [|by left].
    destruct (bits_ v !! (len v - 1)%nat) eqn:El; unfold bit_at; rewrite El; [by apply (Hd _ _ El)|by left].
Qed.

(** ** Native integers *)

Lemma Zbits_shift f n : Zbits f (S n) = Z.b2z (f 0%nat) + 2 * Zbits (fun i => f (S i)) n.
Proof.
  induction n as [|n IH]; [simpl; lia|].
  rewrite Zbits_S, IH, (Zbits_S _ n), pow2_S. lia.
Qed.

Lemma uval_cons b bits : uval (b :: bits) = Z.b2z (is_one b) + 2 * uval bits.
Proof. unfold uval. simpl length. by rewrite Zbits_shift. Qed.

Lemma lor_pow2 x k : 0 <= k -> 0 <= x < 2 ^ k -> Z.lor x (2 ^ k) = x + 2 ^ k.
Proof.
  intros Hk Hx. rewrite <- Z.lxor_lor, <- Z.add_nocarry_lxor; [done| |];
    apply Z.bits_inj'; intros i Hi; rewrite Z.land_spec, Z.pow2_bits_eqb, Z.bits_0 by lia;
    destruct (Z.eqb_spec k i) as [->|]; rewrite ?andb_false_r, ?(testbit_small x i i) by lia; done.
Qed.

Lemma as_native_loop_spec w bits (k : nat) val :
  0 < w -> 0 <= val -> val < 2 ^ Z.min (Z.of_nat k) w ->
  as_native_loop w bits (if Z.of_nat k <? w then 2 ^ Z.of_nat k else 0) val =
  Z.min (val + 2 ^ Z.of_nat k * uval bits) (2 ^ w - 1).
Proof.
  intros Hw. revert k val.
  assert (Hmask : forall k : nat,
    Z.shiftl (if Z.of_nat k <? w then 2 ^ Z.of_nat k else 0) 1 mod 2 ^ w =
    (if Z.of_nat (S k) <? w then 2 ^ Z.of_nat (S k) else 0)).
  { intros k. destruct (Z.ltb_spec (Z.of_nat k) w), (Z.ltb_spec (Z.of_nat (S k)) w); try lia.
    - rewrite Z.shiftl_mul_pow2, pow2_S by lia. rewrite Z.mod_small; [lia|].
      rewrite Z.mul_comm, <- pow2_S. split; [lia|]. apply Z.pow_lt_mono_r; lia.
    - rewrite Z.shiftl_mul_pow2, Z.mul_comm by lia. change (2 ^ 1) with 2. rewrite <- pow2_S.
      replace (Z.of_nat (S k)) with w by lia. apply Z.mod_same. lia.
    - rewrite Z.shiftl_0_l. apply Z.mod_0_l. lia. }
  induction bits as [|b bits IH]; intros k val Hv0 Hv.
  - simpl. change (uval []) with 0.
    assert (2 ^ Z.min (Z.of_nat k) w <= 2 ^ w) by (apply Z.pow_le_mono_r; lia). lia.
  - simpl. rewrite uval_cons, Hmask. pose proof (uval_range bits) as Hu.
    pose proof (pow2_pos (Z.of_nat k) ltac:(lia)) as Hk.
    assert (Hmono : 2 ^ Z.min (Z.of_nat k) w <= 2 ^ Z.min (Z.of_nat (S k)) w)
      by (apply Z.pow_le_mono_r; lia).
    case_decide as Hb.
    + subst b. simpl is_one. simpl Z.b2z.
      destruct (Z.ltb_spec (Z.of_nat k) w) as [Hkw|Hkw].
      * rewrite Z.min_l in Hv by lia.
        destruct (Z.eqb_spec (2 ^ Z.of_nat k) 0); [lia|].
        rewrite lor_pow2 by lia. rewrite IH; [|lia|].
        -- rewrite pow2_S. lia.
        -- rewrite Z.min_l, pow2_S by lia. lia.
      * simpl. rewrite Z.min_r in Hv by lia.
        assert (2 ^ w <= 2 ^ Z.of_nat k) by (apply Z.pow_le_mono_r; lia).
        change (Z.lnot 0) with (-1). rewrite Z.min_r by nia.
        symmetry. apply (Z.mod_unique _ _ (-1)); lia.
    + assert (is_one b = false) as -> by (by apply bool_decide_eq_false_2).
      rewrite IH by lia. rewrite pow2_S. simpl Z.b2z. f_equal. lia.
Qed.

Lemma as_native_value w v :
  1 < w -> is_defined v = true -> as_native w v = Z.min (uval (bits_ v)) (2 ^ w - 1).
Proof.
  intros Hw Hd. unfold as_native. rewrite Hd. simpl.
  pose proof (as_native_loop_spec w (bits_ v) 0 0 ltac:(lia) ltac:(lia)
    ltac:(rewrite Z.min_l by lia; simpl; lia)) as H.
  destruct (Z.ltb_spec (Z.of_nat 0) w); [|lia]. change (2 ^ Z.of_nat 0) with 1 in H.
  rewrite Z.mul_1_l, Z.add_0_l in H.
  destruct (Nat.eqb_spec (len v) 0) as [E0|_]; [|exact H].
  unfold uval, len in *. rewrite E0. simpl.
  assert (2 ^ 1 < 2 ^ w) by (apply Z.pow_lt_mono_r; lia). lia.
Qed.

(** The masks of [as_long]. *)
Lemma as_long_pos_loop v n :
  (n <= len v)%nat ->
  for_loop n 0
    (fun idx '(val, mask) =>
       (if decide (bit_at v idx = V1) then Z.lor val mask else val, Z.shiftl mask 1)) (0, 1)
  = (uval (bits_ v) mod 2 ^ Z.of_nat n, 2 ^ Z.of_nat n).
Proof.
  intros Hn.
  apply (for_loop_ind (fun k s => s = (uval (bits_ v) mod 2 ^ Z.of_nat k, 2 ^ Z.of_nat k)) n 0).
  - simpl. by rewrite Z.mod_1_r.
  - intros k s Hk ->. rewrite mod_pow2_S, testbit_uval. fold (bit_at v k).
    pose proof (Z.mod_pos_bound (uval (bits_ v)) (2 ^ Z.of_nat k) ltac:(lia)).
    f_equal; [|rewrite Z.shiftl_mul_pow2, pow2_S by lia; lia].
    unfold is_one. case_decide as Hb.
    + rewrite bool_decide_eq_true_2 by done. rewrite lor_pow2 by lia. simpl. lia.
    + rewrite bool_decide_eq_false_2 by done. simpl. lia.
Qed.

Lemma clear_bit r (k : nat) :
  0 <= r < 2 ^ Z.of_nat k -> Z.land (r - 2 ^ Z.of_nat k) (Z.lnot (2 ^ Z.of_nat k)) = r - 2 ^ Z.of_nat (S k).
Proof.
  intros Hr. apply Z.bits_inj'. intros i Hi.
  replace (r - 2 ^ Z.of_nat k) with (r + -1 * 2 ^ Z.of_nat k) by lia.
  replace (r - 2 ^ Z.of_nat (S k)) with (r + -2 * 2 ^ Z.of_nat k) by (rewrite pow2_S; lia).
  rewrite Z.land_spec, Z.lnot_spec, !testbit_add_high, Z.pow2_bits_eqb by lia.
  destruct (Z.ltb_spec i (Z.of_nat k)), (Z.eqb_spec (Z.of_nat k) i); try lia; simpl; try btauto.
  - subst i. rewrite Z.sub_diag. done.
  - replace (-2) with (2 * (-1)) by lia. rewrite Z.double_bits, !Z.bits_m1 by lia. done.
Qed.

Lemma as_long_neg_loop v n :
  is_defined v = true -> (n <= len v)%nat ->
  for_loop n 0
    (fun idx '(val, mask) =>
       (if decide (bit_at v idx = V0) then Z.land val mask else val,
        Z.lor (Z.shiftl mask 1) 1)) (-1, Z.lnot 1)
  = (uval (bits_ v) mod 2 ^ Z.of_nat n - 2 ^ Z.of_nat n, Z.lnot (2 ^ Z.of_nat n)).
Proof.
  intros Hd Hn.
  apply (for_loop_ind (fun k s =>
    s = (uval (bits_ v) mod 2 ^ Z.of_nat k - 2 ^ Z.of_nat k, Z.lnot (2 ^ Z.of_nat k))) n 0).
  - simpl. by rewrite Z.mod_1_r.
  - intros k s Hk ->. rewrite mod_pow2_S, testbit_uval. fold (bit_at v k).
    pose proof (Z.mod_pos_bound (uval (bits_ v)) (2 ^ Z.of_nat k) ltac:(lia)).
    f_equal.
    + rewrite (bit_defined v k) by done. destruct (is_one (bit_at v k)); cbn [V_of_bool Z.b2z].
      * rewrite decide_False, pow2_S by done. change (Z.b2z (is_one V1)) with 1. lia.
      * rewrite decide_True, clear_bit by (done || lia). change (Z.b2z (is_one V0)) with 0. lia.
    + rewrite pow2_S. unfold Z.lnot.
      rewrite Z.shiftl_mul_pow2, Z.mul_comm by lia. change (2 ^ 1) with 2.
      apply Z.bits_inj'. intros i Hi. rewrite Z.lor_spec.
      replace (Z.pred (- (2 * 2 ^ Z.of_nat k))) with (2 * Z.pred (- 2 ^ Z.of_nat k) + 1) by lia.
      destruct (Z.eq_dec i 0) as [->|].
      * rewrite Z.testbit_odd_0. by rewrite orb_true_r.
      * replace i with (Z.succ (Z.pred i)) by lia.
        rewrite Z.testbit_odd_succ, Z.testbit_even_succ by lia.
        rewrite (testbit_small 1 1 (Z.succ (Z.pred i))) by lia. by rewrite orb_false_r.
Qed.

Lemma as_long_value v :
  is_defined v = true -> wf v -> - 2 ^ 63 <= value v < 2 ^ 63 -> as_long v = value v.
Proof.
  intros Hd Hw Hr. unfold as_long. rewrite Hd. simpl negb. cbv iota.
  destruct (Nat.eqb_spec (len v) 0) as [H0|H0]; [by rewrite empty_value|].
  set (top := if (IVLLBITS <? len v)%nat then IVLLBITS else len v).
  assert (Ht : (top <= len v)%nat /\ (top = len v \/ top = 63%nat)).
  { unfold top, IVLLBITS. destruct (Nat.ltb_spec 63 (len v)); lia. }
  rewrite as_long_pos_loop, as_long_neg_loop by (done || lia). simpl fst.
  pose proof (uval_range (bits_ v)) as Hu. fold (len v) in Hu. unfold value in *.
  unfold is_one in *. destruct (has_sign_ v && bool_decide (bit_at v (len v - 1) = V1)).
  - destruct Ht as [Hle [->| ->]]; [by rewrite Z.mod_small|].
    replace (uval (bits_ v)) with ((uval (bits_ v) - 2 ^ Z.of_nat (len v) + 2 ^ 63) +
      (2 ^ (Z.of_nat (len v) - 63) - 1) * 2 ^ Z.of_nat 63) at 1.
    + rewrite Z.mod_add by lia. rewrite Z.mod_small by lia. lia.
    + change (Z.of_nat 63) with 63. rewrite Z.mul_sub_distr_r, <- Z.pow_add_r by lia.
      replace (Z.of_nat (len v) - 63 + 63) with (Z.of_nat (len v)) by lia. lia.
  - destruct Ht as [Hle [->| ->]]; rewrite Z.mod_small; done || lia.
Qed.

(** ** The constructor from int64_t *)

Lemma native_bits_length n z : length (native_bits n z) = n.
Proof. revert z. induction n as [|n IH]; intros z; simpl; [done|]. by rewrite IH. Qed.

Lemma land_1_odd z : negb (Z.land z 1 =? 0) = Z.odd z.
Proof.
  change 1 with (Z.ones 1). rewrite Z.land_ones by lia.
  change (2 ^ 1) with 2. rewrite Zmod_odd. by destruct (Z.odd z).
Qed.

Lemma native_bits_lookup n z i :
  (i < n)%nat -> native_bits n z !! i = Some (V_of_bool (Z.testbit z (Z.of_nat i))).
Proof.
  revert z i. induction n as [|n IH]; intros z i Hi; [lia|]. simpl. destruct i as [|i].
  - simpl. rewrite <- land_1_odd. by destruct (Z.land z 1 =? 0).
  - simpl lookup. rewrite IH by lia. rewrite Z.shiftr_spec by lia. do 3 f_equal. lia.
Qed.

Lemma native_bits_low n z : forall i, (i < length (native_bits n z))%nat ->
  native_bits n z !! i = Some (V_of_bool (Z.testbit z (Z.of_nat i))).
Proof. intros i. rewrite native_bits_length. apply native_bits_lookup. Qed.

(** The loop counts the bits of the magnitude. *)
Lemma int64_nbits_exact fuel tmp n :
  Z.abs tmp < 2 ^ Z.of_nat fuel ->
  let r := int64_nbits fuel tmp n in
  (n <= r <= n + fuel)%nat /\ Z.abs tmp < 2 ^ Z.of_nat (r - n).
Proof.
  revert tmp n. induction fuel as [|fuel IH]; intros tmp n Ht; simpl.
  - split; [lia|]. by rewrite Nat.sub_diag.
  - destruct (Z.eqb_spec tmp 0) as [->|Hne].
    + rewrite Nat.sub_diag. simpl. lia.
    + rewrite pow2_S in Ht. destruct (IH (Z.quot tmp 2) (S n)) as [H1 H2].
      { Z.to_euclidean_division_equations; lia. }
      split; [lia|].
      replace (int64_nbits fuel (Z.quot tmp 2) (S n) - n)%nat with
        (S (int64_nbits fuel (Z.quot tmp 2) (S n) - S n)) by lia.
      rewrite pow2_S. clear -H2. generalize dependent (2 ^ Z.of_nat (int64_nbits fuel (Z.quot tmp 2) (S n) - S n)).
      intros p Hp. Z.to_euclidean_division_equations; lia.
Qed.

Lemma verinum_of_int64_value z :
  - 2 ^ 63 <= z < 2 ^ 63 -> value (verinum_of_int64 z) = z.
Proof.
  intros Hz. unfold verinum_of_int64.
  set (tmp := if z <? 0 then Z.quot (z + 1) 2 else Z.quot z 2).
  assert (Ht : Z.abs tmp < 2 ^ Z.of_nat 64 /\
    (forall p, Z.abs tmp < p -> - (2 * p) <= z < 2 * p)).
  { unfold tmp. destruct (Z.ltb_spec z 0).
    - Z.to_euclidean_division_equations.
      change (2 ^ Z.of_nat 64) with (2 * 2 ^ 63). split; [|intros p Hp]; lia.
    - Z.to_euclidean_division_equations.
      change (2 ^ Z.of_nat 64) with (2 * 2 ^ 63). split; [|intros p Hp]; lia. }
  destruct Ht as [Ht Hp]. destruct (int64_nbits_exact 64 tmp 1 Ht) as [Hn Hlt].
  set (n := int64_nbits 64 tmp 1) in *. apply value_fits; unfold len; cbn [bits_ has_sign_];
    rewrite native_bits_length.
  - rewrite (uval_bits _ z (native_bits_low (S n) z)). by rewrite native_bits_length.
  - split; [lia|]. specialize (Hp _ Hlt).
    replace (Z.of_nat (S n) - 1) with (Z.of_nat (S (n - 1))) by lia. by rewrite pow2_S.
Qed.

Lemma verinum_of_uint64_uval z n :
  uval (bits_ (verinum_of_uint64 z n)) = z mod 2 ^ Z.of_nat n.
Proof. simpl. rewrite (uval_bits _ z (native_bits_low n z)). by rewrite native_bits_length. Qed.

(** ** Strings *)

Lemma char_bits_length c : length (char_bits c) = 8%nat.
Proof. by destruct c. Qed.

Lemma char_of_Z_code c : char_of_Z (char_code c) = c.
Proof. destruct c as [[] [] [] [] [] [] [] []]; reflexivity. Qed.

(** Three octal digits are read back whatever follows. *)
Lemma octal_loop_escape c rest :
  octal_loop 3 (tail (octal_escape c) ++ rest) 0 = (char_code c, rest).
Proof. destruct c as [[] [] [] [] [] [] [] []]; reflexivity. Qed.

Lemma octal_escape_head c :
  exists d1 d2 d3, octal_escape c = [backslash; d1; d2; d3] /\ is_octal d1 = true.
Proof. do 3 eexists. split; [reflexivity|]. destruct c as [[] [] [] [] [] [] [] []]; reflexivity. Qed.

Lemma is_octal_not_letter d :
  is_octal d = true ->
  d <> "n"%char /\ d <> "t"%char /\ d <> "v"%char /\ d <> "f"%char /\ d <> "a"%char.
Proof. intros H. repeat split; intros ->; discriminate. Qed.

(** The printed form of a character is read back as that character. *)
Lemma process_print_char f c rest :
  process_quotes (S f) (print_char c ++ rest) = (c ::.) <$> process_quotes f rest.
Proof.
  unfold print_char.
  assert (Hesc : process_quotes (S f) (octal_escape c ++ rest) = (c ::.) <$> process_quotes f rest).
  { pose proof (octal_loop_escape c rest) as Hloop.
    destruct (octal_escape_head c) as (d1 & d2 & d3 & Hd & Ho). rewrite Hd in *.
    destruct (is_octal_not_letter d1 Ho) as (N1 & N2 & N3 & N4 & N5).
    cbn [process_quotes app]. rewrite decide_True by done.
    rewrite !(decide_False (P := d1 = _)) by done. rewrite Ho.
    simpl tail in Hloop. simpl app in Hloop. rewrite Hloop. by rewrite char_of_Z_code. }
  case_decide as Hq; [done|]. destruct (isprint c); [|done].
  cbn [process_quotes app]. rewrite decide_False; [done|]. intros ->. apply Hq. by right.
Qed.

Lemma process_print_chars cs : forall f, (length cs <= f)%nat ->
  process_quotes f (concat (map print_char cs)) = Some cs.
Proof.
  induction cs as [|c cs IH]; intros f Hf; simpl in *; [by destruct f|].
  destruct f as [|f]; [lia|]. rewrite process_print_char, IH by lia. done.
Qed.

Lemma print_char_length c : (1 <= length (print_char c))%nat.
Proof. unfold print_char. case_decide; [simpl; lia|]. destruct (isprint c); simpl; lia. Qed.

Lemma process_printed cs :
  process_verilog_string_quotes (concat (map print_char cs)) = Some cs.
Proof.
  apply process_print_chars. induction cs as [|c cs IH]; simpl; [lia|].
  rewrite length_app. pose proof (print_char_length c). lia.
Qed.

(** The characters stored in [n] bytes, top byte first. *)
Fixpoint chars_of (n : nat) (bits : list V) : list ascii :=
  match n with O => [] | S n' => char_below bits (8 * n) :: chars_of n' bits end.

Lemma as_string_chars n bits : as_string_loop n bits = concat (map print_char (chars_of n bits)).
Proof. induction n as [|n IH]; [done|]. cbn [as_string_loop chars_of map concat]. by rewrite IH. Qed.

Lemma chars_of_length n bits : length (chars_of n bits) = n.
Proof. induction n as [|n IH]; [done|]. cbn [chars_of length]. by rewrite IH. Qed.

Lemma chars_of_take n bits : chars_of n (take (8 * n) bits) = chars_of n bits.
Proof.
  assert (H : forall k, (k <= n)%nat -> chars_of k (take (8 * n) bits) = chars_of k bits).
  { induction k as [|k IH]; intros Hk; [done|]. cbn [chars_of]. rewrite IH by lia. f_equal.
    unfold char_below. by rewrite !lookup_take_lt by lia. }
  by apply H.
Qed.

(** Eight defined bits are the bits of the character they hold. *)
Lemma char_bits_below (bits : list V) (b : list V) :
  length b = 8%nat -> Forall (fun x => x = V0 \/ x = V1) b ->
  char_bits (char_below (bits ++ b) (length bits + 8)) = b.
Proof.
  intros Hl Hb. do 8 (destruct b as [|? b]; [done|]). destruct b; [|done].
  unfold char_below.
  repeat rewrite lookup_app_r by lia.
  replace (length bits + 8 - 8 - length bits)%nat with 0%nat by lia.
  replace (length bits + 8 - 7 - length bits)%nat with 1%nat by lia.
  replace (length bits + 8 - 6 - length bits)%nat with 2%nat by lia.
  replace (length bits + 8 - 5 - length bits)%nat with 3%nat by lia.
  replace (length bits + 8 - 4 - length bits)%nat with 4%nat by lia.
  replace (length bits + 8 - 3 - length bits)%nat with 5%nat by lia.
  replace (length bits + 8 - 2 - length bits)%nat with 6%nat by lia.
  replace (length bits + 8 - 1 - length bits)%nat with 7%nat by lia.
  do 8 (pose proof (Forall_inv Hb) as ?Hv; apply Forall_inv_tail in Hb).
  assert (Hx : forall x, x = V0 \/ x = V1 -> V_of_bool (bool_decide (x = V1)) = x)
    by (intros x [->| ->]; done).
  simpl. by rewrite !Hx.
Qed.

Lemma string_bits n : forall bits, length bits = (8 * n)%nat ->
  Forall (fun x => x = V0 \/ x = V1) bits ->
  concat (map char_bits (reverse (chars_of n bits))) = bits.
Proof.
  induction n as [|n IH]; intros bits Hl Hb.
  - destruct bits; done.
  - rewrite <- (take_drop (8 * n) bits) at 2. cbn [chars_of].
    rewrite reverse_cons, map_app, concat_app. cbn [map concat]. rewrite app_nil_r.
    rewrite <- chars_of_take, IH.
    + f_equal. rewrite <- (take_drop (8 * n) bits) at 1.
      assert (Ht : length (take (8 * n) bits) = (8 * n)%nat) by (rewrite length_take; lia).
      replace (8 * S n)%nat with (length (take (8 * n) bits) + 8)%nat by lia.
      apply char_bits_below; [rewrite length_drop; lia|by apply Forall_drop].
    + rewrite length_take. lia.
    + by apply Forall_take.
Qed.

(** A string number: whole bytes, at least one, only 0 and 1 bits. *)
Definition string_number (v : verinum) : Prop :=
  string_flag_ v = true /\ has_len_ v = true /\ has_sign_ v = false /\ is_single_ v = false /\
  is_defined v = true /\ (0 < len v)%nat /\ (len v mod 8 = 0)%nat.

#[export] Instance string_number_dec v : Decision (string_number v).
Proof. unfold string_number. apply _. Defined.

Lemma len_bytes v : (len v mod 8 = 0)%nat -> len v = (8 * (len v / 8))%nat.
Proof. intros H. pose proof (Nat.div_mod_eq (len v) 8). lia. Qed.

Lemma as_string_some v :
  (len v mod 8 = 0)%nat ->
  as_string v = Some (concat (map print_char (chars_of (len v / 8) (bits_ v)))).
Proof. intros H. unfold as_string. rewrite H. simpl. by rewrite as_string_chars. Qed.

(** The string constructor on printed text. *)
Lemma of_printed cs :
  verinum_of_string (concat (map print_char cs)) =
  Some (Verinum (if (length cs =? 0)%nat then replicate 8 V0 else concat (map char_bits (reverse cs)))
    true false false true).
Proof.
  unfold verinum_of_string. rewrite process_printed. cbn [mbind option_bind].
  destruct cs as [|c cs]; [done|]. by destruct (Nat.eqb_spec (length (c :: cs) * 8) 0).
Qed.

Lemma string_roundtrip v :
  string_number v -> (s ← as_string v; verinum_of_string s) = Some v.
Proof.
  intros (Hst & Hl & Hs & Hsg & Hd & Hpos & Hmod).
  rewrite as_string_some by done. cbn [mbind option_bind]. rewrite of_printed, chars_of_length.
  pose proof (len_bytes v Hmod) as Hlen.
  destruct (Nat.eqb_spec (len v / 8) 0); [lia|].
  rewrite string_bits.
  - destruct v; simpl in *; by subst.
  - done.
  - apply Forall_lookup. intros i b Hb. rewrite is_defined_iff in Hd. by apply (Hd i).
Qed.

Lemma pad_to_width_total v w : exists r, pad_to_width v w = Some r.
Proof.
  unfold pad_to_width. destruct (Nat.leb_spec w (len v)); [by eexists|].
  destruct (Nat.eqb_spec (len v) 0); [by eexists|].
  destruct (string_flag_ v && (w mod 8 =? 0)%nat) eqn:E; [|by eexists].
  apply andb_true_iff in E as [_ Hw]. apply Nat.eqb_eq in Hw.
  rewrite copy_fill_eq by lia. rewrite as_string_some.
  - cbn [mbind option_bind]. rewrite of_printed. by eexists.
  - unfold len at 1; simpl. rewrite length_app, length_replicate.
    replace (length (bits_ v) + (w - len v))%nat with w by (unfold len in *; lia). done.
Qed.

(** ** The sorting order *)

(** The bits as a base-4 number. *)
Fixpoint quad (bits : list V) (n : nat) : Z :=
  match n with
  | O => 0
  | S i => quad bits i + 4 ^ Z.of_nat i * V_to_int (default V0 (bits !! i))
  end.

Lemma V_to_int_range b : 0 <= V_to_int b <= 3.
Proof. destruct b; simpl; lia. Qed.

Lemma V_to_int_inj a b : V_to_int a = V_to_int b -> a = b.
Proof. by destruct a, b. Qed.

Lemma quad_range bits n : 0 <= quad bits n < 4 ^ Z.of_nat n.
Proof.
  induction n as [|n IH]; [simpl; lia|]. cbn [quad].
  rewrite Nat2Z.inj_succ, Z.pow_succ_r by lia. pose proof (V_to_int_range (default V0 (bits !! n))). nia.
Qed.

Lemma is_before_loop_quad l r n : is_before_loop l r n = (quad l n <? quad r n).
Proof.
  induction n as [|n IH]; [done|]. cbn [is_before_loop quad].
  pose proof (quad_range l n). pose proof (quad_range r n).
  set (a := V_to_int _). set (b := V_to_int _). set (p := 4 ^ Z.of_nat n) in *.
  rewrite IH. destruct (Z.ltb_spec a b), (Z.ltb_spec b a); try lia; symmetry.
  - apply Z.ltb_lt. nia.
  - apply Z.ltb_ge. nia.
  - assert (a = b) as -> by lia. destruct (Z.ltb_spec (quad l n) (quad r n)); split_ltb; lia.
Qed.

Lemma quad_inj l r n :
  quad l n = quad r n -> forall i, (i < n)%nat -> default V0 (l !! i) = default V0 (r !! i).
Proof.
  induction n as [|n IH]; intros Hq i Hi; [lia|]. cbn [quad] in Hq.
  pose proof (quad_range l n). pose proof (quad_range r n).
  pose proof (V_to_int_range (default V0 (l !! n))). pose proof (V_to_int_range (default V0 (r !! n))).
  set (p := 4 ^ Z.of_nat n) in *.
  assert (V_to_int (default V0 (l !! n)) = V_to_int (default V0 (r !! n))) as Hab by nia.
  destruct (decide (i = n)) as [->|]; [by apply V_to_int_inj|]. apply IH; [nia|lia].
Qed.

(** The order compares lengths, then the base-4 readings. *)
Lemma is_before_lex a b :
  is_before a b = true <->
  (len a < len b)%nat \/ len a = len b /\ quad (bits_ a) (len a) < quad (bits_ b) (len b).
Proof.
  unfold is_before. rewrite is_before_loop_quad.
  destruct (Nat.ltb_spec (len a) (len b)); [intuition lia|].
  destruct (Nat.ltb_spec (len b) (len a)); [intuition (done || lia)|].
  assert (len a = len b) as E by lia. rewrite E, Z.ltb_lt. intuition lia.
Qed.

(** ** Properties *)

(** Trimming an unsized number keeps its value and signedness, never
    lengthens it, and leaves no redundant leading bit: two sign bits, or two
    leading zeros. *)
Lemma trim_vnum_correct (v : verinum) :
  value (trim_vnum v) = value v /\ has_sign_ (trim_vnum v) = has_sign_ v /\
  (len (trim_vnum v) <= len v)%nat /\
  (has_len_ v = true -> trim_vnum v = v) /\
  (has_len_ v = false -> minimal (trim_vnum v)).
Proof.
  repeat split; [apply trim_vnum_value|apply trim_vnum_has_sign|apply trim_vnum_len|
    apply trim_vnum_sized|apply trim_vnum_minimal].
Qed.

(** Casting a defined number to [w] bits gives a sized number of exactly [w]
    bits and the same signedness, congruent to the old value modulo [2^w];
    padding to a larger width keeps the value. *)
Lemma width_change_correct (v : verinum) (w : nat) :
  is_defined v = true -> wf v -> is_single_ v = false ->
  (len (cast_to_width v w) = w /\ has_len_ (cast_to_width v w) = true /\
   has_sign_ (cast_to_width v w) = has_sign_ v /\
   uval (bits_ (cast_to_width v w)) = value v mod 2 ^ Z.of_nat w) /\
  (string_flag_ v = false ->
   exists r, pad_to_width v w = Some r /\ len r = Nat.max (len v) w /\ value r = value v).
Proof.
  intros Hd Hw Hsg. split.
  { destruct (cast_to_width_spec v w Hd Hw Hsg) as (? & ? & ? & ? & _). auto. }
  intros Hst. unfold pad_to_width. rewrite Hst. simpl andb. cbv iota.
  destruct (Nat.leb_spec w (len v)) as [Hle|Hgt]; [exists v; repeat split; lia|].
  destruct (Nat.eqb_spec (len v) 0) as [H0|H0].
  - eexists; split; [done|]. rewrite zero_value, empty_value by done. split; [|done].
    unfold len; simpl. rewrite length_replicate. unfold len in *. lia.
  - eexists; split; [done|]. rewrite copy_fill_eq, pad_bit_defined by (done || lia). split.
    + unfold len at 1; simpl. rewrite length_app, length_replicate. unfold len in *. lia.
    + apply (pad_append_value v w (has_len_ v)); [lia|done].
Qed.

(** Padding never fails: the detour of string numbers through their printed
    text always parses back. *)
Theorem pad_to_width_never_fails (v : verinum) (w : nat) : pad_to_width v w <> None.
Proof. destruct (pad_to_width_total v w) as [r ->]. done. Qed.

(** C34. Native conversions: an undefined number converts to 0; a defined one
    saturates at the largest unsigned value; [as_long] is exact on values that
    fit a [long]; the constructor from [int64_t] is exact on all of them. *)
Theorem native_conversion_correct (v : verinum) (z : Z) :
  wf v ->
  (is_defined v = false -> as_unsigned v = 0 /\ as_ulong v = 0 /\ as_long v = 0) /\
  (is_defined v = true ->
   as_unsigned v = Z.min (uval (bits_ v)) (2 ^ 32 - 1) /\
   as_ulong v = Z.min (uval (bits_ v)) (2 ^ 64 - 1) /\
   (- 2 ^ 63 <= value v < 2 ^ 63 -> as_long v = value v)) /\
  (- 2 ^ 63 <= z < 2 ^ 63 ->
   value (verinum_of_int64 z) = z /\ as_long (verinum_of_int64 z) = z).
Proof.
  intros Hw. split; [|split].
  - intros Hd. unfold as_unsigned, as_ulong, as_native, as_long. rewrite Hd.
    by destruct (len v =? 0)%nat.
  - intros Hd. unfold as_unsigned, as_ulong. rewrite !as_native_value by (done || lia).
    split; [done|]. split; [done|]. by apply as_long_value.
  - intros Hz. pose proof (verinum_of_int64_value z Hz) as Hv. split; [done|].
    rewrite as_long_value; rewrite ?Hv; try done.
    + apply (is_defined_bits _ z). apply (native_bits_low _ z).
    + intros _. unfold len, verinum_of_int64; cbn [bits_]. rewrite native_bits_length. lia.
Qed.

(** C32. Round trip of string constants: the escaped text printed for a string
    number parses back to the same number, for every byte value. *)
Theorem string_number_roundtrip (v : verinum) :
  string_number v ->
  exists s, as_string v = Some s /\ verinum_of_string s = Some v.
Proof.
  intros H. pose proof (string_roundtrip v H) as E.
  destruct (as_string v) as [s|]; [|done]. by exists s.
Qed.

(** [is_before] is a strict total order on bit vectors (shorter first, then
    by value, x and z included), as sorting requires. *)
Theorem is_before_strict_order (a b c : verinum) :
  is_before a a = false /\
  (is_before a b = true -> is_before b c = true -> is_before a c = true) /\
  (is_before a b = false -> is_before b a = false -> bits_ a = bits_ b).
Proof.
  split; [|split].
  - apply not_true_is_false. rewrite is_before_lex. lia.
  - rewrite !is_before_lex. intuition lia.
  - intros H1 H2. apply not_true_iff_false in H1, H2. rewrite is_before_lex in H1, H2.
    assert (E : len a = len b) by lia. assert (Hq : quad (bits_ a) (len a) = quad (bits_ b) (len a)).
    { rewrite E in *. lia. }
    apply list_eq. intros i. destruct (Nat.lt_ge_cases i (len a)) as [Hi|Hi].
    + pose proof (quad_inj _ _ _ Hq i Hi) as Hd. unfold len in *.
      destruct (lookup_lt_is_Some_2 (bits_ a) i ltac:(lia)) as [x Hx].
      destruct (lookup_lt_is_Some_2 (bits_ b) i ltac:(lia)) as [y Hy].
      rewrite Hx, Hy in *. simpl in Hd. by subst.
    + rewrite !lookup_ge_None_2 by (unfold len in *; lia). done.
Qed.


Lemma native_conversion_correct_witness :
  as_unsigned (verinum_of_uint64 (2 ^ 40) 48) = 2 ^ 32 - 1 /\ as_long (verinum_of_int64 (-77)) = -77.
Proof.
  pose proof (native_conversion_correct (verinum_of_uint64 (2 ^ 40) 48) (-77)
    ltac:(apply (bool_decide_unpack _); vm_compute; exact I)) as (_ & H1 & H2).
  split; [exact (proj1 (H1 eq_refl))|]. apply H2. lia.
Defined.

Definition hello : verinum :=
  Verinum (concat (map char_bits [backslash; dquote; char_of_Z 200; "h"%char])) true false false true.

Lemma string_number_roundtrip_witness :
  exists s, as_string hello = Some s /\ verinum_of_string s = Some hello.
Proof.
  apply (string_number_roundtrip hello). apply (bool_decide_unpack _). vm_compute. exact I.
Defined.

Lemma is_before_strict_order_witness :
  is_before (verinum_of_uint64 1 4) (verinum_of_uint64 9 8) = true.
Proof.
  pose proof (is_before_strict_order (verinum_of_uint64 1 4) (verinum_of_uint64 5 4)
    (verinum_of_uint64 9 8)) as (_ & H & _).
  exact (H eq_refl eq_refl).
Defined.

Lemma trim_vnum_correct_witness :
  trim_vnum (verinum_of_uint64 5 9) = verinum_of_uint64 5 9.
Proof.
  pose proof (trim_vnum_correct (verinum_of_uint64 5 9)) as (_ & _ & _ & H & _). exact (H eq_refl).
Defined.

(** C29. Changes of width.  For a defined number that is not an unbased single bit
    (['0] or ['1], whose one bit is repeated instead): casting it to [w] bits gives a
    sized number of the same signedness congruent modulo [2^w], and padding it to [w]
    bits, unless it is a string, which is rebuilt from its characters, keeps its
    value and gives the larger of the two widths.  Trimming keeps the value and the
    signedness of any number, returns a sized number as it is, and leaves no
    redundant leading bit in an unsized one. *)
Theorem verinum_width_correct (v : verinum) (w : nat) :
  (is_defined v = true -> wf v -> is_single_ v = false ->
   (len (cast_to_width v w) = w /\ has_len_ (cast_to_width v w) = true /\
    has_sign_ (cast_to_width v w) = has_sign_ v /\
    uval (bits_ (cast_to_width v w)) = value v mod 2 ^ Z.of_nat w) /\
   (string_flag_ v = false ->
    exists r, pad_to_width v w = Some r /\ len r = Nat.max (len v) w /\ value r = value v)) /\
  (value (trim_vnum v) = value v /\ has_sign_ (trim_vnum v) = has_sign_ v /\
   (len (trim_vnum v) <= len v)%nat /\
   (has_len_ v = true -> trim_vnum v = v) /\
   (has_len_ v = false -> minimal (trim_vnum v))).
Proof. exact (conj (width_change_correct v w) (trim_vnum_correct v)). Qed.

Lemma verinum_width_correct_witness :
  uval (bits_ (cast_to_width (verinum_of_int64 (-3)) 8)) = 253 /\
  exists r, pad_to_width (verinum_of_int64 (-3)) 8 = Some r /\ value r = -3.
Proof.
  pose proof (fun v w => proj1 (verinum_width_correct v w)) as width_change_correct.
  pose proof (width_change_correct (verinum_of_int64 (-3)) 8%nat eq_refl
    ltac:(apply (bool_decide_unpack _); vm_compute; exact I) eq_refl) as [(_ & _ & _ & H) H2].
  destruct (H2 eq_refl) as (r & E & _ & Hv). split; [exact H|]. exists r. split; [exact E|exact Hv].
Defined.
