(* ===== verification/VerinumCmp.v ===== *)
(** * VerinumCmp: the comparison operators of verinum.cc

    [==], [<=], [<] and the operators derived from them, with the early
    returns of the code, and their meaning on defined operands: the comparison
    of the values the code compares, which are signed only when both operands
    are. *)

From S2P Require Import Prelude FourState Verinum VerinumValue.
Import VNum.

(** The outcome of a step that may return from the whole operator. *)
Definition orelse {A} (o : option A) (k : A) : A := match o with Some a => a | None => k end.

(** A V used as a C condition: every enumerator but V0 is nonzero. *)
Definition truthy (v : V) : bool := negb (V_to_int v =? 0).

(** [operator == (const verinum&, const verinum&)] *)
Definition verinum_eq (left right : verinum) : V :=
  let signed := has_sign_ left && has_sign_ right in
  let left_pad := if signed then bit_at left (len left - 1) else V0 in
  let right_pad := if signed then bit_at right (len right - 1) else V0 in
  if signed && bool_decide (left_pad = V1 /\ right_pad = V0) then V0
  else if signed && bool_decide (left_pad = V0 /\ right_pad = V1) then V0
  else
    let max_len := Nat.max (len left) (len right) in
    for_loop max_len 0
      (fun idx res =>
         if decide (res = V0) then res (* returned *)
         else
           let left_bit := if (idx <? len left)%nat then bit_at left idx else left_pad in
           let right_bit := if (idx <? len right)%nat then bit_at right idx else right_pad in
           if decide (left_bit <> right_bit) then V0 else res) V1.

(** [for (idx = n; idx > stop; idx -= 1) if (v[idx-1] != pad) return ret;] with
    [n = stop + count]; [None] when the loop runs to its end. *)
Fixpoint extra_bits_loop (v : verinum) (pad : V) (ret : V) (stop count : nat) : option V :=
  match count with
  | O => None
  | S c =>
    if decide (bit_at v (stop + c) <> pad) then Some ret
    else extra_bits_loop v pad ret stop c
  end.

(** [while (idx > 0)]: the bits both operands have, from the top. *)
Fixpoint common_bits_loop (left right : verinum) (idx : nat) : option V :=
  match idx with
  | O => None
  | S i =>
    let l := bit_at left i in
    let r := bit_at right i in
    if decide (l = Vx) then Some Vx
    else if decide (l = Vz) then Some Vx
    else if decide (r = Vx) then Some Vx
    else if decide (r = Vz) then Some Vx
    else if V_to_int r <? V_to_int l then Some V0
    else if V_to_int l <? V_to_int r then Some V1
    else common_bits_loop left right i
  end.

(** The text shared by [<=] and [<], which differ in the value returned when no
    bit decides. *)
Definition compare_from (equal : V) (left right : verinum) : V :=
  let signed_calc := has_sign_ left && has_sign_ right in
  let left_pad := if signed_calc then bit_at left (len left - 1) else V0 in
  let right_pad := if signed_calc then bit_at right (len right - 1) else V0 in
  if signed_calc && bool_decide (left_pad = V1 /\ right_pad = V0) then V1
  else if signed_calc && bool_decide (left_pad = V0 /\ right_pad = V1) then V0
  else
    orelse
      (extra_bits_loop left right_pad (if signed_calc && bool_decide (left_pad = V1) then V1 else V0)
         (len right) (len left - len right))
      (orelse
         (extra_bits_loop right left_pad
            (if signed_calc && bool_decide (right_pad = V1) then V0 else V1)
            (len left) (len right - len left))
         (orelse (common_bits_loop left right (Nat.min (len left) (len right))) equal)).

Definition verinum_le (left right : verinum) : V := compare_from V1 left right.
Definition verinum_lt (left right : verinum) : V := compare_from V0 left right.
Definition verinum_gt (left right : verinum) : V := verinum_lt right left.
Definition verinum_ge (left right : verinum) : V := verinum_le right left.
Definition verinum_ne (left right : verinum) : V := if truthy (verinum_eq left right) then V0 else V1.

(** The number an operand stands for in a comparison. *)
Definition cmp_value (signed : bool) (v : verinum) : Z := if signed then value v else uval (bits_ v).

(** ** The low bits of the operands *)

Lemma uval_low_S v n :
  uval (bits_ v) mod 2 ^ Z.of_nat (S n) =
    uval (bits_ v) mod 2 ^ Z.of_nat n + Z.b2z (is_one (bit_at v n)) * 2 ^ Z.of_nat n.
Proof. by rewrite mod_pow2_S, testbit_uval. Qed.

Lemma common_bits_loop_spec l r n :
  is_defined l = true -> is_defined r = true ->
  let a := uval (bits_ l) mod 2 ^ Z.of_nat n in
  let b := uval (bits_ r) mod 2 ^ Z.of_nat n in
  common_bits_loop l r n = if a <? b then Some V1 else if b <? a then Some V0 else None.
Proof.
  intros Hl Hr. induction n as [|n IH]; [simpl; by rewrite !Z.mod_1_r|].
  cbv zeta in *. rewrite !uval_low_S. cbn [common_bits_loop].
  pose proof (Z.mod_pos_bound (uval (bits_ l)) (2 ^ Z.of_nat n) ltac:(lia)).
  pose proof (Z.mod_pos_bound (uval (bits_ r)) (2 ^ Z.of_nat n) ltac:(lia)).
  rewrite (bit_defined l n), (bit_defined r n) by done.
  set (a := _ mod _) in *. set (b := _ mod _) in *. set (p := 2 ^ Z.of_nat n) in *.
  destruct (is_one (bit_at l n)), (is_one (bit_at r n)); cbn;
    rewrite ?IH; change (is_one V1) with true; change (is_one V0) with false; simpl Z.b2z;
    split_ltb; done || lia.
Qed.

Lemma extra_bits_loop_spec v pad ret stop count :
  match extra_bits_loop v pad ret stop count with
  | Some x => x = ret /\ exists i, (stop <= i < stop + count)%nat /\ bit_at v i <> pad
  | None => forall i, (stop <= i < stop + count)%nat -> bit_at v i = pad
  end.
Proof.
  induction count as [|c IH]; simpl; [intros; lia|]. case_decide as Hb.
  - split; [done|]. exists (stop + c)%nat. split; [lia|done].
  - destruct (extra_bits_loop v pad ret stop c) as [x|].
    + destruct IH as (-> & i & Hi & Hn). split; [done|]. exists i. split; [lia|done].
    + intros i Hi. destruct (decide (i = stop + c)%nat) as [->|]; [done|]. apply IH. lia.
Qed.

Section Operand.
Context (s : bool) (v : verinum) (Hs : s = true -> has_sign_ v = true) (Hw : wf v).

Definition pad_of : V := if s then bit_at v (len v - 1) else V0.

Lemma cmp_bits (i : nat) :
  Z.testbit (cmp_value s v) (Z.of_nat i) =
    if (i <? len v)%nat then is_one (bit_at v i) else is_one pad_of.
Proof using All.
  unfold cmp_value, pad_of. destruct s.
  - rewrite testbit_value by done. unfold sign_bit. by rewrite Hs.
  - rewrite testbit_uval. destruct (Nat.ltb_spec i (len v)); [done|].
    rewrite lookup_ge_None_2 by done. done.
Qed.

Lemma cmp_mod (n : nat) :
  (n <= len v)%nat -> cmp_value s v mod 2 ^ Z.of_nat n = uval (bits_ v) mod 2 ^ Z.of_nat n.
Proof using All.
  intros Hn. rewrite <- !Zbits_of_Z. apply Zbits_ext. intros i Hi.
  rewrite cmp_bits, testbit_uval. by destruct (Nat.ltb_spec i (len v)); [|lia].
Qed.

Lemma cmp_sign : (cmp_value s v <? 0) = is_one pad_of.
Proof using All.
  unfold cmp_value, pad_of. pose proof (uval_range (bits_ v)) as Hu. fold (len v) in Hu.
  destruct s.
  - unfold value. rewrite Hs by done. simpl.
    destruct (is_one (bit_at v (len v - 1))); split_ltb; done || lia.
  - change (is_one V0) with false. split_ltb; done || lia.
Qed.
End Operand.

(** An integer whose bits from [m] up are all [p] is its low part, less [2^m]
    when [p] is set. *)
Lemma high_bits_const a (m : nat) p :
  (forall i, (m <= i)%nat -> Z.testbit a (Z.of_nat i) = p) ->
  a = a mod 2 ^ Z.of_nat m - Z.b2z p * 2 ^ Z.of_nat m.
Proof.
  intros H. assert (Hd : a / 2 ^ Z.of_nat m = - Z.b2z p).
  { apply Z.bits_inj'. intros i Hi. rewrite <- (Z2Nat.id i) by lia.
    rewrite Z.div_pow2_bits by lia. rewrite <- Nat2Z.inj_add, H by lia. destruct p; simpl.
    - by rewrite Z.bits_m1 by lia.
    - by rewrite Z.bits_0. }
  pose proof (Z.div_mod a (2 ^ Z.of_nat m) ltac:(lia)). rewrite Hd in *. lia.
Qed.

(** A bit from [m] up that differs from the sign puts the integer beyond every
    integer that fits in the low [m] bits. *)
Lemma high_bit_diff a (m i : nat) p :
  (a <? 0) = p -> (m <= i)%nat -> Z.testbit a (Z.of_nat i) = negb p ->
  if p then a < - 2 ^ Z.of_nat m else 2 ^ Z.of_nat m <= a.
Proof.
  intros Hp Hi Hb. pose proof (pow2_pos (Z.of_nat m) ltac:(lia)) as Hm.
  assert (Hd : a / 2 ^ Z.of_nat m <> - Z.b2z p).
  { intros Hd. replace (Z.of_nat i) with (Z.of_nat (i - m) + Z.of_nat m) in Hb by lia.
    rewrite <- Z.div_pow2_bits, Hd in Hb by lia. destruct p; simpl in Hb.
    - by rewrite Z.bits_m1 in Hb by lia.
    - by rewrite Z.bits_0 in Hb. }
  pose proof (Z.div_mod a (2 ^ Z.of_nat m) ltac:(lia)).
  pose proof (Z.mod_pos_bound a (2 ^ Z.of_nat m) ltac:(lia)).
  destruct p; simpl in *; [apply Z.ltb_lt in Hp|apply Z.ltb_ge in Hp]; nia.
Qed.

Definition outcome (equal : V) (a b : Z) : V :=
  if a <? b then V1 else if b <? a then V0 else equal.

Lemma is_one_neq_pad v p i :
  is_defined v = true -> bit_at v i <> V_of_bool p -> is_one (bit_at v i) = negb p.
Proof. intros Hd. rewrite (bit_defined v i) by done. by destruct (is_one _), p. Qed.

Section Compare.
Context (l r : verinum).
Context (Hdl : is_defined l = true) (Hwl : wf l) (Hdr : is_defined r = true) (Hwr : wf r).
Context (equal : V).

(** The loops, once both pads are known to be [p]. *)
Lemma compare_loops s p :
  (s = true -> has_sign_ l = true) -> (s = true -> has_sign_ r = true) ->
  pad_of s l = V_of_bool p -> pad_of s r = V_of_bool p ->
  orelse
    (extra_bits_loop l (V_of_bool p) (if p then V1 else V0) (len r) (len l - len r))
    (orelse
       (extra_bits_loop r (V_of_bool p) (if p then V0 else V1) (len l) (len r - len l))
       (orelse (common_bits_loop l r (Nat.min (len l) (len r))) equal)) =
  outcome equal (cmp_value s l) (cmp_value s r).
Proof using Hdl Hwl Hdr Hwr.
  intros Hsl Hsr Hpl Hpr. set (m := Nat.min (len l) (len r)).
  assert (Hp1 : is_one (V_of_bool p) = p) by by destruct p.
  pose proof (cmp_sign s l Hsl Hwl) as Hnl. pose proof (cmp_sign s r Hsr Hwr) as Hnr.
  rewrite Hpl, Hp1 in Hnl. rewrite Hpr, Hp1 in Hnr.
  pose proof (extra_bits_loop_spec l (V_of_bool p) (if p then V1 else V0) (len r) (len l - len r)) as H1.
  pose proof (extra_bits_loop_spec r (V_of_bool p) (if p then V0 else V1) (len l) (len r - len l)) as H2.
  pose proof (pow2_pos (Z.of_nat m) ltac:(lia)) as Hpm.
  assert (Hconst : forall v, is_defined v = true -> (s = true -> has_sign_ v = true) -> wf v ->
    pad_of s v = V_of_bool p ->
    (forall i, (m <= i < len v)%nat -> bit_at v i = V_of_bool p) ->
    cmp_value s v = cmp_value s v mod 2 ^ Z.of_nat m - Z.b2z p * 2 ^ Z.of_nat m).
  { intros v Hd Hs Hw Hpv Hb. apply high_bits_const. intros i Hi.
    rewrite cmp_bits, Hpv by done. destruct (Nat.ltb_spec i (len v)); [rewrite Hb by lia|]; done. }
  unfold outcome.
  destruct (extra_bits_loop l _ _ _ _) as [x|].
  { destruct H1 as (-> & i & Hi & Hn). apply is_one_neq_pad in Hn; [|done]. simpl orelse.
    assert (Hbit : Z.testbit (cmp_value s l) (Z.of_nat i) = negb p).
    { rewrite cmp_bits by done. by destruct (Nat.ltb_spec i (len l)); [|lia]. }
    pose proof (high_bit_diff _ m i p Hnl ltac:(lia) Hbit) as Hfar.
    rewrite (Hconst r Hdr Hsr Hwr Hpr) by (intros; lia).
    pose proof (Z.mod_pos_bound (cmp_value s r) (2 ^ Z.of_nat m) ltac:(lia)).
    destruct p; simpl Z.b2z; split_ltb; done || lia. }
  destruct (extra_bits_loop r _ _ _ _) as [x|].
  { destruct H2 as (-> & i & Hi & Hn). apply is_one_neq_pad in Hn; [|done]. simpl orelse.
    assert (Hbit : Z.testbit (cmp_value s r) (Z.of_nat i) = negb p).
    { rewrite cmp_bits by done. by destruct (Nat.ltb_spec i (len r)); [|lia]. }
    pose proof (high_bit_diff _ m i p Hnr ltac:(lia) Hbit) as Hfar.
    rewrite (Hconst l Hdl Hsl Hwl Hpl) by (intros; lia).
    pose proof (Z.mod_pos_bound (cmp_value s l) (2 ^ Z.of_nat m) ltac:(lia)).
    destruct p; simpl Z.b2z; split_ltb; done || lia. }
  simpl orelse. rewrite common_bits_loop_spec by done.
  assert (Hcl : forall i, (m <= i < len l)%nat -> bit_at l i = V_of_bool p)
    by (intros i Hi; apply H1; lia).
  assert (Hcr : forall i, (m <= i < len r)%nat -> bit_at r i = V_of_bool p)
    by (intros i Hi; apply H2; lia).
  rewrite (Hconst l Hdl Hsl Hwl Hpl Hcl), (Hconst r Hdr Hsr Hwr Hpr Hcr).
  rewrite !cmp_mod by (done || lia).
  split_ltb; simpl orelse; done || lia.
Qed.

Lemma compare_from_spec :
  let s := has_sign_ l && has_sign_ r in
  compare_from equal l r = outcome equal (cmp_value s l) (cmp_value s r).
Proof using Hdl Hwl Hdr Hwr.
  cbv zeta. unfold compare_from. set (s := has_sign_ l && has_sign_ r).
  assert (Hsl : s = true -> has_sign_ l = true) by (unfold s; intros E; by apply andb_true_iff in E as [? ?]).
  assert (Hsr : s = true -> has_sign_ r = true) by (unfold s; intros E; by apply andb_true_iff in E as [? ?]).
  change (if s then bit_at l (len l - 1) else V0) with (pad_of s l).
  change (if s then bit_at r (len r - 1) else V0) with (pad_of s r).
  pose proof (cmp_sign s l Hsl Hwl) as Hnl. pose proof (cmp_sign s r Hsr Hwr) as Hnr.
  assert (Hpl : pad_of s l = V_of_bool (is_one (pad_of s l)))
    by (unfold pad_of; destruct s; [by apply bit_defined|done]).
  assert (Hpr : pad_of s r = V_of_bool (is_one (pad_of s r)))
    by (unfold pad_of; destruct s; [by apply bit_defined|done]).
  assert (Hs0 : s = false -> pad_of s l = V0 /\ pad_of s r = V0) by (by intros ->).
  pose proof (compare_loops s) as Hloops.
  revert Hpl Hpr Hnl Hnr Hs0 Hloops. generalize (pad_of s l), (pad_of s r). intros pl pr Hpl Hpr.
  rewrite Hpl, Hpr. destruct (is_one pl), (is_one pr), s; intros Hnl Hnr Hs0 Hloops;
    try (destruct (Hs0 eq_refl); discriminate); cbn [andb V_of_bool];
    repeat (rewrite bool_decide_eq_true_2 by done || rewrite bool_decide_eq_false_2 by naive_solver);
    try (apply (Hloops true); done); try (apply (Hloops false); done);
    unfold outcome; apply Z.ltb_lt in Hnl || apply Z.ltb_ge in Hnl;
    apply Z.ltb_lt in Hnr || apply Z.ltb_ge in Hnr; split_ltb; done || lia.
Qed.
End Compare.

(** ** Equality *)

Lemma eq_loop_spec (f g : nat -> V) n :
  for_loop n 0
    (fun idx res => if decide (res = V0) then res else if decide (f idx <> g idx) then V0 else res) V1
  = V1 <-> (forall i, (i < n)%nat -> f i = g i).
Proof.
  pose proof (for_loop_ind (fun k res => (res = V0 \/ res = V1) /\
    (res = V1 <-> (forall i, (i < k)%nat -> f i = g i))) n 0
    (fun idx res => if decide (res = V0) then res else if decide (f idx <> g idx) then V0 else res) V1) as H.
  apply H; clear H.
  - split; [auto|]. split; [intros _ i Hi; lia|done].
  - intros i res Hi [Hres Hiff]. case_decide as Hz.
    + split; [auto|]. subst res. split; [done|]. intros Hall.
      apply Hiff. intros j Hj. apply Hall. lia.
    + destruct Hres as [->| ->]; [done|]. case_decide as Hd.
      * split; [auto|]. split; [done|]. intros Hall. destruct Hd. apply Hall. lia.
      * split; [auto|]. split; [|done]. intros _ j Hj.
        destruct (decide (j = i)) as [->|]; [done|]. apply Hiff; [done|lia].
Qed.

Lemma eq_loop_range (f g : nat -> V) n :
  let r := for_loop n 0
    (fun idx res => if decide (res = V0) then res else if decide (f idx <> g idx) then V0 else res) V1 in
  r = V0 \/ r = V1.
Proof.
  cbv zeta. apply (for_loop_ind (fun _ res => res = V0 \/ res = V1)); [auto|].
  intros i res _ Hres. repeat case_decide; auto.
Qed.

Lemma verinum_eq_spec l r :
  is_defined l = true -> wf l -> is_defined r = true -> wf r ->
  let s := has_sign_ l && has_sign_ r in
  verinum_eq l r = if cmp_value s l =? cmp_value s r then V1 else V0.
Proof.
  intros Hdl Hwl Hdr Hwr. cbv zeta. unfold verinum_eq. set (s := has_sign_ l && has_sign_ r).
  assert (Hsl : s = true -> has_sign_ l = true) by (unfold s; intros E; by apply andb_true_iff in E as [? ?]).
  assert (Hsr : s = true -> has_sign_ r = true) by (unfold s; intros E; by apply andb_true_iff in E as [? ?]).
  change (if s then bit_at l (len l - 1) else V0) with (pad_of s l).
  change (if s then bit_at r (len r - 1) else V0) with (pad_of s r).
  pose proof (cmp_sign s l Hsl Hwl) as Hnl. pose proof (cmp_sign s r Hsr Hwr) as Hnr.
  destruct (s && bool_decide (pad_of s l = V1 /\ pad_of s r = V0)) eqn:E1.
  { apply andb_true_iff in E1 as [_ E1]. apply bool_decide_eq_true in E1 as [E1 E2].
    rewrite E1 in Hnl. rewrite E2 in Hnr. apply Z.ltb_lt in Hnl. apply Z.ltb_ge in Hnr.
    split_ltb; done || lia. }
  destruct (s && bool_decide (pad_of s l = V0 /\ pad_of s r = V1)) eqn:E2.
  { apply andb_true_iff in E2 as [_ E2]. apply bool_decide_eq_true in E2 as [E2 E3].
    rewrite E2 in Hnl. rewrite E3 in Hnr. apply Z.ltb_ge in Hnl. apply Z.ltb_lt in Hnr.
    split_ltb; done || lia. }
  set (f := fun idx => if (idx <? len l)%nat then bit_at l idx else pad_of s l).
  set (g := fun idx => if (idx <? len r)%nat then bit_at r idx else pad_of s r).
  pose proof (eq_loop_spec f g (Nat.max (len l) (len r))) as Hiff.
  pose proof (eq_loop_range f g (Nat.max (len l) (len r))) as Hr. cbv zeta in Hr.
  unfold f, g in Hiff, Hr. set (res := for_loop _ _ _ _) in *.
  assert (Hf : forall i, is_one (f i) = Z.testbit (cmp_value s l) (Z.of_nat i)).
  { intros i. unfold f. rewrite cmp_bits by done. by destruct (Nat.ltb_spec i (len l)). }
  assert (Hg : forall i, is_one (g i) = Z.testbit (cmp_value s r) (Z.of_nat i)).
  { intros i. unfold g. rewrite cmp_bits by done. by destruct (Nat.ltb_spec i (len r)). }
  assert (Hpad : is_one (pad_of s l) = is_one (pad_of s r)).
  { unfold pad_of in *. destruct s; [|done]. simpl in E1, E2.
    rewrite (bit_defined l), (bit_defined r) in E1, E2 by done.
    by destruct (is_one (bit_at l _)), (is_one (bit_at r _)). }
  assert (Hdf : forall v i, is_defined v = true ->
    (if (i <? len v)%nat then bit_at v i else pad_of s v) =
    V_of_bool (is_one (if (i <? len v)%nat then bit_at v i else pad_of s v))).
  { intros v i Hd. destruct (i <? len v)%nat; [by apply bit_defined|].
    unfold pad_of. destruct s; [by apply bit_defined|done]. }
  destruct (Z.eqb_spec (cmp_value s l) (cmp_value s r)) as [Heq|Hne].
  - apply Hiff. intros i _. rewrite (Hdf l), (Hdf r) by done.
    change (V_of_bool (is_one (f i)) = V_of_bool (is_one (g i))). by rewrite Hf, Hg, Heq.
  - destruct Hr as [Hr|Hr]; [done|]. exfalso. apply Hne. apply Z.bits_inj'. intros i Hi.
    rewrite <- (Z2Nat.id i) by lia. rewrite <- Hf, <- Hg.
    destruct (Nat.lt_ge_cases (Z.to_nat i) (Nat.max (len l) (len r))) as [Hlt|Hge].
    + f_equal. by apply Hiff.
    + unfold f, g. destruct (Nat.ltb_spec (Z.to_nat i) (len l)), (Nat.ltb_spec (Z.to_nat i) (len r)); done || lia.
Qed.

(** ** Properties *)

(** C27. The relational operators on defined numbers decide the order of the
    values, read as signed exactly when both operands are signed, whatever
    their widths; [==] and [!=] decide equality of the same values. *)
Theorem verinum_compare_correct (l r : verinum) :
  is_defined l = true -> wf l -> is_defined r = true -> wf r ->
  let s := has_sign_ l && has_sign_ r in
  let a := cmp_value s l in
  let b := cmp_value s r in
  verinum_lt l r = V_of_bool (a <? b) /\ verinum_le l r = V_of_bool (a <=? b) /\
  verinum_gt l r = V_of_bool (b <? a) /\ verinum_ge l r = V_of_bool (b <=? a) /\
  verinum_eq l r = V_of_bool (a =? b) /\ verinum_ne l r = V_of_bool (negb (a =? b)).
Proof.
  intros Hdl Hwl Hdr Hwr s a b.
  pose proof (fun e => compare_from_spec l r Hdl Hwl Hdr Hwr e) as Hlr.
  pose proof (fun e => compare_from_spec r l Hdr Hwr Hdl Hwl e) as Hrl.
  pose proof (verinum_eq_spec l r Hdl Hwl Hdr Hwr) as Heq.
  cbv zeta in *. rewrite (andb_comm (has_sign_ r)) in Hrl. fold s in Hlr, Hrl, Heq. fold a b in Hlr, Hrl, Heq.
  unfold verinum_gt, verinum_ge, verinum_ne, verinum_lt, verinum_le.
  rewrite !Hlr, !Hrl, !Heq. unfold outcome.
  repeat split; split_ltb; done || lia.
Qed.

Lemma verinum_compare_correct_witness :
  verinum_lt (verinum_of_int64 (-100)) (verinum_of_int64 3) = V1 /\
  verinum_le (verinum_of_int64 (-1)) (verinum_of_int64 (-1000000)) = V0.
Proof.
  pose proof (verinum_compare_correct (verinum_of_int64 (-100)) (verinum_of_int64 3) eq_refl
    ltac:(apply (bool_decide_unpack _); vm_compute; exact I) eq_refl
    ltac:(apply (bool_decide_unpack _); vm_compute; exact I)) as (H1 & _).
  pose proof (verinum_compare_correct (verinum_of_int64 (-1)) (verinum_of_int64 (-1000000)) eq_refl
    ltac:(apply (bool_decide_unpack _); vm_compute; exact I) eq_refl
    ltac:(apply (bool_decide_unpack _); vm_compute; exact I)) as (_ & H2 & _).
  split; [exact H1|exact H2].
Defined.
