(* ===== verification/VerinumDiv.v ===== *)
(** * VerinumDiv: division and modulus of compile-time numbers (verinum.cc)

    [unsigned_divide] and [unsigned_modulus] are restoring dividers built from
    the comparison, subtraction and shift operators; [operator /] and
    [operator %] use native arithmetic up to 63 or 64 bits and the dividers
    above.  A native division by zero (the process would die with SIGFPE) is
    [None]. *)

From S2P Require Import Prelude FourState Verinum VerinumValue VerinumArith VerinumCmp VerinumConv.
Import VNum.

(** [while (wid > 0 && (v.get(wid-1) == V0)) wid -= 1;] *)
Fixpoint leading_width (v : verinum) (wid : nat) : nat :=
  match wid with
  | O => O
  | S w => if decide (bit_at v w = V0) then leading_width v w else wid
  end.

(** One round of the loops, for the bit of weight [idx]. *)
Definition divide_step (idx : nat) (s : verinum * verinum * verinum) : verinum * verinum * verinum :=
  let '(num, den, result) := s in
  let '(num, result) :=
    if truthy (verinum_le den num) then (verinum_minus num den, set result idx V1)
    else (num, result) in
  (num, verinum_shr den 1, result).

Definition unsigned_divide (num den : verinum) (signed_result : bool) : verinum :=
  let num := set_has_len num false in
  let den := set_has_len den false in
  let nwid := leading_width num (len num) in
  let dwid := leading_width den (len den) in
  if (nwid <? dwid)%nat then verinum_fill V0 1 true
  else
    let den := verinum_shl den (nwid - dwid) in
    let idx := (nwid - dwid + 1)%nat in
    let result := verinum_fill V0 (if signed_result then (idx + 1)%nat else idx) true in
    let result := if signed_result then set_has_sign (set result idx V0) true else result in
    let '(_, _, result) := for_down idx divide_step (num, den, result) in
    result.

Definition modulus_step (idx : nat) (s : verinum * verinum) : verinum * verinum :=
  let '(num, den) := s in
  (if truthy (verinum_le den num) then verinum_minus num den else num, verinum_shr den 1).

Definition unsigned_modulus (num den : verinum) : verinum :=
  let num := set_has_len num false in
  let den := set_has_len den false in
  let nwid := leading_width num (len num) in
  let dwid := leading_width den (len den) in
  if (nwid <? dwid)%nat then num
  else
    let den := verinum_shl den (nwid - dwid) in
    fst (for_down (nwid - dwid + 1) modulus_step (num, den)).

Definition LONG_MIN : Z := - 2 ^ 63.

(** C division and remainder of native integers. *)
Definition c_div (l r : Z) : option Z := if r =? 0 then None else Some (Z.quot l r).
Definition c_rem (l r : Z) : option Z := if r =? 0 then None else Some (Z.rem l r).

(** [for (idx = 0; idx < use_len; idx += 1) result.set(idx, uv & 1), uv >>= 1;]
    on the result made of [use_len] z bits. *)
Definition store_native (use_len : nat) (has_len_flag : bool) (uv : Z) : verinum :=
  fst (for_loop use_len 0
    (fun idx '(result, uv) =>
       (set result idx (if Z.land uv 1 =? 0 then V0 else V1), Z.shiftr uv 1))
    (verinum_fill Vz use_len has_len_flag, uv)).

(** The absolute value of an operand, as an unsigned number. *)
Definition magnitude (v : verinum) : verinum :=
  set_has_sign (if is_negative v then verinum_uminus v else v) false.

(** [operator / (const verinum&, const verinum&)] *)
Definition verinum_div (left right : verinum) : option verinum :=
  let has_len_flag := has_len_ left && has_len_ right in
  let signed_flag := has_sign_ left && has_sign_ right in
  let use_len := len left in
  if negb (is_defined left) || negb (is_defined right) || is_zero right then
    Some (undefined_result use_len has_len_flag signed_flag)
  else
    result ←
      (if signed_flag then
         if (use_len <=? 63)%nat then
           let l := as_long left in
           let r := as_long right in
           let overflow := (l =? LONG_MIN) && (r =? -1) in
           v ← (if overflow then Some LONG_MIN else c_div l r);
           Some (store_native use_len has_len_flag (u64 v))
         else
           let negative := xorb (is_negative left) (is_negative right) in
           let result := unsigned_divide (magnitude left) (magnitude right) true in
           Some (if negative then verinum_uminus result else result)
       else
         if (use_len <=? 64)%nat then
           v ← c_div (as_ulong left) (as_ulong right);
           Some (store_native use_len has_len_flag v)
         else Some (unsigned_divide left right false));
    let result := if has_len_flag then cast_to_width result use_len else result in
    Some (trim_vnum (set_has_sign result signed_flag)).

(** [operator % (const verinum&, const verinum&)] *)
Definition verinum_mod (left right : verinum) : option verinum :=
  let has_len_flag := has_len_ left && has_len_ right in
  let signed_flag := has_sign_ left && has_sign_ right in
  let use_len := len left in
  if negb (is_defined left) || negb (is_defined right) || is_zero right then
    Some (undefined_result use_len has_len_flag signed_flag)
  else
    result ←
      (if signed_flag then
         if (use_len <=? 64)%nat then
           let l := as_long left in
           let r := as_long right in
           let overflow := (l =? LONG_MIN) && (r =? -1) in
           v ← (if overflow then Some 0 else c_rem l r);
           Some (store_native use_len has_len_flag v)
         else
           let result := unsigned_modulus (magnitude left) (magnitude right) in
           Some (if is_negative left then verinum_uminus result else result)
       else
         if (use_len <=? 64)%nat then
           v ← c_rem (as_ulong left) (as_ulong right);
           Some (store_native use_len has_len_flag v)
         else Some (unsigned_modulus left right));
    let result := if has_len_flag then cast_to_width result use_len else result in
    Some (trim_vnum (set_has_sign result signed_flag)).

(** ** The dividers *)

(** The operands of the dividers: defined and unsigned. *)
Definition plain (v : verinum) : Prop :=
  is_defined v = true /\ has_sign_ v = false.

Lemma plain_wf v : plain v -> wf v.
Proof. intros [_ H] Hs. congruence. Qed.

Lemma leading_width_spec v n :
  plain v ->
  let w := leading_width v n in
  let u := uval (bits_ v) mod 2 ^ Z.of_nat n in
  (w <= n)%nat /\ u < 2 ^ Z.of_nat w /\ ((0 < w)%nat -> 2 ^ (Z.of_nat w - 1) <= u).
Proof.
  intros [Hd _]. cbv zeta. induction n as [|n (H1 & H2 & H3)].
  - simpl. rewrite Z.mod_1_r. split; [done|]. split; [done|]. lia.
  - cbn [leading_width]. rewrite uval_low_S.
    pose proof (Z.mod_pos_bound (uval (bits_ v)) (2 ^ Z.of_nat n) ltac:(lia)).
    case_decide as Hb.
    + rewrite Hb. change (is_one V0) with false. rewrite Z.mul_0_l, Z.add_0_r.
      split; [lia|]. by split.
    + rewrite (bit_defined v n) in Hb |- * by done. destruct (is_one (bit_at v n)); [|done].
      change (is_one (V_of_bool true)) with true. simpl Z.b2z. rewrite pow2_S.
      split; [lia|]. split; [lia|]. intros _.
      replace (Z.of_nat (S n) - 1) with (Z.of_nat n) by lia. lia.
Qed.

Lemma set_has_len_value v b : value (set_has_len v b) = value v.
Proof. done. Qed.

Lemma minus_plain l r :
  plain l -> plain r -> value r <= value l ->
  plain (verinum_minus l r) /\ value (verinum_minus l r) = value l - value r /\
  len (verinum_minus l r) = Nat.max (len l) (len r) /\
  has_len_ (verinum_minus l r) = has_len_ l && has_len_ r.
Proof.
  intros Hl Hr Hle. pose proof (plain_wf l Hl) as Hwl. pose proof (plain_wf r Hr) as Hwr.
  destruct Hl as [Hdl Hsl], Hr as [Hdr Hsr].
  destruct (verinum_minus_columns l r Hdl Hwl Hdr Hwr) as (H1 & H2 & H3 & _ & H5 & _).
  rewrite Hsl, Hsr in H2, H5. split; [done|]. split; [by apply minus_unsigned_value|].
  split; [|done]. by destruct H5 as [|[_ ?]].
Qed.

Lemma le_plain l r : plain l -> plain r -> truthy (verinum_le l r) = (value l <=? value r).
Proof.
  intros Hl Hr. pose proof (plain_wf l Hl) as Hwl. pose proof (plain_wf r Hr) as Hwr.
  destruct Hl as [Hdl Hsl], Hr as [Hdr Hsr]. unfold verinum_le.
  pose proof (compare_from_spec l r Hdl Hwl Hdr Hwr V1) as H. cbv zeta in H.
  rewrite H, Hsl. simpl. rewrite !(value_unsigned) by done.
  unfold outcome, truthy. split_ltb; done || lia.
Qed.

Lemma defined_from_bits v r :
  is_defined v = true ->
  (forall i b, bits_ r !! i = Some b -> b = V0 \/ exists j, b = bit_at v j) -> is_defined r = true.
Proof.
  intros Hd H. apply is_defined_iff. intros i b Hb.
  destruct (H i b Hb) as [->|[j ->]]; [by left|].
  rewrite (bit_defined v j) by done. destruct (is_one _); simpl; auto.
Qed.

Lemma set_loop_defined v (f : nat -> V) (g : nat -> nat) n start r :
  (forall i, f i = V0 \/ exists j, f i = bit_at v j) ->
  (forall i b, bits_ r !! i = Some b -> b = V0 \/ exists j, b = bit_at v j) ->
  forall i b, bits_ (for_loop n start (fun idx r => set r (g idx) (f idx)) r) !! i = Some b ->
    b = V0 \/ exists j, b = bit_at v j.
Proof.
  intros Hf Hr. apply (for_loop_ind (fun _ r =>
    forall i b, bits_ r !! i = Some b -> b = V0 \/ exists j, b = bit_at v j)); [done|].
  intros k s _ Hs i b Hb. simpl in Hb. apply list_lookup_insert_Some in Hb.
  destruct Hb as [(_ & <- & _)|[_ Hb]]; [apply Hf|by apply (Hs i)].
Qed.

Lemma fill_from v p n h s :
  p = V0 \/ (exists j, p = bit_at v j) ->
  forall i b, bits_ (set_has_sign (verinum_fill p n h) s) !! i = Some b ->
    b = V0 \/ exists j, b = bit_at v j.
Proof. intros Hp i b Hb. simpl in Hb. apply lookup_replicate in Hb as [-> _]. done. Qed.

Lemma shl_plain v k :
  plain v -> has_len_ v = false ->
  plain (verinum_shl v k) /\ value (verinum_shl v k) = value v * 2 ^ Z.of_nat k.
Proof.
  intros Hv Hl. pose proof (plain_wf v Hv) as Hw. destruct Hv as [Hd Hs].
  split; [|by apply verinum_shl_unsized]. split.
  - unfold verinum_shl. apply trim_vnum_defined, (defined_from_bits v); [done|].
    apply (set_loop_defined v (fun idx => bit_at v (idx - k)) (fun i => i));
      [eauto|]. apply fill_from. by left.
  - destruct (verinum_shl_spec v k Hw) as (p & -> & _ & _ & Hsp & _).
    by rewrite trim_vnum_has_sign, Hsp.
Qed.

Lemma shr_defined v k : is_defined v = true -> is_defined (verinum_shr v k) = true.
Proof.
  intros Hd. assert (Hsg : forall s, (if s : bool then bit_at v (len v - 1) else V0) = V0 \/
    exists j, (if s then bit_at v (len v - 1) else V0) = bit_at v j) by (intros []; eauto).
  unfold verinum_shr. destruct (len v <=? k)%nat.
  - apply (defined_from_bits v); [done|]. apply fill_from, Hsg.
  - apply trim_vnum_defined, (defined_from_bits v); [done|].
    apply (set_loop_defined v (bit_at v) (fun i => (i - k)%nat)); [eauto|].
    apply fill_from, Hsg.
Qed.

Lemma shr_plain v k :
  plain v -> plain (verinum_shr v k) /\ value (verinum_shr v k) = value v / 2 ^ Z.of_nat k.
Proof.
  intros Hv. pose proof (plain_wf v Hv) as Hw. destruct Hv as [Hd Hs].
  split; [|by apply verinum_shr_value]. split; [by apply shr_defined|].
  destruct (verinum_shr_flags v k) as [_ ->]. done.
Qed.

Lemma set_has_len_plain v b : plain v -> plain (set_has_len v b).
Proof. done. Qed.

(** Setting a clear bit adds its weight. *)
Lemma set_next_bit r idx q :
  (idx < len r)%nat -> uval (bits_ r) = q * 2 ^ Z.of_nat (S idx) ->
  uval (bits_ (set r idx V1)) = (2 * q + 1) * 2 ^ Z.of_nat idx.
Proof.
  intros Hi Hu. apply Z.bits_inj'. intros j Hj. rewrite Z.mul_pow2_bits by lia.
  pose proof (testbit_uval (bits_ r) (Z.to_nat j)) as Ht.
  rewrite Hu, Z.mul_pow2_bits in Ht by lia.
  replace j with (Z.of_nat (Z.to_nat j)) at 1 by lia. rewrite testbit_uval. simpl.
  destruct (decide (Z.to_nat j = idx)) as [<-|Hne].
  - rewrite list_lookup_insert_eq by done. rewrite Z2Nat.id, Z.sub_diag by lia.
    rewrite Z.testbit_odd_0. done.
  - rewrite list_lookup_insert_ne by done. rewrite <- Ht.
    destruct (Z.ltb_spec j (Z.of_nat idx)).
    + rewrite !Z.testbit_neg_r by lia. done.
    + replace (j - Z.of_nat idx) with (Z.succ (j - Z.of_nat idx - 1)) by lia.
      rewrite Z.testbit_odd_succ by lia. f_equal. lia.
Qed.

Lemma set_defined r idx b :
  is_defined r = true -> b = V0 \/ b = V1 -> is_defined (set r idx b) = true.
Proof.
  rewrite !is_defined_iff. intros Hd Hb i c Hc. simpl in Hc.
  apply list_lookup_insert_Some in Hc as [(_ & <- & _)|[_ Hc]]; [done|by apply (Hd i)].
Qed.

(** ** The restoring division loop

    [i] rounds to go: the remainder [num] is below the divisor shifted by [i],
    and the quotient bits found so far stand at position [i] and above. *)
Section Restoring.
Context (N D : Z) (W : nat).

Record remainder_inv (i : nat) (q : Z) (num den : verinum) : Prop := {
  ri_num : plain num;
  ri_den : plain den;
  ri_unsized : has_len_ num = false;
  ri_len : (W <= len num)%nat;
  ri_den_value : value den = D * 2 ^ Z.of_nat i / 2;
  ri_bound : 0 <= value num < D * 2 ^ Z.of_nat i;
  ri_sum : N = D * (q * 2 ^ Z.of_nat i) + value num }.

Definition fits (num den : verinum) : bool := truthy (verinum_le den num).

Lemma remainder_step i q num den :
  remainder_inv (S i) q num den ->
  remainder_inv i (2 * q + Z.b2z (fits num den))
    (if fits num den then verinum_minus num den else num) (verinum_shr den 1).
Proof.
  intros [Hn Hd Hl Hw Hv Hb Hs]. unfold fits. rewrite le_plain by done.
  rewrite pow2_S in *. pose proof (pow2_pos (Z.of_nat i) ltac:(lia)) as Hp.
  set (p := 2 ^ Z.of_nat i) in *.
  replace (D * (2 * p)) with (D * p * 2) in Hv by lia. rewrite Z.div_mul in Hv by lia.
  destruct (shr_plain den 1 Hd) as [Hd' Hv']. rewrite Hv in Hv'. change (2 ^ Z.of_nat 1) with 2 in Hv'.
  destruct (Z.leb_spec (value den) (value num)) as [Hle|Hgt]; simpl Z.b2z.
  - destruct (minus_plain num den Hn Hd Hle) as (Hm & Hvm & Hlm & Hml).
    constructor; [done|done|by rewrite Hml, Hl|lia|done| |]; rewrite Hvm, Hv; [lia|].
    rewrite Hs. fold p. lia.
  - constructor; [done|done|done|done|done|rewrite Hv in Hgt; fold p; lia|rewrite Hs; fold p; lia].
Qed.

(** The quotient number while the bits below [i] are still to come. *)
Record quotient_inv (i L : nat) (s : bool) (q : Z) (r : verinum) : Prop := {
  qi_len : len r = L;
  qi_flags : has_len_ r = true /\ has_sign_ r = s /\ is_single_ r = false;
  qi_defined : is_defined r = true;
  qi_bits : uval (bits_ r) = q * 2 ^ Z.of_nat i }.

Lemma quotient_step i L s q r (b : bool) :
  (i < L)%nat -> quotient_inv (S i) L s q r ->
  quotient_inv i L s (2 * q + Z.b2z b) (if b then set r i V1 else r).
Proof.
  intros Hi [Hl Hf Hd Hb]. destruct b; simpl Z.b2z.
  - constructor; [unfold len; simpl; by rewrite length_insert|done| |].
    + apply set_defined; auto.
    + apply set_next_bit; [lia|done].
  - constructor; [done..|]. rewrite Hb, pow2_S. lia.
Qed.

Lemma divide_loop i L s num den r :
  (i <= L)%nat -> remainder_inv i 0 num den -> quotient_inv i L s 0 r ->
  quotient_inv 0 L s (N / D) (snd (for_down i divide_step (num, den, r))).
Proof.
  intros Hi Hr Hq.
  assert (H : let '(num, den, r) := for_down i divide_step (num, den, r) in
            exists q, remainder_inv 0 q num den /\ quotient_inv 0 L s q r).
  { apply (for_down_ind (fun i '(num, den, r) => exists q,
        remainder_inv i q num den /\ quotient_inv i L s q r)); [by exists 0|].
    intros k [[num' den'] r'] Hk (q & Hrk & Hqk).
    pose proof (remainder_step k q num' den' Hrk) as Hr'.
    pose proof (quotient_step k L s q r' (fits num' den') ltac:(lia) Hqk) as Hq'.
    unfold divide_step, fits in *. destruct (truthy _); eauto. }
  destruct (for_down _ _ _) as [[num' den'] r'], H as (q & [_ _ _ _ _ Hb Hs] & Hq').
  simpl. replace (N / D) with q; [done|]. change (2 ^ Z.of_nat 0) with 1 in *.
  apply (Z.div_unique _ _ _ (value num')); lia.
Qed.

Lemma modulus_loop i num den :
  remainder_inv i 0 num den ->
  let r := fst (for_down i modulus_step (num, den)) in
  plain r /\ (W <= len r)%nat /\ value r = N mod D.
Proof.
  intros Hr.
  assert (H : let '(num, den) := for_down i modulus_step (num, den) in
            exists q, remainder_inv 0 q num den).
  { apply (for_down_ind (fun i '(num, den) => exists q, remainder_inv i q num den)); [by exists 0|].
    intros k [num' den'] Hk (q & Hrk). pose proof (remainder_step k q num' den' Hrk) as Hr'.
    unfold modulus_step, fits in *. destruct (truthy _); eauto. }
  destruct (for_down _ _ _) as [num' den'], H as (q & [Hn _ Hl Hw _ Hb Hs]). simpl.
  split; [done|]. split; [done|]. change (2 ^ Z.of_nat 0) with 1 in *.
  apply (Z.mod_unique _ _ q); lia.
Qed.
End Restoring.

(** ** [unsigned_divide] and [unsigned_modulus] on plain numbers *)

Lemma divider_start num den :
  plain num -> plain den -> 0 < value den ->
  let nwid := leading_width num (len num) in
  let dwid := leading_width den (len den) in
  if (nwid <? dwid)%nat then value num < value den
  else remainder_inv (value num) (value den) (len num) (nwid - dwid + 1) 0
         (set_has_len num false) (verinum_shl (set_has_len den false) (nwid - dwid)).
Proof.
  intros Hn Hd Hpos. cbv zeta.
  destruct (leading_width_spec num (len num) Hn) as (_ & Hn2 & _).
  destruct (leading_width_spec den (len den) Hd) as (_ & Hd2 & Hd3).
  rewrite !uval_mod, !Zmod_mod, <- !uval_mod, <- !value_unsigned in * by apply Hn || apply Hd.
  set (nw := leading_width num _) in *. set (dw := leading_width den _) in *.
  assert (0 < dw)%nat as Hdw.
  { destruct dw; [|lia]. change (2 ^ Z.of_nat 0) with 1 in Hd2. lia. }
  specialize (Hd3 Hdw). pose proof (value_range_unsigned num (proj2 Hn)) as Hn0.
  destruct (Nat.ltb_spec nw dw) as [Hlt|Hge].
  - pose proof (Z.pow_le_mono_r 2 (Z.of_nat nw) (Z.of_nat dw - 1) ltac:(lia) ltac:(lia)). lia.
  - destruct (shl_plain (set_has_len den false) (nw - dw) Hd eq_refl) as [Hs Hv].
    rewrite set_has_len_value in Hv.
    constructor; [done|done|done|done| | |rewrite set_has_len_value; lia].
    + rewrite Hv, Nat.add_1_r, pow2_S.
      replace (value den * (2 * 2 ^ Z.of_nat (nw - dw))) with (value den * 2 ^ Z.of_nat (nw - dw) * 2) by lia.
      by rewrite Z.div_mul by lia.
    + rewrite set_has_len_value. split; [lia|]. eapply Z.lt_le_trans; [exact Hn2|].
      transitivity (2 ^ (Z.of_nat dw - 1) * 2 ^ Z.of_nat (nw - dw + 1)).
      * rewrite <- Z.pow_add_r by lia. apply Z.pow_le_mono_r; lia.
      * apply Z.mul_le_mono_nonneg_r; lia.
Qed.

(** What a divider returns for the integer [z]: a defined sized number that
    reads as [z], as it stands and with the sign flag [s]. *)
Record returns (r : verinum) (z : Z) (s : bool) : Prop := {
  ret_defined : is_defined r = true;
  ret_wf : (0 < len r)%nat;
  ret_single : is_single_ r = false;
  ret_value : value r = z;
  ret_signed : value (set_has_sign r s) = z }.

Lemma plain_returns r z (s : bool) :
  plain r -> (0 < len r)%nat -> is_single_ r = false -> value r = z ->
  (s = true -> z < 2 ^ (Z.of_nat (len r) - 1)) -> returns r z s.
Proof.
  intros [Hd Hs] Hl Hsg Hv Hz. constructor; [done..|].
  pose proof (value_range_unsigned r Hs) as Hr. rewrite value_unsigned in Hv, Hr by done.
  destruct s; [|rewrite value_unsigned by done; done].
  apply value_fits; simpl has_sign_; cbv iota;
    change (len (set_has_sign r true)) with (len r).
  - simpl. rewrite Z.mod_small; lia.
  - specialize (Hz eq_refl). lia.
Qed.

Lemma leading_width_set v b n : leading_width (set_has_len v b) n = leading_width v n.
Proof. induction n as [|n IH]; simpl; [done|]. by rewrite IH. Qed.

Lemma zero_fill_inv i n s : quotient_inv i n s 0 (set_has_sign (verinum_fill V0 n true) s).
Proof.
  constructor; [apply length_replicate|done| |].
  - apply is_defined_iff. intros j b Hb. simpl in Hb. apply lookup_replicate in Hb as [-> _]. by left.
  - rewrite Z.mul_0_l. pose proof (zero_value n true false) as H.
    by rewrite value_unsigned in H.
Qed.

(** The initial quotient; setting the extra sign bit to 0 changes nothing. *)
Lemma quotient_start i (s : bool) :
  let r := verinum_fill V0 (if s then (i + 1)%nat else i) true in
  quotient_inv i (if s then i + 1 else i)%nat s 0
    (if s then set_has_sign (set r i V0) true else r).
Proof.
  destruct s; cbv zeta; [|apply (zero_fill_inv i i false)].
  replace (set_has_sign (set (verinum_fill V0 (i + 1) true) i V0) true) with
    (set_has_sign (verinum_fill V0 (i + 1) true) true); [apply zero_fill_inv|].
  unfold set_has_sign, set, verinum_fill. simpl. f_equal. symmetry. apply list_insert_id.
  apply lookup_replicate_2. lia.
Qed.

Lemma quotient_returns L (s : bool) q r :
  (0 < L)%nat -> quotient_inv 0 L s q r -> (s = true -> q < 2 ^ (Z.of_nat L - 1)) -> returns r q s.
Proof.
  intros HL [Hl (_ & Hs & Hsg) Hd Hb] Hq. change (2 ^ Z.of_nat 0) with 1 in Hb.
  assert (Hv : value r = q).
  { pose proof (uval_range (bits_ r)) as Hr. change (length (bits_ r)) with (len r) in Hr.
    rewrite Hl in Hr. apply value_fits; rewrite ?Hs, Hl.
    - rewrite Z.mod_small; lia.
    - destruct s; [specialize (Hq eq_refl)|]; lia. }
  constructor; [done|lia|done|done|]. unfold value, set_has_sign in *. simpl. by rewrite <- Hs.
Qed.

Lemma unsigned_divide_spec num den s :
  plain num -> plain den -> 0 < value den ->
  let r := unsigned_divide num den s in
  returns r (value num / value den) s /\ has_len_ r = true /\
  (has_sign_ r = s \/ value num / value den = 0).
Proof.
  intros Hn Hd Hpos. pose proof (divider_start num den Hn Hd Hpos) as H.
  pose proof (value_range_unsigned num (proj2 Hn)).
  unfold unsigned_divide. cbv zeta in *. rewrite !leading_width_set.
  change (len (set_has_len ?v false)) with (len v).
  set (nw := leading_width num _) in *. set (dw := leading_width den _) in *.
  destruct (nw <? dw)%nat.
  { rewrite Z.div_small by lia. split; [|auto]. by apply plain_returns; [done|apply Nat.lt_0_1|..]. }
  set (i := (nw - dw + 1)%nat) in *.
  pose proof (divide_loop _ _ (len num) i (if s then i + 1 else i)%nat s _ _ _ ltac:(destruct s; lia) H
    (quotient_start i s)) as Hq.
  assert (Hi : value num < value den * 2 ^ Z.of_nat i) by apply H.
  cbv zeta in Hq. destruct (for_down _ _ _) as [[? ?] r] in Hq |- *. simpl in Hq.
  pose proof (qi_flags _ _ _ _ _ Hq) as (Hfl & Hfs & _). split; [|auto].
  eapply quotient_returns; [|exact Hq|]; [destruct s; lia|]. intros ->.
  replace (Z.of_nat (i + 1) - 1) with (Z.of_nat i) by lia. apply Z.div_lt_upper_bound; lia.
Qed.

Lemma single_minus l r : is_single_ (verinum_minus l r) = false.
Proof. unfold verinum_minus. repeat (case_match; simplify_eq); done. Qed.

Lemma single_uminus r : is_single_ (verinum_uminus r) = false.
Proof. unfold verinum_uminus. repeat (case_match; simplify_eq); done. Qed.

Lemma unsigned_modulus_spec num den :
  plain num -> plain den -> 0 < value den ->
  let r := unsigned_modulus num den in
  plain r /\ (len num <= len r)%nat /\ value r = value num mod value den /\
  (is_single_ num = false -> is_single_ r = false).
Proof.
  intros Hn Hd Hpos. pose proof (divider_start num den Hn Hd Hpos) as H.
  pose proof (value_range_unsigned num (proj2 Hn)).
  unfold unsigned_modulus. cbv zeta in *. rewrite !leading_width_set.
  change (len (set_has_len ?v false)) with (len v).
  destruct (_ <? _)%nat.
  { by rewrite Z.mod_small by lia. }
  destruct (modulus_loop _ _ (len num) _ _ _ H) as (H1 & H2 & H3).
  split; [done|]. split; [done|]. split; [done|]. intros Hsg.
  apply (for_down_ind (fun _ s => is_single_ (fst s) = false)); [done|].
  intros k [n' d'] _ Hk. simpl in *. destruct (truthy _); [apply single_minus|done].
Qed.

Lemma returns_uminus r z s :
  returns r z s -> 0 <= z -> has_len_ r = true -> has_sign_ r = true \/ z = 0 ->
  returns (verinum_uminus r) (- z) true.
Proof.
  intros [Hd Hl Hsg Hv Hs] Hz Hh H0.
  destruct (verinum_uminus_columns r Hd (fun _ => Hl)) as (Hh' & Hs' & Hd' & Hu & Hm & _).
  rewrite Hh, andb_false_r in Hm. destruct Hm as [Hm|[_ ?]]; [|done]. rewrite Hv in Hu.
  pose proof (pow2_pos (Z.of_nat (len r) - 1) ltac:(lia)).
  assert (Hfit : - 2 ^ (Z.of_nat (len r) - 1) <= - z < 2 ^ (Z.of_nat (len r) - 1)).
  { destruct (has_sign_ r) eqn:E; [|destruct H0; [done|lia]].
    pose proof (value_range_signed r E Hl). lia. }
  constructor; [done|lia|apply single_uminus| |].
  - apply value_fits; [done|]. rewrite Hs', Hm. destruct (has_sign_ r); [done|].
    destruct H0 as [| ->]; [done|]. rewrite pow2_half by done. lia.
  - apply value_fits; [done|]. simpl. change (len (set_has_sign ?v true)) with (len v).
    rewrite Hm. done.
Qed.

(** ** [operator /] and [operator %] *)

(** The integer an operand stands for when the operation is signed or not. *)
Definition operand (s : bool) (v : verinum) : Z := if s then value v else uval (bits_ v).

(** [q] is the answer [z] of an operation whose left operand is [n] bits wide:
    modulo [2^n] when the result is sized ([h]), exactly otherwise, provided
    [fit]. *)
Definition answers (n : nat) (h s : bool) (fit : Prop) (z : Z) (q : verinum) : Prop :=
  is_defined q = true /\ has_sign_ q = s /\
  (h = true -> len q = n /\ uval (bits_ q) = z mod 2 ^ Z.of_nat n) /\
  (h = false -> fit -> value q = z).

Definition finish (n : nat) (h s : bool) (result : verinum) : verinum :=
  trim_vnum (set_has_sign (if h then cast_to_width result n else result) s).

Lemma finish_answers n (h s : bool) (fit : Prop) z r :
  is_defined r = true -> wf r -> is_single_ r = false ->
  (h = true -> value r mod 2 ^ Z.of_nat n = z mod 2 ^ Z.of_nat n) ->
  (h = false -> fit -> value (set_has_sign r s) = z) ->
  answers n h s fit z (finish n h s r).
Proof.
  intros Hd Hw Hsg H1 H2. unfold finish. destruct h.
  - destruct (cast_to_width_spec r n Hd Hw Hsg) as (Hl & Hh & _ & Hu & Hd').
    rewrite trim_vnum_sized by done. split; [done|]. split; [done|]. split; [|done].
    intros _. split; [done|]. simpl. by rewrite Hu, H1.
  - split; [by apply trim_vnum_defined|]. split; [by rewrite trim_vnum_has_sign|].
    split; [done|]. intros _ Hfit. rewrite trim_vnum_value. by apply H2.
Qed.

Lemma store_native_spec n h uv :
  store_native n h uv = Verinum (native_bits n uv) h false false false.
Proof.
  pose (P := fun i '(result, v) =>
    v = Z.shiftr uv (Z.of_nat i) /\
    exists bits, result = Verinum bits h false false false /\ length bits = n /\
      forall j, (j < i)%nat -> bits !! j = native_bits n uv !! j).
  assert (H : P (0 + n)%nat (for_loop n 0
    (fun idx '(result, v) => (set result idx (if Z.land v 1 =? 0 then V0 else V1), Z.shiftr v 1))
    (verinum_fill Vz n h, uv))).
  { apply for_loop_ind.
    - split; [done|]. exists (replicate n Vz). rewrite length_replicate. repeat split. lia.
    - intros i [r v] Hi (-> & bits & -> & Hl & Hb). split.
      { rewrite Z.shiftr_shiftr by lia. f_equal. lia. }
      eexists. split; [done|]. split; [by rewrite length_insert|]. intros j Hj.
      destruct (decide (j = i)) as [->|]; [|rewrite list_lookup_insert_ne by done; apply Hb; lia].
      cbn [bits_]. rewrite list_lookup_insert_eq by lia. rewrite native_bits_lookup by lia. f_equal.
      replace (Z.testbit uv (Z.of_nat i)) with (Z.odd (Z.shiftr uv (Z.of_nat i)))
        by (by rewrite <- Z.bit0_odd, Z.shiftr_spec by lia).
      rewrite <- land_1_odd. by destruct (Z.land _ 1 =? 0). }
  unfold store_native. destruct (for_loop _ _ _ _) as [r v], H as (_ & bits & -> & Hl & Hb).
  simpl in *. f_equal. apply list_eq_same_length with n; [by rewrite native_bits_length|done|].
  intros i x y Hi Hx Hy. rewrite Hb in Hx by done. congruence.
Qed.

Lemma native_answers n h (s : bool) (fit : Prop) z v :
  v mod 2 ^ Z.of_nat n = z mod 2 ^ Z.of_nat n ->
  (fit -> if s then (0 < n)%nat /\ - 2 ^ (Z.of_nat n - 1) <= z < 2 ^ (Z.of_nat n - 1)
   else 0 <= z < 2 ^ Z.of_nat n) ->
  answers n h s fit z (finish n h s (store_native n h v)).
Proof.
  intros Hv Hz. rewrite store_native_spec.
  pose proof (uval_bits _ v (native_bits_low n v)) as Hu. rewrite native_bits_length in Hu.
  apply finish_answers; [|done|done| |].
  - apply (is_defined_bits _ v). intros i Hi. by apply native_bits_low.
  - intros _. rewrite value_unsigned by done. cbn [bits_]. by rewrite Hu, Zmod_mod.
  - intros _ Hfit. specialize (Hz Hfit). apply value_fits; unfold len; simpl; rewrite native_bits_length; [congruence|done].
Qed.

Lemma is_zero_value v : is_zero v = true -> value v = 0.
Proof.
  intros Hz. unfold is_zero in Hz. rewrite forallb_forall in Hz.
  assert (H : bits_ v = replicate (len v) V0).
  { apply list_eq. intros i. destruct (bits_ v !! i) as [b|] eqn:E.
    - pose proof (lookup_lt_Some _ _ _ E). rewrite lookup_replicate_2 by done.
      apply list_elem_of_lookup_2, list_elem_of_In, Hz, bool_decide_eq_true in E. by subst.
    - symmetry. apply lookup_replicate_None. by apply lookup_ge_None_1. }
  pose proof (zero_value (len v) (has_len_ v) (has_sign_ v)) as H0.
  unfold value, bit_at, len in *. simpl in H0. by rewrite <- H in H0.
Qed.

Lemma magnitude_spec v :
  is_defined v = true -> has_sign_ v = true -> wf v ->
  plain (magnitude v) /\ value (magnitude v) = Z.abs (value v) /\
  (len v <= len (magnitude v))%nat /\ (is_single_ v = false -> is_single_ (magnitude v) = false) /\
  is_negative v = (value v <? 0).
Proof.
  intros Hd Hs Hw. pose proof (Hw Hs) as Hl. pose proof (value_range_signed v Hs Hl) as Hr.
  assert (Hneg : is_negative v = (value v <? 0)).
  { pose proof (uval_range (bits_ v)) as Hu. unfold is_negative, value. rewrite Hs.
    change (length (bits_ v)) with (len v) in Hu. fold (is_one (bit_at v (len v - 1))).
    rewrite andb_true_r. simpl. destruct (is_one _); symmetry; [apply Z.ltb_lt|apply Z.ltb_ge]; lia. }
  unfold magnitude. rewrite Hneg. destruct (Z.ltb_spec (value v) 0).
  - destruct (verinum_uminus_columns v Hd Hw) as (_ & Hs' & Hd' & Hu & Hm & _).
    split; [done|]. split; [|split; [|split; [intros _; apply single_uminus|done]]].
    + rewrite value_unsigned by done. simpl. rewrite Hu, Z.abs_neq by lia. apply Z.mod_small.
      pose proof (pow2_le (len v) (len (verinum_uminus v))
        ltac:(destruct Hm as [->|[-> _]]; lia)).
      rewrite (pow2_half (len v)) in * by done. lia.
    + change (len (set_has_sign ?v false)) with (len v). destruct Hm as [->|[-> _]]; lia.
  - split; [done|]. split; [|split; [done|split; [done|done]]].
    rewrite value_unsigned by done. simpl. rewrite Z.abs_eq by lia.
    rewrite uval_mod, Z.mod_small; [done|]. rewrite (pow2_half (len v)) by done. lia.
Qed.

(** Operands of a division in the ranges where the source's own arithmetic is
    exact: the native branch needs a right operand of at most 64 bits, the wide
    branch operands of one signedness. *)
Definition regular (native : nat) (l r : verinum) : Prop :=
  if (len l <=? native)%nat then (len r <= 64)%nat
  else has_sign_ l = has_sign_ r /\ is_single_ l = false.

Section Division.
Context (l r : verinum).
Context (Hl : is_defined l = true) (Hwl : wf l) (Hr : is_defined r = true) (Hwr : wf r).

Lemma operand_signed_range v n :
  has_sign_ v = true -> wf v -> (len v <= n)%nat ->
  - 2 ^ (Z.of_nat n - 1) <= value v < 2 ^ (Z.of_nat n - 1).
Proof using. intros Hs Hw Hn. apply value_range_wide; [done|]. split; [by apply Hw|done]. Qed.

Lemma as_long_operand v :
  is_defined v = true -> has_sign_ v = true -> wf v -> (len v <= 64)%nat -> as_long v = value v.
Proof using. intros Hd Hs Hw Hn. apply as_long_value; [done|done|]. by apply (operand_signed_range v 64). Qed.

Lemma as_ulong_operand v :
  is_defined v = true -> (len v <= 64)%nat -> as_ulong v = uval (bits_ v).
Proof using.
  intros Hd Hn. pose proof (uval_range (bits_ v)) as Hu.
  pose proof (pow2_le (len v) 64 Hn) as Hp. unfold len in Hp. change (Z.of_nat 64) with 64 in Hp.
  unfold as_ulong. rewrite as_native_value by done. lia.
Qed.

Lemma guards_off : value r <> 0 ->
  negb (is_defined l) || negb (is_defined r) || is_zero r = false.
Proof using Hl Hr.
  intros H. rewrite Hl, Hr. simpl. destruct (is_zero r) eqn:E; [|done].
  by rewrite (is_zero_value r E) in H.
Qed.

Lemma value_zero_uval v : value v <> 0 -> uval (bits_ v) <> 0.
Proof using.
  intros H E. apply H. pose proof (uval_mod v) as Hm.
  unfold value in *. rewrite E in *. destruct (has_sign_ v && _) eqn:Es; [|done]. exfalso.
  apply andb_true_iff in Es as [_ Es]. pose proof (testbit_uval (bits_ v) (len v - 1)) as Ht.
  unfold bit_at in Es. rewrite E, Z.bits_0 in Ht. congruence.
Qed.
End Division.

Lemma quot_range a b m : b <> 0 -> b <> -1 \/ a <> - m -> - m <= a < m -> - m <= Z.quot a b < m.
Proof.
  intros Hb Hne Ha.
  destruct (decide (b = 1)) as [->|]; [by rewrite Z.quot_1_r|].
  destruct (decide (b = -1)) as [->|].
  { replace (-1) with (- (1)) by lia. rewrite Z.quot_opp_r, Z.quot_1_r by lia. lia. }
  pose proof (Z.quot_abs a b Hb) as Hq. rewrite Z.quot_div_nonneg in Hq by lia.
  pose proof (Z.div_le_compat_l (Z.abs a) 2 (Z.abs b) ltac:(lia) ltac:(lia)).
  pose proof (Z.div_lt_upper_bound (Z.abs a) 2 (m + 1) ltac:(lia) ltac:(lia)).
  destruct (decide (m = 1)) as [->|]; [|pose proof (Z.div_lt_upper_bound (Z.abs a) 2 m ltac:(lia) ltac:(lia)); lia].
  assert (Z.abs a / 2 = 0) by (apply Z.div_small; lia). lia.
Qed.

Lemma rem_range a b m : b <> 0 -> - m <= a < m -> - m <= Z.rem a b < m.
Proof.
  intros Hb Ha. pose proof (Z.rem_abs a b Hb) as Hr.
  pose proof (Z.rem_sign_nz a b Hb) as Hs.
  rewrite Z.rem_mod_nonneg in Hr by lia.
  pose proof (Z.mod_le (Z.abs a) (Z.abs b) ltac:(lia) ltac:(lia)).
  destruct (decide (Z.rem a b = 0)) as [->|H0]; [lia|]. specialize (Hs H0). lia.
Qed.

Lemma mod_pow2_mod z a b : (b <= a)%nat ->
  (z mod 2 ^ Z.of_nat a) mod 2 ^ Z.of_nat b = z mod 2 ^ Z.of_nat b.
Proof.
  intros H. replace (Z.of_nat a) with (Z.of_nat b + (Z.of_nat a - Z.of_nat b)) by lia.
  rewrite Z.pow_add_r by lia. apply Z.mod_mod_divide, Z.divide_factor_l.
Qed.

Lemma u64_mod z n : (n <= 64)%nat -> u64 z mod 2 ^ Z.of_nat n = z mod 2 ^ Z.of_nat n.
Proof. apply (mod_pow2_mod z 64). Qed.

Lemma quot_signs a b : b <> 0 ->
  Z.quot a b = if xorb (a <? 0) (b <? 0) then - (Z.abs a / Z.abs b) else Z.abs a / Z.abs b.
Proof.
  intros Hb. rewrite <- Z.quot_div_nonneg by lia.
  destruct (Z.ltb_spec a 0), (Z.ltb_spec b 0); simpl;
    rewrite ?(Z.abs_neq a), ?(Z.abs_neq b), ?(Z.abs_eq a), ?(Z.abs_eq b) by lia;
    rewrite ?Z.quot_opp_opp, ?Z.quot_opp_l, ?Z.quot_opp_r by lia; lia.
Qed.

Lemma rem_signs a b : b <> 0 ->
  Z.rem a b = if a <? 0 then - (Z.abs a mod Z.abs b) else Z.abs a mod Z.abs b.
Proof.
  intros Hb. rewrite <- Z.rem_mod_nonneg by lia. rewrite Z.rem_abs_r by done.
  destruct (Z.ltb_spec a 0); [|by rewrite Z.abs_eq by lia].
  rewrite Z.abs_neq, Z.rem_opp_l by lia. lia.
Qed.

(** The only unsized quotient the native branch gets wrong. *)
Definition quotient_fits (s : bool) (l r : verinum) : Prop :=
  s = true -> (len l <= 63)%nat -> value r = -1 -> value l <> - 2 ^ (Z.of_nat (len l) - 1).

Section DivisionBranches.
Context (l r : verinum) (h : bool).
Context (Hl : is_defined l = true) (Hwl : wf l) (Hr : is_defined r = true) (Hwr : wf r).
Context (Hnz : value r <> 0).

Lemma div_signed_native :
  has_sign_ l = true -> has_sign_ r = true -> (len l <= 63)%nat -> (len r <= 64)%nat ->
  exists v, (if (as_long l =? LONG_MIN) && (as_long r =? -1) then Some LONG_MIN
             else c_div (as_long l) (as_long r)) = Some v /\
    answers (len l) h true (quotient_fits true l r) (Z.quot (value l) (value r))
      (finish (len l) h true (store_native (len l) h (u64 v))).
Proof using Hl Hr Hwl Hwr Hnz.
  intros Hsl Hsr Hn Hm. rewrite !as_long_operand by (done || lia).
  pose proof (operand_signed_range l 63 Hsl Hwl Hn) as Hb63. unfold LONG_MIN.
  destruct (Z.eqb_spec (value l) (- 2 ^ 63)); [lia|]. simpl. unfold c_div.
  destruct (Z.eqb_spec (value r) 0); [done|]. eexists. split; [done|].
  apply native_answers; [apply u64_mod; lia|]. intros Hfit. split; [by apply Hwl|].
  apply quot_range; [done| |by apply operand_signed_range].
  destruct (decide (value r = -1)); [right; by apply Hfit|by left].
Qed.

Lemma div_unsigned_native :
  (len l <= 64)%nat -> (len r <= 64)%nat ->
  exists v, c_div (as_ulong l) (as_ulong r) = Some v /\
    answers (len l) h false True (Z.quot (uval (bits_ l)) (uval (bits_ r)))
      (finish (len l) h false (store_native (len l) h v)).
Proof using Hl Hr Hnz.
  intros Hn Hm. rewrite !as_ulong_operand by done. unfold c_div.
  pose proof (value_zero_uval r Hnz) as Hnz'. pose proof (uval_range (bits_ l)) as Hul.
  pose proof (uval_range (bits_ r)). destruct (Z.eqb_spec (uval (bits_ r)) 0); [done|].
  eexists. split; [done|]. apply native_answers; [done|]. intros _. change (len l) with (length (bits_ l)).
  rewrite Z.quot_div_nonneg by lia. split; [apply Z.div_pos; lia|].
  eapply Z.le_lt_trans; [|apply Hul]. apply Z.div_le_upper_bound; nia.
Qed.

Lemma div_unsigned_wide :
  has_sign_ l = false -> has_sign_ r = false ->
  answers (len l) h false True (Z.quot (value l) (value r))
    (finish (len l) h false (unsigned_divide l r false)).
Proof using Hl Hr Hnz.
  intros Hsl Hsr. pose proof (value_range_unsigned l Hsl). pose proof (value_range_unsigned r Hsr).
  destruct (unsigned_divide_spec l r false) as ([Hd Hlen Hsg Hv Hs] & _); [done|done|lia|].
  rewrite Z.quot_div_nonneg by lia.
  apply finish_answers; [done|by intros _|done|intros _; by rewrite Hv|done].
Qed.

Lemma div_signed_wide (fit : Prop) :
  has_sign_ l = true -> has_sign_ r = true ->
  let q := unsigned_divide (magnitude l) (magnitude r) true in
  answers (len l) h true fit (Z.quot (value l) (value r))
    (finish (len l) h true (if xorb (is_negative l) (is_negative r) then verinum_uminus q else q)).
Proof using Hl Hr Hwl Hwr Hnz.
  intros Hsl Hsr. cbv zeta.
  destruct (magnitude_spec l Hl Hsl Hwl) as (Hpl & Hvl & _ & _ & ->).
  destruct (magnitude_spec r Hr Hsr Hwr) as (Hpr & Hvr & _ & _ & ->).
  destruct (unsigned_divide_spec _ _ true Hpl Hpr ltac:(lia)) as (Hq & Hh & Hs).
  rewrite quot_signs by done. rewrite <- Hvl, <- Hvr.
  set (z := value (magnitude l) / value (magnitude r)) in *.
  assert (0 <= z) by (apply Z.div_pos; lia).
  assert (Hret : forall q z, returns q z true -> answers (len l) h true fit z (finish (len l) h true q)).
  { intros q z' [Hd Hlen Hsg Hv Hv']. apply finish_answers; [done|by intros _|done|intros _; by rewrite Hv|done]. }
  destruct (xorb _ _); apply Hret; [|done]. by eapply returns_uminus.
Qed.

Lemma mod_signed_native :
  has_sign_ l = true -> has_sign_ r = true -> (len l <= 64)%nat -> (len r <= 64)%nat ->
  exists v, (if (as_long l =? LONG_MIN) && (as_long r =? -1) then Some 0
             else c_rem (as_long l) (as_long r)) = Some v /\
    answers (len l) h true True (Z.rem (value l) (value r))
      (finish (len l) h true (store_native (len l) h v)).
Proof using Hl Hr Hwl Hwr Hnz.
  intros Hsl Hsr Hn Hm. rewrite !as_long_operand by (done || lia).
  assert (Hv : forall v, v = Z.rem (value l) (value r) ->
    answers (len l) h true True (Z.rem (value l) (value r))
      (finish (len l) h true (store_native (len l) h v))).
  { intros v ->. apply native_answers; [done|]. intros _. split; [by apply Hwl|].
    apply rem_range; [done|]. by apply operand_signed_range. }
  destruct ((value l =? LONG_MIN) && (value r =? -1)) eqn:E.
  - eexists. split; [done|]. apply Hv. apply andb_true_iff in E as [_ E]. apply Z.eqb_eq in E.
    rewrite E. change (-1) with (- (1)). rewrite Z.rem_opp_r, Z.rem_1_r by lia. done.
  - unfold c_rem. destruct (Z.eqb_spec (value r) 0); [done|]. eauto.
Qed.

Lemma mod_unsigned_native :
  (len l <= 64)%nat -> (len r <= 64)%nat ->
  exists v, c_rem (as_ulong l) (as_ulong r) = Some v /\
    answers (len l) h false True (Z.rem (uval (bits_ l)) (uval (bits_ r)))
      (finish (len l) h false (store_native (len l) h v)).
Proof using Hl Hr Hnz.
  intros Hn Hm. rewrite !as_ulong_operand by done. unfold c_rem.
  pose proof (value_zero_uval r Hnz) as Hnz'. pose proof (uval_range (bits_ l)) as Hul.
  pose proof (uval_range (bits_ r)). destruct (Z.eqb_spec (uval (bits_ r)) 0); [done|].
  eexists. split; [done|]. apply native_answers; [done|]. intros _. change (len l) with (length (bits_ l)).
  rewrite Z.rem_mod_nonneg by lia. split; [apply Z.mod_pos_bound; lia|].
  eapply Z.le_lt_trans; [|apply Hul]. apply Z.mod_le; lia.
Qed.

(** The remainder is kept at least as wide as the left operand, so that its
    negation is right modulo [2^len] and fits the signed width. *)
Lemma mod_wide (s neg : bool) (z : Z) m :
  plain m -> (len l <= len m)%nat -> (0 < len l)%nat -> is_single_ m = false ->
  0 <= value m -> z = (if neg then - value m else value m) ->
  (if s then value m < 2 ^ (Z.of_nat (len m) - 1) \/ neg = true /\ value m <= 2 ^ (Z.of_nat (len m) - 1)
   else neg = false) ->
  answers (len l) h s True z (finish (len l) h s (if neg then verinum_uminus m else m)).
Proof using.
  intros [Hd Hs] Hlen H0 Hsg Hpos -> Hfit.
  destruct neg.
  - destruct (verinum_uminus_columns m Hd ltac:(unfold wf; congruence)) as (_ & Hs' & Hd' & Hu & Hm & _).
    rewrite Hs in Hm, Hs'. destruct Hm as [Hm|[_ ?]]; [|done]. rewrite Hm in Hu.
    apply finish_answers; [done|by intros _; rewrite Hm; lia|apply single_uminus| |].
    + intros _. rewrite value_unsigned, Hu by done. apply mod_pow2_mod. lia.
    + intros _ _. destruct s; [|done]. apply value_fits; [by rewrite <- Hm in Hu|].
      simpl. change (len (set_has_sign ?v true)) with (len v). rewrite Hm. split; [lia|].
      pose proof (pow2_pos (Z.of_nat (len m) - 1)). lia.
  - apply finish_answers; [done|intros _; lia|done|done|].
    intros _ _. destruct (plain_returns m (value m) s (conj Hd Hs) ltac:(lia) Hsg eq_refl)
      as [_ _ _ _ Hv]; [|done].
    intros ->. by destruct Hfit as [|[? _]].
Qed.
End DivisionBranches.

(** Division: when the right operand is nonzero, the quotient is defined,
    never traps, and is the C quotient (truncated towards zero) of the operands,
    modulo [2^width of the dividend] when the operands are sized and exactly
    otherwise; whichever of the native and restoring algorithms is chosen. *)
Lemma verinum_div_correct (l r : verinum) :
  is_defined l && is_defined r = true -> wf l -> wf r -> value r <> 0 ->
  let s := has_sign_ l && has_sign_ r in
  regular (if s then 63 else 64) l r ->
  exists q, verinum_div l r = Some q /\
    answers (len l) (has_len_ l && has_len_ r) s (quotient_fits s l r)
      (Z.quot (operand s l) (operand s r)) q.
Proof.
  intros [Hl Hr]%andb_true_iff Hwl Hwr Hnz. cbv zeta. unfold verinum_div, regular.
  rewrite (guards_off l r Hl Hr Hnz). set (h := has_len_ l && has_len_ r).
  assert (Hfit : forall z q, answers (len l) h false True z q ->
    answers (len l) h false (quotient_fits false l r) z q).
  { intros z q (? & ? & ? & H). split; [done|]. split; [done|]. split; [done|]. auto. }
  destruct (has_sign_ l && has_sign_ r) eqn:Es.
  - apply andb_true_iff in Es as [Hsl Hsr]. destruct (Nat.leb_spec (len l) 63); intros Hreg.
    + destruct (div_signed_native l r h Hl Hwl Hr Hwr Hnz) as (v & -> & Ha); [done..|]. by eexists.
    + eexists. split; [done|]. by apply div_signed_wide.
  - destruct (Nat.leb_spec (len l) 64); intros Hreg.
    + destruct (div_unsigned_native l r h Hl Hr Hnz) as (v & -> & Ha); [done..|].
      eexists. split; [done|]. by apply Hfit.
    + destruct Hreg as [Hs Hsg]. rewrite <- Hs, andb_diag in Es. eexists. split; [done|].
      apply Hfit. simpl. rewrite <- !value_unsigned by congruence. apply div_unsigned_wide; congruence.
Qed.

(** Modulus: the C remainder (with the sign of the dividend), modulo
    [2^width] for sized operands and exactly otherwise, without any trap. *)
Lemma verinum_mod_correct (l r : verinum) :
  is_defined l && is_defined r = true -> wf l -> wf r -> value r <> 0 ->
  let s := has_sign_ l && has_sign_ r in
  regular 64 l r ->
  exists q, verinum_mod l r = Some q /\
    answers (len l) (has_len_ l && has_len_ r) s True (Z.rem (operand s l) (operand s r)) q.
Proof.
  intros [Hl Hr]%andb_true_iff Hwl Hwr Hnz. cbv zeta. unfold verinum_mod, regular.
  rewrite (guards_off l r Hl Hr Hnz). set (h := has_len_ l && has_len_ r).
  destruct (has_sign_ l && has_sign_ r) eqn:Es; destruct (Nat.leb_spec (len l) 64) as [Hle|Hgt];
    intros Hreg.
  - apply andb_true_iff in Es as [Hsl Hsr].
    destruct (mod_signed_native l r h Hl Hwl Hr Hwr Hnz) as (v & -> & Ha); [done..|]. by eexists.
  - apply andb_true_iff in Es as [Hsl Hsr]. destruct Hreg as [_ Hsg]. eexists. split; [done|].
    destruct (magnitude_spec l Hl Hsl Hwl) as (Hpl & Hvl & Hll & Hsgl & Hneg).
    destruct (magnitude_spec r Hr Hsr Hwr) as (Hpr & Hvr & _).
    destruct (unsigned_modulus_spec _ _ Hpl Hpr ltac:(lia)) as (Hm & Hlm & Hvm & Hsm).
    pose proof (Z.mod_pos_bound (value (magnitude l)) (value (magnitude r)) ltac:(lia)).
    pose proof (Z.mod_le (value (magnitude l)) (value (magnitude r)) ltac:(lia) ltac:(lia)).
    pose proof (value_range_wide l (len (unsigned_modulus (magnitude l) (magnitude r))) Hsl ltac:(lia)).
    apply mod_wide; try done; [lia|lia|auto|lia| |].
    + simpl. rewrite Hneg, rem_signs, Hvm, Hvl, Hvr by done. done.
    + rewrite Hneg, Hvm. destruct (Z.ltb_spec (value l) 0); [right|left]; lia.
  - destruct (mod_unsigned_native l r h Hl Hr Hnz) as (v & -> & Ha); [done..|]. by eexists.
  - destruct Hreg as [Hs Hsg]. rewrite <- Hs, andb_diag in Es. eexists. split; [done|]. simpl.
    rewrite Hs in Es. pose proof (value_range_unsigned l ltac:(congruence)).
    pose proof (value_range_unsigned r Es). rewrite <- !value_unsigned by congruence.
    rewrite Z.rem_mod_nonneg by lia.
    destruct (unsigned_modulus_spec l r) as (Hm & Hlm & Hvm & Hsm); [split; congruence..|lia|].
    pose proof (Z.mod_pos_bound (value l) (value r) ltac:(lia)).
    apply (mod_wide l h false false); [done|done|lia|by apply Hsm|lia|done|done].
Qed.


Lemma verinum_mod_correct_witness :
  exists q, verinum_mod (sized (-7) 8 true) (sized 3 8 true) = Some q /\ uval (bits_ q) = 255.
Proof.
  destruct (verinum_mod_correct (sized (-7) 8 true) (sized 3 8 true))
    as (q & Hq & _ & _ & H & _); [reflexivity| | | | |].
  - intros _. apply Nat.ltb_lt. reflexivity.
  - intros _. apply Nat.ltb_lt. reflexivity.
  - vm_compute. discriminate.
  - vm_compute. apply Nat.leb_le. reflexivity.
  - exists q. split; [exact Hq|]. destruct (H eq_refl) as [_ ->]. vm_compute. reflexivity.
Defined.

(** ** Divisions outside [regular] *)

(** An unsized quotient that needs one bit more than its dividend: -8 / -1. *)
Lemma unsized_quotient_overflow :
  (value <$> verinum_div (unsized (-8)) (unsized (-1))) = Some (-8).
Proof. vm_compute. reflexivity. Qed.

(** A nonzero divisor of 65 bits whose low 63 bits are zero reads as 0 in
    [as_long], and the native division traps. *)
Lemma wide_divisor_traps :
  value (sized (2 ^ 63) 65 true) <> 0 /\ verinum_div (sized 5 8 true) (sized (2 ^ 63) 65 true) = None.
Proof. split; [vm_compute; discriminate|vm_compute; reflexivity]. Qed.

(** A wide unsized quotient is returned as a sized number. *)
Lemma wide_quotient_is_sized :
  let wide := set_has_len (sized (2 ^ 70) 72 false) false in
  (has_len_ <$> verinum_div wide (unsized 3)) = Some true.
Proof. vm_compute. reflexivity. Qed.

(** A wide division of an unsigned number by a signed one of another width is
    the quotient neither of the bit patterns nor of the values: the divisor is
    shifted as a signed number. *)
Lemma wide_mixed_quotient :
  let l := sized (2 ^ 72 - 1) 72 false in
  let r := sized (-5) 8 true in
  (uval ∘ bits_ <$> verinum_div l r) <> Some (uval (bits_ l) / uval (bits_ r)) /\
  (uval ∘ bits_ <$> verinum_div l r) <> Some (Z.quot (value l) (value r) mod 2 ^ 72).
Proof. split; vm_compute; discriminate. Qed.

(** The guard of both operators. *)
Lemma undefined_division (l r : verinum) : is_defined l && is_defined r = false \/ is_zero r = true ->
  let q := undefined_result (len l) (has_len_ l && has_len_ r) (has_sign_ l && has_sign_ r) in
  verinum_div l r = Some q /\ verinum_mod l r = Some q /\ len q = len l /\ Forall (fun b => b = Vx) (bits_ q).
Proof.
  intros Hu. assert (E : negb (is_defined l) || negb (is_defined r) || is_zero r = true).
  { destruct Hu as [Hu | ->]; [|by rewrite orb_true_r]. by destruct (is_defined l), (is_defined r). }
  cbv zeta. unfold verinum_div, verinum_mod. rewrite E. split; [done|]. split; [done|].
  unfold undefined_result, len. simpl. rewrite ?length_replicate. split; [done|]. by apply Forall_replicate.
Qed.

(** C11. Division and modulus of compile-time numbers.  When an operand has an unknown
    bit or the right one is zero, every bit of both results is x.  Otherwise, when the
    right operand is nonzero and the pair is [regular], no division traps and the
    results are the C quotient (truncated towards zero) and remainder (with the sign
    of the dividend) of the operands, modulo [2^width of the dividend] when both
    operands are sized and exactly otherwise.  [regular] means, where the dividend has
    at most as many bits as a native word (63 for signed quotients, else 64), that the
    divisor has at most 64, and for a wider dividend, for which the restoring
    algorithm is chosen, that both operands have the same signedness and the dividend
    is not an unbased single bit (['1]).  The exact quotient of unsized operands needs one more
    condition, [quotient_fits]: that it is not that of the smallest number of the
    dividend's width by -1.  Outside of these the code does not give the quotient:
    see [wide_divisor_traps], [wide_mixed_quotient] and
    [unsized_quotient_overflow]. *)
Theorem verinum_division_correct (l r : verinum) :
  (is_defined l && is_defined r = false \/ is_zero r = true ->
   exists q, verinum_div l r = Some q /\ verinum_mod l r = Some q /\ len q = len l /\ Forall (fun b => b = Vx) (bits_ q)) /\
  (is_defined l && is_defined r = true -> wf l -> wf r -> value r <> 0 ->
   let s := has_sign_ l && has_sign_ r in
   regular (if s then 63 else 64) l r ->
   exists q, verinum_div l r = Some q /\
     answers (len l) (has_len_ l && has_len_ r) s (quotient_fits s l r)
       (Z.quot (operand s l) (operand s r)) q) /\
  (is_defined l && is_defined r = true -> wf l -> wf r -> value r <> 0 ->
   let s := has_sign_ l && has_sign_ r in
   regular 64 l r ->
   exists q, verinum_mod l r = Some q /\
     answers (len l) (has_len_ l && has_len_ r) s True (Z.rem (operand s l) (operand s r)) q).
Proof.
  split; [intros Hu; eexists; by apply undefined_division|]. exact (conj (verinum_div_correct l r) (verinum_mod_correct l r)).
Qed.

Lemma verinum_division_correct_witness :
  let wide := sized (- 10 ^ 30) 128 true in
  exists q, verinum_div wide (sized 7 128 true) = Some q /\
    uval (bits_ q) = Z.quot (- 10 ^ 30) 7 mod 2 ^ 128.
Proof.
  pose proof (fun l r => proj1 (proj2 (verinum_division_correct l r))) as verinum_div_correct.
  destruct (verinum_div_correct (sized (- 10 ^ 30) 128 true) (sized 7 128 true))
    as (q & Hq & _ & _ & H & _); [reflexivity| | | | |].
  - intros _. apply Nat.ltb_lt. reflexivity.
  - intros _. apply Nat.ltb_lt. reflexivity.
  - vm_compute. discriminate.
  - split; reflexivity.
  - exists q. split; [exact Hq|]. destruct (H eq_refl) as [_ ->]. vm_compute. reflexivity.
Defined.
