(* ===== verification/VerinumPow.v ===== *)
(** * VerinumPow: powers of compile-time numbers (verinum.cc)

    [pow] and [recursive_pow] call each other, squaring for an even exponent
    and multiplying for an odd one; the recursion is on fuel, and
    [2 * width of the exponent + 1] calls are enough ([pow_fuel_spec]). *)

From S2P Require Import Prelude FourState Verinum VerinumValue VerinumArith VerinumCmp VerinumConv VerinumDiv.
Import VNum.

Definition make_p_one (len : nat) (has_len has_sign : bool) : verinum :=
  set_has_sign (set (verinum_fill V0 (if has_len then len else 2%nat) has_len) 0 V1) has_sign.

Definition make_m_one (len : nat) (has_len has_sign : bool) : verinum :=
  set_has_sign (verinum_fill V1 (if has_len then len else 1%nat) has_len) has_sign.

Definition p_one_of (left : verinum) : verinum :=
  make_p_one (len left) (has_len_ left) (has_sign_ left).
Definition m_one_of (left : verinum) : verinum :=
  make_m_one (len left) (has_len_ left) (has_sign_ left).

(** [recursive_pow(left, right)], with the call back to [pow(left, _)]. *)
Definition recursive_pow (pow : verinum -> option verinum) (left right : verinum) : option verinum :=
  if is_zero right then Some (p_one_of left)
  else if V_to_int (bit_at right 0) =? 1 then
    result ← pow (set right 0 V0);
    Some (verinum_times left result)
  else
    result ← pow (verinum_shr right 1);
    Some (verinum_times result result).

Definition pow_undefined (left : verinum) : verinum := undefined_result (len left) (has_len_ left) (has_sign_ left).

Fixpoint pow_fuel (fuel : nat) (left right : verinum) : option verinum :=
  match fuel with
  | O => None
  | S f =>
    result ←
      (if negb (is_defined left) || negb (is_defined right) then Some (pow_undefined left)
       else if is_zero right then Some (p_one_of left)
       else if is_negative right then
         Some
           (if is_zero left then pow_undefined left
            else if has_sign_ left && truthy (verinum_eq left (m_one_of left)) then
              if decide (bit_at right 0 = V0) then p_one_of left else m_one_of left
            else if truthy (verinum_eq left (p_one_of left)) then p_one_of left
            else set_has_sign (verinum_fill V0 (len left) (has_len_ left)) (has_sign_ left))
       else recursive_pow (pow_fuel f left) left right);
    Some (trim_vnum result)
  end.

(** [pow(const verinum&, const verinum&)] *)
Definition verinum_pow (left right : verinum) : option verinum :=
  pow_fuel (2 * len right + 1) left right.

(** ** Exponents *)

Lemma is_negative_value v :
  is_defined v = true -> wf v -> is_negative v = (value v <? 0).
Proof.
  intros Hd Hw. destruct (has_sign_ v) eqn:Hs.
  - by destruct (magnitude_spec v Hd Hs Hw) as (_ & _ & _ & _ & H).
  - pose proof (value_range_unsigned v Hs). unfold is_negative. rewrite Hs, andb_false_r.
    symmetry. apply Z.ltb_ge. lia.
Qed.

Lemma is_zero_false v : is_defined v = true -> wf v -> value v <> 0 -> is_zero v = false.
Proof. intros Hd Hw H. destruct (is_zero v) eqn:E; [|done]. by rewrite (is_zero_value v E) in H. Qed.

Lemma is_zero_iff v : is_defined v = true -> is_zero v = (value v =? 0).
Proof.
  intros Hd. destruct (is_zero v) eqn:E; symmetry.
  - apply Z.eqb_eq. by apply is_zero_value.
  - apply Z.eqb_neq. intros Hv. assert (Hu : uval (bits_ v) = 0).
    { rewrite uval_mod, Hv. apply Z.mod_0_l. lia. }
    apply not_true_iff_false in E. apply E. unfold is_zero. apply forallb_forall.
    intros b [i Hi]%list_elem_of_In%list_elem_of_lookup. apply bool_decide_eq_true.
    pose proof (testbit_uval (bits_ v) i) as Ht. rewrite Hu, Z.bits_0, Hi in Ht.
    rewrite (is_defined_lookup v i b Hd Hi). simpl in Ht. by rewrite <- Ht.
Qed.

(** The exponent's low bit is its parity. *)
Lemma bit0_odd v : is_defined v = true -> wf v -> (0 < len v)%nat ->
  (V_to_int (bit_at v 0) =? 1) = Z.odd (value v).
Proof.
  intros Hd Hw Hl. rewrite (bit_value v 0), <- Z.bit0_odd by done.
  change (Z.of_nat 0) with 0. by destruct (Z.testbit _ 0).
Qed.

Lemma clear_bit0 v :
  is_defined v = true -> wf v -> 0 <= value v -> Z.odd (value v) = true ->
  let w := set v 0 V0 in
  is_defined w = true /\ wf w /\ value w = value v - 1.
Proof.
  intros Hd Hw Hpos Hodd. cbv zeta.
  assert (Hlen : len (set v 0 V0) = len v) by apply length_insert.
  assert (Hw' : wf (set v 0 V0)) by (unfold wf; rewrite Hlen; exact Hw).
  split; [apply set_defined; auto|]. split; [done|].
  assert (H2 : value v - 1 = 2 * (value v / 2)).
  { pose proof (Zmod_odd (value v)) as H. rewrite Hodd in H. pose proof (Z.div_mod (value v) 2 ltac:(lia)). lia. }
  assert (Hsg : sign_bit (set v 0 V0) = sign_bit v).
  { unfold sign_bit. simpl. destruct (has_sign_ v) eqn:Hs; [|done]. specialize (Hw Hs).
    unfold bit_at. rewrite Hlen. simpl. rewrite list_lookup_insert_ne; [done|].
    intros E. pose proof (value_range_signed v Hs Hw) as Hr.
    assert (Z.of_nat (len v) - 1 = 0) as E1 by lia. rewrite E1 in Hr. change (2 ^ 0) with 1 in Hr.
    assert (value v = 0) as E0 by lia. by rewrite E0 in Hodd. }
  rewrite H2. apply Z.bits_inj'. intros j Hj. replace j with (Z.of_nat (Z.to_nat j)) by lia.
  rewrite testbit_value, Hsg, Hlen by done.
  destruct (Z.to_nat j) as [|i] eqn:Ei.
  - change (Z.of_nat 0) with 0. rewrite Z.testbit_even_0.
    destruct (Nat.ltb_spec 0 (len v)).
    + unfold bit_at. simpl. by rewrite list_lookup_insert_eq.
    + rewrite empty_value in Hodd by (lia || done). done.
  - rewrite Nat2Z.inj_succ, Z.testbit_even_succ, <- Z.div2_div, Z.div2_spec, Z.shiftr_spec by lia.
    replace (Z.of_nat i + 1) with (Z.of_nat (S i)) by lia. rewrite testbit_value by done.
    unfold bit_at. simpl. by rewrite list_lookup_insert_ne.
Qed.

Lemma len_shr v k : (0 < len v)%nat -> (0 < len (verinum_shr v k))%nat.
Proof.
  intros Hl. unfold verinum_shr. destruct (Nat.leb_spec (len v) k).
  - unfold len in *; simpl. rewrite length_replicate. destruct (has_len_ v); lia.
  - apply trim_vnum_len. apply (for_loop_ind (fun _ r => (0 < len r)%nat)).
    + unfold len in *; simpl. rewrite length_replicate. destruct (has_len_ v); lia.
    + intros i r _ Hr. unfold len in *. simpl. by rewrite length_insert.
Qed.

(** Halving the exponent. *)
Lemma half_exponent v :
  is_defined v = true -> wf v ->
  let w := verinum_shr v 1 in
  is_defined w = true /\ wf w /\ value w = value v / 2.
Proof.
  intros Hd Hw. split; [by apply shr_defined|]. split; [|by apply (verinum_shr_value v 1)].
  unfold wf. destruct (verinum_shr_flags v 1) as [_ ->]. intros Hs. by apply len_shr, Hw.
Qed.

Lemma exponent_len v : wf v -> value v <> 0 -> (0 < len v)%nat.
Proof. intros Hv Hn. destruct (len v) eqn:E; [|lia]. by rewrite (empty_value v E Hv) in Hn. Qed.

Definition odd_bit (z : Z) : nat := if Z.odd z then 1 else 0.

Lemma odd_bit_le z : (odd_bit z <= 1)%nat.
Proof. unfold odd_bit. destruct (Z.odd z); lia. Qed.

Lemma value_lt_len v : wf v -> 0 <= value v -> value v < 2 ^ Z.of_nat (len v).
Proof.
  intros Hv Hz. destruct (has_sign_ v) eqn:Hs.
  - specialize (Hv Hs). pose proof (value_range_signed v Hs Hv). rewrite pow2_half by done. lia.
  - pose proof (value_range_unsigned v Hs). lia.
Qed.

(** ** Powers *)

Section Power.
Context (left : verinum) (Hd : is_defined left = true) (Hw : wf left) (Hlen : (0 < len left)%nat).

(** [r] has the type of [left] and stands for [z]: modulo its width if [left]
    is sized, exactly otherwise. *)
Record stands_for (r : verinum) (z : Z) : Prop := {
  sf_len_flag : has_len_ r = has_len_ left;
  sf_sign : has_sign_ r = has_sign_ left;
  sf_defined : is_defined r = true;
  sf_wf : (0 < len r)%nat;
  sf_value : if has_len_ left then len r = len left /\
               uval (bits_ r) = z mod 2 ^ Z.of_nat (len left)
             else value r = z }.

Lemma stands_for_left : stands_for left (value left).
Proof using All. constructor; try done. destruct (has_len_ left); [|done]. split; [done|]. apply uval_mod. Qed.

Lemma stands_for_cong r z : stands_for r z -> has_len_ left = true ->
  value r mod 2 ^ Z.of_nat (len left) = z mod 2 ^ Z.of_nat (len left).
Proof using. intros [_ _ _ _ Hv] Hh. rewrite Hh in Hv. destruct Hv as [Hl Hu]. by rewrite <- Hl, <- uval_mod, Hl. Qed.

Lemma stands_for_times a x b y :
  stands_for a x -> stands_for b y -> stands_for (verinum_times a b) (x * y).
Proof using All.
  intros Ha Hb. pose proof (stands_for_cong a x Ha) as Hca. pose proof (stands_for_cong b y Hb) as Hcb.
  destruct Ha as [Hla Hsa Hda Hwa Hva], Hb as [Hlb Hsb Hdb Hwb Hvb].
  destruct (verinum_times_columns a b Hda (fun _ => Hwa) Hdb (fun _ => Hwb)) as (p & Hp & Hc).
  pose proof (times_sized_uval a b Hda (fun _ => Hwa) Hdb (fun _ => Hwb)) as Hu.
  pose proof (times_unsized_value a b Hda (fun _ => Hwa) Hdb (fun _ => Hwb)) as Hx.
  rewrite Hla, Hlb, andb_diag in Hu, Hx. destruct Hc as (H1 & H2 & H3 & _ & H5 & _).
  rewrite Hla, Hlb, andb_diag in H1. rewrite Hsa, Hsb, andb_diag in H2.
  assert (0 < len p)%nat.
  { unfold times_len in H5. destruct H5 as [->|[-> _]]; destruct (_ && _); lia. }
  constructor; rewrite ?Hp, ?trim_vnum_has_len, ?trim_vnum_has_sign; try done.
  - by apply trim_vnum_defined.
  - by apply trim_vnum_len.
  - rewrite <- Hp. destruct (has_len_ left).
    + destruct Hu as [Hul Huv]; [done|]. destruct Hva as [Hva _], Hvb as [Hvb _].
      rewrite Hva, Hvb, Nat.max_id in Hul, Huv. split; [done|]. rewrite Huv, Zmult_mod, Hca, Hcb by done.
      by rewrite <- Zmult_mod.
    + rewrite Hx by congruence. by rewrite Hva, Hvb.
Qed.

Lemma stands_for_trim r z : stands_for r z -> stands_for (trim_vnum r) z.
Proof using.
  intros [Hl Hs Hr Hp Hv].
  constructor; rewrite ?trim_vnum_has_len, ?trim_vnum_has_sign; try done.
  - by apply trim_vnum_defined.
  - by apply trim_vnum_len.
  - destruct (has_len_ left) eqn:E; [by rewrite trim_vnum_sized by congruence|].
    by rewrite trim_vnum_value.
Qed.

Lemma stands_for_one : stands_for (p_one_of left) 1.
Proof using Hlen.
  unfold p_one_of, make_p_one. set (n := if has_len_ left then len left else 2%nat).
  assert (0 < n)%nat by (unfold n; destruct (has_len_ left); lia).
  assert (Hn : len (set_has_sign (set (verinum_fill V0 n (has_len_ left)) 0 V1) (has_sign_ left)) = n)
    by (unfold len; simpl; by rewrite length_insert, length_replicate).
  assert (Hu : uval (<[0%nat := V1]> (replicate n V0)) = 1 mod 2 ^ Z.of_nat n).
  { rewrite <- Hn at 2. apply (uval_is_one _ 1). intros i Hi. rewrite length_insert, length_replicate in Hi.
    destruct i as [|i].
    - rewrite list_lookup_insert_eq by (by rewrite length_replicate). done.
    - rewrite list_lookup_insert_ne by done. rewrite lookup_replicate_2 by done.
      symmetry. apply (Z.bits_above_log2 1); simpl; lia. }
  constructor; [done|done| |lia|].
  - change (is_defined (set (verinum_fill V0 n (has_len_ left)) 0 V1) = true).
    apply set_defined; [|by right]. apply is_defined_iff. intros i b Hb. simpl in Hb.
    apply lookup_replicate in Hb as [-> _]. by left.
  - rewrite Hn. unfold n in *. destruct (has_len_ left).
    + split; [done|]. exact Hu.
    + by destruct (has_sign_ left).
Qed.

(** The recursion ends: an exponent of [k] bits takes at most [2 * k + 1]
    calls, one less when it is even. *)
Lemma pow_fuel_spec fuel : forall k right,
  is_defined right = true -> wf right -> 0 <= value right < 2 ^ Z.of_nat k ->
  (2 * k + odd_bit (value right) <= fuel)%nat -> (0 < fuel)%nat ->
  exists q, pow_fuel fuel left right = Some q /\ stands_for q (value left ^ value right).
Proof using All.
  induction fuel as [|fuel IH]; intros k right Hdr Hwr Hk Hfuel H0; [lia|].
  cbn [pow_fuel]. rewrite Hd, Hdr, is_negative_value, is_zero_iff by done. simpl orb. cbv iota.
  destruct (Z.eqb_spec (value right) 0) as [->|Hnz].
  { eexists. split; [done|]. apply stands_for_trim, stands_for_one. }
  rewrite (proj2 (Z.ltb_ge _ _)) by lia. unfold recursive_pow.
  pose proof (exponent_len right Hwr Hnz) as Hlr. rewrite is_zero_false, bit0_odd by done.
  destruct k as [|k]; [simpl in Hk; lia|]. rewrite pow2_S in Hk. unfold odd_bit in Hfuel.
  destruct (Z.odd (value right)) eqn:Hodd.
  - destruct (clear_bit0 right Hdr Hwr ltac:(lia) Hodd) as (Hd' & Hw' & Hv).
    destruct (IH (S k) (set right 0 V0)) as (q & -> & Hq); [done|done| | |lia|].
    { rewrite pow2_S. lia. }
    { unfold odd_bit. rewrite Hv, Z.odd_sub, Hodd. simpl. lia. }
    eexists. split; [done|]. apply stands_for_trim.
    replace (value right) with (Z.succ (value right - 1)) by lia.
    rewrite Z.pow_succ_r, <- Hv by lia. apply stands_for_times; [apply stands_for_left|done].
  - destruct (half_exponent right Hdr Hwr) as (Hd' & Hw' & Hv).
    pose proof (odd_bit_le (value (verinum_shr right 1))).
    destruct (IH k (verinum_shr right 1)) as (q & -> & Hq); [done|done| |lia|lia|].
    { rewrite Hv. split; [apply Z.div_pos; lia|apply Z.div_lt_upper_bound; lia]. }
    eexists. split; [done|]. apply stands_for_trim.
    assert (He : value right = value right / 2 + value right / 2).
    { pose proof (Zmod_odd (value right)) as Hm. rewrite Hodd in Hm.
      pose proof (Z.div_mod (value right) 2 ltac:(lia)). lia. }
    rewrite He, Z.pow_add_r, <- Hv by (apply Z.div_pos; lia). by apply stands_for_times.
Qed.
End Power.

(** Powers: for a defined base and a defined nonnegative exponent the mutual
    recursion ends and the result has the base's type and stands for
    [left ^ right], modulo [2^width] for a sized base and exactly for an
    unsized one. *)
Lemma verinum_pow_correct (left right : verinum) :
  is_defined left && is_defined right = true -> wf left -> wf right -> (0 < len left)%nat ->
  0 <= value right ->
  exists q, verinum_pow left right = Some q /\
    has_len_ q = has_len_ left /\ has_sign_ q = has_sign_ left /\
    if has_len_ left
    then len q = len left /\ uval (bits_ q) = value left ^ value right mod 2 ^ Z.of_nat (len left)
    else value q = value left ^ value right.
Proof.
  intros [Hd Hdr]%andb_true_iff Hw Hwr Hl Hpos.
  destruct (pow_fuel_spec left Hd Hw Hl (2 * len right + 1) (len right) right)
    as (q & Hq & [H1 H2 _ _ H5]); [done|done| | |lia|].
  - split; [done|]. by apply value_lt_len.
  - pose proof (odd_bit_le (value right)). lia.
  - exists q. split; [exact Hq|]. auto.
Qed.

Lemma ones_uval n : uval (replicate n V1) = -1 mod 2 ^ Z.of_nat n.
Proof.
  pose proof (uval_is_one (replicate n V1) (-1)) as H. rewrite length_replicate in H. apply H.
  intros i Hi. rewrite lookup_replicate_2, Z.bits_m1 by lia. done.
Qed.

Section NegativePower.
Context (left : verinum) (Hd : is_defined left = true) (Hw : wf left) (Hlen : (1 < len left)%nat).

Lemma p_one_value : value (p_one_of left) = 1.
Proof using Hlen.
  destruct (stands_for_one left ltac:(lia)) as [_ Hs _ Hp Hv].
  destruct (has_len_ left); [|done]. destruct Hv as [Hl Hv].
  pose proof (Z.pow_le_mono_r 2 1 (Z.of_nat (len left) - 1) ltac:(lia) ltac:(lia)).
  apply value_fits; rewrite Hl; [done|]. rewrite (pow2_half (len left)) by lia.
  destruct (has_sign_ _); lia.
Qed.

Lemma m_one_spec : has_sign_ left = true ->
  is_defined (m_one_of left) = true /\ wf (m_one_of left) /\ value (m_one_of left) = -1.
Proof using Hlen.
  intros Hs. unfold m_one_of, make_m_one. set (n := if has_len_ left then len left else 1%nat).
  assert (0 < n)%nat by (unfold n; destruct (has_len_ left); lia).
  assert (Hn : len (set_has_sign (verinum_fill V1 n (has_len_ left)) (has_sign_ left)) = n)
    by apply length_replicate.
  split; [|split].
  - apply is_defined_iff. intros i b Hb. simpl in Hb. apply lookup_replicate in Hb as [-> _]. by right.
  - intros _. by rewrite Hn.
  - apply value_fits; rewrite Hn; simpl; [apply ones_uval|]. rewrite Hs. split; [done|].
    pose proof (pow2_pos (Z.of_nat n - 1) ltac:(lia)). lia.
Qed.

Lemma eq_same_sign v : is_defined v = true -> wf v -> has_sign_ v = has_sign_ left ->
  truthy (verinum_eq left v) = (value left =? value v).
Proof using Hd Hw.
  intros Hdv Hwv Hs. pose proof (verinum_eq_spec left v Hd Hw Hdv Hwv) as H. cbv zeta in H.
  rewrite H, Hs, andb_diag. unfold cmp_value. destruct (has_sign_ left) eqn:E.
  - by destruct (value left =? value v).
  - rewrite <- !value_unsigned by congruence. by destruct (value left =? value v).
Qed.

Lemma eq_one : truthy (verinum_eq left (p_one_of left)) = (value left =? 1).
Proof using Hd Hw Hlen.
  destruct (stands_for_one left ltac:(lia)) as [_ Hs Hdp Hp _].
  rewrite (eq_same_sign _ Hdp (fun _ => Hp) Hs). by rewrite p_one_value.
Qed.

Lemma eq_minus_one :
  has_sign_ left && truthy (verinum_eq left (m_one_of left)) = (value left =? -1).
Proof using Hd Hw Hlen.
  destruct (has_sign_ left) eqn:E; simpl.
  - destruct (m_one_spec E) as (H1 & H2 & H3). rewrite eq_same_sign by (done || by rewrite E). by rewrite H3.
  - pose proof (value_range_unsigned left E). symmetry. apply Z.eqb_neq. lia.
Qed.

Lemma trim_undefined :
  Forall (fun b => b = Vx) (bits_ (trim_vnum (pow_undefined left))) /\
  (0 < len (trim_vnum (pow_undefined left)))%nat.
Proof using Hlen.
  split.
  - assert (H : Forall (fun b => b = Vx) (bits_ (pow_undefined left))) by by apply Forall_replicate.
    destruct (trim_vnum_cases (pow_undefined left)) as [->|(n & _ & _ & -> & _)]; [done|].
    by apply Forall_take.
  - apply trim_vnum_len. unfold len; simpl. rewrite length_replicate. lia.
Qed.
End NegativePower.

(** A negative exponent gives the integer part of [1 / left ^ n]: x for base
    0, 1 for base 1, the sign by parity for base -1, and 0 otherwise; an
    undefined operand gives x. *)
Lemma verinum_pow_negative (left right : verinum) :
  is_defined left = true -> is_defined right = true -> wf left -> wf right -> (1 < len left)%nat ->
  value right < 0 ->
  exists q, verinum_pow left right = Some q /\ has_sign_ q = has_sign_ left /\
    (value left = 0 -> Forall (fun b => b = Vx) (bits_ q) /\ (0 < len q)%nat) /\
    (value left = 1 -> value q = 1) /\
    (value left = -1 -> value q = if Z.odd (value right) then -1 else 1) /\
    (1 < Z.abs (value left) -> value q = 0).
Proof.
  intros Hd Hdr Hw Hwr Hl Hneg. unfold verinum_pow. rewrite Nat.add_1_r. cbn [pow_fuel].
  rewrite Hd, Hdr, is_negative_value, !is_zero_iff, eq_one, eq_minus_one by done.
  rewrite (proj2 (Z.eqb_neq _ _)) by lia. rewrite (proj2 (Z.ltb_lt _ _)) by lia. simpl orb. cbv iota.
  pose proof (p_one_value left Hl) as H1. eexists. split; [done|]. rewrite trim_vnum_has_sign, trim_vnum_value.
  pose proof (trim_undefined left Hl) as Hx.
  assert (Hodd : bit_at right 0 = V0 <-> Z.odd (value right) = false).
  { pose proof (exponent_len right Hwr ltac:(lia)). rewrite <- bit0_odd by done.
    rewrite (bit_defined right 0) by done. by destruct (is_one _). }
  destruct (Z.eqb_spec (value left) 0) as [H0|H0]; [by split_and!; [| |lia..]|].
  destruct (Z.eqb_spec (value left) (-1)) as [Hm|Hm].
  { assert (Hs : has_sign_ left = true).
    { destruct (has_sign_ left) eqn:E; [done|]. pose proof (value_range_unsigned left E). lia. }
    destruct (m_one_spec left Hl Hs) as (_ & _ & Hv).
    case_decide as Hb; split_and!; try done; try lia; intros _; rewrite ?Hv, ?H1.
    - by rewrite (proj1 Hodd Hb).
    - destruct (Z.odd (value right)); [done|]. by destruct Hb; apply Hodd. }
  destruct (Z.eqb_spec (value left) 1) as [Hp|Hp]; split_and!; try done; try lia.
  intros _. apply zero_value.
Qed.


Lemma verinum_pow_negative_witness :
  exists q, verinum_pow (sized (-1) 8 true) (unsized (-3)) = Some q /\ value q = -1.
Proof.
  destruct (verinum_pow_negative (sized (-1) 8 true) (unsized (-3))) as (q & Hq & _ & _ & _ & H & _).
  - reflexivity.
  - reflexivity.
  - intros _. apply Nat.ltb_lt. reflexivity.
  - intros _. apply Nat.ltb_lt. reflexivity.
  - apply Nat.ltb_lt. reflexivity.
  - apply Z.ltb_lt. vm_compute. reflexivity.
  - exists q. split; [exact Hq|]. apply H. vm_compute. reflexivity.
Defined.

(** C22. Powers of compile-time numbers: for a nonnegative exponent the mutual
    recursion ends and the result is [left ^ right], modulo [2^width] for a sized
    base and exactly for an unsized one; a negative exponent gives the integer
    part of [1 / left ^ n]: x for base 0, 1 for base 1, the sign by parity for
    base -1, and 0 otherwise. *)
Theorem verinum_power_correct (left right : verinum) :
  (is_defined left && is_defined right = true -> wf left -> wf right -> (0 < len left)%nat ->
   0 <= value right ->
   exists q, verinum_pow left right = Some q /\
     has_len_ q = has_len_ left /\ has_sign_ q = has_sign_ left /\
     if has_len_ left
     then len q = len left /\ uval (bits_ q) = value left ^ value right mod 2 ^ Z.of_nat (len left)
     else value q = value left ^ value right) /\
  (is_defined left = true -> is_defined right = true -> wf left -> wf right -> (1 < len left)%nat ->
   value right < 0 ->
   exists q, verinum_pow left right = Some q /\ has_sign_ q = has_sign_ left /\
     (value left = 0 -> Forall (fun b => b = Vx) (bits_ q) /\ (0 < len q)%nat) /\
     (value left = 1 -> value q = 1) /\
     (value left = -1 -> value q = if Z.odd (value right) then -1 else 1) /\
     (1 < Z.abs (value left) -> value q = 0)).
Proof. exact (conj (verinum_pow_correct left right) (verinum_pow_negative left right)). Qed.

Lemma verinum_power_correct_witness :
  exists q, verinum_pow (unsized (-3)) (sized 41 8 false) = Some q /\ value q = - 3 ^ 41.
Proof.
  pose proof (fun l r => proj1 (verinum_power_correct l r)) as verinum_pow_correct.
  destruct (verinum_pow_correct (unsized (-3)) (sized 41 8 false)) as (q & Hq & _ & _ & H).
  - reflexivity.
  - intros _. apply Nat.ltb_lt. reflexivity.
  - intros H. discriminate H.
  - apply Nat.ltb_lt. reflexivity.
  - apply (bool_decide_unpack _). vm_compute. exact I.
  - exists q. split; [exact Hq|]. refine (eq_trans H _). vm_compute. reflexivity.
Defined.
