(* ===== verification/Vector4.v ===== *)
(** * Vector4: the run-time four-state vectors (vvp/vvp_net.h, vvp/vvp_net.cc)

    A [vvp_vector4_t] stores its bits in two planes of 64-bit words, abits and
    bbits, in place up to 64 bits and in arrays of words beyond; bits of the last
    word above the size are arbitrary.  A plane is the list of its words; the
    in-place words [abits_val_]/[bbits_val_] are a one-word plane.  Where the
    code runs the same statements on both planes, they are defined once on a
    plane and applied to both. *)

From S2P Require Import Prelude FourState.
Import Bit4.

Open Scope ivl_scope.

Definition BITS_PER_WORD : nat := 64.

(** ** Planes *)

Abbreviation plane := (list Z) (only parsing).

Definition word_at (p : plane) (i : nat) : Z := default 0 (p !! i).
Notation "p .[ i ]" := (word_at p i) (at level 1, format "p .[ i ]") : ivl_scope.
Notation "p .[ i <- w ]" := (<[i%nat := w]> (p : plane)) (at level 1, format "p .[ i  <-  w ]") : ivl_scope.

(** The operators of [unsigned long], with a count of type [unsigned]. *)
Notation "x << k" := (shl64 x (Z.of_nat k)) (at level 35, right associativity) : ivl_scope.
Notation "x >> k" := (shr64 x (Z.of_nat k)) (at level 35, right associativity) : ivl_scope.
Notation "x .& y" := (Z.land x y) (at level 40, left associativity) : ivl_scope.
Notation "x .| y" := (Z.lor x y) (at level 50, left associativity) : ivl_scope.
Notation "x .^ y" := (Z.lxor x y) (at level 50, left associativity) : ivl_scope.
Notation ".~ x" := (not64 x) (at level 30, right associativity) : ivl_scope.

(** [(1UL << n) - 1UL] *)
Definition low_mask (n : nat) : Z := mask64 (Z.of_nat n).

Definition word_count (size : nat) : nat := ((size + BITS_PER_WORD - 1) / BITS_PER_WORD)%nat.
Definition is_long (size : nat) : bool := (BITS_PER_WORD <? size)%nat.
(** The words a vector of [size] bits owns. *)
Definition storage (size : nat) : nat := if is_long size then word_count size else 1.

(** [while (remain >= BITS_PER_WORD) { body(idx); idx += 1; remain -= BITS_PER_WORD; }]
    with what is left in [remain] and [idx]; [remain] rounds are enough. *)
Fixpoint whole_words {S : Type} (fuel remain idx : nat) (body : nat -> S -> S) (s : S) : nat * nat * S :=
  match fuel with
  | O => (remain, idx, s)
  | Datatypes.S f =>
    if (BITS_PER_WORD <=? remain)%nat
    then whole_words f (remain - BITS_PER_WORD) (Datatypes.S idx) body (body idx s)
    else (remain, idx, s)
  end.

(** ** The vector *)

Record vvp_vector4_t : Type := Vec4 {
  size : nat;
  abits : plane;
  bbits : plane;
}.

(** [init_atable[bit]] and [init_btable[bit]] *)
Definition init_atable (bit : vvp_bit4_t) : Z :=
  match bit with BIT4_0 | BIT4_Z => 0 | BIT4_1 | BIT4_X => ones64 end.
Definition init_btable (bit : vvp_bit4_t) : Z :=
  match bit with BIT4_0 | BIT4_1 => 0 | BIT4_X | BIT4_Z => ones64 end.

(** [allocate_words_], one plane. *)
Definition allocate_words_ (size : nat) (init : Z) : plane :=
  if is_long size then replicate (word_count size) init else [init].

(** [vvp_vector4_t(unsigned size, vvp_bit4_t val)] *)
Definition vec4_fill (size : nat) (val : vvp_bit4_t) : vvp_vector4_t :=
  Vec4 size (allocate_words_ size (init_atable val)) (allocate_words_ size (init_btable val)).

Definition value (v : vvp_vector4_t) (idx : nat) : vvp_bit4_t :=
  if (size v <=? idx)%nat then BIT4_X
  else
    let '(off, ab, bb) :=
      if is_long (size v) then
        let wdx := (idx / BITS_PER_WORD)%nat in
        ((idx mod BITS_PER_WORD)%nat, (abits v).[wdx], (bbits v).[wdx])
      else (idx, (abits v).[0], (bbits v).[0]) in
    int_to_bit4 (Z.shiftl ((bb >> off) .& 1) 1 + ((ab >> off) .& 1)).

(** [set_bit], after its assertion [idx < size_]. *)
Definition set_bit (v : vvp_vector4_t) (idx : nat) (val : vvp_bit4_t) : vvp_vector4_t :=
  let mask := 1 << (idx mod BITS_PER_WORD) in
  let wdx := (if is_long (size v) then idx / BITS_PER_WORD else 0)%nat in
  let set_in p := p.[wdx <- p.[wdx] .| mask] in
  let clear_in p := p.[wdx <- p.[wdx] .& .~ mask] in
  match val with
  | BIT4_0 => Vec4 (size v) (clear_in (abits v)) (clear_in (bbits v))
  | BIT4_1 => Vec4 (size v) (set_in (abits v)) (clear_in (bbits v))
  | BIT4_X => Vec4 (size v) (set_in (abits v)) (set_in (bbits v))
  | BIT4_Z => Vec4 (size v) (clear_in (abits v)) (set_in (bbits v))
  end.

(** Apply [f] to both planes. *)
Definition on_planes (f : plane -> plane) (size' : nat) (v : vvp_vector4_t) : vvp_vector4_t :=
  Vec4 size' (f (abits v)) (f (bbits v)).

(** ** Copies *)

(** [copy_bits], one plane: [size_] and [p] of the destination, [that_size] and
    [q] of the source. *)
Definition copy_plane (size_ that_size : nat) (p q : plane) : plane :=
  if (size_ =? that_size)%nat then
    if is_long size_ then for_loop (word_count size_) 0 (fun idx p => p.[idx <- q.[idx]]) p
    else p.[0 <- q.[0]]
  else if negb (is_long size_) && negb (is_long that_size) then
    let bits_to_copy := if (that_size <? size_)%nat then that_size else size_ in
    let mask := if (bits_to_copy <? BITS_PER_WORD)%nat then low_mask bits_to_copy else sub64 0 1 in
    p.[0 <- (p.[0] .& .~ mask) .| (q.[0] .& mask)]
  else if negb (is_long size_) then
    p.[0 <- if (size_ <? BITS_PER_WORD)%nat then q.[0] .& low_mask size_ else q.[0]]
  else if negb (is_long that_size) then
    let '(mask, w) :=
      if (that_size <? BITS_PER_WORD)%nat
      then (low_mask that_size, p.[0] .& .~ (low_mask that_size))
      else (ones64, p.[0]) in
    p.[0 <- w .| (q.[0] .& mask)]
  else
    let bits_to_copy := if (that_size <? size_)%nat then that_size else size_ in
    let '(bits_to_copy, word, p) :=
      whole_words bits_to_copy bits_to_copy 0 (fun word p => p.[word <- q.[word]]) p in
    if (0 <? bits_to_copy)%nat then
      let mask := low_mask bits_to_copy in
      p.[word <- (p.[word] .& .~ mask) .| (q.[word] .& mask)]
    else p.

Definition copy_bits (this that : vvp_vector4_t) : vvp_vector4_t :=
  Vec4 (size this) (copy_plane (size this) (size that) (abits this) (abits that))
    (copy_plane (size this) (size that) (bbits this) (bbits that)).

(** [copy_from_] (the copy constructor and [operator =]), one plane. *)
Definition copy_from_plane (size_ : nat) (q : plane) : plane :=
  if is_long size_ then
    for_loop (word_count size_) 0 (fun idx p => p.[idx <- q.[idx]]) (replicate (word_count size_) 0)
  else [q.[0]].
Definition copy_from_ (that : vvp_vector4_t) : vvp_vector4_t := on_planes (copy_from_plane (size that)) (size that) that.

(** [copy_inverted_from_]: the operator [~]. *)
Definition copy_inverted_from_ (that : vvp_vector4_t) : vvp_vector4_t :=
  let size_ := size that in
  let a := abits that in
  let b := bbits that in
  if is_long size_ then
    let words := word_count size_ in
    let '(remaining, idx, na) :=
      whole_words size_ size_ 0 (fun idx p => p.[idx <- b.[idx] .| .~ (a.[idx])]) (replicate words 0) in
    let na :=
      if (0 <? remaining)%nat
      then na.[idx <- low_mask remaining .& (b.[idx] .| .~ (a.[idx]))] else na in
    Vec4 size_ na (for_loop words 0 (fun idx p => p.[idx <- b.[idx]]) (replicate words 0))
  else
    let mask := if (size_ <? BITS_PER_WORD)%nat then low_mask size_ else ones64 in
    Vec4 size_ [mask .& (b.[0] .| .~ (a.[0]))] [b.[0]].

(** ** Part selects *)

(** The wide loop of the part-select constructor, one plane: [trans] bits of
    the [wid] are done.  Each round does a word, [word_count wid] are enough. *)
Fixpoint sub_loop (fuel : nat) (q : plane) (off noff : nat) (lmask : Z) (wid trans dst ptr : nat)
    (p : plane) : plane :=
  match fuel with
  | O => p
  | Datatypes.S f =>
    if (trans <? wid)%nat then
      let p := p.[dst <- (q.[ptr] .& .~ lmask) >> off] in
      let trans := (trans + noff)%nat in
      if (wid <=? trans)%nat then p
      else
        let ptr := (ptr + 1)%nat in
        let '(p, trans) :=
          if (noff =? BITS_PER_WORD)%nat then (p, trans)
          else (p.[dst <- p.[dst] .| ((q.[ptr] .& lmask) << noff)], (trans + off)%nat) in
        sub_loop f q off noff lmask wid trans (dst + 1) ptr p
    else p
  end.

(** The three word-parallel branches, when the part is inside the source. *)
Definition sub_plane (that_size adr wid : nat) (q p : plane) : plane :=
  if is_long wid then
    let ptr := (adr / BITS_PER_WORD)%nat in
    let off := (adr mod BITS_PER_WORD)%nat in
    sub_loop (word_count wid) q off (BITS_PER_WORD - off) (low_mask off) wid 0 0 ptr p
  else if is_long that_size then
    let ptr := (adr / BITS_PER_WORD)%nat in
    let off := (adr mod BITS_PER_WORD)%nat in
    let trans := (BITS_PER_WORD - off)%nat in
    let trans := if (wid <? trans)%nat then wid else trans in
    if (trans =? BITS_PER_WORD)%nat then p.[0 <- q.[ptr]]
    else
      let lmask := low_mask trans << off in
      let w := (q.[ptr] .& lmask) >> off in
      if (trans <? wid)%nat then
        let hmask := low_mask (wid - trans) in
        p.[0 <- w .| ((q.[ptr + 1] .& hmask) << trans)]
      else p.[0 <- w]
  else if (wid =? BITS_PER_WORD)%nat then p.[0 <- q.[0]]
  else
    let mask := low_mask wid << adr in
    p.[0 <- (q.[0] .& mask) >> adr].

(** [vvp_vector4_t(const vvp_vector4_t&that, unsigned adr, unsigned wid)] *)
Definition subvalue (that : vvp_vector4_t) (adr wid : nat) : vvp_vector4_t :=
  let this := vec4_fill wid BIT4_X in
  if (size that <=? adr)%nat then this
  else if (size that <? adr + wid)%nat then
    let use_wid := (size that - adr)%nat in
    for_loop use_wid 0 (fun idx this => set_bit this idx (value that (adr + idx))) this
  else
    Vec4 wid (sub_plane (size that) adr wid (abits that) (abits this))
      (sub_plane (size that) adr wid (bbits that) (bbits this)).

(** [set_vec]: write [tmp] under [mask] into a word; the flag tells whether the
    word changed. *)
Definition put_word (w mask tmp : Z) : bool * Z :=
  if (w .& mask) =? tmp then (false, w) else (true, (w .& .~ mask) .| tmp).

Definition put_at (i : nat) (mask tmp : Z) (s : bool * plane) : bool * plane :=
  let '(diff_flag, p) := s in
  let '(changed, w) := put_word p.[i] mask tmp in
  (diff_flag || changed, p.[i <- w]).

(** [if (p[i] != w) p[i] = w] *)
Definition put_whole (i : nat) (w : Z) (s : bool * plane) : bool * plane :=
  let '(diff_flag, p) := s in
  if p.[i] =? w then (diff_flag, p) else (true, p.[i <- w]).

(** The body of the unaligned loop. *)
Definition put_unaligned (doff : nat) (lmask w : Z) (dptr : nat) (s : bool * plane) : bool * plane :=
  let s := put_at dptr (.~ lmask) ((w << doff) .& .~ lmask) s in
  put_at (dptr + 1) lmask ((w >> (BITS_PER_WORD - doff)) .& lmask) s.

(** [set_vec], one plane: [q] of the source, [p] of the destination. *)
Definition set_plane (size_ that_size adr : nat) (q p : plane) : bool * plane :=
  if negb (is_long size_) then
    let lmask := low_mask adr in
    let hshift := (adr + that_size)%nat in
    let hmask := if (BITS_PER_WORD <=? hshift)%nat then ones64 else low_mask hshift in
    let mask := hmask .& .~ lmask in
    put_at 0 mask ((q.[0] << adr) .& mask) (false, p)
  else if negb (is_long that_size) then
    let dptr := (adr / BITS_PER_WORD)%nat in
    let doff := (adr mod BITS_PER_WORD)%nat in
    let lmask := low_mask doff in
    let hshift := (doff + that_size)%nat in
    let hmask := if (BITS_PER_WORD <=? hshift)%nat then ones64 else low_mask hshift in
    let mask := hmask .& .~ lmask in
    let s := put_at dptr mask ((q.[0] << doff) .& mask) (false, p) in
    if (BITS_PER_WORD <? doff + that_size)%nat then
      let tail := (doff + that_size - BITS_PER_WORD)%nat in
      let mask := low_mask tail in
      put_at (dptr + 1) mask ((q.[0] >> (that_size - tail)) .& mask) s
    else s
  else if (adr mod BITS_PER_WORD =? 0)%nat then
    let dptr := (adr / BITS_PER_WORD)%nat in
    let '(remain, sptr, s) :=
      whole_words that_size that_size 0 (fun sptr s => put_whole (dptr + sptr) q.[sptr] s) (false, p) in
    if (0 <? remain)%nat then
      let mask := low_mask remain in
      put_at (dptr + sptr) mask (q.[sptr] .& mask) s
    else s
  else
    let dptr := (adr / BITS_PER_WORD)%nat in
    let doff := (adr mod BITS_PER_WORD)%nat in
    let lmask := low_mask doff in
    let '(remain, sptr, s) :=
      whole_words that_size that_size 0
        (fun sptr s => put_unaligned doff lmask q.[sptr] (dptr + sptr) s) (false, p) in
    let dptr := (dptr + sptr)%nat in
    if (0 <? remain)%nat then
      let hshift := (doff + remain)%nat in
      let hmask := if (BITS_PER_WORD <=? hshift)%nat then ones64 else low_mask hshift in
      let mask := hmask .& .~ lmask in
      let s := put_at dptr mask ((q.[sptr] << doff) .& mask) s in
      if (BITS_PER_WORD <? doff + remain)%nat then
        let tail := (doff + remain - BITS_PER_WORD)%nat in
        let mask := if (BITS_PER_WORD <=? tail)%nat then ones64 else low_mask tail in
        put_at (dptr + 1) mask ((q.[sptr] >> (remain - tail)) .& mask) s
      else s
    else s.

(** [set_vec]: the new vector and whether any bit changed; [None] when the
    assertion [adr+that.size_ <= size_] fails. *)
Definition set_vec (this : vvp_vector4_t) (adr : nat) (that : vvp_vector4_t) : option (vvp_vector4_t * bool) :=
  if (adr + size that <=? size this)%nat then
    let '(adiff, a) := set_plane (size this) (size that) adr (abits that) (abits this) in
    let '(bdiff, b) := set_plane (size this) (size that) adr (bbits that) (bbits this) in
    Some (Vec4 (size this) a b, adiff || bdiff)
  else None.

(** ** Moves within a vector *)

(** The loop of [mov], one plane; each round moves at least one bit. *)
Fixpoint mov_loop (fuel cnt sptr soff dptr doff : nat) (p : plane) : plane :=
  match fuel with
  | O => p
  | Datatypes.S f =>
    if (0 <? cnt)%nat then
      let trans := cnt in
      let trans := if (BITS_PER_WORD <? soff + trans)%nat then (BITS_PER_WORD - soff)%nat else trans in
      let trans := if (BITS_PER_WORD <? doff + trans)%nat then (BITS_PER_WORD - doff)%nat else trans in
      if (trans =? BITS_PER_WORD)%nat then
        mov_loop f (cnt - BITS_PER_WORD) (sptr + 1) soff (dptr + 1) doff p.[dptr <- p.[sptr]]
      else
        let vmask := low_mask trans in
        let tmp := (p.[sptr] >> soff) .& vmask in
        let p := p.[dptr <- p.[dptr] .& .~ (vmask << doff)] in
        let p := p.[dptr <- p.[dptr] .| (tmp << doff)] in
        let cnt := (cnt - trans)%nat in
        let '(soff, sptr) :=
          if (BITS_PER_WORD <=? soff + trans)%nat then (0%nat, (sptr + 1)%nat) else ((soff + trans)%nat, sptr) in
        let '(doff, dptr) :=
          if (BITS_PER_WORD <=? doff + trans)%nat then (0%nat, (dptr + 1)%nat) else ((doff + trans)%nat, dptr) in
        mov_loop f cnt sptr soff dptr doff p
    else p
  end.

Definition mov_plane (size_ dst src cnt : nat) (p : plane) : plane :=
  if negb (is_long size_) then
    let vmask := low_mask cnt in
    let tmp := (p.[0] >> src) .& vmask in
    let p := p.[0 <- p.[0] .& .~ (vmask << dst)] in
    p.[0 <- p.[0] .| (tmp << dst)]
  else
    mov_loop cnt cnt (src / BITS_PER_WORD) (src mod BITS_PER_WORD)
      (dst / BITS_PER_WORD) (dst mod BITS_PER_WORD) p.

(** [mov(dst, src, cnt)]; [None] when an assertion fails. *)
Definition mov (this : vvp_vector4_t) (dst src cnt : nat) : option vvp_vector4_t :=
  if (dst + cnt <=? size this)%nat && (src + cnt <=? size this)%nat
  then Some (on_planes (mov_plane (size this) dst src cnt) (size this) this) else None.

(** ** Sizes *)

(** [resize], one plane, padding with the word [pad].  A fresh array is all 0
    here; every one of its words is written below. *)
Definition resize_plane (size_ newsize : nat) (pad : Z) (p : plane) : plane :=
  let cnt := word_count size_ in
  let fill := (size_ mod BITS_PER_WORD)%nat in
  let pad_last p :=
    if negb (fill =? 0)%nat then
      let p := p.[cnt - 1 <- p.[cnt - 1] .& .~ (ones64 << fill)] in
      p.[cnt - 1 <- p.[cnt - 1] .| (pad << fill)]
    else p in
  if is_long newsize then
    let newcnt := word_count newsize in
    if (newcnt =? cnt)%nat then if (size_ <? newsize)%nat then pad_last p else p
    else
      let newbits := replicate newcnt 0 in
      let newbits :=
        if (1 <? cnt)%nat then
          let trans := if (newcnt <? cnt)%nat then newcnt else cnt in
          for_loop trans 0 (fun idx nb => nb.[idx <- p.[idx]]) newbits
        else newbits.[0 <- p.[0]] in
      if (size_ <? newsize)%nat then
        for_loop (newcnt - cnt) cnt (fun idx nb => nb.[idx <- pad]) (pad_last newbits)
      else newbits
  else
    let w := p.[0] in
    let w :=
      if (size_ <? newsize)%nat then (w .& .~ (ones64 << size_)) .| (pad << size_) else w in
    [w].

Definition resize (this : vvp_vector4_t) (newsize : nat) (pad_bit : vvp_bit4_t) : vvp_vector4_t :=
  if (size this =? newsize)%nat then this
  else Vec4 newsize (resize_plane (size this) newsize (init_atable pad_bit) (abits this))
         (resize_plane (size this) newsize (init_btable pad_bit) (bbits this)).

(** ** Arrays of native words *)

(** The x/z test shared by both cases of [subarray]: the value word, or [None]
    for [goto x_out]. *)
Definition drop_xz (xz_to_0 : bool) (atmp btmp : Z) : option Z :=
  if btmp =? 0 then Some atmp
  else if xz_to_0 then Some (atmp .& .~ btmp) else None.

(** Each round transfers at least one bit. *)
Fixpoint subarray_loop (fuel : nat) (a b : plane) (xz_to_0 : bool) (adr wid val_ptr val_off : nat)
    (val : list Z) : option (list Z) :=
  match fuel with
  | O => Some val
  | Datatypes.S f =>
    if (0 <? wid)%nat then
      let off := (adr mod BITS_PER_WORD)%nat in
      let atmp := a.[adr / BITS_PER_WORD] >> off in
      let btmp := b.[adr / BITS_PER_WORD] >> off in
      let trans := (BITS_PER_WORD - off)%nat in
      let trans := if (BITS_PER_WORD - val_off <? trans)%nat then (BITS_PER_WORD - val_off)%nat else trans in
      let trans := if (wid <? trans)%nat then wid else trans in
      let '(atmp, btmp) :=
        if (trans <? BITS_PER_WORD)%nat then (atmp .& low_mask trans, btmp .& low_mask trans)
        else (atmp, btmp) in
      atmp ← drop_xz xz_to_0 atmp btmp;
      let val := val.[val_ptr <- val.[val_ptr] .| (atmp << val_off)] in
      let val_off := (val_off + trans)%nat in
      let '(val_ptr, val_off) :=
        if (val_off =? BITS_PER_WORD)%nat then ((val_ptr + 1)%nat, 0%nat) else (val_ptr, val_off) in
      subarray_loop f a b xz_to_0 (adr + trans) (wid - trans) val_ptr val_off val
    else Some val
  end.

(** [subarray]; [None] is the null pointer. *)
Definition subarray (this : vvp_vector4_t) (adr wid : nat) (xz_to_0 : bool) : option (list Z) :=
  let awid := word_count wid in
  let val := replicate awid 0 in
  if negb (is_long (size this)) then
    let atmp := (abits this).[0] >> adr in
    let btmp := (bbits this).[0] >> adr in
    let '(atmp, btmp) :=
      if (wid <? BITS_PER_WORD)%nat then (atmp .& low_mask wid, btmp .& low_mask wid) else (atmp, btmp) in
    atmp ← drop_xz xz_to_0 atmp btmp;
    Some (val.[0 <- atmp])
  else subarray_loop wid (abits this) (bbits this) xz_to_0 adr wid 0 0 val.

(** The mask of the bits [off, off+trans) of a word. *)
Definition field_mask (off trans : nat) : Z :=
  let lmask := low_mask off in
  let hmask := if (off + trans <? BITS_PER_WORD)%nat then ones64 << (off + trans) else 0 in
  .~ (hmask .| lmask).

(** The loop of [setarray]; each round transfers at least one bit. *)
Fixpoint setarray_loop (fuel : nat) (val : list Z) (wid off ptr val_off val_ptr : nat)
    (s : plane * plane) : plane * plane :=
  match fuel with
  | O => s
  | Datatypes.S f =>
    if (0 <? wid)%nat then
      let '(a, b) := s in
      let trans := wid in
      let trans := if (BITS_PER_WORD - val_off <? trans)%nat then (BITS_PER_WORD - val_off)%nat else trans in
      let trans := if (BITS_PER_WORD - off <? trans)%nat then (BITS_PER_WORD - off)%nat else trans in
      let mask := field_mask off trans in
      let a := a.[ptr <- a.[ptr] .& .~ mask] in
      let b := b.[ptr <- b.[ptr] .& .~ mask] in
      let a :=
        if (off <=? val_off)%nat
        then a.[ptr <- a.[ptr] .| (mask .& (val.[val_ptr] >> (val_off - off)))]
        else a.[ptr <- a.[ptr] .| (mask .& (val.[val_ptr] << (off - val_off)))] in
      let '(val_off, val_ptr) :=
        if (val_off + trans =? BITS_PER_WORD)%nat then (0%nat, (val_ptr + 1)%nat)
        else ((val_off + trans)%nat, val_ptr) in
      let '(off, ptr) :=
        if (off + trans =? BITS_PER_WORD)%nat then (0%nat, (ptr + 1)%nat)
        else ((off + trans)%nat, ptr) in
      setarray_loop f val (wid - trans) off ptr val_off val_ptr (a, b)
    else s
  end.

(** [setarray]; [None] when the assertion [adr+wid <= size_] fails. *)
Definition setarray (this : vvp_vector4_t) (adr wid : nat) (val : list Z) : option vvp_vector4_t :=
  if (adr + wid <=? size this)%nat then
    let a := abits this in
    let b := bbits this in
    if negb (is_long (size this)) then
      let mask := field_mask adr wid in
      let a := a.[0 <- a.[0] .& .~ mask] in
      let b := b.[0 <- b.[0] .& .~ mask] in
      Some (Vec4 (size this) (a.[0 <- a.[0] .| (mask .& (val.[0] << adr))]) b)
    else
      let '(a, b) :=
        setarray_loop wid val wid (adr mod BITS_PER_WORD) (adr / BITS_PER_WORD) 0 0 (a, b) in
      Some (Vec4 (size this) a b)
  else None.
