(* ===== verification/Vector4Value.v ===== *)
(** * Vector4Value: the bits a run-time vector stands for

    The bit [i] of a vector is read from the words of its two planes by
    [pbit]; well-formed vectors own the words their size needs.  The loops of
    the code that go over words are characterised once, word by word. *)

From S2P Require Import Prelude FourState Vector4.
Import Bit4.

Open Scope ivl_scope.

(** Bit [i] of a plane. *)
Definition pbit (p : plane) (i : nat) : bool :=
  Z.testbit p.[i / BITS_PER_WORD] (Z.of_nat (i mod BITS_PER_WORD)).

(** The bit with the given abit and bbit. *)
Definition mk_bit (a b : bool) : vvp_bit4_t :=
  match a, b with
  | false, false => BIT4_0 | true, false => BIT4_1
  | true, true => BIT4_X | false, true => BIT4_Z
  end.
Definition abit (c : vvp_bit4_t) : bool := match c with BIT4_1 | BIT4_X => true | _ => false end.
Definition bbit (c : vvp_bit4_t) : bool := match c with BIT4_X | BIT4_Z => true | _ => false end.

Definition plane_wf (size_ : nat) (p : plane) : Prop :=
  length p = storage size_ /\ Forall is_word p.

Definition vec_wf (v : vvp_vector4_t) : Prop :=
  plane_wf (size v) (abits v) /\ plane_wf (size v) (bbits v).

(** Two vectors with the same bits. *)
Definition same_bits (v w : vvp_vector4_t) : Prop :=
  size v = size w /\ forall i, (i < size v)%nat -> value v i = value w i.

(** The integer of the low [n] bits of a plane. *)
Definition pval (p : plane) (n : nat) : Z := Zbits (pbit p) n.

(** ** Indexes *)

Lemma div64 i : (i / BITS_PER_WORD * 64 + i mod BITS_PER_WORD = i)%nat /\ (i mod BITS_PER_WORD < 64)%nat.
Proof.
  unfold BITS_PER_WORD. pose proof (Nat.div_mod_eq i 64). pose proof (Nat.mod_upper_bound i 64). lia.
Qed.

Lemma div_small64 i : (i < 64)%nat -> (i / BITS_PER_WORD = 0)%nat /\ (i mod BITS_PER_WORD = i)%nat.
Proof. intros H. split; [by apply Nat.div_small|by apply Nat.mod_small]. Qed.

Lemma div_join k r : (r < 64)%nat ->
  ((k * 64 + r) / BITS_PER_WORD = k)%nat /\ ((k * 64 + r) mod BITS_PER_WORD = r)%nat.
Proof.
  intros Hr. unfold BITS_PER_WORD. rewrite Nat.div_add_l, Nat.div_small by lia.
  rewrite (Nat.add_comm (k * 64) r), Nat.Div0.mod_add, Nat.mod_small by lia. lia.
Qed.

Lemma word_count_bounds n : (word_count n * 64 < n + 64)%nat /\ (n <= word_count n * 64)%nat.
Proof. unfold word_count. destruct (div64 (n + BITS_PER_WORD - 1)). unfold BITS_PER_WORD in *. lia. Qed.

Lemma is_long_spec n : is_long n = true <-> (64 < n)%nat.
Proof. unfold is_long, BITS_PER_WORD. apply Nat.ltb_lt. Qed.

Lemma is_short_spec n : is_long n = false <-> (n <= 64)%nat.
Proof. unfold is_long, BITS_PER_WORD. apply Nat.ltb_ge. Qed.

Lemma storage_bound n : (n <= storage n * 64)%nat /\ (0 < storage n)%nat.
Proof.
  pose proof (word_count_bounds n). unfold storage. destruct (is_long n) eqn:E.
  - apply is_long_spec in E. lia.
  - apply is_short_spec in E. lia.
Qed.

Lemma storage_index n i : (i < n)%nat -> (i / BITS_PER_WORD < storage n)%nat.
Proof. intros Hi. destruct (div64 i), (storage_bound n). nia. Qed.

Lemma storage_word n k : (k * 64 < n)%nat -> (k < storage n)%nat.
Proof.
  intros H. pose proof (storage_index n (k * 64 + 0) ltac:(lia)) as Hs.
  destruct (div_join k 0 ltac:(lia)) as [E _]. by rewrite E in Hs.
Qed.

(** ** Words of planes *)

Lemma word_at_insert (p : plane) k w j :
  (k < length p)%nat -> (p.[k <- w]).[j] = if (j =? k)%nat then w else p.[j].
Proof.
  intros Hk. unfold word_at. destruct (Nat.eqb_spec j k) as [->|Hn].
  - by rewrite list_lookup_insert_eq.
  - by rewrite list_lookup_insert_ne.
Qed.

Lemma word_at_is_word (p : plane) k : Forall is_word p -> is_word p.[k].
Proof.
  intros H. unfold word_at. destruct (p !! k) eqn:E; simpl; [|apply is_word_0].
  by eapply Forall_lookup_1.
Qed.
#[export] Hint Resolve word_at_is_word : word.

Lemma insert_words (p : plane) k w : Forall is_word p -> is_word w -> Forall is_word (p.[k <- w]).
Proof. intros. by apply Forall_insert. Qed.

Lemma insert_length (p : plane) k (w : Z) : length (p.[k <- w]) = length p.
Proof. apply length_insert. Qed.

Lemma replicate_words n w : is_word w -> Forall is_word (replicate n w).
Proof. intros. by apply Forall_replicate. Qed.
#[export] Hint Resolve insert_words replicate_words : word.

Lemma word_at_replicate n w k : (k < n)%nat -> word_at (replicate n w) k = w.
Proof. intros. unfold word_at. by rewrite lookup_replicate_2. Qed.

(** A loop that rewrites the words of a range, each from its old value. *)
Lemma loop_words (f : nat -> Z -> Z) n start (p : plane) :
  (start + n <= length p)%nat ->
  let p' := for_loop n start (fun idx p => p.[idx <- f idx (word_at p idx)]) p in
  length p' = length p /\
  (forall k, p'.[k] = if ((start <=? k) && (k <? start + n))%nat then f k p.[k] else p.[k]) /\
  (Forall is_word p -> (forall k w, is_word w -> is_word (f k w)) -> Forall is_word p').
Proof.
  intros Hn. cbv zeta.
  pose proof (for_loop_ind (fun i q =>
    length q = length p /\
    (forall k, q.[k] = if ((start <=? k) && (k <? i))%nat then f k p.[k] else p.[k]) /\
    (Forall is_word p -> (forall k w, is_word w -> is_word (f k w)) -> Forall is_word q)) n start
    (fun idx p => p.[idx <- f idx (word_at p idx)]) p) as H.
  apply H; clear H.
  - split; [done|]. split; [|auto]. intros k.
    destruct (Nat.leb_spec start k), (Nat.ltb_spec k start); simpl; (done || lia).
  - intros i q Hi (Hl & Hq & Hw). split; [by rewrite insert_length|]. split.
    + intros k. rewrite word_at_insert, !Hq by lia.
      destruct (Nat.eqb_spec k i) as [->|].
      * rewrite Nat.ltb_irrefl, andb_false_r. destruct (Nat.leb_spec start i), (Nat.ltb_spec i (S i)); simpl; (done || lia).
      * destruct (Nat.leb_spec start k), (Nat.ltb_spec k i), (Nat.ltb_spec k (S i)); simpl; (done || lia).
    + intros Hp Hf. apply insert_words; auto. apply Hf. auto with word.
Qed.

(** The same for a loop that runs over both planes. *)
Lemma loop_planes (fa fb : nat -> Z -> Z -> Z) n (a b : plane) :
  (n <= length a)%nat -> (n <= length b)%nat ->
  let s := for_loop n 0 (fun idx '(a, b) =>
             (a.[idx <- fa idx (word_at a idx) (word_at b idx)],
              b.[idx <- fb idx (word_at a idx) (word_at b idx)])) (a, b) in
  length (fst s) = length a /\ length (snd s) = length b /\
  (forall k, (fst s).[k] = if (k <? n)%nat then fa k a.[k] b.[k] else a.[k]) /\
  (forall k, (snd s).[k] = if (k <? n)%nat then fb k a.[k] b.[k] else b.[k]).
Proof.
  intros Ha Hb. cbv zeta.
  apply (for_loop_ind (fun i s =>
    length (fst s) = length a /\ length (snd s) = length b /\
    (forall k, (fst s).[k] = if (k <? i)%nat then fa k a.[k] b.[k] else a.[k]) /\
    (forall k, (snd s).[k] = if (k <? i)%nat then fb k a.[k] b.[k] else b.[k]))).
  - done.
  - intros i [qa qb] Hi (Hla & Hlb & Hqa & Hqb). simpl in *. rewrite !insert_length.
    split; [done|]. split; [done|].
    assert (Hi1 : (i <? i)%nat = false) by apply Nat.ltb_irrefl.
    split; intros k; rewrite word_at_insert, !Hqa, !Hqb, Hi1 by lia;
      destruct (Nat.eqb_spec k i), (Nat.ltb_spec k i), (Nat.ltb_spec k (S i)); subst; (done || lia).
Qed.

Lemma whole_words_eq {S : Type} (body : nat -> S -> S) fuel : forall remain idx s,
  (remain <= fuel)%nat ->
  whole_words fuel remain idx body s =
    ((remain mod BITS_PER_WORD)%nat, (idx + remain / BITS_PER_WORD)%nat,
     for_loop (remain / BITS_PER_WORD) idx body s).
Proof.
  induction fuel as [|fuel IH]; intros remain idx s H; cbn [whole_words].
  - assert (remain = 0)%nat as -> by lia. destruct (div_small64 0 ltac:(lia)) as [-> ->].
    simpl. by rewrite Nat.add_0_r.
  - destruct (Nat.leb_spec BITS_PER_WORD remain) as [Hle|Hlt].
    + rewrite IH by (unfold BITS_PER_WORD in *; lia).
      pose proof (div64 (remain - BITS_PER_WORD)) as [H3 H4].
      destruct (div_join (Datatypes.S ((remain - BITS_PER_WORD) / BITS_PER_WORD))%nat
        ((remain - BITS_PER_WORD) mod BITS_PER_WORD)%nat H4) as [H1 H2].
      replace (Datatypes.S ((remain - BITS_PER_WORD) / BITS_PER_WORD) * 64 +
        (remain - BITS_PER_WORD) mod BITS_PER_WORD)%nat with remain in H1, H2
        by (unfold BITS_PER_WORD in *; lia).
      rewrite H1, H2. cbn [for_loop]. do 2 f_equal. lia.
    + destruct (div_small64 remain Hlt) as [-> ->]. simpl. by rewrite Nat.add_0_r.
Qed.

(** ** Bits of vectors *)

Lemma mk_bit_parts c : mk_bit (abit c) (bbit c) = c.
Proof. by destruct c. Qed.

Lemma abit_mk a b : abit (mk_bit a b) = a.
Proof. by destruct a, b. Qed.
Lemma bbit_mk a b : bbit (mk_bit a b) = b.
Proof. by destruct a, b. Qed.

Lemma land_1_bit x : Z.land x 1 = Z.b2z (Z.testbit x 0).
Proof. change 1 with (Z.ones 1). rewrite Z.land_ones by lia. rewrite Z.bit0_mod. done. Qed.

Lemma value_bits v i :
  value v i = if (i <? size v)%nat then mk_bit (pbit (abits v) i) (pbit (bbits v) i) else BIT4_X.
Proof.
  unfold value. destruct (Nat.leb_spec (size v) i), (Nat.ltb_spec i (size v)); try lia; [done|].
  assert (Hd : (if is_long (size v) then i mod BITS_PER_WORD else i)%nat = (i mod BITS_PER_WORD)%nat /\
               (if is_long (size v) then i / BITS_PER_WORD else 0)%nat = (i / BITS_PER_WORD)%nat).
  { destruct (is_long (size v)) eqn:E; [done|]. apply is_short_spec in E.
    destruct (div_small64 i); [lia|]. by split. }
  destruct Hd as [Hd1 Hd2]. unfold pbit. rewrite <- Hd1, <- Hd2.
  destruct (is_long (size v)); rewrite !land_1_bit, !shr64_bit, !Z.add_0_l by lia;
    by destruct (Z.testbit _ _), (Z.testbit _ _).
Qed.

Lemma value_lt v i : (i < size v)%nat -> value v i = mk_bit (pbit (abits v) i) (pbit (bbits v) i).
Proof. intros. rewrite value_bits. destruct (Nat.ltb_spec i (size v)); [done|lia]. Qed.

Lemma value_beyond v i : (size v <= i)%nat -> value v i = BIT4_X.
Proof. intros. rewrite value_bits. destruct (Nat.ltb_spec i (size v)); [lia|done]. Qed.

(** Bits of a plane with one word replaced. *)
Lemma pbit_insert (p : plane) k w i :
  (k < length p)%nat ->
  pbit (p.[k <- w]) i =
    if (i / BITS_PER_WORD =? k)%nat then Z.testbit w (Z.of_nat (i mod BITS_PER_WORD)) else pbit p i.
Proof. intros Hk. unfold pbit. rewrite word_at_insert by done. by destruct (Nat.eqb_spec (i / BITS_PER_WORD) k). Qed.

Lemma pbit_words_eq (p q : plane) i : p.[i / BITS_PER_WORD] = q.[i / BITS_PER_WORD] -> pbit p i = pbit q i.
Proof. unfold pbit. by intros ->. Qed.

(** ** Values of planes *)

Lemma pval_ext p q n : (forall i, (i < n)%nat -> pbit p i = pbit q i) -> pval p n = pval q n.
Proof. apply Zbits_ext. Qed.

Lemma pval_range p n : 0 <= pval p n < 2 ^ Z.of_nat n.
Proof. apply Zbits_range. Qed.

Lemma pbit_pval p n i : (i < n)%nat -> Z.testbit (pval p n) (Z.of_nat i) = pbit p i.
Proof.
  intros Hi. unfold pval. rewrite Zbits_testbit, Nat2Z.id by lia.
  destruct (Z.ltb_spec (Z.of_nat i) (Z.of_nat n)); [done|lia].
Qed.

(** Up to a bit inside a word, the value is that of the whole words and the low
    bits of the word. *)
Lemma pval_split p k r : (r <= 64)%nat -> 
  pval p (k * 64 + r) = pval p (k * 64) + (p.[k] mod 2 ^ Z.of_nat r) * 2 ^ Z.of_nat (k * 64).
Proof.
  induction r as [|r IH]; intros Hr.
  - rewrite Nat.add_0_r. change (2 ^ Z.of_nat 0) with 1. rewrite Z.mod_1_r. lia.
  - rewrite Nat.add_succ_r. unfold pval in *. rewrite Zbits_S, IH by lia.
    rewrite mod_pow2_S. unfold pbit. destruct (div_join k r) as [-> ->]; [lia|].
    rewrite (Nat2Z.inj_add (k * 64) r), Z.pow_add_r by lia. lia.
Qed.

Lemma pval_words p k : Forall is_word p ->
  pval p (S k * 64) = pval p (k * 64) + p.[k] * 2 ^ Z.of_nat (k * 64).
Proof.
  intros Hp. replace (S k * 64)%nat with (k * 64 + 64)%nat by lia. rewrite pval_split by lia.
  rewrite (Z.mod_small p.[k]); [done|]. by apply word_at_is_word.
Qed.

(** ** Bit fields *)

Lemma low_mask_bit n b : (n <= 64)%nat -> 0 <= b -> Z.testbit (low_mask n) b = (b <? Z.of_nat n).
Proof. intros. unfold low_mask. rewrite mask64_bit by lia. done. Qed.

Lemma is_word_low_mask n : is_word (low_mask n).
Proof. apply is_word_mask64. Qed.

#[export] Hint Rewrite low_mask_bit using lia : bits.
#[export] Hint Resolve is_word_low_mask : word.

Lemma word_bit (p : plane) k z : 0 <= z < 64 -> Z.testbit p.[k] z = pbit p (k * 64 + Z.to_nat z).
Proof.
  intros Hz. unfold pbit. destruct (div_join k (Z.to_nat z)) as [-> ->]; [lia|]. by rewrite Z2Nat.id by lia.
Qed.

(** Replacing a word of [p] so that its bits [o, o+t) come from [src] changes
    just the bits [k*64+o, k*64+o+t) of the plane. *)
Lemma pbit_field (p : plane) k o t (src : nat -> bool) w i :
  (k < length p)%nat -> (o + t <= 64)%nat ->
  (forall b : nat, (b < 64)%nat -> Z.testbit w (Z.of_nat b) =
     if ((o <=? b) && (b <? o + t))%nat then src (b - o)%nat else Z.testbit p.[k] (Z.of_nat b)) ->
  pbit (p.[k <- w]) i =
    if ((k * 64 + o <=? i) && (i <? k * 64 + o + t))%nat then src (i - (k * 64 + o))%nat else pbit p i.
Proof.
  intros Hk Ho Hw. rewrite pbit_insert by done. destruct (div64 i) as [Hi Hm].
  set (kk := (i / BITS_PER_WORD)%nat) in *. set (b := (i mod BITS_PER_WORD)%nat) in *.
  destruct (Nat.eqb_spec kk k) as [E|Hne].
  - rewrite Hw by done. rewrite <- Hi, E. replace (k * 64 + b - (k * 64 + o))%nat with (b - o)%nat by lia.
    destruct (Nat.leb_spec o b), (Nat.leb_spec (k * 64 + o) (k * 64 + b)); try lia; simpl;
      destruct (Nat.ltb_spec b (o + t)), (Nat.ltb_spec (k * 64 + b) (k * 64 + o + t)); try lia; try done;
      unfold pbit; by destruct (div_join k b Hm) as [-> ->].
  - destruct (Nat.leb_spec (k * 64 + o) i); simpl; [|done].
    destruct (Nat.ltb_spec i (k * 64 + o + t)); [|done]. nia.
Qed.

(** ** Single bits *)

Lemma set_word_bit (w : Z) (i b : nat) : (i < 64)%nat -> (b < 64)%nat ->
  Z.testbit (w .| (1 << i)) (Z.of_nat b) = (b =? i)%nat || Z.testbit w (Z.of_nat b).
Proof.
  intros. change 1 with (Z.b2z true). bits_simpl. rewrite testbit_b2z.
  destruct (Nat.eqb_spec b i); split_ltb; try lia; bits_finish.
Qed.

Lemma clear_word_bit (w : Z) (i b : nat) : (i < 64)%nat -> (b < 64)%nat ->
  Z.testbit (w .& .~ (1 << i)) (Z.of_nat b) = negb (b =? i)%nat && Z.testbit w (Z.of_nat b).
Proof.
  intros. change 1 with (Z.b2z true). bits_simpl. rewrite testbit_b2z.
  destruct (Nat.eqb_spec b i); split_ltb; try lia; bits_finish.
Qed.

Definition plane_set (p : plane) (i : nat) (b : bool) : plane :=
  let k := (i / BITS_PER_WORD)%nat in
  let mask := 1 << (i mod BITS_PER_WORD) in
  p.[k <- if b then p.[k] .| mask else p.[k] .& .~ mask].

Lemma set_bit_planes v i c : (i < size v)%nat ->
  set_bit v i c = Vec4 (size v) (plane_set (abits v) i (abit c)) (plane_set (bbits v) i (bbit c)).
Proof.
  intros Hi. unfold set_bit, plane_set.
  assert ((if is_long (size v) then i / BITS_PER_WORD else 0)%nat = (i / BITS_PER_WORD)%nat) as ->.
  { destruct (is_long (size v)) eqn:E; [done|]. apply is_short_spec in E.
    by destruct (div_small64 i) as [-> _]; [lia|]. }
  by destruct c.
Qed.

Lemma pbit_plane_set size_ (p : plane) i b j :
  plane_wf size_ p -> (i < size_)%nat ->
  pbit (plane_set p i b) j = if (j =? i)%nat then b else pbit p j.
Proof.
  intros [Hl Hw] Hi. pose proof (storage_index size_ i Hi). destruct (div64 i) as [Hd Hm].
  unfold plane_set. rewrite (pbit_field p (i / BITS_PER_WORD) (i mod BITS_PER_WORD) 1 (fun _ => b)).
  - rewrite Hd. destruct (Nat.eqb_spec j i), (Nat.leb_spec i j), (Nat.ltb_spec j (i + 1)); (done || lia).
  - lia.
  - lia.
  - intros k Hk. destruct b; rewrite ?set_word_bit, ?clear_word_bit by done;
      destruct (Nat.eqb_spec k (i mod BITS_PER_WORD)), (Nat.leb_spec (i mod BITS_PER_WORD) k),
        (Nat.ltb_spec k (i mod BITS_PER_WORD + 1)); simpl; (done || lia).
Qed.

Lemma plane_set_wf size_ p i b : plane_wf size_ p -> plane_wf size_ (plane_set p i b).
Proof.
  intros [Hl Hw]. split; unfold plane_set; [by rewrite insert_length|].
  destruct b; auto 6 with word.
Qed.

Lemma set_bit_value v i c j : vec_wf v -> (i < size v)%nat ->
  value (set_bit v i c) j = if (j =? i)%nat then c else value v j.
Proof.
  intros [Ha Hb] Hi. rewrite set_bit_planes, !value_bits by done. simpl.
  rewrite (pbit_plane_set (size v)), (pbit_plane_set (size v)) by done.
  destruct (Nat.eqb_spec j i) as [->|]; [|done].
  destruct (Nat.ltb_spec i (size v)); [apply mk_bit_parts|lia].
Qed.

Lemma set_bit_wf v i c : vec_wf v -> (i < size v)%nat -> vec_wf (set_bit v i c).
Proof.
  intros [Ha Hb] Hi. rewrite set_bit_planes by done. split; by apply plane_set_wf.
Qed.

Lemma set_bit_size v i c : size (set_bit v i c) = size v.
Proof. by destruct c. Qed.

(** ** Constant vectors *)

Lemma init_table_bit c b : 0 <= b < 64 ->
  Z.testbit (init_atable c) b = abit c /\ Z.testbit (init_btable c) b = bbit c.
Proof.
  intros Hb. assert (Z.testbit ones64 b = true) by (rewrite ones64_bit by lia; apply Z.ltb_lt; lia).
  destruct c; simpl; rewrite ?Z.bits_0; auto.
Qed.

Lemma is_word_init c : is_word (init_atable c) /\ is_word (init_btable c).
Proof. destruct c; split; simpl; auto with word. Qed.

Lemma allocate_wf n w : is_word w -> plane_wf n (allocate_words_ n w).
Proof.
  intros Hw. unfold plane_wf, allocate_words_, storage. destruct (is_long n).
  - rewrite length_replicate. auto with word.
  - split; [done|]. by constructor.
Qed.

Lemma allocate_bit n w i : (i < n)%nat ->
  pbit (allocate_words_ n w) i = Z.testbit w (Z.of_nat (i mod BITS_PER_WORD)).
Proof.
  intros Hi. unfold pbit, allocate_words_. pose proof (storage_index n i Hi) as Hs. unfold storage in Hs.
  destruct (is_long n) eqn:E; [by rewrite word_at_replicate|].
  assert (i / BITS_PER_WORD = 0)%nat as -> by lia. done.
Qed.

Lemma vec4_fill_wf n c : vec_wf (vec4_fill n c).
Proof. destruct (is_word_init c). split; by apply allocate_wf. Qed.

Lemma vec4_fill_value n c i : (i < n)%nat -> value (vec4_fill n c) i = c.
Proof.
  intros Hi. rewrite value_lt by done. simpl. rewrite !allocate_bit by done.
  destruct (div64 i). destruct (init_table_bit c (Z.of_nat (i mod BITS_PER_WORD))) as [-> ->]; [lia|].
  apply mk_bit_parts.
Qed.

Lemma vec4_fill_X n i : value (vec4_fill n BIT4_X) i = BIT4_X.
Proof. destruct (Nat.lt_ge_cases i n); [by apply vec4_fill_value|by apply value_beyond]. Qed.

Lemma pbit_word (p : plane) k x : (x < 64)%nat -> pbit p (k * 64 + x) = Z.testbit p.[k] (Z.of_nat x).
Proof. intros Hx. unfold pbit. by destruct (div_join k x Hx) as [-> ->]. Qed.

(** Case analysis on the comparisons of indexes. *)
Ltac nat_cases :=
  repeat match goal with
  | |- context [(?a <=? ?b)%nat] => destruct (Nat.leb_spec a b)
  | |- context [(?a <? ?b)%nat] => destruct (Nat.ltb_spec a b)
  | |- context [(?a =? ?b)%nat] => destruct (Nat.eqb_spec a b)
  end.

(** Well-formedness by computation. *)
Lemma vec_wf_dec_bool (v : vvp_vector4_t) :
  forallb (fun p => (length p =? storage (size v))%nat && forallb (fun w => (0 <=? w) && (w <? 2 ^ 64)) p)
    [abits v; bbits v] = true -> vec_wf v.
Proof.
  simpl. rewrite !andb_true_iff. intros ([Hla Ha] & [Hlb Hb] & _).
  assert (H : forall p, forallb (fun w => (0 <=? w) && (w <? 2 ^ 64)) p = true -> Forall is_word p).
  { intros p Hp. apply List.Forall_forall. intros w Hw. rewrite forallb_forall in Hp. specialize (Hp w Hw).
    apply andb_true_iff in Hp as [?%Z.leb_le ?%Z.ltb_lt]. done. }
  split; split; try (by apply Nat.eqb_eq); by apply H.
Qed.
