(* ===== verification/Vector4Ops.v ===== *)
(** * Vector4Ops: operators of the run-time vectors (vvp/vvp_net.h, vvp/vvp_net.cc)

    Addition, subtraction and multiplication with their single-word and
    multi-word branches, comparisons, tests, bitwise operators, reductions and
    conversions to native integers. *)

From S2P Require Import Prelude FourState Vector4.
Import Bit4.

Open Scope ivl_scope.

(** ** Words *)

(** [add_with_carry(unsigned long a, unsigned long b, unsigned long&carry)]: the
    sum and the new carry. *)
Definition add_with_carry_w (a b carry : Z) : Z * Z :=
  let tmp := add64 b carry in
  let sum := add64 a tmp in
  let carry := 0 in
  let carry := if tmp <? b then 1 else carry in
  let carry := if sum <? tmp then 1 else carry in
  let carry := if sum <? a then 1 else carry in
  (sum, carry).

(** [multiply_with_carry]: the low word of the product and the high one. *)
Definition multiply_with_carry (a b : Z) : Z * Z :=
  let half := 32%nat in
  let mask := low_mask half in
  let a0 := a .& mask in
  let a1 := (a >> half) .& mask in
  let b0 := b .& mask in
  let b1 := (b >> half) .& mask in
  let tmp := mul64 a0 b0 in
  let r00 := tmp .& mask in
  let c00 := (tmp >> half) .& mask in
  let tmp := mul64 a0 b1 in
  let r01 := tmp .& mask in
  let c01 := (tmp >> half) .& mask in
  let tmp := mul64 a1 b0 in
  let r10 := tmp .& mask in
  let c10 := (tmp >> half) .& mask in
  let tmp := mul64 a1 b1 in
  let r11 := tmp .& mask in
  let c11 := (tmp >> half) .& mask in
  let r1 := add64 (add64 c00 r01) r10 in
  let r2 := (r1 >> half) .& mask in
  let r1 := r1 .& mask in
  let r2 := add64 r2 (add64 (add64 c01 c10) r11) in
  let r3 := (r2 >> half) .& mask in
  let r2 := r2 .& mask in
  let r3 := add64 r3 c11 in
  let r3 := r3 .& mask in
  (add64 (r1 << half) r00, add64 (r3 << half) r2).

(** ** Addition and subtraction *)

(** [x_out]: every word x, the last one under its mask. *)
Definition x_out (this : vvp_vector4_t) : vvp_vector4_t :=
  let cnt := (size this / BITS_PER_WORD)%nat in
  let tail := (size this mod BITS_PER_WORD)%nat in
  let out w p :=
    let p := for_loop cnt 0 (fun idx p => p.[idx <- w]) p in
    if negb (tail =? 0)%nat then p.[cnt <- w .& .~ (ones64 << tail)] else p in
  Vec4 (size this) (out (init_atable BIT4_X) (abits this)) (out (init_btable BIT4_X) (bbits this)).

(** The common body of [add] and [sub]: [op] on single words; for arrays the
    carry chain from [carry] with the second operand passed through [inv]. *)
Definition add_sub (op : Z -> Z -> Z) (inv : Z -> Z) (carry : Z) (this that : vvp_vector4_t) : vvp_vector4_t :=
  let size_ := size this in
  let a := abits this in
  let b := bbits this in
  let a' := abits that in
  let b' := bbits that in
  if (size_ <? BITS_PER_WORD)%nat then
    let mask := .~ (ones64 << size_) in
    if negb ((b.[0] .| b'.[0]) .& mask =? 0)
    then Vec4 size_ a.[0 <- a.[0] .| mask] b.[0 <- b.[0] .| mask]
    else
      let a := a.[0 <- op a.[0] a'.[0]] in
      Vec4 size_ a.[0 <- a.[0] .& mask] b
  else if (size_ =? BITS_PER_WORD)%nat then
    if negb (b.[0] .| b'.[0] =? 0)
    then Vec4 size_ a.[0 <- init_atable BIT4_X] b.[0 <- init_btable BIT4_X]
    else Vec4 size_ a.[0 <- op a.[0] a'.[0]] b
  else
    let cnt := (size_ / BITS_PER_WORD)%nat in
    let tail := (size_ mod BITS_PER_WORD)%nat in
    let result :=
      '(a, carry) ←
        for_loop cnt 0 (fun idx s =>
          '(a, carry) ← s;
          if negb (b.[idx] .| b'.[idx] =? 0) then None
          else
            let '(w, carry) := add_with_carry_w a.[idx] (inv a'.[idx]) carry in
            Some (a.[idx <- w], carry)) (Some (a, carry));
      if negb (tail =? 0)%nat then
        let mask := .~ (ones64 << tail) in
        if negb ((b.[cnt] .| b'.[cnt]) .& mask =? 0) then None
        else
          let '(w, carry) := add_with_carry_w a.[cnt] (inv a'.[cnt]) carry in
          let a := a.[cnt <- w] in
          Some a.[cnt <- a.[cnt] .& mask]
      else Some a in
    match result with
    | Some a => Vec4 size_ a b
    | None => x_out this
    end.

(** [add] and [sub]; [None] when the assertion [size_ == that.size_] fails. *)
Definition vec4_add (this that : vvp_vector4_t) : option vvp_vector4_t :=
  if (size this =? size that)%nat then Some (add_sub add64 (fun w => w) 0 this that) else None.
Definition vec4_sub (this that : vvp_vector4_t) : option vvp_vector4_t :=
  if (size this =? size that)%nat then Some (add_sub sub64 not64 1 this that) else None.

(** ** Multiplication *)

(** The innermost loop: add [sum] at [base+1] and let the carry run to the top. *)
Definition mul_carry_up (cnt base : nat) (sum carry : Z) (res : plane) : plane :=
  fst (fst (for_loop (cnt - (base + 1)) (base + 1)
    (fun add_idx '(res, sum, carry) =>
       let '(w, carry) := add_with_carry_w (word_at res add_idx) sum carry in
       (res.[add_idx <- w], 0, carry)) (res, sum, carry))).

Definition mul_row (cnt mul_a : nat) (mask lval : Z) (a' : plane) (res : plane) : plane :=
  for_loop (cnt - mul_a) 0
    (fun mul_b res =>
       let rval := a'.[mul_b] in
       let rval := if (mul_b =? cnt - 1)%nat then rval .& mask else rval in
       let '(tmp, sum) := multiply_with_carry lval rval in
       let base := (mul_a + mul_b)%nat in
       let '(w, carry) := add_with_carry_w res.[base] tmp 0 in
       mul_carry_up cnt base sum carry res.[base <- w]) res.

Definition mul_words (cnt : nat) (mask : Z) (a a' : plane) : plane :=
  for_loop cnt 0
    (fun mul_a res =>
       let lval := a.[mul_a] in
       let lval := if (mul_a =? cnt - 1)%nat then lval .& mask else lval in
       mul_row cnt mul_a mask lval a' res) (replicate cnt 0).

(** [mul]; [None] when the assertion [size_ == that.size_] fails. *)
Definition vec4_mul (this that : vvp_vector4_t) : option vvp_vector4_t :=
  let size_ := size this in
  let a := abits this in
  let b := bbits this in
  let a' := abits that in
  let b' := bbits that in
  if negb (size_ =? size that)%nat then None
  else if (size_ <? BITS_PER_WORD)%nat then
    let mask := .~ (ones64 << size_) in
    if negb ((b.[0] .| b'.[0]) .& mask =? 0)
    then Some (Vec4 size_ a.[0 <- a.[0] .| mask] b.[0 <- b.[0] .| mask])
    else
      let a := a.[0 <- mul64 a.[0] a'.[0]] in
      Some (Vec4 size_ a.[0 <- a.[0] .& mask] b)
  else if (size_ =? BITS_PER_WORD)%nat then
    if negb (b.[0] =? 0) || negb (b'.[0] =? 0)
    then Some (Vec4 size_ a.[0 <- init_atable BIT4_X] b.[0 <- init_btable BIT4_X])
    else Some (Vec4 size_ a.[0 <- mul64 a.[0] a'.[0]] b)
  else
    let cnt := word_count size_ in
    let tail := (size_ mod BITS_PER_WORD)%nat in
    let mask := if negb (tail =? 0)%nat then .~ (ones64 << tail) else ones64 in
    let last idx w := if (idx =? cnt - 1)%nat then w .& mask else w in
    let xz :=
      existsb (fun idx => negb (last idx b.[idx] =? 0) || negb (last idx b'.[idx] =? 0)) (seq 0 cnt) in
    if xz then
      let out w p :=
        let p := for_loop (cnt - 1) 0 (fun xdx p => p.[xdx <- w]) p in
        p.[cnt - 1 <- w .& mask] in
      Some (Vec4 size_ (out (init_atable BIT4_X) a) (out (init_btable BIT4_X) b))
    else
      let res := mul_words cnt mask a a' in
      let res := res.[cnt - 1 <- res.[cnt - 1] .& mask] in
      Some (Vec4 size_ (for_loop cnt 0 (fun idx p => p.[idx <- res.[idx]]) a) b).

(** ** Tests *)

(** The common shape of [eeq] and [eq_xz]: compare the words [key a b], under a
    mask where the size ends inside a word. *)
Definition same_words (key : Z -> Z -> Z) (this that : vvp_vector4_t) : bool :=
  let ka i := key (abits this).[i] (bbits this).[i] in
  let ka' i := key (abits that).[i] (bbits that).[i] in
  let kb i := (bbits this).[i] in
  let kb' i := (bbits that).[i] in
  let under mask i := ((ka i .& mask) =? (ka' i .& mask)) && ((kb i .& mask) =? (kb' i .& mask)) in
  let size_ := size this in
  if negb (size_ =? size that)%nat then false
  else if (size_ <? BITS_PER_WORD)%nat then under (low_mask size_) 0%nat
  else if (size_ =? BITS_PER_WORD)%nat then (ka 0%nat =? ka' 0%nat) && (kb 0%nat =? kb' 0%nat)
  else
    let words := (size_ / BITS_PER_WORD)%nat in
    if negb (forallb (fun i => (ka i =? ka' i) && (kb i =? kb' i)) (seq 0 words)) then false
    else
      let rest := (size_ mod BITS_PER_WORD)%nat in
      if (0 <? rest)%nat then under (low_mask rest) words else true.

Definition eeq : vvp_vector4_t -> vvp_vector4_t -> bool := same_words (fun a _ => a).
Definition eq_xz : vvp_vector4_t -> vvp_vector4_t -> bool := same_words (fun a b => a .| b).

Definition has_xz (this : vvp_vector4_t) : bool :=
  let size_ := size this in
  let b := bbits this in
  if (size_ <? BITS_PER_WORD)%nat then
    negb (b.[0] .& (ones64 >> (BITS_PER_WORD - size_)) =? 0)
  else if (size_ =? BITS_PER_WORD)%nat then negb (b.[0] =? 0)
  else
    let words := (size_ / BITS_PER_WORD)%nat in
    if existsb (fun idx => negb (b.[idx] =? 0)) (seq 0 words) then true
    else
      let rest := (size_ mod BITS_PER_WORD)%nat in
      if (0 <? rest)%nat then negb (b.[words] .& (ones64 >> (BITS_PER_WORD - rest)) =? 0)
      else false.

(** ** Bitwise operators *)

(** A statement run on word 0, or on each of the words. *)
Definition each_word (size_ : nat) (f : nat -> plane * plane -> plane * plane) (s : plane * plane) : plane * plane :=
  if is_long size_ then for_loop (word_count size_) 0 f s else f 0%nat s.

Definition of_planes (size_ : nat) (s : plane * plane) : vvp_vector4_t := Vec4 size_ (fst s) (snd s).

Definition change_z2x (this : vvp_vector4_t) : vvp_vector4_t :=
  of_planes (size this)
    (each_word (size this) (fun idx '(a, b) => (a.[idx <- a.[idx] .| word_at b idx], b))
       (abits this, bbits this)).

Definition fill_bits (this : vvp_vector4_t) (bit : vvp_bit4_t) : vvp_vector4_t :=
  of_planes (size this)
    (each_word (size this) (fun idx '(a, b) => (a.[idx <- init_atable bit], b.[idx <- init_btable bit]))
       (abits this, bbits this)).

Definition invert (this : vvp_vector4_t) : vvp_vector4_t :=
  let size_ := size this in
  let b := bbits this in
  if negb (is_long size_) then
    let mask := if (size_ <? BITS_PER_WORD)%nat then low_mask size_ else ones64 in
    let a := (abits this).[0 <- mask .& .~ ((abits this).[0])] in
    Vec4 size_ a.[0 <- a.[0] .| b.[0]] b
  else
    let '(remaining, idx, a) :=
      whole_words size_ size_ 0
        (fun idx a => let a := a.[idx <- .~ (word_at a idx)] in a.[idx <- a.[idx] .| b.[idx]])
        (abits this) in
    let a :=
      if (0 <? remaining)%nat then
        let a := a.[idx <- low_mask remaining .& .~ (a.[idx])] in
        a.[idx <- a.[idx] .| b.[idx]]
      else a in
    Vec4 size_ a b.

Definition and_word (a b a' b' : Z) : Z * Z :=
  let tmp1 := a .| b in
  let tmp2 := a' .| b' in
  (tmp1 .& tmp2, (tmp1 .& b') .| (tmp2 .& b)).
Definition or_word (a b a' b' : Z) : Z * Z :=
  let tmp := a .| b .| a' .| b' in
  (tmp, ((.~ a .| b) .& b') .| ((.~ a' .| b') .& b)).
Definition xor_word (a b a' b' : Z) : Z * Z :=
  let bval := b .| b' in
  ((a .^ a') .| bval, bval).

Definition bitwise_op (f : Z -> Z -> Z -> Z -> Z * Z) (this that : vvp_vector4_t) : vvp_vector4_t :=
  of_planes (size this)
    (each_word (size this)
       (fun idx '(a, b) =>
          let '(wa, wb) := f (word_at a idx) (word_at b idx) (abits that).[idx] (bbits that).[idx] in
          (a.[idx <- wa], b.[idx <- wb])) (abits this, bbits this)).

Definition vec4_and := bitwise_op and_word.
Definition vec4_or := bitwise_op or_word.
Definition vec4_xor := bitwise_op xor_word.

(** ** Reductions *)

(** [BIT_MASK(n)] *)
Definition BIT_MASK (n : nat) : Z :=
  if negb (n =? 0)%nat then ones64 >> (BITS_PER_WORD - n) else ones64.

(** The loop over the words before the last: [inl] is an early return. *)
Fixpoint reduce_loop {A} (step : Z -> Z -> A -> vvp_bit4_t + A) (this : vvp_vector4_t) (n idx : nat) (res : A)
    : vvp_bit4_t + A :=
  match n with
  | O => inr res
  | Datatypes.S n' =>
    match step (abits this).[idx] (bbits this).[idx] res with
    | inl r => inl r
    | inr res => reduce_loop step this n' (Datatypes.S idx) res
    end
  end.

Definition or_step (a b : Z) (res : vvp_bit4_t) : vvp_bit4_t + vvp_bit4_t :=
  if negb (a .& .~ b =? 0) then inl BIT4_1
  else inr (if negb (b =? 0) then BIT4_X else res).

Definition reduce_or (this : vvp_vector4_t) : vvp_bit4_t :=
  let mask := BIT_MASK (size this mod BITS_PER_WORD) in
  let finish idx res :=
    let a := (abits this).[idx] in
    let b := (bbits this).[idx] in
    if negb (a .& .~ b .& mask =? 0) then BIT4_1
    else if negb (b .& mask =? 0) then BIT4_X
    else res in
  if negb (is_long (size this)) then finish 0%nat BIT4_0
  else
    let words := word_count (size this) in
    match reduce_loop or_step this (words - 1) 0 BIT4_0 with
    | inl r => r
    | inr res => finish (words - 1)%nat res
    end.

Definition and_step (a b : Z) (res : vvp_bit4_t) : vvp_bit4_t + vvp_bit4_t :=
  if negb (a .| b =? ones64) then inl BIT4_0
  else inr (if negb (b =? 0) then BIT4_X else res).

Definition reduce_and (this : vvp_vector4_t) : vvp_bit4_t :=
  let mask := BIT_MASK (size this mod BITS_PER_WORD) in
  let finish idx res :=
    let a := (abits this).[idx] in
    let b := (bbits this).[idx] in
    if negb (a .| b .| .~ mask =? ones64) then BIT4_0
    else if negb (b .& mask =? 0) then BIT4_X
    else res in
  if negb (is_long (size this)) then finish 0%nat BIT4_1
  else
    let words := word_count (size this) in
    match reduce_loop and_step this (words - 1) 0 BIT4_1 with
    | inl r => r
    | inr res => finish (words - 1)%nat res
    end.

(** [__builtin_parityl]: whether the number of one bits is odd. *)
Definition parity (val : Z) : bool :=
  foldr (fun i acc => xorb (Z.testbit val (Z.of_nat i)) acc) false (seq 0 BITS_PER_WORD).

Definition xor_step (a b : Z) (val_a : Z) : vvp_bit4_t + Z :=
  if negb (b =? 0) then inl BIT4_X else inr (val_a .^ a).

Definition reduce_xor (this : vvp_vector4_t) : vvp_bit4_t :=
  let mask := BIT_MASK (size this mod BITS_PER_WORD) in
  let finish idx val_a :=
    let a := (abits this).[idx] in
    let b := (bbits this).[idx] in
    if negb (b .& mask =? 0) then BIT4_X
    else if parity (val_a .^ (a .& mask)) then BIT4_1 else BIT4_0 in
  if negb (is_long (size this)) then
    if negb ((bbits this).[0] .& mask =? 0) then BIT4_X
    else if parity ((abits this).[0] .& mask) then BIT4_1 else BIT4_0
  else
    let words := word_count (size this) in
    match reduce_loop xor_step this (words - 1) 0 0 with
    | inl r => r
    | inr val_a => finish (words - 1)%nat val_a
    end.

(** ** Native integers *)

(** The loop of [operator += (int64_t)]: [n] bits left, from [idx] up. *)
Fixpoint incr_loop (n idx : nat) (this : vvp_vector4_t) (that : Z) (carry : vvp_bit4_t) : vvp_vector4_t :=
  match n with
  | O => this
  | Datatypes.S n' =>
    if (that =? 0) && bool_decide (carry = BIT4_0) then this
    else
      let that_bit := if Z.land that 1 =? 0 then BIT4_0 else BIT4_1 in
      let that := Z.shiftr that 1 in
      if bool_decide (that_bit = BIT4_0) && bool_decide (carry = BIT4_0)
      then incr_loop n' (Datatypes.S idx) this that carry
      else
        let '(bit, carry) := add_with_carry (value this idx) that_bit carry in
        incr_loop n' (Datatypes.S idx) (set_bit this idx bit) that carry
  end.

(** [operator += (int64_t)] *)
Definition vec4_incr (this : vvp_vector4_t) (that : Z) : vvp_vector4_t :=
  if has_xz this then vec4_fill (size this) BIT4_X
  else incr_loop (size this) 0 this that BIT4_0.

(** The loop of [vector4_to_value], into the integer type of [w] bits: [n] bits
    left, [None] for the early return. *)
Fixpoint to_value_loop (w : Z) (vec : vvp_vector4_t) (is_arithmetic : bool) (n idx : nat) (res msk : Z)
    (rc_flag : bool) : option (Z * bool) :=
  match n with
  | O => Some (res, rc_flag)
  | Datatypes.S n' =>
    let msk' := (msk * 2) mod 2 ^ w in
    match value vec idx with
    | BIT4_0 => to_value_loop w vec is_arithmetic n' (Datatypes.S idx) res msk' rc_flag
    | BIT4_1 => to_value_loop w vec is_arithmetic n' (Datatypes.S idx) (Z.lor res msk) msk' rc_flag
    | _ =>
      if is_arithmetic then None
      else to_value_loop w vec is_arithmetic n' (Datatypes.S idx) res msk' false
    end
  end.

(** [vector4_to_value<INT>(vec, val, is_signed, is_arithmetic)] for an [INT] of
    [w] bits: the bit pattern stored in [val], with the returned flag; [None]
    when it returns false without storing. *)
Definition vector4_to_value (w : nat) (vec : vvp_vector4_t) (is_signed is_arithmetic : bool) : option (Z * bool) :=
  let wz := Z.of_nat w in
  let size_ := if (w <? size vec)%nat then w else size vec in
  '(res, rc_flag) ← to_value_loop wz vec is_arithmetic size_ 0 0 (1 mod 2 ^ wz) true;
  let res :=
    if is_signed && bool_decide (value vec (size vec - 1) = BIT4_1) && (size vec <? w)%nat
    then Z.lor res ((ones64 << size vec) mod 2 ^ wz) else res in
  Some (res, rc_flag).

(** [vector4_to_value<T>(vec, overflow_flag, val)], for the unsigned types of 64
    bits it is instantiated with: the value and the overflow flag. *)
Fixpoint to_value_overflow_loop (vec : vvp_vector4_t) (n idx : nat) (res msk : Z) (overflow_flag : bool)
    : option (Z * bool) :=
  match n with
  | O => Some (res, overflow_flag)
  | Datatypes.S n' =>
    match value vec idx with
    | BIT4_0 => to_value_overflow_loop vec n' (Datatypes.S idx) res (msk << 1) overflow_flag
    | BIT4_1 =>
      if msk =? 0 then to_value_overflow_loop vec n' (Datatypes.S idx) res (msk << 1) true
      else to_value_overflow_loop vec n' (Datatypes.S idx) (res .| msk) (msk << 1) overflow_flag
    | _ => None
    end
  end.

Definition vector4_to_value_overflow (vec : vvp_vector4_t) : option (Z * bool) :=
  to_value_overflow_loop vec (size vec) 0 0 1 false.

(** ** Comparisons *)

(** [for (idx = hi; idx > lo; idx -= 1) if (v.value(idx-1) == BIT4_1) return ...] *)
Fixpoint any_one (v : vvp_vector4_t) (n lo : nat) : bool :=
  match n with
  | O => false
  | Datatypes.S n' => bool_decide (value v (lo + n') = BIT4_1) || any_one v n' lo
  end.

Fixpoint compare_loop (lef rig : vvp_vector4_t) (idx : nat) (out_if_equal : vvp_bit4_t) : vvp_bit4_t :=
  match idx with
  | O => out_if_equal
  | Datatypes.S i =>
    let lv := value lef i in
    let rv := value rig i in
    if bool_decide (lv = rv) then compare_loop lef rig i out_if_equal
    else if bool_decide (lv = BIT4_1) then BIT4_1
    else BIT4_0
  end.

Definition compare_gtge (lef rig : vvp_vector4_t) (out_if_equal : vvp_bit4_t) : vvp_bit4_t :=
  let min_size := if (size rig <? size lef)%nat then size rig else size lef in
  if (min_size =? 0)%nat then BIT4_X
  else if has_xz lef then BIT4_X
  else if has_xz rig then BIT4_X
  else if any_one lef (size lef - size rig) (size rig) then BIT4_1
  else if any_one rig (size rig - size lef) (size lef) then BIT4_0
  else compare_loop lef rig min_size out_if_equal.

(** [compare_gtge_signed]; [None] when the assertion [a.size() == b.size()] fails. *)
Definition compare_gtge_signed (a b : vvp_vector4_t) (out_if_equal : vvp_bit4_t) : option vvp_bit4_t :=
  if negb (size a =? size b)%nat then None
  else
    let sign_idx := (size a - 1)%nat in
    let a_sign := value a sign_idx in
    let b_sign := value b sign_idx in
    Some
      (if bit4_is_xz a_sign then BIT4_X
       else if bit4_is_xz b_sign then BIT4_X
       else if bool_decide (a_sign = b_sign) then compare_gtge a b out_if_equal
       else if has_xz a then BIT4_X
       else if has_xz b then BIT4_X
       else if bool_decide (a_sign = BIT4_0) then BIT4_1
       else BIT4_0).
