(* ===== verification/Vector4Parts.v ===== *)
(** * Vector4Parts: part selects and part writes

    Each of the word-parallel algorithms of vvp_net.cc (aligned, unaligned,
    short, long) is shown to be the bit-by-bit operation it implements. *)

From S2P Require Import Prelude FourState Vector4 Vector4Value.
Import Bit4.

Open Scope ivl_scope.

(** ** Part writes: [set_vec] *)

(** [s] is the destination [p0] after the bits [0, n) of [q] went to
    [adr, adr+n), with the change flag. *)
Record put_upto (size_ : nat) (p0 q : plane) (adr n : nat) (s : bool * plane) : Prop := {
  pu_wf : plane_wf size_ (snd s);
  pu_bits : forall i, pbit (snd s) i =
    if ((adr <=? i) && (i <? adr + n))%nat then pbit q (i - adr) else pbit p0 i;
  pu_flag : fst s = true <-> exists i, (i < n)%nat /\ pbit p0 (adr + i) <> pbit q i }.

Lemma put_upto_start size_ p0 q adr : plane_wf size_ p0 -> put_upto size_ p0 q adr 0 (false, p0).
Proof.
  intros H. constructor; [done| |].
  - intros i. destruct (Nat.leb_spec adr i), (Nat.ltb_spec i (adr + 0)); simpl; (done || lia).
  - split; [done|]. intros (i & Hi & _). lia.
Qed.

(** What a step of [t] bits into the field [o] of word [k] must supply. *)
Record field_args (q : plane) (n o t : nat) (mask tmp : Z) : Prop := {
  fa_word : is_word mask /\ is_word tmp;
  fa_range : (o + t <= 64)%nat;
  fa_mask : forall b : nat, (b < 64)%nat ->
    Z.testbit mask (Z.of_nat b) = ((o <=? b) && (b <? o + t))%nat;
  fa_tmp : forall b : nat, (b < 64)%nat ->
    Z.testbit tmp (Z.of_nat b) = ((o <=? b) && (b <? o + t))%nat && pbit q (n + (b - o)) }.

Section PutStep.
Context (size_ : nat) (p0 q p : plane) (flag : bool) (adr n k o t : nat) (mask tmp : Z).
Context (Hp : put_upto size_ p0 q adr n (flag, p)) (Hk : (k < storage size_)%nat).
Context (Ho : (k * 64 + o = adr + n)%nat) (Hf : field_args q n o t mask tmp).

Lemma put_field_old b : (o <= b < o + t)%nat ->
  Z.testbit p.[k] (Z.of_nat b) = pbit p0 (adr + (n + (b - o))).
Proof using Hp Hk Ho Hf.
  intros Hlt. destruct Hf as [_ Hr _ _]. rewrite word_bit, Nat2Z.id, (pu_bits _ _ _ _ _ _ Hp) by lia.
  destruct (Nat.leb_spec adr (k * 64 + b)), (Nat.ltb_spec (k * 64 + b) (adr + n)); simpl; try lia; f_equal; lia.
Qed.

(** The test of the code: the field already holds the source bits. *)
Lemma put_field_same :
  Z.land p.[k] mask = tmp <-> forall b, (b < t)%nat -> pbit p0 (adr + (n + b)) = pbit q (n + b).
Proof using Hp Hk Ho Hf.
  destruct Hf as [[Hwm Hwt] Hr Hm Ht], (pu_wf _ _ _ _ _ _ Hp) as [Hl Hw]. simpl in *. split.
  - intros E b Hlt. specialize (Hm (o + b)%nat ltac:(lia)). specialize (Ht (o + b)%nat ltac:(lia)).
    rewrite <- E, Z.land_spec, Hm, put_field_old in Ht by lia. replace (o + b - o)%nat with b in Ht by lia.
    destruct (Nat.leb_spec o (o + b)), (Nat.ltb_spec (o + b) (o + t)); simpl in Ht; try lia.
    by rewrite andb_true_r in Ht.
  - intros E. apply word_ext; [auto with word|done|]. intros z Hz.
    replace z with (Z.of_nat (Z.to_nat z)) by lia. set (b := Z.to_nat z).
    rewrite Z.land_spec, Hm, Ht by lia.
    destruct (Nat.leb_spec o b), (Nat.ltb_spec b (o + t)); simpl; rewrite ?andb_false_r; try done.
    rewrite andb_true_r, put_field_old, E by lia. done.
Qed.

Lemma put_field_differs : Z.land p.[k] mask <> tmp ->
  exists i, (i < n + t)%nat /\ pbit p0 (adr + i) <> pbit q i.
Proof using Hp Hk Ho Hf.
  intros E. destruct (decide (Forall (fun b => pbit p0 (adr + (n + b)) = pbit q (n + b)) (seq 0 t))) as [Hall|Hn].
  - exfalso. apply E, put_field_same. intros b Hlt. rewrite List.Forall_forall in Hall. apply Hall, in_seq. lia.
  - apply not_Forall_Exists in Hn; [|apply _]. apply List.Exists_exists in Hn as (b & Hin & Hne).
    apply in_seq in Hin. exists (n + b)%nat. split; [lia|done].
Qed.

Lemma put_word_bits i :
  pbit (p.[k <- (p.[k] .& .~ mask) .| tmp]) i =
    if ((adr <=? i) && (i <? adr + (n + t)))%nat then pbit q (i - adr) else pbit p0 i.
Proof using Hp Hk Ho Hf.
  destruct Hf as [_ Hr Hm Ht], (pu_wf _ _ _ _ _ _ Hp) as [Hl Hw]. simpl in *.
  rewrite (pbit_field p k o t (fun b => pbit q (n + b))); [|lia|done|].
  - rewrite (pu_bits _ _ _ _ _ _ Hp), Ho.
    destruct (Nat.leb_spec (adr + n) i), (Nat.ltb_spec i (adr + n + t)),
      (Nat.leb_spec adr i), (Nat.ltb_spec i (adr + (n + t))), (Nat.ltb_spec i (adr + n)); simpl; try lia; try done.
    f_equal. lia.
  - intros b Hlt. rewrite Z.lor_spec, Z.land_spec, not64_bit, Hm, Ht by lia.
    destruct (Z.ltb_spec (Z.of_nat b) 64); [|lia].
    destruct ((o <=? b) && (b <? o + t))%nat; simpl;
      [by rewrite andb_false_r|by rewrite andb_true_r, orb_false_r].
Qed.

Lemma put_keep_bits i : Z.land p.[k] mask = tmp ->
  pbit (p.[k <- p.[k]]) i =
    if ((adr <=? i) && (i <? adr + (n + t)))%nat then pbit q (i - adr) else pbit p0 i.
Proof using Hp Hk Ho Hf.
  intros E. destruct (pu_wf _ _ _ _ _ _ Hp) as [Hl Hw]. simpl in *. rewrite pbit_insert by lia.
  transitivity (pbit p i); [destruct (Nat.eqb_spec (i / BITS_PER_WORD) k) as [<-|]; done|].
  rewrite (pu_bits _ _ _ _ _ _ Hp).
  destruct (Nat.leb_spec adr i), (Nat.ltb_spec i (adr + n)), (Nat.ltb_spec i (adr + (n + t)));
    simpl; try lia; try done.
  pose proof (proj1 put_field_same E (i - adr - n)%nat ltac:(lia)) as H2.
  replace (adr + (n + (i - adr - n)))%nat with i in H2 by lia. rewrite H2. f_equal. lia.
Qed.

Lemma put_step_aux : put_upto size_ p0 q adr (n + t) (put_at k mask tmp (flag, p)).
Proof using Hp Hk Ho Hf.
  destruct (fa_word _ _ _ _ _ _ Hf) as [Hwm Hwt]. destruct (pu_wf _ _ _ _ _ _ Hp) as [Hl Hw]. simpl in *.
  pose proof (pu_flag _ _ _ _ _ _ Hp) as Hfl. simpl in Hfl.
  unfold put_at, put_word. destruct (Z.eqb_spec (Z.land p.[k] mask) tmp) as [E|E]; simpl; constructor; simpl.
  - split; [by rewrite insert_length|]. auto with word.
  - intros i. by apply put_keep_bits.
  - rewrite orb_false_r, Hfl. split; [intros (i & Hi & Hne); exists i; split; [lia|done]|].
    intros (i & Hi & Hne). exists i. split; [|done]. destruct (Nat.lt_ge_cases i n); [done|]. exfalso.
    apply Hne. replace i with (n + (i - n))%nat by lia. apply (proj1 put_field_same E). lia.
  - split; [by rewrite insert_length|]. auto 8 with word.
  - apply put_word_bits.
  - rewrite orb_true_r. split; [|done]. intros _. by apply put_field_differs.
Qed.
End PutStep.

Lemma put_step size_ p0 q adr n k o t mask tmp s :
  put_upto size_ p0 q adr n s -> (k < storage size_)%nat -> (k * 64 + o = adr + n)%nat ->
  field_args q n o t mask tmp ->
  put_upto size_ p0 q adr (n + t) (put_at k mask tmp s).
Proof. destruct s. apply put_step_aux. Qed.

(** Writing a whole word is the step with a full mask. *)
Lemma put_whole_at k w s : is_word w -> Forall is_word (snd s) -> (k < length (snd s))%nat ->
  put_whole k w s = put_at k ones64 w s.
Proof.
  destruct s as [flag p]. simpl. intros Hw Hp Hk. unfold put_whole, put_at, put_word.
  assert (Hid : Z.land p.[k] ones64 = p.[k]).
  { apply word_ext; [auto with word..|]. intros i Hi. rewrite Z.land_spec, ones64_bit by lia.
    destruct (Z.ltb_spec i 64); [by rewrite andb_true_r|lia]. }
  assert (H0 : (p.[k] .& .~ ones64) .| w = w).
  { apply word_ext; [auto with word..|]. intros i Hi. bits_solve. }
  rewrite Hid, H0. destruct (Z.eqb_spec p.[k] w) as [E|E].
  - rewrite orb_false_r. f_equal. symmetry. apply list_insert_id. unfold word_at.
    by destruct (lookup_lt_is_Some_2 p k Hk) as [x ->].
  - by rewrite orb_true_r.
Qed.

(** The masks and shifted words of [set_vec]. *)
Ltac field_bits :=
  intros; bits_simpl; nat_cases; split_ltb; try lia; cbn [andb orb negb];
  rewrite ?andb_false_r, ?andb_true_r, ?orb_false_r; try done;
  rewrite ?pbit_word by lia; try (f_equal; lia).

Definition high_mask (hshift : nat) : Z :=
  if (BITS_PER_WORD <=? hshift)%nat then ones64 else low_mask hshift.

Lemma high_mask_bit h b : 0 <= b < 64 -> Z.testbit (high_mask h) b = (b <? Z.of_nat h).
Proof.
  intros Hb. unfold high_mask. destruct (Nat.leb_spec BITS_PER_WORD h) as [Hh|Hh]; unfold BITS_PER_WORD in Hh.
  - rewrite ones64_bit by lia. destruct (Z.ltb_spec b 64), (Z.ltb_spec b (Z.of_nat h)); (done || lia).
  - apply low_mask_bit; lia.
Qed.

Lemma is_word_high_mask h : is_word (high_mask h).
Proof. unfold high_mask. destruct (_ <=? _)%nat; auto with word. Qed.
#[export] Hint Resolve is_word_high_mask : word.

Lemma field_low q s o r : Forall is_word q -> (o < 64)%nat ->
  let mask := high_mask (o + r) .& .~ (low_mask o) in
  field_args q (s * 64) o (Nat.min r (64 - o)) mask ((q.[s] << o) .& mask).
Proof.
  intros Hq Ho. cbv zeta. constructor; [split; auto with word|lia| |].
  - intros b Hb. rewrite Z.land_spec, high_mask_bit by lia. field_bits.
  - intros b Hb. rewrite !Z.land_spec, high_mask_bit by lia. field_bits.
Qed.

Lemma field_tail q s o r : Forall is_word q -> (o < 64)%nat -> (r <= 64)%nat -> (64 < o + r)%nat ->
  let tail := (o + r - BITS_PER_WORD)%nat in
  field_args q (s * 64 + (64 - o)) 0 tail (low_mask tail) ((q.[s] >> (r - tail)) .& low_mask tail).
Proof.
  intros Hq Ho Hr Hor. cbv zeta. unfold BITS_PER_WORD.
  constructor; [split; auto with word|lia| |]; intros b Hb.
  - field_bits.
  - rewrite <- Nat.add_assoc. field_bits.
Qed.

Lemma field_rest q s r : Forall is_word q -> (r < 64)%nat ->
  field_args q (s * 64) 0 r (low_mask r) (q.[s] .& low_mask r).
Proof. intros Hq Hr. constructor; [split; auto with word|lia| |]; intros b Hb; field_bits. Qed.

Lemma field_whole q s : Forall is_word q -> field_args q (s * 64) 0 64 ones64 q.[s].
Proof. intros Hq. constructor; [split; auto with word|lia| |]; intros b Hb; field_bits. Qed.

Lemma field_split_low q s o : Forall is_word q -> (0 < o < 64)%nat ->
  field_args q (s * 64) o (64 - o) (.~ (low_mask o)) ((q.[s] << o) .& .~ (low_mask o)).
Proof. intros Hq Ho. constructor; [split; auto with word|lia| |]; intros b Hb; field_bits. Qed.

Lemma field_split_high q s o : Forall is_word q -> (0 < o < 64)%nat ->
  field_args q (s * 64 + (64 - o)) 0 o (low_mask o) ((q.[s] >> (BITS_PER_WORD - o)) .& low_mask o).
Proof.
  intros Hq Ho. unfold BITS_PER_WORD. constructor; [split; auto with word|lia| |]; intros b Hb.
  - field_bits.
  - rewrite <- Nat.add_assoc. field_bits.
Qed.

Section SetPlane.
Context (size_ that_size adr : nat) (q p : plane).
Context (Hq : plane_wf that_size q) (Hp : plane_wf size_ p).
Context (Hfit : (adr + that_size <= size_)%nat) (Hpos : (0 < that_size)%nat).

Let inv := put_upto size_ p q adr.

(** The last, partial word, possibly spilling into the next. *)
Lemma set_last n k s o r st :
  inv n st -> (n + r = that_size)%nat -> n = (s * 64)%nat -> (o < 64)%nat -> (0 < r <= 64)%nat ->
  (k * 64 + o = adr + n)%nat ->
  let mask := high_mask (o + r) .& .~ (low_mask o) in
  let st1 := put_at k mask ((q.[s] << o) .& mask) st in
  inv that_size
    (if (BITS_PER_WORD <? o + r)%nat then
       let tail := (o + r - BITS_PER_WORD)%nat in
       put_at (k + 1) (low_mask tail) ((q.[s] >> (r - tail)) .& low_mask tail) st1
     else st1).
Proof using Hq Hp Hfit Hpos.
  intros Hst Hn -> Ho Hr Hk. cbv zeta. destruct Hq as [_ Hqw].
  assert (k < storage size_)%nat.
  { pose proof (storage_index size_ (adr + s * 64)) as H. rewrite <- Hk in H.
    destruct (div_join k o Ho) as [E _]. rewrite E in H. apply H. lia. }
  pose proof (put_step _ _ _ _ _ k o _ _ _ _ Hst ltac:(done) Hk (field_low q s o r Hqw Ho)) as H1.
  destruct (Nat.ltb_spec BITS_PER_WORD (o + r)) as [Hlt|Hge]; unfold BITS_PER_WORD in Hlt || unfold BITS_PER_WORD in Hge.
  - rewrite Nat.min_r in H1 by lia.
    assert (k + 1 < storage size_)%nat.
    { pose proof (storage_index size_ (adr + that_size - 1) ltac:(lia)) as H2.
      replace (adr + that_size - 1)%nat with ((k + 1) * 64 + (o + r - 64 - 1))%nat in H2 by lia.
      destruct (div_join (k + 1) (o + r - 64 - 1)) as [E _]; [lia|]. by rewrite E in H2. }
    pose proof (put_step _ _ _ _ _ (k + 1) 0 _ _ _ _ H1 ltac:(done) ltac:(lia)
      (field_tail q s o r Hqw Ho ltac:(lia) Hlt)) as H3.
    replace (s * 64 + (64 - o) + (o + r - BITS_PER_WORD))%nat with that_size in H3
      by (unfold BITS_PER_WORD; lia). exact H3.
  - rewrite Nat.min_l in H1 by lia. by rewrite Hn in H1.
Qed.

Lemma set_short_dest : is_long size_ = false -> inv that_size (set_plane size_ that_size adr q p).
Proof using Hq Hp Hfit Hpos.
  intros Hs. unfold set_plane. rewrite Hs. cbn [negb]. apply is_short_spec in Hs.
  fold (high_mask (adr + that_size)). pose proof (put_upto_start size_ p q adr Hp) as H0.
  pose proof (set_last 0 0 0 adr that_size (false, p) H0 ltac:(lia) ltac:(lia) ltac:(lia) ltac:(lia) ltac:(lia)) as H.
  cbv zeta in H. destruct (Nat.ltb_spec BITS_PER_WORD (adr + that_size)); [unfold BITS_PER_WORD in *; lia|]. exact H.
Qed.

Lemma set_short_source : is_long size_ = true -> is_long that_size = false ->
  inv that_size (set_plane size_ that_size adr q p).
Proof using Hq Hp Hfit Hpos.
  intros Hs Ht. unfold set_plane. rewrite Hs, Ht. cbn [negb]. apply is_short_spec in Ht.
  destruct (div64 adr) as [Ha Hm]. pose proof (put_upto_start size_ p q adr Hp) as H0.
  set (o := (adr mod BITS_PER_WORD)%nat) in *. set (k := (adr / BITS_PER_WORD)%nat) in *.
  fold (high_mask (o + that_size)).
  apply (set_last 0 k 0 o that_size (false, p) H0); lia.
Qed.

Lemma set_aligned : is_long size_ = true -> is_long that_size = true -> (adr mod BITS_PER_WORD = 0)%nat ->
  inv that_size (set_plane size_ that_size adr q p).
Proof using Hq Hp Hfit Hpos.
  intros Hs Ht Ha. unfold set_plane. rewrite Hs, Ht, Ha. cbn [negb]. rewrite Nat.eqb_refl.
  destruct (div64 adr) as [Hd _]. rewrite Ha in Hd. set (k := (adr / BITS_PER_WORD)%nat) in *.
  rewrite whole_words_eq by lia. destruct (div64 that_size) as [Hr Hr64].
  set (w := (that_size / BITS_PER_WORD)%nat) in *. set (r := (that_size mod BITS_PER_WORD)%nat) in *.
  assert (Hk : forall j, (j * 64 < that_size)%nat -> (k + j < storage size_)%nat).
  { intros j Hj. pose proof (storage_index size_ (adr + j * 64) ltac:(lia)) as H.
    replace (adr + j * 64)%nat with ((k + j) * 64 + 0)%nat in H by lia.
    destruct (div_join (k + j) 0) as [E _]; [lia|]. by rewrite E in H. }
  assert (Hloop : inv (w * 64) (for_loop w 0 (fun sptr s => put_whole (k + sptr) q.[sptr] s) (false, p))).
  { apply (for_loop_ind (fun j s => inv (j * 64) s) w 0); [by apply put_upto_start|].
    intros j s Hj Hs'. destruct (pu_wf _ _ _ _ _ _ Hs') as [Hls Hws]. specialize (Hk j ltac:(lia)).
    rewrite put_whole_at; [|destruct Hq; auto with word|done|lia].
    replace (S j * 64)%nat with (j * 64 + 64)%nat by lia.
    apply (put_step _ _ _ _ _ (k + j) 0 64); [done|done|lia|]. apply field_whole, Hq. }
  rewrite Nat.add_0_l. destruct (Nat.ltb_spec 0 r).
  - replace that_size with (w * 64 + r)%nat by lia.
    apply (put_step _ _ _ _ _ (k + w) 0 r); [done|apply Hk; lia|lia|]. apply field_rest; [apply Hq|done].
  - by replace that_size with (w * 64)%nat by lia.
Qed.

Lemma set_unaligned : is_long size_ = true -> is_long that_size = true -> (adr mod BITS_PER_WORD <> 0)%nat ->
  inv that_size (set_plane size_ that_size adr q p).
Proof using Hq Hp Hfit Hpos.
  intros Hs Ht Ha. unfold set_plane. rewrite Hs, Ht. cbn [negb].
  rewrite (proj2 (Nat.eqb_neq _ _)) by done.
  destruct (div64 adr) as [Hd Hd64]. set (k := (adr / BITS_PER_WORD)%nat) in *.
  set (o := (adr mod BITS_PER_WORD)%nat) in *.
  rewrite whole_words_eq by lia. destruct (div64 that_size) as [Hr Hr64].
  set (w := (that_size / BITS_PER_WORD)%nat) in *. set (r := (that_size mod BITS_PER_WORD)%nat) in *.
  assert (Hk : forall j x, (x < 64)%nat -> (j * 64 + x < adr + that_size)%nat -> (j < storage size_)%nat).
  { intros j x Hx Hj. pose proof (storage_index size_ (j * 64 + x) ltac:(lia)) as H.
    destruct (div_join j x Hx) as [E _]. by rewrite E in H. }
  assert (Hloop : inv (w * 64) (for_loop w 0 (fun sptr s => put_unaligned o (low_mask o) q.[sptr] (k + sptr) s) (false, p))).
  { apply (for_loop_ind (fun j s => inv (j * 64) s) w 0); [by apply put_upto_start|].
    intros j s Hj Hs'. unfold put_unaligned. replace (S j * 64)%nat with (j * 64 + (64 - o) + o)%nat by lia.
    apply (put_step _ _ _ _ _ (k + j + 1) 0 o); [|apply (Hk _ 0%nat); lia|lia|apply field_split_high; [apply Hq|lia]].
    apply (put_step _ _ _ _ _ (k + j) o (64 - o)); [done|apply (Hk _ o); lia|lia|apply field_split_low; [apply Hq|lia]]. }
  rewrite Nat.add_0_l. fold (high_mask (o + r)). destruct (Nat.ltb_spec 0 r).
  - pose proof (set_last (w * 64) (k + w) w o r _ Hloop ltac:(lia) eq_refl Hd64 ltac:(lia) ltac:(lia)) as H2.
    cbv zeta in *. destruct (Nat.leb_spec BITS_PER_WORD (o + r - BITS_PER_WORD));
      [unfold BITS_PER_WORD in *; lia|exact H2].
  - by replace that_size with (w * 64)%nat by lia.
Qed.

Lemma set_plane_spec : inv that_size (set_plane size_ that_size adr q p).
Proof using Hq Hp Hfit Hpos.
  destruct (is_long size_) eqn:Hs; [|by apply set_short_dest].
  destruct (is_long that_size) eqn:Ht; [|by apply set_short_source].
  destruct (decide (adr mod BITS_PER_WORD = 0)%nat); [by apply set_aligned|by apply set_unaligned].
Qed.
End SetPlane.

(** ** Part selects: [subvalue] *)

(** The bits of a word made of the top of one source word and the bottom of the
    next. *)
Lemma straddle_bit (q : plane) k off b :
  (b < 64)%nat -> (off < 64)%nat ->
  pbit q (k * 64 + off + b) =
    if (off + b <? 64)%nat then Z.testbit q.[k] (Z.of_nat (off + b))
    else Z.testbit q.[k + 1] (Z.of_nat (off + b - 64)).
Proof.
  intros Hb Ho. destruct (Nat.ltb_spec (off + b) 64).
  - rewrite <- Nat.add_assoc. by rewrite pbit_word.
  - replace (k * 64 + off + b)%nat with ((k + 1) * 64 + (off + b - 64))%nat by lia. by rewrite pbit_word by lia.
Qed.

Section SubLoop.
Context (q : plane) (k0 off wid : nat) (Hoff : (off < 64)%nat).
Let noff := (BITS_PER_WORD - off)%nat.

Lemma sub_low_bit (w : Z) (b : nat) : (b < noff)%nat ->
  Z.testbit ((w .& .~ (low_mask off)) >> off) (Z.of_nat b) = Z.testbit w (Z.of_nat (off + b)).
Proof using Hoff.
  unfold noff, BITS_PER_WORD. intros Hb. bits_simpl. split_ltb; try lia.
  rewrite andb_true_r. f_equal. lia.
Qed.

Lemma sub_pair_bit (w w' : Z) (b : nat) : (0 < off)%nat -> (b < 64)%nat -> is_word w ->
  Z.testbit (((w .& .~ (low_mask off)) >> off) .| ((w' .& low_mask off) << noff)) (Z.of_nat b) =
    if (off + b <? 64)%nat then Z.testbit w (Z.of_nat (off + b))
    else Z.testbit w' (Z.of_nat (off + b - 64)).
Proof using Hoff.
  unfold noff, BITS_PER_WORD. intros H0 Hb Hw. bits_simpl.
  destruct (Nat.ltb_spec (off + b) 64).
  - split_ltb; try lia; cbn [andb orb negb]; rewrite ?andb_false_r, ?andb_true_r, ?orb_false_r; f_equal; lia.
  - rewrite (word_high w) by (done || lia). split_ltb; try lia. cbn [andb orb negb].
    rewrite low_mask_bit by lia. split_ltb; [|lia]. rewrite andb_true_r. f_equal. lia.
Qed.

Definition sub_done (n : nat) (p : plane) : Prop :=
  plane_wf wid p /\ forall i, (i < n)%nat -> (i < wid)%nat -> pbit p i = pbit q (k0 * 64 + off + i).

Lemma sub_word p dst w n :
  sub_done (dst * 64) p -> is_word w -> (dst * 64 < wid)%nat -> (n <= 64)%nat ->
  (forall b, (b < n)%nat -> Z.testbit w (Z.of_nat b) = pbit q (k0 * 64 + off + (dst * 64 + b))) ->
  sub_done (dst * 64 + n) (p.[dst <- w]).
Proof using Hoff.
  intros [[Hl Hw] Hp] Hww Hd Hn Hb.
  pose proof (storage_word wid dst Hd).
  split; [split; [by rewrite insert_length|auto with word]|]. intros i Hi Hiw.
  rewrite pbit_insert by lia. destruct (div64 i) as [Hd1 Hd2].
  destruct (Nat.eqb_spec (i / BITS_PER_WORD) dst) as [E|E].
  - rewrite Hb by nia. f_equal. nia.
  - apply Hp; nia.
Qed.

Lemma sub_done_mono n m p : sub_done n p -> (m <= n)%nat \/ (wid <= n)%nat -> sub_done m p.
Proof using Hoff. intros [Hw Hp] Hm. split; [done|]. intros i Hi Hiw. apply Hp; lia. Qed.

Lemma sub_loop_spec fuel : forall dst p,
  Forall is_word q -> sub_done (dst * 64) p -> (wid <= dst * 64 + fuel * 64)%nat ->
  sub_done wid (sub_loop fuel q off noff (low_mask off) wid (dst * 64) dst (k0 + dst) p).
Proof using Hoff.
  induction fuel as [|fuel IH]; intros dst p Hq Hp Hf; cbn [sub_loop].
  { eapply sub_done_mono; [exact Hp|lia]. }
  destruct (Nat.ltb_spec (dst * 64) wid) as [Hlt|Hge]; [|eapply sub_done_mono; [exact Hp|lia]].
  assert (Hlow : forall b, (b < noff)%nat ->
    Z.testbit ((q.[k0 + dst] .& .~ (low_mask off)) >> off) (Z.of_nat b) = pbit q (k0 * 64 + off + (dst * 64 + b))).
  { intros b Hb. rewrite sub_low_bit by done. rewrite <- pbit_word by (unfold noff, BITS_PER_WORD in Hb; lia).
    f_equal. lia. }
  assert (Hww : is_word ((q.[k0 + dst] .& .~ (low_mask off)) >> off))
    by (apply is_word_shr; [lia|auto with word]).
  pose proof (sub_word p dst _ noff Hp Hww Hlt
    ltac:(unfold noff, BITS_PER_WORD; lia) Hlow) as H1.
  destruct (Nat.leb_spec wid (dst * 64 + noff)); [eapply sub_done_mono; [exact H1|lia]|].
  destruct (Nat.eqb_spec noff BITS_PER_WORD) as [E|E].
  - assert (off = 0)%nat as E0 by (unfold noff, BITS_PER_WORD in E; lia).
    replace (dst * 64 + noff)%nat with ((dst + 1) * 64)%nat in * by (unfold BITS_PER_WORD in E; lia).
    replace (k0 + dst + 1)%nat with (k0 + (dst + 1))%nat by lia. apply IH; [done|done|lia].
  - assert (0 < off)%nat as E0 by (unfold noff, BITS_PER_WORD in E; lia).
    replace (dst * 64 + noff + off)%nat with ((dst + 1) * 64)%nat by (unfold noff, BITS_PER_WORD in *; lia).
    replace (k0 + dst + 1)%nat with (k0 + (dst + 1))%nat by lia. apply IH; [done| |lia].
    destruct Hp as [[Hl Hw] Hpb]. pose proof (storage_word wid dst Hlt).
    rewrite word_at_insert, Nat.eqb_refl, list_insert_insert_eq by lia.
    replace ((dst + 1) * 64)%nat with (dst * 64 + 64)%nat by lia.
    apply sub_word; [done| |done|lia|].
    + apply is_word_lor; [apply is_word_shr; [lia|auto with word]|auto with word].
    + intros b Hb. rewrite sub_pair_bit by (auto with word || lia).
      replace (k0 * 64 + off + (dst * 64 + b))%nat with ((k0 + dst) * 64 + off + b)%nat by lia.
      rewrite straddle_bit by lia. by rewrite <- Nat.add_assoc.
Qed.
End SubLoop.

Lemma shl_mask_bit n s b : (n + s <= 64)%nat -> (b < 64)%nat ->
  Z.testbit (low_mask n << s) (Z.of_nat b) = ((s <=? b) && (b <? n + s))%nat.
Proof.
  intros Hn Hb. rewrite shl64_bit by lia. nat_cases; split_ltb; try lia; try done; simpl;
    rewrite low_mask_bit by lia; split_ltb; (done || lia).
Qed.

(** The part-select constructor when the part is inside the source. *)
Lemma sub_plane_spec that_size adr wid (q p : plane) :
  plane_wf that_size q -> plane_wf wid p -> (adr + wid <= that_size)%nat -> (adr < that_size)%nat ->
  let r := sub_plane that_size adr wid q p in
  plane_wf wid r /\ forall i, (i < wid)%nat -> pbit r i = pbit q (adr + i).
Proof.
  intros [Hql Hqw] [Hpl Hpw] Hfit Hadr. cbv zeta. unfold sub_plane.
  destruct (div64 adr) as [Hd Hm]. set (k := (adr / BITS_PER_WORD)%nat) in *.
  set (off := (adr mod BITS_PER_WORD)%nat) in *.
  destruct (is_long wid) eqn:Ew.
  { pose proof (word_count_bounds wid).
    destruct (sub_loop_spec q k off wid Hm (word_count wid) 0 p) as [H1 H2]; [done| |lia|].
    - split; [done|]. intros i Hi. lia.
    - rewrite Nat.add_0_r in H1, H2. split; [exact H1|]. intros i Hi. rewrite H2, Hd by done. done. }
  apply is_short_spec in Ew.
  assert (Hone : forall w, is_word w -> (forall b, (b < wid)%nat -> Z.testbit w (Z.of_nat b) = pbit q (adr + b)) ->
    plane_wf wid p.[0 <- w] /\ forall i, (i < wid)%nat -> pbit p.[0 <- w] i = pbit q (adr + i)).
  { intros w Hw Hb. split; [split; [by rewrite insert_length|auto with word]|]. intros i Hi.
    pose proof (storage_bound wid). rewrite pbit_insert by lia.
    destruct (div_small64 i) as [-> ->]; [lia|]. simpl. by apply Hb. }
  destruct (is_long that_size) eqn:Et.
  - set (trans := if (wid <? BITS_PER_WORD - off)%nat then wid else (BITS_PER_WORD - off)%nat).
    assert (Htr : trans = Nat.min wid (64 - off)).
    { unfold trans, BITS_PER_WORD. destruct (Nat.ltb_spec wid (64 - off)); lia. }
    assert (Hmask : forall b, (b < 64)%nat -> Z.testbit (low_mask trans << off) (Z.of_nat b) =
      ((off <=? b) && (b <? trans + off))%nat) by (intros b Hb; apply shl_mask_bit; lia).
    destruct (Nat.eqb_spec trans BITS_PER_WORD) as [E|E]; unfold BITS_PER_WORD in E.
    + apply Hone; [auto with word|]. intros b Hb. rewrite <- Hd. rewrite straddle_bit by lia.
      destruct (Nat.ltb_spec (off + b) 64); [f_equal; lia|lia].
    + set (w := (q.[k] .& (low_mask trans << off)) >> off).
      assert (Hww : is_word w) by (apply is_word_shr; [lia|auto with word]).
      assert (Hw : forall b, (b < 64)%nat -> Z.testbit w (Z.of_nat b) =
        (b <? trans)%nat && Z.testbit q.[k] (Z.of_nat (off + b))).
      { intros b Hb. unfold w. rewrite shr64_bit, Z.land_spec by lia.
        replace (Z.of_nat b + Z.of_nat off) with (Z.of_nat (off + b)) by lia.
        destruct (Nat.lt_ge_cases (off + b) 64).
        - rewrite Hmask by done. rewrite andb_comm. nat_cases; try lia; done.
        - rewrite (word_high q.[k]) by (auto with word || lia). by rewrite andb_false_r. }
      destruct (Nat.ltb_spec trans wid) as [Hlt|Hge].
      * apply Hone; [auto with word|]. intros b Hb. rewrite <- Hd, straddle_bit, Z.lor_spec, Hw by lia.
        bits_simpl. nat_cases; split_ltb; try lia; cbn [andb orb];
          rewrite ?low_mask_bit, ?orb_false_r by lia; split_ltb; rewrite ?andb_true_r; try lia; try done; f_equal; lia.
      * apply Hone; [done|]. intros b Hb. rewrite <- Hd, straddle_bit, Hw by lia. nat_cases; try lia; done.
  - apply is_short_spec in Et. destruct (Nat.eqb_spec wid BITS_PER_WORD) as [E|E]; unfold BITS_PER_WORD in E.
    + apply Hone; [auto with word|]. intros b Hb. assert (adr = 0)%nat as -> by lia.
      rewrite <- (pbit_word q 0 b) by lia. done.
    + apply Hone; [apply is_word_shr; [lia|auto with word]|]. intros b Hb.
      replace (adr + b)%nat with (0 * 64 + (adr + b))%nat by lia. rewrite pbit_word by lia.
      rewrite shr64_bit, Z.land_spec by lia.
      replace (Z.of_nat b + Z.of_nat adr) with (Z.of_nat (adr + b)) by lia.
      rewrite shl_mask_bit by lia. nat_cases; try lia. by rewrite andb_true_r.
Qed.

(** Copying bit by bit, for a part that runs past the end of the source. *)
Lemma sub_partial that adr wid n :
  (n <= wid)%nat ->
  let r := for_loop n 0 (fun idx this => set_bit this idx (value that (adr + idx))) (vec4_fill wid BIT4_X) in
  vec_wf r /\ size r = wid /\
  forall i, (i < wid)%nat -> value r i = if (i <? n)%nat then value that (adr + i) else BIT4_X.
Proof.
  intros Hn. cbv zeta.
  apply (for_loop_ind (fun k r => vec_wf r /\ size r = wid /\
    forall i, (i < wid)%nat -> value r i = if (i <? k)%nat then value that (adr + i) else BIT4_X) n 0).
  - split; [apply vec4_fill_wf|]. split; [done|]. intros i Hi. by apply vec4_fill_value.
  - intros k r Hk (Hw & Hs & Hv). split; [apply set_bit_wf; (done || lia)|].
    rewrite set_bit_size. split; [done|]. intros i Hi. rewrite set_bit_value, Hv by (done || lia).
    nat_cases; subst; (done || lia).
Qed.

(** ** Properties *)

Lemma set_vec_spec (this that : vvp_vector4_t) (adr : nat) :
  vec_wf this -> vec_wf that -> (adr + size that <= size this)%nat -> (0 < size that)%nat ->
  exists r diff_flag, set_vec this adr that = Some (r, diff_flag) /\
    vec_wf r /\ size r = size this /\
    (forall i, (i < size this)%nat -> value r i =
       if ((adr <=? i) && (i <? adr + size that))%nat then value that (i - adr) else value this i) /\
    (diff_flag = true <-> exists i, (i < size this)%nat /\ value r i <> value this i).
Proof.
  intros [Ha Hb] [Ha' Hb'] Hfit Hpos. unfold set_vec. rewrite (proj2 (Nat.leb_le _ _) Hfit).
  pose proof (set_plane_spec _ _ adr _ _ Ha' Ha Hfit Hpos) as [Hwa Hpa Hfa].
  pose proof (set_plane_spec _ _ adr _ _ Hb' Hb Hfit Hpos) as [Hwb Hpb Hfb].
  destruct (set_plane _ _ _ (abits that) _) as [fa a], (set_plane _ _ _ (bbits that) _) as [fb b].
  simpl in *. eexists _, _. split; [done|]. split; [done|]. split; [done|].
  assert (Hv : forall i, (i < size this)%nat -> value (Vec4 (size this) a b) i =
    if ((adr <=? i) && (i <? adr + size that))%nat then value that (i - adr) else value this i).
  { intros i Hi. rewrite !value_bits. simpl. rewrite Hpa, Hpb. nat_cases; simpl; (done || lia). }
  split; [exact Hv|].
  assert (Hin : forall i, (i < size that)%nat -> value (Vec4 (size this) a b) (adr + i) = value that i).
  { intros i Hi. rewrite Hv by lia. nat_cases; try lia. simpl. f_equal. lia. }
  rewrite orb_true_iff, Hfa, Hfb. split.
  - intros [(i & Hi & Hne)|(i & Hi & Hne)]; exists (adr + i)%nat; (split; [lia|]);
      rewrite Hin, !value_lt by lia; intros E; apply Hne;
      [apply (f_equal abit) in E|apply (f_equal bbit) in E]; rewrite ?abit_mk, ?bbit_mk in E; done.
  - intros (i & Hi & Hne). rewrite Hv in Hne by done.
    destruct (Nat.leb_spec adr i), (Nat.ltb_spec i (adr + size that)); simpl in Hne; try done.
    rewrite !value_lt in Hne by lia.
    destruct (decide (pbit (abits this) i = pbit (abits that) (i - adr))) as [E|E].
    + right. exists (i - adr)%nat. split; [lia|]. replace (adr + (i - adr))%nat with i by lia. congruence.
    + left. exists (i - adr)%nat. split; [lia|]. by replace (adr + (i - adr))%nat with i by lia.
Qed.

(** C17. [set_vec] writes the source over the addressed part, leaves every other
    bit, and returns true exactly when some bit of the vector changed, in the
    short, spanning, aligned and unaligned cases alike. *)
Theorem set_vec_correct (this that : vvp_vector4_t) (adr : nat) :
  vec_wf this -> vec_wf that -> (adr + size that <= size this)%nat -> (0 < size that)%nat ->
  exists r diff_flag, set_vec this adr that = Some (r, diff_flag) /\
    vec_wf r /\ size r = size this /\
    (forall i, (i < size this)%nat -> value r i =
       if ((adr <=? i) && (i <? adr + size that))%nat then value that (i - adr) else value this i) /\
    (diff_flag = true <-> exists i, (i < size this)%nat /\ value r i <> value this i).
Proof. apply set_vec_spec. Qed.

Lemma subvalue_spec (that : vvp_vector4_t) (adr wid : nat) :
  vec_wf that ->
  vec_wf (subvalue that adr wid) /\ size (subvalue that adr wid) = wid /\
  forall i, (i < wid)%nat -> value (subvalue that adr wid) i = value that (adr + i).
Proof.
  intros [Ha Hb]. unfold subvalue. destruct (Nat.leb_spec (size that) adr) as [Hle|Hlt].
  { split; [apply vec4_fill_wf|]. split; [done|]. intros i Hi.
    by rewrite vec4_fill_X, value_beyond by lia. }
  destruct (Nat.ltb_spec (size that) (adr + wid)) as [Hp|Hfit].
  - destruct (sub_partial that adr wid (size that - adr)) as (Hw & Hs & Hv); [lia|].
    split; [exact Hw|]. split; [exact Hs|]. intros i Hi. rewrite Hv by done.
    destruct (Nat.ltb_spec i (size that - adr)); [done|]. by rewrite value_beyond by lia.
  - destruct (vec4_fill_wf wid BIT4_X) as [Hfa Hfb].
    destruct (sub_plane_spec _ adr wid _ _ Ha Hfa Hfit Hlt) as [Hwa Hpa].
    destruct (sub_plane_spec _ adr wid _ _ Hb Hfb Hfit Hlt) as [Hwb Hpb].
    split; [done|]. split; [done|]. intros i Hi. rewrite !value_lt by (simpl; lia). simpl.
    by rewrite Hpa, Hpb.
Qed.

(** C23. A part select returns the selected bits, and x for every bit selected
    beyond the end of the source. *)
Theorem subvalue_correct (that : vvp_vector4_t) (adr wid : nat) :
  vec_wf that ->
  vec_wf (subvalue that adr wid) /\ size (subvalue that adr wid) = wid /\
  forall i, (i < wid)%nat -> value (subvalue that adr wid) i = value that (adr + i).
Proof. apply subvalue_spec. Qed.

(** A 200-bit vector of the bits of [z], the top 2 of them z. *)
Definition sample (z : Z) : vvp_vector4_t :=
  Vec4 200 (map (fun k => Z.shiftr z (64 * Z.of_nat k) mod 2 ^ 64) (seq 0 4)) [0; 0; 0; 192].

Lemma set_vec_correct_witness :
  exists r flag, set_vec (sample (2 ^ 150 - 1)) 37 (vec4_fill 100 BIT4_Z) = Some (r, flag) /\
    value r 136 = BIT4_Z /\ value r 137 = BIT4_1.
Proof.
  destruct (set_vec_correct (sample (2 ^ 150 - 1)) (vec4_fill 100 BIT4_Z) 37) as (r & f & E & _ & _ & Hv & _).
  - apply vec_wf_dec_bool. vm_compute. reflexivity.
  - apply vec_wf_dec_bool. vm_compute. reflexivity.
  - apply Nat.leb_le. reflexivity.
  - apply Nat.ltb_lt. reflexivity.
  - exists r, f. split; [exact E|]. rewrite !Hv by (apply Nat.ltb_lt; reflexivity).
    split; vm_compute; reflexivity.
Defined.

Lemma subvalue_correct_witness :
  value (subvalue (sample 5) 195 10) 4 = BIT4_Z /\ value (subvalue (sample 5) 195 10) 5 = BIT4_X.
Proof.
  destruct (subvalue_correct (sample 5) 195 10) as (_ & _ & H).
  - apply vec_wf_dec_bool. vm_compute. reflexivity.
  - rewrite !H by (apply Nat.ltb_lt; reflexivity). split; vm_compute; reflexivity.
Defined.
