(* ===== verification/Vector4Copy.v ===== *)
(** * Vector4Copy: copying, resizing and moving vectors

    [copy_bits], [resize] and [mov] of vvp_net.cc,
    with the copy the code gets wrong (a 64-bit source and a longer
    destination). *)

From S2P Require Import Prelude FourState Vector4 Vector4Value Vector4Parts.
Import Bit4.

Open Scope ivl_scope.

(** ** Copy loops *)

(** The first [n] words come from [q]. *)
Lemma copy_words n (p q : plane) :
  (n <= length p)%nat ->
  let r := for_loop n 0 (fun idx (p : plane) => p.[idx <- q.[idx]]) p in
  length r = length p /\ (forall k, r.[k] = if (k <? n)%nat then q.[k] else p.[k]) /\
  (Forall is_word p -> Forall is_word q -> Forall is_word r).
Proof.
  intros Hn. destruct (loop_words (fun k _ => q.[k]) n 0 p Hn) as (H1 & H2 & H3).
  split; [exact H1|]. split; [exact H2|]. intros Hp Hq. apply H3; [done|]. intros; auto with word.
Qed.

Lemma word_index_lt n k i : (k * 64 = n)%nat -> (i / BITS_PER_WORD <? k)%nat = (i <? n)%nat.
Proof. intros <-. destruct (div64 i). nat_cases; (done || nia). Qed.

(** The low [t] bits of word [k] replaced under a low mask. *)
Lemma low_field_bit (p q : plane) k t i :
  (k < length p)%nat -> (t <= 64)%nat ->
  pbit (p.[k <- (p.[k] .& .~ (low_mask t)) .| (q.[k] .& low_mask t)]) i =
    if ((k * 64 <=? i) && (i <? k * 64 + t))%nat then pbit q i else pbit p i.
Proof.
  intros Hk Ht. rewrite (pbit_field p k 0 t (fun b => pbit q (k * 64 + b))); [|done|lia|].
  - rewrite Nat.add_0_r. nat_cases; simpl; try done. f_equal. lia.
  - intros b Hb. rewrite Nat.sub_0_r, pbit_word by done. field_bits.
Qed.

Definition copied (size_ that_size : nat) (p q r : plane) : Prop :=
  plane_wf size_ r /\
  forall i, (i < size_)%nat -> pbit r i = if (i <? that_size)%nat then pbit q i else pbit p i.

Section CopyPlane.
Context (size_ that_size : nat) (p q : plane).
Context (Hp : plane_wf size_ p) (Hq : plane_wf that_size q).

Lemma copy_one_word w : is_long size_ = false -> is_word w ->
  (forall b, (b < size_)%nat -> Z.testbit w (Z.of_nat b) = if (b <? that_size)%nat then pbit q b else pbit p b) ->
  copied size_ that_size p q p.[0 <- w].
Proof using Hp.
  intros Hs Hw Hb. destruct Hp as [Hl Hpw]. pose proof (storage_bound size_).
  split; [split; [by rewrite insert_length|auto with word]|]. intros i Hi. apply is_short_spec in Hs.
  rewrite pbit_insert by lia. destruct (div_small64 i) as [-> ->]; [lia|]. simpl. by apply Hb.
Qed.

Lemma copy_same_size : size_ = that_size -> copied size_ that_size p q (copy_plane size_ that_size p q).
Proof using Hp Hq.
  intros E. unfold copy_plane. rewrite (proj2 (Nat.eqb_eq _ _) E). destruct (is_long size_) eqn:Hs.
  - destruct Hp as [Hl Hpw]. unfold storage in Hl. rewrite Hs in Hl.
    destruct (copy_words (word_count size_) p q) as (H1 & H2 & H3); [lia|].
    split; [split; [unfold storage; rewrite Hs; congruence|apply H3; [done|apply Hq]]|].
    intros i Hi. rewrite <- E. destruct (Nat.ltb_spec i size_); [|lia]. apply pbit_words_eq. rewrite H2.
    pose proof (storage_index size_ i Hi) as Hw. unfold storage in Hw. rewrite Hs in Hw.
    by destruct (Nat.ltb_spec (i / BITS_PER_WORD) (word_count size_)); [|lia].
  - apply copy_one_word; [done|destruct Hq; auto with word|].
    intros b Hb. apply is_short_spec in Hs. destruct (Nat.ltb_spec b that_size); [|lia].
    rewrite <- (pbit_word q 0 b) by lia. done.
Qed.

Lemma copy_short_short : size_ <> that_size -> is_long size_ = false -> is_long that_size = false ->
  copied size_ that_size p q (copy_plane size_ that_size p q).
Proof using Hp Hq.
  intros E Hs Ht. unfold copy_plane. rewrite (proj2 (Nat.eqb_neq _ _) E), Hs, Ht. simpl negb. cbv iota.
  destruct Hp as [Hl Hpw], Hq as [_ Hqw]. apply copy_one_word; [done|repeat case_match; auto 8 with word|].
  apply is_short_spec in Hs, Ht. intros b Hb.
  set (n := if (that_size <? size_)%nat then that_size else size_).
  assert (Hn : n = Nat.min that_size size_) by (unfold n; destruct (Nat.ltb_spec that_size size_); lia).
  set (m := if (n <? BITS_PER_WORD)%nat then low_mask n else sub64 0 1).
  assert (Hm : Z.testbit m (Z.of_nat b) = (b <? that_size)%nat).
  { unfold m. destruct (Nat.ltb_spec n BITS_PER_WORD) as [H|H]; unfold BITS_PER_WORD in H; [|lia].
    rewrite low_mask_bit by lia. nat_cases; split_ltb; (done || lia). }
  rewrite Z.lor_spec, !Z.land_spec, not64_bit, Hm by lia.
  rewrite <- (pbit_word p 0 b), <- (pbit_word q 0 b) by lia. simpl.
  destruct (Z.ltb_spec (Z.of_nat b) 64); [|lia]. destruct (b <? that_size)%nat; simpl;
    rewrite ?andb_false_r, ?andb_true_r, ?orb_false_r; done.
Qed.

Lemma copy_short_long : is_long size_ = false -> is_long that_size = true ->
  copied size_ that_size p q (copy_plane size_ that_size p q).
Proof using Hp Hq.
  intros Hs Ht. pose proof (proj1 (is_short_spec _) Hs). pose proof (proj1 (is_long_spec _) Ht).
  unfold copy_plane. rewrite (proj2 (Nat.eqb_neq _ _)), Hs, Ht by lia. simpl. destruct Hq as [_ Hqw].
  apply copy_one_word; [done|case_match; auto with word|]. intros b Hb.
  destruct (Nat.ltb_spec b that_size); [|lia]. rewrite <- (Nat.add_0_l b), <- (Nat.mul_0_l 64).
  rewrite pbit_word by lia. simpl.
  destruct (Nat.ltb_spec size_ BITS_PER_WORD) as [Hw|Hw]; unfold BITS_PER_WORD in Hw; [|done].
  rewrite Z.land_spec, low_mask_bit by lia. split_ltb; [by rewrite andb_true_r|lia].
Qed.

Lemma copy_long_short : is_long size_ = true -> (that_size < 64)%nat ->
  copied size_ that_size p q (copy_plane size_ that_size p q).
Proof using Hp Hq.
  intros Hs Ht. pose proof (proj1 (is_long_spec _) Hs). pose proof (proj2 (is_short_spec that_size) ltac:(lia)) as Ht'.
  unfold copy_plane. rewrite (proj2 (Nat.eqb_neq _ _)), Hs, Ht' by lia. simpl.
  rewrite (proj2 (Nat.ltb_lt that_size BITS_PER_WORD)) by (unfold BITS_PER_WORD; lia).
  destruct Hp as [Hl Hpw], Hq as [_ Hqw]. pose proof (storage_bound size_).
  split; [split; [by rewrite insert_length|auto 8 with word]|]. intros i Hi.
  rewrite low_field_bit by lia. simpl. done.
Qed.

Lemma copy_long_long : size_ <> that_size -> is_long size_ = true -> is_long that_size = true ->
  copied size_ that_size p q (copy_plane size_ that_size p q).
Proof using Hp Hq.
  intros E Hs Ht. unfold copy_plane. rewrite (proj2 (Nat.eqb_neq _ _) E), Hs, Ht. simpl negb. cbv iota. simpl andb. cbv iota.
  assert (Hn : (if (that_size <? size_)%nat then that_size else size_) = Nat.min that_size size_)
    by (destruct (Nat.ltb_spec that_size size_); lia). rewrite Hn. clear Hn.
  set (n := Nat.min that_size size_). rewrite whole_words_eq by lia.
  destruct (div64 n) as [Hd Hm]. set (w := (n / BITS_PER_WORD)%nat) in *. set (r := (n mod BITS_PER_WORD)%nat) in *.
  destruct Hp as [Hl Hpw], Hq as [_ Hqw].
  assert (Hstore : forall k, (k * 64 < n)%nat -> (k < length p)%nat).
  { intros k Hk. rewrite Hl. apply storage_word. unfold n in *. lia. }
  destruct (copy_words w p q) as (H1 & H2 & H3).
  { destruct w as [|w']; [lia|]. apply Hstore. lia. }
  set (p' := for_loop w 0 _ p) in *.
  assert (Hb : forall i, pbit p' i = if (i <? w * 64)%nat then pbit q i else pbit p i).
  { intros i. rewrite <- (word_index_lt (w * 64) w) by lia. unfold pbit. rewrite H2. by destruct (_ <? w)%nat. }
  destruct (Nat.ltb_spec 0 r).
  - split; [split; [by rewrite insert_length; congruence|auto 8 with word]|]. intros i Hi.
    rewrite low_field_bit, Hb by (rewrite ?H1; try apply Hstore; lia). nat_cases; simpl; try lia; done.
  - split; [split; [congruence|auto]|]. intros i Hi. rewrite Hb. nat_cases; (done || lia).
Qed.

Lemma copy_plane_spec : ~ (is_long size_ = true /\ that_size = 64%nat) ->
  copied size_ that_size p q (copy_plane size_ that_size p q).
Proof using Hp Hq.
  intros Hbug. destruct (decide (size_ = that_size)); [by apply copy_same_size|].
  destruct (is_long size_) eqn:Hs, (is_long that_size) eqn:Ht.
  - by apply copy_long_long.
  - apply is_short_spec in Ht. apply copy_long_short; [done|].
    destruct (decide (that_size = 64%nat)); [by destruct Hbug|lia].
  - by apply copy_short_long.
  - by apply copy_short_short.
Qed.
End CopyPlane.

(** ** [resize] *)

Section ResizePlane.
Context (size_ newsize : nat) (pad : Z) (p : plane) (padbit : bool).
Context (Hp : plane_wf size_ p) (Hpad : is_word pad).
Context (Hbit : forall b, 0 <= b < 64 -> Z.testbit pad b = padbit).

Definition resized (r : plane) : Prop :=
  plane_wf newsize r /\
  forall i, (i < newsize)%nat -> pbit r i = if (i <? size_)%nat then pbit p i else padbit.

Let cnt := word_count size_.
Let fill := (size_ mod BITS_PER_WORD)%nat.
Let pad_last (q : plane) : plane :=
  if negb (fill =? 0)%nat then
    let q := q.[cnt - 1 <- q.[cnt - 1] .& .~ (ones64 << fill)] in
    q.[cnt - 1 <- q.[cnt - 1] .| (pad << fill)]
  else q.

Lemma size_split : size_ = (size_ / BITS_PER_WORD * 64 + fill)%nat /\ (fill < 64)%nat /\
  cnt = (size_ / BITS_PER_WORD + (if (fill =? 0)%nat then 0 else 1))%nat.
Proof using All.
  destruct (div64 size_) as [H1 H2]. fold fill in H1, H2. split; [done|]. split; [done|].
  unfold cnt. pose proof (word_count_bounds size_). destruct (Nat.eqb_spec fill 0); lia.
Qed.

(** Padding the last partial word sets the bits from [size_] to its end. *)
Lemma pad_last_spec (q : plane) : (cnt - 1 < length q)%nat -> Forall is_word q ->
  length (pad_last q) = length q /\ Forall is_word (pad_last q) /\
  forall i, pbit (pad_last q) i =
    if ((size_ <=? i) && (i <? cnt * 64))%nat then padbit else pbit q i.
Proof using All.
  intros Hl Hq. destruct size_split as (Hs & Hf & Hc). unfold pad_last.
  destruct (Nat.eqb_spec fill 0) as [E|E]; simpl.
  - split; [done|]. split; [done|]. intros i. nat_cases; simpl; (done || lia).
  - rewrite !insert_length. split; [done|]. split; [auto 8 with word|]. intros i.
    rewrite word_at_insert, Nat.eqb_refl, list_insert_insert_eq by done.
    rewrite (pbit_field q (cnt - 1) fill (64 - fill) (fun _ => padbit)); [|done|lia|].
    + nat_cases; simpl; (done || lia).
    + intros b Hb. rewrite Z.lor_spec, Z.land_spec, not64_bit, !shl64_bit by lia.
      nat_cases; split_ltb; try lia; simpl; rewrite ?andb_true_r, ?orb_false_r; try done.
      rewrite ones64_bit, Hbit by lia. split_ltb; [|lia]. simpl. by rewrite andb_false_r.
Qed.

(** Widening within the words already owned. *)
Lemma resize_in_place : is_long newsize = true -> word_count newsize = cnt -> (size_ <= newsize)%nat ->
  is_long size_ = true -> resized (if (size_ <? newsize)%nat then pad_last p else p).
Proof using All.
  intros Hn Hc Hle Hs. destruct Hp as [Hl Hw].
  assert (Hst : storage newsize = storage size_) by (unfold storage; by rewrite Hn, Hs).
  pose proof (word_count_bounds newsize) as [_ Hcov]. rewrite Hc in Hcov.
  assert (Hlen : length p = cnt) by (rewrite Hl; unfold storage; by rewrite Hs).
  pose proof (storage_bound size_).
  destruct (Nat.ltb_spec size_ newsize).
  - destruct (pad_last_spec p) as (H1 & H2 & H3); [lia|done|].
    split; [split; [congruence|done]|]. intros i Hi. rewrite H3. nat_cases; simpl; (done || lia).
  - split; [split; [congruence|done]|]. intros i Hi. nat_cases; (done || lia).
Qed.

Lemma resize_narrow_short : is_long newsize = false -> resized
  [if (size_ <? newsize)%nat then (p.[0] .& .~ (ones64 << size_)) .| (pad << size_) else p.[0]].
Proof using All.
  intros Hn. destruct Hp as [Hl Hw]. pose proof (proj1 (is_short_spec _) Hn).
  split.
  - split; [unfold storage; by rewrite Hn|]. constructor; [|done]. destruct (_ <? _)%nat; auto 8 with word.
  - intros i Hi. unfold pbit at 1. destruct (div_small64 i) as [-> ->]; [lia|]. unfold word_at at 1. simpl.
    assert (Hpi : Z.testbit p.[0] (Z.of_nat i) = pbit p i) by (rewrite <- (pbit_word p 0 i) by lia; done).
    destruct (Nat.ltb_spec size_ newsize) as [Hlt|Hge].
    + rewrite Z.lor_spec, Z.land_spec, not64_bit, !shl64_bit, Hpi by lia.
      nat_cases; split_ltb; try lia; simpl; rewrite ?andb_true_r, ?orb_false_r; try done.
      rewrite ones64_bit, Hbit by lia. split_ltb; [|lia]. simpl. by rewrite andb_false_r.
    + nat_cases; (done || lia).
Qed.

(** A new array: the old words, the padded one, and words of padding. *)
Lemma resize_realloc : is_long newsize = true -> word_count newsize <> cnt -> resized
  (let newcnt := word_count newsize in
   let newbits := replicate newcnt 0 in
   let newbits :=
     if (1 <? cnt)%nat then
       let trans := if (newcnt <? cnt)%nat then newcnt else cnt in
       for_loop trans 0 (fun idx nb => nb.[idx <- p.[idx]]) newbits
     else newbits.[0 <- p.[0]] in
   if (size_ <? newsize)%nat then
     for_loop (newcnt - cnt) cnt (fun idx nb => nb.[idx <- pad]) (pad_last newbits)
   else newbits).
Proof using All.
  intros Hn Hc. cbv zeta. set (newcnt := word_count newsize) in *. destruct Hp as [Hl Hw].
  pose proof (proj1 (is_long_spec _) Hn). pose proof (word_count_bounds newsize) as [Hnb1 Hnb2].
  pose proof (word_count_bounds size_) as [Hsb1 Hsb2]. fold newcnt in Hnb1, Hnb2. fold cnt in Hsb1, Hsb2.
  assert (Hmono : (size_ < newsize)%nat <-> (cnt < newcnt)%nat).
  { unfold cnt, newcnt, word_count in *. split; intros; [|nia].
    pose proof (Nat.Div0.div_le_mono (size_ + BITS_PER_WORD - 1) (newsize + BITS_PER_WORD - 1) BITS_PER_WORD ltac:(lia)). lia. }
  match goal with |- resized (if _ then for_loop _ _ _ (pad_last ?x) else _) => set (nb := x) end.
  assert (Hnb : length nb = newcnt /\ Forall is_word nb /\
    forall i, (i < size_)%nat -> (i < newsize)%nat -> pbit nb i = pbit p i).
  { unfold nb. destruct (Nat.ltb_spec 1 cnt) as [H1|H1].
    - set (trans := if (newcnt <? cnt)%nat then newcnt else cnt).
      assert (Ht : trans = Nat.min newcnt cnt) by (unfold trans; destruct (Nat.ltb_spec newcnt cnt); lia).
      destruct (copy_words trans (replicate newcnt 0) p) as (E1 & E2 & E3); [rewrite length_replicate; lia|].
      rewrite length_replicate in E1. split; [exact E1|]. split; [apply E3; auto with word|].
      intros i Hi Hin. apply pbit_words_eq. rewrite E2. destruct (div64 i).
      destruct (Nat.ltb_spec (i / BITS_PER_WORD) trans); [done|nia].
    - rewrite insert_length, length_replicate. split; [done|]. split; [auto with word|].
      intros i Hi Hin. apply pbit_words_eq. destruct (div_small64 i) as [-> _]; [lia|].
      rewrite word_at_insert by (rewrite length_replicate; lia). done. }
  destruct Hnb as (Hnl & Hnw & Hnp).
  assert (Hst : storage newsize = newcnt) by (unfold storage; by rewrite Hn).
  destruct (Nat.ltb_spec size_ newsize) as [Hlt|Hge].
  - destruct (pad_last_spec nb) as (P1 & P2 & P3); [lia|done|].
    destruct (loop_words (fun _ _ => pad) (newcnt - cnt) cnt (pad_last nb)) as (L1 & L2 & L3); [lia|].
    split; [split; [congruence|by apply L3]|]. intros i Hi.
    destruct (div64 i). unfold pbit at 1. rewrite L2.
    destruct (Nat.leb_spec cnt (i / BITS_PER_WORD)), (Nat.ltb_spec (i / BITS_PER_WORD) (cnt + (newcnt - cnt)));
      simpl; try nia.
    + rewrite Hbit by lia. destruct (Nat.ltb_spec i size_); [nia|done].
    + change (pbit (pad_last nb) i = if (i <? size_)%nat then pbit p i else padbit). rewrite P3.
      nat_cases; simpl; try nia; try done; apply Hnp; lia.
  - split; [split; [congruence|done]|]. intros i Hi. rewrite Hnp by lia. nat_cases; (done || lia).
Qed.

Lemma resize_plane_spec : size_ <> newsize -> resized (resize_plane size_ newsize pad p).
Proof using All.
  intros Hne. unfold resize_plane. destruct (is_long newsize) eqn:Hn; [|by apply resize_narrow_short].
  destruct (Nat.eqb_spec (word_count newsize) (word_count size_)) as [E|E]; [|by apply resize_realloc].
  assert (Hs : is_long size_ = true).
  { apply is_long_spec. apply is_long_spec in Hn. pose proof (word_count_bounds newsize).
    pose proof (word_count_bounds size_). lia. }
  destruct (Nat.le_gt_cases size_ newsize) as [Hle|Hgt]; [by apply resize_in_place|].
  destruct (Nat.ltb_spec size_ newsize); [lia|]. destruct Hp as [Hl Hw].
  split; [split; [|done]|intros i Hi; destruct (Nat.ltb_spec i size_); (done || lia)].
  rewrite Hl. unfold storage. by rewrite Hs, Hn.
Qed.
End ResizePlane.

(** ** [mov] *)

Section MovPlane.
Context (size_ dst src cnt : nat) (p0 : plane).
Context (Hd : (dst + cnt <= size_)%nat) (Hs : (src + cnt <= size_)%nat).

(** [n] bits are moved. *)
Definition moved (n : nat) (p : plane) : Prop :=
  plane_wf size_ p /\
  forall i, pbit p i = if ((dst <=? i) && (i <? dst + n))%nat then pbit p0 (src + (i - dst)) else pbit p0 i.

Lemma mov_field n t k o (w : Z) p :
  moved n p -> (n + t <= cnt)%nat -> (k * 64 + o = dst + n)%nat -> (o + t <= 64)%nat -> (0 < t)%nat -> is_word w ->
  (forall b, (b < 64)%nat -> Z.testbit w (Z.of_nat b) =
     if ((o <=? b) && (b <? o + t))%nat then pbit p0 (src + n + (b - o)) else Z.testbit p.[k] (Z.of_nat b)) ->
  moved (n + t) p.[k <- w].
Proof using Hd Hs.
  intros [[Hl Hw] Hp] Hn Hk Ho Ht Hww Hb.
  assert (k < storage size_)%nat.
  { pose proof (storage_index size_ (k * 64 + o) ltac:(lia)) as H. by destruct (div_join k o ltac:(lia)) as [E _]; rewrite E in H. }
  split; [split; [by rewrite insert_length|auto with word]|]. intros i.
  rewrite (pbit_field p k o t (fun b => pbit p0 (src + n + b))) by (done || lia). rewrite Hp, Hk.
  nat_cases; simpl; try lia; try done. f_equal. lia.
Qed.

(** The source bits of the next step are still the old ones. *)
Lemma mov_source n x p :
  (dst <= src)%nat \/ (src + cnt <= dst)%nat -> moved n p -> (n + x < cnt)%nat ->
  pbit p (src + n + x) = pbit p0 (src + n + x).
Proof using Hd Hs. intros Hov [_ Hp] Hx. rewrite Hp. nat_cases; simpl; (done || lia). Qed.

Lemma mov_loop_spec fuel : forall left_ sptr soff dptr doff p,
  (dst <= src)%nat \/ (src + cnt <= dst)%nat ->
  (left_ <= fuel)%nat -> (left_ <= cnt)%nat -> (soff < 64)%nat -> (doff < 64)%nat ->
  (sptr * 64 + soff = src + (cnt - left_))%nat -> (dptr * 64 + doff = dst + (cnt - left_))%nat ->
  moved (cnt - left_) p -> moved cnt (mov_loop fuel left_ sptr soff dptr doff p).
Proof using Hd Hs.
  induction fuel as [|fuel IH]; intros left_ sptr soff dptr doff p Hov Hf Hc Hso Hdo Hsp Hdp Hp; cbn [mov_loop].
  { by replace cnt with (cnt - left_)%nat at 1 by lia. }
  destruct (Nat.ltb_spec 0 left_); [|by replace cnt with (cnt - left_)%nat at 1 by lia].
  set (t1 := if (BITS_PER_WORD <? soff + left_)%nat then (BITS_PER_WORD - soff)%nat else left_).
  set (t := if (BITS_PER_WORD <? doff + t1)%nat then (BITS_PER_WORD - doff)%nat else t1).
  assert (Ht : (0 < t <= left_ /\ soff + t <= 64 /\ doff + t <= 64)%nat).
  { assert (t1 = Nat.min left_ (64 - soff)) by (unfold t1, BITS_PER_WORD; nat_cases; lia).
    assert (t = Nat.min t1 (64 - doff)) by (unfold t, BITS_PER_WORD; nat_cases; lia). lia. }
  assert (Hsrc : forall b, (b < t)%nat -> Z.testbit p.[sptr] (Z.of_nat (soff + b)) = pbit p0 (src + (cnt - left_) + b)).
  { intros b Hb. rewrite <- pbit_word by lia. rewrite <- (mov_source (cnt - left_) b p) by (done || lia). f_equal. lia. }
  pose proof (proj1 (proj1 Hp)) as Hl. pose proof (proj2 (proj1 Hp)) as Hw.
  replace (Nat.eqb t BITS_PER_WORD) with (Nat.eqb t 64) by done. destruct (Nat.eqb_spec t 64) as [E|E].
  - assert (soff = 0 /\ doff = 0)%nat as [Es Ed] by lia.
    apply IH; try (unfold BITS_PER_WORD; lia).
    replace (cnt - (left_ - BITS_PER_WORD))%nat with (cnt - left_ + 64)%nat by (unfold BITS_PER_WORD; lia).
    apply (mov_field _ 64 dptr 0); try lia; [done|auto with word|].
    intros b Hb. rewrite Nat.sub_0_r, <- Hsrc by lia. rewrite Es. nat_cases; (done || lia).
  - set (w := Z.lor (p.[dptr] .& .~ (low_mask t << doff)) (((p.[sptr] >> soff) .& low_mask t) << doff)).
    assert (dptr < storage size_)%nat.
    { pose proof (storage_index size_ (dptr * 64 + doff) ltac:(lia)) as H2. by destruct (div_join dptr doff Hdo) as [E2 _]; rewrite E2 in H2. }
    rewrite word_at_insert, Nat.eqb_refl, list_insert_insert_eq by lia. fold w.
    assert (Hm : moved (cnt - (left_ - t)) p.[dptr <- w]).
    { replace (cnt - (left_ - t))%nat with (cnt - left_ + t)%nat by lia.
      apply (mov_field _ t dptr doff); try lia; [done|unfold w; auto 8 with word|].
      intros b Hb. unfold w. rewrite Z.lor_spec, Z.land_spec, not64_bit, !shl64_bit, Z.land_spec by lia.
      nat_cases; split_ltb; try lia; simpl; rewrite ?andb_true_r, ?orb_false_r; try done.
      - rewrite shr64_bit, !low_mask_bit by lia. split_ltb; [|lia].
        rewrite andb_false_r, andb_true_r, <- Hsrc by lia. simpl. f_equal. lia.
      - rewrite shr64_bit, !low_mask_bit by lia. split_ltb; [lia|].
        by rewrite !andb_false_r, andb_true_r, orb_false_r. }
    destruct (Nat.leb_spec BITS_PER_WORD (soff + t)) as [H3|H3], (Nat.leb_spec BITS_PER_WORD (doff + t)) as [H4|H4];
      unfold BITS_PER_WORD in H3, H4; apply IH; try lia; done.
Qed.

Lemma mov_plane_spec : plane_wf size_ p0 ->
  (dst <= src)%nat \/ (src + cnt <= dst)%nat \/ (size_ <= 64)%nat -> (cnt < 64)%nat \/ (64 < size_)%nat ->
  moved cnt (mov_plane size_ dst src cnt p0).
Proof using Hd Hs.
  intros Hp Hov Hc. unfold mov_plane.
  assert (H0 : moved 0 p0) by (split; [done|]; intros i; nat_cases; simpl; (done || lia)).
  destruct (is_long size_) eqn:E; simpl negb; cbv iota.
  - apply is_long_spec in E. destruct (div64 src), (div64 dst).
    apply mov_loop_spec; try lia. by rewrite Nat.sub_diag.
  - apply is_short_spec in E. destruct (decide (cnt = 0)%nat) as [->|Hnz].
    + destruct Hp as [Hl Hw]. pose proof (storage_bound size_).
      rewrite word_at_insert, Nat.eqb_refl, list_insert_insert_eq by lia.
      assert (E0 : low_mask 0 = 0) by reflexivity. rewrite E0, Z.land_0_r.
      assert (E1 : Z.lor (p0.[0] .& .~ (0 << dst)) (0 << dst) = p0.[0]).
      { apply word_ext; [auto 8 with word..|]. intros b Hb. bits_solve. }
      rewrite E1. rewrite list_insert_id; [done|]. unfold word_at.
      by destruct (lookup_lt_is_Some_2 p0 0 ltac:(lia)) as [x ->].
    + destruct Hp as [Hl Hw]. pose proof (storage_bound size_).
      rewrite word_at_insert, Nat.eqb_refl, list_insert_insert_eq by lia.
      apply (mov_field 0 cnt 0 dst); try lia; [done|auto 8 with word|].
      intros b Hb. rewrite Z.lor_spec, Z.land_spec, not64_bit, !shl64_bit, Z.land_spec by lia.
      nat_cases; split_ltb; try lia; simpl; rewrite ?andb_true_r, ?orb_false_r; try done.
      * rewrite shr64_bit, !low_mask_bit by lia. split_ltb; [|lia].
        rewrite andb_false_r, andb_true_r. simpl. rewrite Nat.add_0_r.
        replace (src + (b - dst))%nat with (0 * 64 + (src + (b - dst)))%nat by lia.
        rewrite pbit_word by lia. f_equal. lia.
      * rewrite shr64_bit, !low_mask_bit by lia. split_ltb; [lia|].
        by rewrite !andb_false_r, andb_true_r, orb_false_r.
Qed.
End MovPlane.

(** ** Properties *)

(** [copy_bits] keeps the size of the destination, takes the bits the source
    has and keeps the others - for every pair of sizes but a source of exactly
    one word and a longer destination. *)
Lemma copy_bits_correct (this that : vvp_vector4_t) :
  vec_wf this -> vec_wf that -> (size this <= 64)%nat \/ size that <> 64%nat ->
  let r := copy_bits this that in
  vec_wf r /\ size r = size this /\
  forall i, (i < size this)%nat ->
    value r i = if (i <? size that)%nat then value that i else value this i.
Proof.
  intros [Ha Hb] [Ha' Hb'] Hbug. cbv zeta.
  assert (Hn : ~ (is_long (size this) = true /\ size that = 64%nat)) by (rewrite is_long_spec; lia).
  destruct (copy_plane_spec _ _ _ _ Ha Ha' Hn) as [Wa Pa], (copy_plane_spec _ _ _ _ Hb Hb' Hn) as [Wb Pb].
  split; [done|]. split; [done|]. intros i Hi. rewrite !value_bits. simpl. rewrite Pa, Pb by done.
  nat_cases; (done || lia).
Qed.

(** The excluded sizes: the code masks nothing when the source is one word long,
    and ors its bits into the destination instead of storing them. *)
Lemma copy_bits_one_word_source :
  let this := vec4_fill 65 BIT4_1 in
  let that := vec4_fill 64 BIT4_0 in
  value that 0 = BIT4_0 /\ value (copy_bits this that) 0 = BIT4_1.
Proof. split; vm_compute; reflexivity. Qed.

(** [resize] keeps the bits that fit and fills the rest with the pad bit,
    whether it reallocates, stays in its words or shrinks to one word. *)
Lemma resize_correct (this : vvp_vector4_t) (newsize : nat) (pad_bit : vvp_bit4_t) :
  vec_wf this ->
  let r := resize this newsize pad_bit in
  vec_wf r /\ size r = newsize /\
  forall i, (i < newsize)%nat -> value r i = if (i <? size this)%nat then value this i else pad_bit.
Proof.
  intros [Ha Hb]. unfold resize. destruct (is_word_init pad_bit) as [Hia Hib].
  destruct (Nat.eqb_spec (size this) newsize) as [<-|Hne].
  { split; [done|]. split; [done|]. intros i Hi. nat_cases; (done || lia). }
  destruct (resize_plane_spec _ newsize _ _ (abit pad_bit) Ha Hia (fun b H => proj1 (init_table_bit pad_bit b H)) Hne) as [Wa Pa].
  destruct (resize_plane_spec _ newsize _ _ (bbit pad_bit) Hb Hib (fun b H => proj2 (init_table_bit pad_bit b H)) Hne) as [Wb Pb].
  split; [done|]. split; [done|]. intros i Hi. rewrite value_lt by done. simpl. rewrite Pa, Pb by done.
  destruct (Nat.ltb_spec i (size this)); [by rewrite value_lt|apply mk_bit_parts].
Qed.

(** [mov] moves a field of bits within a vector without disturbing the
    others, also over a source it overlaps from above. *)
Lemma mov_correct (this : vvp_vector4_t) (dst src cnt : nat) :
  vec_wf this -> (dst + cnt <= size this)%nat -> (src + cnt <= size this)%nat ->
  (dst <= src)%nat \/ (src + cnt <= dst)%nat \/ (size this <= 64)%nat ->
  (cnt < 64)%nat \/ (64 < size this)%nat ->
  exists r, mov this dst src cnt = Some r /\ vec_wf r /\ size r = size this /\
  forall i, (i < size this)%nat ->
    value r i = if ((dst <=? i) && (i <? dst + cnt))%nat then value this (src + (i - dst)) else value this i.
Proof.
  intros [Ha Hb] Hd Hs Hov Hc. unfold mov.
  rewrite (proj2 (Nat.leb_le _ _) Hd), (proj2 (Nat.leb_le _ _) Hs). simpl.
  destruct (mov_plane_spec _ _ _ _ _ Hd Hs Ha Hov Hc) as [Wa Pa], (mov_plane_spec _ _ _ _ _ Hd Hs Hb Hov Hc) as [Wb Pb].
  eexists. split; [done|]. split; [done|]. split; [done|]. intros i Hi. rewrite !value_bits. simpl.
  rewrite Pa, Pb. nat_cases; simpl; (done || lia).
Qed.

Lemma copy_bits_correct_witness :
  value (copy_bits (sample 0) (vec4_fill 100 BIT4_1)) 99 = BIT4_1.
Proof.
  destruct (copy_bits_correct (sample 0) (vec4_fill 100 BIT4_1)) as (_ & _ & H).
  - apply vec_wf_dec_bool. vm_compute. reflexivity.
  - apply vec_wf_dec_bool. vm_compute. reflexivity.
  - right. vm_compute. discriminate.
  - rewrite H by (apply Nat.ltb_lt; reflexivity). vm_compute. reflexivity.
Defined.

Lemma resize_correct_witness : value (resize (sample 5) 300 BIT4_1) 250 = BIT4_1.
Proof.
  destruct (resize_correct (sample 5) 300 BIT4_1) as (_ & _ & H).
  - apply vec_wf_dec_bool. vm_compute. reflexivity.
  - rewrite H by (apply Nat.ltb_lt; reflexivity). reflexivity.
Defined.

(** [mov] moves a field within a vector and disturbs no other bit, also
    over a source it overlaps from above; [resize] keeps the bits that fit and
    fills the rest with the pad bit; [copy_bits] takes the bits the source has
    and keeps the others, but for a source of exactly one word and a longer
    destination. *)
Theorem vec4_copies_correct (this : vvp_vector4_t) (dst src cnt : nat) (newsize : nat) (pad_bit : vvp_bit4_t) (that : vvp_vector4_t) :
  (vec_wf this -> (dst + cnt <= size this)%nat -> (src + cnt <= size this)%nat ->
   (dst <= src)%nat \/ (src + cnt <= dst)%nat \/ (size this <= 64)%nat ->
   (cnt < 64)%nat \/ (64 < size this)%nat ->
   exists r, mov this dst src cnt = Some r /\ vec_wf r /\ size r = size this /\
   forall i, (i < size this)%nat ->
     value r i = if ((dst <=? i) && (i <? dst + cnt))%nat then value this (src + (i - dst)) else value this i) /\
  (vec_wf this ->
   let r := resize this newsize pad_bit in
   vec_wf r /\ size r = newsize /\
   forall i, (i < newsize)%nat -> value r i = if (i <? size this)%nat then value this i else pad_bit) /\
  (vec_wf this -> vec_wf that -> (size this <= 64)%nat \/ size that <> 64%nat ->
   let r := copy_bits this that in
   vec_wf r /\ size r = size this /\
   forall i, (i < size this)%nat ->
     value r i = if (i <? size that)%nat then value that i else value this i).
Proof. exact (conj (mov_correct this dst src cnt) (conj (resize_correct this newsize pad_bit) (copy_bits_correct this that))). Qed.

Lemma vec4_copies_correct_witness :
  exists r, mov (sample (5 * 2 ^ 90)) 3 90 70 = Some r /\ value r 5 = BIT4_1.
Proof.
  pose proof (fun this dst src cnt => proj1 (vec4_copies_correct this dst src cnt 0 BIT4_X this)) as mov_correct.
  destruct (mov_correct (sample (5 * 2 ^ 90)) 3%nat 90%nat 70%nat) as (r & E & _ & _ & H).
  - apply vec_wf_dec_bool. vm_compute. reflexivity.
  - apply Nat.leb_le. reflexivity.
  - apply Nat.leb_le. reflexivity.
  - left. apply Nat.leb_le. reflexivity.
  - right. apply Nat.ltb_lt. reflexivity.
  - exists r. split; [exact E|]. rewrite H by (apply Nat.ltb_lt; reflexivity). vm_compute. reflexivity.
Defined.
