(* ===== verification/Vector4Arith.v ===== *)
(** * Vector4Arith: addition, subtraction and multiplication of run-time vectors

    The single-word and multi-word algorithms are the operations on integers
    modulo [2^size] when no bit is x or z, and all x otherwise. *)

From S2P Require Import Prelude FourState Vector4 Vector4Value Vector4Ops.
Import Bit4.

Open Scope ivl_scope.

(** ** x and z bits *)

(** Some bit of the plane below [n] is set. *)
Definition any (p : plane) (n : nat) : bool := existsb (pbit p) (seq 0 n).

(** Some bit of the vector is x or z. *)
Definition any_xz (v : vvp_vector4_t) : bool := existsb (fun i => bit4_is_xz (value v i)) (seq 0 (size v)).

(** The integer of a vector without x and z. *)
Definition vval (v : vvp_vector4_t) : Z := pval (abits v) (size v).

Lemma any_iff p n : any p n = true <-> exists i, (i < n)%nat /\ pbit p i = true.
Proof.
  unfold any. rewrite existsb_exists. split; intros (i & Hi & H); exists i; rewrite in_seq in *; (split; [lia|done]).
Qed.

Lemma any_xz_plane v : any_xz v = any (bbits v) (size v).
Proof.
  unfold any_xz, any. apply eq_true_iff_eq. rewrite !existsb_exists.
  split; intros (i & Hi & H); exists i; (split; [done|]); apply in_seq in Hi;
    rewrite value_lt in * by lia; by destruct (pbit (abits v) i), (pbit (bbits v) i).
Qed.

Lemma word_zero_bits x : is_word x -> (x = 0 <-> forall b, (b < 64)%nat -> Z.testbit x (Z.of_nat b) = false).
Proof.
  intros Hx. split; [intros -> b _; apply Z.bits_0|]. intros H. apply word_ext; [done|apply is_word_0|].
  intros i Hi. rewrite Z.bits_0. replace i with (Z.of_nat (Z.to_nat i)) by lia. apply H. lia.
Qed.

Lemma word_any x : is_word x ->
  negb (x =? 0) = existsb (fun b => Z.testbit x (Z.of_nat b)) (seq 0 64).
Proof.
  intros Hx. apply eq_true_iff_eq. rewrite negb_true_iff, Z.eqb_neq, (word_zero_bits x Hx), existsb_exists. split.
  - intros H. destruct (existsb (fun b => Z.testbit x (Z.of_nat b)) (seq 0 64)) eqn:E.
    + by apply existsb_exists in E.
    + exfalso. apply H. intros b Hb. apply not_true_iff_false. intros Ht.
      apply not_true_iff_false in E. apply E, existsb_exists. exists b. rewrite in_seq. split; [lia|done].
  - intros (b & Hb & Ht) H. apply in_seq in Hb. rewrite H in Ht by lia. done.
Qed.

(** The words below [k] and the low [r] bits of word [k]. *)
Lemma any_split (p : plane) k r m :
  (r <= 64)%nat -> is_word m -> Forall is_word p ->
  (forall b, (b < 64)%nat -> Z.testbit m (Z.of_nat b) = (b <? r)%nat) ->
  any p (k * 64 + r) = any p (k * 64) || negb (p.[k] .& m =? 0).
Proof.
  intros Hr Hm Hp Hb. rewrite word_any by auto with word. unfold any. rewrite seq_app, existsb_app. f_equal.
  apply eq_true_iff_eq. rewrite !existsb_exists. split.
  - intros (i & Hi & H). apply in_seq in Hi. exists (i - k * 64)%nat. rewrite in_seq. split; [lia|].
    rewrite Z.land_spec, Hb by lia. rewrite <- pbit_word by lia.
    replace (k * 64 + (i - k * 64))%nat with i by lia. rewrite H. nat_cases; (done || lia).
  - intros (b & Hlt & H). apply in_seq in Hlt. rewrite Z.land_spec, Hb in H by lia.
    apply andb_true_iff in H as [H Hr']. apply Nat.ltb_lt in Hr'. exists (k * 64 + b)%nat.
    rewrite in_seq. split; [lia|]. by rewrite pbit_word by lia.
Qed.

Lemma any_word (p : plane) k : Forall is_word p ->
  any p (S k * 64) = any p (k * 64) || negb (p.[k] =? 0).
Proof.
  intros Hp. replace (S k * 64)%nat with (k * 64 + 64)%nat by lia.
  rewrite (any_split p k 64 ones64); [|lia|auto with word|done|].
  - do 3 f_equal. apply word_ext; [auto with word..|]. intros i Hi. bits_solve.
  - intros b Hb. rewrite ones64_bit by lia. nat_cases; split_ltb; (done || lia).
Qed.

Lemma any_0 p : any p 0 = false.
Proof. done. Qed.

(** [~(-1UL << n)] *)
Lemma tail_mask_bit n b : (n < 64)%nat -> (b < 64)%nat ->
  Z.testbit (.~ (ones64 << n)) (Z.of_nat b) = (b <? n)%nat.
Proof.
  intros Hn Hb. rewrite not64_bit, shl64_bit by lia. nat_cases; split_ltb; try lia; try done; simpl.
  rewrite ones64_bit by lia. split_ltb; (done || lia).
Qed.

Lemma tail_mask_land n x : (n < 64)%nat -> is_word x -> x .& .~ (ones64 << n) = x mod 2 ^ Z.of_nat n.
Proof.
  intros Hn Hx. apply Z.bits_inj'. intros i Hi. rewrite Z.land_spec.
  destruct (Z.lt_ge_cases i 64) as [Hlt|Hge].
  - replace i with (Z.of_nat (Z.to_nat i)) by lia. rewrite tail_mask_bit by lia.
    destruct (Nat.ltb_spec (Z.to_nat i) n).
    + rewrite Z.mod_pow2_bits_low by lia. apply andb_true_r.
    + rewrite Z.mod_pow2_bits_high by lia. apply andb_false_r.
  - rewrite word_high, Z.mod_pow2_bits_high by (done || lia). done.
Qed.

(** ** Words with carry *)

Lemma add_with_carry_w_spec a b carry :
  is_word a -> is_word b -> 0 <= carry <= 1 ->
  let '(sum, carry') := add_with_carry_w a b carry in
  is_word sum /\ 0 <= carry' <= 1 /\ sum + carry' * 2 ^ 64 = a + b + carry.
Proof.
  unfold is_word, add_with_carry_w, add64, u64. intros Ha Hb Hc.
  assert (Ht : (b + carry) mod 2 ^ 64 = if b + carry <? 2 ^ 64 then b + carry else 0).
  { destruct (Z.ltb_spec (b + carry) (2 ^ 64)); [by rewrite Z.mod_small by lia|].
    replace (b + carry) with (1 * 2 ^ 64) by lia. apply Z.mod_mul. lia. }
  rewrite Ht. set (tmp := if _ <? _ then _ else _).
  assert (Htmp : 0 <= tmp < 2 ^ 64) by (unfold tmp; destruct (Z.ltb_spec (b + carry) (2 ^ 64)); lia).
  assert (Hs : (a + tmp) mod 2 ^ 64 = if a + tmp <? 2 ^ 64 then a + tmp else a + tmp - 2 ^ 64).
  { destruct (Z.ltb_spec (a + tmp) (2 ^ 64)); [by rewrite Z.mod_small by lia|].
    replace (a + tmp) with (a + tmp - 2 ^ 64 + 1 * 2 ^ 64) at 1 by lia. rewrite Z.mod_add by lia.
    apply Z.mod_small. lia. }
  rewrite Hs. unfold tmp in *. clear Hs Ht.
  destruct (Z.ltb_spec (b + carry) (2 ^ 64)); split_ltb; lia.
Qed.

(** ** Addition and subtraction *)

#[local] Opaque add_with_carry_w.

Lemma pval_mod p k r : (r <= 64)%nat -> (k = 0)%nat -> pval p r = p.[k] mod 2 ^ Z.of_nat r.
Proof.
  intros Hr ->. change r with (0 * 64 + r)%nat at 1. rewrite pval_split by done.
  change (0 * 64)%nat with 0%nat. change (2 ^ Z.of_nat 0) with 1. unfold pval. simpl. lia.
Qed.

Lemma word_at_map (f : Z -> Z) (p : plane) k : (k < length p)%nat -> word_at (map f p) k = f p.[k].
Proof.
  intros Hk. unfold word_at. change (map f p) with (f <$> p). rewrite list_lookup_fmap.
  by destruct (lookup_lt_is_Some_2 p k Hk) as [x ->].
Qed.

Lemma pval_mod_pow p n m : (m <= n)%nat -> pval p n mod 2 ^ Z.of_nat m = pval p m.
Proof.
  intros Hm. apply Z.bits_inj'. intros i Hi. destruct (Z.lt_ge_cases i (Z.of_nat m)).
  - rewrite Z.mod_pow2_bits_low by lia. replace i with (Z.of_nat (Z.to_nat i)) by lia.
    by rewrite !pbit_pval by lia.
  - rewrite Z.mod_pow2_bits_high by lia. symmetry. apply (testbit_small _ (Z.of_nat m)); [apply pval_range|lia|lia].
Qed.

Lemma x_out_spec v : vec_wf v -> (64 < size v)%nat ->
  vec_wf (x_out v) /\ forall i, (i < size v)%nat -> value (x_out v) i = BIT4_X.
Proof.
  intros [[Hla Hwa] [Hlb Hwb]] Hs. destruct (div64 (size v)) as [Hd Hm].
  set (cnt := (size v / BITS_PER_WORD)%nat) in *. set (tail := (size v mod BITS_PER_WORD)%nat) in *.
  assert (H : forall p w, is_word w -> (forall b, 0 <= b < 64 -> Z.testbit w b = true) ->
    length p = storage (size v) -> Forall is_word p ->
    let p' := for_loop cnt 0 (fun idx p => p.[idx <- w]) p in
    let r := if negb (tail =? 0)%nat then p'.[cnt <- w .& .~ (ones64 << tail)] else p' in
    plane_wf (size v) r /\ forall i, (i < size v)%nat -> pbit r i = true).
  { intros p w Hw Hb Hl Hp. cbv zeta.
    assert (Hcnt : (cnt <= storage (size v))%nat) by (destruct (storage_bound (size v)); nia).
    destruct (loop_words (fun _ _ => w) cnt 0 p) as (L1 & L2 & L3); [lia|].
    set (p' := for_loop _ _ _ _) in *.
    assert (Hlow : forall i, (i < cnt * 64)%nat -> pbit p' i = true).
    { intros i Hi. unfold pbit. rewrite L2. destruct (div64 i). nat_cases; simpl; try nia. apply Hb. lia. }
    destruct (Nat.eqb_spec tail 0) as [E|E]; simpl negb; cbv iota.
    - split; [split; [congruence|by apply L3]|]. intros i Hi. apply Hlow. lia.
    - assert (cnt < storage (size v))%nat by (apply storage_word; lia).
      split; [split; [by rewrite insert_length; congruence|apply insert_words; auto with word]|].
      intros i Hi. rewrite pbit_insert by lia. destruct (div64 i).
      destruct (Nat.eqb_spec (i / BITS_PER_WORD) cnt); [|apply Hlow; nia].
      rewrite Z.land_spec, tail_mask_bit, Hb by lia. nat_cases; (done || nia). }
  destruct (is_word_init BIT4_X) as [Hia Hib].
  assert (Hone : forall b, 0 <= b < 64 -> Z.testbit ones64 b = true)
    by (intros; rewrite ones64_bit by lia; apply Z.ltb_lt; lia).
  destruct (H (abits v) (init_atable BIT4_X) Hia Hone Hla Hwa) as [Wa Pa].
  destruct (H (bbits v) (init_btable BIT4_X) Hib Hone Hlb Hwb) as [Wb Pb].
  split; [done|]. intros i Hi. rewrite value_lt by done. unfold x_out. cbn [abits bbits].
  fold cnt tail. cbv zeta in Pa, Pb. by rewrite Pa, Pb.
Qed.

(** What the arithmetic operators promise: x everywhere if an operand has an x
    or z bit, else the result [z] modulo [2^size]. *)
Definition arith_result (xz : bool) (n : nat) (z : Z) (r : vvp_vector4_t) : Prop :=
  vec_wf r /\ size r = n /\
  if xz then forall i, (i < n)%nat -> value r i = BIT4_X
  else any_xz r = false /\ vval r = z mod 2 ^ Z.of_nat n.

Lemma pval_keep (p : plane) k w m : (m <= k * 64)%nat -> (k < length p)%nat -> pval p.[k <- w] m = pval p m.
Proof.
  intros Hm Hk. apply pval_ext. intros i Hi. rewrite pbit_insert by done.
  destruct (div64 i). destruct (Nat.eqb_spec (i / BITS_PER_WORD) k); [nia|done].
Qed.

Lemma mod_sum3 x y c m : (x mod m + y mod m + c) mod m = (x + y + c) mod m.
Proof.
  rewrite <- Z.add_assoc, Zplus_mod_idemp_l, Z.add_assoc, (Z.add_comm x), <- Z.add_assoc, Zplus_mod_idemp_l.
  f_equal. lia.
Qed.

Lemma land_lor_zero x y m : negb ((x .| y) .& m =? 0) = negb (x .& m =? 0) || negb (y .& m =? 0).
Proof.
  rewrite Z.land_lor_distr_l. destruct (Z.eqb_spec (x .& m .| y .& m) 0) as [E|E]; simpl.
  - apply Z.lor_eq_0_iff in E as [-> ->]. done.
  - destruct (Z.eqb_spec (x .& m) 0) as [E1|]; [|done]. destruct (Z.eqb_spec (y .& m) 0) as [E2|]; [|done].
    by rewrite E1, E2 in E.
Qed.

(** ** Vectors of one word *)

Section OneWord.
Context (this that : vvp_vector4_t).
Context (Hthis : vec_wf this) (Hthat : vec_wf that) (Hsize : size this = size that).
Let n := size this.
Let a := abits this.
Let b := bbits this.
Let a' := abits that.
Let b' := bbits that.

(** A plane with one new word under a mask. *)
Lemma one_word_value w r z : (r <= 64)%nat -> n = r -> is_word w ->
  w mod 2 ^ Z.of_nat r = z mod 2 ^ Z.of_nat r ->
  arith_result false n z (Vec4 n a.[0 <- w] b) \/ any b n = true.
Proof using All.
  intros Hr Hn Hw Hv. destruct (any b n) eqn:E; [by right|left].
  destruct Hthis as [[Hla Hwa] Hb]. fold a n in Hla. fold a in Hwa. pose proof (storage_bound n).
  split; [split; [split; simpl; [by rewrite insert_length|auto with word]|done]|].
  split; [done|]. split; [by rewrite any_xz_plane|]. unfold vval. simpl.
  rewrite Hn. rewrite (pval_mod _ 0 r) by lia. rewrite word_at_insert by lia. simpl. done.
Qed.

Lemma set_x_word m : (n <= 64)%nat -> is_word m ->
  (forall i, (i < n)%nat -> Z.testbit m (Z.of_nat i) = true) ->
  forall wa wb z, is_word wa -> is_word wb ->
  arith_result true n z (Vec4 n a.[0 <- wa .| m] b.[0 <- wb .| m]).
Proof using All.
  intros Hn Hm Hb wa wb z Hwa' Hwb'. destruct Hthis as [[Hla Hwa] [Hlb Hwb]]. pose proof (storage_bound (size this)).
  split; [split; (split; simpl; [by rewrite insert_length|auto with word])|]. split; [done|].
  intros i Hi. rewrite value_lt by done. cbn [abits bbits]. subst a b.
  rewrite !pbit_insert by (unfold n in *; lia). destruct (div_small64 i) as [-> ->]; [lia|]. simpl.
  rewrite !Z.lor_spec, Hb by done. by rewrite !orb_true_r.
Qed.

Lemma xz_short m : (n <= 64)%nat -> is_word m ->
  (forall i, (i < 64)%nat -> Z.testbit m (Z.of_nat i) = (i <? n)%nat) ->
  any b n || any b' n = negb ((b.[0] .| b'.[0]) .& m =? 0).
Proof using All.
  intros Hn Hm Hb. rewrite land_lor_zero. destruct Hthis as [_ [_ Hwb]], Hthat as [_ [_ Hwb']].
  pose proof (any_split b 0 n m Hn Hm Hwb Hb) as H1. pose proof (any_split b' 0 n m Hn Hm Hwb' Hb) as H2.
  simpl in H1, H2. by rewrite H1, H2.
Qed.

End OneWord.

Section AddSub.
Context (op : Z -> Z -> Z) (inv : Z -> Z) (c0 : Z).
Context (Hinv : forall w, is_word w -> is_word (inv w)) (Hc0 : 0 <= c0 <= 1).
Context (Hop : forall x y, is_word x -> is_word y -> op x y = (x + inv y + c0) mod 2 ^ 64).
Context (this that : vvp_vector4_t).
Context (Hthis : vec_wf this) (Hthat : vec_wf that) (Hsize : size this = size that).

Let n := size this.
Let a := abits this.
Let b := bbits this.
Let a' := abits that.
Let b' := bbits that.
(** The second operand as the carry chain sees it. *)
Let q := map inv a'.
Let total (m : nat) : Z := pval a m + pval q m + c0.

Lemma xz_or m : any b m || any b' m = true <->
  exists i, (i < m)%nat /\ (pbit b i = true \/ pbit b' i = true).
Proof using All.
  rewrite orb_true_iff, !any_iff. split; [intros [(i & ? & ?)|(i & ? & ?)]; eauto|].
  intros (i & Hi & [?|?]); eauto.
Qed.

Lemma op_word x y : is_word x -> is_word y -> is_word (op x y).
Proof using All. intros Hx Hy. rewrite Hop by done. apply Z.mod_pos_bound. lia. Qed.

Lemma total_one_word r : (r <= 64)%nat -> n = r ->
  op a.[0] a'.[0] mod 2 ^ Z.of_nat r = total r mod 2 ^ Z.of_nat r.
Proof using All.
  intros Hr Hn. destruct Hthis as [[_ Hwa] _], Hthat as [[Hla' Hwa'] _].
  fold a in Hwa. fold a' in Hla', Hwa'.
  pose proof (storage_bound (size that)).
  rewrite Hop by (subst a a'; auto with word). unfold total, q.
  rewrite !(pval_mod _ 0 r), word_at_map by (done || lia).
  replace 64 with (Z.of_nat r + (64 - Z.of_nat r)) by lia. rewrite Z.pow_add_r by lia.
  rewrite Z.mod_mod_divide by apply Z.divide_factor_l.
  by rewrite mod_sum3.
Qed.

(** The carry chain: after [k] words without x or z, the words below [k] and
    the carry hold the sum. *)
Record chain (k : nat) (s : plane * Z) : Prop := {
  ch_wf : plane_wf n (fst s);
  ch_carry : 0 <= snd s <= 1;
  ch_rest : forall j, (k <= j)%nat -> (fst s).[j] = a.[j];
  ch_sum : pval (fst s) (k * 64) + snd s * 2 ^ Z.of_nat (k * 64) = total (k * 64) }.

Lemma chain_start : chain 0 (a, c0).
Proof using All.
  constructor; try done; [apply Hthis|]. unfold total, pval. simpl. lia.
Qed.

Lemma chain_step k s : (k < storage n)%nat -> chain k s ->
  let '(w, carry) := add_with_carry_w (fst s).[k] (inv a'.[k]) (snd s) in
  chain (S k) ((fst s).[k <- w], carry).
Proof using All.
  intros Hk [[Hl Hw] Hc Hr Hsum]. destruct Hthis as [[Hla Hwa] _], Hthat as [[Hla' Hwa'] _].
  fold a n in Hla. fold a in Hwa. fold a' in Hla', Hwa'. rewrite <- Hsize in Hla'. fold n in Hla'.
  pose proof (add_with_carry_w_spec (fst s).[k] (inv a'.[k]) (snd s) ltac:(auto with word)
    ltac:(apply Hinv; auto with word) Hc) as Hadd.
  destruct (add_with_carry_w _ _ _) as [w carry]. destruct Hadd as (Hww & Hcc & Hs).
  assert (Hqw : Forall is_word q).
  { unfold q. apply List.Forall_map. eapply List.Forall_impl; [|exact Hwa']. exact Hinv. }
  constructor; cbn [fst snd]; [split; [by rewrite insert_length|auto with word]|done| |].
  - intros j Hj. rewrite word_at_insert by lia. destruct (Nat.eqb_spec j k); [lia|apply Hr; lia].
  - unfold total in *. rewrite !pval_words by auto with word. rewrite pval_keep by lia.
    rewrite word_at_insert, Nat.eqb_refl by lia. unfold q at 2. rewrite word_at_map by lia.
    rewrite <- (Hr k) by lia.
    replace (Z.of_nat (S k * 64)) with (64 + Z.of_nat (k * 64)) by lia. rewrite Z.pow_add_r by lia. nia.
Qed.

Definition chain_state (k : nat) (st : option (plane * Z)) : Prop :=
  if any b (k * 64) || any b' (k * 64) then st = None else exists s, st = Some s /\ chain k s.

Lemma chain_loop k : (k <= storage n)%nat ->
  chain_state k (for_loop k 0 (fun idx s =>
    '(a, carry) ← s;
    if negb (b.[idx] .| b'.[idx] =? 0) then None
    else
      let '(w, carry) := add_with_carry_w (word_at a idx) (inv a'.[idx]) carry in
      Some (a.[idx <- w], carry)) (Some (a, c0))).
Proof using All.
  intros Hk. apply (for_loop_ind chain_state k 0).
  - unfold chain_state. simpl. exists (a, c0). split; [done|apply chain_start].
  - intros j st Hj Hst. unfold chain_state in *.
    destruct Hthis as [_ [_ Hwb]], Hthat as [_ [_ Hwb']]. fold b b' in Hwb, Hwb'.
    rewrite !any_word by done.
    assert (Hor : negb (b.[j] .| b'.[j] =? 0) = negb (b.[j] =? 0) || negb (b'.[j] =? 0)).
    { destruct (Z.eqb_spec (b.[j] .| b'.[j]) 0) as [E|E]; simpl.
      - apply Z.lor_eq_0_iff in E as [-> ->]. done.
      - destruct (Z.eqb_spec b.[j] 0) as [E1|]; [|done]. destruct (Z.eqb_spec b'.[j] 0) as [E2|]; [|done].
        by rewrite E1, E2 in E. }
    rewrite Hor. destruct (any b (j * 64)), (any b' (j * 64)); simpl in *; rewrite ?orb_true_r; try (by subst st).
    destruct Hst as ([aj cj] & -> & Hch). cbn [mbind option_bind].
    destruct (negb (b.[j] =? 0)), (negb (b'.[j] =? 0)); cbn [orb]; try done.
    pose proof (chain_step j (aj, cj) ltac:(lia) Hch) as Hstep. cbn [fst snd] in Hstep.
    destruct (add_with_carry_w _ _ _) as [w carry]. eauto.
Qed.

Lemma add_sub_short : (n < 64)%nat ->
  arith_result (any b n || any b' n) n (total n) (add_sub op inv c0 this that).
Proof using All.
  intros Hn. unfold add_sub. fold n a b a' b'.
  destruct (Nat.ltb_spec n BITS_PER_WORD) as [_|Hge]; [|unfold BITS_PER_WORD in Hge; lia].
  set (m := .~ (ones64 << n)). assert (Hm : is_word m) by apply is_word_not64.
  pose proof (xz_short this that Hthis Hthat Hsize m ltac:(lia) Hm (fun i Hi => tail_mask_bit n i Hn Hi)) as Hxz.
  fold n b b' in Hxz. rewrite <- Hxz.
  destruct Hthis as [[Hla Hwa] [Hlb Hwb]], Hthat as [[Hla' Hwa'] _].
  destruct (any b n || any b' n) eqn:E.
  - apply (set_x_word this that); try done; [lia| |subst a; auto with word|subst b; auto with word].
    intros i Hi. unfold m. rewrite tail_mask_bit by lia. by apply Nat.ltb_lt.
  - apply orb_false_iff in E as [E _]. pose proof (storage_bound (size this)).
    rewrite word_at_insert, Nat.eqb_refl, list_insert_insert_eq by (subst a; lia).
    unfold m. rewrite tail_mask_land by (done || apply op_word; subst a a'; auto with word).
    destruct (one_word_value this that Hthis Hthat Hsize (op a.[0] a'.[0] mod 2 ^ Z.of_nat n) n (total n)) as [H1|H1];
      [lia|done| | |exact H1|fold n b in H1; congruence].
    + pose proof (Z.mod_pos_bound (op a.[0] a'.[0]) (2 ^ Z.of_nat n) ltac:(lia)).
      pose proof (Z.pow_le_mono_r 2 (Z.of_nat n) 64 ltac:(lia) ltac:(lia)). unfold is_word. lia.
    + rewrite Zmod_mod. apply total_one_word; [lia|done].
Qed.

Lemma add_sub_one_word : n = 64%nat ->
  arith_result (any b n || any b' n) n (total n) (add_sub op inv c0 this that).
Proof using All.
  intros Hn. unfold add_sub. fold n a b a' b'.
  destruct (Nat.ltb_spec n BITS_PER_WORD) as [Hlt|_]; [unfold BITS_PER_WORD in Hlt; lia|].
  destruct (Nat.eqb_spec n BITS_PER_WORD) as [_|Hne]; [|unfold BITS_PER_WORD in Hne; lia].
  assert (Hall : forall i, (i < 64)%nat -> Z.testbit ones64 (Z.of_nat i) = (i <? n)%nat).
  { intros i Hi. rewrite ones64_bit by lia. nat_cases; split_ltb; (done || lia). }
  pose proof (xz_short this that Hthis Hthat Hsize ones64 ltac:(unfold n in Hn; lia) ltac:(auto with word) Hall) as Hxz.
  fold n b b' in Hxz.
  destruct Hthis as [[Hla Hwa] [Hlb Hwb]], Hthat as [[Hla' Hwa'] [Hlb' Hwb']].
  assert (Hid : forall x, is_word x -> x .& ones64 = x).
  { intros x Hx. apply word_ext; [auto with word|done|]. intros i Hi. bits_solve. }
  rewrite Hid in Hxz by (subst b b'; auto with word). rewrite <- Hxz.
  destruct (any b n || any b' n) eqn:E.
  - pose proof (set_x_word this that Hthis Hthat Hsize ones64 ltac:(unfold n in Hn; lia) ltac:(auto with word)
      (fun i Hi => eq_trans (Hall i ltac:(unfold n in Hn; lia)) (proj2 (Nat.ltb_lt _ _) Hi)) 0 0 (total n)
      ltac:(auto with word) ltac:(auto with word)) as H1.
    exact H1.
  - apply orb_false_iff in E as [E _].
    destruct (one_word_value this that Hthis Hthat Hsize (op a.[0] a'.[0]) 64 (total n)) as [H1|H1];
      [lia|done| | |exact H1|fold n b in H1; congruence].
    + apply op_word; subst a a'; auto with word.
    + rewrite Hn. apply total_one_word; [lia|done].
Qed.

Lemma pval_ge_size (p : plane) m : pval p m mod 2 ^ Z.of_nat m = pval p m.
Proof using All. apply Z.mod_small, pval_range. Qed.

Lemma chain_end k s : chain k s -> n = (k * 64)%nat -> any b n = false ->
  arith_result false n (total n) (Vec4 n (fst s) b).
Proof using All.
  intros [Hw Hc Hr Hs] Hn Hx. split; [split; [done|apply Hthis]|]. split; [done|].
  split; [by rewrite any_xz_plane|]. unfold vval. simpl. rewrite Hn, <- Hs, Z.mod_add by lia.
  symmetry. apply pval_ge_size.
Qed.

Lemma chain_tail k r s : chain k s -> n = (k * 64 + r)%nat -> (0 < r < 64)%nat -> any b n = false ->
  let w := fst (add_with_carry_w (fst s).[k] (inv a'.[k]) (snd s)) in
  arith_result false n (total n) (Vec4 n ((fst s).[k <- w]).[k <- ((fst s).[k <- w]).[k] .& .~ (ones64 << r)] b).
Proof using All.
  intros Hch Hn Hr Hx. pose proof (storage_word (size this) k ltac:(unfold n in Hn; lia)) as Hk.
  pose proof (chain_step k s Hk Hch) as Hstep.
  destruct (add_with_carry_w _ _ _) as [w carry]. cbn [fst]. destruct Hstep as [[Hl Hw] _ _ Hs]. cbn [fst snd] in *.
  rewrite insert_length in Hl.
  set (p := (fst s).[k <- w]) in *.
  assert (Hlp : length p = storage n) by (unfold p; by rewrite insert_length).
  rewrite tail_mask_land by (lia || auto with word).
  split; [split; [split; simpl; [by rewrite insert_length|]|apply Hthis]|].
  { apply insert_words; [done|]. pose proof (word_at_is_word p k Hw) as Hpk.
    pose proof (Z.mod_pos_bound p.[k] (2 ^ Z.of_nat r) ltac:(lia)).
    pose proof (Z.mod_le p.[k] (2 ^ Z.of_nat r) ltac:(apply Hpk) ltac:(lia)). unfold is_word in *. lia. }
  split; [done|]. split; [by rewrite any_xz_plane|]. unfold vval. simpl.
  assert (Hval : pval p.[k <- p.[k] mod 2 ^ Z.of_nat r] n = pval p n).
  { rewrite Hn, !pval_split by lia. rewrite pval_keep, word_at_insert, Nat.eqb_refl by (lia || unfold n in *; lia).
    by rewrite Zmod_mod. }
  rewrite Hval. assert (Hle : (n <= S k * 64)%nat) by lia.
  rewrite <- (pval_mod_pow p _ n Hle).
  assert (Htot : total (S k * 64) mod 2 ^ Z.of_nat n = total n mod 2 ^ Z.of_nat n).
  { unfold total. rewrite <- mod_sum3, !pval_mod_pow by done. done. }
  rewrite <- Htot, <- Hs. replace (Z.of_nat (S k * 64)) with (Z.of_nat n + (Z.of_nat (S k * 64) - Z.of_nat n)) by lia.
  rewrite Z.pow_add_r by lia. rewrite (Z.mul_comm (2 ^ Z.of_nat n)), Z.mul_assoc, Z.mod_add by lia. done.
Qed.

Lemma add_sub_long : (64 < n)%nat ->
  arith_result (any b n || any b' n) n (total n) (add_sub op inv c0 this that).
Proof using All.
  intros Hn. unfold add_sub. fold n a b a' b'.
  destruct (Nat.ltb_spec n BITS_PER_WORD) as [Hlt|_]; [unfold BITS_PER_WORD in Hlt; lia|].
  destruct (Nat.eqb_spec n BITS_PER_WORD) as [He|_]; [unfold BITS_PER_WORD in He; lia|].
  destruct (div64 n) as [Hd Hm]. set (k := (n / BITS_PER_WORD)%nat) in *. set (r := (n mod BITS_PER_WORD)%nat) in *.
  pose proof (x_out_spec this Hthis Hn) as [Hxw Hxv].
  assert (Hxo : arith_result true n (total n) (x_out this)) by (split; [done|]; by split).
  pose proof (chain_loop k ltac:(destruct (storage_bound n); nia)) as Hloop. unfold chain_state in Hloop.
  destruct Hthis as [_ [_ Hwb]], Hthat as [_ [_ Hwb']]. fold b in Hwb. fold b' in Hwb'.
  destruct (any b (k * 64) || any b' (k * 64)) eqn:E.
  { rewrite Hloop. cbn [mbind option_bind]. replace (any b n || any b' n) with true; [done|].
    symmetry. apply xz_or. apply xz_or in E as (i & Hi & Hb). exists i. split; [lia|done]. }
  destruct Hloop as ([s c] & -> & Hch). cbn [mbind option_bind].
  destruct (Nat.eqb_spec r 0) as [Er|Er]; simpl negb; cbv iota.
  - replace n with (k * 64)%nat in |- * at 1 2 by lia. rewrite E.
    apply (chain_end k (s, c) Hch); [lia|]. apply orb_false_iff in E as [E _].
    by replace n with (k * 64)%nat by lia.
  - pose proof (any_split b k r _ ltac:(lia) (is_word_not64 _) Hwb (fun i Hi => tail_mask_bit r i Hm Hi)) as H1.
    pose proof (any_split b' k r _ ltac:(lia) (is_word_not64 _) Hwb' (fun i Hi => tail_mask_bit r i Hm Hi)) as H2.
    rewrite Hd in H1, H2. apply orb_false_iff in E as [E1 E2]. rewrite E1 in H1. rewrite E2 in H2. simpl in H1, H2.
    rewrite land_lor_zero, <- H1, <- H2. destruct (any b n || any b' n) eqn:En; [done|].
    pose proof (chain_tail k r (s, c) Hch ltac:(lia) ltac:(lia)) as Ht. cbn [fst snd] in Ht.
    destruct (add_with_carry_w _ _ _) as [w carry]. apply Ht. by apply orb_false_iff in En as [? _].
Qed.

Lemma add_sub_spec : arith_result (any b n || any b' n) n (total n) (add_sub op inv c0 this that).
Proof using All.
  destruct (lt_eq_lt_dec n 64) as [[H|H]|H]; [by apply add_sub_short|by apply add_sub_one_word|by apply add_sub_long].
Qed.
End AddSub.

(** ** Multiplication *)

Lemma land_low_mask x n : (n <= 64)%nat -> x .& low_mask n = x mod 2 ^ Z.of_nat n.
Proof. intros Hn. unfold low_mask. rewrite mask64_ones by lia. apply Z.land_ones. lia. Qed.

Lemma half_split x : is_word x ->
  exists h l, x .& low_mask 32 = l /\ (x >> 32) .& low_mask 32 = h /\
    x = h * 2 ^ 32 + l /\ 0 <= h < 2 ^ 32 /\ 0 <= l < 2 ^ 32.
Proof.
  intros Hx. unfold is_word in Hx. eexists _, _. split; [done|]. split; [done|].
  rewrite !land_low_mask by lia. unfold shr64. rewrite Z.shiftr_div_pow2 by lia. change (Z.of_nat 32) with 32.
  pose proof (Z.div_mod x (2 ^ 32) ltac:(lia)). pose proof (Z.mod_pos_bound x (2 ^ 32) ltac:(lia)).
  assert (0 <= x / 2 ^ 32 < 2 ^ 32).
  { split; [apply Z.div_pos; lia|apply Z.div_lt_upper_bound; lia]. }
  rewrite (Z.mod_small (x / 2 ^ 32)) by lia. lia.
Qed.

Lemma add64_small x y : 0 <= x + y < 2 ^ 64 -> add64 x y = x + y.
Proof. intros. by apply u64_small. Qed.

Lemma mul64_small x y : 0 <= x * y < 2 ^ 64 -> mul64 x y = x * y.
Proof. intros. by apply u64_small. Qed.

Lemma shl64_32 x : 0 <= x < 2 ^ 32 -> x << 32 = x * 2 ^ 32.
Proof. intros. unfold shl64. rewrite Z.shiftl_mul_pow2 by lia. apply u64_small. unfold is_word. lia. Qed.

Lemma half_product x y : 0 <= x < 2 ^ 32 -> 0 <= y < 2 ^ 32 ->
  mul64 x y = x * y /\ 0 <= x * y <= (2 ^ 32 - 1) * (2 ^ 32 - 1).
Proof. intros. assert (0 <= x * y <= (2 ^ 32 - 1) * (2 ^ 32 - 1)) by nia. split; [|done]. apply mul64_small. lia. Qed.

(** The four partial products of the halves, carried into two words. *)
Lemma multiply_with_carry_spec a b : is_word a -> is_word b ->
  let '(lo, hi) := multiply_with_carry a b in is_word lo /\ is_word hi /\ lo + hi * 2 ^ 64 = a * b.
Proof.
  intros Ha Hb. unfold multiply_with_carry.
  destruct (half_split a Ha) as (a1 & a0 & -> & -> & Ea & Ha1 & Ha0).
  destruct (half_split b Hb) as (b1 & b0 & -> & -> & Eb & Hb1 & Hb0).
  destruct (half_product a0 b0 Ha0 Hb0) as [-> H00], (half_product a0 b1 Ha0 Hb1) as [-> H01],
    (half_product a1 b0 Ha1 Hb0) as [-> H10], (half_product a1 b1 Ha1 Hb1) as [-> H11].
  assert (Hab : a * b = a0 * b0 + (a0 * b1 + a1 * b0) * 2 ^ 32 + a1 * b1 * 2 ^ 64) by (rewrite Ea, Eb; ring).
  assert (Hmax : a * b < 2 ^ 128) by (unfold is_word in *; nia).
  rewrite Hab in *. clear Ea Eb Hab. unfold is_word.
  destruct (half_split (a0 * b0)) as (c00 & r00 & -> & -> & E00 & ? & ?); [unfold is_word; lia|].
  destruct (half_split (a0 * b1)) as (c01 & r01 & -> & -> & E01 & ? & ?); [unfold is_word; lia|].
  destruct (half_split (a1 * b0)) as (c10 & r10 & -> & -> & E10 & ? & ?); [unfold is_word; lia|].
  destruct (half_split (a1 * b1)) as (c11 & r11 & -> & -> & E11 & ? & ?); [unfold is_word; lia|].
  rewrite (add64_small c00 r01), (add64_small (c00 + r01) r10) by lia.
  destruct (half_split (c00 + r01 + r10)) as (h1 & l1 & -> & -> & E1 & ? & ?); [unfold is_word; lia|].
  rewrite (add64_small c01 c10), (add64_small (c01 + c10) r11), (add64_small h1) by lia.
  destruct (half_split (h1 + (c01 + c10 + r11))) as (h2 & l2 & -> & -> & E2 & ? & ?); [unfold is_word; lia|].
  rewrite (add64_small h2 c11) by lia.
  assert (h2 + c11 < 2 ^ 32) by lia.
  rewrite land_low_mask, Z.mod_small, !shl64_32, !add64_small by (change (Z.of_nat 32) with 32; lia). lia.
Qed.

(** Replacing a word shifts the value by the difference at its weight. *)
Lemma pval_replace (p : plane) k w m :
  (k < m)%nat -> (k < length p)%nat -> is_word w -> Forall is_word p ->
  pval p.[k <- w] (m * 64) = pval p (m * 64) + (w - p.[k]) * 2 ^ Z.of_nat (k * 64).
Proof.
  intros Hk Hl Hw Hp. induction m as [|m IH]; [lia|]. rewrite !pval_words by auto with word.
  rewrite word_at_insert by done. destruct (Nat.eqb_spec m k) as [->|Hne].
  - rewrite pval_keep by lia. ring.
  - rewrite IH by lia. ring.
Qed.

Section Mul.
Context (cnt : nat).
Let M := 2 ^ Z.of_nat (cnt * 64).

(** Equal modulo the width of the result array. *)
Definition cong (x y : Z) : Prop := exists k, x = y + k * M.

Lemma cong_refl x : cong x x.
Proof using. exists 0. lia. Qed.
Lemma cong_trans x y z : cong x y -> cong y z -> cong x z.
Proof using. intros [k ->] [l ->]. exists (k + l). lia. Qed.
Lemma cong_add x y z w : cong x y -> cong z w -> cong (x + z) (y + w).
Proof using. intros [k ->] [l ->]. exists (k + l). lia. Qed.
Lemma cong_mul_l c x y : cong x y -> cong (c * x) (c * y).
Proof using. intros [k ->]. exists (c * k). lia. Qed.

Lemma cong_high z (i : nat) : (cnt <= i)%nat -> cong (z * 2 ^ Z.of_nat (i * 64)) 0.
Proof using.
  intros Hi. exists (z * 2 ^ Z.of_nat ((i - cnt) * 64)). unfold M.
  replace (i * 64)%nat with ((i - cnt) * 64 + cnt * 64)%nat by lia.
  rewrite Nat2Z.inj_add, Z.pow_add_r by lia. lia.
Qed.

Definition res_wf (res : plane) : Prop := length res = cnt /\ Forall is_word res.
Let pv (res : plane) : Z := pval res (cnt * 64).

Lemma add_at res i x carry : res_wf res -> (i < cnt)%nat -> is_word x -> 0 <= carry <= 1 ->
  let '(w, carry') := add_with_carry_w res.[i] x carry in
  res_wf res.[i <- w] /\ 0 <= carry' <= 1 /\
  pv res.[i <- w] + carry' * 2 ^ Z.of_nat (S i * 64) = pv res + (x + carry) * 2 ^ Z.of_nat (i * 64).
Proof using.
  intros [Hl Hw] Hi Hx Hc. pose proof (add_with_carry_w_spec res.[i] x carry ltac:(auto with word) Hx Hc) as H.
  destruct (add_with_carry_w _ _ _) as [w carry']. destruct H as (Hww & Hc' & Hs).
  split; [split; [by rewrite insert_length|auto with word]|]. split; [done|].
  unfold pv. rewrite pval_replace by (done || lia).
  replace (Z.of_nat (S i * 64)) with (64 + Z.of_nat (i * 64)) by lia. rewrite Z.pow_add_r by lia. nia.
Qed.

Lemma mul_carry_up_spec base sum carry res :
  res_wf res -> is_word sum -> 0 <= carry <= 1 -> (base < cnt)%nat ->
  let res' := mul_carry_up cnt base sum carry res in
  res_wf res' /\ cong (pv res') (pv res + (sum + carry) * 2 ^ Z.of_nat (S base * 64)).
Proof using.
  intros Hr Hs Hc Hb. cbv zeta. unfold mul_carry_up.
  pose (P := fun i '(r, s, c) => res_wf r /\ is_word s /\ 0 <= c <= 1 /\
    pv r + (s + c) * 2 ^ Z.of_nat (i * 64) = pv res + (sum + carry) * 2 ^ Z.of_nat (S base * 64)).
  assert (H : P (base + 1 + (cnt - (base + 1)))%nat
    (for_loop (cnt - (base + 1)) (base + 1) (fun add_idx '(res, sum, carry) =>
       let '(w, carry) := add_with_carry_w (word_at res add_idx) sum carry in
       (res.[add_idx <- w], 0, carry)) (res, sum, carry))).
  { apply for_loop_ind.
    - simpl. by rewrite Nat.add_1_r.
    - intros i [[r s] c] Hi (Hr' & Hs' & Hc' & E). pose proof (add_at r i s c Hr' ltac:(lia) Hs' Hc') as Ha.
      destruct (add_with_carry_w _ _ _) as [w c']. destruct Ha as (Ha & Hcc & Es). unfold P.
      split; [done|]. split; [apply is_word_0|]. split; [done|]. rewrite Z.add_0_l, Es. exact E. }
  destruct (for_loop _ _ _ _) as [[r s] c], H as (Hr' & _ & _ & E). simpl fst. split; [done|].
  replace (base + 1 + (cnt - (base + 1)))%nat with cnt in E by lia. rewrite <- E.
  apply (cong_trans _ (pv r + 0)); [rewrite Z.add_0_r; apply cong_refl|].
  apply cong_add; [apply cong_refl|]. destruct (cong_high (s + c) cnt ltac:(lia)) as [k Hk].
  exists (- k). lia.
Qed.

(** The masked operand: the code masks its last word on the fly. *)
Context (mask : Z) (Hmask : is_word mask).
Definition masked (p : plane) : plane := p.[cnt - 1 <- p.[cnt - 1] .& mask].

Lemma masked_word (p : plane) j : (cnt <= length p)%nat -> (j < cnt)%nat ->
  (if (j =? cnt - 1)%nat then p.[j] .& mask else p.[j]) = (masked p).[j].
Proof using.
  intros Hl Hj. unfold masked. rewrite word_at_insert by lia. by destruct (Nat.eqb_spec j (cnt - 1)) as [->|].
Qed.

Lemma masked_words (p : plane) : Forall is_word p -> Forall is_word (masked p).
Proof using Hmask. intros. unfold masked. auto with word. Qed.

Lemma mul_row_spec mul_a lval (a' : plane) res :
  res_wf res -> is_word lval -> (cnt <= length a')%nat -> Forall is_word a' -> (mul_a < cnt)%nat ->
  let res' := mul_row cnt mul_a mask lval a' res in
  res_wf res' /\ cong (pv res') (pv res + lval * 2 ^ Z.of_nat (mul_a * 64) * pval (masked a') (cnt * 64)).
Proof using Hmask.
  intros Hr Hlv Hla Hwa Hm. cbv zeta. unfold mul_row.
  assert (Hmw := masked_words a' Hwa).
  pose (P := fun j r => res_wf r /\
    cong (pv r) (pv res + lval * 2 ^ Z.of_nat (mul_a * 64) * pval (masked a') (j * 64))).
  assert (H : P (0 + (cnt - mul_a))%nat (for_loop (cnt - mul_a) 0
    (fun mul_b res =>
       let rval := a'.[mul_b] in
       let rval := if (mul_b =? cnt - 1)%nat then rval .& mask else rval in
       let '(tmp, sum) := multiply_with_carry lval rval in
       let base := (mul_a + mul_b)%nat in
       let '(w, carry) := add_with_carry_w (word_at res base) tmp 0 in
       mul_carry_up cnt base sum carry res.[base <- w]) res)).
  { apply for_loop_ind.
    - split; [done|]. exists 0. unfold pval. simpl. lia.
    - intros j r Hj [Hr' Hc']. cbv zeta. rewrite masked_word by lia.
      pose proof (multiply_with_carry_spec lval (masked a').[j] Hlv ltac:(auto with word)) as Hmul.
      destruct (multiply_with_carry _ _) as [tmp sum]. destruct Hmul as (Ht & Hs & Em).
      pose proof (add_at r (mul_a + j) tmp 0 Hr' ltac:(lia) Ht ltac:(lia)) as Ha.
      destruct (add_with_carry_w _ _ _) as [w c]. destruct Ha as (Hr2 & Hc & Ea).
      destruct (mul_carry_up_spec (mul_a + j) sum c _ Hr2 Hs Hc ltac:(lia)) as [Hr3 Hc3].
      split; [done|]. eapply cong_trans; [exact Hc3|].
      assert (E : pv r.[(mul_a + j) <- w] + (sum + c) * 2 ^ Z.of_nat (S (mul_a + j) * 64) =
        pv r + lval * (masked a').[j] * 2 ^ Z.of_nat ((mul_a + j) * 64)).
      { rewrite <- Em. replace (Z.of_nat (S (mul_a + j) * 64)) with (64 + Z.of_nat ((mul_a + j) * 64)) in * by lia.
        rewrite Z.pow_add_r in * by lia. nia. }
      rewrite E, pval_words by done. rewrite Z.mul_add_distr_l, Z.add_assoc. apply cong_add; [done|].
      exists 0. replace (Z.of_nat ((mul_a + j) * 64)) with (Z.of_nat (mul_a * 64) + Z.of_nat (j * 64)) by lia.
      rewrite Z.pow_add_r by lia. ring. }
  destruct H as [H1 H2]. split; [done|]. eapply cong_trans; [exact H2|]. simpl (0 + _)%nat.
  apply cong_add; [apply cong_refl|]. rewrite <- !Z.mul_assoc. apply cong_mul_l.
  replace (cnt * 64)%nat with ((cnt - mul_a) * 64 + mul_a * 64)%nat by lia.
  exists (- (pval (masked a') ((cnt - mul_a) * 64 + mul_a * 64) / 2 ^ Z.of_nat ((cnt - mul_a) * 64))).
  pose proof (pval_mod_pow (masked a') ((cnt - mul_a) * 64 + mul_a * 64) ((cnt - mul_a) * 64) ltac:(lia)) as Hlow.
  pose proof (Z.div_mod (pval (masked a') ((cnt - mul_a) * 64 + mul_a * 64))
    (2 ^ Z.of_nat ((cnt - mul_a) * 64)) ltac:(lia)) as Hdm. rewrite Hlow in Hdm.
  unfold M. replace (cnt * 64)%nat with ((cnt - mul_a) * 64 + mul_a * 64)%nat by lia.
  rewrite Nat2Z.inj_add, Z.pow_add_r by lia. rewrite Hdm at 1. ring.
Qed.

Lemma mul_words_spec (a a' : plane) :
  (cnt <= length a)%nat -> Forall is_word a -> (cnt <= length a')%nat -> Forall is_word a' ->
  let res := mul_words cnt mask a a' in
  res_wf res /\ cong (pv res) (pval (masked a) (cnt * 64) * pval (masked a') (cnt * 64)).
Proof using Hmask.
  intros Hla Hwa Hla' Hwa'. cbv zeta. unfold mul_words. assert (Hmw := masked_words a Hwa).
  apply (for_loop_ind (fun i r => res_wf r /\
    cong (pv r) (pval (masked a) (i * 64) * pval (masked a') (cnt * 64))) cnt 0).
  - split; [split; [apply length_replicate|auto with word]|]. exists 0. unfold pv, pval at 2. simpl.
    apply Z.bits_inj'. intros i Hi. unfold pval. rewrite Zbits_testbit, Z.bits_0 by done.
    unfold pbit, word_at. destruct (replicate cnt 0 !! _) eqn:E; simpl.
    + apply lookup_replicate in E as [-> _]. by rewrite Z.bits_0, andb_false_r.
    + by rewrite Z.bits_0, andb_false_r.
  - intros i r Hi [Hr Hc]. cbv zeta. rewrite masked_word by lia.
    destruct (mul_row_spec i (masked a).[i] a' r) as [Hr' Hc']; [done|auto with word|done|done|lia|].
    split; [done|]. eapply cong_trans; [exact Hc'|]. rewrite pval_words, Z.mul_add_distr_r by done.
    apply cong_add; [done|apply cong_refl].
Qed.
End Mul.

Lemma pval_not (p : plane) n : (n <= length p * 64)%nat ->
  pval (map not64 p) n = 2 ^ Z.of_nat n - 1 - pval p n.
Proof.
  intros Hn. induction n as [|n IH]; [done|]. unfold pval in *. rewrite !Zbits_S, IH by lia. rewrite pow2_S.
  assert (Hb : pbit (map not64 p) n = negb (pbit p n)).
  { destruct (div64 n). unfold pbit. rewrite word_at_map by lia. rewrite not64_bit by lia. split_ltb; [done|lia]. }
  rewrite Hb. destruct (pbit p n); simpl Z.b2z; lia.
Qed.

Lemma id64 x : is_word x -> x .& ones64 = x.
Proof. intros Hx. apply word_ext; [auto with word|done|]. intros i Hi. bits_solve. Qed.

Lemma lor_nonzero x y : negb (x .| y =? 0) = negb (x =? 0) || negb (y =? 0).
Proof.
  destruct (Z.eqb_spec (x .| y) 0) as [E|E]; simpl.
  - apply Z.lor_eq_0_iff in E as [-> ->]. done.
  - destruct (Z.eqb_spec x 0) as [E1|]; [|done]. destruct (Z.eqb_spec y 0) as [E2|]; [|done].
    by rewrite E1, E2 in E.
Qed.

Section MulTop.
Context (this that : vvp_vector4_t).
Context (Hthis : vec_wf this) (Hthat : vec_wf that) (Hsize : size this = size that).
Let n := size this.
Let k := (n / BITS_PER_WORD)%nat.
Let r := (n mod BITS_PER_WORD)%nat.
Let cnt := word_count n.
Let mask := if negb (r =? 0)%nat then .~ (ones64 << r) else ones64.
(** How many bits of the last word are used. *)
Let last_bits := if (r =? 0)%nat then 64%nat else r.

Lemma last_word : (64 < n)%nat -> (n = (cnt - 1) * 64 + last_bits /\ 0 < last_bits <= 64 /\ 0 < cnt)%nat.
Proof using All.
  intros Hn. unfold last_bits, cnt, r. pose proof (word_count_bounds n). destruct (div64 n).
  destruct (Nat.eqb_spec (n mod BITS_PER_WORD) 0); lia.
Qed.

Lemma mul_mask_bit i : (i < 64)%nat -> Z.testbit mask (Z.of_nat i) = (i <? last_bits)%nat.
Proof using All.
  intros Hi. unfold mask, last_bits. destruct (Nat.eqb_spec r 0); simpl negb; cbv iota.
  - rewrite ones64_bit by lia. nat_cases; split_ltb; (done || lia).
  - apply tail_mask_bit; [apply div64|done].
Qed.

Lemma mul_mask_word : is_word mask.
Proof using All. unfold mask. destruct (negb _); auto with word. Qed.

Lemma mul_mask_land x : is_word x -> x .& mask = x mod 2 ^ Z.of_nat last_bits.
Proof using All.
  intros Hx. unfold mask, last_bits. destruct (Nat.eqb_spec r 0); simpl negb; cbv iota.
  - rewrite id64, Z.mod_small by done. done.
  - apply tail_mask_land; [apply div64|done].
Qed.

Lemma masked_value (p : plane) : (64 < n)%nat -> length p = cnt -> Forall is_word p ->
  pval (masked cnt mask p) (cnt * 64) = pval p n.
Proof using All.
  intros Hn Hl Hw. destruct (last_word Hn) as (Hc & Hb & H0).
  assert (Hmw := masked_words cnt mask mul_mask_word p Hw).
  rewrite Hc. rewrite pval_split by lia.
  replace (cnt * 64)%nat with (S (cnt - 1) * 64)%nat by lia. rewrite pval_words by done.
  unfold masked. rewrite pval_keep, word_at_insert, Nat.eqb_refl by lia.
  by rewrite mul_mask_land by auto with word.
Qed.

Lemma masked_bit (p : plane) i : (64 < n)%nat -> length p = cnt -> (i < cnt * 64)%nat ->
  pbit (masked cnt mask p) i = (i <? n)%nat && pbit p i.
Proof using All.
  intros Hn Hl Hi. destruct (last_word Hn) as (Hc & Hb & H0). unfold masked. destruct (div64 i).
  rewrite pbit_insert by lia. destruct (Nat.eqb_spec (i / BITS_PER_WORD) (cnt - 1)) as [E|E].
  - rewrite Z.land_spec, mul_mask_bit by lia. unfold pbit. rewrite E, andb_comm. f_equal.
    nat_cases; (done || nia).
  - nat_cases; [done|]. nia.
Qed.

Lemma any_masked (p : plane) : (64 < n)%nat -> length p = cnt ->
  any (masked cnt mask p) (cnt * 64) = any p n.
Proof using All.
  intros Hn Hl. destruct (last_word Hn) as (Hc & Hb & H0).
  apply eq_true_iff_eq. rewrite !any_iff. split; intros (i & Hi & H).
  - rewrite masked_bit in H by done. apply andb_true_iff in H as [H1%Nat.ltb_lt H2]. by exists i.
  - exists i. split; [lia|]. rewrite masked_bit, H by (done || lia). by rewrite (proj2 (Nat.ltb_lt _ _) Hi).
Qed.

Lemma xz_words m (p q : plane) : Forall is_word p -> Forall is_word q ->
  existsb (fun idx => negb (word_at p idx =? 0) || negb (word_at q idx =? 0)) (seq 0 m) =
  any p (m * 64) || any q (m * 64).
Proof using All.
  intros Hp Hq. induction m as [|m IH]; [done|].
  rewrite seq_S, existsb_app, IH, !any_word by done. simpl.
  by destruct (any p (m * 64)), (any q (m * 64)), (negb (p.[m] =? 0)), (negb (q.[m] =? 0)).
Qed.

(** The x/z scan of the long case. *)
Lemma mul_xz_scan (p q : plane) : (64 < n)%nat -> length p = cnt -> length q = cnt ->
  Forall is_word p -> Forall is_word q ->
  let last idx w := if (idx =? cnt - 1)%nat then w .& mask else w in
  existsb (fun idx => negb (last idx p.[idx] =? 0) || negb (last idx q.[idx] =? 0)) (seq 0 cnt) =
    any p n || any q n.
Proof using All.
  intros Hn Hlp Hlq Hp Hq. cbv zeta. rewrite <- (any_masked p Hn Hlp), <- (any_masked q Hn Hlq).
  rewrite <- xz_words by (apply masked_words; (done || apply mul_mask_word)).
  apply existsb_ext_in. intros i Hi%in_seq. by rewrite !masked_word by lia.
Qed.

(** The x result of the long case. *)
Lemma mul_x_plane (p : plane) w : (64 < n)%nat -> length p = cnt -> Forall is_word p -> is_word w ->
  (forall b, 0 <= b < 64 -> Z.testbit w b = true) ->
  let p' := for_loop (cnt - 1) 0 (fun xdx p => p.[xdx <- w]) p in
  let r := p'.[cnt - 1 <- w .& mask] in
  length r = cnt /\ Forall is_word r /\ forall i, (i < n)%nat -> pbit r i = true.
Proof using All.
  intros Hn Hl Hp Hw Hb. cbv zeta. destruct (last_word Hn) as (Hc & Hlb & H0).
  destruct (loop_words (fun _ _ => w) (cnt - 1) 0 p) as (L1 & L2 & L3); [lia|].
  set (p' := for_loop _ _ _ _) in *. rewrite insert_length. split; [congruence|].
  assert (Hp' : Forall is_word p') by (apply L3; auto).
  split; [pose proof mul_mask_word; auto with word|].
  intros i Hi. rewrite pbit_insert by lia. destruct (div64 i).
  destruct (Nat.eqb_spec (i / BITS_PER_WORD) (cnt - 1)).
  - rewrite Z.land_spec, mul_mask_bit, Hb by lia. apply Nat.ltb_lt. nia.
  - unfold pbit. rewrite L2. nat_cases; simpl; try nia. apply Hb. lia.
Qed.

Lemma mul_long : (64 < n)%nat ->
  exists v, vec4_mul this that = Some v /\
    arith_result (any (bbits this) n || any (bbits that) n) n (vval this * vval that) v.
Proof using All.
  intros Hn. unfold vec4_mul. rewrite (proj2 (Nat.eqb_eq _ _) Hsize). fold n. change (negb true) with false. cbv iota.
  destruct (Nat.ltb_spec n BITS_PER_WORD) as [Hlt|_]; [unfold BITS_PER_WORD in Hlt; lia|].
  destruct (Nat.eqb_spec n BITS_PER_WORD) as [He|_]; [unfold BITS_PER_WORD in He; lia|].
  cbv zeta. fold r cnt mask. destruct (last_word Hn) as (Hc & Hlb & H0).
  pose proof (proj2 (is_long_spec n) Hn) as Hlong.
  destruct Hthis as [[Hla Hwa] [Hlb1 Hwb]], Hthat as [[Hla' Hwa'] [Hlb' Hwb']].
  rewrite <- Hsize in Hla', Hlb'. fold n in Hla, Hlb1, Hla', Hlb'. unfold storage in *. rewrite Hlong in *.
  fold cnt in Hla, Hlb1, Hla', Hlb'.
  rewrite (mul_xz_scan (bbits this) (bbits that)) by done.
  destruct (any (bbits this) n || any (bbits that) n) eqn:E; eexists; (split; [reflexivity|]).
  - assert (Hone : forall b, 0 <= b < 64 -> Z.testbit ones64 b = true)
      by (intros; rewrite ones64_bit by lia; apply Z.ltb_lt; lia).
    destruct (mul_x_plane (abits this) ones64 Hn Hla Hwa is_word_ones64 Hone) as (A1 & A2 & A3).
    destruct (mul_x_plane (bbits this) ones64 Hn Hlb1 Hwb is_word_ones64 Hone) as (B1 & B2 & B3).
    split; [split; split; unfold storage; simpl; rewrite ?Hlong; done|]. split; [done|].
    intros i Hi. rewrite value_lt by done. cbn [abits bbits]. cbv zeta in A3, B3. cbn [init_atable init_btable].
    by rewrite A3, B3.
  - destruct (mul_words_spec cnt mask mul_mask_word (abits this) (abits that)) as [[Hrl Hrw] [q Hcong]]; [lia|done|lia|done|].
    rewrite !masked_value in Hcong by done. set (res := mul_words _ _ _ _) in *.
    fold (masked cnt mask res). assert (Hmw := masked_words cnt mask mul_mask_word res Hrw).
    destruct (loop_words (fun j _ => (masked cnt mask res).[j]) cnt 0 (abits this)) as (L1 & L2 & L3); [lia|].
    set (a2 := for_loop _ _ _ _) in *.
    assert (Ha2 : forall j, (j < cnt)%nat -> a2.[j] = (masked cnt mask res).[j]).
    { intros j Hj. rewrite L2. nat_cases; simpl; (done || lia). }
    split; [split; split|].
    + change (length a2 = storage n). unfold storage. rewrite Hlong, L1. exact Hla.
    + apply L3; [done|]. intros; auto with word.
    + unfold storage. simpl. by rewrite Hlong.
    + done.
    + split; [done|]. apply orb_false_iff in E as [E _]. split; [by rewrite any_xz_plane|].
      unfold vval. simpl. rewrite (pval_ext a2 (masked cnt mask res)).
      2: { intros i Hi. apply pbit_words_eq. apply Ha2. destruct (div64 i). nia. }
      rewrite (pval_ext _ res).
      2: { intros i Hi. rewrite masked_bit by (done || lia). by rewrite (proj2 (Nat.ltb_lt _ _) Hi). }
      rewrite <- (pval_mod_pow res (cnt * 64) n) by lia. rewrite Hcong.
      replace (Z.of_nat (cnt * 64)) with (Z.of_nat n + (Z.of_nat (cnt * 64) - Z.of_nat n)) by lia.
      rewrite Z.pow_add_r by lia. rewrite (Z.mul_comm (2 ^ Z.of_nat n)), Z.mul_assoc, Z.mod_add by lia. by rewrite <- Hsize.
Qed.
End MulTop.

(** Multiplication within one word has the shape of the addition. *)
Lemma mul_short (this that : vvp_vector4_t) :
  vec_wf this -> vec_wf that -> size this = size that -> (size this <= 64)%nat ->
  exists v, vec4_mul this that = Some v /\
    arith_result (any (bbits this) (size this) || any (bbits that) (size this)) (size this)
      (vval this * vval that) v.
Proof.
  intros Hthis Hthat Hsize Hn. unfold vec4_mul. rewrite (proj2 (Nat.eqb_eq _ _) Hsize).
  change (negb true) with false. cbv iota. pose proof Hthis as [[Hla Hwa] [Hlb Hwb]]. pose proof Hthat as [[_ Hwa'] [_ Hwb']].
  pose proof (storage_bound (size this)).
  assert (Hv : mul64 (abits this).[0] (abits that).[0] mod 2 ^ Z.of_nat (size this) =
    (vval this * vval that) mod 2 ^ Z.of_nat (size this)).
  { unfold vval. rewrite <- Hsize, !(pval_mod _ 0) by (done || lia). rewrite <- Zmult_mod. unfold mul64, u64.
    replace 64 with (Z.of_nat (size this) + (64 - Z.of_nat (size this))) by lia. rewrite Z.pow_add_r by lia.
    apply Z.mod_mod_divide, Z.divide_factor_l. }
  destruct (Nat.ltb_spec (size this) BITS_PER_WORD) as [Hlt|Hge].
  - unfold BITS_PER_WORD in Hlt.
    rewrite (xz_short this that Hthis Hthat Hsize _ Hn (is_word_not64 _)) by (intros; by apply tail_mask_bit).
    destruct (negb _) eqn:E; eexists; (split; [reflexivity|]).
    + apply (set_x_word this that); auto with word. intros i Hi. rewrite tail_mask_bit by lia. by apply Nat.ltb_lt.
    + rewrite word_at_insert, Nat.eqb_refl, list_insert_insert_eq by lia.
      rewrite tail_mask_land by auto with word.
      assert (Hw : is_word (mul64 (abits this).[0] (abits that).[0] mod 2 ^ Z.of_nat (size this))).
      { rewrite <- tail_mask_land by auto with word. auto with word. }
      destruct (one_word_value this that Hthis Hthat Hsize _ (size this) (vval this * vval that) Hn eq_refl Hw) as [H1|H1];
        [by rewrite Zmod_mod|exact H1|]. exfalso.
      rewrite <- (xz_short this that Hthis Hthat Hsize _ Hn (is_word_not64 _)) in E by (intros; by apply tail_mask_bit).
      by rewrite H1 in E.
  - assert (E64 : size this = 64%nat) by (unfold BITS_PER_WORD in Hge; lia).
    destruct (Nat.eqb_spec (size this) BITS_PER_WORD) as [_|Hne]; [|done].
    assert (Hall : forall i, (i < 64)%nat -> Z.testbit ones64 (Z.of_nat i) = (i <? size this)%nat).
    { intros i Hi. rewrite ones64_bit by lia. nat_cases; split_ltb; (done || lia). }
    pose proof (xz_short this that Hthis Hthat Hsize ones64 Hn is_word_ones64 Hall) as Hxz.
    rewrite id64, lor_nonzero in Hxz by auto with word. rewrite <- Hxz.
    destruct (any (bbits this) (size this) || any (bbits that) (size this)) eqn:E; eexists; (split; [reflexivity|]).
    + apply (set_x_word this that Hthis Hthat Hsize ones64 Hn is_word_ones64) with (wa := 0) (wb := 0);
        [|apply is_word_0|apply is_word_0].
      intros i Hi. rewrite Hall by lia. by apply Nat.ltb_lt.
    + destruct (one_word_value this that Hthis Hthat Hsize (mul64 (abits this).[0] (abits that).[0]) (size this) (vval this * vval that))
        as [H1|H1]; [lia|done|auto with word|exact Hv|exact H1|]. by rewrite H1 in E.
Qed.

(** ** Properties *)

Lemma vec4_add_sub_spec (this that : vvp_vector4_t) :
  vec_wf this -> vec_wf that -> size this = size that ->
  (exists r, vec4_add this that = Some r /\
     arith_result (any_xz this || any_xz that) (size this) (vval this + vval that) r) /\
  (exists r, vec4_sub this that = Some r /\
     arith_result (any_xz this || any_xz that) (size this) (vval this - vval that) r).
Proof.
  intros Hthis Hthat Hs. unfold vec4_add, vec4_sub. rewrite (proj2 (Nat.eqb_eq _ _) Hs).
  rewrite !any_xz_plane, <- Hs. unfold vval at 2 4. rewrite <- Hs. split; (eexists; split; [reflexivity|]).
  - pose proof (add_sub_spec add64 (fun w => w) 0 (fun w H => H) ltac:(lia)
      (fun x y _ _ => f_equal (fun z => z mod 2 ^ 64) (eq_sym (Z.add_0_r (x + y)))) this that Hthis Hthat Hs) as H.
    cbv zeta beta in H. rewrite map_id, Z.add_0_r in H. exact H.
  - assert (Hop : forall x y, is_word x -> is_word y -> sub64 x y = (x + not64 y + 1) mod 2 ^ 64).
    { intros x y Hx Hy. unfold sub64, not64, u64.
      rewrite <- Z.add_assoc, (Z.add_comm (_ mod _)), Z.add_assoc, Zplus_mod_idemp_r. f_equal.
      pose proof (Z.add_lnot_diag y). lia. }
    pose proof (add_sub_spec sub64 not64 1 (fun w _ => is_word_not64 w) ltac:(lia) Hop this that Hthis Hthat Hs) as H.
    cbv zeta beta in H. rewrite pval_not in H by (destruct Hthat as [[-> _] _]; destruct (storage_bound (size that)); lia).
    destruct H as (H1 & H2 & H3). split; [done|]. split; [done|]. destruct (any _ _ || any _ _); [done|].
    destruct H3 as [H3 H4]. split; [done|]. rewrite H4. unfold vval.
    replace (pval (abits this) (size this) + (2 ^ Z.of_nat (size this) - 1 - pval (abits that) (size this)) + 1)
      with (pval (abits this) (size this) - pval (abits that) (size this) + 1 * 2 ^ Z.of_nat (size this)) by lia.
    apply Z.mod_add. lia.
Qed.

(** C10. Addition and subtraction of vectors of one size: all x if any operand bit
    is x or z, otherwise the sum and the difference of the operands modulo
    [2^size], for single words and for carry chains of any length. *)
Theorem vec4_add_sub_correct (this that : vvp_vector4_t) :
  vec_wf this -> vec_wf that -> size this = size that ->
  (exists r, vec4_add this that = Some r /\
     arith_result (any_xz this || any_xz that) (size this) (vval this + vval that) r) /\
  (exists r, vec4_sub this that = Some r /\
     arith_result (any_xz this || any_xz that) (size this) (vval this - vval that) r).
Proof. apply vec4_add_sub_spec. Qed.

Lemma vec4_mul_spec (this that : vvp_vector4_t) :
  vec_wf this -> vec_wf that -> size this = size that ->
  exists r, vec4_mul this that = Some r /\
    arith_result (any_xz this || any_xz that) (size this) (vval this * vval that) r.
Proof.
  intros Hthis Hthat Hs. rewrite !any_xz_plane, <- Hs.
  destruct (Nat.le_gt_cases (size this) 64); [by apply mul_short|by apply mul_long].
Qed.

(** C19. Multiplication: all x on an x or z bit, otherwise the product modulo
    [2^size]; the multi-word schoolbook algorithm with its half-word products
    and carries loses nothing below the width. *)
Theorem vec4_mul_correct (this that : vvp_vector4_t) :
  vec_wf this -> vec_wf that -> size this = size that ->
  exists r, vec4_mul this that = Some r /\
    arith_result (any_xz this || any_xz that) (size this) (vval this * vval that) r.
Proof. apply vec4_mul_spec. Qed.

(** The double-word product of two words, from four half-word products. *)
Theorem multiply_with_carry_correct (a b : Z) :
  is_word a -> is_word b ->
  let '(lo, hi) := multiply_with_carry a b in is_word lo /\ is_word hi /\ lo + hi * 2 ^ 64 = a * b.
Proof. apply multiply_with_carry_spec. Qed.

(** An [n]-bit vector of the bits of [z]. *)
Definition vec4_of_Z (n : nat) (z : Z) : vvp_vector4_t :=
  Vec4 n (map (fun k => Z.shiftr (z mod 2 ^ Z.of_nat n) (64 * Z.of_nat k) mod 2 ^ 64) (seq 0 (storage n)))
    (replicate (storage n) 0).

Lemma vec4_add_sub_correct_witness :
  exists r, vec4_sub (vec4_of_Z 200 5) (vec4_of_Z 200 7) = Some r /\ vval r = 2 ^ 200 - 2.
Proof.
  destruct (vec4_add_sub_correct (vec4_of_Z 200 5) (vec4_of_Z 200 7)) as [_ (r & E & _ & _ & H)].
  - apply vec_wf_dec_bool. vm_compute. reflexivity.
  - apply vec_wf_dec_bool. vm_compute. reflexivity.
  - reflexivity.
  - exists r. split; [exact E|].
    assert (Hx : any_xz (vec4_of_Z 200 5) || any_xz (vec4_of_Z 200 7) = false) by (vm_compute; reflexivity).
    rewrite Hx in H. destruct H as [_ H]. refine (eq_trans H _). vm_compute. reflexivity.
Defined.

Lemma vec4_mul_correct_witness :
  exists r, vec4_mul (vec4_of_Z 150 (3 ^ 60)) (vec4_of_Z 150 (5 ^ 40)) = Some r /\
    vval r = (3 ^ 60 * 5 ^ 40) mod 2 ^ 150.
Proof.
  destruct (vec4_mul_correct (vec4_of_Z 150 (3 ^ 60)) (vec4_of_Z 150 (5 ^ 40))) as (r & E & _ & _ & H).
  - apply vec_wf_dec_bool. vm_compute. reflexivity.
  - apply vec_wf_dec_bool. vm_compute. reflexivity.
  - reflexivity.
  - exists r. split; [exact E|].
    assert (Hx : any_xz (vec4_of_Z 150 (3 ^ 60)) || any_xz (vec4_of_Z 150 (5 ^ 40)) = false) by (vm_compute; reflexivity).
    rewrite Hx in H. destruct H as [_ H]. refine (eq_trans H _). vm_compute. reflexivity.
Defined.

Lemma multiply_with_carry_correct_witness :
  let '(lo, hi) := multiply_with_carry ones64 ones64 in lo + hi * 2 ^ 64 = ones64 * ones64.
Proof.
  destruct (multiply_with_carry_correct ones64 ones64) as (_ & _ & H);
    [apply is_word_ones64|apply is_word_ones64|exact H].
Defined.
