(* ===== verification/Vector4Logic.v ===== *)
(** * Vector4Logic: bitwise operators of run-time vectors

    The word-parallel formulas on the two planes are the four-state operators
    of single bits. *)

From S2P Require Import Prelude FourState Vector4 Vector4Value Vector4Ops Vector4Arith.
Import Bit4.

Open Scope ivl_scope.

(** ** Word loops *)

Lemma for_loop_ext {S : Type} (f g : nat -> S -> S) n : forall start s,
  (forall i s, f i s = g i s) -> for_loop n start f s = for_loop n start g s.
Proof. induction n as [|n IH]; intros start s H; simpl; [done|]. rewrite H. by apply IH. Qed.

(** A statement on every word of both planes. *)
Lemma each_word_spec (size_ : nat) (f : nat -> plane * plane -> plane * plane) (fa fb : nat -> Z -> Z -> Z) (a b : plane) :
  (forall idx a b, f idx (a, b) =
     (a.[idx <- fa idx (word_at a idx) (word_at b idx)], b.[idx <- fb idx (word_at a idx) (word_at b idx)])) ->
  length a = storage size_ -> length b = storage size_ ->
  let s := each_word size_ f (a, b) in
  length (fst s) = storage size_ /\ length (snd s) = storage size_ /\
  forall k, (k < storage size_)%nat -> (fst s).[k] = fa k a.[k] b.[k] /\ (snd s).[k] = fb k a.[k] b.[k].
Proof.
  intros Hf Hla Hlb. cbv zeta. unfold each_word.
  assert (E : (if is_long size_ then for_loop (word_count size_) 0 f (a, b) else f 0%nat (a, b)) =
    for_loop (storage size_) 0 (fun idx '(a, b) =>
      (a.[idx <- fa idx (word_at a idx) (word_at b idx)],
       b.[idx <- fb idx (word_at a idx) (word_at b idx)])) (a, b)).
  { unfold storage. destruct (is_long size_).
    - apply for_loop_ext. intros i [a0 b0]. apply Hf.
    - simpl. apply Hf. }
  rewrite E. destruct (loop_planes fa fb (storage size_) a b) as (H1 & H2 & H3 & H4); [lia|lia|].
  split; [congruence|]. split; [congruence|]. intros k Hk. rewrite H3, H4.
  by rewrite (proj2 (Nat.ltb_lt _ _) Hk).
Qed.

Lemma plane_wf_words n (p : plane) :
  length p = storage n -> (forall k, (k < storage n)%nat -> is_word p.[k]) -> plane_wf n p.
Proof.
  intros Hl Hw. split; [done|]. apply Forall_lookup. intros i x Hx.
  pose proof (lookup_lt_Some _ _ _ Hx) as Hi. specialize (Hw i ltac:(lia)). unfold word_at in Hw. by rewrite Hx in Hw.
Qed.

(** From words to bits: an operator on words that is an operator on bits. *)
Lemma each_word_bits (this : vvp_vector4_t) (f : nat -> plane * plane -> plane * plane)
    (fa fb : nat -> Z -> Z -> Z) (op : nat -> vvp_bit4_t -> vvp_bit4_t) :
  vec_wf this ->
  (forall idx a b, f idx (a, b) =
     (a.[idx <- fa idx (word_at a idx) (word_at b idx)], b.[idx <- fb idx (word_at a idx) (word_at b idx)])) ->
  (forall k x y, (k < storage (size this))%nat -> is_word x -> is_word y ->
     is_word (fa k x y) /\ is_word (fb k x y) /\
     forall b, (b < 64)%nat -> (k * 64 + b < size this)%nat ->
       mk_bit (Z.testbit (fa k x y) (Z.of_nat b)) (Z.testbit (fb k x y) (Z.of_nat b)) =
       op (k * 64 + b)%nat (mk_bit (Z.testbit x (Z.of_nat b)) (Z.testbit y (Z.of_nat b)))) ->
  let r := of_planes (size this) (each_word (size this) f (abits this, bbits this)) in
  vec_wf r /\ size r = size this /\
  forall i, (i < size this)%nat -> value r i = op i (value this i).
Proof.
  intros [[Hla Hwa] [Hlb Hwb]] Hf Hop. cbv zeta.
  destruct (each_word_spec (size this) f fa fb (abits this) (bbits this) Hf Hla Hlb) as (H1 & H2 & H3).
  cbv zeta in *. set (s := each_word _ _ _) in *. unfold of_planes.
  split.
  { split; apply plane_wf_words; simpl; try done; intros k Hk; destruct (H3 k Hk) as [E1 E2];
      rewrite ?E1, ?E2; apply Hop; auto with word. }
  split; [done|]. intros i Hi. rewrite !value_lt by done. cbn [abits bbits]. unfold pbit.
  destruct (div64 i) as [Hd Hm]. destruct (H3 (i / BITS_PER_WORD)%nat) as [-> ->]; [by apply storage_index|].
  destruct (Hop (i / BITS_PER_WORD)%nat (abits this).[i / BITS_PER_WORD] (bbits this).[i / BITS_PER_WORD])
    as (_ & _ & Hb); [by apply storage_index|auto with word|auto with word|].
  specialize (Hb (i mod BITS_PER_WORD)%nat). rewrite Hd in Hb. by apply Hb.
Qed.

(** ** The operators *)

Lemma bitwise_op_spec (f : Z -> Z -> Z -> Z -> Z * Z) (op : vvp_bit4_t -> vvp_bit4_t -> vvp_bit4_t) this that :
  (forall a b a' b', is_word a -> is_word b -> is_word a' -> is_word b' ->
     is_word (fst (f a b a' b')) /\ is_word (snd (f a b a' b')) /\
     forall i, (i < 64)%nat ->
       mk_bit (Z.testbit (fst (f a b a' b')) (Z.of_nat i)) (Z.testbit (snd (f a b a' b')) (Z.of_nat i)) =
       op (mk_bit (Z.testbit a (Z.of_nat i)) (Z.testbit b (Z.of_nat i)))
          (mk_bit (Z.testbit a' (Z.of_nat i)) (Z.testbit b' (Z.of_nat i)))) ->
  vec_wf this -> vec_wf that -> size this = size that ->
  let r := bitwise_op f this that in
  vec_wf r /\ size r = size this /\
  forall i, (i < size this)%nat -> value r i = op (value this i) (value that i).
Proof.
  intros Hf Hthis [[Hla' Hwa'] [Hlb' Hwb']] Hs.
  apply (each_word_bits this _
    (fun k a b => fst (f a b (abits that).[k] (bbits that).[k]))
    (fun k a b => snd (f a b (abits that).[k] (bbits that).[k]))
    (fun i c => op c (value that i))); [done| |].
  - intros idx a b. by destruct (f _ _ _ _).
  - intros k x y Hk Hx Hy. destruct (Hf x y (abits that).[k] (bbits that).[k]) as (H1 & H2 & H3); auto with word.
    split; [done|]. split; [done|]. intros b Hb Hi. rewrite H3 by done. f_equal.
    rewrite value_lt by lia. by rewrite !pbit_word by done.
Qed.

Ltac word_cases :=
  intros i Hi; cbn [fst snd]; bits_simpl;
  rewrite ?(proj2 (Z.ltb_lt (Z.of_nat i) 64)) by lia;
  repeat match goal with
  | |- context [Z.testbit ?x (Z.of_nat i)] => destruct (Z.testbit x (Z.of_nat i))
  end; reflexivity.

Lemma and_word_spec this that : vec_wf this -> vec_wf that -> size this = size that ->
  let r := vec4_and this that in
  vec_wf r /\ size r = size this /\
  forall i, (i < size this)%nat -> value r i = bit4_and (value this i) (value that i).
Proof.
  apply bitwise_op_spec. intros a b a' b' Ha Hb Ha' Hb'. unfold and_word.
  split; [cbn [fst]; auto 8 with word|]. split; [cbn [snd]; auto 8 with word|]. word_cases.
Qed.

Lemma or_word_spec this that : vec_wf this -> vec_wf that -> size this = size that ->
  let r := vec4_or this that in
  vec_wf r /\ size r = size this /\
  forall i, (i < size this)%nat -> value r i = bit4_or (value this i) (value that i).
Proof.
  apply bitwise_op_spec. intros a b a' b' Ha Hb Ha' Hb'. unfold or_word.
  split; [cbn [fst]; auto 8 with word|]. split; [cbn [snd]; auto 8 with word|]. word_cases.
Qed.

Lemma xor_word_spec this that : vec_wf this -> vec_wf that -> size this = size that ->
  let r := vec4_xor this that in
  vec_wf r /\ size r = size this /\
  forall i, (i < size this)%nat -> value r i = bit4_xor (value this i) (value that i).
Proof.
  apply bitwise_op_spec. intros a b a' b' Ha Hb Ha' Hb'. unfold xor_word.
  split; [cbn [fst]; auto 8 using is_word_lxor with word|]. split; [cbn [snd]; auto 8 with word|]. word_cases.
Qed.

Lemma insert_self (p : plane) i : p.[i <- p.[i]] = p.
Proof.
  destruct (decide (i < length p)%nat) as [Hi|Hi].
  - apply list_insert_id. unfold word_at. by destruct (lookup_lt_is_Some_2 p i Hi) as [x ->].
  - apply list_insert_ge. lia.
Qed.

Lemma change_z2x_spec this : vec_wf this ->
  let r := change_z2x this in
  vec_wf r /\ size r = size this /\ forall i, (i < size this)%nat -> value r i = bit4_z2x (value this i).
Proof.
  intros Hthis. apply (each_word_bits this _ (fun _ a b => a .| b) (fun _ _ b => b) (fun _ => bit4_z2x) Hthis).
  - intros idx a b. by rewrite insert_self.
  - intros k x y _ Hx Hy. split; [auto with word|]. split; [done|]. intros b Hb _. rewrite Z.lor_spec.
    by destruct (Z.testbit x _), (Z.testbit y _).
Qed.

Lemma fill_bits_spec this c : vec_wf this ->
  let r := fill_bits this c in
  vec_wf r /\ size r = size this /\ forall i, (i < size this)%nat -> value r i = c.
Proof.
  intros Hthis. destruct (is_word_init c) as [Ha Hb].
  apply (each_word_bits this _ (fun _ _ _ => init_atable c) (fun _ _ _ => init_btable c) (fun _ _ => c) Hthis).
  - done.
  - intros k x y _ Hx Hy. split; [done|]. split; [done|]. intros b Hb' _.
    destruct (init_table_bit c (Z.of_nat b)) as [-> ->]; [lia|]. apply mk_bit_parts.
Qed.

(** ** Inversion *)

(** The bits of an inverted word: masked or whole. *)
Lemma not_bit a b : mk_bit (b || negb a) b = bit4_not (mk_bit a b).
Proof. by destruct a, b. Qed.

(** Planes whose a bits are those of the complement. *)
Lemma inverted_value (this : vvp_vector4_t) (p : plane) (b : plane) :
  plane_wf (size this) p -> plane_wf (size this) b ->
  (forall i, (i < size this)%nat -> pbit p i = pbit (bbits this) i || negb (pbit (abits this) i)) ->
  (forall i, (i < size this)%nat -> pbit b i = pbit (bbits this) i) ->
  let r := Vec4 (size this) p b in
  vec_wf r /\ size r = size this /\ forall i, (i < size this)%nat -> value r i = bit4_not (value this i).
Proof.
  intros Hp Hb Ha Hbb. split; [done|]. split; [done|]. intros i Hi. rewrite !value_lt by done. simpl.
  rewrite Ha, Hbb by done. apply not_bit.
Qed.

Lemma low_or_ones_bit n b : (n <= 64)%nat -> (b < n)%nat ->
  Z.testbit (if (n <? BITS_PER_WORD)%nat then low_mask n else ones64) (Z.of_nat b) = true.
Proof.
  intros Hn Hb. destruct (Nat.ltb_spec n BITS_PER_WORD) as [H|H]; unfold BITS_PER_WORD in H.
  - rewrite low_mask_bit by lia. apply Z.ltb_lt. lia.
  - rewrite ones64_bit by lia. apply Z.ltb_lt. lia.
Qed.

(** A loop over the whole words, then the rest of the last one under its mask. *)
Lemma whole_then_rest n (f : nat -> Z -> Z) (g : Z -> nat -> Z -> Z) (p : plane) (target : nat -> bool) :
  length p = storage n -> (64 < n)%nat -> Forall is_word p ->
  (forall k w, is_word w -> is_word (f k w)) -> (forall m k w, is_word m -> is_word w -> is_word (g m k w)) ->
  (forall k b, (b < 64)%nat -> (k * 64 + b < n)%nat ->
     Z.testbit (f k p.[k]) (Z.of_nat b) = target (k * 64 + b)%nat) ->
  (forall k r b, (b < r)%nat -> (r < 64)%nat -> (k * 64 + b < n)%nat ->
     Z.testbit (g (low_mask r) k p.[k]) (Z.of_nat b) = target (k * 64 + b)%nat) ->
  let '(remaining, idx, p') := whole_words n n 0 (fun idx p => p.[idx <- f idx (word_at p idx)]) p in
  let r := if (0 <? remaining)%nat then p'.[idx <- g (low_mask remaining) idx p'.[idx]] else p' in
  plane_wf n r /\ forall i, (i < n)%nat -> pbit r i = target i.
Proof.
  intros Hl Hn Hw Hfw Hgw Hf Hg. rewrite whole_words_eq by lia. destruct (div64 n) as [Hd Hm].
  set (w := (n / BITS_PER_WORD)%nat) in *. set (r := (n mod BITS_PER_WORD)%nat) in *. rewrite Nat.add_0_l.
  destruct (storage_bound n) as [Hs _].
  destruct (loop_words f w 0 p) as (L1 & L2 & L3); [nia|]. set (p' := for_loop _ _ _ _) in *.
  assert (Hp' : Forall is_word p') by (apply L3; auto).
  assert (Hlow : forall i, (i < w * 64)%nat -> pbit p' i = target i).
  { intros i Hi. destruct (div64 i) as [Hi1 Hi2]. unfold pbit. rewrite L2. nat_cases; cbn [andb]; try nia.
    rewrite Hf by lia. by rewrite Hi1. }
  destruct (Nat.ltb_spec 0 r).
  - assert (w < storage n)%nat by (apply storage_word; lia).
    split; [split; [by rewrite insert_length; congruence|]|].
    + apply insert_words; [done|]. apply Hgw; auto with word.
    + intros i Hi. rewrite pbit_insert by (rewrite L1, Hl; lia). destruct (div64 i) as [Hi1 Hi2].
      destruct (Nat.eqb_spec (i / BITS_PER_WORD) w) as [E|E]; [|apply Hlow; nia].
      rewrite L2. rewrite (proj2 (Nat.ltb_ge w (0 + w))), andb_false_r by lia. rewrite Hg by nia. f_equal. nia.
  - split; [split; [congruence|done]|]. intros i Hi. apply Hlow. lia.
Qed.

(** Writing a word twice, the second time from the first. *)
Lemma write_or (p : plane) k m b : (p.[k <- m]).[k <- (p.[k <- m]).[k] .| b] = p.[k <- m .| b].
Proof.
  destruct (decide (k < length p)%nat) as [Hk|Hk].
  - rewrite word_at_insert, Nat.eqb_refl by done. apply list_insert_insert_eq.
  - rewrite !list_insert_ge; rewrite ?length_insert; (done || lia).
Qed.

Lemma whole_words_ext {S : Type} (f g : nat -> S -> S) fuel : forall n i s,
  (forall i s, f i s = g i s) -> whole_words fuel n i f s = whole_words fuel n i g s.
Proof.
  induction fuel as [|fuel IH]; intros n i s H; cbn [whole_words]; [done|].
  destruct (_ <=? _)%nat; [|done]. rewrite H. by apply IH.
Qed.

Lemma inverted_bit m a b i : (i < 64)%nat -> Z.testbit m (Z.of_nat i) = true ->
  Z.testbit (m .& .~ a .| b) (Z.of_nat i) = Z.testbit b (Z.of_nat i) || negb (Z.testbit a (Z.of_nat i)).
Proof.
  intros Hi Hm. bits_simpl. rewrite Hm, (proj2 (Z.ltb_lt _ 64)) by lia. simpl. apply orb_comm.
Qed.

Lemma invert_spec this : vec_wf this ->
  let r := invert this in
  vec_wf r /\ size r = size this /\ forall i, (i < size this)%nat -> value r i = bit4_not (value this i).
Proof.
  intros [[Hla Hwa] [Hlb Hwb]]. unfold invert. destruct (is_long (size this)) eqn:E; simpl negb; cbv iota.
  - apply is_long_spec in E.
    pose proof (whole_then_rest (size this) (fun k w => .~ w .| (bbits this).[k])
      (fun m k w => m .& .~ w .| (bbits this).[k]) (abits this)
      (fun i => pbit (bbits this) i || negb (pbit (abits this) i)) Hla E Hwa) as H.
    erewrite whole_words_ext by (intros; apply write_or).
    destruct (whole_words _ _ _ _ _) as [[remaining idx] p'].
    destruct H as [Hwf Hb]; [auto with word|auto with word| | |].
    + intros k b Hk _. rewrite !pbit_word by done. rewrite <- inverted_bit with (m := ones64); [|done|].
      * f_equal. f_equal. bitwise j.
      * rewrite ones64_bit by lia. apply Z.ltb_lt. lia.
    + intros k r b Hb Hr _. rewrite !pbit_word by lia. apply inverted_bit; [lia|].
      rewrite low_mask_bit by lia. apply Z.ltb_lt. lia.
    + rewrite write_or. by apply inverted_value.
  - apply is_short_spec in E. rewrite write_or. assert (Hs : storage (size this) = 1%nat).
    { unfold storage. destruct (is_long (size this)) eqn:E'; [apply is_long_spec in E'; lia|done]. }
    apply inverted_value; [|done| |done].
    + split; [by rewrite length_insert|]. apply insert_words; [done|].
      destruct (_ <? _)%nat; auto 6 with word.
    + intros i Hi. rewrite pbit_insert by lia. destruct (div_small64 i) as [Hd Hm]; [lia|].
      rewrite Hd, Hm. simpl. rewrite inverted_bit; [|lia|apply low_or_ones_bit; lia].
      rewrite <- !(pbit_word _ 0) by lia. done.
Qed.

Lemma words_ext (p q : plane) :
  length p = length q -> (forall k, (k < length p)%nat -> p.[k] = q.[k]) -> p = q.
Proof.
  intros Hl H. apply list_eq_same_length with (n := length p); [done|done|]. intros i x y Hi Hx Hy.
  specialize (H i Hi). unfold word_at in H. by rewrite Hx, Hy in H.
Qed.

Lemma copied_plane (q : plane) n : length q = storage n -> is_long n = true ->
  for_loop (word_count n) 0 (fun idx p => p.[idx <- q.[idx]]) (replicate (word_count n) 0) = q.
Proof.
  intros Hl Hlong. assert (Hs : storage n = word_count n) by (unfold storage; by rewrite Hlong).
  destruct (loop_words (fun idx _ => q.[idx]) (word_count n) 0 (replicate (word_count n) 0)) as (L1 & L2 & _);
    [rewrite length_replicate; lia|].
  rewrite length_replicate in L1. apply words_ext; [congruence|]. intros k Hk. rewrite L2.
  rewrite L1 in Hk. nat_cases; (done || lia).
Qed.

Lemma copy_inverted_spec that : vec_wf that ->
  let r := copy_inverted_from_ that in
  vec_wf r /\ size r = size that /\ forall i, (i < size that)%nat -> value r i = bit4_not (value that i).
Proof.
  intros [[Hla Hwa] [Hlb Hwb]]. unfold copy_inverted_from_. destruct (is_long (size that)) eqn:E.
  - assert (Hs : storage (size that) = word_count (size that)) by (unfold storage; by rewrite E).
    rewrite copied_plane by done. apply is_long_spec in E.
    pose proof (whole_then_rest (size that) (fun k _ => (bbits that).[k] .| .~ ((abits that).[k]))
      (fun m k _ => m .& ((bbits that).[k] .| .~ ((abits that).[k]))) (replicate (word_count (size that)) 0)
      (fun i => pbit (bbits that) i || negb (pbit (abits that) i))) as H.
    destruct (whole_words _ _ _ _ _) as [[remaining idx] na].
    destruct H as [Hwf Hb]; [rewrite length_replicate; lia|done|auto with word|auto with word|auto with word| | |].
    + intros k b Hk _. rewrite !pbit_word by done. bits_simpl. by rewrite (proj2 (Z.ltb_lt (Z.of_nat b) 64)) by lia.
    + intros k r b Hb Hr _. rewrite !pbit_word by lia. bits_simpl.
      by rewrite (proj2 (Z.ltb_lt (Z.of_nat b) 64)), (proj2 (Z.ltb_lt (Z.of_nat b) (Z.of_nat r))) by lia.
    + by apply inverted_value.
  - assert (Hs : storage (size that) = 1%nat) by (unfold storage; by rewrite E). apply is_short_spec in E.
    assert (Hb1 : [(bbits that).[0]] = bbits that).
    { rewrite Hs in Hlb. destruct (bbits that) as [|w [|]]; (done || discriminate). }
    rewrite Hb1. apply inverted_value; [|done| |done].
    + split; [by rewrite Hs|]. constructor; [|constructor]. destruct (_ <? _)%nat; auto 6 with word.
    + intros i Hi. unfold pbit at 1. destruct (div_small64 i) as [-> ->]; [lia|].
      cbn [word_at lookup list_lookup default]. rewrite <- (Nat.add_0_l i) at 2 3.
      change (0 + i)%nat with (0 * 64 + i)%nat. rewrite !pbit_word by lia.
      unfold word_at at 1. simpl. rewrite Z.land_spec, low_or_ones_bit by lia. bits_simpl.
      by rewrite (proj2 (Z.ltb_lt (Z.of_nat i) 64)) by lia.
Qed.

(** ** Properties *)

(** [r] is the vector of [n] bits whose bit [i] is [f i]. *)
Definition bitwise (r : vvp_vector4_t) (n : nat) (f : nat -> vvp_bit4_t) : Prop :=
  vec_wf r /\ size r = n /\ forall i, (i < n)%nat -> value r i = f i.

(** The word-parallel [&=], [|=] and [^=] of two vectors of one size apply
    the four-state operators of single bits at every index, in one word, in
    exactly one full word, and in arrays of words with any tail. *)
Lemma vec4_bitwise_correct this that :
  vec_wf this -> vec_wf that -> size this = size that ->
  bitwise (vec4_and this that) (size this) (fun i => bit4_and (value this i) (value that i)) /\
  bitwise (vec4_or this that) (size this) (fun i => bit4_or (value this i) (value that i)) /\
  bitwise (vec4_xor this that) (size this) (fun i => bit4_xor (value this i) (value that i)).
Proof.
  intros H1 H2 H3. split; [by apply and_word_spec|]. split; [by apply or_word_spec|by apply xor_word_spec].
Qed.

(** In-place [invert], the copying [operator ~], [change_z2x] and
    [fill_bits] act on each bit as the bit operator they stand for, and keep
    the size and the storage. *)
Lemma vec4_unary_correct this c :
  vec_wf this ->
  bitwise (invert this) (size this) (fun i => bit4_not (value this i)) /\
  bitwise (copy_inverted_from_ this) (size this) (fun i => bit4_not (value this i)) /\
  bitwise (change_z2x this) (size this) (fun i => bit4_z2x (value this i)) /\
  bitwise (fill_bits this c) (size this) (fun _ => c).
Proof.
  intros H. split; [by apply invert_spec|]. split; [by apply copy_inverted_spec|].
  split; [by apply change_z2x_spec|by apply fill_bits_spec].
Qed.

(** Two operands of 70 bits with every pair of bit values. *)
Definition lhs70 : vvp_vector4_t := Vec4 70 [0x123456789abcdef0; 0x2a] [0xff00ff00ff00ff00; 0x33].
Definition rhs70 : vvp_vector4_t := Vec4 70 [0x0fedcba987654321; 0x15] [0xf0f0f0f0f0f0f0f0; 0x0f].


Lemma vec4_unary_correct_witness :
  bitwise (invert lhs70) 70 (fun i => bit4_not (value lhs70 i)) /\
  map (value (invert lhs70)) [0; 4; 64; 66; 69]%nat = [BIT4_1; BIT4_0; BIT4_X; BIT4_1; BIT4_X].
Proof.
  split; [|vm_compute; reflexivity].
  apply (vec4_unary_correct lhs70 BIT4_0). apply vec_wf_dec_bool. reflexivity.
Defined.

(** C25. The word-parallel [&=], [|=], [^=], [invert], [~], [change_z2x] and
    [fill_bits] apply the four-state operators of single bits at every index, in
    one word, in exactly one full word, and in arrays of words with any tail. *)
Theorem vec4_logic_correct this that c :
  (vec_wf this -> vec_wf that -> size this = size that ->
   bitwise (vec4_and this that) (size this) (fun i => bit4_and (value this i) (value that i)) /\
   bitwise (vec4_or this that) (size this) (fun i => bit4_or (value this i) (value that i)) /\
   bitwise (vec4_xor this that) (size this) (fun i => bit4_xor (value this i) (value that i))) /\
  (vec_wf this ->
   bitwise (invert this) (size this) (fun i => bit4_not (value this i)) /\
   bitwise (copy_inverted_from_ this) (size this) (fun i => bit4_not (value this i)) /\
   bitwise (change_z2x this) (size this) (fun i => bit4_z2x (value this i)) /\
   bitwise (fill_bits this c) (size this) (fun _ => c)).
Proof. exact (conj (vec4_bitwise_correct this that) (vec4_unary_correct this c)). Qed.

Lemma vec4_logic_correct_witness :
  bitwise (vec4_and lhs70 rhs70) 70 (fun i => bit4_and (value lhs70 i) (value rhs70 i)) /\
  map (value (vec4_xor lhs70 rhs70)) [0; 1; 64; 69]%nat = [BIT4_1; BIT4_0; BIT4_X; BIT4_X].
Proof.
  pose proof (fun this that => proj1 (vec4_logic_correct this that BIT4_X)) as vec4_bitwise_correct.
  split; [|vm_compute; reflexivity].
  apply (vec4_bitwise_correct lhs70 rhs70); [apply vec_wf_dec_bool; reflexivity.. | reflexivity].
Defined.
