(* ===== verification/Vector4Reduce.v ===== *)
(** * Vector4Reduce: tests and reductions of run-time vectors

    The word-parallel tests ([eeq], [eq_xz], [has_xz]) decide what they say of
    the bits, and the reductions fold the four-state operators over them. *)

From S2P Require Import Prelude FourState Vector4 Vector4Value Vector4Ops Vector4Arith.
Import Bit4.

Open Scope ivl_scope.

(** ** Scans of planes *)

Lemma any_scan (p : plane) k : Forall is_word p ->
  any p (k * 64) = existsb (fun idx => negb (p.[idx] =? 0)) (seq 0 k).
Proof.
  intros Hp. induction k as [|k IH]; [done|]. rewrite any_word, IH, seq_S, existsb_app by done. simpl.
  by rewrite orb_false_r.
Qed.

(** The scan by whole words with the rest under a mask. *)
Lemma any_tail (p : plane) n m : Forall is_word p -> is_word m ->
  (forall b, (b < 64)%nat -> Z.testbit m (Z.of_nat b) = (b <? n mod BITS_PER_WORD)%nat) ->
  any p n = existsb (fun idx => negb (p.[idx] =? 0)) (seq 0 (n / BITS_PER_WORD)) ||
            negb (p.[n / BITS_PER_WORD] .& m =? 0).
Proof.
  intros Hp Hm Hb. destruct (div64 n) as [Hd Hr]. rewrite <- any_scan by done.
  rewrite <- (any_split p (n / BITS_PER_WORD) (n mod BITS_PER_WORD) m) by (done || lia). by rewrite Hd.
Qed.

Lemma any_short (p : plane) n m : (n <= 64)%nat -> Forall is_word p -> is_word m ->
  (forall b, (b < 64)%nat -> Z.testbit m (Z.of_nat b) = (b <? n)%nat) ->
  any p n = negb (p.[0] .& m =? 0).
Proof. intros Hn Hp Hm Hb. by apply (any_split p 0 n m). Qed.

(** [-1UL >> (BITS_PER_WORD - n)] *)
Lemma top_mask_bit n b : (0 < n <= 64)%nat -> (b < 64)%nat ->
  Z.testbit (ones64 >> (BITS_PER_WORD - n)) (Z.of_nat b) = (b <? n)%nat.
Proof.
  intros Hn Hb. rewrite shr64_bit by lia. rewrite ones64_bit by lia. unfold BITS_PER_WORD.
  nat_cases; split_ltb; (done || lia).
Qed.

Lemma is_word_top_mask n : is_word (ones64 >> n).
Proof. apply is_word_shr; [lia|auto with word]. Qed.
#[local] Hint Resolve is_word_top_mask : word.

(** ** Planes computed word by word *)

Definition words_of (w : nat -> Z) (cnt : nat) : plane := map w (seq 0 cnt).

Lemma words_of_at w cnt k : (k < cnt)%nat -> word_at (words_of w cnt) k = w k.
Proof.
  intros Hk. unfold word_at, words_of. change (map w (seq 0 cnt)) with (w <$> seq 0 cnt).
  rewrite list_lookup_fmap, lookup_seq_lt by done. done.
Qed.

Lemma words_of_wf w cnt : (forall k, is_word (w k)) -> Forall is_word (words_of w cnt).
Proof. intros H. apply List.Forall_map, List.Forall_forall. intros k _. apply H. Qed.

Lemma words_of_bit w n i : (i < n)%nat ->
  pbit (words_of w (storage n)) i = Z.testbit (w (i / BITS_PER_WORD)%nat) (Z.of_nat (i mod BITS_PER_WORD)).
Proof. intros Hi. unfold pbit. by rewrite words_of_at by (by apply storage_index). Qed.

Lemma any_ext p q n : (forall i, (i < n)%nat -> pbit p i = pbit q i) -> any p n = any q n.
Proof. intros H. apply existsb_ext_in. intros i Hi. apply in_seq in Hi. apply H. lia. Qed.

Lemma any_existsb p n (f : nat -> bool) : (forall i, (i < n)%nat -> pbit p i = f i) -> any p n = existsb f (seq 0 n).
Proof. intros H. apply existsb_ext_in. intros i Hi. apply in_seq in Hi. apply H. lia. Qed.

(** ** Tests *)

Lemma has_xz_spec v : vec_wf v -> (0 < size v)%nat -> has_xz v = any_xz v.
Proof.
  intros [_ [Hlb Hwb]] Hn. rewrite any_xz_plane. unfold has_xz.
  destruct (div64 (size v)) as [Hd Hr].
  destruct (Nat.ltb_spec (size v) BITS_PER_WORD) as [H|H]; unfold BITS_PER_WORD in H.
  - symmetry. apply any_short; [lia|done|auto with word|]. intros b Hb. apply top_mask_bit; lia.
  - destruct (Nat.eqb_spec (size v) BITS_PER_WORD) as [E|E]; unfold BITS_PER_WORD in E.
    + rewrite E. change 64%nat with (1 * 64)%nat. rewrite any_scan by done. simpl. by rewrite orb_false_r.
    + destruct (Nat.ltb_spec 0 (size v mod BITS_PER_WORD)) as [H0|H0].
      * rewrite (any_tail _ _ (ones64 >> (BITS_PER_WORD - size v mod BITS_PER_WORD)));
          [by destruct (existsb _ _)|done|auto with word|]. intros b Hb. apply top_mask_bit; lia.
      * rewrite <- Hd at 2. replace (size v mod BITS_PER_WORD)%nat with 0%nat by lia.
        rewrite Nat.add_0_r, any_scan by done. by destruct (existsb _ _).
Qed.

Section Same.
Context (key : Z -> Z -> Z) (kbit : bool -> bool -> bool).
Context (Hkey : forall a b, is_word a -> is_word b -> is_word (key a b)).
Context (Hkbit : forall a b i, Z.testbit (key a b) i = kbit (Z.testbit a i) (Z.testbit b i)).
Context (this that : vvp_vector4_t) (Hthis : vec_wf this) (Hthat : vec_wf that).
Context (Hsize : size this = size that).

Let ka i := key (abits this).[i] (bbits this).[i].
Let ka' i := key (abits that).[i] (bbits that).[i].
Let kb i := (bbits this).[i].
Let kb' i := (bbits that).[i].
Let n := size this.

(** The bits in which the words differ. *)
Let diff (k : nat) : Z := (ka k .^ ka' k) .| (kb k .^ kb' k).

Lemma diff_word k : is_word (diff k).
Proof using All.
  destruct Hthis as [[_ ?] [_ ?]], Hthat as [[_ ?] [_ ?]].
  unfold diff, ka, ka', kb, kb'. apply is_word_lor; apply is_word_lxor; try apply Hkey; auto with word.
Qed.

Lemma lxor_eqb x y : (x .^ y =? 0) = (x =? y).
Proof. apply eq_true_iff_eq. rewrite !Z.eqb_eq. apply Z.lxor_eq_0_iff. Qed.

Lemma diff_zero k : (ka k =? ka' k) && (kb k =? kb' k) = (diff k =? 0).
Proof using All.
  unfold diff. rewrite <- (negb_involutive (_ =? 0)), lor_nonzero, negb_orb, !negb_involutive, !lxor_eqb. done.
Qed.

Lemma diff_under m k :
  ((ka k .& m) =? (ka' k .& m)) && ((kb k .& m) =? (kb' k .& m)) = (diff k .& m =? 0).
Proof using All.
  unfold diff. rewrite Z.land_lor_distr_l, <- (negb_involutive (_ =? 0)), lor_nonzero, negb_orb, !negb_involutive.
  rewrite <- (lxor_eqb (ka k .& m) (ka' k .& m)), <- (lxor_eqb (kb k .& m) (kb' k .& m)). f_equal; f_equal; bitwise i; by destruct (Z.testbit m i); rewrite ?andb_true_r, ?andb_false_r.
Qed.

Lemma same_words_diff : same_words key this that = negb (any (words_of diff (storage n)) n).
Proof using All.
  set (p := words_of diff (storage n)). pose proof (words_of_wf diff (storage n) diff_word) as Hp. fold p in Hp.
  assert (Hat : forall k, (k < storage n)%nat -> p.[k] = diff k) by (intros; by apply words_of_at).
  destruct (storage_bound n) as [Hs Hs0]. destruct (div64 n) as [Hd Hr].
  unfold same_words. rewrite Hsize, Nat.eqb_refl. simpl negb. cbv iota. rewrite <- Hsize. fold n.
  fold ka ka' kb kb'.
  destruct (Nat.ltb_spec n BITS_PER_WORD) as [H|H]; unfold BITS_PER_WORD in H.
  - change (key (abits this).[0] (bbits this).[0]) with (ka 0%nat).
    change (key (abits that).[0] (bbits that).[0]) with (ka' 0%nat).
    change ((bbits this).[0]) with (kb 0%nat). change ((bbits that).[0]) with (kb' 0%nat).
    rewrite diff_under, (any_short p n (low_mask n)); [|lia|done|auto with word|].
    + rewrite Hat by done. by rewrite negb_involutive.
    + intros b Hb. rewrite low_mask_bit by lia. nat_cases; split_ltb; (done || lia).
  - destruct (Nat.eqb_spec n BITS_PER_WORD) as [E|E]; unfold BITS_PER_WORD in E.
    + change (key (abits this).[0] (bbits this).[0]) with (ka 0%nat).
      change (key (abits that).[0] (bbits that).[0]) with (ka' 0%nat).
      change ((bbits this).[0]) with (kb 0%nat). change ((bbits that).[0]) with (kb' 0%nat).
      rewrite diff_zero, E. change 64%nat with (1 * 64)%nat. rewrite any_scan by done. simpl.
      change (p.[0]) with (word_at p 0). rewrite Hat, orb_false_r by done. by rewrite negb_involutive.
    + rewrite (any_tail p n (low_mask (n mod BITS_PER_WORD))); [|done|auto with word|].
      * rewrite (existsb_ext_in _ (fun i => negb ((ka i =? ka' i) && (kb i =? kb' i)))).
        -- change (forallb _ _) with (forallb (fun i => (ka i =? ka' i) && (kb i =? kb' i)) (seq 0 (n / BITS_PER_WORD))).
           rewrite forallb_negb, negb_involutive, negb_orb.
           destruct (existsb _ _); [done|]. cbn [orb negb andb]. rewrite negb_involutive.
           destruct (Nat.ltb_spec 0 (n mod BITS_PER_WORD)) as [H0|H0].
           ++ rewrite Hat by (apply storage_word; lia). apply diff_under.
           ++ replace (n mod BITS_PER_WORD)%nat with 0%nat by lia.
              change (low_mask 0) with 0. by rewrite Z.land_0_r.
        -- intros i Hi%in_seq. rewrite Hat by (apply storage_word; nia). by rewrite diff_zero.
      * intros b Hb. rewrite low_mask_bit by lia. nat_cases; split_ltb; (done || lia).
Qed.

(** The words agree where the key and the b bits of every bit agree. *)
Lemma same_words_spec : same_words key this that =
  forallb (fun i =>
    bool_decide (kbit (abit (value this i)) (bbit (value this i)) = kbit (abit (value that i)) (bbit (value that i)) /\
      bbit (value this i) = bbit (value that i))) (seq 0 n).
Proof using All.
  rewrite same_words_diff, forallb_negb. f_equal. apply any_existsb. intros i Hi.
  rewrite words_of_bit by done. unfold diff, ka, ka', kb, kb'.
  rewrite Z.lor_spec, !Z.lxor_spec, !Hkbit, !value_lt by (unfold n in *; lia).
  rewrite !abit_mk, !bbit_mk. unfold pbit.
  destruct (kbit _ _), (kbit _ _), (Z.testbit (bbits this).[_] _), (Z.testbit (bbits that).[_] _); reflexivity.
Qed.
End Same.

Lemma same_words_iff (key : Z -> Z -> Z) (kbit : bool -> bool -> bool)
    (Hkey : forall a b, is_word a -> is_word b -> is_word (key a b))
    (Hkbit : forall a b i, Z.testbit (key a b) i = kbit (Z.testbit a i) (Z.testbit b i))
    (norm : vvp_bit4_t -> vvp_bit4_t) this that :
  vec_wf this -> vec_wf that ->
  (forall c d, kbit (abit c) (bbit c) = kbit (abit d) (bbit d) /\ bbit c = bbit d <-> norm c = norm d) ->
  same_words key this that = true <->
  size this = size that /\ forall i, (i < size this)%nat -> norm (value this i) = norm (value that i).
Proof.
  intros Hthis Hthat Hnorm. destruct (decide (size this = size that)) as [Hs|Hs].
  - rewrite (same_words_spec key kbit) by done. rewrite forallb_forall. split.
    + intros H. split; [done|]. intros i Hi. apply Hnorm. eapply bool_decide_eq_true_1. apply H, in_seq. lia.
    + intros [_ H] i Hi%in_seq. apply bool_decide_eq_true_2, Hnorm, H. lia.
  - unfold same_words. rewrite (proj2 (Nat.eqb_neq _ _) Hs). simpl. split; [done|]. by intros [? _].
Qed.

(** ** Reductions *)

Lemma last_words n : (0 < n)%nat ->
  exists r, (n = (word_count n - 1) * 64 + r /\ 0 < r <= 64 /\ word_count n - 1 < storage n)%nat /\
  forall b, (b < 64)%nat -> Z.testbit (BIT_MASK (n mod BITS_PER_WORD)) (Z.of_nat b) = (b <? r)%nat.
Proof.
  intros Hn. destruct (word_count_bounds n). destruct (div64 n) as [Hd Hr].
  exists (n - (word_count n - 1) * 64)%nat. split.
  - split; [lia|]. split; [lia|]. apply storage_word. lia.
  - intros b Hb. unfold BIT_MASK. destruct (Nat.eqb_spec (n mod BITS_PER_WORD) 0) as [E|E]; simpl negb; cbv iota.
    + rewrite ones64_bit by lia. nat_cases; split_ltb; (done || nia).
    + rewrite top_mask_bit by lia. nat_cases; (done || nia).
Qed.

Lemma is_word_BIT_MASK n : is_word (BIT_MASK n).
Proof. unfold BIT_MASK. destruct (negb _); auto with word. Qed.
#[local] Hint Resolve is_word_BIT_MASK : word.

(** A plane up to the bit masked out of its last word. *)
Lemma any_last (p : plane) n : (0 < n)%nat -> Forall is_word p ->
  any p n = existsb (fun idx => negb (p.[idx] =? 0)) (seq 0 (word_count n - 1)) ||
            negb (p.[word_count n - 1] .& BIT_MASK (n mod BITS_PER_WORD) =? 0).
Proof.
  intros Hn Hp. destruct (last_words n Hn) as (r & (H1 & H2 & H3) & Hm).
  rewrite <- any_scan by done. rewrite <- (any_split p _ r) by (done || lia || auto with word). by rewrite <- H1.
Qed.

(** In one word the loop runs zero times and the last word is word 0. *)
Lemma short_words n : is_long n = false -> (0 < n)%nat -> (word_count n - 1 = 0)%nat.
Proof. intros H%is_short_spec Hn. pose proof (word_count_bounds n). lia. Qed.

(** What the early return and the flag of a reduction loop collect. *)
Lemma or_loop this n : forall idx res,
  reduce_loop or_step this n idx res =
    if existsb (fun k => negb ((abits this).[k] .& .~ ((bbits this).[k]) =? 0)) (seq idx n) then inl BIT4_1
    else inr (if existsb (fun k => negb ((bbits this).[k] =? 0)) (seq idx n) then BIT4_X else res).
Proof.
  induction n as [|n IH]; intros idx res; [done|]. cbn [reduce_loop seq existsb]. unfold or_step at 1.
  destruct (negb (_ .& _ =? 0)); [done|]. rewrite IH. cbn [orb]. destruct (existsb _ _); [done|].
  by destruct (existsb _ _), (negb _).
Qed.

Lemma and_loop this n : forall idx res,
  reduce_loop and_step this n idx res =
    if existsb (fun k => negb ((abits this).[k] .| (bbits this).[k] =? ones64)) (seq idx n) then inl BIT4_0
    else inr (if existsb (fun k => negb ((bbits this).[k] =? 0)) (seq idx n) then BIT4_X else res).
Proof.
  induction n as [|n IH]; intros idx res; [done|]. cbn [reduce_loop seq existsb]. unfold and_step at 1.
  destruct (negb (_ =? ones64)); [done|]. rewrite IH. cbn [orb]. destruct (existsb _ _); [done|].
  by destruct (existsb _ _), (negb _).
Qed.

Lemma xor_loop this n : forall idx val_a,
  reduce_loop xor_step this n idx val_a =
    if existsb (fun k => negb ((bbits this).[k] =? 0)) (seq idx n) then inl BIT4_X
    else inr (fold_left Z.lxor (map (fun k => (abits this).[k]) (seq idx n)) val_a).
Proof.
  induction n as [|n IH]; intros idx val_a; [done|]. cbn [reduce_loop seq existsb map fold_left]. unfold xor_step at 1.
  destruct (negb (_ =? 0)); [done|]. by rewrite IH.
Qed.

(** A loop that runs zero times. *)
Lemma reduce_loop_short {A} (step : Z -> Z -> A -> vvp_bit4_t + A) this res (k : nat -> A -> vvp_bit4_t) :
  (0 < size this)%nat ->
  (if negb (is_long (size this)) then k 0%nat res
   else match reduce_loop step this (word_count (size this) - 1) 0 res with
        | inl r => r | inr res => k (word_count (size this) - 1)%nat res end) =
  match reduce_loop step this (word_count (size this) - 1) 0 res with
  | inl r => r | inr res => k (word_count (size this) - 1)%nat res end.
Proof.
  intros Hn. destruct (is_long (size this)) eqn:E; [done|]. by rewrite (short_words _ E Hn).
Qed.

(** Bits of the planes the reductions look at. *)
Definition is_bit (c : vvp_bit4_t) (v : vvp_vector4_t) (i : nat) : bool := bool_decide (value v i = c).

Lemma bit_lt_64 i : (Z.of_nat (i mod BITS_PER_WORD) <? 64) = true.
Proof. apply Z.ltb_lt. destruct (div64 i). lia. Qed.

Lemma eq_ones64 x : is_word x -> (x =? ones64) = (.~ x =? 0).
Proof.
  intros Hx. apply eq_true_iff_eq. rewrite !Z.eqb_eq. split; [intros ->; reflexivity|].
  intros H. apply word_ext; [done|auto with word|]. intros i Hi.
  assert (Hb : Z.testbit (.~ x) i = false) by (rewrite H; apply Z.bits_0).
  rewrite not64_bit in Hb by lia. rewrite ones64_bit by lia.
  rewrite (proj2 (Z.ltb_lt i 64)) in * by lia. by destruct (Z.testbit x i).
Qed.

Lemma eq_ones64_mask x m : is_word x -> is_word m -> (x .| .~ m =? ones64) = (.~ x .& m =? 0).
Proof.
  intros Hx Hm. rewrite eq_ones64 by auto with word. f_equal. apply word_ext; [auto with word..|].
  intros i Hi. bits_simpl. rewrite (proj2 (Z.ltb_lt i 64)) by lia. simpl. rewrite negb_orb. by rewrite negb_involutive.
Qed.

(** ** Parities *)

(** Whether the number of indexes below [n] where [f] holds is odd. *)
Definition odd_ones (f : nat -> bool) (n : nat) : bool := foldr (fun i acc => xorb (f i) acc) false (seq 0 n).

Lemma odd_ones_S f n : odd_ones f (S n) = xorb (odd_ones f n) (f n).
Proof.
  unfold odd_ones. rewrite seq_S, foldr_app. simpl.
  assert (H : forall l acc, foldr (fun i acc => xorb (f i) acc) acc l =
    xorb (foldr (fun i acc => xorb (f i) acc) false l) acc).
  { induction l as [|x l IH]; intros acc; cbn [foldr]; [by destruct acc|]. rewrite IH. symmetry. apply xorb_assoc. }
  rewrite H. by rewrite xorb_false_r.
Qed.

Lemma odd_ones_ext f g n : (forall i, (i < n)%nat -> f i = g i) -> odd_ones f n = odd_ones g n.
Proof. induction n as [|n IH]; intros H; [done|]. rewrite !odd_ones_S, IH, H by auto. done. Qed.

Lemma odd_ones_xor f g n : odd_ones (fun i => xorb (f i) (g i)) n = xorb (odd_ones f n) (odd_ones g n).
Proof.
  induction n as [|n IH]; [done|]. rewrite !odd_ones_S, IH.
  by destruct (odd_ones f n), (odd_ones g n), (f n), (g n).
Qed.

Lemma odd_ones_app f m n : odd_ones f (m + n) = xorb (odd_ones f m) (odd_ones (fun i => f (m + i)%nat) n).
Proof.
  induction n as [|n IH]; [by rewrite Nat.add_0_r, xorb_false_r|].
  rewrite Nat.add_succ_r, !odd_ones_S, IH. apply xorb_assoc.
Qed.

Lemma parity_odd w : parity w = odd_ones (fun i => Z.testbit w (Z.of_nat i)) 64.
Proof. done. Qed.

Lemma parity_lxor x y : parity (x .^ y) = xorb (parity x) (parity y).
Proof. rewrite !parity_odd, <- odd_ones_xor. apply odd_ones_ext. intros i _. apply Z.lxor_spec. Qed.

(** The low [r] bits of word [k] are bits [k*64] to [k*64+r] of the plane. *)
Lemma parity_mask (p : plane) k r m : (r <= 64)%nat ->
  (forall b, (b < 64)%nat -> Z.testbit m (Z.of_nat b) = (b <? r)%nat) ->
  parity (p.[k] .& m) = odd_ones (fun i => pbit p (k * 64 + i)%nat) r.
Proof.
  intros Hr Hm. rewrite parity_odd.
  transitivity (odd_ones (fun i => Z.testbit (p.[k] .& m) (Z.of_nat i)) (r + (64 - r))); [f_equal; lia|].
  rewrite odd_ones_app, (odd_ones_ext _ (fun _ => false) (64 - r)).
  - assert (H0 : forall n, odd_ones (fun _ => false) n = false)
      by (intros n; induction n as [|n IH]; [done|by rewrite odd_ones_S, IH]).
    rewrite H0, xorb_false_r. apply odd_ones_ext. intros i Hi.
    cbv beta. rewrite Z.land_spec, Hm, (pbit_word p k i) by lia. by rewrite (proj2 (Nat.ltb_lt _ _) Hi), andb_true_r.
  - intros i Hi. rewrite Z.land_spec, Hm by lia. rewrite (proj2 (Nat.ltb_ge _ _)) by lia. apply andb_false_r.
Qed.

Lemma parity_words (p : plane) k :
  parity (fold_left Z.lxor (map (fun k => p.[k]) (seq 0 k)) 0) = odd_ones (pbit p) (k * 64).
Proof.
  induction k as [|k IH]; [done|]. rewrite seq_S, map_app, fold_left_app. cbn [map fold_left].
  rewrite parity_lxor, IH. replace (S k * 64)%nat with (k * 64 + 64)%nat by lia. rewrite odd_ones_app. f_equal.
  rewrite parity_odd. apply odd_ones_ext. intros i Hi. symmetry. by apply pbit_word.
Qed.

Section Reduce.
Context (v : vvp_vector4_t) (Hv : vec_wf v) (Hn : (0 < size v)%nat).
Let n := size v.
Let a := abits v.
Let b := bbits v.
Let last := (word_count n - 1)%nat.
Let mask := BIT_MASK (n mod BITS_PER_WORD).

(** A test of every word, of the last one under the mask, is a test of every bit. *)
Lemma scan_words (w : nat -> Z) (f : nat -> bool) :
  (forall k, is_word (w k)) ->
  (forall i, (i < n)%nat -> Z.testbit (w (i / BITS_PER_WORD)%nat) (Z.of_nat (i mod BITS_PER_WORD)) = f i) ->
  existsb (fun k => negb (w k =? 0)) (seq 0 last) || negb (w last .& mask =? 0) = existsb f (seq 0 n).
Proof using All.
  intros Hw Hf. rewrite <- (any_existsb (words_of w (storage n)) n f)
    by (intros i Hi; rewrite words_of_bit by done; by apply Hf).
  destruct (last_words n Hn) as (r & (H1 & H2 & H3) & _).
  rewrite any_last by (done || by apply words_of_wf). fold last mask.
  rewrite words_of_at by done. f_equal. apply existsb_ext_in. intros k Hk%in_seq.
  by rewrite words_of_at by (unfold last in *; lia).
Qed.

Lemma bit_parts i : (i < n)%nat ->
  value v i = mk_bit (Z.testbit a.[i / BITS_PER_WORD] (Z.of_nat (i mod BITS_PER_WORD)))
                     (Z.testbit b.[i / BITS_PER_WORD] (Z.of_nat (i mod BITS_PER_WORD))).
Proof using All. intros Hi. by rewrite value_lt. Qed.

Lemma scan_xz :
  existsb (fun k => negb (b.[k] =? 0)) (seq 0 last) || negb (b.[last] .& mask =? 0) =
  existsb (fun i => bit4_is_xz (value v i)) (seq 0 n).
Proof using All.
  destruct Hv as [_ [_ Hwb]]. apply (scan_words (fun k => b.[k])); [intros; subst b; auto with word|].
  intros i Hi. rewrite bit_parts by done. by destruct (Z.testbit a.[_] _), (Z.testbit b.[_] _).
Qed.

Lemma scan_one :
  existsb (fun k => negb (a.[k] .& .~ (b.[k]) =? 0)) (seq 0 last) || negb (a.[last] .& .~ (b.[last]) .& mask =? 0) =
  existsb (is_bit BIT4_1 v) (seq 0 n).
Proof using All.
  destruct Hv as [[_ Hwa] _]. apply (scan_words (fun k => a.[k] .& .~ (b.[k]))); [intros; subst a; auto with word|].
  intros i Hi. unfold is_bit. rewrite bit_parts by done. bits_simpl. rewrite bit_lt_64.
  by destruct (Z.testbit a.[_] _), (Z.testbit b.[_] _).
Qed.

Lemma scan_zero :
  existsb (fun k => negb (a.[k] .| b.[k] =? ones64)) (seq 0 last) || negb (a.[last] .| b.[last] .| .~ mask =? ones64) =
  existsb (is_bit BIT4_0 v) (seq 0 n).
Proof using All.
  destruct Hv as [[_ Hwa] [_ Hwb]]. rewrite eq_ones64_mask by (subst a b mask; auto with word).
  rewrite (existsb_ext_in _ (fun k => negb (.~ (a.[k] .| b.[k]) =? 0)))
    by (intros; rewrite eq_ones64; [done|subst a b; auto with word]).
  apply (scan_words (fun k => .~ (a.[k] .| b.[k]))); [auto with word|].
  intros i Hi. unfold is_bit. rewrite bit_parts by done. bits_simpl. rewrite bit_lt_64.
  by destruct (Z.testbit a.[_] _), (Z.testbit b.[_] _).
Qed.

Lemma reduce_or_scan : reduce_or v =
  if existsb (is_bit BIT4_1 v) (seq 0 n) then BIT4_1
  else if existsb (fun i => bit4_is_xz (value v i)) (seq 0 n) then BIT4_X else BIT4_0.
Proof using All.
  unfold reduce_or. cbv zeta.
  rewrite (reduce_loop_short or_step v BIT4_0 (fun idx res =>
    if negb ((abits v).[idx] .& .~ ((bbits v).[idx]) .& BIT_MASK (size v mod BITS_PER_WORD) =? 0) then BIT4_1
    else if negb ((bbits v).[idx] .& BIT_MASK (size v mod BITS_PER_WORD) =? 0) then BIT4_X else res) Hn).
  rewrite or_loop. fold n a b mask last. rewrite <- scan_one, <- scan_xz.
  destruct (existsb _ (seq 0 last)); [done|]. cbn [orb]. destruct (negb _); [done|].
  by destruct (existsb _ (seq 0 last)), (negb _).
Qed.

Lemma reduce_and_scan : reduce_and v =
  if existsb (is_bit BIT4_0 v) (seq 0 n) then BIT4_0
  else if existsb (fun i => bit4_is_xz (value v i)) (seq 0 n) then BIT4_X else BIT4_1.
Proof using All.
  unfold reduce_and. cbv zeta.
  rewrite (reduce_loop_short and_step v BIT4_1 (fun idx res =>
    if negb ((abits v).[idx] .| (bbits v).[idx] .| .~ (BIT_MASK (size v mod BITS_PER_WORD)) =? ones64) then BIT4_0
    else if negb ((bbits v).[idx] .& BIT_MASK (size v mod BITS_PER_WORD) =? 0) then BIT4_X else res) Hn).
  rewrite and_loop. fold n a b mask last. rewrite <- scan_zero, <- scan_xz.
  destruct (existsb _ (seq 0 last)); [done|]. cbn [orb]. destruct (negb _); [done|].
  by destruct (existsb _ (seq 0 last)), (negb _).
Qed.

Lemma reduce_xor_scan : reduce_xor v =
  if existsb (fun i => bit4_is_xz (value v i)) (seq 0 n) then BIT4_X
  else if odd_ones (pbit a) n then BIT4_1 else BIT4_0.
Proof using All.
  destruct (last_words n Hn) as (r & (H1 & H2 & H3) & Hm). fold last mask in Hm.
  assert (Hodd : forall acc, acc = fold_left Z.lxor (map (fun k => a.[k]) (seq 0 last)) 0 ->
    parity (acc .^ (a.[last] .& mask)) = odd_ones (pbit a) n).
  { intros acc ->. rewrite parity_lxor, (parity_mask a last r mask), parity_words by (done || lia).
    rewrite <- odd_ones_app. f_equal. unfold last. symmetry. exact H1. }
  assert (E : reduce_xor v = match reduce_loop xor_step v last 0 0 with
    | inl r => r
    | inr val_a => if negb (b.[last] .& mask =? 0) then BIT4_X
                   else if parity (val_a .^ (a.[last] .& mask)) then BIT4_1 else BIT4_0 end).
  { unfold reduce_xor. cbv zeta. fold n a b mask. destruct (is_long n) eqn:El; [done|].
    pose proof (short_words n El Hn) as Hl. fold last in Hl. rewrite Hl. done. }
  rewrite E, xor_loop. fold a b. rewrite <- scan_xz. destruct (existsb _ (seq 0 last)); [done|]. cbn [orb].
  destruct (negb _); [done|]. by rewrite Hodd.
Qed.
End Reduce.

(** ** Folds of the bit operators *)

Definition bits_of (v : vvp_vector4_t) : list vvp_bit4_t := map (value v) (seq 0 (size v)).

Lemma fold_or (f : nat -> vvp_bit4_t) l : foldr bit4_or BIT4_0 (map f l) =
  if existsb (fun i => bool_decide (f i = BIT4_1)) l then BIT4_1
  else if existsb (fun i => bit4_is_xz (f i)) l then BIT4_X else BIT4_0.
Proof.
  induction l as [|x l IH]; [done|]. cbn [map foldr existsb]. rewrite IH.
  destruct (existsb _ l), (existsb _ l), (f x); reflexivity.
Qed.

Lemma fold_and (f : nat -> vvp_bit4_t) l : foldr bit4_and BIT4_1 (map f l) =
  if existsb (fun i => bool_decide (f i = BIT4_0)) l then BIT4_0
  else if existsb (fun i => bit4_is_xz (f i)) l then BIT4_X else BIT4_1.
Proof.
  induction l as [|x l IH]; [done|]. cbn [map foldr existsb]. rewrite IH.
  destruct (existsb _ l), (existsb _ l), (f x); reflexivity.
Qed.

Lemma fold_xor (f : nat -> vvp_bit4_t) l : foldr bit4_xor BIT4_0 (map f l) =
  if existsb (fun i => bit4_is_xz (f i)) l then BIT4_X
  else if foldr (fun i acc => xorb (bool_decide (f i = BIT4_1)) acc) false l then BIT4_1 else BIT4_0.
Proof.
  induction l as [|x l IH]; [done|]. cbn [map foldr existsb]. rewrite IH.
  destruct (existsb _ l), (foldr _ _ l), (f x); reflexivity.
Qed.

(** ** Properties *)

(** The reductions [|v], [&v] and [^v] of a vector of at least one bit,
    scanned word by word with an early exit and a masked last word, are the
    four-state or, and, exclusive or of all its bits. *)
Lemma vec4_reduce_correct v :
  vec_wf v -> (0 < size v)%nat ->
  reduce_or v = foldr bit4_or BIT4_0 (bits_of v) /\
  reduce_and v = foldr bit4_and BIT4_1 (bits_of v) /\
  reduce_xor v = foldr bit4_xor BIT4_0 (bits_of v).
Proof.
  intros Hv Hn. unfold bits_of. rewrite fold_or, fold_and, fold_xor.
  split; [by apply reduce_or_scan|]. split; [by apply reduce_and_scan|].
  rewrite reduce_xor_scan by done. destruct (existsb _ _) eqn:E; [done|].
  assert (H : odd_ones (pbit (abits v)) (size v) =
    foldr (fun i acc => xorb (bool_decide (value v i = BIT4_1)) acc) false (seq 0 (size v))); [|by rewrite H].
  apply odd_ones_ext. intros i Hi. apply not_true_iff_false in E. rewrite existsb_exists in E.
  assert (Hxz : bit4_is_xz (value v i) = false).
  { apply not_true_iff_false. intros H. apply E. exists i. rewrite in_seq. split; [lia|done]. }
  rewrite value_lt in * by done. by destruct (pbit (abits v) i), (pbit (bbits v) i).
Qed.

(** The word-parallel tests decide what they say: [has_xz] that some bit is
    x or z, [eeq] (the [===] operator) that the sizes and all bits agree, and
    [eq_xz] that they agree when x and z are taken for the same. *)
Lemma vec4_tests_correct this that :
  vec_wf this -> vec_wf that -> (0 < size this)%nat ->
  (has_xz this = true <-> exists i, (i < size this)%nat /\ bit4_is_xz (value this i) = true) /\
  (eeq this that = true <->
     size this = size that /\ forall i, (i < size this)%nat -> value this i = value that i) /\
  (eq_xz this that = true <->
     size this = size that /\
     forall i, (i < size this)%nat -> bit4_z2x (value this i) = bit4_z2x (value that i)).
Proof.
  intros Hthis Hthat Hn. split; [|split].
  - rewrite has_xz_spec by done. unfold any_xz. rewrite existsb_exists.
    split; intros (i & Hi & H); exists i; rewrite in_seq in *; (split; [lia|done]).
  - apply (same_words_iff (fun a _ => a) (fun a _ => a) (fun a _ Ha _ => Ha) (fun _ _ _ => eq_refl) id); [done..|].
    intros c d. destruct c, d; simpl; unfold id; intuition congruence.
  - apply (same_words_iff (fun a b => a .| b) orb is_word_lor Z.lor_spec bit4_z2x); [done..|].
    intros c d. destruct c, d; vm_compute; intuition congruence.
Qed.

(** 130 bits, the last one z. *)
Definition wide_z : vvp_vector4_t := Vec4 130 [5; 2 ^ 63; 1] [0; 0; 2].


Lemma vec4_tests_correct_witness :
  (eeq wide_z wide_z = true <->
     130%nat = 130%nat /\ forall i, (i < 130)%nat -> value wide_z i = value wide_z i) /\
  eeq wide_z wide_z = true.
Proof.
  split; [|vm_compute; reflexivity].
  apply (vec4_tests_correct wide_z wide_z); [apply vec_wf_dec_bool; reflexivity.. | simpl; lia].
Defined.

(** C26. The reductions [|v], [&v] and [^v], scanned word by word with an early
    exit and a masked last word, are the four-state or, and, exclusive or of all
    bits; [has_xz], [eeq] and [eq_xz] decide what they say. *)
Theorem vec4_scans_correct v this that :
  (vec_wf v -> (0 < size v)%nat ->
   reduce_or v = foldr bit4_or BIT4_0 (bits_of v) /\
   reduce_and v = foldr bit4_and BIT4_1 (bits_of v) /\
   reduce_xor v = foldr bit4_xor BIT4_0 (bits_of v)) /\
  (vec_wf this -> vec_wf that -> (0 < size this)%nat ->
   (has_xz this = true <-> exists i, (i < size this)%nat /\ bit4_is_xz (value this i) = true) /\
   (eeq this that = true <->
      size this = size that /\ forall i, (i < size this)%nat -> value this i = value that i) /\
   (eq_xz this that = true <->
      size this = size that /\
      forall i, (i < size this)%nat -> bit4_z2x (value this i) = bit4_z2x (value that i))).
Proof. exact (conj (vec4_reduce_correct v) (vec4_tests_correct this that)). Qed.

Lemma vec4_scans_correct_witness :
  reduce_or wide_z = foldr bit4_or BIT4_0 (bits_of wide_z) /\
  map (fun f => f wide_z) [reduce_or; reduce_and; reduce_xor] = [BIT4_1; BIT4_0; BIT4_X].
Proof.
  pose proof (fun v => proj1 (vec4_scans_correct v v v)) as vec4_reduce_correct.
  split; [|vm_compute; reflexivity].
  apply (vec4_reduce_correct wide_z); [apply vec_wf_dec_bool; reflexivity | simpl; lia].
Defined.
