(* ===== verification/Vector4Conv.v ===== *)
(** * Vector4Conv: run-time vectors as numbers

    Increment by a native integer, conversion to native integers of any width,
    and the ordered comparisons, against the integers the vectors denote. *)

From S2P Require Import Prelude FourState Vector4 Vector4Value Vector4Ops Vector4Arith Vector4Reduce.
Import Bit4.

Open Scope ivl_scope.

(** ** Bits and numbers *)

Definition bit4_of_bool (b : bool) : vvp_bit4_t := if b then BIT4_1 else BIT4_0.

(** The bits that are 1, as a number: x and z count as 0. *)
Definition ones_val (v : vvp_vector4_t) (n : nat) : Z := Zbits (is_bit BIT4_1 v) n.

(** The number a vector denotes, in two's complement when [sg]. *)
Definition num_of (sg : bool) (v : vvp_vector4_t) : Z :=
  if sg && is_bit BIT4_1 v (size v - 1) then ones_val v (size v) - 2 ^ Z.of_nat (size v)
  else ones_val v (size v).

Definition xz_below (v : vvp_vector4_t) (n : nat) : bool := existsb (fun i => bit4_is_xz (value v i)) (seq 0 n).

Lemma any_xz_false v : any_xz v = false <-> forall i, (i < size v)%nat -> bit4_is_xz (value v i) = false.
Proof.
  unfold any_xz. rewrite <- not_true_iff_false, existsb_exists. split.
  - intros H i Hi. apply not_true_iff_false. intros Hx. apply H. exists i. rewrite in_seq. split; [lia|done].
  - intros H (i & Hi & Hx). apply in_seq in Hi. rewrite H in Hx by lia. done.
Qed.

Lemma known_bit v i : bit4_is_xz (value v i) = false -> value v i = bit4_of_bool (is_bit BIT4_1 v i).
Proof. unfold is_bit. by destruct (value v i). Qed.

Lemma is_bit_of_bool v i b : value v i = bit4_of_bool b -> is_bit BIT4_1 v i = b.
Proof. unfold is_bit. intros ->. by destruct b. Qed.

(** Without x and z the a plane is the number. *)
Lemma vval_ones v : any_xz v = false -> vval v = ones_val v (size v).
Proof.
  intros H. apply Zbits_ext. intros i Hi. rewrite any_xz_false in H. specialize (H i Hi). unfold is_bit.
  rewrite value_lt in * by done. by destruct (pbit (abits v) i), (pbit (bbits v) i).
Qed.

Lemma number_bits v z : (forall i, (i < size v)%nat -> value v i = bit4_of_bool (Z.testbit z (Z.of_nat i))) ->
  any_xz v = false /\ vval v = z mod 2 ^ Z.of_nat (size v).
Proof.
  intros H. assert (Hx : any_xz v = false).
  { apply any_xz_false. intros i Hi. rewrite H by done. by destruct (Z.testbit z _). }
  split; [done|]. rewrite vval_ones, <- Zbits_of_Z by done. apply Zbits_ext. intros i Hi.
  by apply is_bit_of_bool, H.
Qed.

Lemma ones_bit v n i : (i < n)%nat -> Z.testbit (ones_val v n) (Z.of_nat i) = is_bit BIT4_1 v i.
Proof.
  intros Hi. unfold ones_val. rewrite Zbits_testbit, Nat2Z.id by lia.
  by rewrite (proj2 (Z.ltb_lt _ _)) by lia.
Qed.

(** ** Increment *)

Section Incr.
Context (x y : Z) (n : nat).

(** After the bits below [idx]. *)
Record incr_at (idx : nat) (v : vvp_vector4_t) (that : Z) (carry : vvp_bit4_t) : Prop := {
  ia_wf : vec_wf v;
  ia_size : size v = n;
  ia_that : that = Z.shiftr y (Z.of_nat idx);
  ia_carry : carry = bit4_of_bool (carry_into x y false idx);
  ia_bits : forall i, (i < n)%nat ->
    value v i = bit4_of_bool (Z.testbit (if (i <? idx)%nat then x + y else x) (Z.of_nat i)) }.

Lemma carry_stops idx i : Z.shiftr y (Z.of_nat idx) = 0 -> carry_into x y false idx = false -> (idx <= i)%nat ->
  carry_into x y false i = false /\ Z.testbit y (Z.of_nat i) = false.
Proof using All.
  intros Hy Hc Hi. assert (Hb : forall j, (idx <= j)%nat -> Z.testbit y (Z.of_nat j) = false).
  { intros j Hj. replace (Z.of_nat j) with (Z.of_nat (j - idx) + Z.of_nat idx) by lia.
    rewrite <- Z.shiftr_spec, Hy by lia. apply Z.bits_0. }
  split; [|by apply Hb]. induction Hi as [|i Hi IH]; [done|].
  rewrite carry_into_S, IH, Hb by done. by rewrite andb_false_r.
Qed.

Lemma that_bit_spec idx that : that = Z.shiftr y (Z.of_nat idx) ->
  (if Z.land that 1 =? 0 then BIT4_0 else BIT4_1) = bit4_of_bool (Z.testbit y (Z.of_nat idx)).
Proof using All. intros ->. rewrite land_1_bit, Z.shiftr_spec, Z.add_0_l by lia. by destruct (Z.testbit y _). Qed.

Lemma that_shift idx : Z.shiftr (Z.shiftr y (Z.of_nat idx)) 1 = Z.shiftr y (Z.of_nat (S idx)).
Proof using All. rewrite Z.shiftr_shiftr by lia. f_equal. lia. Qed.

Lemma sum_bit0 idx : Z.testbit (x + y) (Z.of_nat idx) =
  xorb (xorb (Z.testbit x (Z.of_nat idx)) (Z.testbit y (Z.of_nat idx))) (carry_into x y false idx).
Proof using All. rewrite <- sum_bit. by rewrite Z.add_0_r. Qed.

(** Both inputs 0: the bit stays. *)
Lemma incr_skip idx v that carry : (idx < n)%nat -> incr_at idx v that carry ->
  Z.testbit y (Z.of_nat idx) = false -> carry_into x y false idx = false ->
  incr_at (S idx) v (Z.shiftr that 1) carry.
Proof using All.
  intros Hi [Hwf Hs Ht Hc Hb] Hy Hc0. constructor; [done..| | |].
  - rewrite Ht. apply that_shift.
  - by rewrite Hc, carry_into_S, Hy, Hc0, andb_false_r.
  - intros i Hin. rewrite Hb by done. destruct (Nat.eqb_spec i idx) as [->|Hne].
    + nat_cases; try lia. by rewrite sum_bit0, Hy, Hc0, !xorb_false_r.
    + f_equal. f_equal. nat_cases; (done || lia).
Qed.

Lemma incr_step idx v that carry : (idx < n)%nat -> incr_at idx v that carry ->
  let '(bit, carry') := add_with_carry (value v idx) (bit4_of_bool (Z.testbit y (Z.of_nat idx))) carry in
  incr_at (S idx) (set_bit v idx bit) (Z.shiftr that 1) carry'.
Proof using All.
  intros Hi [Hwf Hs Ht Hc Hb]. rewrite Hc, (Hb idx Hi), Nat.ltb_irrefl.
  pose proof (fs_add_step (A := vvp_bit4_t) x y false idx) as Hadd. cbn [fs_add fs_of_bool Bit4_FourState] in Hadd.
  unfold bit4_of_bool at 1 2 3. rewrite Hadd. clear Hadd.
  constructor; [apply set_bit_wf; [done|lia]|by rewrite set_bit_size| |done|].
  - rewrite Ht. apply that_shift.
  - intros i Hin. rewrite set_bit_value by (done || lia). destruct (Nat.eqb_spec i idx) as [->|Hne].
    + nat_cases; try lia. by rewrite Z.add_0_r.
    + rewrite Hb by done. f_equal. f_equal. nat_cases; (done || lia).
Qed.

Lemma incr_loop_spec k : forall idx v that carry, (idx + k = n)%nat -> incr_at idx v that carry ->
  let r := incr_loop k idx v that carry in
  vec_wf r /\ size r = n /\ forall i, (i < n)%nat -> value r i = bit4_of_bool (Z.testbit (x + y) (Z.of_nat i)).
Proof using All.
  induction k as [|k IH]; intros idx v that carry Hk Hat; cbn [incr_loop].
  - destruct Hat as [Hwf Hs _ _ Hb]. split; [done|]. split; [done|]. intros i Hi. rewrite Hb by done.
    nat_cases; (done || lia).
  - pose proof (ia_that _ _ _ _ Hat) as Ht. pose proof (ia_carry _ _ _ _ Hat) as Hc.
    destruct ((that =? 0) && bool_decide (carry = BIT4_0)) eqn:E.
    + apply andb_true_iff in E as [E1%Z.eqb_eq E2%bool_decide_eq_true].
      assert (Hc0 : carry_into x y false idx = false) by (rewrite E2 in Hc; by destruct (carry_into x y false idx)).
      destruct Hat as [Hwf Hs _ _ Hb]. split; [done|]. split; [done|]. intros i Hi. rewrite Hb by done.
      nat_cases; [done|]. destruct (carry_stops idx i) as [H1 H2]; [congruence|done|lia|].
      by rewrite sum_bit0, H1, H2, !xorb_false_r.
    + rewrite (that_bit_spec idx) by done.
      destruct (bool_decide (bit4_of_bool _ = BIT4_0) && bool_decide (carry = BIT4_0)) eqn:E'.
      * apply andb_true_iff in E' as [E1%bool_decide_eq_true E2%bool_decide_eq_true].
        apply IH; [lia|]. apply incr_skip; [lia|done|by destruct (Z.testbit y _)|].
        rewrite E2 in Hc. by destruct (carry_into x y false idx).
      * pose proof (incr_step idx v that carry ltac:(lia) Hat) as Hstep.
        destruct (add_with_carry _ _ _) as [bit carry']. apply IH; [lia|done].
Qed.
End Incr.

(** ** Conversion to native integers *)

Lemma ones_val_range v n : 0 <= ones_val v n < 2 ^ Z.of_nat n.
Proof. apply Zbits_range. Qed.

Lemma lor_high res b k : 0 <= res < 2 ^ k -> 0 <= k -> Z.lor res (b * 2 ^ k) = res + b * 2 ^ k.
Proof.
  intros Hr Hk. apply Z.bits_inj'. intros i Hi. rewrite testbit_add_high, Z.lor_spec by done.
  rewrite <- Z.shiftl_mul_pow2, Z.shiftl_spec by lia. destruct (Z.ltb_spec i k).
  - rewrite (Z.testbit_neg_r _ (i - k)) by lia. apply orb_false_r.
  - by rewrite (testbit_small res k i) by lia.
Qed.

Lemma xz_below_S v n i : (i < n)%nat -> bit4_is_xz (value v i) = true -> xz_below v n = true.
Proof. intros Hi H. apply existsb_exists. exists i. rewrite in_seq. split; [lia|done]. Qed.

(** The loop from bit [idx] on, with the bits below collected. *)
Lemma to_value_loop_spec w vec ar n : forall idx res msk rc,
  (Z.of_nat (idx + n) <= w) -> res = ones_val vec idx -> msk = 2 ^ Z.of_nat idx mod 2 ^ w ->
  to_value_loop w vec ar n idx res msk rc =
    let xz := existsb (fun i => bit4_is_xz (value vec i)) (seq idx n) in
    if ar && xz then None else Some (ones_val vec (idx + n), rc && negb xz).
Proof.
  induction n as [|n IH]; intros idx res msk rc Hw Hres Hmsk; cbv zeta.
  - simpl. by rewrite andb_false_r, Nat.add_0_r, andb_true_r, Hres.
  - pose proof (ones_val_range vec idx) as Hr.
    assert (Hm : (msk * 2) mod 2 ^ w = 2 ^ Z.of_nat (S idx) mod 2 ^ w).
    { rewrite Hmsk, Zmult_mod_idemp_l, pow2_S. f_equal. lia. }
    assert (Hlow : 2 ^ Z.of_nat idx mod 2 ^ w = 2 ^ Z.of_nat idx).
    { apply Z.mod_small. split; [apply Z.pow_nonneg; lia|]. apply Z.pow_lt_mono_r; lia. }
    assert (Hkeep : is_bit BIT4_1 vec idx = false -> res = ones_val vec (S idx)).
    { intros E. unfold ones_val. rewrite Zbits_S, E. simpl. rewrite Hres. unfold ones_val. lia. }
    assert (Hset : is_bit BIT4_1 vec idx = true -> Z.lor res msk = ones_val vec (S idx)).
    { intros E. rewrite Hmsk, Hlow, Hres. rewrite <- (Z.mul_1_l (2 ^ Z.of_nat idx)), lor_high by lia.
      unfold ones_val at 2. rewrite Zbits_S, E. done. }
    cbn [to_value_loop seq existsb]. rewrite Hm. rewrite Nat.add_succ_r.
    unfold is_bit in Hkeep, Hset.
    destruct (value vec idx) eqn:E; cbn [bit4_is_xz bit4_to_int Z.leb Z.compare orb].
    + by rewrite IH by (done || lia || by apply Hkeep).
    + by rewrite IH by (done || lia || by apply Hset).
    + destruct ar; [done|]. rewrite IH by (done || lia || by apply Hkeep). cbn. by rewrite andb_false_r.
    + destruct ar; [done|]. rewrite IH by (done || lia || by apply Hkeep). cbn. by rewrite andb_false_r.
Qed.

(** The bits of [vec] above [n] do not change its number modulo [2^n]. *)
Lemma ones_val_mod v n m : (n <= m)%nat -> ones_val v m mod 2 ^ Z.of_nat n = ones_val v n.
Proof.
  intros Hn. unfold ones_val. rewrite <- Zbits_of_Z. apply Zbits_ext. intros i Hi.
  rewrite Zbits_testbit, Nat2Z.id by lia. by rewrite (proj2 (Z.ltb_lt _ _)) by lia.
Qed.

(** Sign extension of a vector shorter than the integer type. *)
Lemma sign_extend (w n : nat) res : (n < w <= 64)%nat -> 0 <= res < 2 ^ Z.of_nat n ->
  Z.lor res ((ones64 << n) mod 2 ^ Z.of_nat w) = (res - 2 ^ Z.of_nat n) mod 2 ^ Z.of_nat w.
Proof.
  intros Hn Hr. pose proof (pow2_pos (Z.of_nat n) ltac:(lia)).
  assert (H64 : 2 ^ 64 = 2 ^ (64 - Z.of_nat w) * 2 ^ Z.of_nat w) by (rewrite <- Z.pow_add_r by lia; f_equal; lia).
  assert (Hw : 2 ^ Z.of_nat w = 2 ^ (Z.of_nat w - Z.of_nat n) * 2 ^ Z.of_nat n)
    by (rewrite <- Z.pow_add_r by lia; f_equal; lia).
  assert (Hp : 0 < 2 ^ (Z.of_nat w - Z.of_nat n)) by (apply pow2_pos; lia).
  assert (E : (ones64 << n) mod 2 ^ Z.of_nat w = (2 ^ (Z.of_nat w - Z.of_nat n) - 1) * 2 ^ Z.of_nat n).
  { unfold shl64, u64. rewrite Z.shiftl_mul_pow2 by lia. rewrite H64 at 1.
    rewrite Z.mod_mod_divide by (rewrite <- H64 at 1; exists (2 ^ (64 - Z.of_nat w)); lia).
    unfold ones64. rewrite H64. symmetry.
    apply (Z.mod_unique_pos _ _ (2 ^ (64 - Z.of_nat w) * 2 ^ Z.of_nat n - 1)); [nia|].
    rewrite Hw. ring. }
  rewrite E, lor_high by lia. apply (Z.mod_unique_pos _ _ (-1)); [nia|]. rewrite Hw. ring.
Qed.

Lemma vector4_to_value_spec w vec sg ar : (0 < w <= 64)%nat ->
  vector4_to_value w vec sg ar =
    if ar && xz_below vec (Nat.min w (size vec)) then None
    else Some (num_of sg vec mod 2 ^ Z.of_nat w, negb (xz_below vec (Nat.min w (size vec)))).
Proof.
  intros Hw. unfold vector4_to_value.
  assert (Hm : (if (w <? size vec)%nat then w else size vec) = Nat.min w (size vec)) by (nat_cases; lia).
  rewrite Hm. rewrite to_value_loop_spec by (done || lia). cbv zeta. fold (xz_below vec (Nat.min w (size vec))).
  destruct (ar && _); [done|]. cbn [mbind option_bind]. rewrite andb_true_l. do 2 f_equal.
  rewrite Nat.add_0_l. change (bool_decide (value vec (size vec - 1) = BIT4_1)) with (is_bit BIT4_1 vec (size vec - 1)).
  unfold num_of. pose proof (ones_val_range vec (size vec)).
  destruct (sg && is_bit BIT4_1 vec (size vec - 1)) eqn:E; cbn [andb]; destruct (Nat.ltb_spec (size vec) w) as [Hl|Hl];
    rewrite ?Nat.min_r by lia; rewrite ?Nat.min_l by lia.
  - apply sign_extend; lia.
  - rewrite <- (ones_val_mod vec w (size vec)) by lia.
    replace (Z.of_nat (size vec)) with (Z.of_nat (size vec - w) + Z.of_nat w) by lia.
    rewrite Z.pow_add_r by lia. symmetry.
    rewrite <- (Z_mod_plus_full (_ - _) (2 ^ Z.of_nat (size vec - w))). f_equal. lia.
  - symmetry. apply Z.mod_small. split; [lia|]. apply (Z.lt_le_trans _ (2 ^ Z.of_nat (size vec))); [lia|].
    apply Z.pow_le_mono_r; lia.
  - by rewrite ones_val_mod.
Qed.

(** The overflow-checking conversion: bits beyond 64 raise the flag. *)
Lemma to_value_overflow_loop_spec vec n : forall idx res msk ov,
  res = ones_val vec idx mod 2 ^ 64 -> msk = u64 (2 ^ Z.of_nat idx) ->
  ov = negb (ones_val vec idx <? 2 ^ 64) ->
  to_value_overflow_loop vec n idx res msk ov =
    if existsb (fun i => bit4_is_xz (value vec i)) (seq idx n) then None
    else Some (ones_val vec (idx + n) mod 2 ^ 64, negb (ones_val vec (idx + n) <? 2 ^ 64)).
Proof.
  induction n as [|n IH]; intros idx res msk ov Hres Hmsk Hov; [simpl; by rewrite Nat.add_0_r, Hres, Hov|].
  cbn [to_value_overflow_loop seq existsb]. rewrite Nat.add_succ_r.
  pose proof (ones_val_range vec idx) as Hr.
  assert (Hm : msk << 1 = u64 (2 ^ Z.of_nat (S idx))).
  { rewrite Hmsk. unfold shl64, u64. rewrite Z.shiftl_mul_pow2, Zmult_mod_idemp_l, (pow2_S idx) by lia.
    change (2 ^ Z.of_nat 1) with 2. f_equal. lia. }
  assert (Hone : forall b, is_bit BIT4_1 vec idx = b ->
    ones_val vec (S idx) = ones_val vec idx + Z.b2z b * 2 ^ Z.of_nat idx) by (intros b <-; apply Zbits_S).
  rewrite Hm. unfold is_bit in Hone. destruct (value vec idx) eqn:E; cbn [bit4_is_xz bit4_to_int Z.leb Z.compare orb]; try done.
  - apply IH; [|done|]; rewrite (Hone false) by done; simpl Z.b2z; rewrite Z.mul_0_l, Z.add_0_r; done.
  - specialize (Hone true eq_refl). simpl Z.b2z in Hone. rewrite Z.mul_1_l in Hone.
    destruct (decide (idx < 64)%nat) as [Hlt|Hge].
    + assert (Hp : 2 ^ Z.of_nat idx < 2 ^ 64) by (apply Z.pow_lt_mono_r; lia).
      assert (Hs : 2 ^ Z.of_nat (S idx) <= 2 ^ 64) by (apply Z.pow_le_mono_r; lia). rewrite pow2_S in Hs.
      rewrite u64_small in Hmsk by (split; lia). rewrite Hmsk, (proj2 (Z.eqb_neq _ _)) by lia.
      rewrite Z.mod_small in Hres by lia.
      apply IH; [|done|].
      * rewrite Hres, Hone, <- (Z.mul_1_l (2 ^ Z.of_nat idx)), lor_high by lia. rewrite Z.mod_small; lia.
      * rewrite Hov, Hone. split_ltb; (done || lia).
    + assert (H64 : 2 ^ Z.of_nat idx = 2 ^ (Z.of_nat idx - 64) * 2 ^ 64) by (rewrite <- Z.pow_add_r by lia; f_equal; lia).
      pose proof (pow2_pos (Z.of_nat idx - 64) ltac:(lia)).
      assert (Hz : msk = 0) by (rewrite Hmsk; unfold u64; rewrite H64; apply Z.mod_mul; lia).
      rewrite (proj2 (Z.eqb_eq msk 0) Hz). apply IH; [|done|].
      * by rewrite Hres, Hone, H64, Z_mod_plus_full.
      * rewrite Hone, (proj2 (Z.ltb_ge _ _)) by nia. done.
Qed.

(** ** Comparison *)

Definition cmp_result (x y : Z) (out_if_equal : vvp_bit4_t) : vvp_bit4_t :=
  match x ?= y with Gt => BIT4_1 | Lt => BIT4_0 | Eq => out_if_equal end.

Lemma cmp_gt x y c : y < x -> cmp_result x y c = BIT4_1.
Proof. intros H. unfold cmp_result. by rewrite (proj2 (Z.compare_gt_iff x y)). Qed.
Lemma cmp_lt x y c : x < y -> cmp_result x y c = BIT4_0.
Proof. intros H. unfold cmp_result. by rewrite (proj2 (Z.compare_lt_iff x y)). Qed.
Lemma cmp_shift x y z c : cmp_result (x - z) (y - z) c = cmp_result x y c.
Proof. unfold cmp_result. destruct (Z.compare_spec x y), (Z.compare_spec (x - z) (y - z)); (done || lia). Qed.

Lemma ones_val_S v n : ones_val v (S n) = ones_val v n + Z.b2z (is_bit BIT4_1 v n) * 2 ^ Z.of_nat n.
Proof. done. Qed.

Lemma any_one_spec v lo n :
  if any_one v n lo then 2 ^ Z.of_nat lo <= ones_val v (lo + n) else ones_val v (lo + n) = ones_val v lo.
Proof.
  induction n as [|n IH]; [by rewrite Nat.add_0_r|]. cbn [any_one]. fold (is_bit BIT4_1 v (lo + n)).
  rewrite Nat.add_succ_r, ones_val_S. pose proof (ones_val_range v (lo + n)).
  destruct (is_bit BIT4_1 v (lo + n)); cbn [orb Z.b2z].
  - assert (2 ^ Z.of_nat lo <= 2 ^ Z.of_nat (lo + n)) by (apply Z.pow_le_mono_r; lia). lia.
  - destruct (any_one v n lo); [|rewrite IH]; lia.
Qed.

Lemma compare_loop_spec lef rig c n :
  (forall i, (i < n)%nat -> bit4_is_xz (value lef i) = false /\ bit4_is_xz (value rig i) = false) ->
  compare_loop lef rig n c = cmp_result (ones_val lef n) (ones_val rig n) c.
Proof.
  induction n as [|n IH]; intros H; [done|]. cbn [compare_loop]. rewrite !ones_val_S.
  destruct (H n ltac:(lia)) as [Hl Hr]. rewrite (known_bit lef), (known_bit rig) by done.
  pose proof (ones_val_range lef n). pose proof (ones_val_range rig n).
  rewrite IH by (intros i Hi; apply H; lia).
  destruct (is_bit BIT4_1 lef n), (is_bit BIT4_1 rig n); cbn [bit4_of_bool Z.b2z]; simpl bool_decide; cbv iota.
  - rewrite <- (cmp_shift (_ + _) (_ + _) (1 * 2 ^ Z.of_nat n)). f_equal; lia.
  - symmetry. apply cmp_gt. lia.
  - symmetry. apply cmp_lt. lia.
  - f_equal; lia.
Qed.

Lemma num_of_unsigned v : num_of false v = ones_val v (size v).
Proof. done. Qed.

Lemma compare_gtge_spec lef rig c :
  vec_wf lef -> vec_wf rig -> (0 < size lef)%nat -> (0 < size rig)%nat ->
  compare_gtge lef rig c =
    if any_xz lef || any_xz rig then BIT4_X else cmp_result (num_of false lef) (num_of false rig) c.
Proof.
  intros Hl Hr Hnl Hnr. unfold compare_gtge. rewrite !num_of_unsigned, !has_xz_spec by done.
  set (m := if (size rig <? size lef)%nat then size rig else size lef).
  assert (Hm : m = Nat.min (size lef) (size rig)) by (unfold m; nat_cases; lia).
  rewrite (proj2 (Nat.eqb_neq m 0)) by lia.
  destruct (any_xz lef) eqn:El; [done|]. destruct (any_xz rig) eqn:Er; [done|]. cbn [orb].
  pose proof (any_one_spec lef (size rig) (size lef - size rig)) as H1.
  pose proof (any_one_spec rig (size lef) (size rig - size lef)) as H2.
  pose proof (ones_val_range lef (size lef)). pose proof (ones_val_range rig (size rig)).
  destruct (Nat.le_gt_cases (size lef) (size rig)) as [Hle|Hgt].
  - replace (size lef - size rig)%nat with 0%nat in * by lia. cbn [any_one] in *.
    replace (size lef + (size rig - size lef))%nat with (size rig) in H2 by lia.
    destruct (any_one rig _ _); [symmetry; apply cmp_lt; lia|]. rewrite H2, compare_loop_spec.
    + by replace m with (size lef) by lia.
    + intros i Hi. rewrite any_xz_false in El, Er. split; [apply El|apply Er]; lia.
  - replace (size rig - size lef)%nat with 0%nat in * by lia. cbn [any_one] in *.
    replace (size rig + (size lef - size rig))%nat with (size lef) in H1 by lia.
    destruct (any_one lef _ _); [symmetry; apply cmp_gt; lia|]. rewrite H1, compare_loop_spec.
    + by replace m with (size rig) by lia.
    + intros i Hi. rewrite any_xz_false in El, Er. split; [apply El|apply Er]; lia.
Qed.

(** An x or z at one bit is one in the vector. *)
Lemma any_xz_at v i : (i < size v)%nat -> bit4_is_xz (value v i) = true -> any_xz v = true.
Proof. apply xz_below_S. Qed.

Lemma compare_gtge_signed_spec a b c :
  vec_wf a -> vec_wf b -> size a = size b -> (0 < size a)%nat ->
  compare_gtge_signed a b c =
    Some (if any_xz a || any_xz b then BIT4_X else cmp_result (num_of true a) (num_of true b) c).
Proof.
  intros Ha Hb Hs Hn. unfold compare_gtge_signed. rewrite Hs, Nat.eqb_refl. simpl negb. cbv iota. f_equal.
  rewrite <- Hs. destruct (bit4_is_xz (value a (size a - 1))) eqn:Ea.
  { by rewrite (any_xz_at a (size a - 1)) by (done || lia). }
  destruct (bit4_is_xz (value b (size a - 1))) eqn:Eb.
  { rewrite (any_xz_at b (size a - 1)) by (done || lia). by rewrite orb_true_r. }
  rewrite (known_bit a), (known_bit b) by done. rewrite !has_xz_spec by (done || lia).
  rewrite compare_gtge_spec by (done || lia). rewrite !num_of_unsigned. unfold num_of. rewrite <- Hs. cbn [andb].
  pose proof (ones_val_range a (size a)). pose proof (ones_val_range b (size a)).
  destruct (any_xz a), (any_xz b); cbn [orb];
    try (destruct (is_bit BIT4_1 a _), (is_bit BIT4_1 b _); reflexivity).
  destruct (is_bit BIT4_1 a _), (is_bit BIT4_1 b _); cbn [bit4_of_bool]; simpl bool_decide; cbv iota.
  - symmetry. apply cmp_shift.
  - symmetry. apply cmp_lt. lia.
  - symmetry. apply cmp_gt. lia.
  - done.
Qed.

(** ** Properties *)

(** [operator += (int64_t)] adds the integer modulo [2^size], bit by bit
    with an early exit, negative integers included; a vector with an x or z bit
    becomes all x. *)
Lemma vec4_incr_correct this that :
  vec_wf this -> (0 < size this)%nat ->
  arith_result (any_xz this) (size this) (vval this + that) (vec4_incr this that).
Proof.
  intros Hwf Hn. unfold vec4_incr. rewrite has_xz_spec by done. destruct (any_xz this) eqn:E.
  - split; [apply vec4_fill_wf|]. split; [done|]. intros i Hi. by apply vec4_fill_value.
  - destruct (incr_loop_spec (vval this) that (size this) (size this) 0 this that BIT4_0) as (H1 & H2 & H3); [lia| |].
    + constructor; [done|done|by rewrite Z.shiftr_0_r|by rewrite carry_into_0|].
      intros i Hi. simpl. rewrite known_bit by (by apply any_xz_false).
      unfold vval. rewrite pbit_pval by done. unfold is_bit. rewrite any_xz_false in E. specialize (E i Hi).
      rewrite value_lt in * by done. by destruct (pbit (abits this) i), (pbit (bbits this) i).
    + split; [done|]. split; [done|].
      destruct (number_bits (incr_loop (size this) 0 this that BIT4_0) (vval this + that)) as [H4 H5]; [by rewrite H2|].
      split; [done|]. by rewrite H2 in H5.
Qed.

(** [vector4_to_value] into an integer type of [w] bits stores the number
    of the vector, sign-extended or truncated, modulo [2^w]; x and z bits among
    the bits converted make it fail ([is_arithmetic]) or clear the flag and
    count as 0.  The overflow-checking variant fails on any x or z and raises
    the flag just when the number needs more than 64 bits. *)
Lemma vector4_to_value_correct w vec sg ar :
  (0 < w <= 64)%nat ->
  vector4_to_value w vec sg ar =
    (let xz := xz_below vec (Nat.min w (size vec)) in
     if ar && xz then None else Some (num_of sg vec mod 2 ^ Z.of_nat w, negb xz)) /\
  vector4_to_value_overflow vec =
    if any_xz vec then None
    else Some (num_of false vec mod 2 ^ 64, negb (num_of false vec <? 2 ^ 64)).
Proof.
  intros Hw. split; [by apply vector4_to_value_spec|]. by apply to_value_overflow_loop_spec.
Qed.

(** C24. The ordered comparisons behind [>], [>=], [<], [<=]: x when an operand
    has an x or z, else the order of the numbers, unsigned for operands of any
    two sizes and two's complement for operands of one size. *)
Theorem compare_gtge_correct a b c :
  vec_wf a -> vec_wf b -> (0 < size a)%nat -> (0 < size b)%nat ->
  compare_gtge a b c =
    (if any_xz a || any_xz b then BIT4_X else cmp_result (num_of false a) (num_of false b) c) /\
  compare_gtge_signed a b c =
    (if (size a =? size b)%nat then
       Some (if any_xz a || any_xz b then BIT4_X else cmp_result (num_of true a) (num_of true b) c)
     else None).
Proof.
  intros Ha Hb Hna Hnb. split; [by apply compare_gtge_spec|].
  destruct (Nat.eqb_spec (size a) (size b)) as [E|E]; [by apply compare_gtge_signed_spec|].
  unfold compare_gtge_signed. by rewrite (proj2 (Nat.eqb_neq _ _) E).
Qed.


Lemma vector4_to_value_correct_witness :
  vector4_to_value 32 (vec4_of_Z 8 0xf0) true true = Some ((0xf0 - 2 ^ 8) mod 2 ^ 32, true).
Proof. apply (vector4_to_value_correct 32 (vec4_of_Z 8 0xf0) true true). lia. Defined.

Lemma compare_gtge_correct_witness :
  compare_gtge (vec4_of_Z 70 5) (vec4_of_Z 3 5) BIT4_1 = BIT4_1 /\
  compare_gtge_signed (vec4_of_Z 70 5) (vec4_of_Z 3 5) BIT4_1 = None.
Proof.
  apply (compare_gtge_correct (vec4_of_Z 70 5) (vec4_of_Z 3 5) BIT4_1);
    [apply vec_wf_dec_bool; reflexivity.. | simpl; lia | simpl; lia].
Defined.

(** C35. [operator += (int64_t)] adds the integer modulo [2^size], negative ones
    included, and gives all x when the vector has an x or z.  Conversion into an
    integer type of [w] bits stores the number of the vector, x and z read as 0,
    modulo [2^w] and returns whether the low [w] bits were free of x and z - but with
    [is_arithmetic] it stores nothing at all when they were not, so that the variable
    of the caller keeps what it had, although vvp_net.h says that the result is then
    entirely 0.  The conversion that reports overflow stores nothing either for any x
    or z, and otherwise the number modulo [2^64] and whether it is too big. *)
Theorem vec4_native_correct this that w vec sg ar :
  (vec_wf this -> (0 < size this)%nat ->
   arith_result (any_xz this) (size this) (vval this + that) (vec4_incr this that)) /\
  ((0 < w <= 64)%nat ->
   vector4_to_value w vec sg ar =
     (let xz := xz_below vec (Nat.min w (size vec)) in
      if ar && xz then None else Some (num_of sg vec mod 2 ^ Z.of_nat w, negb xz)) /\
   vector4_to_value_overflow vec =
     if any_xz vec then None
     else Some (num_of false vec mod 2 ^ 64, negb (num_of false vec <? 2 ^ 64))).
Proof. exact (conj (vec4_incr_correct this that) (vector4_to_value_correct w vec sg ar)). Qed.

Lemma vec4_native_correct_witness :
  arith_result false 70 (2 ^ 64 - 1 + 3) (vec4_incr (vec4_of_Z 70 (2 ^ 64 - 1)) 3) /\
  vec4_incr (vec4_of_Z 70 0) (-1) = vec4_of_Z 70 (2 ^ 70 - 1).
Proof.
  pose proof (fun this that => proj1 (vec4_native_correct this that 1 this false false)) as vec4_incr_correct.
  split; [|vm_compute; reflexivity].
  apply (vec4_incr_correct (vec4_of_Z 70 (2 ^ 64 - 1)) 3); [apply vec_wf_dec_bool; reflexivity | simpl; lia].
Defined.
