(* ===== verification/Vector4Array.v ===== *)
(** * Vector4Array: run-time vectors and arrays of native words

    [setarray] writes a field from an array of words and [subarray] reads one
    into a new array, each transferring as many bits at a time as the offsets in
    both words allow. *)

From S2P Require Import Prelude FourState Vector4 Vector4Value Vector4Arith Vector4Logic Vector4Reduce.
Import Bit4.

Open Scope ivl_scope.

(** ** Writing *)

Lemma field_mask_bit off t b : (off < 64)%nat -> (off + t <= 64)%nat -> (b < 64)%nat ->
  Z.testbit (field_mask off t) (Z.of_nat b) = ((off <=? b) && (b <? off + t))%nat.
Proof.
  intros Ho Ht Hb. unfold field_mask. rewrite not64_bit, Z.lor_spec, low_mask_bit by lia.
  rewrite (proj2 (Z.ltb_lt _ 64)) by lia. cbn [andb]. unfold BITS_PER_WORD.
  destruct (Nat.ltb_spec (off + t) 64) as [H|H].
  - rewrite shl64_bit by lia. destruct (Z.leb_spec (Z.of_nat (off + t)) (Z.of_nat b)); rewrite ?ones64_bit by lia;
      rewrite (proj2 (Z.ltb_lt (Z.of_nat b) 64)) by lia; cbn [andb]; nat_cases; split_ltb; (done || lia).
  - rewrite Z.bits_0. nat_cases; split_ltb; (done || lia).
Qed.

Lemma is_word_field_mask off t : is_word (field_mask off t).
Proof. apply is_word_not64. Qed.
#[local] Hint Resolve is_word_field_mask : word.

(** A bit of the source word moved to its place in the destination. *)
Lemma moved_bit (v : Z) off voff b : is_word v -> (off < 64)%nat -> (voff < 64)%nat -> (off <= b < 64)%nat ->
  (voff + (b - off) < 64)%nat ->
  Z.testbit (if (off <=? voff)%nat then v >> (voff - off) else v << (off - voff)) (Z.of_nat b) =
  Z.testbit v (Z.of_nat (voff + (b - off))).
Proof.
  intros Hv Ho Hvo Hb Hx. destruct (Nat.leb_spec off voff).
  - rewrite shr64_bit by lia. f_equal. lia.
  - rewrite shl64_bit by lia. rewrite (proj2 (Z.ltb_lt (Z.of_nat b) 64)), (proj2 (Z.leb_le _ _)) by lia. cbn [andb].
    f_equal. lia.
Qed.

(** The words of one round. *)
Lemma set_field (p : plane) ptr off t x : (ptr < length p)%nat -> (off < 64)%nat -> (off + t <= 64)%nat ->
  forall i, pbit p.[ptr <- p.[ptr] .& .~ (field_mask off t) .| (field_mask off t .& x)] i =
    if ((ptr * 64 + off <=? i) && (i <? ptr * 64 + off + t))%nat
    then Z.testbit x (Z.of_nat (off + (i - (ptr * 64 + off)))) else pbit p i.
Proof.
  intros Hp Ho Ht i. rewrite (pbit_field p ptr off t (fun j => Z.testbit x (Z.of_nat (off + j)))); [done|done|done|].
  intros b Hb. rewrite Z.lor_spec, !Z.land_spec, not64_bit, field_mask_bit by lia.
  rewrite (proj2 (Z.ltb_lt (Z.of_nat b) 64)) by lia. cbn [andb].
  destruct (Nat.leb_spec off b), (Nat.ltb_spec b (off + t)); cbn [andb negb]; rewrite ?andb_true_r, ?andb_false_r, ?orb_false_r; try done.
  simpl. f_equal. lia.
Qed.

Lemma clear_field (p : plane) ptr off t : (ptr < length p)%nat -> (off < 64)%nat -> (off + t <= 64)%nat ->
  forall i, pbit p.[ptr <- p.[ptr] .& .~ (field_mask off t)] i =
    if ((ptr * 64 + off <=? i) && (i <? ptr * 64 + off + t))%nat then false else pbit p i.
Proof.
  intros Hp Ho Ht i. rewrite (pbit_field p ptr off t (fun _ => false)); [done|done|done|].
  intros b Hb. rewrite Z.land_spec, not64_bit, field_mask_bit by lia.
  rewrite (proj2 (Z.ltb_lt (Z.of_nat b) 64)) by lia. cbn [andb].
  destruct (Nat.leb_spec off b), (Nat.ltb_spec b (off + t)); cbn [andb negb]; rewrite ?andb_true_r, ?andb_false_r; done.
Qed.

(** The planes after [w] bits are written at bit [p0] from bit [v0] of [val]. *)
Definition field_written (n p0 v0 w : nat) (val : plane) (a b a' b' : plane) : Prop :=
  plane_wf n a' /\ plane_wf n b' /\
  forall i, pbit a' i = (if ((p0 <=? i) && (i <? p0 + w))%nat then pbit val (v0 + (i - p0)) else pbit a i) /\
            pbit b' i = (if ((p0 <=? i) && (i <? p0 + w))%nat then false else pbit b i).

(** The place [t] bits further. *)
Lemma next_place o k t : (o + t <= 64)%nat ->
  exists o' k', (if (o + t =? BITS_PER_WORD)%nat then (0%nat, (k + 1)%nat) else ((o + t)%nat, k)) = (o', k') /\
    (o' < 64)%nat /\ (k' * 64 + o' = k * 64 + o + t)%nat.
Proof.
  intros Hle. unfold BITS_PER_WORD. destruct (Nat.eqb_spec (o + t) 64); eexists _, _; (split; [reflexivity|]); lia.
Qed.

Lemma next_place' o k t : (o + t <= 64)%nat ->
  exists o' k', (if (o + t =? BITS_PER_WORD)%nat then ((k + 1)%nat, 0%nat) else (k, (o + t)%nat)) = (k', o') /\
    (o' < 64)%nat /\ (k' * 64 + o' = k * 64 + o + t)%nat.
Proof.
  intros Hle. destruct (next_place o k t Hle) as (o' & k' & E & H). exists o', k'. split; [|done].
  destruct (o + t =? BITS_PER_WORD)%nat; congruence.
Qed.

Lemma field_written_trans n p0 v0 t w val a b a1 b1 a2 b2 : (t <= w)%nat ->
  field_written n p0 v0 t val a b a1 b1 -> field_written n (p0 + t) (v0 + t) (w - t) val a1 b1 a2 b2 ->
  field_written n p0 v0 w val a b a2 b2.
Proof.
  intros Ht (_ & _ & H1) (W1 & W2 & H2). split; [done|]. split; [done|]. intros i.
  destruct (H2 i) as [-> ->], (H1 i) as [-> ->].
  nat_cases; cbn [andb]; try lia; (split; [|done]); try done; f_equal; lia.
Qed.

Lemma setarray_loop_spec n val : Forall is_word val -> forall fuel wid off ptr val_off val_ptr a b,
  (wid <= fuel)%nat -> (off < 64)%nat -> (val_off < 64)%nat -> (ptr * 64 + off + wid <= n)%nat ->
  plane_wf n a -> plane_wf n b ->
  let '(a', b') := setarray_loop fuel val wid off ptr val_off val_ptr (a, b) in
  field_written n (ptr * 64 + off) (val_ptr * 64 + val_off) wid val a b a' b'.
Proof.
  intros Hval. induction fuel as [|fuel IH]; intros wid off ptr val_off val_ptr a b Hw Ho Hvo Hn Ha Hb;
    cbn [setarray_loop].
  { assert (wid = 0)%nat as -> by lia. split; [done|]. split; [done|]. intros i. nat_cases; cbn [andb]; (done || lia). }
  destruct (Nat.ltb_spec 0 wid) as [H0|H0].
  2: { assert (wid = 0)%nat as -> by lia. split; [done|]. split; [done|]. intros i. nat_cases; cbn [andb]; (done || lia). }
  set (t1 := if (BITS_PER_WORD - val_off <? wid)%nat then (BITS_PER_WORD - val_off)%nat else wid).
  set (t := if (BITS_PER_WORD - off <? t1)%nat then (BITS_PER_WORD - off)%nat else t1).
  assert (Ht : (0 < t <= wid /\ off + t <= 64 /\ val_off + t <= 64)%nat).
  { unfold t, t1, BITS_PER_WORD. destruct (Nat.ltb_spec (64 - val_off) wid); nat_cases; lia. }
  clearbody t. clear t1. destruct Ht as (Ht & Hot & Hvt).
  pose proof Ha as [Hla Hwa]. pose proof Hb as [Hlb Hwb].
  assert (Hptr : (ptr < storage n)%nat) by (apply storage_word; lia).
  set (m := field_mask off t).
  set (a1 := a.[ptr <- a.[ptr] .& .~ m]).
  assert (Ea : (if (off <=? val_off)%nat
      then a1.[ptr <- a1.[ptr] .| (m .& (val.[val_ptr] >> (val_off - off)))]
      else a1.[ptr <- a1.[ptr] .| (m .& (val.[val_ptr] << (off - val_off)))]) =
    a.[ptr <- a.[ptr] .& .~ m .| (m .& if (off <=? val_off)%nat then val.[val_ptr] >> (val_off - off)
                                     else val.[val_ptr] << (off - val_off))]).
  { unfold a1. destruct (off <=? val_off)%nat; apply write_or. }
  rewrite Ea. clear Ea. set (x := if (off <=? val_off)%nat then _ else _).
  set (a2 := a.[ptr <- _]). set (b2 := b.[ptr <- _]).
  assert (Hx : is_word x).
  { unfold x. destruct (off <=? val_off)%nat; auto with word. }
  assert (Ha2 : plane_wf n a2) by (split; [unfold a2; by rewrite insert_length|unfold a2, m; auto 8 with word]).
  assert (Hb2 : plane_wf n b2) by (split; [unfold b2; by rewrite insert_length|unfold b2, m; auto 8 with word]).
  assert (Hround : field_written n (ptr * 64 + off) (val_ptr * 64 + val_off) t val a b a2 b2).
  { split; [done|]. split; [done|]. intros i. unfold a2, b2, m.
    rewrite set_field, clear_field by lia. split; [|done]. destruct (Nat.leb_spec (ptr * 64 + off) i); [|done].
    destruct (Nat.ltb_spec i (ptr * 64 + off + t)); [|done]. cbn [andb]. unfold x. rewrite moved_bit by (auto with word || lia).
    rewrite <- pbit_word by lia. f_equal. lia. }
  destruct (next_place val_off val_ptr t Hvt) as (vo' & vp' & -> & Hvo' & Evp).
  destruct (next_place off ptr t Hot) as (o' & p' & -> & Ho' & Ep).
  specialize (IH (wid - t)%nat o' p' vo' vp' a2 b2 ltac:(lia) Ho' Hvo' ltac:(lia) Ha2 Hb2).
  rewrite Ep, Evp in IH. destruct (setarray_loop _ _ _ _ _ _ _ _) as [a' b'].
  apply (field_written_trans n _ _ t wid val a b a2 b2); [lia|done|done].
Qed.

Lemma setarray_spec this adr wid val : vec_wf this -> Forall is_word val -> (0 < wid)%nat -> (adr + wid <= size this)%nat ->
  exists r, setarray this adr wid val = Some r /\ vec_wf r /\ size r = size this /\
    forall i, (i < size this)%nat -> value r i =
      if ((adr <=? i) && (i <? adr + wid))%nat then (if pbit val (i - adr) then BIT4_1 else BIT4_0) else value this i.
Proof.
  intros [[Hla Hwa] [Hlb Hwb]] Hval Hw Hs. unfold setarray. rewrite (proj2 (Nat.leb_le _ _) Hs).
  assert (Hvec : forall a' b', field_written (size this) adr 0 wid val (abits this) (bbits this) a' b' ->
    vec_wf (Vec4 (size this) a' b') /\ size (Vec4 (size this) a' b') = size this /\
    forall i, (i < size this)%nat -> value (Vec4 (size this) a' b') i =
      if ((adr <=? i) && (i <? adr + wid))%nat then (if pbit val (i - adr) then BIT4_1 else BIT4_0) else value this i).
  { intros a' b' (W1 & W2 & Hb). split; [done|]. split; [done|]. intros i Hi. rewrite !value_lt by done. simpl.
    destruct (Hb i) as [-> ->]. rewrite Nat.add_0_l. destruct ((adr <=? i) && (i <? adr + wid))%nat; [|done].
    by destruct (pbit val (i - adr)). }
  destruct (is_long (size this)) eqn:E; cbn [negb].
  - pose proof (setarray_loop_spec (size this) val Hval wid wid (adr mod BITS_PER_WORD) (adr / BITS_PER_WORD) 0 0
      (abits this) (bbits this)) as H. destruct (div64 adr) as [Hd Hm].
    destruct (setarray_loop _ _ _ _ _ _ _ _) as [a' b']. eexists. split; [done|]. apply Hvec.
    rewrite Hd in H. apply H; (done || lia).
  - apply is_short_spec in E. eexists. split; [done|]. apply Hvec.
    rewrite write_or. assert (H0 : (0 < storage (size this))%nat) by (apply storage_bound).
    split; [split; [by rewrite insert_length|auto 8 with word]|].
    split; [split; [by rewrite insert_length|auto 8 with word]|]. intros i.
    rewrite set_field, clear_field by lia. split; [|done]. rewrite Nat.mul_0_l, Nat.add_0_l.
    destruct (Nat.leb_spec adr i); [|done]. destruct (Nat.ltb_spec i (adr + wid)); [|done]. cbn [andb].
    rewrite shl64_bit by lia. rewrite (proj2 (Z.ltb_lt _ 64)), (proj2 (Z.leb_le _ _)) by lia. cbn [andb].
    rewrite Nat.add_0_l. unfold pbit. destruct (div_small64 (i - adr)) as [-> ->]; [lia|]. f_equal. lia.
Qed.

(** ** Reading *)

(** Some of the [w] bits from [adr] on is x or z. *)
Definition xz_field (b : plane) (adr w : nat) : bool := existsb (fun i => pbit b (adr + i)) (seq 0 w).

(** A bit that is 1. *)
Definition one_bit (a b : plane) (j : nat) : bool := pbit a j && negb (pbit b j).

Lemma xz_field_split b adr t w : (t <= w)%nat -> xz_field b adr w = xz_field b adr t || xz_field b (adr + t) (w - t).
Proof.
  intros Ht. unfold xz_field. replace w with (t + (w - t))%nat at 1 by lia. rewrite seq_app, existsb_app. f_equal.
  rewrite Nat.add_0_l. apply eq_true_iff_eq. rewrite !existsb_exists. split; intros (i & Hi & H); apply in_seq in Hi.
  - exists (i - t)%nat. rewrite in_seq. split; [lia|]. by replace (adr + t + (i - t))%nat with (adr + i)%nat by lia.
  - exists (t + i)%nat. rewrite in_seq. split; [lia|]. by rewrite Nat.add_assoc.
Qed.

(** The bits [off, off+t) of a word, moved down. *)
Definition chunk (w : Z) (off t : nat) : Z :=
  if (t <? BITS_PER_WORD)%nat then (w >> off) .& low_mask t else w >> off.

Lemma chunk_bit (p : plane) k off t i : Forall is_word p -> (off + t <= 64)%nat -> (i < 64)%nat ->
  Z.testbit (chunk p.[k] off t) (Z.of_nat i) = (i <? t)%nat && pbit p (k * 64 + off + i).
Proof.
  intros Hp Ht Hi. assert (Hs : (off + i < 64)%nat -> Z.testbit (p.[k] >> off) (Z.of_nat i) = pbit p (k * 64 + off + i)).
  { intros Hx. rewrite shr64_bit by lia. rewrite <- Nat.add_assoc, pbit_word by lia. f_equal. lia. }
  unfold chunk. destruct (Nat.ltb_spec t BITS_PER_WORD) as [H|H]; unfold BITS_PER_WORD in H.
  - rewrite Z.land_spec, low_mask_bit by lia.
    assert ((Z.of_nat i <? Z.of_nat t) = (i <? t)%nat) as -> by (nat_cases; split_ltb; (done || lia)).
    destruct (Nat.ltb_spec i t).
    + rewrite Hs by lia. by rewrite andb_true_r.
    + by rewrite andb_false_r.
  - rewrite Hs by lia. nat_cases; (done || lia).
Qed.

Lemma is_word_chunk (p : plane) k off t : Forall is_word p -> is_word (chunk p.[k] off t).
Proof. intros Hp. unfold chunk. destruct (_ <? _)%nat; auto with word. Qed.

Lemma chunk_zero (b : plane) k off t : Forall is_word b -> (off + t <= 64)%nat ->
  (chunk b.[k] off t =? 0) = negb (xz_field b (k * 64 + off) t).
Proof.
  intros Hb Ht. rewrite <- (negb_involutive (_ =? 0)). f_equal. rewrite word_any by (by apply is_word_chunk).
  unfold xz_field. apply eq_true_iff_eq. rewrite !existsb_exists. split; intros (i & Hi & H); apply in_seq in Hi.
  - rewrite chunk_bit in H by (done || lia). apply andb_true_iff in H as [H1%Nat.ltb_lt H2].
    exists i. rewrite in_seq. split; [lia|done].
  - exists i. rewrite in_seq. split; [lia|]. rewrite chunk_bit by (done || lia).
    by rewrite (proj2 (Nat.ltb_lt i t)) by lia.
Qed.

(** A chunk of the value: the ones, unless an x or z makes the whole fail. *)
Lemma drop_xz_spec (a b : plane) k off t xz_to_0 : Forall is_word a -> Forall is_word b -> (off + t <= 64)%nat ->
  if xz_field b (k * 64 + off) t && negb xz_to_0 then drop_xz xz_to_0 (chunk a.[k] off t) (chunk b.[k] off t) = None
  else exists v, drop_xz xz_to_0 (chunk a.[k] off t) (chunk b.[k] off t) = Some v /\ is_word v /\
    forall i, (i < 64)%nat -> Z.testbit v (Z.of_nat i) = (i <? t)%nat && one_bit a b (k * 64 + off + i).
Proof.
  intros Ha Hb Ht. unfold drop_xz. rewrite chunk_zero by done.
  pose proof (is_word_chunk a k off t Ha) as Hwa. pose proof (is_word_chunk b k off t Hb) as Hwb.
  destruct (xz_field b (k * 64 + off) t) eqn:E; cbn [negb andb].
  - destruct xz_to_0; cbn [negb]; [|done]. eexists. split; [done|]. split; [auto with word|]. intros i Hi.
    rewrite Z.land_spec, not64_bit, !chunk_bit by (done || lia). rewrite (proj2 (Z.ltb_lt _ 64)) by lia. unfold one_bit.
    by destruct (i <? t)%nat, (pbit a _), (pbit b _).
  - eexists. split; [done|]. split; [done|]. intros i Hi. rewrite chunk_bit by done.
    destruct (Nat.ltb_spec i t); [|done]. unfold one_bit. assert (Hx : pbit b (k * 64 + off + i) = false).
    { apply not_true_iff_false. intros Hx. apply not_true_iff_false in E. apply E, existsb_exists.
      exists i. rewrite in_seq. split; [lia|done]. }
    rewrite Hx. by destruct (pbit a _).
Qed.

(** The result after [w] bits from [adr] are added at bit [v0] of [val]. *)
Definition field_read (a b : plane) (adr v0 w : nat) (val val' : plane) : Prop :=
  length val' = length val /\ Forall is_word val' /\
  forall i, pbit val' i = pbit val i || ((v0 <=? i) && (i <? v0 + w))%nat && one_bit a b (adr + (i - v0)).

Lemma field_read_trans a b adr v0 t w val val1 val2 : (t <= w)%nat ->
  field_read a b adr v0 t val val1 -> field_read a b (adr + t) (v0 + t) (w - t) val1 val2 ->
  field_read a b adr v0 w val val2.
Proof.
  intros Ht (L1 & W1 & H1) (L2 & W2 & H2). split; [congruence|]. split; [done|]. intros i. rewrite H2, H1.
  rewrite <- orb_assoc. f_equal. nat_cases; cbn [andb orb]; try lia; rewrite ?orb_false_r; try done. f_equal. lia.
Qed.

Lemma read_round (a b : plane) k off t val vp vo v : Forall is_word val -> is_word v -> (vp < length val)%nat -> (vo + t <= 64)%nat ->
  (forall i, (i < 64)%nat -> Z.testbit v (Z.of_nat i) = (i <? t)%nat && one_bit a b (k * 64 + off + i)) ->
  field_read a b (k * 64 + off) (vp * 64 + vo) t val val.[vp <- val.[vp] .| (v << vo)].
Proof.
  intros Hval Hv Hvp Hvo Hb. split; [by rewrite insert_length|]. split; [auto with word|]. intros i.
  rewrite (pbit_field val vp vo t (fun j => pbit val (vp * 64 + vo + j) || one_bit a b (k * 64 + off + j))); [|done|done|].
  - destruct (Nat.leb_spec (vp * 64 + vo) i); cbn [andb]; [|by rewrite orb_false_r].
    destruct (Nat.ltb_spec i (vp * 64 + vo + t)); cbn [andb]; [|by rewrite orb_false_r].
    f_equal. f_equal. lia.
  - intros x Hx. rewrite Z.lor_spec, shl64_bit by lia. rewrite (proj2 (Z.ltb_lt (Z.of_nat x) 64)) by lia. cbn [andb].
    destruct (Nat.leb_spec vo x); cbn [andb].
    + rewrite (proj2 (Z.leb_le _ _)) by lia. cbn [andb].
      replace (Z.of_nat x - Z.of_nat vo) with (Z.of_nat (x - vo)) by lia. rewrite Hb by lia.
      destruct (Nat.ltb_spec x (vo + t)), (Nat.ltb_spec (x - vo) t); try lia; cbn [andb]; [|by rewrite orb_false_r].
      f_equal. rewrite <- pbit_word by done. f_equal. lia.
    + rewrite (proj2 (Z.leb_gt _ _)) by lia. cbn [andb]. by rewrite orb_false_r.
Qed.

Lemma subarray_loop_spec (a b : plane) xz_to_0 : Forall is_word a -> Forall is_word b ->
  forall fuel wid adr vp vo val, (wid <= fuel)%nat -> (vo < 64)%nat -> Forall is_word val ->
  (vp * 64 + vo + wid <= length val * 64)%nat ->
  let r := subarray_loop fuel a b xz_to_0 adr wid vp vo val in
  if xz_field b adr wid && negb xz_to_0 then r = None
  else exists val', r = Some val' /\ field_read a b adr (vp * 64 + vo) wid val val'.
Proof.
  intros Ha Hb. cbv zeta. induction fuel as [|fuel IH]; intros wid adr vp vo val Hw Hvo Hval Hlen; cbn [subarray_loop].
  - assert (wid = 0)%nat as -> by lia. simpl. exists val. split; [done|]. split; [done|]. split; [done|].
    intros i. nat_cases; cbn [andb]; try lia; by rewrite orb_false_r.
  - destruct (Nat.ltb_spec 0 wid) as [H0|H0].
    2: { assert (wid = 0)%nat as -> by lia. simpl. exists val. split; [done|]. split; [done|]. split; [done|].
      intros i. nat_cases; cbn [andb]; try lia; by rewrite orb_false_r. }
    destruct (div64 adr) as [Hd Hm]. set (k := (adr / BITS_PER_WORD)%nat) in *. set (off := (adr mod BITS_PER_WORD)%nat) in *.
    set (t1 := if (BITS_PER_WORD - vo <? BITS_PER_WORD - off)%nat then (BITS_PER_WORD - vo)%nat else (BITS_PER_WORD - off)%nat).
    set (t := if (wid <? t1)%nat then wid else t1).
    assert (Ht : (0 < t <= wid /\ off + t <= 64 /\ vo + t <= 64)%nat).
    { unfold t, t1, BITS_PER_WORD. destruct (Nat.ltb_spec (64 - vo) (64 - off)); nat_cases; lia. }
    clearbody t. clear t1. destruct Ht as (Ht & Hot & Hvt).
    assert (Echunk : (if (t <? BITS_PER_WORD)%nat
        then ((a.[k] >> off) .& low_mask t, (b.[k] >> off) .& low_mask t) else (a.[k] >> off, b.[k] >> off)) =
      (chunk a.[k] off t, chunk b.[k] off t)) by (unfold chunk; by destruct (t <? BITS_PER_WORD)%nat).
    rewrite Echunk. pose proof (drop_xz_spec a b k off t xz_to_0 Ha Hb Hot) as Hdrop.
    rewrite (xz_field_split b adr t wid) by lia. rewrite Hd in Hdrop.
    destruct (xz_field b adr t && negb xz_to_0) eqn:Ex.
    { rewrite Hdrop. apply andb_true_iff in Ex as [-> ->]. done. }
    destruct Hdrop as (v & -> & Hv & Hbits). cbn [mbind option_bind].
    rewrite <- Hd in Hbits.
    pose proof (read_round a b k off t val vp vo v Hval Hv ltac:(lia) Hvt Hbits) as Hround. rewrite Hd in Hround.
    destruct (next_place' vo vp t Hvt) as (vo' & vp' & -> & Hvo' & Evp).
    destruct Hround as (L1 & W1 & B1).
    specialize (IH (wid - t)%nat (adr + t)%nat vp' vo' _ ltac:(lia) Hvo' W1 ltac:(lia)). rewrite Evp in IH.
    assert (Exz : (xz_field b adr t || xz_field b (adr + t) (wid - t)) && negb xz_to_0 =
      xz_field b (adr + t) (wid - t) && negb xz_to_0)
      by (destruct xz_to_0, (xz_field b adr t); done || by rewrite !andb_false_r).
    rewrite Exz. destruct (xz_field b (adr + t) (wid - t) && negb xz_to_0); [exact IH|].
    destruct IH as (val' & E & Hr). exists val'. split; [exact E|].
    exact (field_read_trans a b adr _ t wid val _ val' (proj2 Ht) (conj L1 (conj W1 B1)) Hr).
Qed.

Lemma zero_words_read (a b : plane) adr n : field_read a b adr 0 0 (replicate n 0) (replicate n 0).
Proof.
  split; [done|]. split; [auto with word|]. intros i. nat_cases; cbn [andb]; try lia; by rewrite orb_false_r.
Qed.

Lemma pbit_replicate_0 n i : pbit (replicate n 0) i = false.
Proof.
  unfold pbit, word_at. destruct (replicate n 0 !! _) eqn:E; simpl; [|apply Z.bits_0].
  apply lookup_replicate in E as [-> _]. apply Z.bits_0.
Qed.

(** [subarray] on the planes of the vector. *)
Lemma subarray_spec this adr wid xz_to_0 : vec_wf this -> (0 < wid)%nat -> (adr + wid <= size this)%nat ->
  if xz_field (bbits this) adr wid && negb xz_to_0 then subarray this adr wid xz_to_0 = None
  else exists val, subarray this adr wid xz_to_0 = Some val /\ length val = word_count wid /\ Forall is_word val /\
    forall i, pbit val i = (i <? wid)%nat && one_bit (abits this) (bbits this) (adr + i).
Proof.
  intros [[Hla Hwa] [Hlb Hwb]] Hw Hs. pose proof (word_count_bounds wid) as [_ Hwc].
  assert (Hfin : forall val', field_read (abits this) (bbits this) adr 0 wid (replicate (word_count wid) 0) val' ->
    length val' = word_count wid /\ Forall is_word val' /\
    forall i, pbit val' i = (i <? wid)%nat && one_bit (abits this) (bbits this) (adr + i)).
  { intros val' (L & W & B). rewrite length_replicate in L. split; [done|]. split; [done|]. intros i.
    rewrite B, pbit_replicate_0, Nat.sub_0_r, Nat.add_0_l. done. }
  unfold subarray. destruct (is_long (size this)) eqn:E; cbn [negb].
  - pose proof (subarray_loop_spec (abits this) (bbits this) xz_to_0 Hwa Hwb wid wid adr 0 0
      (replicate (word_count wid) 0) ltac:(lia) ltac:(lia) ltac:(auto with word)) as H.
    rewrite length_replicate in H. specialize (H ltac:(lia)). cbv zeta in H.
    destruct (xz_field _ _ _ && negb xz_to_0); [exact H|].
    destruct H as (val' & -> & Hr). exists val'. split; [done|]. by apply Hfin.
  - apply is_short_spec in E.
    pose proof (drop_xz_spec (abits this) (bbits this) 0 adr wid xz_to_0 Hwa Hwb ltac:(lia)) as H.
    rewrite Nat.mul_0_l, Nat.add_0_l in H.
    assert (Echunk : (if (wid <? BITS_PER_WORD)%nat
        then (((abits this).[0] >> adr) .& low_mask wid, ((bbits this).[0] >> adr) .& low_mask wid)
        else ((abits this).[0] >> adr, (bbits this).[0] >> adr)) =
      (chunk (abits this).[0] adr wid, chunk (bbits this).[0] adr wid))
      by (unfold chunk; by destruct (wid <? BITS_PER_WORD)%nat).
    rewrite Echunk. destruct (xz_field _ _ _ && negb xz_to_0); [by rewrite H|].
    destruct H as (v & -> & Hv & Hb). cbn [mbind option_bind]. eexists. split; [done|]. apply Hfin.
    assert (Hlen : (0 < length (replicate (word_count wid) 0%Z))%nat) by (rewrite length_replicate; lia).
    pose proof (read_round (abits this) (bbits this) 0 adr wid _ 0 0 v (ltac:(auto with word) : Forall is_word (replicate (word_count wid) 0))
      Hv Hlen ltac:(lia) Hb) as Hr.
    assert (Hz : (replicate (word_count wid) 0%Z).[0] .| (v << 0) = v).
    { rewrite word_at_replicate, Z.lor_0_l by lia. unfold shl64. by rewrite Z.shiftl_0_r, u64_small. }
    rewrite Hz in Hr. exact Hr.
Qed.

(** ** Properties *)

(** The x and z bits of a field. *)
Definition field_has_xz (v : vvp_vector4_t) (adr wid : nat) : bool :=
  existsb (fun i => bit4_is_xz (value v (adr + i))) (seq 0 wid).

Lemma field_has_xz_spec v adr wid : (adr + wid <= size v)%nat -> xz_field (bbits v) adr wid = field_has_xz v adr wid.
Proof.
  intros H. unfold xz_field, field_has_xz. apply eq_true_iff_eq. rewrite !existsb_exists.
  split; intros (i & Hi & Hx); exists i; (split; [done|]); apply in_seq in Hi; rewrite value_lt in * by lia;
    by destruct (pbit (abits v) _), (pbit (bbits v) _).
Qed.

Lemma one_bit_spec v i : (i < size v)%nat -> one_bit (abits v) (bbits v) i = bool_decide (value v i = BIT4_1).
Proof. intros H. rewrite value_lt by done. unfold one_bit. by destruct (pbit (abits v) i), (pbit (bbits v) i). Qed.

(** [subarray] on the bits of the vector. *)
Lemma subarray_value this adr wid xz_to_0 : vec_wf this -> (0 < wid)%nat -> (adr + wid <= size this)%nat ->
  if field_has_xz this adr wid && negb xz_to_0 then subarray this adr wid xz_to_0 = None
  else exists val, subarray this adr wid xz_to_0 = Some val /\ length val = word_count wid /\ Forall is_word val /\
    forall i, pbit val i = (i <? wid)%nat && bool_decide (value this (adr + i) = BIT4_1).
Proof.
  intros Hwf Hw Hs. rewrite <- field_has_xz_spec by done. pose proof (subarray_spec this adr wid xz_to_0 Hwf Hw Hs) as H.
  destruct (_ && _); [done|]. destruct H as (val & E & L & W & B). exists val. do 3 (split; [done|]). intros i.
  rewrite B. destruct (Nat.ltb_spec i wid); [|done]. cbn [andb]. apply one_bit_spec. lia.
Qed.

(** [setarray] writes the low [wid] bits of the words into the field at
    [adr], as 0 and 1, and keeps all other bits; [subarray] fails just when the
    field has an x or z that is not to be taken for 0, and else gives its ones in
    as many words as needed, the rest 0; what one writes the other reads back. *)
Theorem native_array_correct this adr wid val xz_to_0 :
  vec_wf this -> Forall is_word val -> (0 < wid)%nat -> (adr + wid <= size this)%nat ->
  (if field_has_xz this adr wid && negb xz_to_0 then subarray this adr wid xz_to_0 = None
   else exists r, subarray this adr wid xz_to_0 = Some r /\ length r = word_count wid /\ Forall is_word r /\
     forall i, pbit r i = (i <? wid)%nat && bool_decide (value this (adr + i) = BIT4_1)) /\
  exists v, setarray this adr wid val = Some v /\ vec_wf v /\ size v = size this /\
    (forall i, (i < size this)%nat -> value v i =
       if ((adr <=? i) && (i <? adr + wid))%nat then (if pbit val (i - adr) then BIT4_1 else BIT4_0) else value this i) /\
    exists r, subarray v adr wid xz_to_0 = Some r /\ length r = word_count wid /\ Forall is_word r /\
      forall i, pbit r i = (i <? wid)%nat && pbit val i.
Proof.
  intros Hwf Hval Hw Hs. split; [by apply subarray_value|].
  destruct (setarray_spec this adr wid val Hwf Hval Hw Hs) as (v & E & Wv & Sv & B). exists v. do 4 (split; [done|]).
  assert (Hf : forall i, (i < wid)%nat -> value v (adr + i) = if pbit val i then BIT4_1 else BIT4_0).
  { intros i Hi. rewrite B by lia. rewrite (proj2 (Nat.leb_le _ _)), (proj2 (Nat.ltb_lt _ _)) by lia. cbn [andb].
    by replace (adr + i - adr)%nat with i by lia. }
  pose proof (subarray_value v adr wid xz_to_0 Wv Hw ltac:(lia)) as H.
  assert (Hx : field_has_xz v adr wid = false).
  { apply not_true_iff_false. intros (i & Hi & Hx)%existsb_exists. apply in_seq in Hi. rewrite Hf in Hx by lia.
    by destruct (pbit val i). }
  rewrite Hx in H. destruct H as (r & -> & L & W & R). exists r. do 3 (split; [done|]). intros i. rewrite R.
  destruct (Nat.ltb_spec i wid); [|done]. cbn [andb]. rewrite Hf by done. by destruct (pbit val i).
Qed.

Lemma native_array_correct_witness :
  subarray (vec4_of_Z 130 5) 60 70 false = Some [0; 0] /\
  exists v, setarray (vec4_of_Z 130 5) 60 70 [2 ^ 64 - 1; 33] = Some v /\
    (exists r, subarray v 60 70 false = Some r /\ length r = 2%nat) /\ value v 60 = BIT4_1 /\ value v 2 = BIT4_1.
Proof.
  split; [vm_compute; reflexivity|].
  destruct (native_array_correct (vec4_of_Z 130 5) 60 70 [2 ^ 64 - 1; 33] false) as (_ & v & E & _ & _ & B & r & R & L & _).
  - apply vec_wf_dec_bool. reflexivity.
  - repeat constructor; unfold is_word; lia.
  - lia.
  - simpl. lia.
  - exists v. split; [exact E|]. split; [exists r; split; [exact R|exact L]|].
    split; (rewrite B; [vm_compute; reflexivity | simpl; lia]).
Defined.
