(* ===== verification/Vector2.v ===== *)
(** * Vector2: the two-state vectors of the simulator (vvp/vvp_net.h, vvp/vvp_net.cc)

    A [vvp_vector2_t] is an array of words and a width.  It serves arithmetic on
    operands wider than a machine word and the masks of forced nets.  A failed
    assertion, and the exit of the division by zero, is [None]. *)

From S2P Require Import Prelude FourState Vector4 Vector4Ops.
Import Bit4.

Open Scope ivl_scope.

Record vvp_vector2_t : Type := Vec2 {
  vec_ : list Z;
  wid_ : nat;
}.

(** The tail masks of the code, [-1UL >> (BITS_PER_WORD - wid_%BITS_PER_WORD)],
    shift by 64 when the width is a multiple of 64.  C leaves that undefined; what
    the host does is a parameter ([-1UL] where the count is taken modulo 64). *)
Class Host := { ones_shr_64 : Z }.

Definition ones_shr `{Host} (k : nat) : Z := if (k <? 64)%nat then ones64 >> k else ones_shr_64.

Definition tail_mask2 `{Host} (wid : nat) : Z := ones_shr (BITS_PER_WORD - wid mod BITS_PER_WORD).

(** ** Construction *)

(** [vvp_vector2_t()] *)
Definition vec2_null : vvp_vector2_t := Vec2 [] 0.

(** [vvp_vector2_t(unsigned long v, unsigned wid)] *)
Definition vec2_of_word (v : Z) (wid : nat) : vvp_vector2_t :=
  Vec2 ((replicate (word_count wid) 0).[0 <- v]) wid.

(** [vvp_vector2_t(fill_t fill, unsigned wid)] *)
Definition vec2_fill (fill : bool) (wid : nat) : vvp_vector2_t :=
  Vec2 (replicate (word_count wid) (if fill then ones64 else 0)) wid.

Definition vec2_value (v : vvp_vector2_t) (idx : nat) : bool :=
  if (wid_ v <=? idx)%nat then false
  else negb ((vec_ v).[idx / BITS_PER_WORD] .& (1 << (idx mod BITS_PER_WORD)) =? 0).

Definition value4 (v : vvp_vector2_t) (idx : nat) : vvp_bit4_t := if vec2_value v idx then BIT4_1 else BIT4_0.

(** [vvp_vector2_t(that, base, wid)]: the words of [new unsigned long[words]]
    are not initialised; [fresh] is what they hold. *)
Definition vec2_part (fresh : list Z) (that : vvp_vector2_t) (base wid : nat) : vvp_vector2_t :=
  Vec2 (for_loop wid 0 (fun idx vec =>
          if negb (vec2_value that (base + idx)) then vec
          else vec.[idx / BITS_PER_WORD <- vec.[idx / BITS_PER_WORD] .| (1 << (idx mod BITS_PER_WORD))]) fresh) wid.

(** [copy_from_that_(const vvp_vector4_t&)]: x and z read as 0. *)
Definition vec2_copy_vec4 (that : vvp_vector4_t) : vvp_vector2_t :=
  if (word_count (size that) =? 0)%nat then vec2_null
  else Vec2 (default [] (subarray that 0 (size that) true)) (size that).

(** [vvp_vector2_t(const vvp_vector4_t&that, bool enable_NaN)] *)
Definition vec2_of_vec4 (that : vvp_vector4_t) (enable_NaN : bool) : vvp_vector2_t :=
  if enable_NaN && has_xz that then vec2_null else vec2_copy_vec4 that.

(** [copy_from_that_(const vvp_vector2_t&)] *)
Definition vec2_copy (that : vvp_vector2_t) : vvp_vector2_t :=
  if (word_count (wid_ that) =? 0)%nat then vec2_null
  else Vec2 (map (fun idx => (vec_ that).[idx]) (seq 0 (word_count (wid_ that)))) (wid_ that).

(** [vvp_vector2_t(that, newsize)] *)
Definition vec2_resize (that : vvp_vector2_t) (newsize : nat) : vvp_vector2_t :=
  if (newsize =? 0)%nat then vec2_null
  else Vec2 (map (fun idx => if (idx <? word_count (wid_ that))%nat then (vec_ that).[idx] else 0)
               (seq 0 (word_count newsize))) newsize.

(** ** Bits *)

Definition vec2_set_bit (v : vvp_vector2_t) (idx : nat) (bit : bool) : option vvp_vector2_t :=
  if (idx <? wid_ v)%nat then
    let addr := (idx / BITS_PER_WORD)%nat in
    let mask := 1 << (idx mod BITS_PER_WORD) in
    Some (Vec2 (if bit then (vec_ v).[addr <- (vec_ v).[addr] .| mask]
                else (vec_ v).[addr <- (vec_ v).[addr] .& .~ mask]) (wid_ v))
  else None.

Definition vec2_set_vec (v : vvp_vector2_t) (adr : nat) (that : vvp_vector2_t) : option vvp_vector2_t :=
  if (adr + wid_ that <=? wid_ v)%nat then
    for_loop (wid_ that) 0 (fun idx s => v ← s; vec2_set_bit v (adr + idx) (vec2_value that idx)) (Some v)
  else None.

Definition is_NaN (v : vvp_vector2_t) : bool := (wid_ v =? 0)%nat.

Definition vec2_is_zero (v : vvp_vector2_t) : bool :=
  forallb (fun idx => (vec_ v).[idx] =? 0) (seq 0 (word_count (wid_ v))).

(** [while (value(wid_-1) == 0 && wid_ > 1) wid_ -= 1;] *)
Fixpoint trim_width (v : vvp_vector2_t) (wid : nat) : nat :=
  match wid with
  | O => O
  | Datatypes.S w =>
    if negb (vec2_value (Vec2 (vec_ v) wid) w) && (1 <? wid)%nat then trim_width v w else wid
  end.

Definition vec2_trim (v : vvp_vector2_t) : vvp_vector2_t := Vec2 (vec_ v) (trim_width v (wid_ v)).

(** [while (value(wid_-2) == 1 && wid_ > 32) wid_ -= 1;] *)
Fixpoint trim_neg_width (v : vvp_vector2_t) (wid : nat) : nat :=
  match wid with
  | O => O
  | Datatypes.S w =>
    if vec2_value (Vec2 (vec_ v) wid) (w - 1) && (32 <? wid)%nat then trim_neg_width v w else wid
  end.

Definition vec2_trim_neg (v : vvp_vector2_t) : vvp_vector2_t :=
  if vec2_value v (wid_ v - 1) && (32 <? wid_ v)%nat then Vec2 (vec_ v) (trim_neg_width v (wid_ v)) else v.

(** ** Shifts *)

Definition zero_words (words : nat) (vec : list Z) : list Z :=
  for_loop words 0 (fun idx vec => vec.[idx <- 0]) vec.

(** The word shift of [operator <<=]. *)
Definition shl_words (words wshift : nat) (vec : list Z) : list Z :=
  if (0 <? wshift)%nat then
    let vec := for_loop (words - wshift) 0 (fun idx vec =>
      let sel := (words - idx - 1)%nat in vec.[sel <- vec.[sel - wshift]]) vec in
    for_loop wshift 0 (fun idx vec => vec.[idx <- 0]) vec
  else vec.

(** The fine shift of [operator <<=]. *)
Definition shl_fine (words oshift : nat) (vec : list Z) : list Z :=
  fst (for_loop words 0 (fun idx '(vec, pad) =>
    let next_pad := vec.[idx] >> (BITS_PER_WORD - oshift) in
    (vec.[idx <- (vec.[idx] << oshift) .| pad], next_pad)) (vec, 0)).

Definition vec2_shl `{Host} (v : vvp_vector2_t) (shift : nat) : vvp_vector2_t :=
  if (wid_ v =? 0)%nat then v
  else
    let words := word_count (wid_ v) in
    let wshift := (shift / BITS_PER_WORD)%nat in
    let oshift := (shift mod BITS_PER_WORD)%nat in
    if (words <=? wshift)%nat then Vec2 (zero_words words (vec_ v)) (wid_ v)
    else
      let vec := shl_words words wshift (vec_ v) in
      let vec :=
        if negb (oshift =? 0)%nat then
          let vec := shl_fine words oshift vec in
          vec.[words - 1 <- vec.[words - 1] .& tail_mask2 (wid_ v)]
        else vec in
      Vec2 vec (wid_ v).

(** The word shift of [operator >>=]. *)
Definition shr_words (words wshift : nat) (vec : list Z) : list Z :=
  if (0 <? wshift)%nat then
    let vec := for_loop (words - wshift) 0 (fun idx vec => vec.[idx <- vec.[idx + wshift]]) vec in
    for_loop wshift (words - wshift) (fun idx vec => vec.[idx <- 0]) vec
  else vec.

(** The fine shift of [operator >>=]. *)
Definition shr_fine (words oshift : nat) (vec : list Z) : list Z :=
  fst (for_down words (fun idx '(vec, pad) =>
    let new_pad := vec.[idx] << (BITS_PER_WORD - oshift) in
    (vec.[idx <- pad .| (vec.[idx] >> oshift)], new_pad)) (vec, 0)).

(** [while (mask_shift >= BITS_PER_WORD)] of [operator >>=]; [mask_shift] is less
    than 128, so a round is enough. *)
Fixpoint shr_clear (fuel mask_shift use_words : nat) (vec : list Z) : nat * nat * list Z :=
  match fuel with
  | O => (mask_shift, use_words, vec)
  | Datatypes.S f =>
    if (BITS_PER_WORD <=? mask_shift)%nat
    then shr_clear f (mask_shift - BITS_PER_WORD) (use_words - 1) vec.[use_words - 1 <- 0]
    else (mask_shift, use_words, vec)
  end.

Definition vec2_shr (v : vvp_vector2_t) (shift : nat) : option vvp_vector2_t :=
  if (wid_ v =? 0)%nat then Some v
  else
    let words := word_count (wid_ v) in
    let wshift := (shift / BITS_PER_WORD)%nat in
    let oshift := (shift mod BITS_PER_WORD)%nat in
    if (words <=? wshift)%nat then Some (Vec2 (zero_words words (vec_ v)) (wid_ v))
    else
      let vec := shr_words words wshift (vec_ v) in
      if (0 <? oshift)%nat then
        let vec := shr_fine words oshift vec in
        let mask_shift := ((BITS_PER_WORD - wid_ v mod BITS_PER_WORD) mod BITS_PER_WORD + oshift)%nat in
        let '(mask_shift, use_words, vec) := shr_clear 2 mask_shift words vec in
        if (0 <? mask_shift)%nat then
          if (0 <? use_words)%nat
          then Some (Vec2 (vec.[use_words - 1 <- vec.[use_words - 1] .& (ones64 >> mask_shift)]) (wid_ v))
          else None
        else Some (Vec2 vec (wid_ v))
      else Some (Vec2 vec (wid_ v)).

(** ** Addition and subtraction *)

(** [add_carry(a, b, carry)]: the sum word and the new value of [carry]. *)
Definition add_carry (a b carry : Z) : Z * Z :=
  let out := carry in
  let carry := 0 in
  let carry := if sub64 ones64 out <? a then add64 carry 1 else carry in
  let out := add64 out a in
  let carry := if sub64 ones64 out <? b then add64 carry 1 else carry in
  let out := add64 out b in
  (out, carry).

(** [for (idx < words) vec_[idx] = add_carry(vec_[idx], f(that.vec_[idx]), carry);] *)
Definition add_loop (words : nat) (f : Z -> Z) (that : list Z) (vec : list Z) (carry : Z) : list Z * Z :=
  for_loop words 0 (fun idx '(vec, carry) =>
    let '(out, carry) := add_carry vec.[idx] (f that.[idx]) carry in
    (vec.[idx <- out], carry)) (vec, carry).

(** [operator +=] *)
Definition vec2_add `{Host} (v that : vvp_vector2_t) : option vvp_vector2_t :=
  if (wid_ v =? wid_ that)%nat then
    if (wid_ v =? 0)%nat then Some v
    else
      let words := word_count (wid_ v) in
      let vec := fst (add_loop words (fun w => w) (vec_ that) (vec_ v) 0) in
      Some (Vec2 (vec.[words - 1 <- vec.[words - 1] .& tail_mask2 (wid_ v)]) (wid_ v))
  else None.

(** [operator -=] *)
Definition vec2_sub (v that : vvp_vector2_t) : option vvp_vector2_t :=
  if (wid_ v =? wid_ that)%nat then
    if (wid_ v =? 0)%nat then Some v
    else Some (Vec2 (fst (add_loop (word_count (wid_ v)) not64 (vec_ that) (vec_ v) 1)) (wid_ v))
  else None.

(** Unary [operator -] *)
Definition vec2_neg `{Host} (that : vvp_vector2_t) : option vvp_vector2_t :=
  let neg := vec2_copy that in
  if (wid_ neg =? 0)%nat then Some neg
  else vec2_add (Vec2 (for_loop (word_count (wid_ neg)) 0 (fun idx vec => vec.[idx <- .~ (vec.[idx])]) (vec_ neg)) (wid_ neg))
         (vec2_of_word 1 (wid_ neg)).

(** ** Comparison *)

(** The loop the comparisons share: the outcome at the most significant words
    that differ, or [eq]. *)
Fixpoint vec2_compare_words (a b : vvp_vector2_t) (idx : nat) : comparison :=
  match idx with
  | O => Eq
  | Datatypes.S i =>
    let aw := if (idx <=? word_count (wid_ a))%nat then (vec_ a).[i] else 0 in
    let bw := if (idx <=? word_count (wid_ b))%nat then (vec_ b).[i] else 0 in
    if bw <? aw then Gt else if aw <? bw then Lt else vec2_compare_words a b i
  end.

Definition vec2_compare (a b : vvp_vector2_t) : comparison :=
  let awords := word_count (wid_ a) in
  let bwords := word_count (wid_ b) in
  vec2_compare_words a b (if (bwords <? awords)%nat then awords else bwords).

Definition vec2_gt (a b : vvp_vector2_t) : bool := match vec2_compare a b with Gt => true | _ => false end.
Definition vec2_ge (a b : vvp_vector2_t) : bool := match vec2_compare a b with Lt => false | _ => true end.
Definition vec2_lt (a b : vvp_vector2_t) : bool := match vec2_compare a b with Lt => true | _ => false end.
Definition vec2_eq (a b : vvp_vector2_t) : bool := match vec2_compare a b with Eq => true | _ => false end.
Definition vec2_le (a b : vvp_vector2_t) : option bool :=
  if (wid_ a =? wid_ b)%nat
  then Some (match vec2_compare_words a b (word_count (wid_ a)) with Gt => false | _ => true end)
  else None.

(** ** Multiplication *)

(** [multiply_long(a, b, low, high)]: [(low, high)] from half-word products. *)
Definition multiply_long (a b : Z) : Z * Z :=
  let word_mask := mask64 32 in
  let tmpa := a .& word_mask in
  let tmpb := b .& word_mask in
  let res0 := mul64 tmpa tmpb in
  let res1 := shr64 res0 32 in
  let res0 := res0 .& word_mask in
  let tmpa := shr64 a 32 .& word_mask in
  let res1 := add64 res1 (mul64 tmpa tmpb) in
  let res2 := shr64 res1 32 in
  let res1 := res1 .& word_mask in
  let tmpa := a .& word_mask in
  let tmpb := shr64 b 32 .& word_mask in
  let res1 := add64 res1 (mul64 tmpa tmpb) in
  let res2 := add64 res2 (shr64 res1 32) in
  let res3 := shr64 res2 32 in
  let res1 := res1 .& word_mask in
  let res2 := res2 .& word_mask in
  let tmpa := shr64 a 32 .& word_mask in
  let res2 := add64 res2 (mul64 tmpa tmpb) in
  let res3 := add64 res3 (shr64 res2 32) in
  let res2 := res2 .& word_mask in
  (shl64 res1 32 .| res0, shl64 res3 32 .| res2).

(** The innermost loop: add [low], then [hig], then 0, with the carry. *)
Definition mul_add (words at_ : nat) (low hig : Z) (r : list Z) : list Z :=
  fst (fst (fst (for_loop (words - at_) 0 (fun sdx '(r, carry, low, hig) =>
    let '(out, carry) := add_carry r.[at_ + sdx] low carry in
    (r.[at_ + sdx <- out], carry, hig, 0)) (r, 0, low, hig)))).

Definition vec2_mul (a b : vvp_vector2_t) : option vvp_vector2_t :=
  if (wid_ a =? wid_ b)%nat then
    let words := word_count (wid_ a) in
    Some (Vec2 (for_loop words 0 (fun bdx r =>
      let tmpb := (vec_ b).[bdx] in
      if tmpb =? 0 then r
      else for_loop words 0 (fun adx r =>
        let tmpa := (vec_ a).[adx] in
        if tmpa =? 0 then r
        else let '(low, hig) := multiply_long tmpa tmpb in mul_add words (adx + bdx) low hig r) r)
      (vec_ (vec2_of_word 0 (wid_ a)))) (wid_ a))
  else None.

(** [pow(x, y)]: the result and the value left in [y].  [fuel] bounds the depth
    of the recursion. *)
Fixpoint vec2_pow_rec (fuel : nat) (x y : vvp_vector2_t) : option (vvp_vector2_t * vvp_vector2_t) :=
  match fuel with
  | O => None
  | Datatypes.S f =>
    if vec2_eq y (vec2_of_word 0 1) then Some (vec2_of_word 1 (wid_ x), y)
    else if vec2_value y 0 then
      y ← vec2_set_bit y 0 false;
      '(p, y) ← vec2_pow_rec f x y;
      res ← vec2_mul x p;
      Some (res, y)
    else
      y ← vec2_shr y 1;
      '(z, y) ← vec2_pow_rec f x y;
      res ← vec2_mul z z;
      Some (res, y)
  end.

Definition vec2_pow (x y : vvp_vector2_t) : option vvp_vector2_t :=
  '(r, _) ← vec2_pow_rec (2 * wid_ y + 1) x y; Some r.

(** ** Division *)

(** [while (divtmp < dividend) { divtmp <<= 1; mask <<= 1; }] *)
Fixpoint div_grow `{Host} (fuel : nat) (dividend divtmp mask : vvp_vector2_t) : vvp_vector2_t * vvp_vector2_t :=
  match fuel with
  | O => (divtmp, mask)
  | Datatypes.S f =>
    if vec2_lt divtmp dividend then div_grow f dividend (vec2_shl divtmp 1) (vec2_shl mask 1)
    else (divtmp, mask)
  end.

(** [while (dividend >= divisor) { if (divtmp <= dividend) ... }]: the remaining
    dividend, the quotient and the mask. *)
Fixpoint div_shrink `{Host} (fuel : nat) (dividend divisor divtmp quotient mask : vvp_vector2_t)
    : option (vvp_vector2_t * vvp_vector2_t * vvp_vector2_t) :=
  match fuel with
  | O => None
  | Datatypes.S f =>
    if vec2_ge dividend divisor then
      le ← vec2_le divtmp dividend;
      '(dividend, quotient) ←
        (if le : bool then
           dividend ← vec2_sub dividend divtmp;
           quotient ← vec2_add quotient mask;
           Some (dividend, quotient)
         else Some (dividend, quotient));
      divtmp ← vec2_shr divtmp 1;
      mask ← vec2_shr mask 1;
      div_shrink f dividend divisor divtmp quotient mask
    else Some (dividend, quotient, mask)
  end.

(** [div_mod]: quotient and remainder. *)
Definition div_mod `{Host} (dividend divisor : vvp_vector2_t) : option (vvp_vector2_t * vvp_vector2_t) :=
  let quotient := vec2_of_word 0 (wid_ dividend) in
  if vec2_eq divisor quotient then None
  else if vec2_lt dividend divisor then Some (quotient, dividend)
  else
    let n := wid_ dividend in
    let mask := vec2_of_word 1 n in
    let dividend := vec2_resize dividend (n + 1) in
    let divtmp := vec2_resize divisor (n + 1) in
    let '(divtmp, mask) := div_grow (n + 1) dividend divtmp mask in
    '(dividend, quotient, mask) ← div_shrink (n + 2) dividend divisor divtmp quotient mask;
    Some (quotient, vec2_resize dividend (wid_ mask)).

Definition vec2_div `{Host} (dividend divisor : vvp_vector2_t) : option vvp_vector2_t :=
  '(quot, _) ← div_mod dividend divisor; Some quot.
Definition vec2_mod `{Host} (dividend divisor : vvp_vector2_t) : option vvp_vector2_t :=
  '(_, rem) ← div_mod dividend divisor; Some rem.

(** ** Conversions *)

Definition vector2_to_vector4 (that : vvp_vector2_t) (wid : nat) : vvp_vector4_t :=
  for_loop wid 0 (fun idx res => set_bit res idx (if vec2_value that idx then BIT4_1 else BIT4_0)) (vec4_fill wid BIT4_X).

(** [vector2_to_value]: the value left in the [int32_t], as its 32 bits, and the
    result. *)
Definition vector2_to_value (a : vvp_vector2_t) (is_signed : bool) : Z * bool :=
  let '(val, _) := for_loop (Nat.min (wid_ a) 32) 0 (fun idx '(val, mask) =>
    (if vec2_value a idx then val .| mask else val, u32 (Z.shiftl mask 1))) (0, 1) in
  let val :=
    if is_signed && (wid_ a <? 32)%nat && vec2_value a (wid_ a - 1)
    then val .| u32 (Z.shiftl (2 ^ 32 - 1) (Z.of_nat (wid_ a))) else val in
  (val, (wid_ a <=? 32)%nat).
