(* ===== verification/Vector2Value.v ===== *)
(** * Vector2Value: the integer a two-state vector stands for

    [vnum] is the integer of the bits below the width; a vector is [clean] when
    the bits above the width in its last word are 0, which the comparisons, the
    division and the right shift rely on. *)

From S2P Require Import Prelude FourState Vector4 Vector4Value Vector4Ops Vector4Arith Vector4Array Vector2.
Import Bit4.

Open Scope ivl_scope.

Definition vec2_wf (v : vvp_vector2_t) : Prop :=
  (word_count (wid_ v) <= length (vec_ v))%nat /\ Forall is_word (vec_ v).

Definition vnum (v : vvp_vector2_t) : Z := pval (vec_ v) (wid_ v).

(** The words the width takes. *)
Definition words_val (v : vvp_vector2_t) : Z := pval (vec_ v) (word_count (wid_ v) * 64).

Definition clean (v : vvp_vector2_t) : Prop := words_val v = vnum v.

Lemma vnum_range v : 0 <= vnum v < 2 ^ Z.of_nat (wid_ v).
Proof. apply pval_range. Qed.

Lemma vnum_words v : vnum v = words_val v mod 2 ^ Z.of_nat (wid_ v).
Proof. unfold vnum, words_val. rewrite pval_mod_pow; [done|]. apply word_count_bounds. Qed.

Lemma clean_small v z : 0 <= z < 2 ^ Z.of_nat (wid_ v) -> words_val v = z -> clean v /\ vnum v = z.
Proof. intros Hz E. unfold clean. rewrite vnum_words, E, Z.mod_small by done. done. Qed.

Lemma word_count_pos n : (0 < n)%nat -> (0 < word_count n)%nat.
Proof. intros. pose proof (word_count_bounds n). lia. Qed.

Lemma word_count_0 n : word_count n = 0%nat <-> n = 0%nat.
Proof. pose proof (word_count_bounds n). split; [lia|]. by intros ->. Qed.

(** ** Planes of constants *)

Lemma pval_zero (p : plane) n : (forall k, (k * 64 < n)%nat -> p.[k] = 0) -> pval p n = 0.
Proof.
  intros H. apply Z.bits_inj'. intros i Hi. unfold pval. rewrite Zbits_testbit, Z.bits_0 by done.
  destruct (Z.ltb_spec i (Z.of_nat n)) as [Hlt|]; [|done]. unfold pbit. destruct (div64 (Z.to_nat i)).
  rewrite H by lia. apply Z.bits_0.
Qed.

Lemma word_at_replicate_0 n k : (replicate n 0).[k] = 0.
Proof. unfold word_at. destruct (replicate n 0 !! k) eqn:E; simpl; [|done]. by apply lookup_replicate in E as [-> _]. Qed.

Lemma vec2_of_word_spec v wid : is_word v -> (0 < wid)%nat -> v < 2 ^ Z.of_nat wid ->
  vec2_wf (vec2_of_word v wid) /\ clean (vec2_of_word v wid) /\ vnum (vec2_of_word v wid) = v.
Proof.
  intros Hv Hw Hlt. pose proof (word_count_pos wid Hw) as Hc.
  assert (Hwf : vec2_wf (vec2_of_word v wid)).
  { split; cbn [vec2_of_word vec_ wid_]; [by rewrite insert_length, length_replicate|auto with word]. }
  split; [done|]. apply clean_small; cbn [vec2_of_word vec_ wid_]; [unfold is_word in Hv; lia|].
  unfold words_val. cbn [vec2_of_word vec_ wid_]. rewrite pval_replace; [|lia|rewrite length_replicate; lia|done|auto with word].
  rewrite pval_zero by (intros; apply word_at_replicate_0). rewrite word_at_replicate_0. simpl. lia.
Qed.

(** ** The tail mask *)

(** What the host does matters only at multiples of 64. *)
Definition host_ok `{Host} (wid : nat) : Prop := (wid mod BITS_PER_WORD <> 0)%nat \/ ones_shr_64 = ones64.

Lemma shr_ones k : (k <= 64)%nat -> ones64 >> k = 2 ^ Z.of_nat (64 - k) - 1.
Proof.
  intros Hk. unfold shr64. change ones64 with (Z.ones 64). rewrite Z.shiftr_div_pow2 by lia.
  rewrite Z.ones_equiv. replace 64 with (Z.of_nat k + Z.of_nat (64 - k)) at 1 by lia.
  rewrite Z.pow_add_r by lia. set (a := 2 ^ Z.of_nat k). set (b := 2 ^ Z.of_nat (64 - k)).
  assert (0 < a) by (apply pow2_pos; lia). assert (0 < b) by (apply pow2_pos; lia).
  symmetry. apply (Z.div_unique _ _ _ (a - 1)); [left; lia|]. lia.
Qed.

Lemma last_word_bits wid : (0 < wid)%nat -> exists r, (0 < r <= 64)%nat /\ wid = ((word_count wid - 1) * 64 + r)%nat /\
  (if (wid mod BITS_PER_WORD =? 0)%nat then r = 64%nat else r = (wid mod BITS_PER_WORD)%nat).
Proof.
  intros Hw. pose proof (word_count_bounds wid) as [H1 H2]. exists (wid - (word_count wid - 1) * 64)%nat.
  destruct (div64 wid) as [Hd Hm]. destruct (Nat.eqb_spec (wid mod BITS_PER_WORD) 0); lia.
Qed.

Lemma tail_mask2_spec `{Host} wid : (0 < wid)%nat -> host_ok wid ->
  exists r, (0 < r <= 64)%nat /\ wid = ((word_count wid - 1) * 64 + r)%nat /\ tail_mask2 wid = 2 ^ Z.of_nat r - 1.
Proof.
  intros Hw Hh. destruct (last_word_bits wid Hw) as (r & Hr & E & Er). exists r. split; [done|]. split; [done|].
  unfold tail_mask2, ones_shr, BITS_PER_WORD in *. destruct (Nat.eqb_spec (wid mod 64) 0) as [E0|E0].
  - rewrite E0. simpl Nat.ltb. cbv iota. destruct Hh as [Hh|Hh]; [done|]. rewrite Hh, Er. done.
  - rewrite (proj2 (Nat.ltb_lt _ _)) by lia. rewrite shr_ones by lia. rewrite Er. do 3 f_equal. lia.
Qed.

Lemma land_ones' x r : Z.land x (2 ^ Z.of_nat r - 1) = x mod 2 ^ Z.of_nat r.
Proof. rewrite Z.sub_1_r, <- Z.ones_equiv. apply Z.land_ones. lia. Qed.

(** Masking the last word reduces modulo [2^wid]. *)
Lemma mask_tail `{Host} wid (p : plane) : (0 < wid)%nat -> host_ok wid ->
  (word_count wid <= length p)%nat -> Forall is_word p ->
  let p' := p.[word_count wid - 1 <- p.[word_count wid - 1] .& tail_mask2 wid] in
  Forall is_word p' /\ pval p' (word_count wid * 64) = pval p wid.
Proof.
  intros Hw Hh Hl Hp. cbv zeta. destruct (tail_mask2_spec wid Hw Hh) as (r & Hr & E & ->).
  rewrite land_ones'. set (k := (word_count wid - 1)%nat) in *. pose proof (word_count_pos wid Hw) as Hc.
  assert (Hm : is_word (p.[k] mod 2 ^ Z.of_nat r)).
  { pose proof (Z.mod_pos_bound p.[k] (2 ^ Z.of_nat r) ltac:(apply pow2_pos; lia)).
    assert (2 ^ Z.of_nat r <= 2 ^ 64) by (apply Z.pow_le_mono_r; lia). unfold is_word. lia. }
  split; [auto with word|]. rewrite pval_replace; [|lia..|done|done].
  replace (word_count wid) with (S k) by lia. rewrite pval_words by done.
  rewrite E, pval_split by lia. lia.
Qed.

(** ** Addition with carry *)

Lemma add_carry_spec a b carry : is_word a -> is_word b -> 0 <= carry <= 1 ->
  let '(out, carry') := add_carry a b carry in
  is_word out /\ 0 <= carry' <= 1 /\ out + carry' * 2 ^ 64 = a + b + carry.
Proof.
  unfold is_word, add_carry, add64, sub64, u64, ones64. intros Ha Hb Hc.
  rewrite (Z.mod_small (2 ^ 64 - 1 - carry)) by lia.
  assert (H1 : (carry + a) mod 2 ^ 64 = if 2 ^ 64 - 1 - carry <? a then carry + a - 2 ^ 64 else carry + a).
  { destruct (Z.ltb_spec (2 ^ 64 - 1 - carry) a); [|by rewrite Z.mod_small by lia].
    replace (carry + a) with (carry + a - 2 ^ 64 + 1 * 2 ^ 64) at 1 by lia. rewrite Z.mod_add by lia.
    apply Z.mod_small. lia. }
  set (o1 := (carry + a) mod 2 ^ 64) in *.
  assert (Ho1 : 0 <= o1 < 2 ^ 64) by (rewrite H1; destruct (Z.ltb_spec (2 ^ 64 - 1 - carry) a); lia).
  rewrite (Z.mod_small (2 ^ 64 - 1 - o1)) by lia.
  assert (H2 : (o1 + b) mod 2 ^ 64 = if 2 ^ 64 - 1 - o1 <? b then o1 + b - 2 ^ 64 else o1 + b).
  { destruct (Z.ltb_spec (2 ^ 64 - 1 - o1) b); [|by rewrite Z.mod_small by lia].
    replace (o1 + b) with (o1 + b - 2 ^ 64 + 1 * 2 ^ 64) at 1 by lia. rewrite Z.mod_add by lia.
    apply Z.mod_small. lia. }
  rewrite H2. clear H2.
  destruct (Z.ltb_spec (2 ^ 64 - 1 - carry) a), (Z.ltb_spec (2 ^ 64 - 1 - o1) b); rewrite ?Z.mod_small by lia; lia.
Qed.

#[global] Opaque add_carry.

(** The chain of word additions; [tq] holds the transformed second operand. *)
Lemma add_loop_spec words f (that vec tq : plane) carry :
  (words <= length vec)%nat -> Forall is_word vec -> Forall is_word tq ->
  (forall k, (k < words)%nat -> f that.[k] = tq.[k]) -> 0 <= carry <= 1 ->
  let '(vec', carry') := add_loop words f that vec carry in
  length vec' = length vec /\ Forall is_word vec' /\ 0 <= carry' <= 1 /\
  pval vec' (words * 64) + carry' * 2 ^ Z.of_nat (words * 64) = pval vec (words * 64) + pval tq (words * 64) + carry.
Proof.
  intros Hl Hv Ht Hf Hc. unfold add_loop.
  pose (P := fun k '(q, c) => length q = length vec /\ Forall is_word q /\ 0 <= c <= 1 /\
    (forall j, (k <= j)%nat -> word_at q j = word_at vec j) /\
    pval q (k * 64) + c * 2 ^ Z.of_nat (k * 64) = pval vec (k * 64) + pval tq (k * 64) + carry).
  assert (H : P (0 + words)%nat (for_loop words 0 (fun idx '(vec, carry) =>
    let '(out, carry) := add_carry (word_at vec idx) (f (word_at that idx)) carry in
    (<[idx := out]> vec, carry)) (vec, carry))).
  { apply for_loop_ind; [unfold P, pval; simpl; do 4 (split; [done|]); lia|].
    intros k [q c] Hk (Lq & Wq & Hcc & Hrest & E). rewrite Hf, Hrest by lia.
    pose proof (add_carry_spec vec.[k] tq.[k] c ltac:(auto with word) ltac:(auto with word) Hcc) as Ha.
    destruct (add_carry _ _ _) as [out c']. destruct Ha as (Ho & Hc' & Es). unfold P.
    split; [by rewrite insert_length|]. split; [auto with word|]. split; [done|]. split.
    - intros j Hj. rewrite word_at_insert by lia. destruct (Nat.eqb_spec j k); [lia|]. apply Hrest. lia.
    - rewrite !pval_words by auto with word. rewrite word_at_insert, Nat.eqb_refl by lia.
      rewrite pval_keep by lia. replace (Z.of_nat (S k * 64)) with (64 + Z.of_nat (k * 64)) by lia.
      rewrite Z.pow_add_r by lia. nia. }
  destruct (for_loop _ _ _ _) as [q c]. destruct H as (H1 & H2 & H3 & _ & H5). done.
Qed.

(** ** Comparison *)

(** The value of the low [k] words, those past the end read as 0. *)
Definition cmp_word (v : vvp_vector2_t) (i : nat) : Z := if (S i <=? word_count (wid_ v))%nat then (vec_ v).[i] else 0.
Fixpoint cmp_val (v : vvp_vector2_t) (k : nat) : Z :=
  match k with O => 0 | S i => cmp_val v i + cmp_word v i * 2 ^ Z.of_nat (i * 64) end.

Lemma cmp_word_is_word v i : vec2_wf v -> is_word (cmp_word v i).
Proof. intros [_ H]. unfold cmp_word. destruct (_ <=? _)%nat; auto with word. Qed.

Lemma cmp_val_range v k : vec2_wf v -> 0 <= cmp_val v k < 2 ^ Z.of_nat (k * 64).
Proof.
  intros Hv. induction k as [|k IH]; [simpl; lia|]. cbn [cmp_val].
  pose proof (cmp_word_is_word v k Hv) as Hw. unfold is_word in Hw.
  replace (Z.of_nat (S k * 64)) with (64 + Z.of_nat (k * 64)) by lia. rewrite Z.pow_add_r by lia. nia.
Qed.

Lemma cmp_val_words v k : vec2_wf v -> cmp_val v k = pval (vec_ v) (Nat.min k (word_count (wid_ v)) * 64).
Proof.
  intros [_ Hv]. induction k as [|k IH]; [done|]. cbn [cmp_val]. rewrite IH. unfold cmp_word.
  destruct (Nat.leb_spec (S k) (word_count (wid_ v))).
  - rewrite !Nat.min_l by lia. by rewrite pval_words.
  - rewrite !Nat.min_r by lia. lia.
Qed.

Lemma compare_high x y a b M : 0 <= x < M -> 0 <= y < M ->
  (x + a * M ?= y + b * M) = if b <? a then Gt else if a <? b then Lt else (x ?= y).
Proof.
  intros Hx Hy. destruct (Z.ltb_spec b a); [apply Z.compare_gt_iff; nia|].
  destruct (Z.ltb_spec a b); [apply Z.compare_lt_iff; nia|].
  assert (a = b) as -> by lia. destruct (Z.compare_spec x y), (Z.compare_spec (x + b * M) (y + b * M)); (done || lia).
Qed.

Lemma vec2_compare_words_spec a b k : vec2_wf a -> vec2_wf b ->
  vec2_compare_words a b k = (cmp_val a k ?= cmp_val b k).
Proof.
  intros Ha Hb. induction k as [|k IH]; [done|]. cbn [vec2_compare_words cmp_val].
  rewrite compare_high by (by apply cmp_val_range). rewrite IH. done.
Qed.

(** The comparisons compare the words. *)
Lemma vec2_compare_spec a b : vec2_wf a -> vec2_wf b -> vec2_compare a b = (words_val a ?= words_val b).
Proof.
  intros Ha Hb. unfold vec2_compare. rewrite vec2_compare_words_spec, !cmp_val_words by done. unfold words_val.
  destruct (Nat.ltb_spec (word_count (wid_ b)) (word_count (wid_ a))); do 3 f_equal; lia.
Qed.

Lemma vec2_lt_spec a b : vec2_wf a -> vec2_wf b -> clean a -> clean b -> vec2_lt a b = (vnum a <? vnum b).
Proof.
  intros Ha Hb Ca Cb. unfold vec2_lt. rewrite vec2_compare_spec by done. rewrite Ca, Cb.
  destruct (Z.compare_spec (vnum a) (vnum b)), (Z.ltb_spec (vnum a) (vnum b)); (done || lia).
Qed.
Lemma vec2_ge_spec a b : vec2_wf a -> vec2_wf b -> clean a -> clean b -> vec2_ge a b = (vnum b <=? vnum a).
Proof.
  intros Ha Hb Ca Cb. unfold vec2_ge. rewrite vec2_compare_spec by done. rewrite Ca, Cb.
  destruct (Z.compare_spec (vnum a) (vnum b)), (Z.leb_spec (vnum b) (vnum a)); (done || lia).
Qed.
Lemma vec2_gt_spec a b : vec2_wf a -> vec2_wf b -> clean a -> clean b -> vec2_gt a b = (vnum b <? vnum a).
Proof.
  intros Ha Hb Ca Cb. unfold vec2_gt. rewrite vec2_compare_spec by done. rewrite Ca, Cb.
  destruct (Z.compare_spec (vnum a) (vnum b)), (Z.ltb_spec (vnum b) (vnum a)); (done || lia).
Qed.
Lemma vec2_eq_spec a b : vec2_wf a -> vec2_wf b -> clean a -> clean b -> vec2_eq a b = (vnum a =? vnum b).
Proof.
  intros Ha Hb Ca Cb. unfold vec2_eq. rewrite vec2_compare_spec by done. rewrite Ca, Cb.
  destruct (Z.compare_spec (vnum a) (vnum b)), (Z.eqb_spec (vnum a) (vnum b)); (done || lia).
Qed.
Lemma vec2_le_spec a b : vec2_wf a -> vec2_wf b -> clean a -> clean b -> wid_ a = wid_ b ->
  vec2_le a b = Some (vnum a <=? vnum b).
Proof.
  intros Ha Hb Ca Cb E. unfold vec2_le. rewrite (proj2 (Nat.eqb_eq _ _) E).
  rewrite vec2_compare_words_spec by done.
  assert (cmp_val a (word_count (wid_ a)) = vnum a) as -> by (rewrite cmp_val_words, Nat.min_id by done; exact Ca).
  assert (cmp_val b (word_count (wid_ a)) = vnum b) as -> by (rewrite E, cmp_val_words, Nat.min_id by done; exact Cb).
  done.
Qed.

(** ** Bits *)

Lemma one_bit_test x k : (k < 64)%nat -> negb (x .& (1 << k) =? 0) = Z.testbit x (Z.of_nat k).
Proof.
  intros Hk. destruct (Z.testbit x (Z.of_nat k)) eqn:E.
  - apply negb_true_iff, Z.eqb_neq. intros H. assert (Hb : Z.testbit (x .& (1 << k)) (Z.of_nat k) = false) by (rewrite H; apply Z.bits_0).
    rewrite Z.land_spec, E, shl64_bit in Hb by lia. rewrite (proj2 (Z.ltb_lt _ 64)), Z.leb_refl, Z.sub_diag in Hb by lia. done.
  - apply negb_false_iff, Z.eqb_eq. apply Z.bits_inj'. intros i Hi. rewrite Z.bits_0, Z.land_spec, shl64_bit by lia.
    destruct (Z.eq_dec i (Z.of_nat k)) as [->|Hn]; [by rewrite E|].
    destruct (Z.leb_spec (Z.of_nat k) i); cbn [andb]; rewrite ?andb_false_r; [|done].
    rewrite (testbit_small 1 1 (i - Z.of_nat k)) by lia. by rewrite !andb_false_r.
Qed.

Lemma vec2_value_spec v i : vec2_value v i = (i <? wid_ v)%nat && pbit (vec_ v) i.
Proof.
  unfold vec2_value. destruct (div64 i) as [_ Hm]. destruct (Nat.leb_spec (wid_ v) i), (Nat.ltb_spec i (wid_ v)); [lia|done| |lia].
  cbn [andb]. by rewrite one_bit_test.
Qed.

Lemma vec2_value_num v i : vec2_value v i = Z.testbit (vnum v) (Z.of_nat i).
Proof.
  rewrite vec2_value_spec. unfold vnum, pval. rewrite Zbits_testbit, Nat2Z.id by lia.
  destruct (Nat.ltb_spec i (wid_ v)), (Z.ltb_spec (Z.of_nat i) (Z.of_nat (wid_ v))); (done || lia).
Qed.

Lemma word_at_map_seq (f : nat -> Z) n k : (k < n)%nat -> (map f (seq 0 n)).[k] = f k.
Proof.
  intros Hk. unfold word_at. change (map f (seq 0 n)) with (f <$> seq 0 n). rewrite list_lookup_fmap, lookup_seq_lt by done. done.
Qed.

Lemma vec2_resize_spec v n : vec2_wf v -> clean v -> (0 < n)%nat -> vnum v < 2 ^ Z.of_nat n ->
  let r := vec2_resize v n in vec2_wf r /\ wid_ r = n /\ clean r /\ vnum r = vnum v.
Proof.
  intros [Hl Hw] Hc Hn Hlt. cbv zeta. unfold vec2_resize. destruct (Nat.eqb_spec n 0) as [->|_]; [lia|].
  assert (Hwf : vec2_wf (Vec2 (map (fun idx => if (idx <? word_count (wid_ v))%nat then (vec_ v).[idx] else 0)
    (seq 0 (word_count n))) n)).
  { split; cbn [vec_ wid_]; [by rewrite length_map, length_seq|]. apply Forall_map, Forall_forall. intros x _. simpl.
    destruct (_ <? _)%nat; auto with word. }
  split; [done|]. split; [done|]. apply clean_small; cbn [wid_]; [pose proof (vnum_range v); lia|].
  assert (Hcv : forall k, pval (vec_ v) (Nat.min k (word_count (wid_ v)) * 64) = cmp_val v k) by (intros; by rewrite cmp_val_words).
  assert (H : forall k, (k <= word_count n)%nat -> pval (map (fun idx => if (idx <? word_count (wid_ v))%nat then (vec_ v).[idx] else 0)
    (seq 0 (word_count n))) (k * 64) = cmp_val v k).
  { destruct Hwf as [_ Hwm]. cbn [vec_] in Hwm. induction k as [|k IH]; intros Hk; [done|].
    rewrite pval_words, IH by (done || lia). cbn [cmp_val]. rewrite word_at_map_seq by lia. unfold cmp_word.
    destruct (Nat.ltb_spec k (word_count (wid_ v))), (Nat.leb_spec (S k) (word_count (wid_ v))); (done || lia). }
  unfold words_val. cbn [vec_ wid_]. rewrite H by done. rewrite <- Hcv.
  destruct (Nat.le_gt_cases (word_count (wid_ v)) (word_count n)) as [Hle|Hgt].
  - rewrite Nat.min_r by done. exact Hc.
  - rewrite Nat.min_l by lia. rewrite <- (pval_mod_pow (vec_ v) (word_count (wid_ v) * 64)) by lia.
    fold (words_val v). rewrite Hc. apply Z.mod_small. pose proof (vnum_range v). split; [lia|].
    eapply Z.lt_le_trans; [exact Hlt|]. apply Z.pow_le_mono_r; [lia|]. pose proof (word_count_bounds n). lia.
Qed.
