(* ===== verification/Vector2Arith.v ===== *)
(** * Vector2Arith: arithmetic of two-state vectors

    Addition, subtraction, negation, multiplication, shifts and power on the
    integers modulo [2^width]. *)

From S2P Require Import Prelude FourState Vector4 Vector4Value Vector4Ops Vector4Arith Vector4Array Vector2 Vector2Value.
Import Bit4.

Open Scope ivl_scope.

(** ** Addition and subtraction *)

Lemma words_weight wid : 2 ^ Z.of_nat (word_count wid * 64) = 2 ^ Z.of_nat (word_count wid * 64 - wid) * 2 ^ Z.of_nat wid.
Proof. rewrite <- Z.pow_add_r by lia. f_equal. pose proof (word_count_bounds wid). lia. Qed.

(** A word sum with its carry, reduced modulo [2^wid]. *)
Lemma drop_carry x carry z wid : x + carry * 2 ^ Z.of_nat (word_count wid * 64) = z ->
  x mod 2 ^ Z.of_nat wid = z mod 2 ^ Z.of_nat wid.
Proof.
  intros <-. rewrite words_weight, Z.mul_assoc, Z_mod_plus_full. done.
Qed.

Lemma vec2_add_spec `{Host} a b : vec2_wf a -> vec2_wf b -> wid_ a = wid_ b -> host_ok (wid_ a) ->
  exists r, vec2_add a b = Some r /\ vec2_wf r /\ wid_ r = wid_ a /\
    vnum r = (vnum a + vnum b) mod 2 ^ Z.of_nat (wid_ a) /\ ((0 < wid_ a)%nat -> clean r).
Proof.
  intros [Hla Hwa] [Hlb Hwb] Hw Hh. unfold vec2_add. rewrite (proj2 (Nat.eqb_eq _ _) Hw).
  destruct (Nat.eqb_spec (wid_ a) 0) as [E|E].
  { exists a. split; [done|]. split; [done|]. split; [done|]. split; [|lia]. unfold vnum. rewrite <- Hw, E. done. }
  pose proof (add_loop_spec (word_count (wid_ a)) (fun w => w) (vec_ b) (vec_ a) (vec_ b) 0 Hla Hwa Hwb ltac:(done) ltac:(lia)) as Ha.
  destruct (add_loop _ _ _ _ _) as [q c]. destruct Ha as (Lq & Wq & Hc & Eq). cbn [fst].
  destruct (mask_tail (wid_ a) q ltac:(lia) Hh ltac:(lia) Wq) as [Wm Em].
  eexists. split; [done|]. split; [split; cbn [vec_ wid_]; [rewrite insert_length; lia|done]|]. split; [done|].
  assert (Hn : pval q (wid_ a) = (vnum a + vnum b) mod 2 ^ Z.of_nat (wid_ a)).
  { rewrite <- (pval_mod_pow q (word_count (wid_ a) * 64)) by apply word_count_bounds.
    rewrite (drop_carry _ _ _ _ Eq), Z.add_0_r. unfold vnum. rewrite <- Hw.
    rewrite (Zplus_mod (pval (vec_ a) (word_count (wid_ a) * 64))), !pval_mod_pow by apply word_count_bounds. done. }
  rewrite <- Hn. split.
  - rewrite vnum_words. unfold words_val. cbn [vec_ wid_]. rewrite Em. apply Z.mod_small, pval_range.
  - intros _. apply (clean_small _ (pval q (wid_ a))); [apply pval_range|]. exact Em.
Qed.

Lemma vec2_sub_spec a b : vec2_wf a -> vec2_wf b -> wid_ a = wid_ b ->
  exists r, vec2_sub a b = Some r /\ vec2_wf r /\ wid_ r = wid_ a /\
    vnum r = (vnum a - vnum b) mod 2 ^ Z.of_nat (wid_ a) /\
    (clean a -> clean b -> vnum b <= vnum a -> clean r).
Proof.
  intros [Hla Hwa] [Hlb Hwb] Hw. rewrite <- Hw in Hlb. unfold vec2_sub. rewrite (proj2 (Nat.eqb_eq _ _) Hw).
  destruct (Nat.eqb_spec (wid_ a) 0) as [E|E].
  { exists a. split; [done|]. split; [done|]. split; [done|]. split; [|done]. unfold vnum. rewrite <- Hw, E. done. }
  pose proof (add_loop_spec (word_count (wid_ a)) not64 (vec_ b) (vec_ a) (map not64 (vec_ b)) 1 Hla Hwa
    ltac:(apply Forall_map, Forall_forall; intros; apply is_word_not64)
    ltac:(intros k Hk; rewrite word_at_map by lia; done) ltac:(lia)) as Ha.
  destruct (add_loop _ _ _ _ _) as [q c]. destruct Ha as (Lq & Wq & Hc & Eq). cbn [fst].
  rewrite pval_not in Eq by lia.
  eexists. split; [done|]. split; [split; cbn [vec_ wid_]; [lia|done]|]. split; [done|].
  assert (Eq' : pval q (word_count (wid_ a) * 64) + (c - 1) * 2 ^ Z.of_nat (word_count (wid_ a) * 64) =
    pval (vec_ a) (word_count (wid_ a) * 64) - pval (vec_ b) (word_count (wid_ a) * 64)) by lia.
  split.
  - rewrite vnum_words. unfold words_val. cbn [vec_ wid_]. rewrite (drop_carry _ _ _ _ Eq').
    unfold vnum. rewrite <- Hw. rewrite Zminus_mod, !pval_mod_pow by apply word_count_bounds. done.
  - intros Ca Cb Hle. unfold clean, words_val, vnum in *. rewrite <- Hw in *. rewrite Ca, Cb in Eq'. cbn [vec_ wid_].
    pose proof (pval_range q (word_count (wid_ a) * 64)). pose proof (pval_range (vec_ a) (wid_ a)).
    pose proof (pval_range (vec_ b) (wid_ a)).
    assert (2 ^ Z.of_nat (wid_ a) <= 2 ^ Z.of_nat (word_count (wid_ a) * 64))
      by (apply Z.pow_le_mono_r; [lia|]; pose proof (word_count_bounds (wid_ a)); lia).
    assert (c = 1) as -> by nia.
    rewrite <- (pval_mod_pow q (word_count (wid_ a) * 64) (wid_ a)) by apply word_count_bounds.
    rewrite Z.mod_small; lia.
Qed.

(** ** Shifts *)

(** A bit of a plane moved by whole words. *)
Definition moved (p : plane) (src : nat -> option nat) (k : nat) : Z := match src k with Some j => p.[j] | None => 0 end.

Lemma zero_loop n start (p : plane) : (start + n <= length p)%nat ->
  let q := for_loop n start (fun idx vec => vec.[idx <- 0]) p in
  length q = length p /\ (Forall is_word p -> Forall is_word q) /\
  forall k, q.[k] = if ((start <=? k) && (k <? start + n))%nat then 0 else p.[k].
Proof.
  intros H. destruct (loop_words (fun _ _ => 0) n start p H) as (H1 & H2 & H3). split; [done|]. split; [|done].
  intros Hp. apply H3; [done|]. auto with word.
Qed.

Lemma zero_words_spec words p : (words <= length p)%nat -> Forall is_word p ->
  Forall is_word (zero_words words p) /\ length (zero_words words p) = length p /\ pval (zero_words words p) (words * 64) = 0.
Proof.
  intros Hl Hp. destruct (zero_loop words 0 p ltac:(lia)) as (H1 & H2 & H3). unfold zero_words.
  split; [auto|]. split; [done|]. apply pval_zero. intros k Hk. rewrite H3. nat_cases; simpl; (done || lia).
Qed.

Lemma shl_words_spec words ws (p : plane) : (words <= length p)%nat -> (ws < words)%nat -> Forall is_word p ->
  let q := shl_words words ws p in
  length q = length p /\ Forall is_word q /\ forall k, (k < words)%nat -> q.[k] = if (ws <=? k)%nat then p.[k - ws] else 0.
Proof.
  intros Hl Hws Hp. cbv zeta. unfold shl_words. destruct (Nat.ltb_spec 0 ws) as [H0|H0].
  2: { assert (ws = 0%nat) as -> by lia. do 2 (split; [done|]). intros k Hk. by rewrite Nat.sub_0_r. }
  pose (P := fun n (q : plane) => length q = length p /\ Forall is_word q /\
    (forall k, (k < words)%nat -> q.[k] = if (words - n <=? k)%nat then p.[k - ws] else p.[k])).
  assert (H : P (0 + (words - ws))%nat (for_loop (words - ws) 0 (fun idx vec =>
    let sel := (words - idx - 1)%nat in vec.[sel <- vec.[sel - ws]]) p)).
  { apply for_loop_ind.
    - split; [done|]. split; [done|]. intros k Hk. destruct (Nat.leb_spec (words - 0) k); [lia|done].
    - intros n q Hn (Lq & Wq & Eq). cbv zeta. split; [by rewrite insert_length|]. split; [auto with word|].
      intros k Hk. rewrite word_at_insert by lia. destruct (Nat.eqb_spec k (words - n - 1)) as [->|Hne].
      + rewrite Eq by lia. nat_cases; (done || lia).
      + rewrite Eq by lia. nat_cases; (done || lia). }
  destruct H as (Lq & Wq & Eq). set (q := for_loop _ _ _ _) in *.
  destruct (zero_loop ws 0 q ltac:(lia)) as (L2 & W2 & E2). split; [by rewrite L2|]. split; [auto|].
  intros k Hk. rewrite E2, Eq by lia. destruct (Nat.leb_spec ws k); nat_cases; simpl; (done || lia).
Qed.

Lemma shr_words_spec words ws (p : plane) : (words <= length p)%nat -> (ws < words)%nat -> Forall is_word p ->
  let q := shr_words words ws p in
  length q = length p /\ Forall is_word q /\
  forall k, (k < words)%nat -> q.[k] = if (k + ws <? words)%nat then p.[k + ws] else 0.
Proof.
  intros Hl Hws Hp. cbv zeta. unfold shr_words. destruct (Nat.ltb_spec 0 ws) as [H0|H0].
  2: { assert (ws = 0%nat) as -> by lia. do 2 (split; [done|]). intros k Hk. rewrite Nat.add_0_r. nat_cases; (done || lia). }
  pose (P := fun n (q : plane) => length q = length p /\ Forall is_word q /\
    (forall k, q.[k] = if (k <? n)%nat then p.[k + ws] else p.[k])).
  assert (H : P (0 + (words - ws))%nat (for_loop (words - ws) 0 (fun idx vec => vec.[idx <- vec.[idx + ws]]) p)).
  { apply for_loop_ind.
    - split; [done|]. split; [done|]. intros k. nat_cases; (done || lia).
    - intros n q Hn (Lq & Wq & Eq). split; [by rewrite insert_length|]. split; [auto with word|].
      intros k. rewrite word_at_insert by lia. destruct (Nat.eqb_spec k n) as [->|Hne]; rewrite Eq; nat_cases; (done || lia). }
  destruct H as (Lq & Wq & Eq). set (q := for_loop _ _ _ _) in *.
  destruct (zero_loop ws (words - ws) q ltac:(lia)) as (L2 & W2 & E2). split; [by rewrite L2|]. split; [auto|].
  intros k Hk. rewrite E2, Eq. destruct (Nat.ltb_spec (k + ws) words); nat_cases; simpl; (done || lia).
Qed.

(** The fine shifts, as arithmetic on the value. *)
Lemma shl_fine_spec words o (p : plane) : (words <= length p)%nat -> Forall is_word p -> (0 < o < 64)%nat ->
  let q := shl_fine words o p in
  length q = length p /\ Forall is_word q /\
  pval q (words * 64) = pval p (words * 64) * 2 ^ Z.of_nat o mod 2 ^ Z.of_nat (words * 64).
Proof.
  intros Hl Hp Ho. cbv zeta. unfold shl_fine.
  pose (P := fun n '(q, pad) => length q = length p /\ Forall is_word q /\ 0 <= pad < 2 ^ Z.of_nat o /\
    (forall j, (n <= j)%nat -> word_at q j = word_at p j) /\
    pval q (n * 64) + pad * 2 ^ Z.of_nat (n * 64) = pval p (n * 64) * 2 ^ Z.of_nat o).
  assert (H : P (0 + words)%nat (for_loop words 0 (fun idx '(vec, pad) =>
    let next_pad := word_at vec idx >> (BITS_PER_WORD - o) in
    (<[idx := (word_at vec idx << o) .| pad]> vec, next_pad)) (p, 0))).
  { apply for_loop_ind; [unfold P, pval; simpl; split; [done|]; split; [done|]; split; [pose proof (pow2_pos (Z.of_nat o)); lia|]; split; [done|lia]|].
    intros n [q pad] Hn (Lq & Wq & Hpad & Hrest & E). rewrite (Hrest n) by lia. set (w := p.[n]).
    assert (Hw : is_word w) by (unfold w; auto with word).
    assert (Hsplit : (w << o) .| pad + (w >> (BITS_PER_WORD - o)) * 2 ^ 64 = w * 2 ^ Z.of_nat o + pad /\
      is_word ((w << o) .| pad) /\ 0 <= (w >> (BITS_PER_WORD - o)) < 2 ^ Z.of_nat o).
    { assert (Hlor : (w << o) .| pad = (w << o) + pad).
      { rewrite <- Z.add_lor_land. assert ((w << o) .& pad = 0) as ->; [|lia].
        apply Z.bits_inj'. intros i Hi. rewrite Z.bits_0, Z.land_spec, shl64_bit by lia.
        destruct (Z.leb_spec (Z.of_nat o) i); cbn [andb]; [|by rewrite andb_false_r].
        rewrite (testbit_small pad (Z.of_nat o) i) by lia. apply andb_false_r. }
      unfold BITS_PER_WORD. unfold shl64, shr64, u64 in *. rewrite Z.shiftl_mul_pow2, Z.shiftr_div_pow2 in * by lia.
      assert (E64 : 2 ^ 64 = 2 ^ Z.of_nat (64 - o) * 2 ^ Z.of_nat o) by (rewrite <- Z.pow_add_r by lia; f_equal; lia).
      assert (Hmod : (w * 2 ^ Z.of_nat o) mod 2 ^ 64 = (w mod 2 ^ Z.of_nat (64 - o)) * 2 ^ Z.of_nat o)
        by (rewrite E64; apply Z.mul_mod_distr_r; apply Z.pow_nonzero; lia).
      pose proof (pow2_pos (Z.of_nat o) ltac:(lia)). pose proof (pow2_pos (Z.of_nat (64 - o)) ltac:(lia)).
      pose proof (Z.div_mod w (2 ^ Z.of_nat (64 - o)) ltac:(lia)) as Hdm.
      pose proof (Z.mod_pos_bound w (2 ^ Z.of_nat (64 - o)) ltac:(lia)).
      rewrite Hlor, Hmod. unfold is_word in *. rewrite E64 in *. split; [nia|]. split; [nia|].
      split; [apply Z.div_pos; lia|apply Z.div_lt_upper_bound; nia]. }
    destruct Hsplit as (Hs & Hw1 & Hw2). unfold P. split; [by rewrite insert_length|]. split; [auto with word|].
    split; [done|]. split.
    - intros j Hj. rewrite word_at_insert by lia. destruct (Nat.eqb_spec j n); [lia|]. apply Hrest. lia.
    - rewrite !pval_words by auto with word. rewrite word_at_insert, Nat.eqb_refl by lia. rewrite pval_keep by lia.
      fold w. replace (Z.of_nat (S n * 64)) with (64 + Z.of_nat (n * 64)) by lia. rewrite Z.pow_add_r by lia. nia. }
  destruct (for_loop _ _ _ _) as [q pad]. destruct H as (L & W & _ & _ & E). cbn [fst]. split; [done|]. split; [done|].
  cbn [Nat.add] in E. rewrite <- E, Z_mod_plus_full. symmetry. apply Z.mod_small, pval_range.
Qed.

Lemma moved_up words ws (p q : plane) : Forall is_word p -> Forall is_word q -> (ws <= words)%nat ->
  (forall k, (k < words)%nat -> q.[k] = if (ws <=? k)%nat then p.[k - ws] else 0) ->
  pval q (words * 64) = pval p (words * 64) * 2 ^ Z.of_nat (ws * 64) mod 2 ^ Z.of_nat (words * 64).
Proof.
  intros Hp Hq Hws E.
  assert (H : forall n, (ws + n <= words)%nat -> pval q ((ws + n) * 64) = pval p (n * 64) * 2 ^ Z.of_nat (ws * 64)).
  { induction n as [|n IH]; intros Hn.
    - rewrite Nat.add_0_r. rewrite pval_zero; [done|]. intros k Hk. rewrite E by lia. nat_cases; (done || lia).
    - rewrite Nat.add_succ_r, !pval_words, IH, E by (done || lia). destruct (Nat.leb_spec ws (ws + n)); [|lia].
      replace (ws + n - ws)%nat with n by lia.
      replace (Z.of_nat ((ws + n) * 64)) with (Z.of_nat (n * 64) + Z.of_nat (ws * 64)) by lia. rewrite Z.pow_add_r by lia. ring. }
  specialize (H (words - ws)%nat ltac:(lia)). replace (ws + (words - ws))%nat with words in H by lia. rewrite H.
  replace (Z.of_nat (words * 64)) with (Z.of_nat ((words - ws) * 64) + Z.of_nat (ws * 64)) by lia.
  rewrite Z.pow_add_r, Z.mul_mod_distr_r by (try apply Z.pow_nonzero; lia). rewrite pval_mod_pow by lia. done.
Qed.

Lemma moved_down words ws (p q : plane) : Forall is_word p -> Forall is_word q -> (ws <= words)%nat ->
  (forall k, (k < words)%nat -> q.[k] = if (k + ws <? words)%nat then p.[k + ws] else 0) ->
  pval q (words * 64) = pval p (words * 64) / 2 ^ Z.of_nat (ws * 64).
Proof.
  intros Hp Hq Hws E.
  assert (H : forall n, (ws + n <= words)%nat ->
    pval p ((ws + n) * 64) = pval p (ws * 64) + pval q (n * 64) * 2 ^ Z.of_nat (ws * 64)).
  { induction n as [|n IH]; intros Hn; [rewrite Nat.add_0_r; unfold pval at 3; simpl; lia|].
    rewrite Nat.add_succ_r, !pval_words, IH, E by (done || lia). rewrite (proj2 (Nat.ltb_lt _ _)) by lia.
    rewrite (Nat.add_comm n ws).
    replace (Z.of_nat ((ws + n) * 64)) with (Z.of_nat (n * 64) + Z.of_nat (ws * 64)) by lia. rewrite Z.pow_add_r by lia. ring. }
  assert (Hz : forall n, (words - ws + n <= words)%nat -> pval q ((words - ws + n) * 64) = pval q ((words - ws) * 64)).
  { induction n as [|n IH]; intros Hn; [by rewrite Nat.add_0_r|]. rewrite Nat.add_succ_r, pval_words, IH, E by (done || lia).
    rewrite (proj2 (Nat.ltb_ge _ _)) by lia. lia. }
  specialize (H (words - ws)%nat ltac:(lia)). replace (ws + (words - ws))%nat with words in H by lia.
  specialize (Hz ws ltac:(lia)). replace (words - ws + ws)%nat with words in Hz by lia. rewrite Hz, H.
  pose proof (pow2_pos (Z.of_nat (ws * 64)) ltac:(lia)). pose proof (pval_range p (ws * 64)).
  rewrite Z.div_add, Z.div_small by lia. lia.
Qed.

Lemma fine_word w n o : is_word w -> is_word n -> (0 < o < 64)%nat ->
  let r := (n << (BITS_PER_WORD - o)) .| (w >> o) in
  is_word r /\ r * 2 ^ Z.of_nat o = w - w mod 2 ^ Z.of_nat o + (n mod 2 ^ Z.of_nat o) * 2 ^ 64.
Proof.
  intros Hw Hn Ho. cbv zeta. split; [auto with word|]. unfold BITS_PER_WORD.
  pose proof (pow2_pos (Z.of_nat o) ltac:(lia)) as Po. pose proof (pow2_pos (Z.of_nat (64 - o)) ltac:(lia)) as Pr.
  assert (E64 : 2 ^ 64 = 2 ^ Z.of_nat o * 2 ^ Z.of_nat (64 - o)) by (rewrite <- Z.pow_add_r by lia; f_equal; lia).
  assert (Es : n << (64 - o) = n mod 2 ^ Z.of_nat o * 2 ^ Z.of_nat (64 - o)).
  { unfold shl64, u64. rewrite Z.shiftl_mul_pow2 by lia. rewrite E64. apply Z.mul_mod_distr_r; lia. }
  assert (Ew : w >> o = w / 2 ^ Z.of_nat o) by (unfold shr64; apply Z.shiftr_div_pow2; lia).
  assert (Hlt : 0 <= w >> o < 2 ^ Z.of_nat (64 - o)).
  { rewrite Ew. unfold is_word in Hw. split; [apply Z.div_pos; lia|apply Z.div_lt_upper_bound; nia]. }
  assert (Hlor : (n << (64 - o)) .| (w >> o) = (n << (64 - o)) + (w >> o)).
  { rewrite <- Z.add_lor_land. assert ((n << (64 - o)) .& (w >> o) = 0) as ->; [|lia].
    apply Z.bits_inj'. intros i Hi. rewrite Z.bits_0, Z.land_spec, shl64_bit by lia.
    destruct (Z.leb_spec (Z.of_nat (64 - o)) i); cbn [andb]; [|by rewrite andb_false_r].
    rewrite (testbit_small (w >> o) (Z.of_nat (64 - o)) i) by lia. apply andb_false_r. }
  rewrite Hlor, Es, Ew, E64. pose proof (Z.div_mod w (2 ^ Z.of_nat o) ltac:(lia)).
  assert (w - w mod 2 ^ Z.of_nat o = 2 ^ Z.of_nat o * (w / 2 ^ Z.of_nat o)) as -> by lia. ring.
Qed.

Lemma shr_fine_spec words o (p : plane) : (words <= length p)%nat -> Forall is_word p -> (0 < o < 64)%nat ->
  let q := shr_fine words o p in
  length q = length p /\ Forall is_word q /\ pval q (words * 64) = pval p (words * 64) / 2 ^ Z.of_nat o.
Proof.
  intros Hl Hp Ho. cbv zeta. unfold shr_fine.
  set (nxt := fun k => if (k <? words)%nat then p.[k] else 0).
  assert (Hnxt : forall k, is_word (nxt k)) by (intros k; unfold nxt; destruct (_ <? _)%nat; auto with word).
  pose (P := fun n '(q, pad) => length q = length p /\ Forall is_word q /\
    pad = nxt n << (BITS_PER_WORD - o) /\
    (forall k, word_at q k = if (n <=? k)%nat && (k <? words)%nat then (nxt (S k) << (BITS_PER_WORD - o)) .| (p.[k] >> o) else p.[k])).
  assert (H : P 0%nat (for_down words (fun idx '(vec, pad) =>
    let new_pad := word_at vec idx << (BITS_PER_WORD - o) in
    (<[idx := pad .| (word_at vec idx >> o)]> vec, new_pad)) (p, 0))).
  { apply for_down_ind.
    - split; [done|]. split; [done|]. split.
      + unfold nxt. rewrite Nat.ltb_irrefl. unfold shl64. rewrite Z.shiftl_0_l. done.
      + intros k. nat_cases; simpl; (done || lia).
    - intros n [q pad] Hn (Lq & Wq & -> & Eq). assert (Eqn : word_at q n = p.[n]) by (rewrite Eq; nat_cases; simpl; (done || lia)).
      rewrite Eqn. unfold P. split; [by rewrite insert_length|]. split; [auto with word|].
      split; [unfold nxt; by rewrite (proj2 (Nat.ltb_lt _ _)) by lia|].
      intros k. rewrite word_at_insert, Eq by lia. destruct (Nat.eqb_spec k n) as [->|]; nat_cases; simpl; (done || lia). }
  destruct (for_down _ _ _) as [q pad]. destruct H as (Lq & Wq & _ & Eq). cbn [fst].
  split; [done|]. split; [done|]. pose proof (pow2_pos (Z.of_nat o) ltac:(lia)) as Po.
  assert (H : forall k, (k <= words)%nat ->
    pval q (k * 64) * 2 ^ Z.of_nat o = pval p (k * 64) - nxt 0%nat mod 2 ^ Z.of_nat o + (nxt k mod 2 ^ Z.of_nat o) * 2 ^ Z.of_nat (k * 64)).
  { induction k as [|k IH]; intros Hk; [unfold pval; simpl; lia|]. rewrite !pval_words by done.
    rewrite Z.mul_add_distr_r, IH by lia. rewrite Eq. rewrite (proj2 (Nat.ltb_lt k words)) by lia. cbn [Nat.leb andb].
    destruct (fine_word p.[k] (nxt (S k)) o ltac:(auto with word) ltac:(auto) Ho) as [_ Er].
    assert (Enk : nxt k = p.[k]) by (unfold nxt; by rewrite (proj2 (Nat.ltb_lt _ _)) by lia). rewrite Enk.
    replace (Z.of_nat (S k * 64)) with (64 + Z.of_nat (k * 64)) by lia. rewrite Z.pow_add_r by lia.
    set (r := Z.lor _ _) in *. set (B := 2 ^ Z.of_nat (k * 64)).
    replace (r * B * 2 ^ Z.of_nat o) with (r * 2 ^ Z.of_nat o * B) by ring. rewrite Er. ring. }
  specialize (H words ltac:(lia)). assert (E0 : nxt words = 0) by (unfold nxt; by rewrite Nat.ltb_irrefl).
  rewrite E0, Zmod_0_l, Z.mul_0_l, Z.add_0_r in H.
  assert (Hm : nxt 0%nat mod 2 ^ Z.of_nat o = pval p (words * 64) mod 2 ^ Z.of_nat o).
  { destruct (Nat.eqb_spec words 0) as [->|Hne].
    - unfold nxt, pval. simpl. by rewrite Zmod_0_l.
    - unfold nxt. rewrite (proj2 (Nat.ltb_lt _ _)) by lia. rewrite pval_mod_pow by lia. symmetry. apply pval_mod; lia. }
  rewrite Hm in H. pose proof (Z.div_mod (pval p (words * 64)) (2 ^ Z.of_nat o) ltac:(lia)). nia.
Qed.

(** [operator <<=] *)
Lemma vec2_shl_spec `{Host} v shift : vec2_wf v -> (0 < wid_ v)%nat -> host_ok (wid_ v) ->
  let r := vec2_shl v shift in
  vec2_wf r /\ wid_ r = wid_ v /\ vnum r = vnum v * 2 ^ Z.of_nat shift mod 2 ^ Z.of_nat (wid_ v) /\
  ((shift mod BITS_PER_WORD <> 0)%nat -> clean r).
Proof.
  intros [Hl Hw] H0 Hh. cbv zeta. unfold vec2_shl. rewrite (proj2 (Nat.eqb_neq _ _)) by lia.
  pose proof (word_count_bounds (wid_ v)) as [Hc1 Hc2]. set (words := word_count (wid_ v)) in *.
  destruct (div64 shift) as [Hd Hm]. set (ws := (shift / BITS_PER_WORD)%nat) in *. set (o := (shift mod BITS_PER_WORD)%nat) in *.
  destruct (Nat.leb_spec words ws) as [Hbig|Hsmall].
  { destruct (zero_words_spec words (vec_ v) Hl Hw) as (W & L & E).
    split; [split; cbn [vec_ wid_]; [unfold words in *; lia|done]|]. split; [done|].
    destruct (clean_small (Vec2 (zero_words words (vec_ v)) (wid_ v)) 0) as [Cl V]; [cbn [wid_]; pose proof (pow2_pos (Z.of_nat (wid_ v))); lia|exact E|].
    split; [|done]. rewrite V. symmetry.
    replace (Z.of_nat shift) with (Z.of_nat (shift - wid_ v) + Z.of_nat (wid_ v)) by lia.
    rewrite Z.pow_add_r, Z.mul_assoc, Z.mod_mul by (try apply Z.pow_nonzero; lia). done. }
  destruct (shl_words_spec words ws (vec_ v) Hl Hsmall Hw) as (L1 & W1 & E1).
  apply moved_up in E1; [|done|done|lia]. set (q := shl_words words ws (vec_ v)) in *.
  assert (Hfin : forall x, pval x (words * 64) = pval (vec_ v) (words * 64) * 2 ^ Z.of_nat shift mod 2 ^ Z.of_nat (words * 64) ->
    pval x (wid_ v) = vnum v * 2 ^ Z.of_nat shift mod 2 ^ Z.of_nat (wid_ v)).
  { intros x Ex. rewrite <- (pval_mod_pow x (words * 64)) by done. rewrite Ex. unfold words. rewrite words_weight.
    rewrite (Z.mul_comm (2 ^ Z.of_nat (word_count (wid_ v) * 64 - wid_ v))). rewrite Z.mod_mod_divide by (eexists; apply Z.mul_comm).
    rewrite <- (Z.mul_mod_idemp_l (pval _ _)) by (apply Z.pow_nonzero; lia). rewrite pval_mod_pow by done. done. }
  destruct (Nat.eqb_spec o 0) as [Eo|Eo]; cbn [negb].
  - split; [split; cbn [vec_ wid_]; [unfold words in *; lia|done]|]. split; [done|]. split; [|done].
    apply (Hfin q). rewrite E1. do 3 f_equal. lia.
  - destruct (shl_fine_spec words o q ltac:(lia) W1 ltac:(lia)) as (L2 & W2 & E2).
    set (q2 := shl_fine words o q) in *. rewrite E1 in E2.
    destruct (mask_tail (wid_ v) q2 H0 Hh ltac:(lia) W2) as [W3 E3]. fold words in W3, E3.
    split; [split; cbn [vec_ wid_]; [rewrite insert_length; unfold words in *; lia|done]|]. split; [done|].
    assert (E : pval q2 (wid_ v) = vnum v * 2 ^ Z.of_nat shift mod 2 ^ Z.of_nat (wid_ v)).
    { apply Hfin. rewrite E2, Z.mul_mod_idemp_l by (apply Z.pow_nonzero; lia). f_equal.
      rewrite <- Z.mul_assoc, <- Z.pow_add_r by lia. do 2 f_equal. lia. }
    destruct (clean_small (Vec2 q2.[words - 1 <- q2.[words - 1] .& tail_mask2 (wid_ v)] (wid_ v)) (pval q2 (wid_ v))) as [Cl V];
      [apply pval_range|exact E3|]. rewrite V, E. done.
Qed.

(** A word that the value bounds. *)
Lemma word_bound (p : plane) words k m : Forall is_word p -> (k < words)%nat -> (m <= 64)%nat ->
  pval p (words * 64) < 2 ^ Z.of_nat (k * 64 + m) -> p.[k] < 2 ^ Z.of_nat m.
Proof.
  intros Hp Hk Hm Hlt. assert (H : p.[k] * 2 ^ Z.of_nat (k * 64) <= pval p (words * 64)).
  { induction words as [|n IH]; [lia|]. rewrite pval_words in * by done.
    assert (is_word p.[n]) by auto with word. unfold is_word in *. pose proof (pow2_pos (Z.of_nat (n * 64)) ltac:(lia)).
    destruct (Nat.eq_dec k n) as [->|]; [pose proof (pval_range p (n * 64)); lia|].
    assert (pval p (n * 64) < 2 ^ Z.of_nat (k * 64 + m)) by nia. specialize (IH ltac:(lia) ltac:(lia)). nia. }
  rewrite Nat2Z.inj_add, Z.pow_add_r in Hlt by lia. pose proof (pow2_pos (Z.of_nat (k * 64)) ltac:(lia)). nia.
Qed.

(** Clearing bits that are 0 already. *)
Lemma replace_same (p : plane) words k w : Forall is_word p -> (k < words)%nat -> (words <= length p)%nat -> w = p.[k] ->
  Forall is_word p.[k <- w] /\ length p.[k <- w] = length p /\ pval p.[k <- w] (words * 64) = pval p (words * 64).
Proof.
  intros Hp Hk Hl ->. split; [auto with word|]. split; [apply insert_length|].
  rewrite pval_replace by (auto with word || lia). lia.
Qed.

(** [operator >>=] divides; its assertion fails when a vector of at most a word
    is shifted by more than its width (and less than a word). *)
Lemma vec2_shr_spec v shift : vec2_wf v -> clean v -> (shift <= wid_ v \/ 64 < wid_ v \/ 64 <= shift)%nat ->
  exists r, vec2_shr v shift = Some r /\ vec2_wf r /\ wid_ r = wid_ v /\ clean r /\ vnum r = vnum v / 2 ^ Z.of_nat shift.
Proof.
  intros [Hl Hw] Hc Hs. unfold vec2_shr. pose proof (pow2_pos (Z.of_nat shift) ltac:(lia)) as Hp2.
  destruct (Nat.eqb_spec (wid_ v) 0) as [E0|E0].
  { exists v. do 4 (split; [done|]). unfold vnum. rewrite E0. unfold pval. simpl. by rewrite Z.div_0_l by lia. }
  pose proof (word_count_bounds (wid_ v)) as [Hc1 Hc2]. set (words := word_count (wid_ v)) in *.
  destruct (div64 shift) as [Hd Hm]. set (ws := (shift / BITS_PER_WORD)%nat) in *. set (o := (shift mod BITS_PER_WORD)%nat) in *.
  pose proof (vnum_range v) as Hrange. unfold clean, words_val in Hc. fold words in Hc.
  assert (Hdiv : 0 <= vnum v / 2 ^ Z.of_nat shift < 2 ^ Z.of_nat (wid_ v)).
  { split; [apply Z.div_pos; lia|]. apply Z.div_lt_upper_bound; [lia|]. nia. }
  assert (Hfin : forall x, (words <= length x)%nat -> Forall is_word x -> pval x (words * 64) = vnum v / 2 ^ Z.of_nat shift ->
    vec2_wf (Vec2 x (wid_ v)) /\ wid_ (Vec2 x (wid_ v)) = wid_ v /\ clean (Vec2 x (wid_ v)) /\
    vnum (Vec2 x (wid_ v)) = vnum v / 2 ^ Z.of_nat shift).
  { intros x Hx Wx Ex. split; [by split|]. split; [done|]. by apply clean_small. }
  destruct (Nat.leb_spec words ws) as [Hbig|Hsmall].
  { destruct (zero_words_spec words (vec_ v) Hl Hw) as (W & L & E). eexists. split; [done|]. apply Hfin; [lia|done|].
    rewrite E. symmetry. apply Z.div_small. split; [lia|]. eapply Z.lt_le_trans; [apply Hrange|].
    apply Z.pow_le_mono_r; lia. }
  assert (Hs' : (shift <= wid_ v \/ 64 < wid_ v)%nat) by lia. clear Hs. rename Hs' into Hs.
  destruct (shr_words_spec words ws (vec_ v) Hl Hsmall Hw) as (L1 & W1 & E1).
  apply moved_down in E1; [|done|done|lia]. rewrite Hc in E1. set (q := shr_words words ws (vec_ v)) in *.
  destruct (Nat.ltb_spec 0 o) as [Ho|Ho].
  2: { eexists. split; [done|]. apply Hfin; [lia|done|]. rewrite E1. do 3 f_equal. lia. }
  destruct (shr_fine_spec words o q ltac:(lia) W1 ltac:(lia)) as (L2 & W2 & E2). set (q2 := shr_fine words o q) in *.
  rewrite E1, Z.div_div, <- Z.pow_add_r in E2 by (try apply pow2_pos; try apply Z.pow_nonzero; lia).
  replace (Z.of_nat (ws * 64) + Z.of_nat o) with (Z.of_nat shift) in E2 by lia.
  destruct (last_word_bits (wid_ v) ltac:(lia)) as (r & Hr & Er & Er'). fold words in Er.
  assert (Etz : ((BITS_PER_WORD - wid_ v mod BITS_PER_WORD) mod BITS_PER_WORD = 64 - r)%nat).
  { unfold BITS_PER_WORD in *. destruct (Nat.eqb_spec (wid_ v mod 64) 0) as [Ez|Ez].
    - rewrite Ez, Er'. done.
    - rewrite Nat.mod_small by lia. lia. }
  rewrite Etz. clear Etz Er'.
  assert (Hsm : pval q2 (words * 64) * 2 ^ Z.of_nat o < 2 ^ Z.of_nat (wid_ v)).
  { rewrite E2. eapply Z.le_lt_trans; [|apply Hrange]. rewrite Z.mul_comm.
    transitivity (2 ^ Z.of_nat shift * (vnum v / 2 ^ Z.of_nat shift)); [|apply Z.mul_div_le; lia].
    apply Z.mul_le_mono_nonneg_r; [lia|]. apply Z.pow_le_mono_r; lia. }
  pose proof (pow2_pos (Z.of_nat o) ltac:(lia)) as Po. pose proof (pval_range q2 (words * 64)) as Hq2.
  assert (Hbound : forall m, (wid_ v <= m + o)%nat -> pval q2 (words * 64) < 2 ^ Z.of_nat m).
  { intros m Hm'. assert (2 ^ Z.of_nat (wid_ v) <= 2 ^ Z.of_nat m * 2 ^ Z.of_nat o)
      by (rewrite <- Z.pow_add_r by lia; apply Z.pow_le_mono_r; lia). nia. }
  (* masking word [k] with [s] bits cleared changes nothing *)
  assert (Hmask : forall (x : list Z) k s, Forall is_word x -> (words <= length x)%nat -> (k < words)%nat -> (s <= 64)%nat ->
    pval x (words * 64) = pval q2 (words * 64) -> (wid_ v <= k * 64 + (64 - s) + o)%nat ->
    x.[k] .& (ones64 >> s) = x.[k]).
  { intros x k s Wx Lx Hk Hs64 Ex Hk2. rewrite shr_ones, land_ones' by done. apply Z.mod_small.
    split; [assert (is_word x.[k]) as [? ?] by auto with word; done|].
    apply (word_bound x words); [done|done|lia|]. rewrite Ex. apply Hbound. lia. }
  cbn [shr_clear]. unfold BITS_PER_WORD.
  destruct (Nat.leb_spec 64 (64 - r + o)) as [Hge|Hlt].
  - destruct (Nat.leb_spec 64 (64 - r + o - 64)) as [?|_]; [lia|].
    destruct (replace_same q2 words (words - 1) 0 W2 ltac:(lia) ltac:(lia)) as (W3 & L3 & E3).
    { assert (q2.[words - 1] < 2 ^ Z.of_nat 0).
      { apply (word_bound q2 words); [done|lia|lia|]. apply Hbound. lia. }
      assert (is_word q2.[words - 1]) as [? ?] by auto with word. change (2 ^ Z.of_nat 0) with 1 in *. lia. }
    destruct (Nat.ltb_spec 0 (64 - r + o - 64)) as [Hms|Hms].
    + rewrite (proj2 (Nat.ltb_lt 0 (words - 1))) by lia.
      pose proof (replace_same _ words (words - 1 - 1) _ W3 ltac:(lia) ltac:(lia)
        (Hmask _ (words - 1 - 1)%nat (64 - r + o - 64)%nat W3 ltac:(lia) ltac:(lia) ltac:(lia) E3 ltac:(lia))) as (W4 & L4 & E4).
      eexists. split; [done|]. apply Hfin; [lia|done|]. rewrite E4, E3. exact E2.
    + eexists. split; [done|]. apply Hfin; [lia|done|]. rewrite E3. exact E2.
  - destruct (Nat.ltb_spec 0 (64 - r + o)) as [_|?]; [|lia]. rewrite (proj2 (Nat.ltb_lt 0 words)) by lia.
    pose proof (replace_same _ words (words - 1) _ W2 ltac:(lia) ltac:(lia)
      (Hmask _ (words - 1)%nat (64 - r + o)%nat W2 ltac:(lia) ltac:(lia) ltac:(lia) eq_refl ltac:(lia))) as (W4 & L4 & E4).
    eexists. split; [done|]. apply Hfin; [lia|done|]. rewrite E4. exact E2.
Qed.

(** The shift that its assertion stops. *)
Lemma vec2_shr_fails v shift : (0 < wid_ v < shift)%nat -> (shift < 64)%nat -> vec2_shr v shift = None.
Proof.
  intros Hw Hs. unfold vec2_shr, word_count, BITS_PER_WORD. rewrite (proj2 (Nat.eqb_neq (wid_ v) 0)) by lia.
  rewrite !(Nat.div_small shift 64), !(Nat.mod_small shift 64), (Nat.mod_small (wid_ v) 64), (Nat.mod_small (64 - wid_ v) 64) by lia.
  assert (Hc : ((wid_ v + 64 - 1) / 64 = 1)%nat).
  { symmetry. apply (Nat.div_unique _ _ _ (wid_ v - 1)); lia. }
  rewrite Hc. cbn [Nat.leb]. rewrite (proj2 (Nat.ltb_lt 0 shift)) by lia. cbn [shr_clear]. unfold BITS_PER_WORD.
  rewrite (proj2 (Nat.leb_le 64 (64 - wid_ v + shift))) by lia. rewrite (proj2 (Nat.leb_gt 64 (64 - wid_ v + shift - 64))) by lia.
  by rewrite (proj2 (Nat.ltb_lt 0 (64 - wid_ v + shift - 64))) by lia.
Qed.

(** ** Negation *)

Lemma vec2_copy_spec v : vec2_wf v -> (0 < wid_ v)%nat ->
  let r := vec2_copy v in
  length (vec_ r) = word_count (wid_ v) /\ Forall is_word (vec_ r) /\ wid_ r = wid_ v /\ words_val r = words_val v.
Proof.
  intros [Hl Hw] H0. cbv zeta. unfold vec2_copy. pose proof (word_count_pos (wid_ v) H0).
  rewrite (proj2 (Nat.eqb_neq _ _)) by lia. cbn [vec_ wid_]. split; [by rewrite length_map, length_seq|].
  split; [apply Forall_map, Forall_forall; intros; cbn; auto with word|]. split; [done|].
  unfold words_val. cbn [vec_ wid_]. apply pval_ext. intros i Hi. apply pbit_words_eq. destruct (div64 i). apply word_at_map_seq. lia.
Qed.

Lemma vec2_neg_spec `{Host} v : vec2_wf v -> (0 < wid_ v)%nat -> host_ok (wid_ v) ->
  exists r, vec2_neg v = Some r /\ vec2_wf r /\ wid_ r = wid_ v /\ clean r /\
    vnum r = (- vnum v) mod 2 ^ Z.of_nat (wid_ v).
Proof.
  intros Hv H0 Hh. destruct (vec2_copy_spec v Hv H0) as (L & W & E & V). unfold vec2_neg. rewrite E.
  rewrite (proj2 (Nat.eqb_neq _ _)) by lia. set (words := word_count (wid_ v)) in *.
  destruct (loop_words (fun _ w => .~ w) words 0 (vec_ (vec2_copy v)) ltac:(lia)) as (L1 & E1 & W1).
  set (q := for_loop _ _ _ _) in *.
  assert (Hq : vec2_wf (Vec2 q (wid_ v))) by (split; cbn [vec_ wid_]; [fold words; lia|apply W1; auto with word]).
  destruct (vec2_of_word_spec 1 (wid_ v)) as (H1 & C1 & V1); [unfold is_word; lia|done|apply Z.pow_gt_1; lia|].
  destruct (vec2_add_spec (Vec2 q (wid_ v)) (vec2_of_word 1 (wid_ v)) Hq H1 eq_refl Hh) as (r & Er & Wr & Wd & Vr & Cr).
  exists r. split; [exact Er|]. split; [done|]. split; [done|]. split; [by apply Cr|]. rewrite Vr, V1. cbn [wid_].
  assert (Vq : vnum (Vec2 q (wid_ v)) = 2 ^ Z.of_nat (wid_ v) - 1 - vnum v).
  { unfold vnum at 1. cbn [vec_ wid_]. pose proof (word_count_bounds (wid_ v)) as [_ Hb]. fold words in Hb.
    assert (Hpv : vnum v = pval (vec_ (vec2_copy v)) (wid_ v)) by (rewrite vnum_words, <- V, <- E, <- vnum_words; unfold vnum; by rewrite E).
    rewrite Hpv, <- pval_not by lia. apply pval_ext. intros i Hi. apply pbit_words_eq. destruct (div64 i).
    rewrite E1, word_at_map by lia. rewrite (proj2 (Nat.ltb_lt _ _)) by lia. done. }
  rewrite Vq. replace (2 ^ Z.of_nat (wid_ v) - 1 - vnum v + 1) with (- vnum v + 1 * 2 ^ Z.of_nat (wid_ v)) by lia.
  by rewrite Z_mod_plus_full.
Qed.

(** ** Multiplication *)

Lemma half_split' x : is_word x ->
  exists h l, x .& mask64 32 = l /\ shr64 x 32 .& mask64 32 = h /\ shr64 x 32 = h /\
    x = h * 2 ^ 32 + l /\ 0 <= h < 2 ^ 32 /\ 0 <= l < 2 ^ 32.
Proof.
  intros Hx. destruct (half_split x Hx) as (h & l & El & Eh & E & Hh & Hl). exists h, l.
  split; [exact El|]. split; [exact Eh|]. split; [|done].
  unfold shr64. rewrite Z.shiftr_div_pow2 by lia. rewrite E. rewrite Z.div_add_l, Z.div_small by lia. lia.
Qed.

Lemma multiply_long_spec a b : is_word a -> is_word b ->
  let '(lo, hi) := multiply_long a b in is_word lo /\ is_word hi /\ lo + hi * 2 ^ 64 = a * b.
Proof.
  intros Ha Hb. unfold multiply_long.
  destruct (half_split' a Ha) as (a1 & a0 & -> & -> & _ & Ea & Ha1 & Ha0).
  destruct (half_split' b Hb) as (b1 & b0 & -> & -> & _ & Eb & Hb1 & Hb0).
  destruct (half_product a0 b0 Ha0 Hb0) as [-> H00], (half_product a0 b1 Ha0 Hb1) as [-> H01],
    (half_product a1 b0 Ha1 Hb0) as [-> H10], (half_product a1 b1 Ha1 Hb1) as [-> H11].
  assert (Hab : a * b = a0 * b0 + (a0 * b1 + a1 * b0) * 2 ^ 32 + a1 * b1 * 2 ^ 64) by (rewrite Ea, Eb; ring).
  assert (Hmax : a * b < 2 ^ 128) by (unfold is_word in *; nia).
  rewrite Hab in *. clear Ea Eb Hab. unfold is_word.
  destruct (half_split' (a0 * b0)) as (c0 & r0 & -> & _ & -> & E0 & ? & ?); [unfold is_word; lia|].
  rewrite (add64_small c0 (a1 * b0)) by lia.
  destruct (half_split' (c0 + a1 * b0)) as (c1 & r1 & -> & _ & -> & E1 & ? & ?); [unfold is_word; lia|].
  rewrite (add64_small r1 (a0 * b1)) by lia.
  destruct (half_split' (r1 + a0 * b1)) as (c2 & r2 & -> & _ & -> & E2 & ? & ?); [unfold is_word; lia|].
  rewrite (add64_small c1 c2) by lia.
  destruct (half_split' (c1 + c2)) as (c3 & r3 & -> & _ & -> & E3 & ? & ?); [unfold is_word; lia|].
  rewrite (add64_small r3 (a1 * b1)) by lia.
  destruct (half_split' (r3 + a1 * b1)) as (c4 & r4 & -> & _ & -> & E4 & ? & ?); [unfold is_word; lia|].
  rewrite (add64_small c3 c4) by lia.
  assert (c3 + c4 < 2 ^ 32) by lia.
  assert (Hjoin : forall h l, 0 <= h < 2 ^ 32 -> 0 <= l < 2 ^ 32 -> shl64 h 32 .| l = h * 2 ^ 32 + l).
  { intros h l Hh Hl. change (shl64 h 32) with (h << 32). rewrite shl64_32 by done. rewrite <- Z.add_lor_land.
    assert ((h * 2 ^ 32) .& l = 0) as ->; [|lia]. apply Z.bits_inj'. intros i Hi.
    rewrite Z.land_spec, Z.bits_0, <- Z.shiftl_mul_pow2, Z.shiftl_spec by lia.
    destruct (Z.lt_ge_cases i 32); [rewrite (Z.testbit_neg_r h) by lia; done|].
    rewrite (testbit_small l 32 i) by lia. apply andb_false_r. }
  rewrite !Hjoin by lia. lia.
Qed.

#[local] Opaque multiply_long.

Section Mul.
Context (words : nat).

(** Adding two words at a place of the result. *)
Lemma mul_add_spec at_ low hig r : res_wf words r -> is_word low -> is_word hig -> (at_ < words)%nat ->
  let r' := mul_add words at_ low hig r in
  res_wf words r' /\ cong words (pval r' (words * 64)) (pval r (words * 64) + (low + hig * 2 ^ 64) * 2 ^ Z.of_nat (at_ * 64)).
Proof using.
  intros [Lr Wr] Hlow Hhig Hat. cbv zeta. unfold mul_add.
  set (total := pval r (words * 64) + (low + hig * 2 ^ 64) * 2 ^ Z.of_nat (at_ * 64)).
  pose (P := fun k '(q, c, lo, hi) => res_wf words q /\ 0 <= c <= 1 /\ is_word lo /\ is_word hi /\
    pval q (words * 64) + (c + lo + hi * 2 ^ 64) * 2 ^ Z.of_nat ((at_ + k) * 64) = total).
  assert (H : P (0 + (words - at_))%nat (for_loop (words - at_) 0 (fun sdx '(r, carry, low, hig) =>
    let '(out, carry) := add_carry (word_at r (at_ + sdx)) low carry in
    (<[(at_ + sdx)%nat := out]> r, carry, hig, 0)) (r, 0, low, hig))).
  { apply for_loop_ind.
    - unfold P, total. rewrite Nat.add_0_r. split; [done|]. split; [lia|]. do 2 (split; [done|]). lia.
    - intros k [[[q c] lo] hi] Hk ([Lq Wq] & Hc & Hlo & Hhi & E).
      pose proof (add_carry_spec (word_at q (at_ + k)) lo c ltac:(auto with word) Hlo Hc) as Ha.
      destruct (add_carry _ _ _) as [out c']. destruct Ha as (Ho & Hc' & Es). unfold P.
      split; [split; [by rewrite insert_length|auto with word]|]. split; [done|]. split; [done|]. split; [apply is_word_0|].
      rewrite pval_replace by (done || lia). rewrite <- E.
      replace (Z.of_nat ((at_ + S k) * 64)) with (64 + Z.of_nat ((at_ + k) * 64)) by lia. rewrite Z.pow_add_r by lia. nia. }
  destruct (for_loop _ _ _ _) as [[[q c] lo] hi]. destruct H as (Hq & _ & _ & _ & E). cbn [fst]. split; [done|].
  fold total. rewrite <- E. replace (at_ + (0 + (words - at_)))%nat with words by lia.
  destruct (cong_high words (c + lo + hi * 2 ^ 64) words ltac:(lia)) as [k Hk]. exists (- k). lia.
Qed.

(** A row: a word of [b] times all words of [a]. *)
Lemma mul_row2_spec (a : list Z) bdx tmpb r : res_wf words r -> (words <= length a)%nat -> Forall is_word a ->
  is_word tmpb -> (bdx < words)%nat ->
  let r' := for_loop words 0 (fun adx r =>
        let tmpa := a.[adx] in
        if tmpa =? 0 then r
        else let '(low, hig) := multiply_long tmpa tmpb in mul_add words (adx + bdx) low hig r) r in
  res_wf words r' /\ cong words (pval r' (words * 64))
    (pval r (words * 64) + tmpb * 2 ^ Z.of_nat (bdx * 64) * pval a (words * 64)).
Proof using.
  intros Hr Hla Hwa Hb Hbd. cbv zeta.
  apply (for_loop_ind (fun k q => res_wf words q /\ cong words (pval q (words * 64))
    (pval r (words * 64) + tmpb * 2 ^ Z.of_nat (bdx * 64) * pval a (k * 64))) words 0).
  - split; [done|]. exists 0. unfold pval at 3. simpl. lia.
  - intros k q Hk [Hq Hc]. rewrite pval_words by done.
    assert (Hgoal : res_wf words q /\ a.[k] = 0 -> res_wf words q /\ cong words (pval q (words * 64))
      (pval r (words * 64) + tmpb * 2 ^ Z.of_nat (bdx * 64) * (pval a (k * 64) + a.[k] * 2 ^ Z.of_nat (k * 64)))).
    { intros [? ->]. split; [done|]. by rewrite Z.mul_0_l, Z.add_0_r. }
    destruct (Z.eqb_spec a.[k] 0) as [E0|E0]; [by apply Hgoal|]. clear Hgoal.
    pose proof (multiply_long_spec a.[k] tmpb ltac:(auto with word) Hb) as Hm.
    destruct (multiply_long _ _) as [low hig]. destruct Hm as (Hlow & Hhig & Em).
    assert (Hsum : cong words (pval q (words * 64) + (low + hig * 2 ^ 64) * 2 ^ Z.of_nat ((k + bdx) * 64))
      (pval r (words * 64) + tmpb * 2 ^ Z.of_nat (bdx * 64) * (pval a (k * 64) + a.[k] * 2 ^ Z.of_nat (k * 64)))).
    { rewrite Em, Z.mul_add_distr_l, Z.add_assoc. apply cong_add; [done|]. exists 0.
      replace (Z.of_nat ((k + bdx) * 64)) with (Z.of_nat (k * 64) + Z.of_nat (bdx * 64)) by lia. rewrite Z.pow_add_r by lia. ring. }
    destruct (Nat.le_gt_cases words (k + bdx)) as [Hge|Hlt].
    + (* the place is beyond the result: no round *)
      assert (mul_add words (k + bdx) low hig q = q) as ->.
      { unfold mul_add. by replace (words - (k + bdx))%nat with 0%nat by lia. }
      split; [done|]. eapply cong_trans; [|exact Hsum].
      destruct (cong_high words (low + hig * 2 ^ 64) (k + bdx) Hge) as [z Hz]. exists (- z). lia.
    + destruct (mul_add_spec (k + bdx) low hig q Hq Hlow Hhig Hlt) as [Hr' Hc'].
      split; [done|]. eapply cong_trans; [exact Hc'|exact Hsum].
Qed.
End Mul.

Lemma vec2_mul_spec a b : vec2_wf a -> vec2_wf b -> wid_ a = wid_ b -> (0 < wid_ a)%nat ->
  exists r, vec2_mul a b = Some r /\ vec2_wf r /\ wid_ r = wid_ a /\
    vnum r = (vnum a * vnum b) mod 2 ^ Z.of_nat (wid_ a).
Proof.
  intros [Hla Hwa] [Hlb Hwb] Hw H0. rewrite <- Hw in Hlb. unfold vec2_mul. rewrite (proj2 (Nat.eqb_eq _ _) Hw).
  set (words := word_count (wid_ a)) in *. pose proof (word_count_pos _ H0) as Hc0.
  destruct (vec2_of_word_spec 0 (wid_ a)) as ((_ & Wz) & Cz & Vz); [auto with word|done|apply pow2_pos; lia|].
  assert (Lz : length (vec_ (vec2_of_word 0 (wid_ a))) = words) by (cbn; by rewrite insert_length, length_replicate).
  set (z := vec_ (vec2_of_word 0 (wid_ a))) in *.
  assert (Pz : pval z (words * 64) = 0) by (rewrite <- Vz; exact Cz).
  set (r := for_loop _ _ _ _).
  assert (H : res_wf words r /\ cong words (pval r (words * 64)) (pval (vec_ a) (words * 64) * pval (vec_ b) (words * 64))).
  { apply (for_loop_ind (fun k q => res_wf words q /\
      cong words (pval q (words * 64)) (pval (vec_ a) (words * 64) * pval (vec_ b) (k * 64))) words 0).
    - split; [done|]. rewrite Pz. exists 0. unfold pval at 2. simpl. lia.
    - intros k q Hk [Hq Hc]. rewrite pval_words by done.
      destruct (Z.eqb_spec (vec_ b).[k] 0) as [E0|E0]; [split; [done|]; by rewrite E0, Z.mul_0_l, Z.add_0_r|].
      destruct (mul_row2_spec words (vec_ a) k (vec_ b).[k] q Hq Hla Hwa ltac:(auto with word) ltac:(lia)) as [Hq' Hc'].
      split; [exact Hq'|]. eapply cong_trans; [exact Hc'|]. rewrite Z.mul_add_distr_l. apply cong_add; [done|]. exists 0. ring. }
  destruct H as [[Lr Wr] [k Hk]]. eexists. split; [done|]. split; [split; cbn [vec_ wid_]; [rewrite Lr; apply le_n|done]|]. split; [done|].
  rewrite vnum_words. unfold words_val. cbn [vec_ wid_].
  assert (Hk' : pval r (word_count (wid_ a) * 64) + (- k) * 2 ^ Z.of_nat (word_count (wid_ a) * 64) =
    pval (vec_ a) (words * 64) * pval (vec_ b) (words * 64)) by (fold words; lia).
  etransitivity; [exact (drop_carry _ _ _ _ Hk')|]. unfold vnum. rewrite <- Hw, Z.mul_mod, !pval_mod_pow by (try apply Z.pow_nonzero; try apply word_count_bounds; lia).
  done.
Qed.

(** ** Power *)

Lemma clear_low_bit y : vec2_wf y -> clean y -> Z.odd (vnum y) = true ->
  exists y', vec2_set_bit y 0 false = Some y' /\ vec2_wf y' /\ wid_ y' = wid_ y /\ clean y' /\ vnum y' = vnum y - 1.
Proof.
  intros [Hl Hw] Hc Hodd. pose proof (vnum_range y) as Hr.
  assert (H0 : (0 < wid_ y)%nat).
  { destruct (Nat.eq_dec (wid_ y) 0%nat) as [E|]; [|lia]. rewrite E in Hr. change (2 ^ Z.of_nat 0) with 1 in Hr.
    assert (E0 : vnum y = 0) by lia. by rewrite E0 in Hodd. }
  pose proof (word_count_pos _ H0) as Hw0. unfold vec2_set_bit. rewrite (proj2 (Nat.ltb_lt _ _)) by done.
  change (0 / BITS_PER_WORD)%nat with 0%nat. change (0 mod BITS_PER_WORD)%nat with 0%nat.
  assert (Hb0 : Z.testbit (vec_ y).[0] 0 = true).
  { rewrite <- Z.bit0_odd in Hodd. change 0 with (Z.of_nat 0) in Hodd at 1. rewrite <- vec2_value_num, vec2_value_spec in Hodd.
    apply andb_true_iff in Hodd as [_ Hb]. exact Hb. }
  assert (Hword : is_word (vec_ y).[0]) by auto with word.
  assert (E : (vec_ y).[0] .& .~ (1 << 0) = (vec_ y).[0] - 1).
  { assert (Hor : (vec_ y).[0] = 2 * ((vec_ y).[0] / 2) + 1).
    { pose proof (Z.div_mod (vec_ y).[0] 2 ltac:(lia)). rewrite <- Z.bit0_mod, Hb0 in H. exact H. }
    apply Z.bits_inj'. intros i Hi. rewrite Z.land_spec, not64_bit, shl64_bit by lia. change (Z.of_nat 0) with 0.
    rewrite Z.sub_0_r, (proj2 (Z.leb_le 0 i)) by lia. cbn [andb].
    assert (Hm1 : (vec_ y).[0] - 1 = 2 * ((vec_ y).[0] / 2)) by lia. rewrite Hm1.
    destruct (Z.eq_dec i 0) as [->|Hne]; [rewrite Z.testbit_even_0; change (Z.testbit 1 0) with true; cbn; apply andb_false_r|].
    replace i with (Z.succ (Z.pred i)) by lia. rewrite Z.double_bits_succ. rewrite Hor at 1. rewrite Z.testbit_odd_succ by lia.
    rewrite (testbit_small 1 1 (Z.succ (Z.pred i))) by lia. rewrite andb_false_r. cbn [negb]. rewrite andb_true_r.
    destruct (Z.ltb_spec (Z.succ (Z.pred i)) 64); [by rewrite andb_true_r|]. rewrite andb_false_r. symmetry.
    apply (testbit_small _ 63); [unfold is_word in Hword; lia|lia|lia]. }
  eexists. split; [done|]. cbn [vec_ wid_].
  assert (Hwd : is_word ((vec_ y).[0] - 1)) by (rewrite <- E; auto with word).
  split; [split; cbn [vec_ wid_]; [rewrite insert_length; done|rewrite E; auto with word]|]. split; [done|].
  apply clean_small; cbn [wid_].
  - assert (0 < vnum y) by (destruct (Z.eq_dec (vnum y) 0) as [E0|]; [by rewrite E0 in Hodd|lia]). lia.
  - unfold words_val. cbn [vec_ wid_]. rewrite E, pval_replace by (done || lia). unfold clean, words_val in Hc. rewrite Hc.
    simpl. lia.
Qed.

(** Calls of [pow] for the exponent [y]. *)
Definition pow_depth (y : Z) : Z := if y =? 0 then 1 else 2 * Z.log2 y + 1 + Z.b2z (Z.odd y).

Lemma pow_depth_odd y : 0 < y -> Z.odd y = true -> pow_depth (y - 1) = pow_depth y - 1.
Proof.
  intros Hy Ho. unfold pow_depth. rewrite Ho. destruct (Z.eqb_spec y 0); [lia|].
  destruct (Z.eqb_spec (y - 1) 0) as [E|E]; [assert (y = 1) as -> by lia; done|].
  rewrite Z.odd_sub, Ho. cbn [xorb negb Z.odd Z.b2z].
  assert (Z.log2 (y - 1) = Z.log2 y); [|lia]. pose proof (Z.log2_spec y Hy) as [H1 H2].
  assert (0 < Z.log2 y) by (apply Z.log2_pos; lia).
  apply Z.log2_unique; [lia|]. split; [|lia].
  destruct (Z.eq_dec y (2 ^ Z.log2 y)) as [Ey|]; [|lia]. rewrite Ey in Ho. by rewrite Z.odd_pow in Ho by lia.
Qed.

Lemma pow_depth_even y : 0 < y -> Z.odd y = false -> pow_depth (y / 2) < pow_depth y.
Proof.
  intros Hy Ho. unfold pow_depth. rewrite Ho. destruct (Z.eqb_spec y 0); [lia|].
  pose proof (Z.div_mod y 2 ltac:(lia)) as Hdm. rewrite Zmod_odd, Ho in Hdm.
  destruct (Z.eqb_spec (y / 2) 0); [lia|]. assert (E : y = 2 * (y / 2)) by lia.
  rewrite E at 3. rewrite Z.log2_double by lia. destruct (Z.odd (y / 2)); cbn [Z.b2z]; lia.
Qed.

Lemma vec2_pow_rec_spec x : vec2_wf x -> (0 < wid_ x)%nat -> forall fuel y,
  vec2_wf y -> clean y -> pow_depth (vnum y) <= Z.of_nat fuel ->
  exists r y', vec2_pow_rec fuel x y = Some (r, y') /\ vec2_wf r /\ wid_ r = wid_ x /\
    vnum r = vnum x ^ vnum y mod 2 ^ Z.of_nat (wid_ x).
Proof.
  intros Hx H0. induction fuel as [|fuel IH]; intros y Hy Hc Hf.
  { exfalso. unfold pow_depth in Hf. pose proof (Z.log2_nonneg (vnum y)).
    destruct (vnum y =? 0), (Z.odd (vnum y)); cbn [Z.b2z] in Hf; lia. }
  cbn [vec2_pow_rec]. destruct (vec2_of_word_spec 0 1) as (Wz & Cz & Vz); [auto with word|lia|lia|].
  rewrite vec2_eq_spec by done. rewrite Vz. pose proof (vnum_range y) as Hr.
  assert (Hpos : 1 < 2 ^ Z.of_nat (wid_ x)) by (apply Z.pow_gt_1; lia).
  destruct (Z.eqb_spec (vnum y) 0) as [E0|E0].
  { destruct (vec2_of_word_spec 1 (wid_ x)) as (W1 & _ & V1); [unfold is_word; lia|done|done|].
    eexists _, _. split; [done|]. split; [done|]. split; [done|]. rewrite V1, E0, Z.pow_0_r, Z.mod_small by lia. done. }
  rewrite vec2_value_num. change (Z.of_nat 0) with 0. rewrite Z.bit0_odd. destruct (Z.odd (vnum y)) eqn:Ho.
  - destruct (clear_low_bit y Hy Hc Ho) as (y1 & -> & Hy1 & _ & Hc1 & V1). cbn [mbind option_bind].
    pose proof (pow_depth_odd (vnum y) ltac:(lia) Ho). destruct (IH y1 Hy1 Hc1 ltac:(rewrite V1; lia)) as (p & y' & -> & Wp & Dp & Vp).
    cbn [mbind option_bind]. destruct (vec2_mul_spec x p Hx Wp (eq_sym Dp) H0) as (r & -> & Wr & Dr & Vr).
    cbn [mbind option_bind]. exists r, y'. split; [done|]. split; [done|]. split; [done|].
    rewrite Vr, Vp, V1, Z.mul_mod_idemp_r by lia. f_equal. rewrite <- Z.pow_succ_r by lia. f_equal. lia.
  - assert (Hwy : (1 <= wid_ y)%nat).
    { destruct (Nat.eq_dec (wid_ y) 0%nat) as [E|]; [|lia]. rewrite E in Hr. change (2 ^ Z.of_nat 0) with 1 in Hr. lia. }
    destruct (vec2_shr_spec y 1 Hy Hc (or_introl Hwy)) as (y1 & -> & Hy1 & _ & Hc1 & V1). cbn [mbind option_bind].
    change (2 ^ Z.of_nat 1) with 2 in V1. pose proof (pow_depth_even (vnum y) ltac:(lia) Ho).
    destruct (IH y1 Hy1 Hc1 ltac:(rewrite V1; lia)) as (z & y' & -> & Wz' & Dz & Vz').
    cbn [mbind option_bind]. destruct (vec2_mul_spec z z Wz' Wz' eq_refl ltac:(lia)) as (r & -> & Wr & Dr & Vr).
    cbn [mbind option_bind]. exists r, y'. split; [done|]. split; [done|]. split; [congruence|].
    rewrite Vr, Dz, Vz', V1, <- Z.mul_mod by lia. f_equal. rewrite <- Z.pow_add_r by (apply Z.div_pos; lia). f_equal.
    pose proof (Z.div_mod (vnum y) 2 ltac:(lia)) as Hdm. rewrite Zmod_odd, Ho in Hdm. lia.
Qed.

Lemma vec2_pow_spec x y : vec2_wf x -> (0 < wid_ x)%nat -> vec2_wf y -> clean y ->
  exists r, vec2_pow x y = Some r /\ vec2_wf r /\ wid_ r = wid_ x /\
    vnum r = vnum x ^ vnum y mod 2 ^ Z.of_nat (wid_ x).
Proof.
  intros Hx H0 Hy Hc. unfold vec2_pow.
  destruct (vec2_pow_rec_spec x Hx H0 (2 * wid_ y + 1) y Hy Hc) as (r & y' & -> & H); [|by exists r].
  pose proof (vnum_range y) as Hr. unfold pow_depth. destruct (Z.eqb_spec (vnum y) 0); [lia|].
  assert (Z.log2 (vnum y) < Z.of_nat (wid_ y)) by (apply Z.log2_lt_pow2; lia). destruct (Z.odd _); cbn [Z.b2z]; lia.
Qed.
