(* ===== verification/Vector2Div.v ===== *)
(** * Vector2Div: division of two-state vectors, conversions, and the properties

    [div_mod] doubles the divisor until it reaches the dividend and subtracts on
    the way back.  The mask that collects the quotient is one bit too narrow
    when the divisor is 1 and the dividend exceeds half of the range: there the
    quotient is 0. *)

From S2P Require Import Prelude FourState Vector4 Vector4Value Vector4Ops Vector4Arith Vector4Logic Vector4Reduce.
From S2P Require Import Vector4Conv Vector4Array Vector2 Vector2Value Vector2Arith.
Import Bit4.

Open Scope ivl_scope.

(** A well-formed clean vector of a width and a value. *)
Record vec2_is (v : vvp_vector2_t) (n : nat) (z : Z) : Prop := Vec2Is {
  is_wf : vec2_wf v;
  is_clean : clean v;
  is_wid : wid_ v = n;
  is_num : vnum v = z;
}.

Lemma shl1_is `{Host} v m z : (0 < m)%nat -> host_ok m -> vec2_is v m z -> vec2_is (vec2_shl v 1) m (2 * z mod 2 ^ Z.of_nat m).
Proof.
  intros Hm Hhm [Hw Hc Hwd Hv]. destruct (vec2_shl_spec v 1 Hw) as (W & Wd & V & C); [lia|by rewrite Hwd|].
  constructor; [done|by apply C|congruence|]. rewrite V, Hwd, Hv. f_equal. lia.
Qed.

Lemma shr1_is v m z : (0 < m)%nat -> vec2_is v m z -> exists v', vec2_shr v 1 = Some v' /\ vec2_is v' m (z / 2).
Proof.
  intros Hm [Hw Hc Hwd Hv]. destruct (vec2_shr_spec v 1 Hw Hc) as (r & E & W & Wd & C & V); [lia|].
  exists r. split; [done|]. constructor; [done|done|congruence|]. rewrite V, Hv. done.
Qed.

Section Division.
Context `{Host} (n : nat) (D b : Z).
Context (Hn : (0 < n)%nat) (Hh : host_ok n) (Hh1 : host_ok (n + 1)).
Context (HD : 0 <= D < 2 ^ Z.of_nat n) (Hb : 0 < b <= D).

(** The mask after [j] doublings. *)
Definition mask_at (j : nat) : Z := 2 ^ Z.of_nat j mod 2 ^ Z.of_nat n.

Lemma mask_next j : 2 * mask_at j mod 2 ^ Z.of_nat n = mask_at (S j).
Proof using. unfold mask_at. rewrite pow2_S. apply Z.mul_mod_idemp_r, Z.pow_nonzero; [done|apply Nat2Z.is_nonneg]. Qed.

Lemma pow_S_n : 2 ^ Z.of_nat (n + 1) = 2 * 2 ^ Z.of_nat n.
Proof using. rewrite Nat.add_1_r. apply pow2_S. Qed.

Lemma div_grow_spec dividend : vec2_is dividend (n + 1) D ->
  forall fuel j divtmp mask, (n < j + fuel)%nat -> (j <= n)%nat ->
  vec2_is divtmp (n + 1) (b * 2 ^ Z.of_nat j) -> vec2_is mask n (mask_at j) ->
  (j = 0%nat \/ b * 2 ^ Z.of_nat (j - 1) < D) ->
  exists k divtmp' mask', div_grow fuel dividend divtmp mask = (divtmp', mask') /\ (k <= n)%nat /\
    vec2_is divtmp' (n + 1) (b * 2 ^ Z.of_nat k) /\ vec2_is mask' n (mask_at k) /\
    D <= b * 2 ^ Z.of_nat k /\ (k = 0%nat \/ b * 2 ^ Z.of_nat (k - 1) < D).
Proof using Hn Hh Hh1 HD Hb.
  intros Hdiv. induction fuel as [|fuel IH]; intros j divtmp mask Hf Hj Ht Hm Hlow; [lia|].
  cbn [div_grow]. rewrite vec2_lt_spec by (by destruct Ht, Hdiv). rewrite (is_num _ _ _ Ht), (is_num _ _ _ Hdiv).
  destruct (Z.ltb_spec (b * 2 ^ Z.of_nat j) D) as [Hlt|Hge].
  - assert (Hjn : (j < n)%nat).
    { destruct (Nat.lt_ge_cases j n) as [|Hge]; [done|]. assert (2 ^ Z.of_nat n <= 2 ^ Z.of_nat j) by (apply Z.pow_le_mono_r; lia). nia. }
    apply (IH (S j)); [lia|lia| | |].
    + pose proof (shl1_is divtmp (n + 1) _ ltac:(lia) Hh1 Ht) as Hs.
      assert (E : 2 * (b * 2 ^ Z.of_nat j) mod 2 ^ Z.of_nat (n + 1) = b * 2 ^ Z.of_nat (S j)); [|by rewrite E in Hs].
      rewrite pow2_S, pow_S_n. rewrite Z.mod_small; [ring|]. pose proof (pow2_pos (Z.of_nat j)). nia.
    + pose proof (shl1_is _ _ _ Hn Hh Hm) as Hs. by rewrite mask_next in Hs.
    + right. by replace (S j - 1)%nat with j by lia.
  - by exists j, divtmp, mask.
Qed.

(** One iteration with the mask of weight [j] (or 0: [e] tells). *)
Definition mask_val (e : Z) (j : nat) : Z := e * 2 ^ Z.of_nat j.

Lemma div_shrink_spec divisor e : vec2_is divisor (wid_ divisor) b -> 0 <= e <= 1 ->
  forall fuel j dividend divtmp quotient mask R Q,
  (j < fuel)%nat ->
  vec2_is dividend (n + 1) R -> vec2_is quotient n (e * Q) -> 0 <= Q -> Q * b + R = D -> 0 <= R ->
  match j with
  | O => R < b /\ wid_ mask = n
  | S i => R < b * 2 ^ Z.of_nat j /\ vec2_is divtmp (n + 1) (b * 2 ^ Z.of_nat i) /\ vec2_is mask n (mask_val e i)
  end ->
  exists dividend' quotient' mask', div_shrink fuel dividend divisor divtmp quotient mask = Some (dividend', quotient', mask') /\
    wid_ mask' = n /\ vec2_is dividend' (n + 1) (D mod b) /\ vec2_is quotient' n (e * (D / b)).
Proof using Hn Hh Hh1 HD Hb.
  intros Hdv He. induction fuel as [|fuel IH]; intros j dividend divtmp quotient mask R Q Hf Hd Hq HQ HR HR0 Hj; [lia|].
  cbn [div_shrink]. rewrite vec2_ge_spec by (by destruct Hdv, Hd). rewrite (is_num _ _ _ Hd), (is_num _ _ _ Hdv).
  destruct (Z.leb_spec b R) as [Hge|Hlt].
  2: { assert (EQ : D / b = Q) by (symmetry; apply (Z.div_unique _ _ _ R); [lia|lia]).
    assert (ER : D mod b = R) by (symmetry; apply (Z.mod_unique _ _ Q); [lia|lia]).
    exists dividend, quotient, mask. rewrite EQ, ER. split; [done|]. split; [|done]. destruct j; [by destruct Hj|].
    destruct Hj as (_ & _ & Hm). by destruct Hm. }
  destruct j as [|i]; [destruct Hj; lia|]. destruct Hj as (Hlim & Ht & Hm). pose proof (pow2_pos (Z.of_nat i) ltac:(lia)) as Hpi.
  rewrite pow2_S in Hlim.
  assert (Hbi : b * 2 ^ Z.of_nat i < 2 ^ Z.of_nat (n + 1)) by (pose proof (vnum_range divtmp) as Hv; rewrite (is_num _ _ _ Ht), (is_wid _ _ _ Ht) in Hv; lia).
  rewrite vec2_le_spec by (destruct Ht, Hd; congruence || done). rewrite (is_num _ _ _ Ht), (is_num _ _ _ Hd). cbn [mbind option_bind].
  destruct (shr1_is divtmp (n + 1) _ ltac:(lia) Ht) as (divtmp' & Et & Ht'). destruct (shr1_is _ _ _ Hn Hm) as (mask' & Em & Hm').
  assert (Hstep : forall dividend1 quotient1 R1 Q1, vec2_is dividend1 (n + 1) R1 -> vec2_is quotient1 n (e * Q1) ->
    0 <= Q1 -> Q1 * b + R1 = D -> 0 <= R1 -> R1 < b * 2 ^ Z.of_nat i ->
    exists dividend' quotient' mask'', div_shrink fuel dividend1 divisor divtmp' quotient1 mask' = Some (dividend', quotient', mask'') /\
    wid_ mask'' = n /\ vec2_is dividend' (n + 1) (D mod b) /\ vec2_is quotient' n (e * (D / b))).
  { intros dividend1 quotient1 R1 Q1 H1 H2 H3 H4 H5 H6. apply (IH i _ _ _ _ R1 Q1); [lia|done..|]. destruct i as [|i].
    - split; [change (2 ^ Z.of_nat 0) with 1 in H6; lia|]. by destruct Hm'.
    - split; [done|]. split.
      + assert (E : b * 2 ^ Z.of_nat (S i) / 2 = b * 2 ^ Z.of_nat i); [|by rewrite E in Ht'].
        rewrite pow2_S. replace (b * (2 * 2 ^ Z.of_nat i)) with (b * 2 ^ Z.of_nat i * 2) by ring. apply Z.div_mul. lia.
      + assert (E : mask_val e (S i) / 2 = mask_val e i); [|by rewrite E in Hm']. unfold mask_val.
        rewrite pow2_S. replace (e * (2 * 2 ^ Z.of_nat i)) with (e * 2 ^ Z.of_nat i * 2) by ring. apply Z.div_mul. lia. }
  destruct (Z.leb_spec (b * 2 ^ Z.of_nat i) R) as [Hle|Hgt].
  - destruct (vec2_sub_spec dividend divtmp) as (d1 & -> & W1 & Wd1 & V1 & C1); [by destruct Hd|by destruct Ht|destruct Hd, Ht; congruence|].
    destruct (vec2_add_spec quotient mask) as (q1 & Eq1 & W2 & Wd2 & V2 & C2);
      [by destruct Hq|by destruct Hm|destruct Hq, Hm; congruence|by rewrite (is_wid _ _ _ Hq)|].
    cbn [mbind option_bind]. rewrite Eq1. cbn [mbind option_bind]. rewrite Et. cbn [mbind option_bind]. rewrite Em. cbn [mbind option_bind].
    destruct Hd as [Hd1 Hd2 Hd3 Hd4], Ht as [Ht1 Ht2 Ht3 Ht4], Hq as [Hq1 Hq2 Hq3 Hq4], Hm as [Hm1 Hm2 Hm3 Hm4].
    apply (Hstep _ _ (R - b * 2 ^ Z.of_nat i) (Q + 2 ^ Z.of_nat i)); [| |lia|lia|lia|lia].
    + constructor; [done|apply C1; [done..|lia]|congruence|]. rewrite V1, Hd3, Hd4, Ht4. apply Z.mod_small.
      rewrite pow_S_n. nia.
    + constructor; [done|apply C2; lia|congruence|]. rewrite V2, Hq3, Hq4, Hm4. unfold mask_val. rewrite <- Z.mul_add_distr_l.
      apply Z.mod_small. assert ((Q + 2 ^ Z.of_nat i) * b <= D) by lia. nia.
  - cbn [mbind option_bind]. rewrite Et. cbn [mbind option_bind]. rewrite Em. cbn [mbind option_bind].
    by apply (Hstep _ _ R Q).
Qed.
End Division.

Lemma div_mod_spec `{Host} n a b A B : host_ok n -> host_ok (n + 1) -> (0 < n)%nat -> vec2_is a n A -> vec2_is b (wid_ b) B -> 0 < B ->
  exists q r, div_mod a b = Some (q, r) /\
    vec2_is q n (if (B =? 1) && (2 ^ Z.of_nat (n - 1) <? A) then 0 else A / B) /\ vec2_is r n (A mod B).
Proof.
  intros Hh Hh1 Hn Ha Hb HB. unfold div_mod. rewrite (is_wid _ _ _ Ha).
  destruct (vec2_of_word_spec 0 n) as (Wz & Cz & Vz); [auto with word|done|apply pow2_pos; lia|].
  assert (Hz : vec2_is (vec2_of_word 0 n) n 0) by (by constructor).
  rewrite vec2_eq_spec, (is_num _ _ _ Hb), Vz by (done || by destruct Hb). destruct (Z.eqb_spec B 0); [lia|].
  rewrite vec2_lt_spec, (is_num _ _ _ Ha), (is_num _ _ _ Hb) by (by destruct Ha, Hb).
  pose proof (vnum_range a) as HA. rewrite (is_num _ _ _ Ha), (is_wid _ _ _ Ha) in HA.
  assert (Hpn : 2 ^ Z.of_nat n = 2 * 2 ^ Z.of_nat (n - 1)) by (rewrite <- pow2_S; do 2 f_equal; lia).
  pose proof (pow2_pos (Z.of_nat (n - 1)) ltac:(lia)) as Hp1.
  destruct (Z.ltb_spec A B) as [Hlt|Hge].
  { exists (vec2_of_word 0 n), a. split; [done|]. rewrite Z.div_small, Z.mod_small by lia. split; [|done].
    destruct (_ && _); done. }
  destruct (vec2_of_word_spec 1 n) as (W1 & C1 & V1); [unfold is_word; lia|done|apply Z.pow_gt_1; lia|].
  assert (Hsz : forall v z, vec2_is v (wid_ v) z -> z <= A -> vec2_is (vec2_resize v (n + 1)) (n + 1) z).
  { intros v z [H1 H2 H3 H4] Hz'. destruct (vec2_resize_spec v (n + 1) H1 H2 ltac:(lia)) as (W & Wd & Cl & V).
    - rewrite H4, pow_S_n. lia.
    - constructor; [done..|congruence]. }
  assert (HdA : vec2_is (vec2_resize a (n + 1)) (n + 1) A).
  { apply Hsz; [|lia]. rewrite (is_wid _ _ _ Ha). done. }
  assert (HdB : vec2_is (vec2_resize b (n + 1)) (n + 1) (B * 2 ^ Z.of_nat 0)).
  { change (2 ^ Z.of_nat 0) with 1. rewrite Z.mul_1_r. apply Hsz; [done|lia]. }
  assert (Hm0 : vec2_is (vec2_of_word 1 n) n (mask_at n 0)).
  { constructor; [done..|]. rewrite V1. unfold mask_at. rewrite Z.mod_small; [done|]. change (2 ^ Z.of_nat 0) with 1. lia. }
  destruct (div_grow_spec n A B Hn Hh Hh1 HA ltac:(lia) _ HdA (n + 1) 0 _ _ ltac:(lia) ltac:(lia) HdB Hm0 (or_introl eq_refl))
    as (k & divtmp & mask & -> & Hk & Ht & Hm & Hup & Hlow).
  set (e := if (k =? n)%nat then 0 else 1).
  assert (Hmv : mask_at n k = mask_val e k).
  { unfold mask_at, mask_val, e. destruct (Nat.eqb_spec k n) as [->|Hne].
    - rewrite Z.mod_same by (apply Z.pow_nonzero; lia). lia.
    - rewrite Z.mod_small; [lia|]. split; [apply Z.pow_nonneg; lia|apply Z.pow_lt_mono_r; lia]. }
  rewrite Hmv in Hm.
  assert (Hq0 : vec2_is (vec2_of_word 0 n) n (e * 0)) by (rewrite Z.mul_0_r; done).
  destruct (div_shrink_spec n A B Hn Hh Hh1 HA ltac:(lia) b e Hb ltac:(unfold e; destruct (_ =? _)%nat; lia) (n + 2) (S k)
    _ divtmp _ mask A 0 ltac:(lia) HdA Hq0 ltac:(lia) ltac:(lia) ltac:(lia))
    as (d' & q' & m' & -> & Wm & Hd' & Hq').
  { split; [|done]. rewrite pow2_S. nia. }
  cbn [mbind option_bind]. exists q', (vec2_resize d' (wid_ m')). split; [done|]. rewrite Wm. split.
  - assert (E : e * (A / B) = if (B =? 1) && (2 ^ Z.of_nat (n - 1) <? A) then 0 else A / B); [|by rewrite E in Hq'].
    unfold e. destruct (Nat.eqb_spec k n) as [->|Hne].
    + destruct Hlow as [?|Hlow]; [lia|]. assert (B = 1) as -> by nia. rewrite Z.mul_1_l in Hlow.
      rewrite (proj2 (Z.ltb_lt _ _) Hlow). done.
    + destruct (Z.eqb_spec B 1) as [->|]; cbn [andb]; [|lia].
      destruct (Z.ltb_spec (2 ^ Z.of_nat (n - 1)) A) as [Hbig|]; [|lia]. exfalso.
      assert (2 ^ Z.of_nat k <= 2 ^ Z.of_nat (n - 1)) by (apply Z.pow_le_mono_r; lia). lia.
  - destruct Hd' as [H1 H2 H3 H4]. pose proof (Z.mod_pos_bound A B HB).
    destruct (vec2_resize_spec d' n H1 H2 Hn) as (W & Wd & Cl & V); [rewrite H4; lia|]. constructor; [done..|congruence].
Qed.

(** ** Conversions *)

Lemma pval_extend p n m : (n <= m)%nat -> (forall i, (n <= i < m)%nat -> pbit p i = false) -> pval p m = pval p n.
Proof.
  induction m as [|m IH]; intros Hle Hz; [by assert (n = 0%nat) as -> by lia|].
  destruct (Nat.eq_dec n (S m)) as [->|]; [done|]. unfold pval in *. rewrite Zbits_S, IH, Hz by (intros; apply Hz || idtac; lia). simpl. lia.
Qed.

Lemma vec2_copy_vec4_is v : vec_wf v -> (0 < size v)%nat -> vec2_is (vec2_copy_vec4 v) (size v) (ones_val v (size v)).
Proof.
  intros Hv H0. unfold vec2_copy_vec4. pose proof (word_count_pos _ H0).
  rewrite (proj2 (Nat.eqb_neq _ _)) by lia. pose proof (subarray_value v 0 (size v) true Hv H0 ltac:(lia)) as Hs.
  rewrite andb_false_r in Hs. destruct Hs as (val & -> & L & W & B). cbn [from_option id].
  assert (Hval : pval val (size v) = ones_val v (size v)).
  { apply Zbits_ext. intros i Hi. rewrite B, (proj2 (Nat.ltb_lt _ _)) by done. done. }
  constructor; [split; cbn [vec_ wid_]; [lia|done]| |done|exact Hval].
  unfold clean, words_val, vnum. cbn [vec_ wid_]. apply pval_extend; [apply word_count_bounds|].
  intros i Hi. rewrite B. by rewrite (proj2 (Nat.ltb_ge _ _)) by lia.
Qed.

Lemma vec2_of_vec4_is v : vec_wf v -> (0 < size v)%nat ->
  if any_xz v then vec2_of_vec4 v true = vec2_null else vec2_is (vec2_of_vec4 v true) (size v) (vval v).
Proof.
  intros Hv H0. unfold vec2_of_vec4. rewrite has_xz_spec by done. cbn [andb]. destruct (any_xz v) eqn:E; [done|].
  rewrite vval_ones by done. by apply vec2_copy_vec4_is.
Qed.

Lemma vector2_to_vector4_spec v n : let r := vector2_to_vector4 v n in
  vec_wf r /\ size r = n /\ forall i, (i < n)%nat -> value r i = if vec2_value v i then BIT4_1 else BIT4_0.
Proof.
  cbv zeta. unfold vector2_to_vector4.
  pose proof (for_loop_ind (fun k r => vec_wf r /\ size r = n /\
    forall i, (i < k)%nat -> value r i = if vec2_value v i then BIT4_1 else BIT4_0) n 0
    (fun idx res => set_bit res idx (if vec2_value v idx then BIT4_1 else BIT4_0)) (vec4_fill n BIT4_X)) as H.
  apply H; clear H.
  - split; [apply vec4_fill_wf|]. split; [done|lia].
  - intros k r Hk (Wr & Sr & Br). split; [apply set_bit_wf; [done|lia]|]. split; [by rewrite set_bit_size|].
    intros i Hi. rewrite set_bit_value by (done || lia). destruct (Nat.eqb_spec i k) as [->|]; [done|]. apply Br. lia.
Qed.

Lemma vector2_to_vector4_num v n : let r := vector2_to_vector4 v n in
  vec_wf r /\ size r = n /\ any_xz r = false /\ vval r = vnum v mod 2 ^ Z.of_nat n.
Proof.
  cbv zeta. destruct (vector2_to_vector4_spec v n) as (W & E & B). split; [done|]. split; [done|].
  pose proof (number_bits (vector2_to_vector4 v n) (vnum v)) as H. rewrite E in H. apply H. intros i Hi.
  rewrite B, vec2_value_num by done. by destruct (Z.testbit _ _).
Qed.

(** ** Properties *)

(** C39. [/] and [%] of two-state vectors of any width are the quotient and the
    remainder of the integers, whatever the widths of the divisor; they stop the
    program just for the divisor 0.  The exception: a dividend above half of the
    range divided by 1 gives the quotient 0. *)
Theorem vec2_div_mod_correct `{Host} n a b A B :
  host_ok n -> host_ok (n + 1) -> (0 < n)%nat -> vec2_is a n A -> vec2_is b (wid_ b) B ->
  if B =? 0 then vec2_div a b = None /\ vec2_mod a b = None
  else exists q r, vec2_div a b = Some q /\ vec2_mod a b = Some r /\ vec2_is r n (A mod B) /\
    vec2_is q n (if (B =? 1) && (2 ^ Z.of_nat (n - 1) <? A) then 0 else A / B).
Proof.
  intros Hh Hh1 Hn Ha Hb. pose proof (vnum_range b) as HB. rewrite (is_num _ _ _ Hb) in HB.
  unfold vec2_div, vec2_mod. destruct (Z.eqb_spec B 0) as [E|E].
  - assert (Ez : div_mod a b = None); [|by rewrite Ez]. unfold div_mod. rewrite (is_wid _ _ _ Ha).
    destruct (vec2_of_word_spec 0 n) as (Wz & Cz & Vz); [auto with word|done|apply pow2_pos; lia|].
    rewrite vec2_eq_spec, (is_num _ _ _ Hb), Vz by (done || by destruct Hb). by rewrite E.
  - destruct (div_mod_spec n a b A B Hh Hh1 Hn Ha Hb ltac:(lia)) as (q & r & -> & Hq & Hr). by exists q, r.
Qed.

(** C40. Two-state vectors of one width [n].  [+=], [-=], unary [-], [*] and [pow] are
    the operations on integers modulo [2^n]; [<<=] multiplies by a power of 2 modulo
    [2^n]; [>>=] divides by one, whatever the count, but fails its assertion just
    when a vector of less than a word is shifted by more than its width and less than
    a word; [<], [>], [>=], [==] and [<=] are those of the integers.  Where [n] is a
    multiple of 64 the code shifts a word by 64, which C++ leaves undefined: for
    those widths it is assumed that the host gives all ones ([host_ok]). *)
Theorem vec2_arith_correct `{Host} n a b A B k :
  host_ok n -> (0 < n)%nat -> vec2_is a n A -> vec2_is b n B ->
  let M := 2 ^ Z.of_nat n in
  (exists r, vec2_add a b = Some r /\ vec2_is r n ((A + B) mod M)) /\
  (exists r, vec2_sub a b = Some r /\ vnum r = (A - B) mod M /\ (B <= A -> clean r)) /\
  (exists r, vec2_neg a = Some r /\ vec2_is r n ((- A) mod M)) /\
  (exists r, vec2_mul a b = Some r /\ wid_ r = n /\ vnum r = (A * B) mod M) /\
  (exists r, vec2_pow a b = Some r /\ wid_ r = n /\ vnum r = A ^ B mod M) /\
  vnum (vec2_shl a k) = (A * 2 ^ Z.of_nat k) mod M /\
  (if (n <? k)%nat && (k <? 64)%nat then vec2_shr a k = None
   else exists r, vec2_shr a k = Some r /\ vec2_is r n (A / 2 ^ Z.of_nat k)) /\
  vec2_lt a b = (A <? B) /\ vec2_gt a b = (B <? A) /\ vec2_ge a b = (B <=? A) /\ vec2_eq a b = (A =? B) /\
  vec2_le a b = Some (A <=? B).
Proof.
  intros Hh Hn [Wa Ca Da Va] [Wb Cb Db Vb]. cbv zeta.
  destruct (vec2_add_spec a b Wa Wb ltac:(congruence) ltac:(by rewrite Da)) as (r1 & E1 & W1 & D1 & V1 & C1).
  destruct (vec2_sub_spec a b Wa Wb ltac:(congruence)) as (r2 & E2 & W2 & D2 & V2 & C2).
  destruct (vec2_neg_spec a Wa ltac:(lia) ltac:(by rewrite Da)) as (r3 & E3 & W3 & D3 & C3 & V3).
  destruct (vec2_mul_spec a b Wa Wb ltac:(congruence) ltac:(lia)) as (r4 & E4 & W4 & D4 & V4).
  destruct (vec2_pow_spec a b Wa ltac:(lia) Wb Cb) as (r5 & E5 & W5 & D5 & V5).
  destruct (vec2_shl_spec a k Wa ltac:(lia) ltac:(by rewrite Da)) as (_ & _ & V6 & _).
  rewrite vec2_lt_spec, vec2_gt_spec, vec2_ge_spec, vec2_eq_spec, vec2_le_spec by (done || congruence).
  rewrite Va, Vb, Da in *.
  split; [exists r1; split; [done|]; constructor; auto; apply C1; lia|].
  split; [exists r2; auto|].
  split; [exists r3; split; [done|]; by constructor|].
  split; [by exists r4|]. split; [by exists r5|]. split; [done|]. split; [|done].
  destruct (Nat.ltb_spec n k), (Nat.ltb_spec k 64); cbn [andb]; [apply vec2_shr_fails; lia|..];
    (destruct (vec2_shr_spec a k Wa Ca ltac:(lia)) as (r & E & W & D & C & V); exists r; split; [done|];
     constructor; [done..|congruence|congruence]).
Qed.

(** ** Witnesses and what the source does in corner cases *)

(** A host that takes shift counts modulo 64. *)
Definition host64 : Host := {| ones_shr_64 := ones64 |}.

Definition vec2_of_Z (n : nat) (z : Z) : vvp_vector2_t :=
  Vec2 (map (fun k => Z.shiftr (z mod 2 ^ Z.of_nat n) (64 * Z.of_nat k) mod 2 ^ 64) (seq 0 (word_count n))) n.

(** Decided by evaluation. *)
Lemma vec2_is_dec v n z :
  (word_count (wid_ v) <=? length (vec_ v))%nat && forallb (fun w => (0 <=? w) && (w <? 2 ^ 64)) (vec_ v) &&
  (words_val v =? z) && (vnum v =? z) && (wid_ v =? n)%nat = true -> vec2_is v n z.
Proof.
  rewrite !andb_true_iff. intros [[[[H1%Nat.leb_le H2] H3%Z.eqb_eq] H4%Z.eqb_eq] H5%Nat.eqb_eq].
  constructor; [split; [done|]|unfold clean; congruence|done|done].
  apply List.Forall_forall. intros w Hw. rewrite forallb_forall in H2. specialize (H2 w Hw).
  unfold is_word. lia.
Qed.

Lemma vec2_div_mod_correct_witness :
  (exists q r, vec2_div (H := host64) (vec2_of_Z 128 (2 ^ 127 + 7)) (vec2_of_Z 128 3) = Some q /\
    vec2_mod (H := host64) (vec2_of_Z 128 (2 ^ 127 + 7)) (vec2_of_Z 128 3) = Some r /\
    vec2_is r 128 ((2 ^ 127 + 7) mod 3) /\ vec2_is q 128 ((2 ^ 127 + 7) / 3)) /\
  vec2_div (H := host64) (vec2_of_Z 100 5) (vec2_of_Z 100 0) = None.
Proof.
  split; [|vm_compute; reflexivity].
  apply (vec2_div_mod_correct (H := host64) 128 (vec2_of_Z 128 (2 ^ 127 + 7)) (vec2_of_Z 128 3) (2 ^ 127 + 7) 3);
    [by right|by right|lia|apply vec2_is_dec; vm_compute; reflexivity..].
Defined.

Lemma vec2_arith_correct_witness :
  exists r, vec2_mul (vec2_of_Z 100 (2 ^ 99 + 3)) (vec2_of_Z 100 5) = Some r /\ vnum r = 2 ^ 99 + 15.
Proof.
  destruct (vec2_arith_correct (H := host64) 100 (vec2_of_Z 100 (2 ^ 99 + 3)) (vec2_of_Z 100 5) (2 ^ 99 + 3) 5 1)
    as (_ & _ & _ & (r & E & _ & V) & _); [by right|lia|apply vec2_is_dec; vm_compute; reflexivity..|].
  exists r. split; [exact E|]. rewrite V. vm_compute. reflexivity.
Defined.

(** Dividing by 1 a number above half of the range gives 0. *)
Lemma wide_division_by_one : option_map vnum (vec2_div (H := host64) (vec2_of_Z 100 (2 ^ 99 + 7)) (vec2_of_Z 100 1)) = Some 0.
Proof. vm_compute. reflexivity. Qed.

(** The assertion of [>>=] fails for a narrow vector shifted by more than its width. *)
Lemma narrow_shift_fails : vec2_shr (vec2_of_Z 10 5) 11 = None.
Proof. vm_compute. reflexivity. Qed.

(** The bits of a part are those of the source only where the fresh words hold 0. *)
Lemma part_of_fresh_words : vnum (vec2_part [1] (vec2_of_Z 10 0) 0 4) = 1.
Proof. vm_compute. reflexivity. Qed.
