(* ===== verification/Bits.v ===== *)
(** * Bits: the values of Verilog expressions, as lists of bits

    The abstract view of a [vvp_vector4_t]: the list of its bits, least
    significant first.  The operators of the language are functions of such lists;
    [vec_is] relates them to the run-time vectors. *)

From S2P Require Import Prelude FourState Vector4 Vector4Value Vector4Ops Vector4Parts Vector4Copy.
From S2P Require Import Vector4Arith Vector4Logic Vector4Reduce Vector4Conv Vector4Array.
Import Bit4.

Open Scope ivl_scope.

Definition bits : Type := list vvp_bit4_t.

(** Decides the tests on indexes that [lia] settles. *)
Ltac decide_nat :=
  repeat match goal with
  | |- context [(?a <=? ?b)%nat] => first [rewrite (proj2 (Nat.leb_le a b)) by lia | rewrite (proj2 (Nat.leb_gt a b)) by lia]
  | |- context [(?a <? ?b)%nat] => first [rewrite (proj2 (Nat.ltb_lt a b)) by lia | rewrite (proj2 (Nat.ltb_ge a b)) by lia]
  | |- context [(?a =? ?b)%nat] => first [rewrite (proj2 (Nat.eqb_eq a b)) by lia | rewrite (proj2 (Nat.eqb_neq a b)) by lia]
  end; cbn [andb orb negb].

(** Bit [i]; x beyond the end, as [value] has it. *)
Definition bit_at (l : bits) (i : nat) : vvp_bit4_t := nth i l BIT4_X.

Definition is_one (b : vvp_bit4_t) : bool := bool_decide (b = BIT4_1).

Definition has_unknown (l : bits) : bool := existsb bit4_is_xz l.

Definition xs (n : nat) : bits := repeat BIT4_X n.

Definition map_bits (n : nat) (f : nat -> vvp_bit4_t) : bits := map f (seq 0 n).

Definition bits_of_Z (n : nat) (z : Z) : bits := map_bits n (fun i => bit4_of_bool (Z.testbit z (Z.of_nat i))).

(** The number of the bits that are 1, in two's complement when [sg]. *)
Definition unum (l : bits) : Z := Zbits (fun i => is_one (bit_at l i)) (length l).

Definition num (sg : bool) (l : bits) : Z :=
  if sg && is_one (bit_at l (length l - 1)) then unum l - 2 ^ Z.of_nat (length l) else unum l.

(** ** The operators *)

(** The result [z] of arithmetic at width [n], x for unknown operands. *)
Definition arith (n : nat) (unknown : bool) (z : Z) : bits := if unknown then xs n else bits_of_Z n z.

Definition arith2 (sg : bool) (f : Z -> Z -> Z) (l r : bits) : bits :=
  arith (length l) (has_unknown l || has_unknown r) (f (num sg l) (num sg r)).

Definition zip_bits (f : vvp_bit4_t -> vvp_bit4_t -> vvp_bit4_t) (l r : bits) : bits :=
  map_bits (length l) (fun i => f (bit_at l i) (bit_at r i)).

Definition not_bits (l : bits) : bits := map_bits (length l) (fun i => bit4_not (bit_at l i)).

(** Extension or truncation to [n] bits. *)
Definition fit (sg : bool) (n : nat) (l : bits) : bits :=
  map_bits n (fun i => if (i <? length l)%nat then bit_at l i else if sg then bit_at l (length l - 1) else BIT4_0).

(** Some pair of bits at the indexes of [l] satisfies [f]. *)
Definition some_pair (f : vvp_bit4_t -> vvp_bit4_t -> bool) (l r : bits) : bool :=
  existsb (fun i => f (bit_at l i) (bit_at r i)) (seq 0 (length l)).

Definition known_differ (a b : vvp_bit4_t) : bool :=
  negb (bit4_is_xz a) && negb (bit4_is_xz b) && negb (bool_decide (a = b)).
Definition unequal (a b : vvp_bit4_t) : bool := negb (bool_decide (a = b)).
Definition unknown (a b : vvp_bit4_t) : bool := bit4_is_xz a || bit4_is_xz b.
Definition left_unknown (a b : vvp_bit4_t) : bool := negb (bit4_is_xz b) && bit4_is_xz a.

(** [==], [===], [==?] and the order. *)
Definition eq_bit (l r : bits) : vvp_bit4_t :=
  if some_pair known_differ l r then BIT4_0 else if some_pair unknown l r then BIT4_X else BIT4_1.
Definition case_eq_bit (l r : bits) : vvp_bit4_t := if some_pair unequal l r then BIT4_0 else BIT4_1.
Definition wild_eq_bit (l r : bits) : vvp_bit4_t :=
  if some_pair known_differ l r then BIT4_0 else if some_pair left_unknown l r then BIT4_X else BIT4_1.

(** The wild cards of [casex] and [casez]. *)
Definition z_differ (a b : vvp_bit4_t) : bool :=
  negb (bool_decide (a = b)) && negb (bool_decide (b = BIT4_Z)) && negb (bool_decide (a = BIT4_Z)).
Definition casex_bit (l r : bits) : vvp_bit4_t := if some_pair known_differ l r then BIT4_0 else BIT4_1.
Definition casez_bit (l r : bits) : vvp_bit4_t := if some_pair z_differ l r then BIT4_0 else BIT4_1.

Definition order_bit (sg : bool) (f : Z -> Z -> bool) (l r : bits) : vvp_bit4_t :=
  if has_unknown l || has_unknown r then BIT4_X else bit4_of_bool (f (num sg l) (num sg r)).

(** The conditional operator with an unknown condition, and the cast to two states. *)
Definition blend_bit (a b : vvp_bit4_t) : vvp_bit4_t := if decide (a = b) then a else BIT4_X.
Definition two_state (l : bits) : bits := map_bits (length l) (fun i => if is_one (bit_at l i) then BIT4_1 else BIT4_0).

(** The shifts: [k] bits, the bit shifted in. *)
Definition shl_bits (k : Z) (l : bits) : bits :=
  map_bits (length l) (fun i => if Z.of_nat i <? k then BIT4_0 else bit_at l (Z.to_nat (Z.of_nat i - k))).
Definition shr_bits (fill : vvp_bit4_t) (k : Z) (l : bits) : bits :=
  map_bits (length l) (fun i =>
    if Z.of_nat i + k <? Z.of_nat (length l) then bit_at l (Z.to_nat (Z.of_nat i + k)) else fill).

(** The part of [wid] bits at [base]; x outside of the vector. *)
Definition part_bits (base : Z) (wid : nat) (l : bits) : bits :=
  map_bits wid (fun i => if 0 <=? base + Z.of_nat i then bit_at l (Z.to_nat (base + Z.of_nat i)) else BIT4_X).

(** ** The relation to vectors *)

Record vec_is (v : vvp_vector4_t) (l : bits) : Prop := VecIs {
  is_wf : vec_wf v;
  is_size : size v = length l;
  is_bits : forall i, value v i = bit_at l i;
}.

Lemma bit_at_beyond l i : (length l <= i)%nat -> bit_at l i = BIT4_X.
Proof. apply nth_overflow. Qed.

Lemma bit_at_map n f i : (i < n)%nat -> bit_at (map_bits n f) i = f i.
Proof.
  intros Hi. unfold bit_at, map_bits. rewrite (nth_indep _ _ (f 0%nat)) by (rewrite length_map, length_seq; lia).
  rewrite map_nth, seq_nth by done. done.
Qed.

Lemma length_map_bits n f : length (map_bits n f) = n.
Proof. unfold map_bits. by rewrite length_map, length_seq. Qed.

Lemma length_xs n : length (xs n) = n.
Proof. apply repeat_length. Qed.

Lemma length_bits_of_Z n z : length (bits_of_Z n z) = n.
Proof. apply length_map_bits. Qed.

Lemma length_arith n u z : length (arith n u z) = n.
Proof. destruct u; [apply length_xs|apply length_bits_of_Z]. Qed.

Lemma length_fit sg n l : length (fit sg n l) = n.
Proof. apply length_map_bits. Qed.

Lemma length_zip f l r : length (zip_bits f l r) = length l.
Proof. apply length_map_bits. Qed.

Lemma length_arith2 sg f l r : length (arith2 sg f l r) = length l.
Proof. apply length_arith. Qed.

Lemma length_not l : length (not_bits l) = length l.
Proof. apply length_map_bits. Qed.

Lemma length_two_state l : length (two_state l) = length l.
Proof. apply length_map_bits. Qed.

Lemma length_shl k l : length (shl_bits k l) = length l.
Proof. apply length_map_bits. Qed.

Lemma length_shr c k l : length (shr_bits c k l) = length l.
Proof. apply length_map_bits. Qed.

Lemma length_part base wid l : length (part_bits base wid l) = wid.
Proof. apply length_map_bits. Qed.

Create HintDb bits_len.
#[export] Hint Rewrite @repeat_length length_map_bits length_xs length_bits_of_Z length_arith length_fit length_zip length_arith2 : bits_len.
#[export] Hint Rewrite length_not length_two_state length_shl length_shr length_part : bits_len.

(** Evaluates a bit of a list of bits given by its indexes. *)
Ltac bits_index :=
  repeat (first
    [ progress autorewrite with bits_len
    | match goal with
      | |- context [(?a <=? ?b)%nat] => first [rewrite (proj2 (Nat.leb_le a b)) by lia | rewrite (proj2 (Nat.leb_gt a b)) by lia]
      | |- context [(?a <? ?b)%nat] => first [rewrite (proj2 (Nat.ltb_lt a b)) by lia | rewrite (proj2 (Nat.ltb_ge a b)) by lia]
      | |- context [?a <? ?b] => first [rewrite (proj2 (Z.ltb_lt a b)) by lia | rewrite (proj2 (Z.ltb_ge a b)) by lia]
      | |- context [?a <=? ?b] => first [rewrite (proj2 (Z.leb_le a b)) by lia | rewrite (proj2 (Z.leb_gt a b)) by lia]
      end
    | rewrite bit_at_map by lia ]; cbn [andb orb negb]).

Lemma bit_at_xs n i : bit_at (xs n) i = BIT4_X.
Proof.
  destruct (Nat.lt_ge_cases i n); [|apply bit_at_beyond; by rewrite length_xs].
  unfold bit_at, xs. by apply nth_repeat_lt.
Qed.

Lemma bits_eq l r : length l = length r -> (forall i, (i < length l)%nat -> bit_at l i = bit_at r i) -> l = r.
Proof. intros Hl H. by apply (nth_ext _ _ BIT4_X BIT4_X). Qed.

Lemma vec_is_intro v l : vec_wf v -> size v = length l ->
  (forall i, (i < length l)%nat -> value v i = bit_at l i) -> vec_is v l.
Proof.
  intros W S B. constructor; [done|done|]. intros i. destruct (Nat.lt_ge_cases i (length l)); [by apply B|].
  rewrite value_beyond by lia. by rewrite bit_at_beyond.
Qed.

Lemma vec_is_map v n f : vec_wf v -> size v = n -> (forall i, (i < n)%nat -> value v i = f i) -> vec_is v (map_bits n f).
Proof.
  intros W S B. apply vec_is_intro; [done|by rewrite length_map_bits|]. rewrite length_map_bits. intros i Hi.
  rewrite bit_at_map by done. by apply B.
Qed.

Lemma vec_is_bits_of v : vec_wf v -> vec_is v (bits_of v).
Proof. intros W. by apply vec_is_map. Qed.

Lemma bits_of_is v l : vec_is v l -> bits_of v = l.
Proof.
  intros [W S B]. apply bits_eq; [unfold bits_of; by rewrite length_map, length_seq|].
  unfold bits_of. rewrite length_map, length_seq. intros i Hi. rewrite (bit_at_map (size v) (value v)) by done. apply B.
Qed.

Lemma length_bits_of v : length (bits_of v) = size v.
Proof. unfold bits_of. by rewrite length_map, length_seq. Qed.

(** [eeq] compares the bits. *)
Lemma eeq_bits_of a b : vec_wf a -> vec_wf b -> (0 < size a)%nat -> eeq a b = true <-> bits_of a = bits_of b.
Proof.
  intros Wa Wb Hpos. destruct (vec4_tests_correct a b Wa Wb Hpos) as (_ & -> & _). split.
  - intros [E Hv]. unfold bits_of. rewrite <- E. apply map_ext_in. intros i Hi%in_seq. apply Hv. lia.
  - intros Hb. split; [by rewrite <- !length_bits_of, Hb|]. intros i _.
    by rewrite (is_bits a _ (vec_is_bits_of a Wa)), Hb, (is_bits b _ (vec_is_bits_of b Wb)).
Qed.

Lemma vec_is_fill n c : vec_is (vec4_fill n c) (repeat c n).
Proof.
  apply vec_is_intro; [apply vec4_fill_wf|by rewrite repeat_length|]. rewrite repeat_length. intros i Hi.
  rewrite vec4_fill_value by done. symmetry. by apply nth_repeat_lt.
Qed.

Lemma vec_is_bit c : vec_is (vec4_fill 1 c) [c].
Proof. apply (vec_is_fill 1). Qed.

Lemma vec_is_ext v l r : vec_is v l -> l = r -> vec_is v r.
Proof. by intros H ->. Qed.

(** ** Numbers *)

Lemma unum_range l : 0 <= unum l < 2 ^ Z.of_nat (length l).
Proof. apply Zbits_range. Qed.

Lemma any_xz_is v l : vec_is v l -> any_xz v = has_unknown l.
Proof.
  intros [W S B]. apply eq_true_iff_eq. unfold any_xz, has_unknown. rewrite !existsb_exists. split.
  - intros (i & Hi & Hx). apply in_seq in Hi. exists (bit_at l i). split; [|by rewrite <- B].
    apply nth_In. lia.
  - intros (b & Hb & Hx). apply (In_nth _ _ BIT4_X) in Hb as (i & Hi & <-). exists i. rewrite in_seq.
    split; [lia|]. by rewrite B.
Qed.

Lemma ones_val_is v l : vec_is v l -> ones_val v (size v) = unum l.
Proof. intros [W S B]. unfold ones_val, unum. rewrite S. apply Zbits_ext. intros i _. unfold is_bit, is_one. by rewrite B. Qed.

Lemma num_of_is sg v l : vec_is v l -> num_of sg v = num sg l.
Proof.
  intros H. unfold num_of, num. rewrite (ones_val_is v l H). destruct H as [W S B]. rewrite S.
  unfold is_bit, is_one. by rewrite B.
Qed.

Lemma vval_is v l : vec_is v l -> has_unknown l = false -> vval v = unum l.
Proof. intros H Hx. rewrite vval_ones; [by apply ones_val_is|by rewrite (any_xz_is v l)]. Qed.

Lemma num_mod sg l n : (n <= length l)%nat -> num sg l mod 2 ^ Z.of_nat n = unum l mod 2 ^ Z.of_nat n.
Proof.
  intros Hn. unfold num. destruct (_ && _); [|done].
  replace (2 ^ Z.of_nat (length l)) with (2 ^ Z.of_nat (length l - n) * 2 ^ Z.of_nat n) by (rewrite <- Z.pow_add_r by lia; f_equal; lia).
  rewrite <- Z.add_opp_r, <- Z.mul_opp_l. apply Z_mod_plus_full.
Qed.

Lemma bits_of_Z_mod n z w : z mod 2 ^ Z.of_nat n = w mod 2 ^ Z.of_nat n -> bits_of_Z n z = bits_of_Z n w.
Proof.
  intros H. apply bits_eq; [by rewrite !length_bits_of_Z|]. rewrite length_bits_of_Z. intros i Hi.
  unfold bits_of_Z. rewrite !bit_at_map by done. f_equal.
  rewrite <- (Z.mod_pow2_bits_low z (Z.of_nat n)), <- (Z.mod_pow2_bits_low w (Z.of_nat n)) by lia. by rewrite H.
Qed.

Lemma arith_is n u z v : arith_result u n z v -> vec_is v (arith n u z).
Proof.
  intros (W & S & H). destruct u; cbn [arith].
  - apply vec_is_intro; [done|by rewrite length_xs|]. rewrite length_xs. intros i Hi. rewrite bit_at_xs. by apply H.
  - destruct H as [Hx Hv]. apply vec_is_map; [done|done|]. intros i Hi. rewrite any_xz_false in Hx.
    rewrite known_bit by (apply Hx; lia). f_equal. rewrite <- (ones_bit v (size v)) by lia.
    rewrite <- vval_ones by (by apply any_xz_false). rewrite Hv, Z.mod_pow2_bits_low by lia. done.
Qed.

Lemma has_unknown_false l : has_unknown l = false <-> forall i, (i < length l)%nat -> bit4_is_xz (bit_at l i) = false.
Proof.
  unfold has_unknown. rewrite <- not_true_iff_false, existsb_exists. split.
  - intros H i Hi. apply not_true_iff_false. intros Hx. apply H. exists (bit_at l i). split; [by apply nth_In|done].
  - intros H (b & Hb & Hx). apply (In_nth _ _ BIT4_X) in Hb as (i & Hi & <-). specialize (H i Hi). unfold bit_at in H. congruence.
Qed.

Lemma known_bit_at l i : has_unknown l = false -> (i < length l)%nat -> bit_at l i = bit4_of_bool (Z.testbit (unum l) (Z.of_nat i)).
Proof.
  intros H Hi. rewrite has_unknown_false in H. specialize (H i Hi). unfold unum. rewrite Zbits_testbit, Nat2Z.id by lia.
  rewrite (proj2 (Z.ltb_lt _ _)) by lia. cbn [andb]. unfold is_one. by destruct (bit_at l i).
Qed.

Lemma has_unknown_bits_of_Z n z : has_unknown (bits_of_Z n z) = false.
Proof.
  apply has_unknown_false. rewrite length_bits_of_Z. intros i Hi. unfold bits_of_Z. rewrite bit_at_map by done.
  by destruct (Z.testbit _ _).
Qed.

Lemma unum_bits_of_Z n z : unum (bits_of_Z n z) = z mod 2 ^ Z.of_nat n.
Proof.
  unfold unum. rewrite length_bits_of_Z, <- Zbits_of_Z. apply Zbits_ext. intros i Hi. unfold bits_of_Z.
  rewrite bit_at_map by done. by destruct (Z.testbit z _).
Qed.
