(* ===== verification/Functor.v ===== *)
(** * Functor: what the functors of the simulated net list share (vvp/vvp_net.cc)

    A functor is a record of its members; receiving a value gives its new state
    and the vector it sends, if any.  [None] is a failed assertion or a stop of
    the program. *)

From S2P Require Import Prelude FourState Vector4 Vector4Ops Vector2.
Import Bit4.

Open Scope ivl_scope.

(** [recv_vec4_pv_]: a part of a vector of [vwid] bits, the rest undriven, as
    the full vector that is passed to [recv_vec4]. *)
Definition recv_vec4_pv_ {A} (recv_vec4 : vvp_vector4_t -> option A) (bit : vvp_vector4_t) (base vwid : nat) : option A :=
  if (base + size bit <=? vwid)%nat then
    '(tmp, _) ← set_vec (vec4_fill vwid BIT4_Z) base bit;
    recv_vec4 tmp
  else None.

(** [for (idx < wid) { vval.set_bit(idx, val&1); val >>= 1; }] *)
Definition bits_out (wid : nat) (val : Z) : vvp_vector4_t :=
  fst (for_loop wid 0 (fun idx '(vval, val) =>
    (set_bit vval idx (if negb (val .& 1 =? 0) then BIT4_1 else BIT4_0), Z.shiftr val 1)) (vec4_fill wid BIT4_X, val)).

(** [vvp_vector4_t(size, double)] on an integral double below [2^62]: the branch
    that converts with [lround]. *)
Definition vec4_of_double (size_ : nat) (val : Z) : vvp_vector4_t :=
  let v := vec4_fill size_ BIT4_0 in
  let v := if val <? 0 then invert v else v in
  Vec4 size_ ((abits v).[0 <- u64 val]) (bbits v).

(** A bit as a condition of C. *)
Definition bit4_true (b : vvp_bit4_t) : bool := negb (bit4_to_int b =? 0).
