(* ===== verification/ArithFun.v ===== *)
(** * ArithFun: the arithmetic functors (vvp/arith.h, vvp/arith.cc)

    Every functor keeps its operands and sends its result each time one of them
    arrives; [arith_recv] is that common part and the [..._out] definitions are
    the rest of each [recv_vec4].  Up to 64 bits the division works on native
    words, beyond on two-state vectors.  Real operands are not modelled. *)

From S2P Require Import Prelude FourState Vector4 Vector4Ops Vector2 Functor.
Import Bit4.

Open Scope ivl_scope.

Record vvp_arith_ : Type := Arith {
  arith_wid_ : nat;
  op_a_ : vvp_vector4_t;
  op_b_ : vvp_vector4_t;
  x_val_ : vvp_vector4_t;
}.

(** [vvp_arith_(wid)] *)
Definition arith_new (wid : nat) : vvp_arith_ :=
  let all b := for_loop wid 0 (fun idx v => set_bit v idx b) (vec4_fill wid BIT4_X) in
  Arith wid (all BIT4_Z) (all BIT4_Z) (all BIT4_X).

Definition dispatch_operand_ (st : vvp_arith_) (port : nat) (bit : vvp_vector4_t) : option vvp_arith_ :=
  match port with
  | 0%nat => Some (Arith (arith_wid_ st) bit (op_b_ st) (x_val_ st))
  | 1%nat => Some (Arith (arith_wid_ st) (op_a_ st) bit (x_val_ st))
  | _ => None
  end.

(** [recv_vec4]: store the operand, then send [out] of the operands. *)
Definition arith_recv (out : vvp_arith_ -> option vvp_vector4_t) (st : vvp_arith_) (port : nat) (bit : vvp_vector4_t)
    : option (vvp_arith_ * vvp_vector4_t) :=
  st ← dispatch_operand_ st port bit;
  o ← out st;
  Some (st, o).

Definition arith_recv_pv (out : vvp_arith_ -> option vvp_vector4_t) (st : vvp_arith_) (port : nat) (bit : vvp_vector4_t)
    (base vwid : nat) : option (vvp_arith_ * vvp_vector4_t) :=
  recv_vec4_pv_ (arith_recv out st port) bit base vwid.

(** ** Absolute value, conversion *)

(** [vvp_arith_abs::recv_vec4] *)
Definition abs_out (bit : vvp_vector4_t) : option vvp_vector4_t :=
  let out := vec4_fill (size bit) BIT4_0 in
  cmp ← compare_gtge_signed bit out BIT4_1;
  Some (match cmp with
        | BIT4_1 => bit
        | BIT4_0 => vec4_incr (copy_inverted_from_ bit) 1
        | _ => vec4_fill (size bit) BIT4_X
        end).

(** [vvp_arith_cast_vec2::recv_vec4] *)
Definition cast_vec2_out (wid : nat) (bit : vvp_vector4_t) : vvp_vector4_t :=
  vector2_to_vector4 (vec2_of_vec4 bit false) wid.

(** ** Division *)

(** [a = (-a) & ~sign_mask], for an operand with the sign bit set. *)
Definition native_magnitude (op : vvp_vector4_t) (a : Z) : Z * bool :=
  let sign_mask := if negb (size op =? BITS_PER_WORD)%nat then ones64 << size op else 0 in
  if bit4_true (value op (size op - 1)) then (sub64 0 a .& .~ sign_mask, true) else (a, false).

(** [if (b2.value(b2.size()-1)) b2 = -b2;] *)
Definition vec2_magnitude `{Host} (v : vvp_vector2_t) : option (vvp_vector2_t * bool) :=
  if vec2_value v (wid_ v - 1) then v ← vec2_neg v; Some (v, true) else Some (v, false).

(** [wide4_] and [wide_]: [op] is the operator, [sign] the sign of the result. *)
Definition wide_out `{Host} (signed_flag : bool) (op : vvp_vector2_t -> vvp_vector2_t -> option vvp_vector2_t)
    (sign : bool -> bool -> bool) (out_size : vvp_vector2_t -> nat) (st : vvp_arith_) : option vvp_vector4_t :=
  let a2 := vec2_of_vec4 (op_a_ st) true in
  if is_NaN a2 then Some (x_val_ st)
  else
    let b2 := vec2_of_vec4 (op_b_ st) true in
    if is_NaN b2 || vec2_is_zero b2 then Some (x_val_ st)
    else
      '(a2, b2, negate) ←
        (if signed_flag then
           '(a2, na) ← vec2_magnitude a2;
           '(b2, nb) ← vec2_magnitude b2;
           Some (a2, b2, sign na nb)
         else Some (a2, b2, false));
      res ← op a2 b2;
      res ← (if negate : bool then vec2_neg res else Some res);
      Some (vector2_to_vector4 res (out_size res)).

Definition narrow_out (signed_flag : bool) (op : Z -> Z -> Z) (sign : bool -> bool -> bool) (st : vvp_arith_)
    : option vvp_vector4_t :=
  match vector4_to_value_overflow (op_a_ st) with
  | None => Some (x_val_ st)
  | Some (a, _) =>
    match vector4_to_value_overflow (op_b_ st) with
    | None => Some (x_val_ st)
    | Some (b, _) =>
      let '(a, b, negate) :=
        if signed_flag then
          let '(a, na) := native_magnitude (op_a_ st) a in
          let '(b, nb) := native_magnitude (op_b_ st) b in
          (a, b, sign na nb)
        else (a, b, false) in
      if b =? 0 then
        Some (for_loop (arith_wid_ st) 0 (fun idx xval => set_bit xval idx BIT4_X) (vec4_fill (arith_wid_ st) BIT4_X))
      else
        let val := op a b in
        let val := if negate then sub64 0 val else val in
        if (arith_wid_ st <=? 64)%nat then Some (bits_out (arith_wid_ st) val) else None
    end
  end.

(** [vvp_arith_div] *)
Definition div_out `{Host} (signed_flag : bool) (st : vvp_arith_) : option vvp_vector4_t :=
  if (64 <? arith_wid_ st)%nat then wide_out signed_flag vec2_div xorb (fun _ => arith_wid_ st) st
  else narrow_out signed_flag Z.div xorb st.

(** [vvp_arith_mod] *)
Definition mod_out `{Host} (signed_flag : bool) (st : vvp_arith_) : option vvp_vector4_t :=
  if (64 <? arith_wid_ st)%nat then wide_out signed_flag vec2_mod (fun na _ => na) wid_ st
  else narrow_out signed_flag Z.modulo (fun na _ => na) st.

(** ** Multiplication and power *)

(** [vvp_arith_mult]; the product of [int64_t] wraps around as on the host. *)
Definition mult_out (st : vvp_arith_) : option vvp_vector4_t :=
  if (64 <? arith_wid_ st)%nat then
    let a2 := vec2_of_vec4 (op_a_ st) true in
    let b2 := vec2_of_vec4 (op_b_ st) true in
    if is_NaN a2 || is_NaN b2 then Some (x_val_ st)
    else result ← vec2_mul a2 b2; Some (vector2_to_vector4 result (arith_wid_ st))
  else
    match vector4_to_value 64 (op_a_ st) false true with
    | None => Some (x_val_ st)
    | Some (a, _) =>
      match vector4_to_value 64 (op_b_ st) false true with
      | None => Some (x_val_ st)
      | Some (b, _) =>
        let val := s64 (s64 a * s64 b) in
        if (arith_wid_ st <=? 64)%nat then Some (bits_out (arith_wid_ st) val) else None
      end
    end.

(** [vvp_arith_pow]; [int a_val] holds the 32 bits of [vector2_to_value]. *)
Definition pow_out (signed_flag : bool) (st : vvp_arith_) : option vvp_vector4_t :=
  let a2 := vec2_of_vec4 (op_a_ st) true in
  let b2 := vec2_of_vec4 (op_b_ st) true in
  if is_NaN a2 || is_NaN b2 then Some (x_val_ st)
  else if signed_flag && vec2_value b2 (wid_ b2 - 1) then
    let '(a_val, ok) := vector2_to_value a2 true in
    if ok then
      if a_val =? 0 then Some (x_val_ st)
      else
        let r_val := if a_val =? 1 then 1 else 0 in
        let r_val := if a_val =? 2 ^ 32 - 1 then (if vec2_value b2 0 then -1 else 1) else r_val in
        Some (vec4_of_double (arith_wid_ st) r_val)
    else Some (vec4_of_double (arith_wid_ st) 0)
  else r ← vec2_pow a2 b2; Some (vector2_to_vector4 r (arith_wid_ st)).

(** ** Addition and subtraction *)

(** The bit-serial loop of [vvp_arith_sum] and [vvp_arith_sub]; [None] is the
    early exit with [x_val_]. *)
Fixpoint serial_loop (n idx : nat) (a b : nat -> vvp_bit4_t) (value : vvp_vector4_t) (carry : vvp_bit4_t)
    : option vvp_vector4_t :=
  match n with
  | O => Some value
  | Datatypes.S n =>
    let '(cur, carry) := add_with_carry (a idx) (b idx) carry in
    if decide (cur = BIT4_X) then None
    else serial_loop n (Datatypes.S idx) a b (set_bit value idx cur) carry
  end.

(** [(idx >= op.size())? pad : op.value(idx)] *)
Definition padded (op : vvp_vector4_t) (pad : vvp_bit4_t) (idx : nat) : vvp_bit4_t :=
  if (size op <=? idx)%nat then pad else value op idx.

Definition sum_out (st : vvp_arith_) : option vvp_vector4_t :=
  Some (default (x_val_ st)
    (serial_loop (arith_wid_ st) 0 (padded (op_a_ st) BIT4_0) (padded (op_b_ st) BIT4_0)
       (vec4_fill (arith_wid_ st) BIT4_X) BIT4_0)).

Definition sub_out (st : vvp_arith_) : option vvp_vector4_t :=
  Some (default (x_val_ st)
    (serial_loop (arith_wid_ st) 0 (padded (op_a_ st) BIT4_1)
       (fun idx => if (size (op_b_ st) <=? idx)%nat then BIT4_1 else bit4_not (value (op_b_ st) idx))
       (vec4_fill (arith_wid_ st) BIT4_X) BIT4_1)).

(** ** Comparison *)

Definition one_bit_vec (b : vvp_bit4_t) : vvp_vector4_t := set_bit (vec4_fill 1 BIT4_X) 0 b.

(** The loop of the equality functors: [f a b] is [None] to continue with the
    next bit, [Some (r, stop)] to set the result, and leave if [stop]. *)
Fixpoint cmp_loop (n idx : nat) (f : vvp_bit4_t -> vvp_bit4_t -> option (vvp_bit4_t * bool)) (a b : vvp_vector4_t)
    (res : vvp_bit4_t) : vvp_bit4_t :=
  match n with
  | O => res
  | Datatypes.S n =>
    match f (value a idx) (value b idx) with
    | None => cmp_loop n (Datatypes.S idx) f a b res
    | Some (r, stop) => if stop : bool then r else cmp_loop n (Datatypes.S idx) f a b r
    end
  end.

Definition cmp_out (f : vvp_bit4_t -> vvp_bit4_t -> option (vvp_bit4_t * bool)) (init : vvp_bit4_t) (st : vvp_arith_)
    : option vvp_vector4_t :=
  if (size (op_a_ st) =? size (op_b_ st))%nat
  then Some (one_bit_vec (cmp_loop (size (op_a_ st)) 0 f (op_a_ st) (op_b_ st) init)) else None.

(** [vvp_cmp_eeq], [vvp_cmp_nee] *)
Definition differ (r : vvp_bit4_t) (a b : vvp_bit4_t) : option (vvp_bit4_t * bool) :=
  if decide (a = b) then None else Some (r, true).
Definition cmp_eeq_out := cmp_out (differ BIT4_0) BIT4_1.
Definition cmp_nee_out := cmp_out (differ BIT4_1) BIT4_0.

(** [vvp_cmp_eq], [vvp_cmp_ne] *)
Definition differ_xz (r : vvp_bit4_t) (a b : vvp_bit4_t) : option (vvp_bit4_t * bool) :=
  if decide (a = BIT4_X) then Some (BIT4_X, false)
  else if decide (a = BIT4_Z) then Some (BIT4_X, false)
  else if decide (b = BIT4_X) then Some (BIT4_X, false)
  else if decide (b = BIT4_Z) then Some (BIT4_X, false)
  else if decide (a = b) then None else Some (r, true).
Definition cmp_eq_out := cmp_out (differ_xz BIT4_0) BIT4_1.
Definition cmp_ne_out := cmp_out (differ_xz BIT4_1) BIT4_0.

(** [vvp_cmp_eqx]: x and z of the second operand match anything. *)
Definition differ_x (a b : vvp_bit4_t) : option (vvp_bit4_t * bool) :=
  if decide (b = BIT4_X) then None
  else if decide (b = BIT4_Z) then None
  else if decide (a = b) then None else Some (BIT4_0, true).
Definition cmp_eqx_out := cmp_out differ_x BIT4_1.

(** [vvp_cmp_eqz]: z of the second operand matches anything. *)
Definition differ_z (a b : vvp_bit4_t) : option (vvp_bit4_t * bool) :=
  if decide (b = BIT4_Z) then None
  else if decide (a = b) then None else Some (BIT4_0, true).
Definition cmp_eqz_out := cmp_out differ_z BIT4_1.

(** [vvp_cmp_weq], [vvp_cmp_wne] *)
Definition differ_wild (r : vvp_bit4_t) (a b : vvp_bit4_t) : option (vvp_bit4_t * bool) :=
  if decide (b = BIT4_X) then None
  else if decide (b = BIT4_Z) then None
  else if decide (a = BIT4_X) then Some (BIT4_X, false)
  else if decide (a = BIT4_Z) then Some (BIT4_X, false)
  else if decide (a = b) then None else Some (r, true).
Definition cmp_weq_out := cmp_out (differ_wild BIT4_0) BIT4_1.
Definition cmp_wne_out := cmp_out (differ_wild BIT4_1) BIT4_0.

(** [vvp_cmp_gtge_base_::recv_vec4_base_], [vvp_cmp_ge], [vvp_cmp_gt] *)
Definition gtge_base_out (signed_flag : bool) (out_if_equal : vvp_bit4_t) (st : vvp_arith_) : option vvp_vector4_t :=
  out ← (if signed_flag then compare_gtge_signed (op_a_ st) (op_b_ st) out_if_equal
         else Some (compare_gtge (op_a_ st) (op_b_ st) out_if_equal));
  Some (one_bit_vec out).
Definition cmp_ge_out (signed_flag : bool) := gtge_base_out signed_flag BIT4_1.
Definition cmp_gt_out (signed_flag : bool) := gtge_base_out signed_flag BIT4_0.

(** ** Shifts *)

(** The shift count, at most [n], or [None] for x and z. *)
Definition shift_count (op : vvp_vector4_t) (n : nat) : option nat :=
  '(shift, overflow_flag) ← vector4_to_value_overflow op;
  Some (if overflow_flag || (Z.of_nat n <? shift) then n else Z.to_nat shift).

(** [vvp_shiftl] *)
Definition shiftl_out (st : vvp_arith_) : option vvp_vector4_t :=
  let n := size (op_a_ st) in
  Some (match shift_count (op_b_ st) n with
        | None => x_val_ st
        | Some shift =>
          let out := for_loop shift 0 (fun idx out => set_bit out idx BIT4_0) (vec4_fill n BIT4_X) in
          for_loop (n - shift) shift (fun idx out => set_bit out idx (value (op_a_ st) (idx - shift))) out
        end).

(** [vvp_shiftr] *)
Definition shiftr_out (signed_flag : bool) (st : vvp_arith_) : option vvp_vector4_t :=
  let n := size (op_a_ st) in
  Some (match shift_count (op_b_ st) n with
        | None => x_val_ st
        | Some shift =>
          let out := for_loop (n - shift) shift (fun idx out => set_bit out (idx - shift) (value (op_a_ st) idx)) (vec4_fill n BIT4_X) in
          let pad := if signed_flag && (0 <? n)%nat then value (op_a_ st) (n - 1) else BIT4_0 in
          for_loop shift 0 (fun idx out => set_bit out (idx + n - shift) pad) out
        end).
