(* ===== verification/ArithFunSpec.v ===== *)
(** * ArithFunSpec: what the arithmetic functors send

    For operands of the functor's width every functor sends the result of the
    operation on the integers, reduced to the width, or x. *)

From S2P Require Import Prelude FourState Vector4 Vector4Value Vector4Ops Vector4Arith Vector4Logic Vector4Reduce.
From S2P Require Import Vector4Conv Vector4Copy Vector4Parts Vector2 Vector2Value Vector2Arith Vector2Div Functor ArithFun Bits.
Import Bit4.

Open Scope ivl_scope.

(** ** Helpers *)

Lemma bits_out_num wid val : let r := bits_out wid val in
  vec_wf r /\ size r = wid /\ any_xz r = false /\ vval r = val mod 2 ^ Z.of_nat wid.
Proof.
  cbv zeta. unfold bits_out.
  pose proof (for_loop_ind (fun k '(r, v) => vec_wf r /\ size r = wid /\ v = Z.shiftr val (Z.of_nat k) /\
    forall i, (i < k)%nat -> value r i = bit4_of_bool (Z.testbit val (Z.of_nat i))) wid 0
    (fun idx '(vval, val) => (set_bit vval idx (if negb (val .& 1 =? 0) then BIT4_1 else BIT4_0), Z.shiftr val 1))
    (vec4_fill wid BIT4_X, val)) as H.
  destruct (for_loop _ _ _ _) as [r v]. cbn [fst]. destruct H as (W & E & _ & B).
  - split; [apply vec4_fill_wf|]. split; [done|]. split; [by rewrite Z.shiftr_0_r|lia].
  - intros k [r' v'] Hk (W & E & -> & B). split; [apply set_bit_wf; [done|lia]|]. split; [by rewrite set_bit_size|].
    split; [rewrite Z.shiftr_shiftr by lia; f_equal; lia|]. intros i Hi. rewrite set_bit_value by (done || lia).
    destruct (Nat.eqb_spec i k) as [->|]; [|apply B; lia]. rewrite land_1_bit, Z.shiftr_spec, Z.add_0_l by lia.
    by destruct (Z.testbit _ _).
  - split; [done|]. split; [done|]. pose proof (number_bits r val) as Hn. rewrite E in Hn. by apply Hn.
Qed.

Lemma quot_sign a b : b <> 0 ->
  Z.quot a b = if xorb (a <? 0) (b <? 0) then - (Z.abs a / Z.abs b) else Z.abs a / Z.abs b.
Proof.
  intros Hb. assert (E : Z.abs a / Z.abs b = Z.quot (Z.abs a) (Z.abs b)) by (rewrite Z.quot_div_nonneg by lia; done).
  rewrite E. destruct (Z.ltb_spec a 0), (Z.ltb_spec b 0); cbn [xorb].
  - rewrite (Z.abs_neq a), (Z.abs_neq b) by lia. by rewrite Z.quot_opp_opp by lia.
  - rewrite (Z.abs_neq a), (Z.abs_eq b) by lia. rewrite Z.quot_opp_l by lia. lia.
  - rewrite (Z.abs_eq a), (Z.abs_neq b) by lia. rewrite Z.quot_opp_r by lia. lia.
  - by rewrite !Z.abs_eq by lia.
Qed.

Lemma rem_sign a b : b <> 0 ->
  Z.rem a b = if a <? 0 then - (Z.abs a mod Z.abs b) else Z.abs a mod Z.abs b.
Proof.
  intros Hb. assert (E : Z.abs a mod Z.abs b = Z.rem (Z.abs a) (Z.abs b)) by (rewrite Z.rem_mod_nonneg by lia; done).
  rewrite E. rewrite Z.rem_abs_r by lia. destruct (Z.ltb_spec a 0).
  - rewrite (Z.abs_neq a) by lia. rewrite Z.rem_opp_l by lia. lia.
  - by rewrite Z.abs_eq by lia.
Qed.

Lemma opp_mod_id x M : 0 < M -> (- (x mod M)) mod M = (- x) mod M.
Proof. intros. rewrite <- (Z.sub_0_l (x mod M)), <- (Z.sub_0_l x). rewrite Zminus_mod_idemp_r. done. Qed.

(** ** Operands *)

(** The sign the code takes out of an operand. *)
Definition neg_of (sg : bool) (v : vvp_vector4_t) : bool := sg && is_bit BIT4_1 v (size v - 1).

Lemma num_of_neg sg v : (0 < size v)%nat ->
  neg_of sg v = (num_of sg v <? 0) /\ Z.abs (num_of sg v) =
    (if neg_of sg v then (- ones_val v (size v)) mod 2 ^ Z.of_nat (size v) else ones_val v (size v)) /\
  Z.abs (num_of sg v) < 2 ^ Z.of_nat (size v).
Proof.
  intros Hn. unfold num_of, neg_of. pose proof (ones_val_range v (size v)) as Hr.
  destruct (sg && is_bit BIT4_1 v (size v - 1)) eqn:E.
  - apply andb_true_iff in E as [_ E]. assert (Hhi : 2 ^ Z.of_nat (size v - 1) <= ones_val v (size v)).
    { replace (size v) with (S (size v - 1)) at 2 by lia. rewrite ones_val_S, E. pose proof (ones_val_range v (size v - 1)). simpl Z.b2z. lia. }
    pose proof (pow2_pos (Z.of_nat (size v - 1)) ltac:(lia)).
    split; [symmetry; apply Z.ltb_lt; lia|]. rewrite Z.abs_neq by lia. split; [|lia].
    rewrite Z.mod_opp_l_nz; rewrite ?Z.mod_small; lia.
  - split; [symmetry; apply Z.ltb_ge; lia|]. rewrite Z.abs_eq by lia. split; [done|lia].
Qed.

Lemma num_of_mod sg v : num_of sg v mod 2 ^ Z.of_nat (size v) = ones_val v (size v).
Proof.
  unfold num_of. pose proof (ones_val_range v (size v)) as Hr. destruct (_ && _).
  - replace (ones_val v (size v) - 2 ^ Z.of_nat (size v)) with (ones_val v (size v) + (-1) * 2 ^ Z.of_nat (size v)) by lia.
    rewrite Z_mod_plus_full. by apply Z.mod_small.
  - by apply Z.mod_small.
Qed.

(** The functor holds two operands of its width. *)
Record arith_ok (n : nat) (st : vvp_arith_) : Prop := ArithOk {
  ok_wid : arith_wid_ st = n;
  ok_pos : (0 < n)%nat;
  ok_a : vec_wf (op_a_ st) /\ size (op_a_ st) = n;
  ok_b : vec_wf (op_b_ st) /\ size (op_b_ st) = n;
  ok_x : x_val_ st = vec4_fill n BIT4_X;
}.

Lemma x_result n z : arith_result true n z (vec4_fill n BIT4_X).
Proof. split; [apply vec4_fill_wf|]. split; [done|]. intros i Hi. by apply vec4_fill_value. Qed.

Lemma set_all n (v0 : vvp_vector4_t) c : vec_wf v0 -> size v0 = n ->
  let r := for_loop n 0 (fun idx v => set_bit v idx c) v0 in
  vec_wf r /\ size r = n /\ forall i, (i < n)%nat -> value r i = c.
Proof.
  intros Hv Hs. cbv zeta.
  apply (for_loop_ind (fun k r => vec_wf r /\ size r = n /\ forall i, (i < k)%nat -> value r i = c) n 0).
  - split; [done|]. split; [done|lia].
  - intros k r Hk (W & E & B). split; [apply set_bit_wf; [done|lia]|]. split; [by rewrite set_bit_size|].
    intros i Hi. rewrite set_bit_value by (done || lia). destruct (Nat.eqb_spec i k); [done|]. apply B. lia.
Qed.

(** ** Division *)

(** The result of a division: x for a divisor 0 or unknown operands. *)
Definition divides (st : vvp_arith_) (n : nat) (z : Z) (r : vvp_vector4_t) : Prop :=
  arith_result (any_xz (op_a_ st) || any_xz (op_b_ st) || (ones_val (op_b_ st) (size (op_b_ st)) =? 0)) n z r.

Lemma native_magnitude_spec v : (0 < size v <= 64)%nat -> any_xz v = false ->
  let a := ones_val v (size v) mod 2 ^ 64 in
  native_magnitude v a = (Z.abs (num_of true v), neg_of true v) /\ a = Z.abs (num_of false v).
Proof.
  intros Hn Hx. cbv zeta. destruct (num_of_neg true v ltac:(lia)) as (_ & Ea & Hlt).
  destruct (num_of_neg false v ltac:(lia)) as (_ & Eb & _). cbn [neg_of andb] in Eb.
  pose proof (ones_val_range v (size v)) as Hr.
  assert (H64 : 2 ^ Z.of_nat (size v) <= 2 ^ 64) by (apply Z.pow_le_mono_r; lia).
  rewrite Z.mod_small by lia. split; [|done]. rewrite Ea. unfold native_magnitude, neg_of. cbn [andb].
  assert (Hb : bit4_true (value v (size v - 1)) = is_bit BIT4_1 v (size v - 1)).
  { rewrite any_xz_false in Hx. specialize (Hx (size v - 1)%nat ltac:(lia)). unfold is_bit. by destruct (value v _). }
  rewrite Hb. destruct (is_bit _ _ _); [|done]. f_equal. unfold sub64, u64. rewrite Z.sub_0_l.
  set (s := ones_val v (size v)) in *. apply Z.bits_inj'. intros i Hi.
  assert (Hmask : Z.testbit (if negb (size v =? BITS_PER_WORD)%nat then ones64 << size v else 0) i =
    (i <? 64) && (Z.of_nat (size v) <=? i)).
  { unfold BITS_PER_WORD. destruct (Nat.eqb_spec (size v) 64) as [E|E]; cbn [negb].
    - rewrite Z.bits_0, E. destruct (Z.ltb_spec i 64), (Z.leb_spec (Z.of_nat 64) i); (done || lia).
    - rewrite shl64_bit by lia. destruct (Z.leb_spec (Z.of_nat (size v)) i); cbn [andb]; [|by rewrite andb_false_r].
      destruct (Z.ltb_spec i 64); [|done]. rewrite ones64_bit by lia. apply Z.ltb_lt. lia. }
  rewrite Z.land_spec, not64_bit, Hmask by done.
  destruct (Z.lt_ge_cases i (Z.of_nat (size v))).
  - rewrite !Z.mod_pow2_bits_low by lia. rewrite (proj2 (Z.leb_gt _ _)), (proj2 (Z.ltb_lt _ 64)) by lia. cbn. apply andb_true_r.
  - rewrite (Z.mod_pow2_bits_high _ (Z.of_nat (size v))) by lia. rewrite (proj2 (Z.leb_le _ _)) by lia.
    destruct (i <? 64) eqn:E; cbn; [apply andb_false_r|]. rewrite Z.mod_pow2_bits_high by lia. done.
Qed.

(** The operand read as an unsigned word. *)
Lemma to_value_spec v : vector4_to_value_overflow v =
  if any_xz v then None else Some (ones_val v (size v) mod 2 ^ 64, negb (ones_val v (size v) <? 2 ^ 64)).
Proof. unfold vector4_to_value_overflow, any_xz. rewrite to_value_overflow_loop_spec by done. by rewrite Nat.add_0_l. Qed.

Lemma narrow_out_spec sg n st op sign : arith_ok n st -> (n <= 64)%nat -> sign false false = false ->
  exists r, narrow_out sg op sign st = Some r /\
    divides st n ((if sign (neg_of sg (op_a_ st)) (neg_of sg (op_b_ st)) then Z.opp else id)
      (op (Z.abs (num_of sg (op_a_ st))) (Z.abs (num_of sg (op_b_ st))))) r.
Proof.
  intros [Hw Hn [Wa Sa] [Wb Sb] Hx] H64 Hsign. unfold narrow_out, divides. rewrite !to_value_spec.
  destruct (any_xz (op_a_ st)) eqn:Xa; [exists (x_val_ st); split; [done|]; rewrite Hx; apply x_result|].
  destruct (any_xz (op_b_ st)) eqn:Xb; [exists (x_val_ st); split; [done|]; rewrite Hx; apply x_result|]. cbn [orb].
  destruct (native_magnitude_spec (op_a_ st) ltac:(lia) Xa) as [Ma Ua].
  destruct (native_magnitude_spec (op_b_ st) ltac:(lia) Xb) as [Mb Ub].
  set (A := num_of sg (op_a_ st)). set (B := num_of sg (op_b_ st)).
  assert (E : (if sg then
      let '(a, na) := native_magnitude (op_a_ st) (ones_val (op_a_ st) (size (op_a_ st)) mod 2 ^ 64) in
      let '(b, nb) := native_magnitude (op_b_ st) (ones_val (op_b_ st) (size (op_b_ st)) mod 2 ^ 64) in (a, b, sign na nb)
      else (ones_val (op_a_ st) (size (op_a_ st)) mod 2 ^ 64, ones_val (op_b_ st) (size (op_b_ st)) mod 2 ^ 64, false)) =
    (Z.abs A, Z.abs B, sign (neg_of sg (op_a_ st)) (neg_of sg (op_b_ st)))).
  { unfold A, B. destruct sg; [by rewrite Ma, Mb|]. unfold neg_of. cbn [andb]. by rewrite Ua, Ub, Hsign. }
  rewrite E. clear E.
  assert (HB0 : (Z.abs B =? 0) = (ones_val (op_b_ st) (size (op_b_ st)) =? 0)).
  { rewrite <- (num_of_mod sg). fold B. destruct (num_of_neg sg (op_b_ st) ltac:(lia)) as (_ & _ & Hlt). fold B in Hlt.
    pose proof (pow2_pos (Z.of_nat (size (op_b_ st))) ltac:(lia)).
    destruct (Z.eqb_spec (Z.abs B) 0) as [E0|E0].
    - assert (B = 0) as -> by lia. rewrite Zmod_0_l. done.
    - symmetry. apply Z.eqb_neq. intros Hm. apply E0. apply Z.mod_divide in Hm as [k Hk]; [|lia].
      assert (k = 0) by nia. lia. }
  rewrite <- HB0. destruct (Z.eqb_spec (Z.abs B) 0) as [E0|E0].
  { eexists. split; [done|]. rewrite Hw. destruct (set_all n (vec4_fill n BIT4_X) BIT4_X) as (W & Sz & V);
      [apply vec4_fill_wf|done|]. done. }
  rewrite Hw, (proj2 (Nat.leb_le _ _)) by lia. eexists. split; [done|].
  set (neg := sign (neg_of sg (op_a_ st)) (neg_of sg (op_b_ st))).
  destruct (bits_out_num n (if neg then sub64 0 (op (Z.abs A) (Z.abs B)) else op (Z.abs A) (Z.abs B))) as (W & Sz & X & V).
  split; [done|]. split; [done|]. split; [done|]. rewrite V. destruct neg; [|done].
  unfold sub64, u64. rewrite Z.sub_0_l. replace (2 ^ 64) with (2 ^ (64 - Z.of_nat n) * 2 ^ Z.of_nat n) by
    (rewrite <- Z.pow_add_r by lia; f_equal; lia).
  rewrite Z.mod_mod_divide by (by eexists). done.
Qed.

Lemma wide_operand v : vec_wf v -> (0 < size v)%nat -> any_xz v = false ->
  vec2_is (vec2_of_vec4 v true) (size v) (Z.abs (num_of false v)) /\
  forall `{Host}, host_ok (size v) -> exists a,
    vec2_magnitude (vec2_of_vec4 v true) = Some (a, neg_of true v) /\ vec2_is a (size v) (Z.abs (num_of true v)).
Proof.
  intros Hv Hn Hx. pose proof (vec2_of_vec4_is v Hv Hn) as Hi. rewrite Hx, vval_ones in Hi by done.
  destruct (num_of_neg false v Hn) as (_ & E1 & _). destruct (num_of_neg true v Hn) as (_ & E2 & _).
  cbn [neg_of andb] in E1. rewrite E1. split; [done|]. intros HH Hh. unfold vec2_magnitude. destruct Hi as [Hw Hc Hd Hnum].
  rewrite Hd, vec2_value_num, Hnum. rewrite ones_bit by lia. rewrite E2. unfold neg_of. cbn [andb].
  destruct (is_bit BIT4_1 v (size v - 1)).
  - destruct (vec2_neg_spec _ Hw ltac:(lia) ltac:(by rewrite Hd)) as (r & -> & Wr & Dr & Cr & Vr). cbn [mbind option_bind].
    exists r. split; [done|]. constructor; [done..|congruence|]. by rewrite Vr, Hnum, Hd.
  - by exists (vec2_of_vec4 v true).
Qed.

Lemma vec2_is_zero_spec v : vec2_wf v -> clean v -> vec2_is_zero v = (vnum v =? 0).
Proof.
  intros [Hl Hw] Hc. unfold vec2_is_zero. rewrite <- Hc. unfold words_val.
  assert (H : forall k, forallb (fun idx => (vec_ v).[idx] =? 0) (seq 0 k) = (pval (vec_ v) (k * 64) =? 0)).
  { induction k as [|k IH]; [done|]. rewrite seq_S, forallb_app, IH, pval_words by done. cbn [forallb Nat.add].
    pose proof (pval_range (vec_ v) (k * 64)). assert (is_word (vec_ v).[k]) as [? ?] by auto with word.
    pose proof (pow2_pos (Z.of_nat (k * 64)) ltac:(lia)).
    destruct (Z.eqb_spec (pval (vec_ v) (k * 64)) 0), (Z.eqb_spec (vec_ v).[k] 0), (Z.eqb_spec (pval (vec_ v) (k * 64) + (vec_ v).[k] * 2 ^ Z.of_nat (k * 64)) 0);
      try done; nia. }
  apply H.
Qed.

(** [op] computes [f] on the magnitudes, at the width of the operands. *)
Lemma wide_out_spec `{Host} sg n st op f sign out : arith_ok n st -> host_ok n -> sign false false = false ->
  (forall a b A B, vec2_is a n A -> vec2_is b n B -> 0 < B -> exists r, op a b = Some r /\ vec2_is r n (f A B)) ->
  (forall r, wid_ r = n -> out r = n) ->
  exists r, wide_out sg op sign out st = Some r /\
    divides st n ((if sign (neg_of sg (op_a_ st)) (neg_of sg (op_b_ st)) then Z.opp else id)
      (f (Z.abs (num_of sg (op_a_ st))) (Z.abs (num_of sg (op_b_ st))))) r.
Proof.
  intros [Hw Hn [Wa Sa] [Wb Sb] Hx] Hh Hsign Hop Hout. unfold wide_out, divides.
  pose proof (vec2_of_vec4_is (op_a_ st) Wa ltac:(lia)) as Ia. pose proof (vec2_of_vec4_is (op_b_ st) Wb ltac:(lia)) as Ib.
  destruct (any_xz (op_a_ st)) eqn:Xa; [rewrite Ia; exists (x_val_ st); split; [done|]; rewrite Hx; apply x_result|].
  unfold is_NaN at 1. rewrite (is_wid _ _ _ Ia), (proj2 (Nat.eqb_neq _ _)) by lia.
  destruct (any_xz (op_b_ st)) eqn:Xb; [rewrite Ib; exists (x_val_ st); split; [done|]; rewrite Hx; apply x_result|]. cbn [orb].
  unfold is_NaN. rewrite (is_wid _ _ _ Ib), (proj2 (Nat.eqb_neq _ _)) by lia. cbn [orb].
  rewrite vec2_is_zero_spec, (is_num _ _ _ Ib), vval_ones by (done || by destruct Ib).
  destruct (Z.eqb_spec (ones_val (op_b_ st) (size (op_b_ st))) 0) as [E0|E0]; [exists (x_val_ st); split; [done|]; rewrite Hx; apply x_result|].
  set (A := num_of sg (op_a_ st)). set (B := num_of sg (op_b_ st)).
  assert (HB : 0 < Z.abs B).
  { assert (B <> 0); [|lia]. intros E. apply E0. rewrite <- (num_of_mod sg). fold B. by rewrite E. }
  destruct (wide_operand (op_a_ st) Wa ltac:(lia) Xa) as [Ua Ma]. destruct (wide_operand (op_b_ st) Wb ltac:(lia) Xb) as [Ub Mb].
  specialize (Ma _ ltac:(by rewrite Sa)). specialize (Mb _ ltac:(by rewrite Sb)). rewrite Sa, Sb in *.
  set (neg := sign (neg_of sg (op_a_ st)) (neg_of sg (op_b_ st))).
  assert (E : exists a b, (if sg then
      '(a2, na) ← vec2_magnitude (vec2_of_vec4 (op_a_ st) true);
      '(b2, nb) ← vec2_magnitude (vec2_of_vec4 (op_b_ st) true); Some (a2, b2, sign na nb)
      else Some (vec2_of_vec4 (op_a_ st) true, vec2_of_vec4 (op_b_ st) true, false)) = Some (a, b, neg) /\
    vec2_is a n (Z.abs A) /\ vec2_is b n (Z.abs B)).
  { unfold A, B, neg. destruct sg.
    - destruct Ma as (a & -> & Ha), Mb as (b & -> & Hb). by exists a, b.
    - eexists _, _. unfold neg_of. cbn [andb]. by rewrite Hsign. }
  destruct E as (a & b & -> & Ha & Hb). cbn [mbind option_bind].
  destruct (Hop a b _ _ Ha Hb HB) as (r & -> & Hr). cbn [mbind option_bind].
  assert (E : exists r', (if neg then vec2_neg r else Some r) = Some r' /\ wid_ r' = n /\
    vnum r' = ((if neg then Z.opp else id) (f (Z.abs A) (Z.abs B))) mod 2 ^ Z.of_nat n).
  { destruct Hr as [Wr Cr Dr Vr]. destruct neg.
    - destruct (vec2_neg_spec r Wr ltac:(lia) ltac:(by rewrite Dr)) as (r' & -> & Wr' & Dr' & Cr' & Vr').
      exists r'. split; [done|]. split; [congruence|]. by rewrite Vr', Vr, Dr.
    - exists r. split; [done|]. split; [done|]. rewrite Vr. symmetry. apply Z.mod_small. cbv [id]. rewrite <- Vr, <- Dr. apply vnum_range. }
  destruct E as (r' & -> & Dr' & Vr'). cbn [mbind option_bind]. rewrite (Hout r' Dr'). eexists. split; [done|].
  destruct (vector2_to_vector4_num r' n) as (W & Sz & X & V). split; [done|]. split; [done|]. split; [done|].
  rewrite V, Vr'. apply Z.mod_mod. apply Z.pow_nonzero; lia.
Qed.

(** ** Addition and subtraction *)

Lemma serial_loop_sum x y c0 n : forall k idx a b r,
  (idx + k = n)%nat -> vec_wf r -> size r = n ->
  (forall i, (i < n)%nat -> a i = bit4_of_bool (Z.testbit x (Z.of_nat i)) /\ b i = bit4_of_bool (Z.testbit y (Z.of_nat i))) ->
  (forall i, (i < idx)%nat -> value r i = bit4_of_bool (Z.testbit (x + y + Z.b2z c0) (Z.of_nat i))) ->
  exists r', serial_loop k idx a b r (bit4_of_bool (carry_into x y c0 idx)) = Some r' /\ vec_wf r' /\ size r' = n /\
    forall i, (i < n)%nat -> value r' i = bit4_of_bool (Z.testbit (x + y + Z.b2z c0) (Z.of_nat i)).
Proof.
  induction k as [|k IH]; intros idx a b r Hk Hw Hs Hab Hr; cbn [serial_loop].
  - exists r. split; [done|]. split; [done|]. split; [done|]. intros i Hi. apply Hr. lia.
  - destruct (Hab idx ltac:(lia)) as [-> ->].
    pose proof (fs_add_step (A := vvp_bit4_t) x y c0 idx) as Hadd. cbn [fs_add fs_of_bool Bit4_FourState] in Hadd.
    unfold bit4_of_bool at 1 2 3. rewrite Hadd. clear Hadd.
    rewrite decide_False by (by destruct (Z.testbit _ _)).
    apply (IH (S idx)); [lia|apply set_bit_wf; [done|lia]|by rewrite set_bit_size|done|].
    intros i Hi. rewrite set_bit_value by (done || lia). destruct (Nat.eqb_spec i idx) as [->|]; [done|]. apply Hr. lia.
Qed.

(** An x or z operand bit stops the loop, whatever the carry. *)
Lemma serial_loop_xz a b k : forall idx r c,
  (exists i, (idx <= i < idx + k)%nat /\ (bit4_is_xz (a i) = true \/ bit4_is_xz (b i) = true)) ->
  serial_loop k idx a b r c = None.
Proof.
  induction k as [|k IH]; intros idx r c (i & Hi & Hx); [lia|]. cbn [serial_loop].
  destruct (add_with_carry (a idx) (b idx) c) as [cur c'] eqn:E. destruct (decide (cur = BIT4_X)) as [|Hcur]; [done|].
  apply IH. exists i. split; [|done]. destruct (Nat.eq_dec i idx) as [->|]; [|lia]. exfalso. apply Hcur.
  unfold add_with_carry in E. destruct Hx as [Hx|Hx]; rewrite Hx in E; rewrite ?orb_true_r in E; cbn [orb] in E; congruence.
Qed.

Lemma any_xz_true v : any_xz v = true -> exists i, (i < size v)%nat /\ bit4_is_xz (value v i) = true.
Proof. unfold any_xz. rewrite existsb_exists. intros (i & Hi & H). apply in_seq in Hi. exists i. split; [lia|done]. Qed.

Lemma vval_bit v i : any_xz v = false -> (i < size v)%nat -> value v i = bit4_of_bool (Z.testbit (vval v) (Z.of_nat i)).
Proof.
  intros Hx Hi. rewrite vval_ones, ones_bit by done. apply known_bit. rewrite any_xz_false in Hx. by apply Hx.
Qed.

Lemma serial_spec n st a b y c0 : arith_ok n st ->
  (forall i, (i < n)%nat -> a i = value (op_a_ st) i) ->
  (forall i, (i < n)%nat -> bit4_is_xz (b i) = bit4_is_xz (value (op_b_ st) i)) ->
  (any_xz (op_b_ st) = false -> forall i, (i < n)%nat -> b i = bit4_of_bool (Z.testbit y (Z.of_nat i))) ->
  arith_result (any_xz (op_a_ st) || any_xz (op_b_ st)) n (vval (op_a_ st) + y + Z.b2z c0)
    (default (x_val_ st) (serial_loop n 0 a b (vec4_fill n BIT4_X) (bit4_of_bool c0))).
Proof.
  intros [Hw Hn [Wa Sa] [Wb Sb] Hx] Ha Hbx Hb. destruct (any_xz (op_a_ st) || any_xz (op_b_ st)) eqn:E.
  - rewrite serial_loop_xz; [rewrite Hx; apply x_result|]. apply orb_true_iff in E as [E|E]; apply any_xz_true in E as (i & Hi & Hxz);
      exists i; (split; [lia|]); [left; by rewrite Ha by lia|right; by rewrite Hbx by lia].
  - apply orb_false_iff in E as [Ea Eb].
    destruct (serial_loop_sum (vval (op_a_ st)) y c0 n n 0 a b (vec4_fill n BIT4_X)) as (r & E & Wr & Sr & Br);
      [lia|apply vec4_fill_wf|done| |lia|].
    { intros i Hi. split; [rewrite Ha by done; apply vval_bit; [done|lia]|by apply Hb]. }
    rewrite carry_into_0 in E. rewrite E. split; [done|]. split; [done|]. pose proof (number_bits r _ ltac:(rewrite Sr; exact Br)) as H.
    by rewrite Sr in H.
Qed.

(** ** Comparison *)

(** Two bits known and different; two bits not both known. *)
Definition bits_differ (f : vvp_bit4_t -> vvp_bit4_t -> bool) (a b : vvp_vector4_t) : bool :=
  existsb (fun i => f (value a i) (value b i)) (seq 0 (size a)).


(** The loop gives the stopping result if a bit stops it, else x if a bit made
    the result x, else the initial value. *)
Lemma cmp_loop_spec (f : vvp_bit4_t -> vvp_bit4_t -> option (vvp_bit4_t * bool)) (stop unk : vvp_bit4_t -> vvp_bit4_t -> bool) r a b :
  (forall x y : vvp_bit4_t, f x y = if stop x y then Some (r, true) else if unk x y then Some (BIT4_X, false) else None) ->
  forall n idx res, cmp_loop n idx f a b res =
    if existsb (fun i => stop (value a i) (value b i)) (seq idx n) then r
    else if existsb (fun i => unk (value a i) (value b i)) (seq idx n) then BIT4_X else res.
Proof.
  intros Hf. induction n as [|n IH]; intros idx res; [done|]. cbn [cmp_loop seq existsb]. rewrite Hf.
  destruct (stop _ _); [done|]. cbn [orb]. destruct (unk _ _); cbn [orb]; rewrite IH; [|done].
  destruct (existsb _ _); [done|]. by destruct (existsb _ _).
Qed.

Lemma one_bit_vec_value c : vec_wf (one_bit_vec c) /\ size (one_bit_vec c) = 1%nat /\ value (one_bit_vec c) 0 = c.
Proof.
  unfold one_bit_vec. split; [apply set_bit_wf; [apply vec4_fill_wf|simpl; lia]|]. split; [by rewrite set_bit_size|].
  rewrite set_bit_value by (apply vec4_fill_wf || (simpl; lia)). done.
Qed.

Definition xz_b (_ b : vvp_bit4_t) : bool := bit4_is_xz b.
Definition no_pair (_ _ : vvp_bit4_t) : bool := false.

Lemma cmp_out_spec f (stop unk : vvp_bit4_t -> vvp_bit4_t -> bool) r init st n : arith_ok n st ->
  (forall x y : vvp_bit4_t, f x y = if stop x y then Some (r, true) else if unk x y then Some (BIT4_X, false) else None) ->
  cmp_out f init st = Some (one_bit_vec
    (if bits_differ stop (op_a_ st) (op_b_ st) then r
     else if bits_differ unk (op_a_ st) (op_b_ st) then BIT4_X else init)).
Proof.
  intros [Hw Hn [Wa Sa] [Wb Sb] Hx] Hf. unfold cmp_out. rewrite (proj2 (Nat.eqb_eq _ _)) by congruence.
  by rewrite (cmp_loop_spec f stop unk r).
Qed.

Lemma no_bits_differ a b : bits_differ no_pair a b = false.
Proof. unfold bits_differ. by induction (seq 0 (size a)). Qed.

(** ** Shifts *)

(** A loop that writes consecutive places of a vector. *)
Lemma write_loop n start (v0 : vvp_vector4_t) base (place : nat -> nat) (src : nat -> vvp_bit4_t) :
  vec_wf v0 -> (base + n <= size v0)%nat ->
  (forall i, (start <= i < start + n)%nat -> place i = base + (i - start))%nat ->
  let r := for_loop n start (fun idx v => set_bit v (place idx) (src idx)) v0 in
  vec_wf r /\ size r = size v0 /\
  forall i, value r i = if ((base <=? i) && (i <? base + n))%nat then src (start + (i - base))%nat else value v0 i.
Proof.
  intros Hv Hn Hp. cbv zeta.
  pose proof (for_loop_ind (fun k r => vec_wf r /\ size r = size v0 /\
    forall i, value r i = if ((base <=? i) && (i <? base + (k - start)))%nat then src (start + (i - base))%nat else value v0 i) n start
    (fun idx v => set_bit v (place idx) (src idx)) v0) as H.
  destruct H as (W & E & B).
  - split; [done|]. split; [done|]. intros i. nat_cases; cbn [andb]; (done || lia).
  - intros k r Hk (W & E & B). rewrite Hp by lia. split; [apply set_bit_wf; [done|lia]|]. split; [by rewrite set_bit_size|].
    intros i. rewrite set_bit_value by (done || lia). destruct (Nat.eqb_spec i (base + (k - start))) as [->|].
    + nat_cases; cbn [andb]; try lia. f_equal. lia.
    + rewrite B. nat_cases; cbn [andb]; (done || lia).
  - split; [done|]. split; [done|]. intros i. rewrite B. by replace (start + n - start)%nat with n by lia.
Qed.

(** The shift count the functors use. *)
Definition shift_of (v : vvp_vector4_t) (n : nat) : nat := Z.to_nat (Z.min (num_of false v) (Z.of_nat n)).

Lemma shift_count_spec v n : (Z.of_nat n < 2 ^ 64) -> shift_count v n = if any_xz v then None else Some (shift_of v n).
Proof.
  intros Hn. unfold shift_count. rewrite to_value_spec. destruct (any_xz v); [done|]. cbn [mbind option_bind].
  f_equal. unfold shift_of. rewrite num_of_unsigned. pose proof (ones_val_range v (size v)).
  destruct (Z.ltb_spec (ones_val v (size v)) (2 ^ 64)); cbn [negb orb]; [|lia].
  rewrite Z.mod_small by lia. destruct (Z.ltb_spec (Z.of_nat n) (ones_val v (size v))); lia.
Qed.

Lemma shiftl_spec n st : arith_ok n st -> Z.of_nat n < 2 ^ 64 ->
  exists r, shiftl_out st = Some r /\ vec_wf r /\ size r = n /\
    forall i, (i < n)%nat -> value r i =
      if any_xz (op_b_ st) then BIT4_X
      else let k := shift_of (op_b_ st) n in if (i <? k)%nat then BIT4_0 else value (op_a_ st) (i - k).
Proof.
  intros [Hw Hn [Wa Sa] [Wb Sb] Hx] H64. unfold shiftl_out. rewrite Sa, shift_count_spec by done. eexists. split; [done|].
  destruct (any_xz (op_b_ st)); [rewrite Hx; split; [apply vec4_fill_wf|]; split; [done|]; intros; by apply vec4_fill_value|].
  set (k := shift_of (op_b_ st) n). assert (Hk : (k <= n)%nat) by (unfold k, shift_of; lia).
  destruct (write_loop k 0 (vec4_fill n BIT4_X) 0 (fun i => i) (fun _ => BIT4_0)) as (W1 & S1 & B1);
    [apply vec4_fill_wf|cbn; lia|intros; lia|].
  set (out := for_loop k 0 _ _) in *. cbn [size vec4_fill] in S1.
  destruct (write_loop (n - k) k out k (fun i => i) (fun idx => value (op_a_ st) (idx - k))) as (W2 & S2 & B2);
    [done|lia|intros; lia|]. split; [done|]. split; [congruence|].
  intros i Hi. rewrite B2, B1. destruct (Nat.ltb_spec i k); nat_cases; cbn [andb]; first [done | lia | f_equal; lia].
Qed.

Lemma shiftr_spec sg n st : arith_ok n st -> Z.of_nat n < 2 ^ 64 ->
  exists r, shiftr_out sg st = Some r /\ vec_wf r /\ size r = n /\
    forall i, (i < n)%nat -> value r i =
      if any_xz (op_b_ st) then BIT4_X
      else let k := shift_of (op_b_ st) n in
        if (i + k <? n)%nat then value (op_a_ st) (i + k) else if sg then value (op_a_ st) (n - 1) else BIT4_0.
Proof.
  intros [Hw Hn [Wa Sa] [Wb Sb] Hx] H64. unfold shiftr_out. rewrite Sa, shift_count_spec by done. eexists. split; [done|].
  destruct (any_xz (op_b_ st)); [rewrite Hx; split; [apply vec4_fill_wf|]; split; [done|]; intros; by apply vec4_fill_value|].
  set (k := shift_of (op_b_ st) n). assert (Hk : (k <= n)%nat) by (unfold k, shift_of; lia).
  destruct (write_loop (n - k) k (vec4_fill n BIT4_X) 0 (fun i => (i - k)%nat) (value (op_a_ st))) as (W1 & S1 & B1);
    [apply vec4_fill_wf|cbn; lia|intros; lia|].
  set (out := for_loop (n - k) k _ _) in *. cbn [size vec4_fill] in S1.
  rewrite (proj2 (Nat.ltb_lt 0 n)), andb_true_r by lia.
  destruct (write_loop k 0 out (n - k) (fun i => (i + n - k)%nat) (fun _ => if sg then value (op_a_ st) (n - 1) else BIT4_0))
    as (W2 & S2 & B2); [done|lia|intros; lia|]. split; [done|]. split; [congruence|].
  intros i Hi. rewrite B2, B1. destruct (Nat.ltb_spec (i + k) n); nat_cases; cbn [andb]; first [done | lia | f_equal; lia].
Qed.

(** ** Multiplication, power, absolute value *)

Lemma mult_spec n st : arith_ok n st ->
  exists r, mult_out st = Some r /\
    arith_result (any_xz (op_a_ st) || any_xz (op_b_ st)) n (vval (op_a_ st) * vval (op_b_ st)) r.
Proof.
  intros [Hw Hn [Wa Sa] [Wb Sb] Hx]. unfold mult_out. rewrite Hw.
  assert (Hxr : arith_result true n (vval (op_a_ st) * vval (op_b_ st)) (x_val_ st)) by (rewrite Hx; apply x_result).
  destruct (Nat.ltb_spec 64 n) as [Hl|Hs].
  - pose proof (vec2_of_vec4_is (op_a_ st) Wa ltac:(lia)) as Ia. pose proof (vec2_of_vec4_is (op_b_ st) Wb ltac:(lia)) as Ib.
    destruct (any_xz (op_a_ st)); [rewrite Ia; by exists (x_val_ st)|].
    destruct (any_xz (op_b_ st)); [rewrite Ib, orb_true_r; by exists (x_val_ st)|].
    destruct Ia as [W1 C1 D1 V1], Ib as [W2 C2 D2 V2]. unfold is_NaN. rewrite D1, D2, !(proj2 (Nat.eqb_neq _ _)) by lia. cbn [orb].
    destruct (vec2_mul_spec _ _ W1 W2 ltac:(congruence) ltac:(lia)) as (r & -> & Wr & Dr & Vr). cbn [mbind option_bind].
    eexists. split; [done|]. destruct (vector2_to_vector4_num r n) as (W & Sz & X & V). split; [done|]. split; [done|]. split; [done|].
    rewrite V, Vr, V1, V2, D1, Sa. apply Z.mod_mod. apply Z.pow_nonzero; lia.
  - rewrite !vector4_to_value_spec by lia. cbn [andb].
    assert (Hxz : forall v, size v = n -> xz_below v (Nat.min 64 (size v)) = any_xz v)
      by (intros v Ev; unfold xz_below, any_xz; by rewrite Nat.min_r by lia).
    rewrite !Hxz by done. destruct (any_xz (op_a_ st)) eqn:Xa; [by exists (x_val_ st)|].
    destruct (any_xz (op_b_ st)) eqn:Xb; [by exists (x_val_ st)|]. cbn [orb]. rewrite (proj2 (Nat.leb_le _ _)) by lia.
    eexists. split; [done|]. destruct (bits_out_num n (s64 (s64 (num_of false (op_a_ st) mod 2 ^ Z.of_nat 64) *
      s64 (num_of false (op_b_ st) mod 2 ^ Z.of_nat 64)))) as (W & Sz & X & V).
    split; [done|]. split; [done|]. split; [done|]. rewrite V, !num_of_unsigned, <- !vval_ones by done.
    assert (Hs64 : forall z, s64 z mod 2 ^ Z.of_nat n = z mod 2 ^ Z.of_nat n).
    { intros z. unfold s64. assert (E64 : 2 ^ 64 = 2 ^ (64 - Z.of_nat n) * 2 ^ Z.of_nat n) by (rewrite <- Z.pow_add_r by lia; f_equal; lia).
      rewrite E64 at 1. rewrite Zminus_mod, Z.mod_mod_divide, <- Zminus_mod by (by eexists). f_equal. lia. }
    rewrite Hs64, Z.mul_mod, !Hs64 by (apply Z.pow_nonzero; lia). rewrite <- Z.mul_mod by (apply Z.pow_nonzero; lia).
    change (Z.of_nat 64) with 64. pose proof (pval_range (abits (op_a_ st)) (size (op_a_ st))) as Ra.
    pose proof (pval_range (abits (op_b_ st)) (size (op_b_ st))) as Rb. unfold vval.
    assert (2 ^ Z.of_nat (size (op_a_ st)) <= 2 ^ 64) by (apply Z.pow_le_mono_r; lia).
    assert (2 ^ Z.of_nat (size (op_b_ st)) <= 2 ^ 64) by (apply Z.pow_le_mono_r; lia).
    by rewrite !(Z.mod_small _ (2 ^ 64)) by lia.
Qed.

(** A power with an exponent that is not negative. *)
Lemma pow_spec sg n st : arith_ok n st ->
  (any_xz (op_a_ st) || any_xz (op_b_ st) = false -> 0 <= num_of sg (op_b_ st)) ->
  exists r, pow_out sg st = Some r /\
    arith_result (any_xz (op_a_ st) || any_xz (op_b_ st)) n (vval (op_a_ st) ^ num_of sg (op_b_ st)) r.
Proof.
  intros [Hw Hn [Wa Sa] [Wb Sb] Hx] Hneg. unfold pow_out. rewrite Hw.
  assert (Hxr : arith_result true n (vval (op_a_ st) ^ num_of sg (op_b_ st)) (x_val_ st)) by (rewrite Hx; apply x_result).
  pose proof (vec2_of_vec4_is (op_a_ st) Wa ltac:(lia)) as Ia. pose proof (vec2_of_vec4_is (op_b_ st) Wb ltac:(lia)) as Ib.
  destruct (any_xz (op_a_ st)); [rewrite Ia; by exists (x_val_ st)|].
  destruct (any_xz (op_b_ st)) eqn:Xb; [rewrite Ib, orb_true_r; by exists (x_val_ st)|]. cbn [orb] in *. specialize (Hneg eq_refl).
  destruct (num_of_neg sg (op_b_ st) ltac:(lia)) as (Hsign & Habs & _).
  rewrite (proj2 (Z.ltb_ge _ _) Hneg) in Hsign. rewrite Hsign, Z.abs_eq in Habs by done. rewrite Habs.
  destruct Ia as [W1 C1 D1 V1], Ib as [W2 C2 D2 V2]. unfold is_NaN. rewrite D1, D2, !(proj2 (Nat.eqb_neq _ _)) by lia. cbn [orb].
  rewrite vec2_value_num, V2, vval_ones, ones_bit by (done || lia). fold (neg_of sg (op_b_ st)). rewrite Hsign.
  destruct (vec2_pow_spec _ _ W1 ltac:(lia) W2 C2) as (r & -> & Wr & Dr & Vr). cbn [mbind option_bind]. eexists. split; [done|].
  destruct (vector2_to_vector4_num r n) as (W & Sz & X & V). split; [done|]. split; [done|]. split; [done|].
  rewrite V, Vr, V1, V2, D1, Sa, (vval_ones (op_b_ st)) by done. apply Z.mod_mod. apply Z.pow_nonzero; lia.
Qed.

Lemma abs_spec bit : vec_wf bit -> (0 < size bit)%nat ->
  exists r, abs_out bit = Some r /\ arith_result (any_xz bit) (size bit) (Z.abs (num_of true bit)) r.
Proof.
  intros Hw Hn. unfold abs_out. rewrite compare_gtge_signed_spec by (done || apply vec4_fill_wf).
  assert (Hz : any_xz (vec4_fill (size bit) BIT4_0) = false).
  { apply any_xz_false. intros i Hi. by rewrite vec4_fill_value. }
  assert (Hz0 : num_of true (vec4_fill (size bit) BIT4_0) = 0).
  { assert (Ho : ones_val (vec4_fill (size bit) BIT4_0) (size bit) = 0).
    { rewrite <- (Zmod_0_l (2 ^ Z.of_nat (size bit))), <- Zbits_of_Z. apply Zbits_ext. intros i Hi.
      unfold is_bit. by rewrite vec4_fill_value, Z.bits_0. }
    unfold num_of, is_bit. cbn [size vec4_fill]. rewrite vec4_fill_value by lia. cbn. exact Ho. }
  rewrite Hz, Hz0, orb_false_r. cbn [mbind option_bind]. destruct (any_xz bit) eqn:E.
  { eexists. split; [done|]. apply x_result. }
  destruct (num_of_neg true bit Hn) as (Hs & Ha & _). unfold cmp_result. eexists. split; [done|].
  destruct (Z.compare_spec (num_of true bit) 0) as [E0|Hlt|Hgt].
  - split; [done|]. split; [done|]. split; [done|]. rewrite vval_ones, <- (num_of_mod true) by done. by rewrite E0.
  - destruct (vec4_unary_correct bit BIT4_X Hw) as (_ & (Wi & Si & Vi) & _).
    pose proof (vec4_incr_correct (copy_inverted_from_ bit) 1 Wi ltac:(rewrite Si; done)) as Hr. rewrite Si in Hr.
    assert (Hxi : any_xz (copy_inverted_from_ bit) = false).
    { apply any_xz_false. rewrite Si. intros i Hi. rewrite Vi by done. rewrite any_xz_false in E. specialize (E i Hi). by destruct (value bit i). }
    rewrite Hxi in Hr. destruct Hr as (W & Sz & X & V). split; [done|]. split; [done|]. split; [done|]. rewrite V.
    rewrite Ha, Hs, (proj2 (Z.ltb_lt _ _) Hlt). rewrite Z.mod_mod by (apply Z.pow_nonzero; lia).
    assert (Hinv : vval (copy_inverted_from_ bit) = 2 ^ Z.of_nat (size bit) - 1 - ones_val bit (size bit)).
    { rewrite vval_ones, Si by done.
      assert (Hc : forall n, (n <= size bit)%nat -> ones_val (copy_inverted_from_ bit) n = 2 ^ Z.of_nat n - 1 - ones_val bit n).
      { induction n as [|n IH]; intros Hle; [done|]. rewrite !ones_val_S, IH, pow2_S by lia.
        assert (Hb : is_bit BIT4_1 (copy_inverted_from_ bit) n = negb (is_bit BIT4_1 bit n)).
        { unfold is_bit. rewrite Vi by lia. rewrite any_xz_false in E. specialize (E n ltac:(lia)). by destruct (value bit n). }
        rewrite Hb. destruct (is_bit BIT4_1 bit n); simpl Z.b2z; lia. }
      by apply Hc. }
    rewrite Hinv. replace (2 ^ Z.of_nat (size bit) - 1 - ones_val bit (size bit) + 1) with
      (- ones_val bit (size bit) + 1 * 2 ^ Z.of_nat (size bit)) by lia. by rewrite Z_mod_plus_full.
  - split; [done|]. split; [done|]. split; [done|]. rewrite Z.abs_eq by lia. rewrite (num_of_mod true). rewrite vval_ones by done. done.
Qed.

Lemma divides_ext st n z z' r : arith_ok n st ->
  (forall sg, num_of sg (op_b_ st) <> 0 -> z mod 2 ^ Z.of_nat n = z' mod 2 ^ Z.of_nat n) ->
  divides st n z r -> divides st n z' r.
Proof.
  intros [_ Hn _ [_ Sb] _] Hz (W & Sz & H). split; [done|]. split; [done|].
  destruct (_ || _ || _) eqn:E; [done|]. apply orb_false_iff in E as [_ E]. destruct H as [X V]. split; [done|].
  rewrite V. apply (Hz false). rewrite num_of_unsigned. lia.
Qed.

(** ** Properties *)

(** C36. The division and modulus functors, native up to 64 bits and on two-state
    vectors beyond, signed and unsigned, send the quotient truncated towards
    zero and the remainder with the sign of the dividend, modulo [2^width]; x for
    a divisor 0 or an x or z operand.  The exception: beyond 64 bits an unsigned
    dividend above half of the range divided by 1 gives 0. *)
Theorem arith_div_mod_correct `{Host} sg n st :
  arith_ok n st -> host_ok n -> host_ok (n + 1) ->
  let A := num_of sg (op_a_ st) in
  let B := num_of sg (op_b_ st) in
  (exists r, div_out sg st = Some r /\
     divides st n (if (64 <? n)%nat && negb sg && (B =? 1) && (2 ^ Z.of_nat (n - 1) <? A) then 0 else Z.quot A B) r) /\
  (exists r, mod_out sg st = Some r /\ divides st n (Z.rem A B) r).
Proof.
  intros Hok Hh Hh1. cbv zeta. pose proof Hok as [Hw Hn [Wa Sa] [Wb Sb] Hx].
  destruct (num_of_neg sg (op_a_ st) ltac:(lia)) as (Na & _ & La). destruct (num_of_neg sg (op_b_ st) ltac:(lia)) as (Nb & _ & _).
  set (A := num_of sg (op_a_ st)) in *. set (B := num_of sg (op_b_ st)) in *. rewrite Sa in La.
  assert (HB : forall sg', num_of sg' (op_b_ st) <> 0 -> B <> 0).
  { intros sg' Hne E. apply Hne. destruct (num_of_neg sg' (op_b_ st) ltac:(lia)) as (_ & _ & Hlt).
    assert (Hm : num_of sg' (op_b_ st) mod 2 ^ Z.of_nat (size (op_b_ st)) = 0) by (rewrite num_of_mod, <- (num_of_mod sg); fold B; by rewrite E).
    apply Z.mod_divide in Hm as [k Hk]; [|lia]. assert (k = 0) by nia. lia. }
  unfold div_out, mod_out. rewrite Hw. destruct (Nat.ltb_spec 64 n) as [Hl|Hs]; cbn [andb].
  - split.
    + destruct (wide_out_spec sg n st vec2_div
        (fun A B => if (B =? 1) && (2 ^ Z.of_nat (n - 1) <? A) then 0 else A / B) xorb (fun _ => arith_wid_ st) Hok Hh eq_refl) as (r & E & Hr).
      { intros a b A' B' Ha Hb HB'. pose proof (div_mod_spec n a b A' B' Hh Hh1 Hn Ha ltac:(by rewrite (is_wid _ _ _ Hb)) HB') as (q & r & E & Hq & _).
        exists q. unfold vec2_div. by rewrite E. }
      { done. }
      rewrite Hw in E. exists r. split; [exact E|]. eapply divides_ext; [done| |exact Hr]. intros sg' Hne. apply HB in Hne. f_equal.
      rewrite Na, Nb, (quot_sign A B Hne). cbv beta. fold A B. destruct sg; cbn [negb andb].
      * assert (HA : Z.abs A <= 2 ^ Z.of_nat (n - 1)).
        { unfold A, num_of. cbn [andb]. replace (size (op_a_ st)) with (S (n - 1)) by lia. rewrite ones_val_S, pow2_S. replace (S (n - 1) - 1)%nat with (n - 1)%nat by lia.
          pose proof (ones_val_range (op_a_ st) (n - 1)). destruct (is_bit _ _ _); simpl Z.b2z; lia. }
        rewrite (proj2 (Z.ltb_ge (2 ^ Z.of_nat (n - 1)) (Z.abs A)) HA), andb_false_r. by destruct (xorb (A <? 0) (B <? 0)).
      * assert (0 <= A /\ 0 <= B) as [HA0 HB0].
        { unfold A, B. rewrite !num_of_unsigned. pose proof (ones_val_range (op_a_ st) (size (op_a_ st))).
          pose proof (ones_val_range (op_b_ st) (size (op_b_ st))). lia. }
        rewrite !(proj2 (Z.ltb_ge _ 0)) by done. cbn [xorb]. rewrite !Z.abs_eq by done. done.
    + destruct (wide_out_spec sg n st vec2_mod (fun A B => A mod B) (fun na _ => na) wid_ Hok Hh eq_refl) as (r & E & Hr).
      { intros a b A' B' Ha Hb HB'. pose proof (div_mod_spec n a b A' B' Hh Hh1 Hn Ha ltac:(by rewrite (is_wid _ _ _ Hb)) HB') as (q & r & E & _ & Hr).
        exists r. unfold vec2_mod. by rewrite E. }
      { done. }
      exists r. split; [exact E|]. eapply divides_ext; [done| |exact Hr]. intros sg' Hne. apply HB in Hne. f_equal.
      rewrite Na, (rem_sign A B Hne). by destruct (A <? 0).
  - split.
    + destruct (narrow_out_spec sg n st Z.div xorb Hok Hs eq_refl) as (r & E & Hr). exists r. split; [exact E|].
      eapply divides_ext; [done| |exact Hr]. intros sg' Hne. apply HB in Hne. f_equal.
      rewrite Na, Nb, (quot_sign A B Hne). by destruct (xorb (A <? 0) (B <? 0)).
    + destruct (narrow_out_spec sg n st Z.modulo (fun na _ => na) Hok Hs eq_refl) as (r & E & Hr). exists r. split; [exact E|].
      eapply divides_ext; [done| |exact Hr]. intros sg' Hne. apply HB in Hne. f_equal.
      rewrite Na, (rem_sign A B Hne). by destruct (A <? 0).
Qed.

(** C37. The sum, difference, product, power and absolute value functors send the
    result of the operation on the integers modulo [2^width], and x if an operand
    has an x or z: the bit-serial loops with their early exit, the native product
    and the multi-word ones alike.  The power is for exponents that are not
    negative. *)
Theorem arith_functors_correct sg n st :
  arith_ok n st ->
  let xz := any_xz (op_a_ st) || any_xz (op_b_ st) in
  let a := vval (op_a_ st) in
  let b := vval (op_b_ st) in
  (exists r, sum_out st = Some r /\ arith_result xz n (a + b) r) /\
  (exists r, sub_out st = Some r /\ arith_result xz n (a - b) r) /\
  (exists r, mult_out st = Some r /\ arith_result xz n (a * b) r) /\
  ((xz = false -> 0 <= num_of sg (op_b_ st)) ->
   exists r, pow_out sg st = Some r /\ arith_result xz n (a ^ num_of sg (op_b_ st)) r) /\
  (exists r, abs_out (op_a_ st) = Some r /\ arith_result (any_xz (op_a_ st)) n (Z.abs (num_of true (op_a_ st))) r).
Proof.
  intros Hok. cbv zeta. pose proof Hok as [Hw Hn [Wa Sa] [Wb Sb] Hx].
  assert (Hpad : forall v pad i, size v = n -> (i < n)%nat -> padded v pad i = value v i).
  { intros v pad i Hv Hi. unfold padded. by rewrite (proj2 (Nat.leb_gt _ _)) by lia. }
  split; [|split; [|split; [by apply mult_spec|split; [intros Hp; by apply pow_spec|]]]].
  - unfold sum_out. rewrite Hw. eexists. split; [done|].
    rewrite <- (Z.add_0_r (vval (op_a_ st) + vval (op_b_ st))). change 0 with (Z.b2z false) at 1.
    apply (serial_spec n st (padded (op_a_ st) BIT4_0) (padded (op_b_ st) BIT4_0) (vval (op_b_ st)) false Hok).
    + intros i Hi. by apply Hpad.
    + intros i Hi. by rewrite Hpad.
    + intros Hb i Hi. rewrite Hpad by done. apply vval_bit; [done|lia].
  - unfold sub_out. rewrite Hw. eexists. split; [done|].
    replace (vval (op_a_ st) - vval (op_b_ st)) with (vval (op_a_ st) + Z.lnot (vval (op_b_ st)) + Z.b2z true)
      by (unfold Z.lnot; simpl Z.b2z; lia).
    apply (serial_spec n st _ _ (Z.lnot (vval (op_b_ st))) true Hok).
    + intros i Hi. by apply Hpad.
    + intros i Hi. rewrite (proj2 (Nat.leb_gt _ _)) by lia. by destruct (value (op_b_ st) i).
    + intros Hb i Hi. rewrite (proj2 (Nat.leb_gt _ _)) by lia. rewrite (vval_bit (op_b_ st)) by (done || lia).
      rewrite Z.lnot_spec by lia. by destruct (Z.testbit _ _).
  - rewrite <- Sa. apply abs_spec; [done|lia].
Qed.

Ltac finish_differ :=
  rewrite ?no_bits_differ;
  repeat match goal with |- context [bits_differ ?f ?a ?b] => destruct (bits_differ f a b) end;
  reflexivity.

(** C38. The comparison functors: [===] and its negation compare all bits; [==] and
    its negation are decided by a pair of bits known and different, else x if a bit is
    unknown; [==?] and its negation do the same but for the bits where the right
    operand is x or z.  The case forms, casex and casez, ignore the bits where the
    right operand is x or z, respectively z, compare the others as [===] does, and
    give 0 or 1, never x (the comment above vvp_cmp_eqx says that an unknown bit makes
    the result x, as it does for [==]; the code does not).
    The order is that of the integers, or x for an unknown operand.  The shift
    functors move the bits by the shift count, up to the width, and send x for an
    unknown count. *)
Theorem cmp_shift_functors_correct sg n st :
  arith_ok n st -> Z.of_nat n < 2 ^ 64 ->
  let a := op_a_ st in
  let b := op_b_ st in
  let sends out bit := exists r, out = Some r /\ size r = 1%nat /\ value r 0 = bit in
  let tri (no unk : bool) := if no then BIT4_0 else if unk then BIT4_X else BIT4_1 in
  let not3 c := bit4_not c in
  let open_x f x y := negb (bit4_is_xz y) && f x y in
  let open_z f x y := negb (bool_decide (y = BIT4_Z)) && f x y in
  let order c := cmp_result (num_of sg a) (num_of sg b) c in
  sends (cmp_eeq_out st) (tri (bits_differ unequal a b) false) /\
  sends (cmp_nee_out st) (not3 (tri (bits_differ unequal a b) false)) /\
  sends (cmp_eq_out st) (tri (bits_differ known_differ a b) (bits_differ unknown a b)) /\
  sends (cmp_ne_out st) (not3 (tri (bits_differ known_differ a b) (bits_differ unknown a b))) /\
  sends (cmp_eqx_out st) (tri (bits_differ (open_x unequal) a b) false) /\
  sends (cmp_eqz_out st) (tri (bits_differ (open_z unequal) a b) false) /\
  sends (cmp_weq_out st) (tri (bits_differ known_differ a b) (bits_differ (open_x unknown) a b)) /\
  sends (cmp_wne_out st) (not3 (tri (bits_differ known_differ a b) (bits_differ (open_x unknown) a b))) /\
  sends (cmp_ge_out sg st) (if any_xz a || any_xz b then BIT4_X else order BIT4_1) /\
  sends (cmp_gt_out sg st) (if any_xz a || any_xz b then BIT4_X else order BIT4_0) /\
  (exists r, shiftl_out st = Some r /\ size r = n /\ forall i, (i < n)%nat -> value r i =
     if any_xz b then BIT4_X
     else let k := shift_of b n in if (i <? k)%nat then BIT4_0 else value a (i - k)) /\
  (exists r, shiftr_out sg st = Some r /\ size r = n /\ forall i, (i < n)%nat -> value r i =
     if any_xz b then BIT4_X
     else let k := shift_of b n in
       if (i + k <? n)%nat then value a (i + k) else if sg then value a (n - 1) else BIT4_0).
Proof.
  intros Hok H64. cbv zeta. pose proof Hok as [Hw Hn [Wa Sa] [Wb Sb] Hx].
  assert (Hone : forall o c c', o = Some (one_bit_vec c) -> c = c' -> exists r, o = Some r /\ size r = 1%nat /\ value r 0 = c').
  { intros o c c' -> <-. destruct (one_bit_vec_value c) as (_ & S1 & V1). by exists (one_bit_vec c). }
  assert (Hsel : forall (b1 b2 : bool), bit4_not (if b1 then BIT4_0 else if b2 then BIT4_X else BIT4_1) =
    if b1 then BIT4_1 else if b2 then BIT4_X else BIT4_0) by (by intros [] []).
  repeat split.
  - eapply Hone; [apply (cmp_out_spec _ unequal no_pair BIT4_0 BIT4_1 st n Hok)|finish_differ].
    by intros [] [].
  - eapply Hone; [apply (cmp_out_spec _ unequal no_pair BIT4_1 BIT4_0 st n Hok)|finish_differ].
    by intros [] [].
  - eapply Hone; [apply (cmp_out_spec _ known_differ unknown BIT4_0 BIT4_1 st n Hok)|done]. by intros [] [].
  - eapply Hone; [apply (cmp_out_spec _ known_differ unknown BIT4_1 BIT4_0 st n Hok)|finish_differ]. by intros [] [].
  - eapply Hone; [apply (cmp_out_spec _ (fun x y => negb (bit4_is_xz y) && unequal x y) no_pair BIT4_0 BIT4_1 st n Hok)|finish_differ].
    by intros [] [].
  - eapply Hone; [apply (cmp_out_spec _ (fun x y => negb (bool_decide (y = BIT4_Z)) && unequal x y) no_pair BIT4_0 BIT4_1 st n Hok)|finish_differ].
    by intros [] [].
  - eapply Hone; [apply (cmp_out_spec _ known_differ (fun x y => negb (bit4_is_xz y) && unknown x y) BIT4_0 BIT4_1 st n Hok)|done].
    by intros [] [].
  - eapply Hone; [apply (cmp_out_spec _ known_differ (fun x y => negb (bit4_is_xz y) && unknown x y) BIT4_1 BIT4_0 st n Hok)|finish_differ].
    by intros [] [].
  - assert (E : (if sg then compare_gtge_signed (op_a_ st) (op_b_ st) BIT4_1 else Some (compare_gtge (op_a_ st) (op_b_ st) BIT4_1)) =
      Some (if any_xz (op_a_ st) || any_xz (op_b_ st) then BIT4_X else cmp_result (num_of sg (op_a_ st)) (num_of sg (op_b_ st)) BIT4_1)).
    { destruct sg; [apply compare_gtge_signed_spec; (done || lia)|by rewrite compare_gtge_spec by (done || lia)]. }
    eapply Hone; [|reflexivity]. unfold cmp_ge_out, gtge_base_out. by rewrite E.
  - assert (E : (if sg then compare_gtge_signed (op_a_ st) (op_b_ st) BIT4_0 else Some (compare_gtge (op_a_ st) (op_b_ st) BIT4_0)) =
      Some (if any_xz (op_a_ st) || any_xz (op_b_ st) then BIT4_X else cmp_result (num_of sg (op_a_ st)) (num_of sg (op_b_ st)) BIT4_0)).
    { destruct sg; [apply compare_gtge_signed_spec; (done || lia)|by rewrite compare_gtge_spec by (done || lia)]. }
    eapply Hone; [|reflexivity]. unfold cmp_gt_out, gtge_base_out. by rewrite E.
  - destruct (shiftl_spec n st Hok H64) as (r & E & _ & S1 & V1). by exists r.
  - destruct (shiftr_spec sg n st Hok H64) as (r & E & _ & S1 & V1). by exists r.
Qed.

(** ** Witnesses and corner cases *)

Definition two_operands (n : nat) (a b : Z) : vvp_arith_ :=
  Arith n (vec4_of_Z n a) (vec4_of_Z n b) (vec4_fill n BIT4_X).

Lemma arith_div_mod_correct_witness :
  exists r, mod_out (H := host64) true (two_operands 100 (-7) 3) = Some r /\ vval r = 2 ^ 100 - 1.
Proof.
  destruct (arith_div_mod_correct (H := host64) true 100 (two_operands 100 (-7) 3)) as [_ (r & E & _ & _ & V)].
  - constructor; [reflexivity|lia|split; [apply vec_wf_dec_bool|]; reflexivity..|reflexivity].
  - by right.
  - by right.
  - exists r. split; [exact E|].
    assert (Hx : any_xz (op_a_ (two_operands 100 (-7) 3)) || any_xz (op_b_ (two_operands 100 (-7) 3)) ||
      (ones_val (op_b_ (two_operands 100 (-7) 3)) 100 =? 0) = false) by (vm_compute; reflexivity).
    cbn [two_operands op_b_ size vec4_of_Z] in V, Hx. rewrite Hx in V. destruct V as [_ V]. rewrite V. vm_compute. reflexivity.
Defined.

Lemma arith_functors_correct_witness :
  exists r, sub_out (two_operands 100 5 7) = Some r /\ arith_result false 100 (5 - 7) r.
Proof.
  destruct (arith_functors_correct true 100 (two_operands 100 5 7)) as (_ & (r & E & R) & _).
  - constructor; [reflexivity|lia|split; [apply vec_wf_dec_bool|]; reflexivity..|reflexivity].
  - exists r. split; [exact E|]. assert (Hx : any_xz (op_a_ (two_operands 100 5 7)) || any_xz (op_b_ (two_operands 100 5 7)) = false) by (vm_compute; reflexivity).
    rewrite Hx in R. exact R.
Defined.

Lemma cmp_shift_functors_correct_witness :
  (exists r, cmp_eq_out (two_operands 100 5 7) = Some r /\ size r = 1%nat /\ value r 0 = BIT4_0) /\
  option_map (fun r => value r 0) (cmp_eq_out (Arith 2 (vec4_fill 2 BIT4_X) (vec4_of_Z 2 1) (vec4_fill 2 BIT4_X))) = Some BIT4_X.
Proof.
  split; [|vm_compute; reflexivity].
  destruct (cmp_shift_functors_correct true 100 (two_operands 100 5 7)) as (_ & _ & (r & E & S1 & V1) & _).
  - constructor; [reflexivity|lia|split; [apply vec_wf_dec_bool|]; reflexivity..|reflexivity].
  - lia.
  - exists r. split; [exact E|]. split; [exact S1|]. rewrite V1. vm_compute. reflexivity.
Defined.

(** A base wider than 32 bits loses the special cases of a negative exponent:
    [1 ** -1] is 0. *)
Lemma wide_negative_power :
  option_map vval (pow_out true (two_operands 40 1 (-1))) = Some 0 /\
  option_map vval (pow_out true (two_operands 32 1 (-1))) = Some 1.
Proof. split; vm_compute; reflexivity. Qed.

(** A first operand narrower than the difference is extended with ones. *)
Lemma narrow_minuend :
  option_map vval (sub_out (Arith 8 (vec4_of_Z 4 5) (vec4_of_Z 8 0) (vec4_fill 8 BIT4_X))) = Some 0xf5.
Proof. vm_compute. reflexivity. Qed.
