(* ===== verification/Ring.v ===== *)
(** * Ring: the circular event lists of the scheduler (vvp/schedule.cc)

    A queue of events is a pointer to its last event, whose [next] is the first
    one.  The pointer operations of the scheduler are modelled on a heap of
    [next] fields, and shown to implement a list with insertion at both ends. *)

From S2P Require Import Prelude.
From stdpp Require Import functions gmap list.

(** Event objects are named by their addresses. *)
Abbreviation loc := positive (only parsing).

(** The [next] fields; [None] is a read of an object that is not there. *)
Abbreviation heap := (gmap loc loc) (only parsing).

(** The tail of [schedule_event_]: [cur] joins the queue [*q] at the end. *)
Definition ring_push_back (h : heap) (q : option loc) (cur : loc) : option (heap * option loc) :=
  let h := <[cur := cur]> h in
  match q with
  | Some last =>
    first ← h !! last;
    let h := <[cur := first]> h in
    let h := <[last := cur]> h in
    Some (h, Some cur)
  | None => Some (h, Some cur)
  end.

(** [schedule_init_event] and [schedule_final_event]. *)
Definition schedule_init_event (h : heap) (schedule_init_list : option loc) (cur : loc)
    : option (heap * option loc) :=
  match schedule_init_list with
  | None => Some (<[cur := cur]> h, Some cur)
  | Some last =>
    first ← h !! last;
    let h := <[cur := first]> h in
    let h := <[last := cur]> h in
    Some (h, Some cur)
  end.

(** The list part of [schedule_event_push_]: [cur] becomes the first event. *)
Definition ring_push_front (h : heap) (active : option loc) (cur : loc) : option (heap * option loc) :=
  match active with
  | None => Some (<[cur := cur]> h, Some cur)
  | Some last =>
    first ← h !! last;
    let h := <[cur := first]> h in
    let h := <[last := cur]> h in
    Some (h, active)
  end.

(** Every loop that runs events pulls the first one:
    [cur = q->next; if (cur->next == cur) q = 0; else q->next = cur->next;] *)
Definition ring_pop (h : heap) (q : option loc) : option (option loc * heap * option loc) :=
  match q with
  | None => Some (None, h, None)
  | Some last =>
    cur ← h !! last;
    nxt ← h !! cur;
    if decide (nxt = cur) then Some (Some cur, h, None)
    else Some (Some cur, <[last := nxt]> h, q)
  end.

(** ** Representation *)

(** [q] is the queue of the events [l], first to last. *)
Record ring (h : heap) (q : option loc) (l : list loc) : Prop := {
  ring_last : q = last l;
  ring_nodup : NoDup l;
  ring_next : forall i x, l !! i = Some x ->
    h !! x = match l !! S i with Some y => Some y | None => head l end }.

(** Only the fields of the events of [l] and of [cur] may have changed. *)
Definition frame (h h' : heap) (l : list loc) : Prop := forall p, p ∉ l -> h' !! p = h !! p.

Lemma ring_nil h q : ring h q [] -> q = None.
Proof. by intros [H _ _]. Qed.

Lemma ring_empty h : ring h None [].
Proof. split; [done|constructor|]. intros i x H. by rewrite lookup_nil in H. Qed.

(** The last event of a nonempty queue points to the first. *)
Lemma ring_first h q x l : ring h q (x :: l) -> exists t, q = Some t /\ h !! t = Some x /\ last (x :: l) = Some t.
Proof.
  intros [Hl _ Hn]. destruct (last (x :: l)) as [t|] eqn:E; [|by apply last_None in E].
  exists t. split; [done|]. split; [|done]. rewrite last_lookup in E. specialize (Hn _ _ E).
  rewrite Hn. by rewrite lookup_ge_None_2 by (simpl; lia).
Qed.

Lemma last_in (l : list loc) t : last l = Some t -> t ∈ l.
Proof. rewrite last_lookup. apply list_elem_of_lookup_2. Qed.

(** A queue does not depend on the fields of other events. *)
Lemma ring_frame h h' q l : ring h q l -> (forall p, p ∈ l -> h' !! p = h !! p) -> ring h' q l.
Proof.
  intros [H1 H2 H3] Hf. split; [done..|]. intros i x Hx. rewrite Hf by (by eapply list_elem_of_lookup_2). by apply H3.
Qed.

Lemma nodup_index (l : list loc) i j x : NoDup l -> l !! i = Some x -> l !! j = Some x -> i = j.
Proof. intros Hd Hi Hj. exact (NoDup_lookup _ _ _ _ Hd Hi Hj). Qed.

(** Linking [cur] between the last and the first event: both ends of the list. *)
Lemma link_spec h q x l cur t : ring h q (x :: l) -> last (x :: l) = Some t -> cur ∉ x :: l ->
  let h' := <[t := cur]> (<[cur := x]> h) in
  ring h' (Some cur) ((x :: l) ++ [cur]) /\ ring h' q (cur :: x :: l).
Proof.
  intros [Hl Hd Hn] Ht Hc. cbv zeta.
  assert (Hne : cur <> t) by (intros ->; by apply Hc, last_in).
  assert (Htl : (x :: l) !! pred (length (x :: l)) = Some t) by (by rewrite <- last_lookup).
  split.
  - split; [by rewrite last_snoc| |].
    + apply NoDup_app. split; [done|]. split; [|apply NoDup_singleton].
      intros y Hy ->%list_elem_of_singleton. done.
    + intros i y Hy. destruct (decide (i < length (x :: l))%nat) as [Hi|Hi].
      * rewrite lookup_app_l in Hy by done. assert (y <> cur) by (intros ->; by apply Hc; eapply list_elem_of_lookup_2).
        destruct (decide (y = t)) as [->|Hyt].
        -- rewrite lookup_insert_eq. assert (i = pred (length (x :: l))) as -> by (by eapply nodup_index).
           rewrite lookup_app_r by (simpl; lia). by replace (_ - _)%nat with 0%nat by (simpl; lia).
        -- rewrite !lookup_insert_ne by done. rewrite (Hn i y Hy).
           assert (S i < length (x :: l))%nat.
           { destruct (decide (S i = length (x :: l))); [|lia]. exfalso. apply Hyt.
             assert (i = pred (length (x :: l))) as -> by (simpl in *; lia). congruence. }
           rewrite lookup_app_l by done. destruct ((x :: l) !! S i) eqn:E; [done|].
           apply lookup_ge_None_1 in E. lia.
      * pose proof (lookup_lt_Some _ _ _ Hy) as Hlt. rewrite length_app in Hlt. cbn [length] in *.
        assert (i = length (x :: l)) as -> by (simpl; lia).
        rewrite lookup_app_r in Hy by done. rewrite Nat.sub_diag in Hy. simplify_eq/=.
        rewrite lookup_insert_ne, lookup_insert_eq by done.
        rewrite (lookup_ge_None_2 (l ++ [_])); [done|]. rewrite length_app. simpl. lia.
  - split; [done|by constructor|]. intros [|i] y Hy.
    + simplify_eq/=. by rewrite lookup_insert_ne, lookup_insert_eq.
    + simpl in Hy. assert (y <> cur) by (intros ->; by apply Hc; eapply list_elem_of_lookup_2).
      destruct (decide (y = t)) as [->|Hyt].
      * rewrite lookup_insert_eq. assert (i = pred (length (x :: l))) as -> by (by eapply nodup_index).
        by rewrite (lookup_ge_None_2 (cur :: x :: l)) by (simpl; lia).
      * rewrite !lookup_insert_ne by done. rewrite (Hn i y Hy). change ((cur :: x :: l) !! S (S i)) with ((x :: l) !! S i).
        destruct ((x :: l) !! S i) eqn:E; [done|]. exfalso. apply Hyt.
        apply lookup_ge_None_1 in E. pose proof (lookup_lt_Some _ _ _ Hy).
        assert (i = pred (length (x :: l))) as -> by (simpl in *; lia). congruence.
Qed.

Lemma singleton_ring h cur : ring (<[cur := cur]> h) (Some cur) [cur].
Proof.
  split; [done|apply NoDup_singleton|]. intros [|i] x Hx; simplify_eq/=. by rewrite lookup_insert_eq.
Qed.

(** The common shape of the three insertions. *)
Lemma link_frame (h : heap) cur x t l : cur ∉ l -> t ∈ l -> frame h (<[t := cur]> (<[cur := x]> h)) (cur :: l).
Proof.
  intros Hc Ht p Hp. rewrite not_elem_of_cons in Hp. destruct Hp as [H1 H2].
  rewrite !lookup_insert_ne; [done|congruence|]. intros ->. done.
Qed.

Lemma init_event_spec h q l cur : ring h q l -> cur ∉ l ->
  exists h', schedule_init_event h q cur = Some (h', Some cur) /\ ring h' (Some cur) (l ++ [cur]) /\
             frame h h' (cur :: l).
Proof.
  intros Hr Hc. destruct l as [|x l].
  - rewrite (ring_nil h q Hr). simpl. eexists. split; [done|]. split; [apply singleton_ring|].
    intros p [Hp _]%not_elem_of_cons. by rewrite lookup_insert_ne.
  - destruct (ring_first h q x l Hr) as (t & -> & Ht & Hl). simpl. rewrite Ht. simpl.
    destruct (link_spec h (Some t) x l cur t Hr Hl Hc) as [Hb _]. eexists. split; [done|]. split; [done|].
    apply link_frame; [done|by apply last_in].
Qed.

Lemma push_back_spec h q l cur : ring h q l -> cur ∉ l ->
  exists h', ring_push_back h q cur = Some (h', Some cur) /\ ring h' (Some cur) (l ++ [cur]) /\ frame h h' (cur :: l).
Proof.
  intros Hr Hc. destruct (init_event_spec h q l cur Hr Hc) as (h' & E & H1 & H2). exists h'.
  split; [|done]. rewrite <- E. destruct q as [t|]; [|done]. simpl.
  destruct l as [|x l]; [by destruct Hr|]. destruct (ring_first h (Some t) x l Hr) as (t' & [= <-] & Ht & Hl).
  assert (cur <> t) by (intros ->; by apply Hc, last_in).
  rewrite lookup_insert_ne by done. rewrite Ht. simpl. by rewrite insert_insert_eq.
Qed.

Lemma push_front_spec h q l cur : ring h q l -> cur ∉ l ->
  exists h' q', ring_push_front h q cur = Some (h', q') /\ ring h' q' (cur :: l) /\ frame h h' (cur :: l).
Proof.
  intros Hr Hc. destruct l as [|x l].
  - rewrite (ring_nil h q Hr). simpl. eexists _, _. split; [done|]. split; [apply singleton_ring|].
    intros p [Hp _]%not_elem_of_cons. by rewrite lookup_insert_ne.
  - destruct (ring_first h q x l Hr) as (t & -> & Ht & Hl). simpl. rewrite Ht. simpl.
    destruct (link_spec h (Some t) x l cur t Hr Hl Hc) as [_ Hf]. eexists _, _. split; [done|]. split; [done|].
    apply link_frame; [done|by apply last_in].
Qed.

(** Unlinking the first event. *)
Lemma unlink_spec h q x y l t : ring h q (x :: y :: l) -> last (y :: l) = Some t ->
  ring (<[t := y]> h) q (y :: l).
Proof.
  intros [Hl Hd Hn] Ht. apply NoDup_cons in Hd as [Hx Hd]. split; [by rewrite Hl, last_cons_cons|done|].
  intros i z Hz. specialize (Hn (S i) z Hz).
  assert (Htl : (y :: l) !! pred (length (y :: l)) = Some t) by (by rewrite <- last_lookup).
  destruct (decide (z = t)) as [->|Hzt].
  - rewrite lookup_insert_eq. assert (i = pred (length (y :: l))) as -> by (by eapply nodup_index).
    by rewrite (lookup_ge_None_2 (y :: l)) by (simpl; lia).
  - rewrite lookup_insert_ne by done. rewrite Hn.
    change ((x :: y :: l) !! S (S i)) with ((y :: l) !! S i).
    destruct ((y :: l) !! S i) eqn:E; [done|]. exfalso. apply Hzt.
    apply lookup_ge_None_1 in E. pose proof (lookup_lt_Some _ _ _ Hz).
    assert (i = pred (length (y :: l))) as -> by (simpl in *; lia). congruence.
Qed.

Lemma pop_spec h q x l : ring h q (x :: l) ->
  exists h' q', ring_pop h q = Some (Some x, h', q') /\ ring h' q' l /\ frame h h' l.
Proof.
  intros Hr. destruct (ring_first h q x l Hr) as (t & Hq & Ht & Hl). rewrite Hq. simpl. rewrite Ht. simpl.
  destruct Hr as [H1 H2 H3]. pose proof (H3 0%nat x eq_refl) as Hx. simpl in Hx. rewrite Hx.
  destruct l as [|y l]; simpl.
  - rewrite decide_True by done. eexists _, _. split; [done|]. split; [apply ring_empty|done].
  - rewrite decide_False; [|apply NoDup_cons in H2 as [H2 _]; intros ->; apply H2; left].
    rewrite last_cons_cons in Hl. eexists _, _. split; [done|].
    split; [by apply (unlink_spec h _ x)|]. intros p Hp. rewrite lookup_insert_ne; [done|].
    intros <-. by apply Hp, last_in.
Qed.

Lemma pop_empty h : ring_pop h None = Some (None, h, None).
Proof. done. Qed.

(** ** The queues of the scheduler *)

(** The objects on the heap and all queues of the scheduler: [active],
    [inactive], ... of every time cell, [schedule_init_list] and
    [schedule_final_list], each under a number. *)
Abbreviation queues := (heap * (nat -> option loc))%type (only parsing).

Inductive ring_op :=
| PushBack (k : nat) (cur : loc)    (* schedule_event_ *)
| PushFront (k : nat) (cur : loc)   (* schedule_event_push_ *)
| InitEvent (k : nat) (cur : loc)   (* schedule_init_event, schedule_final_event *)
| Pop (k : nat)                     (* cur = q->next, unlinked *)
| Delete (cur : loc)                (* delete cur *)
| Take (k k2 : nat).                (* ctim->active = ctim->inactive; ctim->inactive = 0 *)

(** [delete cur] gives the object back; deleting what is not there is an error. *)
Definition ring_delete (h : heap) (cur : loc) : option heap :=
  _ ← h !! cur; Some (delete cur h).

(** The operations on the heap; the output is the event a [Pop] returns. *)
Definition ring_step (op : ring_op) (s : queues) : option (option loc * queues) :=
  let '(h, qs) := s in
  match op with
  | PushBack k cur => '(h, q) ← ring_push_back h (qs k) cur; Some (None, (h, <[k := q]> qs))
  | PushFront k cur => '(h, q) ← ring_push_front h (qs k) cur; Some (None, (h, <[k := q]> qs))
  | InitEvent k cur => '(h, q) ← schedule_init_event h (qs k) cur; Some (None, (h, <[k := q]> qs))
  | Pop k => '(x, h, q) ← ring_pop h (qs k); Some (x, (h, <[k := q]> qs))
  | Delete cur => h ← ring_delete h cur; Some (None, (h, qs))
  | Take k k2 => Some (None, (h, <[k2 := None]> (<[k := qs k2]> qs)))
  end.

Fixpoint ring_run (ops : list ring_op) (s : queues) : option (list (option loc) * queues) :=
  match ops with
  | [] => Some ([], s)
  | op :: ops => '(out, s) ← ring_step op s; '(outs, s) ← ring_run ops s; Some (out :: outs, s)
  end.

(** The same operations on lists, next to the set of the events that were
    pulled off and are not deleted yet. *)
Abbreviation lists := ((nat -> list loc) * gset loc)%type (only parsing).

Definition list_step (op : ring_op) (s : lists) : option loc * lists :=
  let '(ls, held) := s in
  match op with
  | PushBack k cur | InitEvent k cur => (None, (<[k := ls k ++ [cur]]> ls, held))
  | PushFront k cur => (None, (<[k := cur :: ls k]> ls, held))
  | Pop k => (head (ls k), (<[k := tail (ls k)]> ls, held ∪ list_to_set (option_list (head (ls k)))))
  | Delete cur => (None, (ls, held ∖ {[cur]}))
  | Take k k2 => (None, (<[k2 := []]> (<[k := ls k2]> ls), held))
  end.

Fixpoint list_run (ops : list ring_op) (s : lists) : list (option loc) * lists :=
  match ops with
  | [] => ([], s)
  | op :: ops => let '(out, s) := list_step op s in let '(outs, s) := list_run ops s in (out :: outs, s)
  end.

(** How the scheduler uses its queues: an event that is put was made by [new], so
    that no event that is queued or was pulled and not deleted has its address;
    only an event that was pulled is deleted, once; and a queue is taken over by
    another one that is empty. *)
Definition fresh (cur : loc) (s : lists) : Prop := (forall k, cur ∉ fst s k) /\ cur ∉ snd s.

Definition op_used (op : ring_op) (s : lists) : Prop :=
  match op with
  | PushBack _ cur | PushFront _ cur | InitEvent _ cur => fresh cur s
  | Pop _ => True
  | Delete cur => cur ∈ snd s
  | Take k k2 => fst s k = [] /\ k <> k2
  end.

Fixpoint ops_used (ops : list ring_op) (s : lists) : Prop :=
  match ops with
  | [] => True
  | op :: ops => op_used op s /\ ops_used ops (snd (list_step op s))
  end.

(** The lists that the queues hold: no event is in two of them, and those that
    were pulled and not deleted are still there. *)
Record holds (s : queues) (a : lists) : Prop := {
  holds_ring : forall k, ring (fst s) (snd s k) (fst a k);
  holds_apart : forall k k2, k <> k2 -> fst a k ## fst a k2;
  holds_held : forall k x, x ∈ snd a -> x ∉ fst a k;
  holds_there : forall x, x ∈ snd a -> is_Some (fst s !! x) }.

Lemma ring_there h q l x : ring h q l -> x ∈ l -> is_Some (h !! x).
Proof.
  intros [_ _ Hn] [i Hi]%list_elem_of_lookup_1. rewrite (Hn i x Hi).
  destruct (l !! S i); [done|]. destruct l; [by rewrite lookup_nil in Hi|done].
Qed.

(** One queue changes, by events of its own and perhaps a new one: the others
    and the events that were pulled stay. *)
Lemma holds_update h qs ls held k h' q' l' held' cur :
  holds (h, qs) (ls, held) -> fresh cur (ls, held) \/ cur ∈ ls k ->
  ring h' q' l' -> frame h h' (cur :: ls k) ->
  (forall x, x ∈ l' -> x = cur \/ x ∈ ls k) -> (forall x, x ∈ l' -> x ∉ held') ->
  (forall x, x ∈ held' -> x ∈ held \/ x ∈ ls k /\ is_Some (h' !! x)) ->
  holds (h', <[k := q']> qs) (<[k := l']> ls, held').
Proof.
  intros [H1 H2 H3 H4] Hc Hr Hf Hin Hout Hheld. simpl in *.
  assert (Ha : forall k2 x, k2 <> k -> x ∈ ls k2 -> x ∉ cur :: ls k).
  { intros k2 x Hne Hx [->|Hk]%elem_of_cons.
    - destruct Hc as [[Hc _]|Hc]; [by apply (Hc k2)|by apply (H2 k2 k Hne cur)].
    - by apply (H2 k2 k Hne x). }
  assert (Hb : forall x, x ∈ held -> x ∉ cur :: ls k).
  { intros x Hx [->|Hk]%elem_of_cons; [|by apply (H3 k x)].
    destruct Hc as [[_ Hc]|Hc]; [done|by apply (H3 k cur)]. }
  split; simpl.
  - intros k2. destruct (decide (k2 = k)) as [->|Hne]; [by rewrite !fn_lookup_insert|].
    rewrite !fn_lookup_insert_ne by done. apply (ring_frame h); [done|]. intros p Hp. apply Hf. by apply (Ha k2).
  - intros k1 k2 Hne x. destruct (decide (k1 = k)) as [->|N1], (decide (k2 = k)) as [->|N2];
      rewrite ?fn_lookup_insert, ?fn_lookup_insert_ne by done; [done| | |by apply H2].
    + intros Hx Hx2. apply (Ha k2 x N2 Hx2), elem_of_cons. auto.
    + intros Hx2 Hx. apply (Ha k1 x N1 Hx2), elem_of_cons. auto.
  - intros k2 x Hx. destruct (decide (k2 = k)) as [->|Hne]; [rewrite fn_lookup_insert; intros Hl; by apply (Hout x)|].
    rewrite fn_lookup_insert_ne by done. intros Hk. destruct (Hheld x Hx) as [Hh|[Hl _]]; [by apply (H3 k2 x)|].
    by apply (H2 k2 k Hne x).
  - intros x Hx. destruct (Hheld x Hx) as [Hh|[_ Hl]]; [|done]. rewrite (Hf x); [by apply H4|by apply Hb].
Qed.

Lemma holds_same h qs qs' ls ls' held : holds (h, qs) (ls, held) -> (forall k, qs' k = qs k) -> (forall k, ls' k = ls k) ->
  holds (h, qs') (ls', held).
Proof.
  intros [H1 H2 H3 H4] Eq El. simpl in *. split; simpl; [| | |done].
  - intros k. by rewrite Eq, El.
  - intros k k2. rewrite !El. apply H2.
  - intros k. rewrite El. apply H3.
Qed.

Lemma holds_put h qs ls held k cur h' q' l' : holds (h, qs) (ls, held) -> fresh cur (ls, held) ->
  ring h' q' l' -> frame h h' (cur :: ls k) -> (forall x, x ∈ l' -> x = cur \/ x ∈ ls k) ->
  holds (h', <[k := q']> qs) (<[k := l']> ls, held).
Proof.
  intros Hh Hc Hr Hf Hin. eapply holds_update; [done|by left|done|done|done| |by left].
  intros x [->|Hl]%Hin Hx; [by apply Hc|]. by apply (holds_held _ _ Hh k x).
Qed.

Lemma holds_pop h qs ls held k x l h' q' : holds (h, qs) (ls, held) -> ls k = x :: l ->
  ring h' q' l -> frame h h' l -> holds (h', <[k := q']> qs) (<[k := l]> ls, held ∪ {[x]}).
Proof.
  intros Hh E Hr Hf.
  pose proof (holds_ring _ _ Hh k) as Hk. simpl in Hk. rewrite E in Hk.
  pose proof (ring_nodup _ _ _ Hk) as Hd. apply NoDup_cons in Hd as [Hxl _].
  assert (Hx : is_Some (h' !! x)) by (rewrite Hf by done; eapply ring_there; [exact Hk|left]).
  eapply (holds_update _ _ _ _ k _ _ _ _ x); [done|right; rewrite E; left|done| | | |].
  - rewrite E. intros p Hp. apply Hf. set_solver.
  - intros y Hy. right. rewrite E. by right.
  - intros y Hy [Hq| ->%elem_of_singleton]%elem_of_union; [|done].
    apply (holds_held _ _ Hh k y Hq). simpl. rewrite E. by right.
  - intros y [Hy| ->%elem_of_singleton]%elem_of_union; [by left|right]. split; [rewrite E; left|done].
Qed.

Lemma holds_delete h qs ls held cur : holds (h, qs) (ls, held) -> cur ∈ held ->
  holds (delete cur h, qs) (ls, held ∖ {[cur]}).
Proof.
  intros [H1 H2 H3 H4] Hc. simpl in *. split; simpl; [|done|set_solver|].
  - intros k. apply (ring_frame h); [done|]. intros p Hp. rewrite lookup_delete_ne; [done|].
    intros ->. by apply (H3 k p).
  - intros x [Hx Hne]%elem_of_difference. rewrite lookup_delete_ne by set_solver. by apply H4.
Qed.

Lemma holds_take h qs ls held k k2 : holds (h, qs) (ls, held) -> ls k = [] -> k <> k2 ->
  holds (h, <[k2 := None]> (<[k := qs k2]> qs)) (<[k2 := []]> (<[k := ls k2]> ls), held).
Proof.
  intros [H1 H2 H3 H4] E Hne. simpl in *.
  assert (Hl : forall j, (<[k2 := []]> (<[k := ls k2]> ls) : nat -> list loc) j =
    if decide (j = k2) then [] else if decide (j = k) then ls k2 else ls j).
  { intros j. destruct (decide (j = k2)) as [->|]; [by rewrite fn_lookup_insert|]. rewrite fn_lookup_insert_ne by done.
    destruct (decide (j = k)) as [->|]; [by rewrite fn_lookup_insert|by rewrite fn_lookup_insert_ne]. }
  split; simpl; [| | |done].
  - intros j. rewrite Hl. destruct (decide (j = k2)) as [->|]; [rewrite fn_lookup_insert; apply ring_empty|].
    rewrite fn_lookup_insert_ne by done.
    destruct (decide (j = k)) as [->|]; [by rewrite fn_lookup_insert|by rewrite fn_lookup_insert_ne].
  - intros i j Hij x. rewrite !Hl. repeat case_decide; subst; try done; try (by intros ?%elem_of_nil);
      try (by intros _ ?%elem_of_nil); apply H2; congruence.
  - intros j x Hx. rewrite Hl. repeat case_decide; subst; [set_solver|by apply H3..].
Qed.

Lemma ring_step_spec op s a : holds s a -> op_used op a ->
  exists s', ring_step op s = Some (fst (list_step op a), s') /\ holds s' (snd (list_step op a)).
Proof.
  destruct s as [h qs], a as [ls held]. intros Hh Hu. pose proof (fun k => holds_ring _ _ Hh k) as Hr. simpl in Hr.
  destruct op as [k cur|k cur|k cur|k|cur|k k2]; simpl in *.
  - destruct (push_back_spec h _ _ cur (Hr k)) as (h' & -> & H & Hf); [apply Hu|]. eexists. split; [done|].
    eapply holds_put; [done..|]. set_solver.
  - destruct (push_front_spec h _ _ cur (Hr k)) as (h' & q' & -> & H & Hf); [apply Hu|]. eexists. split; [done|].
    eapply holds_put; [done..|]. set_solver.
  - destruct (init_event_spec h _ _ cur (Hr k)) as (h' & -> & H & Hf); [apply Hu|]. eexists. split; [done|].
    eapply holds_put; [done..|]. set_solver.
  - specialize (Hr k). destruct (ls k) as [|x l] eqn:E.
    + rewrite (ring_nil h _ Hr). simpl. eexists. split; [done|]. rewrite union_empty_r_L.
      eapply holds_same; [exact Hh|intros j; simpl..].
      * destruct (decide (j = k)) as [->|]; [by rewrite fn_lookup_insert, (ring_nil h _ Hr)|by rewrite fn_lookup_insert_ne].
      * destruct (decide (j = k)) as [->|]; [by rewrite fn_lookup_insert|by rewrite fn_lookup_insert_ne].
    + destruct (pop_spec h _ x l Hr) as (h' & q' & -> & H & Hf). simpl. eexists. split; [done|].
      rewrite union_empty_r_L. by eapply holds_pop.
  - destruct (holds_there _ _ Hh cur Hu) as [y Hy]. unfold ring_delete. simpl in Hy. rewrite Hy. simpl.
    eexists. split; [done|]. by apply holds_delete.
  - eexists. split; [done|]. destruct Hu. by apply holds_take.
Qed.

Lemma ring_run_spec ops : forall s a, holds s a -> ops_used ops a ->
  exists s', ring_run ops s = Some (fst (list_run ops a), s') /\ holds s' (snd (list_run ops a)).
Proof.
  induction ops as [|op ops IH]; intros s a Hh Hu; [by exists s|]. destruct Hu as [H1 H2].
  destruct (ring_step_spec op s a Hh H1) as (s1 & E & Hh1). cbn [ring_run list_run]. rewrite E.
  destruct (list_step op a) as [out a1]. simpl in *. destruct (IH s1 a1 Hh1 H2) as (s2 & -> & Hh2). simpl.
  destruct (list_run ops a1) as [outs a2]. by exists s2.
Qed.

Lemma holds_nothing : holds (∅, fun _ => None) (fun _ => [], ∅).
Proof. split; simpl; [intros k; apply ring_empty|set_solver..]. Qed.

(** C28. The pointer operations of the scheduler implement lists.  For any sequence of
    operations on any of the queues - joining at the end, pushing in front, the
    initial and final lists, pulling the first event, deleting a pulled event and
    taking over the events of another queue - in which an event is put when its
    object is new, only an event that was pulled and not deleted is deleted, and only
    an empty queue takes another one over: no operation reads or deletes an object
    that is not there, each pull returns what it returns on lists, and all queues
    hold their lists at the end, those that an operation does not name unchanged. *)
Theorem ring_queues_correct ops s a : holds s a -> ops_used ops a ->
  exists s', ring_run ops s = Some (fst (list_run ops a), s') /\ holds s' (snd (list_run ops a)).
Proof. apply ring_run_spec. Qed.

(** Two queues; the address of an event that ran is used again. *)
Lemma ring_queues_correct_witness :
  let ops := [PushBack 0 1; PushBack 1 2; PushFront 0 3; Pop 0; Delete 3; InitEvent 1 3; Pop 0; Take 0 1; Pop 0; Pop 0; Pop 0;
              Delete 1]%positive in
  exists s', ring_run ops (∅, fun _ => None) =
    Some ([None; None; None; Some 3; None; None; Some 1; None; Some 2; Some 3; None; None]%positive, s') /\
    holds s' (snd (list_run ops (fun _ => [], ∅))).
Proof.
  intros ops. destruct (ring_queues_correct ops (∅, fun _ => None) (fun _ => [], ∅) holds_nothing) as (s' & E & Hs').
  - cbn -[insert union difference]. unfold insert, fn_insert, fresh. simpl.
    repeat split; try (intros [|[|k]]; simpl); set_solver.
  - exists s'. split; [rewrite E; reflexivity|exact Hs'].
Defined.
