(* ===== verification/Schedule.v ===== *)
(** * Schedule: the stratified event queue (vvp/schedule.cc, vvp/schedule.h)

    The scheduler keeps a list of time cells, each with its delay after the cell
    before it and its seven queues of events.  A queue is the list of its events
    (Ring shows that the circular lists of the code implement it).  An event,
    when it runs, does something to the rest of the simulator - a parameter, the
    [design] - and calls back into the scheduler through the functions of
    schedule.h, here the constructors of [call].  [schedule_simulate] is the
    machine [step]: one iteration of the innermost loop that is running. *)

From S2P Require Import Prelude FourState Vector4.

(** ** Events *)

(** Handles of the other parts of vvp: threads, net inputs and nets, arrays,
    generic event objects; values of strength vectors and reals. *)
Class VvpTypes := {
  vthread_t : Type;
  vvp_net_ptr_t : Type;
  vvp_net_t : Type;
  vvp_array_t : Type;
  vvp_gen_event_t : Type;
  vvp_vector8_t : Type;
  real : Type;
}.

Section Schedule.
Context `{VvpTypes}.

(** The classes derived from [event_s], with their members. *)
Inductive event_s : Type :=
| vthread_event_s (thr : vthread_t)
| del_thr_event_s (thr : vthread_t)
| assign_vector4_event_s (ptr : vvp_net_ptr_t) (val : vvp_vector4_t) (base vwid : Z)
| assign_vector8_event_s (ptr : vvp_net_ptr_t) (val : vvp_vector8_t)
| assign_real_event_s (ptr : vvp_net_ptr_t) (val : real)
| assign_array_word_s (mem : vvp_array_t) (adr : nat) (val : vvp_vector4_t) (off : nat)
| force_vector4_event_s (net : vvp_net_t) (val : vvp_vector4_t) (base vwid : Z)
| propagate_vector4_event_s (net : vvp_net_t) (val : vvp_vector4_t)
| propagate_real_event_s (net : vvp_net_t) (val : real)
| assign_array_r_word_s (mem : vvp_array_t) (adr : nat) (val : real)
| generic_event_s (obj : vvp_gen_event_t) (delete_obj_when_done : bool).

(** ** Time cells *)

Record event_time_s : Type := Cell {
  delay : Z;
  start : list event_s;
  active : list event_s;
  inactive : list event_s;
  nbassign : list event_s;
  rwsync : list event_s;
  rosync : list event_s;
  del_thr : list event_s;
}.

(** [new struct event_time_s; tmp->delay = delay;] *)
Definition new_cell (delay : Z) : event_time_s := Cell delay [] [] [] [] [] [] [].

Definition set_delay (c : event_time_s) (delay : Z) : event_time_s :=
  Cell delay (start c) (active c) (inactive c) (nbassign c) (rwsync c) (rosync c) (del_thr c).

Inductive event_queue_t :=
| SEQ_START | SEQ_ACTIVE | SEQ_INACTIVE | SEQ_NBASSIGN | SEQ_RWSYNC | SEQ_ROSYNC | DEL_THREAD.

Definition queue_of (q : event_queue_t) (c : event_time_s) : list event_s :=
  match q with
  | SEQ_START => start c | SEQ_ACTIVE => active c | SEQ_INACTIVE => inactive c
  | SEQ_NBASSIGN => nbassign c | SEQ_RWSYNC => rwsync c | SEQ_ROSYNC => rosync c
  | DEL_THREAD => del_thr c
  end.

Definition set_queue (q : event_queue_t) (l : list event_s) (c : event_time_s) : event_time_s :=
  let '(Cell d st ac ia nb rw ro dt) := c in
  match q with
  | SEQ_START => Cell d l ac ia nb rw ro dt
  | SEQ_ACTIVE => Cell d st l ia nb rw ro dt
  | SEQ_INACTIVE => Cell d st ac l nb rw ro dt
  | SEQ_NBASSIGN => Cell d st ac ia l rw ro dt
  | SEQ_RWSYNC => Cell d st ac ia nb l ro dt
  | SEQ_ROSYNC => Cell d st ac ia nb rw l dt
  | DEL_THREAD => Cell d st ac ia nb rw ro l
  end.

(** ** Putting events in the queue *)

(** The third branch of the search in [schedule_event_]: walk to the cell of
    the time, or make it, and run [put] on it.  The result has the remaining
    value of the variable [delay]. *)
Fixpoint walk_cells (put : event_time_s -> event_time_s) (delay_ : Z) (ctim : event_time_s)
    (next : list event_time_s) : list event_time_s * Z :=
  let stop :=
    if delay_ <? delay ctim then
      (put (new_cell delay_) :: set_delay ctim (sub64 (delay ctim) delay_) :: next, delay_)
    else if delay ctim =? delay_ then (put ctim :: next, delay_)
    else (ctim :: put (new_cell (sub64 delay_ (delay ctim))) :: next, delay_) in
  match next with
  | c :: rest =>
    if delay ctim <? delay_ then
      let '(l, d) := walk_cells put (sub64 delay_ (delay ctim)) c rest in (ctim :: l, d)
    else stop
  | [] => stop
  end.

Definition find_cell (put : event_time_s -> event_time_s) (delay_ : Z) (sched_list : list event_time_s)
    : list event_time_s * Z :=
  match sched_list with
  | [] => ([put (new_cell delay_)], delay_)
  | ctim :: next =>
    if delay_ <? delay ctim then
      (put (new_cell delay_) :: set_delay ctim (sub64 (delay ctim) delay_) :: next, delay_)
    else walk_cells put delay_ ctim next
  end.

(** [schedule_event_] on the list of cells; [None] when its assertion
    [delay == 0] for the inactive queue fails. *)
Definition schedule_event_ (cur : event_s) (delay_ : Z) (select_queue : event_queue_t)
    (sched_list : list event_time_s) : option (list event_time_s) :=
  let '(sched_list, delay_) :=
    find_cell (fun ctim => set_queue select_queue (queue_of select_queue ctim ++ [cur]) ctim)
      delay_ sched_list in
  match select_queue with
  | SEQ_INACTIVE => if delay_ =? 0 then Some sched_list else None
  | _ => Some sched_list
  end.

Definition schedule_event_push_ (cur : event_s) (sched_list : list event_time_s) : option (list event_time_s) :=
  match sched_list with
  | [] => schedule_event_ cur 0 SEQ_ACTIVE sched_list
  | ctim :: next =>
    if 0 <? delay ctim then schedule_event_ cur 0 SEQ_ACTIVE sched_list
    else Some (set_queue SEQ_ACTIVE (cur :: active ctim) ctim :: next)
  end.

(** ** The interface of the scheduler *)

(** The functions of schedule.h through which the rest of vvp acts on the
    scheduler. *)
Inductive call : Type :=
| schedule_vthread (thr : vthread_t) (delay : Z) (push_flag : bool)
| schedule_t0_trigger (ptr : vvp_net_ptr_t)
| schedule_inactive (thr : vthread_t)
| schedule_init_vthread (thr : vthread_t)
| schedule_final_vthread (thr : vthread_t)
| schedule_assign_vector (ptr : vvp_net_ptr_t) (base vwid : Z) (bit : vvp_vector4_t) (delay : Z)
| schedule_force_vector (net : vvp_net_t) (base vwid : Z) (bit : vvp_vector4_t) (delay : Z)
| schedule_propagate_vector (net : vvp_net_t) (delay : Z) (src : vvp_vector4_t)
| schedule_propagate_event (net : vvp_net_t) (delay : Z)
| schedule_assign_array_word (mem : vvp_array_t) (word_addr off : nat) (val : vvp_vector4_t) (delay : Z)
| schedule_assign_array_word_real (mem : vvp_array_t) (word_addr : nat) (val : real) (delay : Z)
| schedule_set_vector (ptr : vvp_net_ptr_t) (bit : vvp_vector4_t)
| schedule_set_vector8 (ptr : vvp_net_ptr_t) (bit : vvp_vector8_t)
| schedule_set_real (ptr : vvp_net_ptr_t) (bit : real)
| schedule_init_vector (ptr : vvp_net_ptr_t) (bit : vvp_vector4_t)
| schedule_init_vector8 (ptr : vvp_net_ptr_t) (bit : vvp_vector8_t)
| schedule_init_real (ptr : vvp_net_ptr_t) (bit : real)
| schedule_init_propagate (net : vvp_net_t) (bit : vvp_vector4_t)
| schedule_init_propagate_real (net : vvp_net_t) (bit : real)
| schedule_del_thr (thr : vthread_t)
| schedule_generic (obj : vvp_gen_event_t) (delay : Z) (sync_flag ro_flag delete_when_done : bool)
| schedule_functor (obj : vvp_gen_event_t)
| schedule_at_start_of_simtime (obj : vvp_gen_event_t) (delay : Z)
| schedule_at_end_of_simtime (obj : vvp_gen_event_t) (delay : Z)
| schedule_finish
| schedule_stop
| schedule_single_step.

(** What the functions read back: [schedule_simtime], [schedule_at_rosync],
    [schedule_finished], [schedule_stopped]. *)
Record view : Type := View {
  schedule_simtime : Z;
  schedule_at_rosync : bool;
  schedule_finished : bool;
  schedule_stopped : bool;
}.

(** The rest of the simulator: its state [D], and what the calls of the
    scheduler into it do, to that state and as calls back. *)
Class Design (D : Type) := {
  vthread_run : vthread_t -> view -> D -> D * list call;
  vthread_delete : vthread_t -> view -> D -> D * list call;
  vthread_mark_scheduled : vthread_t -> D -> D;
  vthread_mark_final : vthread_t -> D -> D;
  vthread_delay_delete : D -> D;
  vvp_send_vec4 : vvp_net_ptr_t -> vvp_vector4_t -> view -> D -> D * list call;
  vvp_send_vec4_pv : vvp_net_ptr_t -> vvp_vector4_t -> Z -> Z -> view -> D -> D * list call;
  vvp_send_vec8 : vvp_net_ptr_t -> vvp_vector8_t -> view -> D -> D * list call;
  vvp_send_real : vvp_net_ptr_t -> real -> view -> D -> D * list call;
  set_word : vvp_array_t -> nat -> nat -> vvp_vector4_t -> view -> D -> D * list call;
  set_word_real : vvp_array_t -> nat -> real -> view -> D -> D * list call;
  (** the value of [net->fil], [None] when it is not a [vvp_signal_value] *)
  vec4_value : vvp_net_t -> D -> option vvp_vector4_t;
  (** the mask, a [vvp_vector2_t], is the list of its bits *)
  force_vec4 : vvp_net_t -> vvp_vector4_t -> list bool -> view -> D -> D * list call;
  net_send_vec4 : vvp_net_t -> vvp_vector4_t -> view -> D -> D * list call;
  net_send_real : vvp_net_t -> real -> view -> D -> D * list call;
  gen_run_run : vvp_gen_event_t -> view -> D -> D * list call;
  gen_delete : vvp_gen_event_t -> D -> D;
  stop_handler : view -> D -> D * list call;
  vpiEndOfCompile : view -> D -> D * list call;
  vpiStartOfSim : view -> D -> D * list call;
  vpiNextSimTime : view -> D -> D * list call;
  vpiPostsim : view -> D -> D * list call;
}.

(** ** The scheduler *)

(** Where [schedule_simulate] is. *)
Inductive phase :=
| Begin        (* on entry *)
| Inits        (* the loop over schedule_init_list *)
| StartOfSim   (* between that loop and the main one *)
| Main         (* the head of the main loop *)
| StartOfTime  (* the loop over ctim->start *)
| Queues       (* from "If there are no more active events" on *)
| Rosync       (* the first loop of run_rosync *)
| DelThr       (* its second loop *)
| Finals       (* the loop over schedule_final_list *)
| Done.

#[export] Instance phase_eq_dec : EqDecision phase.
Proof. solve_decision. Defined.

(** What happened, for the theorems: an event was put into a list, was run, or
    was still in a time cell when that cell was deleted; [At t] is an event of
    the queue that is due at time [t]. *)
Inductive place := InInits | InFinals | At (due : Z).
Inductive entry := Put (w : place) (cur : event_s) | Ran (w : place) (cur : event_s) | Dropped (w : place) (cur : event_s)
| SchedulerError.

Record state (D : Type) : Type := State {
  sched_list : list event_time_s;
  schedule_init_list : list event_s;
  schedule_final_list : list event_s;
  schedule_runnable : bool;
  schedule_stopped_flag : bool;
  schedule_single_step_flag : bool;
  sim_started : bool;
  sim_at_rosync : bool;
  schedule_time : Z;
  run_finals : bool;
  at_phase : phase;
  the_design : D;
  log : list entry; (* latest first; not part of the code *)
}.

End Schedule.

Arguments sched_list {_ _} _.
Arguments schedule_init_list {_ _} _.
Arguments schedule_final_list {_ _} _.
Arguments schedule_runnable {_ _} _.
Arguments schedule_stopped_flag {_ _} _.
Arguments schedule_single_step_flag {_ _} _.
Arguments sim_started {_ _} _.
Arguments sim_at_rosync {_ _} _.
Arguments schedule_time {_ _} _.
Arguments run_finals {_ _} _.
Arguments at_phase {_ _} _.
Arguments the_design {_ _} _.
Arguments log {_ _} _.

Section Simulate.
Context `{VvpTypes} {D : Type} `{!Design D}.

(** ** Updates *)

Definition set_cells (x : list event_time_s) (st : state D) : state D :=
  State D x (schedule_init_list st) (schedule_final_list st) (schedule_runnable st) (schedule_stopped_flag
    st) (schedule_single_step_flag st) (sim_started st) (sim_at_rosync st) (schedule_time st) (run_finals
    st) (at_phase st) (the_design st) (log st).
Definition set_inits (x : list event_s) (st : state D) : state D :=
  State D (sched_list st) x (schedule_final_list st) (schedule_runnable st) (schedule_stopped_flag st)
    (schedule_single_step_flag st) (sim_started st) (sim_at_rosync st) (schedule_time st) (run_finals st)
    (at_phase st) (the_design st) (log st).
Definition set_finals (x : list event_s) (st : state D) : state D :=
  State D (sched_list st) (schedule_init_list st) x (schedule_runnable st) (schedule_stopped_flag st)
    (schedule_single_step_flag st) (sim_started st) (sim_at_rosync st) (schedule_time st) (run_finals st)
    (at_phase st) (the_design st) (log st).
Definition set_runnable (x : bool) (st : state D) : state D :=
  State D (sched_list st) (schedule_init_list st) (schedule_final_list st) x (schedule_stopped_flag st)
    (schedule_single_step_flag st) (sim_started st) (sim_at_rosync st) (schedule_time st) (run_finals st)
    (at_phase st) (the_design st) (log st).
Definition set_stopped (x : bool) (st : state D) : state D :=
  State D (sched_list st) (schedule_init_list st) (schedule_final_list st) (schedule_runnable st) x
    (schedule_single_step_flag st) (sim_started st) (sim_at_rosync st) (schedule_time st) (run_finals st)
    (at_phase st) (the_design st) (log st).
Definition set_single_step (x : bool) (st : state D) : state D :=
  State D (sched_list st) (schedule_init_list st) (schedule_final_list st) (schedule_runnable st)
    (schedule_stopped_flag st) x (sim_started st) (sim_at_rosync st) (schedule_time st) (run_finals st)
    (at_phase st) (the_design st) (log st).
Definition set_started (x : bool) (st : state D) : state D :=
  State D (sched_list st) (schedule_init_list st) (schedule_final_list st) (schedule_runnable st)
    (schedule_stopped_flag st) (schedule_single_step_flag st) x (sim_at_rosync st) (schedule_time st)
    (run_finals st) (at_phase st) (the_design st) (log st).
Definition set_at_rosync (x : bool) (st : state D) : state D :=
  State D (sched_list st) (schedule_init_list st) (schedule_final_list st) (schedule_runnable st)
    (schedule_stopped_flag st) (schedule_single_step_flag st) (sim_started st) x (schedule_time st)
    (run_finals st) (at_phase st) (the_design st) (log st).
Definition set_time (x : Z) (st : state D) : state D :=
  State D (sched_list st) (schedule_init_list st) (schedule_final_list st) (schedule_runnable st)
    (schedule_stopped_flag st) (schedule_single_step_flag st) (sim_started st) (sim_at_rosync st) x
    (run_finals st) (at_phase st) (the_design st) (log st).
Definition set_run_finals (x : bool) (st : state D) : state D :=
  State D (sched_list st) (schedule_init_list st) (schedule_final_list st) (schedule_runnable st)
    (schedule_stopped_flag st) (schedule_single_step_flag st) (sim_started st) (sim_at_rosync st)
    (schedule_time st) x (at_phase st) (the_design st) (log st).
Definition go (x : phase) (st : state D) : state D :=
  State D (sched_list st) (schedule_init_list st) (schedule_final_list st) (schedule_runnable st)
    (schedule_stopped_flag st) (schedule_single_step_flag st) (sim_started st) (sim_at_rosync st)
    (schedule_time st) (run_finals st) x (the_design st) (log st).
Definition set_design (x : D) (st : state D) : state D :=
  State D (sched_list st) (schedule_init_list st) (schedule_final_list st) (schedule_runnable st)
    (schedule_stopped_flag st) (schedule_single_step_flag st) (sim_started st) (sim_at_rosync st)
    (schedule_time st) (run_finals st) (at_phase st) x (log st).
Definition set_log (x : list entry) (st : state D) : state D :=
  State D (sched_list st) (schedule_init_list st) (schedule_final_list st) (schedule_runnable st)
    (schedule_stopped_flag st) (schedule_single_step_flag st) (sim_started st) (sim_at_rosync st)
    (schedule_time st) (run_finals st) (at_phase st) (the_design st) x.

Definition logged (e : entry) (st : state D) : state D := set_log (e :: log st) st.

Definition view_of (st : state D) : view :=
  View (schedule_time st) (sim_at_rosync st) (negb (schedule_runnable st)) (schedule_stopped_flag st).

(** ** Calls *)

(** [schedule_event_] and [schedule_event_push_] on the scheduler's list; a
    delay is of type [vvp_time64_t]. *)
Definition enqueue (cur : event_s) (delay_ : Z) (q : event_queue_t) (st : state D) : option (state D) :=
  l ← schedule_event_ cur (u64 delay_) q (sched_list st);
  Some (logged (Put (At (add64 (schedule_time st) (u64 delay_))) cur) (set_cells l st)).

Definition enqueue_push (cur : event_s) (st : state D) : option (state D) :=
  l ← schedule_event_push_ cur (sched_list st);
  Some (logged (Put (At (add64 (schedule_time st) 0)) cur) (set_cells l st)).

(** [schedule_init_event] and [schedule_final_event]: join the list at the end. *)
Definition enqueue_init (cur : event_s) (st : state D) : state D :=
  logged (Put InInits cur) (set_inits (schedule_init_list st ++ [cur]) st).
Definition enqueue_final (cur : event_s) (st : state D) : state D :=
  logged (Put InFinals cur) (set_finals (schedule_final_list st ++ [cur]) st).

Definition mark (f : D -> D) (st : state D) : state D := set_design (f (the_design st)) st.

Definition do_call (c : call) (st : state D) : option (state D) :=
  match c with
  | schedule_vthread thr delay push_flag =>
    let st := mark (vthread_mark_scheduled thr) st in
    if push_flag && (u64 delay =? 0) then enqueue_push (vthread_event_s thr) st
    else enqueue (vthread_event_s thr) delay SEQ_ACTIVE st
  | schedule_t0_trigger ptr =>
    let bit := vec4_fill 1 Bit4.BIT4_X in
    enqueue (assign_vector4_event_s ptr bit 0 0) 0 SEQ_INACTIVE st
  | schedule_inactive thr =>
    enqueue (vthread_event_s thr) 0 SEQ_INACTIVE (mark (vthread_mark_scheduled thr) st)
  | schedule_init_vthread thr =>
    Some (enqueue_init (vthread_event_s thr) (mark (vthread_mark_scheduled thr) st))
  | schedule_final_vthread thr =>
    let st := mark (vthread_mark_final thr) st in
    Some (enqueue_final (vthread_event_s thr) (mark (vthread_mark_scheduled thr) st))
  | schedule_assign_vector ptr base vwid bit delay =>
    enqueue (assign_vector4_event_s ptr bit base vwid) delay SEQ_NBASSIGN st
  | schedule_force_vector net base vwid bit delay =>
    enqueue (force_vector4_event_s net bit base vwid) delay SEQ_NBASSIGN st
  | schedule_propagate_vector net delay src =>
    enqueue (propagate_vector4_event_s net src) delay SEQ_NBASSIGN st
  | schedule_propagate_event net delay =>
    let tmp := vec4_fill 1 Bit4.BIT4_X in
    enqueue (propagate_vector4_event_s net tmp) delay SEQ_NBASSIGN st
  | schedule_assign_array_word mem word_addr off val delay =>
    enqueue (assign_array_word_s mem word_addr val off) delay SEQ_NBASSIGN st
  | schedule_assign_array_word_real mem word_addr val delay =>
    enqueue (assign_array_r_word_s mem word_addr val) delay SEQ_NBASSIGN st
  | schedule_set_vector ptr bit => enqueue (assign_vector4_event_s ptr bit 0 0) 0 SEQ_ACTIVE st
  | schedule_set_vector8 ptr bit => enqueue (assign_vector8_event_s ptr bit) 0 SEQ_ACTIVE st
  | schedule_set_real ptr bit => enqueue (assign_real_event_s ptr bit) 0 SEQ_ACTIVE st
  | schedule_init_vector ptr bit => Some (enqueue_init (assign_vector4_event_s ptr bit 0 0) st)
  | schedule_init_vector8 ptr bit => Some (enqueue_init (assign_vector8_event_s ptr bit) st)
  | schedule_init_real ptr bit => Some (enqueue_init (assign_real_event_s ptr bit) st)
  | schedule_init_propagate net bit => Some (enqueue_init (propagate_vector4_event_s net bit) st)
  | schedule_init_propagate_real net bit => Some (enqueue_init (propagate_real_event_s net bit) st)
  | schedule_del_thr thr => enqueue (del_thr_event_s thr) 0 DEL_THREAD st
  | schedule_generic obj delay sync_flag ro_flag delete_when_done =>
    st ← enqueue (generic_event_s obj delete_when_done) delay
           (if sync_flag then if ro_flag then SEQ_ROSYNC else SEQ_RWSYNC else SEQ_ACTIVE) st;
    Some (if sync_flag then mark vthread_delay_delete st else st)
  | schedule_functor obj =>
    if negb (sim_started st) then Some (enqueue_init (generic_event_s obj false) st)
    else enqueue (generic_event_s obj false) 0 SEQ_ACTIVE st
  | schedule_at_start_of_simtime obj delay => enqueue (generic_event_s obj false) delay SEQ_START st
  | schedule_at_end_of_simtime obj delay => enqueue (generic_event_s obj false) delay SEQ_RWSYNC st
  | schedule_finish => Some (set_runnable false st)
  | schedule_stop => Some (set_stopped true st)
  | schedule_single_step => Some (set_single_step true st)
  end.

Fixpoint do_calls (cs : list call) (st : state D) : option (state D) :=
  match cs with
  | [] => Some st
  | c :: cs => st ← do_call c st; do_calls cs st
  end.

(** A call of the scheduler into the design, with the calls back. *)
Definition callback (f : view -> D -> D * list call) (st : state D) : option (state D) :=
  let '(d, calls) := f (view_of st) (the_design st) in
  do_calls calls (set_design d st).

(** ** Running events *)

(** [mask.set_bit(idx, 1)] on a [vvp_vector2_t], with its assertion. *)
Definition mask_set_bit (idx : Z) (mask : list bool) : option (list bool) :=
  if idx <? Z.of_nat (length mask) then Some (<[Z.to_nat idx := true]> mask) else None.

(** [force_vector4_event_s::run_run], up to the call of [force_vec4]: the
    forced value and its mask; [None] when an assertion fails. *)
Definition force_value (sig : option vvp_vector4_t) (val : vvp_vector4_t) (base vwid : Z)
    : option (vvp_vector4_t * list bool) :=
  let wid := u32 (Z.of_nat (size val)) in
  let wid := if vwid <? u32 (base + wid) then u32 (vwid - base) else wid in
  mask ← for_loop (Z.to_nat wid) 0
           (fun idx mask => mask ← mask; mask_set_bit (u32 (base + Z.of_nat idx)) mask)
           (Some (replicate (Z.to_nat vwid) false));
  tmp ← sig;
  '(tmp, _) ← set_vec tmp (Z.to_nat base) val;
  Some (tmp, mask).

(** The virtual [run_run] of each event. *)
Definition run_run (cur : event_s) (st : state D) : option (state D) :=
  match cur with
  | vthread_event_s thr => callback (vthread_run thr) st
  | del_thr_event_s thr => callback (vthread_delete thr) st
  | assign_vector4_event_s ptr val base vwid =>
    if 0 <? vwid then callback (vvp_send_vec4_pv ptr val base vwid) st
    else callback (vvp_send_vec4 ptr val) st
  | assign_vector8_event_s ptr val => callback (vvp_send_vec8 ptr val) st
  | assign_real_event_s ptr val => callback (vvp_send_real ptr val) st
  | assign_array_word_s mem adr val off => callback (set_word mem adr off val) st
  | force_vector4_event_s net val base vwid =>
    '(tmp, mask) ← force_value (vec4_value net (the_design st)) val base vwid;
    callback (force_vec4 net tmp mask) st
  | propagate_vector4_event_s net val => callback (net_send_vec4 net val) st
  | propagate_real_event_s net val => callback (net_send_real net val) st
  | assign_array_r_word_s mem adr val => callback (set_word_real mem adr val) st
  | generic_event_s obj delete_obj_when_done =>
    st ← callback (gen_run_run obj) st;
    Some (if delete_obj_when_done then mark (gen_delete obj) st else st)
  end.

Definition run_event (w : place) (cur : event_s) (st : state D) : option (state D) :=
  run_run cur (logged (Ran w cur) st).

(** ** schedule_simulate *)

(** [if (ctim->active == 0) ...]: refill the active queue from the next region
    that has events. *)
Definition promote (ctim : event_time_s) : event_time_s :=
  match active ctim with
  | _ :: _ => ctim
  | [] =>
    let ctim := set_queue SEQ_INACTIVE [] (set_queue SEQ_ACTIVE (inactive ctim) ctim) in
    match active ctim with
    | _ :: _ => ctim
    | [] =>
      let ctim := set_queue SEQ_NBASSIGN [] (set_queue SEQ_ACTIVE (nbassign ctim) ctim) in
      match active ctim with
      | _ :: _ => ctim
      | [] => set_queue SEQ_RWSYNC [] (set_queue SEQ_ACTIVE (rwsync ctim) ctim)
      end
    end
  end.

(** One round of [while (ctim->q) { pull the first event; run it; }]. *)
Definition drain (q : event_queue_t) (after : state D -> option (state D)) (st : state D) : option (state D) :=
  match sched_list st with
  | [] => None
  | ctim :: next =>
    match queue_of q ctim with
    | [] => after st
    | cur :: rest => run_event (At (schedule_time st)) cur (set_cells (set_queue q rest ctim :: next) st)
    end
  end.

(** The end of the main loop: [schedule_runnable = run_finals;] *)
Definition end_main (st : state D) : state D := go Finals (set_runnable (run_finals st) st).

(** The events that are still in a cell. *)
Definition cell_events (c : event_time_s) : list event_s :=
  start c ++ active c ++ inactive c ++ nbassign c ++ rwsync c ++ rosync c ++ del_thr c.

(** The end of [run_rosync] and the deletion of the time cell. *)
Definition delete_cell (st : state D) : option (state D) :=
  match sched_list st with
  | [] => None
  | ctim :: next =>
    let st :=
      match active ctim, inactive ctim, nbassign ctim, rwsync ctim with
      | [], [], [], [] => st
      | _, _, _, _ => logged SchedulerError st
      end in
    let st := set_log (map (Dropped (At (schedule_time st))) (cell_events ctim) ++ log st) st in
    Some (go Main (set_cells next st))
  end.

Definition main_step (st : state D) : option (state D) :=
  match sched_list st with
  | [] => Some (end_main st)
  | ctim :: next =>
    if schedule_stopped_flag st then
      st ← callback stop_handler (set_stopped false st);
      Some (if negb (schedule_runnable st) then end_main st else st)
    else if 0 <? delay ctim then
      if negb (schedule_runnable st) then Some (end_main st)
      else
        let st := set_time (add64 (schedule_time st) (delay ctim)) st in
        let st := set_cells (set_delay ctim 0 :: next) st in
        st ← callback vpiNextSimTime st;
        Some (go StartOfTime st)
    else Some (go Queues st)
  end.

Definition queues_step (st : state D) : option (state D) :=
  match sched_list st with
  | [] => None
  | ctim :: next =>
    let ctim := promote ctim in
    match active ctim with
    | [] => Some (go Rosync (set_at_rosync true (set_cells (ctim :: next) st)))
    | cur :: rest =>
      let st := set_cells (set_queue SEQ_ACTIVE rest ctim :: next) st in
      let st :=
        if schedule_single_step_flag st then set_single_step false (set_stopped true st) else st in
      st ← run_event (At (schedule_time st)) cur st;
      Some (go Main st)
    end
  end.

Definition step (st : state D) : option (state D) :=
  match at_phase st with
  | Begin =>
    st ← callback vpiEndOfCompile (set_time 0 (set_started false st));
    Some (go Inits st)
  | Inits =>
    match schedule_init_list st with
    | cur :: rest => run_event InInits cur (set_inits rest st)
    | [] => Some (go StartOfSim (set_started true st))
    end
  | StartOfSim =>
    st ← callback vpiStartOfSim st;
    let st := set_run_finals (schedule_runnable st) st in
    Some (if schedule_runnable st then go Main st else end_main st)
  | Main => main_step st
  | StartOfTime => drain SEQ_START (fun st => Some (go Queues st)) st
  | Queues => queues_step st
  | Rosync => drain SEQ_ROSYNC (fun st => Some (go DelThr (set_at_rosync false st))) st
  | DelThr => drain DEL_THREAD delete_cell st
  | Finals =>
    match schedule_runnable st, schedule_final_list st with
    | true, cur :: rest => run_event InFinals cur (set_finals rest st)
    | _, _ => st ← callback vpiPostsim st; Some (go Done st)
    end
  | Done => Some st
  end.

(** [n] steps. *)
Fixpoint steps (n : nat) (st : state D) : option (state D) :=
  match n with
  | O => Some st
  | S n => st ← step st; steps n st
  end.

(** The state in which [schedule_simulate] is called. *)
Definition initial (d : D) : state D :=
  State D [] [] [] true false false false false 0 false Begin d [].

End Simulate.
