(* ===== verification/ScheduleQueue.v ===== *)
(** * ScheduleQueue: the list of time cells is a map from times to queues

    The cells keep delays relative to the cell before; [pending] reads the list
    as a function from a queue and a time, relative to now, to the events that
    wait there in order.  [schedule_event_] adds an event at the end of one
    entry of that function and [schedule_event_push_] in front of one. *)

From S2P Require Import Prelude FourState Vector4 Schedule.

Section Queue.
Context `{VvpTypes}.

(** ** Well-formed lists of cells *)

Definition later (c : event_time_s) : Prop := 0 < delay c < 2 ^ 64.

(** Only the first cell may be at the present time. *)
Definition cells_wf (l : list event_time_s) : Prop :=
  match l with [] => True | c :: next => is_word (delay c) /\ Forall later next end.

(** The events of queue [q] that are due in [t] time units. *)
Fixpoint pending (q : event_queue_t) (l : list event_time_s) (t : Z) : list event_s :=
  match l with
  | [] => []
  | c :: next => if t =? delay c then queue_of q c else pending q next (t - delay c)
  end.

Lemma pending_neg q l t : cells_wf l -> t < 0 -> pending q l t = [].
Proof using.
  revert t. induction l as [|c next IH]; intros t Hwf Ht; [done|]. destruct Hwf as [Hc Hn]. simpl.
  rewrite (proj2 (Z.eqb_neq t (delay c))) by (unfold is_word in Hc; lia).
  apply IH; [|unfold is_word in Hc; lia]. destruct next as [|c' next]; [done|].
  apply List.Forall_cons_iff in Hn as [[? ?] Hn]. split; [|done]. unfold is_word. lia.
Qed.

Lemma later_wf next : Forall later next -> cells_wf next.
Proof using.
  destruct next as [|c next]; [done|]. intros [[? ?] Hn]%List.Forall_cons_iff. split; [|done]. unfold is_word. lia.
Qed.

Lemma queue_of_set_delay q c d : queue_of q (set_delay c d) = queue_of q c.
Proof using. by destruct q, c. Qed.
Lemma queue_of_new q d : queue_of q (new_cell d) = [].
Proof using. by destruct q. Qed.
#[export] Instance queue_eq_dec : EqDecision event_queue_t.
Proof using. solve_decision. Defined.

Lemma queue_of_set q q' l c : queue_of q' (set_queue q l c) = if decide (q' = q) then l else queue_of q' c.
Proof using. by destruct c, q, q'. Qed.
Lemma delay_set_queue q l c : delay (set_queue q l c) = delay c.
Proof using. by destruct c, q. Qed.

(** ** The search for the cell *)

Lemma sub64_small x y : 0 <= y <= x -> x < 2 ^ 64 -> sub64 x y = x - y.
Proof using. intros Hy Hx. apply Z.mod_small. lia. Qed.

Section Find.
Context (put : event_time_s -> event_time_s) (Hput : forall c, delay (put c) = delay c).
(** What [put] does to one queue of the cell. *)
Context (q : event_queue_t) (f : list event_s -> list event_s).
Context (Hf : forall c, queue_of q (put c) = f (queue_of q c)).

Record found (d : Z) (l l' : list event_time_s) (d' : Z) : Prop := {
  found_wf : cells_wf l';
  found_head : exists c' next', l' = c' :: next' /\
    delay c' = match l with [] => d | c :: _ => Z.min d (delay c) end;
  found_delay : (d' = 0 <-> d = 0);
  found_pending : forall t, 0 <= t ->
    pending q l' t = if t =? d then f (pending q l t) else pending q l t }.

Lemma found_before d c next : 0 <= d < delay c -> is_word (delay c) -> Forall later next ->
  found d (c :: next) (put (new_cell d) :: set_delay c (sub64 (delay c) d) :: next) d.
Proof using Hput Hf.
  intros Hd Hc Hn. unfold is_word in Hc. rewrite sub64_small by lia. constructor.
  - split; [rewrite Hput; simpl; unfold is_word; lia|]. constructor; [|done]. unfold later. simpl. lia.
  - eexists _, _. split; [done|]. rewrite Hput. simpl. lia.
  - done.
  - intros t Ht. cbn [pending]. rewrite Hput, Hf, queue_of_new, queue_of_set_delay. cbn [delay new_cell set_delay].
    destruct (Z.eqb_spec t d) as [->|Hne].
    + rewrite (proj2 (Z.eqb_neq d (delay c))) by lia. rewrite pending_neg; [done|by apply later_wf|lia].
    + replace (t - d =? delay c - d) with (t =? delay c) by (split_ltb; (done || lia)).
      by replace (t - d - (delay c - d)) with (t - delay c) by lia.
Qed.

Lemma found_here d c next : d = delay c -> is_word d -> Forall later next ->
  found d (c :: next) (put c :: next) d.
Proof using Hput Hf.
  intros -> Hc Hn. constructor.
  - split; [by rewrite Hput|done].
  - eexists _, _. split; [done|]. rewrite Hput. lia.
  - done.
  - intros t Ht. cbn [pending]. rewrite Hput, Hf. by destruct (t =? delay c).
Qed.

Lemma found_after d c : delay c < d -> is_word d -> is_word (delay c) ->
  found d [c] [c; put (new_cell (sub64 d (delay c)))] d.
Proof using Hput Hf.
  unfold is_word. intros Hlt Hd Hc. rewrite sub64_small by lia. constructor.
  - split; [done|]. constructor; [|constructor]. unfold later. rewrite Hput. simpl. lia.
  - eexists _, _. split; [done|]. lia.
  - done.
  - intros t Ht. cbn [pending]. rewrite Hput, Hf, queue_of_new. cbn [delay new_cell].
    destruct (Z.eqb_spec t d) as [->|Hne].
    + rewrite (proj2 (Z.eqb_neq d (delay c))), Z.eqb_refl by lia. done.
    + destruct (t =? delay c); [done|]. by rewrite (proj2 (Z.eqb_neq _ _)) by lia.
Qed.

Lemma walk_cells_spec next : forall d c, is_word d -> is_word (delay c) -> Forall later next ->
  let '(l', d') := walk_cells put d c next in found d (c :: next) l' d'.
Proof using Hput Hf.
  assert (Hstop : forall d c nx, is_word d -> is_word (delay c) -> Forall later nx ->
    (nx = [] \/ d <= delay c) ->
    let '(l', d') := (if d <? delay c then
      (put (new_cell d) :: set_delay c (sub64 (delay c) d) :: nx, d)
      else if delay c =? d then (put c :: nx, d)
      else (c :: put (new_cell (sub64 d (delay c))) :: nx, d)) in found d (c :: nx) l' d').
  { unfold is_word. intros d c nx Hd Hc Hn Hor. destruct (Z.ltb_spec d (delay c)); [by apply found_before; try lia|].
    destruct (Z.eqb_spec (delay c) d); [by apply found_here|]. destruct Hor as [->|]; [|lia].
    apply found_after; unfold is_word; lia. }
  induction next as [|c' rest IH]; intros d c Hd Hc Hn; cbn [walk_cells]; [by apply Hstop; auto|].
  destruct (Z.ltb_spec (delay c) d) as [Hlt|Hge]; [|by apply Hstop; auto].
  pose proof Hn as Hn'. apply List.Forall_cons_iff in Hn' as [Hc' Hrest]. unfold is_word in Hd, Hc. unfold later in Hc'.
  rewrite sub64_small by lia. specialize (IH (d - delay c) c').
  destruct (walk_cells put (d - delay c) c' rest) as [l' d'].
  destruct IH as [W (c1 & n1 & -> & E1) Ed Hp]; [unfold is_word; lia|unfold is_word; lia|done|].
  destruct W as [W1 W2]. constructor.
  - split; [done|]. constructor; [|done]. unfold later. unfold is_word in W1. lia.
  - eexists _, _. split; [done|]. lia.
  - lia.
  - intros t Ht. cbn [pending]. destruct (Z.eqb_spec t (delay c)) as [->|Hne].
    { by rewrite (proj2 (Z.eqb_neq (delay c) d)) by lia. }
    destruct (Z.lt_ge_cases (t - delay c) 0) as [Hneg|Hpos].
    + rewrite (proj2 (Z.eqb_neq t d)) by lia.
      pose proof (pending_neg q (c1 :: n1) (t - delay c) (conj W1 W2) Hneg) as E. cbn [pending] in E. rewrite E.
      symmetry. apply (pending_neg q (c' :: rest)); [by apply later_wf|done].
    + specialize (Hp (t - delay c) Hpos). cbn [pending] in Hp. rewrite Hp.
      by replace (t - delay c =? d - delay c) with (t =? d) by (split_ltb; (done || lia)).
Qed.

Lemma find_cell_spec d l : is_word d -> cells_wf l ->
  let '(l', d') := find_cell put d l in found d l l' d'.
Proof using Hput Hf.
  intros Hd Hwf. destruct l as [|c next]; simpl.
  - constructor.
    + split; [by rewrite Hput|constructor].
    + eexists _, _. split; [done|]. by rewrite Hput.
    + done.
    + intros t Ht. simpl. rewrite Hput, Hf, queue_of_new. simpl. by destruct (t =? d).
  - destruct Hwf as [Hc Hn]. pose proof (walk_cells_spec next d c Hd Hc Hn) as Hw.
    destruct (Z.ltb_spec d (delay c)) as [Hlt|]; [|done].
    unfold is_word in Hd. by apply found_before; [lia| |].
Qed.
End Find.

(** ** Events with the times they are due *)

(** The events of the cells, each with the time it is due, [now] being the
    present: the times of the cells are those of [vvp_time64_t]. *)
Fixpoint due_events (now : Z) (l : list event_time_s) : list (Z * event_s) :=
  match l with
  | [] => []
  | c :: next => map (pair (u64 (now + delay c))) (cell_events c) ++ due_events (now + delay c) next
  end.

(** A cell of a later time has events. *)
Definition filled (l : list event_time_s) : Prop := Forall (fun c => 0 < delay c -> cell_events c <> []) l.

Definition join (q : event_queue_t) (cur : event_s) (c : event_time_s) : event_time_s :=
  set_queue q (queue_of q c ++ [cur]) c.

Lemma cell_events_set q l c : exists rest,
  cell_events c ≡ₚ queue_of q c ++ rest /\ cell_events (set_queue q l c) ≡ₚ l ++ rest.
Proof using.
  destruct c as [d st ac ia nb rw ro dt]. unfold cell_events. destruct q; simpl.
  - exists (ac ++ ia ++ nb ++ rw ++ ro ++ dt). split; solve_Permutation.
  - exists (st ++ ia ++ nb ++ rw ++ ro ++ dt). split; solve_Permutation.
  - exists (st ++ ac ++ nb ++ rw ++ ro ++ dt). split; solve_Permutation.
  - exists (st ++ ac ++ ia ++ rw ++ ro ++ dt). split; solve_Permutation.
  - exists (st ++ ac ++ ia ++ nb ++ ro ++ dt). split; solve_Permutation.
  - exists (st ++ ac ++ ia ++ nb ++ rw ++ dt). split; solve_Permutation.
  - exists (st ++ ac ++ ia ++ nb ++ rw ++ ro). split; solve_Permutation.
Qed.

Lemma cell_events_join q cur c : cell_events (join q cur c) ≡ₚ cur :: cell_events c.
Proof using.
  destruct (cell_events_set q (queue_of q c ++ [cur]) c) as (rest & H1 & H2).
  unfold join. rewrite H1, H2. solve_Permutation.
Qed.

Lemma cell_events_pull q cur rest c : queue_of q c = cur :: rest ->
  cell_events c ≡ₚ cur :: cell_events (set_queue q rest c).
Proof using.
  intros E. destruct (cell_events_set q rest c) as (r & H1 & H2). rewrite E in H1. by rewrite H1, H2.
Qed.

Lemma cell_events_set_delay c d : cell_events (set_delay c d) = cell_events c.
Proof using. by destruct c. Qed.

Section FindFilled.
Context (put : event_time_s -> event_time_s) (Hput : forall c, cell_events (put c) <> []).

Lemma cut_filled d c next : 0 <= d < delay c -> filled (c :: next) -> filled (put (new_cell d) :: set_delay c (sub64 (delay c) d) :: next).
Proof using Hput.
  intros Hd [Hc Hn]%List.Forall_cons_iff. constructor; [by intros _|]. constructor; [|done].
  intros _. rewrite cell_events_set_delay. apply Hc. lia.
Qed.

Lemma walk_cells_filled next : forall d c, is_word d -> is_word (delay c) -> Forall later next -> filled (c :: next) ->
  filled (fst (walk_cells put d c next)).
Proof using Hput.
  assert (Hstop : forall d c nx, 0 <= d -> filled (c :: nx) -> (nx = [] \/ d <= delay c) ->
    filled (fst (if d <? delay c then (put (new_cell d) :: set_delay c (sub64 (delay c) d) :: nx, d)
      else if delay c =? d then (put c :: nx, d) else (c :: put (new_cell (sub64 d (delay c))) :: nx, d)))).
  { intros d c nx Hd Hf Hor. destruct (Z.ltb_spec d (delay c)); [by apply cut_filled|].
    apply List.Forall_cons_iff in Hf as [Hc Hn]. destruct (Z.eqb_spec (delay c) d); cbn [fst].
    - by constructor; [intros _|].
    - constructor; [done|]. by constructor; [intros _|]. }
  induction next as [|c' rest IH]; intros d c Hd Hc Hn Hf; cbn [walk_cells]; [apply Hstop; auto; apply Hd|].
  destruct (Z.ltb_spec (delay c) d) as [Hlt|Hge]; [|apply Hstop; auto; apply Hd].
  apply List.Forall_cons_iff in Hf as [Hf1 Hf2]. apply List.Forall_cons_iff in Hn as [Hc' Hrest].
  unfold is_word in Hd, Hc. unfold later in Hc'. rewrite sub64_small by lia.
  specialize (IH (d - delay c) c' ltac:(unfold is_word; lia) ltac:(unfold is_word; lia) Hrest Hf2).
  destruct (walk_cells put (d - delay c) c' rest) as [l' d']. by constructor.
Qed.

Lemma find_cell_filled d l : is_word d -> cells_wf l -> filled l -> filled (fst (find_cell put d l)).
Proof using Hput.
  intros Hd Hwf Hf. destruct l as [|c next]; cbn [find_cell]; [constructor; [by intros _|constructor]|].
  destruct Hwf as [Hc Hn]. destruct (Z.ltb_spec d (delay c)); [|by apply walk_cells_filled].
  apply cut_filled; [|done]. unfold is_word in Hd. lia.
Qed.
End FindFilled.

Section FindDue.
Context (put : event_time_s -> event_time_s) (cur : event_s).
Context (Hput : forall c, delay (put c) = delay c).
Context (Hcur : forall c, cell_events (put c) ≡ₚ cur :: cell_events c).

Lemma put_due now c next : due_events now (put c :: next) ≡ₚ
  (u64 (now + delay c), cur) :: due_events now (c :: next).
Proof using Hput Hcur. simpl. rewrite Hput. by rewrite (Hcur c). Qed.

Lemma new_due now d next : due_events now (new_cell d :: next) = due_events (now + d) next.
Proof using. done. Qed.

Lemma split_due now d c next : 0 <= d <= delay c -> delay c < 2 ^ 64 ->
  due_events (now + d) (set_delay c (sub64 (delay c) d) :: next) = due_events now (c :: next).
Proof using.
  intros Hd Hc. rewrite sub64_small by lia. simpl. rewrite cell_events_set_delay.
  by replace (now + d + (delay c - d)) with (now + delay c) by lia.
Qed.

Lemma walk_cells_due next : forall now d c, is_word d -> is_word (delay c) -> Forall later next ->
  due_events now (fst (walk_cells put d c next)) ≡ₚ (u64 (now + d), cur) :: due_events now (c :: next).
Proof using Hput Hcur.
  assert (Hstop : forall now d c nx, is_word d -> is_word (delay c) -> (nx = [] \/ d <= delay c) ->
    due_events now (fst (if d <? delay c then
      (put (new_cell d) :: set_delay c (sub64 (delay c) d) :: nx, d)
      else if delay c =? d then (put c :: nx, d)
      else (c :: put (new_cell (sub64 d (delay c))) :: nx, d))) ≡ₚ (u64 (now + d), cur) :: due_events now (c :: nx)).
  { unfold is_word. intros now d c nx Hd Hc Hor. destruct (Z.ltb_spec d (delay c)); cbn [fst].
    - rewrite put_due, new_due. cbn [delay new_cell]. by rewrite split_due by lia.
    - destruct (Z.eqb_spec (delay c) d) as [<-|]; cbn [fst]; [apply put_due|]. destruct Hor as [->|]; [|lia].
      rewrite sub64_small by lia. change (due_events now [c; put (new_cell (d - delay c))]) with
        (map (pair (u64 (now + delay c))) (cell_events c) ++ due_events (now + delay c) [put (new_cell (d - delay c))]).
      rewrite put_due. cbn [delay new_cell]. replace (now + delay c + (d - delay c)) with (now + d) by lia.
      simpl. solve_Permutation. }
  induction next as [|c' rest IH]; intros now d c Hd Hc Hn; cbn [walk_cells]; [by apply Hstop; auto|].
  destruct (Z.ltb_spec (delay c) d) as [Hlt|Hge]; [|by apply Hstop; auto].
  apply List.Forall_cons_iff in Hn as [Hc' Hrest]. unfold is_word in Hd, Hc. unfold later in Hc'.
  rewrite sub64_small by lia.
  specialize (IH (now + delay c) (d - delay c) c' ltac:(unfold is_word; lia) ltac:(unfold is_word; lia) Hrest).
  destruct (walk_cells put (d - delay c) c' rest) as [l' d']. cbn [fst] in *.
  change (due_events now (c :: l')) with (map (pair (u64 (now + delay c))) (cell_events c) ++ due_events (now + delay c) l').
  rewrite IH. replace (now + delay c + (d - delay c)) with (now + d) by lia.
  change (due_events now (c :: c' :: rest)) with
    (map (pair (u64 (now + delay c))) (cell_events c) ++ due_events (now + delay c) (c' :: rest)).
  solve_Permutation.
Qed.

Lemma find_cell_due now d l : is_word d -> cells_wf l ->
  due_events now (fst (find_cell put d l)) ≡ₚ (u64 (now + d), cur) :: due_events now l.
Proof using Hput Hcur.
  intros Hd Hwf. destruct l as [|c next]; cbn [find_cell]; [apply put_due|]. destruct Hwf as [Hc Hn].
  destruct (Z.ltb_spec d (delay c)); [|by apply walk_cells_due].
  unfold is_word in Hd, Hc. cbn [fst]. rewrite put_due, new_due. cbn [delay new_cell]. by rewrite split_due by lia.
Qed.
End FindDue.

(** ** The operations *)

Lemma delay_join q cur c : delay (join q cur c) = delay c.
Proof using. apply delay_set_queue. Qed.

Lemma queue_of_join q cur q' c :
  queue_of q' (join q cur c) = queue_of q' c ++ (if decide (q' = q) then [cur] else []).
Proof using.
  unfold join. rewrite queue_of_set. destruct (decide (q' = q)) as [->|]; [done|]. by rewrite app_nil_r.
Qed.

(** Everything about [schedule_event_] that the scheduler needs. *)
Record queued (cur : event_s) (d : Z) (q : event_queue_t) (l l' : list event_time_s) : Prop := {
  queued_wf : cells_wf l';
  queued_head : exists c' next', l' = c' :: next' /\
    delay c' = match l with [] => d | c :: _ => Z.min d (delay c) end;
  queued_pending : forall q' t, 0 <= t ->
    pending q' l' t = pending q' l t ++ (if decide (q' = q /\ t = d) then [cur] else []);
  queued_due : forall now, due_events now l' ≡ₚ (u64 (now + d), cur) :: due_events now l }.

Lemma schedule_event_spec cur d q l : is_word d -> cells_wf l ->
  exists l', queued cur d q l l' /\
    schedule_event_ cur d q l = if decide (q = SEQ_INACTIVE) then if d =? 0 then Some l' else None else Some l'.
Proof using.
  intros Hd Hwf. unfold schedule_event_.
  change (find_cell _ d l) with (find_cell (join q cur) d l).
  assert (Hfound : forall q', let '(l', d') := find_cell (join q cur) d l in
    found q' (fun x => x ++ if decide (q' = q) then [cur] else []) d l l' d').
  { intros q'. apply find_cell_spec; [apply delay_join|apply queue_of_join|done|done]. }
  pose proof (fun now => find_cell_due (join q cur) cur (delay_join q cur) (cell_events_join q cur) now d l Hd Hwf) as Hdue.
  destruct (find_cell (join q cur) d l) as [l' d']. exists l'. split.
  - destruct (Hfound q) as [W Hh _ _]. constructor; [done|done| |done].
    intros q' t Ht. destruct (Hfound q') as [_ _ _ Hp]. rewrite Hp by done.
    destruct (Z.eqb_spec t d) as [->|Hne], (decide (q' = q)) as [->|Hq].
    + by rewrite decide_True.
    + rewrite decide_False by tauto. done.
    + rewrite decide_False by tauto. by rewrite app_nil_r.
    + rewrite decide_False by tauto. by rewrite app_nil_r.
  - destruct (Hfound q) as [_ _ Hd' _]. assert (E : (d' =? 0) = (d =? 0)).
    { apply eq_true_iff_eq. rewrite !Z.eqb_eq. done. }
    by destruct q; simpl; rewrite ?E.
Qed.

Lemma join_filled q cur c : cell_events (join q cur c) <> [].
Proof using. intros E. pose proof (cell_events_join q cur c) as Hp. rewrite E in Hp. by apply Permutation_nil in Hp. Qed.

Lemma schedule_event_filled cur d q l l' : is_word d -> cells_wf l -> filled l -> schedule_event_ cur d q l = Some l' -> filled l'.
Proof using.
  intros Hd Hwf Hf. unfold schedule_event_. change (find_cell _ d l) with (find_cell (join q cur) d l).
  pose proof (find_cell_filled (join q cur) (join_filled q cur) d l Hd Hwf Hf) as Hl.
  destruct (find_cell (join q cur) d l) as [l1 d1]. simpl in Hl. destruct q; try (by intros [= <-]).
  destruct (d1 =? 0); [by intros [= <-]|done].
Qed.

(** Pushing in front. *)
Record pushed (cur : event_s) (l l' : list event_time_s) : Prop := {
  pushed_wf : cells_wf l';
  pushed_head : exists c' next', l' = c' :: next' /\ delay c' = 0;
  pushed_pending : forall q' t, 0 <= t ->
    pending q' l' t = (if decide (q' = SEQ_ACTIVE /\ t = 0) then [cur] else []) ++ pending q' l t;
  pushed_due : forall now, due_events now l' ≡ₚ (u64 (now + 0), cur) :: due_events now l }.

Lemma push_new cur l l' : cells_wf l -> match l with [] => True | c :: _ => 0 < delay c end ->
  queued cur 0 SEQ_ACTIVE l l' -> pushed cur l l'.
Proof using.
  intros Hwf Hl [W (c' & n' & -> & E) P Dv]. constructor; [done| | |done].
  - eexists _, _. split; [done|]. rewrite E. destruct l; lia.
  - intros q' t Ht. rewrite P by done. destruct (decide (q' = SEQ_ACTIVE /\ t = 0)) as [[-> ->]|]; [|by rewrite app_nil_r].
    assert (E0 : pending SEQ_ACTIVE l 0 = []); [|by rewrite E0].
    destruct l as [|c next]; [done|]. cbn [pending]. rewrite (proj2 (Z.eqb_neq 0 (delay c))) by lia.
    destruct Hwf as [_ Hn]. apply pending_neg; [by apply later_wf|lia].
Qed.

Lemma schedule_event_push_spec cur l : cells_wf l ->
  exists l', pushed cur l l' /\ schedule_event_push_ cur l = Some l'.
Proof using.
  intros Hwf. unfold schedule_event_push_.
  destruct (schedule_event_spec cur 0 SEQ_ACTIVE l is_word_0 Hwf) as (l' & Hq & E).
  destruct l as [|c next].
  - exists l'. split; [by apply push_new|done].
  - destruct Hwf as [Hc Hn]. unfold is_word in Hc. destruct (Z.ltb_spec 0 (delay c)).
    + exists l'. split; [by apply push_new; [split| |]|done].
    + assert (E0 : delay c = 0) by lia.
      eexists. split; [|done]. constructor.
      * split; [|done]. rewrite delay_set_queue, E0. apply is_word_0.
      * eexists _, _. split; [done|]. by rewrite delay_set_queue.
      * intros q' t Ht. cbn [pending]. rewrite delay_set_queue, queue_of_set, E0.
        destruct (Z.eqb_spec t 0) as [->|]; [|by rewrite decide_False by tauto].
        destruct (decide (q' = SEQ_ACTIVE)) as [->|]; [by rewrite decide_True|by rewrite decide_False by tauto].
      * intros now. simpl. rewrite delay_set_queue, E0.
        destruct (cell_events_set SEQ_ACTIVE (cur :: active c) c) as (rest & H1 & H2). rewrite H1, H2. simpl.
        solve_Permutation.
Qed.

Lemma schedule_event_push_filled cur l l' : cells_wf l -> filled l -> schedule_event_push_ cur l = Some l' -> filled l'.
Proof using.
  intros Hwf Hf. unfold schedule_event_push_. destruct l as [|c next]; [by apply schedule_event_filled, Hf|].
  destruct (Z.ltb_spec 0 (delay c)); [by apply (schedule_event_filled _ _ _ _ _ is_word_0 Hwf Hf)|].
  intros [= <-]. apply List.Forall_cons_iff in Hf as [_ Hn]. constructor; [|done]. rewrite delay_set_queue. lia.
Qed.

(** The first cell of a later time has an event in some queue. *)
Lemma cell_has_event c : cell_events c <> [] -> exists q, queue_of q c <> [].
Proof using.
  intros Hc. destruct c as [d st ac ia nb rw ro dt]. unfold cell_events in Hc. simpl in Hc.
  destruct st; [|by exists SEQ_START]. destruct ac; [|by exists SEQ_ACTIVE]. destruct ia; [|by exists SEQ_INACTIVE].
  destruct nb; [|by exists SEQ_NBASSIGN]. destruct rw; [|by exists SEQ_RWSYNC]. destruct ro; [|by exists SEQ_ROSYNC].
  destruct dt; [|by exists DEL_THREAD]. done.
Qed.
End Queue.

(** ** Properties *)

(** [schedule_event_] puts an event at the end of the queue that is asked
    for, at the time that is asked for, and changes no other queue at any time,
    whether the time has a cell already, lies before the first cell, between two
    or after the last; it fails just in its assertion, for an inactive event with
    a delay. *)
Lemma schedule_event_correct `{VvpTypes} (cur : event_s) (d : Z) (q : event_queue_t) (l : list event_time_s) :
  is_word d -> cells_wf l ->
  match schedule_event_ cur d q l with
  | Some l' =>
    cells_wf l' /\
    forall q' t, 0 <= t ->
      pending q' l' t = pending q' l t ++ (if decide (q' = q /\ t = d) then [cur] else [])
  | None => q = SEQ_INACTIVE /\ d <> 0
  end.
Proof.
  intros Hd Hwf. destruct (schedule_event_spec cur d q l Hd Hwf) as (l' & [W _ P _] & ->).
  destruct (decide (q = SEQ_INACTIVE)) as [Hq|]; [|done]. destruct (Z.eqb_spec d 0); done.
Qed.

(** [schedule_event_push_] puts an event in front of all active events of
    the present time and changes nothing else. *)
Lemma schedule_event_push_correct `{VvpTypes} (cur : event_s) (l : list event_time_s) :
  cells_wf l ->
  exists l', schedule_event_push_ cur l = Some l' /\ cells_wf l' /\
    forall q' t, 0 <= t ->
      pending q' l' t = (if decide (q' = SEQ_ACTIVE /\ t = 0) then [cur] else []) ++ pending q' l t.
Proof.
  intros Hwf. destruct (schedule_event_push_spec cur l Hwf) as (l' & [W _ P _] & E). by exists l'.
Qed.

(** Handles that are numbers, for the examples. *)
Definition nat_types : VvpTypes := Build_VvpTypes nat nat nat nat nat nat nat.

Definition thread_ev (thr : nat) : @event_s nat_types := @vthread_event_s nat_types thr.

(** A cell now and one in 5 time units. *)
Definition two_cells : list (@event_time_s nat_types) :=
  [Cell (H := nat_types) 0 [] [thread_ev 1] [] [] [] [] [];
   Cell (H := nat_types) 5 [] [] [] [thread_ev 2] [] [] []].

Lemma two_cells_wf : cells_wf two_cells.
Proof. split; [apply is_word_0|]. constructor; [split; simpl; lia|constructor]. Qed.


Lemma schedule_event_push_correct_witness :
  exists l', schedule_event_push_ (thread_ev 3) two_cells = Some l' /\ cells_wf l' /\
    forall q' t, 0 <= t ->
      pending q' l' t = (if decide (q' = SEQ_ACTIVE /\ t = 0) then [thread_ev 3] else []) ++ pending q' two_cells t.
Proof.
  apply (schedule_event_push_correct (H := nat_types) (thread_ev 3) two_cells), two_cells_wf.
Defined.

(** C1. [schedule_event_] puts an event at the end of the queue and at the time
    that are asked for, and changes no other queue at any time, wherever the time
    lies among the cells; it fails just in its assertion, for an inactive event
    with a delay.  [schedule_event_push_] puts an event in front of all active
    events of the present time. *)
Theorem schedule_insert_correct `{VvpTypes} (cur : event_s) (d : Z) (q : event_queue_t) (l : list event_time_s) :
  (is_word d -> cells_wf l ->
   match schedule_event_ cur d q l with
   | Some l' =>
     cells_wf l' /\
     forall q' t, 0 <= t ->
       pending q' l' t = pending q' l t ++ (if decide (q' = q /\ t = d) then [cur] else [])
   | None => q = SEQ_INACTIVE /\ d <> 0
   end) /\
  (cells_wf l ->
   exists l', schedule_event_push_ cur l = Some l' /\ cells_wf l' /\
     forall q' t, 0 <= t ->
       pending q' l' t = (if decide (q' = SEQ_ACTIVE /\ t = 0) then [cur] else []) ++ pending q' l t).
Proof. exact (conj (schedule_event_correct cur d q l) (schedule_event_push_correct cur l)). Qed.

Lemma schedule_insert_correct_witness :
  match schedule_event_ (thread_ev 3) 2 SEQ_ACTIVE two_cells with
  | Some l' => cells_wf l' /\
    forall q' t, 0 <= t ->
      pending q' l' t = pending q' two_cells t ++ (if decide (q' = SEQ_ACTIVE /\ t = 2) then [thread_ev 3] else [])
  | None => SEQ_ACTIVE = SEQ_INACTIVE /\ 2 <> 0
  end.
Proof.
  pose proof (fun cur d q l => proj1 (schedule_insert_correct (H := nat_types) cur d q l)) as schedule_event_correct.
  apply (schedule_event_correct (thread_ev 3) 2 SEQ_ACTIVE two_cells);
    [unfold is_word; lia | apply two_cells_wf].
Defined.
