(* ===== verification/ScheduleInv.v ===== *)
(** * ScheduleInv: invariants of the simulation loop

    What every call into the scheduler keeps ([ext]), the invariant of the
    machine [step], and the balance of its log: every event put in a list is
    run once, at the time it was put for, or still waits, or was dropped with
    its time cell. *)

From S2P Require Import Prelude FourState Vector4 Schedule ScheduleQueue.

Section Inv.
Context `{VvpTypes} {D : Type} `{!Design D}.
Implicit Types st : state D.

(** ** The balance of the log *)

Definition puts (lg : list entry) : list (place * event_s) :=
  omap (fun e => match e with Put w cur => Some (w, cur) | _ => None end) lg.
Definition rans (lg : list entry) : list (place * event_s) :=
  omap (fun e => match e with Ran w cur => Some (w, cur) | _ => None end) lg.
Definition drops (lg : list entry) : list (place * event_s) :=
  omap (fun e => match e with Dropped w cur => Some (w, cur) | _ => None end) lg.

Definition at_due (p : Z * event_s) : place * event_s := (At (fst p), snd p).

(** The events that wait, each with its place. *)
Definition waiting st : list (place * event_s) :=
  map (pair InInits) (schedule_init_list st) ++ map (pair InFinals) (schedule_final_list st) ++
  map at_due (due_events (schedule_time st) (sched_list st)).

Definition balanced st : Prop := puts (log st) ≡ₚ rans (log st) ++ drops (log st) ++ waiting st.

(** ** What calls keep *)

(** The first cell is at the present time. *)
Definition head_now st : Prop := exists c next, sched_list st = c :: next /\ delay c = 0.

Record ext st st' : Prop := {
  ext_phase : at_phase st' = at_phase st;
  ext_rosync : sim_at_rosync st' = sim_at_rosync st;
  ext_time : schedule_time st' = schedule_time st;
  ext_started : sim_started st' = sim_started st;
  ext_run_finals : run_finals st' = run_finals st;
  ext_runnable : schedule_runnable st = false -> schedule_runnable st' = false;
  ext_log : exists post, log st' = post ++ log st /\ Forall (fun e => exists w cur, e = Put w cur) post;
  ext_wf : cells_wf (sched_list st) -> cells_wf (sched_list st');
  ext_head : cells_wf (sched_list st) -> head_now st -> head_now st';
  ext_filled : cells_wf (sched_list st) -> filled (sched_list st) -> filled (sched_list st');
  ext_balanced : cells_wf (sched_list st) -> balanced st -> balanced st' }.

#[export] Instance ext_preorder : PreOrder ext.
Proof using.
  split.
  - intros st. constructor; try done. by exists [].
  - intros st1 st2 st3 H1 H2. destruct H1 as [? ? ? ? ? ? (p1 & E1 & F1) ? ? ? ?], H2 as [? ? ? ? ? ? (p2 & E2 & F2) ? ? ? ?].
    constructor; try congruence; eauto. exists (p2 ++ p1). split; [by rewrite E2, E1, app_assoc|].
    by apply Forall_app_2.
Qed.

(** Changes of flags and of the design. *)
Lemma ext_same st st' : at_phase st' = at_phase st -> sim_at_rosync st' = sim_at_rosync st ->
  schedule_time st' = schedule_time st -> sim_started st' = sim_started st -> run_finals st' = run_finals st ->
  (schedule_runnable st = false -> schedule_runnable st' = false) -> log st' = log st ->
  sched_list st' = sched_list st -> schedule_init_list st' = schedule_init_list st ->
  schedule_final_list st' = schedule_final_list st -> ext st st'.
Proof using.
  intros E1 E2 E3 E4 E5 E6 E7 E8 E9 E10. constructor; try done.
  - by exists [].
  - by rewrite E8.
  - unfold head_now. by rewrite E8.
  - by rewrite E8.
  - unfold balanced, waiting. by rewrite E3, E7, E8, E9, E10.
Qed.

Lemma ext_mark f st : ext st (mark f st).
Proof using. by apply ext_same. Qed.

Lemma one_put w cur (lg : list entry) :
  exists post, Put w cur :: lg = post ++ lg /\ Forall (fun e => exists w cur, e = Put w cur) post.
Proof using. exists [Put w cur]. split; [done|]. constructor; [by eexists _, _|constructor]. Qed.

Lemma u64_u64_add x d : u64 (x + u64 d) = u64 (x + d).
Proof using. apply Zplus_mod_idemp_r. Qed.

(** Adding an event: its entry in the log and its place in a list. *)
Lemma balanced_put st st' w cur :
  log st' = Put w cur :: log st -> waiting st' ≡ₚ (w, cur) :: waiting st -> balanced st -> balanced st'.
Proof using.
  unfold balanced. intros -> Hw Hb. cbn [puts rans drops omap list_omap]. fold (puts (log st)) (rans (log st)) (drops (log st)).
  rewrite Hb, Hw. solve_Permutation.
Qed.

Lemma waiting_cells st l w cur :
  due_events (schedule_time st) l ≡ₚ (w, cur) :: due_events (schedule_time st) (sched_list st) ->
  waiting (set_cells l st) ≡ₚ (At w, cur) :: waiting st.
Proof using. intros E. unfold waiting. simpl. rewrite E. simpl. solve_Permutation. Qed.

Lemma enqueue_ext cur d q st : cells_wf (sched_list st) -> (q = SEQ_INACTIVE -> d = 0) ->
  exists st', enqueue cur d q st = Some st' /\ ext st st'.
Proof using.
  intros Hwf Hq. unfold enqueue. destruct (schedule_event_spec cur (u64 d) q (sched_list st) (u64_range d) Hwf)
    as (l' & [W Hh _ Hd] & Hs). rewrite Hs.
  assert (E : (if decide (q = SEQ_INACTIVE) then if u64 d =? 0 then Some l' else None else Some l') = Some l').
  { destruct (decide (q = SEQ_INACTIVE)) as [Hi|]; [|done]. by rewrite (Hq Hi). }
  rewrite E in *. simpl. eexists. split; [done|]. constructor; try done; try apply one_put.
  - intros _ (c & next & Hc & H0). destruct Hh as (c' & next' & -> & Hd'). exists c', next'. split; [done|].
    rewrite Hd', Hc, H0. pose proof (u64_range d). unfold is_word in *. lia.
  - intros _ Hf. apply (schedule_event_filled cur (u64 d) q _ _ (u64_range d) Hwf Hf). by rewrite Hs.
  - intros _ Hb. eapply (balanced_put st); [done| |exact Hb].
    change (waiting (logged ?e ?s)) with (waiting s). apply waiting_cells. apply Hd.
Qed.

Lemma enqueue_push_ext cur st : cells_wf (sched_list st) ->
  exists st', enqueue_push cur st = Some st' /\ ext st st'.
Proof using.
  intros Hwf. unfold enqueue_push. destruct (schedule_event_push_spec cur (sched_list st) Hwf) as (l' & [W Hh _ Hd] & E).
  rewrite E. simpl. eexists. split; [done|]. constructor; try done; try apply one_put.
  { intros _ Hf. by apply (schedule_event_push_filled cur _ _ Hwf Hf). }
  intros _ Hb. eapply (balanced_put st); [done| |exact Hb].
  change (waiting (logged ?e ?s)) with (waiting s). apply waiting_cells. apply Hd.
Qed.

Lemma enqueue_init_ext cur st : ext st (enqueue_init cur st).
Proof using.
  constructor; try done; try apply one_put. intros _ Hb. eapply (balanced_put st); [done| |exact Hb].
  unfold waiting. simpl. rewrite map_app. simpl. solve_Permutation.
Qed.

Lemma enqueue_final_ext cur st : ext st (enqueue_final cur st).
Proof using.
  constructor; try done; try apply one_put. intros _ Hb. eapply (balanced_put st); [done| |exact Hb].
  unfold waiting. simpl. rewrite map_app. simpl. solve_Permutation.
Qed.

(** No function of the interface fails an assertion. *)
Lemma do_call_ext c st : cells_wf (sched_list st) -> exists st', do_call c st = Some st' /\ ext st st'.
Proof using.
  assert (Hmark : forall f g st, (forall st, cells_wf (sched_list st) -> exists st', g st = Some st' /\ ext st st') ->
    cells_wf (sched_list st) -> exists st', g (mark f st) = Some st' /\ ext st st').
  { intros f g s Hg Hwf. destruct (Hg (mark f s) Hwf) as (s' & E & He). exists s'. split; [done|].
    by etransitivity; [apply ext_mark|]. }
  intros Hwf. destruct c as [thr dl push_flag| | | | | | | | | | | | | | | | | | | |obj dl sync_flag ro_flag delete_when_done| | | | | |];
    cbn [do_call]; try (by apply enqueue_ext);
    try (eexists; split; [reflexivity|]; apply enqueue_init_ext).
  - destruct (push_flag && _).
    + apply (Hmark _ (enqueue_push _)); [|done]. intros s. apply enqueue_push_ext.
    + apply (Hmark _ (enqueue _ _ _)); [|done]. intros s Hs. by apply enqueue_ext.
  - apply (Hmark _ (enqueue _ _ _)); [|done]. intros s Hs. by apply enqueue_ext.
  - eexists. split; [done|]. etransitivity; [apply ext_mark|apply enqueue_init_ext].
  - eexists. split; [done|]. etransitivity; [apply ext_mark|].
    etransitivity; [apply ext_mark|apply enqueue_final_ext].
  - destruct (enqueue_ext (generic_event_s obj delete_when_done) dl
      (if sync_flag then if ro_flag then SEQ_ROSYNC else SEQ_RWSYNC else SEQ_ACTIVE) st Hwf) as (st' & -> & He).
    { by destruct sync_flag, ro_flag. }
    simpl. eexists. split; [done|]. destruct sync_flag; [|done]. by etransitivity; [|apply ext_mark].
  - destruct (negb _); [eexists; split; [done|]; apply enqueue_init_ext|by apply enqueue_ext].
  - eexists. split; [done|]. by apply ext_same.
  - eexists. split; [done|]. by apply ext_same.
  - eexists. split; [done|]. by apply ext_same.
Qed.

Lemma do_calls_ext cs st : cells_wf (sched_list st) -> exists st', do_calls cs st = Some st' /\ ext st st'.
Proof using.
  revert st. induction cs as [|c cs IH]; intros st Hwf; [by exists st|].
  destruct (do_call_ext c st Hwf) as (st1 & E1 & He1). simpl. rewrite E1. simpl.
  destruct (IH st1 (ext_wf _ _ He1 Hwf)) as (st2 & E2 & He2). exists st2. split; [done|]. by etransitivity.
Qed.

Lemma callback_ext f st : cells_wf (sched_list st) -> exists st', callback f st = Some st' /\ ext st st'.
Proof using.
  intros Hwf. unfold callback. destruct (f _ _) as [d calls].
  destruct (do_calls_ext calls (set_design d st) Hwf) as (st' & E & He). exists st'. split; [done|].
  etransitivity; [|done]. by apply ext_same.
Qed.

(** A forced value that its target has no room for, or that has no target. *)
Definition force_fails (cur : event_s) st : Prop :=
  exists net val base vwid, cur = force_vector4_event_s net val base vwid /\
    force_value (vec4_value net (the_design st)) val base vwid = None.

(** For a target of the width that the event carries, and a place whose end is a
    32-bit number, the assertions hold just when the value ends inside of the
    target. *)
Lemma force_value_fits sig val base : 0 <= base -> base + Z.of_nat (size val) < 2 ^ 32 ->
  force_value (Some sig) val base (Z.of_nat (size sig)) = None <-> Z.of_nat (size sig) < base + Z.of_nat (size val).
Proof using.
  intros Hb Hw. unfold force_value, u32. rewrite (Z.mod_small (Z.of_nat (size val))) by lia.
  rewrite (Z.mod_small (base + _)) by lia. destruct (Z.ltb_spec (Z.of_nat (size sig)) (base + Z.of_nat (size val))) as [Hl|Hl].
  - split; [done|]. intros _. destruct (for_loop _ _ _ _); [|done]. simpl.
    unfold set_vec. rewrite (proj2 (Nat.leb_gt _ _)) by lia. done.
  - split; [|lia]. intros E. exfalso.
    assert (Hm : exists m, for_loop (Z.to_nat (Z.of_nat (size val))) 0
        (fun idx mask => mask ← mask; mask_set_bit ((base + Z.of_nat idx) mod 2 ^ 32) mask)
        (Some (replicate (Z.to_nat (Z.of_nat (size sig))) false)) = Some m /\ length m = size sig).
    { apply (for_loop_ind (fun _ r => exists m, r = Some m /\ length m = size sig)).
      - eexists. split; [done|]. rewrite length_replicate. lia.
      - intros i r Hi (m & -> & Hm). simpl. unfold mask_set_bit. rewrite Z.mod_small by lia.
        rewrite (proj2 (Z.ltb_lt _ _)) by lia. eexists. split; [done|]. by rewrite length_insert. }
    destruct Hm as (m & Em & _). rewrite Em in E. simpl in E. unfold set_vec in E.
    rewrite (proj2 (Nat.leb_le _ _)) in E by lia. by destruct (set_plane _ _ _ _ _), (set_plane _ _ _ _ _).
Qed.

Lemma run_run_ext cur st : cells_wf (sched_list st) ->
  (exists st', run_run cur st = Some st' /\ ext st st') \/ run_run cur st = None /\ force_fails cur st.
Proof using.
  intros Hwf. destruct cur; cbn [run_run]; try (left; by apply callback_ext).
  - left. destruct (0 <? vwid); by apply callback_ext.
  - destruct (force_value _ _ _ _) as [[tmp mask]|] eqn:E; simpl.
    + left. by apply callback_ext.
    + right. split; [done|]. by eexists _, _, _, _.
  - left. destruct (callback_ext (gen_run_run obj) st Hwf) as (st' & -> & He). simpl.
    eexists. split; [done|]. destruct delete_obj_when_done; [|done]. by etransitivity; [|apply ext_mark].
Qed.

(** ** The invariant *)

(** The phases that work on the cell of the present time. *)
Definition in_slot (p : phase) : bool :=
  match p with StartOfTime | Queues | Rosync | DelThr => true | _ => false end.

Definition before_sim (p : phase) : bool := match p with Begin | Inits => true | _ => false end.

Record sound st : Prop := {
  sound_cells : cells_wf (sched_list st);
  sound_head : in_slot (at_phase st) = true -> head_now st;
  sound_rosync : sim_at_rosync st = bool_decide (at_phase st = Rosync);
  sound_started : sim_started st = negb (before_sim (at_phase st));
  sound_time : is_word (schedule_time st);
  sound_begin : at_phase st = Begin -> schedule_time st = 0 }.

Definition inv st : Prop := sound st /\ balanced st.

Lemma ext_sound st st' : ext st st' -> sound st -> sound st'.
Proof using.
  intros [E1 E2 E3 E4 _ _ _ W Hh _ _] [S1 S2 S3 S4 S5 S6]. constructor; rewrite ?E1, ?E2, ?E3, ?E4; auto.
Qed.

Lemma ext_inv st st' : ext st st' -> inv st -> inv st'.
Proof using. intros He [Hs Hb]. split; [by eapply ext_sound|]. apply (ext_balanced _ _ He); [apply Hs|done]. Qed.

Lemma callback_inv f st : inv st -> exists st', callback f st = Some st' /\ ext st st' /\ inv st'.
Proof using.
  intros Hi. destruct (callback_ext f st) as (st' & E & He); [apply Hi|]. exists st'.
  split; [done|]. split; [done|]. by eapply ext_inv.
Qed.

(** An event that was pulled off its list and not run yet. *)
Definition pulled w cur st : Prop := puts (log st) ≡ₚ rans (log st) ++ drops (log st) ++ (w, cur) :: waiting st.

Lemma run_event_inv w cur st : sound st -> pulled w cur st ->
  (exists st', run_event w cur st = Some st' /\ ext (logged (Ran w cur) st) st' /\ inv st') \/
  run_event w cur st = None /\ force_fails cur st.
Proof using.
  intros Hs Hp. unfold run_event. assert (Hi : inv (logged (Ran w cur) st)).
  { split; [destruct Hs; by constructor|]. unfold balanced. cbn. fold (puts (log st)) (rans (log st)) (drops (log st)).
    unfold pulled in Hp. rewrite Hp. change (waiting (logged (Ran w cur) st)) with (waiting st). solve_Permutation. }
  destruct (run_run_ext cur (logged (Ran w cur) st)) as [(st' & E & He)|]; [apply Hs| |by right].
  left. exists st'. split; [done|]. split; [done|]. by eapply ext_inv.
Qed.

(** The pull of the first event of a queue of the present cell. *)
Lemma pulled_cell q cur rest c next st : inv st -> sched_list st = c :: next -> delay c = 0 ->
  queue_of q c = cur :: rest ->
  let st' := set_cells (set_queue q rest c :: next) st in
  pulled (At (schedule_time st)) cur st' /\ sound st'.
Proof using.
  intros [[S1 S2 S3 S4 S5 S6] Hb] Hl H0 Hq. cbv zeta. split.
  - unfold pulled. simpl. unfold balanced, waiting in *. rewrite Hb. simpl. rewrite Hl. simpl.
    rewrite (cell_events_pull q cur rest c Hq). rewrite delay_set_queue, H0, Z.add_0_r, (u64_small (schedule_time st)) by done.
    simpl. unfold at_due at 1. simpl. solve_Permutation.
  - rewrite Hl in S1. destruct S1 as [W1 W2]. constructor; try done; simpl.
    + split; [by rewrite delay_set_queue|done].
    + intros _. eexists _, _. split; [done|]. by rewrite delay_set_queue.
Qed.

Lemma go_sound p st : sound st -> p <> Begin -> (in_slot p = true -> head_now st) ->
  sim_at_rosync st = bool_decide (p = Rosync) -> sim_started st = negb (before_sim p) -> sound (go p st).
Proof using. intros [S1 S2 S3 S4 S5 S6] Hp Hh Hr Hb. by constructor. Qed.

(** A round of a drain loop. *)
Lemma drain_inv q after st : inv st -> in_slot (at_phase st) = true ->
  (forall c next, sched_list st = c :: next -> queue_of q c = [] ->
     exists st', after st = Some st' /\ inv st') ->
  (exists st', drain q after st = Some st' /\ inv st') \/
  (drain q after st = None /\ exists cur, (c ← head (sched_list st); head (queue_of q c)) = Some cur /\ force_fails cur st).
Proof using.
  intros Hi Hp Ha. destruct (sound_head _ (proj1 Hi) Hp) as (c & next & Hl & H0). unfold drain. rewrite Hl.
  destruct (queue_of q c) as [|cur rest] eqn:Hq; [left; by eapply Ha|].
  destruct (pulled_cell q cur rest c next st Hi Hl H0 Hq) as [Hpl Hs].
  destruct (run_event_inv _ _ _ Hs Hpl) as [(st' & E & _ & Hi')|[E Hf]]; [left; eauto|right].
  split; [done|]. exists cur. simpl. by rewrite Hq.
Qed.

Lemma due_events_u64 n l : due_events (u64 n) l = due_events n l.
Proof using.
  revert n. induction l as [|c next IH]; intros n; [done|]. simpl.
  assert (E : u64 (u64 n + delay c) = u64 (n + delay c)) by apply Zplus_mod_idemp_l.
  rewrite E. f_equal. rewrite <- (IH (u64 n + delay c)), <- (IH (n + delay c)). by rewrite E.
Qed.

(** Advancing the time keeps what is due when. *)
Lemma advance_waiting st c next : sched_list st = c :: next ->
  waiting (set_cells (set_delay c 0 :: next) (set_time (add64 (schedule_time st) (delay c)) st)) = waiting st.
Proof using.
  intros Hl. unfold waiting. simpl. rewrite Hl. simpl. rewrite cell_events_set_delay, Z.add_0_r.
  unfold add64. rewrite (u64_small (u64 _)) by apply u64_range. by rewrite due_events_u64.
Qed.

Lemma promote_events c : cell_events (promote c) ≡ₚ cell_events c.
Proof using.
  destruct c as [d st [|a ac] [|i ia] [|n nb] rw ro dt]; unfold promote, cell_events; simpl; solve_Permutation.
Qed.
Lemma promote_delay c : delay (promote c) = delay c.
Proof using. by destruct c as [d st [|a ac] [|i ia] [|n nb] rw ro dt]. Qed.

Lemma promote_inv c next st : inv st -> sched_list st = c :: next -> delay c = 0 ->
  inv (set_cells (promote c :: next) st).
Proof using.
  intros [[S1 S2 S3 S4 S5 S6] Hb] Hl H0. split.
  - rewrite Hl in S1. destruct S1 as [W1 W2]. constructor; try done; simpl.
    + split; [by rewrite promote_delay|done].
    + intros _. eexists _, _. split; [done|]. by rewrite promote_delay.
  - unfold balanced, waiting in *. simpl. rewrite Hb, Hl. simpl. by rewrite promote_events, promote_delay.
Qed.

Lemma end_main_inv st : inv st -> sim_at_rosync st = false -> before_sim (at_phase st) = false -> inv (end_main st).
Proof using.
  intros [Hs Hb] Hr Hp. split; [|done]. destruct Hs as [S1 S2 S3 S4 S5 S6]. constructor; try done. simpl. by rewrite S4, Hp.
Qed.

(** ** Steps *)

(** The event that the loop of the present phase pulls off its list. *)
Definition next_event st : option event_s :=
  match at_phase st with
  | Inits => head (schedule_init_list st)
  | StartOfTime => c ← head (sched_list st); head (start c)
  | Queues => c ← head (sched_list st); head (active (promote c))
  | Rosync => c ← head (sched_list st); head (rosync c)
  | DelThr => c ← head (sched_list st); head (del_thr c)
  | Finals => if schedule_runnable st then head (schedule_final_list st) else None
  | _ => None
  end.

Lemma balanced_same st st' : log st' = log st -> waiting st' ≡ₚ waiting st -> balanced st -> balanced st'.
Proof using. unfold balanced. intros -> ->. done. Qed.

Lemma main_step_inv st : inv st -> at_phase st = Main -> exists st', main_step st = Some st' /\ inv st'.
Proof using.
  intros Hi Hp. pose proof Hi as [[S1 S2 S3 S4 S5 S6] Hb]. rewrite Hp in S3. unfold main_step.
  destruct (sched_list st) as [|c next] eqn:Hl; [eexists; split; [done|]; apply end_main_inv; [done|done|by rewrite Hp]|].
  destruct (schedule_stopped_flag st).
  { destruct (callback_inv stop_handler (set_stopped false st)) as (st' & -> & He & Hi').
    { split; [|done]. rewrite <- Hl in S1. constructor; try done. simpl. by rewrite Hp. }
    simpl. eexists. split; [done|]. destruct (schedule_runnable st'); cbn [negb]; [done|].
    pose proof (ext_phase _ _ He) as E1. pose proof (ext_rosync _ _ He) as E2. simpl in E1, E2.
    apply end_main_inv; [done|by rewrite E2, S3|by rewrite E1, Hp]. }
  destruct (Z.ltb_spec 0 (delay c)) as [Hd|Hd].
  - destruct (schedule_runnable st); cbn [negb];
      [|eexists; split; [done|]; apply end_main_inv; [done|done|by rewrite Hp]].
    destruct (callback_inv vpiNextSimTime
      (set_cells (set_delay c 0 :: next) (set_time (add64 (schedule_time st) (delay c)) st))) as (st' & E & He & Hi').
    { split.
      - destruct S1 as [W1 W2]. constructor; simpl.
        + split; [apply is_word_0|done].
        + intros _. by eexists _, _.
        + by rewrite Hp.
        + done.
        + apply u64_range.
        + by rewrite Hp.
      - apply (balanced_same st); [done| |done]. by rewrite advance_waiting. }
    rewrite E. simpl. eexists. split; [done|]. destruct Hi' as [Hs' Hb']. split; [|done].
    apply go_sound; [done|done| | |].
    + intros _. apply (ext_head _ _ He); [|by eexists _, _]. destruct S1 as [W1 W2]. split; [apply is_word_0|done].
    + rewrite (ext_rosync _ _ He). done.
    + rewrite (ext_started _ _ He). simpl. by rewrite S4, Hp.
  - eexists. split; [done|]. split; [|done]. apply go_sound; [apply Hi|done| |done|by rewrite S4, Hp].
    intros _. exists c, next. split; [done|]. destruct S1 as [W1 _]. unfold is_word in W1. lia.
Qed.

Lemma queues_step_inv st : inv st -> at_phase st = Queues ->
  (exists st', queues_step st = Some st' /\ inv st') \/ (queues_step st = None /\ exists cur, next_event st = Some cur /\ force_fails cur st).
Proof using.
  intros Hi Hp. unfold queues_step. destruct (sound_head _ (proj1 Hi)) as (c & next & Hl & H0); [by rewrite Hp|].
  rewrite Hl. pose proof (promote_inv c next st Hi Hl H0) as Hi'. pose proof Hi' as [[S1 S2 S3 S4 S5 S6] Hb].
  simpl in S3, S4. rewrite Hp in S3, S4.
  destruct (active (promote c)) as [|cur rest] eqn:Ha.
  - left. eexists. split; [done|]. split; [|done]. constructor; try done.
    intros _. eexists _, _. split; [done|]. by rewrite promote_delay.
  - destruct (pulled_cell SEQ_ACTIVE cur rest (promote c) next _ Hi' eq_refl) as [Hpl Hs]; [by rewrite promote_delay|done|].
    set (st1 := set_cells (set_queue SEQ_ACTIVE rest (promote c) :: next) st).
    assert (Hst1 : sound st1 /\ pulled (At (schedule_time st)) cur st1).
    { split; [|done]. destruct Hs as [T1 T2 T3 T4 T5 T6]. by constructor. }
    set (st2 := if schedule_single_step_flag st1 then _ else st1).
    assert (Hst2 : sound st2 /\ pulled (At (schedule_time st2)) cur st2).
    { unfold st2. destruct (schedule_single_step_flag st1); [|done]. split; [|apply Hst1].
      destruct Hst1 as [[T1 T2 T3 T4 T5 T6] _]. by constructor. }
    assert (E2 : at_phase st2 = Queues) by (unfold st2; by destruct (schedule_single_step_flag st1)).
    destruct Hst2 as [T P].
    destruct (run_event_inv _ _ _ T P) as [(st' & E & He & Hi'')|[E Hf]]; rewrite E; simpl.
    2: { right. split; [done|]. exists cur. unfold next_event. rewrite Hp, Hl. simpl. rewrite Ha. split; [done|].
      unfold st2 in Hf. by destruct (schedule_single_step_flag st1). }
    left.
    eexists. split; [done|]. destruct Hi'' as [Hs'' Hb'']. split; [|done].
    pose proof (ext_rosync _ _ He) as E3. pose proof (ext_started _ _ He) as E4. simpl in E3, E4.
    destruct T as [_ _ T3 T4 _ _]. rewrite E2 in T3, T4.
    apply go_sound; [done|done|done|by rewrite E3, T3|by rewrite E4, T4].
Qed.

Lemma delete_cell_inv st c next : inv st -> at_phase st = DelThr -> sched_list st = c :: next ->
  exists st', delete_cell st = Some st' /\ inv st'.
Proof using.
  intros Hi Hp Hl. destruct (sound_head _ (proj1 Hi)) as (c1 & n1 & Hl1 & H0); [by rewrite Hp|].
  rewrite Hl in Hl1. injection Hl1 as <- <-. destruct Hi as [[S1 S2 S3 S4 S5 S6] Hb]. unfold delete_cell. rewrite Hl.
  eexists. split; [done|]. rewrite Hl in S1. destruct S1 as [W1 W2]. rewrite Hp in S3, S4.
  set (st1 := match active c, inactive c, nbassign c, rwsync c with [], [], [], [] => st | _, _, _, _ => _ end).
  assert (E1 : st1 = st \/ st1 = logged SchedulerError st).
  { unfold st1. destruct (active c), (inactive c), (nbassign c), (rwsync c); auto. }
  assert (Hd : forall l, puts (map (Dropped (At (schedule_time st))) l ++ log st1) = puts (log st) /\
    rans (map (Dropped (At (schedule_time st))) l ++ log st1) = rans (log st) /\
    drops (map (Dropped (At (schedule_time st))) l ++ log st1) = map (pair (At (schedule_time st))) l ++ drops (log st)).
  { intros l. induction l as [|x l (I1 & I2 & I3)]; [by destruct E1 as [-> | ->]|].
    simpl. split; [done|]. split; [done|]. by f_equal. }
  assert (E2 : schedule_time st1 = schedule_time st) by (by destruct E1 as [-> | ->]).
  split.
  - constructor; simpl; try (by destruct E1 as [-> | ->]). by apply later_wf.
  - unfold balanced. cbn [log go set_cells set_log]. rewrite E2. destruct (Hd (cell_events c)) as (-> & -> & ->).
    unfold balanced in Hb. rewrite Hb.
    assert (Hw : waiting st ≡ₚ map (pair (At (schedule_time st))) (cell_events c) ++
      waiting (go Main (set_cells next (set_log (map (Dropped (At (schedule_time st))) (cell_events c) ++ log st1) st1)))).
    { unfold waiting. rewrite Hl. simpl. rewrite E2, H0, Z.add_0_r, (u64_small (schedule_time st)) by done.
      rewrite map_app, map_map. unfold at_due at 1. simpl.
      destruct E1 as [-> | ->]; simpl; solve_Permutation. }
    rewrite Hw. solve_Permutation.
Qed.

(** Moving on to a phase outside of a time slot. *)
Lemma go_inv p st : inv st -> p <> Begin -> in_slot p = false -> sim_at_rosync st = false ->
  sim_started st = negb (before_sim p) -> inv (go p st).
Proof using.
  intros [Hs Hb] H1 H2 H3 H4. split; [|done]. apply go_sound; [done|done| |by destruct p|done]. by rewrite H2.
Qed.

Lemma begin_step_inv st : inv st -> at_phase st = Begin -> exists st', step st = Some st' /\ inv st'.
Proof using.
  intros [[S1 S2 S3 S4 S5 S6] Hb] Hp. unfold step. rewrite Hp in *.
  destruct (callback_inv vpiEndOfCompile (set_time 0 (set_started false st))) as (st' & -> & He & Hi').
  - split; [constructor; simpl; rewrite ?Hp; done || apply is_word_0|].
    apply (balanced_same st); [done| |done]. unfold waiting. simpl. by rewrite S6.
  - simpl. eexists. split; [done|]. apply go_inv; [done..| |].
    + by rewrite (ext_rosync _ _ He).
    + by rewrite (ext_started _ _ He).
Qed.

Lemma list_step_inv w cur (st0 : option (state D)) st : sound st -> pulled w cur st -> st0 = run_event w cur st ->
  (exists st', st0 = Some st' /\ inv st') \/ (st0 = None /\ force_fails cur st).
Proof using.
  intros Hs Hp ->. destruct (run_event_inv w cur st Hs Hp) as [(st' & E & _ & Hi)|[E Hf]]; [left|right]; eauto.
Qed.

Lemma inits_step_inv st : inv st -> at_phase st = Inits ->
  (exists st', step st = Some st' /\ inv st') \/ (step st = None /\ exists cur, next_event st = Some cur /\ force_fails cur st).
Proof using.
  intros [[S1 S2 S3 S4 S5 S6] Hb] Hp. unfold step. rewrite Hp in *.
  destruct (schedule_init_list st) as [|cur rest] eqn:Hl.
  - left. eexists. split; [done|]. split; [|done]. by constructor.
  - assert (Hn : next_event st = Some cur) by (unfold next_event; by rewrite Hp, Hl).
    enough ((exists st', run_event InInits cur (set_inits rest st) = Some st' /\ inv st') \/
      run_event InInits cur (set_inits rest st) = None /\ force_fails cur (set_inits rest st)) as [|[? ?]]; [by left|right; eauto|].
    eapply (list_step_inv InInits cur); [| |reflexivity].
    + constructor; simpl; rewrite ?Hp; done.
    + unfold pulled, balanced, waiting in *. rewrite Hl in Hb. simpl in *. rewrite Hb. solve_Permutation.
Qed.

Lemma start_step_inv st : inv st -> at_phase st = StartOfSim -> exists st', step st = Some st' /\ inv st'.
Proof using.
  intros Hi Hp. pose proof Hi as [[S1 S2 S3 S4 S5 S6] Hb]. unfold step. rewrite Hp in *.
  destruct (callback_inv vpiStartOfSim st Hi) as (st' & -> & He & Hi'). simpl. eexists. split; [done|].
  pose proof (ext_phase _ _ He) as E1. pose proof (ext_rosync _ _ He) as E2. pose proof (ext_started _ _ He) as E3.
  assert (Hi2 : inv (set_run_finals (schedule_runnable st') st')).
  { destruct Hi' as [[T1 T2 T3 T4 T5 T6] Hb']. split; [|done]. by constructor. }
  destruct (schedule_runnable st').
  - apply go_inv; [done..| |]; simpl; [by rewrite E2, S3|by rewrite E3, S4].
  - apply end_main_inv; [done| |]; simpl; [by rewrite E2, S3|by rewrite E1, Hp].
Qed.

Lemma finals_step_inv st : inv st -> at_phase st = Finals ->
  (exists st', step st = Some st' /\ inv st') \/ (step st = None /\ exists cur, next_event st = Some cur /\ force_fails cur st).
Proof using.
  intros Hi Hp. pose proof Hi as [[S1 S2 S3 S4 S5 S6] Hb]. unfold step. rewrite Hp in *.
  assert (Hend : exists st', (st ← callback vpiPostsim st; Some (go Done st)) = Some st' /\ inv st').
  { destruct (callback_inv vpiPostsim st Hi) as (st' & -> & He & Hi'). simpl. eexists. split; [done|].
    apply go_inv; [done..| |].
    - by rewrite (ext_rosync _ _ He), S3.
    - by rewrite (ext_started _ _ He), S4. }
  destruct (schedule_runnable st) eqn:Hr, (schedule_final_list st) as [|cur rest] eqn:Hl; [by left| |by left..].
  assert (Hn : next_event st = Some cur) by (unfold next_event; by rewrite Hp, Hr, Hl).
  enough ((exists st', run_event InFinals cur (set_finals rest st) = Some st' /\ inv st') \/
    run_event InFinals cur (set_finals rest st) = None /\ force_fails cur (set_finals rest st)) as [|[? ?]]; [by left|right; eauto|].
  eapply (list_step_inv InFinals cur); [| |reflexivity].
  - constructor; simpl; rewrite ?Hp; done.
  - unfold pulled, balanced, waiting in *. rewrite Hl in Hb. simpl in *. rewrite Hb. solve_Permutation.
Qed.

(** The machine keeps its invariant, and stops short only in the assertion of a
    forced value that does not fit. *)
Lemma step_inv st : inv st ->
  (exists st', step st = Some st' /\ inv st') \/ (step st = None /\ exists cur, next_event st = Some cur /\ force_fails cur st).
Proof using.
  intros Hi. destruct (at_phase st) eqn:Hp.
  - left. by apply begin_step_inv.
  - by apply inits_step_inv.
  - left. by apply start_step_inv.
  - left. unfold step. rewrite Hp. by apply main_step_inv.
  - unfold step, next_event. rewrite Hp. apply drain_inv; [done|by rewrite Hp|]. intros c next Hl Hq. eexists. split; [done|].
    destruct Hi as [[S1 S2 S3 S4 S5 S6] Hb]. rewrite Hp in *. split; [|done]. by constructor.
  - unfold step. rewrite Hp. by apply queues_step_inv.
  - unfold step, next_event. rewrite Hp. apply drain_inv; [done|by rewrite Hp|]. intros c next Hl Hq. eexists. split; [done|].
    destruct Hi as [[S1 S2 S3 S4 S5 S6] Hb]. rewrite Hp in *. split; [|done]. by constructor.
  - unfold step, next_event. rewrite Hp. apply drain_inv; [done|by rewrite Hp|]. intros c next Hl Hq.
    by eapply delete_cell_inv.
  - by apply finals_step_inv.
  - left. exists st. unfold step. by rewrite Hp.
Qed.

(** A force event that does not fit does stop the machine. *)
Lemma force_fails_run w cur st : force_fails cur st -> run_event w cur st = None.
Proof using. intros (net & val & base & vwid & -> & E). unfold run_event, run_run. simpl. by rewrite E. Qed.

Lemma next_fails_stuck st cur : next_event st = Some cur -> force_fails cur st -> step st = None.
Proof using.
  assert (Hdrain : forall q after, (c ← head (sched_list st); head (queue_of q c)) = Some cur -> force_fails cur st ->
    drain q after st = None).
  { intros q after Hn Hf. unfold drain. destruct (sched_list st) as [|c next]; [done|]. simpl in Hn.
    destruct (queue_of q c) as [|cur' rest]; [done|]. injection Hn as ->. by apply force_fails_run. }
  unfold next_event, step. destruct (at_phase st) eqn:Hp; intros Hn Hf; try done.
  - destruct (schedule_init_list st) as [|cur' rest]; [done|]. injection Hn as ->. by apply force_fails_run.
  - by apply Hdrain.
  - unfold queues_step. destruct (sched_list st) as [|c next]; [done|]. simpl in Hn.
    destruct (active (promote c)) as [|cur' rest]; [done|]. injection Hn as ->.
    rewrite force_fails_run; [done|]. simpl. by destruct (schedule_single_step_flag st).
  - by apply Hdrain.
  - by apply Hdrain.
  - destruct (schedule_runnable st); [|done]. destruct (schedule_final_list st) as [|cur' rest]; [done|].
    injection Hn as ->. by apply force_fails_run.
Qed.

(** ** Reachable states *)

(** Before [schedule_simulate] is called the loader and the compiler of the
    design file use the interface too. *)
Inductive reachable : state D -> Prop :=
| reach_initial d : reachable (initial d)
| reach_load c st st' : reachable st -> at_phase st = Begin -> do_call c st = Some st' -> reachable st'
| reach_step st st' : reachable st -> step st = Some st' -> reachable st'.

Lemma initial_inv d : inv (initial d).
Proof using. split; [|apply Permutation_refl]. constructor; try done. Qed.

Lemma reachable_inv st : reachable st -> inv st.
Proof using.
  induction 1 as [d|c st st' _ IH Hp E|st st' _ IH E].
  - apply initial_inv.
  - destruct (do_call_ext c st) as (s & E' & He); [apply IH|]. rewrite E in E'. injection E' as <-. by eapply ext_inv.
  - destruct (step_inv st IH) as [(s & E' & Hi)|[E' _]]; congruence.
Qed.

Lemma steps_reachable n st st' : reachable st -> steps n st = Some st' -> reachable st'.
Proof using.
  revert st. induction n as [|n IH]; intros st Hr E; simpl in E; [by injection E as <-|].
  destruct (step st) as [s|] eqn:Es; [|done]. apply (IH s); [|done]. by eapply reach_step.
Qed.
End Inv.

(** ** Properties *)

(** C2. Nothing is lost and nothing runs twice: at every moment of a run the
    events put so far, each with its place - the time it was put for, or the
    initial or final list - are exactly those that ran at that place, those
    dropped with the cell of their time, and those that still wait there. *)
Theorem scheduler_exactly_once `{VvpTypes} {D : Type} `{!Design D} (st : state D) :
  reachable st -> puts (log st) ≡ₚ rans (log st) ++ drops (log st) ++ waiting st.
Proof. intros Hr. apply (reachable_inv st Hr). Qed.

(** C31. The scheduler always has a next step: in every reachable state a step fails
    exactly when the event that the present phase pulls off its list is a force
    event and one of the assertions of [force_vector4_event_s::run_run] fails: it has
    no signal, or the value reaches beyond it - for an event with the width of its
    signal and an end below [2^32], just then (see [force_overhang_fails]).  So no null
    time cell is followed and no other assertion fails; and no call of the functions of
    schedule.h fails either, whatever its arguments. *)
Theorem scheduler_never_stuck `{VvpTypes} {D : Type} `{!Design D} (st : state D) : reachable st ->
  (step st = None <-> exists cur, next_event st = Some cur /\ force_fails cur st) /\
  (forall net val base sig, vec4_value net (the_design st) = Some sig -> 0 <= base -> base + Z.of_nat (size val) < 2 ^ 32 ->
    force_fails (force_vector4_event_s net val base (Z.of_nat (size sig))) st <->
    Z.of_nat (size sig) < base + Z.of_nat (size val)) /\
  forall c, exists st', do_call c st = Some st'.
Proof.
  intros Hr. pose proof (reachable_inv st Hr) as Hi. split; [split|split].
  - destruct (step_inv st Hi) as [(st' & E & _)|[_ Hf]]; [congruence|done].
  - intros (cur & Hn & Hf). by eapply next_fails_stuck.
  - intros net val base sig Es Hb Hw. rewrite <- (force_value_fits sig val base Hb Hw). split.
    + intros (? & ? & ? & ? & [= <- <- <- <-] & E). by rewrite Es in E.
    + intros E. eexists _, _, _, _. split; [done|]. by rewrite Es.
  - intros c. destruct (do_call_ext c st (sound_cells _ (proj1 Hi))) as (st' & E & _). by exists st'.
Qed.

(** ** A design to try it on *)

(** Threads and generic events that make the calls of a script. *)
Definition scripted (boot : list call) (prog obj : nat -> list call) : @Design nat_types unit :=
  @Build_Design nat_types unit
    (fun thr _ d => (d, prog thr)) (fun _ _ d => (d, [])) (fun _ d => d) (fun _ d => d) (fun d => d)
    (fun _ _ _ d => (d, [])) (fun _ _ _ _ _ d => (d, [])) (fun _ _ _ d => (d, [])) (fun _ _ _ d => (d, []))
    (fun _ _ _ _ _ d => (d, [])) (fun _ _ _ _ d => (d, [])) (fun _ _ => None) (fun _ _ _ _ d => (d, []))
    (fun _ _ _ d => (d, [])) (fun _ _ _ d => (d, [])) (fun o _ d => (d, obj o)) (fun _ d => d)
    (fun _ d => (d, [])) (fun _ d => (d, [])) (fun _ d => (d, boot)) (fun _ d => (d, [])) (fun _ d => (d, [])).

(** Thread 1 assigns without blocking, wakes thread 2 as inactive and thread 3
    after 5 time units; thread 3 schedules a read-only event. *)
Definition demo_prog (thr : nat) : list (@call nat_types) :=
  match thr with
  | 1%nat => [schedule_assign_vector (H := nat_types) 7%nat 0 0 (vec4_fill 1 Bit4.BIT4_1) 0;
              schedule_inactive (H := nat_types) 2%nat;
              schedule_vthread (H := nat_types) 3%nat 5 false]
  | 3%nat => [schedule_generic (H := nat_types) 9%nat 0 true true false]
  | _ => []
  end.
Definition demo : @Design nat_types unit :=
  scripted [schedule_vthread (H := nat_types) 1%nat 0 false; schedule_final_vthread (H := nat_types) 4%nat]
    demo_prog (fun _ => []).

(** The run of [n] steps from the initial state is reachable. *)
Lemma run_reachable `{VvpTypes} {D : Type} `{!Design D} n d (st : state D) :
  steps n (initial d) = Some st -> reachable st.
Proof. apply steps_reachable, reach_initial. Qed.

Definition demo_after (n : nat) : state (H := nat_types) unit :=
  default (initial tt) (@steps nat_types unit demo n (initial tt)).

Lemma demo_reachable n : bool_decide (is_Some (@steps nat_types unit demo n (initial tt))) = true ->
  @reachable nat_types unit demo (demo_after n).
Proof.
  intros [st E]%bool_decide_eq_true. unfold demo_after. rewrite E. by apply (@run_reachable nat_types unit demo n tt).
Qed.

(** The whole run, latest first. *)
Example demo_run :
  at_phase (demo_after 30) = Done /\
  @rans nat_types (log (demo_after 30)) =
    [(InFinals, thread_ev 4);
     (At 5, @generic_event_s nat_types 9%nat false);
     (At 5, thread_ev 3);
     (At 0, @assign_vector4_event_s nat_types 7%nat (vec4_fill 1 Bit4.BIT4_1) 0 0);
     (At 0, thread_ev 2);
     (At 0, thread_ev 1)].
Proof. split; vm_compute; reflexivity. Qed.

Lemma scheduler_exactly_once_witness :
  @puts nat_types (log (demo_after 12)) ≡ₚ
    rans (log (demo_after 12)) ++ drops (log (demo_after 12)) ++ waiting (demo_after 12).
Proof.
  apply (@scheduler_exactly_once nat_types unit demo (demo_after 12)). apply demo_reachable. vm_compute. reflexivity.
Defined.

(** A force of 4 bits at offset 2 of a signal of 4 bits: the step that would run it
    fails. *)
Definition overhang : @Design nat_types unit :=
  @Build_Design nat_types unit
    (fun _ _ d => (d, [])) (fun _ _ d => (d, [])) (fun _ d => d) (fun _ d => d) (fun d => d)
    (fun _ _ _ d => (d, [])) (fun _ _ _ _ _ d => (d, [])) (fun _ _ _ d => (d, [])) (fun _ _ _ d => (d, []))
    (fun _ _ _ _ _ d => (d, [])) (fun _ _ _ _ d => (d, [])) (fun _ _ => Some (vec4_fill 4 Bit4.BIT4_0))
    (fun _ _ _ _ d => (d, [])) (fun _ _ _ d => (d, [])) (fun _ _ _ d => (d, [])) (fun _ _ d => (d, [])) (fun _ d => d)
    (fun _ d => (d, [])) (fun _ d => (d, []))
    (fun _ d => (d, [schedule_force_vector (H := nat_types) 1%nat 2 4 (vec4_fill 4 Bit4.BIT4_1) 0]))
    (fun _ d => (d, [])) (fun _ d => (d, [])).

Lemma scheduler_never_stuck_witness :
  let st := default (initial tt) (@steps nat_types unit overhang 4 (initial tt)) in
  @step nat_types unit overhang st = None /\
  forall c, exists st', @do_call nat_types unit overhang c st = Some st'.
Proof.
  intros st.
  assert (Hr : @reachable nat_types unit overhang st).
  { apply (@run_reachable nat_types unit overhang 4 tt). vm_compute. reflexivity. }
  destruct (@scheduler_never_stuck nat_types unit overhang st Hr) as [[_ Hs] [_ Hc]]. split; [|exact Hc].
  apply Hs. eexists. split; [vm_compute; reflexivity|]. eexists _, _, _, _. split; [reflexivity|]. vm_compute. reflexivity.
Defined.
