(* ===== verification/ScheduleOrder.v ===== *)
(** * ScheduleOrder: what the simulation loop promises

    The order of events within a time slot, the advance of time, the end of a
    slot, and the run of a design whose events schedule nothing. *)

From S2P Require Import Prelude FourState Vector4 Schedule ScheduleQueue ScheduleInv.

Section Order.
Context `{VvpTypes} {D : Type} `{!Design D}.
Implicit Types st : state D.

(** ** Pending events of the present *)



Lemma rans_app l1 l2 : rans (l1 ++ l2) = rans l1 ++ rans l2.
Proof using. apply omap_app. Qed.
Lemma drops_app l1 l2 : drops (l1 ++ l2) = drops l1 ++ drops l2.
Proof using. apply omap_app. Qed.







(** ** Time *)

(** The nearest cell is the first. *)
Lemma nothing_before c next q t : cells_wf (c :: next) -> 0 <= t < delay c -> pending q (c :: next) t = [].
Proof using.
  intros [Hc Hn] Ht. cbn [pending]. rewrite (proj2 (Z.eqb_neq t (delay c))) by lia.
  apply pending_neg; [by apply later_wf|lia].
Qed.

Definition same_time st st' : Prop := schedule_time st' = schedule_time st.

Lemma event_time w cur st st' : cells_wf (sched_list st) -> run_event w cur st = Some st' -> same_time st st'.
Proof using.
  intros Hwf E. unfold run_event in E. destruct (run_run_ext cur (logged (Ran w cur) st) Hwf) as [(s & E' & He)|[E' _]].
  - rewrite E in E'. injection E' as <-. exact (ext_time _ _ He).
  - congruence.
Qed.

Lemma callback_time f st st' : cells_wf (sched_list st) -> callback f st = Some st' -> same_time st st'.
Proof using.
  intros Hwf E. destruct (callback_ext f st Hwf) as (s & E' & He). rewrite E in E'. injection E' as <-.
  exact (ext_time _ _ He).
Qed.

Lemma drain_time q after st st' : inv st -> in_slot (at_phase st) = true ->
  (forall s, after st = Some s -> same_time st s) -> drain q after st = Some st' -> same_time st st'.
Proof using.
  intros Hi Hp Ha E. destruct (sound_head _ (proj1 Hi) Hp) as (c & next & Hl & H0).
  unfold drain in E. rewrite Hl in E. destruct (queue_of q c) as [|cur rest] eqn:Hq; [by apply Ha|].
  destruct (pulled_cell q cur rest c next st Hi Hl H0 Hq) as [_ Hs].
  apply (event_time _ _ _ _ (sound_cells _ Hs) E).
Qed.

(** Time moves just when the main loop advances to a later cell. *)
Definition advances st : Prop :=
  at_phase st = Main /\ schedule_stopped_flag st = false /\ schedule_runnable st = true /\
  exists c next, sched_list st = c :: next /\ 0 < delay c.

Lemma main_step_time st st' : inv st -> at_phase st = Main -> main_step st = Some st' ->
  same_time st st' \/ (advances st /\ exists c next, sched_list st = c :: next /\
    schedule_time st' = add64 (schedule_time st) (delay c)).
Proof using.
  intros Hi Hp E. unfold main_step in E. pose proof (sound_cells _ (proj1 Hi)) as Hwf. unfold advances.
  destruct (sched_list st) as [|c next] eqn:Hl; [injection E as <-; by left|].
  destruct (schedule_stopped_flag st).
  { destruct (callback _ _) as [s|] eqn:Ec; [|done]. simpl in E. injection E as <-. left.
    pose proof (callback_time stop_handler (set_stopped false st) s) as Ht. simpl in Ht. rewrite Hl in Ht.
    specialize (Ht Hwf Ec). by destruct (schedule_runnable s). }
  destruct (Z.ltb_spec 0 (delay c)).
  - destruct (schedule_runnable st); cbn [negb] in E; [|injection E as <-; by left].
    destruct (callback _ _) as [s|] eqn:Ec; [|done]. simpl in E. injection E as <-. right.
    split; [eauto 10|]. eexists _, _. split; [done|].
    refine (callback_time _ _ _ _ Ec). destruct Hwf as [W1 W2]. split; [apply is_word_0|done].
  - injection E as <-. by left.
Qed.

Lemma queues_step_time st st' : inv st -> at_phase st = Queues -> queues_step st = Some st' -> same_time st st'.
Proof using.
  intros Hi Hp E. unfold queues_step in E. destruct (sound_head _ (proj1 Hi)) as (c & next & Hl & H0); [by rewrite Hp|].
  rewrite Hl in E. destruct (active (promote c)) as [|cur rest] eqn:Ha; [by injection E as <-|].
  destruct (run_event _ _ _) as [s|] eqn:Er; [|done]. injection E as <-.
  assert (W : cells_wf (set_queue SEQ_ACTIVE rest (promote c) :: next)).
  { pose proof (sound_cells _ (proj1 Hi)) as W. rewrite Hl in W. destruct W as [W1 W2].
    split; [by rewrite delay_set_queue, promote_delay|done]. }
  assert (Ht : same_time st s); [|done].
  simpl in Er. destruct (schedule_single_step_flag st); refine (event_time _ _ _ _ _ Er); exact W.
Qed.

Lemma delete_cell_time st st' : delete_cell st = Some st' -> same_time st st'.
Proof using.
  unfold delete_cell. destruct (sched_list st) as [|c next]; [done|]. intros E. injection E as <-.
  unfold same_time. simpl. by destruct (active c), (inactive c), (nbassign c), (rwsync c).
Qed.

Lemma step_time st st' : inv st -> step st = Some st' ->
  same_time st st' \/ (advances st /\ exists c next, sched_list st = c :: next /\
    schedule_time st' = add64 (schedule_time st) (delay c)).
Proof using.
  intros Hi E. pose proof (sound_cells _ (proj1 Hi)) as Hwf. unfold step in E. destruct (at_phase st) eqn:Hp.
  - destruct (callback _ _) as [s|] eqn:Ec; [|done]. injection E as <-. left.
    pose proof (callback_time vpiEndOfCompile (set_time 0 (set_started false st)) s Hwf Ec) as Ht.
    unfold same_time in *. simpl in *. rewrite Ht. symmetry. by apply (sound_begin _ (proj1 Hi)).
  - left. destruct (schedule_init_list st) as [|cur rest]; [by injection E as <-|].
    exact (event_time _ _ (set_inits rest st) _ Hwf E).
  - destruct (callback _ _) as [s|] eqn:Ec; [|done]. simpl in E. injection E as <-. left.
    pose proof (callback_time _ _ _ Hwf Ec). by destruct (schedule_runnable s).
  - by apply main_step_time.
  - left. eapply drain_time; [done|by rewrite Hp| |exact E]. intros s Es. by injection Es as <-.
  - left. by apply queues_step_time.
  - left. eapply drain_time; [done|by rewrite Hp| |exact E]. intros s Es. by injection Es as <-.
  - left. eapply drain_time; [done|by rewrite Hp| |exact E]. intros s. apply delete_cell_time.
  - left. assert (Hend : forall s, (st ← callback vpiPostsim st; Some (go Done st)) = Some s -> same_time st s).
    { intros s Es. destruct (callback _ _) as [s1|] eqn:Ec; [|done]. injection Es as <-.
      exact (callback_time _ _ _ Hwf Ec). }
    destruct (schedule_runnable st), (schedule_final_list st) as [|cur rest]; try (by apply Hend).
    exact (event_time _ _ (set_finals rest st) _ Hwf E).
  - injection E as <-. by left.
Qed.

(** ** Every later cell has events *)

Lemma callback_filled f st st' : inv st -> filled (sched_list st) -> callback f st = Some st' -> filled (sched_list st').
Proof using.
  intros Hi Hf E. destruct (callback_ext f st (sound_cells _ (proj1 Hi))) as (s & E' & He). rewrite E in E'.
  injection E' as <-. by apply (ext_filled _ _ He), Hf; apply Hi.
Qed.

Lemma event_filled w cur st st' : cells_wf (sched_list st) -> filled (sched_list st) -> run_event w cur st = Some st' ->
  filled (sched_list st').
Proof using.
  intros Hwf Hf E. unfold run_event in E. destruct (run_run_ext cur (logged (Ran w cur) st) Hwf) as [(s & E' & He)|[E' _]].
  - rewrite E in E'. injection E' as <-. by apply (ext_filled _ _ He).
  - congruence.
Qed.

Lemma now_filled c next : delay c = 0 -> filled next -> filled (c :: next).
Proof using. intros H0 Hn. constructor; [lia|done]. Qed.

Lemma filled_tail c next : filled (c :: next) -> filled next.
Proof using. by intros [_ Hn]%List.Forall_cons_iff. Qed.

Lemma drain_filled q after st st' : inv st -> in_slot (at_phase st) = true -> filled (sched_list st) ->
  (forall s, after st = Some s -> filled (sched_list s)) -> drain q after st = Some st' -> filled (sched_list st').
Proof using.
  intros Hi Hp Hf Ha E. destruct (sound_head _ (proj1 Hi) Hp) as (c & next & Hl & H0).
  unfold drain in E. rewrite Hl in *. destruct (queue_of q c) as [|cur rest] eqn:Hq; [by apply Ha|].
  destruct (pulled_cell q cur rest c next st Hi Hl H0 Hq) as [_ Hs].
  apply (event_filled _ _ _ _ (sound_cells _ Hs)) in E; [done|]. simpl.
  apply now_filled; [by rewrite delay_set_queue|]. by eapply filled_tail.
Qed.

Lemma main_step_filled st st' : inv st -> filled (sched_list st) -> main_step st = Some st' -> filled (sched_list st').
Proof using.
  intros Hi Hf E. pose proof (sound_cells _ (proj1 Hi)) as Hwf. unfold main_step in E.
  destruct (sched_list st) as [|c next] eqn:Hl; [injection E as <-; simpl; by rewrite Hl|].
  destruct (schedule_stopped_flag st).
  { destruct (callback_ext stop_handler (set_stopped false st)) as (s & Ec & He); [simpl; by rewrite Hl|].
    rewrite Ec in E. simpl in E. injection E as <-. pose proof (ext_filled _ _ He) as Hs. simpl in Hs. rewrite Hl in Hs.
    specialize (Hs Hwf Hf). by destruct (schedule_runnable s). }
  destruct (Z.ltb_spec 0 (delay c)); [|injection E as <-; simpl; by rewrite Hl].
  destruct (schedule_runnable st); cbn [negb] in E; [|injection E as <-; simpl; by rewrite Hl].
  destruct Hwf as [W1 W2]. edestruct callback_ext as (s & Ec & He); [|rewrite Ec in E]; [split; [apply is_word_0|exact W2]|].
  injection E as <-. apply (ext_filled _ _ He); simpl; [split; [apply is_word_0|done]|].
  apply now_filled; [done|]. by eapply filled_tail.
Qed.

Lemma queues_step_filled st st' : inv st -> at_phase st = Queues -> filled (sched_list st) -> queues_step st = Some st' ->
  filled (sched_list st').
Proof using.
  intros Hi Hp Hf E. unfold queues_step in E. destruct (sound_head _ (proj1 Hi)) as (c & next & Hl & H0); [by rewrite Hp|].
  pose proof (sound_cells _ (proj1 Hi)) as W. rewrite Hl in *. destruct W as [W1 W2]. apply filled_tail in Hf.
  destruct (active (promote c)) as [|cur rest] eqn:Ha.
  - injection E as <-. simpl. apply now_filled; [by rewrite promote_delay|done].
  - destruct (run_event _ _ _) as [s|] eqn:Er; [|done]. injection E as <-. simpl in *.
    apply event_filled in Er; [done|..]; destruct (schedule_single_step_flag st); simpl;
      solve [split; [by rewrite delay_set_queue, promote_delay|done]
            |apply now_filled; [by rewrite delay_set_queue, promote_delay|done]].
Qed.

Lemma step_filled st st' : inv st -> filled (sched_list st) -> step st = Some st' -> filled (sched_list st').
Proof using.
  intros Hi Hf E. pose proof (sound_cells _ (proj1 Hi)) as Hwf. unfold step in E. destruct (at_phase st) eqn:Hp.
  - destruct (callback_ext vpiEndOfCompile (set_time 0 (set_started false st)) Hwf) as (s & Ec & He).
    rewrite Ec in E. injection E as <-. by apply (ext_filled _ _ He).
  - destruct (schedule_init_list st) as [|cur rest]; [by injection E as <-|].
    exact (event_filled _ _ (set_inits rest st) _ Hwf Hf E).
  - destruct (callback _ _) as [s|] eqn:Ec; [|done]. simpl in E. injection E as <-.
    pose proof (callback_filled _ _ _ Hi Hf Ec). by destruct (schedule_runnable s).
  - by apply (main_step_filled st).
  - eapply drain_filled; [done|by rewrite Hp|done| |exact E]. intros s Es. by injection Es as <-.
  - by apply (queues_step_filled st).
  - eapply drain_filled; [done|by rewrite Hp|done| |exact E]. intros s Es. by injection Es as <-.
  - eapply drain_filled; [done|by rewrite Hp|done| |exact E]. intros s. unfold delete_cell.
    destruct (sched_list st) as [|c next]; [done|]. intros [= <-]. by apply (filled_tail c).
  - assert (Hend : forall s, (st ← callback vpiPostsim st; Some (go Done st)) = Some s -> filled (sched_list s)).
    { intros s Es. destruct (callback _ _) as [s1|] eqn:Ec; [|done]. injection Es as <-.
      exact (callback_filled _ _ _ Hi Hf Ec). }
    destruct (schedule_runnable st), (schedule_final_list st) as [|cur rest]; try (by apply Hend).
    exact (event_filled _ _ (set_finals rest st) _ Hwf Hf E).
  - by injection E as <-.
Qed.

Lemma reachable_filled st : reachable st -> filled (sched_list st).
Proof using.
  induction 1 as [d|c st st' Hr IH Hp E|st st' Hr IH E]; [constructor| |].
  - destruct (do_call_ext c st (sound_cells _ (proj1 (reachable_inv st Hr)))) as (s & E' & He). rewrite E in E'.
    injection E' as <-. apply (ext_filled _ _ He), IH. apply (reachable_inv st Hr).
  - apply (step_filled st); [by apply reachable_inv|done|done].
Qed.

(** ** The end of a slot *)

Definition region_events (c : event_time_s) : list event_s := active c ++ inactive c ++ nbassign c ++ rwsync c.

Lemma delete_cell_log st st' c next : sched_list st = c :: next -> del_thr c = [] -> delete_cell st = Some st' ->
  sched_list st' = next /\
  if bool_decide (region_events c = []) then
    log st' = map (Dropped (At (schedule_time st))) (start c ++ rosync c) ++ log st
  else log st' = map (Dropped (At (schedule_time st))) (cell_events c) ++ SchedulerError :: log st.
Proof using.
  intros Hl Hd E. unfold delete_cell in E. rewrite Hl in E. injection E as <-. split; [done|].
  destruct c as [d s a i n w r t]. unfold region_events, cell_events in *. simpl in *. subst t.
  destruct a, i, n, w; simpl; rewrite ?app_nil_r; done.
Qed.

Lemma drain_cell q after st st' c next : sched_list st = c :: next -> cells_wf (sched_list st) ->
  (forall s, after s = None \/ exists s', after s = Some s') ->
  drain q after st = Some st' -> at_phase st' <> at_phase st -> queue_of q c = [] /\ after st = Some st'.
Proof using.
  intros Hl Hwf _ E Hp. unfold drain in E. rewrite Hl in E. destruct (queue_of q c) as [|cur rest]; [done|].
  exfalso. apply Hp. unfold run_event in E.
  set (st1 := logged (Ran (At (schedule_time st)) cur) (set_cells (set_queue q rest c :: next) st)) in *.
  destruct (run_run_ext cur st1) as [(s & E' & He)|[E' _]].
  - rewrite Hl in Hwf. destruct Hwf as [W1 W2]. split; [by rewrite delay_set_queue|done].
  - rewrite E in E'. injection E' as <-. exact (ext_phase _ _ He).
  - congruence.
Qed.
End Order.


(** C18. Simulation time changes only at the head of the main loop, and then it
    advances to the nearest time at which anything waits: by the [d] for which some
    queue has an event due at [d] from now and no queue has one before.  Without
    overflow of the 64-bit time it grows. *)
Theorem time_advance_correct `{VvpTypes} {D : Type} `{!Design D} (st st' : state D) :
  reachable st -> step st = Some st' ->
  schedule_time st' = schedule_time st \/
  (advances st /\ exists d, 0 < d /\ schedule_time st' = add64 (schedule_time st) d /\
     (exists q, pending q (sched_list st) d <> []) /\
     (forall q t, 0 <= t < d -> pending q (sched_list st) t = []) /\
     (schedule_time st + d < 2 ^ 64 -> schedule_time st < schedule_time st')).
Proof.
  intros Hr E. pose proof (reachable_inv st Hr) as Hi. pose proof (reachable_filled st Hr) as Hf.
  destruct (step_time st st' Hi E) as [|[Ha (c & next & Hl & Ht)]]; [by left|right].
  pose proof Hi as [[S1 _ _ _ S5 _] _]. split; [done|]. destruct Ha as (_ & _ & _ & c' & next' & Hl' & Hd).
  rewrite Hl in Hl'. injection Hl' as <- <-. exists (delay c). split; [done|]. split; [done|]. split; [|split].
  - rewrite Hl in *. apply List.Forall_cons_iff in Hf as [Hc _]. destruct (cell_has_event c (Hc Hd)) as [q Hq].
    exists q. simpl. by rewrite Z.eqb_refl.
  - intros q t Htd. rewrite Hl in *. by apply nothing_before.
  - intros Hov. rewrite Ht. unfold add64. unfold is_word in S5. rewrite u64_small by (unfold is_word; lia). lia.
Qed.

(** C30. A time slot is left with all its threads reaped, and what its cell still
    holds is dropped, never run: unless the scheduler error is reported, no region
    that may write holds an event then, so that only events of the start queue - it
    is emptied just when time moves to the slot, so one that is put there later is
    lost (see [start_of_present_time_is_dropped]) - and of the read-only queue can be
    dropped; with the error, which is reported exactly when a writing region does
    hold an event, all events of the cell are. *)
Theorem slot_end_correct `{VvpTypes} {D : Type} `{!Design D} (st st' : state D) :
  reachable st -> at_phase st = DelThr -> step st = Some st' -> at_phase st' = Main ->
  exists c, sched_list st = c :: sched_list st' /\ del_thr c = [] /\
    if bool_decide (region_events c = []) then
      log st' = map (Dropped (At (schedule_time st))) (start c ++ rosync c) ++ log st
    else log st' = map (Dropped (At (schedule_time st))) (cell_events c) ++ SchedulerError :: log st.
Proof.
  intros Hr Hp E Hp'. pose proof (reachable_inv st Hr) as [Hs _].
  destruct (sound_head _ Hs) as (c & next & Hl & H0); [by rewrite Hp|].
  unfold step in E. rewrite Hp in E.
  destruct (drain_cell DEL_THREAD delete_cell st st' c next Hl (sound_cells _ Hs)) as [Hd Ed]; [|done|by rewrite Hp, Hp'|].
  { intros s. destruct (delete_cell s); eauto. }
  destruct (delete_cell_log st st' c next Hl Hd Ed) as [H1 H2]. exists c. rewrite H1. done.
Qed.

(** ** On the design of ScheduleInv *)


Lemma time_advance_correct_witness :
  schedule_time (demo_after 14) = schedule_time (demo_after 13) \/
  (advances (demo_after 13) /\ exists d, 0 < d /\
     schedule_time (demo_after 14) = add64 (schedule_time (demo_after 13)) d /\
     (exists q, pending q (sched_list (demo_after 13)) d <> []) /\
     (forall q t, 0 <= t < d -> pending q (sched_list (demo_after 13)) t = []) /\
     (schedule_time (demo_after 13) + d < 2 ^ 64 -> schedule_time (demo_after 13) < schedule_time (demo_after 14))).
Proof.
  apply (@time_advance_correct nat_types unit demo (demo_after 13) (demo_after 14));
    [apply demo_reachable; vm_compute; reflexivity | vm_compute; reflexivity].
Defined.

Lemma slot_end_correct_witness :
  exists c, sched_list (demo_after 12) = c :: sched_list (demo_after 13) /\ del_thr c = [] /\
    if bool_decide (region_events c = []) then
      log (demo_after 13) = map (Dropped (At (schedule_time (demo_after 12)))) (start c ++ rosync c) ++ log (demo_after 12)
    else log (demo_after 13) =
      map (Dropped (At (schedule_time (demo_after 12)))) (cell_events c) ++ SchedulerError :: log (demo_after 12).
Proof.
  apply (@slot_end_correct nat_types unit demo (demo_after 12) (demo_after 13));
    [apply demo_reachable; vm_compute; reflexivity | vm_compute; reflexivity..].
Defined.

(** ** Surprises *)

(** An event for the start of the present time ([cbAtStartOfSimTime] of the
    present maps to delay 0) never runs: it is dropped with the time cell. *)
Lemma start_of_present_time_is_dropped :
  let boot := [@schedule_at_start_of_simtime nat_types 9%nat 0] in
  let D1 := scripted boot (fun _ => []) (fun _ => []) in
  exists st, @steps nat_types unit D1 20 (initial tt) = Some st /\ at_phase st = Done /\
    @rans nat_types (log st) = [] /\ @drops nat_types (log st) = [(At 0, @generic_event_s nat_types 9%nat false)].
Proof. cbv zeta. eexists. split; [vm_compute; reflexivity|]. by vm_compute. Qed.

(** After [schedule_finish] the events of the present time still run. *)
Lemma finish_completes_the_slot :
  let boot := [@schedule_vthread nat_types 1%nat 0 false; @schedule_vthread nat_types 2%nat 0 false;
               @schedule_vthread nat_types 3%nat 1 false] in
  let prog thr := match thr with 1%nat => [@schedule_finish nat_types] | _ => [] end in
  let D1 := scripted boot prog (fun _ => []) in
  exists st, @steps nat_types unit D1 20 (initial tt) = Some st /\ at_phase st = Done /\
    @rans nat_types (log st) = [(At 0, thread_ev 2); (At 0, thread_ev 1)].
Proof. cbv zeta. eexists. split; [vm_compute; reflexivity|]. by vm_compute. Qed.

(** A force event whose value overhangs its target clips the mask and then
    fails the assertion of [set_vec]. *)
Lemma force_overhang_fails :
  force_value (Some (vec4_fill 4 Bit4.BIT4_0)) (vec4_fill 4 Bit4.BIT4_1) 2 4 = None.
Proof. vm_compute. reflexivity. Qed.
