(* ===== verification/ScheduleRun.v ===== *)
(** * ScheduleRun: the run of a design whose events schedule nothing

    When the events that wait put no further ones, the loop ends, and it has run
    all of them: by time, within a time by region, within a region in the order
    they were put, and the final events last. *)

From S2P Require Import Prelude FourState Vector4 Schedule ScheduleQueue ScheduleInv ScheduleOrder.

Section Run.
Context `{VvpTypes} {D : Type} `{!Design D}.
Implicit Types st : state D.

(** [st'] is reached from [st]. *)
Definition runs st st' : Prop := exists n, steps n st = Some st'.

Lemma steps_app m n st : steps (m + n) st = s ← steps m st; steps n s.
Proof using. revert st. induction m as [|m IH]; intros st; simpl; [done|]. destruct (step st); simpl; [apply IH|done]. Qed.

#[export] Instance runs_preorder : PreOrder runs.
Proof using.
  split; [intros st; by exists 0%nat|]. intros st1 st2 st3 [m Hm] [n Hn]. exists (m + n)%nat.
  rewrite steps_app, Hm. exact Hn.
Qed.

Lemma runs_step st st' : step st = Some st' -> runs st st'.
Proof using. intros E. exists 1%nat. simpl. by rewrite E. Qed.

(** Events and callbacks that put nothing and change just the design. *)
Definition quiet_event (cur : event_s) : Prop :=
  forall w st, exists d, run_event w cur st = Some (set_design d (logged (Ran w cur) st)).
Definition quiet_callback (f : view -> D -> D * list call) : Prop := forall v d, snd (f v d) = [].

Lemma quiet_callback_spec f st : quiet_callback f -> exists d, callback f st = Some (set_design d st).
Proof using.
  intros Hf. unfold callback. specialize (Hf (view_of st) (the_design st)).
  destruct (f _ _) as [d calls]. simpl in Hf. rewrite Hf. by exists d.
Qed.

(** The events of a cell in the order they run; those of its start queue only
    when time advances to it. *)
Definition cell_plan (c : event_time_s) : list event_s :=
  (if 0 <? delay c then start c else []) ++ region_events c ++ rosync c ++ del_thr c.

(** The order in which the events of all cells run, with their times. *)
Fixpoint plan (now : Z) (l : list event_time_s) : list (place * event_s) :=
  match l with
  | [] => []
  | c :: next => map (pair (At (add64 now (delay c)))) (cell_plan c) ++ plan (add64 now (delay c)) next
  end.

Section Quiet.
Context (fin : list event_s).

(** A state of the undisturbed run: in phase [p], with [cells], at time [now],
    having run [lg] (latest first). *)
Record calm (p : phase) (cells : list event_time_s) (now : Z) (lg : list (place * event_s)) st : Prop := {
  calm_phase : at_phase st = p;
  calm_cells : sched_list st = cells;
  calm_time : schedule_time st = now;
  calm_log : rans (log st) = lg;
  calm_fin : schedule_final_list st = fin;
  calm_flags : schedule_runnable st = true /\ schedule_stopped_flag st = false /\
               schedule_single_step_flag st = false /\ run_finals st = true }.

Lemma calm_ran p cells now lg st w cur d l : calm p cells now lg st ->
  calm p l now ((w, cur) :: lg) (set_design d (logged (Ran w cur) (set_cells l st))).
Proof using. intros [H1 H2 H3 H4 H5 H6]. constructor; try done. simpl. by rewrite <- H4. Qed.

Lemma calm_go p p' cells now lg st : calm p cells now lg st -> calm p' cells now lg (go p' st).
Proof using. intros [H1 H2 H3 H4 H5 H6]. by constructor. Qed.

Lemma calm_cells_to p cells l now lg st : calm p cells now lg st -> calm p l now lg (set_cells l st).
Proof using. intros [H1 H2 H3 H4 H5 H6]. by constructor. Qed.

Lemma set_queue_twice q l1 l2 c : set_queue q l2 (set_queue q l1 c) = set_queue q l2 c.
Proof using. by destruct c, q. Qed.
Lemma set_queue_same q c : set_queue q (queue_of q c) c = c.
Proof using. by destruct c, q. Qed.

(** A drain loop runs its whole queue. *)
Lemma drain_runs q p after es : forall c next now lg st,
  (forall st, at_phase st = p -> step st = drain q after st) ->
  calm p (c :: next) now lg st -> queue_of q c = es -> Forall quiet_event es ->
  exists st', runs st st' /\ calm p (set_queue q [] c :: next) now (rev (map (pair (At now)) es) ++ lg) st'.
Proof using.
  intros c next now lg st Hstep. revert c lg st. induction es as [|cur es IH]; intros c lg st Hc Hq Hqu.
  - exists st. split; [done|]. simpl. rewrite <- Hq, set_queue_same. exact Hc.
  - apply List.Forall_cons_iff in Hqu as [Hq1 Hq2].
    destruct (Hq1 (At now) (set_cells (set_queue q es c :: next) st)) as [d Hd].
    assert (Hs : step st = Some (set_design d (logged (Ran (At now) cur) (set_cells (set_queue q es c :: next) st)))).
    { rewrite Hstep by apply Hc. unfold drain. rewrite (calm_cells _ _ _ _ _ Hc), Hq, (calm_time _ _ _ _ _ Hc). exact Hd. }
    destruct (IH (set_queue q es c) ((At now, cur) :: lg) _ (calm_ran _ _ _ _ _ _ _ d _ Hc)) as (st' & Hr & Hc');
      [by rewrite queue_of_set, decide_True|done|].
    exists st'. split; [etransitivity; [by apply runs_step|exact Hr]|].
    rewrite set_queue_twice in Hc'. simpl. by rewrite <- app_assoc.
Qed.

Lemma promote_regions c : region_events (promote c) = region_events c.
Proof using. destruct c as [d st [|a ac] [|i ia] [|n nb] rw ro dt]; unfold region_events; simpl; rewrite ?app_nil_r; done. Qed.

Lemma promote_empty c : active (promote c) = [] -> region_events c = [].
Proof using. destruct c as [d st [|a ac] [|i ia] [|n nb] [|w rw] ro dt]; simpl; done. Qed.

Lemma promote_rest c : start (promote c) = start c /\ rosync (promote c) = rosync c /\ del_thr (promote c) = del_thr c.
Proof using. by destruct c as [d st [|a ac] [|i ia] [|n nb] [|w rw] ro dt]. Qed.

(** The main loop runs the regions of the present cell one after the other. *)
Lemma regions_run es : forall c next now lg st,
  calm Queues (c :: next) now lg st -> delay c = 0 -> region_events c = es -> Forall quiet_event es ->
  exists c' st', runs st st' /\ calm Rosync (c' :: next) now (rev (map (pair (At now)) es) ++ lg) st' /\
    delay c' = 0 /\ rosync c' = rosync c /\ del_thr c' = del_thr c.
Proof using.
  induction es as [|cur es IH]; intros c next now lg st Hc H0 Hes Hqu;
    pose proof (promote_rest c) as (R1 & R2 & R3); pose proof (promote_delay c) as R4.
  - exists (promote c). eexists. split; [apply runs_step|].
    + unfold step. rewrite (calm_phase _ _ _ _ _ Hc). unfold queues_step. rewrite (calm_cells _ _ _ _ _ Hc).
      rewrite <- promote_regions in Hes. apply app_nil in Hes as [-> _]. reflexivity.
    + split; [|by rewrite R4]. destruct Hc as [C1 C2 C3 C4 C5 C6]. by constructor.
  - apply List.Forall_cons_iff in Hqu as [Hq1 Hq2].
    destruct (active (promote c)) as [|cur' rest] eqn:Ha; [by rewrite (promote_empty c Ha) in Hes|].
    assert (E : cur' = cur /\ region_events (set_queue SEQ_ACTIVE rest (promote c)) = es).
    { rewrite <- promote_regions in Hes. unfold region_events in *. rewrite Ha in Hes. injection Hes as -> <-.
      split; [done|]. by destruct (promote c). }
    destruct E as [-> Hes']. set (c1 := set_queue SEQ_ACTIVE rest (promote c)) in *.
    destruct (Hq1 (At now) (set_cells (c1 :: next) st)) as [d Hd].
    pose proof (calm_ran _ _ _ _ _ (At now) cur d (c1 :: next) Hc) as Hc1.
    assert (Hs1 : step st = Some (go Main (set_design d (logged (Ran (At now) cur) (set_cells (c1 :: next) st))))).
    { destruct Hc as [C1 C2 C3 C4 C5 (C6 & C7 & C8 & C9)]. unfold step. rewrite C1. unfold queues_step. rewrite C2, Ha.
      cbn [schedule_single_step_flag set_cells]. rewrite C8. cbn [schedule_time set_cells]. rewrite C3.
      fold c1. by rewrite Hd. }
    apply (calm_go _ Main) in Hc1. set (st1 := go Main _) in *.
    assert (Hs2 : step st1 = Some (go Queues st1)).
    { destruct Hc1 as [C1 C2 C3 C4 C5 (C6 & C7 & C8 & C9)]. unfold step. rewrite C1. unfold main_step. rewrite C2, C7.
      unfold c1. by rewrite delay_set_queue, promote_delay, H0. }
    apply (calm_go _ Queues) in Hc1.
    destruct (IH c1 next now _ _ Hc1) as (c' & st' & Hr & Hc' & D1 & D2 & D3);
      [unfold c1; by rewrite delay_set_queue, promote_delay|done|done|].
    exists c', st'. split.
    { etransitivity; [by apply runs_step|]. etransitivity; [by apply runs_step|]. exact Hr. }
    split; [simpl; by rewrite <- app_assoc|]. split; [done|]. rewrite D2, D3. unfold c1.
    split; [by rewrite <- R2; destruct (promote c)|by rewrite <- R3; destruct (promote c)].
Qed.

(** The end of a slot: read-only events, reaped threads, the next cell. *)
Lemma slot_end_runs c next now lg st :
  calm Rosync (c :: next) now lg st -> Forall quiet_event (rosync c ++ del_thr c) ->
  exists st', runs st st' /\ calm Main next now (rev (map (pair (At now)) (rosync c ++ del_thr c)) ++ lg) st'.
Proof using.
  intros Hc [Hq1 Hq2]%Forall_app.
  destruct (drain_runs SEQ_ROSYNC Rosync _ (rosync c) c next now lg st ltac:(intros s E; unfold step; by rewrite E) Hc eq_refl Hq1)
    as (st1 & Hr1 & Hc1).
  assert (Hs : step st1 = Some (go DelThr (set_at_rosync false st1))).
  { unfold step. rewrite (calm_phase _ _ _ _ _ Hc1). unfold drain. by rewrite (calm_cells _ _ _ _ _ Hc1), queue_of_set. }
  assert (Hc2 : calm DelThr (set_queue SEQ_ROSYNC [] c :: next) now (rev (map (pair (At now)) (rosync c)) ++ lg)
    (go DelThr (set_at_rosync false st1))) by (destruct Hc1; by constructor).
  destruct (drain_runs DEL_THREAD DelThr _ (del_thr c) _ next now _ _ ltac:(intros s E; unfold step; by rewrite E) Hc2
    ltac:(by rewrite queue_of_set) Hq2) as (st2 & Hr2 & Hc3).
  assert (Hd : exists st3, step st2 = Some st3 /\
    calm Main next now (rev (map (pair (At now)) (del_thr c)) ++ rev (map (pair (At now)) (rosync c)) ++ lg) st3).
  { destruct Hc3 as [C1 C2 C3 C4 C5 C6]. unfold step. rewrite C1. unfold drain. rewrite C2, queue_of_set, decide_True by done.
    unfold delete_cell. rewrite C2. eexists. split; [done|].
    set (st3 := match active _, _, _, _ with [], [], [], [] => st2 | _, _, _, _ => logged SchedulerError st2 end).
    assert (E : st3 = st2 \/ st3 = logged SchedulerError st2) by (unfold st3; repeat case_match; auto).
    constructor; simpl; try (by destruct E as [-> | ->]).
    rewrite rans_app. assert (E0 : forall l, rans (map (Dropped (At (schedule_time st3))) l) = [])
      by (induction l; [done|assumption]).
    rewrite E0. rewrite <- C4. by destruct E as [-> | ->]. }
  destruct Hd as (st3 & Hs3 & Hc4). exists st3. split.
  - etransitivity; [exact Hr1|]. etransitivity; [by apply runs_step|]. etransitivity; [exact Hr2|by apply runs_step].
  - rewrite map_app, rev_app_distr, <- app_assoc. exact Hc4.
Qed.

(** One cell, from the head of the main loop to the next time. *)
Lemma slot_runs c next now lg st :
  quiet_callback vpiNextSimTime -> is_word (delay c) -> is_word now ->
  calm Main (c :: next) now lg st -> Forall quiet_event (cell_events c) ->
  exists st', runs st st' /\
    calm Main next (add64 now (delay c)) (rev (map (pair (At (add64 now (delay c)))) (cell_plan c)) ++ lg) st'.
Proof using.
  intros Hv Hd Hnow Hc Hqu. unfold cell_events in Hqu. apply Forall_app in Hqu as [Hq1 Hqu].
  assert (Hqr : Forall quiet_event (region_events c) /\ Forall quiet_event (rosync c ++ del_thr c)).
  { unfold region_events. repeat rewrite Forall_app in *. tauto. }
  assert (Hq : exists c1 st1, runs st st1 /\ delay c1 = 0 /\ region_events c1 = region_events c /\
    rosync c1 = rosync c /\ del_thr c1 = del_thr c /\ calm Queues (c1 :: next) (add64 now (delay c))
      (rev (map (pair (At (add64 now (delay c)))) (if 0 <? delay c then start c else [])) ++ lg) st1).
  { pose proof Hc as [C1 C2 C3 C4 C5 (C6 & C7 & C8 & C9)].
    assert (Hs : step st = main_step st) by (unfold step; by rewrite C1).
    unfold main_step in Hs. rewrite C2, C7, C6 in Hs. destruct (Z.ltb_spec 0 (delay c)) as [Hlt|Hge]; cbn [negb] in Hs.
    - set (st1 := set_cells (set_delay c 0 :: next) (set_time (add64 (schedule_time st) (delay c)) st)) in Hs.
      destruct (quiet_callback_spec vpiNextSimTime st1 Hv) as [d Ed]. rewrite Ed in Hs. simpl in Hs.
      assert (Hc1 : calm StartOfTime (set_delay c 0 :: next) (add64 now (delay c)) lg (go StartOfTime (set_design d st1))).
      { unfold st1. constructor; try done. simpl. by rewrite C3. }
      destruct (drain_runs SEQ_START StartOfTime _ (start c) _ next _ lg _ ltac:(intros s E; unfold step; by rewrite E) Hc1
        eq_refl Hq1) as (st2 & Hr2 & Hc2).
      exists (set_queue SEQ_START [] (set_delay c 0)), (go Queues st2).
      split; [|split; [done|split; [done|split; [done|split; [done|by eapply calm_go]]]]].
      etransitivity; [by apply runs_step|]. etransitivity; [exact Hr2|]. apply runs_step. unfold step.
      rewrite (calm_phase _ _ _ _ _ Hc2). unfold drain. by rewrite (calm_cells _ _ _ _ _ Hc2).
    - assert (E0 : delay c = 0) by (unfold is_word in Hd; lia).
      exists c, (go Queues st). split; [by apply runs_step|]. do 4 (split; [done|]). rewrite E0.
      unfold add64. rewrite Z.add_0_r, u64_small by done. by eapply calm_go. }
  destruct Hq as (c1 & st1 & Hr1 & E1 & E2 & E3 & E4 & Hc1). destruct Hqr as [Hqr1 Hqr2].
  destruct (regions_run (region_events c) c1 next _ _ st1 Hc1 E1 E2 Hqr1) as (c2 & st2 & Hr2 & Hc2 & F1 & F2 & F3).
  destruct (slot_end_runs c2 next _ _ st2 Hc2) as (st3 & Hr3 & Hc3); [by rewrite F2, F3, E3, E4|].
  exists st3. split; [etransitivity; [exact Hr1|]; etransitivity; [exact Hr2|exact Hr3]|].
  rewrite F2, F3, E3, E4 in Hc3. unfold cell_plan. rewrite !map_app, !rev_app_distr, <- !app_assoc in *. exact Hc3.
Qed.

Lemma cells_run l : forall now lg st,
  quiet_callback vpiNextSimTime -> Forall (fun c => is_word (delay c)) l -> is_word now ->
  calm Main l now lg st -> Forall (fun c => Forall quiet_event (cell_events c)) l ->
  exists st' now', runs st st' /\ calm Main [] now' (rev (plan now l) ++ lg) st'.
Proof using.
  induction l as [|c next IH]; intros now lg st Hv Hd Hnow Hc Hqu; [by exists st, now|].
  apply List.Forall_cons_iff in Hd as [Hd1 Hd2]. apply List.Forall_cons_iff in Hqu as [Hq1 Hq2].
  destruct (slot_runs c next now lg st Hv Hd1 Hnow Hc Hq1) as (st1 & Hr1 & Hc1).
  destruct (IH _ _ st1 Hv Hd2 (is_word_add64 _ _) Hc1 Hq2) as (st2 & now' & Hr2 & Hc2).
  exists st2, now'. split; [etransitivity; [exact Hr1|exact Hr2]|]. cbn [plan]. by rewrite rev_app_distr, <- app_assoc.
Qed.
End Quiet.

(** The final events. *)
Lemma finals_run fin : forall now lg st,
  quiet_callback vpiPostsim -> calm fin Finals [] now lg st -> Forall quiet_event fin ->
  exists st', runs st st' /\ at_phase st' = Done /\ rans (log st') = rev (map (pair InFinals) fin) ++ lg.
Proof using.
  induction fin as [|cur fin IH]; intros now lg st Hv Hc Hqu; pose proof Hc as [C1 C2 C3 C4 C5 (C6 & C7 & C8 & C9)].
  - destruct (quiet_callback_spec vpiPostsim st Hv) as [d Ed].
    exists (go Done (set_design d st)). split; [|done]. apply runs_step. unfold step. by rewrite C1, C6, C5, Ed.
  - apply List.Forall_cons_iff in Hqu as [Hq1 Hq2].
    destruct (Hq1 InFinals (set_finals fin st)) as [d Hd].
    assert (Hs : step st = Some (set_design d (logged (Ran InFinals cur) (set_finals fin st))))
      by (unfold step; by rewrite C1, C6, C5, Hd).
    destruct (IH now ((InFinals, cur) :: lg) (set_design d (logged (Ran InFinals cur) (set_finals fin st))))
      as (st' & Hr & Hp & Hl); [done| |done|].
    { constructor; try done. simpl. by rewrite <- C4. }
    exists st'. split; [etransitivity; [by apply runs_step|exact Hr]|]. split; [done|].
    simpl. by rewrite <- app_assoc.
Qed.
End Run.

(** C20. A run whose remaining events schedule nothing ends: from the head of the
    main loop the machine reaches the end of [schedule_simulate] in finitely many
    steps, having run every event that waits - times in ascending order, in each
    time the start events (when time advances to it), active, inactive,
    non-blocking, read-write and read-only events and the threads to reap, each
    queue first in first out, and the final events last. *)
Theorem quiet_run_correct `{VvpTypes} {D : Type} `{!Design D} (st : state D) :
  reachable st -> at_phase st = Main ->
  schedule_runnable st = true -> schedule_stopped_flag st = false ->
  schedule_single_step_flag st = false -> run_finals st = true ->
  quiet_callback vpiNextSimTime -> quiet_callback vpiPostsim ->
  Forall (fun c => Forall quiet_event (cell_events c)) (sched_list st) ->
  Forall quiet_event (schedule_final_list st) ->
  exists n st', steps n st = Some st' /\ at_phase st' = Done /\
    rans (log st') = rev (plan (schedule_time st) (sched_list st) ++ map (pair InFinals) (schedule_final_list st)) ++
                     rans (log st).
Proof.
  intros Hr Hp F1 F2 F3 F4 Hv1 Hv2 Hq1 Hq2. pose proof (reachable_inv st Hr) as [[S1 _ _ _ S5 _] _].
  assert (Hd : Forall (fun c => is_word (delay c)) (sched_list st)).
  { destruct (sched_list st) as [|c next]; [constructor|]. destruct S1 as [W1 W2]. constructor; [done|].
    eapply List.Forall_impl; [|exact W2]. unfold later, is_word. lia. }
  destruct (cells_run (schedule_final_list st) (sched_list st) (schedule_time st) (rans (log st)) st)
    as (st1 & now1 & Hr1 & Hc1); [done..|by constructor|done|].
  assert (Hs : step st1 = Some (end_main st1)).
  { unfold step. rewrite (calm_phase _ _ _ _ _ _ Hc1). unfold main_step. by rewrite (calm_cells _ _ _ _ _ _ Hc1). }
  destruct (finals_run (schedule_final_list st) now1 (rev (plan (schedule_time st) (sched_list st)) ++ rans (log st))
    (end_main st1)) as (st2 & Hr2 & Hp2 & Hl2); [done| |done|].
  { destruct Hc1 as [C1 C2 C3 C4 C5 (C6 & C7 & C8 & C9)]. by constructor. }
  destruct (transitivity Hr1 (transitivity (runs_step _ _ Hs) Hr2)) as [n Hn].
  exists n, st2. split; [done|]. split; [done|]. by rewrite Hl2, rev_app_distr, app_assoc.
Qed.

(** What waits in the example after 16 steps. *)
Lemma demo_waiting :
  sched_list (demo_after 16) =
    [@Cell nat_types 0 [] [] [] [] [] [@generic_event_s nat_types 9%nat false] []] /\
  schedule_final_list (demo_after 16) = [thread_ev 4].
Proof. split; vm_compute; reflexivity. Qed.

Lemma demo_quiet cur : cur = @generic_event_s nat_types 9%nat false \/ cur = thread_ev 4 ->
  @quiet_event nat_types unit demo cur.
Proof.
  intros H w st. exists (the_design st). destruct H as [-> | ->]; reflexivity.
Qed.

Lemma quiet_run_correct_witness :
  exists n st', @steps nat_types unit demo n (demo_after 16) = Some st' /\ at_phase st' = Done /\
    @rans nat_types (log st') =
      rev (plan (schedule_time (demo_after 16)) (sched_list (demo_after 16)) ++
           map (pair InFinals) (schedule_final_list (demo_after 16))) ++ rans (log (demo_after 16)).
Proof.
  apply (@quiet_run_correct nat_types unit demo (demo_after 16));
    [apply demo_reachable; vm_compute; reflexivity | vm_compute; reflexivity.. | done | done | |].
  - rewrite (proj1 demo_waiting). constructor; [|constructor]. constructor; [|constructor]. apply demo_quiet. by left.
  - rewrite (proj2 demo_waiting). constructor; [|constructor]. apply demo_quiet. by right.
Defined.
