(* ===== verification/Thread.v ===== *)
(** * Thread: the threads of the virtual machine (vvp/vthread.cc, vvp/codes.h)

    A thread has a program counter, one-bit flags, 64-bit word registers and a
    stack of vectors; the top of the stack is the head of the list.  An opcode is a
    function from the thread and its instruction to the thread and whether it goes
    on; [None] is a failed assertion or an access out of bounds.  The stacks of
    reals, strings and objects are not modelled. *)

From S2P Require Import Prelude FourState Vector4 Vector4Ops.
Import Bit4.

Open Scope ivl_scope.

(** The operands of an instruction: [number], [bit_idx], [cptr] and [net]. *)
Record vvp_code_s (opcode_t : Type) : Type := Code {
  opcode : opcode_t;
  number : Z;
  bit_idx0 : Z;
  bit_idx1 : Z;
  cptr : nat;
  net : nat;
}.
Arguments Code {_}. Arguments opcode {_}. Arguments number {_}. Arguments bit_idx0 {_}. Arguments bit_idx1 {_}.
Arguments cptr {_}. Arguments net {_}.

Definition FLAGS_COUNT : nat := 512.
Definition WORDS_COUNT : nat := 16.

(** [requeued] counts the calls [schedule_vthread(thr, 0, false)] of a thread for
    itself, and is not in the code. *)
Record vthread_s : Type := Thr {
  pc : nat;
  flags : list vvp_bit4_t;
  words : list Z;
  stack_vec4_ : list vvp_vector4_t;
  requeued : nat;
}.

(** What the instructions read outside of the thread: [schedule_stopped()], and
    [vec4_value] of the signal at a net ([None] when it is not a signal). *)
Class World := {
  schedule_stopped : bool;
  sig_vec4_value : nat -> option vvp_vector4_t;
}.

(** ** The state *)

Definition with_pc (thr : vthread_s) (p : nat) : vthread_s :=
  Thr p (flags thr) (words thr) (stack_vec4_ thr) (requeued thr).
Definition with_stack (thr : vthread_s) (s : list vvp_vector4_t) : vthread_s :=
  Thr (pc thr) (flags thr) (words thr) s (requeued thr).
Definition with_flags (thr : vthread_s) (f : list vvp_bit4_t) : vthread_s :=
  Thr (pc thr) f (words thr) (stack_vec4_ thr) (requeued thr).
Definition with_words (thr : vthread_s) (w : list Z) : vthread_s :=
  Thr (pc thr) (flags thr) w (stack_vec4_ thr) (requeued thr).

Definition push_vec4 (thr : vthread_s) (val : vvp_vector4_t) : vthread_s := with_stack thr (val :: stack_vec4_ thr).

Definition pop_vec4 (thr : vthread_s) : option (vvp_vector4_t * vthread_s) :=
  match stack_vec4_ thr with val :: s => Some (val, with_stack thr s) | [] => None end.

Definition peek_vec4 (thr : vthread_s) (depth : nat) : option vvp_vector4_t := stack_vec4_ thr !! depth.

(** Assignment through the reference [peek_vec4()]. *)
Definition poke_top (thr : vthread_s) (val : vvp_vector4_t) : option vthread_s :=
  match stack_vec4_ thr with _ :: s => Some (with_stack thr (val :: s)) | [] => None end.

Definition poke_vec4 (thr : vthread_s) (depth : nat) (val : vvp_vector4_t) : option vthread_s :=
  if (depth <? length (stack_vec4_ thr))%nat then Some (with_stack thr (<[depth := val]> (stack_vec4_ thr))) else None.

Definition pop_vec4_cnt (thr : vthread_s) (cnt : nat) : option vthread_s :=
  if (cnt <=? length (stack_vec4_ thr))%nat then Some (with_stack thr (drop cnt (stack_vec4_ thr))) else None.

Definition get_flag (thr : vthread_s) (i : Z) : option vvp_bit4_t := flags thr !! Z.to_nat i.
Definition set_flag (thr : vthread_s) (i : Z) (b : vvp_bit4_t) : option vthread_s :=
  if (Z.to_nat i <? length (flags thr))%nat then Some (with_flags thr (<[Z.to_nat i := b]> (flags thr))) else None.

(** The words hold the bits of [w_int] and [w_uint]. *)
Definition get_word (thr : vthread_s) (i : Z) : option Z := words thr !! Z.to_nat i.
Definition set_word (thr : vthread_s) (i : Z) (w : Z) : option vthread_s :=
  if (Z.to_nat i <? length (words thr))%nat then Some (with_words thr (<[Z.to_nat i := w]> (words thr))) else None.

(** [return true] *)
Definition go_on (thr : vthread_s) : option (vthread_s * bool) := Some (thr, true).

Section Opcodes.
Context {O : Type}.
Abbreviation vvp_code_t := (vvp_code_s O).
Implicit Types (thr : vthread_s) (cp : vvp_code_t).

(** ** Immediate operands *)

(** The bit-serial case of [get_immediate_rval]; [n] counts the bits left. *)
Fixpoint immediate_loop (n idx : nat) (vala valb : Z) (val : vvp_vector4_t) : vvp_vector4_t :=
  match n with
  | Datatypes.O => val
  | Datatypes.S n =>
    if (vala .| valb) =? 0 then val
    else
      let ba := (((valb .& 1) << 1) .| (vala .& 1)) in
      immediate_loop n (Datatypes.S idx) (Z.shiftr vala 1) (Z.shiftr valb 1)
        (if negb (ba =? 0) then set_bit val idx (int_to_bit4 ba) else val)
  end.

Definition get_immediate_rval cp (val : vvp_vector4_t) : option vvp_vector4_t :=
  let vala := bit_idx0 cp in
  let valb := bit_idx1 cp in
  let wid := Z.to_nat (number cp) in
  if valb =? 0 then
    if vala =? 0 then Some val
    else setarray val 0 (if (wid <? 64)%nat then wid else 64%nat) [vala]
  else Some (immediate_loop wid 0 vala valb val).

(** [vvp_vector4_t r (wid, BIT4_0); get_immediate_rval (cp, r);] *)
Definition immediate cp : option vvp_vector4_t := get_immediate_rval cp (vec4_fill (Z.to_nat (number cp)) BIT4_0).

Definition of_PUSHI_VEC4 thr cp := val ← immediate cp; go_on (push_vec4 thr val).

(** ** Arithmetic and logic in place of the top of the stack *)

Definition of_ADD thr (_ : vvp_code_t) :=
  '(r, thr) ← pop_vec4 thr; l ← peek_vec4 thr 0; l ← vec4_add l r; thr ← poke_top thr l; go_on thr.
Definition of_ADDI thr cp :=
  l ← peek_vec4 thr 0; r ← immediate cp; l ← vec4_add l r; thr ← poke_top thr l; go_on thr.
Definition of_SUB thr (_ : vvp_code_t) :=
  '(r, thr) ← pop_vec4 thr; l ← peek_vec4 thr 0; l ← vec4_sub l r; thr ← poke_top thr l; go_on thr.
Definition of_SUBI thr cp :=
  l ← peek_vec4 thr 0; r ← immediate cp; l ← vec4_sub l r; thr ← poke_top thr l; go_on thr.
Definition of_MUL thr (_ : vvp_code_t) :=
  '(r, thr) ← pop_vec4 thr; l ← peek_vec4 thr 0; l ← vec4_mul l r; thr ← poke_top thr l; go_on thr.
Definition of_MULI thr cp :=
  l ← peek_vec4 thr 0; r ← immediate cp; l ← vec4_mul l r; thr ← poke_top thr l; go_on thr.

(** The common part of the bitwise opcodes: [assert(vall.size() == valr.size())]. *)
Definition bitwise_code (f : vvp_vector4_t -> vvp_vector4_t -> vvp_vector4_t) thr :=
  '(valr, thr) ← pop_vec4 thr; vall ← peek_vec4 thr 0;
  if (size vall =? size valr)%nat then thr ← poke_top thr (f vall valr); go_on thr else None.

Definition of_AND thr (_ : vvp_code_t) := bitwise_code vec4_and thr.
Definition of_NAND thr (_ : vvp_code_t) := bitwise_code (fun l r => invert (vec4_and l r)) thr.
(** [%or] has no assertion. *)
Definition of_OR thr (_ : vvp_code_t) :=
  '(valb, thr) ← pop_vec4 thr; vala ← peek_vec4 thr 0; thr ← poke_top thr (vec4_or vala valb); go_on thr.
Definition of_NOR thr (_ : vvp_code_t) := bitwise_code (fun l r => invert (vec4_or l r)) thr.
Definition of_XOR thr (_ : vvp_code_t) := bitwise_code vec4_xor thr.
Definition of_XNOR thr (_ : vvp_code_t) := bitwise_code (fun l r => invert (vec4_xor l r)) thr.

Definition of_INV thr (_ : vvp_code_t) := val ← peek_vec4 thr 0; thr ← poke_top thr (invert val); go_on thr.

Definition reduce_code (f : vvp_vector4_t -> vvp_bit4_t) thr :=
  val ← peek_vec4 thr 0; thr ← poke_top thr (vec4_fill 1 (f val)); go_on thr.
Definition of_ANDR thr (_ : vvp_code_t) := reduce_code reduce_and thr.
Definition of_NANDR thr (_ : vvp_code_t) := reduce_code (fun v => bit4_not (reduce_and v)) thr.
Definition of_ORR thr (_ : vvp_code_t) := reduce_code reduce_or thr.
Definition of_NORR thr (_ : vvp_code_t) := reduce_code (fun v => bit4_not (reduce_or v)) thr.
Definition of_XORR thr (_ : vvp_code_t) := reduce_code reduce_xor thr.
Definition of_XNORR thr (_ : vvp_code_t) := reduce_code (fun v => bit4_not (reduce_xor v)) thr.

Definition of_BLEND thr (_ : vvp_code_t) :=
  '(vala, thr) ← pop_vec4 thr; '(valb, thr) ← pop_vec4 thr;
  if (size vala =? size valb)%nat then
    go_on (push_vec4 thr (for_loop (size vala) 0 (fun idx vala =>
      if decide (value vala idx = value valb idx) then vala else set_bit vala idx BIT4_X) vala))
  else None.

Definition of_CAST2 thr (_ : vvp_code_t) :=
  val ← peek_vec4 thr 0;
  thr ← poke_top thr (for_loop (size val) 0 (fun idx val =>
    match value val idx with BIT4_0 | BIT4_1 => val | _ => set_bit val idx BIT4_0 end) val);
  go_on thr.

(** ** Comparison *)

(** [if (eq==BIT4_1 && ...) eq = BIT4_X; if (lv==0 && rv==1) eq = 0; ...] *)
Definition eq_update (unk : bool) (eq lv rv : vvp_bit4_t) : vvp_bit4_t :=
  let eq := if bool_decide (eq = BIT4_1) && unk then BIT4_X else eq in
  let eq := if bool_decide (lv = BIT4_0) && bool_decide (rv = BIT4_1) then BIT4_0 else eq in
  if bool_decide (lv = BIT4_1) && bool_decide (rv = BIT4_0) then BIT4_0 else eq.

(** The loop shared by [do_CMPE] and [of_CMPU_the_hard_way]: [eq] and [eeq]. *)
Fixpoint cmpe_loop (n idx : nat) (lval rval : vvp_vector4_t) (eq eeq : vvp_bit4_t) : vvp_bit4_t * vvp_bit4_t :=
  match n with
  | Datatypes.O => (eq, eeq)
  | Datatypes.S n =>
    let lv := value lval idx in
    let rv := value rval idx in
    let eeq := if decide (lv = rv) then eeq else BIT4_0 in
    let eq := eq_update (bit4_is_xz lv || bit4_is_xz rv) eq lv rv in
    if decide (eq = BIT4_0) then (eq, eeq) else cmpe_loop n (Datatypes.S idx) lval rval eq eeq
  end.

Definition do_CMPE thr (lval rval : vvp_vector4_t) : option vthread_s :=
  if (size rval =? size lval)%nat then
    if has_xz lval || has_xz rval then
      let '(eq, eeq) := cmpe_loop (size lval) 0 lval rval BIT4_1 BIT4_1 in
      thr ← set_flag thr 4 eq; set_flag thr 6 eeq
    else
      let e := if Vector4Ops.eeq lval rval then BIT4_1 else BIT4_0 in
      thr ← set_flag thr 6 e; set_flag thr 4 e
  else None.

(** The operands of a comparison, popped afterwards. *)
Definition compare_code (f : vthread_s -> vvp_vector4_t -> vvp_vector4_t -> option vthread_s) thr :=
  rval ← peek_vec4 thr 0; lval ← peek_vec4 thr 1; thr ← f thr lval rval; thr ← pop_vec4_cnt thr 2; go_on thr.
Definition comparei_code (f : vthread_s -> vvp_vector4_t -> vvp_vector4_t -> option vthread_s) thr cp :=
  lval ← peek_vec4 thr 0; rval ← immediate cp; thr ← f thr lval rval; thr ← pop_vec4_cnt thr 1; go_on thr.

Definition invert_flag thr (i : Z) : option vthread_s := b ← get_flag thr i; set_flag thr i (bit4_not b).

(** [do_CMPE] followed by the inversion of both flags. *)
Definition do_CMPNE thr (lval rval : vvp_vector4_t) : option vthread_s :=
  thr ← do_CMPE thr lval rval; thr ← invert_flag thr 4; invert_flag thr 6.

Definition of_CMPE thr (_ : vvp_code_t) := compare_code do_CMPE thr.
Definition of_CMPNE thr (_ : vvp_code_t) := compare_code do_CMPNE thr.
Definition of_CMPIE thr cp := comparei_code do_CMPE thr cp.
Definition of_CMPINE thr cp := comparei_code do_CMPNE thr cp.

Definition set_cmp thr (eq lt eeq : vvp_bit4_t) : option vthread_s :=
  thr ← set_flag thr 4 eq; thr ← set_flag thr 5 lt; set_flag thr 6 eeq.

(** The scan of [do_CMPS] from the bit below the sign: [lt] of the first bit
    that differs. *)
Fixpoint cmps_loop (n : nat) (lval rval : vvp_vector4_t) : option vvp_bit4_t :=
  match n with
  | Datatypes.O => None
  | Datatypes.S n =>
    let lv := value lval n in
    let rv := value rval n in
    if decide (lv = rv) then cmps_loop n lval rval
    else Some (if decide (lv = BIT4_0) then BIT4_1 else BIT4_0)
  end.

Definition do_CMPS thr (lval rval : vvp_vector4_t) : option vthread_s :=
  if (size rval =? size lval)%nat then
    if has_xz lval || has_xz rval then
      set_cmp thr BIT4_X BIT4_X (if Vector4Ops.eeq lval rval then BIT4_1 else BIT4_0)
    else
      let wid := size lval in
      let sig1 := value lval (wid - 1) in
      let sig2 := value rval (wid - 1) in
      if bool_decide (sig1 = BIT4_1) && bool_decide (sig2 = BIT4_0) then set_cmp thr BIT4_0 BIT4_1 BIT4_0
      else if bool_decide (sig1 = BIT4_0) && bool_decide (sig2 = BIT4_1) then set_cmp thr BIT4_0 BIT4_0 BIT4_0
      else
        match cmps_loop (wid - 1) lval rval with
        | Some lt => set_cmp thr BIT4_0 lt BIT4_0
        | None => set_cmp thr BIT4_1 BIT4_0 BIT4_1
        end
  else None.

Definition of_CMPS thr (_ : vvp_code_t) := compare_code do_CMPS thr.
Definition of_CMPIS thr cp := comparei_code do_CMPS thr cp.

Definition of_CMPU_the_hard_way thr (wid : nat) (lval rval : vvp_vector4_t) : option vthread_s :=
  let '(eq, eeq) := cmpe_loop wid 0 lval rval BIT4_1 BIT4_1 in
  set_cmp thr eq BIT4_X eeq.

Definition do_CMPU thr (lval rval : vvp_vector4_t) : option vthread_s :=
  if (size rval =? size lval)%nat then
    let wid := size lval in
    match subarray lval 0 wid false with
    | None => of_CMPU_the_hard_way thr wid lval rval
    | Some larray =>
      match subarray rval 0 wid false with
      | None => of_CMPU_the_hard_way thr wid lval rval
      | Some rarray =>
        let '(eq, lt) :=
          for_loop (word_count wid) 0 (fun wdx '(eq, lt) =>
            if larray.[wdx] =? rarray.[wdx] then (eq, lt)
            else (BIT4_0, if larray.[wdx] <? rarray.[wdx] then BIT4_1 else BIT4_0)) (BIT4_1, BIT4_0) in
        set_cmp thr eq lt eq
      end
    end
  else None.

Definition of_CMPU thr (_ : vvp_code_t) := compare_code do_CMPU thr.
Definition of_CMPIU thr cp := comparei_code do_CMPU thr cp.

(** [%cmp/x] and [%cmp/z]: [f] tells which pairs of bits differ. *)
Definition wild_code (f : vvp_bit4_t -> vvp_bit4_t -> bool) thr :=
  '(rval, thr) ← pop_vec4 thr; '(lval, thr) ← pop_vec4 thr;
  if (size rval =? size lval)%nat then
    thr ← set_flag thr 4 (if existsb (fun idx => f (value lval idx) (value rval idx)) (seq 0 (size lval))
                          then BIT4_0 else BIT4_1);
    go_on thr
  else None.
Definition of_CMPX thr (_ : vvp_code_t) :=
  wild_code (fun lv rv => negb (bool_decide (lv = rv)) && negb (bit4_is_xz lv) && negb (bit4_is_xz rv)) thr.
Definition of_CMPZ thr (_ : vvp_code_t) :=
  wild_code (fun lv rv => negb (bool_decide (lv = rv)) && negb (bool_decide (rv = BIT4_Z)) && negb (bool_decide (lv = BIT4_Z))) thr.

Fixpoint cmpwe_loop (n idx : nat) (lval rval : vvp_vector4_t) (eq : vvp_bit4_t) : vvp_bit4_t :=
  match n with
  | Datatypes.O => eq
  | Datatypes.S n =>
    let lv := value lval idx in
    let rv := value rval idx in
    if bit4_is_xz rv then cmpwe_loop n (Datatypes.S idx) lval rval eq
    else
      let eq := eq_update (bit4_is_xz lv) eq lv rv in
      if decide (eq = BIT4_0) then eq else cmpwe_loop n (Datatypes.S idx) lval rval eq
  end.

Definition do_CMPWE thr (lval rval : vvp_vector4_t) : option vthread_s :=
  if (size rval =? size lval)%nat then
    if has_xz lval || has_xz rval then set_flag thr 4 (cmpwe_loop (size lval) 0 lval rval BIT4_1)
    else set_flag thr 4 (if Vector4Ops.eeq lval rval then BIT4_1 else BIT4_0)
  else None.

Definition of_CMPWE thr (_ : vvp_code_t) := compare_code do_CMPWE thr.
Definition of_CMPWNE thr (_ : vvp_code_t) :=
  compare_code (fun thr l r => thr ← do_CMPWE thr l r; invert_flag thr 4) thr.

(** ** Widths and parts *)

Definition of_PAD_S thr cp :=
  let wid := Z.to_nat (number cp) in
  val ← peek_vec4 thr 0;
  thr ← poke_top thr (if (size val <? wid)%nat then resize val wid (value val (size val - 1)) else resize val wid BIT4_X);
  go_on thr.
Definition of_PAD_U thr cp :=
  val ← peek_vec4 thr 0; thr ← poke_top thr (resize val (Z.to_nat (number cp)) BIT4_0); go_on thr.

Definition s32 (z : Z) : Z := (z + 2 ^ 31) mod 2 ^ 32 - 2 ^ 31.

(** The part of [wid] bits of [value] at [base], x outside: common to [%part]
    and [%parti]; [base] is an [int32_t], the sums are of 32 bits. *)
Definition part_of (val : vvp_vector4_t) (base : Z) (wid : nat) : option vvp_vector4_t :=
  let res := vec4_fill wid BIT4_X in
  if Z.of_nat (size val) <=? base then Some res
  else if s32 (base + Z.of_nat wid) <=? 0 then Some res
  else
    let '(vbase, wid, base) :=
      if base <? 0 then (Z.to_nat (- base), (wid - Z.to_nat (- base))%nat, 0%nat) else (0%nat, wid, Z.to_nat base) in
    let wid := if (size val <? base + wid)%nat then (size val - base)%nat else wid in
    '(res, _) ← set_vec res vbase (subvalue val base wid);
    Some res.

Definition of_PART_base thr cp (signed_flag : bool) :=
  let wid := Z.to_nat (number cp) in
  '(base4, thr) ← pop_vec4 thr;
  val ← peek_vec4 thr 0;
  match vector4_to_value 32 base4 signed_flag true with
  | None => thr ← poke_top thr (vec4_fill wid BIT4_X); go_on thr
  | Some (base, _) => res ← part_of val (s32 base) wid; thr ← poke_top thr res; go_on thr
  end.
Definition of_PART_S thr cp := of_PART_base thr cp true.
Definition of_PART_U thr cp := of_PART_base thr cp false.

Definition of_PARTI_base thr cp (signed_flag : bool) :=
  let wid := Z.to_nat (number cp) in
  let base := bit_idx0 cp in
  let bwid := bit_idx1 cp in
  val ← peek_vec4 thr 0;
  let use_base :=
    if signed_flag && (bwid <? 32) && negb (base .& (Z.shiftl 1 (bwid - 1)) =? 0)
    then base .| (ones64 << Z.to_nat bwid) else base in
  res ← part_of val (s32 use_base) wid; thr ← poke_top thr res; go_on thr.
Definition of_PARTI_S thr cp := of_PARTI_base thr cp true.
Definition of_PARTI_U thr cp := of_PARTI_base thr cp false.

Definition concat_of (msb lsb : vvp_vector4_t) : option vvp_vector4_t :=
  '(res, _) ← set_vec (vec4_fill (size msb + size lsb) BIT4_X) 0 lsb;
  '(res, _) ← set_vec res (size lsb) msb;
  Some res.

Definition of_CONCAT_VEC4 thr (_ : vvp_code_t) :=
  lsb ← peek_vec4 thr 0; msb ← peek_vec4 thr 1; res ← concat_of msb lsb;
  thr ← pop_vec4_cnt thr 1; thr ← poke_top thr res; go_on thr.
Definition of_CONCATI_VEC4 thr cp :=
  msb ← peek_vec4 thr 0; lsb ← immediate cp; res ← concat_of msb lsb; thr ← poke_top thr res; go_on thr.

Fixpoint replicate_loop (n idx : nat) (val res : vvp_vector4_t) : option vvp_vector4_t :=
  match n with
  | Datatypes.O => Some res
  | Datatypes.S n => '(res, _) ← set_vec res (idx * size val) val; replicate_loop n (Datatypes.S idx) val res
  end.
Definition of_REPLICATE thr cp :=
  let rept := Z.to_nat (number cp) in
  '(val, thr) ← pop_vec4 thr;
  res ← replicate_loop rept 0 val (vec4_fill (size val * rept) BIT4_X);
  go_on (push_vec4 thr res).

Definition of_SPLIT_VEC4 thr cp :=
  let lsb_wid := Z.to_nat (number cp) in
  val ← peek_vec4 thr 0;
  if (lsb_wid <? size val)%nat then
    thr ← poke_top thr (subvalue val lsb_wid (size val - lsb_wid));
    go_on (push_vec4 thr (subvalue val 0 lsb_wid))
  else None.

Definition of_DUP_VEC4 thr (_ : vvp_code_t) := val ← peek_vec4 thr 0; go_on (push_vec4 thr val).
Definition of_POP_VEC4 thr cp := thr ← pop_vec4_cnt thr (Z.to_nat (number cp)); go_on thr.
Definition of_NOOP thr (_ : vvp_code_t) := go_on thr.

(** ** Shifts *)

Definition of_SHIFTL thr cp :=
  shift ← get_word thr (number cp);
  val ← peek_vec4 thr 0;
  f4 ← get_flag thr 4;
  let wid := size val in
  if decide (f4 = BIT4_1) then thr ← poke_top thr (vec4_fill wid BIT4_X); go_on thr
  else if bool_decide (f4 = BIT4_X) || (Z.of_nat wid <=? shift) then thr ← poke_top thr (vec4_fill wid BIT4_0); go_on thr
  else if 0 <? shift then
    let shift := Z.to_nat shift in
    '(val', _) ← set_vec val 0 (vec4_fill shift BIT4_0);
    '(val', _) ← set_vec val' shift (subvalue val 0 (wid - shift));
    thr ← poke_top thr val'; go_on thr
  else go_on thr.

(** [%shiftr] and [%shiftr/s]: [fill] is the bit shifted in. *)
Definition shift_right thr cp (fill : vvp_vector4_t -> vvp_bit4_t) :=
  shift ← get_word thr (number cp);
  '(val, thr) ← pop_vec4 thr;
  f4 ← get_flag thr 4;
  let wid := size val in
  let sign_bit := fill val in
  if decide (f4 = BIT4_1) then go_on (push_vec4 thr (vec4_fill wid BIT4_X))
  else if bool_decide (f4 = BIT4_X) || (Z.of_nat wid <? shift) then go_on (push_vec4 thr (vec4_fill wid sign_bit))
  else if 0 <? shift then
    let shift := Z.to_nat shift in
    '(val', _) ← set_vec val 0 (subvalue val shift (wid - shift));
    '(val', _) ← set_vec val' (wid - shift) (vec4_fill shift sign_bit);
    go_on (push_vec4 thr val')
  else go_on (push_vec4 thr val).
Definition of_SHIFTR thr cp := shift_right thr cp (fun _ => BIT4_0).
Definition of_SHIFTR_S thr cp := shift_right thr cp (fun val => value val (size val - 1)).

(** ** Flags *)

Definition of_FLAG_GET_VEC4 thr cp := b ← get_flag thr (number cp); go_on (push_vec4 thr (vec4_fill 1 b)).
Definition of_FLAG_INV thr cp := thr ← invert_flag thr (bit_idx0 cp); go_on thr.
Definition of_FLAG_MOV thr cp := b ← get_flag thr (bit_idx1 cp); thr ← set_flag thr (bit_idx0 cp) b; go_on thr.
Definition of_FLAG_OR thr cp :=
  a ← get_flag thr (bit_idx0 cp); b ← get_flag thr (bit_idx1 cp);
  thr ← set_flag thr (bit_idx0 cp) (bit4_or a b); go_on thr.
Definition of_FLAG_SET_IMM thr cp :=
  b ← [BIT4_0; BIT4_1; BIT4_Z; BIT4_X] !! Z.to_nat (bit_idx0 cp);
  thr ← set_flag thr (number cp) b; go_on thr.
Definition of_FLAG_SET_VEC4 thr cp :=
  val ← peek_vec4 thr 0; thr ← set_flag thr (number cp) (value val 0); thr ← pop_vec4_cnt thr 1; go_on thr.

(** ** Word registers *)

Definition get_as_64_bit (low_32 high_32 : Z) : Z := s64 (high_32 << 32) .| low_32.

Definition update_word thr (i : Z) (f : Z -> Z) := w ← get_word thr i; thr ← set_word thr i (u64 (f w)); go_on thr.
Definition of_IX_ADD thr cp := update_word thr (number cp) (fun w => w + get_as_64_bit (bit_idx0 cp) (bit_idx1 cp)).
Definition of_IX_SUB thr cp := update_word thr (number cp) (fun w => w - get_as_64_bit (bit_idx0 cp) (bit_idx1 cp)).
Definition of_IX_MUL thr cp := update_word thr (number cp) (fun w => w * get_as_64_bit (bit_idx0 cp) (bit_idx1 cp)).
Definition of_IX_LOAD thr cp :=
  thr ← set_word thr (number cp) (u64 (get_as_64_bit (bit_idx0 cp) (bit_idx1 cp))); go_on thr.
Definition of_IX_MOV thr cp := w ← get_word thr (bit_idx1 cp); thr ← set_word thr (bit_idx0 cp) w; go_on thr.

Definition of_CMPIX_LTU thr cp :=
  a ← get_word thr (number cp); b ← get_word thr (bit_idx0 cp);
  thr ← set_flag thr 4 (if a <? b then BIT4_1 else BIT4_0); go_on thr.
Definition of_CMPIX_SLT0 thr cp :=
  w ← get_word thr (number cp); thr ← set_flag thr 4 (if s64 w <? 0 then BIT4_1 else BIT4_0); go_on thr.

Definition of_PUSH_IX_VEC4 thr cp :=
  w ← get_word thr (number cp);
  let wid := Nat.min (Z.to_nat (bit_idx0 cp)) 32 in
  let '(tmp, _) :=
    for_loop wid 0 (fun idx '(tmp, ubits) =>
      (set_bit tmp idx (if negb (ubits .& 1 =? 0) then BIT4_1 else BIT4_0), Z.shiftr ubits 1))
      (vec4_fill wid BIT4_0, u32 w) in
  go_on (push_vec4 thr tmp).

(** The loop of [vec4_to_index] over the words above the first: true when one
    of them sets the overflow flag. *)
Definition index_overflow (signed_flag : bool) (v : Z) (bits : list Z) : bool :=
  existsb (fun tmp => if signed_flag && (v >> 63 =? 1) then negb (.~ tmp =? 0) else negb (tmp =? 0)) (drop 1 bits).

Definition vec4_to_index thr (signed_flag : bool) : option (Z * vthread_s) :=
  val ← peek_vec4 thr 0;
  let val_size := size val in
  let bits := subarray val 0 val_size false in
  thr ← pop_vec4_cnt thr 1;
  match bits with
  | None => thr ← set_flag thr 4 BIT4_1; Some (0, thr)
  | Some bits =>
    thr ← set_flag thr 4 (if index_overflow signed_flag bits.[0] bits then BIT4_X else BIT4_0);
    let v := bits.[0] in
    let v :=
      if (val_size <? 64)%nat then
        if signed_flag && negb (v .& (1 << (val_size - 1)) =? 0)
        then v .| (ones64 << val_size) else v .& .~ (ones64 << val_size)
      else v in
    Some (v, thr)
  end.

Definition of_IX_VEC4 thr cp := '(v, thr) ← vec4_to_index thr false; thr ← set_word thr (number cp) v; go_on thr.
Definition of_IX_VEC4_S thr cp := '(v, thr) ← vec4_to_index thr true; thr ← set_word thr (number cp) v; go_on thr.

(** ** Signals and jumps *)

Context `{World}.

Definition of_LOAD_VEC4 thr cp := sig_value ← sig_vec4_value (net cp); go_on (push_vec4 thr sig_value).

Definition of_IX_GETV thr cp :=
  vec ← sig_vec4_value (net cp);
  match vector4_to_value_overflow vec with
  | Some (val, overflow_flag) =>
    thr ← set_word thr (bit_idx0 cp) val; thr ← set_flag thr 4 (if overflow_flag : bool then BIT4_X else BIT4_0); go_on thr
  | None => thr ← set_word thr (bit_idx0 cp) 0; thr ← set_flag thr 4 BIT4_1; go_on thr
  end.
Definition of_IX_GETV_S thr cp :=
  vec ← sig_vec4_value (net cp);
  match vector4_to_value 64 vec true true with
  | Some (val, _) => thr ← set_word thr (bit_idx0 cp) val; thr ← set_flag thr 4 BIT4_0; go_on thr
  | None => thr ← set_word thr (bit_idx0 cp) 0; thr ← set_flag thr 4 BIT4_1; go_on thr
  end.

(** A stopped simulation breaks out of a loop: the thread is scheduled again. *)
Definition after_jump thr : option (vthread_s * bool) :=
  if schedule_stopped then
    Some (Thr (pc thr) (flags thr) (words thr) (stack_vec4_ thr) (S (requeued thr)), false)
  else go_on thr.

Definition jump_if (f : vvp_bit4_t -> bool) thr cp :=
  b ← get_flag thr (bit_idx0 cp); after_jump (if f b then with_pc thr (cptr cp) else thr).
Definition of_JMP thr cp := after_jump (with_pc thr (cptr cp)).
Definition of_JMP0 thr cp := jump_if (fun b => bool_decide (b = BIT4_0)) thr cp.
Definition of_JMP0XZ thr cp := jump_if (fun b => negb (bool_decide (b = BIT4_1))) thr cp.
Definition of_JMP1 thr cp := jump_if (fun b => bool_decide (b = BIT4_1)) thr cp.
Definition of_JMP1XZ thr cp := jump_if (fun b => negb (bool_decide (b = BIT4_0))) thr cp.
End Opcodes.
