(* ===== verification/ThreadDiv.v ===== *)
(** * ThreadDiv: division, remainder and power of the virtual machine (vvp/vthread.cc)

    [%div] and [%div/s] work on arrays of words, a quotient word at a time;
    [%mod] and [%mod/s] on native words, or bit by bit on arrays of bytes;
    [%pow] on two-state vectors. *)

From S2P Require Import Prelude FourState Vector4 Vector4Ops Vector2 Thread.
Import Bit4.

Open Scope ivl_scope.

(** ** Words *)

(** [multiply_array_imm]: the words of [val * imm], as many as [val] has here. *)
Definition multiply_array_imm (val : list Z) (words : nat) (imm : Z) : list Z :=
  for_loop words 0 (fun mul_idx res =>
    let '(tmp, sum) := multiply_with_carry val.[mul_idx] imm in
    let '(w, carry) := add_with_carry_w res.[mul_idx] tmp 0 in
    let '(res, _, _) :=
      for_loop (words - (mul_idx + 1)) (mul_idx + 1) (fun add_idx '(res, sum, carry) =>
        let '(w, carry) := add_with_carry_w res.[add_idx] sum carry in
        (res.[add_idx <- w], 0, carry)) (res.[mul_idx <- w], sum, carry) in
    res) (replicate words 0).

Definition ULONG_MAX : Z := ones64.

(** The loop of [divide2words]; every round at least halves what the high word
    contributes, so 70 rounds are enough. *)
Fixpoint divide2words_loop (fuel : nat) (a b high result : Z) : option Z :=
  if 0 <? high then
    match fuel with
    | O => None
    | Datatypes.S fuel =>
      let tmp_result := ULONG_MAX / b in
      let remain := add64 (ULONG_MAX mod b) 1 in
      let '(remain, tmp_result) := if b <=? remain then (sub64 remain b, add64 tmp_result 1) else (remain, tmp_result) in
      let result := add64 result (mul64 tmp_result high) in
      let '(remain, high) := multiply_with_carry high remain in
      let a := add64 a remain in
      let high := if a <? remain then add64 high 1 else high in
      divide2words_loop fuel a b high result
    end
  else Some (add64 result (a / b)).
Definition divide2words (a b high : Z) : option Z := divide2words_loop 70 a b high 0.

(** A loop of at most [p] rounds of [f], which gives [inr] to leave it. *)
Fixpoint rounds {S R : Type} (p : positive) (f : S -> S + R) (s : S) : S + R :=
  match p with
  | xH => f s
  | xO p => match rounds p f s with inl s => rounds p f s | inr r => inr r end
  | xI p =>
    match f s with
    | inl s => match rounds p f s with inl s => rounds p f s | inr r => inr r end
    | inr r => inr r
    end
  end.

(** [ap[idx] = add_with_carry(ap[idx], f(idx), carry)] for [cur_ptr <= idx < words] *)
Definition add_words (words cur_ptr : nat) (f : nat -> Z) (ap : list Z) (carry : Z) : list Z * Z :=
  for_loop (words - cur_ptr) cur_ptr (fun idx '(ap, carry) =>
    let '(w, carry) := add_with_carry_w ap.[idx] (f idx) carry in (ap.[idx <- w], carry)) (ap, carry).

(** A round of the loop that adds the divisor back in. *)
Definition add_back (words cur_ptr : nat) (bp : list Z) (s : Z * list Z) : (Z * list Z) + (Z * list Z) :=
  let '(cur_res, ap) := s in
  let cur_res := sub64 cur_res 1 in
  let '(ap, carry) := add_words words cur_ptr (fun idx => bp.[idx - cur_ptr]) ap 0 in
  if carry =? 0 then inl (cur_res, ap) else inr (cur_res, ap).

(** A round of the division: the quotient word at [cur_ptr]. *)
Definition divide_round (words btop : nat) (bp : list Z) (cur_ptr : nat) (s : list Z * list Z) : option (list Z * list Z) :=
  let '(ap, result) := s in
  let top := (cur_ptr + btop)%nat in
  let estimate :=
    if bp.[btop] <=? ap.[top] then
      Some (divide2words ap.[top] bp.[btop] (if (top + 1 <? words)%nat then ap.[top + 1] else 0))
    else if (words <=? top + 1)%nat then None
    else if ap.[top + 1] =? 0 then None
    else Some (divide2words ap.[top] bp.[btop] ap.[top + 1]) in
  match estimate with
  | None => Some (ap, result)
  | Some cur_res =>
    cur_res ← cur_res;
    let diff := multiply_array_imm bp (words - cur_ptr) cur_res in
    let '(ap, carry) := add_words words cur_ptr (fun idx => .~ diff.[idx - cur_ptr]) ap 1 in
    if carry .& 1 =? 0 then
      match rounds (Z.to_pos (cur_res + 1)) (add_back words cur_ptr bp) (cur_res, ap) with
      | inr (cur_res, ap) => Some (ap, result.[cur_ptr <- cur_res])
      | inl _ => None
      end
    else Some (ap, result.[cur_ptr <- cur_res])
  end.

(** [for (cur = words-btop ; cur > 0 ; cur -= 1)] *)
Fixpoint divide_loop (words btop : nat) (bp : list Z) (cur : nat) (s : list Z * list Z) : option (list Z * list Z) :=
  match cur with
  | O => Some s
  | Datatypes.S cur_ptr => s ← divide_round words btop bp cur_ptr s; divide_loop words btop bp cur_ptr s
  end.

(** [btop]: the index of the highest word of [bp] that is not 0. *)
Fixpoint top_word (bp : list Z) (btop : nat) : nat :=
  match btop with
  | O => O
  | Datatypes.S n => if bp.[btop] =? 0 then top_word bp n else btop
  end.

(** [divide_bits]: the quotient, [None] inside for a null pointer. *)
Definition divide_bits (ap bp : list Z) (wid : nat) : option (option (list Z)) :=
  let words := word_count wid in
  let btop := top_word bp (words - 1) in
  if (btop =? 0)%nat && (bp.[0] =? 0) then Some None
  else
    '(_, result) ← divide_loop words btop bp (words - btop) (ap, replicate words 0);
    Some (Some result).

Definition negate_words (val : list Z) (words : nat) : list Z :=
  fst (for_loop words 0 (fun idx '(val, carry) =>
    let '(w, carry) := add_with_carry_w 0 (.~ val.[idx]) carry in (val.[idx <- w], carry)) (val, 1)).

(** [(long) w] *)
Definition LONG_MIN : Z := - 2 ^ 63.

Section Opcodes.
Context {O : Type}.
Abbreviation vvp_code_t := (vvp_code_s O).
Implicit Types (thr : vthread_s).

(** ** Division *)

Definition push_x thr (wid : nat) := go_on (push_vec4 thr (vec4_fill wid BIT4_X)).

Definition of_DIV thr (_ : vvp_code_t) : option (vthread_s * bool) :=
  '(valb, thr) ← pop_vec4 thr; '(vala, thr) ← pop_vec4 thr;
  if (size vala =? size valb)%nat then
    let wid := size vala in
    match subarray vala 0 wid false with
    | None => push_x thr wid
    | Some ap =>
      match subarray valb 0 wid false with
      | None => push_x thr wid
      | Some bp =>
        if (wid <=? 64)%nat then
          if bp.[0] =? 0 then push_x thr wid
          else vala ← setarray vala 0 wid ap.[0 <- ap.[0] / bp.[0]]; go_on (push_vec4 thr vala)
        else
          result ← divide_bits ap bp wid;
          match result with
          | None => push_x thr wid
          | Some result => vala ← setarray vala 0 wid result; go_on (push_vec4 thr vala)
          end
      end
    end
  else None.

(** [if (ap[words-1] & (sign_mask>>1)) ap[words-1] |= sign_mask] *)
Definition sign_extend_words (ap : list Z) (words : nat) (sign_mask : Z) : list Z :=
  if negb (ap.[words - 1] .& (sign_mask >> 1) =? 0) then ap.[words - 1 <- ap.[words - 1] .| sign_mask] else ap.

Definition poke_x thr (wid : nat) := thr ← poke_top thr (vec4_fill wid BIT4_X); go_on thr.

Definition of_DIV_S thr (_ : vvp_code_t) : option (vthread_s * bool) :=
  '(valb, thr) ← pop_vec4 thr; vala ← peek_vec4 thr 0;
  if (size vala =? size valb)%nat then
    let wid := size vala in
    let words := word_count wid in
    match subarray vala 0 wid false with
    | None => poke_x thr wid
    | Some ap =>
      match subarray valb 0 wid false with
      | None => poke_x thr wid
      | Some bp =>
        let sign_bits := (words * 64 - wid)%nat in
        let sign_mask := if (sign_bits =? 0)%nat then 0 else ones64 << (64 - sign_bits) in
        let '(ap, bp) :=
          if (sign_bits =? 0)%nat then (ap, bp)
          else (sign_extend_words ap words sign_mask, sign_extend_words bp words sign_mask) in
        if (wid <=? 64)%nat then
          if bp.[0] =? 0 then poke_x thr wid
          else if (s64 ap.[0] =? LONG_MIN) && (s64 bp.[0] =? -1) then
            thr ← poke_top thr (set_bit (vec4_fill wid BIT4_0) (wid - 1) BIT4_1); go_on thr
          else
            let res := Z.quot (s64 ap.[0]) (s64 bp.[0]) in
            vala ← setarray vala 0 wid ap.[0 <- u64 res .& .~ sign_mask];
            thr ← poke_top thr vala; go_on thr
        else
          let '(ap, na) := if s64 ap.[words - 1] <? 0 then (negate_words ap words, true) else (ap, false) in
          let '(bp, nb) := if s64 bp.[words - 1] <? 0 then (negate_words bp words, true) else (bp, false) in
          let negate_flag := xorb na nb in
          result ← divide_bits ap bp wid;
          match result with
          | None => poke_x thr wid
          | Some result =>
            let result := if negate_flag then negate_words result words else result in
            let result := result.[words - 1 <- result.[words - 1] .& .~ sign_mask] in
            vala ← setarray vala 0 wid result;
            thr ← poke_top thr vala; go_on thr
          end
      end
    end
  else None.

(** ** Remainder *)

(** The loop that reads both operands into words; [None] is [goto x_out]. *)
Fixpoint mod_read (n idx : nat) (vala valb : vvp_vector4_t) (lv rv : Z) : option (Z * Z) :=
  match n with
  | Datatypes.O => Some (lv, rv)
  | Datatypes.S n =>
    let lb := bit4_to_int (value vala idx) in
    let rb := bit4_to_int (value valb idx) in
    if negb ((lb .| rb) .& 2 =? 0) then None
    else mod_read n (Datatypes.S idx) vala valb (lv .| (lb << idx)) (rv .| (rb << idx))
  end.

(** [for (idx < wid) { vala.set_bit(idx, lv&1); lv >>= 1; }] *)
Definition write_bits (wid : nat) (lv : Z) (vala : vvp_vector4_t) : vvp_vector4_t :=
  fst (for_loop wid 0 (fun idx '(vala, lv) =>
    (set_bit vala idx (if negb (lv .& 1 =? 0) then BIT4_1 else BIT4_0), Z.shiftr lv 1)) (vala, lv)).

(** A bit of an operand of [do_verylong_mod], negated serially when [neg]. *)
Definition serial_neg (neg : bool) (b carry : Z) : Z * Z :=
  if neg then
    let b := (1 - b) + carry in
    (b .& 1, if negb (b .& 0xfffffffe =? 0) then 1 else 0)
  else (b, carry).

(** The loop that fills [z] and [a]. *)
Fixpoint verylong_read (n idx : nat) (vala valb : vvp_vector4_t) (ln rn : bool) (lc rc : Z) (z a : list Z)
    : option (list Z * list Z) :=
  match n with
  | Datatypes.O => Some (z, a)
  | Datatypes.S n =>
    let lb := bit4_to_int (value vala idx) in
    let rb := bit4_to_int (value valb idx) in
    if negb ((lb .| rb) .& 2 =? 0) then None
    else
      let '(lb, lc) := serial_neg ln lb lc in
      let '(rb, rc) := serial_neg rn rb rc in
      verylong_read n (Datatypes.S idx) vala valb ln rn lc rc z.[idx <- lb] a.[idx <- 1 - rb]
  end.

(** The highest index below [n] where [f] holds, and -1 when there is none. *)
Fixpoint highest (n : nat) (f : nat -> bool) : Z :=
  match n with
  | Datatypes.O => -1
  | Datatypes.S i => if f i then Z.of_nat i else highest i f
  end.

(** A round of [while (current > -1)]: subtract the divisor if it fits. *)
Definition verylong_round (copylen current : nat) (a z : list Z) : list Z :=
  let '(t, carry) :=
    for_loop copylen 0 (fun i '(t, carry) =>
      let temp := z.[i + current] + a.[i] + carry in (t.[i <- temp .& 1], Z.shiftr temp 1))
      (replicate (length z) 0, 1) in
  if negb (carry =? 0) then for_loop copylen 0 (fun i z => z.[i + current <- t.[i]]) z else z.

Definition do_verylong_mod (vala valb : vvp_vector4_t) (left_is_neg right_is_neg : bool) : vvp_vector4_t :=
  let len := size vala in
  match verylong_read len 0 vala valb left_is_neg right_is_neg (Z.b2z left_is_neg) (Z.b2z right_is_neg)
          (replicate (len + 1) 0) (replicate (len + 1) 0) with
  | None => vec4_fill len BIT4_X
  | Some (z, a) =>
    let z := z.[len <- 0] in
    let a := a.[len <- 1] in
    let mxa := highest len (fun i => a.[i] =? 0) in
    let mxz := highest len (fun i => negb (z.[i] =? 0)) in
    if mxa =? -1 then vec4_fill len BIT4_X
    else
      let z :=
        if mxz <? mxa then z
        else for_down (Z.to_nat (mxz - mxa + 1)) (fun current z => verylong_round (Z.to_nat (mxa + 2)) current a z) z in
      fst (for_loop len 0 (fun idx '(tmp, carry) =>
        let '(ob, carry) := serial_neg left_is_neg z.[idx] carry in
        (set_bit tmp idx (if negb (ob =? 0) then BIT4_1 else BIT4_0), carry))
        (vec4_fill len BIT4_X, Z.b2z left_is_neg))
  end.

Definition of_MOD thr (_ : vvp_code_t) : option (vthread_s * bool) :=
  '(valb, thr) ← pop_vec4 thr; vala ← peek_vec4 thr 0;
  if (size vala =? size valb)%nat then
    let wid := size vala in
    if (wid <=? 64)%nat then
      match mod_read wid 0 vala valb 0 0 with
      | None => poke_x thr wid
      | Some (lv, rv) =>
        if rv =? 0 then poke_x thr wid
        else thr ← poke_top thr (write_bits wid (lv mod rv) vala); go_on thr
      end
    else thr ← poke_top thr (do_verylong_mod vala valb false false); go_on thr
  else None.

Definition of_MOD_S thr (_ : vvp_code_t) : option (vthread_s * bool) :=
  '(valb, thr) ← pop_vec4 thr; vala ← peek_vec4 thr 0;
  if (size vala =? size valb)%nat then
    let wid := size vala in
    if (wid <=? 64)%nat then
      match mod_read wid 0 vala valb 0 0 with
      | None => poke_x thr wid
      | Some (lv, rv) =>
        if rv =? 0 then poke_x thr wid
        else if (s64 lv =? LONG_MIN) && (s64 rv =? -1) then thr ← poke_top thr (vec4_fill wid BIT4_0); go_on thr
        else
          let extend w :=
            if (wid <? 64)%nat && negb (w .& (1 << (wid - 1)) =? 0) then w .| (ones64 << wid) else w in
          thr ← poke_top thr (write_bits wid (Z.rem (s64 (extend lv)) (s64 (extend rv))) vala); go_on thr
      end
    else
      thr ← poke_top thr (do_verylong_mod vala valb
        (bool_decide (value vala (size vala - 1) = BIT4_1)) (bool_decide (value valb (size valb - 1) = BIT4_1)));
      go_on thr
  else None.

(** ** Power *)

Definition of_POW_base thr (signed_flag : bool) : option (vthread_s * bool) :=
  '(valb, thr) ← pop_vec4 thr; '(vala, thr) ← pop_vec4 thr;
  let wid := size vala in
  let xv2 := vec2_of_vec4 vala true in
  let yv2 := vec2_of_vec4 valb true in
  if is_NaN xv2 || is_NaN yv2 then push_x thr wid
  else if signed_flag && vec2_value yv2 (wid_ yv2 - 1) then
    let '(a_val, ok) := vector2_to_value xv2 true in
    let '(pad, lsb) :=
      if ok then
        if a_val =? 0 then (BIT4_X, BIT4_X)
        else if a_val =? 1 then (BIT4_0, BIT4_1)
        else if a_val =? 2 ^ 32 - 1 then (if vec2_value yv2 0 then (BIT4_1, BIT4_1) else (BIT4_0, BIT4_1))
        else (BIT4_0, BIT4_0)
      else (BIT4_0, BIT4_0) in
    go_on (push_vec4 thr (set_bit (vec4_fill wid pad) 0 lsb))
  else
    result ← vec2_pow xv2 yv2;
    go_on (push_vec4 thr (for_loop wid 0 (fun jdx vala =>
      if (wid_ result <=? jdx)%nat then set_bit vala jdx BIT4_0
      else set_bit vala jdx (if vec2_value result jdx then BIT4_1 else BIT4_0)) vala)).

Definition of_POW thr (_ : vvp_code_t) := of_POW_base thr false.
Definition of_POW_S thr (_ : vvp_code_t) := of_POW_base thr true.
End Opcodes.
