(* ===== verification/ThreadSpec.v ===== *)
(** * ThreadSpec: what the opcodes do to the bits on the stack

    Every opcode of Thread is related to the operators of Bits: if the operands
    hold these bits, the result holds those. *)

From S2P Require Import Prelude FourState Vector4 Vector4Value Vector4Ops Vector4Parts Vector4Copy.
From S2P Require Import Vector4Arith Vector4Logic Vector4Reduce Vector4Conv Vector4Array Bits Thread.
Import Bit4.

Open Scope ivl_scope.

(** The thread as its flags, words and the bits on its stack. *)
Record abs : Type := Abs {
  a_flags : list vvp_bit4_t;
  a_words : list Z;
  a_stack : list bits;
}.

Record represents (thr : vthread_s) (A : abs) : Prop := Represents {
  r_flags : flags thr = a_flags A;
  r_words : words thr = a_words A;
  r_stack : Forall2 vec_is (stack_vec4_ thr) (a_stack A);
}.

(** The opcode goes on at [p] with the state [A]. *)
Definition runs_to (res : option (vthread_s * bool)) (p : nat) (A : abs) : Prop :=
  exists thr, res = Some (thr, true) /\ pc thr = p /\ represents thr A.

(** Takes the operands off the stack. *)
Ltac operands :=
  repeat match goal with
  | H : represents ?thr _ |- _ =>
    let P := fresh "p" in let F := fresh "f" in let W := fresh "w" in let S := fresh "s" in
    destruct thr as [P F W S ?]; destruct H as [? ? H]; cbn [a_flags a_words a_stack flags words stack_vec4_ pc] in *; subst
  | H : Forall2 vec_is ?s (_ :: _) |- _ => inversion H; clear H; subst
  end.

(** Ends with a state whose stack is known. *)
Ltac finish :=
  eexists; split; [reflexivity|]; split; [reflexivity|]; constructor; cbn; try reflexivity;
  repeat first [assumption | apply List.Forall2_cons | apply List.Forall2_nil].

Section Spec.
Context {O : Type}.
Implicit Types (thr : vthread_s) (cp : vvp_code_s O) (s : list vvp_vector4_t) (l r : bits).

(** ** Immediate operands *)

Definition imm_bits (wid : nat) (vala valb : Z) : bits :=
  map_bits wid (fun i => mk_bit (Z.testbit vala (Z.of_nat i)) (Z.testbit valb (Z.of_nat i))).

Lemma imm_code a b : (((Z.b2z b) << 1) .| Z.b2z a = 2 * Z.b2z b + Z.b2z a) /\ int_to_bit4 (2 * Z.b2z b + Z.b2z a) = mk_bit a b.
Proof. by destruct a, b. Qed.

Lemma immediate_loop_spec n : forall idx vala valb v,
  vec_wf v -> (idx + n <= size v)%nat -> (forall i, (idx <= i < idx + n)%nat -> value v i = BIT4_0) ->
  0 <= vala -> 0 <= valb ->
  let r := immediate_loop n idx vala valb v in
  vec_wf r /\ size r = size v /\
  forall i, value r i = if ((idx <=? i) && (i <? idx + n))%nat
    then mk_bit (Z.testbit vala (Z.of_nat (i - idx))) (Z.testbit valb (Z.of_nat (i - idx))) else value v i.
Proof using.
  induction n as [|n IH]; intros idx vala valb v W S Z0 Ha Hb; cbn [immediate_loop].
  - split; [done|]. split; [done|]. intros i. rewrite Nat.add_0_r. destruct (Nat.leb_spec idx i), (Nat.ltb_spec i idx); (done || lia).
  - destruct (Z.eqb_spec (vala .| valb) 0) as [E|E].
    + apply Z.lor_eq_0_iff in E as [-> ->]. split; [done|]. split; [done|]. intros i.
      destruct (Nat.leb_spec idx i); [|done]. destruct (Nat.ltb_spec i (idx + Datatypes.S n)); [|done]. cbn [andb].
      rewrite !Z.bits_0, Z0 by lia. done.
    + rewrite !land_1_bit. destruct (imm_code (Z.testbit vala 0) (Z.testbit valb 0)) as [-> Hc]. rewrite Hc.
      set (c := mk_bit _ _) in *.
      set (v' := if negb _ then set_bit v idx c else v).
      assert (H' : vec_wf v' /\ size v' = size v /\ forall i, value v' i = if (i =? idx)%nat then c else value v i).
      { unfold v'. destruct (Z.eqb_spec (2 * Z.b2z (Z.testbit valb 0) + Z.b2z (Z.testbit vala 0)) 0) as [E0|E0]; cbn [negb].
        - split; [done|]. split; [done|]. intros i. destruct (Nat.eqb_spec i idx) as [->|]; [|done]. rewrite Z0 by lia.
          unfold c. revert E0. destruct (Z.testbit vala 0), (Z.testbit valb 0); cbn; (reflexivity || lia).
        - split; [apply set_bit_wf; [done|lia]|]. split; [by rewrite set_bit_size|]. intros i.
          by rewrite set_bit_value by (done || lia). }
      destruct H' as (W' & S' & B'). destruct (IH (Datatypes.S idx) (Z.shiftr vala 1) (Z.shiftr valb 1) v') as (Wr & Sr & Br).
      { done. } { lia. }
      { intros i Hi. rewrite B'. rewrite (proj2 (Nat.eqb_neq _ _)) by lia. apply Z0. lia. }
      { by apply Z.shiftr_nonneg. } { by apply Z.shiftr_nonneg. }
      split; [done|]. split; [congruence|]. intros i. rewrite Br, B'.
      destruct (Nat.eqb_spec i idx) as [->|Hi].
      * decide_nat. by rewrite Nat.sub_diag.
      * destruct (Nat.leb_spec (Datatypes.S idx) i), (Nat.leb_spec idx i); try lia; cbn [andb]; [|done].
        replace (Datatypes.S idx + n)%nat with (idx + Datatypes.S n)%nat by lia. destruct (Nat.ltb_spec i (idx + Datatypes.S n)); [|done].
        rewrite !Z.shiftr_spec by lia. f_equal; f_equal; lia.
Qed.

Lemma immediate_spec cp wid : Z.to_nat (number cp) = wid -> (0 < wid)%nat -> is_word (bit_idx0 cp) -> 0 <= bit_idx1 cp ->
  exists v, immediate cp = Some v /\ vec_is v (imm_bits wid (bit_idx0 cp) (bit_idx1 cp)).
Proof using.
  intros Hw H0 Ha Hb. unfold immediate, get_immediate_rval. rewrite Hw. pose proof (vec4_fill_wf wid BIT4_0) as Wf.
  destruct (Z.eqb_spec (bit_idx1 cp) 0) as [E|E].
  - rewrite E. destruct (Z.eqb_spec (bit_idx0 cp) 0) as [E0|E0].
    + eexists. split; [done|]. apply vec_is_map; [done|done|]. intros i Hi. by rewrite E0, !Z.bits_0, vec4_fill_value by done.
    + set (uw := if (wid <? 64)%nat then wid else 64%nat).
      assert (Hu : (uw = Nat.min wid 64)%nat) by (unfold uw; destruct (Nat.ltb_spec wid 64); lia).
      destruct (setarray_spec (vec4_fill wid BIT4_0) 0 uw [bit_idx0 cp]) as (v & Ev & W & S & B).
      { done. } { constructor; [done|constructor]. } { lia. } { cbn [vec4_fill size]. lia. }
      exists v. split; [done|]. cbn [vec4_fill size] in S, B. apply vec_is_map; [done|done|]. intros i Hi. rewrite B by done.
      cbn [Nat.leb andb]. rewrite Z.bits_0, Nat.sub_0_r, vec4_fill_value by done. unfold pbit.
      destruct (Nat.ltb_spec i (0 + uw)).
      * rewrite Nat.div_small, Nat.mod_small by (unfold BITS_PER_WORD; lia). cbn [word_at lookup list_lookup default from_option id].
        by destruct (Z.testbit _ _).
      * rewrite <- (Z.mod_small (bit_idx0 cp) (2 ^ 64)) by done. rewrite Z.mod_pow2_bits_high by lia. done.
  - destruct (immediate_loop_spec wid 0 (bit_idx0 cp) (bit_idx1 cp) (vec4_fill wid BIT4_0)) as (W & S & B).
    { done. } { cbn [vec4_fill size]. lia. } { intros i Hi. apply vec4_fill_value. lia. } { by apply Ha. } { done. }
    eexists. split; [done|]. apply vec_is_map; [done|done|]. intros i Hi. rewrite B. cbn [Nat.leb andb].
    rewrite (proj2 (Nat.ltb_lt _ _)), Nat.sub_0_r by lia. done.
Qed.

Lemma pushi_spec thr cp fl ws ls wid : represents thr (Abs fl ws ls) ->
  Z.to_nat (number cp) = wid -> (0 < wid)%nat -> is_word (bit_idx0 cp) -> 0 <= bit_idx1 cp ->
  runs_to (of_PUSHI_VEC4 thr cp) (pc thr) (Abs fl ws (imm_bits wid (bit_idx0 cp) (bit_idx1 cp) :: ls)).
Proof using.
  intros H Hw H0 Ha Hb. destruct (immediate_spec cp wid Hw H0 Ha Hb) as (v & E & V). unfold of_PUSHI_VEC4. rewrite E.
  operands. finish.
Qed.

(** ** Arithmetic *)

Lemma arith_ext n u a b : (u = false -> a mod 2 ^ Z.of_nat n = b mod 2 ^ Z.of_nat n) -> arith n u a = arith n u b.
Proof using. intros H. destruct u; [done|]. by apply bits_of_Z_mod, H. Qed.

(** An operation on vectors that computes [f] modulo the size, of operands of either signedness. *)
Lemma ring_op (f : Z -> Z -> Z) sg vl vr l r v : length l = length r -> vec_is vl l -> vec_is vr r ->
  (forall a b m, 0 < m -> f a b mod m = f (a mod m) (b mod m) mod m) ->
  arith_result (any_xz vl || any_xz vr) (size vl) (f (vval vl) (vval vr)) v -> vec_is v (arith2 sg f l r).
Proof using.
  intros Hl Vl Vr Hf Hv. apply arith_is in Hv. eapply vec_is_ext; [exact Hv|]. unfold arith2.
  rewrite (any_xz_is vl l), (any_xz_is vr r), (is_size vl l) by done. apply arith_ext. intros [Xl Xr]%orb_false_iff.
  rewrite (vval_is vl l), (vval_is vr r) by done. pose proof (pow2_pos (Z.of_nat (length l)) ltac:(lia)).
  rewrite (Hf (unum l)), (Hf (num sg l)) by done. rewrite !num_mod by lia. done.
Qed.

Lemma add_op sg vl vr l r : length l = length r -> vec_is vl l -> vec_is vr r ->
  exists v, vec4_add vl vr = Some v /\ vec_is v (arith2 sg Z.add l r).
Proof using.
  intros Hl Vl Vr. destruct (vec4_add_sub_spec vl vr) as [(v & E & R) _].
  { apply Vl. } { apply Vr. } { by rewrite (is_size vl l), (is_size vr r). }
  exists v. split; [done|]. eapply ring_op; eauto. intros. by rewrite Zplus_mod.
Qed.

Lemma sub_op sg vl vr l r : length l = length r -> vec_is vl l -> vec_is vr r ->
  exists v, vec4_sub vl vr = Some v /\ vec_is v (arith2 sg Z.sub l r).
Proof using.
  intros Hl Vl Vr. destruct (vec4_add_sub_spec vl vr) as [_ (v & E & R)].
  { apply Vl. } { apply Vr. } { by rewrite (is_size vl l), (is_size vr r). }
  exists v. split; [done|]. eapply ring_op; eauto. intros. by rewrite Zminus_mod.
Qed.

Lemma mul_op sg vl vr l r : length l = length r -> vec_is vl l -> vec_is vr r ->
  exists v, vec4_mul vl vr = Some v /\ vec_is v (arith2 sg Z.mul l r).
Proof using.
  intros Hl Vl Vr. destruct (vec4_mul_spec vl vr) as (v & E & R).
  { apply Vl. } { apply Vr. } { by rewrite (is_size vl l), (is_size vr r). }
  exists v. split; [done|]. eapply ring_op; eauto. intros. by rewrite Zmult_mod.
Qed.

Lemma of_ADD_spec sg thr cp fl ws l r ls : represents thr (Abs fl ws (r :: l :: ls)) -> length l = length r ->
  runs_to (of_ADD thr cp) (pc thr) (Abs fl ws (arith2 sg Z.add l r :: ls)).
Proof using.
  intros H Hl. operands. edestruct (add_op sg) as (v & E & V); [exact Hl|eauto..|].
  unfold of_ADD. cbn. rewrite E. finish.
Qed.

Lemma of_SUB_spec sg thr cp fl ws l r ls : represents thr (Abs fl ws (r :: l :: ls)) -> length l = length r ->
  runs_to (of_SUB thr cp) (pc thr) (Abs fl ws (arith2 sg Z.sub l r :: ls)).
Proof using.
  intros H Hl. operands. edestruct (sub_op sg) as (v & E & V); [exact Hl|eauto..|].
  unfold of_SUB. cbn. rewrite E. finish.
Qed.

Lemma of_MUL_spec sg thr cp fl ws l r ls : represents thr (Abs fl ws (r :: l :: ls)) -> length l = length r ->
  runs_to (of_MUL thr cp) (pc thr) (Abs fl ws (arith2 sg Z.mul l r :: ls)).
Proof using.
  intros H Hl. operands. edestruct (mul_op sg) as (v & E & V); [exact Hl|eauto..|].
  unfold of_MUL. cbn. rewrite E. finish.
Qed.

(** The operands of an instruction with an immediate vector. *)
Record imm_ok cp (wid : nat) : Prop := ImmOk {
  imm_wid : Z.to_nat (number cp) = wid;
  imm_pos : (0 < wid)%nat;
  imm_a : is_word (bit_idx0 cp);
  imm_b : 0 <= bit_idx1 cp;
}.

Abbreviation imm cp wid := (imm_bits wid (bit_idx0 cp) (bit_idx1 cp)).

Lemma immediate_is cp wid : imm_ok cp wid -> exists v, immediate cp = Some v /\ vec_is v (imm cp wid).
Proof using. intros []. by apply immediate_spec. Qed.

Lemma length_imm wid a b : length (imm_bits wid a b) = wid.
Proof using. apply length_map_bits. Qed.

Lemma of_ADDI_spec sg thr cp fl ws l ls : represents thr (Abs fl ws (l :: ls)) -> imm_ok cp (length l) ->
  runs_to (of_ADDI thr cp) (pc thr) (Abs fl ws (arith2 sg Z.add l (imm cp (length l)) :: ls)).
Proof using.
  intros H Hi. destruct (immediate_is _ _ Hi) as (u & Ei & Vi). operands.
  edestruct (add_op sg) as (v & E & V); [symmetry; apply length_imm|eauto..|].
  unfold of_ADDI. cbn. rewrite Ei. cbn. rewrite E. finish.
Qed.

Lemma of_SUBI_spec sg thr cp fl ws l ls : represents thr (Abs fl ws (l :: ls)) -> imm_ok cp (length l) ->
  runs_to (of_SUBI thr cp) (pc thr) (Abs fl ws (arith2 sg Z.sub l (imm cp (length l)) :: ls)).
Proof using.
  intros H Hi. destruct (immediate_is _ _ Hi) as (u & Ei & Vi). operands.
  edestruct (sub_op sg) as (v & E & V); [symmetry; apply length_imm|eauto..|].
  unfold of_SUBI. cbn. rewrite Ei. cbn. rewrite E. finish.
Qed.

Lemma of_MULI_spec sg thr cp fl ws l ls : represents thr (Abs fl ws (l :: ls)) -> imm_ok cp (length l) ->
  runs_to (of_MULI thr cp) (pc thr) (Abs fl ws (arith2 sg Z.mul l (imm cp (length l)) :: ls)).
Proof using.
  intros H Hi. destruct (immediate_is _ _ Hi) as (u & Ei & Vi). operands.
  edestruct (mul_op sg) as (v & E & V); [symmetry; apply length_imm|eauto..|].
  unfold of_MULI. cbn. rewrite Ei. cbn. rewrite E. finish.
Qed.

(** ** Bitwise operators and reductions *)

Lemma zip_op f op vl vr l r : length l = length r -> vec_is vl l -> vec_is vr r ->
  (vec_wf vl -> vec_wf vr -> size vl = size vr -> bitwise (op vl vr) (size vl) (fun i => f (value vl i) (value vr i))) ->
  vec_is (op vl vr) (zip_bits f l r).
Proof using.
  intros Hl [Wl Sl Bl] [Wr Sr Br] H. destruct (H Wl Wr ltac:(congruence)) as (W & S & B).
  apply vec_is_map; [done|congruence|]. intros i Hi. by rewrite B, Bl, Br by congruence.
Qed.

Lemma not_op v l : vec_is v l -> vec_is (invert v) (not_bits l).
Proof using.
  intros [W S B]. destruct (invert_spec v W) as (W' & S' & B'). apply vec_is_map; [done|congruence|].
  intros i Hi. by rewrite B', B by congruence.
Qed.

Lemma not_zip f l r : not_bits (zip_bits f l r) = zip_bits (fun a b => bit4_not (f a b)) l r.
Proof using.
  apply bits_eq; unfold not_bits; autorewrite with bits_len; [done|]. intros i Hi.
  unfold zip_bits. by rewrite !bit_at_map.
Qed.

Lemma and_op vl vr l r : length l = length r -> vec_is vl l -> vec_is vr r -> vec_is (vec4_and vl vr) (zip_bits bit4_and l r).
Proof using. intros. apply zip_op; [done..|]. intros W1 W2 S. by destruct (vec4_bitwise_correct _ _ W1 W2 S) as (? & ? & ?). Qed.
Lemma or_op vl vr l r : length l = length r -> vec_is vl l -> vec_is vr r -> vec_is (vec4_or vl vr) (zip_bits bit4_or l r).
Proof using. intros. apply zip_op; [done..|]. intros W1 W2 S. by destruct (vec4_bitwise_correct _ _ W1 W2 S) as (? & ? & ?). Qed.
Lemma xor_op vl vr l r : length l = length r -> vec_is vl l -> vec_is vr r -> vec_is (vec4_xor vl vr) (zip_bits bit4_xor l r).
Proof using. intros. apply zip_op; [done..|]. intros W1 W2 S. by destruct (vec4_bitwise_correct _ _ W1 W2 S) as (? & ? & ?). Qed.

Lemma bitwise_code_spec op (f : vvp_bit4_t -> vvp_bit4_t -> vvp_bit4_t) thr fl ws l r ls :
  represents thr (Abs fl ws (r :: l :: ls)) -> length l = length r ->
  (forall vl vr, vec_is vl l -> vec_is vr r -> vec_is (op vl vr) (zip_bits f l r)) ->
  runs_to (bitwise_code op thr) (pc thr) (Abs fl ws (zip_bits f l r :: ls)).
Proof using.
  intros H Hl Hop. operands. unfold bitwise_code. cbn.
  match goal with V : vec_is ?a l, W : vec_is ?b r |- _ => rewrite (is_size a l V), (is_size b r W), Hl, Nat.eqb_refl end.
  cbn. finish. by apply Hop.
Qed.

Definition nand_bit a b := bit4_not (bit4_and a b).
Definition nor_bit a b := bit4_not (bit4_or a b).
Definition xnor_bit a b := bit4_not (bit4_xor a b).

Ltac bitwise_opcode L := intros H Hl; apply bitwise_code_spec; [exact H|exact Hl|intros; by apply L].
Ltac inverted_opcode L f := intros H Hl; apply bitwise_code_spec; [exact H|exact Hl|intros; rewrite <- (not_zip f); by apply not_op, L].

Lemma of_AND_spec thr cp fl ws l r ls : represents thr (Abs fl ws (r :: l :: ls)) -> length l = length r ->
  runs_to (of_AND thr cp) (pc thr) (Abs fl ws (zip_bits bit4_and l r :: ls)).
Proof using. bitwise_opcode and_op. Qed.
Lemma of_XOR_spec thr cp fl ws l r ls : represents thr (Abs fl ws (r :: l :: ls)) -> length l = length r ->
  runs_to (of_XOR thr cp) (pc thr) (Abs fl ws (zip_bits bit4_xor l r :: ls)).
Proof using. bitwise_opcode xor_op. Qed.
Lemma of_NAND_spec thr cp fl ws l r ls : represents thr (Abs fl ws (r :: l :: ls)) -> length l = length r ->
  runs_to (of_NAND thr cp) (pc thr) (Abs fl ws (zip_bits nand_bit l r :: ls)).
Proof using. inverted_opcode and_op bit4_and. Qed.
Lemma of_NOR_spec thr cp fl ws l r ls : represents thr (Abs fl ws (r :: l :: ls)) -> length l = length r ->
  runs_to (of_NOR thr cp) (pc thr) (Abs fl ws (zip_bits nor_bit l r :: ls)).
Proof using. inverted_opcode or_op bit4_or. Qed.
Lemma of_XNOR_spec thr cp fl ws l r ls : represents thr (Abs fl ws (r :: l :: ls)) -> length l = length r ->
  runs_to (of_XNOR thr cp) (pc thr) (Abs fl ws (zip_bits xnor_bit l r :: ls)).
Proof using. inverted_opcode xor_op bit4_xor. Qed.
Lemma of_OR_spec thr cp fl ws l r ls : represents thr (Abs fl ws (r :: l :: ls)) -> length l = length r ->
  runs_to (of_OR thr cp) (pc thr) (Abs fl ws (zip_bits bit4_or l r :: ls)).
Proof using. intros H Hl. operands. finish. by apply or_op. Qed.

Lemma of_INV_spec thr cp fl ws l ls : represents thr (Abs fl ws (l :: ls)) ->
  runs_to (of_INV thr cp) (pc thr) (Abs fl ws (not_bits l :: ls)).
Proof using. intros H. operands. finish. by apply not_op. Qed.

Lemma reduce_code_spec f b thr fl ws l ls : represents thr (Abs fl ws (l :: ls)) ->
  (forall v, vec_is v l -> f v = b) -> runs_to (reduce_code f thr) (pc thr) (Abs fl ws ([b] :: ls)).
Proof using.
  intros H Hf. operands. unfold reduce_code. cbn.
  match goal with V : vec_is ?v l |- _ => rewrite (Hf v V) end. finish. apply vec_is_bit.
Qed.

Lemma reduce_op v l : vec_is v l -> (0 < length l)%nat ->
  reduce_and v = foldr bit4_and BIT4_1 l /\ reduce_or v = foldr bit4_or BIT4_0 l /\ reduce_xor v = foldr bit4_xor BIT4_0 l.
Proof using.
  intros V H. destruct (vec4_reduce_correct v) as (Eo & Ea & Ex); [apply V|by rewrite (is_size v l)|].
  by rewrite Eo, Ea, Ex, (bits_of_is v l).
Qed.

Definition or_all (l : bits) := foldr bit4_or BIT4_0 l.
Definition and_all (l : bits) := foldr bit4_and BIT4_1 l.
Definition xor_all (l : bits) := foldr bit4_xor BIT4_0 l.

Ltac reduce_opcode := intros H Hl; (eapply reduce_code_spec; [exact H|]); intros v V; destruct (reduce_op v _ V Hl) as (E1 & E2 & E3); rewrite ?E1, ?E2, ?E3; reflexivity.

Lemma of_ANDR_spec thr cp fl ws l ls : represents thr (Abs fl ws (l :: ls)) -> (0 < length l)%nat ->
  runs_to (of_ANDR thr cp) (pc thr) (Abs fl ws ([and_all l] :: ls)).
Proof using. reduce_opcode. Qed.
Lemma of_NANDR_spec thr cp fl ws l ls : represents thr (Abs fl ws (l :: ls)) -> (0 < length l)%nat ->
  runs_to (of_NANDR thr cp) (pc thr) (Abs fl ws ([bit4_not (and_all l)] :: ls)).
Proof using. reduce_opcode. Qed.
Lemma of_ORR_spec thr cp fl ws l ls : represents thr (Abs fl ws (l :: ls)) -> (0 < length l)%nat ->
  runs_to (of_ORR thr cp) (pc thr) (Abs fl ws ([or_all l] :: ls)).
Proof using. reduce_opcode. Qed.
Lemma of_NORR_spec thr cp fl ws l ls : represents thr (Abs fl ws (l :: ls)) -> (0 < length l)%nat ->
  runs_to (of_NORR thr cp) (pc thr) (Abs fl ws ([bit4_not (or_all l)] :: ls)).
Proof using. reduce_opcode. Qed.
Lemma of_XORR_spec thr cp fl ws l ls : represents thr (Abs fl ws (l :: ls)) -> (0 < length l)%nat ->
  runs_to (of_XORR thr cp) (pc thr) (Abs fl ws ([xor_all l] :: ls)).
Proof using. reduce_opcode. Qed.
Lemma of_XNORR_spec thr cp fl ws l ls : represents thr (Abs fl ws (l :: ls)) -> (0 < length l)%nat ->
  runs_to (of_XNORR thr cp) (pc thr) (Abs fl ws ([bit4_not (xor_all l)] :: ls)).
Proof using. reduce_opcode. Qed.
End Spec.
