(* ===== verification/ThreadCmp.v ===== *)
(** * ThreadCmp: what the comparison opcodes leave in the flags *)

From S2P Require Import Prelude FourState Vector4 Vector4Value Vector4Ops Vector4Arith Vector4Reduce Vector4Conv Vector4Array.
From S2P Require Import Bits Thread ThreadSpec.
Import Bit4.

Open Scope ivl_scope.

(** ** Pairs of bits *)

Lemma some_pair_false f l r : some_pair f l r = false <-> forall i, (i < length l)%nat -> f (bit_at l i) (bit_at r i) = false.
Proof.
  unfold some_pair. rewrite <- not_true_iff_false, existsb_exists. split.
  - intros H i Hi. apply not_true_iff_false. intros Hf. apply H. exists i. rewrite in_seq. split; [lia|done].
  - intros H (i & Hi & Hf). apply in_seq in Hi. rewrite H in Hf by lia. done.
Qed.

Lemma some_pair_ext f g l r : (forall i, (i < length l)%nat -> f (bit_at l i) (bit_at r i) = g (bit_at l i) (bit_at r i)) ->
  some_pair f l r = some_pair g l r.
Proof. intros H. apply existsb_ext_in. intros i Hi. apply in_seq in Hi. apply H. lia. Qed.

Lemma known_pair (l r : bits) i : length l = length r -> has_unknown l || has_unknown r = false -> (i < length l)%nat ->
  bit4_is_xz (bit_at l i) = false /\ bit4_is_xz (bit_at r i) = false.
Proof. intros Hl [Xl Xr]%orb_false_iff Hi. rewrite has_unknown_false in *. split; [by apply Xl|apply Xr; lia]. Qed.

(** Without x and z all the equalities agree. *)
Lemma known_eq_bits l r : length l = length r -> has_unknown l || has_unknown r = false ->
  eq_bit l r = case_eq_bit l r /\ wild_eq_bit l r = case_eq_bit l r.
Proof.
  intros Hl Hx. unfold eq_bit, wild_eq_bit, case_eq_bit.
  assert (E1 : some_pair known_differ l r = some_pair unequal l r).
  { apply some_pair_ext. intros i Hi. unfold known_differ, unequal. destruct (known_pair l r i Hl Hx Hi) as [-> ->]. done. }
  assert (E2 : some_pair unknown l r = false).
  { apply some_pair_false. intros i Hi. unfold unknown. by destruct (known_pair l r i Hl Hx Hi) as [-> ->]. }
  assert (E3 : some_pair left_unknown l r = false).
  { apply some_pair_false. intros i Hi. unfold left_unknown. by destruct (known_pair l r i Hl Hx Hi) as [-> ->]. }
  rewrite E1, E2, E3. done.
Qed.

Lemma case_eq_iff (l r : bits) : length l = length r -> case_eq_bit l r = (if decide (l = r) then BIT4_1 else BIT4_0).
Proof.
  intros Hl. unfold case_eq_bit. destruct (decide (l = r)) as [->|Hne].
  - replace (some_pair unequal r r) with false; [done|]. symmetry. apply some_pair_false. intros i _.
    unfold unequal. by rewrite bool_decide_true.
  - destruct (some_pair unequal l r) eqn:E; [done|]. exfalso. apply Hne. apply bits_eq; [done|]. intros i Hi.
    rewrite some_pair_false in E. specialize (E i Hi). unfold unequal in E. apply negb_false_iff in E. by apply bool_decide_eq_true in E.
Qed.

Lemma eeq_is vl vr l r : vec_is vl l -> vec_is vr r -> length l = length r -> (0 < length l)%nat ->
  (if eeq vl vr then BIT4_1 else BIT4_0) = case_eq_bit l r.
Proof.
  intros Vl Vr Hl H0. rewrite case_eq_iff by done.
  destruct (vec4_tests_correct vl vr) as (_ & He & _); [apply Vl|apply Vr|by rewrite (is_size vl l)|].
  destruct (decide (l = r)) as [E|E].
  - replace (eeq vl vr) with true; [done|]. symmetry. apply He. rewrite (is_size vl l), (is_size vr r) by done.
    split; [done|]. intros i Hi. rewrite (is_bits vl l), (is_bits vr r), E by done. done.
  - destruct (eeq vl vr); [|done]. exfalso. apply E. destruct (proj1 He eq_refl) as [_ Hb]. apply bits_eq; [done|]. intros i Hi.
    rewrite <- (is_bits vl l), <- (is_bits vr r) by done. apply Hb. by rewrite (is_size vl l).
Qed.

Lemma has_xz_is v l : vec_is v l -> (0 < length l)%nat -> has_xz v = has_unknown l.
Proof. intros V H. rewrite has_xz_spec; [by apply any_xz_is|apply V|by rewrite (is_size v l)]. Qed.

(** ** The bit loops *)

Lemma cmpe_loop_spec lv rv n : forall idx eq eeq, eq <> BIT4_0 ->
  cmpe_loop n idx lv rv eq eeq =
    (if existsb (fun i => known_differ (value lv i) (value rv i)) (seq idx n) then BIT4_0
     else if bool_decide (eq = BIT4_1) && existsb (fun i => unknown (value lv i) (value rv i)) (seq idx n) then BIT4_X else eq,
     if existsb (fun i => unequal (value lv i) (value rv i)) (seq idx n) then BIT4_0 else eeq).
Proof.
  induction n as [|n IH]; intros idx eq eeq He; cbn [cmpe_loop seq existsb]; [by rewrite andb_false_r|].
  destruct eq; try done; destruct (value lv idx), (value rv idx); cbn; rewrite ?IH by done; cbn;
    repeat match goal with |- context [existsb ?f ?l] => destruct (existsb f l) end; reflexivity.
Qed.

Lemma pairs_is f vl vr l r : vec_is vl l -> vec_is vr r ->
  existsb (fun i => f (value vl i) (value vr i)) (seq 0 (length l)) = some_pair f l r.
Proof. intros [_ _ Bl] [_ _ Br]. apply existsb_ext_in. intros i _. by rewrite Bl, Br. Qed.

Lemma cmpe_loop_is vl vr l r : vec_is vl l -> vec_is vr r ->
  cmpe_loop (length l) 0 vl vr BIT4_1 BIT4_1 = (eq_bit l r, case_eq_bit l r).
Proof. intros Vl Vr. rewrite cmpe_loop_spec by done. by rewrite !(pairs_is _ vl vr l r Vl Vr). Qed.

Lemma cmpwe_loop_spec lv rv n : forall idx eq, eq <> BIT4_0 ->
  cmpwe_loop n idx lv rv eq =
    if existsb (fun i => known_differ (value lv i) (value rv i)) (seq idx n) then BIT4_0
    else if bool_decide (eq = BIT4_1) && existsb (fun i => left_unknown (value lv i) (value rv i)) (seq idx n) then BIT4_X else eq.
Proof.
  induction n as [|n IH]; intros idx eq He; cbn [cmpwe_loop seq existsb]; [by rewrite andb_false_r|].
  destruct eq; try done; destruct (value lv idx), (value rv idx); cbn; rewrite ?IH by done; cbn;
    repeat match goal with |- context [existsb ?f ?l] => destruct (existsb f l) end; reflexivity.
Qed.

(** ** The order *)

Definition low_num (l : bits) (n : nat) : Z := Zbits (fun i => is_one (bit_at l i)) n.

Lemma low_num_S l n : low_num l (S n) = low_num l n + Z.b2z (is_one (bit_at l n)) * 2 ^ Z.of_nat n.
Proof. unfold low_num. rewrite Zbits_S. lia. Qed.

Lemma low_num_range l n : 0 <= low_num l n < 2 ^ Z.of_nat n.
Proof. apply Zbits_range. Qed.

Lemma cmps_loop_spec vl vr l r n : vec_is vl l -> vec_is vr r -> length l = length r -> has_unknown l || has_unknown r = false ->
  (n <= length l)%nat ->
  match cmps_loop n vl vr with
  | None => low_num l n = low_num r n
  | Some lt => low_num l n <> low_num r n /\ lt = bit4_of_bool (low_num l n <? low_num r n)
  end.
Proof.
  intros Vl Vr Hl Hx. induction n as [|n IH]; intros Hn; cbn [cmps_loop]; [done|].
  rewrite (is_bits vl l), (is_bits vr r) by done. destruct (known_pair l r n Hl Hx ltac:(lia)) as [Kl Kr].
  pose proof (low_num_range l n). pose proof (low_num_range r n). specialize (IH ltac:(lia)).
  rewrite !low_num_S. unfold is_one.
  destruct (decide (bit_at l n = bit_at r n)) as [->|Hne].
  - destruct (cmps_loop n vl vr); [|by rewrite IH]. destruct IH as [Hd ->]. split; [lia|].
    f_equal. apply eq_true_iff_eq. rewrite !Z.ltb_lt. lia.
  - destruct (bit_at l n), (bit_at r n); try done; cbn [Z.b2z bool_decide decide_rel] in *.
    + change (bool_decide (BIT4_0 = BIT4_1)) with false. change (bool_decide (BIT4_1 = BIT4_1)) with true. cbn [Z.b2z].
      rewrite (proj2 (Z.ltb_lt _ _)) by lia. split; [lia|done].
    + change (bool_decide (BIT4_0 = BIT4_1)) with false. change (bool_decide (BIT4_1 = BIT4_1)) with true. cbn [Z.b2z].
      rewrite (proj2 (Z.ltb_ge _ _)) by lia. split; [lia|done].
Qed.

(** Known bits are the same list exactly if they are the same number. *)
Lemma unum_inj (l r : bits) : length l = length r -> has_unknown l || has_unknown r = false -> unum l = unum r -> l = r.
Proof.
  intros Hl Hx E. apply bits_eq; [done|]. intros i Hi. apply orb_false_iff in Hx as [Xl Xr].
  rewrite !known_bit_at by (done || lia). by rewrite E.
Qed.

Lemma num_inj sg (l r : bits) : length l = length r -> has_unknown l || has_unknown r = false -> num sg l = num sg r -> l = r.
Proof.
  intros Hl Hx E. apply unum_inj; [done|done|].
  rewrite <- (Z.mod_small (unum l) (2 ^ Z.of_nat (length l))), <- (Z.mod_small (unum r) (2 ^ Z.of_nat (length r))) by apply unum_range.
  rewrite <- (num_mod sg l (length l)), <- (num_mod sg r (length r)) by lia. by rewrite E, Hl.
Qed.

(** The signed number is the bits below the sign less its weight. *)
Lemma num_signed l : (0 < length l)%nat ->
  num true l = low_num l (length l - 1) - Z.b2z (is_one (bit_at l (length l - 1))) * 2 ^ Z.of_nat (length l - 1).
Proof.
  intros H. unfold num. change (unum l) with (low_num l (length l)). destruct (length l) as [|n] eqn:E; [lia|].
  rewrite low_num_S, Nat2Z.inj_succ, Z.pow_succ_r by lia. cbn [andb]. replace (S n - 1)%nat with n by lia.
  destruct (is_one (bit_at l n)); cbn [Z.b2z]; lia.
Qed.

(** ** The values as arrays of words *)

Lemma pval_pad (p : plane) n k : (forall i, (n <= i)%nat -> pbit p i = false) -> pval p (n + k) = pval p n.
Proof.
  intros H. induction k as [|k IH]; [by rewrite Nat.add_0_r|]. rewrite Nat.add_succ_r. unfold pval in *. rewrite Zbits_S, IH.
  rewrite H by lia. cbn [Z.b2z]. lia.
Qed.

(** [v.subarray(0, v.size())]: the words of the number, unless there is an x or z. *)
Lemma subarray_is v l : vec_is v l -> (0 < length l)%nat ->
  if has_unknown l then subarray v 0 (length l) false = None
  else exists val, subarray v 0 (length l) false = Some val /\ length val = word_count (length l) /\ Forall is_word val /\
    pval val (word_count (length l) * 64) = unum l /\
    (forall i, pbit val i = (i <? length l)%nat && is_one (bit_at l i)).
Proof.
  intros V H. rewrite <- (any_xz_is v l V). pose proof (is_size v l V) as S.
  pose proof (subarray_value v 0 (length l) false (is_wf v l V) H ltac:(lia)) as Hs.
  replace (field_has_xz v 0 (length l)) with (any_xz v) in Hs by (unfold field_has_xz, any_xz; by rewrite S).
  cbn [negb] in Hs. rewrite andb_true_r in Hs. destruct (any_xz v); [done|].
  destruct Hs as (val & E & Lv & Wv & Bv).
  assert (Hb : forall i, pbit val i = (i <? length l)%nat && is_one (bit_at l i)).
  { intros i. rewrite Bv, (is_bits v l) by done. done. }
  exists val. split; [done|]. split; [done|]. split; [done|]. split; [|done].
  pose proof (word_count_bounds (length l)).
  replace (word_count (length l) * 64)%nat with (length l + (word_count (length l) * 64 - length l))%nat by lia.
  rewrite pval_pad; [|intros i Hi; rewrite Hb; by decide_nat].
  apply Zbits_ext. intros i Hi. rewrite Hb. by decide_nat.
Qed.

Lemma cmpu_loop_spec (p q : plane) n : Forall is_word p -> Forall is_word q ->
  for_loop n 0 (fun wdx '(eq, lt) =>
    if p.[wdx] =? q.[wdx] then (eq, lt)
    else (BIT4_0, if p.[wdx] <? q.[wdx] then BIT4_1 else BIT4_0)) (BIT4_1, BIT4_0) =
  (if pval p (n * 64) =? pval q (n * 64) then BIT4_1 else BIT4_0, bit4_of_bool (pval p (n * 64) <? pval q (n * 64))).
Proof.
  intros Hp Hq.
  apply (for_loop_ind (fun k s => s = (if pval p (k * 64) =? pval q (k * 64) then BIT4_1 else BIT4_0,
    bit4_of_bool (pval p (k * 64) <? pval q (k * 64)))) n 0); [done|].
  intros k s Hk ->. rewrite !pval_words by done.
  pose proof (pval_range p (k * 64)). pose proof (pval_range q (k * 64)). set (M := 2 ^ Z.of_nat (k * 64)) in *.
  destruct (Z.eqb_spec p.[k] q.[k]) as [->|Hne].
  - f_equal; [|f_equal; apply eq_true_iff_eq; rewrite !Z.ltb_lt; lia].
    destruct (Z.eqb_spec (pval p (k * 64)) (pval q (k * 64))), (Z.eqb_spec (pval p (k * 64) + q.[k] * M) (pval q (k * 64) + q.[k] * M)); (done || lia).
  - destruct (Z.eqb_spec (pval p (k * 64) + p.[k] * M) (pval q (k * 64) + q.[k] * M)); [nia|]. f_equal.
    destruct (Z.ltb_spec p.[k] q.[k]), (Z.ltb_spec (pval p (k * 64) + p.[k] * M) (pval q (k * 64) + q.[k] * M)); (done || nia).
Qed.

(** ** Opcodes *)

Definition cmp_flags (fl : list vvp_bit4_t) (eq lt eeq : vvp_bit4_t) : list vvp_bit4_t :=
  <[6%nat := eeq]> (<[5%nat := lt]> (<[4%nat := eq]> fl)).

Definition eq_flags (fl : list vvp_bit4_t) (eq eeq : vvp_bit4_t) : list vvp_bit4_t :=
  <[6%nat := eeq]> (<[4%nat := eq]> fl).

(** What [do_X] does to a thread that has all of its flags. *)
Definition sets_flags (f : vthread_s -> vvp_vector4_t -> vvp_vector4_t -> option vthread_s) (l r : bits)
    (g : list vvp_bit4_t -> list vvp_bit4_t) : Prop :=
  forall thr vl vr, length (flags thr) = FLAGS_COUNT -> vec_is vl l -> vec_is vr r ->
    f thr vl vr = Some (with_flags thr (g (flags thr))).

Lemma set_flag_ok thr i b : length (flags thr) = FLAGS_COUNT -> (Z.to_nat i < FLAGS_COUNT)%nat ->
  set_flag thr i b = Some (with_flags thr (<[Z.to_nat i := b]> (flags thr))).
Proof. intros H Hi. unfold set_flag. rewrite H. by rewrite (proj2 (Nat.ltb_lt _ _)). Qed.

Ltac flag_step := rewrite set_flag_ok by (cbn [with_flags flags]; rewrite ?length_insert; (assumption || (unfold FLAGS_COUNT; lia))); cbn [mbind option_bind].

Lemma set_cmp_ok thr eq lt eeq : length (flags thr) = FLAGS_COUNT ->
  set_cmp thr eq lt eeq = Some (with_flags thr (cmp_flags (flags thr) eq lt eeq)).
Proof. intros H. unfold set_cmp. by do 3 flag_step. Qed.

Ltac same_sizes vl vr l r := rewrite (is_size vr r), (is_size vl l) by assumption;
  match goal with Hl : length l = length r |- _ => rewrite <- Hl, Nat.eqb_refl end.

Lemma do_CMPE_sets (l r : bits) : length l = length r -> (0 < length l)%nat ->
  sets_flags do_CMPE l r (fun fl => eq_flags fl (eq_bit l r) (case_eq_bit l r)).
Proof.
  intros Hl H0 thr vl vr Hf Vl Vr. unfold do_CMPE. same_sizes vl vr l r.
  rewrite (has_xz_is vl l), (has_xz_is vr r) by (done || lia). destruct (has_unknown l || has_unknown r) eqn:Hx.
  - rewrite (cmpe_loop_is vl vr l r Vl Vr). by do 2 flag_step.
  - destruct (known_eq_bits l r Hl Hx) as [E _]. rewrite <- (eeq_is vl vr l r Vl Vr Hl H0) in *. rewrite E.
    do 2 flag_step. cbn. f_equal. f_equal. unfold eq_flags. by apply list_insert_insert_ne.
Qed.

Lemma get_flag_ok fl thr i b : flags thr = fl -> fl !! Z.to_nat i = Some b -> get_flag thr i = Some b.
Proof. by intros <-. Qed.

Lemma do_CMPNE_sets (l r : bits) : length l = length r -> (0 < length l)%nat ->
  sets_flags do_CMPNE l r (fun fl => eq_flags fl (bit4_not (eq_bit l r)) (bit4_not (case_eq_bit l r))).
Proof.
  intros Hl H0 thr vl vr Hf Vl Vr. unfold do_CMPNE, invert_flag. rewrite (do_CMPE_sets l r) by done. cbn [mbind option_bind].
  assert (H4 : (4 < length (flags thr))%nat) by (rewrite Hf; unfold FLAGS_COUNT; lia).
  assert (H6 : (6 < length (flags thr))%nat) by (rewrite Hf; unfold FLAGS_COUNT; lia).
  erewrite (get_flag_ok _ _ 4) by (reflexivity || (cbn; unfold eq_flags; rewrite list_lookup_insert_ne by done; by apply list_lookup_insert_eq)).
  cbn [mbind option_bind]. unfold eq_flags.
  rewrite set_flag_ok by (cbn; unfold eq_flags; rewrite ?length_insert; (done || (unfold FLAGS_COUNT; lia))). cbn [mbind option_bind].
  erewrite (get_flag_ok _ _ 6) by (reflexivity || (cbn; rewrite list_lookup_insert_ne by done; apply list_lookup_insert_eq; by rewrite length_insert)).
  cbn [mbind option_bind]. rewrite set_flag_ok by (cbn; unfold eq_flags; rewrite ?length_insert; (done || (unfold FLAGS_COUNT; lia))).
  cbn. f_equal. f_equal. change (Pos.to_nat 4) with 4%nat. change (Pos.to_nat 6) with 6%nat.
  rewrite (list_insert_insert_ne _ 4 6) by done. by rewrite !list_insert_insert_eq.
Qed.

Lemma do_CMPWE_sets (l r : bits) : length l = length r -> (0 < length l)%nat ->
  sets_flags do_CMPWE l r (fun fl => <[4%nat := wild_eq_bit l r]> fl).
Proof.
  intros Hl H0 thr vl vr Hf Vl Vr. unfold do_CMPWE. same_sizes vl vr l r.
  rewrite (has_xz_is vl l), (has_xz_is vr r) by (done || lia). destruct (has_unknown l || has_unknown r) eqn:Hx; flag_step; f_equal; f_equal; f_equal.
  - rewrite cmpwe_loop_spec by done. by rewrite !(pairs_is _ vl vr l r Vl Vr).
  - destruct (known_eq_bits l r Hl Hx) as [_ ->]. by rewrite <- (eeq_is vl vr l r Vl Vr Hl H0).
Qed.

Lemma do_CMPWNE_sets (l r : bits) : length l = length r -> (0 < length l)%nat ->
  sets_flags (fun thr a b => thr ← do_CMPWE thr a b; invert_flag thr 4) l r (fun fl => <[4%nat := bit4_not (wild_eq_bit l r)]> fl).
Proof.
  intros Hl H0 thr vl vr Hf Vl Vr. rewrite (do_CMPWE_sets l r) by done. cbn [mbind option_bind]. unfold invert_flag.
  assert (H4 : (4 < length (flags thr))%nat) by (rewrite Hf; unfold FLAGS_COUNT; lia).
  erewrite (get_flag_ok _ _ 4) by (reflexivity || (cbn; by apply list_lookup_insert_eq)).
  cbn [mbind option_bind]. rewrite set_flag_ok by (cbn; rewrite ?length_insert; (done || (unfold FLAGS_COUNT; lia))).
  cbn. change (Pos.to_nat 4) with 4%nat. by rewrite list_insert_insert_eq.
Qed.

Lemma do_CMPU_sets (l r : bits) : length l = length r -> (0 < length l)%nat ->
  sets_flags do_CMPU l r (fun fl => cmp_flags fl (eq_bit l r) (order_bit false Z.ltb l r) (case_eq_bit l r)).
Proof.
  intros Hl H0 thr vl vr Hf Vl Vr. unfold do_CMPU. same_sizes vl vr l r.
  assert (Hhard : has_unknown l || has_unknown r = true -> of_CMPU_the_hard_way thr (length l) vl vr =
    Some (with_flags thr (cmp_flags (flags thr) (eq_bit l r) (order_bit false Z.ltb l r) (case_eq_bit l r)))).
  { intros Hx. unfold of_CMPU_the_hard_way, order_bit. rewrite Hx, (cmpe_loop_is vl vr l r Vl Vr). by apply set_cmp_ok. }
  pose proof (subarray_is vl l Vl H0) as Sl. pose proof (subarray_is vr r Vr ltac:(lia)) as Sr. rewrite <- Hl in Sr.
  destruct (has_unknown l) eqn:Xl; [rewrite Sl; by apply Hhard|].
  destruct Sl as (p & -> & _ & Wp & Np & _).
  destruct (has_unknown r) eqn:Xr; [rewrite Sr; by apply Hhard|].
  destruct Sr as (q & -> & _ & Wq & Nq & _).
  rewrite cmpu_loop_spec by done. rewrite Np, Nq, set_cmp_ok by done. f_equal. f_equal.
  assert (Hx : has_unknown l || has_unknown r = false) by (by rewrite Xl, Xr).
  destruct (known_eq_bits l r Hl Hx) as [-> _]. unfold order_bit. rewrite Hx.
  replace (if unum l =? unum r then BIT4_1 else BIT4_0) with (case_eq_bit l r); [done|].
  rewrite case_eq_iff by done. destruct (decide (l = r)) as [->|Hne]; [by rewrite Z.eqb_refl|].
  rewrite (proj2 (Z.eqb_neq _ _)); [done|]. intros E. apply Hne. by apply unum_inj.
Qed.

Definition signed_eq (l r : bits) : vvp_bit4_t := if has_unknown l || has_unknown r then BIT4_X else eq_bit l r.

Lemma do_CMPS_sets (l r : bits) : length l = length r -> (0 < length l)%nat ->
  sets_flags do_CMPS l r (fun fl => cmp_flags fl (signed_eq l r) (order_bit true Z.ltb l r) (case_eq_bit l r)).
Proof.
  intros Hl H0 thr vl vr Hf Vl Vr. unfold do_CMPS. same_sizes vl vr l r. unfold signed_eq, order_bit.
  rewrite (has_xz_is vl l), (has_xz_is vr r) by (done || lia).
  destruct (has_unknown l || has_unknown r) eqn:Hx; [rewrite (eeq_is vl vr l r) by done; by apply set_cmp_ok|].
  destruct (known_eq_bits l r Hl Hx) as [-> _]. rewrite case_eq_iff by done.
  rewrite (is_bits vl l), (is_bits vr r) by done.
  pose proof (num_signed l H0) as Nl. pose proof (num_signed r ltac:(lia)) as Nr. rewrite <- Hl in Nr.
  pose proof (cmps_loop_spec vl vr l r (length l - 1) Vl Vr Hl Hx ltac:(lia)) as Hc.
  destruct (known_pair l r (length l - 1) Hl Hx ltac:(lia)) as [Kl Kr].
  pose proof (low_num_range l (length l - 1)). pose proof (low_num_range r (length l - 1)).
  set (M := 2 ^ Z.of_nat (length l - 1)) in *.
  assert (Hsame : bit_at l (length l - 1) = bit_at r (length l - 1) ->
    match cmps_loop (length l - 1) vl vr with
    | Some lt => set_cmp thr BIT4_0 lt BIT4_0 | None => set_cmp thr BIT4_1 BIT4_0 BIT4_1 end =
    Some (with_flags thr (cmp_flags (flags thr) (if decide (l = r) then BIT4_1 else BIT4_0)
      (bit4_of_bool (num true l <? num true r)) (if decide (l = r) then BIT4_1 else BIT4_0)))).
  { intros E. rewrite Nl, Nr, E. destruct (cmps_loop _ _ _) as [lt|].
    - destruct Hc as [Hd ->]. rewrite decide_False by (intros ->; done). rewrite set_cmp_ok by done.
      assert (Hs : forall a b c, (a - c <? b - c) = (a <? b)) by (intros; apply eq_true_iff_eq; rewrite !Z.ltb_lt; lia).
      by rewrite Hs.
    - rewrite decide_True by (apply (num_inj true); [done..|]; rewrite Nl, Nr, E, Hc; lia).
      rewrite set_cmp_ok by done. by rewrite Hc, Z.ltb_irrefl. }
  assert (Hdiff : bit_at l (length l - 1) <> bit_at r (length l - 1) -> l <> r) by (intros Hne ->; done).
  destruct (bit_at l (length l - 1)) eqn:El, (bit_at r (length l - 1)) eqn:Er; try done.
  - by apply Hsame.
  - change (bool_decide (BIT4_0 = BIT4_1)) with false. change (bool_decide (BIT4_1 = BIT4_0)) with false.
    change (bool_decide (BIT4_0 = BIT4_0)) with true. change (bool_decide (BIT4_1 = BIT4_1)) with true. cbn [andb].
    rewrite decide_False by (by apply Hdiff). rewrite set_cmp_ok, Nl, Nr by done.
    change (is_one BIT4_0) with false. change (is_one BIT4_1) with true. cbn [Z.b2z].
    by rewrite (proj2 (Z.ltb_ge _ _)) by lia.
  - change (bool_decide (BIT4_1 = BIT4_1)) with true. change (bool_decide (BIT4_0 = BIT4_0)) with true. cbn [andb].
    rewrite decide_False by (by apply Hdiff). rewrite set_cmp_ok, Nl, Nr by done.
    change (is_one BIT4_0) with false. change (is_one BIT4_1) with true. cbn [Z.b2z].
    by rewrite (proj2 (Z.ltb_lt _ _)) by lia.
  - by apply Hsame.
Qed.

Section Opcodes.
Context {O : Type}.
Implicit Types (cp : vvp_code_s O).

Lemma compare_code_spec f g thr fl ws l r ls : represents thr (Abs fl ws (r :: l :: ls)) -> length fl = FLAGS_COUNT ->
  sets_flags f l r g -> runs_to (compare_code f thr) (pc thr) (Abs (g fl) ws ls).
Proof using.
  intros H Hf Hg. operands. unfold compare_code. cbn. erewrite Hg by eassumption. cbn. finish.
Qed.

Lemma wild_code_spec f thr fl ws l r ls : represents thr (Abs fl ws (r :: l :: ls)) -> length fl = FLAGS_COUNT -> length l = length r ->
  runs_to (wild_code f thr) (pc thr) (Abs (<[4%nat := if some_pair f l r then BIT4_0 else BIT4_1]> fl) ws ls).
Proof using.
  intros H Hf Hl. operands. unfold wild_code. cbn -[seq].
  match goal with V : vec_is ?vl l, V' : vec_is ?vr r |- _ => rewrite (is_size vl l V), (is_size vr r V'), Hl, Nat.eqb_refl, <- Hl, (pairs_is f vl vr l r V V') end.
  cbn [with_stack]. flag_step. finish.
Qed.

Lemma of_CMPX_spec thr cp fl ws l r ls : represents thr (Abs fl ws (r :: l :: ls)) -> length fl = FLAGS_COUNT -> length l = length r ->
  runs_to (of_CMPX thr cp) (pc thr) (Abs (<[4%nat := casex_bit l r]> fl) ws ls).
Proof using.
  intros H Hf Hl. unfold casex_bit. rewrite (some_pair_ext known_differ (fun lv rv => negb (bool_decide (lv = rv)) && negb (bit4_is_xz lv) && negb (bit4_is_xz rv))).
  - by apply wild_code_spec.
  - intros i _. unfold known_differ. by destruct (bit_at l i), (bit_at r i).
Qed.

Lemma of_CMPZ_spec thr cp fl ws l r ls : represents thr (Abs fl ws (r :: l :: ls)) -> length fl = FLAGS_COUNT -> length l = length r ->
  runs_to (of_CMPZ thr cp) (pc thr) (Abs (<[4%nat := casez_bit l r]> fl) ws ls).
Proof using. by apply wild_code_spec. Qed.

Lemma comparei_code_spec f g thr cp fl ws l ls : represents thr (Abs fl ws (l :: ls)) -> length fl = FLAGS_COUNT ->
  imm_ok cp (length l) -> sets_flags f l (imm_bits (length l) (bit_idx0 cp) (bit_idx1 cp)) g ->
  runs_to (comparei_code f thr cp) (pc thr) (Abs (g fl) ws ls).
Proof using.
  intros H Hf Hi Hg. destruct (immediate_is _ _ Hi) as (u & Ei & Vi). operands. unfold comparei_code. cbn. rewrite Ei. cbn.
  erewrite Hg by eassumption. cbn. finish.
Qed.
End Opcodes.
