(* ===== verification/ThreadData.v ===== *)
(** * ThreadData: what the opcodes that move bits, flags and words do *)

From S2P Require Import Prelude FourState Vector4 Vector4Value Vector4Ops Vector4Parts Vector4Copy Vector4Arith Vector4Conv.
From S2P Require Import Vector4Array Bits Thread ThreadSpec ThreadCmp.
Import Bit4.

Open Scope ivl_scope.

(** ** Parts *)

Lemma set_vec_is v adr w l r : vec_is v l -> vec_is w r -> (adr + length r <= length l)%nat -> (0 < length r)%nat ->
  exists v' d, set_vec v adr w = Some (v', d) /\
    vec_is v' (map_bits (length l) (fun i =>
      if ((adr <=? i) && (i <? adr + length r))%nat then bit_at r (i - adr) else bit_at l i)).
Proof.
  intros V W Ha H0. destruct (set_vec_spec v w adr) as (v' & d & E & Wf & S & B & _).
  { apply V. } { apply W. } { by rewrite (is_size v l), (is_size w r). } { by rewrite (is_size w r). }
  exists v', d. split; [done|]. apply vec_is_map; [done|rewrite S; apply V|]. intros i Hi.
  rewrite B by (rewrite (is_size v l); done). rewrite (is_size w r), (is_bits v l), (is_bits w r) by done. done.
Qed.

(** Writing nothing at the beginning changes nothing. *)
Lemma set_vec_empty v w : vec_wf v -> size w = 0%nat -> exists d, set_vec v 0 w = Some (v, d).
Proof.
  intros [[La _] [Lb _]] Hw. unfold set_vec. rewrite Hw. cbn [Nat.add Nat.leb].
  assert (Hp : forall p q : plane, length p = storage (size v) -> set_plane (size v) 0 0 q p = (false, p)).
  { intros p q Lp. pose proof (storage_bound (size v)) as [_ Hs].
    assert (Hput : forall tmp, put_at 0 0 (tmp .& 0) (false, p) = (false, p)).
    { intros tmp. unfold put_at, put_word. rewrite !Z.land_0_r, Z.eqb_refl. cbn. f_equal.
      apply list_insert_id. unfold word_at. destruct p as [|w0 p]; [simpl in Lp; lia|done]. }
    unfold set_plane. destruct (is_long (size v)); cbn [negb Nat.div Nat.modulo Nat.add]; apply Hput. }
  rewrite !Hp by done. exists false. by destruct v.
Qed.

Lemma subvalue_is v l adr wid : vec_is v l -> vec_is (subvalue v adr wid) (map_bits wid (fun i => bit_at l (adr + i))).
Proof.
  intros V. destruct (subvalue_spec v adr wid (is_wf v l V)) as (W & S & B).
  apply vec_is_map; [done|done|]. intros i Hi. by rewrite B, (is_bits v l).
Qed.

Lemma resize_is v l n c : vec_is v l -> vec_is (resize v n c) (map_bits n (fun i => if (i <? length l)%nat then bit_at l i else c)).
Proof.
  intros V. destruct (resize_correct v n c (is_wf v l V)) as (W & S & B). apply vec_is_map; [done|done|].
  intros i Hi. by rewrite B, (is_size v l), (is_bits v l).
Qed.

(** [res.set_vec(vbase, value.subvalue(base, wid))] on a result of x bits. *)
Lemma part_of_spec v l base wid : vec_is v l -> (0 < wid)%nat -> (0 < length l)%nat -> Z.of_nat (length l + wid) < 2 ^ 31 -> - 2 ^ 31 <= base < 2 ^ 31 ->
  exists r, part_of v base wid = Some r /\ vec_is r (part_bits base wid l).
Proof.
  intros V H0 Hl0 Hl Hb. unfold part_of. rewrite (is_size v l V).
  assert (Hx : (forall i, (i < wid)%nat -> base + Z.of_nat i < 0 \/ Z.of_nat (length l) <= base + Z.of_nat i) ->
    exists r, Some (vec4_fill wid BIT4_X) = Some r /\ vec_is r (part_bits base wid l)).
  { intros Hout. eexists. split; [done|]. apply vec_is_map; [apply vec4_fill_wf|done|]. intros i Hi.
    rewrite vec4_fill_X. destruct (Z.leb_spec 0 (base + Z.of_nat i)); [|done]. symmetry. apply bit_at_beyond.
    specialize (Hout i Hi). lia. }
  destruct (Z.leb_spec (Z.of_nat (length l)) base); [apply Hx; lia|].
  assert (Hs : (s32 (base + Z.of_nat wid) <=? 0) = (base + Z.of_nat wid <=? 0)).
  { unfold s32. destruct (Z.lt_ge_cases base 0).
    - rewrite Z.mod_small by lia. f_equal. lia.
    - rewrite (proj2 (Z.leb_gt (base + Z.of_nat wid) 0)) by lia. apply Z.leb_gt.
      rewrite Z.mod_small; lia. }
  rewrite Hs. clear Hs. destruct (Z.leb_spec (base + Z.of_nat wid) 0); [apply Hx; lia|].
  assert (Hgo : forall vb b w, (vb = Z.to_nat (- base))%nat -> (b = Z.to_nat base)%nat ->
    w = Nat.min (wid - vb) (length l - b) ->
    exists r, ('(res, _) ← set_vec (vec4_fill wid BIT4_X) vb (subvalue v b w); Some res) = Some r /\ vec_is r (part_bits base wid l)).
  { intros vb b w -> -> Ew. pose proof (vec_is_fill wid BIT4_X) as Vx. pose proof (subvalue_is v l (Z.to_nat base) w V) as Vs.
    destruct (set_vec_is _ (Z.to_nat (- base)) _ _ _ Vx Vs) as (r & d & E & Vr).
    { rewrite length_map_bits, repeat_length. lia. } { rewrite length_map_bits. lia. }
    rewrite E. cbn. exists r. split; [done|]. eapply vec_is_ext; [exact Vr|]. rewrite repeat_length, length_map_bits.
    apply bits_eq; unfold part_bits; rewrite !length_map_bits; [done|]. intros i Hi. rewrite !(bit_at_map wid) by done.
    destruct (Nat.leb_spec (Z.to_nat (- base)) i); cbn [andb].
    - rewrite (proj2 (Z.leb_le 0 _)) by lia. destruct (Nat.ltb_spec i (Z.to_nat (- base) + w)).
      + rewrite bit_at_map by lia. f_equal. lia.
      + change (repeat BIT4_X wid) with (xs wid). rewrite bit_at_xs. symmetry. apply bit_at_beyond. lia.
    - rewrite (proj2 (Z.leb_gt 0 _)) by lia. change (repeat BIT4_X wid) with (xs wid). apply bit_at_xs. }
  destruct (Z.ltb_spec base 0); cbv zeta beta iota.
  - apply Hgo; [lia|lia|]. destruct (Nat.ltb_spec (length l) (0 + (wid - Z.to_nat (- base)))); lia.
  - apply Hgo; [lia|lia|]. destruct (Nat.ltb_spec (length l) (Z.to_nat base + wid)); lia.
Qed.

Section Opcodes.
Context {O : Type}.
Implicit Types (thr : vthread_s) (cp : vvp_code_s O).

Lemma of_PART_base_spec sg thr cp fl ws l b ls : represents thr (Abs fl ws (b :: l :: ls)) ->
  let wid := Z.to_nat (number cp) in
  (0 < wid)%nat -> (0 < length l)%nat -> Z.of_nat (length l + wid) < 2 ^ 31 ->
  runs_to (of_PART_base thr cp sg) (pc thr)
    (Abs fl ws ((if has_unknown (take 32 b) then xs wid else part_bits (s32 (num sg b)) wid l) :: ls)).
Proof using.
  intros H wid H0 Hl0 Hl. operands. unfold of_PART_base. cbn -[vector4_to_value part_of xs]. fold wid. rewrite vector4_to_value_spec by lia.
  match goal with V : vec_is ?v b |- _ => rename v into vb; rename V into Vb end.
  match goal with V : vec_is ?v l |- _ => rename v into vl; rename V into Vl end.
  replace (xz_below vb (Nat.min 32 (size vb))) with (has_unknown (take 32 b)).
  - destruct (has_unknown (take 32 b)) eqn:X; cbn [andb negb]; cbv iota.
    + finish. apply vec_is_fill.
    + rewrite (num_of_is sg vb b) by done. change (2 ^ Z.of_nat 32) with (2 ^ 32).
      assert (Es : s32 (num sg b mod 2 ^ 32) = s32 (num sg b)) by (unfold s32; by rewrite Zplus_mod_idemp_l).
      rewrite Es. destruct (part_of_spec vl l (s32 (num sg b)) wid) as (r & E & Vr); [done..| |].
      { unfold s32. pose proof (Z.mod_pos_bound (num sg b + 2 ^ 31) (2 ^ 32) ltac:(lia)). lia. }
      rewrite E. cbn. finish.
  - apply eq_true_iff_eq. unfold xz_below, has_unknown. rewrite !existsb_exists, (is_size vb b) by done. split.
    + intros (x & Hx & Kx). apply (In_nth _ _ BIT4_X) in Hx as (i & Hi & <-). rewrite length_take in Hi. exists i.
      rewrite in_seq. split; [lia|]. rewrite (is_bits vb b) by done.
      replace (bit_at b i) with (nth i (take 32 b) BIT4_X); [done|]. unfold bit_at. rewrite !nth_lookup, lookup_take_lt by lia. done.
    + intros (i & Hi & Kx). apply in_seq in Hi. rewrite (is_bits vb b) in Kx by done. exists (bit_at b i). split; [|done].
      replace (bit_at b i) with (nth i (take 32 b) BIT4_X) by (unfold bit_at; rewrite !nth_lookup, lookup_take_lt by lia; done).
      apply nth_In. rewrite length_take. lia.
Qed.

(** The base of [%parti], sign-extended from its width. *)
Definition parti_base (sg : bool) (base bwid : Z) : Z :=
  if sg && (bwid <? 32) && Z.testbit base (bwid - 1) then base - 2 ^ bwid else base.

Lemma parti_extend sg base bwid : 0 <= base < 2 ^ 32 -> 0 < bwid -> (bwid < 32 -> base < 2 ^ bwid) ->
  s32 (if sg && (bwid <? 32) && negb (base .& (Z.shiftl 1 (bwid - 1)) =? 0)
      then base .| (ones64 << Z.to_nat bwid) else base) = s32 (parti_base sg base bwid).
Proof using.
  intros Hb H0 Hw. unfold parti_base. destruct sg; [|done]. cbn [andb]. destruct (Z.ltb_spec bwid 32); [|done]. cbn [andb].
  assert (Et : negb (base .& (Z.shiftl 1 (bwid - 1)) =? 0) = Z.testbit base (bwid - 1)).
  { destruct (Z.testbit base (bwid - 1)) eqn:T.
    - apply negb_true_iff, Z.eqb_neq. intros E. apply (f_equal (fun z => Z.testbit z (bwid - 1))) in E.
      rewrite Z.land_spec, Z.shiftl_1_l, Z.pow2_bits_true, T, Z.bits_0 in E by lia. done.
    - apply negb_false_iff, Z.eqb_eq. apply Z.bits_inj'. intros i Hi. rewrite Z.land_spec, Z.shiftl_1_l, Z.bits_0.
      destruct (Z.eq_dec i (bwid - 1)) as [->|]; [by rewrite T|]. rewrite Z.pow2_bits_false by lia. apply andb_false_r. }
  rewrite Et. destruct (Z.testbit base (bwid - 1)); [|done]. specialize (Hw ltac:(lia)).
  assert (E : base .| (ones64 << Z.to_nat bwid) = base + 2 ^ 64 - 2 ^ bwid).
  { assert (Es : ones64 << Z.to_nat bwid = 2 ^ 64 - 2 ^ bwid).
    { unfold shl64, u64, ones64. rewrite Z2Nat.id, Z.shiftl_mul_pow2 by lia.
      pose proof (pow2_pos bwid ltac:(lia)). assert (2 ^ bwid < 2 ^ 64) by (apply Z.pow_lt_mono_r; lia).
      replace ((2 ^ 64 - 1) * 2 ^ bwid) with (2 ^ 64 - 2 ^ bwid + (2 ^ bwid - 1) * 2 ^ 64) by ring.
      rewrite Z_mod_plus_full. apply Z.mod_small. lia. }
    rewrite Es. replace (base + 2 ^ 64 - 2 ^ bwid) with (base + (2 ^ 64 - 2 ^ bwid)) by lia.
    rewrite <- Z.add_lor_land. replace (base .& (2 ^ 64 - 2 ^ bwid)) with 0; [lia|]. symmetry.
    replace (2 ^ 64 - 2 ^ bwid) with ((2 ^ (64 - bwid) - 1) * 2 ^ bwid)
      by (rewrite Z.mul_sub_distr_r, <- Z.pow_add_r by lia; f_equal; [f_equal; lia|lia]).
    apply Z.bits_inj'. intros i Hi. rewrite Z.land_spec, Z.bits_0, Z.mul_pow2_bits by lia.
    destruct (Z.lt_ge_cases i bwid); [rewrite (Z.testbit_neg_r _ (i - bwid)) by lia; apply andb_false_r|].
    rewrite <- (Z.mod_small base (2 ^ bwid)) by lia. by rewrite Z.mod_pow2_bits_high by lia. }
  rewrite E. unfold s32. replace (base + 2 ^ 64 - 2 ^ bwid + 2 ^ 31) with (base - 2 ^ bwid + 2 ^ 31 + 2 ^ 32 * 2 ^ 32) by lia.
  by rewrite Z_mod_plus_full.
Qed.

Lemma of_PARTI_base_spec sg thr cp fl ws l ls : represents thr (Abs fl ws (l :: ls)) ->
  let wid := Z.to_nat (number cp) in
  (0 < wid)%nat -> (0 < length l)%nat -> Z.of_nat (length l + wid) < 2 ^ 31 ->
  0 <= bit_idx0 cp < 2 ^ 32 -> 0 < bit_idx1 cp -> (bit_idx1 cp < 32 -> bit_idx0 cp < 2 ^ bit_idx1 cp) ->
  runs_to (of_PARTI_base thr cp sg) (pc thr)
    (Abs fl ws (part_bits (s32 (parti_base sg (bit_idx0 cp) (bit_idx1 cp))) wid l :: ls)).
Proof using.
  intros H wid H0 Hl0 Hl Hb Hw Hbw. operands. unfold of_PARTI_base. cbn -[part_of]. fold wid. rewrite parti_extend by done.
  match goal with V : vec_is ?v l |- _ => destruct (part_of_spec v l (s32 (parti_base sg (bit_idx0 cp) (bit_idx1 cp))) wid) as (r & E & Vr); [done..| |] end.
  { unfold s32. pose proof (Z.mod_pos_bound (parti_base sg (bit_idx0 cp) (bit_idx1 cp) + 2 ^ 31) (2 ^ 32) ltac:(lia)). lia. }
  rewrite E. cbn. finish.
Qed.

(** ** Concatenation and width *)

Lemma concat_of_spec vm vl m l : vec_is vm m -> vec_is vl l -> (0 < length m)%nat -> (0 < length l)%nat ->
  exists r, concat_of vm vl = Some r /\ vec_is r (l ++ m).
Proof using.
  intros Vm Vl Hm Hl. unfold concat_of. rewrite (is_size vm m), (is_size vl l) by done.
  destruct (set_vec_is _ 0 _ _ _ (vec_is_fill (length m + length l) BIT4_X) Vl) as (r1 & d1 & E1 & V1).
  { rewrite repeat_length. lia. } { done. }
  rewrite E1. cbn [mbind option_bind]. destruct (set_vec_is _ (length l) _ _ _ V1 Vm) as (r2 & d2 & E2 & V2).
  { rewrite length_map_bits, repeat_length. lia. } { done. }
  rewrite E2. cbn [mbind option_bind]. exists r2. split; [done|]. eapply vec_is_ext; [exact V2|].
  rewrite length_map_bits, repeat_length. apply bits_eq; rewrite length_map_bits; [rewrite length_app; lia|]. intros i Hi.
  rewrite !(bit_at_map (length m + length l)) by done. unfold bit_at at 4. cbn [Nat.leb].
  destruct (Nat.lt_ge_cases i (length l)).
  - rewrite app_nth1 by done. decide_nat. by rewrite Nat.sub_0_r.
  - rewrite app_nth2 by lia. decide_nat. done.
Qed.

Lemma of_CONCAT_VEC4_spec thr cp fl ws l m ls : represents thr (Abs fl ws (l :: m :: ls)) -> (0 < length m)%nat -> (0 < length l)%nat ->
  runs_to (of_CONCAT_VEC4 thr cp) (pc thr) (Abs fl ws ((l ++ m) :: ls)).
Proof using.
  intros H Hm Hl. operands. match goal with Vl : vec_is ?a l, Vm : vec_is ?b m |- _ => destruct (concat_of_spec b a m l Vm Vl Hm Hl) as (r & E & Vr) end.
  unfold of_CONCAT_VEC4. cbn. rewrite E. cbn. finish.
Qed.

Lemma of_CONCATI_VEC4_spec thr cp fl ws m ls wid : represents thr (Abs fl ws (m :: ls)) -> (0 < length m)%nat -> imm_ok cp wid ->
  runs_to (of_CONCATI_VEC4 thr cp) (pc thr) (Abs fl ws ((imm_bits wid (bit_idx0 cp) (bit_idx1 cp) ++ m) :: ls)).
Proof using.
  intros H Hm Hi. destruct (immediate_is _ _ Hi) as (u & Ei & Vi). operands.
  match goal with Vm : vec_is ?b m |- _ => destruct (concat_of_spec b u m _ Vm Vi Hm) as (r & E & Vr); [rewrite length_imm; apply Hi|] end.
  unfold of_CONCATI_VEC4. cbn. rewrite Ei. cbn. rewrite E. cbn. finish.
Qed.

Fixpoint repeat_bits (n : nat) (l : bits) : bits := match n with Datatypes.O => [] | S n => l ++ repeat_bits n l end.

Lemma length_repeat_bits n l : length (repeat_bits n l) = (n * length l)%nat.
Proof using. induction n; [done|]. cbn. rewrite length_app. lia. Qed.

Lemma bit_at_repeat n l i : (i < n * length l)%nat -> bit_at (repeat_bits n l) i = bit_at l (i mod length l).
Proof using.
  revert i. induction n as [|n IH]; intros i Hi; [lia|]. cbn [repeat_bits]. unfold bit_at at 1.
  destruct (Nat.lt_ge_cases i (length l)).
  - rewrite app_nth1 by done. by rewrite Nat.mod_small.
  - rewrite app_nth2 by done. fold (bit_at (repeat_bits n l) (i - length l)). rewrite IH by lia. f_equal.
    rewrite <- (Nat.Div0.mod_add (i - length l) 1 (length l)). f_equal. lia.
Qed.

Lemma replicate_loop_spec v l total n : forall idx r m, vec_is v l -> (0 < length l)%nat -> vec_is r m ->
  length m = (total * length l)%nat -> (idx + n <= total)%nat ->
  exists r', replicate_loop n idx v r = Some r' /\
    vec_is r' (map_bits (length m) (fun i =>
      if ((idx * length l <=? i) && (i <? (idx + n) * length l))%nat then bit_at l (i mod length l) else bit_at m i)).
Proof using.
  induction n as [|n IH]; intros idx r m V H0 R Lm Ht; cbn [replicate_loop].
  - exists r. split; [done|]. eapply vec_is_ext; [exact R|]. apply bits_eq; [by rewrite length_map_bits|]. intros i Hi.
    rewrite bit_at_map by done. rewrite Nat.add_0_r.
    destruct (Nat.leb_spec (idx * length l) i), (Nat.ltb_spec i (idx * length l)); (done || lia).
  - rewrite (is_size v l V). destruct (set_vec_is r (idx * length l) v m l R V) as (r1 & d & E & R1); [nia|done|].
    rewrite E. cbn [mbind option_bind].
    destruct (IH (S idx) r1 _ V H0 R1) as (r' & E' & R'); [by rewrite length_map_bits|lia|].
    exists r'. split; [done|]. eapply vec_is_ext; [exact R'|]. rewrite length_map_bits.
    apply bits_eq; rewrite !length_map_bits; [done|]. intros i Hi. rewrite !(bit_at_map (length m)) by done.
    replace (S idx + n)%nat with (idx + S n)%nat by lia.
    destruct (Nat.leb_spec (S idx * length l) i), (Nat.ltb_spec i ((idx + S n) * length l)); cbn [andb];
      destruct (Nat.leb_spec (idx * length l) i), (Nat.ltb_spec i (idx * length l + length l)); cbn [andb]; try done; try nia.
    f_equal. apply (Nat.mod_unique _ _ idx); nia.
Qed.

Lemma of_REPLICATE_spec thr cp fl ws l ls : represents thr (Abs fl ws (l :: ls)) -> (0 < length l)%nat ->
  runs_to (of_REPLICATE thr cp) (pc thr) (Abs fl ws (repeat_bits (Z.to_nat (number cp)) l :: ls)).
Proof using.
  intros H H0. operands. unfold of_REPLICATE. cbn. set (n := Z.to_nat (number cp)).
  match goal with V : vec_is ?v l |- _ => destruct (replicate_loop_spec v l n n 0 _ _ V H0 (vec_is_fill (size v * n) BIT4_X)) as (r & E & R) end.
  { rewrite repeat_length. match goal with V : vec_is ?v l |- _ => rewrite (is_size v l V) end. lia. } { lia. }
  rewrite E. cbn. finish. eapply vec_is_ext; [exact R|]. rewrite repeat_length.
  match goal with V : vec_is ?v l |- _ => rewrite (is_size v l V) end.
  apply bits_eq; rewrite length_map_bits; [rewrite length_repeat_bits; lia|]. intros i Hi. rewrite bit_at_map, bit_at_repeat by lia.
  by decide_nat.
Qed.

Lemma fit_short sg n l : (n <= length l)%nat -> fit sg n l = map_bits n (bit_at l).
Proof using.
  intros H. apply bits_eq; unfold fit; rewrite !length_map_bits; [done|]. intros i Hi. rewrite !bit_at_map by done. by decide_nat.
Qed.

Lemma of_PAD_S_spec thr cp fl ws l ls : represents thr (Abs fl ws (l :: ls)) ->
  runs_to (of_PAD_S thr cp) (pc thr) (Abs fl ws (fit true (Z.to_nat (number cp)) l :: ls)).
Proof using.
  intros H. operands. match goal with V : vec_is ?v l |- _ => rename v into vl; rename V into Vl end.
  set (n := Z.to_nat (number cp)).
  assert (Hr : vec_is (if (size vl <? n)%nat then resize vl n (value vl (size vl - 1)) else resize vl n BIT4_X) (fit true n l)).
  { rewrite (is_size vl l), (is_bits vl l) by done. destruct (Nat.ltb_spec (length l) n).
    - eapply vec_is_ext; [by apply resize_is|done].
    - rewrite fit_short by done. eapply vec_is_ext; [by apply resize_is|]. apply bits_eq; rewrite !length_map_bits; [done|].
      intros i Hi. rewrite !bit_at_map by done. by decide_nat. }
  finish.
Qed.

Lemma of_PAD_U_spec thr cp fl ws l ls : represents thr (Abs fl ws (l :: ls)) ->
  runs_to (of_PAD_U thr cp) (pc thr) (Abs fl ws (fit false (Z.to_nat (number cp)) l :: ls)).
Proof using. intros H. operands. finish. eapply vec_is_ext; [by apply resize_is|done]. Qed.

Lemma of_SPLIT_VEC4_spec thr cp fl ws l ls : represents thr (Abs fl ws (l :: ls)) ->
  let n := Z.to_nat (number cp) in (n < length l)%nat ->
  runs_to (of_SPLIT_VEC4 thr cp) (pc thr) (Abs fl ws (take n l :: drop n l :: ls)).
Proof using.
  intros H n Hn. operands. match goal with V : vec_is ?v l |- _ => rename V into Vl; rename v into vl end.
  assert (Hlt : (n <? size vl)%nat = true) by (rewrite (is_size vl l) by done; by apply Nat.ltb_lt).
  unfold of_SPLIT_VEC4. fold n. change (peek_vec4 _ 0) with (Some vl). unfold mbind, option_bind. cbv beta iota zeta. rewrite Hlt, (is_size vl l) by done.
  finish.
  - eapply vec_is_ext; [by apply subvalue_is|]. apply bits_eq; rewrite length_map_bits; [rewrite length_take; lia|]. intros i Hi.
    rewrite bit_at_map by done. unfold bit_at. rewrite !nth_lookup, lookup_take_lt by done. done.
  - eapply vec_is_ext; [by apply subvalue_is|]. apply bits_eq; rewrite length_map_bits; [rewrite length_drop; lia|]. intros i Hi.
    rewrite bit_at_map by done. unfold bit_at. rewrite !nth_lookup, lookup_drop. done.
Qed.

Lemma of_DUP_VEC4_spec thr cp fl ws l ls : represents thr (Abs fl ws (l :: ls)) ->
  runs_to (of_DUP_VEC4 thr cp) (pc thr) (Abs fl ws (l :: l :: ls)).
Proof using. intros H. operands. finish. Qed.

Lemma of_POP_VEC4_spec thr cp fl ws l ls : represents thr (Abs fl ws (l :: ls)) -> number cp = 1 ->
  runs_to (of_POP_VEC4 thr cp) (pc thr) (Abs fl ws ls).
Proof using. intros H Hn. operands. unfold of_POP_VEC4. rewrite Hn. cbn. finish. Qed.
End Opcodes.
