(* ===== verification/ThreadShift.v ===== *)
(** * ThreadShift: what the opcodes on flags, words, shifts, signals and the program counter do *)

From S2P Require Import Prelude FourState Vector4 Vector4Value Vector4Ops Vector4Parts Vector4Copy Vector4Arith Vector4Conv Vector4Array Bits Thread.
From S2P Require Import ThreadSpec ThreadCmp ThreadData.
Import Bit4.

Open Scope ivl_scope.

(** A vector after a loop that updates each bit from the bits before. *)
Lemma update_loop v l (g : nat -> vvp_vector4_t -> vvp_vector4_t) (f : nat -> vvp_bit4_t -> vvp_bit4_t) :
  vec_is v l ->
  (forall i w, (i < length l)%nat -> vec_wf w -> size w = length l ->
     g i w = set_bit w i (f i (value w i)) \/ (g i w = w /\ f i (value w i) = value w i)) ->
  vec_is (for_loop (length l) 0 g v) (map_bits (length l) (fun i => f i (bit_at l i))).
Proof.
  intros [W S B] Hg.
  assert (H : let r := for_loop (length l) 0 g v in vec_wf r /\ size r = length l /\
    forall i, value r i = if (i <? length l)%nat then f i (bit_at l i) else bit_at l i).
  { apply (for_loop_ind (fun k r => vec_wf r /\ size r = length l /\
      forall i, value r i = if (i <? k)%nat then f i (bit_at l i) else bit_at l i) (length l) 0); [done|].
    intros k r Hk (Wr & Sr & Br). pose proof (Br k) as Bk. rewrite Nat.ltb_irrefl in Bk.
    destruct (Hg k r ltac:(lia) Wr Sr) as [E|[E1 E2]].
    - rewrite E, Bk. split; [apply set_bit_wf; [done|lia]|]. split; [by rewrite set_bit_size|]. intros i.
      rewrite set_bit_value by (done || lia). destruct (Nat.eqb_spec i k) as [->|]; [by decide_nat|]. rewrite Br.
      destruct (Nat.ltb_spec i k); by decide_nat.
    - rewrite E1. split; [done|]. split; [done|]. intros i. rewrite Br. destruct (Nat.eq_dec i k) as [->|].
      + decide_nat. by rewrite <- Bk, E2.
      + destruct (Nat.ltb_spec i k); by decide_nat. }
  destruct H as (Wr & Sr & Br). apply vec_is_map; [done|done|]. intros i Hi. rewrite Br. by decide_nat.
Qed.

Lemma cast2_is v l : vec_is v l ->
  vec_is (for_loop (size v) 0 (fun idx val => match value val idx with BIT4_0 | BIT4_1 => val | _ => set_bit val idx BIT4_0 end) v)
    (two_state l).
Proof.
  intros V. rewrite (is_size v l V).
  apply (update_loop v l _ (fun _ b => if is_one b then BIT4_1 else BIT4_0) V).
  intros i w _ _ _. destruct (value w i); auto.
Qed.

Lemma blend_is va vb a b : vec_is va a -> vec_is vb b -> length a = length b ->
  vec_is (for_loop (length a) 0 (fun idx vala => if decide (value vala idx = value vb idx) then vala else set_bit vala idx BIT4_X) va)
    (zip_bits blend_bit a b).
Proof.
  intros Va Vb Hl. eapply vec_is_ext; [apply (update_loop va a _ (fun i x => blend_bit x (bit_at b i)) Va)|done].
  intros i w _ _ _. rewrite (is_bits vb b) by done. unfold blend_bit. destruct (decide (value w i = bit_at b i)); auto.
Qed.

(** ** Index values *)

(** Flag 4 and the word after an index is computed from the bits [l]: flag 4 is 1
    for an unknown index, and x only for one that is negative or too large. *)
Definition index_ok (sg : bool) (l : bits) (b4 : vvp_bit4_t) (v : Z) : Prop :=
  is_word v /\
  if has_unknown l then b4 = BIT4_1
  else (b4 = BIT4_0 /\ v = num sg l mod 2 ^ 64 /\ - 2 ^ 63 <= num sg l < 2 ^ 64) \/
       (b4 = BIT4_X /\ (num sg l < 0 \/ 2 ^ 63 <= num sg l)).

Lemma num_cases sg l : (0 < length l)%nat ->
  num sg l = unum l \/ (sg = true /\ 2 ^ Z.of_nat (length l - 1) <= unum l /\ num sg l = unum l - 2 ^ Z.of_nat (length l) /\ num sg l < 0).
Proof.
  intros H. unfold num. destruct sg; [|by left]. cbn [andb]. pose proof (unum_range l).
  destruct (is_one (bit_at l (length l - 1))) eqn:E; [|by left]. right. split; [done|]. split; [|lia].
  change (unum l) with (low_num l (length l)). replace (length l) with (S (length l - 1)) at 2 by lia.
  rewrite low_num_S, E. pose proof (low_num_range l (length l - 1)). cbn [Z.b2z]. lia.
Qed.

Lemma num_high l : (0 < length l)%nat -> num true l = unum l -> unum l < 2 ^ Z.of_nat (length l - 1).
Proof.
  intros H. unfold num. cbn [andb]. pose proof (pow2_pos (Z.of_nat (length l)) ltac:(lia)).
  destruct (is_one _) eqn:E; [lia|]. intros _. change (unum l) with (low_num l (length l)).
  replace (length l) with (S (length l - 1)) at 1 by lia. rewrite low_num_S, E. pose proof (low_num_range l (length l - 1)).
  cbn [Z.b2z]. lia.
Qed.

(** The words above the first. *)
Lemma upper_words (p : plane) l : Forall is_word p -> length p = word_count (length l) -> (0 < length l)%nat ->
  (forall i, pbit p i = (i <? length l)%nat && is_one (bit_at l i)) ->
  (unum l = p.[0] + 2 ^ 64 * (unum l / 2 ^ 64) /\ is_word p.[0]) /\
  (existsb (fun tmp => negb (tmp =? 0)) (drop 1 p) = negb (unum l <? 2 ^ 64)) /\
  (existsb (fun tmp => negb (.~ tmp =? 0)) (drop 1 p) = false -> (64 < length l)%nat ->
   unum l = p.[0] + 2 ^ Z.of_nat (length l) - 2 ^ 64).
Proof.
  intros Wp Lp H0 Hb. pose proof (word_count_bounds (length l)) as Hwc.
  assert (Hbit : forall i, Z.testbit (unum l) (Z.of_nat i) = pbit p i).
  { intros i. unfold unum. rewrite Zbits_testbit, Nat2Z.id by lia. rewrite Hb. f_equal.
    apply eq_true_iff_eq. rewrite Z.ltb_lt, Nat.ltb_lt. lia. }
  assert (W0 : is_word p.[0]) by (by apply word_at_is_word).
  assert (Hlow : unum l mod 2 ^ 64 = p.[0]).
  { apply Z.bits_inj'. intros z Hz. destruct (Z.lt_ge_cases z 64).
    - rewrite Z.mod_pow2_bits_low by lia. replace z with (Z.of_nat (Z.to_nat z)) at 1 by lia. rewrite Hbit.
      rewrite (word_bit p 0 z) by lia. done.
    - rewrite Z.mod_pow2_bits_high by lia. symmetry. rewrite <- (Z.mod_small p.[0] (2 ^ 64)) by done. by rewrite Z.mod_pow2_bits_high by lia. }
  split; [split; [|done]; rewrite <- Hlow; rewrite Z.add_comm; apply Z.div_mod; lia|].
  assert (Hword : forall k z, 0 <= z < 64 -> Z.testbit p.[k] z = Z.testbit (unum l) (Z.of_nat (k * 64) + z)).
  { intros k z Hz. rewrite (word_bit p k z Hz), <- Hbit. f_equal. lia. }
  assert (Hin : forall tmp, In tmp (drop 1 p) -> exists k, (1 <= k < length p)%nat /\ tmp = p.[k]).
  { intros tmp Ht. apply (In_nth _ _ 0) in Ht as (j & Hj & <-). rewrite length_drop in Hj. exists (S j). split; [lia|].
    unfold word_at. rewrite nth_lookup, lookup_drop. done. }
  assert (Hin' : forall k, (1 <= k < length p)%nat -> In p.[k] (drop 1 p)).
  { intros k Hk. unfold word_at. replace (default 0 (p !! k)) with (nth (k - 1) (drop 1 p) 0).
    - apply nth_In. rewrite length_drop. lia.
    - rewrite nth_lookup, lookup_drop. do 2 f_equal. lia. }
  split.
  - apply eq_true_iff_eq. rewrite existsb_exists, negb_true_iff, Z.ltb_ge. split.
    + intros (tmp & Ht & Hz%negb_true_iff%Z.eqb_neq). destruct (Hin tmp Ht) as (k & Hk & ->).
      destruct (Z.lt_ge_cases (unum l) (2 ^ 64)) as [Hlt|]; [|done]. exfalso. apply Hz. apply Z.bits_inj'. intros z Hz'.
      rewrite Z.bits_0. destruct (Z.lt_ge_cases z 64).
      * rewrite Hword by lia. pose proof (unum_range l). rewrite <- (Z.mod_small (unum l) (2 ^ 64)) by lia. apply Z.mod_pow2_bits_high. lia.
      * rewrite <- (Z.mod_small p.[k] (2 ^ 64)) by (by apply word_at_is_word). by apply Z.mod_pow2_bits_high.
    + intros Hge. destruct (existsb (fun tmp => negb (tmp =? 0)) (drop 1 p)) eqn:E; [by apply existsb_exists in E|]. exfalso.
      assert (Hz : unum l < 2 ^ 64); [|lia]. rewrite <- (Z.mod_small (unum l) (2 ^ Z.of_nat (length l))) by apply unum_range.
      replace (unum l mod 2 ^ Z.of_nat (length l)) with p.[0]; [apply W0|]. rewrite <- Hlow. apply Z.bits_inj'. intros z Hz'.
      rewrite (Z.mod_small (unum l) (2 ^ Z.of_nat (length l))) by apply unum_range.
      destruct (Z.lt_ge_cases z 64); [by rewrite Z.mod_pow2_bits_low by lia|]. rewrite Z.mod_pow2_bits_high by lia. symmetry.
      replace z with (Z.of_nat (Z.to_nat z)) by lia. rewrite Hbit. set (i := Z.to_nat z).
      destruct (Nat.lt_ge_cases (i / 64) (length p)) as [Hk|Hk].
      * rewrite <- not_true_iff_false in E. unfold pbit. replace p.[i / BITS_PER_WORD] with 0; [apply Z.bits_0|].
        destruct (Z.eq_dec p.[i / BITS_PER_WORD] 0) as [->|Hne]; [done|]. exfalso. apply E, existsb_exists. eexists. split.
        { apply Hin'. split; [|exact Hk]. apply (Nat.div_le_lower_bound i 64 1); lia. }
        by apply negb_true_iff, Z.eqb_neq.
      * rewrite Hb. assert (length l <= i)%nat; [|by decide_nat]. pose proof (Nat.div_mod_eq i 64). nia.
  - intros E Hlen. assert (Hones : forall k, (1 <= k < length p)%nat -> p.[k] = ones64).
    { intros k Hk. rewrite <- not_true_iff_false in E. destruct (Z.eq_dec (.~ p.[k]) 0) as [Hz|Hz].
      - apply Z.bits_inj'. intros z Hz'. destruct (Z.lt_ge_cases z 64).
        + apply (f_equal (fun x => Z.testbit x z)) in Hz. rewrite not64_bit, Z.bits_0 in Hz by lia.
          rewrite (proj2 (Z.ltb_lt _ _)) in Hz by lia. cbn in Hz. apply negb_false_iff in Hz. rewrite Hz. symmetry. rewrite ones64_bit by lia. by apply Z.ltb_lt.
        + rewrite <- (Z.mod_small p.[k] (2 ^ 64)) by (by apply word_at_is_word). rewrite Z.mod_pow2_bits_high by lia.
          rewrite ones64_bit by lia. symmetry. apply Z.ltb_ge. lia.
      - exfalso. apply E, existsb_exists. exists p.[k]. split; [by apply Hin'|]. by apply negb_true_iff, Z.eqb_neq. }
    assert (Hall : forall i, (64 <= i < word_count (length l) * 64)%nat -> pbit p i = true).
    { intros i Hi. unfold pbit. rewrite Hones.
      - rewrite ones64_bit by lia. apply Z.ltb_lt. unfold BITS_PER_WORD. pose proof (Nat.mod_upper_bound i 64). lia.
      - rewrite Lp. split; [apply (Nat.div_le_lower_bound i 64 1); lia|apply Nat.Div0.div_lt_upper_bound; unfold BITS_PER_WORD in *; lia]. }
    assert (Hex : (word_count (length l) * 64 = length l)%nat).
    { destruct (Nat.eq_dec (word_count (length l) * 64)%nat (length l)) as [|Hne]; [done|].
      specialize (Hall (length l) ltac:(lia)). rewrite Hb in Hall. rewrite Nat.ltb_irrefl in Hall. done. }
    apply Z.bits_inj'. intros z Hz. pose proof (unum_range l).
    replace (p.[0] + 2 ^ Z.of_nat (length l) - 2 ^ 64) with (p.[0] + (2 ^ (Z.of_nat (length l) - 64) - 1) * 2 ^ 64)
      by (rewrite Z.mul_sub_distr_r, <- Z.pow_add_r by lia; replace (Z.of_nat (length l) - 64 + 64) with (Z.of_nat (length l)) by lia; lia).
    destruct (Z.lt_ge_cases z 64).
    + rewrite <- (Z.mod_pow2_bits_low (p.[0] + _) 64) by lia. rewrite Z_mod_plus_full, (Z.mod_small p.[0]) by done.
      rewrite <- Hlow. by rewrite Z.mod_pow2_bits_low by lia.
    + replace z with (z - 64 + 64) at 2 by lia. rewrite <- Z.div_pow2_bits by lia. rewrite Z.div_add, (Z.div_small p.[0]) by (done || lia).
      rewrite Z.add_0_l.
      replace (2 ^ (Z.of_nat (length l) - 64) - 1) with (Z.ones (Z.of_nat (length l) - 64)) by (rewrite Z.ones_equiv; lia).
      destruct (Z.lt_ge_cases z (Z.of_nat (length l))).
      * rewrite Z.ones_spec_low by lia. replace z with (Z.of_nat (Z.to_nat z)) by lia. rewrite Hbit. apply Hall. lia.
      * rewrite Z.ones_spec_high by lia. rewrite <- (Z.mod_small (unum l) (2 ^ Z.of_nat (length l))) by done. apply Z.mod_pow2_bits_high. lia.
Qed.

(** The word [vec4_to_index] leaves, from the first word of the array. *)
Definition index_word (sg : bool) (n : nat) (v : Z) : Z :=
  if (n <? 64)%nat then
    if sg && negb (v .& (1 << (n - 1)) =? 0) then v .| (ones64 << n) else v .& .~ (ones64 << n)
  else v.

Lemma top_bit_clear n v : (0 < n <= 64)%nat -> is_word v -> (v .& (1 << (n - 1)) =? 0) = negb (Z.testbit v (Z.of_nat (n - 1))).
Proof.
  intros Hn [Hv0 Hv]. assert (E : 1 << (n - 1) = 2 ^ Z.of_nat (n - 1)).
  { unfold shl64, u64. rewrite Z.shiftl_mul_pow2, Z.mul_1_l by lia. apply Z.mod_small. split; [lia|]. apply Z.pow_lt_mono_r; lia. }
  rewrite E. apply eq_true_iff_eq. rewrite Z.eqb_eq, negb_true_iff. split.
  - intros H. apply (f_equal (fun x => Z.testbit x (Z.of_nat (n - 1)))) in H. rewrite Z.land_spec, Z.pow2_bits_true, Z.bits_0, andb_true_r in H by lia. done.
  - intros H. apply Z.bits_inj'. intros z Hz. rewrite Z.land_spec, Z.bits_0. destruct (Z.eq_dec z (Z.of_nat (n - 1))) as [->|].
    + by rewrite H.
    + by rewrite Z.pow2_bits_false, andb_false_r by lia.
Qed.

Lemma index_word_spec sg l v : (0 < length l)%nat -> is_word v -> ((length l < 64)%nat -> v = unum l) ->
  ((64 <= length l)%nat -> v = num sg l mod 2 ^ 64) -> index_word sg (length l) v = num sg l mod 2 ^ 64.
Proof.
  intros H0 Wv Hs Hl. unfold index_word. destruct (Nat.ltb_spec (length l) 64) as [Hlt|]; [|by apply Hl].
  specialize (Hs Hlt). subst v. pose proof (unum_range l) as Hr.
  rewrite top_bit_clear by (done || lia). rewrite negb_involutive. unfold num.
  assert (E : Z.testbit (unum l) (Z.of_nat (length l - 1)) = is_one (bit_at l (length l - 1))).
  { unfold unum. rewrite Zbits_testbit, Nat2Z.id, (proj2 (Z.ltb_lt _ _)) by lia. done. }
  rewrite E. destruct (sg && _).
  - pose proof (sign_extend 64 (length l) (unum l) ltac:(lia) Hr) as Hx. change (Z.of_nat 64) with 64 in Hx.
    rewrite <- Hx, Z.mod_small; [done|]. apply is_word_shl64.
  - rewrite Z.mod_small by done. apply Z.bits_inj'. intros z Hz. rewrite Z.land_spec.
    destruct (Z.lt_ge_cases z (Z.of_nat (length l))).
    + rewrite not64_bit, shl64_bit by lia. rewrite (proj2 (Z.ltb_lt _ _)) by lia. rewrite (proj2 (Z.leb_gt _ _)) by lia.
      cbn. by rewrite andb_true_r.
    + replace (Z.testbit (unum l) z) with false; [done|]. symmetry.
      rewrite <- (Z.mod_small (unum l) (2 ^ Z.of_nat (length l))) by done. apply Z.mod_pow2_bits_high. lia.
Qed.

Lemma high_bit v : is_word v -> (v >> 63 =? 1) = negb (v <? 2 ^ 63).
Proof.
  intros [H0 H]. unfold shr64. rewrite Z.shiftr_div_pow2 by lia. change (Z.of_nat 63) with 63.
  destruct (Z.ltb_spec v (2 ^ 63)) as [Hl|Hl]; cbn [negb].
  - rewrite Z.div_small by lia. done.
  - replace (v / 2 ^ 63) with 1; [done|]. apply (Z.div_unique v (2 ^ 63) 1 (v - 2 ^ 63)); lia.
Qed.

Lemma index_flag sg l p : Forall is_word p -> length p = word_count (length l) -> (0 < length l)%nat -> has_unknown l = false ->
  (forall i, pbit p i = (i <? length l)%nat && is_one (bit_at l i)) ->
  index_ok sg l (if index_overflow sg p.[0] p then BIT4_X else BIT4_0) (index_word sg (length l) p.[0]).
Proof.
  intros Wp Lp H0 Hx Hb. destruct (upper_words p l Wp Lp H0 Hb) as ((Eu & W0) & Hpos & Hneg).
  pose proof (unum_range l) as Hr. pose proof (num_cases sg l H0) as Hn.
  assert (Wi : is_word (index_word sg (length l) p.[0])).
  { unfold index_word. destruct (_ <? _)%nat; [|done]. destruct (_ && _).
    - apply is_word_lor; [done|apply is_word_shl64].
    - by apply is_word_land. }
  split; [done|]. rewrite Hx.
  assert (Hp64 : (length l < 64)%nat -> p.[0] = unum l).
  { intros Hl. assert (unum l / 2 ^ 64 = 0); [|lia]. apply Z.div_small. split; [lia|].
    apply (Z.lt_le_trans _ (2 ^ Z.of_nat (length l))); [lia|]. apply Z.pow_le_mono_r; lia. }
  assert (Hov : index_overflow sg p.[0] p = if sg && negb (p.[0] <? 2 ^ 63)
    then existsb (fun tmp => negb (.~ tmp =? 0)) (drop 1 p) else existsb (fun tmp => negb (tmp =? 0)) (drop 1 p)).
  { unfold index_overflow. rewrite high_bit by done. by destruct (sg && _). }
  assert (Hfinal : p.[0] mod 2 ^ 64 = p.[0]) by (by apply Z.mod_small).
  assert (Hbound : (64 <= length l)%nat -> 2 ^ 63 <= 2 ^ Z.of_nat (length l - 1)) by (intros; apply Z.pow_le_mono_r; lia).
  assert (Hdouble : 2 ^ Z.of_nat (length l) = 2 * 2 ^ Z.of_nat (length l - 1)).
  { rewrite <- Z.pow_succ_r by lia. f_equal. lia. }
  rewrite Hov. clear Hov. match goal with |- context [if ?b then BIT4_X else BIT4_0] => destruct b eqn:E end.
  - right. split; [done|]. destruct sg; cbn [andb] in E.
    + destruct (Z.ltb_spec p.[0] (2 ^ 63)) as [Hp|Hp]; cbn [negb] in E.
      * rewrite Hpos in E. apply negb_true_iff, Z.ltb_ge in E. lia.
      * destruct Hn as [->|]; [|lia]. pose proof (Z.div_pos (unum l) (2 ^ 64)). nia.
    + rewrite Hpos in E. apply negb_true_iff, Z.ltb_ge in E. unfold num in *. cbn [andb] in *. lia.
  - left. split; [done|].
    destruct (sg && negb (p.[0] <? 2 ^ 63)) eqn:Es.
    + apply andb_true_iff in Es as [-> Hp%negb_true_iff%Z.ltb_ge].
      assert (Hl : (64 <= length l)%nat).
      { destruct (Nat.lt_ge_cases (length l) 64) as [Hl|]; [|done]. exfalso. specialize (Hp64 Hl).
        assert (2 ^ Z.of_nat (length l) <= 2 ^ 63) by (apply Z.pow_le_mono_r; lia). lia. }
      assert (Heq : num true l = p.[0] - 2 ^ 64).
      { assert (Hbig : 2 ^ Z.of_nat (length l - 1) <= unum l /\ unum l = p.[0] + 2 ^ Z.of_nat (length l) - 2 ^ 64).
        { destruct (Nat.eq_dec (length l) 64%nat) as [Hl64|].
          - rewrite Hl64 in *. change (Z.of_nat 64) with 64 in *. change (Z.of_nat (64 - 1)) with 63 in *.
            assert (unum l / 2 ^ 64 = 0) by (by apply Z.div_small). lia.
          - specialize (Hneg E ltac:(lia)). split; [|done].
            assert (2 ^ 64 <= 2 ^ Z.of_nat (length l - 1)) by (apply Z.pow_le_mono_r; lia). lia. }
        destruct Hbig as [Hbig Hu]. destruct Hn as [Hn|Hn]; [|lia].
        pose proof (num_high l H0 Hn). lia. }
      split; [|rewrite Heq; destruct W0; lia].
      apply index_word_spec; [done|done|lia|]. intros _. rewrite Heq.
      rewrite <- Hfinal at 1. rewrite <- (Z_mod_plus_full (p.[0] - 2 ^ 64) 1). f_equal. lia.
    + rewrite Hpos in E. apply negb_false_iff, Z.ltb_lt in E.
      assert (Hu : p.[0] = unum l) by (assert (unum l / 2 ^ 64 = 0) by (apply Z.div_small; lia); lia).
      assert (Hnum : (64 <= length l)%nat -> num sg l = unum l).
      { intros Hl. destruct Hn as [|(-> & Hbig & _)]; [done|]. cbn [andb] in Es. apply negb_false_iff, Z.ltb_lt in Es. lia. }
      split.
      * apply index_word_spec; [done|done|done|]. intros Hl. rewrite (Hnum Hl), <- Hu. by rewrite Hfinal.
      * destruct (Nat.lt_ge_cases (length l) 64) as [Hl|Hl]; [|rewrite (Hnum Hl); lia].
        assert (2 ^ Z.of_nat (length l - 1) <= 2 ^ 62) by (apply Z.pow_le_mono_r; lia). lia.
Qed.

(** ** The opcodes on words *)

Section Spec.
Context {O : Type}.
Implicit Types (thr : vthread_s) (cp : vvp_code_s O) (l r : bits).

Lemma set_flag_holds thr fl ws ls i b : represents thr (Abs fl ws ls) -> (Z.to_nat i < length fl)%nat ->
  exists thr', set_flag thr i b = Some thr' /\ pc thr' = pc thr /\ represents thr' (Abs (<[Z.to_nat i := b]> fl) ws ls).
Proof using.
  intros H Hi. operands. unfold set_flag. cbn [flags]. rewrite (proj2 (Nat.ltb_lt _ _)) by done.
  eexists. split; [done|]. split; [done|]. by constructor.
Qed.

Lemma set_word_ok thr fl ws ls i w : represents thr (Abs fl ws ls) -> (Z.to_nat i < length ws)%nat ->
  exists thr', set_word thr i w = Some thr' /\ pc thr' = pc thr /\ represents thr' (Abs fl (<[Z.to_nat i := w]> ws) ls).
Proof using.
  intros H Hi. operands. unfold set_word. cbn [words]. rewrite (proj2 (Nat.ltb_lt _ _)) by done.
  eexists. split; [done|]. split; [done|]. by constructor.
Qed.

(** ** Shifts *)

(** What a shift opcode leaves, from flag 4 and the word. *)
Definition shifted (n : nat) (fill : vvp_bit4_t) (sh : Z -> bits) (b4 : vvp_bit4_t) (v : Z) : bits :=
  if decide (b4 = BIT4_1) then xs n else if decide (b4 = BIT4_X) then repeat fill n else sh v.

Lemma shl_far k l : Z.of_nat (length l) <= k -> shl_bits k l = repeat BIT4_0 (length l).
Proof using.
  intros Hk. apply bits_eq; unfold shl_bits; autorewrite with bits_len; [done|]. intros i Hi.
  rewrite bit_at_map by done. rewrite (proj2 (Z.ltb_lt _ _)) by lia. symmetry. by apply nth_repeat_lt.
Qed.

Lemma shr_far fill k l : Z.of_nat (length l) <= k -> shr_bits fill k l = repeat fill (length l).
Proof using.
  intros Hk. apply bits_eq; unfold shr_bits; autorewrite with bits_len; [done|]. intros i Hi.
  rewrite bit_at_map by done. rewrite (proj2 (Z.ltb_ge _ _)) by lia. symmetry. by apply nth_repeat_lt.
Qed.

Lemma shl_0 l : shl_bits 0 l = l.
Proof using.
  apply bits_eq; unfold shl_bits; autorewrite with bits_len; [done|]. intros i Hi. rewrite bit_at_map by done.
  rewrite (proj2 (Z.ltb_ge _ _)) by lia. f_equal. lia.
Qed.

Lemma shr_0 fill l : shr_bits fill 0 l = l.
Proof using.
  apply bits_eq; unfold shr_bits; autorewrite with bits_len; [done|]. intros i Hi. rewrite bit_at_map by done.
  rewrite (proj2 (Z.ltb_lt _ _)) by lia. f_equal. lia.
Qed.

Lemma of_SHIFTL_spec thr cp fl ws l ls b4 v : represents thr (Abs fl ws (l :: ls)) -> (0 < length l)%nat ->
  fl !! 4%nat = Some b4 -> ws !! Z.to_nat (number cp) = Some v -> is_word v ->
  runs_to (of_SHIFTL thr cp) (pc thr) (Abs fl ws (shifted (length l) BIT4_0 (fun k => shl_bits k l) b4 v :: ls)).
Proof using.
  intros H Hl Hb Hv Wv. operands. match goal with V : vec_is ?v l |- _ => rename V into Vl; rename v into val end.
  unfold of_SHIFTL, get_word, get_flag. cbn [words flags peek_vec4 stack_vec4_ lookup list_lookup mbind option_bind].
  change (Z.to_nat 4) with 4%nat. rewrite Hv, Hb. cbn [mbind option_bind]. rewrite (is_size val l Vl). unfold shifted.
  destruct (decide (b4 = BIT4_1)); [cbn; finish; apply vec_is_fill|].
  destruct (decide (b4 = BIT4_X)) as [Hx|Hx].
  { rewrite (bool_decide_eq_true_2 _ Hx). cbn [orb]. cbn. finish. apply vec_is_fill. }
  rewrite (bool_decide_eq_false_2 _ Hx). cbn [orb]. destruct (Z.leb_spec (Z.of_nat (length l)) v) as [Hfar|Hnear].
  { cbn. finish. rewrite shl_far by done. apply vec_is_fill. }
  destruct (Z.ltb_spec 0 v) as [Hp|Hp]; [|destruct Wv as [Wv _]; replace v with 0 by lia; rewrite shl_0; cbn; finish].
  cbv zeta. destruct (set_vec_is val 0 (vec4_fill (Z.to_nat v) BIT4_0) l (repeat BIT4_0 (Z.to_nat v))) as (v1 & d1 & -> & V1).
  { done. } { apply vec_is_fill. } { rewrite repeat_length. lia. } { rewrite repeat_length. lia. }
  cbn [mbind option_bind]. pose proof (subvalue_is val l 0 (length l - Z.to_nat v) Vl) as Vs.
  destruct (set_vec_is v1 (Z.to_nat v) _ _ _ V1 Vs) as (v2 & d2 & -> & V2).
  { autorewrite with bits_len. lia. } { autorewrite with bits_len. lia. }
  cbn. finish. eapply vec_is_ext; [exact V2|]. apply bits_eq; unfold shl_bits; autorewrite with bits_len; [done|]. intros i Hi.
  destruct (Z.lt_ge_cases (Z.of_nat i) v); bits_index; [apply nth_repeat_lt; lia|f_equal; lia].
Qed.

Lemma shift_right_spec fill thr cp fl ws l ls b4 v c : represents thr (Abs fl ws (l :: ls)) -> (0 < length l)%nat ->
  fl !! 4%nat = Some b4 -> ws !! Z.to_nat (number cp) = Some v -> is_word v -> (forall val, vec_is val l -> fill val = c) ->
  runs_to (shift_right thr cp fill) (pc thr) (Abs fl ws (shifted (length l) c (fun k => shr_bits c k l) b4 v :: ls)).
Proof using.
  intros H Hl Hb Hv Wv Hc. operands. match goal with V : vec_is ?v l |- _ => rename V into Vl; rename v into val end.
  unfold shift_right, get_word, get_flag. cbn [words flags pop_vec4 stack_vec4_ with_stack lookup list_lookup mbind option_bind].
  change (Z.to_nat 4) with 4%nat. rewrite Hv, Hb. rewrite ?Hb. cbn [mbind option_bind flags]. rewrite ?Hb. cbn [mbind option_bind].
  rewrite (is_size val l Vl), (Hc val Vl). unfold shifted.
  destruct (decide (b4 = BIT4_1)); [cbn; finish; apply vec_is_fill|].
  destruct (decide (b4 = BIT4_X)) as [Hx|Hx].
  { rewrite (bool_decide_eq_true_2 _ Hx). cbn [orb]. cbn. finish. apply vec_is_fill. }
  rewrite (bool_decide_eq_false_2 _ Hx). cbn [orb]. destruct (Z.ltb_spec (Z.of_nat (length l)) v) as [Hfar|Hnear].
  { cbn. finish. rewrite shr_far by lia. apply vec_is_fill. }
  destruct (Z.ltb_spec 0 v) as [Hp|Hp]; [|destruct Wv as [Wv _]; replace v with 0 by lia; rewrite shr_0; cbn; finish].
  cbv zeta. pose proof (subvalue_is val l (Z.to_nat v) (length l - Z.to_nat v) Vl) as Vs.
  assert (H1 : exists v1 d1, set_vec val 0 (subvalue val (Z.to_nat v) (length l - Z.to_nat v)) = Some (v1, d1) /\
    vec_is v1 (map_bits (length l) (fun i => if (i <? length l - Z.to_nat v)%nat then bit_at l (Z.to_nat v + i) else bit_at l i))).
  { destruct (Nat.eq_dec (length l - Z.to_nat v)%nat 0%nat) as [E|E].
    - destruct (set_vec_empty val (subvalue val (Z.to_nat v) (length l - Z.to_nat v)) (is_wf val l Vl)) as [d Hd].
      { rewrite (is_size _ _ Vs). autorewrite with bits_len. done. }
      exists val, d. split; [done|]. eapply vec_is_ext; [exact Vl|]. apply bits_eq; autorewrite with bits_len; [done|]. intros i Hi.
      rewrite bit_at_map by done. rewrite E. done.
    - destruct (set_vec_is val 0 _ _ _ Vl Vs) as (v1 & d1 & E1 & V1).
      { autorewrite with bits_len. lia. } { autorewrite with bits_len. lia. }
      exists v1, d1. split; [done|]. eapply vec_is_ext; [exact V1|]. apply bits_eq; autorewrite with bits_len; [done|]. intros i Hi.
      destruct (Nat.lt_ge_cases i (length l - Z.to_nat v)); bits_index; [f_equal; lia|done]. }
  destruct H1 as (v1 & d1 & -> & V1). cbn [mbind option_bind].
  destruct (set_vec_is v1 (length l - Z.to_nat v) (vec4_fill (Z.to_nat v) c) _ (repeat c (Z.to_nat v)) V1) as (v2 & d2 & -> & V2).
  { apply vec_is_fill. } { rewrite repeat_length. autorewrite with bits_len. lia. } { rewrite repeat_length. lia. }
  cbn. finish. eapply vec_is_ext; [exact V2|]. apply bits_eq; unfold shr_bits; autorewrite with bits_len; [done|]. intros i Hi.
  destruct (Z.lt_ge_cases (Z.of_nat i + v) (Z.of_nat (length l))); bits_index; [f_equal; lia|apply nth_repeat_lt; lia].
Qed.
End Spec.

(** Flag 4 and the word, where the code computes them exactly. *)
Definition index_value (sg : bool) (l : bits) : vvp_bit4_t * Z :=
  if has_unknown l then (BIT4_1, 0)
  else (if (- 2 ^ 63 <=? num sg l) && (num sg l <? 2 ^ 64) then BIT4_0 else BIT4_X, num sg l mod 2 ^ 64).

Lemma index_exact sg l p : Forall is_word p -> length p = word_count (length l) -> (0 < length l)%nat -> has_unknown l = false ->
  (forall i, pbit p i = (i <? length l)%nat && is_one (bit_at l i)) -> sg = false \/ (length l <= 64)%nat ->
  index_value sg l = (if index_overflow sg p.[0] p then BIT4_X else BIT4_0, index_word sg (length l) p.[0]).
Proof.
  intros Wp Lp H0 Hx Hb Hs. pose proof (index_flag sg l p Wp Lp H0 Hx Hb) as [Wi Hi]. rewrite Hx in Hi.
  destruct (upper_words p l Wp Lp H0 Hb) as ((Eu & W0) & Hpos & _). pose proof (unum_range l) as Hr.
  unfold index_value. rewrite Hx.
  assert (Hsmall : (length l <= 64)%nat -> index_overflow sg p.[0] p = false).
  { intros Hl. unfold index_overflow. rewrite drop_ge; [done|]. pose proof (word_count_bounds (length l)). unfold BITS_PER_WORD in *. lia. }
  assert (Hnum : (length l <= 64)%nat -> - 2 ^ 63 <= num sg l < 2 ^ 64 /\ index_word sg (length l) p.[0] = num sg l mod 2 ^ 64).
  { intros Hl. destruct Hi as [(_ & -> & Hn)|(Hf & _)]; [done|]. by rewrite Hsmall in Hf. }
  destruct (Nat.le_gt_cases (length l) 64) as [Hl|Hl].
  - rewrite Hsmall by done. destruct (Hnum Hl) as [Hn ->]. rewrite (proj2 (Z.leb_le _ _)), (proj2 (Z.ltb_lt _ _)) by lia. done.
  - destruct Hs as [->|]; [|lia]. unfold num in *. cbn [andb] in *. unfold index_overflow, index_word. cbn [andb].
    rewrite (proj2 (Nat.ltb_ge _ _)) by lia. rewrite Hpos, (proj2 (Z.leb_le _ _)) by lia. cbn [andb].
    assert (Hm : unum l mod 2 ^ 64 = p.[0]).
    { symmetry. apply (Z.mod_unique_pos _ _ (unum l / 2 ^ 64)); [done|lia]. }
    rewrite Hm. by destruct (unum l <? 2 ^ 64).
Qed.

Section Exact.
Context {O : Type}.
Implicit Types (thr : vthread_s) (cp : vvp_code_s O) (l r : bits).

Lemma vec4_to_index_exact sg thr fl ws l ls : represents thr (Abs fl ws (l :: ls)) -> (0 < length l)%nat -> (4 < length fl)%nat ->
  sg = false \/ (length l <= 64)%nat ->
  exists thr', vec4_to_index thr sg = Some ((index_value sg l).2, thr') /\ pc thr' = pc thr /\
    represents thr' (Abs (<[4%nat := (index_value sg l).1]> fl) ws ls).
Proof using.
  intros H Hl Hf Hs. operands. match goal with V : vec_is ?v l |- _ => rename V into Vl; rename v into val end.
  unfold vec4_to_index, pop_vec4_cnt, set_flag. cbn [peek_vec4 stack_vec4_ lookup list_lookup length Nat.leb drop with_stack flags mbind option_bind].
  rewrite (is_size val l Vl). pose proof (subarray_is val l Vl Hl) as Ha.
  change (Z.to_nat 4) with 4%nat. rewrite (proj2 (Nat.ltb_lt 4 (length fl))) by done.
  destruct (has_unknown l) eqn:Hx.
  - rewrite Ha. unfold index_value. rewrite Hx. cbn [mbind option_bind fst snd]. eexists. split; [done|]. split; [done|]. by constructor.
  - destruct Ha as (q & -> & Lq & Wq & _ & Bq). cbn [mbind option_bind]. rewrite (index_exact sg l q) by done. cbn [fst snd].
    eexists. split; [reflexivity|]. split; [done|]. by constructor.
Qed.

Lemma of_IX_VEC4_exact sg thr cp fl ws l ls : represents thr (Abs fl ws (l :: ls)) -> (0 < length l)%nat -> (4 < length fl)%nat ->
  (Z.to_nat (number cp) < length ws)%nat -> sg = false \/ (length l <= 64)%nat ->
  runs_to ((if sg then of_IX_VEC4_S else of_IX_VEC4) thr cp) (pc thr)
    (Abs (<[4%nat := (index_value sg l).1]> fl) (<[Z.to_nat (number cp) := (index_value sg l).2]> ws) ls).
Proof using.
  intros H Hl Hf Hw Hs. destruct (vec4_to_index_exact sg thr fl ws l ls H Hl Hf Hs) as (t1 & E & P & R).
  destruct (set_word_ok t1 _ ws ls (number cp) (index_value sg l).2 R Hw) as (t2 & E2 & P2 & R2).
  exists t2. unfold of_IX_VEC4, of_IX_VEC4_S. destruct sg; rewrite E; cbn; rewrite E2; cbn; (split; [done|]); (split; [congruence|done]).
Qed.

(** The shift by an index register as the operators of the language have it. *)
Lemma shifted_amount r n fill sh : (forall k, Z.of_nat n <= k -> sh k = repeat fill n) -> Z.of_nat n < 2 ^ 63 ->
  shifted n fill sh (index_value false r).1 (index_value false r).2 = if has_unknown r then xs n else sh (unum r).
Proof using.
  intros Hfar Hn. unfold index_value, num. cbn [andb]. pose proof (unum_range r). destruct (has_unknown r); [done|].
  rewrite (proj2 (Z.leb_le _ _)) by lia. cbn [andb fst snd]. unfold shifted. destruct (Z.ltb_spec (unum r) (2 ^ 64)); cbn.
  - f_equal. apply Z.mod_small. lia.
  - symmetry. apply Hfar. lia.
Qed.
End Exact.

(** ** Flags, signals and the program counter *)

Section Spec.
Context {O : Type}.
Implicit Types (thr : vthread_s) (cp : vvp_code_s O) (l r : bits).

(** Takes the steps that cannot fail and ends. *)
Ltac simple_opcode :=
  repeat match goal with
  | H : ?x = Some _ |- context [?x] => rewrite H; cbn [mbind option_bind]
  end.

Lemma get_flag_is thr fl ws ls i b : represents thr (Abs fl ws ls) -> fl !! Z.to_nat i = Some b -> get_flag thr i = Some b.
Proof using. intros H Hb. unfold get_flag. by rewrite (r_flags _ _ H). Qed.

Lemma get_word_is thr fl ws ls i w : represents thr (Abs fl ws ls) -> ws !! Z.to_nat i = Some w -> get_word thr i = Some w.
Proof using. intros H Hb. unfold get_word. by rewrite (r_words _ _ H). Qed.

Lemma represents_push thr fl ws ls v l : represents thr (Abs fl ws ls) -> vec_is v l -> represents (push_vec4 thr v) (Abs fl ws (l :: ls)).
Proof using. intros [F W S] V. constructor; [done|done|]. by constructor. Qed.

Lemma goes_on thr p A : represents thr A -> pc thr = p -> runs_to (go_on thr) p A.
Proof using. intros R P. by exists thr. Qed.

Lemma of_FLAG_GET_spec thr cp fl ws ls b : represents thr (Abs fl ws ls) -> fl !! Z.to_nat (number cp) = Some b ->
  runs_to (of_FLAG_GET_VEC4 thr cp) (pc thr) (Abs fl ws ([b] :: ls)).
Proof using.
  intros H Hb. unfold of_FLAG_GET_VEC4. rewrite (get_flag_is _ _ _ _ _ _ H Hb). cbn.
  apply goes_on; [|done]. apply represents_push; [done|apply vec_is_bit].
Qed.

Lemma lookup_lt (fl : list vvp_bit4_t) i b : fl !! i = Some b -> (i < length fl)%nat.
Proof using. apply lookup_lt_Some. Qed.

(** Sets a flag to a function of what is there. *)
Lemma set_flag_runs thr fl ws ls i b : represents thr (Abs fl ws ls) -> (Z.to_nat i < length fl)%nat ->
  runs_to (thr ← set_flag thr i b; go_on thr) (pc thr) (Abs (<[Z.to_nat i := b]> fl) ws ls).
Proof using.
  intros H Hi. destruct (set_flag_holds thr fl ws ls i b H Hi) as (t & -> & P & R). cbn. by apply goes_on.
Qed.

Lemma set_word_runs thr fl ws ls i w : represents thr (Abs fl ws ls) -> (Z.to_nat i < length ws)%nat ->
  runs_to (thr ← set_word thr i w; go_on thr) (pc thr) (Abs fl (<[Z.to_nat i := w]> ws) ls).
Proof using.
  intros H Hi. destruct (set_word_ok thr fl ws ls i w H Hi) as (t & -> & P & R). cbn. by apply goes_on.
Qed.

Lemma of_FLAG_INV_spec thr cp fl ws ls b : represents thr (Abs fl ws ls) -> fl !! Z.to_nat (bit_idx0 cp) = Some b ->
  runs_to (of_FLAG_INV thr cp) (pc thr) (Abs (<[Z.to_nat (bit_idx0 cp) := bit4_not b]> fl) ws ls).
Proof using.
  intros H Hb. unfold of_FLAG_INV, invert_flag. rewrite (get_flag_is _ _ _ _ _ _ H Hb). cbn [mbind option_bind].
  eapply set_flag_runs; [done|]. by eapply lookup_lt.
Qed.

Lemma of_FLAG_MOV_spec thr cp fl ws ls b : represents thr (Abs fl ws ls) -> fl !! Z.to_nat (bit_idx1 cp) = Some b ->
  (Z.to_nat (bit_idx0 cp) < length fl)%nat ->
  runs_to (of_FLAG_MOV thr cp) (pc thr) (Abs (<[Z.to_nat (bit_idx0 cp) := b]> fl) ws ls).
Proof using.
  intros H Hb Hi. unfold of_FLAG_MOV. rewrite (get_flag_is _ _ _ _ _ _ H Hb). cbn [mbind option_bind].
  by apply set_flag_runs.
Qed.

Lemma of_FLAG_OR_spec thr cp fl ws ls a b : represents thr (Abs fl ws ls) ->
  fl !! Z.to_nat (bit_idx0 cp) = Some a -> fl !! Z.to_nat (bit_idx1 cp) = Some b ->
  runs_to (of_FLAG_OR thr cp) (pc thr) (Abs (<[Z.to_nat (bit_idx0 cp) := bit4_or a b]> fl) ws ls).
Proof using.
  intros H Ha Hb. unfold of_FLAG_OR. rewrite (get_flag_is _ _ _ _ _ _ H Ha). cbn [mbind option_bind].
  rewrite (get_flag_is _ _ _ _ _ _ H Hb). cbn [mbind option_bind]. eapply set_flag_runs; [done|]. by eapply lookup_lt.
Qed.

Lemma of_FLAG_SET_IMM_spec thr cp fl ws ls b : represents thr (Abs fl ws ls) ->
  [BIT4_0; BIT4_1; BIT4_Z; BIT4_X] !! Z.to_nat (bit_idx0 cp) = Some b -> (Z.to_nat (number cp) < length fl)%nat ->
  runs_to (of_FLAG_SET_IMM thr cp) (pc thr) (Abs (<[Z.to_nat (number cp) := b]> fl) ws ls).
Proof using. intros H Hb Hi. unfold of_FLAG_SET_IMM. rewrite Hb. cbn [mbind option_bind]. by apply set_flag_runs. Qed.

Lemma of_FLAG_SET_VEC4_spec thr cp fl ws l ls : represents thr (Abs fl ws (l :: ls)) -> (Z.to_nat (number cp) < length fl)%nat ->
  runs_to (of_FLAG_SET_VEC4 thr cp) (pc thr) (Abs (<[Z.to_nat (number cp) := bit_at l 0]> fl) ws ls).
Proof using.
  intros H Hi. unfold of_FLAG_SET_VEC4.
  assert (Hv : exists val, peek_vec4 thr 0 = Some val /\ vec_is val l) by (operands; by eexists).
  destruct Hv as (val & -> & Vl). cbn [mbind option_bind]. rewrite (is_bits val l Vl).
  destruct (set_flag_holds thr fl ws _ (number cp) (bit_at l 0) H Hi) as (t & -> & <- & R). cbn [mbind option_bind].
  operands. finish.
Qed.

Lemma of_IX_LOAD_spec thr cp fl ws ls : represents thr (Abs fl ws ls) -> (Z.to_nat (number cp) < length ws)%nat ->
  runs_to (of_IX_LOAD thr cp) (pc thr)
    (Abs fl (<[Z.to_nat (number cp) := u64 (get_as_64_bit (bit_idx0 cp) (bit_idx1 cp))]> ws) ls).
Proof using. intros H Hi. by apply set_word_runs. Qed.

Lemma of_IX_SUB_spec thr cp fl ws ls w : represents thr (Abs fl ws ls) -> ws !! Z.to_nat (number cp) = Some w ->
  runs_to (of_IX_SUB thr cp) (pc thr)
    (Abs fl (<[Z.to_nat (number cp) := u64 (w - get_as_64_bit (bit_idx0 cp) (bit_idx1 cp))]> ws) ls).
Proof using.
  intros H Hi. unfold of_IX_SUB, update_word. rewrite (get_word_is _ _ _ _ _ _ H Hi). cbn [mbind option_bind].
  eapply set_word_runs; [done|]. by eapply lookup_lt_Some.
Qed.

(** ** Vectors *)

Lemma of_BLEND_spec thr cp fl ws a b ls : represents thr (Abs fl ws (a :: b :: ls)) -> length a = length b ->
  runs_to (of_BLEND thr cp) (pc thr) (Abs fl ws (zip_bits blend_bit a b :: ls)).
Proof using.
  intros H Hl. operands.
  match goal with Va : vec_is ?x a, Vb : vec_is ?y b |- _ => pose proof (blend_is x y a b Va Vb Hl) as V;
    unfold of_BLEND; cbn; rewrite (is_size x a Va), (is_size y b Vb), Hl, Nat.eqb_refl end.
  rewrite <- Hl. cbn. finish.
Qed.

Lemma of_CAST2_spec thr cp fl ws l ls : represents thr (Abs fl ws (l :: ls)) ->
  runs_to (of_CAST2 thr cp) (pc thr) (Abs fl ws (two_state l :: ls)).
Proof using. intros H. operands. match goal with V : vec_is ?x l |- _ => pose proof (cast2_is x l V) end. unfold of_CAST2. cbn. finish. Qed.

(** ** Signals *)

Context `{World}.

Lemma of_LOAD_VEC4_spec thr cp fl ws ls v l : represents thr (Abs fl ws ls) -> sig_vec4_value (net cp) = Some v -> vec_is v l ->
  runs_to (of_LOAD_VEC4 thr cp) (pc thr) (Abs fl ws (l :: ls)).
Proof using. intros R Hv V. unfold of_LOAD_VEC4. rewrite Hv. cbn. apply goes_on; [|done]. by apply represents_push. Qed.

(** The index register from a signal; a signed one has at most 64 bits. *)
Lemma of_IX_GETV_exact sg thr cp fl ws ls v l : represents thr (Abs fl ws ls) -> sig_vec4_value (net cp) = Some v -> vec_is v l ->
  (4 < length fl)%nat -> (Z.to_nat (bit_idx0 cp) < length ws)%nat -> (0 < length l)%nat -> sg = false \/ (length l <= 64)%nat ->
  runs_to ((if sg then of_IX_GETV_S else of_IX_GETV) thr cp) (pc thr)
    (Abs (<[4%nat := (index_value sg l).1]> fl) (<[Z.to_nat (bit_idx0 cp) := (index_value sg l).2]> ws) ls).
Proof using.
  intros R Hv V Hf Hw H0 Hs.
  assert (Hset : forall w b, runs_to (thr ← set_word thr (bit_idx0 cp) w; thr ← set_flag thr 4 b; go_on thr) (pc thr)
    (Abs (<[4%nat := b]> fl) (<[Z.to_nat (bit_idx0 cp) := w]> ws) ls)).
  { intros w b. destruct (set_word_ok thr fl ws ls (bit_idx0 cp) w R Hw) as (t & -> & P & Rt). cbn [mbind option_bind].
    rewrite <- P. by apply (set_flag_runs t fl _ ls 4 b). }
  pose proof (unum_range l) as Hr. unfold index_value. destruct sg.
  - destruct Hs as [|Hl]; [done|]. unfold of_IX_GETV_S. rewrite Hv. cbn [mbind option_bind].
    rewrite vector4_to_value_spec, (num_of_is true v l V) by lia. cbn [andb].
    replace (xz_below v (Nat.min 64 (size v))) with (has_unknown l).
    2:{ rewrite (is_size v l V), Nat.min_r by lia. rewrite <- (any_xz_is v l V). unfold any_xz, xz_below. by rewrite (is_size v l V). }
    destruct (has_unknown l); [apply Hset|]. pose proof (num_cases true l H0) as Hn.
    assert (2 ^ Z.of_nat (length l) <= 2 ^ 64) by (apply Z.pow_le_mono_r; lia).
    assert (2 ^ Z.of_nat (length l) = 2 * 2 ^ Z.of_nat (length l - 1)) by (rewrite <- Z.pow_succ_r by lia; f_equal; lia).
    rewrite (proj2 (Z.leb_le _ _)), (proj2 (Z.ltb_lt _ _)) by lia. apply Hset.
  - unfold of_IX_GETV. rewrite Hv. cbn [mbind option_bind].
    rewrite (proj2 (vector4_to_value_correct 64 v false false ltac:(lia))), (any_xz_is v l V), (num_of_is false v l V).
    destruct (has_unknown l); [apply Hset|]. unfold num. cbn [andb]. rewrite (proj2 (Z.leb_le _ _)) by lia. cbn [andb].
    destruct (unum l <? 2 ^ 64); apply Hset.
Qed.

(** ** Jumps, while the simulation is not stopped *)

Lemma after_jump_runs thr A : schedule_stopped = false -> represents thr A -> runs_to (after_jump thr) (pc thr) A.
Proof using. intros Hs R. unfold after_jump. rewrite Hs. by apply goes_on. Qed.

Lemma of_JMP_spec thr cp A : schedule_stopped = false -> represents thr A -> runs_to (of_JMP thr cp) (cptr cp) A.
Proof using. intros Hs [F W S]. apply (after_jump_runs (with_pc thr (cptr cp))); [done|]. by constructor. Qed.

Lemma jump_if_spec f thr cp fl ws ls b : schedule_stopped = false -> represents thr (Abs fl ws ls) ->
  fl !! Z.to_nat (bit_idx0 cp) = Some b ->
  runs_to (jump_if f thr cp) (if f b then cptr cp else pc thr) (Abs fl ws ls).
Proof using.
  intros Hs R Hb. unfold jump_if. rewrite (get_flag_is _ _ _ _ _ _ R Hb). cbn [mbind option_bind].
  destruct (f b); [|by apply after_jump_runs].
  destruct R as [F W S]. apply (after_jump_runs (with_pc thr (cptr cp))); [done|]. by constructor.
Qed.
End Spec.
