(* ===== verification/ThreadDivSpec.v ===== *)
(** * ThreadDivSpec: division and remainder of the virtual machine

    Of vectors of at most 64 bits, in the native words. *)

From S2P Require Import Prelude FourState Vector4 Vector4Value Vector4Ops Vector4Parts Vector4Copy Vector4Arith Vector4Conv.
From S2P Require Import Vector4Array Bits Vector2 Thread ThreadDiv ThreadSpec ThreadCmp ThreadData ThreadShift.
Import Bit4.

Open Scope ivl_scope.

(** Truncating division and its remainder; x for a divisor of 0. *)
Definition quotient (sg : bool) (l r : bits) : bits :=
  arith (length l) (has_unknown l || has_unknown r || (unum r =? 0)) (Z.quot (num sg l) (num sg r)).
Definition remainder (sg : bool) (l r : bits) : bits :=
  arith (length l) (has_unknown l || has_unknown r || (unum r =? 0)) (Z.rem (num sg l) (num sg r)).

Lemma length_quotient sg l r : length (quotient sg l r) = length l.
Proof. apply length_arith. Qed.
Lemma length_remainder sg l r : length (remainder sg l r) = length l.
Proof. apply length_arith. Qed.

(** A word written over all bits. *)
Lemma setarray_word v l p w : vec_is v l -> (0 < length l <= 64)%nat -> length p = word_count (length l) -> is_word w ->
  exists v', setarray v 0 (length l) p.[0 <- w] = Some v' /\ vec_is v' (bits_of_Z (length l) w).
Proof.
  intros V Hl Lp Ww. assert (Hwc : word_count (length l) = 1%nat).
  { pose proof (word_count_bounds (length l)). unfold BITS_PER_WORD in *. lia. }
  rewrite Hwc in Lp. destruct p as [|x [|]]; try done. cbn.
  destruct (setarray_spec v 0 (length l) [w]) as (v' & E & W & S & B).
  { apply V. } { by constructor. } { lia. } { by rewrite (is_size v l V). }
  exists v'. split; [done|]. rewrite (is_size v l V) in *. apply vec_is_map; [done|done|]. intros i Hi. rewrite B by done.
  cbn [Nat.leb andb]. rewrite Nat.sub_0_r, Nat.add_0_l, (proj2 (Nat.ltb_lt _ _)) by done. unfold pbit.
  rewrite Nat.div_small, Nat.mod_small by (unfold BITS_PER_WORD; lia). cbn. by destruct (Z.testbit _ _).
Qed.

(** The words of an array of one word. *)
Lemma word_num (p : plane) l : (0 < length l <= 64)%nat -> length p = word_count (length l) -> Forall is_word p ->
  (forall i, pbit p i = (i <? length l)%nat && is_one (bit_at l i)) -> p.[0] = unum l.
Proof.
  intros Hl Lp Wp Hb. destruct (upper_words p l Wp Lp ltac:(lia) Hb) as ((Eu & W0) & _).
  pose proof (unum_range l). assert (2 ^ Z.of_nat (length l) <= 2 ^ 64) by (apply Z.pow_le_mono_r; lia).
  assert (unum l / 2 ^ 64 = 0) by (apply Z.div_small; lia). lia.
Qed.

Section Spec.
Context {O : Type}.
Implicit Types (thr : vthread_s) (cp : vvp_code_s O) (l r : bits).

Lemma known_zero sg l : has_unknown l = false -> (num sg l = 0 <-> unum l = 0).
Proof using.
  intros Hx. unfold num. pose proof (unum_range l). destruct (_ && _) eqn:E; [|done]. apply andb_true_iff in E as [_ E].
  split; [lia|]. intros H0. exfalso. destruct (length l) as [|n] eqn:Hl; [by rewrite bit_at_beyond in E by lia|].
  rewrite (known_bit_at l _ Hx), H0, Z.bits_0 in E by lia. done.
Qed.

Lemma of_DIV_spec thr cp fl ws l r ls : represents thr (Abs fl ws (r :: l :: ls)) -> length l = length r -> (0 < length l <= 64)%nat ->
  runs_to (of_DIV thr cp) (pc thr) (Abs fl ws (quotient false l r :: ls)).
Proof using.
  intros H Hl H0. operands.
  match goal with A : vec_is ?x l, B : vec_is ?y r |- _ => rename A into Va; rename B into Vb; rename x into va; rename y into vb end.
  unfold of_DIV. cbn [pop_vec4 stack_vec4_ mbind option_bind with_stack].
  rewrite (is_size va l Va), (is_size vb r Vb), <- Hl, Nat.eqb_refl. cbv zeta. unfold quotient, num. cbn [andb].
  pose proof (subarray_is va l Va ltac:(lia)) as Sa. pose proof (subarray_is vb r Vb ltac:(lia)) as Sb. rewrite <- Hl in Sb.
  destruct (has_unknown l); [rewrite Sa; cbn; finish; apply vec_is_fill|]. destruct Sa as (a & -> & La & Wa & _ & Ba).
  destruct (has_unknown r); [rewrite Sb; cbn; finish; apply vec_is_fill|]. destruct Sb as (b & -> & Lb & Wb & _ & Bb).
  rewrite (word_num a l), (word_num b r) by (done || congruence || lia). rewrite (proj2 (Nat.leb_le _ _)) by lia. cbn [orb].
  pose proof (unum_range l) as Rl. pose proof (unum_range r) as Rr.
  destruct (Z.eqb_spec (unum r) 0) as [E|E]; [cbn; finish; apply vec_is_fill|].
  assert (2 ^ Z.of_nat (length l) <= 2 ^ 64) by (apply Z.pow_le_mono_r; lia).
  assert (Hq : 0 <= unum l / unum r < 2 ^ 64).
  { split; [apply Z.div_pos; lia|]. apply Z.div_lt_upper_bound; nia. }
  destruct (setarray_word va l a (unum l / unum r) Va H0 La Hq) as (v & -> & V).
  rewrite Z.quot_div_nonneg by lia. cbn. finish.
Qed.

(** ** Signed division *)

Lemma s64_of_mod z : - 2 ^ 63 <= z < 2 ^ 63 -> s64 (z mod 2 ^ 64) = z.
Proof using.
  intros Hz. unfold s64. rewrite Zplus_mod_idemp_l, Z.mod_small; lia.
Qed.

Lemma num_range64 l : (0 < length l <= 64)%nat -> - 2 ^ 63 <= num true l < 2 ^ 63.
Proof using.
  intros Hl. pose proof (unum_range l). pose proof (num_cases true l ltac:(lia)) as Hn.
  assert (2 ^ Z.of_nat (length l) = 2 * 2 ^ Z.of_nat (length l - 1)) by (rewrite <- Z.pow_succ_r by lia; f_equal; lia).
  assert (2 ^ Z.of_nat (length l - 1) <= 2 ^ 63) by (apply Z.pow_le_mono_r; lia).
  destruct Hn as [Hn|]; [|lia]. pose proof (num_high l ltac:(lia) Hn). lia.
Qed.

(** The word of a vector with the sign bits that the code adds. *)
Lemma sign_word l : (0 < length l <= 64)%nat ->
  (if (length l <? 64)%nat && Z.testbit (unum l) (Z.of_nat (length l - 1)) then unum l .| (ones64 << length l) else unum l) =
  num true l mod 2 ^ 64.
Proof using.
  intros Hl. pose proof (unum_range l) as Hr. unfold num. cbn [andb].
  assert (E : Z.testbit (unum l) (Z.of_nat (length l - 1)) = is_one (bit_at l (length l - 1))).
  { unfold unum. rewrite Zbits_testbit, Nat2Z.id, (proj2 (Z.ltb_lt _ _)) by lia. done. }
  rewrite E. assert (2 ^ Z.of_nat (length l) <= 2 ^ 64) by (apply Z.pow_le_mono_r; lia).
  destruct (Nat.ltb_spec (length l) 64) as [Hlt|Hge]; cbn [andb].
  - destruct (is_one _); [|symmetry; apply Z.mod_small; lia].
    pose proof (sign_extend 64 (length l) (unum l) ltac:(lia) Hr) as Hx. change (Z.of_nat 64) with 64 in Hx.
    rewrite <- Hx, Z.mod_small; [done|]. apply is_word_shl64.
  - destruct (is_one (bit_at l (length l - 1))); replace (length l) with 64%nat by lia; change (Z.of_nat 64) with 64.
    + replace (length l) with 64%nat in Hr by lia. apply (Z.mod_unique_pos _ _ (-1)); lia.
    + replace (length l) with 64%nat in Hr by lia. symmetry. apply Z.mod_small. lia.
Qed.

Lemma sign_test n w : (0 < n < 64)%nat -> 0 <= w < 2 ^ Z.of_nat n ->
  (w .& ((ones64 << n) >> 1) =? 0) = negb (Z.testbit w (Z.of_nat (n - 1))).
Proof using.
  intros Hn Hw. apply eq_true_iff_eq. rewrite Z.eqb_eq, negb_true_iff.
  assert (Hbit : forall z, 0 <= z -> Z.testbit (w .& ((ones64 << n) >> 1)) z = (z =? Z.of_nat (n - 1)) && Z.testbit w z).
  { intros z Hz. rewrite Z.land_spec. destruct (Z.lt_ge_cases z (Z.of_nat n)) as [Hlt|Hge].
    - rewrite shr64_bit, shl64_bit by lia. destruct (Z.eqb_spec z (Z.of_nat (n - 1))) as [->|Hne].
      + rewrite ones64_bit, (proj2 (Z.ltb_lt _ _)), (proj2 (Z.leb_le _ _)), (proj2 (Z.ltb_lt _ _)) by lia. cbn. by rewrite andb_true_r.
      + rewrite (proj2 (Z.leb_gt _ _)) by lia. by rewrite !andb_false_r.
    - replace (Z.testbit w z) with false; [by rewrite andb_false_r|]. symmetry.
      rewrite <- (Z.mod_small w (2 ^ Z.of_nat n)) by done. apply Z.mod_pow2_bits_high. lia. }
  split.
  - intros H. specialize (Hbit (Z.of_nat (n - 1)) ltac:(lia)). rewrite H, Z.bits_0, Z.eqb_refl in Hbit. done.
  - intros H. apply Z.bits_inj'. intros z Hz. rewrite Z.bits_0, Hbit by done. destruct (Z.eqb_spec z (Z.of_nat (n - 1))) as [->|]; [done|done].
Qed.

Lemma sign_extend_word (p : plane) l : (0 < length l < 64)%nat -> length p = 1%nat -> p.[0] = unum l ->
  exists q, sign_extend_words p 1 (ones64 << length l) = q /\ length q = 1%nat /\ q.[0] = num true l mod 2 ^ 64.
Proof using.
  intros Hl Lp E. destruct p as [|w [|]]; try done. cbn in E. subst w. eexists. split; [done|].
  unfold sign_extend_words. cbn [Nat.sub word_at lookup list_lookup default from_option id].
  rewrite sign_test by (lia || apply unum_range). rewrite negb_involutive, <- sign_word by lia.
  rewrite (proj2 (Nat.ltb_lt _ _)) by lia. cbn [andb]. by destruct (Z.testbit _ _).
Qed.

(** The condition [ap[0] == LONG_MIN && bp[0] == -1]. *)
Lemma quot_min l : (0 < length l <= 64)%nat -> num true l = - 2 ^ 63 -> length l = 64%nat.
Proof using.
  intros Hl Hn. pose proof (unum_range l). pose proof (num_cases true l ltac:(lia)) as Hc.
  destruct (Nat.eq_dec (length l) 64%nat); [done|]. exfalso.
  assert (2 ^ Z.of_nat (length l) = 2 * 2 ^ Z.of_nat (length l - 1)) by (rewrite <- Z.pow_succ_r by lia; f_equal; lia).
  assert (2 ^ Z.of_nat (length l - 1) <= 2 ^ 62) by (apply Z.pow_le_mono_r; lia). lia.
Qed.

Lemma top_bit_only n : (0 < n)%nat -> vec_is (set_bit (vec4_fill n BIT4_0) (n - 1) BIT4_1) (bits_of_Z n (2 ^ Z.of_nat (n - 1))).
Proof using.
  intros Hn. apply vec_is_map.
  - apply set_bit_wf; [apply vec4_fill_wf|cbn [vec4_fill size]; lia].
  - by rewrite set_bit_size.
  - intros i Hi. rewrite set_bit_value by (apply vec4_fill_wf || (cbn [vec4_fill size]; lia)). rewrite vec4_fill_value by done.
    destruct (Nat.eqb_spec i (n - 1)) as [->|].
    + by rewrite Z.pow2_bits_true by lia.
    + by rewrite Z.pow2_bits_false by lia.
Qed.

(** The words of an operand of [%div/s], extended with the sign. *)
Lemma signed_operand v l : vec_is v l -> (0 < length l <= 64)%nat -> has_unknown l = false ->
  exists p, subarray v 0 (length l) false = Some p /\ length p = 1%nat /\
    let sign_bits := (word_count (length l) * 64 - length l)%nat in
    let q := if (sign_bits =? 0)%nat then p else sign_extend_words p (word_count (length l)) (ones64 << (64 - sign_bits)) in
    length q = 1%nat /\ q.[0] = num true l mod 2 ^ 64.
Proof using.
  intros V Hl Hx. pose proof (subarray_is v l V ltac:(lia)) as Sa. rewrite Hx in Sa. destruct Sa as (p & -> & Lp & Wp & _ & Bp).
  assert (Hwc : word_count (length l) = 1%nat).
  { pose proof (word_count_bounds (length l)). unfold BITS_PER_WORD in *. lia. }
  pose proof (word_num p l Hl Lp Wp Bp) as Ep. rewrite Hwc in *. exists p. split; [done|]. split; [done|]. cbv zeta.
  destruct (Nat.eqb_spec (1 * 64 - length l) 0) as [E|E].
  - split; [done|]. rewrite Ep, <- sign_word by done. rewrite (proj2 (Nat.ltb_ge _ _)) by lia. done.
  - replace (64 - (1 * 64 - length l))%nat with (length l) by lia.
    destruct (sign_extend_word p l ltac:(lia) Lp Ep) as (q & -> & Lq & Eq). done.
Qed.

Lemma zero_word z : - 2 ^ 63 <= z < 2 ^ 63 -> (z mod 2 ^ 64 =? 0) = (z =? 0).
Proof using.
  intros Hz. apply eq_true_iff_eq. rewrite !Z.eqb_eq. split; [|by intros ->].
  intros H. rewrite <- (s64_of_mod z Hz), H. done.
Qed.

Lemma zero_num sg l : has_unknown l = false -> (num sg l =? 0) = (unum l =? 0).
Proof using. intros Hx. apply eq_true_iff_eq. rewrite !Z.eqb_eq. by apply known_zero. Qed.

Lemma word_quot_range a b : - 2 ^ 63 <= a < 2 ^ 63 -> b <> 0 -> ~ (a = - 2 ^ 63 /\ b = -1) -> - 2 ^ 63 <= Z.quot a b < 2 ^ 63.
Proof using.
  intros Ha Hb Hm. pose proof (Z.quot_abs a b Hb) as Hq. destruct (Z.eq_dec (Z.abs b) 1) as [E|E].
  - assert (b = 1 \/ b = -1) as [-> | ->] by lia.
    + rewrite Z.quot_1_r. lia.
    + change (-1) with (- (1)). rewrite Z.quot_opp_r, Z.quot_1_r by lia. lia.
  - assert (Z.quot (Z.abs a) (Z.abs b) <= Z.quot (Z.abs a) 2).
    { rewrite !Z.quot_div_nonneg by lia. apply Z.div_le_compat_l; lia. }
    assert (Z.quot (Z.abs a) 2 <= 2 ^ 62) by (rewrite Z.quot_div_nonneg by lia; apply Z.div_le_upper_bound; lia).
    assert (Z.abs (Z.quot a b) <= 2 ^ 62) by lia. lia.
Qed.

Lemma of_DIV_S_spec thr cp fl ws l r ls : represents thr (Abs fl ws (r :: l :: ls)) -> length l = length r -> (0 < length l <= 64)%nat ->
  runs_to (of_DIV_S thr cp) (pc thr) (Abs fl ws (quotient true l r :: ls)).
Proof using.
  intros H Hl H0. operands.
  match goal with A : vec_is ?x l, B : vec_is ?y r |- _ => rename A into Va; rename B into Vb; rename x into va; rename y into vb end.
  unfold of_DIV_S. cbn [pop_vec4 peek_vec4 stack_vec4_ mbind option_bind with_stack lookup list_lookup].
  rewrite (is_size va l Va), (is_size vb r Vb), <- Hl, Nat.eqb_refl. cbv zeta. unfold quotient.
  destruct (has_unknown l) eqn:Xl.
  { pose proof (subarray_is va l Va ltac:(lia)) as Sa. rewrite Xl in Sa. rewrite Sa. cbn. finish. apply vec_is_fill. }
  destruct (signed_operand va l Va H0 Xl) as (a & -> & La & Ha).
  destruct (has_unknown r) eqn:Xr.
  { pose proof (subarray_is vb r Vb ltac:(lia)) as Sb. rewrite Xr, <- Hl in Sb. rewrite Sb. cbn. finish. apply vec_is_fill. }
  destruct (signed_operand vb r Vb ltac:(lia) Xr) as (b & Eb & Lb & Hb). rewrite <- Hl in Eb, Hb. rewrite Eb. clear Eb. cbn [orb].
  cbv zeta in Ha, Hb. set (sb := (word_count (length l) * 64 - length l)%nat) in *.
  pose proof (num_range64 l H0) as Rl. pose proof (num_range64 r ltac:(lia)) as Rr. rewrite <- (zero_num true r Xr).
  set (mask := if (sb =? 0)%nat then 0 else ones64 << (64 - sb)).
  assert (Hmask : forall w, is_word w -> u64 w .& .~ mask = w mod 2 ^ Z.of_nat (length l)).
  { intros w Ww. rewrite u64_small by done. unfold mask. assert (word_count (length l) = 1%nat).
    { pose proof (word_count_bounds (length l)). unfold BITS_PER_WORD in *. lia. }
    destruct (Nat.eqb_spec sb 0) as [E|E].
    - change (.~ 0) with ones64. rewrite id64 by done. unfold sb in E. replace (length l) with 64%nat by lia. symmetry. by apply Z.mod_small.
    - unfold sb in *. replace (64 - (word_count (length l) * 64 - length l))%nat with (length l) by lia. apply tail_mask_land; [lia|done]. }
  assert (Hsel : (if (sb =? 0)%nat then (a, b) else (sign_extend_words a (word_count (length l)) mask, sign_extend_words b (word_count (length l)) mask))
    = (if (sb =? 0)%nat then a else sign_extend_words a (word_count (length l)) (ones64 << (64 - sb)),
       if (sb =? 0)%nat then b else sign_extend_words b (word_count (length l)) (ones64 << (64 - sb)))).
  { unfold mask. by destruct (sb =? 0)%nat. }
  rewrite Hsel. clear Hsel. revert Ha Hb. generalize (if (sb =? 0)%nat then a else sign_extend_words a (word_count (length l)) (ones64 << (64 - sb))).
  generalize (if (sb =? 0)%nat then b else sign_extend_words b (word_count (length l)) (ones64 << (64 - sb))).
  intros q p' [Lp Ep] [Lq Eq]. cbv beta iota. rewrite (proj2 (Nat.leb_le _ _)) by lia.
  rewrite Ep, Eq, zero_word, !s64_of_mod by done.
  destruct (Z.eqb_spec (num true r) 0) as [E|E]; [cbn; finish; apply vec_is_fill|].
  match goal with |- context [if _ && _ then _ else ?k] => set (divide := k) end.
  assert (Hquot : ~ (num true l = - 2 ^ 63 /\ num true r = -1) ->
    runs_to divide p (Abs fl ws (arith (length l) false (Z.quot (num true l) (num true r)) :: ls))).
  { intros Hm. pose proof (word_quot_range _ _ Rl E Hm) as Rq. set (z := Z.quot (num true l) (num true r)) in *. unfold divide.
    assert (Hz : u64 z .& .~ mask = z mod 2 ^ Z.of_nat (length l)).
    { unfold u64. rewrite <- (u64_small (z mod 2 ^ 64)) by apply u64_range. rewrite Hmask by apply u64_range.
      unfold u64. rewrite Z.mod_mod_divide; [done|]. exists (2 ^ (64 - Z.of_nat (length l))). rewrite <- Z.pow_add_r by lia. f_equal. lia. }
    rewrite Hz. assert (Hw : is_word (z mod 2 ^ Z.of_nat (length l))).
    { pose proof (Z.mod_pos_bound z (2 ^ Z.of_nat (length l)) ltac:(lia)).
      assert (2 ^ Z.of_nat (length l) <= 2 ^ 64) by (apply Z.pow_le_mono_r; lia). split; lia. }
    assert (Lw : length p' = word_count (length l)).
    { pose proof (word_count_bounds (length l)). unfold BITS_PER_WORD in *. lia. }
    destruct (setarray_word va l p' _ Va H0 Lw Hw) as (v & -> & V). cbn. finish. eapply vec_is_ext; [exact V|].
    apply bits_of_Z_mod. by rewrite Zmod_mod. }
  destruct (Z.eqb_spec (num true l) LONG_MIN) as [Em|Em]; cbn [andb]; [destruct (Z.eqb_spec (num true r) (-1)) as [E1|E1]|]; cbn [arith].
  - cbn. finish. eapply vec_is_ext; [apply (top_bit_only (length l)); lia|]. rewrite Em, E1. change (Z.quot LONG_MIN (-1)) with (2 ^ 63).
    by rewrite (quot_min l H0 Em).
  - apply Hquot. by intros [_ ?].
  - apply Hquot. by intros [? _].
Qed.

(** ** Remainder *)

Lemma unknown_code a b : negb ((bit4_to_int a .| bit4_to_int b) .& 2 =? 0) = bit4_is_xz a || bit4_is_xz b.
Proof using. by destruct a, b. Qed.

Lemma add_bit w b n : 0 <= w < 2 ^ Z.of_nat n -> (n < 64)%nat -> bit4_is_xz b = false ->
  w .| (bit4_to_int b << n) = w + Z.b2z (is_one b) * 2 ^ Z.of_nat n.
Proof using.
  intros Hw Hn Hb. assert (2 ^ Z.of_nat n < 2 ^ 64) by (apply Z.pow_lt_mono_r; lia).
  destruct b; try done; cbn [bit4_to_int is_one]; unfold shl64, u64.
  - rewrite Z.shiftl_0_l, Z.mod_0_l, Z.lor_0_r by lia. change (Z.b2z (is_one BIT4_0)) with 0. lia.
  - rewrite Z.shiftl_1_l, Z.mod_small by lia. change (Z.b2z (is_one BIT4_1)) with 1. rewrite Z.mul_1_l.
    symmetry. rewrite <- Z.lxor_lor; [apply Z.add_nocarry_lxor|].
    all: apply Z.bits_inj'; intros z Hz; rewrite Z.land_spec, Z.bits_0; destruct (Z.eq_dec z (Z.of_nat n)) as [->|];
      [rewrite <- (Z.mod_small w (2 ^ Z.of_nat n)), Z.mod_pow2_bits_high by lia; done|rewrite Z.pow2_bits_false, andb_false_r by lia; done].
Qed.

Lemma mod_read_spec va vb l r n : forall idx, vec_is va l -> vec_is vb r -> length l = length r -> (idx + n = length l)%nat -> (length l <= 64)%nat ->
  (forall i, (i < idx)%nat -> bit4_is_xz (bit_at l i) || bit4_is_xz (bit_at r i) = false) ->
  mod_read n idx va vb (low_num l idx) (low_num r idx) =
    if has_unknown l || has_unknown r then None else Some (unum l, unum r).
Proof using.
  induction n as [|n IH]; intros idx Va Vb Hl Hn H64 Hk; cbn [mod_read].
  - replace (has_unknown l || has_unknown r) with false.
    + unfold unum. rewrite <- Hl. replace idx with (length l) by lia. done.
    + symmetry. apply orb_false_iff. rewrite !has_unknown_false. split; intros i Hi; specialize (Hk i ltac:(lia)); apply orb_false_iff in Hk as [? ?]; done.
  - rewrite unknown_code, (is_bits va l), (is_bits vb r) by done.
    destruct (bit4_is_xz (bit_at l idx) || bit4_is_xz (bit_at r idx)) eqn:E.
    + replace (has_unknown l || has_unknown r) with true; [done|]. symmetry. apply not_false_iff_true. intros [Xl Xr]%orb_false_iff.
      rewrite has_unknown_false in *. rewrite Xl, Xr in E by lia. done.
    + apply orb_false_iff in E as [El Er]. rewrite !add_bit by (done || lia || apply low_num_range).
      rewrite <- !low_num_S. apply IH; [done|done|done|lia|done|]. intros i Hi.
      destruct (Nat.eq_dec i idx) as [->|]; [by rewrite El, Er|apply Hk; lia].
Qed.

Lemma write_bits_is v l z : vec_is v l -> vec_is (write_bits (length l) z v) (bits_of_Z (length l) z).
Proof using.
  intros V. unfold write_bits.
  assert (Hl : forall n idx w u, vec_wf w -> size w = length l -> (idx + n <= length l)%nat ->
    let '(w', _) := for_loop n idx (fun idx '(vala, lv) =>
      (set_bit vala idx (if negb (lv .& 1 =? 0) then BIT4_1 else BIT4_0), Z.shiftr lv 1)) (w, u) in
    vec_wf w' /\ size w' = length l /\ forall i, value w' i =
      if ((idx <=? i) && (i <? idx + n))%nat then bit4_of_bool (Z.testbit u (Z.of_nat (i - idx))) else value w i).
  { induction n as [|n IH]; intros idx w u Ww Sw Hn; cbn [for_loop].
    - split; [done|]. split; [done|]. intros i. destruct (Nat.leb_spec idx i), (Nat.ltb_spec i (idx + 0)); (done || lia).
    - set (w1 := set_bit w idx _). specialize (IH (S idx) w1 (Z.shiftr u 1)).
      destruct (for_loop n (S idx) _ _) as [w' u']. destruct IH as (W' & S' & B').
      { apply set_bit_wf; [done|lia]. } { unfold w1. by rewrite set_bit_size. } { lia. }
      split; [done|]. split; [done|]. intros i. rewrite B'. unfold w1. rewrite set_bit_value by (done || lia).
      rewrite land_1_bit. destruct (Nat.eq_dec i idx) as [->|Hne].
      + decide_nat. rewrite Nat.sub_diag. change (Z.of_nat 0) with 0. by destruct (Z.testbit u 0).
      + rewrite (proj2 (Nat.eqb_neq _ _)) by done. destruct (Nat.leb_spec (S idx) i), (Nat.leb_spec idx i); try lia; cbn [andb]; [|done].
        replace (S idx + n)%nat with (idx + S n)%nat by lia. destruct (_ <? _)%nat; [|done].
        rewrite Z.shiftr_spec by lia. do 2 f_equal. lia. }
  specialize (Hl (length l) 0%nat v z (is_wf v l V) (is_size v l V) ltac:(lia)).
  destruct (for_loop _ _ _ _) as [w' u']. destruct Hl as (W & S & B). apply vec_is_map; [done|done|]. intros i Hi.
  rewrite B. decide_nat. by rewrite Nat.sub_0_r.
Qed.

Lemma of_MOD_spec thr cp fl ws l r ls : represents thr (Abs fl ws (r :: l :: ls)) -> length l = length r -> (0 < length l <= 64)%nat ->
  runs_to (of_MOD thr cp) (pc thr) (Abs fl ws (remainder false l r :: ls)).
Proof using.
  intros H Hl H0. operands.
  match goal with A : vec_is ?x l, B : vec_is ?y r |- _ => rename A into Va; rename B into Vb; rename x into va; rename y into vb end.
  unfold of_MOD. cbn [pop_vec4 peek_vec4 stack_vec4_ mbind option_bind with_stack lookup list_lookup].
  rewrite (is_size va l Va), (is_size vb r Vb), <- Hl, Nat.eqb_refl. cbv zeta. rewrite (proj2 (Nat.leb_le _ _)) by lia.
  change (mod_read (length l) 0 va vb 0 0) with (mod_read (length l) 0 va vb (low_num l 0) (low_num r 0)).
  rewrite (mod_read_spec va vb l r) by (done || lia). unfold remainder, num. cbn [andb].
  destruct (has_unknown l || has_unknown r); [cbn; finish; apply vec_is_fill|]. cbn [orb]. cbv beta iota.
  destruct (Z.eqb_spec (unum r) 0) as [E|E]; [cbn; finish; apply vec_is_fill|].
  pose proof (unum_range l). pose proof (unum_range r). rewrite Z.rem_mod_nonneg by lia. cbn. finish. by apply write_bits_is.
Qed.

Lemma of_MOD_S_spec thr cp fl ws l r ls : represents thr (Abs fl ws (r :: l :: ls)) -> length l = length r -> (0 < length l <= 64)%nat ->
  runs_to (of_MOD_S thr cp) (pc thr) (Abs fl ws (remainder true l r :: ls)).
Proof using.
  intros H Hl H0. operands.
  match goal with A : vec_is ?x l, B : vec_is ?y r |- _ => rename A into Va; rename B into Vb; rename x into va; rename y into vb end.
  unfold of_MOD_S. cbn [pop_vec4 peek_vec4 stack_vec4_ mbind option_bind with_stack lookup list_lookup].
  rewrite (is_size va l Va), (is_size vb r Vb), <- Hl, Nat.eqb_refl. cbv zeta. rewrite (proj2 (Nat.leb_le _ _)) by lia.
  change (mod_read (length l) 0 va vb 0 0) with (mod_read (length l) 0 va vb (low_num l 0) (low_num r 0)).
  rewrite (mod_read_spec va vb l r) by (done || lia). unfold remainder.
  destruct (has_unknown l || has_unknown r); [cbn; finish; apply vec_is_fill|]. cbn [orb]. cbv beta iota.
  destruct (Z.eqb_spec (unum r) 0) as [E|E]; [cbn; finish; apply vec_is_fill|].
  pose proof (unum_range l). pose proof (unum_range r).
  assert (Hext : forall m, (0 < length m <= 64)%nat ->
    s64 (if (length m <? 64)%nat && negb (unum m .& (1 << (length m - 1)) =? 0) then unum m .| (ones64 << length m) else unum m) = num true m).
  { intros m Hm. assert (is_word (unum m)).
    { pose proof (unum_range m). assert (2 ^ Z.of_nat (length m) <= 2 ^ 64) by (apply Z.pow_le_mono_r; lia). split; lia. }
    rewrite top_bit_clear, negb_involutive, sign_word by done. by apply s64_of_mod, num_range64. }
  pose proof (Hext r ltac:(lia)) as Er. rewrite <- Hl in Er. rewrite (Hext l H0), Er.
  match goal with |- context [if ?b then _ else _] => destruct b eqn:Em end; [|cbn; finish; by apply write_bits_is].
  apply andb_true_iff in Em as [E1%Z.eqb_eq E2%Z.eqb_eq]. unfold LONG_MIN in E1.
  assert (H64 : length l = 64%nat).
  { destruct (Nat.eq_dec (length l) 64%nat); [done|]. exfalso.
    assert (2 ^ Z.of_nat (length l) <= 2 ^ 63) by (apply Z.pow_le_mono_r; lia).
    rewrite <- (Z.mod_small (unum l) (2 ^ 64)), s64_of_mod in E1 by lia. lia. }
  assert (Hs : forall m, length m = 64%nat -> num true m = s64 (unum m)).
  { intros m Hm. rewrite <- Hext, Hm by lia. done. }
  rewrite (Hs l), (Hs r), E1, E2 by congruence. cbn. finish.
  eapply vec_is_ext; [apply vec_is_fill|]. rewrite H64. vm_compute. done.
Qed.
End Spec.
