(* ===== verification/Machine.v ===== *)
(** * Machine: the code space, the assembler and the run loop

    The opcodes of Thread and ThreadDiv by their mnemonics (vvp/compile.cc), the
    translation of assembly lines to instructions, and the loop of a thread
    (vvp/vthread.cc).  Symbols are kept as numbers, not as their text; the chunks
    of the code space are one list. *)

From Stdlib Require Import String.
From S2P Require Import Prelude FourState Vector4 Thread ThreadDiv.
Import Bit4.

Open Scope ivl_scope.

(** The handlers, [vvp_code_fun]. *)
Inductive vm_op : Type :=
  | OP_ADD
  | OP_ADDI
  | OP_AND
  | OP_ANDR
  | OP_BLEND
  | OP_CASSIGN_VEC4
  | OP_CASSIGN_VEC4_OFF
  | OP_CAST2
  | OP_CMPE
  | OP_CMPNE
  | OP_CMPS
  | OP_CMPU
  | OP_CMPWE
  | OP_CMPWNE
  | OP_CMPX
  | OP_CMPZ
  | OP_CMPIE
  | OP_CMPINE
  | OP_CMPIS
  | OP_CMPIU
  | OP_CMPIX_LTU
  | OP_CMPIX_SLT0
  | OP_CONCAT_VEC4
  | OP_CONCATI_VEC4
  | OP_DEASSIGN
  | OP_DIV
  | OP_DIV_S
  | OP_DUP_VEC4
  | OP_FLAG_GET_VEC4
  | OP_FLAG_INV
  | OP_FLAG_MOV
  | OP_FLAG_OR
  | OP_FLAG_SET_IMM
  | OP_FLAG_SET_VEC4
  | OP_FORCE_VEC4
  | OP_FORCE_VEC4_OFF
  | OP_INV
  | OP_IX_ADD
  | OP_IX_GETV
  | OP_IX_GETV_S
  | OP_IX_LOAD
  | OP_IX_MOV
  | OP_IX_MUL
  | OP_IX_SUB
  | OP_IX_VEC4
  | OP_IX_VEC4_S
  | OP_JMP
  | OP_JMP0
  | OP_JMP0XZ
  | OP_JMP1
  | OP_JMP1XZ
  | OP_LOAD_VEC4
  | OP_MOD
  | OP_MOD_S
  | OP_MUL
  | OP_MULI
  | OP_NAND
  | OP_NANDR
  | OP_NOOP
  | OP_NOR
  | OP_NORR
  | OP_OR
  | OP_ORR
  | OP_PAD_S
  | OP_PAD_U
  | OP_PART_S
  | OP_PART_U
  | OP_PARTI_S
  | OP_PARTI_U
  | OP_POP_VEC4
  | OP_POW
  | OP_POW_S
  | OP_PUSH_IX_VEC4
  | OP_PUSHI_VEC4
  | OP_RELEASE_NET
  | OP_RELEASE_REG
  | OP_REPLICATE
  | OP_SHIFTL
  | OP_SHIFTR
  | OP_SHIFTR_S
  | OP_SPLIT_VEC4
  | OP_STORE_VEC4
  | OP_SUB
  | OP_SUBI
  | OP_XNOR
  | OP_XNORR
  | OP_XOR
  | OP_XORR.

Definition vvp_code_t : Type := vvp_code_s vm_op.

(** [(cp->opcode)(thr, cp)]; an instruction that writes to a net is not one of the
    thread alone (see Process). *)
Definition call_opcode `{World} (thr : vthread_s) (cp : vvp_code_t) : option (vthread_s * bool) :=
  match opcode cp with
  | OP_ADD => of_ADD thr cp
  | OP_ADDI => of_ADDI thr cp
  | OP_AND => of_AND thr cp
  | OP_ANDR => of_ANDR thr cp
  | OP_BLEND => of_BLEND thr cp
  | OP_CAST2 => of_CAST2 thr cp
  | OP_CMPE => of_CMPE thr cp
  | OP_CMPNE => of_CMPNE thr cp
  | OP_CMPS => of_CMPS thr cp
  | OP_CMPU => of_CMPU thr cp
  | OP_CMPWE => of_CMPWE thr cp
  | OP_CMPWNE => of_CMPWNE thr cp
  | OP_CMPX => of_CMPX thr cp
  | OP_CMPZ => of_CMPZ thr cp
  | OP_CMPIE => of_CMPIE thr cp
  | OP_CMPINE => of_CMPINE thr cp
  | OP_CMPIS => of_CMPIS thr cp
  | OP_CMPIU => of_CMPIU thr cp
  | OP_CMPIX_LTU => of_CMPIX_LTU thr cp
  | OP_CMPIX_SLT0 => of_CMPIX_SLT0 thr cp
  | OP_CONCAT_VEC4 => of_CONCAT_VEC4 thr cp
  | OP_CONCATI_VEC4 => of_CONCATI_VEC4 thr cp
  | OP_DIV => of_DIV thr cp
  | OP_DIV_S => of_DIV_S thr cp
  | OP_DUP_VEC4 => of_DUP_VEC4 thr cp
  | OP_FLAG_GET_VEC4 => of_FLAG_GET_VEC4 thr cp
  | OP_FLAG_INV => of_FLAG_INV thr cp
  | OP_FLAG_MOV => of_FLAG_MOV thr cp
  | OP_FLAG_OR => of_FLAG_OR thr cp
  | OP_FLAG_SET_IMM => of_FLAG_SET_IMM thr cp
  | OP_FLAG_SET_VEC4 => of_FLAG_SET_VEC4 thr cp
  | OP_INV => of_INV thr cp
  | OP_IX_ADD => of_IX_ADD thr cp
  | OP_IX_GETV => of_IX_GETV thr cp
  | OP_IX_GETV_S => of_IX_GETV_S thr cp
  | OP_IX_LOAD => of_IX_LOAD thr cp
  | OP_IX_MOV => of_IX_MOV thr cp
  | OP_IX_MUL => of_IX_MUL thr cp
  | OP_IX_SUB => of_IX_SUB thr cp
  | OP_IX_VEC4 => of_IX_VEC4 thr cp
  | OP_IX_VEC4_S => of_IX_VEC4_S thr cp
  | OP_JMP => of_JMP thr cp
  | OP_JMP0 => of_JMP0 thr cp
  | OP_JMP0XZ => of_JMP0XZ thr cp
  | OP_JMP1 => of_JMP1 thr cp
  | OP_JMP1XZ => of_JMP1XZ thr cp
  | OP_LOAD_VEC4 => of_LOAD_VEC4 thr cp
  | OP_MOD => of_MOD thr cp
  | OP_MOD_S => of_MOD_S thr cp
  | OP_MUL => of_MUL thr cp
  | OP_MULI => of_MULI thr cp
  | OP_NAND => of_NAND thr cp
  | OP_NANDR => of_NANDR thr cp
  | OP_NOOP => of_NOOP thr cp
  | OP_NOR => of_NOR thr cp
  | OP_NORR => of_NORR thr cp
  | OP_OR => of_OR thr cp
  | OP_ORR => of_ORR thr cp
  | OP_PAD_S => of_PAD_S thr cp
  | OP_PAD_U => of_PAD_U thr cp
  | OP_PART_S => of_PART_S thr cp
  | OP_PART_U => of_PART_U thr cp
  | OP_PARTI_S => of_PARTI_S thr cp
  | OP_PARTI_U => of_PARTI_U thr cp
  | OP_POP_VEC4 => of_POP_VEC4 thr cp
  | OP_POW => of_POW thr cp
  | OP_POW_S => of_POW_S thr cp
  | OP_PUSH_IX_VEC4 => of_PUSH_IX_VEC4 thr cp
  | OP_PUSHI_VEC4 => of_PUSHI_VEC4 thr cp
  | OP_REPLICATE => of_REPLICATE thr cp
  | OP_SHIFTL => of_SHIFTL thr cp
  | OP_SHIFTR => of_SHIFTR thr cp
  | OP_SHIFTR_S => of_SHIFTR_S thr cp
  | OP_SPLIT_VEC4 => of_SPLIT_VEC4 thr cp
  | OP_SUB => of_SUB thr cp
  | OP_SUBI => of_SUBI thr cp
  | OP_XNOR => of_XNOR thr cp
  | OP_XNORR => of_XNORR thr cp
  | OP_XOR => of_XOR thr cp
  | OP_XORR => of_XORR thr cp
  | OP_CASSIGN_VEC4 | OP_CASSIGN_VEC4_OFF | OP_DEASSIGN | OP_FORCE_VEC4 | OP_FORCE_VEC4_OFF
  | OP_RELEASE_NET | OP_RELEASE_REG | OP_STORE_VEC4 => None
  end.

(** ** The run loop *)

Definition vthread_step `{World} (code : list vvp_code_t) (thr : vthread_s) : option (vthread_s * bool) :=
  cp ← code !! pc thr; call_opcode (with_pc thr (S (pc thr))) cp.

(** [for (;;)] in [vthread_run], at most [fuel] rounds. *)
Fixpoint vthread_run `{World} (fuel : nat) (code : list vvp_code_t) (thr : vthread_s) : option vthread_s :=
  match fuel with
  | O => None
  | S fuel => '(thr, rc) ← vthread_step code thr; if rc : bool then vthread_run fuel code thr else Some thr
  end.

(** ** The assembler *)

Inductive operand_e : Type := OA_NUMBER | OA_BIT1 | OA_BIT2 | OA_CODE_PTR | OA_FUNC_PTR.

Definition opcode_table : list (string * vm_op * list operand_e) := [
  ("%add", OP_ADD, []);
  ("%addi", OP_ADDI, [OA_BIT1; OA_BIT2; OA_NUMBER]);
  ("%and", OP_AND, []);
  ("%and/r", OP_ANDR, []);
  ("%blend", OP_BLEND, []);
  ("%cassign/vec4", OP_CASSIGN_VEC4, [OA_FUNC_PTR]);
  ("%cassign/vec4/off", OP_CASSIGN_VEC4_OFF, [OA_FUNC_PTR; OA_BIT1]);
  ("%cast2", OP_CAST2, []);
  ("%cmp/e", OP_CMPE, []);
  ("%cmp/ne", OP_CMPNE, []);
  ("%cmp/s", OP_CMPS, []);
  ("%cmp/u", OP_CMPU, []);
  ("%cmp/we", OP_CMPWE, []);
  ("%cmp/wne", OP_CMPWNE, []);
  ("%cmp/x", OP_CMPX, []);
  ("%cmp/z", OP_CMPZ, []);
  ("%cmpi/e", OP_CMPIE, [OA_BIT1; OA_BIT2; OA_NUMBER]);
  ("%cmpi/ne", OP_CMPINE, [OA_BIT1; OA_BIT2; OA_NUMBER]);
  ("%cmpi/s", OP_CMPIS, [OA_BIT1; OA_BIT2; OA_NUMBER]);
  ("%cmpi/u", OP_CMPIU, [OA_BIT1; OA_BIT2; OA_NUMBER]);
  ("%cmpix/ltu", OP_CMPIX_LTU, [OA_NUMBER; OA_BIT1]);
  ("%cmpix/slt0", OP_CMPIX_SLT0, [OA_NUMBER]);
  ("%concat/vec4", OP_CONCAT_VEC4, []);
  ("%concati/vec4", OP_CONCATI_VEC4, [OA_BIT1; OA_BIT2; OA_NUMBER]);
  ("%deassign", OP_DEASSIGN, [OA_FUNC_PTR; OA_BIT1; OA_BIT2]);
  ("%div", OP_DIV, []);
  ("%div/s", OP_DIV_S, []);
  ("%dup/vec4", OP_DUP_VEC4, []);
  ("%flag_get/vec4", OP_FLAG_GET_VEC4, [OA_NUMBER]);
  ("%flag_inv", OP_FLAG_INV, [OA_BIT1]);
  ("%flag_mov", OP_FLAG_MOV, [OA_BIT1; OA_BIT2]);
  ("%flag_or", OP_FLAG_OR, [OA_BIT1; OA_BIT2]);
  ("%flag_set/imm", OP_FLAG_SET_IMM, [OA_NUMBER; OA_BIT1]);
  ("%flag_set/vec4", OP_FLAG_SET_VEC4, [OA_NUMBER]);
  ("%force/vec4", OP_FORCE_VEC4, [OA_FUNC_PTR]);
  ("%force/vec4/off", OP_FORCE_VEC4_OFF, [OA_FUNC_PTR; OA_BIT1]);
  ("%inv", OP_INV, []);
  ("%ix/add", OP_IX_ADD, [OA_NUMBER; OA_BIT1; OA_BIT2]);
  ("%ix/getv", OP_IX_GETV, [OA_BIT1; OA_FUNC_PTR]);
  ("%ix/getv/s", OP_IX_GETV_S, [OA_BIT1; OA_FUNC_PTR]);
  ("%ix/load", OP_IX_LOAD, [OA_NUMBER; OA_BIT1; OA_BIT2]);
  ("%ix/mov", OP_IX_MOV, [OA_BIT1; OA_BIT2]);
  ("%ix/mul", OP_IX_MUL, [OA_NUMBER; OA_BIT1; OA_BIT2]);
  ("%ix/sub", OP_IX_SUB, [OA_NUMBER; OA_BIT1; OA_BIT2]);
  ("%ix/vec4", OP_IX_VEC4, [OA_NUMBER]);
  ("%ix/vec4/s", OP_IX_VEC4_S, [OA_NUMBER]);
  ("%jmp", OP_JMP, [OA_CODE_PTR]);
  ("%jmp/0", OP_JMP0, [OA_CODE_PTR; OA_BIT1]);
  ("%jmp/0xz", OP_JMP0XZ, [OA_CODE_PTR; OA_BIT1]);
  ("%jmp/1", OP_JMP1, [OA_CODE_PTR; OA_BIT1]);
  ("%jmp/1xz", OP_JMP1XZ, [OA_CODE_PTR; OA_BIT1]);
  ("%load/vec4", OP_LOAD_VEC4, [OA_FUNC_PTR]);
  ("%mod", OP_MOD, []);
  ("%mod/s", OP_MOD_S, []);
  ("%mul", OP_MUL, []);
  ("%muli", OP_MULI, [OA_BIT1; OA_BIT2; OA_NUMBER]);
  ("%nand", OP_NAND, []);
  ("%nand/r", OP_NANDR, []);
  ("%noop", OP_NOOP, []);
  ("%nor", OP_NOR, []);
  ("%nor/r", OP_NORR, []);
  ("%or", OP_OR, []);
  ("%or/r", OP_ORR, []);
  ("%pad/s", OP_PAD_S, [OA_NUMBER]);
  ("%pad/u", OP_PAD_U, [OA_NUMBER]);
  ("%part/s", OP_PART_S, [OA_NUMBER]);
  ("%part/u", OP_PART_U, [OA_NUMBER]);
  ("%parti/s", OP_PARTI_S, [OA_NUMBER; OA_BIT1; OA_BIT2]);
  ("%parti/u", OP_PARTI_U, [OA_NUMBER; OA_BIT1; OA_BIT2]);
  ("%pop/vec4", OP_POP_VEC4, [OA_NUMBER]);
  ("%pow", OP_POW, []);
  ("%pow/s", OP_POW_S, []);
  ("%push/ix/vec4", OP_PUSH_IX_VEC4, [OA_NUMBER; OA_BIT1; OA_BIT2]);
  ("%pushi/vec4", OP_PUSHI_VEC4, [OA_BIT1; OA_BIT2; OA_NUMBER]);
  ("%release/net", OP_RELEASE_NET, [OA_FUNC_PTR; OA_BIT1; OA_BIT2]);
  ("%release/reg", OP_RELEASE_REG, [OA_FUNC_PTR; OA_BIT1; OA_BIT2]);
  ("%replicate", OP_REPLICATE, [OA_NUMBER]);
  ("%shiftl", OP_SHIFTL, [OA_NUMBER]);
  ("%shiftr", OP_SHIFTR, [OA_NUMBER]);
  ("%shiftr/s", OP_SHIFTR_S, [OA_NUMBER]);
  ("%split/vec4", OP_SPLIT_VEC4, [OA_NUMBER]);
  ("%store/vec4", OP_STORE_VEC4, [OA_FUNC_PTR; OA_BIT1; OA_BIT2]);
  ("%sub", OP_SUB, []);
  ("%subi", OP_SUBI, [OA_BIT1; OA_BIT2; OA_NUMBER]);
  ("%xnor", OP_XNOR, []);
  ("%xnor/r", OP_XNORR, []);
  ("%xor", OP_XOR, []);
  ("%xor/r", OP_XORR, [])
]%string.

(** [T_<thread>.<n>] and [v<signal>_<word>]. *)
Inductive symbol : Type :=
  | SymCode (thread n : nat)
  | SymNet (sig word : nat).

#[export] Instance symbol_dec : EqDecision symbol.
Proof. solve_decision. Defined.

Inductive comp_operand : Type :=
  | L_NUMB (numb : Z)
  | L_SYMB (symb : symbol).

(** A line of a thread's code. *)
Inductive asm_line : Type :=
  | AsmLabel (label : symbol)
  | AsmCode (mnem : string) (opa : list comp_operand).

Definition is_code (line : asm_line) : bool := match line with AsmCode _ _ => true | AsmLabel _ => false end.

(** The value that [compile_codelabel] gives a label: the address of what follows. *)
Fixpoint code_address (pc : nat) (text : list asm_line) (label : symbol) : option nat :=
  match text with
  | [] => None
  | AsmLabel l :: text => if decide (l = label) then Some pc else code_address pc text label
  | AsmCode _ _ :: text => code_address (S pc) text label
  end.

Section Compile.
(** The values of the code labels, and the functors of the nets. *)
Variables (sym_codespace : symbol -> option nat) (sym_functors : symbol -> option nat).

Definition compile_operand (code : vvp_code_t) (argt : operand_e) (arg : comp_operand) : option vvp_code_t :=
  let 'Code op num b0 b1 ptr net := code in
  match argt, arg with
  | OA_BIT1, L_NUMB n => Some (Code op num (u32 n) b1 ptr net)
  | OA_BIT2, L_NUMB n => Some (Code op num b0 (u32 n) ptr net)
  | OA_NUMBER, L_NUMB n => Some (Code op (u64 n) b0 b1 ptr net)
  | OA_CODE_PTR, L_SYMB s => p ← sym_codespace s; Some (Code op num b0 b1 p net)
  | OA_FUNC_PTR, L_SYMB s => n ← sym_functors s; Some (Code op num b0 b1 ptr n)
  | _, _ => None
  end.

Fixpoint compile_operands (code : vvp_code_t) (argt : list operand_e) (opa : list comp_operand) : option vvp_code_t :=
  match argt, opa with
  | [], [] => Some code
  | t :: argt, a :: opa => code ← compile_operand code t a; compile_operands code argt opa
  | _, _ => None
  end.

Definition find_opcode (mnem : string) : option (vm_op * list operand_e) :=
  match find (fun row => String.eqb mnem row.1.1) opcode_table with
  | Some (_, op, argt) => Some (op, argt)
  | None => None
  end.

(** [None] is an error message of the assembler. *)
Definition compile_code (mnem : string) (opa : list comp_operand) : option vvp_code_t :=
  '(op, argt) ← find_opcode mnem; compile_operands (Code op 0 0 0 0 0) argt opa.

Fixpoint compile_text (text : list asm_line) : option (list vvp_code_t) :=
  match text with
  | [] => Some []
  | AsmLabel _ :: text => compile_text text
  | AsmCode mnem opa :: text => c ← compile_code mnem opa; cs ← compile_text text; Some (c :: cs)
  end.
End Compile.

(** The code of a text whose labels are resolved within it. *)
Definition assemble (sym_functors : symbol -> option nat) (text : list asm_line) : option (list vvp_code_t) :=
  compile_text (code_address 0 text) sym_functors text.
