(* ===== verification/MachineRun.v ===== *)
(** * MachineRun: the opcodes as an abstract stack machine, and its runs

    [effect] gives, for an instruction, its step on flags, words and the bits on the
    stack; [opcode_effect] shows that the opcodes take that step.  A fetched
    instruction takes it too; sequences of such steps are what code fragments do. *)

From stdpp Require Import relations.

From S2P Require Import Prelude FourState Vector4 Vector4Value Vector4Ops Vector4Arith Vector4Reduce Vector4Conv Vector4Array Bits Thread ThreadDiv.
From S2P Require Import ThreadSpec ThreadCmp ThreadData ThreadShift ThreadDivSpec Machine.
Import Bit4.

Open Scope ivl_scope.

(** Flags and words of the right number; nothing on the stack is empty. *)
Record state_ok (A : abs) : Prop := StateOk {
  ok_flags : length (a_flags A) = FLAGS_COUNT;
  ok_words : length (a_words A) = WORDS_COUNT;
  ok_word : Forall is_word (a_words A);
  ok_stack : Forall (fun l => (0 < length l)%nat) (a_stack A);
}.

(** The immediate vector of an instruction. *)
Definition imm_of (cp : vvp_code_t) : bits := imm_bits (Z.to_nat (number cp)) (bit_idx0 cp) (bit_idx1 cp).

(** The immediate is not empty and in its range. *)
Definition has_imm (cp : vvp_code_t) : Prop := (0 < Z.to_nat (number cp))%nat /\ is_word (bit_idx0 cp) /\ 0 <= bit_idx1 cp.

(** The binary opcodes that replace two vectors of one length by one. *)
Inductive binary_op : vm_op -> (bits -> bits -> bits) -> Prop :=
  | bin_add sg : binary_op OP_ADD (arith2 sg Z.add)
  | bin_sub sg : binary_op OP_SUB (arith2 sg Z.sub)
  | bin_mul sg : binary_op OP_MUL (arith2 sg Z.mul)
  | bin_and : binary_op OP_AND (zip_bits bit4_and)
  | bin_or : binary_op OP_OR (zip_bits bit4_or)
  | bin_xor : binary_op OP_XOR (zip_bits bit4_xor)
  | bin_nand : binary_op OP_NAND (zip_bits nand_bit)
  | bin_nor : binary_op OP_NOR (zip_bits nor_bit)
  | bin_xnor : binary_op OP_XNOR (zip_bits xnor_bit).

(** Those that have 64 bits at most. *)
Inductive division_op : vm_op -> (bits -> bits -> bits) -> Prop :=
  | div_u : division_op OP_DIV (quotient false)
  | div_s : division_op OP_DIV_S (quotient true)
  | mod_u : division_op OP_MOD (remainder false)
  | mod_s : division_op OP_MOD_S (remainder true).

Inductive immediate_op : vm_op -> (bits -> bits -> bits) -> Prop :=
  | imm_add sg : immediate_op OP_ADDI (arith2 sg Z.add)
  | imm_sub sg : immediate_op OP_SUBI (arith2 sg Z.sub)
  | imm_mul sg : immediate_op OP_MULI (arith2 sg Z.mul).

Inductive reduce_op : vm_op -> (bits -> vvp_bit4_t) -> Prop :=
  | red_and : reduce_op OP_ANDR and_all
  | red_nand : reduce_op OP_NANDR (fun l => bit4_not (and_all l))
  | red_or : reduce_op OP_ORR or_all
  | red_nor : reduce_op OP_NORR (fun l => bit4_not (or_all l))
  | red_xor : reduce_op OP_XORR xor_all
  | red_xnor : reduce_op OP_XNORR (fun l => bit4_not (xor_all l)).

(** The flags after a comparison. *)
Definition flags_e (l r : bits) (fl : list vvp_bit4_t) := eq_flags fl (eq_bit l r) (case_eq_bit l r).
Definition flags_ne (l r : bits) (fl : list vvp_bit4_t) := eq_flags fl (bit4_not (eq_bit l r)) (bit4_not (case_eq_bit l r)).
Definition flags_u (l r : bits) (fl : list vvp_bit4_t) := cmp_flags fl (eq_bit l r) (order_bit false Z.ltb l r) (case_eq_bit l r).
Definition flags_s (l r : bits) (fl : list vvp_bit4_t) := cmp_flags fl (signed_eq l r) (order_bit true Z.ltb l r) (case_eq_bit l r).
Definition flags_we (l r : bits) (fl : list vvp_bit4_t) := <[4%nat := wild_eq_bit l r]> fl.
Definition flags_wne (l r : bits) (fl : list vvp_bit4_t) := <[4%nat := bit4_not (wild_eq_bit l r)]> fl.
Definition flags_x (l r : bits) (fl : list vvp_bit4_t) := <[4%nat := casex_bit l r]> fl.
Definition flags_z (l r : bits) (fl : list vvp_bit4_t) := <[4%nat := casez_bit l r]> fl.

Inductive compare_op : vm_op -> (bits -> bits -> list vvp_bit4_t -> list vvp_bit4_t) -> Prop :=
  | cmp_e : compare_op OP_CMPE flags_e
  | cmp_ne : compare_op OP_CMPNE flags_ne
  | cmp_u : compare_op OP_CMPU flags_u
  | cmp_s : compare_op OP_CMPS flags_s
  | cmp_we : compare_op OP_CMPWE flags_we
  | cmp_wne : compare_op OP_CMPWNE flags_wne
  | cmp_x : compare_op OP_CMPX flags_x
  | cmp_z : compare_op OP_CMPZ flags_z.

Inductive comparei_op : vm_op -> (bits -> bits -> list vvp_bit4_t -> list vvp_bit4_t) -> Prop :=
  | cmpi_e : comparei_op OP_CMPIE flags_e
  | cmpi_ne : comparei_op OP_CMPINE flags_ne
  | cmpi_u : comparei_op OP_CMPIU flags_u
  | cmpi_s : comparei_op OP_CMPIS flags_s.

Inductive shift_op : vm_op -> (bits -> vvp_bit4_t) -> (vvp_bit4_t -> Z -> bits -> bits) -> Prop :=
  | shift_left : shift_op OP_SHIFTL (fun _ => BIT4_0) (fun _ => shl_bits)
  | shift_logic : shift_op OP_SHIFTR (fun _ => BIT4_0) shr_bits
  | shift_arith : shift_op OP_SHIFTR_S (fun l => bit_at l (length l - 1)) shr_bits.

(** The tests of the conditional jumps. *)
Inductive jump_op : vm_op -> (vvp_bit4_t -> bool) -> Prop :=
  | jump_0 : jump_op OP_JMP0 (fun b => bool_decide (b = BIT4_0))
  | jump_0xz : jump_op OP_JMP0XZ (fun b => negb (bool_decide (b = BIT4_1)))
  | jump_1 : jump_op OP_JMP1 (fun b => bool_decide (b = BIT4_1))
  | jump_1xz : jump_op OP_JMP1XZ (fun b => negb (bool_decide (b = BIT4_0))).

Create HintDb vm.
#[export] Hint Resolve of_ADD_spec of_SUB_spec of_MUL_spec of_AND_spec of_OR_spec of_XOR_spec of_NAND_spec of_NOR_spec of_XNOR_spec : vm.
#[export] Hint Resolve of_INV_spec of_ANDR_spec of_NANDR_spec of_ORR_spec of_NORR_spec of_XORR_spec of_XNORR_spec : vm.
#[export] Hint Resolve of_DIV_spec of_DIV_S_spec of_MOD_spec of_MOD_S_spec of_BLEND_spec of_CAST2_spec of_PAD_S_spec of_PAD_U_spec : vm.
#[export] Hint Resolve of_PART_base_spec of_PARTI_base_spec of_CONCAT_VEC4_spec of_CONCATI_VEC4_spec of_REPLICATE_spec : vm.
#[export] Hint Resolve of_SPLIT_VEC4_spec of_DUP_VEC4_spec of_POP_VEC4_spec of_SHIFTL_spec shift_right_spec : vm.
#[export] Hint Resolve of_FLAG_GET_spec of_FLAG_INV_spec of_FLAG_MOV_spec of_FLAG_OR_spec of_FLAG_SET_IMM_spec of_FLAG_SET_VEC4_spec : vm.
#[export] Hint Resolve of_CMPX_spec of_CMPZ_spec : vm.
#[export] Hint Resolve of_IX_LOAD_spec of_IX_SUB_spec of_LOAD_VEC4_spec of_JMP_spec goes_on : vm.
#[export] Hint Rewrite @length_imm length_repeat_bits length_quotient length_remainder : bits_len.
#[export] Hint Resolve do_CMPE_sets do_CMPNE_sets do_CMPU_sets do_CMPS_sets do_CMPWE_sets do_CMPWNE_sets : vm.

(** A comparison. *)
Ltac compare_goal :=
  first [eapply compare_code_spec | eapply comparei_code_spec]; first [eassumption | eauto 3 with vm].

Section Effect.
Context `{World}.

(** The step of [cp] from a state, where the program counter is [p] after the
    instruction is fetched. *)
Inductive effect (cp : vvp_code_t) (p : nat) : abs -> nat -> abs -> Prop :=
  | eff_pushi fl ws ls : opcode cp = OP_PUSHI_VEC4 -> has_imm cp ->
      effect cp p (Abs fl ws ls) p (Abs fl ws (imm_of cp :: ls))
  | eff_binary f fl ws l r ls : binary_op (opcode cp) f -> length l = length r ->
      effect cp p (Abs fl ws (r :: l :: ls)) p (Abs fl ws (f l r :: ls))
  | eff_division f fl ws l r ls : division_op (opcode cp) f -> length l = length r -> (length l <= 64)%nat ->
      effect cp p (Abs fl ws (r :: l :: ls)) p (Abs fl ws (f l r :: ls))
  | eff_immediate f fl ws l ls : immediate_op (opcode cp) f -> has_imm cp -> Z.to_nat (number cp) = length l ->
      effect cp p (Abs fl ws (l :: ls)) p (Abs fl ws (f l (imm_of cp) :: ls))
  | eff_inv fl ws l ls : opcode cp = OP_INV ->
      effect cp p (Abs fl ws (l :: ls)) p (Abs fl ws (not_bits l :: ls))
  | eff_reduce f fl ws l ls : reduce_op (opcode cp) f ->
      effect cp p (Abs fl ws (l :: ls)) p (Abs fl ws ([f l] :: ls))
  | eff_compare f fl ws l r ls : compare_op (opcode cp) f -> length l = length r ->
      effect cp p (Abs fl ws (r :: l :: ls)) p (Abs (f l r fl) ws ls)
  | eff_comparei f fl ws l ls : comparei_op (opcode cp) f -> has_imm cp -> Z.to_nat (number cp) = length l ->
      effect cp p (Abs fl ws (l :: ls)) p (Abs (f l (imm_of cp) fl) ws ls)
  | eff_blend fl ws l r ls : opcode cp = OP_BLEND -> length l = length r ->
      effect cp p (Abs fl ws (r :: l :: ls)) p (Abs fl ws (zip_bits blend_bit r l :: ls))
  | eff_cast2 fl ws l ls : opcode cp = OP_CAST2 ->
      effect cp p (Abs fl ws (l :: ls)) p (Abs fl ws (two_state l :: ls))
  | eff_pad (sg : bool) fl ws l ls : opcode cp = (if sg then OP_PAD_S else OP_PAD_U) -> (0 < Z.to_nat (number cp))%nat ->
      effect cp p (Abs fl ws (l :: ls)) p (Abs fl ws (fit sg (Z.to_nat (number cp)) l :: ls))
  | eff_part (sg : bool) fl ws l b ls : opcode cp = (if sg then OP_PART_S else OP_PART_U) ->
      let wid := Z.to_nat (number cp) in (0 < wid)%nat -> Z.of_nat (length l + wid) < 2 ^ 31 ->
      effect cp p (Abs fl ws (b :: l :: ls)) p
        (Abs fl ws ((if has_unknown (take 32 b) then xs wid else part_bits (s32 (num sg b)) wid l) :: ls))
  | eff_parti (sg : bool) fl ws l ls : opcode cp = (if sg then OP_PARTI_S else OP_PARTI_U) ->
      let wid := Z.to_nat (number cp) in (0 < wid)%nat -> Z.of_nat (length l + wid) < 2 ^ 31 ->
      0 <= bit_idx0 cp < 2 ^ 32 -> 0 < bit_idx1 cp -> (bit_idx1 cp < 32 -> bit_idx0 cp < 2 ^ bit_idx1 cp) ->
      effect cp p (Abs fl ws (l :: ls)) p
        (Abs fl ws (part_bits (s32 (parti_base sg (bit_idx0 cp) (bit_idx1 cp))) wid l :: ls))
  | eff_concat fl ws m l ls : opcode cp = OP_CONCAT_VEC4 ->
      effect cp p (Abs fl ws (l :: m :: ls)) p (Abs fl ws ((l ++ m) :: ls))
  | eff_concati fl ws m ls : opcode cp = OP_CONCATI_VEC4 -> has_imm cp ->
      effect cp p (Abs fl ws (m :: ls)) p (Abs fl ws ((imm_of cp ++ m) :: ls))
  | eff_replicate fl ws l ls : opcode cp = OP_REPLICATE -> (0 < Z.to_nat (number cp))%nat ->
      effect cp p (Abs fl ws (l :: ls)) p (Abs fl ws (repeat_bits (Z.to_nat (number cp)) l :: ls))
  | eff_split fl ws l ls : opcode cp = OP_SPLIT_VEC4 -> (0 < Z.to_nat (number cp) < length l)%nat ->
      effect cp p (Abs fl ws (l :: ls)) p (Abs fl ws (take (Z.to_nat (number cp)) l :: drop (Z.to_nat (number cp)) l :: ls))
  | eff_dup fl ws l ls : opcode cp = OP_DUP_VEC4 ->
      effect cp p (Abs fl ws (l :: ls)) p (Abs fl ws (l :: l :: ls))
  | eff_pop fl ws l ls : opcode cp = OP_POP_VEC4 -> number cp = 1 ->
      effect cp p (Abs fl ws (l :: ls)) p (Abs fl ws ls)
  | eff_noop A : opcode cp = OP_NOOP -> effect cp p A p A
  | eff_shift fill f fl ws l ls b4 v : shift_op (opcode cp) fill f ->
      fl !! 4%nat = Some b4 -> ws !! Z.to_nat (number cp) = Some v ->
      effect cp p (Abs fl ws (l :: ls)) p
        (Abs fl ws (shifted (length l) (fill l) (fun k => f (fill l) k l) b4 v :: ls))
  | eff_flag_get fl ws ls b : opcode cp = OP_FLAG_GET_VEC4 -> fl !! Z.to_nat (number cp) = Some b ->
      effect cp p (Abs fl ws ls) p (Abs fl ws ([b] :: ls))
  | eff_flag_inv fl ws ls b : opcode cp = OP_FLAG_INV -> fl !! Z.to_nat (bit_idx0 cp) = Some b ->
      effect cp p (Abs fl ws ls) p (Abs (<[Z.to_nat (bit_idx0 cp) := bit4_not b]> fl) ws ls)
  | eff_flag_mov fl ws ls b : opcode cp = OP_FLAG_MOV -> fl !! Z.to_nat (bit_idx1 cp) = Some b ->
      (Z.to_nat (bit_idx0 cp) < FLAGS_COUNT)%nat ->
      effect cp p (Abs fl ws ls) p (Abs (<[Z.to_nat (bit_idx0 cp) := b]> fl) ws ls)
  | eff_flag_or fl ws ls a b : opcode cp = OP_FLAG_OR ->
      fl !! Z.to_nat (bit_idx0 cp) = Some a -> fl !! Z.to_nat (bit_idx1 cp) = Some b ->
      effect cp p (Abs fl ws ls) p (Abs (<[Z.to_nat (bit_idx0 cp) := bit4_or a b]> fl) ws ls)
  | eff_flag_set_imm fl ws ls b : opcode cp = OP_FLAG_SET_IMM ->
      [BIT4_0; BIT4_1; BIT4_Z; BIT4_X] !! Z.to_nat (bit_idx0 cp) = Some b -> (Z.to_nat (number cp) < FLAGS_COUNT)%nat ->
      effect cp p (Abs fl ws ls) p (Abs (<[Z.to_nat (number cp) := b]> fl) ws ls)
  | eff_flag_set fl ws l ls : opcode cp = OP_FLAG_SET_VEC4 -> (Z.to_nat (number cp) < FLAGS_COUNT)%nat ->
      effect cp p (Abs fl ws (l :: ls)) p (Abs (<[Z.to_nat (number cp) := bit_at l 0]> fl) ws ls)
  | eff_ix_load fl ws ls : opcode cp = OP_IX_LOAD -> (Z.to_nat (number cp) < WORDS_COUNT)%nat ->
      effect cp p (Abs fl ws ls) p
        (Abs fl (<[Z.to_nat (number cp) := u64 (get_as_64_bit (bit_idx0 cp) (bit_idx1 cp))]> ws) ls)
  | eff_ix_sub fl ws ls w : opcode cp = OP_IX_SUB -> ws !! Z.to_nat (number cp) = Some w ->
      effect cp p (Abs fl ws ls) p
        (Abs fl (<[Z.to_nat (number cp) := u64 (w - get_as_64_bit (bit_idx0 cp) (bit_idx1 cp))]> ws) ls)
  | eff_ix_vec4 (sg : bool) fl ws l ls : opcode cp = (if sg then OP_IX_VEC4_S else OP_IX_VEC4) ->
      (Z.to_nat (number cp) < WORDS_COUNT)%nat -> sg = false \/ (length l <= 64)%nat ->
      effect cp p (Abs fl ws (l :: ls)) p
        (Abs (<[4%nat := (index_value sg l).1]> fl) (<[Z.to_nat (number cp) := (index_value sg l).2]> ws) ls)
  | eff_ix_getv (sg : bool) fl ws ls v l : opcode cp = (if sg then OP_IX_GETV_S else OP_IX_GETV) ->
      sig_vec4_value (net cp) = Some v -> vec_is v l -> (0 < length l)%nat ->
      (Z.to_nat (bit_idx0 cp) < WORDS_COUNT)%nat -> sg = false \/ (length l <= 64)%nat ->
      effect cp p (Abs fl ws ls) p
        (Abs (<[4%nat := (index_value sg l).1]> fl) (<[Z.to_nat (bit_idx0 cp) := (index_value sg l).2]> ws) ls)
  | eff_load fl ws ls v l : opcode cp = OP_LOAD_VEC4 -> sig_vec4_value (net cp) = Some v -> vec_is v l -> (0 < length l)%nat ->
      effect cp p (Abs fl ws ls) p (Abs fl ws (l :: ls))
  | eff_jmp A : opcode cp = OP_JMP -> schedule_stopped = false -> effect cp p A (cptr cp) A
  | eff_jump f fl ws ls b : jump_op (opcode cp) f -> schedule_stopped = false ->
      fl !! Z.to_nat (bit_idx0 cp) = Some b ->
      effect cp p (Abs fl ws ls) (if f b then cptr cp else p) (Abs fl ws ls).

Lemma imm_ok_of (cp : vvp_code_t) : has_imm cp -> imm_ok cp (Z.to_nat (number cp)).
Proof. intros (? & ? & ?). by constructor. Qed.

(** The opcode goes on at [p'] with the state [A']. *)
Definition steps_to (thr : vthread_s) (cp : vvp_code_t) (p' : nat) (A' : abs) : Prop := runs_to (call_opcode thr cp) p' A'.

(** Destructs the name of an opcode, in a hypothesis, and unfolds the call. *)
Ltac opcode_cases :=
  unfold call_opcode;
  match goal with
  | H : opcode ?cp = (if ?sg then _ else _) |- _ => destruct sg; rewrite H
  | H : opcode ?cp = _ |- _ => rewrite H
  | H : _ (opcode ?cp) _ _ |- _ => inversion H; subst; clear H
  | H : _ (opcode ?cp) _ |- _ => inversion H; subst; clear H
  end;
  try match goal with H : _ = opcode ?cp |- _ => rewrite <- H end.

Lemma head_nonempty fl ws l ls : state_ok (Abs fl ws (l :: ls)) -> (0 < length l)%nat.
Proof. intros [_ _ _ S]. by inversion S. Qed.

Lemma second_nonempty fl ws l m ls : state_ok (Abs fl ws (l :: m :: ls)) -> (0 < length m)%nat.
Proof. intros [_ _ _ S]. inversion S as [|? ? _ S']. by inversion S'. Qed.

Lemma immediate_call (handler : vthread_s -> vvp_code_t -> option (vthread_s * bool)) (f : bits -> bits -> bits) thr cp fl ws l ls :
  (forall thr cp fl ws l ls, represents thr (Abs fl ws (l :: ls)) -> imm_ok cp (length l) ->
     runs_to (handler thr cp) (pc thr) (Abs fl ws (f l (imm_bits (length l) (bit_idx0 cp) (bit_idx1 cp)) :: ls))) ->
  represents thr (Abs fl ws (l :: ls)) -> imm_ok cp (Z.to_nat (number cp)) -> Z.to_nat (number cp) = length l ->
  runs_to (handler thr cp) (pc thr) (Abs fl ws (f l (imm_of cp) :: ls)).
Proof. intros Hof R Hi Hn. unfold imm_of. rewrite Hn in *. by apply Hof. Qed.

Lemma comparei_call f g thr (cp : vvp_code_t) fl ws l ls : represents thr (Abs fl ws (l :: ls)) -> length fl = FLAGS_COUNT ->
  imm_ok cp (Z.to_nat (number cp)) -> Z.to_nat (number cp) = length l -> sets_flags f l (imm_of cp) g ->
  runs_to (comparei_code f thr cp) (pc thr) (Abs (g fl) ws ls).
Proof. intros R Hf Hi Hn Hg. unfold imm_of in Hg. rewrite Hn in *. by eapply comparei_code_spec. Qed.

Lemma stored_word fl ws ls i v : state_ok (Abs fl ws ls) -> ws !! i = Some v -> is_word v.
Proof. intros [_ _ Hw _] Hi. exact (Forall_lookup_1 _ _ _ _ Hw Hi). Qed.

Ltac imm_length := unfold imm_of; rewrite ?length_imm; congruence.

Lemma effect_call thr (cp : vvp_code_t) A p' A' : effect cp (pc thr) A p' A' -> state_ok A -> represents thr A ->
  runs_to (call_opcode thr cp) p' A'.
Proof.
  intros E W R. destruct E.
  all: try (pose proof (head_nonempty _ _ _ _ W) as Hne).
  all: try (pose proof (second_nonempty _ _ _ _ _ W) as Hne2).
  all: pose proof (ok_flags _ W) as Hfl; pose proof (ok_words _ W) as Hws; cbn [a_flags a_words a_stack] in Hfl, Hws.
  all: try (match goal with H : has_imm _ |- _ => pose proof (imm_ok_of _ H) as Himm end).
  all: opcode_cases.
  all: try (solve [eauto with vm | compare_goal | eauto 6 with vm lia]).
  - destruct Himm. by eapply pushi_spec.
  - apply immediate_call; [intros; by apply of_ADDI_spec|done..].
  - apply immediate_call; [intros; by apply of_SUBI_spec|done..].
  - apply immediate_call; [intros; by apply of_MULI_spec|done..].
  - eapply comparei_call; [eassumption|done|done|eassumption|]. apply do_CMPE_sets; imm_length.
  - eapply comparei_call; [eassumption|done|done|eassumption|]. apply do_CMPNE_sets; imm_length.
  - eapply comparei_call; [eassumption|done|done|eassumption|]. apply do_CMPU_sets; imm_length.
  - eapply comparei_call; [eassumption|done|done|eassumption|]. apply do_CMPS_sets; imm_length.
  - eapply of_SHIFTL_spec; eauto using stored_word.
  - eapply shift_right_spec; eauto using stored_word.
  - eapply shift_right_spec; eauto using stored_word. intros val V. rewrite (is_size val l V). apply V.
  - apply (of_IX_VEC4_exact true); [done|done|rewrite Hfl; unfold FLAGS_COUNT; lia|lia|done].
  - apply (of_IX_VEC4_exact false); [done|done|rewrite Hfl; unfold FLAGS_COUNT; lia|lia|done].
  - eapply (of_IX_GETV_exact true); eauto; [rewrite Hfl; unfold FLAGS_COUNT|]; lia.
  - eapply (of_IX_GETV_exact false); eauto; [rewrite Hfl; unfold FLAGS_COUNT|]; lia.
  - by apply (jump_if_spec (fun b => bool_decide (b = BIT4_0))).
  - by apply (jump_if_spec (fun b => negb (bool_decide (b = BIT4_1)))).
  - by apply (jump_if_spec (fun b => bool_decide (b = BIT4_1))).
  - by apply (jump_if_spec (fun b => negb (bool_decide (b = BIT4_0)))).
Qed.

(** ** The steps keep the state well formed *)

Lemma ok_cons fl ws l ls : state_ok (Abs fl ws ls) -> (0 < length l)%nat -> state_ok (Abs fl ws (l :: ls)).
Proof. intros [F W I S] Hl. constructor; [done..|]. by constructor. Qed.

Lemma ok_tail fl ws l ls : state_ok (Abs fl ws (l :: ls)) -> state_ok (Abs fl ws ls).
Proof. intros [F W I S]. inversion S. by constructor. Qed.

Lemma ok_flag fl fl' ws ls : state_ok (Abs fl ws ls) -> length fl' = length fl -> state_ok (Abs fl' ws ls).
Proof. intros [F W I S] Hl. constructor; cbn in *; [congruence|done..]. Qed.

Lemma ok_set_word fl ws ls i w : state_ok (Abs fl ws ls) -> is_word w -> state_ok (Abs fl (<[i := w]> ws) ls).
Proof. intros [F W I S] Hw. constructor; cbn in *; [done|by rewrite length_insert|by apply Forall_insert|done]. Qed.

Lemma index_value_word sg l : is_word (index_value sg l).2.
Proof. unfold index_value. destruct (has_unknown l); [apply is_word_0|apply u64_range]. Qed.

Lemma length_shifted n fill sh b4 v : length (sh v) = n -> length (shifted n fill sh b4 v) = n.
Proof. intros H1. unfold shifted. destruct (decide _); [apply length_xs|]. destruct (decide _); [apply repeat_length|done]. Qed.

Lemma effect_ok cp p A p' A' : effect cp p A p' A' -> state_ok A -> state_ok A'.
Proof.
  intros E W. destruct E; try done.
  all: try (pose proof (head_nonempty _ _ _ _ W) as Hne).
  all: try (pose proof (second_nonempty _ _ _ _ _ W) as Hne2).
  all: repeat match goal with H : has_imm _ |- _ => destruct H as (? & ? & ?) end.
  all: try match goal with H : opcode _ = _ |- _ => clear H end.
  all: try match goal with H : _ (opcode _) _ |- _ => inversion H; subst; clear H end.
  all: try match goal with H : _ (opcode _) _ _ |- _ => inversion H; subst; clear H end.
  all: try (match goal with |- state_ok (Abs (<[_ := _]> _) (<[_ := _]> _) _) =>
    apply ok_set_word; [|apply index_value_word]; apply (ok_flag fl); [|apply length_insert] end).
  all: try (match goal with |- state_ok (Abs _ (<[_ := _]> _) _) => apply ok_set_word; [|apply u64_range] end).
  all: try (match goal with |- state_ok (Abs ?g _ _) => is_var g; fail 1 | _ => apply (ok_flag fl);
    [|unfold flags_e, flags_ne, flags_u, flags_s, flags_we, flags_wne, flags_x, flags_z, eq_flags, cmp_flags; by rewrite ?length_insert] end).
  all: repeat match goal with |- state_ok (Abs _ _ (_ :: ?ls)) =>
    first [exact W | apply ok_cons; [eauto using ok_tail|]] end.
  all: try (solve [eauto using ok_tail]).
  all: try case_match; rewrite ?length_shifted by (by autorewrite with bits_len).
  all: unfold imm_of; autorewrite with bits_len; rewrite ?length_app, ?length_take, ?length_drop; autorewrite with bits_len; nia.
Qed.
End Effect.

(** ** Threads run their instructions *)

Section Run.
Context `{World}.
Implicit Types (code : list vvp_code_t) (thr : vthread_s) (cp : vvp_code_t) (A : abs).

Lemma step_spec code thr cp A p' A' : code !! pc thr = Some cp -> effect cp (S (pc thr)) A p' A' -> state_ok A -> represents thr A ->
  exists thr', vthread_step code thr = Some (thr', true) /\ pc thr' = p' /\ represents thr' A' /\ state_ok A'.
Proof.
  intros Hc He Hok R. assert (R' : represents (with_pc thr (S (pc thr))) A) by (destruct R; by constructor).
  destruct (effect_call (with_pc thr (S (pc thr))) cp A p' A' He Hok R') as (thr' & E & P & R1).
  exists thr'. unfold vthread_step. rewrite Hc. cbn [mbind option_bind]. rewrite E.
  split; [done|]. split; [done|]. split; [done|]. by eapply effect_ok.
Qed.

(** ** Sequences of steps *)

Definition one_step code thr thr' : Prop := vthread_step code thr = Some (thr', true).

(** From [p] with the state [A] the thread gets to [p'] with [A']. *)
Definition reaches code (p : nat) A (p' : nat) A' : Prop :=
  state_ok A -> forall thr, represents thr A -> pc thr = p ->
  exists thr', rtc (one_step code) thr thr' /\ pc thr' = p' /\ represents thr' A' /\ state_ok A'.

Lemma reaches_refl code p A : reaches code p A p A.
Proof. intros Hok thr R P. exists thr. split; [apply rtc_refl|done]. Qed.

Lemma reaches_trans code p A p1 A1 p2 A2 : reaches code p A p1 A1 -> reaches code p1 A1 p2 A2 -> reaches code p A p2 A2.
Proof.
  intros H1 H2 Hok thr R P. destruct (H1 Hok thr R P) as (t1 & S1 & P1 & R1 & O1).
  destruct (H2 O1 t1 R1 P1) as (t2 & S2 & P2 & R2 & O2). exists t2. split; [by eapply rtc_trans|done].
Qed.

Lemma reaches_step code p A cp p' A' : code !! p = Some cp -> (state_ok A -> effect cp (S p) A p' A') -> reaches code p A p' A'.
Proof.
  intros Hc He Hok thr R <-. destruct (step_spec code thr cp A p' A' Hc (He Hok) Hok R) as (t & E & P & R' & O').
  exists t. split; [by apply rtc_once|done].
Qed.

(** The steps of a run are the first rounds of [vthread_run]. *)
Lemma run_steps code thr thr' : rtc (one_step code) thr thr' ->
  exists n, forall fuel, vthread_run (n + fuel) code thr = vthread_run fuel code thr'.
Proof.
  induction 1 as [t|t1 t2 t3 S _ [n IH]]; [by exists 0%nat|]. exists (Datatypes.S n). intros fuel. cbn [vthread_run Nat.add].
  unfold one_step in S. rewrite S. cbn. apply IH.
Qed.
End Run.

(** C3. The opcodes refine an abstract stack machine on lists of bits, in the steps
    that [effect] lists: if the thread's flags and words are those of a well-formed
    abstract state and its stack of vectors holds the abstract bits, then executing
    the instruction at its program counter succeeds, and the thread goes on at the
    abstract machine's next program counter, holding the abstract machine's next
    state, which is well formed.  The steps are arithmetic modulo the width with x
    for unknown operands, four-state logic, reductions, the equalities, order,
    shifts, concatenations, flags, index registers and conditional jumps, of any
    width, and with these bounds: truncating division and its remainder of at most
    64 bits ([div_wide_wrong] shows a wide quotient that is wrong); a part whose base
    is what the code reads of it, its low 32 bits as a signed integer; a signed index
    of at most 64 bits; an immediate of at least one bit.  The flag eq is the [==] of
    the language after [%cmp/u], [%cmp/e] and [%cmp/ne]; after [%cmp/s] it is x
    whenever an operand has an unknown bit (see [signed_eq_of_unknown]). *)
Theorem vm_step_refines `{World} code thr cp A p' A' :
  code !! pc thr = Some cp -> effect cp (S (pc thr)) A p' A' -> state_ok A -> represents thr A ->
  exists thr', vthread_step code thr = Some (thr', true) /\ pc thr' = p' /\ represents thr' A' /\ state_ok A'.
Proof. apply step_spec. Qed.

(** A world without signals. *)
Definition no_signals : World := {| schedule_stopped := false; sig_vec4_value := fun _ => None |}.

Definition thread_with (s : list vvp_vector4_t) : vthread_s := Thr 0 (replicate FLAGS_COUNT BIT4_X) (replicate WORDS_COUNT 0) s 0.
Definition state_with (s : list bits) : abs := Abs (replicate FLAGS_COUNT BIT4_X) (replicate WORDS_COUNT 0) s.

Lemma state_with_ok s : Forall (fun l => (0 < length l)%nat) s -> state_ok (state_with s).
Proof. intros Hs. constructor; [apply length_replicate|apply length_replicate| |exact Hs]. apply Forall_replicate. split; lia. Qed.

Lemma thread_with_state s : Forall vec_wf s -> represents (thread_with s) (state_with (map bits_of s)).
Proof.
  intros Hs. constructor; [done|done|]. cbn. induction Hs; cbn; constructor; [|done]. by apply vec_is_bits_of.
Qed.

(** [%div/s] of -7 and 3. *)
Lemma vm_step_refines_witness :
  let cp := Code OP_DIV_S 0 0 0 0 0 in
  let l := vec4_of_Z 40 (2 ^ 40 - 7) in
  let r := vec4_of_Z 40 3 in
  exists thr', @vthread_step no_signals [cp] (thread_with [r; l]) = Some (thr', true) /\ pc thr' = 1%nat /\
    represents thr' (state_with [quotient true (bits_of l) (bits_of r)]) /\ state_ok (state_with [quotient true (bits_of l) (bits_of r)]).
Proof.
  cbv zeta. apply (@vm_step_refines no_signals [Code OP_DIV_S 0 0 0 0 0] (thread_with [vec4_of_Z 40 3; vec4_of_Z 40 (2 ^ 40 - 7)])
    (Code OP_DIV_S 0 0 0 0 0) (state_with (map bits_of [vec4_of_Z 40 3; vec4_of_Z 40 (2 ^ 40 - 7)]))).
  - reflexivity.
  - apply eff_division; [constructor|reflexivity|vm_compute; lia].
  - apply state_with_ok. repeat constructor; vm_compute; lia.
  - apply thread_with_state.
    repeat (apply List.Forall_cons; [apply vec_wf_dec_bool; vm_compute; reflexivity|]). apply List.Forall_nil.
Defined.

(** [%div] of wide vectors is not always the quotient: the estimate of a quotient
    word from the top word of the divisor can be far off.  For 2^128-1 divided by
    2^65-1 it pushes 2^64-1, not 2^63. *)
Lemma div_wide_wrong :
  let l := vec4_of_Z 128 (2 ^ 128 - 1) in
  let r := vec4_of_Z 128 (2 ^ 65 - 1) in
  exists v, of_DIV (thread_with [r; l]) (Code OP_DIV 0 0 0 0 0) = Some (thread_with [v], true) /\
    bits_of v = bits_of_Z 128 (2 ^ 64 - 1) /\ quotient false (bits_of l) (bits_of r) = bits_of_Z 128 (2 ^ 63).
Proof. cbv zeta. eexists. split; [vm_compute; reflexivity|]. split; vm_compute; reflexivity. Qed.

(** [%cmp/u] and [%cmp/s] differ in the flag eq as well: for operands with a pair of
    known bits that differ, and an unknown bit elsewhere, it is 0 after [%cmp/u],
    as [==] is, and x after [%cmp/s]. *)
Lemma signed_eq_of_unknown :
  let l := [BIT4_X; BIT4_1] in
  let r := [BIT4_0; BIT4_0] in
  let fl := replicate FLAGS_COUNT BIT4_0 in
  flags_u l r fl !! 4%nat = Some BIT4_0 /\ flags_s l r fl !! 4%nat = Some BIT4_X.
Proof. split; reflexivity. Qed.
