(* ===== verification/Codegen.v ===== *)
(** * Codegen: the code of vector expressions (tgt-vvp/eval_vec4.c, eval_condit.c, eval_expr.c)

    The code generator walks an elaborated expression and prints assembly lines; it
    numbers labels and allocates flags and index registers as it goes.  A computation
    is a function of that state that gives the lines it prints.  Expressions have
    vector values: reals, strings as such, objects and functions are not modelled,
    nor are the words of arrays. *)

From Stdlib Require Import String Ascii.
From S2P Require Import Prelude FourState Vector4 Thread Machine.

Open Scope ivl_scope.

(** ** Expressions, as ivl_target.h presents them *)

Inductive ivl_variable_type_t : Type := IVL_VT_BOOL | IVL_VT_LOGIC.

(** [ivl_expr_value], [ivl_expr_width] and [ivl_expr_signed]. *)
Record ivl_attr : Type := Attr { value_ : ivl_variable_type_t; width_ : nat; signed_ : bool }.

(** The characters of [ivl_expr_opcode]: [& | ^ ~ ! - A N X m 2]. *)
Inductive unary_op : Type :=
  | U_and | U_or | U_xor | U_inv | U_not | U_neg | U_nand | U_nor | U_xnor | U_abs | U_cast2.

(** [+ - * / % p], [& | ^ A O X], [e n E N w W], [< L > G], [a o], [l r R], [q Q]. *)
Inductive binary_op : Type :=
  | B_add | B_sub | B_mul | B_div | B_mod | B_pow
  | B_and | B_or | B_xor | B_nand | B_nor | B_xnor
  | B_eq | B_ne | B_ceq | B_cne | B_weq | B_wne
  | B_lt | B_le | B_gt | B_ge
  | B_land | B_lor
  | B_shl | B_shr | B_sar
  | B_impl | B_equiv.

#[export] Instance unary_op_dec : EqDecision unary_op.
Proof. solve_decision. Defined.
#[export] Instance binary_op_dec : EqDecision binary_op.
Proof. solve_decision. Defined.

Inductive ivl_expr_t : Type :=
  | IVL_EX_NUMBER (a : ivl_attr) (bits : list ascii)
  | IVL_EX_STRING (a : ivl_attr) (text : list ascii)
  | IVL_EX_SIGNAL (a : ivl_attr) (sig : nat)
  | IVL_EX_UNARY (a : ivl_attr) (op : unary_op) (oper1 : ivl_expr_t)
  | IVL_EX_BINARY (a : ivl_attr) (op : binary_op) (oper1 oper2 : ivl_expr_t)
  | IVL_EX_TERNARY (a : ivl_attr) (oper1 oper2 oper3 : ivl_expr_t)
  | IVL_EX_CONCAT (a : ivl_attr) (rept : nat) (parm : list ivl_expr_t)
  | IVL_EX_SELECT (a : ivl_attr) (oper1 : ivl_expr_t) (oper2 : option ivl_expr_t).

Definition attr_of (e : ivl_expr_t) : ivl_attr :=
  match e with
  | IVL_EX_NUMBER a _ | IVL_EX_STRING a _ | IVL_EX_SIGNAL a _ | IVL_EX_UNARY a _ _ | IVL_EX_BINARY a _ _ _
  | IVL_EX_TERNARY a _ _ _ | IVL_EX_CONCAT a _ _ | IVL_EX_SELECT a _ _ => a
  end.
Definition ivl_expr_width (e : ivl_expr_t) : nat := width_ (attr_of e).
Definition ivl_expr_signed (e : ivl_expr_t) : bool := signed_ (attr_of e).
Definition ivl_expr_value (e : ivl_expr_t) : ivl_variable_type_t := value_ (attr_of e).

(** ** The state of the generator *)

Record cg : Type := Cg {
  local_count : nat;
  word_alloc_mask : Z;
  allocate_flag_mask : list Z;
}.

(** What the generator starts with: words 0-3 and flags 0-7 are reserved. *)
Definition init_local_count : nat := 0.
Definition init_word_alloc_mask : Z := 0x0f.
Definition init_flag_mask : list Z := 0xff :: replicate 15 0.
Definition cg_init : cg := Cg init_local_count init_word_alloc_mask init_flag_mask.

(** The lines printed; [Exit] is [exit(1)], [Bug] a failed assertion or the end of the fuel. *)
Inductive outcome (A : Type) : Type :=
  | Done (a : A) (st : cg) (out : list asm_line)
  | Exit
  | Bug.
Arguments Done {_}. Arguments Exit {_}. Arguments Bug {_}.

Definition M (A : Type) : Type := cg -> outcome A.

#[export] Instance M_ret : MRet M := fun A a st => Done a st [].
#[export] Instance M_bind : MBind M := fun A B k m st =>
  match m st with
  | Done a st1 out1 =>
    match k a st1 with Done b st2 out2 => Done b st2 (out1 ++ out2) | Exit => Exit | Bug => Bug end
  | Exit => Exit
  | Bug => Bug
  end.

Definition bug {A} : M A := fun _ => Bug.
Definition assert_ (b : bool) : M unit := if b then mret tt else bug.

(** [fprintf(vvp_out, "    %s ...;\n")] *)
Definition emit (mnem : string) (opa : list comp_operand) : M unit := fun st => Done tt st [AsmCode mnem opa].
Definition num_ (n : nat) : comp_operand := L_NUMB (Z.of_nat n).

(** [local_count++] *)
Definition new_label : M nat := fun st =>
  Done (local_count st) (Cg (S (local_count st)) (word_alloc_mask st) (allocate_flag_mask st)) [].

(** ** Words (eval_real.c) and flags (vvp.c) *)

Definition WORD_COUNT : nat := 16.

(** [1U << n] *)
Definition bit_of (n : nat) : Z := Z.shiftl 1 (Z.of_nat n).

(** [while (res < WORD_COUNT && (1U << res) & word_alloc_mask) res += 1], [n] rounds. *)
Fixpoint word_scan (n res : nat) (mask : Z) : nat :=
  match n with
  | O => res
  | S n => if negb ((bit_of res .& mask) =? 0) then word_scan n (S res) mask else res
  end.

Definition allocate_word : M nat := fun st =>
  let res := word_scan (WORD_COUNT - 4) 4 (word_alloc_mask st) in
  if (WORD_COUNT <=? res)%nat then Exit
  else Done res (Cg (local_count st) (word_alloc_mask st .| bit_of res) (allocate_flag_mask st)) [].

Definition clr_word (res : nat) : M unit := fun st =>
  if (res <? WORD_COUNT)%nat then
    Done tt (Cg (local_count st) (word_alloc_mask st .& u32 (Z.lnot (bit_of res))) (allocate_flag_mask st)) []
  else Bug.

Definition flag_word (masks : list Z) (idx : nat) : Z := default 0 (masks !! (idx / 32)%nat).

(** The first free flag from [idx] on, of the [n] that are left. *)
Fixpoint flag_scan (n idx : nat) (masks : list Z) : option nat :=
  match n with
  | O => None
  | S n => if negb ((flag_word masks idx .& bit_of (idx mod 32)) =? 0) then flag_scan n (S idx) masks else Some idx
  end.

Definition allocate_flag : M nat := fun st =>
  let masks := allocate_flag_mask st in
  match flag_scan FLAGS_COUNT 0 masks with
  | None => Exit
  | Some idx =>
    Done idx (Cg (local_count st) (word_alloc_mask st)
      (<[(idx / 32)%nat := flag_word masks idx .| bit_of (idx mod 32)]> masks)) []
  end.

Definition clr_flag (idx : nat) : M unit := fun st =>
  let masks := allocate_flag_mask st in
  if (idx <? 8)%nat then Done tt st []
  else if (idx <? FLAGS_COUNT)%nat && negb ((flag_word masks idx .& bit_of (idx mod 32)) =? 0) then
    Done tt (Cg (local_count st) (word_alloc_mask st)
      (<[(idx / 32)%nat := flag_word masks idx .& u32 (Z.lnot (bit_of (idx mod 32)))]> masks)) []
  else Bug.

(** ** Numbers *)

Definition digit (c : ascii) (d : ascii) : bool := Ascii.eqb c d.

Definition is_number (e : ivl_expr_t) : bool := match e with IVL_EX_NUMBER _ _ => true | _ => false end.

Definition test_immediate_vec4_ok (re : ivl_expr_t) : bool :=
  match re with
  | IVL_EX_NUMBER a bits => (width_ a <=? 32)%nat || forallb (fun c => digit c "0") (drop 32 (take (width_ a) bits))
  | _ => false
  end.

(** The bits a character adds to [val0] and [valx]. *)
Definition digit_bits (c : ascii) : option (Z * Z) :=
  if digit c "0" then Some (0, 0)
  else if digit c "1" then Some (1, 0)
  else if digit c "x" then Some (1, 1)
  else if digit c "z" then Some (0, 1)
  else None.

Definition top_bit (val0 valx : Z) : bool := negb (((val0 .| valx) .& 0x80000000) =? 0).

(** The loop of [make_immediate_vec4_words], most significant character first. *)
Fixpoint immediate_words (bits : list ascii) (val0 valx : Z) : option (Z * Z) :=
  match bits with
  | [] => Some (val0, valx)
  | c :: bits =>
    if top_bit val0 valx then None
    else '(b0, bx) ← digit_bits c; immediate_words bits (u64 (Z.shiftl val0 1) .| b0) (u64 (Z.shiftl valx 1) .| bx)
  end.

Definition make_immediate_vec4_words (re : ivl_expr_t) : option (Z * Z * nat) :=
  match re with
  | IVL_EX_NUMBER a bits =>
    '(val0, valx) ← immediate_words (rev (take (width_ a) bits)) 0 0; Some (val0, valx, width_ a)
  | _ => None
  end.

Definition lift {A} (o : option A) : M A := match o with Some a => mret a | None => bug end.

Definition draw_immediate_vec4 (re : ivl_expr_t) (opcode : string) : M unit :=
  '(val0, valx, wid) ← lift (make_immediate_vec4_words re);
  emit opcode [L_NUMB val0; L_NUMB valx; num_ wid].

Definition resize_vec4_wid (expr : ivl_expr_t) (wid : nat) : M unit :=
  if (ivl_expr_width expr =? wid)%nat then mret tt
  else if ivl_expr_signed expr then emit "%pad/s" [num_ wid]
  else emit "%pad/u" [num_ wid].

Definition emit_number (count_pushi : nat) (val0 valx : Z) (accum : nat) : M unit :=
  if (count_pushi =? 0)%nat then emit "%pushi/vec4" [L_NUMB val0; L_NUMB valx; num_ accum]
  else emit "%concati/vec4" [L_NUMB val0; L_NUMB valx; num_ accum].

(** The loop of [draw_concat_number_vec4], most significant character first. *)
Fixpoint concat_number_loop (bits : list ascii) (count_pushi : nat) (val0 valx : Z) (accum : nat) : M unit :=
  match bits with
  | [] => if (accum =? 0)%nat then mret tt else emit_number count_pushi val0 valx accum
  | c :: bits =>
    '(b0, bx) ← lift (digit_bits c);
    let val0 := u64 (Z.shiftl val0 1) .| b0 in
    let valx := u64 (Z.shiftl valx 1) .| bx in
    let accum := S accum in
    if top_bit val0 valx then emit_number count_pushi val0 valx accum;; concat_number_loop bits (S count_pushi) 0 0 0
    else concat_number_loop bits count_pushi val0 valx accum
  end.

Definition draw_concat_number_vec4 (a : ivl_attr) (bits : list ascii) (as_concati : bool) : M unit :=
  concat_number_loop (rev (take (width_ a) bits)) (if as_concati then 1 else 0)%nat 0 0 0.

Definition draw_number_vec4 (a : ivl_attr) (bits : list ascii) : M unit := draw_concat_number_vec4 a bits false.

(** ** Strings *)

Definition code_of (c : ascii) : Z := Z.of_nat (nat_of_ascii c).

Definition octal (c : ascii) : Z := code_of c - code_of "0".

(** The loop of [process_octal_codes]. *)
Fixpoint octal_codes_loop (text : list ascii) : list ascii :=
  match text with
  | "\"%char :: c1 :: c2 :: c3 :: rest =>
    ascii_of_nat (Z.to_nat ((octal c1 * 64 + octal c2 * 8 + octal c3) mod 256)) :: octal_codes_loop rest
  | c :: rest => c :: octal_codes_loop rest
  | [] => []
  end.

Definition process_octal_codes (text : list ascii) (width : nat) : list ascii :=
  if (width / 8 =? length text)%nat then text else octal_codes_loop text.

(** [(unsigned long)*p], where [char] is signed. *)
Definition char_value (c : ascii) : Z := if code_of c <? 128 then code_of c else u64 (code_of c - 256).

(** The loop of [draw_string_vec4] over the characters. *)
Fixpoint string_loop (text : list ascii) (tmp : Z) (tmp_wid : nat) (push_flag : bool) : M unit :=
  match text with
  | [] =>
    if (0 <? tmp_wid)%nat then
      emit "%pushi/vec4" [L_NUMB tmp; L_NUMB 0; num_ tmp_wid];;
      if push_flag then emit "%concat/vec4" [] else mret tt
    else mret tt
  | c :: text =>
    let tmp := u64 (Z.shiftl tmp 8) .| char_value c in
    let tmp_wid := (tmp_wid + 8)%nat in
    if (tmp_wid =? 32)%nat then
      emit "%pushi/vec4" [L_NUMB tmp; L_NUMB 0; num_ 32];;
      (if push_flag then emit "%concat/vec4" [] else mret tt);;
      string_loop text 0 0 true
    else string_loop text tmp tmp_wid push_flag
  end.

Definition draw_string_vec4 (a : ivl_attr) (text : list ascii) : M unit :=
  let p := process_octal_codes text (width_ a) in
  if (length p =? (width_ a + 7) / 8)%nat then string_loop p 0 0 false else bug.

Definition draw_signal_vec4 (sig : nat) : M unit := emit "%load/vec4" [L_SYMB (SymNet sig 0)].

(** ** Numbers as index values (eval_expr.c) *)

Definition IMM_WID : nat := 32.

Definition number_is_unknown (bits : list ascii) : bool :=
  existsb (fun c => negb (digit c "0") && negb (digit c "1")) bits.

(** [number_is_immediate] of an [IVL_EX_NUMBER]; [bits] has the width of the number. *)
Definition number_is_immediate (sg : bool) (bits : list ascii) (lim_wid : nat) (negative_ok_flag : bool) : bool :=
  let lim_wid := if negative_ok_flag then (lim_wid - 1)%nat else lim_wid in
  let pad_bit := if sg && digit (nth (length bits - 1) bits "0"%char) "1" then "1"%char else "0"%char in
  if digit pad_bit "1" && negb negative_ok_flag then false
  else
    let first_bit := nth 0 bits "0"%char in
    if (digit first_bit "x" || digit first_bit "z") && forallb (fun c => digit c first_bit) bits then true
    else if negb (forallb (fun c => digit c pad_bit) (drop lim_wid bits)) then false
    else if digit pad_bit "1" then existsb (fun c => digit c "1") (take lim_wid bits)
    else true.

(** The loop [imm |= 1L << idx] over at most 64 bits. *)
Fixpoint immediate_value (bits : list ascii) (idx : nat) : option Z :=
  match bits with
  | [] => Some 0
  | c :: bits =>
    v ← immediate_value bits (S idx);
    if digit c "0" then Some v else if digit c "1" then Some (v .| Z.shiftl 1 (Z.of_nat idx)) else None
  end.

(** The bits of a [long], read as signed. *)
Definition get_number_immediate (sg : bool) (bits : list ascii) : option Z :=
  let nbits := Nat.min (length bits) 64 in
  imm ← immediate_value (take nbits bits) 0;
  Some (s64 (if sg && digit (nth (nbits - 1) bits "0"%char) "1" && (nbits <? 64)%nat then imm .| (ones64 << nbits) else imm)).

Section Draw.
(** [thread_count], and the functions that call each other. *)
Variable thread_count : nat.
Variables (draw_eval_vec4 : ivl_expr_t -> M unit) (draw_eval_condition : ivl_expr_t -> M nat).

Definition label_ (n : nat) : comp_operand := L_SYMB (SymCode thread_count n).
Definition emit_label (n : nat) : M unit := fun st => Done tt st [AsmLabel (SymCode thread_count n)].

Definition eval_logic_into_integer (expr : ivl_expr_t) (ix : nat) : M unit :=
  match expr with
  | IVL_EX_NUMBER a bits =>
    let bits := take (width_ a) bits in
    assert_ (number_is_immediate (signed_ a) bits IMM_WID true);;
    if number_is_unknown bits then
      emit "%ix/load" [num_ ix; num_ 0; num_ 0];; emit "%flag_set/imm" [num_ 4; num_ 1]
    else
      imm ← lift (get_number_immediate (signed_ a) bits);
      (if 0 <=? imm then emit "%ix/load" [num_ ix; L_NUMB imm; num_ 0]
       else emit "%ix/load" [num_ ix; num_ 0; num_ 0];; emit "%ix/sub" [num_ ix; L_NUMB (- imm); num_ 0]);;
      emit "%flag_set/imm" [num_ 4; num_ 0]
  | IVL_EX_SIGNAL a sig =>
    emit (if signed_ a then "%ix/getv/s" else "%ix/getv") [num_ ix; L_SYMB (SymNet sig 0)]
  | _ =>
    draw_eval_vec4 expr;;
    emit (if ivl_expr_signed expr then "%ix/vec4/s" else "%ix/vec4") [num_ ix]
  end.

Definition draw_eval_expr_into_integer (expr : ivl_expr_t) (ix : nat) : M unit := eval_logic_into_integer expr ix.

(** ** Binary operators *)

Definition draw_binary_vec4_arith (a : ivl_attr) (op : binary_op) (le re : ivl_expr_t) : M unit :=
  let lwid := ivl_expr_width le in
  let rwid := ivl_expr_width re in
  let ewid := width_ a in
  let is_power_op := bool_decide (op = B_pow) in
  let signed_flag := (ivl_expr_signed le || is_power_op) && ivl_expr_signed re in
  draw_eval_vec4 le;;
  (if (lwid =? ewid)%nat then mret tt else emit (if ivl_expr_signed le then "%pad/s" else "%pad/u") [num_ ewid]);;
  match op, (rwid =? ewid)%nat && test_immediate_vec4_ok re with
  | B_add, true => draw_immediate_vec4 re "%addi"
  | B_sub, true => draw_immediate_vec4 re "%subi"
  | B_mul, true => draw_immediate_vec4 re "%muli"
  | _, _ =>
    draw_eval_vec4 re;;
    (if negb (rwid =? ewid)%nat && negb is_power_op
     then emit (if ivl_expr_signed re then "%pad/s" else "%pad/u") [num_ ewid] else mret tt);;
    match op with
    | B_add => emit "%add" []
    | B_sub => emit "%sub" []
    | B_mul => emit "%mul" []
    | B_div => emit (if signed_flag then "%div/s" else "%div") []
    | B_mod => emit (if signed_flag then "%mod/s" else "%mod") []
    | B_pow => emit (if signed_flag then "%pow/s" else "%pow") []
    | _ => bug
    end
  end.

Definition draw_binary_vec4_bitwise (op : binary_op) (le re : ivl_expr_t) : M unit :=
  draw_eval_vec4 le;; draw_eval_vec4 re;;
  match op with
  | B_and => emit "%and" []
  | B_or => emit "%or" []
  | B_xor => emit "%xor" []
  | B_nand => emit "%nand" []
  | B_nor => emit "%nor" []
  | B_xnor => emit "%xnor" []
  | _ => bug
  end.

Definition use_wid_ (le re : ivl_expr_t) : nat :=
  if (ivl_expr_width le <? ivl_expr_width re)%nat then ivl_expr_width re else ivl_expr_width le.

Definition draw_binary_vec4_compare (op : binary_op) (le re : ivl_expr_t) : M unit :=
  let use_wid := use_wid_ le re in
  draw_eval_vec4 le;; resize_vec4_wid le use_wid;;
  draw_eval_vec4 re;; resize_vec4_wid re use_wid;;
  match op with
  | B_eq => emit "%cmp/e" [];; emit "%flag_get/vec4" [num_ 4]
  | B_ne => emit "%cmp/ne" [];; emit "%flag_get/vec4" [num_ 4]
  | B_ceq => emit "%cmp/e" [];; emit "%flag_get/vec4" [num_ 6]
  | B_cne => emit "%cmp/ne" [];; emit "%flag_get/vec4" [num_ 6]
  | B_weq => emit "%cmp/we" [];; emit "%flag_get/vec4" [num_ 4]
  | B_wne => emit "%cmp/wne" [];; emit "%flag_get/vec4" [num_ 4]
  | _ => bug
  end.

Definition draw_binary_vec4_limpl (le re : ivl_expr_t) : M unit :=
  assert_ (ivl_expr_width le =? 1)%nat;; assert_ (ivl_expr_width re =? 1)%nat;;
  draw_eval_vec4 le;; emit "%inv" [];; draw_eval_vec4 re;; emit "%or" [].

Definition draw_binary_vec4_lequiv (a : ivl_attr) (le re : ivl_expr_t) : M unit :=
  assert_ (ivl_expr_width le =? 1)%nat;; draw_eval_vec4 le;;
  assert_ (ivl_expr_width re =? 1)%nat;; draw_eval_vec4 re;;
  emit "%xnor" [];; assert_ (width_ a =? 1)%nat.

Definition draw_binary_vec4_logical (a : ivl_attr) (op : binary_op) (le re : ivl_expr_t) : M unit :=
  '(opcode, jmp_type) ← lift (match op with B_land => Some ("%and", "%jmp/0") | B_lor => Some ("%or", "%jmp/1") | _ => None end)%string;
  label_out ← new_label;
  flag ← draw_eval_condition le;
  emit "%flag_get/vec4" [num_ flag];;
  emit jmp_type [label_ label_out; num_ flag];;
  clr_flag flag;;
  draw_eval_vec4 re;;
  (if (1 <? ivl_expr_width re)%nat then emit "%or/r" [] else mret tt);;
  emit opcode [];;
  emit_label label_out;;
  if (1 <? width_ a)%nat then emit "%pad/u" [num_ (width_ a)] else mret tt.

(** [%cmpi/s] with an immediate operand, or [%cmp/s]; unsigned likewise. *)
Definition draw_order (s_flag : bool) (use_wid : nat) (re : ivl_expr_t) : M unit :=
  if (ivl_expr_width re =? use_wid)%nat && test_immediate_vec4_ok re then
    draw_immediate_vec4 re (if s_flag then "%cmpi/s" else "%cmpi/u")
  else
    draw_eval_vec4 re;; resize_vec4_wid re use_wid;; emit (if s_flag then "%cmp/s" else "%cmp/u") [].

Definition draw_binary_vec4_le (op : binary_op) (le re : ivl_expr_t) : M unit :=
  let s_flag := ivl_expr_signed le && ivl_expr_signed re in
  let '(le, re, use_opcode) :=
    match op with B_ge => (re, le, B_le) | B_gt => (re, le, B_lt) | _ => (le, re, op) end in
  let use_wid := use_wid_ le re in
  draw_eval_vec4 le;; resize_vec4_wid le use_wid;;
  draw_order s_flag use_wid re;;
  match use_opcode with
  | B_le => emit "%flag_get/vec4" [num_ 4];; emit "%flag_get/vec4" [num_ 5];; emit "%or" []
  | B_lt => emit "%flag_get/vec4" [num_ 5]
  | _ => bug
  end.

Definition draw_binary_vec4_lrs (op : binary_op) (le re : ivl_expr_t) : M unit :=
  draw_eval_vec4 le;;
  use_index_reg ← allocate_word;
  draw_eval_expr_into_integer re use_index_reg;;
  match op with
  | B_shl => emit "%shiftl" [num_ use_index_reg]
  | B_shr => emit "%shiftr" [num_ use_index_reg]
  | B_sar => emit (if ivl_expr_signed le then "%shiftr/s" else "%shiftr") [num_ use_index_reg]
  | _ => bug
  end;;
  clr_word use_index_reg.

Definition draw_binary_vec4 (a : ivl_attr) (op : binary_op) (le re : ivl_expr_t) : M unit :=
  match op with
  | B_land | B_lor => draw_binary_vec4_logical a op le re
  | B_add | B_sub | B_mul | B_div | B_mod | B_pow => draw_binary_vec4_arith a op le re
  | B_and | B_or | B_xor | B_nand | B_nor | B_xnor => draw_binary_vec4_bitwise op le re
  | B_eq | B_ne | B_ceq | B_cne | B_weq | B_wne => draw_binary_vec4_compare op le re
  | B_ge | B_le | B_gt | B_lt => draw_binary_vec4_le op le re
  | B_shl | B_shr | B_sar => draw_binary_vec4_lrs op le re
  | B_impl => draw_binary_vec4_limpl le re
  | B_equiv => draw_binary_vec4_lequiv a le re
  end.

(** ** Concatenation and selection *)

Definition is_zero_replication (e : ivl_expr_t) : bool := match e with IVL_EX_CONCAT _ 0 _ => true | _ => false end.

(** The first loop of [draw_concat_vec4]: the parts that are left. *)
Fixpoint draw_concat_head (parms : list ivl_expr_t) : M (list ivl_expr_t) :=
  match parms with
  | [] => bug
  | sube :: parms =>
    draw_eval_vec4 sube;;
    if is_zero_replication sube then emit "%pop/vec4" [num_ 1];; draw_concat_head parms else mret parms
  end.

Fixpoint draw_concat_tail (parms : list ivl_expr_t) : M unit :=
  match parms with
  | [] => mret tt
  | sube :: parms =>
    match sube with
    | IVL_EX_NUMBER a bits => draw_concat_number_vec4 a bits true
    | _ =>
      draw_eval_vec4 sube;;
      if is_zero_replication sube then emit "%pop/vec4" [num_ 1] else emit "%concat/vec4" []
    end;;
    draw_concat_tail parms
  end.

Definition draw_concat_vec4 (rept : nat) (parms : list ivl_expr_t) : M unit :=
  parms ← draw_concat_head parms;
  draw_concat_tail parms;;
  if (1 <? rept)%nat then emit "%replicate" [num_ rept] else mret tt.

Definition draw_select_vec4 (wid : nat) (subexpr base : ivl_expr_t) : M unit :=
  if test_immediate_vec4_ok base then
    '(val0, valx, base_wid) ← lift (make_immediate_vec4_words base);
    assert_ (valx =? 0);;
    draw_eval_vec4 subexpr;;
    emit (if ivl_expr_signed base then "%parti/s" else "%parti/u") [num_ wid; L_NUMB val0; num_ base_wid]
  else
    draw_eval_vec4 subexpr;; draw_eval_vec4 base;;
    emit (if ivl_expr_signed base then "%part/s" else "%part/u") [num_ wid].

Definition draw_select_pad_vec4 (a : ivl_attr) (subexpr : ivl_expr_t) : M unit :=
  draw_eval_vec4 subexpr;;
  if (width_ a =? ivl_expr_width subexpr)%nat then mret tt
  else emit (if signed_ a then "%pad/s" else "%pad/u") [num_ (width_ a)].

(** ** The conditional operator and unary operators *)

Definition draw_ternary_vec4 (cond true_ex false_ex : ivl_expr_t) : M unit :=
  lab_true ← new_label;
  lab_out ← new_label;
  use_flag ← draw_eval_condition cond;
  use_flag ← (if (use_flag <? 8)%nat then
    tmp_flag ← allocate_flag;
    assert_ (8 <=? tmp_flag)%nat;;
    emit "%flag_mov" [num_ tmp_flag; num_ use_flag];;
    mret tmp_flag else mret use_flag);
  emit "%jmp/0" [label_ lab_true; num_ use_flag];;
  draw_eval_vec4 true_ex;;
  emit "%jmp/1" [label_ lab_out; num_ use_flag];;
  emit_label lab_true;;
  draw_eval_vec4 false_ex;;
  emit "%jmp/0" [label_ lab_out; num_ use_flag];;
  emit "%blend" [];;
  emit_label lab_out;;
  clr_flag use_flag.

Definition draw_unary_vec4 (a : ivl_attr) (op : unary_op) (sub : ivl_expr_t) : M unit :=
  draw_eval_vec4 sub;;
  match op with
  | U_and => emit "%and/r" []
  | U_or => emit "%or/r" []
  | U_xor => emit "%xor/r" []
  | U_inv => emit "%inv" []
  | U_not => emit "%nor/r" []
  | U_neg => emit "%inv" [];; emit "%addi" [num_ 1; num_ 0; num_ (ivl_expr_width sub)]
  | U_nand => emit "%nand/r" []
  | U_nor => emit "%nor/r" []
  | U_xnor => emit "%xnor/r" []
  | U_abs =>
    if ivl_expr_signed sub then
      emit "%dup/vec4" [];;
      emit "%cmpi/s" [num_ 0; num_ 0; num_ (ivl_expr_width sub)];;
      label ← new_label;
      emit "%jmp/0xz" [label_ label; num_ 5];;
      emit "%inv" [];;
      emit "%addi" [num_ 1; num_ 0; num_ (ivl_expr_width sub)];;
      emit_label label
    else mret tt
  | U_cast2 =>
    match ivl_expr_value sub with
    | IVL_VT_LOGIC => emit "%cast2" [];; resize_vec4_wid sub (width_ a)
    | IVL_VT_BOOL => resize_vec4_wid sub (width_ a)
    end
  end.

(** ** Conditions (eval_condit.c) *)

Definition draw_condition_fallback (expr : ivl_expr_t) : M nat :=
  use_flag ← allocate_flag;
  draw_eval_vec4 expr;;
  (if (1 <? ivl_expr_width expr)%nat then emit "%or/r" [] else mret tt);;
  emit "%flag_set/vec4" [num_ use_flag];;
  mret use_flag.

Definition draw_condition_binary_compare (op : binary_op) (le re : ivl_expr_t) : M nat :=
  let use_wid := use_wid_ le re in
  let '(le, re) := if (ivl_expr_width le =? use_wid)%nat && test_immediate_vec4_ok le then (re, le) else (le, re) in
  let ne := bool_decide (op = B_ne) || bool_decide (op = B_cne) in
  draw_eval_vec4 le;; resize_vec4_wid le use_wid;;
  (if (ivl_expr_width re =? use_wid)%nat && test_immediate_vec4_ok re then
     draw_immediate_vec4 re (if ne then "%cmpi/ne" else "%cmpi/e")
   else
     draw_eval_vec4 re;; resize_vec4_wid re use_wid;; emit (if ne then "%cmp/ne" else "%cmp/e") []);;
  match op with
  | B_ne | B_eq => mret 4%nat
  | B_cne | B_ceq => mret 6%nat
  | _ => bug
  end.

(** The operands and the operator of a comparison turned around. *)
Definition mirror (op : binary_op) : binary_op :=
  match op with B_ge => B_le | B_le => B_ge | B_gt => B_lt | B_lt => B_gt | _ => op end.

Definition draw_condition_binary_le (op : binary_op) (le re : ivl_expr_t) : M nat :=
  let s_flag := ivl_expr_signed le && ivl_expr_signed re in
  let '(le, re, use_opcode) :=
    if test_immediate_vec4_ok le && negb (test_immediate_vec4_ok re) then (re, le, mirror op)
    else if negb (test_immediate_vec4_ok re) then
      match op with B_ge => (re, le, B_le) | B_gt => (re, le, B_lt) | _ => (le, re, op) end
    else (le, re, op) in
  let use_wid := use_wid_ le re in
  draw_eval_vec4 le;; resize_vec4_wid le use_wid;;
  draw_order s_flag use_wid re;;
  match use_opcode with
  | B_gt => emit "%flag_or" [num_ 5; num_ 4];; emit "%flag_inv" [num_ 5];; mret 5%nat
  | B_ge => emit "%flag_inv" [num_ 5];; mret 5%nat
  | B_lt => mret 5%nat
  | B_le => emit "%flag_or" [num_ 5; num_ 4];; mret 5%nat
  | _ => bug
  end.

Definition draw_condition_binary_lor (le re : ivl_expr_t) : M nat :=
  label_out ← new_label;
  lx ← draw_eval_condition le;
  emit "%jmp/1" [label_ label_out; num_ lx];;
  tmp_flag ← (if (lx <? 8)%nat then
    tmp_flag ← allocate_flag; emit "%flag_mov" [num_ tmp_flag; num_ lx];; mret tmp_flag else mret lx);
  rx ← draw_eval_condition re;
  (if (lx =? tmp_flag)%nat then emit "%flag_or" [num_ lx; num_ rx]
   else
     emit "%flag_or" [num_ rx; num_ tmp_flag];;
     (if (lx =? rx)%nat then mret tt else emit "%flag_mov" [num_ lx; num_ rx]);;
     clr_flag tmp_flag);;
  emit_label label_out;;
  clr_flag rx;;
  mret lx.

Definition draw_eval_condition_ (expr : ivl_expr_t) : M nat :=
  match expr with
  | IVL_EX_BINARY _ op le re =>
    match op with
    | B_eq | B_ceq | B_ne | B_cne => draw_condition_binary_compare op le re
    | B_lt | B_gt | B_le | B_ge => draw_condition_binary_le op le re
    | B_lor => draw_condition_binary_lor le re
    | _ => draw_condition_fallback expr
    end
  | _ => draw_condition_fallback expr
  end.

Definition draw_eval_vec4_ (expr : ivl_expr_t) : M unit :=
  match expr with
  | IVL_EX_BINARY a op le re => draw_binary_vec4 a op le re
  | IVL_EX_CONCAT _ rept parms => draw_concat_vec4 rept parms
  | IVL_EX_NUMBER a bits => draw_number_vec4 a bits
  | IVL_EX_SELECT a subexpr None => draw_select_pad_vec4 a subexpr
  | IVL_EX_SELECT a subexpr (Some base) => draw_select_vec4 (width_ a) subexpr base
  | IVL_EX_SIGNAL _ sig => draw_signal_vec4 sig
  | IVL_EX_STRING a text => draw_string_vec4 a text
  | IVL_EX_TERNARY _ cond true_ex false_ex => draw_ternary_vec4 cond true_ex false_ex
  | IVL_EX_UNARY a op sub => draw_unary_vec4 a op sub
  end.
End Draw.

(** The recursion, at most [fuel] deep. *)
Fixpoint draw_eval_vec4 (thread_count fuel : nat) (expr : ivl_expr_t) : M unit :=
  match fuel with
  | O => bug
  | S fuel => draw_eval_vec4_ thread_count (draw_eval_vec4 thread_count fuel) (draw_eval_condition thread_count fuel) expr
  end
with draw_eval_condition (thread_count fuel : nat) (expr : ivl_expr_t) : M nat :=
  match fuel with
  | O => bug
  | S fuel => draw_eval_condition_ thread_count (draw_eval_vec4 thread_count fuel) (draw_eval_condition thread_count fuel) expr
  end.
