(* ===== verification/EmitWp.v ===== *)
(** * EmitWp: code fragments in place, what running them does, and what a generator prints

    [placed] says that the lines of a fragment are in the code from an address on,
    with the values of their labels; [runs] that the machine then goes through the
    fragment from one abstract state to another. *)
From stdpp Require Import sets.

From Stdlib Require Import String.
From S2P Require Import Prelude FourState Vector4 Vector4Ops Bits Thread ThreadDiv ThreadSpec ThreadCmp ThreadData ThreadShift ThreadDivSpec Machine.
From S2P Require Import MachineRun Codegen.
Import Bit4.

Open Scope ivl_scope.

Fixpoint ninstr (out : list asm_line) : nat :=
  match out with [] => 0%nat | AsmLabel _ :: out => ninstr out | AsmCode _ _ :: out => S (ninstr out) end.

Lemma ninstr_app x y : ninstr (x ++ y) = (ninstr x + ninstr y)%nat.
Proof. induction x as [|[]]; cbn; [done|done|]. by rewrite IHx. Qed.

Section At.
Context `{World}.
Variable nets : symbol -> option nat.
Implicit Types (lab : symbol -> option nat) (code : list vvp_code_t) (out : list asm_line).

Fixpoint placed lab code (p : nat) out : Prop :=
  match out with
  | [] => True
  | AsmLabel s :: out => lab s = Some p /\ placed lab code p out
  | AsmCode mnem opa :: out =>
    (forall c, compile_code lab nets mnem opa = Some c -> code !! p = Some c) /\ placed lab code (S p) out
  end.

Lemma placed_app lab code p x y : placed lab code p (x ++ y) <-> placed lab code p x /\ placed lab code (p + ninstr x) y.
Proof.
  revert p. induction x as [|[s|mn o] x IH]; intros p; cbn.
  - rewrite Nat.add_0_r. tauto.
  - rewrite IH. tauto.
  - rewrite IH. replace (S p + ninstr x)%nat with (p + S (ninstr x))%nat by lia. tauto.
Qed.

(** From [A] through the whole of the fragment to [A']. *)
Definition runs out (A A' : abs) : Prop :=
  state_ok A -> state_ok A' /\ forall lab code p, placed lab code p out -> reaches code p A (p + ninstr out) A'.

Lemma runs_nil A : runs [] A A.
Proof. intros Hok. split; [done|]. intros lab code p _. cbn. rewrite Nat.add_0_r. apply reaches_refl. Qed.

Lemma runs_app x y A B C : runs x A B -> runs y B C -> runs (x ++ y) A C.
Proof.
  intros Hx Hy Hok. destruct (Hx Hok) as [OB Rx]. destruct (Hy OB) as [OC Ry]. split; [done|].
  intros lab code p [Px Py]%placed_app. rewrite ninstr_app, Nat.add_assoc. eapply reaches_trans; eauto.
Qed.

(** One instruction that does not jump. *)
Lemma runs_code mnem opa c A A' : (forall lab, compile_code lab nets mnem opa = Some c) ->
  (forall p, state_ok A -> effect c p A p A') -> runs [AsmCode mnem opa] A A'.
Proof.
  intros Hc He Hok. split; [by eapply effect_ok; [apply (He 0%nat)|]|]. intros lab code p [Hp _]. cbn.
  rewrite Nat.add_1_r. eapply reaches_step; [apply Hp, Hc|]. apply He.
Qed.

Lemma runs_label s A : runs [AsmLabel s] A A.
Proof. intros Hok. split; [done|]. intros lab code p _. cbn. rewrite Nat.add_0_r. apply reaches_refl. Qed.

(** ** Jumps *)

(** A conditional jump by [mnem]: its test of the flag. *)
Definition jump_test (mnem : string) (f : vvp_bit4_t -> bool) : Prop :=
  exists op, find_opcode mnem = Some (op, [OA_CODE_PTR; OA_BIT1]) /\ jump_op op f.

Hypothesis not_stopped : schedule_stopped = false.

Lemma jump_step mnem f lab code p s dest flag A b : jump_test mnem f ->
  (forall c, compile_code lab nets mnem [L_SYMB s; L_NUMB (Z.of_nat flag)] = Some c -> code !! p = Some c) ->
  lab s = Some dest -> (flag < FLAGS_COUNT)%nat -> a_flags A !! flag = Some b ->
  reaches code p A (if f b then dest else S p) A.
Proof using not_stopped.
  intros (op & Hop & Hf) Hc Hs Hfl Hb.
  assert (Hu : Z.to_nat (u32 (Z.of_nat flag)) = flag).
  { unfold FLAGS_COUNT in Hfl. unfold u32. rewrite Z.mod_small by lia. lia. }
  eapply reaches_step.
  - apply Hc. unfold compile_code. rewrite Hop. cbn. rewrite Hs. reflexivity.
  - intros Hok. destruct A as [fl ws ls]. cbn in Hb.
    apply (eff_jump (Code op 0 (u32 (Z.of_nat flag)) 0 dest 0) (S p) f fl ws ls b); [done|done|]. cbn [bit_idx0]. by rewrite Hu.
Qed.

(** [jump s; mid; s:] is skipped when the test holds, and is [mid] when it does not. *)
Lemma runs_skip mnem f s flag b mid A A' : jump_test mnem f -> (flag < FLAGS_COUNT)%nat -> a_flags A !! flag = Some b ->
  runs mid A A' ->
  runs (AsmCode mnem [L_SYMB s; L_NUMB (Z.of_nat flag)] :: mid ++ [AsmLabel s]) A (if f b then A else A').
Proof using not_stopped.
  intros Hj Hfl Hb Hmid Hok. destruct (Hmid Hok) as [Ok' Rm]. split; [by destruct (f b)|].
  intros lab code p [Hc Hp]. apply placed_app in Hp as [Pm [Hs _]].
  pose proof (jump_step mnem f lab code p s _ flag A b Hj Hc Hs Hfl Hb) as Hjump.
  cbn [ninstr]. rewrite ninstr_app. cbn [ninstr]. rewrite Nat.add_0_r, <- Nat.add_succ_comm.
  destruct (f b); [done|]. eapply reaches_trans; [exact Hjump|]. exact (Rm _ _ _ Pm).
Qed.

Definition is_0 (b : vvp_bit4_t) : bool := bool_decide (b = BIT4_0).
Definition is_1 (b : vvp_bit4_t) : bool := bool_decide (b = BIT4_1).

Lemma jump_test_0 : jump_test "%jmp/0" is_0.
Proof using. eexists. split; [reflexivity|constructor]. Qed.
Lemma jump_test_1 : jump_test "%jmp/1" is_1.
Proof using. eexists. split; [reflexivity|constructor]. Qed.

(** The code of the conditional operator after its condition: from [A] the code [tx]
    leads to [At], from there [fx] to [Atf] and a blend to [Ax]; from [A] the code
    [fx] leads to [Af]. *)
Lemma runs_ternary s_true s_out flag b tx fx A At Atf Ax Af :
  (flag < FLAGS_COUNT)%nat -> a_flags A !! flag = Some b -> a_flags At !! flag = Some b ->
  a_flags Atf !! flag = Some b -> a_flags Af !! flag = Some b ->
  runs tx A At -> runs fx At Atf -> runs [AsmCode "%blend" []] Atf Ax -> runs fx A Af ->
  runs (AsmCode "%jmp/0" [L_SYMB s_true; L_NUMB (Z.of_nat flag)] :: tx ++
        AsmCode "%jmp/1" [L_SYMB s_out; L_NUMB (Z.of_nat flag)] :: AsmLabel s_true :: fx ++
        AsmCode "%jmp/0" [L_SYMB s_out; L_NUMB (Z.of_nat flag)] :: AsmCode "%blend" [] :: [AsmLabel s_out])
    A (if is_0 b then Af else if is_1 b then At else Ax).
Proof using not_stopped.
  intros Hfl Hb Hbt Hbtf Hbf Rt Rtf Rx Rf Hok.
  destruct (Rt Hok) as [Ot Rt']. destruct (Rtf Ot) as [Otf Rtf']. destruct (Rx Otf) as [Ox Rx']. destruct (Rf Hok) as [Of Rf'].
  split; [by destruct (is_0 b), (is_1 b)|].
  intros lab code p [Hc1 Hp]. apply placed_app in Hp as [Pt [Hc2 [Hlt Hp]]]. apply placed_app in Hp as [Pf [Hc3 [Hblend [Hlo _]]]].
  cbn [ninstr]. rewrite !ninstr_app. cbn [ninstr]. rewrite !ninstr_app. cbn [ninstr].
  pose proof (jump_step _ _ lab code p s_true _ flag A b jump_test_0 Hc1 Hlt Hfl Hb) as S1.
  set (q1 := (S p + ninstr tx)%nat) in *. set (q2 := (S q1 + ninstr fx)%nat) in *.
  replace (p + S (ninstr tx + S (ninstr fx + 2)))%nat with (S (S q2)) by (unfold q2, q1; lia).
  pose proof (jump_step _ _ lab code q1 s_out _ flag At b jump_test_1 Hc2 Hlo Hfl Hbt) as S2.
  pose proof (jump_step _ _ lab code q2 s_out _ flag Af b jump_test_0 Hc3 Hlo Hfl Hbf) as S3.
  pose proof (jump_step _ _ lab code q2 s_out _ flag Atf b jump_test_0 Hc3 Hlo Hfl Hbtf) as S4.
  destruct (is_0 b).
  { eapply reaches_trans; [exact S1|]. eapply reaches_trans; [exact (Rf' _ _ _ Pf)|exact S3]. }
  eapply reaches_trans; [exact S1|]. eapply reaches_trans; [exact (Rt' _ _ _ Pt)|].
  destruct (is_1 b); [exact S2|].
  eapply reaches_trans; [exact S2|]. eapply reaches_trans; [exact (Rtf' _ _ _ Pf)|]. eapply reaches_trans; [exact S4|].
  specialize (Rx' lab code (S q2) (conj Hblend I)). cbn in Rx'. by rewrite Nat.add_1_r in Rx'.
Qed.
End At.

(** ** What the code does that a generator prints

    [wp m P st A Phi] says that the generator [m] succeeds from its state [st], that
    it prints code which takes the machine from [A] to a state for which [Phi] holds,
    and that its labels are in order: [P] are the labels allocated and not yet printed. *)
Import Bit4.

Open Scope ivl_scope.

Fixpoint labels (out : list asm_line) : list symbol :=
  match out with [] => [] | AsmLabel s :: out => s :: labels out | AsmCode _ _ :: out => labels out end.

Lemma labels_app x y : labels (x ++ y) = labels x ++ labels y.
Proof. induction x as [|[]]; cbn; [done| |done]. by rewrite IHx. Qed.

(** The value of a label is the number of the instructions before it. *)
Lemma code_address_at s x y pc : s ∉ labels x -> code_address pc (x ++ AsmLabel s :: y) s = Some (pc + ninstr x)%nat.
Proof.
  revert pc. induction x as [|[l|mn o] x IH]; intros pc Hs; cbn in *.
  - rewrite decide_True by done. f_equal. lia.
  - rewrite decide_False by set_solver. apply IH. set_solver.
  - rewrite IH by done. f_equal. lia.
Qed.

Section Emit.
Context `{World}.
Variables (nets : symbol -> option nat) (thread_count : nat).
Hypothesis not_stopped : schedule_stopped = false.
Implicit Types (st : cg) (A : abs) (out : list asm_line) (P L : list symbol).

(** The line can be assembled once the labels of [L] have values. *)
Definition line_ok L (line : asm_line) : Prop :=
  match line with
  | AsmLabel _ => True
  | AsmCode mnem opa => forall lab, (forall s, s ∈ L -> is_Some (lab s)) -> is_Some (compile_code lab nets mnem opa)
  end.

Lemma line_ok_mono L L' line : L ⊆ L' -> line_ok L line -> line_ok L' line.
Proof. intros HL. destruct line; [done|]. intros H1 lab Hl. apply H1. intros s Hs. by apply Hl, HL. Qed.

(** The labels numbered from [lo] to [hi]. *)
Definition fresh (lo hi : nat) : list symbol := map (SymCode thread_count) (seq lo (hi - lo)).

Lemma fresh_app lo mid hi : (lo <= mid)%nat -> (mid <= hi)%nat -> fresh lo hi = fresh lo mid ++ fresh mid hi.
Proof.
  intros H1 H2. unfold fresh. rewrite <- map_app. f_equal. rewrite <- (Nat.sub_add mid hi) at 1 by done.
  replace (hi - mid + mid - lo)%nat with ((mid - lo) + (hi - mid))%nat by lia. rewrite seq_app. do 2 f_equal. lia.
Qed.

(** The fragment prints some of the labels of [P] and of those it allocates, each
    once; [P'] are left. *)
Record frag P (lo : nat) out P' (hi : nat) : Prop := Frag {
  frag_le : (lo <= hi)%nat;
  frag_labels : labels out ++ P' ≡ₚ P ++ fresh lo hi;
  frag_lines : Forall (line_ok (P ++ fresh lo hi)) out;
}.

Lemma frag_app P lo x Q mid y R hi : frag P lo x Q mid -> frag Q mid y R hi -> frag P lo (x ++ y) R hi.
Proof.
  intros [L1 P1 F1] [L2 P2 F2]. assert (HQ : forall s, s ∈ Q -> s ∈ P ++ fresh lo mid) by (intros s Hs; rewrite <- P1; apply elem_of_app; by right).
  constructor; [lia| |].
  - rewrite labels_app, <- app_assoc, P2, app_assoc, P1, <- app_assoc.
    rewrite (fresh_app lo mid hi) by done. done.
  - rewrite (fresh_app lo mid hi) by done. apply Forall_app. split; eapply List.Forall_impl; try eassumption;
      intros line; apply line_ok_mono; intros s; rewrite !elem_of_app; [tauto|].
    specialize (HQ s). rewrite elem_of_app in HQ. tauto.
Qed.

Lemma frag_nil P lo : frag P lo [] P lo.
Proof. constructor; [done| |constructor]. unfold fresh. by rewrite Nat.sub_diag, app_nil_r. Qed.

(** ** Generators *)

Definition wp {X} (m : M X) P st A (Phi : X -> list symbol -> cg -> abs -> Prop) : Prop :=
  state_ok A ->
  match m st with
  | Done x st' out => exists P' A', frag P (local_count st) out P' (local_count st') /\ runs nets out A A' /\ Phi x P' st' A'
  | Exit | Bug => False
  end.

Lemma wp_ret {X} (x : X) P st A Phi : Phi x P st A -> wp (mret x) P st A Phi.
Proof. intros HP Hok. exists P, A. split; [apply frag_nil|]. split; [apply runs_nil|done]. Qed.

Lemma wp_bind {X Y} (m : M X) (k : X -> M Y) P st A Phi :
  wp m P st A (fun x P' st' A' => wp (k x) P' st' A' Phi) -> wp (m ≫= k) P st A Phi.
Proof.
  intros Hm Hok. specialize (Hm Hok). unfold mbind, M_bind. destruct (m st) as [x st1 out1| |]; [|done..].
  destruct Hm as (P1 & A1 & F1 & R1 & Hk). specialize (Hk (proj1 (R1 Hok))).
  destruct (k x st1) as [y st2 out2| |]; [|done..]. destruct Hk as (P2 & A2 & F2 & R2 & HP).
  exists P2, A2. split; [by eapply frag_app|]. split; [by eapply runs_app|done].
Qed.

Lemma wp_mono {X} (m : M X) P st A (Phi Psi : X -> list symbol -> cg -> abs -> Prop) :
  (forall x P' st' A', state_ok A' -> Phi x P' st' A' -> Psi x P' st' A') -> wp m P st A Phi -> wp m P st A Psi.
Proof.
  intros HPP Hm Hok. specialize (Hm Hok). destruct (m st); [|done..]. destruct Hm as (P1 & A1 & F1 & R1 & HP).
  exists P1, A1. split; [done|]. split; [done|]. apply HPP; [|done]. apply R1, Hok.
Qed.

Lemma wp_state_ok {X} (m : M X) P st A Phi : (state_ok A -> wp m P st A Phi) -> wp m P st A Phi.
Proof. intros Hm Hok. by apply Hm. Qed.

Lemma wp_assert (b : bool) P st A (Phi : unit -> list symbol -> cg -> abs -> Prop) :
  b = true -> Phi tt P st A -> wp (assert_ b) P st A Phi.
Proof. intros ->. apply (wp_ret tt). Qed.

Lemma wp_lift {X} (o : option X) x P st A Phi : o = Some x -> Phi x P st A -> wp (lift o) P st A Phi.
Proof. intros ->. apply wp_ret. Qed.

(** One instruction. *)
Lemma wp_emit mnem opa c P st A A' (Phi : unit -> list symbol -> cg -> abs -> Prop) :
  (forall lab, compile_code lab nets mnem opa = Some c) -> (forall p, state_ok A -> effect c p A p A') ->
  Phi tt P st A' -> wp (emit mnem opa) P st A Phi.
Proof.
  intros Hc He HP Hok. exists P, A'. split; [|split; [by eapply runs_code|done]].
  destruct (frag_nil P (local_count st)) as [Hle Hp _]. constructor; [done|done|].
  constructor; [|constructor]. intros lab _. by rewrite Hc.
Qed.

Lemma wp_new_label P st A (Phi : nat -> list symbol -> cg -> abs -> Prop) :
  (let lc := local_count st in
   Phi lc (SymCode thread_count lc :: P) (Cg (S lc) (word_alloc_mask st) (allocate_flag_mask st)) A) ->
  wp new_label P st A Phi.
Proof.
  cbv zeta. intros HP Hok. eexists _, A. split; [|split; [apply runs_nil|exact HP]].
  constructor; cbn [local_count labels app]; [lia| |constructor]. unfold fresh.
  replace (S (local_count st) - local_count st)%nat with 1%nat by lia. cbn [seq map]. by rewrite Permutation_app_comm.
Qed.

Lemma frag_label s P lo : frag (s :: P) lo [AsmLabel s] P lo.
Proof. constructor; [done| |repeat constructor]. cbn. unfold fresh. by rewrite Nat.sub_diag, app_nil_r. Qed.

Lemma wp_emit_label n P st A (Phi : unit -> list symbol -> cg -> abs -> Prop) :
  Phi tt P st A -> wp (emit_label thread_count n) (SymCode thread_count n :: P) st A Phi.
Proof. intros HP Hok. exists P, A. split; [apply frag_label|]. split; [apply runs_label|done]. Qed.

(** ** Jumps *)

Lemma jump_line mnem f s flag : jump_test mnem f -> line_ok [s] (AsmCode mnem [L_SYMB s; num_ flag]).
Proof using.
  intros (op & Hop & _) lab Hl. destruct (Hl s (list_elem_of_here _ _)) as [p Hp]. unfold compile_code. rewrite Hop. cbn. rewrite Hp. by eexists.
Qed.

Lemma frag_line line P lo : line_ok P line -> labels [line] = [] -> frag P lo [line] P lo.
Proof using.
  intros Hl Hn. constructor; [done| |].
  - rewrite Hn. unfold fresh. by rewrite Nat.sub_diag, app_nil_r.
  - constructor; [|constructor]. eapply line_ok_mono; [|done]. intros s Hs. apply elem_of_app. by left.
Qed.

Lemma frag_jump mnem f s flag P lo : jump_test mnem f -> s ∈ P -> frag P lo [AsmCode mnem [L_SYMB s; num_ flag]] P lo.
Proof using. intros Hj Hs. apply frag_line; [|done]. eapply line_ok_mono; [|by eapply jump_line]. by intros s' ->%list_elem_of_singleton. Qed.

(** [jump label; mid; label:].  [mid] comes to its end from [A], whether it is skipped or not. *)
Lemma wp_skip {X Y} mnem f label flag b (mid : M X) (k : X -> M Y) P st A (Phi : Y -> list symbol -> cg -> abs -> Prop) :
  jump_test mnem f -> (flag < FLAGS_COUNT)%nat -> a_flags A !! flag = Some b -> SymCode thread_count label ∈ P ->
  wp mid P st A (fun x P' st' A' => exists P1, P' = SymCode thread_count label :: P1 /\
    wp (k x) P1 st' (if f b then A else A') Phi) ->
  wp (emit mnem [label_ thread_count label; num_ flag];; x ← mid; emit_label thread_count label;; k x) P st A Phi.
Proof using not_stopped.
  intros Hj Hfl Hb HP Hmid Hok. specialize (Hmid Hok). unfold mbind, M_bind, emit, emit_label. cbn.
  destruct (mid st) as [x st1 out1| |]; [|done..]. destruct Hmid as (P1 & A1 & F1 & R1 & P2 & -> & Hk).
  assert (Hok1 : state_ok (if f b then A else A1)) by (destruct (f b); [done|by apply R1]).
  specialize (Hk Hok1). destruct (k x st1) as [y st2 out2| |]; [|done..]. destruct Hk as (P3 & A3 & F3 & R3 & HPhi).
  exists P3, A3. split; [|split; [|done]].
  - apply (frag_app _ _ [_] P (local_count st)); [by eapply frag_jump|]. eapply frag_app; [exact F1|].
    apply (frag_app _ _ [AsmLabel _] P2 (local_count st1)); [apply frag_label|done].
  - replace (_ :: out1 ++ _) with ((AsmCode mnem [label_ thread_count label; num_ flag] :: out1 ++ [AsmLabel (SymCode thread_count label)]) ++ out2)
      by (cbn; by rewrite <- app_assoc).
    eapply runs_app; [|exact R3]. by apply runs_skip.
Qed.
End Emit.
