(* ===== verification/CodegenAlloc.v ===== *)
(** * CodegenAlloc: the allocation of index registers and flags

    [alloc st W U]: the masks of the generator say that the words of [W] and the flags
    of [U] are in use.  Allocation takes the first that is free, [clr_word] and
    [clr_flag] give it back. *)

From stdpp Require Import gmap sets fin_sets.
From S2P Require Import Prelude FourState Vector4 Thread Machine Codegen.

Open Scope ivl_scope.

(** ** One mask *)

Lemma bit_of_bit n i : Z.testbit (bit_of n) (Z.of_nat i) = bool_decide (i = n).
Proof.
  unfold bit_of. rewrite Z.shiftl_spec by lia. destruct (Nat.lt_ge_cases i n) as [Hl|Hl].
  { rewrite Z.testbit_neg_r by lia. rewrite bool_decide_eq_false_2 by lia. done. }
  change 1 with (Z.b2z true). rewrite testbit_b2z. cbn [andb]. apply eq_true_iff_eq. rewrite bool_decide_eq_true. lia.
Qed.

Lemma bit_of_test n mask : ((bit_of n .& mask) =? 0) = negb (Z.testbit mask (Z.of_nat n)).
Proof.
  destruct (Z.testbit mask (Z.of_nat n)) eqn:E.
  - apply Z.eqb_neq. intros H0. assert (H1 : Z.testbit (bit_of n .& mask) (Z.of_nat n) = true).
    { by rewrite Z.land_spec, E, bit_of_bit, bool_decide_eq_true_2. }
    by rewrite H0, Z.bits_0 in H1.
  - apply Z.eqb_eq, Z.bits_inj'. intros i Hi. rewrite Z.land_spec, Z.bits_0, <- (Z2Nat.id i) by done. rewrite bit_of_bit.
    case_bool_decide as Hn; [by rewrite Hn, E|done].
Qed.

Lemma set_bit mask n i : Z.testbit (mask .| bit_of n) (Z.of_nat i) = Z.testbit mask (Z.of_nat i) || bool_decide (i = n).
Proof. by rewrite Z.lor_spec, bit_of_bit. Qed.

Lemma mask_clear_bit mask n i : (i < 32)%nat ->
  Z.testbit (mask .& u32 (Z.lnot (bit_of n))) (Z.of_nat i) = Z.testbit mask (Z.of_nat i) && negb (bool_decide (i = n)).
Proof.
  intros Hi. rewrite Z.land_spec. unfold u32. rewrite Z.mod_pow2_bits_low by lia. by rewrite Z.lnot_spec, bit_of_bit by lia.
Qed.

(** The search for a free bit. *)
Lemma word_scan_spec n : forall res mask, let r := word_scan n res mask in
  (res <= r <= res + n)%nat /\ ((r < res + n)%nat -> Z.testbit mask (Z.of_nat r) = false) /\
  forall i, (res <= i < r)%nat -> Z.testbit mask (Z.of_nat i) = true.
Proof.
  induction n as [|n IH]; intros res mask; cbn [word_scan]; [repeat split; intros; lia|].
  rewrite bit_of_test, negb_involutive. destruct (Z.testbit mask (Z.of_nat res)) eqn:E; [|repeat split; intros; try lia; done].
  destruct (IH (S res) mask) as (H1 & H2 & H3). split; [lia|]. split; [intros; apply H2; lia|].
  intros i Hi. destruct (Nat.eq_dec i res) as [->|]; [done|]. apply H3. lia.
Qed.

(** ** The masks of the flags *)

Definition flag_used (masks : list Z) (i : nat) : bool := Z.testbit (flag_word masks i) (Z.of_nat (i mod 32)).

Lemma flag_scan_spec n : forall idx masks,
  match flag_scan n idx masks with
  | Some r => (idx <= r < idx + n)%nat /\ flag_used masks r = false
  | None => forall i, (idx <= i < idx + n)%nat -> flag_used masks i = true
  end.
Proof.
  induction n as [|n IH]; intros idx masks; cbn [flag_scan]; [intros; lia|].
  rewrite Z.land_comm, bit_of_test, negb_involutive. fold (flag_used masks idx).
  destruct (flag_used masks idx) eqn:E; [|split; [lia|done]].
  specialize (IH (S idx) masks). destruct (flag_scan n (S idx) masks); [split; [lia|apply IH]|].
  intros i Hi. destruct (Nat.eq_dec i idx) as [->|]; [done|]. apply IH. lia.
Qed.

Lemma flag_word_insert masks w idx i : (idx / 32 < length masks)%nat ->
  flag_word (<[(idx / 32)%nat := w]> masks) i = if decide (i / 32 = idx / 32)%nat then w else flag_word masks i.
Proof.
  intros Hl. unfold flag_word. case_decide as Hi; [rewrite Hi; by rewrite list_lookup_insert_eq|].
  by rewrite list_lookup_insert_ne.
Qed.

(** Writes a word whose bits are those before, but for the flag's own. *)
Lemma flag_used_insert masks w idx b i : (idx / 32 < length masks)%nat ->
  (forall j, (j < 32)%nat -> Z.testbit w (Z.of_nat j) = if decide (j = idx mod 32)%nat then b else Z.testbit (flag_word masks idx) (Z.of_nat j)) ->
  flag_used (<[(idx / 32)%nat := w]> masks) i = if decide (i = idx) then b else flag_used masks i.
Proof.
  intros Hl Hw. unfold flag_used. rewrite flag_word_insert by done.
  pose proof (Nat.div_mod_eq i 32). pose proof (Nat.div_mod_eq idx 32). pose proof (Nat.mod_upper_bound i 32).
  case_decide as Hd.
  - rewrite Hw by lia. unfold flag_word. rewrite Hd. case_decide as Hm; case_decide as Hi; subst; try done; lia.
  - rewrite decide_False; [done|]. by intros ->.
Qed.

(** ** What is in use *)

Record alloc (st : cg) (W U : gset nat) : Prop := Alloc {
  al_words : forall i, (i < WORD_COUNT)%nat -> Z.testbit (word_alloc_mask st) (Z.of_nat i) = bool_decide (i ∈ W);
  al_word_low : forall i, (i < 4)%nat -> i ∈ W;
  al_masks : length (allocate_flag_mask st) = 16%nat;
  al_flags : forall i, (i < FLAGS_COUNT)%nat -> flag_used (allocate_flag_mask st) i = bool_decide (i ∈ U);
  al_flag_low : forall i, (i < 8)%nat -> i ∈ U;
}.

Lemma alloc_init : alloc cg_init (set_seq 0 4) (set_seq 0 8).
Proof.
  constructor; try done.
  - intros i Hi. do 16 (destruct i as [|i]; [by vm_compute|]). unfold WORD_COUNT in Hi. lia.
  - intros i Hi. apply elem_of_set_seq. lia.
  - assert (E : forallb (fun i => Bool.eqb (flag_used (allocate_flag_mask cg_init) i) (i <? 8)%nat) (seq 0 FLAGS_COUNT) = true) by by vm_compute.
    intros i Hi. rewrite forallb_forall in E. specialize (E i). rewrite in_seq, eqb_true_iff in E. rewrite E by lia.
    destruct (Nat.ltb_spec i 8); symmetry; [apply bool_decide_eq_true | apply bool_decide_eq_false]; rewrite elem_of_set_seq; lia.
  - intros i Hi. apply elem_of_set_seq. lia.
Qed.

Lemma alloc_label st W U n : alloc st W U -> alloc (Cg n (word_alloc_mask st) (allocate_flag_mask st)) W U.
Proof. intros []. by constructor. Qed.

Lemma all_below (n : nat) (X : gset nat) : (forall i, (i < n)%nat -> i ∈ X) -> (n <= base.size X)%nat.
Proof.
  intros Hn. rewrite <- (size_set_seq (C := gset nat) 0 n). apply subseteq_size. intros i Hi%elem_of_set_seq. apply Hn. lia.
Qed.

Lemma size_new (x : nat) (X : gset nat) : x ∉ X -> base.size ({[x]} ∪ X) = S (base.size X).
Proof. intros Hx. rewrite size_union by set_solver. by rewrite size_singleton. Qed.

Lemma allocate_word_spec st W U : alloc st W U -> (base.size W < WORD_COUNT)%nat ->
  exists r st', allocate_word st = Done r st' [] /\ local_count st' = local_count st /\ (4 <= r < WORD_COUNT)%nat /\ r ∉ W /\
    alloc st' ({[r]} ∪ W) U.
Proof.
  intros [Hw Hl Hm Hf Hfl] Hs. unfold allocate_word. destruct (word_scan_spec (WORD_COUNT - 4) 4 (word_alloc_mask st)) as (H1 & H2 & H3).
  set (r := word_scan _ _ _) in *. change (4 + (WORD_COUNT - 4))%nat with WORD_COUNT in *.
  assert (Hr : (r < WORD_COUNT)%nat).
  { apply Nat.nle_gt. intros Hr. assert (base.size W >= WORD_COUNT)%nat; [|lia]. apply all_below. intros i Hi.
    destruct (Nat.lt_ge_cases i 4); [by apply Hl|]. specialize (Hw i Hi). rewrite H3 in Hw by lia.
    symmetry in Hw. by apply bool_decide_eq_true in Hw. }
  rewrite (proj2 (Nat.leb_gt _ _)) by done. eexists _, _. split; [reflexivity|]. split; [done|]. split; [lia|].
  specialize (H2 Hr). assert (Hn : r ∉ W) by (rewrite Hw in H2 by done; by apply bool_decide_eq_false in H2).
  split; [done|]. constructor; cbn [word_alloc_mask allocate_flag_mask]; [|intros i Hi; by apply elem_of_union_r, Hl|exact Hm|exact Hf|exact Hfl].
  intros i Hi. rewrite set_bit, Hw by done. apply eq_true_iff_eq. rewrite orb_true_iff, !bool_decide_eq_true, elem_of_union, elem_of_singleton. naive_solver.
Qed.

Lemma clr_word_spec st W U r : alloc st ({[r]} ∪ W) U -> r ∉ W -> (4 <= r < WORD_COUNT)%nat ->
  exists st', clr_word r st = Done tt st' [] /\ local_count st' = local_count st /\ alloc st' W U.
Proof.
  intros [Hw Hl Hm Hf Hfl] Hn Hr. unfold clr_word. rewrite (proj2 (Nat.ltb_lt _ _)) by lia. eexists. split; [reflexivity|]. split; [done|].
  constructor; cbn [word_alloc_mask allocate_flag_mask]; [| |exact Hm|exact Hf|exact Hfl].
  - intros i Hi. unfold WORD_COUNT in Hi. rewrite mask_clear_bit, Hw by (unfold WORD_COUNT; lia).
    apply eq_true_iff_eq. rewrite andb_true_iff, negb_true_iff, bool_decide_eq_false, !bool_decide_eq_true, elem_of_union, elem_of_singleton. naive_solver.
  - intros i Hi. specialize (Hl i Hi). assert (i <> r) by lia. clear - Hl H. set_solver.
Qed.

Lemma flag_index idx : (idx < FLAGS_COUNT)%nat -> (idx / 32 < 16)%nat.
Proof. unfold FLAGS_COUNT. intros. apply Nat.Div0.div_lt_upper_bound. lia. Qed.

Lemma allocate_flag_spec st W U : alloc st W U -> (base.size U < FLAGS_COUNT)%nat ->
  exists f st', allocate_flag st = Done f st' [] /\ local_count st' = local_count st /\ (8 <= f < FLAGS_COUNT)%nat /\ f ∉ U /\
    alloc st' W ({[f]} ∪ U).
Proof.
  intros [Hw Hl Hm Hf Hfl] Hs. unfold allocate_flag. pose proof (flag_scan_spec FLAGS_COUNT 0 (allocate_flag_mask st)) as H1.
  destruct (flag_scan FLAGS_COUNT 0 (allocate_flag_mask st)) as [f|] eqn:E.
  2: { assert (base.size U >= FLAGS_COUNT)%nat; [|lia]. apply all_below. intros i Hi. specialize (Hf i Hi). rewrite H1 in Hf by lia.
    symmetry in Hf. by apply bool_decide_eq_true in Hf. }
  destruct H1 as [Hr Hu]. assert (Hn : f ∉ U) by (rewrite Hf in Hu by lia; by apply bool_decide_eq_false in Hu).
  eexists _, _. split; [reflexivity|]. split; [done|]. split.
  { split; [|lia]. apply Nat.nlt_ge. intros H8. by apply Hn, Hfl. }
  split; [done|]. constructor; cbn [word_alloc_mask allocate_flag_mask];
    [exact Hw|exact Hl|by rewrite length_insert| |intros i Hi; by apply elem_of_union_r, Hfl].
  intros i Hi. rewrite (flag_used_insert (allocate_flag_mask st) _ f true); [|rewrite Hm; apply flag_index; lia|].
  - apply eq_true_iff_eq. rewrite bool_decide_eq_true, elem_of_union, elem_of_singleton. case_decide as Hi'; [tauto|].
    rewrite Hf by done. rewrite bool_decide_eq_true. tauto.
  - intros j Hj. rewrite set_bit. case_decide as Hj'; [rewrite bool_decide_eq_true_2 by done; apply orb_true_r|].
    by rewrite bool_decide_eq_false_2, orb_false_r.
Qed.

Lemma clr_flag_spec st W U f : alloc st W ({[f]} ∪ U) -> f ∉ U -> (8 <= f < FLAGS_COUNT)%nat ->
  exists st', clr_flag f st = Done tt st' [] /\ local_count st' = local_count st /\ alloc st' W U.
Proof.
  intros [Hw Hl Hm Hf Hfl] Hn Hr. unfold clr_flag. rewrite (proj2 (Nat.ltb_ge _ _)) by lia. rewrite (proj2 (Nat.ltb_lt _ _)) by lia.
  rewrite Z.land_comm, bit_of_test, negb_involutive. fold (flag_used (allocate_flag_mask st) f).
  rewrite Hf by lia. rewrite bool_decide_eq_true_2 by (apply elem_of_union_l; by apply elem_of_singleton). cbn [andb]. eexists. split; [reflexivity|]. split; [done|].
  constructor; cbn [word_alloc_mask allocate_flag_mask]; [exact Hw|exact Hl|by rewrite length_insert| |].
  - intros i Hi. rewrite (flag_used_insert (allocate_flag_mask st) _ f false); [|rewrite Hm; apply flag_index; lia|].
    + apply eq_true_iff_eq. rewrite bool_decide_eq_true. case_decide as Hi'; [subst; by split|].
      rewrite Hf by done. rewrite bool_decide_eq_true, elem_of_union, elem_of_singleton. tauto.
    + intros j Hj. rewrite mask_clear_bit by done. case_decide as Hj'; [rewrite bool_decide_eq_true_2 by done; apply andb_false_r|].
      by rewrite bool_decide_eq_false_2, andb_true_r.
  - intros i Hi. specialize (Hfl i Hi). assert (i <> f) by lia. clear - Hfl H. set_solver.
Qed.

(** The flags below 8 are not allocated. *)
Lemma clr_low_flag st f : (f < 8)%nat -> clr_flag f st = Done tt st [].
Proof. intros Hf. unfold clr_flag. by rewrite (proj2 (Nat.ltb_lt _ _)). Qed.
