(* ===== verification/EmitOps.v ===== *)
(** * EmitOps: the instructions that the generators print *)

From Stdlib Require Import String.
From stdpp Require Import gmap sets.
From S2P Require Import Prelude FourState Vector4 Vector4Ops Bits Thread ThreadDiv ThreadSpec ThreadCmp ThreadData ThreadShift ThreadDivSpec.
From S2P Require Import Machine MachineRun EmitWp Codegen CodegenAlloc.
Import Bit4.

Open Scope ivl_scope.

(** Widths and other numbers that the code has room for. *)
Definition small (n : nat) : Prop := Z.of_nat n < 2 ^ 30.

Lemma small_number n : small n -> Z.to_nat (u64 (Z.of_nat n)) = n.
Proof. unfold small. intros Hn. rewrite u64_small by (unfold is_word; lia). lia. Qed.

Lemma small_bit n : small n -> Z.to_nat (u32 (Z.of_nat n)) = n.
Proof. unfold small. intros Hn. unfold u32. rewrite Z.mod_small by lia. lia. Qed.

Lemma small_flag n : (n < FLAGS_COUNT)%nat -> small n.
Proof. unfold small, FLAGS_COUNT. lia. Qed.
Lemma small_word n : (n < WORDS_COUNT)%nat -> small n.
Proof. unfold small, WORDS_COUNT. lia. Qed.

(** The flags and words in use keep their values. *)
Definition keeps (W U : gset nat) (fl : list vvp_bit4_t) (ws : list Z) (fl' : list vvp_bit4_t) (ws' : list Z) : Prop :=
  (forall i, i ∈ U -> (8 <= i)%nat -> fl' !! i = fl !! i) /\ (forall i, i ∈ W -> ws' !! i = ws !! i).

Lemma keeps_refl W U fl ws : keeps W U fl ws fl ws.
Proof. done. Qed.

Lemma keeps_trans W U fl ws fl1 ws1 fl2 ws2 : keeps W U fl ws fl1 ws1 -> keeps W U fl1 ws1 fl2 ws2 -> keeps W U fl ws fl2 ws2.
Proof. intros [F1 W1] [F2 W2]. split; intros i Hi; [intros H8; rewrite F2; auto|rewrite W2; auto]. Qed.

Lemma keeps_sub W U W' U' fl ws fl' ws' : W ⊆ W' -> U ⊆ U' -> keeps W' U' fl ws fl' ws' -> keeps W U fl ws fl' ws'.
Proof. intros HW HU [F1 W1]. split; intros i Hi; [by apply F1, HU|by apply W1, HW]. Qed.

Lemma keeps_low_flag W U fl ws i b : (i < 8)%nat -> keeps W U fl ws (<[i := b]> fl) ws.
Proof. intros Hi. split; [|done]. intros j _ Hj. apply list_lookup_insert_ne. lia. Qed.

Lemma keeps_free_flag W U fl ws i b : i ∉ U -> keeps W U fl ws (<[i := b]> fl) ws.
Proof. intros Hi. split; [|done]. intros j Hj _. apply list_lookup_insert_ne. by intros ->. Qed.

Lemma keeps_free_word W U fl ws i v : i ∉ W -> keeps W U fl ws fl (<[i := v]> ws).
Proof. intros Hi. split; [done|]. intros j Hj. apply list_lookup_insert_ne. by intros ->. Qed.

Create HintDb kept.
#[export] Hint Resolve keeps_refl keeps_low_flag keeps_free_flag keeps_free_word : kept.
#[export] Hint Extern 1 (_ < _)%nat => lia : kept.

(** The flags after a comparison, apart from 4, 5 and 6. *)
Definition compares (g : list vvp_bit4_t -> list vvp_bit4_t) : Prop :=
  (forall fl, length (g fl) = length fl) /\ (forall fl i, (8 <= i)%nat -> g fl !! i = fl !! i).

Lemma compares_e l r : compares (flags_e l r).
Proof. split; intros; unfold flags_e, eq_flags; rewrite ?length_insert, ?list_lookup_insert_ne by lia; done. Qed.
Lemma compares_ne l r : compares (flags_ne l r).
Proof. split; intros; unfold flags_ne, eq_flags; rewrite ?length_insert, ?list_lookup_insert_ne by lia; done. Qed.
Lemma compares_u l r : compares (flags_u l r).
Proof. split; intros; unfold flags_u, cmp_flags; rewrite ?length_insert, ?list_lookup_insert_ne by lia; done. Qed.
Lemma compares_s l r : compares (flags_s l r).
Proof. split; intros; unfold flags_s, cmp_flags; rewrite ?length_insert, ?list_lookup_insert_ne by lia; done. Qed.
Lemma compares_we l r : compares (flags_we l r).
Proof. split; intros; unfold flags_we; rewrite ?length_insert, ?list_lookup_insert_ne by lia; done. Qed.
Lemma compares_wne l r : compares (flags_wne l r).
Proof. split; intros; unfold flags_wne; rewrite ?length_insert, ?list_lookup_insert_ne by lia; done. Qed.
Lemma compares_x l r : compares (flags_x l r).
Proof. split; intros; unfold flags_x; rewrite ?length_insert, ?list_lookup_insert_ne by lia; done. Qed.
Lemma compares_z l r : compares (flags_z l r).
Proof. split; intros; unfold flags_z; rewrite ?length_insert, ?list_lookup_insert_ne by lia; done. Qed.

Lemma keeps_compare W U g fl ws : compares g -> keeps W U fl ws (g fl) ws.
Proof. intros [_ Hg]. split; [|done]. intros i _ Hi. by apply Hg. Qed.

(** A flag after a comparison. *)
Ltac flag_lookup :=
  let f := fresh "fl" in let Hf := fresh "Hf" in
  intros f Hf; unfold flags_e, flags_ne, flags_u, flags_s, flags_we, flags_wne, flags_x, flags_z, eq_flags, cmp_flags;
  rewrite ?list_lookup_insert_ne by lia; rewrite list_lookup_insert_eq by (rewrite ?length_insert, Hf; unfold FLAGS_COUNT; lia); done.

Lemma compare_op_compares op f l r : compare_op op f -> compares (f l r).
Proof. destruct 1; [apply compares_e|apply compares_ne|apply compares_u|apply compares_s|apply compares_we|apply compares_wne|apply compares_x|apply compares_z]. Qed.
Lemma comparei_op_compares op f l r : comparei_op op f -> compares (f l r).
Proof. destruct 1; [apply compares_e|apply compares_ne|apply compares_u|apply compares_s]. Qed.

#[export] Hint Resolve keeps_compare compare_op_compares comparei_op_compares : kept.
#[export] Hint Constructors MachineRun.binary_op division_op immediate_op reduce_op compare_op comparei_op shift_op jump_op : vm.

Section Ops.
Context `{World}.
Variables (nets : symbol -> option nat) (thread_count : nat).
Hypothesis not_stopped : schedule_stopped = false.
Implicit Types (st : cg) (P : list symbol) (fl : list vvp_bit4_t) (ws : list Z) (ls : list bits) (l r : bits).
Implicit Types (Phi : unit -> list symbol -> cg -> abs -> Prop) (sg : bool).

Local Abbreviation wp := (wp nets thread_count).

(** An instruction without operands. *)
Lemma wp_plain mn op P st A A' Phi : find_opcode mn = Some (op, []) ->
  (forall p, state_ok A -> effect (Code op 0 0 0 0 0) p A p A') -> Phi tt P st A' -> wp (emit mn []) P st A Phi.
Proof. intros Hop He. apply (wp_emit _ _ _ _ (Code op 0 0 0 0 0)); [|done]. intros lab. unfold compile_code. by rewrite Hop. Qed.

Lemma wp_binary mn op f P st fl ws l r ls Phi : find_opcode mn = Some (op, []) -> MachineRun.binary_op op f -> length l = length r ->
  Phi tt P st (Abs fl ws (f l r :: ls)) -> wp (emit mn []) P st (Abs fl ws (r :: l :: ls)) Phi.
Proof. intros Ho Hb Hl. apply (wp_plain _ op); [done|]. intros. by apply eff_binary. Qed.

Lemma wp_division mn op f P st fl ws l r ls Phi : find_opcode mn = Some (op, []) -> division_op op f -> length l = length r ->
  (length l <= 64)%nat -> Phi tt P st (Abs fl ws (f l r :: ls)) -> wp (emit mn []) P st (Abs fl ws (r :: l :: ls)) Phi.
Proof. intros Ho Hb Hl H64. apply (wp_plain _ op); [done|]. intros. by apply eff_division. Qed.

Lemma wp_inv P st fl ws l ls Phi : Phi tt P st (Abs fl ws (not_bits l :: ls)) -> wp (emit "%inv" []) P st (Abs fl ws (l :: ls)) Phi.
Proof. apply (wp_plain _ OP_INV); [done|]. intros. by apply eff_inv. Qed.

Lemma wp_reduce mn op f P st fl ws l ls Phi : find_opcode mn = Some (op, []) -> reduce_op op f ->
  Phi tt P st (Abs fl ws ([f l] :: ls)) -> wp (emit mn []) P st (Abs fl ws (l :: ls)) Phi.
Proof. intros Ho Hb. apply (wp_plain _ op); [done|]. intros. by apply eff_reduce. Qed.

Lemma wp_compare mn op f P st fl ws l r ls Phi : find_opcode mn = Some (op, []) -> compare_op op f -> length l = length r ->
  Phi tt P st (Abs (f l r fl) ws ls) -> wp (emit mn []) P st (Abs fl ws (r :: l :: ls)) Phi.
Proof. intros Ho Hb Hl. apply (wp_plain _ op); [done|]. intros. by apply eff_compare. Qed.

Lemma wp_cast2 P st fl ws l ls Phi : Phi tt P st (Abs fl ws (two_state l :: ls)) -> wp (emit "%cast2" []) P st (Abs fl ws (l :: ls)) Phi.
Proof. apply (wp_plain _ OP_CAST2); [done|]. intros. by apply eff_cast2. Qed.

Lemma wp_concat P st fl ws m l ls Phi : Phi tt P st (Abs fl ws ((l ++ m) :: ls)) ->
  wp (emit "%concat/vec4" []) P st (Abs fl ws (l :: m :: ls)) Phi.
Proof. apply (wp_plain _ OP_CONCAT_VEC4); [done|]. intros. by apply eff_concat. Qed.

Lemma wp_dup P st fl ws l ls Phi : Phi tt P st (Abs fl ws (l :: l :: ls)) -> wp (emit "%dup/vec4" []) P st (Abs fl ws (l :: ls)) Phi.
Proof. apply (wp_plain _ OP_DUP_VEC4); [done|]. intros. by apply eff_dup. Qed.

(** An instruction whose operand is a number. *)
Lemma wp_numbered mn op n P st A A' Phi : find_opcode mn = Some (op, [OA_NUMBER]) -> small n ->
  (forall p cp, state_ok A -> opcode cp = op -> Z.to_nat (number cp) = n -> effect cp p A p A') ->
  Phi tt P st A' -> wp (emit mn [num_ n]) P st A Phi.
Proof.
  intros Hop Hn He. apply (wp_emit _ _ _ _ (Code op (u64 (Z.of_nat n)) 0 0 0 0)).
  - intros lab. unfold compile_code. by rewrite Hop.
  - intros p Hok. apply He; [done|done|]. by apply small_number.
Qed.

Lemma wp_pad sg n P st fl ws l ls Phi : small n -> (0 < n)%nat ->
  Phi tt P st (Abs fl ws (fit sg n l :: ls)) -> wp (emit (if sg then "%pad/s" else "%pad/u") [num_ n]) P st (Abs fl ws (l :: ls)) Phi.
Proof.
  intros Hn H0. apply (wp_numbered _ (if sg then OP_PAD_S else OP_PAD_U) n); [by destruct sg|done|].
  intros p cp _ Ho <-. by apply eff_pad.
Qed.

Lemma wp_part sg n P st fl ws l b ls Phi : small n -> (0 < n)%nat -> Z.of_nat (length l + n) < 2 ^ 31 ->
  Phi tt P st (Abs fl ws ((if has_unknown (take 32 b) then xs n else part_bits (s32 (num sg b)) n l) :: ls)) ->
  wp (emit (if sg then "%part/s" else "%part/u") [num_ n]) P st (Abs fl ws (b :: l :: ls)) Phi.
Proof.
  intros Hn H0 Hl. apply (wp_numbered _ (if sg then OP_PART_S else OP_PART_U) n); [by destruct sg|done|].
  intros p cp _ Ho <-. by apply eff_part.
Qed.

Lemma wp_replicate n P st fl ws l ls Phi : small n -> (0 < n)%nat ->
  Phi tt P st (Abs fl ws (repeat_bits n l :: ls)) -> wp (emit "%replicate" [num_ n]) P st (Abs fl ws (l :: ls)) Phi.
Proof. intros Hn H0. apply (wp_numbered _ OP_REPLICATE n); [done|done|]. intros p cp _ Ho <-. by apply eff_replicate. Qed.

Lemma wp_pop P st fl ws l ls Phi : Phi tt P st (Abs fl ws ls) -> wp (emit "%pop/vec4" [num_ 1]) P st (Abs fl ws (l :: ls)) Phi.
Proof.
  apply (wp_numbered _ OP_POP_VEC4 1); [done|done|]. intros p cp _ Ho Hn. apply eff_pop; [done|lia].
Qed.

Lemma wp_flag_get n b P st fl ws ls Phi : small n -> fl !! n = Some b ->
  Phi tt P st (Abs fl ws ([b] :: ls)) -> wp (emit "%flag_get/vec4" [num_ n]) P st (Abs fl ws ls) Phi.
Proof.
  intros Hn Hb. apply (wp_numbered _ OP_FLAG_GET_VEC4 n); [done|done|]. intros p cp _ Ho Hc. apply eff_flag_get; [done|by rewrite Hc].
Qed.

Lemma wp_flag_set n P st fl ws l ls Phi : (n < FLAGS_COUNT)%nat ->
  Phi tt P st (Abs (<[n := bit_at l 0]> fl) ws ls) -> wp (emit "%flag_set/vec4" [num_ n]) P st (Abs fl ws (l :: ls)) Phi.
Proof.
  intros Hn. apply (wp_numbered _ OP_FLAG_SET_VEC4 n); [done|by apply small_flag|]. intros p cp _ Ho <-. by apply eff_flag_set.
Qed.

Lemma wp_ix_vec4 sg n P st fl ws l ls Phi : (n < WORDS_COUNT)%nat -> sg = false \/ (length l <= 64)%nat ->
  Phi tt P st (Abs (<[4%nat := (index_value sg l).1]> fl) (<[n := (index_value sg l).2]> ws) ls) ->
  wp (emit (if sg then "%ix/vec4/s" else "%ix/vec4") [num_ n]) P st (Abs fl ws (l :: ls)) Phi.
Proof.
  intros Hn H64. apply (wp_numbered _ (if sg then OP_IX_VEC4_S else OP_IX_VEC4) n); [by destruct sg|by apply small_word|].
  intros p cp _ Ho <-. by apply eff_ix_vec4.
Qed.

Lemma wp_shift mn op fill f n b4 v P st fl ws l ls Phi : find_opcode mn = Some (op, [OA_NUMBER]) -> shift_op op fill f ->
  (n < WORDS_COUNT)%nat -> fl !! 4%nat = Some b4 -> ws !! n = Some v ->
  Phi tt P st (Abs fl ws (shifted (length l) (fill l) (fun k => f (fill l) k l) b4 v :: ls)) ->
  wp (emit mn [num_ n]) P st (Abs fl ws (l :: ls)) Phi.
Proof.
  intros Ho Hs Hn Hb Hv. apply (wp_numbered _ op n); [done|by apply small_word|]. intros p cp _ Hc Hnum.
  rewrite <- Hc in Hs. apply (eff_shift cp p fill f); [done|done|by rewrite Hnum].
Qed.

Lemma wp_flag_inv n b P st fl ws ls Phi : (n < FLAGS_COUNT)%nat -> fl !! n = Some b ->
  Phi tt P st (Abs (<[n := bit4_not b]> fl) ws ls) -> wp (emit "%flag_inv" [num_ n]) P st (Abs fl ws ls) Phi.
Proof.
  intros Hn%small_flag Hb. apply (wp_emit _ _ _ _ (Code OP_FLAG_INV 0 (u32 (Z.of_nat n)) 0 0 0)); [done|]. intros p _.
  rewrite <- (small_bit n Hn) at 2. apply eff_flag_inv; [done|cbn [bit_idx0]; by rewrite small_bit].
Qed.

Lemma wp_flag_mov m n b P st fl ws ls Phi : (m < FLAGS_COUNT)%nat -> (n < FLAGS_COUNT)%nat -> fl !! n = Some b ->
  Phi tt P st (Abs (<[m := b]> fl) ws ls) -> wp (emit "%flag_mov" [num_ m; num_ n]) P st (Abs fl ws ls) Phi.
Proof.
  intros Hm Hn Hb. pose proof (small_bit m (small_flag m Hm)) as Em. pose proof (small_bit n (small_flag n Hn)) as En.
  apply (wp_emit _ _ _ _ (Code OP_FLAG_MOV 0 (u32 (Z.of_nat m)) (u32 (Z.of_nat n)) 0 0)); [done|]. intros p _.
  rewrite <- Em at 2. apply eff_flag_mov; cbn [bit_idx0 bit_idx1]; [done|by rewrite En|by rewrite Em].
Qed.

Lemma wp_flag_or m n a b P st fl ws ls Phi : (m < FLAGS_COUNT)%nat -> (n < FLAGS_COUNT)%nat -> fl !! m = Some a -> fl !! n = Some b ->
  Phi tt P st (Abs (<[m := bit4_or a b]> fl) ws ls) -> wp (emit "%flag_or" [num_ m; num_ n]) P st (Abs fl ws ls) Phi.
Proof.
  intros Hm Hn Ha Hb. pose proof (small_bit m (small_flag m Hm)) as Em. pose proof (small_bit n (small_flag n Hn)) as En.
  apply (wp_emit _ _ _ _ (Code OP_FLAG_OR 0 (u32 (Z.of_nat m)) (u32 (Z.of_nat n)) 0 0)); [done|]. intros p _.
  rewrite <- Em at 2. apply eff_flag_or; cbn [bit_idx0 bit_idx1]; [done|by rewrite Em|by rewrite En].
Qed.

Lemma wp_flag_imm n k b P st fl ws ls Phi : (n < FLAGS_COUNT)%nat -> (k < 4)%nat -> [BIT4_0; BIT4_1; BIT4_Z; BIT4_X] !! k = Some b ->
  Phi tt P st (Abs (<[n := b]> fl) ws ls) -> wp (emit "%flag_set/imm" [num_ n; num_ k]) P st (Abs fl ws ls) Phi.
Proof.
  intros Hn Hk Hb. pose proof (small_number n (small_flag n Hn)) as En. assert (Ek : Z.to_nat (u32 (Z.of_nat k)) = k) by (apply small_bit; unfold small; lia).
  apply (wp_emit _ _ _ _ (Code OP_FLAG_SET_IMM (u64 (Z.of_nat n)) (u32 (Z.of_nat k)) 0 0 0)); [done|]. intros p _.
  rewrite <- En at 2. apply eff_flag_set_imm; cbn [bit_idx0 number]; [done|by rewrite Ek|by rewrite En].
Qed.

(** ** Immediate vectors *)

(** An instruction with an immediate vector of [n] bits. *)
Lemma wp_imm mn op v0 vx n P st A A' Phi : find_opcode mn = Some (op, [OA_BIT1; OA_BIT2; OA_NUMBER]) ->
  0 <= v0 < 2 ^ 32 -> 0 <= vx < 2 ^ 32 -> small n -> (0 < n)%nat ->
  (forall p cp, state_ok A -> opcode cp = op -> has_imm cp -> Z.to_nat (number cp) = n -> imm_of cp = imm_bits n v0 vx -> effect cp p A p A') ->
  Phi tt P st A' -> wp (emit mn [L_NUMB v0; L_NUMB vx; num_ n]) P st A Phi.
Proof.
  intros Hop H0 Hx Hn Hn0 He. pose proof (small_number n Hn) as En.
  apply (wp_emit _ _ _ _ (Code op (u64 (Z.of_nat n)) (u32 v0) (u32 vx) 0 0)).
  - intros lab. unfold compile_code. by rewrite Hop.
  - intros p Hok. unfold u32. rewrite !Z.mod_small by done. apply He; [done|done| |done|].
    + unfold has_imm, is_word. cbn [bit_idx0 bit_idx1 number]. rewrite En. split; [done|]. lia.
    + unfold imm_of. cbn [bit_idx0 bit_idx1 number]. by rewrite En.
Qed.

Lemma wp_pushi v0 vx n P st fl ws ls Phi : 0 <= v0 < 2 ^ 32 -> 0 <= vx < 2 ^ 32 -> small n -> (0 < n)%nat ->
  Phi tt P st (Abs fl ws (imm_bits n v0 vx :: ls)) -> wp (emit "%pushi/vec4" [L_NUMB v0; L_NUMB vx; num_ n]) P st (Abs fl ws ls) Phi.
Proof.
  intros H0 Hx Hn Hn0. apply (wp_imm _ OP_PUSHI_VEC4); [done..|]. intros p cp _ Ho Hi Hc <-. by apply eff_pushi.
Qed.

Lemma wp_concati v0 vx n P st fl ws m ls Phi : 0 <= v0 < 2 ^ 32 -> 0 <= vx < 2 ^ 32 -> small n -> (0 < n)%nat ->
  Phi tt P st (Abs fl ws ((imm_bits n v0 vx ++ m) :: ls)) ->
  wp (emit "%concati/vec4" [L_NUMB v0; L_NUMB vx; num_ n]) P st (Abs fl ws (m :: ls)) Phi.
Proof.
  intros H0 Hx Hn Hn0. apply (wp_imm _ OP_CONCATI_VEC4); [done..|]. intros p cp _ Ho Hi Hc <-. by apply eff_concati.
Qed.

Lemma wp_immediate mn op f v0 vx P st fl ws l ls Phi : find_opcode mn = Some (op, [OA_BIT1; OA_BIT2; OA_NUMBER]) -> immediate_op op f ->
  0 <= v0 < 2 ^ 32 -> 0 <= vx < 2 ^ 32 -> small (length l) -> (0 < length l)%nat ->
  Phi tt P st (Abs fl ws (f l (imm_bits (length l) v0 vx) :: ls)) ->
  wp (emit mn [L_NUMB v0; L_NUMB vx; num_ (length l)]) P st (Abs fl ws (l :: ls)) Phi.
Proof.
  intros Ho Hi H0 Hx Hn Hn0. apply (wp_imm _ op); [done..|]. intros p cp _ Hc Him Hl <-. rewrite <- Hc in Hi. by apply eff_immediate.
Qed.

Lemma wp_comparei mn op f v0 vx P st fl ws l ls Phi : find_opcode mn = Some (op, [OA_BIT1; OA_BIT2; OA_NUMBER]) -> comparei_op op f ->
  0 <= v0 < 2 ^ 32 -> 0 <= vx < 2 ^ 32 -> small (length l) -> (0 < length l)%nat ->
  Phi tt P st (Abs (f l (imm_bits (length l) v0 vx) fl) ws ls) ->
  wp (emit mn [L_NUMB v0; L_NUMB vx; num_ (length l)]) P st (Abs fl ws (l :: ls)) Phi.
Proof.
  intros Ho Hi H0 Hx Hn Hn0. apply (wp_imm _ op); [done..|]. intros p cp _ Hc Him Hl <-. rewrite <- Hc in Hi. by apply eff_comparei.
Qed.

Lemma wp_parti sg n v bwid P st fl ws l ls Phi : small n -> (0 < n)%nat -> Z.of_nat (length l + n) < 2 ^ 31 ->
  0 <= v < 2 ^ 32 -> small bwid -> (0 < bwid)%nat -> v < 2 ^ Z.of_nat bwid ->
  Phi tt P st (Abs fl ws (part_bits (s32 (parti_base sg v (Z.of_nat bwid))) n l :: ls)) ->
  wp (emit (if sg then "%parti/s" else "%parti/u") [num_ n; L_NUMB v; num_ bwid]) P st (Abs fl ws (l :: ls)) Phi.
Proof.
  intros Hn H0 Hl Hv Hb Hb0 Hvb. pose proof (small_number n Hn) as En. unfold small in Hb.
  apply (wp_emit _ _ _ _ (Code (if sg then OP_PARTI_S else OP_PARTI_U) (u64 (Z.of_nat n)) (u32 v) (u32 (Z.of_nat bwid)) 0 0)); [by destruct sg|].
  intros p _. unfold u32. rewrite !Z.mod_small by lia.
  pose proof (eff_parti (Code (if sg then OP_PARTI_S else OP_PARTI_U) (u64 (Z.of_nat n)) v (Z.of_nat bwid) 0 0) p sg fl ws l ls) as E.
  cbn [number bit_idx0 bit_idx1 opcode] in E. rewrite En in E. apply E; [done..| |done]. lia.
Qed.

(** ** Index registers *)

Lemma get_as_64_bit_low v : 0 <= v < 2 ^ 32 -> get_as_64_bit v 0 = v.
Proof using. intros Hv. unfold get_as_64_bit. by change (s64 (0 << 32)) with 0. Qed.

Lemma wp_ix_load n v P st fl ws ls Phi : (n < WORDS_COUNT)%nat -> 0 <= v < 2 ^ 32 ->
  Phi tt P st (Abs fl (<[n := v]> ws) ls) -> wp (emit "%ix/load" [num_ n; L_NUMB v; num_ 0]) P st (Abs fl ws ls) Phi.
Proof.
  intros Hn Hv. pose proof (small_number n (small_word n Hn)) as En.
  apply (wp_emit _ _ _ _ (Code OP_IX_LOAD (u64 (Z.of_nat n)) (u32 v) (u32 0) 0 0)); [done|]. intros p _.
  pose proof (eff_ix_load (Code OP_IX_LOAD (u64 (Z.of_nat n)) (u32 v) (u32 0) 0 0) p fl ws ls) as E.
  cbn [number bit_idx0 bit_idx1 opcode] in E. unfold u32 in *. rewrite (Z.mod_small v), (Z.mod_small 0), get_as_64_bit_low, (u64_small v), En in * by (unfold is_word; lia).
  by apply E.
Qed.

(** The signal's vector. *)
Definition signal_is (sig : nat) l : Prop := exists n v, nets (SymNet sig 0) = Some n /\ sig_vec4_value n = Some v /\ vec_is v l.

Lemma wp_ix_getv sg n sig l P st fl ws ls Phi : signal_is sig l -> (0 < length l)%nat -> (n < WORDS_COUNT)%nat ->
  sg = false \/ (length l <= 64)%nat ->
  Phi tt P st (Abs (<[4%nat := (index_value sg l).1]> fl) (<[n := (index_value sg l).2]> ws) ls) ->
  wp (emit (if sg then "%ix/getv/s" else "%ix/getv") [num_ n; L_SYMB (SymNet sig 0)]) P st (Abs fl ws ls) Phi.
Proof.
  intros (k & v & Hk & Hv & Vl) Hl Hn H64. pose proof (small_bit n (small_word n Hn)) as En.
  apply (wp_emit _ _ _ _ (Code (if sg then OP_IX_GETV_S else OP_IX_GETV) 0 (u32 (Z.of_nat n)) 0 0 k)).
  - intros lab. unfold compile_code. destruct sg; cbn; by rewrite Hk.
  - intros p _. pose proof (eff_ix_getv (Code (if sg then OP_IX_GETV_S else OP_IX_GETV) 0 (u32 (Z.of_nat n)) 0 0 k) p sg fl ws ls v l) as E.
    cbn [number bit_idx0 bit_idx1 opcode net] in E. rewrite En in E. by apply E.
Qed.

Lemma wp_load sig l P st fl ws ls Phi : signal_is sig l -> (0 < length l)%nat ->
  Phi tt P st (Abs fl ws (l :: ls)) -> wp (emit "%load/vec4" [L_SYMB (SymNet sig 0)]) P st (Abs fl ws ls) Phi.
Proof.
  intros (k & v & Hk & Hv & Vl) Hl. apply (wp_emit _ _ _ _ (Code OP_LOAD_VEC4 0 0 0 0 k)).
  - intros lab. unfold compile_code. cbn. by rewrite Hk.
  - intros p _. by apply (eff_load _ _ _ _ _ v).
Qed.
End Ops.
