(* ===== verification/ExprSem.v ===== *)
(** * ExprSem: the values of vector expressions

    [eval] gives the bits of an expression as the language defines them, from the
    values of the signals, and [wf] says which expressions the elaboration of a
    design makes: the widths of the operands of each operator.  The laws of the
    operators in terms of the machine's come last. *)

From Stdlib Require Import String Ascii.
From S2P Require Import Prelude FourState Vector4 Vector4Value Vector4Ops Vector4Parts Vector4Arith Vector4Conv Vector4Array Bits Thread ThreadSpec.
From S2P Require Import ThreadCmp ThreadData ThreadShift ThreadDivSpec Machine MachineRun Codegen.
Import Bit4.

Open Scope ivl_scope.

(** ** Values *)

Definition bit_of_digit (c : ascii) : vvp_bit4_t :=
  if digit c "0" then BIT4_0 else if digit c "1" then BIT4_1 else if digit c "x" then BIT4_X else BIT4_Z.

Definition number_value (a : ivl_attr) (ds : list ascii) : bits := map bit_of_digit (take (width_ a) ds).

Definition string_value (a : ivl_attr) (text : list ascii) : bits :=
  flat_map (fun c => bits_of_Z 8 (code_of c)) (rev (process_octal_codes text (width_ a))).

Definition neg_bits (l : bits) : bits := arith (length l) (has_unknown l) (- unum l).

(** The magnitude of a signed value. *)
Definition abs_bits (sg : bool) (l : bits) : bits :=
  if sg && negb (has_unknown l) then bits_of_Z (length l) (Z.abs (num true l)) else l.

Definition eval_unary (a : ivl_attr) (op : unary_op) (sg : bool) (vt : ivl_variable_type_t) (l : bits) : bits :=
  match op with
  | U_and => [and_all l]
  | U_or => [or_all l]
  | U_xor => [xor_all l]
  | U_inv => not_bits l
  | U_not => [bit4_not (or_all l)]
  | U_neg => neg_bits l
  | U_nand => [bit4_not (and_all l)]
  | U_nor => [bit4_not (or_all l)]
  | U_xnor => [bit4_not (xor_all l)]
  | U_abs => abs_bits sg l
  | U_cast2 => fit sg (width_ a) (match vt with IVL_VT_LOGIC => two_state l | IVL_VT_BOOL => l end)
  end.

(** The shift of [l] by the amount [r]. *)
Definition shift_by (f : Z -> bits -> bits) (l r : bits) : bits := if has_unknown r then xs (length l) else f (unum r) l.

Definition eval_binary (a : ivl_attr) (op : binary_op) (sl sr : bool) (l r : bits) : bits :=
  let sg := sl && sr in
  let l' := fit sl (width_ a) l in
  let r' := fit sr (width_ a) r in
  let lw := fit sl (Nat.max (length l) (length r)) l in
  let rw := fit sr (Nat.max (length l) (length r)) r in
  match op with
  | B_add => arith2 false Z.add l' r'
  | B_sub => arith2 false Z.sub l' r'
  | B_mul => arith2 false Z.mul l' r'
  | B_div => quotient sg l' r'
  | B_mod => remainder sg l' r'
  | B_pow => []
  | B_and => zip_bits bit4_and l r
  | B_or => zip_bits bit4_or l r
  | B_xor => zip_bits bit4_xor l r
  | B_nand => zip_bits nand_bit l r
  | B_nor => zip_bits nor_bit l r
  | B_xnor => zip_bits xnor_bit l r
  | B_eq => [eq_bit lw rw]
  | B_ne => [bit4_not (eq_bit lw rw)]
  | B_ceq => [case_eq_bit lw rw]
  | B_cne => [bit4_not (case_eq_bit lw rw)]
  | B_weq => [wild_eq_bit lw rw]
  | B_wne => [bit4_not (wild_eq_bit lw rw)]
  | B_lt => [order_bit sg Z.ltb lw rw]
  | B_le => [order_bit sg Z.leb lw rw]
  | B_gt => [order_bit sg Z.gtb lw rw]
  | B_ge => [order_bit sg Z.geb lw rw]
  | B_land => fit false (width_ a) [bit4_and (or_all l) (or_all r)]
  | B_lor => fit false (width_ a) [bit4_or (or_all l) (or_all r)]
  | B_shl => shift_by shl_bits l r
  | B_shr => shift_by (shr_bits BIT4_0) l r
  | B_sar => shift_by (shr_bits (if sl then bit_at l (length l - 1) else BIT4_0)) l r
  | B_impl => zip_bits bit4_or (not_bits l) r
  | B_equiv => zip_bits xnor_bit l r
  end.

Definition eval_ternary (c t f : bits) : bits :=
  match or_all c with BIT4_0 => f | BIT4_1 => t | _ => zip_bits blend_bit t f end.

(** The parts of a concatenation, the last one in the low bits; those of zero
    replications count for nothing. *)
Definition eval_parts (eval : ivl_expr_t -> bits) : list ivl_expr_t -> bits :=
  fix go parms := match parms with [] => [] | e :: parms => go parms ++ (if is_zero_replication e then [] else eval e) end.

Definition eval_select (wid : nat) (sg : bool) (l b : bits) : bits :=
  if has_unknown b then xs wid else part_bits (num sg b) wid l.

Fixpoint eval (env : nat -> bits) (e : ivl_expr_t) : bits :=
  match e with
  | IVL_EX_NUMBER a ds => number_value a ds
  | IVL_EX_STRING a text => string_value a text
  | IVL_EX_SIGNAL a sig => env sig
  | IVL_EX_UNARY a op e1 => eval_unary a op (ivl_expr_signed e1) (ivl_expr_value e1) (eval env e1)
  | IVL_EX_BINARY a op e1 e2 => eval_binary a op (ivl_expr_signed e1) (ivl_expr_signed e2) (eval env e1) (eval env e2)
  | IVL_EX_TERNARY a e1 e2 e3 => eval_ternary (eval env e1) (eval env e2) (eval env e3)
  | IVL_EX_CONCAT a rept parms => repeat_bits (Nat.max rept 1) (eval_parts (eval env) parms)
  | IVL_EX_SELECT a e1 None => fit (signed_ a) (width_ a) (eval env e1)
  | IVL_EX_SELECT a e1 (Some e2) => eval_select (width_ a) (ivl_expr_signed e2) (eval env e1) (eval env e2)
  end.

(** ** Well-formed expressions *)

Definition is_digit (c : ascii) : bool := digit c "0" || digit c "1" || digit c "x" || digit c "z".

Definition same_width (e1 e2 : ivl_expr_t) : bool := (ivl_expr_width e1 =? ivl_expr_width e2)%nat.

Definition unary_ok (a : ivl_attr) (op : unary_op) (e1 : ivl_expr_t) : bool :=
  match op with
  | U_inv | U_neg | U_abs => (width_ a =? ivl_expr_width e1)%nat
  | U_cast2 => true
  | _ => (width_ a =? 1)%nat
  end.

(** A shift amount is unsigned; a number must do as an immediate value. *)
Definition amount_ok (e : ivl_expr_t) : bool :=
  negb (ivl_expr_signed e) &&
  match e with IVL_EX_NUMBER a ds => number_is_immediate (signed_ a) (take (width_ a) ds) IMM_WID true | _ => true end.

(** Divisions have operands of a word; the base of a select is an [int]. *)
Definition binary_ok (a : ivl_attr) (op : binary_op) (e1 e2 : ivl_expr_t) : bool :=
  match op with
  | B_add | B_sub | B_mul | B_land | B_lor => true
  | B_div | B_mod => (width_ a <=? 64)%nat
  | B_pow => false
  | B_and | B_or | B_xor | B_nand | B_nor | B_xnor => same_width e1 e2 && (width_ a =? ivl_expr_width e1)%nat
  | B_eq | B_ne | B_ceq | B_cne | B_weq | B_wne | B_lt | B_le | B_gt | B_ge => (width_ a =? 1)%nat
  | B_shl | B_shr | B_sar => (width_ a =? ivl_expr_width e1)%nat && amount_ok e2
  | B_impl | B_equiv => (width_ a =? 1)%nat && (ivl_expr_width e1 =? 1)%nat && (ivl_expr_width e2 =? 1)%nat
  end.

Definition base_ok (e : ivl_expr_t) : bool :=
  (ivl_expr_width e <=? (if ivl_expr_signed e then 32 else 31))%nat &&
  match e with IVL_EX_NUMBER a ds => negb (number_is_unknown (take (width_ a) ds)) | _ => true end.

Definition parts_width (parms : list ivl_expr_t) : nat :=
  foldr (fun e n => ((if is_zero_replication e then 0 else ivl_expr_width e) + n)%nat) 0%nat parms.

Section Wf.
Variables (nets : symbol -> option nat) (env : nat -> bits).

(** [gen_ok] lets the expression itself be a zero replication, a part of a concatenation. *)
Fixpoint gen_ok (e : ivl_expr_t) : bool :=
  let wf e := negb (is_zero_replication e) && gen_ok e in
  let a := attr_of e in
  (is_zero_replication e || (0 <? width_ a)%nat) && (Z.of_nat (width_ a) <? 2 ^ 30) &&
  match e with
  | IVL_EX_NUMBER a ds => (width_ a <=? length ds)%nat && forallb is_digit (take (width_ a) ds)
  | IVL_EX_STRING a text =>
    let p := process_octal_codes text (width_ a) in
    (8 * length p =? width_ a)%nat && forallb (fun c => code_of c <? 128) p
  | IVL_EX_SIGNAL a sig =>
    match nets (SymNet sig 0) with Some _ => (width_ a =? length (env sig))%nat | None => false end
  | IVL_EX_UNARY a op e1 => wf e1 && unary_ok a op e1
  | IVL_EX_BINARY a op e1 e2 => wf e1 && wf e2 && binary_ok a op e1 e2
  | IVL_EX_TERNARY a e1 e2 e3 =>
    wf e1 && wf e2 && wf e3 && (ivl_expr_width e2 =? width_ a)%nat && (ivl_expr_width e3 =? width_ a)%nat
  | IVL_EX_CONCAT a rept parms =>
    forallb gen_ok parms && (0 <? parts_width parms)%nat && (width_ a =? rept * parts_width parms)%nat
  | IVL_EX_SELECT a e1 None => wf e1
  | IVL_EX_SELECT a e1 (Some e2) => wf e1 && wf e2 && base_ok e2
  end.

Definition wf (e : ivl_expr_t) : bool := negb (is_zero_replication e) && gen_ok e.
End Wf.

(** ** Measures *)

Definition max_of (f : ivl_expr_t -> nat) : list ivl_expr_t -> nat :=
  fix go parms := match parms with [] => 0%nat | e :: parms => Nat.max (f e) (go parms) end.

Fixpoint depth (e : ivl_expr_t) : nat :=
  match e with
  | IVL_EX_NUMBER _ _ | IVL_EX_STRING _ _ | IVL_EX_SIGNAL _ _ => 1
  | IVL_EX_UNARY _ _ e1 => S (depth e1)
  | IVL_EX_BINARY _ _ e1 e2 => S (Nat.max (depth e1) (depth e2))
  | IVL_EX_TERNARY _ e1 e2 e3 => S (Nat.max (depth e1) (Nat.max (depth e2) (depth e3)))
  | IVL_EX_CONCAT _ _ parms => S (max_of depth parms)
  | IVL_EX_SELECT _ e1 None => S (depth e1)
  | IVL_EX_SELECT _ e1 (Some e2) => S (Nat.max (depth e1) (depth e2))
  end.

(** The index registers in use at a time: one per shift inside of the amount of a shift. *)
Fixpoint registers (e : ivl_expr_t) : nat :=
  match e with
  | IVL_EX_NUMBER _ _ | IVL_EX_STRING _ _ | IVL_EX_SIGNAL _ _ => 0
  | IVL_EX_UNARY _ _ e1 => registers e1
  | IVL_EX_BINARY _ op e1 e2 =>
    match op with
    | B_shl | B_shr | B_sar => Nat.max (registers e1) (S (registers e2))
    | _ => Nat.max (registers e1) (registers e2)
    end
  | IVL_EX_TERNARY _ e1 e2 e3 => Nat.max (registers e1) (Nat.max (registers e2) (registers e3))
  | IVL_EX_CONCAT _ _ parms => max_of registers parms
  | IVL_EX_SELECT _ e1 None => registers e1
  | IVL_EX_SELECT _ e1 (Some e2) => Nat.max (registers e1) (registers e2)
  end.

(** ** Induction *)

Section Ind.
Variable Q : ivl_expr_t -> Prop.
Hypothesis H_number : forall a ds, Q (IVL_EX_NUMBER a ds).
Hypothesis H_string : forall a text, Q (IVL_EX_STRING a text).
Hypothesis H_signal : forall a sig, Q (IVL_EX_SIGNAL a sig).
Hypothesis H_unary : forall a op e1, Q e1 -> Q (IVL_EX_UNARY a op e1).
Hypothesis H_binary : forall a op e1 e2, Q e1 -> Q e2 -> Q (IVL_EX_BINARY a op e1 e2).
Hypothesis H_ternary : forall a e1 e2 e3, Q e1 -> Q e2 -> Q e3 -> Q (IVL_EX_TERNARY a e1 e2 e3).
Hypothesis H_concat : forall a rept parms, Forall Q parms -> Q (IVL_EX_CONCAT a rept parms).
Hypothesis H_pad : forall a e1, Q e1 -> Q (IVL_EX_SELECT a e1 None).
Hypothesis H_select : forall a e1 e2, Q e1 -> Q e2 -> Q (IVL_EX_SELECT a e1 (Some e2)).

Fixpoint expr_ind (e : ivl_expr_t) : Q e :=
  match e with
  | IVL_EX_NUMBER a ds => H_number a ds
  | IVL_EX_STRING a text => H_string a text
  | IVL_EX_SIGNAL a sig => H_signal a sig
  | IVL_EX_UNARY a op e1 => H_unary a op e1 (expr_ind e1)
  | IVL_EX_BINARY a op e1 e2 => H_binary a op e1 e2 (expr_ind e1) (expr_ind e2)
  | IVL_EX_TERNARY a e1 e2 e3 => H_ternary a e1 e2 e3 (expr_ind e1) (expr_ind e2) (expr_ind e3)
  | IVL_EX_CONCAT a rept parms =>
    H_concat a rept parms ((fix go ps : Forall Q ps := match ps with [] => @List.Forall_nil _ Q | p :: ps => @List.Forall_cons _ Q p ps (expr_ind p) (go ps) end) parms)
  | IVL_EX_SELECT a e1 None => H_pad a e1 (expr_ind e1)
  | IVL_EX_SELECT a e1 (Some e2) => H_select a e1 e2 (expr_ind e1) (expr_ind e2)
  end.
End Ind.

(** ** Widths *)

Lemma length_neg l : length (neg_bits l) = length l.
Proof. apply length_arith. Qed.

Lemma length_abs sg l : length (abs_bits sg l) = length l.
Proof. unfold abs_bits. destruct (_ && _); [apply length_bits_of_Z|done]. Qed.

Lemma length_shift_by f l r : (forall k l, length (f k l) = length l) -> length (shift_by f l r) = length l.
Proof. intros Hf. unfold shift_by. destruct (has_unknown r); [apply length_xs|apply Hf]. Qed.

Lemma length_string a text : length (string_value a text) = (8 * length (process_octal_codes text (width_ a)))%nat.
Proof.
  unfold string_value. rewrite <- (length_rev (process_octal_codes _ _)). induction (rev _) as [|c l IH]; [done|].
  cbn [flat_map length]. rewrite length_app, IH, length_bits_of_Z. lia.
Qed.

Lemma length_number a ds : (width_ a <= length ds)%nat -> length (number_value a ds) = width_ a.
Proof. intros Hl. unfold number_value. rewrite length_map, length_take. lia. Qed.

Lemma length_ternary c t f : length t = length f -> length (eval_ternary c t f) = length f.
Proof. intros Hl. unfold eval_ternary. destruct (or_all c); rewrite ?length_zip; done. Qed.

Lemma length_unary a op sg vt l n : length l = n ->
  length (eval_unary a op sg vt l) =
    match op with U_inv | U_neg | U_abs => n | U_cast2 => width_ a | _ => 1%nat end.
Proof. intros <-. by destruct op; cbn; rewrite ?length_not, ?length_neg, ?length_abs, ?length_fit. Qed.

Lemma length_binary a op sl sr l r : op <> B_pow ->
  length (eval_binary a op sl sr l r) =
    match op with
    | B_add | B_sub | B_mul | B_land | B_lor | B_div | B_mod => width_ a
    | B_and | B_or | B_xor | B_nand | B_nor | B_xnor | B_shl | B_shr | B_sar | B_impl | B_equiv => length l
    | _ => 1%nat
    end.
Proof.
  intros Hop. destruct op; cbn [eval_binary]; try done;
    rewrite ?length_arith2, ?length_quotient, ?length_remainder, ?length_zip, ?length_fit, ?length_not; try done.
  all: apply length_shift_by; intros; apply length_map_bits.
Qed.

Lemma parts_width_value (env : nat -> bits) parms :
  Forall (fun e => is_zero_replication e = false -> length (eval env e) = ivl_expr_width e) parms ->
  length (eval_parts (eval env) parms) = parts_width parms.
Proof.
  induction 1 as [|e parms He _ IH]; [done|]. cbn [eval_parts parts_width foldr]. rewrite length_app. fold (eval_parts (eval env) parms).
  rewrite IH. fold (parts_width parms). destruct (is_zero_replication e); [cbn; lia|]. rewrite He by done. lia.
Qed.

(** [gen_ok] and [wf] as propositions. *)
Ltac wf_split :=
  repeat match goal with
  | H : _ && _ = true |- _ => apply andb_prop in H; destruct H
  | H : negb _ = true |- _ => apply negb_true_iff in H
  | H : (_ =? _)%nat = true |- _ => apply Nat.eqb_eq in H
  | H : (_ <=? _)%nat = true |- _ => apply Nat.leb_le in H
  | H : (_ <? _)%nat = true |- _ => apply Nat.ltb_lt in H
  | H : (_ <? _) = true |- _ => apply Z.ltb_lt in H
  end.

Lemma gen_ok_width nets env e : is_zero_replication e = false -> gen_ok nets env e = true -> length (eval env e) = ivl_expr_width e.
Proof.
  induction e as [a ds|a text|a sig|a op e1 IH1|a op e1 e2 IH1 IH2|a e1 e2 e3 IH1 IH2 IH3|a rept parms IH|a e1 IH1|a e1 e2 IH1 IH2] using expr_ind;
    intros Hz Hw; cbn -[Z.pow] in Hw; wf_split; cbn [eval ivl_expr_width attr_of]; unfold ivl_expr_width; cbn [attr_of].
  - by apply length_number.
  - by rewrite length_string.
  - by destruct (nets (SymNet sig 0)); wf_split.
  - rewrite (length_unary _ _ _ _ _ (ivl_expr_width e1)) by auto. destruct op; cbn in *; wf_split; done.
  - rewrite length_binary by (by intros ->). rewrite IH1 by done. destruct op; cbn in *; wf_split; congruence.
  - unfold ivl_expr_width in *. rewrite length_ternary by (rewrite IH2, IH3 by done; congruence). by rewrite IH3.
  - rewrite length_repeat_bits, parts_width_value.
    + assert (rept <> 0%nat) by (by intros ->). rewrite Nat.max_l by lia. done.
    + match goal with H : forallb _ _ = true |- _ => rewrite forallb_forall in H end. rewrite List.Forall_forall in *. eauto.
  - apply length_fit.
  - unfold eval_select. destruct (has_unknown _); [apply length_xs|apply length_part].
Qed.

(** ** Inversion *)

Section Inv.
Variables (nets : symbol -> option nat) (env : nat -> bits).
Local Abbreviation wf := (wf nets env).
Local Abbreviation gen_ok := (gen_ok nets env).

Lemma wf_signal a sig : wf (IVL_EX_SIGNAL a sig) = true -> is_Some (nets (SymNet sig 0)) /\ width_ a = length (env sig).
Proof. intros Hw. cbn -[Z.pow] in Hw. destruct (nets (SymNet sig 0)); wf_split; [|done]. split; [by eexists|done]. Qed.

Lemma wf_unary a op e1 : wf (IVL_EX_UNARY a op e1) = true -> wf e1 = true /\ unary_ok a op e1 = true.
Proof. intros [_ [_ [Hw Ho]%andb_prop]%andb_prop]%andb_prop. done. Qed.

Lemma wf_binary a op e1 e2 : wf (IVL_EX_BINARY a op e1 e2) = true -> wf e1 = true /\ wf e2 = true /\ binary_ok a op e1 e2 = true.
Proof. intros [_ [_ [[Hw1 Hw2]%andb_prop Ho]%andb_prop]%andb_prop]%andb_prop. done. Qed.

Lemma wf_ternary a e1 e2 e3 : wf (IVL_EX_TERNARY a e1 e2 e3) = true ->
  wf e1 = true /\ wf e2 = true /\ wf e3 = true /\ ivl_expr_width e2 = width_ a /\ ivl_expr_width e3 = width_ a.
Proof.
  intros [_ [_ Hw]%andb_prop]%andb_prop. apply andb_prop in Hw as [Hw H5]. apply andb_prop in Hw as [Hw H4].
  apply andb_prop in Hw as [Hw H3]. apply andb_prop in Hw as [H1 H2]. apply Nat.eqb_eq in H4, H5. done.
Qed.

Lemma gen_ok_concat a rept parms : gen_ok (IVL_EX_CONCAT a rept parms) = true ->
  Z.of_nat (width_ a) < 2 ^ 30 /\ Forall (fun e => gen_ok e = true) parms /\ (0 < parts_width parms)%nat /\ width_ a = (rept * parts_width parms)%nat.
Proof.
  intros [[_ Hs]%andb_prop [[Hp H0]%andb_prop Hw]%andb_prop]%andb_prop. apply Z.ltb_lt in Hs. apply Nat.ltb_lt in H0. apply Nat.eqb_eq in Hw.
  rewrite forallb_forall in Hp. rewrite List.Forall_forall. done.
Qed.

Lemma wf_pad a e1 : wf (IVL_EX_SELECT a e1 None) = true -> wf e1 = true.
Proof. by intros [_ [_ Hw]%andb_prop]%andb_prop. Qed.

Lemma wf_select a e1 e2 : wf (IVL_EX_SELECT a e1 (Some e2)) = true -> wf e1 = true /\ wf e2 = true /\ base_ok e2 = true.
Proof. intros [_ [_ [[Hw1 Hw2]%andb_prop Ho]%andb_prop]%andb_prop]%andb_prop. done. Qed.
End Inv.

(** ** The operators of expressions in terms of the machine's *)

(** ** Single bits *)

Lemma z2x_idem b : bit4_z2x (bit4_z2x b) = bit4_z2x b.
Proof. by destruct b. Qed.
Lemma or_all_bit b : or_all [b] = bit4_z2x b.
Proof. by destruct b. Qed.
Lemma or_z2x a b : bit4_or (bit4_z2x a) (bit4_z2x b) = bit4_or a b.
Proof. by destruct a, b. Qed.
Lemma z2x_or a b : bit4_z2x (bit4_or a b) = bit4_or a b.
Proof. by destruct a, b. Qed.
Lemma and_z2x a b : bit4_and (bit4_z2x a) (bit4_z2x b) = bit4_and a b.
Proof. by destruct a, b. Qed.
Lemma z2x_not a : bit4_z2x (bit4_not a) = bit4_not a.
Proof. by destruct a. Qed.
Lemma z2x_of_bool b : bit4_z2x (bit4_of_bool b) = bit4_of_bool b.
Proof. by destruct b. Qed.

Lemma z2x_or_all l : bit4_z2x (or_all l) = or_all l.
Proof. destruct l; [done|]. apply z2x_or. Qed.

Lemma zip_bit f a b : zip_bits f [a] [b] = [f a b].
Proof. done. Qed.

(** ** Known operands *)

Lemma known_eq_bit sg l r : length l = length r -> has_unknown l || has_unknown r = false ->
  eq_bit l r = bit4_of_bool (num sg l =? num sg r).
Proof.
  intros Hl Hx. rewrite (proj1 (known_eq_bits l r Hl Hx)), case_eq_iff by done. case_decide as E.
  - rewrite E, Z.eqb_refl. done.
  - destruct (Z.eqb_spec (num sg l) (num sg r)) as [Hn|]; [|done]. by apply num_inj in Hn.
Qed.

(** ** Order *)

(** The flag 4 after [%cmp/s] and [%cmp/u]. *)
Definition order_eq (sg : bool) (l r : bits) : vvp_bit4_t := if sg then signed_eq l r else eq_bit l r.
Definition order_flags (sg : bool) (l r : bits) : list vvp_bit4_t -> list vvp_bit4_t := if sg then flags_s l r else flags_u l r.

Lemma unknown_pair l r : length l = length r -> has_unknown l || has_unknown r = true -> some_pair unknown l r = true.
Proof.
  intros Hl. rewrite <- !not_false_iff_true, orb_false_iff, some_pair_false, !has_unknown_false. intros Hx Hp. apply Hx.
  split; intros i Hi; [specialize (Hp i Hi)|specialize (Hp i ltac:(lia))]; apply orb_false_iff in Hp; tauto.
Qed.

Lemma order_le sg l r : length l = length r ->
  bit4_or (order_eq sg l r) (order_bit sg Z.ltb l r) = order_bit sg Z.leb l r.
Proof.
  intros Hl. unfold order_eq, signed_eq, order_bit. destruct (has_unknown l || has_unknown r) eqn:Hx.
  - destruct sg; [done|]. unfold eq_bit. rewrite (unknown_pair l r Hl Hx). by destruct (some_pair known_differ l r).
  - rewrite (known_eq_bit sg) by done.
    destruct sg, (Z.eqb_spec (num true l) (num true r)), (Z.ltb_spec (num true l) (num true r)), (Z.leb_spec (num true l) (num true r)),
      (Z.eqb_spec (num false l) (num false r)), (Z.ltb_spec (num false l) (num false r)), (Z.leb_spec (num false l) (num false r)); try done; lia.
Qed.

Lemma order_swap sg f g l r : (forall a b, f a b = g b a) -> order_bit sg f l r = order_bit sg g r l.
Proof. intros Hf. unfold order_bit. rewrite (orb_comm (has_unknown r)), Hf. done. Qed.

Lemma order_not sg f g l r : (forall a b, f a b = negb (g a b)) -> bit4_not (order_bit sg g l r) = order_bit sg f l r.
Proof. intros Hf. unfold order_bit. destruct (_ || _); [done|]. rewrite Hf. by destruct (g _ _). Qed.

Lemma order_gt_lt sg l r : order_bit sg Z.gtb l r = order_bit sg Z.ltb r l.
Proof. apply order_swap. intros. apply Z.gtb_ltb. Qed.
Lemma order_ge_le sg l r : order_bit sg Z.geb l r = order_bit sg Z.leb r l.
Proof. apply order_swap. intros. apply Z.geb_leb. Qed.
Lemma order_not_lt sg l r : bit4_not (order_bit sg Z.ltb l r) = order_bit sg Z.geb l r.
Proof. apply order_not. intros. rewrite Z.geb_leb. apply Z.leb_antisym. Qed.
Lemma order_not_le sg l r : bit4_not (order_bit sg Z.leb l r) = order_bit sg Z.gtb l r.
Proof. apply order_not. intros. rewrite Z.gtb_ltb. apply Z.ltb_antisym. Qed.

Lemma z2x_order sg f l r : bit4_z2x (order_bit sg f l r) = order_bit sg f l r.
Proof. unfold order_bit. destruct (_ || _); [done|]. apply z2x_of_bool. Qed.
Lemma z2x_eq l r : bit4_z2x (eq_bit l r) = eq_bit l r.
Proof. unfold eq_bit. by repeat case_match. Qed.
Lemma z2x_case_eq l r : bit4_z2x (case_eq_bit l r) = case_eq_bit l r.
Proof. unfold case_eq_bit. by case_match. Qed.

Lemma some_pair_sym f l r : length l = length r -> (forall a b, f a b = f b a) -> some_pair f l r = some_pair f r l.
Proof. intros Hl Hf. unfold some_pair. rewrite Hl. apply existsb_ext_in. intros i _. apply Hf. Qed.

Lemma eq_bit_sym l r : length l = length r -> eq_bit l r = eq_bit r l.
Proof.
  intros Hl. unfold eq_bit. rewrite (some_pair_sym known_differ l r), (some_pair_sym unknown l r); [done|done| |done|].
  - intros. apply orb_comm.
  - by intros [] [].
Qed.

Lemma case_eq_sym l r : length l = length r -> case_eq_bit l r = case_eq_bit r l.
Proof. intros Hl. unfold case_eq_bit. rewrite (some_pair_sym unequal l r); [done|done|]. by intros [] []. Qed.

(** ** Negation and magnitude *)

Lemma has_unknown_not l : has_unknown (not_bits l) = has_unknown l.
Proof.
  apply eq_true_iff_eq. rewrite <- !not_false_iff_true, !has_unknown_false, length_not. split; intros Hx Ha; apply Hx; intros i Hi; specialize (Ha i Hi).
  - unfold not_bits. rewrite bit_at_map by done. by destruct (bit_at l i).
  - unfold not_bits in Ha. rewrite bit_at_map in Ha by done. by destruct (bit_at l i).
Qed.

Lemma not_known l : has_unknown l = false -> not_bits l = bits_of_Z (length l) (- 1 - unum l).
Proof.
  intros Hx. apply bits_eq; [by rewrite length_not, length_bits_of_Z|]. rewrite length_not. intros i Hi.
  unfold not_bits, bits_of_Z. rewrite !bit_at_map by done. rewrite known_bit_at by done.
  replace (- 1 - unum l) with (Z.lnot (unum l)) by (unfold Z.lnot; lia). rewrite Z.lnot_spec by lia. by destruct (Z.testbit _ _).
Qed.

Lemma neg_code l : (0 < length l)%nat -> arith2 false Z.add (not_bits l) (bits_of_Z (length l) 1) = neg_bits l.
Proof.
  intros Hl. unfold arith2, neg_bits. rewrite length_not, has_unknown_not, has_unknown_bits_of_Z, orb_false_r.
  apply arith_ext. intros Hx. rewrite (not_known l Hx). unfold num. cbn [andb]. rewrite !unum_bits_of_Z.
  rewrite <- Z.add_mod by (pose proof (pow2_pos (Z.of_nat (length l))); lia). f_equal. lia.
Qed.

Lemma bits_of_num sg l : has_unknown l = false -> bits_of_Z (length l) (num sg l) = l.
Proof.
  intros Hx. apply bits_eq; [apply length_bits_of_Z|]. rewrite length_bits_of_Z. intros i Hi.
  unfold bits_of_Z. rewrite bit_at_map, (known_bit_at l) by done. f_equal. rewrite <- (Z.mod_pow2_bits_low _ (Z.of_nat (length l))) by lia.
  rewrite num_mod by done. rewrite Z.mod_pow2_bits_low by lia. done.
Qed.

(** The two cases of [draw_unary_vec4] for the magnitude. *)
Lemma abs_code l : (0 < length l)%nat ->
  abs_bits true l = if bool_decide (order_bit true Z.ltb l (bits_of_Z (length l) 0) = BIT4_1) then neg_bits l else l.
Proof.
  intros Hl. unfold abs_bits, order_bit, neg_bits. rewrite has_unknown_bits_of_Z, orb_false_r. cbn [andb].
  assert (H0 : num true (bits_of_Z (length l) 0) = 0).
  { unfold num. rewrite unum_bits_of_Z, Z.mod_0_l, length_bits_of_Z by (pose proof (pow2_pos (Z.of_nat (length l))); lia).
    unfold bits_of_Z. rewrite bit_at_map by lia. by rewrite Z.bits_0. }
  rewrite H0. destruct (has_unknown l) eqn:Hx; [done|]. cbn [negb arith]. destruct (Z.ltb_spec (num true l) 0); cbn.
  - apply bits_of_Z_mod. rewrite Z.abs_neq by lia. pose proof (num_mod true l (length l) (le_n _)) as Hm.
    rewrite <- (Z.sub_0_l (num true l)), <- (Z.sub_0_l (unum l)), Zminus_mod, Hm, <- Zminus_mod. done.
  - rewrite Z.abs_eq by lia. by apply bits_of_num.
Qed.
