(* ===== verification/CodegenNumber.v ===== *)
(** * CodegenNumber: specifications of the functions of the generator; numbers, strings and signals

    [acts m W U pre post]: the code that [m] prints replaces the vectors [pre] on top of
    the stack by [post]; it leaves the flags [U] and the words [W] alone, and the
    generator has the same flags and words allocated as before.  [decides m W U b]: the
    code leaves the truth value [b] in the flag that [m] returns, allocated if it is
    not one of the fixed ones. *)
From Stdlib Require Import String Ascii.

From Stdlib Require Import String.
From stdpp Require Import gmap sets.
From S2P Require Import Prelude FourState Vector4 Vector4Value Vector4Ops Vector4Arith Bits Thread ThreadDiv ThreadSpec ThreadCmp ThreadData.
From S2P Require Import ThreadShift ThreadDivSpec Machine MachineRun Codegen EmitWp CodegenAlloc EmitOps ExprSem.
Import Bit4.

Open Scope ivl_scope.

Lemma fit_same sg n l : length l = n -> fit sg n l = l.
Proof.
  intros <-. apply bits_eq; [apply length_fit|]. rewrite length_fit. intros i Hi. unfold fit. rewrite bit_at_map by done.
  by rewrite (proj2 (Nat.ltb_lt _ _)).
Qed.

Lemma bind_assoc {X Y Z} (m : M X) (f : X -> M Y) (k : Y -> M Z) st : ((m ≫= f) ≫= k) st = (m ≫= (fun x => f x ≫= k)) st.
Proof.
  unfold mbind, M_bind. destruct (m st) as [x st1 o1| |]; [|done..]. destruct (f x st1) as [y st2 o2| |]; [|done..].
  destruct (k y st2); [|done..]. by rewrite app_assoc.
Qed.

Lemma ret_bind {X Y} (x : X) (f : X -> M Y) st : (mret x ≫= f) st = f x st.
Proof. unfold mbind, M_bind, mret, M_ret. by destruct (f x st). Qed.

(** Words and flags are left for [r] registers and [d] flags more. *)
Definition room (W U : gset nat) (d r : nat) : Prop := (base.size U + d <= FLAGS_COUNT)%nat /\ (base.size W + r <= WORD_COUNT)%nat.

Lemma room_mono W U d r d' r' : (d' <= d)%nat -> (r' <= r)%nat -> room W U d r -> room W U d' r'.
Proof. intros ? ? []. split; lia. Qed.

Lemma room_flag W U f d r : room W U (S d) r -> room W ({[f]} ∪ U) d r.
Proof.
  intros [H1 H2]. split; [|done]. destruct (decide (f ∈ U)).
  - replace ({[f]} ∪ U) with U by set_solver. lia.
  - rewrite size_new by done. lia.
Qed.

Lemma room_word W U w d r : room W U d (S r) -> room ({[w]} ∪ W) U d r.
Proof.
  intros [H1 H2]. split; [done|]. destruct (decide (w ∈ W)).
  - replace ({[w]} ∪ W) with W by set_solver. lia.
  - rewrite size_new by done. lia.
Qed.

Section Acts.
Context `{World}.
Variables (nets : symbol -> option nat) (thread_count : nat).
Hypothesis not_stopped : schedule_stopped = false.
Implicit Types (st : cg) (P : list symbol) (fl : list vvp_bit4_t) (ws : list Z) (ls pre mid post : list bits) (l r : bits) (W U : gset nat).

Local Abbreviation wp := (wp nets thread_count).

Definition acts (m : M unit) W U pre post : Prop :=
  forall P st fl ws ls (Phi : unit -> list symbol -> cg -> abs -> Prop), alloc st W U ->
  (forall st' fl' ws', alloc st' W U -> keeps W U fl ws fl' ws' -> Phi tt P st' (Abs fl' ws' (post ++ ls))) ->
  wp m P st (Abs fl ws (pre ++ ls)) Phi.

Definition decides (m : M nat) W U (b : vvp_bit4_t) : Prop :=
  forall P st fl ws ls (Phi : nat -> list symbol -> cg -> abs -> Prop), alloc st W U ->
  (forall f st' fl' ws' c, alloc st' W ({[f]} ∪ U) -> (f < FLAGS_COUNT)%nat -> ((8 <= f)%nat -> f ∉ U) ->
     keeps W U fl ws fl' ws' -> fl' !! f = Some c -> bit4_z2x c = b -> Phi f P st' (Abs fl' ws' ls)) ->
  wp m P st (Abs fl ws ls) Phi.

Lemma acts_ret W U pre : acts (mret tt) W U pre pre.
Proof. intros P st fl ws ls Phi Ha HP. apply wp_ret. by apply HP. Qed.

Lemma acts_bind m (k : M unit) W U pre mid post : acts m W U pre mid -> acts k W U mid post -> acts (m;; k) W U pre post.
Proof.
  intros Hm Hk P st fl ws ls Phi Ha HP. apply wp_bind, Hm; [done|]. intros st1 fl1 ws1 Ha1 K1.
  apply Hk; [done|]. intros st2 fl2 ws2 Ha2 K2. apply HP; [done|]. by eapply keeps_trans.
Qed.

Lemma acts_ext (m m' : M unit) W U pre post : (forall st, m' st = m st) -> acts m W U pre post -> acts m' W U pre post.
Proof. intros E Hm P st fl ws ls Phi Ha HP Hok. rewrite E. by apply Hm. Qed.

Lemma acts_assoc {X Y} (m : M X) (f : X -> M Y) (k : Y -> M unit) W U pre post :
  acts (m ≫= (fun x => f x ≫= k)) W U pre post -> acts ((m ≫= f) ≫= k) W U pre post.
Proof. apply acts_ext. intros. apply bind_assoc. Qed.

(** A step that prints nothing. *)
Lemma acts_pure {X} (m : M X) x (k : X -> M unit) W U pre post : (forall st, m st = Done x st []) -> acts (k x) W U pre post ->
  acts (m ≫= k) W U pre post.
Proof.
  intros Hm Hk P st fl ws ls Phi Ha HP. apply wp_bind. intros Hok. rewrite Hm. exists P, (Abs fl ws (pre ++ ls)).
  split; [apply frag_nil|]. split; [apply runs_nil|]. by apply Hk.
Qed.

Lemma acts_frame m W U pre post rest : acts m W U pre post -> acts m W U (pre ++ rest) (post ++ rest).
Proof. intros Hm P st fl ws ls Phi Ha HP. rewrite <- app_assoc. apply Hm; [done|]. intros. rewrite app_assoc. by apply HP. Qed.

(** Pushes one more vector. *)
Lemma acts_push m W U v rest : acts m W U [] [v] -> acts m W U rest (v :: rest).
Proof. exact (acts_frame m W U [] [v] rest). Qed.

Lemma acts_assert (b : bool) W U pre : b = true -> acts (assert_ b) W U pre pre.
Proof. intros -> P st fl ws ls Phi Ha HP. apply (wp_assert _ _ true); [done|]. by apply HP. Qed.

(** Only the stack is touched. *)
Lemma acts_stack m W U pre post :
  (forall P st fl ws ls (Phi : unit -> list symbol -> cg -> abs -> Prop),
     Phi tt P st (Abs fl ws (post ++ ls)) -> wp m P st (Abs fl ws (pre ++ ls)) Phi) -> acts m W U pre post.
Proof. intros Hm P st fl ws ls Phi Ha HP. apply Hm. by apply HP. Qed.

Lemma acts_resize e n W U v : length v = ivl_expr_width e -> small n -> (0 < n)%nat ->
  acts (resize_vec4_wid e n) W U [v] [fit (ivl_expr_signed e) n v].
Proof.
  intros Hl Hn H0. unfold resize_vec4_wid. destruct (Nat.eqb_spec (ivl_expr_width e) n) as [He|He].
  - rewrite fit_same by congruence. apply acts_ret.
  - apply acts_stack. intros P st fl ws ls Phi HP.
    assert (Hw : wp (emit (if ivl_expr_signed e then "%pad/s" else "%pad/u") [num_ n]) P st (Abs fl ws (v :: ls)) Phi) by by apply wp_pad.
    by destruct (ivl_expr_signed e).
Qed.

(** The same, as [draw_binary_vec4_arith] and others write it. *)
Lemma acts_pad (sg : bool) n W U v : small n -> (0 < n)%nat ->
  acts (if (length v =? n)%nat then mret tt else emit (if sg then "%pad/s" else "%pad/u") [num_ n]) W U [v] [fit sg n v].
Proof.
  intros Hn H0. destruct (Nat.eqb_spec (length v) n) as [He|He].
  - rewrite fit_same by done. apply acts_ret.
  - apply acts_stack. intros. by apply wp_pad.
Qed.

(** [draw; resize] *)
Lemma acts_draw_resize draw e n W U v (k : M unit) rest post : acts (draw e) W U [] [v] -> length v = ivl_expr_width e -> small n -> (0 < n)%nat ->
  acts k W U (fit (ivl_expr_signed e) n v :: rest) post -> acts (draw e;; resize_vec4_wid e n;; k) W U rest post.
Proof.
  intros Hd Hl Hn H0 Hk. eapply acts_bind; [by apply acts_push|]. eapply acts_bind; [|exact Hk].
  apply (acts_frame _ _ _ [v] [fit (ivl_expr_signed e) n v] rest). by apply acts_resize.
Qed.

(** The flag is given back. *)
Lemma wp_clr_flag f W U P st A (Phi : unit -> list symbol -> cg -> abs -> Prop) :
  alloc st W ({[f]} ∪ U) -> (f < FLAGS_COUNT)%nat -> ((8 <= f)%nat -> f ∉ U) -> (forall i, (i < 8)%nat -> i ∈ U) ->
  (forall st', alloc st' W U -> Phi tt P st' A) -> wp (clr_flag f) P st A Phi.
Proof.
  intros Ha Hf Hn Hlow HP Hok. destruct (Nat.lt_ge_cases f 8) as [H8|H8].
  - rewrite clr_low_flag by done. exists P, A. split; [apply frag_nil|]. split; [apply runs_nil|]. apply HP.
    replace U with ({[f]} ∪ U); [done|]. specialize (Hlow f H8). clear - Hlow. set_solver.
  - destruct (clr_flag_spec st W U f) as (st' & -> & Hlc & Ha'); [done|by apply Hn|done|].
    exists P, A. rewrite Hlc. split; [apply frag_nil|]. split; [apply runs_nil|]. by apply HP.
Qed.

Lemma wp_allocate_flag W U P st A (Phi : nat -> list symbol -> cg -> abs -> Prop) : alloc st W U -> (base.size U < FLAGS_COUNT)%nat ->
  (forall f st', alloc st' W ({[f]} ∪ U) -> (8 <= f < FLAGS_COUNT)%nat -> f ∉ U -> Phi f P st' A) -> wp allocate_flag P st A Phi.
Proof.
  intros Ha Hs HP Hok. destruct (allocate_flag_spec st W U Ha Hs) as (f & st' & -> & Hlc & Hf & Hn & Ha').
  exists P, A. rewrite Hlc. split; [apply frag_nil|]. split; [apply runs_nil|]. by apply HP.
Qed.

Lemma wp_allocate_word W U P st A (Phi : nat -> list symbol -> cg -> abs -> Prop) : alloc st W U -> (base.size W < WORD_COUNT)%nat ->
  (forall w st', alloc st' ({[w]} ∪ W) U -> (4 <= w < WORD_COUNT)%nat -> w ∉ W -> Phi w P st' A) -> wp allocate_word P st A Phi.
Proof.
  intros Ha Hs HP Hok. destruct (allocate_word_spec st W U Ha Hs) as (f & st' & -> & Hlc & Hf & Hn & Ha').
  exists P, A. rewrite Hlc. split; [apply frag_nil|]. split; [apply runs_nil|]. by apply HP.
Qed.

Lemma wp_clr_word w W U P st A (Phi : unit -> list symbol -> cg -> abs -> Prop) :
  alloc st ({[w]} ∪ W) U -> (4 <= w < WORD_COUNT)%nat -> w ∉ W ->
  (forall st', alloc st' W U -> Phi tt P st' A) -> wp (clr_word w) P st A Phi.
Proof.
  intros Ha Hw Hn HP Hok. destruct (clr_word_spec st W U w Ha Hn Hw) as (st' & -> & Hlc & Ha').
  exists P, A. rewrite Hlc. split; [apply frag_nil|]. split; [apply runs_nil|]. by apply HP.
Qed.

(** A label that is allocated changes neither words nor flags. *)
Lemma wp_label W U P st A (Phi : nat -> list symbol -> cg -> abs -> Prop) : alloc st W U ->
  (forall n st', alloc st' W U -> Phi n (SymCode thread_count n :: P) st' A) -> wp new_label P st A Phi.
Proof. intros Ha HP. apply wp_new_label. cbv zeta. apply HP. by apply alloc_label. Qed.
End Acts.

(** Room for an operand of the expression. *)
Ltac sub_room Hroom := eapply room_mono; [| |exact Hroom]; cbn; lia.

(** ** The code of numbers, strings and signals *)
Import Bit4.

Open Scope ivl_scope.

(** ** Digits, shifted into the words of an immediate vector *)

Definition digits (ds : list ascii) : bits := map bit_of_digit ds.

Lemma is_digit_bits c : is_digit c = true -> exists b0 bx, digit_bits c = Some (Z.b2z b0, Z.b2z bx) /\ mk_bit b0 bx = bit_of_digit c.
Proof.
  unfold is_digit, digit_bits, bit_of_digit. intros Hc.
  destruct (digit c "0"); [by exists false, false|]. destruct (digit c "1"); [by exists true, false|].
  destruct (digit c "x"); [by exists true, true|]. destruct (digit c "z"); [by exists false, true|done].
Qed.

Lemma shift_in v b k : 0 <= v < 2 ^ k -> 0 <= k <= 62 ->
  let v' := u64 (Z.shiftl v 1) .| Z.b2z b in
  0 <= v' < 2 ^ (k + 1) /\ forall i, Z.testbit v' (Z.of_nat i) = match i with O => b | S i => Z.testbit v (Z.of_nat i) end.
Proof.
  intros Hv Hk. cbv zeta. assert (Hp : 2 ^ (k + 1) = 2 * 2 ^ k) by (rewrite Z.pow_add_r by lia; lia).
  assert (H64 : 2 ^ (k + 1) <= 2 ^ 63) by (apply Z.pow_le_mono_r; lia).
  assert (E : u64 (Z.shiftl v 1) .| Z.b2z b = Z.b2z b + v * 2 ^ 1).
  { rewrite Z.shiftl_mul_pow2 by lia. rewrite u64_small by (unfold is_word; lia).
    apply Z.bits_inj'. intros i Hi. rewrite Z.lor_spec, testbit_add_high by (destruct b; cbn; lia).
    rewrite <- Z.shiftl_mul_pow2, Z.shiftl_spec, testbit_b2z by lia. destruct (Z.ltb_spec i 1).
    - rewrite (Z.testbit_neg_r v) by lia. done.
    - rewrite (proj2 (Z.eqb_neq i 0)) by lia. by rewrite andb_false_r, orb_false_r. }
  rewrite E. split; [destruct b; cbn [Z.b2z]; lia|]. intros i. rewrite testbit_add_high by (destruct b; cbn; lia).
  rewrite testbit_b2z. destruct i as [|i].
  - rewrite (proj2 (Z.ltb_lt _ _)) by lia. cbn. by rewrite andb_true_r.
  - rewrite (proj2 (Z.ltb_ge _ _)) by lia. f_equal. lia.
Qed.

Lemma imm_shift_in n v0 vx w0 wx b0 bx :
  (forall i, Z.testbit w0 (Z.of_nat i) = match i with O => b0 | S i => Z.testbit v0 (Z.of_nat i) end) ->
  (forall i, Z.testbit wx (Z.of_nat i) = match i with O => bx | S i => Z.testbit vx (Z.of_nat i) end) ->
  imm_bits (S n) w0 wx = mk_bit b0 bx :: imm_bits n v0 vx.
Proof.
  intros H0 Hx. apply bits_eq; cbn [length]; rewrite !length_imm; [done|]. intros i Hi. unfold imm_bits at 1.
  rewrite bit_at_map by done. rewrite H0, Hx. destruct i as [|i]; [done|].
  transitivity (bit_at (imm_bits n v0 vx) i); [|done]. unfold imm_bits. by rewrite bit_at_map by lia.
Qed.

Lemma top_bit_low v0 vx : 0 <= v0 < 2 ^ 32 -> 0 <= vx < 2 ^ 32 ->
  top_bit v0 vx = false -> v0 < 2 ^ 31 /\ vx < 2 ^ 31.
Proof.
  intros H0 Hx Ht. unfold top_bit in Ht. apply negb_false_iff, Z.eqb_eq in Ht.
  assert (Hb : Z.testbit (v0 .| vx) 31 = false).
  { change 0x80000000 with (2 ^ 31) in Ht. assert (Hz : Z.testbit ((v0 .| vx) .& 2 ^ 31) 31 = false) by (rewrite Ht; apply Z.bits_0).
    rewrite Z.land_spec, Z.pow2_bits_true in Hz by lia. by rewrite andb_true_r in Hz. }
  rewrite Z.lor_spec in Hb. apply orb_false_iff in Hb as [B0 Bx].
  assert (Hlow : forall v, 0 <= v < 2 ^ 32 -> Z.testbit v 31 = false -> v < 2 ^ 31).
  { intros v Hv Hvb. apply Z.nle_gt. intros Hge. pose proof (testbit_add_high (v - 2 ^ 31) 1 31 31 ltac:(lia) ltac:(lia) ltac:(lia)) as Ht31.
    replace (v - 2 ^ 31 + 1 * 2 ^ 31) with v in Ht31 by lia. by rewrite Hvb in Ht31. }
  split; by apply Hlow.
Qed.

Lemma top_bit_small v0 vx : 0 <= v0 < 2 ^ 31 -> 0 <= vx < 2 ^ 31 -> top_bit v0 vx = false.
Proof.
  intros H0 Hx. unfold top_bit. apply negb_false_iff, Z.eqb_eq. change 0x80000000 with (2 ^ 31). apply Z.bits_inj'. intros i Hi.
  rewrite Z.land_spec, Z.lor_spec, Z.bits_0. destruct (Z.eq_dec i 31) as [->|Hn].
  - by rewrite (testbit_small v0 31), (testbit_small vx 31) by lia.
  - rewrite Z.pow2_bits_false by lia. apply andb_false_r.
Qed.

(** ** Immediate operands *)

Lemma immediate_words_zeros ds rest : forallb (fun c => digit c "0") ds = true ->
  immediate_words (ds ++ rest) 0 0 = immediate_words rest 0 0.
Proof.
  induction ds as [|c ds IH]; cbn [forallb app]; [done|]. intros [Hc Hds]%andb_prop. cbn [immediate_words].
  rewrite top_bit_small by lia. unfold digit_bits. rewrite Hc. cbn [mbind option_bind]. by apply IH.
Qed.

Lemma immediate_words_spec ds : forall k v0 vx, forallb is_digit ds = true -> (k + length ds <= 32)%nat ->
  0 <= v0 < 2 ^ Z.of_nat k -> 0 <= vx < 2 ^ Z.of_nat k ->
  exists w0 wx, immediate_words ds v0 vx = Some (w0, wx) /\ 0 <= w0 < 2 ^ Z.of_nat (k + length ds) /\ 0 <= wx < 2 ^ Z.of_nat (k + length ds) /\
    forall n, imm_bits (n + length ds) w0 wx = rev (digits ds) ++ imm_bits n v0 vx.
Proof.
  induction ds as [|c ds IH]; intros k v0 vx Hd Hk H0 Hx; cbn [immediate_words length] in *.
  - rewrite Nat.add_0_r. exists v0, vx. split; [done|]. split; [lia|]. split; [lia|]. intros n. by rewrite Nat.add_0_r.
  - cbn [forallb] in Hd. apply andb_prop in Hd as [Hc Hd].
    assert (H31 : 2 ^ Z.of_nat k <= 2 ^ 31) by (apply Z.pow_le_mono_r; lia). rewrite top_bit_small by lia.
    destruct (is_digit_bits c Hc) as (b0 & bx & -> & Hb). cbn [mbind option_bind].
    destruct (shift_in v0 b0 (Z.of_nat k)) as [R0 T0]; [lia|lia|]. destruct (shift_in vx bx (Z.of_nat k)) as [Rx Tx]; [lia|lia|].
    replace (Z.of_nat k + 1) with (Z.of_nat (S k)) in * by lia.
    destruct (IH (S k) _ _ Hd ltac:(lia) R0 Rx) as (w0 & wx & E & Hw0 & Hwx & Hi). rewrite Nat.add_succ_comm in Hw0, Hwx. exists w0, wx. split; [done|]. split; [done|]. split; [done|].
    intros n. rewrite Nat.add_succ_r. cbn [digits map rev]. rewrite <- app_assoc. cbn [app].
    rewrite <- Hb, <- (imm_shift_in n v0 vx _ _ b0 bx T0 Tx). apply (Hi (S n)).
Qed.

Lemma imm_zero n : imm_bits n 0 0 = repeat BIT4_0 n.
Proof.
  apply bits_eq; [by rewrite length_imm, repeat_length|]. rewrite length_imm. intros i Hi. unfold imm_bits.
  rewrite bit_at_map by done. rewrite Z.bits_0. symmetry. by apply nth_repeat_lt.
Qed.

Lemma digits_zeros ds : forallb (fun c => digit c "0") ds = true -> digits ds = repeat BIT4_0 (length ds).
Proof.
  induction ds as [|c ds IH]; cbn [forallb]; [done|]. intros [Hc Hds]%andb_prop. unfold digits in *. cbn. rewrite IH by done. unfold bit_of_digit. by rewrite Hc.
Qed.

(** The immediate vector of a number that has one. *)
Lemma immediate_operand nets env e : test_immediate_vec4_ok e = true -> gen_ok nets env e = true ->
  exists v0 vx, make_immediate_vec4_words e = Some (v0, vx, ivl_expr_width e) /\ 0 <= v0 < 2 ^ 32 /\ 0 <= vx < 2 ^ 32 /\
    imm_bits (ivl_expr_width e) v0 vx = eval env e /\ v0 < 2 ^ Z.of_nat (ivl_expr_width e) /\ vx < 2 ^ Z.of_nat (ivl_expr_width e).
Proof.
  destruct e as [a ds| | | | | | |]; try done. cbn [test_immediate_vec4_ok make_immediate_vec4_words eval]. intros Ht Hw.
  cbn -[Z.pow take] in Hw. apply andb_prop in Hw as [_ Hw]. apply andb_prop in Hw as [Hlen Hd]. apply Nat.leb_le in Hlen.
  unfold ivl_expr_width. cbn [attr_of]. set (w := width_ a) in *. set (ds' := take w ds) in *.
  assert (Hl : length ds' = w) by (unfold ds'; rewrite length_take; lia).
  assert (Hz : forallb (fun c => digit c "0") (drop 32 ds') = true).
  { apply orb_prop in Ht as [Hs|]; [|done]. apply Nat.leb_le in Hs. by rewrite drop_ge by lia. }
  assert (Hr : rev ds' = rev (drop 32 ds') ++ rev (take 32 ds')) by (rewrite <- rev_app_distr; by rewrite take_drop).
  rewrite Hr, immediate_words_zeros.
  2: { rewrite forallb_forall in *. intros c Hc. apply Hz. by apply in_rev. }
  destruct (immediate_words_spec (rev (take 32 ds')) 0 0 0) as (w0 & wx & -> & H0 & Hx & Hi).
  { rewrite forallb_forall in *. intros c Hc%in_rev. apply Hd. rewrite <- (take_drop 32 ds'). apply in_or_app. by left. }
  { rewrite length_rev, length_take. lia. } { lia. } { lia. }
  rewrite Nat.add_0_l, length_rev, length_take in H0, Hx.
  assert (2 ^ Z.of_nat (Nat.min 32 (length ds')) <= 2 ^ 32) by (apply Z.pow_le_mono_r; lia).
  assert (2 ^ Z.of_nat (Nat.min 32 (length ds')) <= 2 ^ Z.of_nat w) by (apply Z.pow_le_mono_r; lia).
  exists w0, wx. split; [done|]. split; [lia|]. split; [lia|]. split; [|lia].
  specialize (Hi (w - length (take 32 ds'))%nat). rewrite length_rev in Hi. rewrite Nat.sub_add in Hi by (rewrite length_take; lia).
  rewrite Hi, imm_zero. unfold digits. rewrite map_rev, rev_involutive. change (number_value a ds) with (digits ds').
  rewrite <- (take_drop 32 ds'). unfold digits. rewrite map_app, take_drop. f_equal. fold (digits (drop 32 ds')).
  rewrite digits_zeros by done. f_equal. rewrite length_take, length_drop. lia.
Qed.

(** ** Characters, shifted into a word *)

Lemma imm_number n v : imm_bits n v 0 = bits_of_Z n v.
Proof.
  apply bits_eq; [by rewrite length_imm, length_bits_of_Z|]. rewrite length_imm. intros i Hi. unfold imm_bits, bits_of_Z.
  rewrite !bit_at_map by done. rewrite Z.bits_0. by destruct (Z.testbit v _).
Qed.

Lemma bit_at_app l r i : bit_at (l ++ r) i = if (i <? length l)%nat then bit_at l i else bit_at r (i - length l).
Proof.
  unfold bit_at. destruct (Nat.ltb_spec i (length l)); [by apply app_nth1|by apply app_nth2].
Qed.

Lemma bits_of_Z_app m n a b : 0 <= a < 2 ^ Z.of_nat m -> bits_of_Z (m + n) (a + b * 2 ^ Z.of_nat m) = bits_of_Z m a ++ bits_of_Z n b.
Proof.
  intros Ha. apply bits_eq; [by rewrite length_app, !length_bits_of_Z|]. rewrite length_bits_of_Z. intros i Hi.
  rewrite bit_at_app, length_bits_of_Z. unfold bits_of_Z at 1. rewrite bit_at_map, testbit_add_high by lia.
  unfold bits_of_Z. destruct (Nat.ltb_spec i m), (Z.ltb_spec (Z.of_nat i) (Z.of_nat m)); try lia; rewrite bit_at_map by lia; [done|].
  do 2 f_equal. lia.
Qed.

Lemma char_in tmp c : 0 <= tmp < 2 ^ 24 -> code_of c < 128 -> u64 (Z.shiftl tmp 8) .| char_value c = code_of c + tmp * 2 ^ 8.
Proof.
  intros Ht Hc. unfold char_value. rewrite (proj2 (Z.ltb_lt _ _)) by done. assert (H0 : 0 <= code_of c) by (unfold code_of; lia).
  rewrite Z.shiftl_mul_pow2 by lia. rewrite u64_small by (unfold is_word; lia). apply Z.bits_inj'. intros i Hi.
  rewrite Z.lor_spec, testbit_add_high by lia. rewrite <- Z.shiftl_mul_pow2, Z.shiftl_spec by lia. destruct (Z.ltb_spec i 8).
  - by rewrite Z.testbit_neg_r by lia.
  - rewrite (testbit_small (code_of c) 8) by lia. by rewrite orb_false_r.
Qed.

Section Number.
Context `{World}.
Variables (nets : symbol -> option nat) (thread_count : nat) (env : nat -> bits).
Hypothesis not_stopped : schedule_stopped = false.
Implicit Types (st : cg) (P : list symbol) (fl : list vvp_bit4_t) (ws : list Z) (ls : list bits) (l r : bits) (W U : gset nat).

Local Abbreviation wp := (wp nets thread_count).
Local Abbreviation acts := (acts nets thread_count).
Local Abbreviation gen_ok := (gen_ok nets env).

(** ** Immediate operands *)

Lemma gen_ok_small e : gen_ok e = true -> is_zero_replication e = false -> small (ivl_expr_width e) /\ (0 < ivl_expr_width e)%nat.
Proof.
  intros Hw Hz. assert (Hh : (is_zero_replication e || (0 <? width_ (attr_of e))%nat) && (Z.of_nat (width_ (attr_of e)) <? 2 ^ 30) = true).
  { destruct e; cbn -[Z.pow Nat.ltb] in *; by apply andb_prop in Hw as [Hw _]. }
  rewrite Hz in Hh. cbn [orb] in Hh. wf_split. done.
Qed.

Lemma wp_draw_immediate e mn P st fl ws ls l (Phi : unit -> list symbol -> cg -> abs -> Prop) :
  test_immediate_vec4_ok e = true -> gen_ok e = true ->
  (forall v0 vx, 0 <= v0 < 2 ^ 32 -> 0 <= vx < 2 ^ 32 -> imm_bits (ivl_expr_width e) v0 vx = eval env e ->
     wp (emit mn [L_NUMB v0; L_NUMB vx; num_ (ivl_expr_width e)]) P st (Abs fl ws (l :: ls)) Phi) ->
  wp (draw_immediate_vec4 e mn) P st (Abs fl ws (l :: ls)) Phi.
Proof.
  intros Ht Hw He. destruct (immediate_operand nets env e Ht Hw) as (v0 & vx & Hm & H0 & Hx & Hi & _).
  unfold draw_immediate_vec4. apply wp_bind. eapply wp_lift; [exact Hm|]. by apply He.
Qed.

Lemma draw_immediate_acts e mn op f W U l : find_opcode mn = Some (op, [OA_BIT1; OA_BIT2; OA_NUMBER]) -> immediate_op op f ->
  test_immediate_vec4_ok e = true -> gen_ok e = true -> length l = ivl_expr_width e ->
  acts (draw_immediate_vec4 e mn) W U [l] [f l (eval env e)].
Proof.
  intros Ho Hf Ht Hw Hl. apply acts_stack. intros P st fl ws ls Phi HP. apply wp_draw_immediate; [done..|].
  intros v0 vx H0 Hx Hi. assert (Hz : is_zero_replication e = false) by (by destruct e).
  destruct (gen_ok_small e Hw Hz) as [Hs Hp]. rewrite <- Hi in HP. rewrite <- Hl in *. by eapply wp_immediate.
Qed.

Lemma wp_immediate_compare e mn op f P st fl ws ls l (Phi : unit -> list symbol -> cg -> abs -> Prop) :
  find_opcode mn = Some (op, [OA_BIT1; OA_BIT2; OA_NUMBER]) -> comparei_op op f ->
  test_immediate_vec4_ok e = true -> gen_ok e = true -> length l = ivl_expr_width e ->
  Phi tt P st (Abs (f l (eval env e) fl) ws ls) -> wp (draw_immediate_vec4 e mn) P st (Abs fl ws (l :: ls)) Phi.
Proof.
  intros Ho Hf Ht Hw Hl HP. apply wp_draw_immediate; [done..|].
  intros v0 vx H0 Hx Hi. assert (Hz : is_zero_replication e = false) by (by destruct e).
  destruct (gen_ok_small e Hw Hz) as [Hs Hp]. rewrite <- Hi in HP. rewrite <- Hl in *. by eapply wp_comparei.
Qed.

(** ** Numbers *)

(** A chunk of a number, pushed or put below the bits so far. *)
Lemma emit_number_acts count v0 vx n W U m : 0 <= v0 < 2 ^ 32 -> 0 <= vx < 2 ^ 32 -> small n -> (0 < n)%nat ->
  (count = 0%nat -> m = []) ->
  acts (emit_number count v0 vx n) W U (if (count =? 0)%nat then [] else [m]) [imm_bits n v0 vx ++ m].
Proof.
  intros H0 Hx Hn Hn0 Hm. apply acts_stack. intros P st fl ws ls Phi HP. unfold emit_number. destruct (Nat.eqb_spec count 0) as [E|E].
  - rewrite (Hm E), app_nil_r in HP. by apply wp_pushi.
  - by apply wp_concati.
Qed.

Lemma concat_number_acts ds : forall count v0 vx n W U (m : bits), forallb is_digit ds = true ->
  0 <= v0 < 2 ^ 31 -> 0 <= vx < 2 ^ 31 -> small (n + length ds) -> (count <> 0 \/ 0 < n + length ds)%nat -> (count = 0%nat -> m = []) ->
  acts (concat_number_loop ds count v0 vx n) W U (if (count =? 0)%nat then [] else [m]) [rev (digits ds) ++ imm_bits n v0 vx ++ m].
Proof.
  induction ds as [|c ds IH]; intros count v0 vx n W U m Hd H0 Hx Hn Hc Hm; cbn [concat_number_loop length digits map rev app forallb] in *.
  - rewrite Nat.add_0_r in *. destruct (Nat.eqb_spec n 0) as [->|Hn0].
    + assert (Hc' : count <> 0%nat) by lia. rewrite (proj2 (Nat.eqb_neq _ _) Hc'). apply acts_ret.
    + apply emit_number_acts; [lia|lia|done|lia|done].
  - apply andb_prop in Hd as [Hdc Hd]. destruct (is_digit_bits c Hdc) as (b0 & bx & E & Hb). rewrite E. cbn [lift mbind option_bind].
    destruct (shift_in v0 b0 31) as [R0 T0]; [lia|lia|]. destruct (shift_in vx bx 31) as [Rx Tx]; [lia|lia|].
    set (w0 := u64 (Z.shiftl v0 1) .| Z.b2z b0) in *. set (wx := u64 (Z.shiftl vx 1) .| Z.b2z bx) in *. change (31 + 1) with 32 in *.
    pose proof (imm_shift_in n v0 vx w0 wx b0 bx T0 Tx) as Hi. rewrite <- app_assoc. cbn [app].
    change (bit_of_digit c :: imm_bits n v0 vx ++ m) with ((bit_of_digit c :: imm_bits n v0 vx) ++ m). rewrite <- Hb, <- Hi.
    eapply acts_pure; [done|]. cbn beta iota zeta. fold w0 wx.
    destruct (top_bit w0 wx) eqn:Et.
    + eapply acts_bind; [apply emit_number_acts; [done|done|unfold small in *; lia|lia|done]|].
      refine (IH (S count) 0 0 0%nat W U (imm_bits (S n) w0 wx ++ m) _ _ _ _ _ _); [done|lia|lia|unfold small in *; lia|by left|done].
    + destruct (top_bit_low w0 wx R0 Rx Et) as [L0 Lx].
      apply IH; [done|lia|lia|unfold small in *; lia|right; lia|done].
Qed.

Lemma draw_number_acts a ds (as_concati : bool) W U (m : bits) : gen_ok (IVL_EX_NUMBER a ds) = true -> (as_concati = false -> m = []) ->
  acts (draw_concat_number_vec4 a ds as_concati) W U (if as_concati then [m] else []) [number_value a ds ++ m].
Proof.
  intros Hw Hm. destruct (gen_ok_small _ Hw eq_refl) as [Hs Hp]. unfold ivl_expr_width in Hs, Hp. cbn [attr_of] in Hs, Hp.
  cbn -[Z.pow take] in Hw. apply andb_prop in Hw as [_ Hw]. apply andb_prop in Hw as [Hlen Hd]. apply Nat.leb_le in Hlen.
  unfold draw_concat_number_vec4.
  pose proof (concat_number_acts (rev (take (width_ a) ds)) (if as_concati then 1 else 0)%nat 0 0 0 W U m) as Hc.
  rewrite length_rev, length_take, Nat.add_0_l, Nat.min_l in Hc by lia. unfold digits in Hc. rewrite map_rev, rev_involutive in Hc.
  assert (Hd' : forallb is_digit (rev (take (width_ a) ds)) = true).
  { rewrite forallb_forall in *. intros c Hin%in_rev. by apply Hd. }
  destruct as_concati; refine (Hc Hd' _ _ Hs _ _); try lia; auto.
Qed.

Lemma draw_number_ok a ds W U : gen_ok (IVL_EX_NUMBER a ds) = true -> acts (draw_number_vec4 a ds) W U [] [eval env (IVL_EX_NUMBER a ds)].
Proof.
  intros Hw. pose proof (draw_number_acts a ds false W U [] Hw (fun _ => eq_refl)) as Hd. by rewrite app_nil_r in Hd.
Qed.

(** ** Strings *)

(** A chunk of a string, put below the chunks so far. *)
Definition push_chunk (v : Z) (n : nat) (push_flag : bool) : M unit :=
  emit "%pushi/vec4" [L_NUMB v; L_NUMB 0; num_ n];; if push_flag then emit "%concat/vec4" [] else mret tt.

Lemma push_chunk_acts v n (push_flag : bool) W U (m : bits) : 0 <= v < 2 ^ 32 -> small n -> (0 < n)%nat -> (push_flag = false -> m = []) ->
  acts (push_chunk v n push_flag) W U (if push_flag then [m] else []) [bits_of_Z n v ++ m].
Proof.
  intros Hv Hn Hn0 Hm. apply (acts_bind _ _ _ _ _ _ _ (bits_of_Z n v :: if push_flag then [m] else [])).
  - apply acts_stack. intros P st fl ws ls Phi HP. apply wp_pushi; [done|lia|done..|]. by rewrite imm_number.
  - destruct push_flag.
    + apply acts_stack. intros. by apply wp_concat.
    + rewrite Hm by done. rewrite app_nil_r. apply acts_ret.
Qed.

Lemma string_loop_acts text : forall tmp n (push_flag : bool) W U (m : bits), forallb (fun c => code_of c <? 128) text = true ->
  (n < 32)%nat -> (n mod 8 = 0)%nat -> 0 <= tmp < 2 ^ Z.of_nat n -> (push_flag = true \/ 0 < n + length text)%nat -> (push_flag = false -> m = []) ->
  acts (string_loop text tmp n push_flag) W U (if push_flag then [m] else [])
    [flat_map (fun c => bits_of_Z 8 (code_of c)) (rev text) ++ bits_of_Z n tmp ++ m].
Proof.
  assert (Hlt : forall n, (n <= 32)%nat -> 2 ^ Z.of_nat n <= 2 ^ 32) by (intros; apply Z.pow_le_mono_r; lia).
  induction text as [|c text IH]; intros tmp n push_flag W U m Hc Hn H8 Ht Hne Hm; cbn [string_loop rev flat_map app].
  - specialize (Hlt n ltac:(lia)). destruct (Nat.ltb_spec 0 n) as [Hn0|Hn0].
    + apply push_chunk_acts; [lia|unfold small; lia|done|done].
    + destruct Hne as [->|Hne]; [|cbn in Hne; lia]. replace n with 0%nat by lia. apply acts_ret.
  - cbn [forallb] in Hc. apply andb_prop in Hc as [Hc1 Hc]. apply Z.ltb_lt in Hc1.
    pose proof (Nat.div_mod_eq n 8) as Hdm. assert (Hn24 : (n <= 24)%nat) by lia.
    assert (Hp24 : 2 ^ Z.of_nat n <= 2 ^ 24) by (apply Z.pow_le_mono_r; lia). rewrite char_in by lia.
    assert (Hc0 : 0 <= code_of c) by (unfold code_of; lia).
    assert (Hv : 0 <= code_of c + tmp * 2 ^ 8 < 2 ^ Z.of_nat (n + 8)).
    { replace (2 ^ Z.of_nat (n + 8)) with (2 ^ Z.of_nat n * 2 ^ 8) by (rewrite <- Z.pow_add_r by lia; f_equal; lia). nia. }
    pose proof (bits_of_Z_app 8 n (code_of c) tmp) as Hb. change (2 ^ Z.of_nat 8) with (2 ^ 8) in Hb. specialize (Hb ltac:(lia)).
    replace (8 + n)%nat with (n + 8)%nat in Hb by lia. rewrite flat_map_app, <- app_assoc. cbn [flat_map]. rewrite app_nil_r.
    rewrite (app_assoc (bits_of_Z 8 (code_of c))), <- Hb. destruct (Nat.eqb_spec (n + 8) 32) as [E|E].
    + rewrite E in *. eapply acts_ext; [intros; symmetry; apply (bind_assoc (emit _ _) (fun _ => if push_flag then emit "%concat/vec4" [] else mret tt))|].
      eapply acts_bind; [apply (push_chunk_acts _ 32 push_flag _ _ m); [lia|unfold small; lia|lia|done]|].
      refine (IH 0 0%nat true W U (bits_of_Z 32 (code_of c + tmp * 2 ^ 8) ++ m) Hc _ _ _ _ _); try lia; try done; by left.
    + apply IH; [done|lia| |done|right; lia|done]. rewrite <- Nat.Div0.add_mod_idemp_l, H8. done.
Qed.

Lemma draw_string_ok a text W U : gen_ok (IVL_EX_STRING a text) = true -> acts (draw_string_vec4 a text) W U [] [eval env (IVL_EX_STRING a text)].
Proof.
  intros Hw. destruct (gen_ok_small _ Hw eq_refl) as [Hs Hp]. unfold ivl_expr_width in Hs, Hp. cbn [attr_of] in Hs, Hp.
  cbn -[Z.pow Nat.mul process_octal_codes] in Hw. apply andb_prop in Hw as [_ Hw]. apply andb_prop in Hw as [Hlen Hd]. apply Nat.eqb_eq in Hlen.
  unfold draw_string_vec4. set (p := process_octal_codes text (width_ a)) in *.
  replace (length p =? (width_ a + 7) / 8)%nat with true.
  - pose proof (string_loop_acts p 0 0 false W U [] Hd) as Hl. cbn [Nat.modulo] in Hl. rewrite !app_nil_r in Hl. apply Hl; try lia; done.
  - symmetry. apply Nat.eqb_eq. rewrite <- Hlen. apply (Nat.div_unique _ 8 _ 7); lia.
Qed.

(** ** Signals *)

(** The signals of the design have these values. *)
Definition signals_ok : Prop := forall sig, is_Some (nets (SymNet sig 0)) -> signal_is nets sig (env sig).

Lemma draw_signal_ok a sig W U : signals_ok -> wf nets env (IVL_EX_SIGNAL a sig) = true ->
  acts (draw_signal_vec4 sig) W U [] [eval env (IVL_EX_SIGNAL a sig)].
Proof.
  intros Hs Hw. destruct (wf_signal _ _ _ _ Hw) as [Hn Hl]. apply andb_prop in Hw as [_ Hw].
  destruct (gen_ok_small _ Hw eq_refl) as [_ Hp]. unfold ivl_expr_width in Hp. cbn [attr_of] in Hp.
  apply acts_stack. intros P st fl ws ls Phi HP. eapply wp_load; [by apply Hs|lia|done].
Qed.
End Number.

(** ** Numbers as index values *)

Lemma unum_cons c l : unum (c :: l) = Z.b2z (is_one c) + unum l * 2 ^ 1.
Proof.
  apply Z.bits_inj'. intros i Hi. rewrite testbit_add_high by (destruct (is_one c); cbn; lia). unfold unum. rewrite Zbits_testbit by lia.
  destruct (Z.ltb_spec i 1).
  - replace i with 0 by lia. rewrite (proj2 (Z.ltb_lt _ _)) by (cbn [length]; lia). change (bit_at (c :: l) (Z.to_nat 0)) with c. by destruct (is_one c).
  - rewrite Zbits_testbit by lia. cbn [length]. replace (Z.to_nat i) with (S (Z.to_nat (i - 1))) by lia.
    unfold bit_at. cbn [nth]. f_equal. destruct (Z.ltb_spec i (Z.of_nat (S (length l)))), (Z.ltb_spec (i - 1) (Z.of_nat (length l))); try lia; done.
Qed.

Lemma number_is_unknown_digits ds : forallb is_digit ds = true -> number_is_unknown ds = has_unknown (digits ds).
Proof.
  intros Hd. unfold number_is_unknown, has_unknown, digits. induction ds as [|c ds IH]; [done|]. cbn [forallb] in Hd. apply andb_prop in Hd as [Hc Hd].
  cbn [existsb map]. rewrite IH by done. f_equal. unfold bit_of_digit, is_digit in *.
  destruct (digit c "0"), (digit c "1"), (digit c "x"), (digit c "z"); done.
Qed.

Lemma immediate_value_known ds : forall idx, forallb is_digit ds = true -> number_is_unknown ds = false ->
  immediate_value ds idx = Some (unum (digits ds) * 2 ^ Z.of_nat idx).
Proof.
  induction ds as [|c ds IH]; intros idx Hd Hu; cbn [immediate_value]; [done|]. cbn [forallb] in Hd. apply andb_prop in Hd as [Hc Hd].
  cbn [number_is_unknown existsb] in Hu. apply orb_false_iff in Hu as [Hk Hu]. rewrite (IH (S idx) Hd Hu). cbn [mbind option_bind digits map].
  rewrite unum_cons, pow2_S. fold (digits ds). unfold bit_of_digit. change (2 ^ 1) with 2. destruct (digit c "0"); [f_equal; change (Z.b2z (is_one BIT4_0)) with 0; lia|].
  destruct (digit c "1"); [|done]. cbn [is_one]. f_equal. change (Z.b2z (is_one BIT4_1)) with 1. rewrite Z.shiftl_1_l.
  pose proof (pow2_pos (Z.of_nat idx) ltac:(lia)) as Hp.
  transitivity (2 ^ Z.of_nat idx + unum (digits ds) * 2 ^ (Z.of_nat idx + 1)).
  - replace (2 * 2 ^ Z.of_nat idx) with (2 ^ (Z.of_nat idx + 1)) by (rewrite Z.pow_add_r by lia; lia).
    apply Z.bits_inj'. intros i Hi. rewrite Z.lor_spec, testbit_add_high by (rewrite ?Z.pow_add_r by lia; lia).
    rewrite <- Z.shiftl_mul_pow2, Z.shiftl_spec by lia. destruct (Z.ltb_spec i (Z.of_nat idx + 1)).
    + by rewrite (Z.testbit_neg_r (unum _)) by lia.
    + rewrite Z.pow2_bits_false by lia. apply orb_false_r.
  - rewrite Z.pow_add_r by lia. lia.
Qed.

Lemma unum_app l r : unum (l ++ r) = unum l + unum r * 2 ^ Z.of_nat (length l).
Proof.
  induction l as [|c l IH]; [cbn [app length]; change (unum []) with 0; cbn; lia|]. cbn [app length]. rewrite !unum_cons, IH, pow2_S. lia.
Qed.

Lemma unum_zeros n : unum (repeat BIT4_0 n) = 0.
Proof. induction n as [|n IH]; [done|]. cbn [repeat]. rewrite unum_cons, IH. done. Qed.

(** An unsigned number with few bits is its own index value. *)
Lemma immediate_number ds : forallb is_digit ds = true -> number_is_immediate false ds IMM_WID true = true -> number_is_unknown ds = false ->
  get_number_immediate false ds = Some (unum (digits ds)) /\ 0 <= unum (digits ds) < 2 ^ 31.
Proof.
  intros Hd Hi Hu. unfold number_is_immediate, IMM_WID in Hi. cbn [andb] in Hi. change (digit "0" "1") with false in Hi. cbn [andb negb] in Hi.
  assert (Hz : forallb (fun c => digit c "0") (drop 31 ds) = true).
  { destruct ((digit (nth 0 ds "0"%char) "x" || digit (nth 0 ds "0"%char) "z") && _) eqn:E.
    - apply andb_prop in E as [E _]. exfalso. destruct ds as [|c ds]; [done|]. cbn [nth] in E. cbn [number_is_unknown existsb] in Hu.
      apply orb_false_iff in Hu as [Hk _]. cbn [forallb] in Hd. apply andb_prop in Hd as [Hc _]. unfold is_digit, digit in *.
      destruct (Ascii.eqb_spec c "x"), (Ascii.eqb_spec c "z"); subst; done.
    - change (32 - 1)%nat with 31%nat in Hi. destruct (forallb (fun c => digit c "0") (drop 31 ds)); done. }
  assert (Hsplit : forall n, digits ds = digits (take n ds) ++ digits (drop n ds)) by (intros n; unfold digits; by rewrite <- map_app, take_drop).
  assert (Hn : unum (digits ds) = unum (digits (take 31 ds))).
  { rewrite (Hsplit 31%nat), unum_app, (digits_zeros _ Hz), unum_zeros. lia. }
  assert (Hr : 0 <= unum (digits ds) < 2 ^ 31).
  { rewrite Hn. pose proof (unum_range (digits (take 31 ds))) as Hr. unfold digits in Hr at 3. rewrite length_map, length_take in Hr.
    assert (2 ^ Z.of_nat (Nat.min 31 (length ds)) <= 2 ^ 31) by (apply Z.pow_le_mono_r; lia). lia. }
  split; [|done]. unfold get_number_immediate. cbn [andb]. set (n := Nat.min (length ds) 64).
  assert (Hz' : forallb (fun c => digit c "0") (drop n ds) = true).
  { unfold n. destruct (Nat.min_spec (length ds) 64) as [[_ ->]|[_ ->]]; [by rewrite drop_ge by done|].
    change 64%nat with (31 + 33)%nat. rewrite <- drop_drop, forallb_forall in *. intros c Hc. apply Hz.
    rewrite <- (take_drop 33 (drop 31 ds)). apply in_or_app. by right. }
  assert (Hn' : unum (digits (take n ds)) = unum (digits ds)).
  { rewrite (Hsplit n), unum_app, (digits_zeros _ Hz'), unum_zeros. lia. }
  rewrite immediate_value_known.
  - cbn [mbind option_bind]. rewrite Hn', Z.mul_1_r. f_equal. unfold s64. rewrite Z.mod_small by lia. lia.
  - rewrite <- (take_drop n ds), forallb_app in Hd. by apply andb_prop in Hd as [? _].
  - unfold number_is_unknown in *. rewrite <- (take_drop n ds), existsb_app in Hu. by apply orb_false_iff in Hu as [? _].
Qed.
