(* ===== verification/CodegenSpec.v ===== *)
(** * CodegenSpec: the code of the operators

    Each function of the generator pushes the value of its expression, when the
    functions that it calls for the operands do. *)

From Stdlib Require Import String Ascii.
From stdpp Require Import gmap sets.
From S2P Require Import Prelude FourState Vector4 Vector4Value Vector4Ops Bits Thread ThreadDiv ThreadSpec ThreadCmp ThreadData ThreadShift ThreadDivSpec.
From S2P Require Import Machine MachineRun EmitWp Codegen CodegenAlloc EmitOps ExprSem CodegenNumber.
Import Bit4.

Open Scope ivl_scope.

Section Spec.
Context `{World}.
Variables (nets : symbol -> option nat) (thread_count : nat) (env : nat -> bits).
Hypothesis not_stopped : schedule_stopped = false.
Variables (draw_vec4 : ivl_expr_t -> M unit) (draw_cond : ivl_expr_t -> M nat).
Implicit Types (st : cg) (P : list symbol) (fl : list vvp_bit4_t) (ws : list Z) (ls : list bits) (l r : bits) (W U : gset nat).
Implicit Types (e le re : ivl_expr_t) (a : ivl_attr).

Local Abbreviation wp := (wp nets thread_count).
Local Abbreviation acts := (acts nets thread_count).
Local Abbreviation decides := (decides nets thread_count).
Local Abbreviation gen_ok := (gen_ok nets env).
Local Abbreviation wf := (wf nets env).

(** [draw_vec4] and [draw_cond] are right for [e]. *)
Definition part_ok e : Prop := forall W U, room W U (depth e) (registers e) -> acts (draw_vec4 e) W U [] [eval env e].
Definition cond_ok e : Prop := forall W U, room W U (S (depth e)) (registers e) -> decides (draw_cond e) W U (or_all (eval env e)).

Lemma wf_parts e : wf e = true -> gen_ok e = true /\ is_zero_replication e = false.
Proof. intros [Hz Hg]%andb_prop. by apply negb_true_iff in Hz. Qed.

Lemma wf_width e : wf e = true -> length (eval env e) = ivl_expr_width e /\ small (ivl_expr_width e) /\ (0 < ivl_expr_width e)%nat.
Proof.
  intros [Hg Hz]%wf_parts. split; [by apply (gen_ok_width nets)|]. by apply (gen_ok_small nets env).
Qed.

Lemma acts_op1 mn l v W U : (forall P st fl ws ls (Phi : unit -> list symbol -> cg -> abs -> Prop),
    Phi tt P st (Abs fl ws (v :: ls)) -> wp (emit mn []) P st (Abs fl ws (l :: ls)) Phi) -> acts (emit mn []) W U [l] [v].
Proof. intros Hw. apply acts_stack. intros. by apply Hw. Qed.

Lemma acts_binary mn op f W U l r : find_opcode mn = Some (op, []) -> MachineRun.binary_op op f -> length l = length r ->
  acts (emit mn []) W U [r; l] [f l r].
Proof. intros. apply acts_stack. intros. by eapply wp_binary. Qed.

Lemma acts_division mn op f W U l r : find_opcode mn = Some (op, []) -> division_op op f -> length l = length r -> (length l <= 64)%nat ->
  acts (emit mn []) W U [r; l] [f l r].
Proof. intros. apply acts_stack. intros. by eapply wp_division. Qed.

Lemma acts_reduce mn op f W U l : find_opcode mn = Some (op, []) -> reduce_op op f -> acts (emit mn []) W U [l] [[f l]].
Proof. intros. apply acts_stack. intros. by eapply wp_reduce. Qed.

Lemma acts_inv W U l : acts (emit "%inv" []) W U [l] [not_bits l].
Proof. apply acts_stack. intros. by apply wp_inv. Qed.

(** Two operands, then what is done with them. *)
Lemma draw_two le re W U d n (k : M unit) post : part_ok le -> part_ok re -> room W U d n ->
  (Nat.max (depth le) (depth re) <= d)%nat -> (Nat.max (registers le) (registers re) <= n)%nat ->
  acts k W U [eval env re; eval env le] post -> acts (draw_vec4 le;; draw_vec4 re;; k) W U [] post.
Proof.
  intros Hl Hr Hroom Hd Hreg Hk. eapply acts_bind; [apply Hl; eapply room_mono; [| |done]; lia|].
  eapply acts_bind; [apply acts_push, Hr; eapply room_mono; [| |done]; lia|]. done.
Qed.

(** ** Arithmetic *)

Lemma fit_width (sg : bool) n W U v e : length v = ivl_expr_width e -> small n -> (0 < n)%nat ->
  acts (if (ivl_expr_width e =? n)%nat then mret tt else emit (if sg then "%pad/s" else "%pad/u") [num_ n]) W U [v] [fit sg n v].
Proof. intros <-. apply acts_pad. Qed.

Definition arith_op (op : binary_op) : bool := match op with B_add | B_sub | B_mul | B_div | B_mod => true | _ => false end.

(** The instruction of an arithmetic operator. *)
Lemma arith_code op (sl sr : bool) W U l r a : arith_op op = true -> length l = length r -> length l = width_ a ->
  (op = B_div \/ op = B_mod -> (length l <= 64)%nat) ->
  acts (match op with
    | B_add => emit "%add" []
    | B_sub => emit "%sub" []
    | B_mul => emit "%mul" []
    | B_div => emit (if sl && sr then "%div/s" else "%div") []
    | B_mod => emit (if sl && sr then "%mod/s" else "%mod") []
    | B_pow => emit (if sl && sr then "%pow/s" else "%pow") []
    | _ => bug
    end) W U [r; l] [eval_binary a op sl sr l r].
Proof.
  intros Hop Hl Ha H64. assert (Hfl : fit sl (width_ a) l = l) by by apply fit_same. assert (Hfr : fit sr (width_ a) r = r) by (apply fit_same; congruence).
  destruct op; try done; cbn [eval_binary]; rewrite Hfl, Hfr.
  - eapply (acts_binary _ _ (arith2 false Z.add)); [reflexivity|constructor|done].
  - eapply (acts_binary _ _ (arith2 false Z.sub)); [reflexivity|constructor|done].
  - eapply (acts_binary _ _ (arith2 false Z.mul)); [reflexivity|constructor|done].
  - specialize (H64 ltac:(by left)). destruct (sl && sr); (eapply acts_division; [reflexivity|constructor|done|done]).
  - specialize (H64 ltac:(by right)). destruct (sl && sr); (eapply acts_division; [reflexivity|constructor|done|done]).
Qed.

(** The value depends on the operands as they are extended. *)
Lemma eval_arith_fit a op sl sr l r : arith_op op = true ->
  eval_binary a op sl sr (fit sl (width_ a) l) (fit sr (width_ a) r) = eval_binary a op sl sr l r.
Proof. intros Hop. destruct op; try done; cbn [eval_binary]; by rewrite !(fit_same _ (width_ a) (fit _ (width_ a) _)) by apply length_fit. Qed.

Lemma draw_arith_ok a op le re W U : arith_op op = true -> wf (IVL_EX_BINARY a op le re) = true -> part_ok le -> part_ok re ->
  let e := IVL_EX_BINARY a op le re in room W U (depth e) (registers e) ->
  acts (draw_binary_vec4_arith draw_vec4 a op le re) W U [] [eval env e].
Proof.
  intros Hop Hw Hl Hr e Hroom. destruct (wf_width _ Hw) as (_ & Hs & H0). destruct (wf_binary _ _ _ _ _ _ Hw) as (Hwl & Hwr & Hok).
  destruct (wf_width le Hwl) as (Ll & Sl & Pl). destruct (wf_width re Hwr) as (Lr & Sr & Pr).
  set (sl := ivl_expr_signed le). set (sr := ivl_expr_signed re). set (l' := fit sl (width_ a) (eval env le)). set (r' := fit sr (width_ a) (eval env re)).
  assert (He : eval env e = eval_binary a op sl sr l' r') by (unfold e; cbn [eval]; by rewrite <- eval_arith_fit).
  assert (Hpow : bool_decide (op = B_pow) = false) by (apply bool_decide_eq_false; by intros ->).
  unfold draw_binary_vec4_arith. rewrite Hpow, orb_false_r, He. fold sl sr.
  eapply acts_bind; [apply Hl; eapply room_mono; [| |exact Hroom]; cbn; destruct op; try done; lia|].
  eapply acts_bind; [by apply fit_width|]. fold l'.
  assert (G : acts (draw_vec4 re;; (if negb (ivl_expr_width re =? width_ a)%nat && negb false
      then emit (if sr then "%pad/s" else "%pad/u") [num_ (width_ a)] else mret tt);;
    match op with
    | B_add => emit "%add" []
    | B_sub => emit "%sub" []
    | B_mul => emit "%mul" []
    | B_div => emit (if sl && sr then "%div/s" else "%div") []
    | B_mod => emit (if sl && sr then "%mod/s" else "%mod") []
    | B_pow => emit (if sl && sr then "%pow/s" else "%pow") []
    | _ => bug
    end) W U [l'] [eval_binary a op sl sr l' r']).
  { eapply acts_bind; [apply acts_push, Hr; eapply room_mono; [| |exact Hroom]; cbn; destruct op; try done; lia|].
    eapply (acts_bind _ _ _ _ _ _ _ [r'; l']).
    - apply (acts_frame _ _ _ _ _ [_] [r'] [l']). rewrite andb_true_r. pose proof (fit_width sr (width_ a) W U _ re Lr Hs H0) as Hp.
      by destruct (ivl_expr_width re =? width_ a)%nat.
    - apply arith_code; [done|unfold l', r'; by rewrite !length_fit|apply length_fit|].
      intros Hdiv. unfold l'. rewrite length_fit. destruct Hdiv as [-> | ->]; by apply Nat.leb_le. }
  destruct ((ivl_expr_width re =? width_ a)%nat && test_immediate_vec4_ok re) eqn:Hi; [|by destruct op].
  apply andb_prop in Hi as [Hwid Hi]. apply Nat.eqb_eq in Hwid.
  assert (Hr' : r' = eval env re) by (apply fit_same; congruence).
  assert (Hl' : length l' = ivl_expr_width re) by (unfold l'; rewrite length_fit; congruence).
  assert (Hvalue : forall f, arith2 false f (fit sl (width_ a) l') (fit sr (width_ a) r') = arith2 false f l' (eval env re)).
  { intros f. rewrite (fit_same _ _ l') by apply length_fit. rewrite (fit_same _ _ r') by apply length_fit. by rewrite Hr'. }
  apply wf_parts in Hwr as [Hwr _].
  destruct op; try done; cbn [eval_binary]; rewrite Hvalue; eapply draw_immediate_acts; first [reflexivity|constructor|done].
Qed.

(** ** Bitwise operators, implication and equivalence *)

Definition bitwise_op (op : binary_op) : bool := match op with B_and | B_or | B_xor | B_nand | B_nor | B_xnor => true | _ => false end.

Lemma draw_bitwise_ok a op le re W U : bitwise_op op = true -> wf (IVL_EX_BINARY a op le re) = true -> part_ok le -> part_ok re ->
  let e := IVL_EX_BINARY a op le re in room W U (depth e) (registers e) ->
  acts (draw_binary_vec4_bitwise draw_vec4 op le re) W U [] [eval env e].
Proof.
  intros Hop Hw Hl Hr e Hroom. destruct (wf_binary _ _ _ _ _ _ Hw) as (Hwl & Hwr & Hok).
  destruct (wf_width le Hwl) as (Ll & _). destruct (wf_width re Hwr) as (Lr & _).
  eapply draw_two; [done..|exact Hroom|cbn; lia|cbn; destruct op; try done; lia|].
  assert (Hlen : length (eval env le) = length (eval env re)).
  { destruct op; try done; cbn in Hok; wf_split; unfold same_width in *; wf_split; congruence. }
  destruct op; try done; (eapply acts_binary; [reflexivity|constructor|done]).
Qed.

Lemma draw_limpl_ok a le re W U : wf (IVL_EX_BINARY a B_impl le re) = true -> part_ok le -> part_ok re ->
  let e := IVL_EX_BINARY a B_impl le re in room W U (depth e) (registers e) ->
  acts (draw_binary_vec4_limpl draw_vec4 le re) W U [] [eval env e].
Proof.
  intros Hw Hl Hr e Hroom. destruct (wf_binary _ _ _ _ _ _ Hw) as (Hwl & Hwr & Hok). cbn in Hok. wf_split.
  destruct (wf_width le Hwl) as (Ll & _). destruct (wf_width re Hwr) as (Lr & _).
  unfold draw_binary_vec4_limpl. eapply acts_bind; [apply acts_assert; by apply Nat.eqb_eq|].
  eapply acts_bind; [apply acts_assert; by apply Nat.eqb_eq|]. eapply acts_bind; [apply Hl; sub_room Hroom|].
  eapply acts_bind; [apply acts_inv|]. eapply acts_bind; [apply acts_push, Hr; sub_room Hroom|].
  apply (acts_binary "%or" OP_OR (zip_bits bit4_or)); [reflexivity|constructor|rewrite length_not; congruence].
Qed.

Lemma draw_lequiv_ok a le re W U : wf (IVL_EX_BINARY a B_equiv le re) = true -> part_ok le -> part_ok re ->
  let e := IVL_EX_BINARY a B_equiv le re in room W U (depth e) (registers e) ->
  acts (draw_binary_vec4_lequiv draw_vec4 a le re) W U [] [eval env e].
Proof.
  intros Hw Hl Hr e Hroom. destruct (wf_binary _ _ _ _ _ _ Hw) as (Hwl & Hwr & Hok). cbn in Hok. wf_split.
  destruct (wf_width le Hwl) as (Ll & _). destruct (wf_width re Hwr) as (Lr & _).
  unfold draw_binary_vec4_lequiv. eapply acts_bind; [apply acts_assert; by apply Nat.eqb_eq|].
  eapply acts_bind; [apply Hl; sub_room Hroom|]. eapply acts_bind; [apply acts_assert; by apply Nat.eqb_eq|].
  eapply acts_bind; [apply acts_push, Hr; sub_room Hroom|].
  eapply acts_bind; [apply (acts_binary "%xnor" OP_XNOR (zip_bits xnor_bit)); [reflexivity|constructor|congruence]|]. apply acts_assert. by apply Nat.eqb_eq.
Qed.

(** ** Comparisons *)

Definition compare_operator (op : binary_op) : bool := match op with B_eq | B_ne | B_ceq | B_cne | B_weq | B_wne => true | _ => false end.
Definition order_operator (op : binary_op) : bool := match op with B_lt | B_le | B_gt | B_ge => true | _ => false end.

Lemma use_wid_max le re : wf le = true -> wf re = true ->
  use_wid_ le re = Nat.max (length (eval env le)) (length (eval env re)) /\ small (use_wid_ le re) /\ (0 < use_wid_ le re)%nat.
Proof.
  intros Hl Hr. destruct (wf_width le Hl) as (Ll & Sl & Pl). destruct (wf_width re Hr) as (Lr & Sr & Pr). unfold use_wid_.
  destruct (Nat.ltb_spec (ivl_expr_width le) (ivl_expr_width re)); (split; [lia|done]).
Qed.

(** The operands, extended to [n] bits. *)
Lemma draw_operands le re n W U d nr (k : M unit) post : wf le = true -> wf re = true -> part_ok le -> part_ok re -> room W U d nr ->
  (Nat.max (depth le) (depth re) <= d)%nat -> (Nat.max (registers le) (registers re) <= nr)%nat -> small n -> (0 < n)%nat ->
  acts k W U [fit (ivl_expr_signed re) n (eval env re); fit (ivl_expr_signed le) n (eval env le)] post ->
  acts (draw_vec4 le;; resize_vec4_wid le n;; draw_vec4 re;; resize_vec4_wid re n;; k) W U [] post.
Proof.
  intros Hwl Hwr Hl Hr Hroom Hd Hn Hs H0 Hk. destruct (wf_width le Hwl) as (Ll & _). destruct (wf_width re Hwr) as (Lr & _).
  eapply acts_draw_resize; [apply Hl; eapply room_mono; [| |exact Hroom]; lia|done..|].
  eapply acts_draw_resize; [apply Hr; eapply room_mono; [| |exact Hroom]; lia|done..|]. exact Hk.
Qed.

(** A comparison, and one of its flags. *)
Lemma compare_flag mn op f n b W U l r : find_opcode mn = Some (op, []) -> compare_op op f -> length l = length r -> small n ->
  (forall fl, length fl = FLAGS_COUNT -> f l r fl !! n = Some b) ->
  acts (emit mn [];; emit "%flag_get/vec4" [num_ n]) W U [r; l] [[b]].
Proof.
  intros Ho Hc Hl Hn Hb P st fl ws ls Phi Ha HP. apply wp_bind. eapply wp_compare; [done..|].
  apply wp_state_ok. intros Hok. destruct Hok as [Hf _ _ _]. cbn [a_flags] in Hf.
  pose proof (compare_op_compares op f l r Hc) as Hk. rewrite (proj1 Hk) in Hf.
  apply (wp_flag_get _ _ _ b); [done|by apply Hb|]. apply HP; [done|]. by apply keeps_compare.
Qed.

Lemma draw_compare_ok a op le re W U : compare_operator op = true -> wf (IVL_EX_BINARY a op le re) = true -> part_ok le -> part_ok re ->
  let e := IVL_EX_BINARY a op le re in room W U (depth e) (registers e) ->
  acts (draw_binary_vec4_compare draw_vec4 op le re) W U [] [eval env e].
Proof.
  intros Hop Hw Hl Hr e Hroom. destruct (wf_binary _ _ _ _ _ _ Hw) as (Hwl & Hwr & Hok).
  destruct (use_wid_max le re Hwl Hwr) as (Hu & Hs & H0). unfold draw_binary_vec4_compare.
  eapply draw_operands; [done..|exact Hroom|cbn; lia|cbn; destruct op; try done; lia|done|done|]. rewrite Hu.
  destruct op; try done; cbn [eval e eval_binary];
    (eapply compare_flag; [reflexivity|constructor|by rewrite !length_fit|unfold small; lia|flag_lookup]).
Qed.

(** ** Order *)

Lemma order_flags_at sg l r fl : length fl = FLAGS_COUNT ->
  order_flags sg l r fl !! 4%nat = Some (order_eq sg l r) /\ order_flags sg l r fl !! 5%nat = Some (order_bit sg Z.ltb l r).
Proof. intros H1. unfold order_flags, order_eq. split; revert fl H1; destruct sg; flag_lookup. Qed.

Lemma order_flags_compares sg l r : compares (order_flags sg l r).
Proof. unfold order_flags. destruct sg; [apply compares_s|apply compares_u]. Qed.

(** One operand, extended to [n] bits. *)
Lemma wp_operand {X} e n W U P st fl ws ls (k : M X) (Phi : X -> list symbol -> cg -> abs -> Prop) : wf e = true -> part_ok e ->
  room W U (depth e) (registers e) -> small n -> (0 < n)%nat -> alloc st W U ->
  (forall st' fl' ws', alloc st' W U -> keeps W U fl ws fl' ws' -> wp k P st' (Abs fl' ws' (fit (ivl_expr_signed e) n (eval env e) :: ls)) Phi) ->
  wp (draw_vec4 e;; resize_vec4_wid e n;; k) P st (Abs fl ws ls) Phi.
Proof.
  intros Hw He Hroom Hn H0 Ha HP. destruct (wf_width e Hw) as (Le & _). apply wp_bind.
  apply (He W U Hroom P st fl ws ls); [done|]. intros st1 fl1 ws1 Ha1 K1. apply wp_bind.
  apply (acts_resize nets thread_count e n W U _ Le Hn H0 P st1 fl1 ws1 ls); [done|]. intros st2 fl2 ws2 Ha2 K2.
  apply HP; [done|]. by eapply keeps_trans.
Qed.

(** The comparison of the vector on the stack with the right operand, by [%cmp] or [%cmpi]. *)
Lemma wp_compare_right mni mnc opi opc (g : bits -> bits -> list vvp_bit4_t -> list vvp_bit4_t) n re W U P st fl ws l ls
    (Phi : unit -> list symbol -> cg -> abs -> Prop) :
  find_opcode mni = Some (opi, [OA_BIT1; OA_BIT2; OA_NUMBER]) -> comparei_op opi g -> find_opcode mnc = Some (opc, []) -> compare_op opc g ->
  wf re = true -> part_ok re -> room W U (depth re) (registers re) -> length l = n -> small n -> (0 < n)%nat -> alloc st W U ->
  (forall st' fl' ws', alloc st' W U -> keeps W U fl ws fl' ws' -> length fl' = FLAGS_COUNT ->
     Phi tt P st' (Abs (g l (fit (ivl_expr_signed re) n (eval env re)) fl') ws' ls)) ->
  wp (if (ivl_expr_width re =? n)%nat && test_immediate_vec4_ok re then draw_immediate_vec4 re mni
      else draw_vec4 re;; resize_vec4_wid re n;; emit mnc []) P st (Abs fl ws (l :: ls)) Phi.
Proof.
  intros Hoi Hgi Hoc Hgc Hw Hr Hroom Hl Hn H0 Ha HP. destruct (wf_width re Hw) as (Lr & _).
  destruct ((ivl_expr_width re =? n)%nat && test_immediate_vec4_ok re) eqn:Hi.
  - apply andb_prop in Hi as [Hwid Hi]. apply Nat.eqb_eq in Hwid. apply wf_parts in Hw as [Hw _]. apply wp_state_ok. intros [Hf _ _ _].
    specialize (HP st fl ws Ha (keeps_refl _ _ _ _) Hf). rewrite fit_same in HP by congruence.
    eapply (wp_immediate_compare _ _ _ _ _ opi g); [done..|congruence|exact HP].
  - eapply wp_operand; [done..|]. intros st' fl' ws' Ha' K. apply wp_state_ok. intros [Hf _ _ _].
    eapply (wp_compare _ _ _ opc g); [done|done|by rewrite length_fit|]. by apply HP.
Qed.
Lemma wp_draw_order (sg : bool) n re W U P st fl ws l ls (Phi : unit -> list symbol -> cg -> abs -> Prop) : wf re = true -> part_ok re ->
  room W U (depth re) (registers re) -> length l = n -> small n -> (0 < n)%nat -> alloc st W U ->
  (forall st' fl' ws', alloc st' W U -> keeps W U fl ws fl' ws' -> length fl' = FLAGS_COUNT ->
     Phi tt P st' (Abs (order_flags sg l (fit (ivl_expr_signed re) n (eval env re)) fl') ws' ls)) ->
  wp (draw_order draw_vec4 sg n re) P st (Abs fl ws (l :: ls)) Phi.
Proof.
  intros. eapply (wp_compare_right _ _ (if sg then OP_CMPIS else OP_CMPIU) (if sg then OP_CMPS else OP_CMPU) (order_flags sg));
    first [done | by destruct sg | by destruct sg; constructor].
Qed.

(** The two operators that the machine has. *)
Lemma draw_le_core (sg strict : bool) le re W U d nr : wf le = true -> wf re = true -> part_ok le -> part_ok re -> room W U d nr ->
  (Nat.max (depth le) (depth re) <= d)%nat -> (Nat.max (registers le) (registers re) <= nr)%nat ->
  let n := use_wid_ le re in
  acts (draw_vec4 le;; resize_vec4_wid le n;; draw_order draw_vec4 sg n re;;
    match (if strict then B_lt else B_le) with
    | B_le => emit "%flag_get/vec4" [num_ 4];; emit "%flag_get/vec4" [num_ 5];; emit "%or" []
    | B_lt => emit "%flag_get/vec4" [num_ 5]
    | _ => bug
    end) W U []
    [[order_bit sg (if strict then Z.ltb else Z.leb) (fit (ivl_expr_signed le) n (eval env le)) (fit (ivl_expr_signed re) n (eval env re))]].
Proof.
  intros Hwl Hwr Hl Hr Hroom Hd Hn n P st fl ws ls Phi Ha HP. destruct (use_wid_max le re Hwl Hwr) as (_ & Hs & H0).
  eapply wp_operand; [done|done|eapply room_mono; [| |exact Hroom]; lia|done..|]. intros st1 fl1 ws1 Ha1 K1.
  set (l := fit (ivl_expr_signed le) n (eval env le)) in *. apply wp_bind.
  eapply wp_draw_order; [done|done|eapply room_mono; [| |exact Hroom]; lia|apply length_fit|done..|]. intros st2 fl2 ws2 Ha2 K2 Hf2.
  set (r := fit (ivl_expr_signed re) n (eval env re)) in *. destruct (order_flags_at sg l r fl2 Hf2) as [F4 F5].
  assert (K : keeps W U fl ws (order_flags sg l r fl2) ws2).
  { eapply keeps_trans; [exact K1|]. eapply keeps_trans; [exact K2|]. apply keeps_compare, order_flags_compares. }
  destruct strict.
  - eapply wp_flag_get; [unfold small; lia|exact F5|]. by apply HP.
  - apply wp_bind. eapply wp_flag_get; [unfold small; lia|exact F4|]. apply wp_bind. eapply wp_flag_get; [unfold small; lia|exact F5|].
    eapply (wp_binary _ _ _ OP_OR (zip_bits bit4_or)); [reflexivity|constructor|done|]. rewrite zip_bit, order_le by (unfold l, r; by rewrite !length_fit).
    by apply HP.
Qed.

Lemma draw_le_ok a op le re W U : order_operator op = true -> wf (IVL_EX_BINARY a op le re) = true -> part_ok le -> part_ok re ->
  let e := IVL_EX_BINARY a op le re in room W U (depth e) (registers e) ->
  acts (draw_binary_vec4_le draw_vec4 op le re) W U [] [eval env e].
Proof.
  intros Hop Hw Hl Hr e Hroom. destruct (wf_binary _ _ _ _ _ _ Hw) as (Hwl & Hwr & Hok).
  destruct (use_wid_max le re Hwl Hwr) as (Hu & _). destruct (use_wid_max re le Hwr Hwl) as (Hu' & _). rewrite Nat.max_comm in Hu'.
  set (sg := ivl_expr_signed le && ivl_expr_signed re).
  assert (Hlr : room W U (S (Nat.max (depth le) (depth re))) (Nat.max (registers le) (registers re))) by (destruct op; done).
  unfold draw_binary_vec4_le. cbn [eval e]. destruct op; try done; cbn [eval_binary]; rewrite ?order_gt_lt, ?order_ge_le; fold sg; rewrite <- ?Hu.
  - refine (draw_le_core sg true le re W U _ _ Hwl Hwr Hl Hr Hlr _ _); lia.
  - refine (draw_le_core sg false le re W U _ _ Hwl Hwr Hl Hr Hlr _ _); lia.
  - rewrite Hu, <- Hu'. refine (draw_le_core sg true re le W U _ _ Hwr Hwl Hr Hl Hlr _ _); lia.
  - rewrite Hu, <- Hu'. refine (draw_le_core sg false re le W U _ _ Hwr Hwl Hr Hl Hlr _ _); lia.
Qed.

(** ** Shifts *)

(** Flag 4 and the index register after the amount [r] is evaluated. *)
Definition index_is r (b4 : vvp_bit4_t) (v : Z) : Prop :=
  if has_unknown r then b4 = BIT4_1 else (b4 = BIT4_0 /\ v = unum r) \/ (b4 = BIT4_X /\ 2 ^ 64 <= unum r).

Lemma index_value_is r : index_is r (index_value false r).1 (index_value false r).2.
Proof.
  unfold index_is, index_value. destruct (has_unknown r); [done|]. unfold num. cbn [andb fst snd]. pose proof (unum_range r) as Hr.
  rewrite (proj2 (Z.leb_le _ _)) by lia. cbn [andb]. destruct (Z.ltb_spec (unum r) (2 ^ 64)); [left|right; done].
  split; [done|]. apply Z.mod_small. lia.
Qed.

Lemma shifted_is n fill (f : Z -> bits) r b4 v : index_is r b4 v -> small n -> (forall k, Z.of_nat n <= k -> f k = repeat fill n) ->
  shifted n fill f b4 v = if has_unknown r then xs n else f (unum r).
Proof.
  unfold index_is, shifted, small. intros Hi Hn Hf. destruct (has_unknown r); [by rewrite Hi|].
  destruct Hi as [[-> ->]|[-> Hr]]; [done|]. rewrite decide_False, decide_True by done. rewrite Hf by lia. done.
Qed.

(** An expression goes into a word, with what [R] says of flag 4 and the word. *)
Lemma wp_index_with (R : vvp_bit4_t -> Z -> Prop) e ix W U P st fl ws ls (Phi : unit -> list symbol -> cg -> abs -> Prop) : signals_ok nets env -> wf e = true ->
  (ivl_expr_signed e = false \/ ivl_expr_width e <= 64)%nat -> R (index_value (ivl_expr_signed e) (eval env e)).1 (index_value (ivl_expr_signed e) (eval env e)).2 ->
  match e with
  | IVL_EX_NUMBER a ds =>
    let bs := take (width_ a) ds in
    number_is_immediate (signed_ a) bs IMM_WID true = true /\
    if number_is_unknown bs then R BIT4_1 0 else exists v, get_number_immediate (signed_ a) bs = Some v /\ 0 <= v < 2 ^ 32 /\ R BIT4_0 v
  | _ => True
  end ->
  part_ok e -> room ({[ix]} ∪ W) U (depth e) (registers e) -> (ix < WORDS_COUNT)%nat -> ix ∉ W -> alloc st ({[ix]} ∪ W) U ->
  (forall st' fl' ws' b4 v, alloc st' ({[ix]} ∪ W) U -> keeps W U fl ws fl' ws' -> fl' !! 4%nat = Some b4 -> ws' !! ix = Some v ->
     R b4 v -> Phi tt P st' (Abs fl' ws' ls)) ->
  wp (draw_eval_expr_into_integer draw_vec4 e ix) P st (Abs fl ws ls) Phi.
Proof.
  intros Hsig Hw H64 HR Hnum He Hroom Hix Hn Ha HP. apply wp_state_ok. intros [Hf Hws _ _]. cbn [a_flags a_words] in Hf, Hws.
  destruct (wf_width _ Hw) as (Hlen & _ & H0).
  assert (H64' : ivl_expr_signed e = false \/ (length (eval env e) <= 64)%nat) by (rewrite Hlen; exact H64).
  assert (Hset : forall st' fl1 ws1 b4 v, alloc st' ({[ix]} ∪ W) U -> keeps W U fl ws fl1 ws1 -> length fl1 = FLAGS_COUNT -> length ws1 = WORDS_COUNT ->
    R b4 v -> Phi tt P st' (Abs (<[4%nat := b4]> fl1) (<[ix := v]> ws1) ls)).
  { intros st' fl1 ws1 b4 v Ha1 K1 Hf1 Hws1 Hi. eapply (HP _ _ _ b4 v); [done| | | |done].
    - eapply keeps_trans; [exact K1|]. eapply keeps_trans; [by apply (keeps_low_flag _ _ _ _ 4 b4); lia|by apply keeps_free_word].
    - apply list_lookup_insert_eq. rewrite Hf1. unfold FLAGS_COUNT. lia.
    - apply list_lookup_insert_eq. by rewrite Hws1. }
  assert (Hgen : wp (draw_vec4 e;; emit (if ivl_expr_signed e then "%ix/vec4/s" else "%ix/vec4") [num_ ix]) P st (Abs fl ws ls) Phi).
  { apply wp_bind. apply (He _ _ Hroom P st fl ws ls); [done|]. intros st1 fl1 ws1 Ha1 K1. apply wp_state_ok. intros [Hf1 Hws1 _ _].
    apply (wp_ix_vec4 nets thread_count (ivl_expr_signed e)); [done|done|]. apply Hset; [done| |done..].
    eapply keeps_sub; [| |exact K1]; set_solver. }
  destruct e as [a ds| |a sig| | | | |]; try exact Hgen.
  - destruct Hnum as [Himm Hval]. unfold draw_eval_expr_into_integer, eval_logic_into_integer. cbv zeta. set (bs := take (width_ a) ds) in *.
    apply wp_bind, wp_assert; [done|]. destruct (number_is_unknown bs).
    + apply wp_bind. apply (wp_ix_load _ _ _ 0); [done|lia|]. apply (wp_flag_imm _ _ 4 1 BIT4_1); [unfold FLAGS_COUNT; lia|lia|done|].
      apply Hset; [done|apply keeps_refl|done..].
    + destruct Hval as (v & Hg & Hr & HRv). apply wp_bind. eapply wp_lift; [exact Hg|]. rewrite (proj2 (Z.leb_le _ _)) by lia.
      apply wp_bind. apply wp_ix_load; [done|lia|]. apply (wp_flag_imm _ _ 4 0 BIT4_0); [unfold FLAGS_COUNT; lia|lia|done|].
      apply Hset; [done|apply keeps_refl|done..].
  - destruct (wf_signal _ _ _ _ Hw) as [Hnet _]. unfold ivl_expr_width in H0. cbn [attr_of] in H0.
    unfold draw_eval_expr_into_integer, eval_logic_into_integer.
    eapply (wp_ix_getv _ _ (signed_ a)); [by apply Hsig| |done|exact H64'|].
    + change (env sig) with (eval env (IVL_EX_SIGNAL a sig)). rewrite Hlen. exact H0.
    + apply (Hset st fl ws); [done|apply keeps_refl|done|done|exact HR].
Qed.

Lemma wp_index e ix W U P st fl ws ls (Phi : unit -> list symbol -> cg -> abs -> Prop) : signals_ok nets env -> wf e = true -> amount_ok e = true ->
  part_ok e -> room ({[ix]} ∪ W) U (depth e) (registers e) -> (ix < WORDS_COUNT)%nat -> ix ∉ W -> alloc st ({[ix]} ∪ W) U ->
  (forall st' fl' ws' b4 v, alloc st' ({[ix]} ∪ W) U -> keeps W U fl ws fl' ws' -> fl' !! 4%nat = Some b4 -> ws' !! ix = Some v ->
     index_is (eval env e) b4 v -> Phi tt P st' (Abs fl' ws' ls)) ->
  wp (draw_eval_expr_into_integer draw_vec4 e ix) P st (Abs fl ws ls) Phi.
Proof.
  intros Hsig Hw [Hsg%negb_true_iff Himm]%andb_prop. apply (wp_index_with (index_is (eval env e))); [done|done|by left|rewrite Hsg; apply index_value_is|].
  destruct e as [a ds| | | | | | |]; try done. change (signed_ a = false) in Hsg. apply wf_parts in Hw as [Hw _]. apply andb_prop in Hw as [_ [_ Hd]%andb_prop].
  cbv zeta. rewrite Hsg in *. split; [done|]. set (bs := take (width_ a) ds) in *. unfold index_is. change (eval env (IVL_EX_NUMBER a ds)) with (digits bs).
  rewrite <- (number_is_unknown_digits bs Hd). destruct (number_is_unknown bs) eqn:Hu; [done|].
  destruct (immediate_number bs Hd Himm Hu) as [Hg Hr]. eexists. split; [exact Hg|]. split; [lia|]. by left.
Qed.

Definition shift_operator (op : binary_op) : bool := match op with B_shl | B_shr | B_sar => true | _ => false end.

(** The shift by the register. *)
Lemma wp_shift_code op sl ix b4 v r P st fl ws l ls a sr (Phi : unit -> list symbol -> cg -> abs -> Prop) : shift_operator op = true ->
  (ix < WORDS_COUNT)%nat -> small (length l) -> fl !! 4%nat = Some b4 -> ws !! ix = Some v -> index_is r b4 v ->
  Phi tt P st (Abs fl ws (eval_binary a op sl sr l r :: ls)) ->
  wp (match op with
      | B_shl => emit "%shiftl" [num_ ix]
      | B_shr => emit "%shiftr" [num_ ix]
      | B_sar => emit (if sl then "%shiftr/s" else "%shiftr") [num_ ix]
      | _ => bug
      end) P st (Abs fl ws (l :: ls)) Phi.
Proof.
  intros Hop Hix Hl H4 Hv Hi HP.
  assert (Hleft : forall k, Z.of_nat (length l) <= k -> shl_bits k l = repeat BIT4_0 (length l)) by (intros; by apply shl_far).
  assert (Hright : forall c k, Z.of_nat (length l) <= k -> shr_bits c k l = repeat c (length l)) by (intros; by apply shr_far).
  destruct op; try done; cbn [eval_binary] in HP; unfold shift_by in HP.
  - eapply wp_shift; [reflexivity|constructor|done..|]. rewrite (shifted_is _ _ _ r); [exact HP|exact Hi|exact Hl|auto].
  - eapply wp_shift; [reflexivity|constructor|done..|]. rewrite (shifted_is _ _ _ r); [exact HP|exact Hi|exact Hl|auto].
  - destruct sl; (eapply wp_shift; [reflexivity|constructor|done..|]; rewrite (shifted_is _ _ _ r); [exact HP|exact Hi|exact Hl|auto]).
Qed.

Lemma draw_lrs_ok a op le re W U : shift_operator op = true -> signals_ok nets env -> wf (IVL_EX_BINARY a op le re) = true -> part_ok le -> part_ok re ->
  let e := IVL_EX_BINARY a op le re in room W U (depth e) (registers e) ->
  acts (draw_binary_vec4_lrs draw_vec4 op le re) W U [] [eval env e].
Proof.
  intros Hop Hsig Hw Hl Hr e Hroom P st fl ws ls Phi Ha HP. destruct (wf_binary _ _ _ _ _ _ Hw) as (Hwl & Hwr & Hok).
  destruct (wf_width le Hwl) as (Ll & Sl & Pl).
  assert (Hamt : amount_ok re = true) by (destruct op; try done; by apply andb_prop in Hok as [_ ?]).
  assert (Hroom' : room W U (S (Nat.max (depth le) (depth re))) (Nat.max (registers le) (S (registers re)))) by (destruct op; done).
  unfold draw_binary_vec4_lrs. apply wp_bind. apply (Hl W U ltac:(sub_room Hroom') P st fl ws ls); [done|]. intros st1 fl1 ws1 Ha1 K1.
  apply wp_bind. eapply wp_allocate_word; [done|destruct Hroom'; lia|]. intros ix st2 Ha2 Hix Hn.
  apply wp_bind. eapply wp_index; [done|done|done|exact Hr| |unfold WORDS_COUNT, WORD_COUNT in *; lia|exact Hn|done|].
  { apply room_word. sub_room Hroom'. }
  intros st3 fl3 ws3 b4 v Ha3 K3 F4 Fv Hi. apply wp_bind.
  eapply wp_shift_code; [done|unfold WORDS_COUNT, WORD_COUNT in *; lia|by rewrite Ll|done..|].
  eapply wp_clr_word; [done..|]. intros st4 Ha4. apply HP; [done|by eapply keeps_trans].
Qed.

(** ** Logical operators *)

(** The reduction of an operand to one bit. *)
Lemma acts_or_reduce e W U v : length v = ivl_expr_width e -> (0 < length v)%nat ->
  exists c, bit4_z2x c = or_all v /\ acts (if (1 <? ivl_expr_width e)%nat then emit "%or/r" [] else mret tt) W U [v] [[c]].
Proof.
  intros Hl H0. destruct (Nat.ltb_spec 1 (ivl_expr_width e)).
  - exists (or_all v). split; [apply z2x_or_all|]. eapply acts_reduce; [reflexivity|constructor].
  - destruct v as [|c [|? v]]; cbn in Hl, H0; try lia. exists c. split; [by rewrite or_all_bit|]. apply acts_ret.
Qed.

Lemma acts_pad_bit n W U c : small n -> (0 < n)%nat ->
  acts (if (1 <? n)%nat then emit "%pad/u" [num_ n] else mret tt) W U [[c]] [fit false n [c]].
Proof.
  intros Hn H0. destruct (Nat.ltb_spec 1 n).
  - apply acts_stack. intros. by apply (wp_pad _ _ false).
  - rewrite fit_same by (cbn; lia). apply acts_ret.
Qed.

(** The right operand, and the operator. *)
Lemma wp_logical_right mn op g re W U (f : nat) (c : vvp_bit4_t) P st fl ws ls (Phi : unit -> list symbol -> cg -> abs -> Prop) : wf re = true -> part_ok re ->
  find_opcode mn = Some (op, []) -> MachineRun.binary_op op (zip_bits g) -> (forall x y, g (bit4_z2x x) (bit4_z2x y) = g x y) ->
  room W U (depth re) (registers re) -> (forall i, (i < 8)%nat -> i ∈ U) -> alloc st W ({[f]} ∪ U) -> (f < FLAGS_COUNT)%nat -> ((8 <= f)%nat -> f ∉ U) ->
  (forall st' fl' ws', alloc st' W U -> keeps W U fl ws fl' ws' -> Phi tt P st' (Abs fl' ws' ([g (bit4_z2x c) (or_all (eval env re))] :: ls))) ->
  wp (clr_flag f;; draw_vec4 re;; (if (1 <? ivl_expr_width re)%nat then emit "%or/r" [] else mret tt);; emit mn [])
    P st (Abs fl ws ([c] :: ls)) Phi.
Proof.
  intros Hw Hr Hop Hb Hg Hroom Hlow Ha Hf Hn HP. destruct (wf_width re Hw) as (Lr & _ & Pr). apply wp_bind.
  eapply wp_clr_flag; [done..|]. intros st1 Ha1. apply wp_bind. apply (Hr W U Hroom P st1 fl ws ([c] :: ls)); [done|]. intros st2 fl2 ws2 Ha2 K2.
  destruct (acts_or_reduce re W U (eval env re) Lr ltac:(lia)) as (d & Hd & Hred). apply wp_bind.
  apply (Hred P st2 fl2 ws2 ([c] :: ls)); [done|]. intros st3 fl3 ws3 Ha3 K3. eapply wp_binary; [done..|].
  rewrite zip_bit, <- Hg, Hd. apply HP; [done|by eapply keeps_trans].
Qed.

(** Brings the label of a jump to the shape of [wp_skip]. *)
Ltac reassoc :=
  intros ?; unfold mbind, M_bind;
  repeat match goal with |- context [match ?m ?s with Done _ _ _ => _ | Exit => _ | Bug => _ end] => destruct (m s) end;
  rewrite ?app_assoc, <- ?app_assoc; try done.

Lemma wp_ext {X} (m m' : M X) P st A (Phi : X -> list symbol -> cg -> abs -> Prop) : (forall st, m' st = m st) -> wp m P st A Phi -> wp m' P st A Phi.
Proof. intros E Hm Hok. rewrite E. by apply Hm. Qed.

Lemma bind_ext {X Y} (m : M X) (f g : X -> M Y) st : (forall x st', f x st' = g x st') -> (m ≫= f) st = (m ≫= g) st.
Proof. intros Hf. unfold mbind, M_bind. destruct (m st); [|done..]. by rewrite Hf. Qed.

Lemma seq4 {X} (a b c d : M unit) (k : M X) st : (a;; b;; c;; d;; k) st = ((a;; b;; c;; d);; k) st.
Proof. revert st. reassoc. Qed.

(** The code of both logical operators: the jump is taken when the left operand decides. *)
Lemma wp_logical mn op jmp test g (w : nat) le re W U d nr : wf le = true -> wf re = true -> cond_ok le -> part_ok re -> room W U (S d) nr ->
  (Nat.max (depth le) (depth re) <= d)%nat -> (Nat.max (registers le) (registers re) <= nr)%nat -> small w -> (0 < w)%nat ->
  find_opcode mn = Some (op, []) -> MachineRun.binary_op op (zip_bits g) -> jump_test jmp test ->
  (forall x y, g (bit4_z2x x) (bit4_z2x y) = g x y) -> (forall x y, test x = true -> g (bit4_z2x x) y = x) ->
  acts (label_out ← new_label;
    flag ← draw_cond le;
    emit "%flag_get/vec4" [num_ flag];;
    emit jmp [label_ thread_count label_out; num_ flag];;
    clr_flag flag;;
    draw_vec4 re;;
    (if (1 <? ivl_expr_width re)%nat then emit "%or/r" [] else mret tt);;
    emit mn [];;
    emit_label thread_count label_out;;
    if (1 <? w)%nat then emit "%pad/u" [num_ w] else mret tt) W U [] [fit false w [g (or_all (eval env le)) (or_all (eval env re))]].
Proof.
  intros Hwl Hwr Hl Hr Hroom Hd Hn Hs H0 Hop Hb Hj Hg Htest P st fl ws ls Phi Ha HP.
  pose proof (al_flag_low _ _ _ Ha) as Hlow. apply wp_bind. eapply wp_label; [done|]. intros lab st1 Ha1. apply wp_bind.
  eapply (Hl W U); [eapply room_mono; [| |exact Hroom]; lia|done|]. intros f st2 fl2 ws2 c Ha2 Hf Hfu K2 Hc Hz.
  apply wp_bind. apply (wp_flag_get _ _ _ c); [by apply small_flag|done|].
  eapply wp_ext; [intros; apply (bind_ext (emit jmp _)); intros; apply seq4|].
  eapply (wp_skip nets thread_count not_stopped jmp test lab f c); [done|done|done|left|].
  eapply wp_logical_right; [done|done|exact Hop|exact Hb|exact Hg|eapply room_mono; [| |exact Hroom]; lia|done|done|done|done|].
  intros st3 fl3 ws3 Ha3 K3. eexists. split; [reflexivity|]. rewrite Hz.
  destruct (test c) eqn:Et.
  - rewrite <- (Htest c (or_all (eval env re)) Et), Hz. apply (acts_pad_bit w W U _ Hs H0 P st3 fl2 ws2 ls); [done|]. intros.
    apply HP; [done|by eapply keeps_trans].
  - apply (acts_pad_bit w W U _ Hs H0 P st3 fl3 ws3 ls); [done|]. intros.
    apply HP; [done|]. eapply keeps_trans; [exact K2|]. by eapply keeps_trans.
Qed.

Lemma draw_logical_ok a op le re W U : op = B_land \/ op = B_lor -> wf (IVL_EX_BINARY a op le re) = true -> cond_ok le -> part_ok re ->
  let e := IVL_EX_BINARY a op le re in room W U (depth e) (registers e) ->
  acts (draw_binary_vec4_logical thread_count draw_vec4 draw_cond a op le re) W U [] [eval env e].
Proof.
  intros Hop Hw Hl Hr e Hroom. destruct (wf_width _ Hw) as (_ & Hs & H0). destruct (wf_binary _ _ _ _ _ _ Hw) as (Hwl & Hwr & _).
  unfold draw_binary_vec4_logical. destruct Hop as [-> | ->]; (eapply acts_pure; [done|]); cbn beta iota; cbn [eval e eval_binary].
  - eapply (wp_logical "%and" OP_AND "%jmp/0" is_0 bit4_and); [done|done|done|done|exact Hroom|apply le_n|apply le_n|done|done|reflexivity|constructor|apply jump_test_0|apply and_z2x|].
    by intros [] [].
  - eapply (wp_logical "%or" OP_OR "%jmp/1" is_1 bit4_or); [done|done|done|done|exact Hroom|apply le_n|apply le_n|done|done|reflexivity|constructor|apply jump_test_1|apply or_z2x|].
    by intros [] [].
Qed.

(** ** Unary operators *)

Lemma acts_negate W U l n : length l = n -> small n -> (0 < n)%nat ->
  acts (emit "%inv" [];; emit "%addi" [num_ 1; num_ 0; num_ n]) W U [l] [neg_bits l].
Proof.
  intros <- Hs H0. eapply acts_bind; [apply acts_inv|]. apply acts_stack. intros P st fl ws ls Phi HP.
  rewrite <- (length_not l). eapply (wp_immediate _ _ "%addi" OP_ADDI (arith2 false Z.add) 1 0); [reflexivity|constructor|lia|lia|by rewrite length_not..|].
  rewrite length_not, imm_number, neg_code by done. done.
Qed.

Lemma seq2_end {X} (m : X -> M unit) (a b c : M unit) (x : X) st : (a;; b;; c) st = ((a;; b);; c;; mret tt) st.
Proof.
  unfold mbind, M_bind, mret, M_ret. destruct (a st) as [? st1 ?| |]; [|done..]. destruct (b st1) as [? st2 ?| |]; [|done..].
  destruct (c st2) as [[] ? ?| |]; [|done..]. by rewrite app_nil_r, app_assoc.
Qed.

Lemma jump_test_0xz : jump_test "%jmp/0xz" (fun b => negb (bool_decide (b = BIT4_1))).
Proof. eexists. split; [reflexivity|constructor]. Qed.

Lemma acts_abs W U l n : length l = n -> small n -> (0 < n)%nat ->
  acts (emit "%dup/vec4" [];; emit "%cmpi/s" [num_ 0; num_ 0; num_ n];; label ← new_label; emit "%jmp/0xz" [label_ thread_count label; num_ 5];;
    emit "%inv" [];; emit "%addi" [num_ 1; num_ 0; num_ n];; emit_label thread_count label) W U [l] [abs_bits true l].
Proof.
  intros Hl Hs H0 P st fl ws ls Phi Ha HP. apply wp_bind, wp_dup, wp_bind. rewrite <- Hl in *.
  apply wp_state_ok. intros [Hf _ _ _]. cbn [a_flags] in Hf.
  eapply (wp_comparei _ _ "%cmpi/s" OP_CMPIS flags_s 0 0); [reflexivity|constructor|lia|lia|done|done|]. rewrite imm_number.
  set (z := bits_of_Z (length l) 0) in *. assert (K : keeps W U fl ws (flags_s l z fl) ws) by apply keeps_compare, compares_s.
  apply wp_bind. eapply wp_label; [done|]. intros lab st1 Ha1.
  eapply wp_ext; [intros; apply (bind_ext (emit "%jmp/0xz" _)); intros; by apply (seq2_end (fun _ : unit => mret tt))|].
  eapply (wp_skip nets thread_count not_stopped _ _ lab 5 _ _ _ _ _ _ _ jump_test_0xz);
    [unfold FLAGS_COUNT; lia|exact (proj2 (order_flags_at true l z fl Hf))|left|].
  apply (acts_negate W U l (length l) eq_refl Hs H0 _ st1 (flags_s l z fl) ws ls); [done|]. intros st2 fl2 ws2 Ha2 K2.
  eexists. split; [reflexivity|]. apply wp_ret. cbn [app] in HP. rewrite abs_code in HP by done. fold z in HP.
  destruct (bool_decide (order_bit true Z.ltb l z = BIT4_1)); apply HP; try done. by eapply keeps_trans.
Qed.

Lemma draw_unary_ok a op e1 W U : wf (IVL_EX_UNARY a op e1) = true -> part_ok e1 ->
  let e := IVL_EX_UNARY a op e1 in room W U (depth e) (registers e) ->
  acts (draw_unary_vec4 thread_count draw_vec4 a op e1) W U [] [eval env e].
Proof.
  intros Hw He e Hroom. destruct (wf_width _ Hw) as (_ & Hs & H0). unfold ivl_expr_width in Hs, H0. cbn [attr_of] in Hs, H0.
  destruct (wf_unary _ _ _ _ _ Hw) as (Hw1 & Hok). destruct (wf_width _ Hw1) as (L1 & S1 & P1).
  unfold draw_unary_vec4. eapply acts_bind; [apply He; sub_room Hroom|]. cbn [eval e]. set (v := eval env e1) in *.
  assert (Hred : forall mn o f, find_opcode mn = Some (o, []) -> reduce_op o f -> acts (emit mn []) W U [v] [[f v]]) by (intros; by eapply acts_reduce).
  destruct op; cbn [eval_unary].
  1: apply (Hred _ OP_ANDR and_all); [reflexivity|constructor].
  1: apply (Hred _ OP_ORR or_all); [reflexivity|constructor].
  1: apply (Hred _ OP_XORR xor_all); [reflexivity|constructor].
  2: apply (Hred _ OP_NORR (fun l => bit4_not (or_all l))); [reflexivity|constructor].
  3: apply (Hred _ OP_NANDR (fun l => bit4_not (and_all l))); [reflexivity|constructor].
  3: apply (Hred _ OP_NORR (fun l => bit4_not (or_all l))); [reflexivity|constructor].
  3: apply (Hred _ OP_XNORR (fun l => bit4_not (xor_all l))); [reflexivity|constructor].
  - apply acts_inv.
  - by apply acts_negate.
  - destruct (ivl_expr_signed e1); [by apply acts_abs|]. apply acts_ret.
  - destruct (ivl_expr_value e1); [by apply acts_resize|]. eapply acts_bind; [|apply acts_resize; [by rewrite length_two_state|done..]].
    apply acts_stack. intros. by apply wp_cast2.
Qed.

(** ** Selects *)

Lemma draw_select_pad_ok a e1 W U : wf (IVL_EX_SELECT a e1 None) = true -> part_ok e1 ->
  let e := IVL_EX_SELECT a e1 None in room W U (depth e) (registers e) ->
  acts (draw_select_pad_vec4 draw_vec4 a e1) W U [] [eval env e].
Proof.
  intros Hw He e Hroom. destruct (wf_width _ Hw) as (_ & Hs & H0). unfold ivl_expr_width in Hs, H0. cbn [attr_of] in Hs, H0.
  pose proof (wf_pad _ _ _ _ Hw) as Hw1. destruct (wf_width _ Hw1) as (L1 & S1 & P1).
  unfold draw_select_pad_vec4. eapply acts_bind; [apply He; sub_room Hroom|]. rewrite Nat.eqb_sym. by apply fit_width.
Qed.
End Spec.
