(* ===== verification/CodegenSelect.v ===== *)
(** * CodegenSelect: the code of selects and concatenations *)

From Stdlib Require Import String Ascii.
From stdpp Require Import gmap sets.
From S2P Require Import Prelude FourState Vector4 Vector4Value Vector4Ops Vector4Arith Bits Thread ThreadDiv ThreadSpec ThreadCmp ThreadData ThreadShift.
From S2P Require Import Machine MachineRun EmitWp Codegen CodegenAlloc EmitOps ExprSem CodegenNumber CodegenSpec.
Import Bit4.

Open Scope ivl_scope.

(** ** The base of a select, as an [int] *)

Lemma s32_small z : - 2 ^ 31 <= z < 2 ^ 31 -> s32 z = z.
Proof. intros Hz. unfold s32. rewrite Z.mod_small by lia. lia. Qed.

Definition base_width (sg : bool) (b : bits) : Prop := (0 < length b <= (if sg then 32 else 31))%nat.

Lemma top_testbit b : (0 < length b)%nat -> Z.testbit (unum b) (Z.of_nat (length b) - 1) = is_one (bit_at b (length b - 1)).
Proof.
  intros Hb. replace (Z.of_nat (length b) - 1) with (Z.of_nat (length b - 1)) by lia. unfold unum. rewrite Zbits_testbit, Nat2Z.id by lia.
  rewrite (proj2 (Z.ltb_lt _ _)) by lia. done.
Qed.

(** The top bit and the bits below it. *)
Lemma top_split b : (0 < length b)%nat -> let h := 2 ^ (Z.of_nat (length b) - 1) in
  exists low, 0 <= low < h /\ unum b = low + Z.b2z (is_one (bit_at b (length b - 1))) * h /\ 2 ^ Z.of_nat (length b) = 2 * h.
Proof.
  intros Hb h. assert (H2 : 2 ^ Z.of_nat (length b) = 2 * h) by (unfold h; rewrite <- Z.pow_succ_r by lia; f_equal; lia).
  assert (Hh : 0 < h) by (apply Z.pow_pos_nonneg; lia). pose proof (unum_range b) as Hr. rewrite <- (top_testbit b Hb).
  exists (unum b mod h). split; [by apply Z.mod_pos_bound|]. split; [|done]. rewrite Z.testbit_spec' by lia. fold h.
  rewrite (Z.mod_small (unum b / h)) by (split; [apply Z.div_pos; lia|apply Z.div_lt_upper_bound; lia]).
  pose proof (Z.div_mod (unum b) h ltac:(lia)). lia.
Qed.

Lemma num_base sg b : base_width sg b -> - 2 ^ 31 <= num sg b < 2 ^ 31.
Proof.
  unfold base_width. intros Hb. unfold num. destruct sg; cbn [andb].
  - destruct (top_split b) as (low & Hl & Hu & H2); [lia|].
    assert (2 ^ (Z.of_nat (length b) - 1) <= 2 ^ 31) by (apply Z.pow_le_mono_r; lia).
    destruct (is_one (bit_at b (length b - 1))); cbn [Z.b2z] in Hu; lia.
  - pose proof (unum_range b). assert (2 ^ Z.of_nat (length b) <= 2 ^ 31) by (apply Z.pow_le_mono_r; lia). lia.
Qed.

Lemma parti_value sg b : base_width sg b -> s32 (parti_base sg (unum b) (Z.of_nat (length b))) = num sg b.
Proof.
  intros Hb. pose proof (num_base sg b Hb) as Hr. rewrite <- (s32_small (num sg b)) by done. unfold base_width in Hb.
  unfold parti_base, num in *. destruct sg; cbn [andb] in *; [|done]. rewrite top_testbit by lia.
  destruct (Z.ltb_spec (Z.of_nat (length b)) 32); cbn [andb]; [done|].
  destruct (is_one _); [|done]. unfold s32. replace (Z.of_nat (length b)) with 32 by lia.
  rewrite <- (Z_mod_plus_full (unum b - 2 ^ 32 + 2 ^ 31) 1 (2 ^ 32)). do 2 f_equal. lia.
Qed.

(** The words of an immediate base. *)
Lemma known_words n v0 vx b : imm_bits n v0 vx = b -> 0 <= v0 < 2 ^ Z.of_nat n -> 0 <= vx < 2 ^ Z.of_nat n -> has_unknown b = false ->
  vx = 0 /\ v0 = unum b.
Proof.
  intros <- H0 Hx Hu. rewrite has_unknown_false, length_imm in Hu. assert (E : vx = 0).
  { apply Z.bits_inj'. intros i Hi. rewrite Z.bits_0. destruct (Z.lt_ge_cases i (Z.of_nat n)) as [Hin|Hin].
    - specialize (Hu (Z.to_nat i) ltac:(lia)). unfold imm_bits in Hu. rewrite bit_at_map, Z2Nat.id in Hu by lia.
      by destruct (Z.testbit v0 i), (Z.testbit vx i).
    - apply (testbit_small vx (Z.of_nat n)); lia. }
  split; [done|]. rewrite E, imm_number, unum_bits_of_Z. symmetry. by apply Z.mod_small.
Qed.

Section Select.
Context `{World}.
Variables (nets : symbol -> option nat) (thread_count : nat) (env : nat -> bits).
Hypothesis not_stopped : schedule_stopped = false.
Variables (draw_vec4 : ivl_expr_t -> M unit).
Implicit Types (st : cg) (P : list symbol) (fl : list vvp_bit4_t) (ws : list Z) (ls : list bits) (l r b m : bits) (W U : gset nat).
Implicit Types (e : ivl_expr_t) (a : ivl_attr).

Local Abbreviation wp := (wp nets thread_count).
Local Abbreviation acts := (acts nets thread_count).
Local Abbreviation gen_ok := (gen_ok nets env).
Local Abbreviation wf := (wf nets env).
Local Abbreviation part_ok := (part_ok nets thread_count env draw_vec4).

Lemma base_ok_width e : wf e = true -> base_ok e = true -> base_width (ivl_expr_signed e) (eval env e).
Proof.
  intros Hw [Hb _]%andb_prop. destruct (wf_width _ _ e Hw) as (L & _ & P0). apply Nat.leb_le in Hb. unfold base_width. lia.
Qed.

Lemma immediate_base e : test_immediate_vec4_ok e = true -> wf e = true -> base_ok e = true -> has_unknown (eval env e) = false.
Proof.
  intros Ht Hw [_ Hb]%andb_prop. destruct e as [a ds| | | | | | |]; try done. apply negb_true_iff in Hb. apply wf_parts in Hw as [Hw _].
  apply andb_prop in Hw as [_ [_ Hd]%andb_prop]. cbn [eval]. change (number_value a ds) with (digits (take (width_ a) ds)).
  by rewrite <- (number_is_unknown_digits _ Hd).
Qed.

Lemma draw_select_ok a e1 e2 W U : wf (IVL_EX_SELECT a e1 (Some e2)) = true -> part_ok e1 -> part_ok e2 ->
  let e := IVL_EX_SELECT a e1 (Some e2) in room W U (depth e) (registers e) ->
  acts (draw_select_vec4 draw_vec4 (width_ a) e1 e2) W U [] [eval env e].
Proof.
  intros Hw He1 He2 e Hroom. destruct (wf_width _ _ _ Hw) as (_ & Hs & H0). unfold ivl_expr_width in Hs, H0. cbn [attr_of] in Hs, H0.
  destruct (wf_select _ _ _ _ _ Hw) as (Hw1 & Hw2 & Hb). destruct (wf_width _ _ _ Hw1) as (L1 & S1 & _). destruct (wf_width _ _ _ Hw2) as (L2 & S2 & P2).
  pose proof (base_ok_width _ Hw2 Hb) as Hbw. cbn [eval e]. unfold eval_select. set (b := eval env e2) in *.
  assert (Hfar : Z.of_nat (length (eval env e1) + width_ a) < 2 ^ 31) by (unfold small in *; lia).
  unfold draw_select_vec4. destruct (test_immediate_vec4_ok e2) eqn:Hi.
  - pose proof (immediate_base _ Hi Hw2 Hb) as Hu. fold b in Hu. rewrite Hu.
    destruct (immediate_operand nets env e2 Hi (proj1 (wf_parts _ _ _ Hw2))) as (v0 & vx & Hm & H0v & Hxv & Hiv & Hv0 & Hvx). fold b in Hiv.
    destruct (known_words _ _ _ b Hiv ltac:(lia) ltac:(lia) Hu) as [-> ->]. eapply acts_pure; [intros; by rewrite Hm|]. cbn beta iota.
    eapply acts_bind; [by apply acts_assert|]. eapply acts_bind; [apply He1; sub_room Hroom|].
    apply acts_stack. intros P st fl ws ls Phi HP. apply wp_parti; try done. rewrite <- L2, parti_value by done. exact HP.
  - eapply acts_bind; [apply He1; sub_room Hroom|]. eapply acts_bind; [apply acts_push, He2; sub_room Hroom|].
    apply acts_stack. intros P st fl ws ls Phi HP. apply wp_part; try done. fold b.
    rewrite take_ge by (unfold base_width in Hbw; destruct (ivl_expr_signed e2); lia). rewrite s32_small by (by apply num_base). exact HP.
Qed.

(** ** Concatenations *)

(** A part, and room for it. *)
Definition part_ready W U e : Prop := gen_ok e = true /\ acts (draw_vec4 e) W U [] [eval env e].

Lemma max_of_le f e parms : In e parms -> (f e <= max_of f parms)%nat.
Proof. induction parms as [|e' parms IH]; [done|]. cbn. intros [->|Hin]; [lia|]. specialize (IH Hin). lia. Qed.

Lemma acts_pop W U v rest : acts (emit "%pop/vec4" [num_ 1]) W U (v :: rest) rest.
Proof. apply acts_stack. intros. by apply wp_pop. Qed.

(** The first part that is not a zero replication is the vector to put the others below. *)
Lemma draw_head_ok parms W U : Forall (part_ready W U) parms -> (0 < parts_width parms)%nat ->
  exists e rest, eval_parts (eval env) parms = eval_parts (eval env) rest ++ eval env e /\ Forall (part_ready W U) rest /\
    forall (k : list ivl_expr_t -> M unit) post, acts (k rest) W U [eval env e] post -> acts (draw_concat_head draw_vec4 parms ≫= k) W U [] post.
Proof.
  induction 1 as [|e parms [Hg He] Hps IH]; cbn [parts_width foldr]; [lia|]. fold (parts_width parms). intros H0.
  cbn [draw_concat_head eval_parts]. fold (eval_parts (eval env) parms). destruct (is_zero_replication e) eqn:Hz.
  - destruct (IH H0) as (e' & rest & Hv & Hrest & Hk). exists e', rest. rewrite app_nil_r. split; [done|]. split; [done|].
    intros k post Hpost. apply acts_assoc. eapply acts_bind; [exact He|].
    apply acts_assoc. eapply acts_bind; [apply acts_pop|]. by apply Hk.
  - exists e, parms. split; [done|]. split; [done|]. intros k post Hpost. apply acts_assoc.
    eapply acts_bind; [exact He|]. by eapply acts_pure.
Qed.

Lemma draw_tail_ok parms : forall W U m, Forall (part_ready W U) parms ->
  acts (draw_concat_tail draw_vec4 parms) W U [m] [eval_parts (eval env) parms ++ m].
Proof.
  induction parms as [|e parms IH]; intros W U m Hp; [apply acts_ret|]. inversion Hp as [|? ? [Hg He] Hps]; subst.
  cbn [draw_concat_tail eval_parts]. fold (eval_parts (eval env) parms). rewrite <- app_assoc.
  assert (Hgen : acts (draw_vec4 e;; if is_zero_replication e then emit "%pop/vec4" [num_ 1] else emit "%concat/vec4" []) W U [m]
    [(if is_zero_replication e then [] else eval env e) ++ m]).
  { eapply acts_bind; [by apply acts_push|]. destruct (is_zero_replication e); [apply acts_pop|]. apply acts_stack. intros. by apply wp_concat. }
  eapply acts_bind; [|by apply IH]. destruct e; try exact Hgen. by apply (draw_number_acts _ _ env _ _ true).
Qed.

Lemma repeat_once v : repeat_bits 1 v = v.
Proof. apply app_nil_r. Qed.

Lemma draw_concat_ok a rept parms W U : gen_ok (IVL_EX_CONCAT a rept parms) = true -> Forall part_ok parms ->
  let e := IVL_EX_CONCAT a rept parms in room W U (depth e) (registers e) ->
  acts (draw_concat_vec4 draw_vec4 rept parms) W U [] [eval env e].
Proof.
  intros Hg Hps e Hroom. destruct (gen_ok_concat _ _ _ _ _ Hg) as (Hs & Hgs & H0 & Hwid).
  assert (Hready : Forall (part_ready W U) parms).
  { rewrite List.Forall_forall in *. intros e' Hin. split; [by apply Hgs|]. apply (Hps e' Hin). eapply room_mono; [| |exact Hroom]; cbn.
    - pose proof (max_of_le depth e' parms Hin). lia.
    - by apply max_of_le. }
  destruct (draw_head_ok parms W U Hready H0) as (e1 & rest & Hv & Hrest & Hk). unfold draw_concat_vec4. apply Hk.
  eapply acts_bind; [by apply draw_tail_ok|]. rewrite <- Hv. cbn [eval e]. destruct (Nat.ltb_spec 1 rept).
  - rewrite Nat.max_l by lia. apply acts_stack. intros. apply wp_replicate; [unfold small; nia|lia|done].
  - rewrite Nat.max_r by lia. rewrite repeat_once. apply acts_ret.
Qed.
End Select.
