(* ===== verification/CodegenCond.v ===== *)
(** * CodegenCond: the code of the conditional operator and of conditions *)

From Stdlib Require Import String Ascii.
From stdpp Require Import gmap sets.
From S2P Require Import Prelude FourState Vector4 Vector4Value Vector4Ops Vector4Arith Bits Thread ThreadDiv ThreadSpec ThreadCmp ThreadData ThreadShift.
From S2P Require Import Machine MachineRun EmitWp Codegen CodegenAlloc EmitOps ExprSem CodegenNumber CodegenSpec.
Import Bit4.

Open Scope ivl_scope.

Lemma blend_sym l r : length l = length r -> zip_bits blend_bit l r = zip_bits blend_bit r l.
Proof.
  intros Hl. apply bits_eq; [by rewrite !length_zip|]. rewrite length_zip. intros i Hi. unfold zip_bits. rewrite !bit_at_map by lia.
  unfold blend_bit. by repeat case_decide; congruence.
Qed.

Section Cond.
Context `{World}.
Variables (nets : symbol -> option nat) (thread_count : nat) (env : nat -> bits).
Hypothesis not_stopped : schedule_stopped = false.
Variables (draw_vec4 : ivl_expr_t -> M unit) (draw_cond : ivl_expr_t -> M nat).
Implicit Types (st : cg) (P : list symbol) (fl : list vvp_bit4_t) (ws : list Z) (ls : list bits) (l r : bits) (W U : gset nat).
Implicit Types (e : ivl_expr_t) (a : ivl_attr).

Local Abbreviation wp := (wp nets thread_count).
Local Abbreviation frag := (frag nets thread_count).
Local Abbreviation acts := (acts nets thread_count).
Local Abbreviation decides := (decides nets thread_count).
Local Abbreviation wf := (wf nets env).
Local Abbreviation part_ok := (part_ok nets thread_count env draw_vec4).
Local Abbreviation cond_ok := (cond_ok nets thread_count env draw_cond).

(** ** The conditional operator *)

(** What a generator prints, and where its code leads. *)
Lemma acts_run m W U pre post P st fl ws ls : acts m W U pre post -> alloc st W U -> state_ok (Abs fl ws (pre ++ ls)) ->
  exists st' out fl' ws', m st = Done tt st' out /\ frag P (local_count st) out P (local_count st') /\
    runs nets out (Abs fl ws (pre ++ ls)) (Abs fl' ws' (post ++ ls)) /\ alloc st' W U /\ keeps W U fl ws fl' ws'.
Proof.
  intros Hm Ha Hok. pose proof (Hm P st fl ws ls (fun _ P' st' A' => P' = P /\ alloc st' W U /\
    exists fl' ws', A' = Abs fl' ws' (post ++ ls) /\ keeps W U fl ws fl' ws') Ha) as Hw.
  specialize (Hw ltac:(intros; split; [done|]; split; [done|]; by eexists _, _) Hok). destruct (m st) as [[] st' out| |]; [|done..].
  destruct Hw as (P' & A' & F & R & -> & Ha' & fl' & ws' & -> & K). by exists st', out, fl', ws'.
Qed.

Lemma frag_perm P P2 lo out P' hi : P ≡ₚ P2 -> frag P2 lo out P' hi -> frag P lo out P' hi.
Proof.
  intros HP [Hle Hl Hf]. constructor; [done|by rewrite HP|]. eapply List.Forall_impl; [|exact Hf]. intros line.
  apply line_ok_mono. intros s. by rewrite HP.
Qed.

Lemma runs_blend fl ws l r ls : length l = length r ->
  runs nets [AsmCode "%blend" []] (Abs fl ws (r :: l :: ls)) (Abs fl ws (zip_bits blend_bit r l :: ls)).
Proof. intros Hl. eapply (runs_code _ _ _ (Code OP_BLEND 0 0 0 0 0)); [done|]. intros p _. by apply eff_blend. Qed.

(** The value that the branches leave, by the flag. *)
Lemma wp_branches {X} lab_true lab_out f c tx fx vt vf W U P st fl ws ls (k : M X) (Phi : X -> list symbol -> cg -> abs -> Prop) :
  (8 <= f < FLAGS_COUNT)%nat -> f ∈ U -> fl !! f = Some c -> acts tx W U [] [vt] -> acts fx W U [] [vf] -> length vt = length vf -> alloc st W U ->
  (forall st' fl' ws', alloc st' W U -> keeps W U fl ws fl' ws' ->
     wp k P st' (Abs fl' ws' ((if is_0 c then vf else if is_1 c then vt else zip_bits blend_bit vt vf) :: ls)) Phi) ->
  wp (emit "%jmp/0" [label_ thread_count lab_true; num_ f];; tx;; emit "%jmp/1" [label_ thread_count lab_out; num_ f];;
      emit_label thread_count lab_true;; fx;; emit "%jmp/0" [label_ thread_count lab_out; num_ f];; emit "%blend" [];;
      emit_label thread_count lab_out;; k)
    (SymCode thread_count lab_out :: SymCode thread_count lab_true :: P) st (Abs fl ws ls) Phi.
Proof.
  intros Hf HfU Hc Ht Hfx Hlen Ha Hk Hok. set (so := SymCode thread_count lab_out). set (sl := SymCode thread_count lab_true).
  destruct (acts_run tx W U [] [vt] (so :: sl :: P) st fl ws ls Ht Ha Hok) as (st1 & out1 & flt & wst & E1 & F1 & Rt & Ha1 & Kt).
  destruct (acts_run fx W U [] [vf] (so :: P) st1 flt wst (vt :: ls) Hfx Ha1 (proj1 (Rt Hok))) as (st2 & out2 & flx & wsx & E2 & F2 & Rtf & Ha2 & Ktf).
  destruct (acts_run fx W U [] [vf] (so :: P) st1 fl ws ls Hfx Ha1 Hok) as (st2' & out2' & flf & wsf & E2' & _ & Rf & _ & Kf).
  rewrite E2 in E2'. injection E2' as <- <-. pose proof (runs_blend flx wsx vt vf ls Hlen) as Rx.
  assert (Hsame : forall fl' ws', keeps W U fl ws fl' ws' -> fl' !! f = Some c) by (intros fl' ws' [K _]; rewrite K by (done || lia); done).
  pose proof (runs_ternary nets not_stopped sl so f c out1 out2 (Abs fl ws ls) (Abs flt wst (vt :: ls)) (Abs flx wsx (vf :: vt :: ls))
    (Abs flx wsx (zip_bits blend_bit vf vt :: ls)) (Abs flf wsf (vf :: ls)) ltac:(lia) Hc (Hsame _ _ Kt)
    (Hsame _ _ (keeps_trans _ _ _ _ _ _ _ _ Kt Ktf)) (Hsame _ _ Kf) Rt Rtf Rx Rf) as Rall.
  cbn [app] in Rall. rewrite (blend_sym vf vt) in Rall by done.
  set (A' := if is_0 c then _ else _) in Rall. assert (HA' : exists fl' ws', keeps W U fl ws fl' ws' /\
    A' = Abs fl' ws' ((if is_0 c then vf else if is_1 c then vt else zip_bits blend_bit vt vf) :: ls)).
  { unfold A'. destruct (is_0 c); [by exists flf, wsf|]. destruct (is_1 c); [by exists flt, wst|]. exists flx, wsx. split; [exact (keeps_trans _ _ _ _ _ _ _ _ Kt Ktf)|done]. }
  destruct HA' as (fl' & ws' & K & ->). specialize (Hk st2 fl' ws' Ha2 K (proj1 (Rall Hok))).
  unfold mbind, M_bind, emit, emit_label. cbn. rewrite E1. cbn. rewrite E2. cbn.
  destruct (k st2) as [x st3 out3| |]; [|done..]. destruct Hk as (P3 & A3 & F3 & R3 & HPhi). exists P3, A3. split; [|split; [|done]].
  - apply (frag_app _ _ _ _ [_] (so :: sl :: P) (local_count st)); [eapply frag_jump; [apply jump_test_0|set_solver]|].
    eapply frag_app; [exact F1|].
    apply (frag_app _ _ _ _ [_] (so :: sl :: P) (local_count st1)); [eapply frag_jump; [apply jump_test_1|set_solver]|].
    apply (frag_app _ _ _ _ [_] (so :: P) (local_count st1)); [eapply frag_perm; [apply Permutation_swap|apply frag_label]|].
    eapply frag_app; [exact F2|].
    apply (frag_app _ _ _ _ [_] (so :: P) (local_count st2)); [eapply frag_jump; [apply jump_test_0|set_solver]|].
    apply (frag_app _ _ _ _ [_] (so :: P) (local_count st2)); [apply frag_line; [|done]; intros lab _; by eexists|].
    apply (frag_app _ _ _ _ [_] P (local_count st2)); [apply frag_label|exact F3].
  - eapply runs_app in R3; [|exact Rall]. cbn [app] in R3. rewrite <- !app_assoc in R3. cbn [app] in R3. rewrite <- !app_assoc in R3. exact R3.
Qed.

(** A flag below 8 is in use already. *)
Lemma low_flag st W U f : alloc st W U -> (f < 8)%nat -> {[f]} ∪ U = U.
Proof. intros Ha Hf. pose proof (al_flag_low _ _ _ Ha f Hf). set_solver. Qed.

Lemma ternary_value c cond t f : bit4_z2x c = or_all cond -> length t = length f ->
  (if is_0 c then f else if is_1 c then t else zip_bits blend_bit t f) = eval_ternary cond t f.
Proof. intros Hc _. unfold eval_ternary. rewrite <- Hc. by destruct c. Qed.

Lemma draw_ternary_ok a e1 e2 e3 W U : wf (IVL_EX_TERNARY a e1 e2 e3) = true -> cond_ok e1 -> part_ok e2 -> part_ok e3 ->
  let e := IVL_EX_TERNARY a e1 e2 e3 in room W U (depth e) (registers e) ->
  acts (draw_ternary_vec4 thread_count draw_vec4 draw_cond e1 e2 e3) W U [] [eval env e].
Proof.
  intros Hw He1 He2 He3 e Hroom P st fl ws ls Phi Ha HP. destruct (wf_ternary _ _ _ _ _ _ Hw) as (Hw1 & Hw2 & Hw3 & W2 & W3).
  destruct (wf_width _ _ _ Hw2) as (L2 & _). destruct (wf_width _ _ _ Hw3) as (L3 & _). pose proof (al_flag_low _ _ _ Ha) as Hlow.
  unfold draw_ternary_vec4. apply wp_bind. eapply wp_label; [done|]. intros lab_true st1 Ha1. apply wp_bind. eapply wp_label; [done|].
  intros lab_out st2 Ha2. apply wp_bind. eapply (He1 W U); [sub_room Hroom|done|]. intros f st3 fl3 ws3 c Ha3 Hf Hfu K3 Hc Hz.
  assert (Hrest : forall g st4 fl4, alloc st4 W ({[g]} ∪ U) -> (8 <= g < FLAGS_COUNT)%nat -> g ∉ U -> keeps W U fl ws fl4 ws3 -> fl4 !! g = Some c ->
    wp (emit "%jmp/0" [label_ thread_count lab_true; num_ g];; draw_vec4 e2;; emit "%jmp/1" [label_ thread_count lab_out; num_ g];;
      emit_label thread_count lab_true;; draw_vec4 e3;; emit "%jmp/0" [label_ thread_count lab_out; num_ g];; emit "%blend" [];;
      emit_label thread_count lab_out;; clr_flag g) (SymCode thread_count lab_out :: SymCode thread_count lab_true :: P) st4 (Abs fl4 ws3 ls) Phi).
  { intros g st4 fl4 Ha4 Hg Hgu K4 Hgc. assert (Hroom' : room W ({[g]} ∪ U) (Nat.max (depth e2) (depth e3)) (Nat.max (registers e2) (registers e3))).
    { apply room_flag. sub_room Hroom. }
    eapply (wp_branches _ _ g c _ _ (eval env e2) (eval env e3) W ({[g]} ∪ U)); [done|set_solver|done|apply He2; sub_room Hroom'|apply He3; sub_room Hroom'|congruence|done|].
    intros st5 fl5 ws5 Ha5 K5. eapply wp_clr_flag; [done|lia|done|done|]. intros st6 Ha6. rewrite (ternary_value c (eval env e1)) by congruence.
    apply HP; [done|]. eapply keeps_trans; [exact K4|]. eapply keeps_sub; [done| |exact K5]. set_solver. }
  apply wp_bind. destruct (Nat.ltb_spec f 8) as [H8|H8].
  - rewrite (low_flag st W U f Ha H8) in Ha3. apply wp_bind. eapply wp_allocate_flag; [done|destruct Hroom; cbn in *; lia|]. intros t st4 Ha4 Ht Htu.
    apply wp_bind, wp_assert; [apply Nat.leb_le; lia|]. apply wp_state_ok. intros [Hl _ _ _]. apply wp_bind. eapply wp_flag_mov; [lia|done|done|]. apply wp_ret.
    apply Hrest; [done|done|done| |].
    + eapply keeps_trans; [exact K3|]. by apply keeps_free_flag.
    + apply list_lookup_insert_eq. cbn in Hl. lia.
  - apply wp_ret. apply Hrest; [done|lia|by apply Hfu|done|done].
Qed.

(** ** Conditions *)

(** The value of the condition is in one of the fixed flags. *)
Lemma decides_low W U f (m : M nat) v :
  (f < 8)%nat ->
  (forall P st fl ws ls (Phi : nat -> list symbol -> cg -> abs -> Prop), alloc st W U ->
    (forall st' fl' ws' c, alloc st' W U -> keeps W U fl ws fl' ws' -> fl' !! f = Some c -> bit4_z2x c = v -> Phi f P st' (Abs fl' ws' ls)) ->
    wp m P st (Abs fl ws ls) Phi) ->
  decides m W U v.
Proof.
  intros Hf Hm P st fl ws ls Phi Ha HP. apply Hm; [done|]. intros st' fl' ws' c Ha' K Hc Hv.
  eapply HP; [|unfold FLAGS_COUNT; lia|lia|done|done|done]. by rewrite (low_flag st' W U f Ha' Hf).
Qed.

Lemma draw_fallback_ok e W U : wf e = true -> part_ok e -> room W U (S (depth e)) (registers e) ->
  decides (draw_condition_fallback draw_vec4 e) W U (or_all (eval env e)).
Proof.
  intros Hw He Hroom P st fl ws ls Phi Ha HP. destruct (wf_width _ _ _ Hw) as (L & _ & P0). unfold draw_condition_fallback. apply wp_bind.
  eapply wp_allocate_flag; [done|destruct Hroom; lia|]. intros f st1 Ha1 Hf Hfu. apply wp_bind.
  apply (He W ({[f]} ∪ U) (room_flag _ _ _ _ _ Hroom) P st1 fl ws ls); [done|]. intros st2 fl2 ws2 Ha2 K2. apply wp_bind.
  destruct (acts_or_reduce nets thread_count e W ({[f]} ∪ U) (eval env e) L ltac:(lia)) as (c & Hc & Hred).
  apply (Hred P st2 fl2 ws2 ls); [done|]. intros st3 fl3 ws3 Ha3 K3. apply wp_state_ok. intros [Hl _ _ _]. cbn in Hl. apply wp_bind.
  apply wp_flag_set; [lia|]. apply wp_ret. eapply HP; [done|lia|done| |by apply list_lookup_insert_eq; lia|done].
  eapply keeps_trans; [eapply (keeps_sub W U W ({[f]} ∪ U)); [done|set_solver|by eapply keeps_trans]|]. by apply keeps_free_flag.
Qed.

(** [==], [===] and their negations, for operands in either order. *)
Definition equality_bit (op : binary_op) l r : vvp_bit4_t :=
  match op with
  | B_eq => eq_bit l r
  | B_ne => bit4_not (eq_bit l r)
  | B_ceq => case_eq_bit l r
  | _ => bit4_not (case_eq_bit l r)
  end.

Definition equality_op (op : binary_op) : bool := match op with B_eq | B_ne | B_ceq | B_cne => true | _ => false end.

Lemma z2x_equality op l r : bit4_z2x (equality_bit op l r) = equality_bit op l r.
Proof. destruct op; cbn; rewrite ?z2x_not, ?z2x_eq, ?z2x_case_eq; done. Qed.

Lemma equality_sym op l r : length l = length r -> equality_bit op l r = equality_bit op r l.
Proof. intros Hl. destruct op; cbn; rewrite ?(eq_bit_sym l r), ?(case_eq_sym l r) by done; done. Qed.

(** The generator of a condition that compares [le] and [re], after it has put them in order. *)
Lemma compare_core op le re n W U d nr : equality_op op = true -> wf le = true -> wf re = true -> part_ok le -> part_ok re -> room W U d nr ->
  (Nat.max (depth le) (depth re) <= d)%nat -> (Nat.max (registers le) (registers re) <= nr)%nat -> small n -> (0 < n)%nat ->
  let ne := bool_decide (op = B_ne) || bool_decide (op = B_cne) in
  decides (draw_vec4 le;; resize_vec4_wid le n;;
    (if (ivl_expr_width re =? n)%nat && test_immediate_vec4_ok re then draw_immediate_vec4 re (if ne then "%cmpi/ne" else "%cmpi/e")
     else draw_vec4 re;; resize_vec4_wid re n;; emit (if ne then "%cmp/ne" else "%cmp/e") []);;
    match op with B_ne | B_eq => mret 4%nat | B_cne | B_ceq => mret 6%nat | _ => bug end) W U
    (equality_bit op (fit (ivl_expr_signed le) n (eval env le)) (fit (ivl_expr_signed re) n (eval env re))).
Proof.
  intros Hop Hwl Hwr Hl Hr Hroom Hd Hn Hs H0 ne.
  apply (decides_low _ _ (match op with B_ne | B_eq => 4 | _ => 6 end)%nat); [by destruct op; lia|]. intros P st fl ws ls Phi Ha HP.
  eapply wp_operand; [done|done|eapply room_mono; [| |exact Hroom]; lia|done..|]. intros st1 fl1 ws1 Ha1 K1. apply wp_bind.
  eapply (wp_compare_right _ _ _ _ _ _ (if ne then OP_CMPINE else OP_CMPIE) (if ne then OP_CMPNE else OP_CMPE) (if ne then flags_ne else flags_e));
    [by destruct ne|by destruct ne; constructor|by destruct ne|by destruct ne; constructor|done|done|eapply room_mono; [| |exact Hroom]; lia|apply length_fit|done..|].
  intros st2 fl2 ws2 Ha2 K2 Hl2. set (l := fit _ n (eval env le)) in *. set (r := fit _ n (eval env re)) in *.
  assert (K : keeps W U fl ws ((if ne then flags_ne else flags_e) l r fl2) ws2).
  { eapply keeps_trans; [exact K1|]. eapply keeps_trans; [exact K2|]. apply keeps_compare. destruct ne; [apply compares_ne|apply compares_e]. }
  assert (Hflag : (if ne then flags_ne else flags_e) l r fl2 !! (match op with B_ne | B_eq => 4 | _ => 6 end)%nat = Some (equality_bit op l r)).
  { assert (Hg : (if ne then flags_ne else flags_e) = match op with B_ne | B_cne => flags_ne | _ => flags_e end) by (by destruct op).
    rewrite Hg. clear K K2. revert fl2 Hl2. destruct op; try done; cbn beta iota; flag_lookup. }
  destruct op; try done; apply wp_ret; (eapply HP; [done|exact K|exact Hflag|apply z2x_equality]).
Qed.

Lemma equality_value a op le re : equality_op op = true -> let n := Nat.max (length (eval env le)) (length (eval env re)) in
  or_all (eval env (IVL_EX_BINARY a op le re)) =
    equality_bit op (fit (ivl_expr_signed le) n (eval env le)) (fit (ivl_expr_signed re) n (eval env re)).
Proof. intros Hop n. rewrite <- z2x_equality. destruct op; try done; cbn [eval eval_binary]; apply or_all_bit. Qed.

Lemma draw_cond_compare_ok a op le re W U : equality_op op = true -> wf (IVL_EX_BINARY a op le re) = true -> part_ok le -> part_ok re ->
  let e := IVL_EX_BINARY a op le re in room W U (depth e) (registers e) ->
  decides (draw_condition_binary_compare draw_vec4 op le re) W U (or_all (eval env e)).
Proof.
  intros Hop Hw Hl Hr e Hroom. destruct (wf_binary _ _ _ _ _ _ Hw) as (Hwl & Hwr & _).
  destruct (use_wid_max _ _ le re Hwl Hwr) as (Hu & Hs & H0).
  assert (Hroom' : room W U (S (Nat.max (depth le) (depth re))) (Nat.max (registers le) (registers re))) by (destruct op; done).
  unfold e. rewrite equality_value, <- Hu by done. unfold draw_condition_binary_compare.
  destruct ((ivl_expr_width le =? use_wid_ le re)%nat && test_immediate_vec4_ok le).
  - rewrite equality_sym by (by rewrite !length_fit). eapply compare_core; [done..|exact Hroom'|lia|lia|done|done].
  - eapply compare_core; [done..|exact Hroom'|lia|lia|done|done].
Qed.

(** ** Order *)

Definition order_fun (op : binary_op) : Z -> Z -> bool := match op with B_lt => Z.ltb | B_le => Z.leb | B_gt => Z.gtb | _ => Z.geb end.

Lemma order_value a op le re : order_operator op = true -> let n := Nat.max (length (eval env le)) (length (eval env re)) in
  or_all (eval env (IVL_EX_BINARY a op le re)) = order_bit (ivl_expr_signed le && ivl_expr_signed re) (order_fun op)
    (fit (ivl_expr_signed le) n (eval env le)) (fit (ivl_expr_signed re) n (eval env re)).
Proof. intros Hop n. rewrite <- (z2x_order _ (order_fun op)). destruct op; try done; cbn [eval eval_binary]; apply or_all_bit. Qed.

Lemma order_mirror sg op l r : order_operator op = true -> order_bit sg (order_fun (mirror op)) r l = order_bit sg (order_fun op) l r.
Proof.
  intros Hop. symmetry. apply order_swap. intros x y. destruct op; try done; cbn [order_fun mirror].
  - symmetry. apply Z.gtb_ltb.
  - symmetry. apply Z.geb_leb.
  - apply Z.gtb_ltb.
  - apply Z.geb_leb.
Qed.

Lemma bit4_or_comm x y : bit4_or x y = bit4_or y x.
Proof. by destruct x, y. Qed.

(** The generator of a condition that orders [le] and [re], after it has put them in order. *)
Lemma order_core (sg : bool) op le re W U d nr : order_operator op = true -> wf le = true -> wf re = true -> part_ok le -> part_ok re -> room W U d nr ->
  (Nat.max (depth le) (depth re) <= d)%nat -> (Nat.max (registers le) (registers re) <= nr)%nat ->
  let n := use_wid_ le re in
  decides (draw_vec4 le;; resize_vec4_wid le n;; draw_order draw_vec4 sg n re;;
    match op with
    | B_gt => emit "%flag_or" [num_ 5; num_ 4];; emit "%flag_inv" [num_ 5];; mret 5%nat
    | B_ge => emit "%flag_inv" [num_ 5];; mret 5%nat
    | B_lt => mret 5%nat
    | B_le => emit "%flag_or" [num_ 5; num_ 4];; mret 5%nat
    | _ => bug
    end) W U (order_bit sg (order_fun op) (fit (ivl_expr_signed le) n (eval env le)) (fit (ivl_expr_signed re) n (eval env re))).
Proof.
  intros Hop Hwl Hwr Hl Hr Hroom Hd Hn n. destruct (use_wid_max _ _ le re Hwl Hwr) as (_ & Hs & H0).
  apply (decides_low _ _ 5); [lia|]. intros P st fl ws ls Phi Ha HP.
  eapply wp_operand; [done|done|eapply room_mono; [| |exact Hroom]; lia|done..|]. intros st1 fl1 ws1 Ha1 K1. apply wp_bind.
  eapply wp_draw_order; [done|done|eapply room_mono; [| |exact Hroom]; lia|apply length_fit|done..|]. intros st2 fl2 ws2 Ha2 K2 Hl2.
  set (l := fit _ n (eval env le)) in *. set (r := fit _ n (eval env re)) in *.
  assert (Hlen : length l = length r) by (unfold l, r; by rewrite !length_fit).
  destruct (order_flags_at sg l r fl2 Hl2) as [F4 F5]. set (fl3 := order_flags sg l r fl2) in *.
  assert (K3 : keeps W U fl ws fl3 ws2).
  { eapply keeps_trans; [exact K1|]. eapply keeps_trans; [exact K2|]. apply keeps_compare, order_flags_compares. }
  assert (Hl3 : length fl3 = FLAGS_COUNT) by (unfold fl3; by rewrite (proj1 (order_flags_compares sg l r))).
  assert (H5 : forall fl' v, length fl' = FLAGS_COUNT -> <[5%nat := v]> fl' !! 5%nat = Some v).
  { intros fl' v Hf. apply list_lookup_insert_eq. rewrite Hf. unfold FLAGS_COUNT. lia. }
  assert (H5b : (5 < FLAGS_COUNT)%nat) by (unfold FLAGS_COUNT; lia). assert (H4b : (4 < FLAGS_COUNT)%nat) by (unfold FLAGS_COUNT; lia).
  assert (Kset : forall fl' v, keeps W U fl ws fl' ws2 -> keeps W U fl ws (<[5%nat := v]> fl') ws2).
  { intros fl' v K. eapply keeps_trans; [exact K|]. apply keeps_low_flag. lia. }
  assert (Hle : bit4_or (order_bit sg Z.ltb l r) (order_eq sg l r) = order_bit sg Z.leb l r) by (rewrite bit4_or_comm; by apply order_le).
  destruct op; try done; cbn [order_fun] in HP.
  - apply wp_ret. eapply HP; [done|done|exact F5|apply z2x_order].
  - apply wp_bind. eapply (wp_flag_or _ _ 5 4); [done|done|exact F5|exact F4|]. apply wp_ret. rewrite Hle.
    eapply HP; [done|by apply Kset|by apply H5|apply z2x_order].
  - apply wp_bind. eapply (wp_flag_or _ _ 5 4); [done|done|exact F5|exact F4|]. rewrite Hle. apply wp_bind.
    eapply (wp_flag_inv _ _ 5); [done|by apply H5|]. apply wp_ret. rewrite order_not_le.
    eapply HP; [done|by apply Kset, Kset|apply H5; by rewrite length_insert|apply z2x_order].
  - apply wp_bind. eapply (wp_flag_inv _ _ 5); [done|exact F5|]. apply wp_ret. rewrite order_not_lt.
    eapply HP; [done|by apply Kset|by apply H5|apply z2x_order].
Qed.

Lemma draw_cond_le_ok a op le re W U : order_operator op = true -> wf (IVL_EX_BINARY a op le re) = true -> part_ok le -> part_ok re ->
  let e := IVL_EX_BINARY a op le re in room W U (depth e) (registers e) ->
  decides (draw_condition_binary_le draw_vec4 op le re) W U (or_all (eval env e)).
Proof.
  intros Hop Hw Hl Hr e Hroom. destruct (wf_binary _ _ _ _ _ _ Hw) as (Hwl & Hwr & _).
  destruct (use_wid_max _ _ le re Hwl Hwr) as (Hu & _). destruct (use_wid_max _ _ re le Hwr Hwl) as (Hu' & _). rewrite Nat.max_comm in Hu'.
  assert (Hroom' : room W U (S (Nat.max (depth le) (depth re))) (Nat.max (registers le) (registers re))) by (destruct op; done).
  unfold e. rewrite order_value by done. set (sg := ivl_expr_signed le && ivl_expr_signed re).
  rewrite <- Hu. assert (Hforth := order_core sg op le re W U _ _ Hop Hwl Hwr Hl Hr Hroom' ltac:(lia) ltac:(lia)). cbv zeta in Hforth.
  assert (Hop' : order_operator (mirror op) = true) by (by destruct op).
  assert (Hback := order_core sg (mirror op) re le W U _ _ Hop' Hwr Hwl Hr Hl Hroom' ltac:(lia) ltac:(lia)). cbv zeta in Hback.
  rewrite order_mirror, Hu', <- Hu in Hback by done. unfold draw_condition_binary_le. fold sg.
  assert (Hn : use_wid_ le re = use_wid_ re le) by congruence.
  destruct (test_immediate_vec4_ok le && negb (test_immediate_vec4_ok re)); [rewrite <- Hn; exact Hback|].
  destruct (negb (test_immediate_vec4_ok re)); [|exact Hforth].
  destruct op; try done; rewrite <- Hn; exact Hback.
Qed.


(** ** Disjunction *)

Lemma or_all_fit n x : (0 < n)%nat -> or_all (fit false n [x]) = bit4_z2x x.
Proof.
  intros Hn. destruct n as [|n]; [lia|]. assert (Hz : forall k, or_all (repeat BIT4_0 k) = BIT4_0) by (induction k as [|k IH]; [done|]; cbn; unfold or_all in IH; by rewrite IH).
  replace (fit false (S n) [x]) with (x :: repeat BIT4_0 n).
  - change (or_all (x :: repeat BIT4_0 n)) with (bit4_or x (or_all (repeat BIT4_0 n))). rewrite Hz. by destruct x.
  - apply bits_eq; [cbn; by rewrite repeat_length, length_map, length_seq|]. cbn [length]. rewrite repeat_length. intros i Hi.
    unfold fit. rewrite bit_at_map by done. destruct i as [|i]; [done|]. cbn [length]. rewrite (proj2 (Nat.ltb_ge _ _)) by lia.
    change (bit_at (x :: repeat BIT4_0 n) (S i)) with (bit_at (repeat BIT4_0 n) i). apply nth_repeat_lt. lia.
Qed.

(** The part of [draw_condition_binary_lor] that the jump skips, and what follows it. *)
Definition lor_right (lx : nat) re : M nat :=
  tmp_flag ← (if (lx <? 8)%nat then
    tmp_flag ← allocate_flag; emit "%flag_mov" [num_ tmp_flag; num_ lx];; mret tmp_flag else mret lx);
  rx ← draw_cond re;
  (if (lx =? tmp_flag)%nat then emit "%flag_or" [num_ lx; num_ rx]
   else
     emit "%flag_or" [num_ rx; num_ tmp_flag];;
     (if (lx =? rx)%nat then mret tt else emit "%flag_mov" [num_ lx; num_ rx]);;
     clr_flag tmp_flag);;
  mret rx.

Lemma lor_shape le re st : draw_condition_binary_lor thread_count draw_cond le re st =
  (label_out ← new_label; lx ← draw_cond le; emit "%jmp/1" [label_ thread_count label_out; num_ lx];;
   rx ← lor_right lx re; emit_label thread_count label_out;; (clr_flag rx;; mret lx)) st.
Proof.
  unfold draw_condition_binary_lor, lor_right. apply bind_ext. intros lab st1. apply bind_ext. intros lx st2. apply bind_ext. intros _ st3.
  rewrite bind_assoc. apply bind_ext. intros t st4. rewrite bind_assoc. apply bind_ext. intros rx st5. rewrite bind_assoc. apply bind_ext. intros _ st6. by rewrite ret_bind.
Qed.

(** The right operand is combined into the flag [lx] of the left one. *)
Lemma wp_lor_right lx c re W U P st fl ws ls (Phi : nat -> list symbol -> cg -> abs -> Prop) : cond_ok re -> room W U (S (S (depth re))) (registers re) ->
  alloc st W ({[lx]} ∪ U) -> (forall i, (i < 8)%nat -> i ∈ U) -> (lx < FLAGS_COUNT)%nat -> ((8 <= lx)%nat -> lx ∉ U) -> fl !! lx = Some c ->
  (forall rx st' fl' ws' d, alloc st' W ({[rx]} ∪ ({[lx]} ∪ U)) -> (rx < FLAGS_COUNT)%nat -> ((8 <= rx)%nat -> rx ∉ {[lx]} ∪ U) ->
     keeps W U fl ws fl' ws' -> bit4_z2x d = or_all (eval env re) -> fl' !! lx = Some (bit4_or c d) -> Phi rx P st' (Abs fl' ws' ls)) ->
  wp (lor_right lx re) P st (Abs fl ws ls) Phi.
Proof.
  intros Hre Hroom Ha Hlow Hlx Hlu Hc HP. unfold lor_right. apply wp_bind. apply wp_state_ok. intros [Hl _ _ _]. cbn in Hl.
  destruct (Nat.ltb_spec lx 8) as [H8|H8].
  - assert (Hsub : {[lx]} ∪ U = U) by (specialize (Hlow lx H8); set_solver). rewrite Hsub in *. apply wp_bind.
    eapply wp_allocate_flag; [done|destruct Hroom; lia|]. intros t st1 Ha1 Ht Htu. apply wp_bind. eapply wp_flag_mov; [lia|done|done|]. apply wp_ret.
    apply wp_bind. eapply (Hre W ({[t]} ∪ U)); [by apply room_flag|done|]. intros rx st2 fl2 ws2 d Ha2 Hrx Hru K2 Hd Hz.
    apply wp_state_ok. intros [Hl2 _ _ _]. cbn in Hl2.
    assert (Htv : fl2 !! t = Some c) by (rewrite (proj1 K2) by (set_solver || lia); apply list_lookup_insert_eq; lia).
    assert (K : keeps W U fl ws fl2 ws2).
    { eapply keeps_trans; [by apply (keeps_free_flag _ _ _ _ t c)|]. eapply keeps_sub; [done| |exact K2]. set_solver. }
    assert (Htr : t <> rx) by (intros ->; specialize (Hru ltac:(lia)); set_solver).
    apply wp_bind. rewrite (proj2 (Nat.eqb_neq lx t)) by lia. apply wp_bind. eapply wp_flag_or; [done|lia|exact Hd|exact Htv|]. apply wp_bind.
    rewrite bit4_or_comm. set (v := bit4_or c d) in *. set (fl3 := <[rx := v]> fl2). assert (K3 : keeps W U fl ws fl3 ws2).
    { eapply keeps_trans; [exact K|]. destruct (Nat.lt_ge_cases rx 8); [by apply keeps_low_flag|]. apply keeps_free_flag. specialize (Hru ltac:(lia)). set_solver. }
    assert (Hrv : fl3 !! rx = Some v) by (apply list_lookup_insert_eq; lia).
    assert (Hend : forall fl4, keeps W U fl ws fl4 ws2 -> fl4 !! lx = Some v -> wp (clr_flag t) P st2 (Abs fl4 ws2 ls) (fun _ P' st' A' => wp (mret rx) P' st' A' Phi)).
    { intros fl4 K4 Hv. eapply (wp_clr_flag _ _ t W ({[rx]} ∪ U)); [|lia|set_solver|intros i Hi; apply elem_of_union_r; by apply Hlow|].
      - replace ({[t]} ∪ ({[rx]} ∪ U)) with ({[rx]} ∪ ({[t]} ∪ U)) by set_solver. done.
      - intros st4 Ha4. apply wp_ret. eapply (HP rx _ _ _ d); [exact Ha4|done|intros Hr; specialize (Hru Hr); set_solver|done|done|done]. }
    destruct (Nat.eqb_spec lx rx) as [->|Hne].
    + apply wp_ret. by apply Hend.
    + eapply wp_flag_mov; [done|done|exact Hrv|]. apply Hend; [|apply list_lookup_insert_eq; unfold fl3; rewrite length_insert; lia].
      eapply keeps_trans; [exact K3|]. by apply keeps_low_flag.
  - apply wp_ret. apply wp_bind. eapply (Hre W ({[lx]} ∪ U)); [by apply room_flag|done|]. intros rx st2 fl2 ws2 d Ha2 Hrx Hru K2 Hd Hz.
    apply wp_state_ok. intros [Hl2 _ _ _]. cbn in Hl2. specialize (Hlu ltac:(lia)).
    assert (Hlv : fl2 !! lx = Some c) by (rewrite (proj1 K2) by (set_solver || lia); done).
    apply wp_bind. rewrite Nat.eqb_refl. eapply wp_flag_or; [done|done|exact Hlv|exact Hd|]. apply wp_ret.
    eapply (HP rx _ _ _ d); [done|done|done| |done|by apply list_lookup_insert_eq; lia].
    eapply keeps_trans; [eapply keeps_sub; [done| |exact K2]; set_solver|]. by apply keeps_free_flag.
Qed.

Lemma draw_cond_lor_ok a le re W U : wf (IVL_EX_BINARY a B_lor le re) = true -> cond_ok le -> cond_ok re ->
  let e := IVL_EX_BINARY a B_lor le re in room W U (S (depth e)) (registers e) ->
  decides (draw_condition_binary_lor thread_count draw_cond le re) W U (or_all (eval env e)).
Proof.
  intros Hw Hl Hr e Hroom P st fl ws ls Phi Ha HP. destruct (wf_width _ _ _ Hw) as (_ & _ & P0). pose proof (al_flag_low _ _ _ Ha) as Hlow.
  unfold ivl_expr_width in P0. cbn [attr_of] in P0.
  assert (Hval : or_all (eval env e) = bit4_or (or_all (eval env le)) (or_all (eval env re))) by (unfold e; cbn [eval eval_binary]; rewrite or_all_fit, z2x_or by done; done).
  eapply wp_ext; [apply lor_shape|]. apply wp_bind. eapply wp_label; [done|]. intros lab st1 Ha1. apply wp_bind.
  eapply (Hl W U); [sub_room Hroom|done|]. intros lx st2 fl2 ws2 c Ha2 Hlx Hlu K2 Hc Hz.
  eapply (wp_skip nets thread_count not_stopped _ _ lab lx c); [apply jump_test_1|done|done|left|].
  eapply wp_lor_right; [exact Hr|sub_room Hroom|done|done|done|done|done|]. intros rx st3 fl3 ws3 d Ha3 Hrx Hru K3 Hzd Hv.
  eexists. split; [reflexivity|]. apply wp_bind.
  eapply wp_clr_flag; [exact Ha3|done|done|intros i Hi; apply elem_of_union_r; by apply Hlow|]. intros st4 Ha4. apply wp_ret.
  destruct (is_1 c) eqn:Ec.
  - eapply HP; [done|done|done|done|exact Hc|]. rewrite Hval, <- Hz. by destruct c.
  - eapply HP; [done|done|done|by eapply keeps_trans|exact Hv|]. rewrite z2x_or, Hval, <- Hz, <- Hzd. symmetry. apply or_z2x.
Qed.
End Cond.
