(* ===== verification/CodegenMain.v ===== *)
(** * CodegenMain: the code of an expression computes its value

    The induction over [draw_eval_vec4] and [draw_eval_condition], and the text they
    print, assembled and run. *)

From Stdlib Require Import String Ascii.
From stdpp Require Import gmap sets relations.
From S2P Require Import Prelude FourState Vector4 Vector4Value Vector4Ops Vector4Arith Vector4Reduce Bits Thread ThreadDiv ThreadSpec ThreadShift.
From S2P Require Import Machine MachineRun EmitWp Codegen CodegenAlloc EmitOps ExprSem CodegenNumber CodegenSpec.
From S2P Require Import CodegenSelect CodegenCond.
Import Bit4.

Open Scope ivl_scope.

Section Main.
Context `{World}.
Variables (nets : symbol -> option nat) (thread_count : nat) (env : nat -> bits).
Hypothesis not_stopped : schedule_stopped = false.
Hypothesis Hsig : signals_ok nets env.
Implicit Types (st : cg) (W U : gset nat) (e : ivl_expr_t).

Local Abbreviation acts := (acts nets thread_count).
Local Abbreviation decides := (decides nets thread_count).
Local Abbreviation gen_ok := (gen_ok nets env).
Local Abbreviation wf := (wf nets env).

(** [fuel] is enough for the value of [e], and for [e] as a condition. *)
Definition vec4_fuel (fuel : nat) e : Prop := (2 * depth e <= fuel)%nat.
Definition condition_fuel (fuel : nat) e : Prop := (2 * depth e + 1 <= fuel)%nat.

Lemma depth_pos e : (0 < depth e)%nat.
Proof. destruct e as [| | | | | | |? ? []]; cbn; lia. Qed.

Lemma draw_step fuel (IHv : forall e, gen_ok e = true -> vec4_fuel fuel e -> part_ok nets thread_count env (draw_eval_vec4 thread_count fuel) e)
    (IHc : forall e, wf e = true -> condition_fuel fuel e -> cond_ok nets thread_count env (draw_eval_condition thread_count fuel) e) e :
  gen_ok e = true -> vec4_fuel (S fuel) e -> part_ok nets thread_count env (draw_eval_vec4 thread_count (S fuel)) e.
Proof.
  intros Hg Hf W U Hroom. unfold vec4_fuel, condition_fuel in *. cbn [draw_eval_vec4].
  assert (Hw : is_zero_replication e = false -> wf e = true) by (intros Hz; unfold ExprSem.wf; by rewrite Hz).
  assert (IHw : forall e', wf e' = true -> (depth e' < depth e)%nat -> part_ok nets thread_count env (draw_eval_vec4 thread_count fuel) e').
  { intros e' He' Hd. apply IHv; [by apply (wf_parts nets env)|lia]. }
  destruct e as [a ds|a text|a sig|a op e1|a op e1 e2|a e1 e2 e3|a rept parms|a e1 [e2|]]; cbn [draw_eval_vec4_ is_zero_replication] in *;
    try specialize (Hw eq_refl).
  - by apply draw_number_ok.
  - by apply draw_string_ok.
  - by apply draw_signal_ok.
  - destruct (wf_unary _ _ _ _ _ Hw) as (H1 & _). eapply draw_unary_ok; [done..|apply IHw; [done|cbn; lia]|exact Hroom].
  - destruct (wf_binary _ _ _ _ _ _ Hw) as (H1 & H2 & Hok). cbn [depth] in IHw, Hf.
    assert (I1 := IHw e1 H1 ltac:(lia)). assert (I2 := IHw e2 H2 ltac:(lia)).
    destruct op; cbn [draw_binary_vec4]; try done;
      first [by eapply draw_arith_ok | by eapply draw_bitwise_ok | by eapply draw_compare_ok | by eapply draw_le_ok | by eapply draw_lrs_ok
        | by eapply draw_limpl_ok | by eapply draw_lequiv_ok | idtac].
    + eapply draw_logical_ok; [done|by left|done|apply IHc; [done|lia]|done|exact Hroom].
    + eapply draw_logical_ok; [done|by right|done|apply IHc; [done|lia]|done|exact Hroom].
    + eapply draw_lrs_ok; [done|exact (draw_eval_condition thread_count fuel)|done|exact Hsig|done|done|done|exact Hroom].
    + eapply draw_lrs_ok; [done|exact (draw_eval_condition thread_count fuel)|done|exact Hsig|done|done|done|exact Hroom].
    + eapply draw_lrs_ok; [done|exact (draw_eval_condition thread_count fuel)|done|exact Hsig|done|done|done|exact Hroom].
  - destruct (wf_ternary _ _ _ _ _ _ Hw) as (H1 & H2 & H3 & _). cbn [depth] in IHw, Hf.
    eapply draw_ternary_ok; [done|done|apply IHc; [done|lia]|apply IHw; [done|lia]|apply IHw; [done|lia]|exact Hroom].
  - destruct (gen_ok_concat _ _ _ _ _ Hg) as (_ & Hgs & _). eapply draw_concat_ok; [..|exact Hroom]; try done.
    rewrite List.Forall_forall in *. intros e' Hin. apply IHv; [by apply Hgs|]. pose proof (max_of_le depth e' parms Hin). cbn [depth] in Hf. lia.
  - destruct (wf_select _ _ _ _ _ Hw) as (H1 & H2 & _). cbn [depth] in IHw. eapply draw_select_ok; [..|exact Hroom]; try done; (apply IHw; [done|lia]).
  - pose proof (wf_pad _ _ _ _ Hw) as H1. cbn [depth] in IHw. eapply draw_select_pad_ok; [..|exact Hroom]; try done. apply IHw; [done|lia].
Qed.

Lemma condition_step fuel (IHv : forall e, gen_ok e = true -> vec4_fuel fuel e -> part_ok nets thread_count env (draw_eval_vec4 thread_count fuel) e)
    (IHc : forall e, wf e = true -> condition_fuel fuel e -> cond_ok nets thread_count env (draw_eval_condition thread_count fuel) e) e :
  wf e = true -> condition_fuel (S fuel) e -> cond_ok nets thread_count env (draw_eval_condition thread_count (S fuel)) e.
Proof.
  intros Hw Hf W U Hroom. unfold vec4_fuel, condition_fuel in *. cbn [draw_eval_condition].
  assert (IHw : forall e', wf e' = true -> (depth e' <= depth e)%nat -> part_ok nets thread_count env (draw_eval_vec4 thread_count fuel) e').
  { intros e' He' Hd. apply IHv; [by apply (wf_parts nets env)|lia]. }
  assert (Hfall : decides (draw_condition_fallback (draw_eval_vec4 thread_count fuel) e) W U (or_all (eval env e))).
  { eapply draw_fallback_ok; [..|exact Hroom]; try done; [exact (draw_eval_condition thread_count fuel)|by apply IHw]. }
  assert (Hless : room W U (depth e) (registers e)) by (eapply room_mono; [| |exact Hroom]; lia).
  destruct e as [a ds|a text|a sig|a op e1|a op e1 e2|a e1 e2 e3|a rept parms|a e1 e2]; try exact Hfall.
  destruct (wf_binary _ _ _ _ _ _ Hw) as (H1 & H2 & _). cbn [depth] in IHw, Hf.
  assert (I1 := IHw e1 H1 ltac:(lia)). assert (I2 := IHw e2 H2 ltac:(lia)).
  destruct op; cbn [draw_eval_condition_]; try exact Hfall;
    first [eapply draw_cond_compare_ok; [..|exact Hless] | eapply draw_cond_le_ok; [..|exact Hless] | eapply draw_cond_lor_ok; [..|exact Hroom]];
    try done; try exact (draw_eval_condition thread_count fuel); try exact (draw_eval_vec4 thread_count fuel); (apply IHc; [done|lia]).
Qed.

Lemma draw_correct fuel :
  (forall e, gen_ok e = true -> vec4_fuel fuel e -> part_ok nets thread_count env (draw_eval_vec4 thread_count fuel) e) /\
  (forall e, wf e = true -> condition_fuel fuel e -> cond_ok nets thread_count env (draw_eval_condition thread_count fuel) e).
Proof.
  induction fuel as [|fuel [IHv IHc]].
  - split; intros e _ Hf; pose proof (depth_pos e); unfold vec4_fuel, condition_fuel in Hf; lia.
  - split; intros e He Hf; [by apply draw_step|by apply condition_step].
Qed.
End Main.

(** ** The text, assembled *)

Section Assembled.
Variables (nets : symbol -> option nat) (thread_count : nat).
Implicit Types (lab : symbol -> option nat) (out pre post : list asm_line).

Lemma compile_text_app lab x y code : compile_text lab nets (x ++ y) = Some code ->
  exists cx cy, code = cx ++ cy /\ compile_text lab nets x = Some cx /\ compile_text lab nets y = Some cy /\ length cx = ninstr x.
Proof.
  revert code. induction x as [|[s|mn o] x IH]; intros code Hc; cbn in *.
  - by exists [], code.
  - apply IH, Hc.
  - destruct (compile_code lab nets mn o) as [c|]; [|done]. cbn in *. destruct (compile_text lab nets (x ++ y)) as [cs|] eqn:E; [|done].
    injection Hc as <-. destruct (IH cs eq_refl) as (cx & cy & -> & -> & -> & Hl). exists (c :: cx), cy. cbn. by rewrite Hl.
Qed.

Lemma compile_text_ok lab L out : Forall (line_ok nets L) out -> (forall s, s ∈ L -> is_Some (lab s)) -> is_Some (compile_text lab nets out).
Proof.
  intros Hf HL. induction Hf as [|[s|mn o] out Hl _ IH]; cbn; [by eexists|done|].
  destruct (Hl lab HL) as [c ->]. destruct IH as [cs ->]. cbn. by eexists.
Qed.

Lemma code_address_some s pc out : s ∈ labels out -> is_Some (code_address pc out s).
Proof.
  revert pc. induction out as [|[l|mn o] out IH]; intros pc; cbn; [by intros ?%not_elem_of_nil| |apply IH].
  intros [->|Hin]%elem_of_cons; [by rewrite decide_True|]. case_decide; [by eexists|by apply IH].
Qed.

(** A fragment whose labels are its own is in place in any text around it. *)
Lemma fragment_placed lab pre out post code : compile_text lab nets (pre ++ out ++ post) = Some code ->
  (forall x s y, out = x ++ AsmLabel s :: y -> lab s = Some (ninstr pre + ninstr x)%nat) -> placed nets lab code (ninstr pre) out.
Proof.
  revert pre. induction out as [|[s|mn o] out IH]; intros pre Hc Hlab; cbn; [done| |].
  - split; [pose proof (Hlab [] s out eq_refl) as E; cbn in E; by rewrite Nat.add_0_r in E|].
    specialize (IH (pre ++ [AsmLabel s])). rewrite ninstr_app in IH. cbn in IH. rewrite Nat.add_0_r in IH. apply IH.
    + by rewrite <- app_assoc.
    + intros x s' y ->. exact (Hlab (AsmLabel s :: x) s' y eq_refl).
  - split.
    + intros c Hcc. apply compile_text_app in Hc as (cx & cy & -> & _ & Hy & Hl). cbn in Hy. rewrite Hcc in Hy. cbn in Hy.
      destruct (compile_text lab nets (out ++ post)); [|done]. injection Hy as <-. by rewrite <- Hl, list_lookup_middle.
    + specialize (IH (pre ++ [AsmCode mn o])). rewrite ninstr_app in IH. cbn in IH. rewrite Nat.add_1_r in IH. apply IH.
      * by rewrite <- app_assoc.
      * intros x s' y ->. rewrite (Hlab (AsmCode mn o :: x) s' y eq_refl). cbn. f_equal. lia.
Qed.

Lemma own_labels pre x s y post : NoDup (labels (x ++ AsmLabel s :: y)) -> s ∉ labels pre ->
  code_address 0 (pre ++ (x ++ AsmLabel s :: y) ++ post) s = Some (ninstr pre + ninstr x)%nat.
Proof.
  intros Hn Hp. rewrite labels_app in Hn. cbn in Hn. apply list.NoDup_app in Hn as (_ & Hx & _). rewrite <- app_assoc, app_assoc. cbn.
  rewrite code_address_at; [by rewrite ninstr_app|]. rewrite labels_app, elem_of_app. intros [Hin|Hin]; [done|].
  apply (Hx s Hin). by apply elem_of_cons; left.
Qed.

Lemma NoDup_fresh lo hi : NoDup (fresh thread_count lo hi).
Proof. unfold fresh. apply NoDup_fmap_2; [intros x y E; by injection E|]. apply NoDup_seq. Qed.

(** A complete fragment assembles on its own. *)
Lemma fragment_assembles lo out hi : frag nets thread_count [] lo out [] hi ->
  is_Some (assemble nets out) /\ NoDup (labels out) /\ (forall s, s ∈ labels out -> exists n, s = SymCode thread_count n /\ (lo <= n < hi)%nat).
Proof.
  intros [Hle Hl Hf]. rewrite app_nil_r in Hl. cbn [app] in *. split; [|split].
  - eapply compile_text_ok; [exact Hf|]. intros s Hs. apply code_address_some. by rewrite Hl.
  - rewrite Hl. apply NoDup_fresh.
  - intros s. rewrite Hl. unfold fresh. intros (n & -> & Hn)%list_elem_of_fmap. exists n. split; [done|]. apply elem_of_seq in Hn. lia.
Qed.
End Assembled.

(** C4. The code generator of expressions is correct.  For a well-formed expression,
    with registers and flags enough, [draw_eval_vec4] succeeds and gives back the
    registers and flags that it allocates; the text it prints assembles, and uses
    each of the labels it has numbered once.  Placed anywhere in a text that does not
    have those labels, a thread that enters the code comes to its end, with the value
    of the expression pushed on its stack, the rest of the stack as it was, and the
    words and flags that were in use unchanged. *)
Theorem compile_expr_correct `{World} nets thread_count env fuel e st W U :
  schedule_stopped = false -> signals_ok nets env -> wf nets env e = true -> vec4_fuel fuel e ->
  alloc st W U -> room W U (depth e) (registers e) ->
  exists st' out code, draw_eval_vec4 thread_count fuel e st = Done tt st' out /\ alloc st' W U /\
    assemble nets out = Some code /\ NoDup (labels out) /\
    (forall s, s ∈ labels out -> exists n, s = SymCode thread_count n /\ (local_count st <= n < local_count st')%nat) /\
    forall pre post text fl ws ls thr, assemble nets (pre ++ out ++ post) = Some text -> (forall s, s ∈ labels out -> s ∉ labels pre) ->
      state_ok (Abs fl ws ls) -> represents thr (Abs fl ws ls) -> pc thr = ninstr pre ->
      exists thr' fl' ws', rtc (one_step text) thr thr' /\ pc thr' = (ninstr pre + ninstr out)%nat /\
        represents thr' (Abs fl' ws' (eval env e :: ls)) /\ keeps W U fl ws fl' ws'.
Proof.
  intros Hstop Hs Hw Hf Ha Hroom.
  pose proof (proj1 (draw_correct nets thread_count env Hstop Hs fuel) e (proj1 (wf_parts nets env e Hw)) Hf W U Hroom) as Hm.
  destruct (acts_run nets thread_count _ W U [] [eval env e] [] st _ _ [] Hm Ha (state_with_ok [] (List.Forall_nil _)))
    as (st' & out & _ & _ & E & F & _ & Ha' & _).
  destruct (fragment_assembles nets thread_count _ out _ F) as ([code Hcode] & Hn & Hlab).
  exists st', out, code. split; [done|]. split; [done|]. split; [done|]. split; [done|]. split; [done|].
  intros pre post text fl ws ls thr Ht Hpre Hok R Hpc.
  destruct (acts_run nets thread_count _ W U [] [eval env e] [] st fl ws ls Hm Ha Hok) as (st2 & out2 & fl' & ws' & E2 & _ & Hrun & _ & K).
  rewrite E in E2. injection E2 as <- <-. destruct (Hrun Hok) as [_ Hreach].
  assert (Hplaced : placed nets (code_address 0 (pre ++ out ++ post)) text (ninstr pre) out).
  { apply (fragment_placed _ _ _ _ post); [exact Ht|]. intros x s y ->. apply own_labels; [done|]. apply Hpre. rewrite labels_app. set_solver. }
  destruct (Hreach _ _ _ Hplaced Hok thr R Hpc) as (thr' & Hsteps & Hpc' & R' & _). by exists thr', fl', ws'.
Qed.

(** Two signals of eight bits, in an empty design; what follows looks at them in
    [(a + 3) * (a > b || b == 3 ? a : b << abs(a))]. *)
Module Sample.
Definition world : World := {| schedule_stopped := false;
  sig_vec4_value := fun n => match n with 0%nat => Some (vec4_of_Z 8 5) | 1%nat => Some (vec4_of_Z 8 6) | _ => None end |}.
Definition nets (s : symbol) : option nat := match s with SymNet 0 _ => Some 0%nat | SymNet 1 _ => Some 1%nat | _ => None end.
Definition env (sig : nat) : bits := bits_of (match sig with 0%nat => vec4_of_Z 8 5 | _ => vec4_of_Z 8 6 end).
Definition at8 : ivl_attr := Attr IVL_VT_LOGIC 8 false.
Definition at1 : ivl_attr := Attr IVL_VT_LOGIC 1 false.
Definition sig_a : ivl_expr_t := IVL_EX_SIGNAL at8 0.
Definition sig_b : ivl_expr_t := IVL_EX_SIGNAL at8 1.
Definition three : ivl_expr_t := IVL_EX_NUMBER at8 (list_ascii_of_string "11000000").
Definition condition : ivl_expr_t := IVL_EX_BINARY at1 B_lor (IVL_EX_BINARY at1 B_gt sig_a sig_b) (IVL_EX_BINARY at1 B_eq sig_b three).
Definition expression : ivl_expr_t := IVL_EX_BINARY at8 B_mul (IVL_EX_BINARY at8 B_add sig_a three)
  (IVL_EX_TERNARY at8 condition sig_a (IVL_EX_BINARY at8 B_shl sig_b (IVL_EX_UNARY at8 U_abs sig_a))).

Lemma signals : @signals_ok world nets env.
Proof.
  intros [|[|sig]] [n Hn]; cbn in Hn; [injection Hn as <-..|done]; (eexists _, _; split; [reflexivity|]; split; [reflexivity|]);
    apply vec_is_bits_of, vec_wf_dec_bool; by vm_compute.
Qed.

Lemma reserved d r : (8 + d <= FLAGS_COUNT)%nat -> (4 + r <= WORD_COUNT)%nat -> room (set_seq 0 4) (set_seq 0 8) d r.
Proof. intros ? ?. split; by rewrite size_set_seq. Qed.
End Sample.

Lemma compile_expr_correct_witness :
  exists st' out code, draw_eval_vec4 0 20 Sample.expression cg_init = Done tt st' out /\ alloc st' (set_seq 0 4) (set_seq 0 8) /\
    assemble Sample.nets out = Some code /\ NoDup (labels out) /\
    (forall s, s ∈ labels out -> exists n, s = SymCode 0 n /\ (0 <= n < local_count st')%nat) /\
    forall pre post text fl ws ls thr, assemble Sample.nets (pre ++ out ++ post) = Some text -> (forall s, s ∈ labels out -> s ∉ labels pre) ->
      state_ok (Abs fl ws ls) -> represents thr (Abs fl ws ls) -> pc thr = ninstr pre ->
      exists thr' fl' ws', rtc (@one_step Sample.world text) thr thr' /\ pc thr' = (ninstr pre + ninstr out)%nat /\
        represents thr' (Abs fl' ws' (eval Sample.env Sample.expression :: ls)) /\ keeps (set_seq 0 4) (set_seq 0 8) fl ws fl' ws'.
Proof.
  apply (@compile_expr_correct Sample.world Sample.nets 0 Sample.env 20 Sample.expression cg_init (set_seq 0 4) (set_seq 0 8)).
  - reflexivity.
  - exact Sample.signals.
  - vm_compute. reflexivity.
  - apply Nat.leb_le. vm_compute. reflexivity.
  - exact alloc_init.
  - apply Sample.reserved; apply Nat.leb_le; vm_compute; reflexivity.
Defined.
