(* ===== verification/Signal.v ===== *)
(** * Signal: variables and nets of vectors (vvp/vvp_net_sig.cc, vvp/vvp_net.cc, vvp/vvp_net.h)

    A variable is a [vvp_net_t] with a functor [vvp_fun_signal4_sa], which holds the
    value that was assigned, and a filter [vvp_wire_vec4], which lays the forced bits
    over it.  An operation returns the new node and what it does to the rest of the
    design, in order; [None] is a failed assertion. *)

From S2P Require Import Prelude FourState Vector4 Vector4Ops Vector2.
Import Bit4.

Open Scope ivl_scope.

(** ** The node *)

Record vvp_fun_signal4_sa : Type := FunSignal {
  bits4_ : vvp_vector4_t;
  assign_mask_ : vvp_vector2_t;
  needs_init_ : bool;
}.

Record vvp_wire_vec4 : Type := Wire {
  wire_needs_init_ : bool;
  wire_bits4_ : vvp_vector4_t;
  force4_ : vvp_vector4_t;
  force_mask_ : vvp_vector2_t;
  force_propagate_ : bool;
}.

Record vvp_net_t : Type := Net {
  fun_ : vvp_fun_signal4_sa;
  fil : vvp_wire_vec4;
}.

(** What leaves the node: [run_vpi_callbacks()], and the values sent to [out_]. *)
Inductive sent : Type :=
  | Callbacks
  | SendVec4 (val : vvp_vector4_t)
  | SendVec4Pv (val : vvp_vector4_t) (base vwid : nat).

Definition result : Type := option (vvp_net_t * list sent).

(** [compile_variable]: the filter has the initial value, the functor is x. *)
Definition new_variable (wid : nat) (init : vvp_bit4_t) : vvp_net_t :=
  Net (FunSignal (vec4_fill wid BIT4_X) vec2_null true)
      (Wire true (vec4_fill wid init) (vec4_fill 0 BIT4_X) vec2_null false).

Definition with_bits (f : vvp_fun_signal4_sa) (b : vvp_vector4_t) : vvp_fun_signal4_sa := FunSignal b (assign_mask_ f) (needs_init_ f).
Definition with_assign_mask (f : vvp_fun_signal4_sa) (m : vvp_vector2_t) : vvp_fun_signal4_sa := FunSignal (bits4_ f) m (needs_init_ f).
Definition initialised (f : vvp_fun_signal4_sa) : vvp_fun_signal4_sa := FunSignal (bits4_ f) (assign_mask_ f) false.

(** ** The filter *)

Definition test_force_mask (w : vvp_wire_vec4) (bit : nat) : bool :=
  if (wid_ (force_mask_ w) <=? bit)%nat then false else vec2_value (force_mask_ w) bit.

Definition test_force_mask_is_zero (w : vvp_wire_vec4) : bool :=
  (wid_ (force_mask_ w) =? 0)%nat || vec2_is_zero (force_mask_ w).

Definition filtered_value_ (w : vvp_wire_vec4) (idx : nat) : vvp_bit4_t :=
  if test_force_mask w idx then value (force4_ w) idx else value (wire_bits4_ w) idx.

Definition vec4_value (w : vvp_wire_vec4) : vvp_vector4_t :=
  let val := wire_bits4_ w in
  if test_force_mask_is_zero w then val
  else for_loop (size val) 0 (fun idx val => set_bit val idx (filtered_value_ w idx)) val.

(** [mask.set_bit(base+idx, bit)] for [idx < wid]. *)
Definition mask_range (mask : vvp_vector2_t) (base wid : nat) (bit : bool) : option vvp_vector2_t :=
  for_loop wid 0 (fun idx m => m ← m; vec2_set_bit m (base + idx) bit) (Some mask).

(** [vvp_net_fil_t::force_mask] *)
Definition force_mask (w : vvp_wire_vec4) (mask : vvp_vector2_t) : option vvp_wire_vec4 :=
  let m := if (wid_ (force_mask_ w) =? 0)%nat then vec2_fill false (wid_ mask) else force_mask_ w in
  if (wid_ m =? wid_ mask)%nat then
    '(m, propagate) ← for_loop (wid_ mask) 0 (fun idx s => s ← s;
      if vec2_value mask idx then m ← vec2_set_bit (fst s) idx true; Some (m, true) else Some s) (Some (m, force_propagate_ w));
    Some (Wire (wire_needs_init_ w) (wire_bits4_ w) (force4_ w) m propagate)
  else None.

(** [vvp_net_fil_t::release_mask] *)
Definition release_mask (w : vvp_wire_vec4) (mask : vvp_vector2_t) : option vvp_wire_vec4 :=
  if (wid_ (force_mask_ w) =? 0)%nat then Some w
  else if (wid_ (force_mask_ w) =? wid_ mask)%nat then
    m ← for_loop (wid_ mask) 0 (fun idx m => m ← m; if vec2_value mask idx then vec2_set_bit m idx false else Some m) (Some (force_mask_ w));
    let m := if vec2_is_zero m then vec2_null else m in
    Some (Wire (wire_needs_init_ w) (wire_bits4_ w) (force4_ w) m (force_propagate_ w))
  else None.

Inductive prop_t : Type := STOP | PROP | REPL (rep : vvp_vector4_t).

(** [filter_mask_(val, force4_, rep, base)]; what it returns and what it calls. *)
Definition filter_mask_ (w : vvp_wire_vec4) (val : vvp_vector4_t) (base : nat) : option (vvp_wire_vec4 * prop_t * list sent) :=
  if test_force_mask_is_zero w then Some (w, PROP, [Callbacks])
  else
    let w' := Wire (wire_needs_init_ w) (wire_bits4_ w) (force4_ w) (force_mask_ w) false in
    if (wid_ (force_mask_ w) =? size (force4_ w))%nat && (base + size val <=? wid_ (force_mask_ w))%nat then
      let '(filter, propagate_flag) := for_loop (size val) 0 (fun idx '(filter, flag) =>
        if vec2_value (force_mask_ w) (base + idx) then (set_bit filter idx (value (force4_ w) (base + idx)), flag)
        else (filter, true)) (val, force_propagate_ w) in
      if propagate_flag then Some (w', REPL filter, [Callbacks]) else Some (w', STOP, [])
    else None.

(** [bits4_ = b; needs_init_ = false;] *)
Definition drive (w : vvp_wire_vec4) (b : vvp_vector4_t) : vvp_wire_vec4 :=
  Wire false b (force4_ w) (force_mask_ w) (force_propagate_ w).

(** [vvp_wire_vec4::filter_vec4] *)
Definition filter_vec4 (w : vvp_wire_vec4) (bit : vvp_vector4_t) (base vwid : nat) : option (vvp_wire_vec4 * prop_t * list sent) :=
  if (base =? 0)%nat && (vwid =? 0)%nat then
    let tmp := vec4_fill (size (wire_bits4_ w)) BIT4_X in
    if eeq (wire_bits4_ w) tmp && negb (wire_needs_init_ w) then Some (w, STOP, [])
    else filter_mask_ (drive w tmp) tmp 0
  else if (size (wire_bits4_ w) =? vwid)%nat then
    if (base =? 0)%nat && (size bit =? vwid)%nat then
      if eeq (wire_bits4_ w) bit && negb (wire_needs_init_ w) then Some (w, STOP, [])
      else filter_mask_ (drive w bit) bit base
    else
      '(b, rc) ← set_vec (wire_bits4_ w) base bit;
      if negb rc && negb (wire_needs_init_ w) then Some (w, STOP, [])
      else filter_mask_ (drive w b) bit base
  else None.

(** ** Values leave the node *)

(** [vvp_net_t::send_vec4] *)
Definition send_vec4 (n : vvp_net_t) (val : vvp_vector4_t) : result :=
  '(w, r, out) ← filter_vec4 (fil n) val 0 (size val);
  Some (Net (fun_ n) w, out ++ match r with STOP => [] | PROP => [SendVec4 val] | REPL rep => [SendVec4 rep] end).

(** [vvp_net_t::send_vec4_pv] *)
Definition send_vec4_pv (n : vvp_net_t) (val : vvp_vector4_t) (base vwid : nat) : result :=
  '(w, r, out) ← filter_vec4 (fil n) val base vwid;
  Some (Net (fun_ n) w, out ++ match r with STOP => [] | PROP => [SendVec4Pv val base vwid] | REPL rep => [SendVec4Pv rep base vwid] end).

(** ** Values arrive at the functor *)

Definition coerce_to_width (that : vvp_vector4_t) (width : nat) : option vvp_vector4_t :=
  if (size that =? width)%nat then Some that
  else if (width <? size that)%nat then
    Some (for_loop width 0 (fun idx res => set_bit res idx (value that idx)) (vec4_fill width BIT4_X))
  else None.

(** The bits of [bit] at [base] that the mask does not hold, and whether there are any. *)
Definition store_unassigned (f : vvp_fun_signal4_sa) (bit : vvp_vector4_t) (base : nat) : vvp_vector4_t * bool :=
  for_loop (size bit) 0 (fun idx '(b, changed) =>
    if (size b <=? base + idx)%nat then (b, changed)
    else if vec2_value (assign_mask_ f) (base + idx) then (b, changed)
    else (set_bit b (base + idx) (value bit idx), true)) (bits4_ f, false).

(** [vvp_fun_signal4_sa::recv_vec4] *)
Definition recv_vec4 (n : vvp_net_t) (port : nat) (bit : vvp_vector4_t) : result :=
  let f := fun_ n in
  match port with
  | 0%nat =>
    if (wid_ (assign_mask_ f) =? 0)%nat then
      if needs_init_ f || negb (eeq (bits4_ f) bit) then
        if (size bit =? size (bits4_ f))%nat then send_vec4 (Net (initialised (with_bits f bit)) (fil n)) bit else None
      else Some (n, [])
    else if (size (bits4_ f) =? wid_ (assign_mask_ f))%nat then
      let '(b, changed) := store_unassigned f bit 0 in
      if changed then send_vec4 (Net (initialised (with_bits f b)) (fil n)) b else Some (Net (with_bits f b) (fil n), [])
    else None
  | 1%nat =>
    b ← coerce_to_width bit (size (bits4_ f));
    send_vec4 (Net (with_assign_mask (with_bits f b) (vec2_fill true (size b))) (fil n)) b
  | _ => None
  end.

(** [vvp_fun_signal4_sa::recv_vec4_pv] *)
Definition recv_vec4_pv (n : vvp_net_t) (port : nat) (bit : vvp_vector4_t) (base vwid : nat) : result :=
  let f := fun_ n in
  if (size (bits4_ f) =? vwid)%nat then
    match port with
    | 0%nat =>
      if (wid_ (assign_mask_ f) =? 0)%nat then
        let b := for_loop (size bit) 0 (fun idx b =>
          if (size b <=? base + idx)%nat then b else set_bit b (base + idx) (value bit idx)) (bits4_ f) in
        send_vec4 (Net (initialised (with_bits f b)) (fil n)) b
      else if (size (bits4_ f) =? wid_ (assign_mask_ f))%nat then
        let '(b, changed) := store_unassigned f bit base in
        if changed then send_vec4 (Net (initialised (with_bits f b)) (fil n)) b else Some (Net (with_bits f b) (fil n), [])
      else None
    | 1%nat =>
      let m := if (wid_ (assign_mask_ f) =? 0)%nat then vec2_fill false (size (bits4_ f)) else assign_mask_ f in
      '(b, m) ← for_loop (size bit) 0 (fun idx s => s ← s;
        let '(b, m) := s in
        if (size b <=? base + idx)%nat then Some (b, m)
        else m ← vec2_set_bit m (base + idx) true; Some (set_bit b (base + idx) (value bit idx), m)) (Some (bits4_ f, m));
      send_vec4 (Net (with_assign_mask (with_bits f b) m) (fil n)) b
    | _ => None
    end
  else None.

(** [vvp_fun_signal_base::deassign] *)
Definition deassign (n : vvp_net_t) : vvp_net_t := Net (with_assign_mask (fun_ n) vec2_null) (fil n).

(** [vvp_fun_signal_base::deassign_pv] *)
Definition deassign_pv (n : vvp_net_t) (base wid : nat) : option vvp_net_t :=
  m ← mask_range (assign_mask_ (fun_ n)) base wid false;
  let m := if vec2_is_zero m then vec2_null else m in
  Some (Net (with_assign_mask (fun_ n) m) (fil n)).

(** ** Force and release *)

(** [vvp_wire_vec4::force_fil_vec4] *)
Definition force_fil_vec4 (w : vvp_wire_vec4) (val : vvp_vector4_t) (mask : vvp_vector2_t) : option (vvp_wire_vec4 * list sent) :=
  w ← force_mask w mask;
  let force4 :=
    if (size (force4_ w) =? 0)%nat then val
    else for_loop (wid_ mask) 0 (fun idx b => if vec2_value mask idx then set_bit b idx (value val idx) else b) (force4_ w) in
  Some (Wire (wire_needs_init_ w) (wire_bits4_ w) force4 (force_mask_ w) (force_propagate_ w), [Callbacks]).

(** [vvp_net_t::force_vec4]; [force_flag] does nothing for this functor. *)
Definition force_vec4 (n : vvp_net_t) (val : vvp_vector4_t) (mask : vvp_vector2_t) : result :=
  '(w, out) ← force_fil_vec4 (fil n) val mask;
  Some (Net (fun_ n) w, out ++ [SendVec4 val]).

Definition with_needs_init (w : vvp_wire_vec4) (b : bool) : vvp_wire_vec4 :=
  Wire b (wire_bits4_ w) (force4_ w) (force_mask_ w) (force_propagate_ w).

(** The bits [base .. base+wid-1] as they are seen. *)
Definition seen_bits (w : vvp_wire_vec4) (base wid : nat) : vvp_vector4_t :=
  for_loop wid 0 (fun idx res => set_bit res idx (filtered_value_ w (base + idx))) (vec4_fill wid BIT4_X).

(** [vvp_wire_vec4::release] *)
Definition release (n : vvp_net_t) (net_flag : bool) : result :=
  let wid := size (wire_bits4_ (fil n)) in
  let mask := vec2_fill true wid in
  if net_flag then
    w ← release_mask (fil n) mask;
    '(n, out) ← send_vec4 (Net (fun_ n) (with_needs_init w (negb (eeq (force4_ w) (wire_bits4_ w))))) (wire_bits4_ w);
    Some (n, out ++ [Callbacks])
  else
    let res := seen_bits (fil n) 0 wid in
    w ← release_mask (fil n) mask;
    recv_vec4 (Net (fun_ n) w) 0 res.

(** [vvp_wire_vec4::release_pv] *)
Definition release_pv (n : vvp_net_t) (base wid : nat) (net_flag : bool) : result :=
  let vwid := size (wire_bits4_ (fil n)) in
  if (base + wid <=? vwid)%nat then
    mask ← mask_range (vec2_fill false vwid) base wid true;
    if net_flag then
      w ← release_mask (fil n) mask;
      let part := subvalue (wire_bits4_ w) base wid in
      '(n, out) ← send_vec4_pv (Net (fun_ n) (with_needs_init w (negb (eeq (subvalue (force4_ w) base wid) part)))) part base vwid;
      Some (n, out ++ [Callbacks])
    else
      let res := seen_bits (fil n) base wid in
      w ← release_mask (fil n) mask;
      recv_vec4_pv (Net (fun_ n) w) 0 res base vwid
  else None.
