(* ===== verification/SignalSpec.v ===== *)
(** * SignalSpec: what assignment, force and release do to a signal

    A signal is, bit by bit, the value last assigned ([cur]), whether a procedural
    continuous assignment holds the bit ([asn]) and the value it is forced to
    ([frc]).  The operations of Signal refine those of this abstract signal; what
    the fan-out of the node received is what is seen of it. *)

From S2P Require Import Prelude FourState Vector4 Vector4Value Vector4Ops Vector4Parts Vector4Reduce Vector2 Vector2Value Signal.
Import Bit4.

Open Scope ivl_scope.

(** ** The abstract signal *)

Record asig : Type := ASig {
  cur : nat -> vvp_bit4_t;
  asn : nat -> bool;
  frc : nat -> option vvp_bit4_t;
}.

Definition seen (A : asig) (i : nat) : vvp_bit4_t := default (cur A i) (frc A i).

(** [f] in the range, [g] outside of it. *)
Definition over {X} (base wid : nat) (f g : nat -> X) (i : nat) : X :=
  if (base <=? i)%nat && (i <? base + wid)%nat then f i else g i.

Definition a_assign (base wid : nat) (v : nat -> vvp_bit4_t) (A : asig) : asig :=
  ASig (over base wid (fun i => if asn A i then cur A i else v (i - base)%nat) (cur A)) (asn A) (frc A).
Definition a_cassign (base wid : nat) (v : nat -> vvp_bit4_t) (A : asig) : asig :=
  ASig (over base wid (fun i => v (i - base)%nat) (cur A)) (over base wid (fun _ => true) (asn A)) (frc A).
Definition a_deassign (base wid : nat) (A : asig) : asig :=
  ASig (cur A) (over base wid (fun _ => false) (asn A)) (frc A).
Definition a_force (m : nat -> bool) (v : nat -> vvp_bit4_t) (A : asig) : asig :=
  ASig (cur A) (asn A) (fun i => if m i then Some (v i) else frc A i).

(** A net has its driven value again, a variable keeps what was forced. *)
Definition a_release (net_flag : bool) (base wid : nat) (A : asig) : asig :=
  let A' := ASig (cur A) (asn A) (over base wid (fun _ => None) (frc A)) in
  if net_flag then A' else a_assign base wid (fun k => seen A (base + k)) A'.

(** What the receivers have got, after they had [o]. *)
Definition deliver1 (o : nat -> vvp_bit4_t) (x : sent) : nat -> vvp_bit4_t :=
  match x with
  | Callbacks => o
  | SendVec4 v => value v
  | SendVec4Pv v base _ => over base (size v) (fun i => value v (i - base)%nat) o
  end.
Definition deliver (o : nat -> vvp_bit4_t) (out : list sent) : nat -> vvp_bit4_t := fold_left deliver1 out o.

(** ** The relation *)

Definition mask_ok (n : nat) (m : vvp_vector2_t) : Prop := vec2_wf m /\ (wid_ m = 0%nat \/ wid_ m = n).

Record wire_is (n : nat) (w : vvp_wire_vec4) (c : nat -> vvp_bit4_t) (f : nat -> option vvp_bit4_t) : Prop := WireIs {
  wire_wf : vec_wf (wire_bits4_ w);
  wire_size : size (wire_bits4_ w) = n;
  wire_cur : forall i, (i < n)%nat -> value (wire_bits4_ w) i = c i;
  wire_mask : mask_ok n (force_mask_ w);
  wire_force_wf : vec_wf (force4_ w);
  wire_force_size : size (force4_ w) = n \/ size (force4_ w) = 0%nat /\ wid_ (force_mask_ w) = 0%nat;
  wire_frc : forall i, (i < n)%nat -> f i = if vec2_value (force_mask_ w) i then Some (value (force4_ w) i) else None;
}.

Record signal_is (n : nat) (s : vvp_net_t) (A : asig) : Prop := SignalIs {
  sig_pos : (0 < n)%nat;
  sig_wf : vec_wf (bits4_ (fun_ s));
  sig_size : size (bits4_ (fun_ s)) = n;
  sig_cur : forall i, (i < n)%nat -> value (bits4_ (fun_ s)) i = cur A i;
  sig_mask : mask_ok n (assign_mask_ (fun_ s));
  sig_asn : forall i, (i < n)%nat -> vec2_value (assign_mask_ (fun_ s)) i = asn A i;
  sig_wire : wire_is n (fil s) (cur A) (frc A);
}.

(** The receivers have what is seen. *)
Definition coherent (n : nat) (o : nat -> vvp_bit4_t) (A : asig) : Prop := forall i, (i < n)%nat -> o i = seen A i.

(** ** Masks *)

Lemma vec2_value_beyond m i : (wid_ m <= i)%nat -> vec2_value m i = false.
Proof. intros Hi. unfold vec2_value. by rewrite (proj2 (Nat.leb_le _ _)). Qed.

Lemma null_value i : vec2_value vec2_null i = false.
Proof. apply vec2_value_beyond. cbn. lia. Qed.

Lemma null_ok n : mask_ok n vec2_null.
Proof. split; [|by left]. split; [unfold word_count; cbn; lia|constructor]. Qed.

(** The words of a two-state vector are a plane of all of their bits. *)
Lemma mask_plane m : vec2_wf m -> (0 < wid_ m)%nat -> plane_wf (length (vec_ m) * 64) (vec_ m).
Proof.
  intros [Hl Hw] Hp. split; [|done]. pose proof (word_count_pos _ Hp). unfold storage, is_long, word_count, BITS_PER_WORD.
  destruct (Nat.ltb_spec 64 (length (vec_ m) * 64)); [|lia].
  replace (length (vec_ m) * 64 + 64 - 1)%nat with (63 + length (vec_ m) * 64)%nat by lia. rewrite Nat.div_add by done. done.
Qed.

Lemma vec2_set_bit_spec m idx b : vec2_wf m -> (idx < wid_ m)%nat ->
  exists m', vec2_set_bit m idx b = Some m' /\ vec2_wf m' /\ wid_ m' = wid_ m /\
    forall i, vec2_value m' i = if (i =? idx)%nat then b else vec2_value m i.
Proof.
  intros Hm Hi. pose proof (mask_plane m Hm ltac:(lia)) as Hp. destruct Hm as [Hl Hw].
  pose proof (word_count_bounds (wid_ m)) as [_ Hc]. unfold vec2_set_bit. rewrite (proj2 (Nat.ltb_lt _ _)) by done.
  exists (Vec2 (plane_set (vec_ m) idx b) (wid_ m)). split; [by destruct b|]. split; [|split; [done|]].
  - destruct (plane_set_wf _ _ idx b Hp) as [_ Hw']. split; [|done]. cbn [vec_ wid_]. unfold plane_set. by rewrite insert_length.
  - intros i. rewrite !vec2_value_spec. cbn [vec_ wid_]. rewrite (pbit_plane_set _ _ _ _ _ Hp) by lia.
    destruct (Nat.ltb_spec i (wid_ m)), (Nat.eqb_spec i idx); (done || lia).
Qed.

(** ** Loops over a range of bits *)

Lemma over_in {X} base wid (f g : nat -> X) i : (base <= i < base + wid)%nat -> over base wid f g i = f i.
Proof. intros [H1 H2]. unfold over. by rewrite (proj2 (Nat.leb_le _ _)), (proj2 (Nat.ltb_lt _ _)). Qed.

Lemma over_out {X} base wid (f g : nat -> X) i : (i < base \/ base + wid <= i)%nat -> over base wid f g i = g i.
Proof. intros H. unfold over. destruct (Nat.leb_spec base i), (Nat.ltb_spec i (base + wid)); (done || lia). Qed.

Lemma over_S {X} base k (f g : nat -> X) i : over base (S k) f g i = if (i =? base + k)%nat then f i else over base k f g i.
Proof.
  unfold over. destruct (Nat.leb_spec base i), (Nat.ltb_spec i (base + S k)), (Nat.ltb_spec i (base + k)), (Nat.eqb_spec i (base + k)); (done || lia).
Qed.

(** [b] is [v] with the bits of [f] in the range. *)
Record stored (base k : nat) (f : nat -> vvp_bit4_t) (v b : vvp_vector4_t) : Prop := Stored {
  st_wf : vec_wf b;
  st_size : size b = size v;
  st_bits : forall i, value b i = over base k f (value v) i;
}.

Lemma stored_0 base f v : vec_wf v -> stored base 0 f v v.
Proof. intros W. constructor; [done|done|]. intros i. rewrite over_out by lia. done. Qed.

Lemma stored_set base k f v b c : stored base k f v b -> (base + k < size v)%nat -> c = f (base + k)%nat ->
  stored base (S k) f v (set_bit b (base + k) c).
Proof.
  intros [W S B] Hk ->. constructor; [by apply set_bit_wf; [|rewrite S]|by rewrite set_bit_size|].
  intros i. rewrite set_bit_value by (by rewrite ?S). rewrite over_S, B. destruct (Nat.eqb_spec i (base + k)); congruence.
Qed.

Lemma stored_skip base k f v b : stored base k f v b -> f (base + k)%nat = value v (base + k) -> stored base (S k) f v b.
Proof.
  intros [W S B] Hk. constructor; [done|done|]. intros i. rewrite over_S, B. destruct (Nat.eqb_spec i (base + k)); [|done].
  subst. by rewrite over_out by lia.
Qed.

(** A loop that stores each bit of the range, or leaves a bit that has its value. *)
Lemma stored_loop base n f v (body : nat -> vvp_vector4_t -> vvp_vector4_t) : vec_wf v ->
  (forall k b, (k < n)%nat -> stored base k f v b ->
     (body k b = set_bit b (base + k) (f (base + k)%nat) /\ (base + k < size v)%nat) \/ (body k b = b /\ f (base + k)%nat = value v (base + k))) ->
  stored base n f v (for_loop n 0 body v).
Proof.
  intros W Hb. apply (for_loop_ind (fun k b => stored base k f v b) n 0); [by apply stored_0|]. intros k b Hk Hs.
  destruct (Hb k b ltac:(lia) Hs) as [[-> H]|[-> H]]; [by apply stored_set|by apply stored_skip].
Qed.

(** The same for a mask. *)
Record marked (base k : nat) (f : nat -> bool) (m m' : vvp_vector2_t) : Prop := Marked {
  mk_wf : vec2_wf m';
  mk_wid : wid_ m' = wid_ m;
  mk_bits : forall i, vec2_value m' i = over base k f (vec2_value m) i;
}.

Lemma marked_0 base f m : vec2_wf m -> marked base 0 f m m.
Proof. intros W. constructor; [done|done|]. intros i. rewrite over_out by lia. done. Qed.

Lemma marked_set base k f m b : marked base k f m b -> (base + k < wid_ m)%nat ->
  exists b', vec2_set_bit b (base + k) (f (base + k)%nat) = Some b' /\ marked base (S k) f m b'.
Proof.
  intros [W S B] Hk. destruct (vec2_set_bit_spec b (base + k) (f (base + k)%nat) W) as (b' & E & W' & S' & V); [lia|].
  exists b'. split; [done|]. constructor; [done|congruence|]. intros i. rewrite V, over_S, B. destruct (Nat.eqb_spec i (base + k)); congruence.
Qed.

Lemma marked_skip base k f m b : marked base k f m b -> f (base + k)%nat = vec2_value m (base + k) -> marked base (S k) f m b.
Proof.
  intros [W S B] Hk. constructor; [done|done|]. intros i. rewrite over_S, B. destruct (Nat.eqb_spec i (base + k)); [|done].
  subst. by rewrite over_out by lia.
Qed.

Lemma mask_range_spec m base wid b : vec2_wf m -> (base + wid <= wid_ m)%nat ->
  exists m', mask_range m base wid b = Some m' /\ marked base wid (fun _ => b) m m'.
Proof.
  intros W Hw. unfold mask_range. apply (for_loop_ind (fun k s => exists m', s = Some m' /\ marked base k (fun _ => b) m m') wid 0).
  - exists m. split; [done|by apply marked_0].
  - intros k s Hk (m' & -> & Hm). cbn. destruct (marked_set base k (fun _ => b) m m' Hm) as (m2 & E & Hm2); [lia|]. exists m2. by rewrite E.
Qed.

Lemma vec2_fill_wf b n : vec2_wf (vec2_fill b n).
Proof. split; cbn [vec_ wid_ vec2_fill]; [by rewrite length_replicate|]. apply replicate_words. by destruct b. Qed.

Lemma vec2_fill_value b n i : (i < n)%nat -> vec2_value (vec2_fill b n) i = b.
Proof.
  intros Hi. rewrite vec2_value_spec. cbn [vec_ wid_ vec2_fill]. rewrite (proj2 (Nat.ltb_lt _ _)) by done. cbn [andb]. unfold pbit.
  destruct (div64 i) as [Hd Hm]. pose proof (word_count_bounds n) as [_ Hc]. rewrite word_at_replicate by nia.
  destruct b; [|apply Z.bits_0]. rewrite ones64_bit by lia. by rewrite (proj2 (Z.ltb_lt _ _)) by lia.
Qed.

(** A mask without a word that is not 0 has no bit. *)
Lemma zero_mask m i : vec2_is_zero m = true -> vec2_value m i = false.
Proof.
  unfold vec2_is_zero. rewrite forallb_forall. intros Hz. rewrite vec2_value_spec. destruct (Nat.ltb_spec i (wid_ m)) as [Hi|]; [|done].
  cbn [andb]. unfold pbit. rewrite (proj1 (Z.eqb_eq _ _) (Hz (i / BITS_PER_WORD)%nat ltac:(apply in_seq; destruct (div64 i); pose proof (word_count_bounds (wid_ m)); nia))).
  apply Z.bits_0.
Qed.

(** ** The filter *)

Lemma test_force_mask_value w i : test_force_mask w i = vec2_value (force_mask_ w) i.
Proof. unfold test_force_mask. destruct (Nat.leb_spec (wid_ (force_mask_ w)) i); [|done]. by rewrite vec2_value_beyond. Qed.

Lemma unforced w i : test_force_mask_is_zero w = true -> vec2_value (force_mask_ w) i = false.
Proof.
  unfold test_force_mask_is_zero. intros [Hz%Nat.eqb_eq|Hz]%orb_true_iff; [apply vec2_value_beyond; lia|by apply zero_mask].
Qed.

Section Filter.
Variable n : nat.
Implicit Types (w : vvp_wire_vec4) (c v : nat -> vvp_bit4_t) (f : nat -> option vvp_bit4_t) (o : nat -> vvp_bit4_t).

Definition wire_seen c f i : vvp_bit4_t := default (c i) (f i).

Lemma filtered_spec w c f i : wire_is n w c f -> (i < n)%nat -> filtered_value_ w i = wire_seen c f i.
Proof.
  intros Hw Hi. unfold filtered_value_, wire_seen. rewrite test_force_mask_value, (wire_frc _ _ _ _ Hw i Hi), <- (wire_cur _ _ _ _ Hw i Hi).
  by destruct (vec2_value _ i).
Qed.

Lemma vec4_value_spec w c f : wire_is n w c f ->
  vec_wf (vec4_value w) /\ size (vec4_value w) = n /\ forall i, (i < n)%nat -> value (vec4_value w) i = wire_seen c f i.
Proof.
  intros Hw. pose proof (wire_size _ _ _ _ Hw) as Hs. unfold vec4_value. destruct (test_force_mask_is_zero w) eqn:Ez.
  - split; [by apply (wire_wf _ _ _ _ Hw)|]. split; [done|]. intros i Hi. unfold wire_seen.
    by rewrite (wire_cur _ _ _ _ Hw), (wire_frc _ _ _ _ Hw), unforced by done.
  - destruct (stored_loop 0 n (wire_seen c f) (wire_bits4_ w) (fun idx val => set_bit val idx (filtered_value_ w idx))) as [W S B].
    + by apply (wire_wf _ _ _ _ Hw).
    + intros k b Hk _. left. rewrite (filtered_spec w c f) by done. split; [done|lia].
    + rewrite Hs. split; [done|]. split; [congruence|]. intros i Hi. rewrite B, over_in by lia. done.
Qed.

(** A part that is driven, as it leaves the filter. *)
Lemma filter_mask_spec w c f val base : wire_is n w c f -> vec_wf val -> (base + size val <= n)%nat ->
  (forall i, (i < size val)%nat -> value val i = c (base + i)%nat) ->
  exists w' r out, filter_mask_ w val base = Some (w', r, out) /\ wire_is n w' c f /\ (out = [Callbacks] \/ out = []) /\
    match r with
    | STOP => forall i, (i < size val)%nat -> is_Some (f (base + i)%nat)
    | PROP => forall i, (i < size val)%nat -> f (base + i)%nat = None
    | REPL rep => size rep = size val /\ forall i, (i < size val)%nat -> value rep i = wire_seen c f (base + i)
    end.
Proof.
  intros Hw Wv Hfit Hv. unfold filter_mask_. destruct (test_force_mask_is_zero w) eqn:Ez.
  { eexists _, _, _. split; [done|]. split; [done|]. split; [by left|]. intros i Hi. by rewrite (wire_frc _ _ _ _ Hw), unforced by (done || lia). }
  assert (Hn : wid_ (force_mask_ w) <> 0%nat) by (unfold test_force_mask_is_zero in Ez; by destruct (Nat.eqb_spec (wid_ (force_mask_ w)) 0)).
  destruct (wire_mask _ _ _ _ Hw) as [_ [?|Hm]]; [done|]. destruct (wire_force_size _ _ _ _ Hw) as [Hs|[_ ?]]; [|done].
  rewrite Hm, Hs, Nat.eqb_refl, (proj2 (Nat.leb_le _ _) Hfit). cbn [andb].
  set (w' := Wire _ _ _ _ _). assert (Hw' : wire_is n w' c f) by by destruct Hw.
  set (F i := wire_seen c f (base + i)). set (body := fun (idx : nat) '(filter, flag) => _).
  pose proof (for_loop_ind (fun k s => stored 0 k F val s.1 /\ (s.2 = false -> forall i, (i < k)%nat -> is_Some (f (base + i)%nat)))
    (size val) 0 body (val, force_propagate_ w)) as Hl.
  destruct (for_loop _ 0 body _) as [filter flag]. destruct Hl as [Hst Hfl].
  { split; [by apply stored_0|]. intros _ i ?. lia. }
  { intros k [b fl] Hk [Hst Hfl]. unfold body. cbn [fst snd] in *. pose proof (wire_frc _ _ _ _ Hw (base + k) ltac:(lia)) as Hf.
    destruct (vec2_value (force_mask_ w) (base + k)) eqn:Em; cbn [fst snd].
    - split; [|intros E i Hi; destruct (Nat.eq_dec i k) as [->|]; [by rewrite Hf|apply Hfl; [done|lia]]].
      apply (stored_set 0 k F); [done|lia|]. unfold F, wire_seen. cbn [Nat.add]. by rewrite Hf.
    - split; [|done]. apply (stored_skip 0 k F); [done|]. unfold F, wire_seen. cbn [Nat.add]. by rewrite Hf, Hv by lia. }
  cbn [fst snd] in *. destruct flag; eexists _, _, _; (split; [done|]; split; [done|]).
  - split; [by left|]. destruct Hst as [W S B]. split; [done|]. intros i Hi. rewrite B, over_in by lia. done.
  - split; [by right|]. intros i Hi. by apply Hfl.
Qed.
End Filter.

Section Send.
Variable n : nat.
Hypothesis n_pos : (0 < n)%nat.
Implicit Types (w : vvp_wire_vec4) (c v : nat -> vvp_bit4_t) (f : nat -> option vvp_bit4_t) (o : nat -> vvp_bit4_t).

Lemma wire_ext w c c' f : (forall i, (i < n)%nat -> c i = c' i) -> wire_is n w c f -> wire_is n w c' f.
Proof. intros Hc []. constructor; try done. intros i Hi. rewrite <- Hc by done. auto. Qed.

Lemma drive_is w c f b : wire_is n w c f -> vec_wf b -> size b = n -> wire_is n (drive w b) (value b) f.
Proof. intros [] W S. by constructor. Qed.

Lemma eeq_true a b : vec_wf a -> vec_wf b -> size a = n -> eeq a b = true -> forall i, (i < n)%nat -> value a i = value b i.
Proof. intros Wa Wb <- He. by apply (vec4_tests_correct a b Wa Wb n_pos) in He as [_ ?]. Qed.

(** What the receivers have after a part was sent through the filter. *)
Lemma deliver_part o out (r : prop_t) c f val base (part : vvp_vector4_t -> sent) : (out = [Callbacks] \/ out = []) ->
  (forall x, size x = size val -> forall i, (i < n)%nat -> deliver1 o (part x) i = over base (size val) (fun i => value x (i - base)%nat) o i) ->
  (forall i, (i < size val)%nat -> value val i = c (base + i)%nat) ->
  match r with
  | STOP => forall i, (i < size val)%nat -> is_Some (f (base + i)%nat)
  | PROP => forall i, (i < size val)%nat -> f (base + i)%nat = None
  | REPL rep => size rep = size val /\ forall i, (i < size val)%nat -> value rep i = wire_seen c f (base + i)
  end ->
  (forall i, (i < n)%nat -> ((base <= i < base + size val)%nat -> is_Some (f i)) -> o i = wire_seen c f i) ->
  forall i, (i < n)%nat -> deliver o (out ++ match r with STOP => [] | PROP => [part val] | REPL rep => [part rep] end) i = wire_seen c f i.
Proof.
  intros Hout Hpart Hval Hr Ho i Hi. unfold deliver. rewrite fold_left_app.
  assert (E : fold_left deliver1 out o = o) by (by destruct Hout as [-> | ->]). rewrite E.
  destruct (decide (base <= i < base + size val)%nat) as [Hin|Hin].
  - replace i with (base + (i - base))%nat in * by lia. set (k := (i - base)%nat) in *. assert (Hk : (k < size val)%nat) by lia.
    destruct r as [| |rep]; cbn [fold_left].
    + apply Ho; [done|auto].
    + rewrite Hpart, over_in by done. replace (base + k - base)%nat with k by lia. unfold wire_seen. by rewrite Hr, Hval.
    + destruct Hr as [Hs Hr]. rewrite Hpart, over_in by done. replace (base + k - base)%nat with k by lia. auto.
  - assert (Hi' : o i = wire_seen c f i) by (by apply Ho). destruct r as [| |rep]; cbn [fold_left]; [done| |]; rewrite Hpart, over_out by (done || lia || tauto); done.
Qed.

Lemma send_vec4_spec fs w c f val : wire_is n w c f -> vec_wf val -> size val = n ->
  exists w' out, send_vec4 (Net fs w) val = Some (Net fs w', out) /\ wire_is n w' (value val) f /\
    forall o, (forall i, (i < n)%nat -> is_Some (f i) \/ c i = value val i -> o i = wire_seen (value val) f i) ->
      forall i, (i < n)%nat -> deliver o out i = wire_seen (value val) f i.
Proof.
  intros Hw W S. unfold send_vec4, filter_vec4. cbn [fil fun_]. rewrite (wire_size _ _ _ _ Hw), S, !Nat.eqb_refl.
  rewrite (proj2 (Nat.eqb_neq n 0)) by lia. cbn [andb].
  destruct (eeq (wire_bits4_ w) val && negb (wire_needs_init_ w)) eqn:Ee.
  - apply andb_prop in Ee as [Ee _]. pose proof (eeq_true _ _ (wire_wf _ _ _ _ Hw) W (wire_size _ _ _ _ Hw) Ee) as He.
    assert (Hc : forall i, (i < n)%nat -> c i = value val i) by (intros i Hi; by rewrite <- He, (wire_cur _ _ _ _ Hw) by done).
    eexists _, _. split; [done|]. split; [by eapply wire_ext|]. cbn. intros o Ho i Hi. apply Ho; [done|]. right. by apply Hc.
  - destruct (filter_mask_spec n (drive w val) (value val) f val 0) as (w' & r & out & E & Hw' & Hout & Hr); [by eapply drive_is|done|lia|done|].
    rewrite E. cbn. eexists _, _. split; [done|]. split; [done|]. intros o Ho.
    apply (deliver_part o out r (value val) f val 0 SendVec4 Hout); try done.
    + intros x Hx i Hi. cbn. rewrite over_in by lia. by rewrite Nat.sub_0_r.
    + intros i Hi Hf. apply Ho; [done|]. left. apply Hf. lia.
Qed.

(** A part that is driven with the value it has is stopped, unless the wire is to be initialised. *)
Lemma filter_part w c f val base : wire_is n w c f -> vec_wf val -> (base + size val <= n)%nat -> (0 < size val)%nat ->
  (forall i, (i < size val)%nat -> value val i = c (base + i)%nat) ->
  filter_vec4 w val base n = Some (w, STOP, []) /\ wire_needs_init_ w = false \/
  exists b, vec_wf b /\ size b = n /\ (forall i, (i < n)%nat -> value b i = c i) /\ filter_vec4 w val base n = filter_mask_ (drive w b) val base.
Proof.
  intros Hw W Hfit Hpos Hv. destruct Hw as [Ww Sw Cw _ _ _ _]. unfold filter_vec4. rewrite Sw, Nat.eqb_refl.
  rewrite (proj2 (Nat.eqb_neq n 0)), andb_false_r by lia. destruct ((base =? 0)%nat && (size val =? n)%nat) eqn:Ef.
  - apply andb_prop in Ef as [->%Nat.eqb_eq Hn%Nat.eqb_eq]. destruct (eeq (wire_bits4_ w) val && negb (wire_needs_init_ w)) eqn:Ee.
    + apply andb_prop in Ee as [_ Ee]. left. split; [done|]. by apply negb_true_iff.
    + right. exists val. split; [done|]. split; [done|]. split; [|done]. intros i Hi. apply Hv. lia.
  - destruct (set_vec_spec (wire_bits4_ w) val base Ww W ltac:(lia) Hpos) as (b & rc & -> & Wb & Sb & Vb & _). cbn [mbind option_bind].
    destruct (negb rc && negb (wire_needs_init_ w)) eqn:Ee; [left; apply andb_prop in Ee as [_ Ee]; split; [done|by apply negb_true_iff]|].
    right. exists b. split; [done|]. split; [congruence|]. split; [|done]. intros i Hi. rewrite Vb by lia. rewrite Sw in *.
    destruct (Nat.leb_spec base i), (Nat.ltb_spec i (base + size val)); cbn [andb]; [|by apply Cw|by apply Cw|by apply Cw]. rewrite Hv by lia. f_equal. lia.
Qed.

(** A part of the value of the wire goes through the filter again, when what was forced is [f0]. *)
Lemma refilter w c f f0 val base (part : vvp_vector4_t -> sent) : wire_is n w c f -> vec_wf val -> (base + size val <= n)%nat -> (0 < size val)%nat ->
  (forall i, (i < size val)%nat -> value val i = c (base + i)%nat) ->
  (forall i, (i < n)%nat -> ((base <= i < base + size val)%nat -> is_Some (f i)) -> f0 i = f i) ->
  (wire_needs_init_ w = false -> forall i, (i < n)%nat -> wire_seen c f0 i = wire_seen c f i) ->
  (forall o x, size x = size val -> forall i, (i < n)%nat -> deliver1 o (part x) i = over base (size val) (fun i => value x (i - base)%nat) o i) ->
  exists w' r out, filter_vec4 w val base n = Some (w', r, out) /\ wire_is n w' c f /\
    forall o, (forall i, (i < n)%nat -> o i = wire_seen c f0 i) -> forall i, (i < n)%nat ->
      deliver o (out ++ match r with STOP => [] | PROP => [part val] | REPL rep => [part rep] end) i = wire_seen c f i.
Proof.
  intros Hw W Hfit Hpos Hv Hf0 Hinit Hpart. destruct (filter_part w c f val base Hw W Hfit Hpos Hv) as [[-> Hi]|(b & Wb & Sb & Vb & ->)].
  - eexists _, _, _. split; [done|]. split; [done|]. cbn. intros o Ho i Hi'. rewrite Ho by done. auto.
  - assert (Hd : wire_is n (drive w b) c f) by (eapply wire_ext; [exact Vb|by eapply drive_is]).
    destruct (filter_mask_spec n (drive w b) c f val base Hd W Hfit Hv) as (w' & r & out & E & Hw' & Hout & Hr). rewrite E.
    eexists _, _, _. split; [done|]. split; [done|]. intros o Ho. apply (deliver_part o out r c f val base part Hout); [by apply Hpart|done|done|].
    intros i Hi Hf. rewrite Ho by done. unfold wire_seen. by rewrite Hf0.
Qed.

End Send.

(** ** Values arrive *)

Section Recv.
Variable n : nat.
Implicit Types (s : vvp_net_t) (A : asig) (o : nat -> vvp_bit4_t).

(** The receivers have what is seen of [A'] after the value of [A] became that of [A'],
    if they had it where the value stays or is forced. *)
Definition catches_up (out : list sent) (A A' : asig) : Prop :=
  forall o, (forall i, (i < n)%nat -> is_Some (frc A i) \/ cur A i = cur A' i -> o i = seen A' i) -> coherent n (deliver o out) A'.

Lemma catches_up_coherent out A A' o : (forall i, (i < n)%nat -> frc A' i = frc A i) -> catches_up out A A' -> coherent n o A -> coherent n (deliver o out) A'.
Proof.
  intros Hf Hc Ho. apply Hc. intros i Hi Hi'. rewrite Ho by done. unfold seen. rewrite Hf by done.
  destruct Hi' as [[b ->] | ->]; done.
Qed.

(** The functor has the new value and sends it. *)
Lemma send_is s A A' fs b : signal_is n s A -> vec_wf b -> size b = n -> bits4_ fs = b -> (forall i, (i < n)%nat -> value b i = cur A' i) ->
  mask_ok n (assign_mask_ fs) -> (forall i, (i < n)%nat -> vec2_value (assign_mask_ fs) i = asn A' i) -> (forall i, frc A' i = frc A i) ->
  exists s' out, send_vec4 (Net fs (fil s)) b = Some (s', out) /\ signal_is n s' A' /\ catches_up out A A'.
Proof.
  intros Hs W S Hb Hv Hm Ha Hf. destruct Hs as [Hp _ _ _ _ _ Hw].
  destruct (send_vec4_spec n Hp fs (fil s) _ _ b Hw W S) as (w' & out & E & Hw' & Ho). eexists _, _. split; [exact E|]. split.
  - constructor; cbn [fun_ fil]; rewrite ?Hb; try done. apply (wire_ext n _ (value b)); [done|]. destruct Hw'. constructor; try done.
    intros i Hi. rewrite Hf. auto.
  - intros o Hoo i Hi. rewrite Ho; [|intros j Hj Hcase|done].
    + unfold wire_seen, seen. by rewrite Hf, Hv.
    + rewrite Hoo by (try done; by rewrite <- Hv). unfold wire_seen, seen. by rewrite Hf, Hv.
Qed.

(** The bits that an assignment stores, the others kept. *)
Definition assigned A (base : nat) (bit bits : vvp_vector4_t) (i : nat) : vvp_bit4_t :=
  if (n <=? i)%nat then value bits i else if asn A i then cur A i else value bit (i - base).

Lemma assigned_cur s A base bit i : signal_is n s A -> (i < n)%nat ->
  over base (size bit) (assigned A base bit (bits4_ (fun_ s))) (value (bits4_ (fun_ s))) i = cur (a_assign base (size bit) (value bit) A) i.
Proof.
  intros Hs Hi. cbn. unfold over, assigned. rewrite (proj2 (Nat.leb_gt n i)) by done.
  destruct ((base <=? i)%nat && (i <? base + size bit)%nat); [done|]. by apply (sig_cur _ _ _ Hs).
Qed.

Lemma store_unassigned_spec s A base bit : signal_is n s A ->
  let '(b, changed) := store_unassigned (fun_ s) bit base in
  vec_wf b /\ size b = n /\ (forall i, (i < n)%nat -> value b i = cur (a_assign base (size bit) (value bit) A) i) /\
  (changed = false -> forall i, (i < n)%nat -> cur (a_assign base (size bit) (value bit) A) i = cur A i).
Proof.
  intros Hs. pose proof (sig_size _ _ _ Hs) as Hn. unfold store_unassigned. set (bits := bits4_ (fun_ s)) in *. set (body := fun (idx : nat) '(b, changed) => _).
  pose proof (for_loop_ind (fun k r => stored base k (assigned A base bit bits) bits r.1 /\
    (r.2 = false -> forall i, (i < k)%nat -> (base + i < n)%nat -> asn A (base + i)%nat = true)) (size bit) 0 body (bits, false)) as Hl.
  destruct (for_loop _ 0 body _) as [b changed]. destruct Hl as [Hst Hch].
  { split; [apply stored_0; exact (sig_wf _ _ _ Hs)|]. intros _ i ?. lia. }
  { intros k [b1 ch] Hk [Hst Hch]. unfold body. cbn [fst snd] in *. rewrite (st_size _ _ _ _ _ Hst).
    rewrite Hn. destruct (Nat.leb_spec n (base + k)) as [Hb|Hb]; cbn [fst snd].
    { split; [|intros E i Hi; destruct (Nat.eq_dec i k) as [->|]; [lia|apply Hch; [done|lia]]].
      apply stored_skip; [done|]. unfold assigned. by rewrite (proj2 (Nat.leb_le _ _)). }
    rewrite (sig_asn _ _ _ Hs) by done. destruct (asn A (base + k)) eqn:Ea; cbn [fst snd].
    - split; [|intros E i Hi; destruct (Nat.eq_dec i k) as [->|]; [done|apply Hch; [done|lia]]].
      apply stored_skip; [done|]. unfold assigned. rewrite (proj2 (Nat.leb_gt _ _)), Ea by done. symmetry. by apply (sig_cur _ _ _ Hs).
    - split; [|done]. apply stored_set; [done|lia|]. unfold assigned. rewrite (proj2 (Nat.leb_gt _ _)), Ea by done. f_equal. lia. }
  cbn [fst snd] in *. destruct Hst as [W S B]. split; [done|]. split; [congruence|]. split.
  - intros i Hi. rewrite B. by apply assigned_cur.
  - intros E i Hi. cbn. unfold over. destruct (Nat.leb_spec base i), (Nat.ltb_spec i (base + size bit)); cbn [andb]; try done.
    specialize (Hch E (i - base)%nat ltac:(lia)). replace (base + (i - base))%nat with i in Hch by lia. by rewrite Hch.
Qed.

Lemma signal_ext s A A' : (forall i, (i < n)%nat -> cur A i = cur A' i) -> (forall i, (i < n)%nat -> asn A i = asn A' i) ->
  (forall i, (i < n)%nat -> frc A i = frc A' i) -> signal_is n s A -> signal_is n s A'.
Proof.
  intros Hc Ha Hf []. constructor; try done.
  - intros i Hi. rewrite <- Hc by done. auto.
  - intros i Hi. rewrite <- Ha by done. auto.
  - apply (wire_ext n _ (cur A)); [done|]. destruct sig_wire0. constructor; try done. intros i Hi. rewrite <- Hf by done. auto.
Qed.

(** Nothing is sent when nothing changes. *)
Lemma catches_up_same A A' : (forall i, (i < n)%nat -> cur A i = cur A' i) -> catches_up [] A A'.
Proof. intros Hc o Ho i Hi. cbn. apply Ho; [done|]. right. by apply Hc. Qed.

Lemma no_assign_mask s A i : signal_is n s A -> wid_ (assign_mask_ (fun_ s)) = 0%nat -> (i < n)%nat -> asn A i = false.
Proof. intros Hs Hm Hi. rewrite <- (sig_asn _ _ _ Hs i Hi). apply vec2_value_beyond. lia. Qed.

Lemma store_masked_spec s A base bit : signal_is n s A ->
  let A' := a_assign base (size bit) (value bit) A in
  exists s' out, (let '(b, changed) := store_unassigned (fun_ s) bit base in
    if changed then send_vec4 (Net (initialised (with_bits (fun_ s) b)) (fil s)) b else Some (Net (with_bits (fun_ s) b) (fil s), [])) = Some (s', out) /\
    signal_is n s' A' /\ catches_up out A A'.
Proof.
  intros Hs A'. pose proof (store_unassigned_spec s A base bit Hs) as Hst. destruct (store_unassigned (fun_ s) bit base) as [b changed].
  destruct Hst as (Wb & Sb & Vb & Hch). destruct changed.
  - eapply send_is; try done; [exact (sig_mask _ _ _ Hs)|exact (sig_asn _ _ _ Hs)].
  - eexists _, _. split; [done|]. split; [|apply catches_up_same; intros i Hi; by rewrite Hch].
    destruct Hs. constructor; try done. cbn [fil]. apply (wire_ext n _ (cur A)); [|done]. intros i Hi. symmetry. by apply Hch.
Qed.

Lemma recv_vec4_0_spec s A bit : signal_is n s A -> vec_wf bit -> size bit = n ->
  let A' := a_assign 0 n (value bit) A in
  exists s' out, recv_vec4 s 0 bit = Some (s', out) /\ signal_is n s' A' /\ catches_up out A A'.
Proof.
  intros Hs W S A'. pose proof (sig_size _ _ _ Hs) as Hn. unfold recv_vec4. destruct (Nat.eqb_spec (wid_ (assign_mask_ (fun_ s))) 0) as [Hm|Hm].
  - assert (Hc : forall i, (i < n)%nat -> cur A' i = value bit i).
    { intros i Hi. cbn. rewrite over_in, (no_assign_mask s A) by (done || lia). f_equal. lia. }
    destruct (needs_init_ (fun_ s) || negb (eeq (bits4_ (fun_ s)) bit)) eqn:Ee.
    + rewrite Hn, S, Nat.eqb_refl. eapply send_is; try done; [intros i Hi; by rewrite Hc|exact (sig_mask _ _ _ Hs)|exact (sig_asn _ _ _ Hs)].
    + apply orb_false_iff in Ee as [_ Ee%negb_false_iff].
      pose proof (eeq_true n (sig_pos _ _ _ Hs) _ _ (sig_wf _ _ _ Hs) W Hn Ee) as He.
      assert (Hsame : forall i, (i < n)%nat -> cur A i = cur A' i) by (intros i Hi; by rewrite Hc, <- He, (sig_cur _ _ _ Hs)).
      eexists _, _. split; [done|]. split; [by eapply signal_ext|by apply catches_up_same].
  - destruct (sig_mask _ _ _ Hs) as [_ [?|Hw]]; [done|]. rewrite Hn, Hw, Nat.eqb_refl.
    pose proof (store_masked_spec s A 0 bit Hs) as Hst. by rewrite S in Hst.
Qed.

Lemma recv_vec4_pv_0_spec s A bit base : signal_is n s A -> vec_wf bit ->
  let A' := a_assign base (size bit) (value bit) A in
  exists s' out, recv_vec4_pv s 0 bit base n = Some (s', out) /\ signal_is n s' A' /\ catches_up out A A'.
Proof.
  intros Hs W A'. pose proof (sig_size _ _ _ Hs) as Hn. unfold recv_vec4_pv. rewrite Hn, Nat.eqb_refl.
  destruct (Nat.eqb_spec (wid_ (assign_mask_ (fun_ s))) 0) as [Hm|Hm].
  - set (body := fun (idx : nat) (b : vvp_vector4_t) => if (size b <=? base + idx)%nat then b else _).
    destruct (stored_loop base (size bit) (assigned A base bit (bits4_ (fun_ s))) (bits4_ (fun_ s)) body) as [Wb Sb Vb]; [exact (sig_wf _ _ _ Hs)| |].
    { intros k b Hk Hst. unfold body. rewrite (st_size _ _ _ _ _ Hst), Hn. unfold assigned. destruct (Nat.leb_spec n (base + k)); [by right|left].
      rewrite (no_assign_mask s A) by done. split; [|done]. do 2 f_equal. lia. }
    eapply send_is; try done; [congruence| |exact (sig_mask _ _ _ Hs)|exact (sig_asn _ _ _ Hs)].
    intros i Hi. rewrite Vb. by apply assigned_cur.
  - destruct (sig_mask _ _ _ Hs) as [_ [?|Hw]]; [done|]. rewrite Hw, Nat.eqb_refl.
    by apply store_masked_spec.
Qed.

Lemma coerce_spec v : vec_wf v -> (n <= size v)%nat ->
  exists r, coerce_to_width v n = Some r /\ vec_wf r /\ size r = n /\ forall i, (i < n)%nat -> value r i = value v i.
Proof.
  intros W Hn. unfold coerce_to_width. destruct (Nat.eqb_spec (size v) n) as [<-|Hne]; [by exists v|].
  rewrite (proj2 (Nat.ltb_lt _ _)) by lia. eexists. split; [done|].
  destruct (stored_loop 0 n (value v) (vec4_fill n BIT4_X) (fun idx res => set_bit res idx (value v idx))) as [Wr Sr Br]; [apply vec4_fill_wf|by left|].
  split; [done|]. split; [done|]. intros i Hi. rewrite Br, over_in by lia. done.
Qed.

Lemma recv_vec4_1_spec s A bit : signal_is n s A -> vec_wf bit -> (n <= size bit)%nat ->
  let A' := a_cassign 0 n (value bit) A in
  exists s' out, recv_vec4 s 1 bit = Some (s', out) /\ signal_is n s' A' /\ catches_up out A A'.
Proof.
  intros Hs W Hn A'. unfold recv_vec4. rewrite (sig_size _ _ _ Hs). destruct (coerce_spec bit W Hn) as (r & -> & Wr & Sr & Vr). cbn [mbind option_bind].
  eapply send_is; try done.
  - intros i Hi. cbn. rewrite over_in, Vr by lia. f_equal. lia.
  - rewrite Sr. split; [apply vec2_fill_wf|by right].
  - intros i Hi. cbn [with_assign_mask assign_mask_]. rewrite Sr, vec2_fill_value by done. cbn. by rewrite over_in by lia.
Qed.

Lemma recv_vec4_pv_1_spec s A bit base : signal_is n s A -> vec_wf bit ->
  let A' := a_cassign base (size bit) (value bit) A in
  exists s' out, recv_vec4_pv s 1 bit base n = Some (s', out) /\ signal_is n s' A' /\ catches_up out A A'.
Proof.
  intros Hs W A'. pose proof (sig_size _ _ _ Hs) as Hn. unfold recv_vec4_pv. rewrite Hn, Nat.eqb_refl.
  set (m0 := if (_ =? 0)%nat then _ else _).
  assert (Hm0 : vec2_wf m0 /\ wid_ m0 = n /\ forall i, (i < n)%nat -> vec2_value m0 i = asn A i).
  { unfold m0. destruct (sig_mask _ _ _ Hs) as [Wm Hm]. destruct (Nat.eqb_spec (wid_ (assign_mask_ (fun_ s))) 0) as [H0|H0].
    - split; [apply vec2_fill_wf|]. split; [done|]. intros i Hi. rewrite vec2_fill_value by done. symmetry. by eapply no_assign_mask.
    - split; [done|]. split; [tauto|]. exact (sig_asn _ _ _ Hs). }
  destruct Hm0 as (W0 & S0 & V0). set (F i := if (n <=? i)%nat then value (bits4_ (fun_ s)) i else value bit (i - base)).
  set (G i := if (n <=? i)%nat then vec2_value m0 i else true). set (body := fun (idx : nat) (s0 : option (vvp_vector4_t * vvp_vector2_t)) => _).
  pose proof (for_loop_ind (fun k r => exists b m, r = Some (b, m) /\ stored base k F (bits4_ (fun_ s)) b /\ marked base k G m0 m)
    (size bit) 0 body (Some (bits4_ (fun_ s), m0))) as Hl.
  destruct Hl as (b & m & -> & Hb & Hm).
  { eexists _, _. split; [done|]. split; [apply stored_0; exact (sig_wf _ _ _ Hs)|by apply marked_0]. }
  { intros k r Hk (b & m & -> & Hb & Hm). unfold body. cbn [mbind option_bind]. rewrite (st_size _ _ _ _ _ Hb), Hn.
    destruct (Nat.leb_spec n (base + k)) as [Hout|Hin].
    - eexists _, _. split; [done|]. split; [apply stored_skip|apply marked_skip]; try done; unfold F, G; by rewrite (proj2 (Nat.leb_le _ _)).
    - destruct (marked_set base k G m0 m Hm) as (m' & E & Hm'); [lia|]. unfold G in E. rewrite (proj2 (Nat.leb_gt _ _)) in E by done.
      rewrite E. cbn [mbind option_bind]. eexists _, _. split; [done|]. split; [|done]. apply stored_set; [done|lia|].
      unfold F. rewrite (proj2 (Nat.leb_gt _ _)) by done. f_equal. lia. }
  cbn [mbind option_bind]. destruct Hb as [Wb Sb Vb]. destruct Hm as [Wm Sm Vm].
  eapply send_is; try done.
  - congruence.
  - intros i Hi. rewrite Vb. cbn. unfold over, F. rewrite (proj2 (Nat.leb_gt n i)) by done. destruct (_ && _); [done|]. by apply (sig_cur _ _ _ Hs).
  - split; [done|]. right. cbn [with_assign_mask assign_mask_]. congruence.
  - intros i Hi. cbn [with_assign_mask assign_mask_]. rewrite Vm. cbn. unfold over, G. rewrite (proj2 (Nat.leb_gt n i)) by done.
    destruct (_ && _); [done|]. by apply V0.
Qed.

(** ** The assignment ends *)

Lemma deassign_spec s A : signal_is n s A -> signal_is n (deassign s) (a_deassign 0 n A).
Proof.
  intros []. constructor; try done.
  - apply null_ok.
  - intros i Hi. cbn. rewrite over_in by lia. done.
Qed.

Lemma deassign_pv_spec s A base wid : signal_is n s A -> (base + wid <= n)%nat -> (exists i, (i < n)%nat /\ asn A i = true) ->
  exists s', deassign_pv s base wid = Some s' /\ signal_is n s' (a_deassign base wid A).
Proof.
  intros Hs Hfit (i0 & Hi0 & Ha0). unfold deassign_pv. destruct (sig_mask _ _ _ Hs) as [Wm Hm].
  assert (Hn : wid_ (assign_mask_ (fun_ s)) = n).
  { destruct Hm as [Hm|]; [|done]. by rewrite (no_assign_mask s A i0 Hs Hm Hi0) in Ha0. }
  destruct (mask_range_spec (assign_mask_ (fun_ s)) base wid false Wm ltac:(lia)) as (m & -> & [W S V]). cbn [mbind option_bind].
  assert (Hbits : forall i, (i < n)%nat -> vec2_value m i = asn (a_deassign base wid A) i).
  { intros i Hi. rewrite V. cbn. unfold over. destruct (_ && _); [done|]. by apply (sig_asn _ _ _ Hs). }
  eexists. split; [done|]. destruct Hs. destruct (vec2_is_zero m) eqn:Ez; constructor; try done.
  - apply null_ok.
  - intros i Hi. rewrite <- Hbits, (zero_mask m) by done. apply null_value.
  - split; [done|]. right. cbn [with_assign_mask assign_mask_ fun_]. congruence.
Qed.

(** ** Force and release *)

Lemma force_mask_spec w c f mask : wire_is n w c f -> vec2_wf mask -> wid_ mask = n ->
  exists w', force_mask w mask = Some w' /\ wire_bits4_ w' = wire_bits4_ w /\ force4_ w' = force4_ w /\
    vec2_wf (force_mask_ w') /\ wid_ (force_mask_ w') = n /\
    forall i, (i < n)%nat -> vec2_value (force_mask_ w') i = vec2_value mask i || vec2_value (force_mask_ w) i.
Proof.
  intros Hw Wm Hn. unfold force_mask. set (m0 := if (_ =? 0)%nat then _ else _).
  assert (Hm0 : vec2_wf m0 /\ wid_ m0 = n /\ forall i, (i < n)%nat -> vec2_value m0 i = vec2_value (force_mask_ w) i).
  { unfold m0. destruct (wire_mask _ _ _ _ Hw) as [W [H0|H0]].
    - rewrite H0, Hn. cbn [Nat.eqb]. split; [apply vec2_fill_wf|]. split; [done|]. intros i Hi. by rewrite vec2_fill_value, vec2_value_beyond by (done || lia).
    - destruct (Nat.eqb_spec (wid_ (force_mask_ w)) 0); [|done]. split; [apply vec2_fill_wf|]. split; [done|]. intros i Hi. lia. }
  destruct Hm0 as (W0 & S0 & V0). rewrite S0, Hn, Nat.eqb_refl. set (body := fun (idx : nat) (s0 : option (vvp_vector2_t * bool)) => _).
  pose proof (for_loop_ind (fun k r => exists m p, r = Some (m, p) /\ marked 0 k (fun i => vec2_value mask i || vec2_value m0 i) m0 m)
    n 0 body (Some (m0, force_propagate_ w))) as Hl.
  destruct Hl as (m & p & -> & [W S V]).
  { eexists _, _. split; [done|by apply marked_0]. }
  { intros k r Hk (m & p & -> & Hm). unfold body. cbn [mbind option_bind fst]. destruct (vec2_value mask k) eqn:Ek.
    - destruct (marked_set 0 k _ m0 m Hm) as (m' & E & Hm'); [lia|]. cbn [Nat.add] in E. rewrite Ek in E. cbn [orb] in E. rewrite E.
      cbn [mbind option_bind]. by eexists _, _.
    - eexists _, _. split; [done|]. apply marked_skip; [done|]. cbn [Nat.add]. by rewrite Ek. }
  cbn [mbind option_bind]. eexists. split; [done|]. do 2 (split; [done|]). split; [done|]. split; [cbn [force_mask_]; congruence|].
  intros i Hi. cbn [force_mask_]. rewrite V, over_in by lia. by rewrite V0.
Qed.

(** The mask says what is forced; the receivers get all of the bits. *)
Lemma force_vec4_spec s A val mask : signal_is n s A -> vec_wf val -> size val = n -> vec2_wf mask -> wid_ mask = n ->
  let A' := a_force (vec2_value mask) (value val) A in
  exists s' out, force_vec4 s val mask = Some (s', out) /\ signal_is n s' A' /\
    forall o, (forall i, (i < n)%nat -> vec2_value mask i = false -> value val i = seen A i) -> coherent n (deliver o out) A'.
Proof.
  intros Hs Wv Sv Wm Hn A'. unfold force_vec4, force_fil_vec4. pose proof (sig_wire _ _ _ Hs) as Hw.
  destruct (force_mask_spec (fil s) _ _ mask Hw Wm Hn) as (w' & -> & Eb & Ef & Wm' & Sm' & Vm'). cbn [mbind option_bind].
  set (f4 := if (_ =? 0)%nat then _ else _).
  assert (Hf4 : vec_wf f4 /\ size f4 = n /\ forall i, (i < n)%nat ->
    (if vec2_value (force_mask_ w') i then Some (value f4 i) else None) = if vec2_value mask i then Some (value val i) else frc A i).
  { unfold f4. rewrite Ef. destruct (wire_force_size _ _ _ _ Hw) as [H0|[H0 H1]].
    - rewrite H0, (proj2 (Nat.eqb_neq _ _)) by (pose proof (sig_pos _ _ _ Hs); lia). rewrite Hn.
      destruct (stored_loop 0 n (fun i => if vec2_value mask i then value val i else value (force4_ (fil s)) i) (force4_ (fil s))
        (fun idx b => if vec2_value mask idx then set_bit b idx (value val idx) else b)) as [W S V]; [exact (wire_force_wf _ _ _ _ Hw)| |].
      { intros k b Hk _. cbn [Nat.add]. destruct (vec2_value mask k); [left; split; [done|lia]|by right]. }
      split; [done|]. split; [congruence|]. intros i Hi. rewrite V, over_in, Vm' by lia. rewrite (wire_frc _ _ _ _ Hw i Hi).
      by destruct (vec2_value mask i), (vec2_value (force_mask_ (fil s)) i).
    - rewrite H0. cbn [Nat.eqb]. split; [done|]. split; [done|]. intros i Hi. rewrite Vm', (wire_frc _ _ _ _ Hw i Hi) by done.
      rewrite (vec2_value_beyond (force_mask_ (fil s))) by lia. by destruct (vec2_value mask i). }
  destruct Hf4 as (W4 & S4 & V4). eexists _, _. split; [done|]. split.
  - destruct Hs. constructor; try done. cbn [fil]. destruct Hw. constructor; cbn [wire_bits4_ force4_ force_mask_]; rewrite ?Eb; try done.
    + split; [done|by right].
    + by left.
    + intros i Hi. cbn. symmetry. by apply V4.
  - intros o Ho i Hi. cbn. unfold seen. cbn. destruct (vec2_value mask i) eqn:Em; [done|]. rewrite Ho by done. done.
Qed.

Lemma release_mask_spec w c f mask : wire_is n w c f -> vec2_wf mask -> wid_ mask = n ->
  exists w', release_mask w mask = Some w' /\ wire_bits4_ w' = wire_bits4_ w /\ force4_ w' = force4_ w /\
    wire_is n w' c (fun i => if vec2_value mask i then None else f i).
Proof.
  intros Hw Wm Hn. unfold release_mask. destruct (Nat.eqb_spec (wid_ (force_mask_ w)) 0) as [H0|H0].
  { exists w. do 3 (split; [done|]). destruct Hw. constructor; try done. intros i Hi. rewrite wire_frc0, (vec2_value_beyond (force_mask_ w)) by (done || lia). by destruct (vec2_value mask i). }
  destruct (wire_mask _ _ _ _ Hw) as [W0 [?|Hfm]]; [done|]. rewrite Hfm, Hn, Nat.eqb_refl. set (body := fun (idx : nat) (s0 : option vvp_vector2_t) => _).
  pose proof (for_loop_ind (fun k r => exists m, r = Some m /\ marked 0 k (fun i => negb (vec2_value mask i) && vec2_value (force_mask_ w) i) (force_mask_ w) m)
    n 0 body (Some (force_mask_ w))) as Hl.
  destruct Hl as (m & -> & [W S V]).
  { eexists. split; [done|by apply marked_0]. }
  { intros k r Hk (m & -> & Hm). unfold body. cbn [mbind option_bind]. destruct (vec2_value mask k) eqn:Ek.
    - destruct (marked_set 0 k _ (force_mask_ w) m Hm) as (m' & E & Hm'); [lia|]. cbn [Nat.add] in E. rewrite Ek in E. cbn [negb andb] in E. rewrite E. by eexists.
    - eexists. split; [done|]. apply marked_skip; [done|]. cbn [Nat.add]. by rewrite Ek. }
  cbn [mbind option_bind]. eexists. split; [done|]. do 2 (split; [done|]).
  assert (Hbits : forall i, (i < n)%nat -> vec2_value (if vec2_is_zero m then vec2_null else m) i = negb (vec2_value mask i) && vec2_value (force_mask_ w) i).
  { intros i Hi. rewrite <- (over_in 0 n (fun i => negb (vec2_value mask i) && vec2_value (force_mask_ w) i) (vec2_value (force_mask_ w))), <- V by lia.
    destruct (vec2_is_zero m) eqn:Ez; [|done]. rewrite (zero_mask m) by done. apply null_value. }
  destruct Hw. constructor; cbn [wire_bits4_ force4_ force_mask_]; try done.
  - destruct (vec2_is_zero m); [apply null_ok|]. split; [done|right; congruence].
  - destruct wire_force_size0 as [|[_ ?]]; [by left|lia].
  - intros i Hi. rewrite Hbits, wire_frc0 by done. by destruct (vec2_value mask i), (vec2_value (force_mask_ w) i).
Qed.

(** The wire without what was forced in the range. *)
Definition released (base wid : nat) A : asig := ASig (cur A) (asn A) (over base wid (fun _ => None) (frc A)).

Lemma released_is s A mask base wid : signal_is n s A -> vec2_wf mask -> wid_ mask = n ->
  (forall i, (i < n)%nat -> vec2_value mask i = (base <=? i)%nat && (i <? base + wid)%nat) ->
  exists w, release_mask (fil s) mask = Some w /\ wire_bits4_ w = wire_bits4_ (fil s) /\ force4_ w = force4_ (fil s) /\
    signal_is n (Net (fun_ s) w) (released base wid A).
Proof.
  intros Hs Wm Hn Hm. destruct (release_mask_spec (fil s) _ _ mask (sig_wire _ _ _ Hs) Wm Hn) as (w & E & Eb & Ef & Hw).
  exists w. do 3 (split; [done|]). destruct Hs. constructor; try done. destruct Hw. constructor; try done.
  intros i Hi. rewrite <- wire_frc0, Hm by done. done.
Qed.

(** A bit that the receivers may not get: released to the value that is assigned to it. *)
Definition release_seen (net_flag : bool) (base wid : nat) A : Prop :=
  net_flag = true \/ forall i, (i < n)%nat -> (base <= i < base + wid)%nat -> asn A i = true -> seen A i = cur A i.

(** A variable keeps what is seen of it. *)
Lemma keep_seen A base wid out o : let A1 := released base wid A in let A' := a_release false base wid A in
  release_seen false base wid A -> catches_up out A1 A' -> coherent n o A -> coherent n (deliver o out) A'.
Proof.
  intros A1 A' [?|Hr] Hc Ho; [done|]. apply Hc. intros i Hi Hcase. rewrite Ho by done. specialize (Hr i Hi). unfold seen, A', A1, a_release, released, a_assign in *.
  cbn in *. unfold over in *. destruct (Nat.leb_spec base i), (Nat.ltb_spec i (base + wid)); cbn [andb] in *; try done.
  destruct (asn A i); [by apply Hr|]. cbn. unfold seen. by replace (base + (i - base))%nat with i by lia.
Qed.

Lemma seen_bits_spec s A base wid : signal_is n s A -> (base + wid <= n)%nat ->
  vec_wf (seen_bits (fil s) base wid) /\ size (seen_bits (fil s) base wid) = wid /\
  forall i, (i < wid)%nat -> value (seen_bits (fil s) base wid) i = seen A (base + i).
Proof.
  intros Hs Hfit. unfold seen_bits.
  destruct (stored_loop 0 wid (fun i => seen A (base + i)) (vec4_fill wid BIT4_X) (fun idx res => set_bit res idx (filtered_value_ (fil s) (base + idx)))) as [W S V].
  - apply vec4_fill_wf.
  - intros k b Hk _. left. rewrite (filtered_spec n _ _ _ _ (sig_wire _ _ _ Hs)) by lia. done.
  - split; [done|]. split; [done|]. intros i Hi. by rewrite V, over_in by lia.
Qed.

Lemma assign_cur_ext base wid (v v' : nat -> vvp_bit4_t) A i : (forall i, (i < wid)%nat -> v i = v' i) ->
  cur (a_assign base wid v A) i = cur (a_assign base wid v' A) i.
Proof.
  intros Hv. cbn. unfold over. destruct (Nat.leb_spec base i), (Nat.ltb_spec i (base + wid)); cbn [andb]; try done.
  destruct (asn A i); [done|]. apply Hv. lia.
Qed.

Lemma signal_assign_ext s base wid (v v' : nat -> vvp_bit4_t) A : (forall i, (i < wid)%nat -> v i = v' i) ->
  signal_is n s (a_assign base wid v A) -> signal_is n s (a_assign base wid v' A).
Proof. intros Hv. apply signal_ext; [|done|done]. intros i Hi. by apply assign_cur_ext. Qed.

Lemma catches_up_ext out A A' A'' : (forall i, (i < n)%nat -> cur A' i = cur A'' i) -> (forall i, frc A' i = frc A'' i) ->
  catches_up out A A' -> catches_up out A A''.
Proof.
  intros Hc Hf Hu o Ho i Hi. assert (E : forall j, (j < n)%nat -> seen A' j = seen A'' j) by (intros j Hj; unfold seen; by rewrite Hf, Hc).
  rewrite <- E by done. apply Hu; [|done]. intros j Hj Hcase. rewrite E by done. apply Ho; [done|]. by rewrite <- Hc.
Qed.

(** A net gets its driven value again; what was forced to that very value need not be sent. *)
Lemma release_net_send s A w base val part : signal_is n s A -> wire_bits4_ w = wire_bits4_ (fil s) -> force4_ w = force4_ (fil s) ->
  signal_is n (Net (fun_ s) w) (released base (size val) A) -> vec_wf val -> (base + size val <= n)%nat -> (0 < size val)%nat ->
  (forall i, (i < size val)%nat -> value val i = cur A (base + i)) ->
  (wire_needs_init_ w = false -> size (force4_ (fil s)) = n -> forall i, (base <= i < base + size val)%nat -> value (force4_ (fil s)) i = cur A i) ->
  (forall o x, size x = size val -> forall i, (i < n)%nat -> deliver1 o (part x) i = over base (size val) (fun i => value x (i - base)%nat) o i) ->
  exists w' r out, filter_vec4 w val base n = Some (w', r, out) /\ signal_is n (Net (fun_ s) w') (released base (size val) A) /\
    forall o, coherent n o A -> coherent n (deliver o ((out ++ match r with STOP => [] | PROP => [part val] | REPL rep => [part rep] end) ++ [Callbacks]))
      (released base (size val) A).
Proof.
  intros Hs Eb Ef Hr Wv Hfit Hpos Hv Hinit Hpart. pose proof (sig_wire _ _ _ Hr) as Hw. cbn [fil] in Hw. pose proof (sig_wire _ _ _ Hs) as Hw0.
  destruct (refilter n (sig_pos _ _ _ Hs) w (cur A) (frc (released base (size val) A)) (frc A) val base part Hw Wv Hfit Hpos Hv) as (w' & r & out & E & Hw' & Ho).
  - intros i Hi Hf. cbn in *. unfold over in *. destruct (Nat.leb_spec base i), (Nat.ltb_spec i (base + size val)); cbn [andb] in *; try done.
    by destruct (Hf ltac:(lia)).
  - intros Hi0 i Hi. unfold wire_seen. cbn. unfold over. destruct (Nat.leb_spec base i), (Nat.ltb_spec i (base + size val)); cbn [andb]; try done.
    rewrite (wire_frc _ _ _ _ Hw0 i Hi). destruct (vec2_value (force_mask_ (fil s)) i) eqn:Em; [|done]. cbn. apply Hinit; [done| |lia].
    destruct (wire_force_size _ _ _ _ Hw0) as [?|[_ Hz]]; [done|]. rewrite vec2_value_beyond in Em by lia. done.
  - exact Hpart.
  - eexists _, _, _. split; [exact E|]. split; [by destruct Hr|]. intros o Hc i Hi. unfold deliver. rewrite fold_left_app. cbn. by apply Ho.
Qed.

Lemma release_spec s A net_flag : signal_is n s A ->
  let A' := a_release net_flag 0 n A in
  exists s' out, release s net_flag = Some (s', out) /\ signal_is n s' A' /\
    forall o, release_seen net_flag 0 n A -> coherent n o A -> coherent n (deliver o out) A'.
Proof.
  intros Hs A'. pose proof (sig_wire _ _ _ Hs) as Hw0. pose proof (sig_pos _ _ _ Hs) as Hp. unfold release. rewrite (wire_size _ _ _ _ Hw0).
  destruct (released_is s A (vec2_fill true n) 0 n Hs (vec2_fill_wf _ _) eq_refl) as (w & -> & Eb & Ef & Hr).
  { intros i Hi. rewrite vec2_fill_value by done. symmetry. by apply andb_true_iff; split; [apply Nat.leb_le|apply Nat.ltb_lt]; lia. }
  destruct net_flag; cbn [mbind option_bind].
  - set (w1 := with_needs_init w _). unfold send_vec4. cbn [fil fun_]. rewrite Eb, (wire_size _ _ _ _ Hw0).
    destruct (release_net_send s A w1 0 (wire_bits4_ (fil s)) SendVec4 Hs) as (w' & r & out & E & Hs' & Ho).
    + done.
    + done.
    + rewrite (wire_size _ _ _ _ Hw0). destruct Hr. constructor; try done. by destruct sig_wire0.
    + exact (wire_wf _ _ _ _ Hw0).
    + by rewrite (wire_size _ _ _ _ Hw0).
    + by rewrite (wire_size _ _ _ _ Hw0).
    + rewrite (wire_size _ _ _ _ Hw0). exact (wire_cur _ _ _ _ Hw0).
    + intros Hi Hfs i Hin. rewrite (wire_size _ _ _ _ Hw0) in Hin. apply negb_false_iff in Hi. rewrite Ef, Eb in Hi.
      pose proof (eeq_true n Hp _ _ (wire_force_wf _ _ _ _ Hw0) (wire_wf _ _ _ _ Hw0) Hfs Hi i ltac:(lia)) as ->. apply (wire_cur _ _ _ _ Hw0). lia.
    + intros o x Hx i Hi. rewrite (wire_size _ _ _ _ Hw0). cbn. rewrite over_in by lia. by rewrite Nat.sub_0_r.
    + rewrite E. cbn [mbind option_bind]. rewrite (wire_size _ _ _ _ Hw0) in Hs', Ho. eexists _, _. split; [done|]. split; [exact Hs'|]. intros o _. apply Ho.
  - destruct (seen_bits_spec s A 0 n Hs ltac:(lia)) as (W & S & V).
    destruct (recv_vec4_0_spec _ _ _ Hr W S) as (s' & out & E & Hs' & Hu). rewrite E.
    assert (Hsame : forall i, (i < n)%nat -> value (seen_bits (fil s) 0 n) i = seen A (0 + i)) by (intros; by apply V).
    eexists _, _. split; [done|]. split; [by eapply signal_assign_ext|]. intros o Hrel. apply keep_seen; [done|].
    eapply catches_up_ext; [| |exact Hu]; [|done]. intros i Hi. by apply assign_cur_ext.
Qed.

Lemma release_pv_spec s A base wid net_flag : signal_is n s A -> (base + wid <= n)%nat -> (0 < wid)%nat ->
  let A' := a_release net_flag base wid A in
  exists s' out, release_pv s base wid net_flag = Some (s', out) /\ signal_is n s' A' /\
    forall o, release_seen net_flag base wid A -> coherent n o A -> coherent n (deliver o out) A'.
Proof.
  intros Hs Hfit Hpos A'. pose proof (sig_wire _ _ _ Hs) as Hw0. pose proof (sig_pos _ _ _ Hs) as Hp. unfold release_pv. rewrite (wire_size _ _ _ _ Hw0).
  rewrite (proj2 (Nat.leb_le _ _) Hfit). destruct (mask_range_spec (vec2_fill false n) base wid true (vec2_fill_wf _ _) Hfit) as (mask & -> & [Wm Sm Vm]).
  cbn [mbind option_bind]. destruct (released_is s A mask base wid Hs Wm Sm) as (w & -> & Eb & Ef & Hr).
  { intros i Hi. rewrite Vm. unfold over. rewrite vec2_fill_value by done. by destruct (_ && _). }
  destruct net_flag; cbn [mbind option_bind].
  - rewrite Eb, Ef. set (w1 := with_needs_init w _). unfold send_vec4_pv. cbn [fil fun_].
    destruct (subvalue_spec (wire_bits4_ (fil s)) base wid (wire_wf _ _ _ _ Hw0)) as (Wv & Sv & Vv). set (val := subvalue (wire_bits4_ (fil s)) base wid) in *.
    destruct (release_net_send s A w1 base val (fun x => SendVec4Pv x base n) Hs) as (w' & r & out & E & Hs' & Ho); rewrite ?Sv; try done.
    + destruct Hr. constructor; try done. by destruct sig_wire0.
    + intros i Hi. rewrite Vv by done. apply (wire_cur _ _ _ _ Hw0). lia.
    + intros Hi Hfs i Hin. apply negb_false_iff in Hi. destruct (subvalue_spec (force4_ (fil s)) base wid (wire_force_wf _ _ _ _ Hw0)) as (Wf & Sf & Vf).
      pose proof (eeq_true wid Hpos _ _ Wf Wv Sf Hi (i - base)%nat ltac:(lia)) as He. rewrite Vf, Vv in He by lia.
      replace (base + (i - base))%nat with i in He by lia. rewrite He. apply (wire_cur _ _ _ _ Hw0). lia.
    + intros o x Hx i Hi. cbn. by rewrite Hx.
    + rewrite E. cbn [mbind option_bind]. rewrite Sv in Hs', Ho. eexists _, _. split; [done|]. split; [exact Hs'|]. intros o _. apply Ho.
  - destruct (seen_bits_spec s A base wid Hs Hfit) as (W & S & V).
    destruct (recv_vec4_pv_0_spec _ _ _ base Hr W) as (s' & out & E & Hs' & Hu). rewrite E. rewrite S in *.
    eexists _, _. split; [done|]. split; [by eapply signal_assign_ext|]. intros o Hrel. apply keep_seen; [done|].
    eapply catches_up_ext; [| |exact Hu]; [|done]. intros i Hi. by apply assign_cur_ext.
Qed.
End Recv.
