(* ===== verification/SignalRun.v ===== *)
(** * SignalRun: a variable through a sequence of operations

    The refinement of the abstract signal by the node, for whole runs, and what the
    model shows of forces over procedural continuous assignments. *)

From S2P Require Import Prelude FourState Vector4 Vector4Value Vector4Ops Vector4Parts Vector4Arith Vector4Reduce Vector2 Vector2Value Signal SignalSpec.
Import Bit4.

Open Scope ivl_scope.

(** ** A variable through a sequence of operations *)

Inductive sig_op : Type :=
  | Assign (bit : vvp_vector4_t)
  | AssignPart (bit : vvp_vector4_t) (base : nat)
  | Cassign (bit : vvp_vector4_t)
  | CassignPart (bit : vvp_vector4_t) (base : nat)
  | Deassign
  | DeassignPart (base wid : nat)
  | Force (val : vvp_vector4_t) (mask : vvp_vector2_t)
  | Release (net_flag : bool)
  | ReleasePart (base wid : nat) (net_flag : bool).

Section Ops.
Variable n : nat.
Hypothesis n_pos : (0 < n)%nat.
Implicit Types (op : sig_op) (s : vvp_net_t) (A : asig) (o : nat -> vvp_bit4_t).

(** The calls of the node that the instructions and the events make. *)
Definition run_op op s : result :=
  match op with
  | Assign bit => recv_vec4 s 0 bit
  | AssignPart bit base => recv_vec4_pv s 0 bit base n
  | Cassign bit => recv_vec4 s 1 bit
  | CassignPart bit base => recv_vec4_pv s 1 bit base n
  | Deassign => Some (deassign s, [])
  | DeassignPart base wid => s ← deassign_pv s base wid; Some (s, [])
  | Force val mask => force_vec4 s val mask
  | Release net_flag => release s net_flag
  | ReleasePart base wid net_flag => release_pv s base wid net_flag
  end.

Definition op_spec op A : asig :=
  match op with
  | Assign bit => a_assign 0 n (value bit) A
  | AssignPart bit base => a_assign base (size bit) (value bit) A
  | Cassign bit => a_cassign 0 n (value bit) A
  | CassignPart bit base => a_cassign base (size bit) (value bit) A
  | Deassign => a_deassign 0 n A
  | DeassignPart base wid => a_deassign base wid A
  | Force val mask => a_force (vec2_value mask) (value val) A
  | Release net_flag => a_release net_flag 0 n A
  | ReleasePart base wid net_flag => a_release net_flag base wid A
  end.

(** The widths are those of the signal, a part of an assignment ends only where one
    is active, and a force has what is seen where its mask is clear. *)
Definition op_ok op A : Prop :=
  match op with
  | Assign bit => vec_wf bit /\ size bit = n
  | AssignPart bit _ | CassignPart bit _ => vec_wf bit
  | Cassign bit => vec_wf bit /\ (n <= size bit)%nat
  | Deassign | Release _ => True
  | DeassignPart base wid => (base + wid <= n)%nat /\ exists i, (i < n)%nat /\ asn A i = true
  | Force val mask => vec_wf val /\ size val = n /\ vec2_wf mask /\ wid_ mask = n /\
      forall i, (i < n)%nat -> vec2_value mask i = false -> value val i = seen A i
  | ReleasePart base wid _ => (base + wid <= n)%nat /\ (0 < wid)%nat
  end.

(** The receivers learn of the change. *)
Definition op_heard op A : Prop :=
  match op with
  | Release net_flag => release_seen n net_flag 0 n A
  | ReleasePart base wid net_flag => release_seen n net_flag base wid A
  | _ => True
  end.

Lemma run_op_spec op s A : signal_is n s A -> op_ok op A ->
  exists s' out, run_op op s = Some (s', out) /\ signal_is n s' (op_spec op A) /\
    forall o, op_heard op A -> coherent n o A -> coherent n (deliver o out) (op_spec op A).
Proof.
  intros Hs Hop. destruct op as [bit|bit base|bit|bit base| |base wid|val mask|fl|base wid fl]; cbn [run_op op_spec op_ok op_heard] in *.
  - destruct Hop as [W S]. destruct (recv_vec4_0_spec n s A bit Hs W S) as (s' & out & E & Hs' & Hu).
    eexists _, _. split; [exact E|]. split; [done|]. intros o _. by apply catches_up_coherent with (A := A).
  - destruct (recv_vec4_pv_0_spec n s A bit base Hs Hop) as (s' & out & E & Hs' & Hu).
    eexists _, _. split; [exact E|]. split; [done|]. intros o _. by apply catches_up_coherent with (A := A).
  - destruct Hop as [W S]. destruct (recv_vec4_1_spec n s A bit Hs W S) as (s' & out & E & Hs' & Hu).
    eexists _, _. split; [exact E|]. split; [done|]. intros o _. by apply catches_up_coherent with (A := A).
  - destruct (recv_vec4_pv_1_spec n s A bit base Hs Hop) as (s' & out & E & Hs' & Hu).
    eexists _, _. split; [exact E|]. split; [done|]. intros o _. by apply catches_up_coherent with (A := A).
  - eexists _, _. split; [done|]. split; [by apply deassign_spec|]. done.
  - destruct Hop as [Hfit Ha]. destruct (deassign_pv_spec n s A base wid Hs Hfit Ha) as (s' & -> & Hs'). by eexists _, _.
  - destruct Hop as (W & S & Wm & Sm & Hseen). destruct (force_vec4_spec n s A val mask Hs W S Wm Sm) as (s' & out & E & Hs' & Ho).
    eexists _, _. split; [exact E|]. split; [done|]. auto.
  - apply release_spec; [done..].
  - destruct Hop as [Hfit Hpos]. by apply release_pv_spec.
Qed.

Fixpoint run_ops (ops : list sig_op) s : result :=
  match ops with
  | [] => Some (s, [])
  | op :: ops => '(s, out1) ← run_op op s; '(s, out2) ← run_ops ops s; Some (s, out1 ++ out2)
  end.

Definition ops_spec (ops : list sig_op) A : asig := fold_left (fun A op => op_spec op A) ops A.

(** [P] of each operation, where it happens. *)
Fixpoint along (P : sig_op -> asig -> Prop) (ops : list sig_op) A : Prop :=
  match ops with [] => True | op :: ops => P op A /\ along P ops (op_spec op A) end.

Lemma run_ops_spec ops s A : signal_is n s A -> along op_ok ops A ->
  exists s' out, run_ops ops s = Some (s', out) /\ signal_is n s' (ops_spec ops A) /\
    forall o, along op_heard ops A -> coherent n o A -> coherent n (deliver o out) (ops_spec ops A).
Proof.
  revert s A. induction ops as [|op ops IH]; intros s A Hs Hops; [by eexists _, _|].
  destruct Hops as [Hop Hops]. destruct (run_op_spec op s A Hs Hop) as (s1 & out1 & E1 & Hs1 & Ho1).
  destruct (IH s1 _ Hs1 Hops) as (s2 & out2 & E2 & Hs2 & Ho2). cbn [run_ops]. rewrite E1. cbn [mbind option_bind]. rewrite E2.
  eexists _, _. split; [done|]. split; [done|]. intros o [Hh1 Hh2] Hc. unfold deliver. rewrite fold_left_app. apply Ho2; [done|]. by apply Ho1.
Qed.

(** The variable after its first value, [init], was sent. *)
Definition initial (init : vvp_bit4_t) : asig := ASig (fun _ => init) (fun _ => false) (fun _ => None).

Lemma new_variable_spec init :
  exists s, recv_vec4 (new_variable n init) 0 (vec4_value (fil (new_variable n init))) = Some (s, [Callbacks; SendVec4 (vec4_fill n init)]) /\
    signal_is n s (initial init).
Proof.
  unfold recv_vec4, send_vec4, filter_vec4. cbn -[vec4_fill]. change (size (vec4_fill n init)) with n; change (size (vec4_fill n BIT4_X)) with n. rewrite !Nat.eqb_refl, (proj2 (Nat.eqb_neq n 0)) by lia.
  rewrite andb_false_r. cbn -[vec4_fill]. eexists. split; [done|].
  assert (Hv : forall i, (i < n)%nat -> value (vec4_fill n init) i = init) by (intros i Hi; by apply vec4_fill_value).
  constructor; cbn -[vec4_fill]; try done; try apply null_ok; try apply vec4_fill_wf.
  constructor; cbn -[vec4_fill]; try done; try apply null_ok; try apply vec4_fill_wf. by right.
Qed.
End Ops.

(** C7. A variable does what its abstract signal does, bit by bit, through every
    sequence of assignments, procedural continuous assignments, forces and their
    ends, in whole and in part, in which each operation has operands that fit
    ([op_ok]): a value assigned to the whole is as wide as the variable and one that
    is assigned continuously at least as wide; a part may reach out of the variable
    when it is assigned, but not when it is deassigned or released; a force has a
    value and a mask as wide as the variable, and where the mask is clear the value
    that is seen; and a part is deassigned only while some bit of the variable is
    under a continuous assignment - otherwise the code fails an assertion, see
    [deassign_part_fails].  Then no assertion fails, the value that the simulation
    reads is the one that is seen of the abstract signal, and what the fan-out was
    sent is that value too, when no release gives way to an assigned value other than
    the one that was seen ([op_heard]; the code does not send that value, see
    [release_not_heard]). *)
Theorem signal_refines n init ops : (0 < n)%nat -> along n (op_ok n) ops (initial init) ->
  exists s0 out0 s out, recv_vec4 (new_variable n init) 0 (vec4_value (fil (new_variable n init))) = Some (s0, out0) /\
    run_ops n ops s0 = Some (s, out) /\
    size (vec4_value (fil s)) = n /\ (forall i, (i < n)%nat -> value (vec4_value (fil s)) i = seen (ops_spec n ops (initial init)) i) /\
    (along n (op_heard n) ops (initial init) ->
     forall o i, (i < n)%nat -> deliver o (out0 ++ out) i = seen (ops_spec n ops (initial init)) i).
Proof.
  intros Hn Hops. destruct (new_variable_spec n Hn init) as (s0 & E0 & Hs0).
  destruct (run_ops_spec n ops s0 _ Hs0 Hops) as (s & out & E & Hs & Ho). exists s0, [Callbacks; SendVec4 (vec4_fill n init)], s, out.
  destruct (vec4_value_spec n (fil s) _ _ (sig_wire _ _ _ Hs)) as (_ & Sv & Vv).
  split; [done|]. split; [done|]. split; [done|]. split; [exact Vv|]. intros Hh o i Hi. unfold deliver. rewrite fold_left_app.
  apply Ho; [done| |done]. intros j Hj. cbn -[vec4_fill]. by apply vec4_fill_value.
Qed.

(** ** At work *)

Lemma vec4_of_Z_wf m z : vec_wf (vec4_of_Z m z).
Proof.
  split; split; cbn [vec4_of_Z size abits bbits]; rewrite ?length_map, ?length_seq, ?length_replicate; try done; [|by apply replicate_words].
  apply List.Forall_map, List.Forall_forall. intros k _. unfold is_word. pose proof (Z.mod_pos_bound (Z.shiftr (z mod 2 ^ Z.of_nat m) (64 * Z.of_nat k)) (2 ^ 64)). lia.
Qed.

(** A byte is assigned 0xa5, its low half forced to 3, assigned 0x5a behind the force
    and released, held at 0xc3 by a continuous assignment, which ends in its low half,
    and forced and released as a net. *)
Definition sample_ops : list sig_op :=
  [Assign (vec4_of_Z 8 0xa5); Force (vec4_of_Z 8 0xa3) (vec2_of_word 0x0f 8); Assign (vec4_of_Z 8 0x5a); ReleasePart 0 4 false;
   Cassign (vec4_of_Z 8 0xc3); DeassignPart 0 4; AssignPart (vec4_fill 3 BIT4_Z) 1; Force (vec4_fill 8 BIT4_X) (vec2_fill true 8); Release true].

Lemma signal_refines_witness :
  exists s0 out0 s out, recv_vec4 (new_variable 8 BIT4_X) 0 (vec4_value (fil (new_variable 8 BIT4_X))) = Some (s0, out0) /\
    run_ops 8 sample_ops s0 = Some (s, out) /\
    size (vec4_value (fil s)) = 8%nat /\
    (forall i, (i < 8)%nat -> value (vec4_value (fil s)) i = seen (ops_spec 8 sample_ops (initial BIT4_X)) i) /\
    (along 8 (op_heard 8) sample_ops (initial BIT4_X) ->
     forall o i, (i < 8)%nat -> deliver o (out0 ++ out) i = seen (ops_spec 8 sample_ops (initial BIT4_X)) i).
Proof.
  assert (Hw : forall z, vec_wf (vec4_of_Z 8 z)) by (intros z; apply vec4_of_Z_wf).
  apply (signal_refines 8 BIT4_X sample_ops); [lia|].
  split; [by split|]. split; [split; [done|]; split; [done|]; split; [by apply (vec2_of_word_spec 0x0f 8); [|lia|]|]; split; [done|]|].
  { intros i Hi. do 8 (destruct i as [|i]; [vm_compute; congruence|]). lia. }
  split; [by split|]. split; [split; lia|]. split; [split; [done|cbn; lia]|].
  split; [split; [lia|]; exists 7%nat; split; [lia|by vm_compute]|]. split; [by apply vec4_fill_wf|].
  split; [split; [by apply vec4_fill_wf|]; split; [done|]; split; [by apply vec2_fill_wf|]; split; [done|]|by split].
  intros i Hi. do 8 (destruct i as [|i]; [vm_compute; congruence|]). lia.
Defined.

(** A variable that is assigned 5 continuously and forced to 255 is 5 again when the
    force is released, but nothing is sent: the fan-out keeps 255. *)
Lemma release_not_heard :
  let ops := [Assign (vec4_of_Z 8 0); Cassign (vec4_of_Z 8 5); Force (vec4_of_Z 8 255) (vec2_fill true 8); Release false] in
  exists s0 out0 s out, recv_vec4 (new_variable 8 BIT4_X) 0 (vec4_value (fil (new_variable 8 BIT4_X))) = Some (s0, out0) /\
    run_ops 8 ops s0 = Some (s, out) /\ vec4_value (fil s) = vec4_of_Z 8 5 /\ List.last out Callbacks = SendVec4 (vec4_of_Z 8 255).
Proof. cbv zeta. do 4 eexists. split; [vm_compute; reflexivity|]. split; [vm_compute; reflexivity|]. split; vm_compute; reflexivity. Qed.

(** A part of a variable that no assignment holds cannot be deassigned. *)
Lemma deassign_part_fails n init base wid : (0 < wid)%nat -> deassign_pv (new_variable n init) base wid = None.
Proof.
  intros Hw. unfold deassign_pv, mask_range. destruct wid as [|wid]; [lia|]. cbn [for_loop mbind option_bind new_variable fun_ assign_mask_].
  replace (vec2_set_bit vec2_null (base + 0) false) with (@None vvp_vector2_t) by (unfold vec2_set_bit; cbn; by destruct (base + 0)%nat).
  assert (E : for_loop wid 1 (fun idx m => m ← m; vec2_set_bit m (base + idx) false) None = None); [|by rewrite E].
  apply (for_loop_ind (fun _ s => s = None)); [done|]. by intros i s' _ ->.
Qed.
