(* ===== verification/Process.v ===== *)
(** * Process: the instructions that write to nets (vvp/vthread.cc)

    A process is a thread with the nets it reads and writes.  The instructions of
    Machine see the nets through the class [World]; those here change them.  The
    handlers take the node of [cp->net] and give it back with what it did to the rest
    of the design.  The links of [force] and [assign] to other nets are not modelled:
    nothing is linked to a port of the node. *)

From stdpp Require Import gmap.
From S2P Require Import Prelude FourState Vector4 Vector4Ops Vector2 Thread Machine Signal.
Import Bit4.

Open Scope ivl_scope.

Record process_t : Type := Process {
  nets_ : gmap nat vvp_net_t;
  thread_ : vthread_s;
  emitted : list (nat * sent);
}.

(** What the other instructions read of the nets. *)
Definition world_of (stopped : bool) (nets : gmap nat vvp_net_t) : World := {|
  schedule_stopped := stopped;
  sig_vec4_value := fun n => (fun s => vec4_value (fil s)) <$> nets !! n;
|}.

(** The thread, the node and what it sent, after an instruction that goes on. *)
Definition outcome_t : Type := option (vthread_s * vvp_net_t * list sent).

Definition value_size (n : vvp_net_t) : nat := size (wire_bits4_ (fil n)).

(** [resize_rval_vec]: the part of the value in the bounds of the signal, and its
    offset; [None] is [false]. *)
Definition resize_rval_vec (val : vvp_vector4_t) (off : Z) (sig_wid : nat) : option (vvp_vector4_t * Z) :=
  let wid := Z.of_nat (size val) in
  let sig_wid := Z.of_nat sig_wid in
  if (0 <=? off) && (off + wid <=? sig_wid) then Some (val, off)
  else
    let clipped (base wid off : Z) :=
      let wid := if sig_wid <? off + wid then sig_wid - off else wid in
      Some (subvalue val (Z.to_nat base) (Z.to_nat wid), off) in
    if 0 <=? off then if sig_wid <=? off then None else clipped 0 wid off
    else if wid <=? - off then None else clipped (- off) (wid + off) 0.

Section Handlers.
Context {O : Type}.
Implicit Types (thr : vthread_s) (cp : vvp_code_s O) (n : vvp_net_t).

(** What a node did for an instruction. *)
Definition done_by thr (r : result) : outcome_t := '(n, out) ← r; Some (thr, n, out).

Definition of_STORE_VEC4 thr cp n : outcome_t :=
  let wid := Z.to_nat (bit_idx1 cp) in
  let indexed := negb (bit_idx0 cp =? 0) in
  off ← (if indexed then w ← get_word thr (bit_idx0 cp); Some (s64 w) else Some 0);
  '(val, thr) ← pop_vec4 thr;
  if (wid <=? size val)%nat then
    let val := if (wid <? size val)%nat then resize val wid BIT4_X else val in
    flag ← get_flag thr 4;
    if indexed && bool_decide (flag = BIT4_1) then Some (thr, n, [])
    else
      match resize_rval_vec val off (value_size n) with
      | None => Some (thr, n, [])
      | Some (val, off) =>
        if (off =? 0) && (size val =? value_size n)%nat then done_by thr (recv_vec4 n 0 val)
        else done_by thr (recv_vec4_pv n 0 val (Z.to_nat off) (value_size n))
      end
  else None.

Definition of_CASSIGN_VEC4 thr cp n : outcome_t :=
  '(value, thr) ← pop_vec4 thr; done_by thr (recv_vec4 n 1 value).

Definition of_CASSIGN_VEC4_OFF thr cp n : outcome_t :=
  w ← get_word thr (bit_idx0 cp);
  let base := s64 w in
  '(value, thr) ← pop_vec4 thr;
  let wid := Z.of_nat (size value) in
  flag ← get_flag thr 4;
  if bool_decide (flag = BIT4_1) then Some (thr, n, [])
  else if (base <? 0) && (wid <=? u32 (- base)) then Some (thr, n, [])
  else if Z.of_nat (value_size n) <=? base then Some (thr, n, [])
  else
    let '(wid, base, value) :=
      if base <? 0 then let wid := wid - u32 (- base) in (wid, 0, resize value (Z.to_nat wid) BIT4_X) else (wid, base, value) in
    let value :=
      if Z.of_nat (value_size n) <? base + wid then resize value (value_size n - Z.to_nat base) BIT4_X else value in
    done_by thr (recv_vec4_pv n 1 value (Z.to_nat base) (value_size n)).

(** [base] and [width] of a part of the signal, clipped to it; [None] when it is outside. *)
Definition clip_part cp n : option (nat * nat) :=
  let wid := Z.of_nat (value_size n) in
  let base := bit_idx0 cp in
  if wid <=? base then None
  else
    let width := if wid <? u32 (base + bit_idx1 cp) then wid - base else bit_idx1 cp in
    Some (Z.to_nat base, Z.to_nat width).

Definition of_DEASSIGN thr cp n : outcome_t :=
  match clip_part cp n with
  | None => Some (thr, n, [])
  | Some (base, width) =>
    if (base =? 0)%nat && (width =? value_size n)%nat then Some (thr, deassign n, [])
    else n ← deassign_pv n base width; Some (thr, n, [])
  end.

Definition of_FORCE_VEC4 thr cp n : outcome_t :=
  '(value, thr) ← pop_vec4 thr;
  value ← (if (size value =? value_size n)%nat then Some value else coerce_to_width value (value_size n));
  done_by thr (force_vec4 n value (vec2_fill true (value_size n))).

(** An [unsigned] index that must be below [bound]: the callee asserts it. *)
Definition index_below (bound : nat) (i : Z) : option nat := if u32 i <? Z.of_nat bound then Some (Z.to_nat (u32 i)) else None.

Definition of_FORCE_VEC4_OFF thr cp n : outcome_t :=
  w ← get_word thr (bit_idx0 cp);
  let base := s64 w in
  '(value, thr) ← pop_vec4 thr;
  flag ← get_flag thr 4;
  let use_size := Z.of_nat (value_size n) in
  if bool_decide (flag = BIT4_1) then Some (thr, n, [])
  else if use_size <=? base then Some (thr, n, [])
  else if base <? - use_size then Some (thr, n, [])
  else
    let wid := if use_size <? base + Z.of_nat (size value) then Z.to_nat (use_size - base) else size value in
    mask ← for_loop wid 0 (fun idx m => m ← m; i ← index_below (value_size n) (base + Z.of_nat idx); vec2_set_bit m i true)
             (Some (vec2_fill false (value_size n)));
    let tmp := vec4_value (fil n) in
    adr ← index_below (value_size n) base;
    '(tmp, _) ← set_vec tmp adr value;
    done_by thr (force_vec4 n tmp mask).

Definition do_release_vec thr cp n (net_flag : bool) : outcome_t :=
  match clip_part cp n with
  | None => Some (thr, n, [])
  | Some (base, width) =>
    done_by thr (if (base =? 0)%nat && (width =? value_size n)%nat then release n net_flag else release_pv n base width net_flag)
  end.

Definition of_RELEASE_NET thr cp n : outcome_t := do_release_vec thr cp n true.
Definition of_RELEASE_REG thr cp n : outcome_t := do_release_vec thr cp n false.
End Handlers.

(** The handler of an instruction that writes to its net. *)
Definition net_handler (op : vm_op) : option (vthread_s -> vvp_code_t -> vvp_net_t -> outcome_t) :=
  match op with
  | OP_STORE_VEC4 => Some of_STORE_VEC4
  | OP_CASSIGN_VEC4 => Some of_CASSIGN_VEC4
  | OP_CASSIGN_VEC4_OFF => Some of_CASSIGN_VEC4_OFF
  | OP_DEASSIGN => Some of_DEASSIGN
  | OP_FORCE_VEC4 => Some of_FORCE_VEC4
  | OP_FORCE_VEC4_OFF => Some of_FORCE_VEC4_OFF
  | OP_RELEASE_NET => Some of_RELEASE_NET
  | OP_RELEASE_REG => Some of_RELEASE_REG
  | _ => None
  end.

(** One round of the loop of [vthread_run]. *)
Definition process_step (stopped : bool) (code : list vvp_code_t) (P : process_t) : option (process_t * bool) :=
  let thr := thread_ P in
  cp ← code !! pc thr;
  let thr := with_pc thr (S (pc thr)) in
  match net_handler (opcode cp) with
  | Some handler =>
    n ← nets_ P !! net cp;
    '(thr, n, out) ← handler thr cp n;
    Some (Process (<[net cp := n]> (nets_ P)) thr (emitted P ++ map (pair (net cp)) out), true)
  | None => '(thr, rc) ← @call_opcode (world_of stopped (nets_ P)) thr cp; Some (Process (nets_ P) thr (emitted P), rc)
  end.

(** At most [fuel] rounds. *)
Fixpoint process_run (fuel : nat) (stopped : bool) (code : list vvp_code_t) (P : process_t) : option process_t :=
  match fuel with
  | O => None
  | S fuel => '(P, rc) ← process_step stopped code P; if rc : bool then process_run fuel stopped code P else Some P
  end.
