(* ===== verification/ProcessSpec.v ===== *)
(** * ProcessSpec: what the instructions that write to nets do

    [net_effect] gives the step of such an instruction on the abstract thread of
    ThreadSpec and the abstract signal of SignalSpec; every handler of Process takes
    that step.  Processes then run through their code. *)

From stdpp Require Import gmap relations.

From S2P Require Import Prelude FourState Vector4 Vector4Value Vector4Ops Vector4Parts Vector4Copy Vector2 Vector2Value Bits Thread ThreadSpec.
From S2P Require Import ThreadCmp ThreadData Machine MachineRun EmitWp EmitOps Signal SignalSpec Process.
Import Bit4.

Open Scope ivl_scope.

(** ** Values over a signal *)

(** Bit [i] of a signal is bit [i - off] of the value, if there is one. *)
Definition reaches_bit (off : Z) (l : bits) (i : nat) : bool := (off <=? Z.of_nat i) && (Z.of_nat i - off <? Z.of_nat (length l)).
Definition bit_from (off : Z) (l : bits) (i : nat) : vvp_bit4_t := bit_at l (Z.to_nat (Z.of_nat i - off)).

(** A value is stored at an offset, as far as it is in the signal and the bits are
    not assigned continuously. *)
Definition a_store (off : Z) (l : bits) (A : asig) : asig :=
  ASig (fun i => if reaches_bit off l i && negb (asn A i) then bit_from off l i else cur A i) (asn A) (frc A).

Definition a_hold (off : Z) (l : bits) (A : asig) : asig :=
  ASig (fun i => if reaches_bit off l i then bit_from off l i else cur A i) (fun i => reaches_bit off l i || asn A i) (frc A).

Definition a_force_at (off : Z) (l : bits) (A : asig) : asig := a_force (reaches_bit off l) (bit_from off l) A.

(** The signal as its bits. *)
Definition seen_bits_of (n : nat) (A : asig) : bits := map_bits n (seen A).

(** An index register and flag 4: the offset, or nothing when it is unknown. *)
Inductive offset_is (i : nat) (fl : list vvp_bit4_t) (ws : list Z) : option Z -> Prop :=
  | offset_unknown w : ws !! i = Some w -> fl !! 4%nat = Some BIT4_1 -> offset_is i fl ws None
  | offset_known w b : ws !! i = Some w -> fl !! 4%nat = Some b -> b <> BIT4_1 -> offset_is i fl ws (Some (s64 w)).

Definition at_offset (f : Z -> bits -> asig -> asig) (off : option Z) (l : bits) (A : asig) : asig :=
  match off with Some off => f off l A | None => A end.

(** A release or the end of an assignment: the part that is in the signal. *)
Definition part_width (n base wid : nat) : nat := Nat.min wid (n - base).
Definition on_part (f : nat -> nat -> asig -> asig) (n base wid : nat) (A : asig) : asig :=
  if (n <=? base)%nat then A else f base (part_width n base wid) A.

Definition in_signal (n : nat) (off : Z) (l : bits) : Prop := 0 <= off /\ off + Z.of_nat (length l) <= Z.of_nat n.

Definition part_fits (cp : vvp_code_t) : Prop := 0 <= bit_idx0 cp /\ 0 < bit_idx1 cp /\ bit_idx0 cp + bit_idx1 cp < 2 ^ 32.

(** The step of [cp] on a thread and the signal of [n] bits at [net cp]. *)
Inductive net_effect (cp : vvp_code_t) (n : nat) : abs -> asig -> abs -> asig -> Prop :=
  | ne_store fl ws l ls A : opcode cp = OP_STORE_VEC4 -> bit_idx0 cp = 0 -> Z.to_nat (bit_idx1 cp) = length l ->
      net_effect cp n (Abs fl ws (l :: ls)) A (Abs fl ws ls) (a_store 0 l A)
  | ne_store_at off fl ws l ls A : opcode cp = OP_STORE_VEC4 -> 0 < bit_idx0 cp -> Z.to_nat (bit_idx1 cp) = length l ->
      offset_is (Z.to_nat (bit_idx0 cp)) fl ws off ->
      net_effect cp n (Abs fl ws (l :: ls)) A (Abs fl ws ls) (at_offset a_store off l A)
  | ne_cassign fl ws l ls A : opcode cp = OP_CASSIGN_VEC4 -> length l = n ->
      net_effect cp n (Abs fl ws (l :: ls)) A (Abs fl ws ls) (a_hold 0 l A)
  | ne_cassign_at off fl ws l ls A : opcode cp = OP_CASSIGN_VEC4_OFF -> offset_is (Z.to_nat (bit_idx0 cp)) fl ws off ->
      (forall o, off = Some o -> 0 <= o) ->
      net_effect cp n (Abs fl ws (l :: ls)) A (Abs fl ws ls) (at_offset a_hold off l A)
  | ne_deassign A S : opcode cp = OP_DEASSIGN -> part_fits cp ->
      (Z.to_nat (bit_idx0 cp) = 0 /\ n <= Z.to_nat (bit_idx1 cp) \/ n <= Z.to_nat (bit_idx0 cp) \/ exists i, i < n /\ asn A i = true)%nat ->
      net_effect cp n S A S (on_part a_deassign n (Z.to_nat (bit_idx0 cp)) (Z.to_nat (bit_idx1 cp)) A)
  | ne_force fl ws l ls A : opcode cp = OP_FORCE_VEC4 -> length l = n ->
      net_effect cp n (Abs fl ws (l :: ls)) A (Abs fl ws ls) (a_force_at 0 l A)
  | ne_force_at off fl ws l ls A : opcode cp = OP_FORCE_VEC4_OFF -> offset_is (Z.to_nat (bit_idx0 cp)) fl ws off ->
      (forall o, off = Some o -> in_signal n o l \/ Z.of_nat n <= o \/ o < - Z.of_nat n) -> Z.of_nat n < 2 ^ 32 -> (length l <= n)%nat ->
      net_effect cp n (Abs fl ws (l :: ls)) A (Abs fl ws ls) (at_offset a_force_at off l A)
  | ne_release (net_flag : bool) A S : opcode cp = (if net_flag then OP_RELEASE_NET else OP_RELEASE_REG) -> part_fits cp ->
      release_seen n net_flag (Z.to_nat (bit_idx0 cp)) (part_width n (Z.to_nat (bit_idx0 cp)) (Z.to_nat (bit_idx1 cp))) A ->
      net_effect cp n S A S (on_part (a_release net_flag) n (Z.to_nat (bit_idx0 cp)) (Z.to_nat (bit_idx1 cp)) A).

(** ** The value that reaches the signal *)

(** Decides the tests of a value at an offset. *)
Ltac reach :=
  unfold reaches_bit, bit_from, over in *;
  repeat match goal with
  | |- context [(?a <=? ?b)%nat] => destruct (Nat.leb_spec a b)
  | |- context [(?a <? ?b)%nat] => destruct (Nat.ltb_spec a b)
  | |- context [?a <=? ?b] => destruct (Z.leb_spec a b)
  | |- context [?a <? ?b] => destruct (Z.ltb_spec a b)
  end; cbn [andb orb negb] in *; try done; try lia.

Lemma bit_at_prefix l k i : (i < k)%nat -> bit_at (take k l) i = bit_at l i.
Proof. intros Hi. unfold bit_at. by rewrite !nth_lookup, lookup_take_lt. Qed.

Lemma reaches_none off l i : Z.of_nat (length l) + off <= 0 -> reaches_bit off l i = false.
Proof. intros H. reach. Qed.

Lemma reaches_above n off l i : Z.of_nat n <= off -> (i < n)%nat -> reaches_bit off l i = false.
Proof. intros H Hi. reach. Qed.

Lemma resize_rval_spec v l off n : vec_is v l -> (0 < length l)%nat ->
  match resize_rval_vec v off n with
  | None => forall i, (i < n)%nat -> reaches_bit off l i = false
  | Some (v', off') => 0 <= off' /\ off' + Z.of_nat (size v') <= Z.of_nat n /\ vec_wf v' /\
      forall i, (i < n)%nat -> reaches_bit off l i = (Z.to_nat off' <=? i)%nat && (i <? Z.to_nat off' + size v')%nat /\
        (reaches_bit off l i = true -> bit_from off l i = value v' (i - Z.to_nat off')%nat)
  end.
Proof.
  intros V Hl. unfold resize_rval_vec. rewrite (is_size v l V).
  destruct ((0 <=? off) && (off + Z.of_nat (length l) <=? Z.of_nat n)) eqn:Hin.
  - apply andb_prop in Hin as [H0%Z.leb_le Hn%Z.leb_le]. rewrite (is_size v l V). split; [done|]. split; [done|]. split; [apply V|].
    intros i Hi. split; [reach|]. intros Hr. rewrite (is_bits v l V). unfold bit_from. f_equal. revert Hr. reach.
  - assert (Hsub : forall (base wid : Z), 0 <= base -> 0 <= wid -> let r := subvalue v (Z.to_nat base) (Z.to_nat wid) in
      vec_wf r /\ size r = Z.to_nat wid /\ forall k, (k < Z.to_nat wid)%nat -> value r k = bit_at l (Z.to_nat base + k)).
    { intros base wid Hb Hw. destruct (subvalue_spec v (Z.to_nat base) (Z.to_nat wid) (is_wf v l V)) as (W & S & B).
      split; [done|]. split; [done|]. intros k Hk. by rewrite B, (is_bits v l V). }
    destruct (Z.leb_spec 0 off) as [H0|H0]; cbn [andb] in Hin.
    + apply Z.leb_gt in Hin. destruct (Z.leb_spec (Z.of_nat n) off); [intros i Hi; by apply (reaches_above n)|].
      rewrite (proj2 (Z.ltb_lt _ _)) by lia. destruct (Hsub 0 (Z.of_nat n - off)) as (W & S & B); [lia..|]. rewrite S.
      split; [done|]. split; [lia|]. split; [done|]. intros i Hi. split; [reach|]. intros Hr. rewrite B by (revert Hr; reach). unfold bit_from. f_equal. revert Hr. reach.
    + destruct (Z.leb_spec (Z.of_nat (length l)) (- off)); [intros i Hi; apply reaches_none; lia|].
      set (wid := if _ <? _ then _ else _). assert (Hw : wid = Z.min (Z.of_nat (length l) + off) (Z.of_nat n)) by (unfold wid; destruct (Z.ltb_spec (Z.of_nat n) (0 + (Z.of_nat (length l) + off))); lia).
      clearbody wid. destruct (Hsub (- off) wid) as (W & S & B); [lia..|]. rewrite S.
      split; [done|]. split; [lia|]. split; [done|]. intros i Hi. split; [reach|]. intros Hr. rewrite B by (revert Hr; reach). unfold bit_from. f_equal. revert Hr. reach.
Qed.

Lemma for_loop_ext_in {S : Type} (f g : nat -> S -> S) k : forall start s, (forall i s, (start <= i < start + k)%nat -> f i s = g i s) ->
  for_loop k start f s = for_loop k start g s.
Proof using.
  induction k as [|k IH]; intros start s Hfg; [done|]. cbn [for_loop]. rewrite Hfg by lia. apply IH. intros i s' Hi. apply Hfg. lia.
Qed.

(** ** The node *)

(** The call leaves the node with the signal [A'], and the receivers learn of it. *)
Definition updates (n : nat) (r : result) (A A' : asig) : Prop :=
  exists s' out, r = Some (s', out) /\ signal_is n s' A' /\ forall o, coherent n o A -> coherent n (deliver o out) A'.

Section Node.
Variable n : nat.
Implicit Types (s : vvp_net_t) (A : asig).

Lemma value_size_is s A : signal_is n s A -> value_size s = n.
Proof. intros Hs. apply (wire_size _ _ _ _ (sig_wire _ _ _ Hs)). Qed.

Lemma updates_ext r A A' A'' : updates n r A A' -> (forall i, (i < n)%nat -> cur A' i = cur A'' i) -> (forall i, (i < n)%nat -> asn A' i = asn A'' i) ->
  (forall i, (i < n)%nat -> frc A' i = frc A'' i) -> updates n r A A''.
Proof.
  intros (s' & out & E & Hs & Ho) Hc Ha Hf. exists s', out. split; [done|]. split; [by eapply signal_ext|].
  intros o Hco i Hi. rewrite (Ho o Hco i Hi). unfold seen. by rewrite Hc, Hf.
Qed.

Lemma updates_same s A A' : signal_is n s A -> (forall i, (i < n)%nat -> cur A i = cur A' i) -> (forall i, (i < n)%nat -> asn A i = asn A' i) ->
  (forall i, (i < n)%nat -> frc A i = frc A' i) -> updates n (Some (s, [])) A A'.
Proof. intros Hs. apply updates_ext. exists s, []. done. Qed.

Lemma updates_by r A A' : (exists s' out, r = Some (s', out) /\ signal_is n s' A' /\ catches_up n out A A') ->
  (forall i, (i < n)%nat -> frc A' i = frc A i) -> updates n r A A'.
Proof. intros (s' & out & E & Hs & Hc) Hf. exists s', out. split; [done|]. split; [done|]. intros o. by apply catches_up_coherent. Qed.

Lemma store_spec s A v l off : signal_is n s A -> vec_is v l -> (0 < length l)%nat ->
  updates n (match resize_rval_vec v off n with
             | None => Some (s, [])
             | Some (v', off') => if (off' =? 0) && (size v' =? n)%nat then recv_vec4 s 0 v' else recv_vec4_pv s 0 v' (Z.to_nat off') n
             end) A (a_store off l A).
Proof.
  intros Hs V Hl. pose proof (resize_rval_spec v l off n V Hl) as Hr. destruct (resize_rval_vec v off n) as [[v' off']|].
  - destruct Hr as (H0 & Hn & W & Hb).
    assert (E : forall i, (i < n)%nat -> cur (a_assign (Z.to_nat off') (size v') (value v') A) i = cur (a_store off l A) i).
    { intros i Hi. destruct (Hb i Hi) as [Hin Hv]. cbn. unfold over. rewrite <- Hin. destruct (reaches_bit off l i); [|done]. rewrite Hv by done. by destruct (asn A i). }
    destruct ((off' =? 0) && (size v' =? n)%nat) eqn:Ef.
    + apply andb_prop in Ef as [->%Z.eqb_eq Hsz%Nat.eqb_eq]. change (Z.to_nat 0) with 0%nat in E. rewrite Hsz in E.
      apply (updates_ext _ _ (a_assign 0 n (value v') A)); [|done..]. by apply updates_by; [apply recv_vec4_0_spec|].
    + apply (updates_ext _ _ (a_assign (Z.to_nat off') (size v') (value v') A)); [|done..]. by apply updates_by; [apply recv_vec4_pv_0_spec|].
  - apply updates_same; [done| |done..]. intros i Hi. cbn. by rewrite Hr.
Qed.
End Node.

(** ** The handlers *)

(** The handler goes on at [p] with the thread [S'] and the signal [A']. *)
Definition takes (r : outcome_t) (p n : nat) (A : asig) (S' : abs) (A' : asig) : Prop :=
  exists thr' s' out, r = Some (thr', s', out) /\ pc thr' = p /\ represents thr' S' /\ signal_is n s' A' /\
    forall o, coherent n o A -> coherent n (deliver o out) A'.

Section Handlers.
Variable n : nat.
Implicit Types (s : vvp_net_t) (A : asig) (thr : vthread_s) (cp : vvp_code_t).

Lemma done_by_takes thr S' r A A' : represents thr S' -> updates n r A A' -> takes (done_by thr r) (pc thr) n A S' A'.
Proof. intros R (s' & out & E & Hs & Ho). unfold done_by. rewrite E. by exists thr, s', out. Qed.

Lemma stays thr S' s A A' : represents thr S' -> signal_is n s A -> (forall i, (i < n)%nat -> cur A i = cur A' i) -> (forall i, (i < n)%nat -> asn A i = asn A' i) ->
  (forall i, (i < n)%nat -> frc A i = frc A' i) -> takes (Some (thr, s, [])) (pc thr) n A S' A'.
Proof. intros R Hs Hc Ha Hf. exact (done_by_takes thr S' (Some (s, [])) A A' R (updates_same n s A A' Hs Hc Ha Hf)). Qed.

(** The thread after its operand is popped. *)
Lemma pop_operand thr fl ws l ls : represents thr (Abs fl ws (l :: ls)) ->
  exists v thr', pop_vec4 thr = Some (v, thr') /\ vec_is v l /\ pc thr' = pc thr /\ represents thr' (Abs fl ws ls).
Proof. intros R. operands. eexists _, _. split; [reflexivity|]. split; [done|]. split; [done|]. by constructor. Qed.

Lemma represents_word thr fl ws ls i w : represents thr (Abs fl ws ls) -> ws !! Z.to_nat i = Some w -> get_word thr i = Some w.
Proof. intros [Ef Ew _] Hw. unfold get_word. by rewrite Ew. Qed.
Lemma represents_flag thr fl ws ls b : represents thr (Abs fl ws ls) -> fl !! 4%nat = Some b -> get_flag thr 4 = Some b.
Proof. intros [Ef Ew _] Hb. unfold get_flag. by rewrite Ef. Qed.

Lemma of_STORE_VEC4_spec thr cp fl ws l ls s A off : represents thr (Abs fl ws (l :: ls)) -> signal_is n s A -> (0 < length l)%nat ->
  (4 < length fl)%nat -> Z.to_nat (bit_idx1 cp) = length l ->
  (bit_idx0 cp = 0 /\ off = Some 0 \/ 0 < bit_idx0 cp /\ offset_is (Z.to_nat (bit_idx0 cp)) fl ws off) ->
  takes (of_STORE_VEC4 thr cp s) (pc thr) n A (Abs fl ws ls) (at_offset a_store off l A).
Proof.
  intros R Hs Hl Hf Hw Hoff. destruct (pop_operand thr fl ws l ls R) as (v & thr' & Ep & V & <- & R'). unfold of_STORE_VEC4. rewrite Hw.
  assert (Hb : exists b, fl !! 4%nat = Some b) by (apply lookup_lt_is_Some; exact Hf). destruct Hb as [b Hb].
  assert (Hgo : forall o, takes (match resize_rval_vec v o (value_size s) with
      | Some (v', o') => if (o' =? 0) && (size v' =? value_size s)%nat then done_by thr' (recv_vec4 s 0 v') else done_by thr' (recv_vec4_pv s 0 v' (Z.to_nat o') (value_size s))
      | None => Some (thr', s, []) end) (pc thr') n A (Abs fl ws ls) (a_store o l A)).
  { intros o. pose proof (store_spec n s A v l o Hs V Hl) as Hu. rewrite (value_size_is n s A Hs).
    destruct (resize_rval_vec v o n) as [[v' o']|]; [destruct (_ && _)|]; try exact (done_by_takes thr' _ _ A _ R' Hu). }
  assert (Ht : (length l <=? size v)%nat = true /\ (length l <? size v)%nat = false) by (rewrite (is_size v l V), Nat.leb_refl, Nat.ltb_irrefl; done).
  destruct Hoff as [[Hi ->]|[Hi Hoff]].
  - rewrite Hi. cbn [Z.eqb negb mbind option_bind andb]. rewrite Ep. cbn [mbind option_bind]. rewrite (proj1 Ht), (proj2 Ht), (represents_flag thr' fl ws ls b R' Hb). apply Hgo.
  - rewrite (proj2 (Z.eqb_neq (bit_idx0 cp) 0)) by lia. cbn [negb]. destruct Hoff as [w Hww H1|w b' Hww Hb' Hne].
    + rewrite (represents_word thr fl ws (l :: ls) _ w R Hww). cbn [mbind option_bind]. rewrite Ep. cbn [mbind option_bind].
      rewrite (proj1 Ht), (proj2 Ht), (represents_flag thr' fl ws ls _ R' H1). by apply (stays thr' _ s A A).
    + rewrite (represents_word thr fl ws (l :: ls) _ w R Hww). cbn [mbind option_bind]. rewrite Ep. cbn [mbind option_bind].
      rewrite (proj1 Ht), (proj2 Ht), (represents_flag thr' fl ws ls _ R' Hb'). cbn [mbind option_bind]. rewrite bool_decide_false by done. apply Hgo.
Qed.

Lemma of_CASSIGN_VEC4_spec thr cp fl ws l ls s A : represents thr (Abs fl ws (l :: ls)) -> signal_is n s A -> length l = n ->
  takes (of_CASSIGN_VEC4 thr cp s) (pc thr) n A (Abs fl ws ls) (a_hold 0 l A).
Proof.
  intros R Hs Hl. destruct (pop_operand thr fl ws l ls R) as (v & thr' & Ep & V & <- & R'). unfold of_CASSIGN_VEC4. rewrite Ep. cbn [mbind option_bind].
  apply done_by_takes; [done|]. pose proof (is_size v l V) as Sv.
  apply (updates_ext n _ _ (a_cassign 0 n (value v) A)).
  - apply updates_by; [|done]. apply recv_vec4_1_spec; [done|apply V|lia].
  - intros i Hi. cbn. rewrite over_in by lia. reach. by rewrite (is_bits v l V), Z.sub_0_r, Nat.sub_0_r, Nat2Z.id.
  - intros i Hi. cbn. rewrite over_in by lia. reach.
  - done.
Qed.

Lemma hold_spec s A v l off : signal_is n s A -> vec_is v l -> (off < n)%nat -> 
  updates n (recv_vec4_pv s 1 (if (n <? off + length l)%nat then resize v (n - off) BIT4_X else v) off n) A (a_hold (Z.of_nat off) l A).
Proof.
  intros Hs V Hoff. set (v' := if _ : bool then _ else _).
  assert (Hv : vec_is v' (take (n - off) l)).
  { unfold v'. destruct (Nat.ltb_spec n (off + length l)) as [Hlt|Hge].
    - eapply vec_is_ext; [by apply resize_is|]. apply bits_eq; [rewrite length_map_bits, length_take; lia|]. rewrite length_map_bits. intros i Hi.
      rewrite bit_at_map by done. rewrite (proj2 (Nat.ltb_lt _ _)) by lia. by rewrite bit_at_prefix by lia.
    - by rewrite take_ge by lia. }
  clearbody v'. pose proof (is_size v' _ Hv) as Sv. rewrite length_take in Sv.
  apply (updates_ext n _ _ (a_cassign off (size v') (value v') A)).
  - apply updates_by; [|done]. apply recv_vec4_pv_1_spec; [done|apply Hv].
  - intros i Hi. cbn. unfold over. reach. rewrite (is_bits v' _ Hv). rewrite bit_at_prefix by lia. f_equal. lia.
  - intros i Hi. cbn. unfold over. reach.
  - done.
Qed.

Lemma of_CASSIGN_VEC4_OFF_spec thr cp fl ws l ls s A off : represents thr (Abs fl ws (l :: ls)) -> signal_is n s A ->
  offset_is (Z.to_nat (bit_idx0 cp)) fl ws off -> (forall o, off = Some o -> 0 <= o) ->
  takes (of_CASSIGN_VEC4_OFF thr cp s) (pc thr) n A (Abs fl ws ls) (at_offset a_hold off l A).
Proof.
  intros R Hs Hoff H0. destruct (pop_operand thr fl ws l ls R) as (v & thr' & Ep & V & <- & R'). unfold of_CASSIGN_VEC4_OFF.
  destruct Hoff as [w Hww H1|w b' Hww Hb' Hne]; rewrite (represents_word thr fl ws (l :: ls) _ w R Hww); cbn [mbind option_bind]; rewrite Ep; cbn [mbind option_bind].
  - rewrite (represents_flag thr' fl ws ls _ R' H1). by apply (stays thr' _ s A A).
  - rewrite (represents_flag thr' fl ws ls _ R' Hb'). cbn [mbind option_bind]. rewrite bool_decide_false by done.
    specialize (H0 _ eq_refl). rewrite (proj2 (Z.ltb_ge _ _)) by done. cbn [andb]. rewrite (value_size_is n s A Hs), (is_size v l V).
    destruct (Z.leb_spec (Z.of_nat n) (s64 w)) as [Hge|Hlt].
    + apply (stays thr' _ s A); [done|done|intros i Hi; cbn; by rewrite (reaches_above n)..|done].
    + apply done_by_takes; [done|]. pose proof (hold_spec s A v l (Z.to_nat (s64 w)) Hs V ltac:(lia)) as Hu. rewrite Z2Nat.id in Hu by done.
      replace (Z.of_nat n <? s64 w + Z.of_nat (length l)) with (n <? Z.to_nat (s64 w) + length l)%nat; [done|].
      destruct (Nat.ltb_spec n (Z.to_nat (s64 w) + length l)), (Z.ltb_spec (Z.of_nat n) (s64 w + Z.of_nat (length l))); (done || lia).
Qed.

(** *** The end of an assignment or a force *)

Lemma clip_part_spec s A cp : signal_is n s A -> part_fits cp ->
  let base := Z.to_nat (bit_idx0 cp) in let wid := part_width n base (Z.to_nat (bit_idx1 cp)) in
  clip_part cp s = (if (n <=? base)%nat then None else Some (base, wid)) /\
  ((base < n)%nat -> (0 < wid)%nat /\ (base + wid <= n)%nat).
Proof.
  intros Hs (H0 & Hp & Hlt) base wid. unfold clip_part, u32. rewrite (value_size_is n s A Hs), Z.mod_small by lia. unfold wid, base, part_width.
  destruct (Z.leb_spec (Z.of_nat n) (bit_idx0 cp)), (Nat.leb_spec n (Z.to_nat (bit_idx0 cp))); try lia; (split; [|lia]); [done|]. do 2 f_equal.
  destruct (Z.ltb_spec (Z.of_nat n) (bit_idx0 cp + bit_idx1 cp)); lia.
Qed.

Lemma of_DEASSIGN_spec thr cp S s A : represents thr S -> signal_is n s A -> part_fits cp ->
  let base := Z.to_nat (bit_idx0 cp) in let wid := Z.to_nat (bit_idx1 cp) in
  (base = 0 /\ n <= wid \/ n <= base \/ exists i, i < n /\ asn A i = true)%nat ->
  takes (of_DEASSIGN thr cp s) (pc thr) n A S (on_part a_deassign n base wid A).
Proof.
  intros R Hs Hp base wid Hwhen. destruct (clip_part_spec s A cp Hs Hp) as [E Hw]. unfold of_DEASSIGN, on_part. rewrite E.
  fold base wid in Hw |- *. destruct (Nat.leb_spec n base) as [|Hlt]; [by apply (stays thr _ s A A)|]. rewrite (value_size_is n s A Hs).
  destruct ((base =? 0)%nat && (part_width n base wid =? n)%nat) eqn:Ef.
  - apply andb_prop in Ef as [->%Nat.eqb_eq ->%Nat.eqb_eq]. eexists _, _, _. split; [reflexivity|]. split; [done|]. split; [done|].
    split; [by apply deassign_spec|]. intros o Ho. done.
  - destruct Hwhen as [[H0 Hn]|[?|Hex]]; [|lia|].
    + exfalso. apply andb_false_iff in Ef as [?%Nat.eqb_neq|Hne%Nat.eqb_neq]; [done|]. apply Hne. unfold part_width. lia.
    + destruct (deassign_pv_spec n s A base (part_width n base wid) Hs ltac:(apply Hw; lia) Hex) as (s' & -> & Hs').
      eexists _, _, _. split; [reflexivity|]. done.
Qed.

(** The receivers learn of the release. *)
Lemma do_release_vec_spec thr cp S s A (net_flag : bool) : represents thr S -> signal_is n s A -> part_fits cp ->
  let base := Z.to_nat (bit_idx0 cp) in let wid := Z.to_nat (bit_idx1 cp) in
  release_seen n net_flag base (part_width n base wid) A ->
  takes (do_release_vec thr cp s net_flag) (pc thr) n A S (on_part (a_release net_flag) n base wid A).
Proof.
  intros R Hs Hp base wid Hseen. destruct (clip_part_spec s A cp Hs Hp) as [E Hw]. unfold do_release_vec, on_part. rewrite E.
  fold base wid in Hw |- *. destruct (Nat.leb_spec n base) as [|Hlt]; [by apply (stays thr _ s A A)|]. rewrite (value_size_is n s A Hs).
  destruct (Hw Hlt) as [Hpos Hfit]. apply done_by_takes; [done|].
  destruct ((base =? 0)%nat && (part_width n base wid =? n)%nat) eqn:Ef.
  - apply andb_prop in Ef as [Hb%Nat.eqb_eq Hw'%Nat.eqb_eq]. rewrite Hb, Hw' in *. destruct (release_spec n s A net_flag Hs) as (s' & out & Er & Hs' & Ho).
    exists s', out. split; [done|]. split; [done|]. intros o. by apply Ho.
  - destruct (release_pv_spec n s A base _ net_flag Hs Hfit Hpos) as (s' & out & Er & Hs' & Ho).
    exists s', out. split; [done|]. split; [done|]. intros o. by apply Ho.
Qed.

(** *** Forces *)

Lemma of_FORCE_VEC4_spec thr cp fl ws l ls s A : represents thr (Abs fl ws (l :: ls)) -> signal_is n s A -> length l = n ->
  takes (of_FORCE_VEC4 thr cp s) (pc thr) n A (Abs fl ws ls) (a_force_at 0 l A).
Proof.
  intros R Hs Hl. destruct (pop_operand thr fl ws l ls R) as (v & thr' & Ep & V & <- & R'). unfold of_FORCE_VEC4. rewrite Ep. cbn [mbind option_bind].
  rewrite (value_size_is n s A Hs), (is_size v l V), Hl, Nat.eqb_refl. cbn [mbind option_bind]. apply done_by_takes; [done|].
  apply (updates_ext n _ _ (a_force (vec2_value (vec2_fill true n)) (value v) A)); [|done|done|].
  - destruct (force_vec4_spec n s A v (vec2_fill true n) Hs (is_wf v l V)) as (s' & out & E & Hs' & Ho);
      [by rewrite (is_size v l V)|apply vec2_fill_wf|done|]. exists s', out. split; [done|]. split; [done|]. intros o _. apply Ho.
    intros i Hi Hm. by rewrite vec2_fill_value in Hm.
  - intros i Hi. cbn. rewrite vec2_fill_value by done. reach. by rewrite (is_bits v l V), Z.sub_0_r, Nat2Z.id.
Qed.

(** The mask of a part of the signal. *)
Lemma force_range_spec off wid : (off + wid <= n)%nat -> Z.of_nat n < 2 ^ 32 ->
  exists m, for_loop wid 0 (fun idx m => m ← m; i ← index_below n (Z.of_nat off + Z.of_nat idx); vec2_set_bit m i true) (Some (vec2_fill false n)) = Some m /\
    vec2_wf m /\ wid_ m = n /\ forall i, (i < n)%nat -> vec2_value m i = (off <=? i)%nat && (i <? off + wid)%nat.
Proof.
  intros Hfit Hn. destruct (mask_range_spec (vec2_fill false n) off wid true (vec2_fill_wf _ _) Hfit) as (m & Em & [W S V]).
  exists m. split; [|split; [done|]; split; [done|]].
  - rewrite <- Em. unfold mask_range. apply for_loop_ext_in. intros i m' Hi. destruct m' as [m'|]; [|done]. cbn [mbind option_bind].
    unfold index_below, u32. rewrite Z.mod_small, (proj2 (Z.ltb_lt _ _)) by lia. cbn [mbind option_bind]. do 2 f_equal. lia.
  - intros i Hi. rewrite V. unfold over. rewrite vec2_fill_value by done. by destruct (_ && _).
Qed.

Lemma force_at_spec s A v l off : signal_is n s A -> vec_is v l -> (0 < length l)%nat -> (off + length l <= n)%nat ->
  exists tmp d, set_vec (vec4_value (fil s)) off v = Some (tmp, d) /\
    forall m, vec2_wf m -> wid_ m = n -> (forall i, (i < n)%nat -> vec2_value m i = (off <=? i)%nat && (i <? off + length l)%nat) ->
    updates n (force_vec4 s tmp m) A (a_force_at (Z.of_nat off) l A).
Proof.
  intros Hs V Hpos Hfit. destruct (vec4_value_spec n (fil s) _ _ (sig_wire _ _ _ Hs)) as (Wt & St & Vt).
  destruct (set_vec_spec (vec4_value (fil s)) v off Wt (is_wf v l V)) as (tmp & d & Et & W & S & B & _); [rewrite ?St, (is_size v l V); lia..|].
  rewrite St, (is_size v l V) in *. exists tmp, d. split; [done|]. intros m Wm Sm Vm.
  assert (Hb : forall i, (i < n)%nat -> value tmp i = if (off <=? i)%nat && (i <? off + length l)%nat then bit_at l (i - off) else seen A i).
  { intros i Hi. rewrite B, (is_bits v l V), Vt by done. done. }
  apply (updates_ext n _ _ (a_force (vec2_value m) (value tmp) A)); [|done|done|].
  - destruct (force_vec4_spec n s A tmp m Hs W S Wm Sm) as (s' & out & E & Hs' & Ho). exists s', out. split; [done|]. split; [done|]. intros o _. apply Ho.
    intros i Hi Hm. rewrite Hb by done. rewrite Vm in Hm by done. by rewrite Hm.
  - intros i Hi. cbn. rewrite Vm, Hb by done. reach. do 2 f_equal. lia.
Qed.

Lemma of_FORCE_VEC4_OFF_spec thr cp fl ws l ls s A off : represents thr (Abs fl ws (l :: ls)) -> signal_is n s A ->
  offset_is (Z.to_nat (bit_idx0 cp)) fl ws off -> (forall o, off = Some o -> in_signal n o l \/ Z.of_nat n <= o \/ o < - Z.of_nat n) -> Z.of_nat n < 2 ^ 32 -> (0 < length l <= n)%nat ->
  takes (of_FORCE_VEC4_OFF thr cp s) (pc thr) n A (Abs fl ws ls) (at_offset a_force_at off l A).
Proof.
  intros R Hs Hoff H0 Hn Hl. destruct (pop_operand thr fl ws l ls R) as (v & thr' & Ep & V & <- & R'). unfold of_FORCE_VEC4_OFF.
  destruct Hoff as [w Hww H1|w b' Hww Hb' Hne]; rewrite (represents_word thr fl ws (l :: ls) _ w R Hww); cbn [mbind option_bind]; rewrite Ep; cbn [mbind option_bind].
  - rewrite (represents_flag thr' fl ws ls _ R' H1). by apply (stays thr' _ s A A).
  - rewrite (represents_flag thr' fl ws ls _ R' Hb'). cbn [mbind option_bind]. rewrite bool_decide_false by done. rewrite (value_size_is n s A Hs), (is_size v l V).
    cbn [at_offset]. destruct (Z.leb_spec (Z.of_nat n) (s64 w)) as [Hge|Hlt].
    { apply (stays thr' _ s A); [done|done|done|done|]. intros i Hi. cbn. by rewrite (reaches_above n). }
    destruct (Z.ltb_spec (s64 w) (- Z.of_nat n)).
    { apply (stays thr' _ s A); [done|done|done|done|]. intros i Hi. cbn. rewrite reaches_none by lia. done. }
    destruct (H0 _ eq_refl) as [[Hp Hfit]|[?|?]]; [|lia|lia]. rewrite (proj2 (Z.ltb_ge (Z.of_nat n) _)) by lia.
    set (off := Z.to_nat (s64 w)). replace (s64 w) with (Z.of_nat off) by lia.
    destruct (force_range_spec off (length l)) as (m & -> & Wm & Sm & Vm); [lia|done|]. cbn [mbind option_bind].
    unfold index_below, u32. rewrite Z.mod_small, (proj2 (Z.ltb_lt _ _)) by lia. cbn [mbind option_bind]. rewrite Nat2Z.id.
    destruct (force_at_spec s A v l off Hs V) as (tmp & d & -> & Hu); [lia..|]. cbn [mbind option_bind]. apply done_by_takes; [done|]. by apply Hu.
Qed.
End Handlers.

Lemma net_effect_step cp n thr S A S' A' s : net_effect cp n S A S' A' -> state_ok S -> represents thr S -> signal_is n s A ->
  exists handler, net_handler (opcode cp) = Some handler /\ takes (handler thr cp s) (pc thr) n A S' A' /\ state_ok S'.
Proof.
  intros He Hok R Hs. pose proof (sig_pos _ _ _ Hs) as Hn. destruct He as [fl ws l ls A Hop Hi Hw|off fl ws l ls A Hop Hi Hw Hoff|fl ws l ls A Hop Hl|off fl ws l ls A Hop Hoff Hp
    |A S Hop Hp Hwhen|fl ws l ls A Hop Hl|off fl ws l ls A Hop Hoff Hin Hw Hl|net_flag A S Hop Hp Hseen].
  all: try (pose proof (head_nonempty _ _ _ _ Hok) as Hne; pose proof (ok_tail _ _ _ _ Hok) as Htail).
  all: rewrite Hop; try (eexists; split; [reflexivity|]; split; [|done]).
  - apply (of_STORE_VEC4_spec n thr cp fl ws l ls s A (Some 0)); auto. pose proof (ok_flags _ Hok) as Hf. cbn in Hf. rewrite Hf. unfold FLAGS_COUNT. lia.
  - apply of_STORE_VEC4_spec; auto. pose proof (ok_flags _ Hok) as Hf. cbn in Hf. rewrite Hf. unfold FLAGS_COUNT. lia.
  - by apply of_CASSIGN_VEC4_spec.
  - by apply of_CASSIGN_VEC4_OFF_spec.
  - by apply of_DEASSIGN_spec.
  - by apply of_FORCE_VEC4_spec.
  - apply of_FORCE_VEC4_OFF_spec; auto.
  - destruct net_flag; eexists; (split; [reflexivity|]; split; [|done]); by apply do_release_vec_spec.
Qed.

(** ** Processes through their code

    [process_at] relates a process to an abstract thread and to the abstract signals
    by their names in the code; [transit] says that the code takes it from one
    address to another, with what is below the operands on the stack, and the words
    and flags in use, left alone. *)


(** The abstract signals. *)
Definition senv : Type := nat -> asig.
Definition set_signal (E : senv) (sig : nat) (A : asig) : senv := fun s => if (s =? sig)%nat then A else E s.

Lemma set_signal_eq E sig A : set_signal E sig A sig = A.
Proof. unfold set_signal. by rewrite Nat.eqb_refl. Qed.

Lemma set_signal_ne E sig A s : s <> sig -> set_signal E sig A s = E s.
Proof. intros Hs. unfold set_signal. by rewrite (proj2 (Nat.eqb_neq _ _) Hs). Qed.

(** What the process has sent from a net. *)
Definition sent_to (n : nat) (log : list (nat * sent)) : list sent := map snd (base.filter (fun x => x.1 = n) log).

Lemma sent_to_app n x y : sent_to n (x ++ y) = sent_to n x ++ sent_to n y.
Proof. unfold sent_to. by rewrite list.filter_app, map_app. Qed.

Lemma sent_to_own n out : sent_to n (map (pair n) out) = out.
Proof. unfold sent_to. induction out as [|x out IH]; [done|]. cbn [map]. rewrite list.filter_cons_True by done. cbn. by f_equal. Qed.

Lemma sent_to_other n m out : m <> n -> sent_to n (map (pair m) out) = [].
Proof. intros Hne. unfold sent_to. induction out as [|x out IH]; [done|]. cbn [map]. by rewrite list.filter_cons_False. Qed.

Section Run.
(** The nets of the signals, the widths of the signals, and what the receivers of the
    signals had got before. *)
Variables (nets : symbol -> option nat) (swid : nat -> nat) (view : nat -> nat -> vvp_bit4_t).
Hypothesis nets_inj : forall s1 s2 n, nets (SymNet s1 0) = Some n -> nets (SymNet s2 0) = Some n -> s1 = s2.
Implicit Types (P : process_t) (E : senv) (code : list vvp_code_t) (S : abs).

Record signal_at P (sig n : nat) (A : asig) : Prop := SignalAt {
  at_signal : exists s, nets_ P !! n = Some s /\ signal_is (swid sig) s A;
  at_heard : coherent (swid sig) (deliver (view sig) (sent_to n (emitted P))) A;
}.

Record process_at P (p : nat) E S : Prop := ProcessAt {
  at_pc : pc (thread_ P) = p;
  at_thread : represents (thread_ P) S;
  at_ok : state_ok S;
  at_nets : forall sig n, nets (SymNet sig 0) = Some n -> signal_at P sig n (E sig);
}.

Definition pstep code P P' : Prop := process_step false code P = Some (P', true).

(** The world that the instructions of the thread see. *)
Abbreviation sees P := (world_of false (nets_ P)).

Lemma handled_call `{World} thr (cp : vvp_code_t) thr' rc : call_opcode thr cp = Some (thr', rc) -> net_handler (opcode cp) = None.
Proof. unfold call_opcode. by destruct (opcode cp). Qed.

Lemma pstep_thread code P thr' : @one_step (sees P) code (thread_ P) thr' -> pstep code P (Process (nets_ P) thr' (emitted P)).
Proof.
  unfold one_step, vthread_step, pstep, process_step. destruct (code !! pc (thread_ P)) as [cp|]; [|done]. cbn [mbind option_bind]. intros Hc.
  by rewrite (handled_call _ _ _ _ Hc), Hc.
Qed.

Lemma psteps_thread code P thr' : rtc (@one_step (sees P) code) (thread_ P) thr' -> rtc (pstep code) P (Process (nets_ P) thr' (emitted P)).
Proof.
  destruct P as [ns thr log]. cbn. induction 1 as [t|t1 t2 t3 S _ IH]; [done|]. eapply rtc_l; [|exact IH]. exact (pstep_thread code (Process ns t1 log) t2 S).
Qed.

(** The instructions of the thread alone. *)
Lemma thread_moves code P p E S p' S' : process_at P p E S -> @reaches (sees P) code p S p' S' ->
  exists P', rtc (pstep code) P P' /\ process_at P' p' E S'.
Proof.
  intros [Hp Ht Hok Hn] Hr. destruct (Hr Hok (thread_ P) Ht Hp) as (thr' & Hs & Hp' & Ht' & Hok').
  exists (Process (nets_ P) thr' (emitted P)). split; [by apply psteps_thread|]. constructor; [done..|]. intros sig n Hsn. by destruct (Hn sig n Hsn).
Qed.

(** An instruction that writes to a net. *)
Lemma net_moves code P p E S cp sig S' A' : process_at P p E S -> code !! p = Some cp -> nets (SymNet sig 0) = Some (net cp) ->
  net_effect cp (swid sig) S (E sig) S' A' -> exists P', pstep code P P' /\ process_at P' (Datatypes.S p) (set_signal E sig A') S'.
Proof.
  intros [Hp Ht Hok Hn] Hc Hsn He. destruct (Hn sig _ Hsn) as [(s & Hs & Hsig) Hheard].
  assert (Ht' : represents (with_pc (thread_ P) (Datatypes.S p)) S) by (destruct Ht; by constructor).
  destruct (net_effect_step cp (swid sig) _ S (E sig) S' A' s He Hok Ht' Hsig) as (handler & Hh & (thr' & s' & out & Er & Hp' & R' & Hs' & Ho) & Hok').
  eexists. split.
  - unfold pstep, process_step. rewrite Hp, Hc. cbn [mbind option_bind]. rewrite Hh, Hs. cbn [mbind option_bind]. rewrite Er. reflexivity.
  - constructor; cbn [thread_]; [done..|]. intros sig2 n2 Hsn2. destruct (decide (sig2 = sig)) as [->|Hne].
    + rewrite Hsn in Hsn2. injection Hsn2 as <-. rewrite set_signal_eq. constructor; cbn [nets_ emitted].
      * exists s'. by rewrite lookup_insert_eq.
      * rewrite sent_to_app, sent_to_own. unfold deliver. rewrite fold_left_app. by apply Ho.
    + rewrite set_signal_ne by done. assert (n2 <> net cp) by (intros ->; apply Hne; by apply (nets_inj _ _ (net cp))).
      destruct (Hn sig2 n2 Hsn2) as [(s2 & Hs2 & Hsig2) Hh2]. constructor; cbn [nets_ emitted].
      * exists s2. by rewrite lookup_insert_ne by done.
      * by rewrite sent_to_app, sent_to_other, app_nil_r.
Qed.

(** ** Stretches of code *)

Definition transit code (W U : gset nat) (p : nat) E (pre : list bits) (p' : nat) E' (post : list bits) : Prop :=
  forall P fl ws ls, process_at P p E (Abs fl ws (pre ++ ls)) ->
  exists P' fl' ws', rtc (pstep code) P P' /\ process_at P' p' E' (Abs fl' ws' (post ++ ls)) /\ keeps W U fl ws fl' ws'.

Lemma transit_refl code W U p E pre : transit code W U p E pre p E pre.
Proof. intros P fl ws ls HP. exists P, fl, ws. split; [done|]. split; [done|apply keeps_refl]. Qed.

Lemma transit_trans code W U p E pre p1 E1 mid p2 E2 post : transit code W U p E pre p1 E1 mid -> transit code W U p1 E1 mid p2 E2 post ->
  transit code W U p E pre p2 E2 post.
Proof.
  intros H1 H2 P fl ws ls HP. destruct (H1 P fl ws ls HP) as (P1 & fl1 & ws1 & S1 & HP1 & K1).
  destruct (H2 P1 fl1 ws1 ls HP1) as (P2 & fl2 & ws2 & S2 & HP2 & K2). exists P2, fl2, ws2.
  split; [by eapply rtc_trans|]. split; [done|]. by eapply keeps_trans.
Qed.

Lemma transit_frame code W U p E pre p' E' post rest : transit code W U p E pre p' E' post -> transit code W U p E (pre ++ rest) p' E' (post ++ rest).
Proof. intros H P fl ws ls. rewrite <- !app_assoc. apply H. Qed.

Lemma transit_push code W U p E p' E' v rest : transit code W U p E [] p' E' [v] -> transit code W U p E rest p' E' (v :: rest).
Proof. intros H. by apply (transit_frame _ _ _ _ _ [] _ _ [v] rest). Qed.

(** One step of the thread, with what it does to flags and words. *)
Lemma transit_step code W U p E pre cp p' post fl_of ws_of : code !! p = Some cp ->
  (forall P fl ws ls, process_at P p E (Abs fl ws (pre ++ ls)) ->
     @effect (sees P) cp (Datatypes.S p) (Abs fl ws (pre ++ ls)) p' (Abs (fl_of fl) (ws_of ws) (post ++ ls)) /\ keeps W U fl ws (fl_of fl) (ws_of ws)) ->
  transit code W U p E pre p' E post.
Proof.
  intros Hc He P fl ws ls HP. destruct (He P fl ws ls HP) as [Hef K].
  destruct (thread_moves code P p E _ p' _ HP (reaches_step _ _ _ _ _ _ Hc (fun _ => Hef))) as (P' & Hs & HP'). by exists P', (fl_of fl), (ws_of ws).
Qed.

(** [%jmp] *)
Lemma transit_jmp code W U p E pre cp : code !! p = Some cp -> opcode cp = OP_JMP -> transit code W U p E pre (cptr cp) E pre.
Proof.
  intros Hc Ho. apply (transit_step _ _ _ _ _ _ cp _ _ (fun fl => fl) (fun ws => ws)); [done|]. intros P fl ws ls HP. split; [|apply keeps_refl].
  by apply eff_jmp.
Qed.

(** An instruction that writes to a net. *)
Lemma transit_net code W U p E pre cp sig post A' : code !! p = Some cp -> nets (SymNet sig 0) = Some (net cp) ->
  (forall fl ws ls, state_ok (Abs fl ws (pre ++ ls)) -> net_effect cp (swid sig) (Abs fl ws (pre ++ ls)) (E sig) (Abs fl ws (post ++ ls)) A') ->
  transit code W U p E pre (Datatypes.S p) (set_signal E sig A') post.
Proof.
  intros Hc Hsn He P fl ws ls HP. destruct (net_moves code P p E _ cp sig _ A' HP Hc Hsn (He fl ws ls (at_ok _ _ _ _ HP))) as (P' & Hs & HP').
  exists P', fl, ws. split; [by apply rtc_once|]. split; [done|apply keeps_refl].
Qed.
End Run.
