(* ===== verification/Stmt.v ===== *)
(** * Stmt: the code of statements (tgt-vvp/vvp_process.c, vvp_proc_loops.c, stmt_assign.c)

    Statements as ivl_target.h presents them, and the functions that print their
    code.  L-values are variables and nets of vectors and parts of them; the words of
    arrays, the return values of functions and the properties of objects are not
    modelled, nor are the statements that wait, start threads or call tasks. *)

From Stdlib Require Import String Ascii.
From S2P Require Import Prelude FourState Vector4 Thread Machine Codegen.

Open Scope ivl_scope.

(** ** Statements *)

Inductive ivl_signal_type_t : Type :=
  | IVL_SIT_NONE | IVL_SIT_REG | IVL_SIT_TRI | IVL_SIT_TRI0 | IVL_SIT_TRI1 | IVL_SIT_TRIAND | IVL_SIT_TRIOR | IVL_SIT_UWIRE.

#[export] Instance ivl_signal_type_dec : EqDecision ivl_signal_type_t.
Proof. solve_decision. Defined.

(** A scalar signal, with its number in the labels of the nets. *)
Record ivl_signal_s : Type := Signal {
  sig_id : nat;
  ivl_signal_width : nat;
  ivl_signal_type : ivl_signal_type_t;
  ivl_signal_data_type : ivl_variable_type_t;
}.

Record ivl_lval_s : Type := Lval {
  ivl_lval_sig : ivl_signal_s;
  ivl_lval_width : nat;
  ivl_lval_part_off : option ivl_expr_t;
}.

(** The characters of [ivl_stmt_opcode]: [+ - * / % & | ^ l r R]. *)
Inductive assign_op : Type := A_add | A_sub | A_mul | A_div | A_mod | A_and | A_or | A_xor | A_shl | A_shr | A_sar.

Inductive case_type : Type := IVL_ST_CASE | IVL_ST_CASEX | IVL_ST_CASEZ.

(** The branches of a case are in order; the default has no expression.  Its quality
    is [IVL_CASE_QUALITY_BASIC]. *)
Inductive ivl_statement_t : Type :=
  | IVL_ST_NOOP
  | IVL_ST_ASSIGN (opcode : option assign_op) (lvals : list ivl_lval_s) (rval : ivl_expr_t)
  | IVL_ST_BLOCK (stmts : list ivl_statement_t)
  | IVL_ST_BREAK
  | IVL_ST_CONTINUE
  | IVL_ST_CASES (type : case_type) (cond : ivl_expr_t) (items : list (option ivl_expr_t * ivl_statement_t))
  | IVL_ST_CASSIGN (lvals : list ivl_lval_s) (rval : ivl_expr_t)
  | IVL_ST_CONDIT (cond : ivl_expr_t) (cond_true cond_false : option ivl_statement_t)
  | IVL_ST_DEASSIGN (lvals : list ivl_lval_s)
  | IVL_ST_DO_WHILE (cond : ivl_expr_t) (sub : ivl_statement_t)
  | IVL_ST_FORCE (lvals : list ivl_lval_s) (rval : ivl_expr_t)
  | IVL_ST_FOREVER (sub : ivl_statement_t)
  | IVL_ST_FORLOOP (init : option ivl_statement_t) (cond : option ivl_expr_t) (sub : ivl_statement_t) (step : option ivl_statement_t)
  | IVL_ST_RELEASE (lvals : list ivl_lval_s)
  | IVL_ST_REPEAT (cond : ivl_expr_t) (sub : ivl_statement_t)
  | IVL_ST_WHILE (cond : ivl_expr_t) (sub : ivl_statement_t).

Definition ivl_stmt_lwidth (lvals : list ivl_lval_s) : nat := foldr (fun l n => (ivl_lval_width l + n)%nat) 0%nat lvals.

(** [number_is_immediate(ex, lim_wid, 0)]; the digits of the number. *)
Definition immediate_digits (ex : ivl_expr_t) (lim_wid : nat) : option (bool * list ascii) :=
  match ex with
  | IVL_EX_NUMBER a ds =>
    let bits := take (width_ a) ds in
    if number_is_immediate (signed_ a) bits lim_wid false then Some (signed_ a, bits) else None
  | _ => None
  end.

Section Show.
(** [thread_count], and the functions that draw expressions. *)
Variable thread_count : nat.
Variables (draw_eval_vec4 : ivl_expr_t -> M unit) (draw_eval_condition : ivl_expr_t -> M nat).

Local Abbreviation label_ n := (label_ thread_count n).
Local Abbreviation emit_label n := (emit_label thread_count n).
Local Abbreviation draw_eval_expr_into_integer := (draw_eval_expr_into_integer draw_eval_vec4).

Definition net_ (sig : ivl_signal_s) : comp_operand := L_SYMB (SymNet (sig_id sig) 0).

(** ** Assignments (stmt_assign.c) *)

Definition store_vec4_slice (lval : ivl_lval_s) (last : bool) : M unit :=
  let lsig := ivl_lval_sig lval in
  let lwid := ivl_lval_width lval in
  (if last then mret tt else emit "%split/vec4" [num_ lwid]);;
  match ivl_lval_part_off lval with
  | Some part_off_ex =>
    offset_index ← allocate_word;
    draw_eval_expr_into_integer part_off_ex offset_index;;
    (if decide (ivl_signal_type lsig = IVL_SIT_UWIRE) then emit "%force/vec4/off" [net_ lsig; num_ offset_index]
     else emit "%store/vec4" [net_ lsig; num_ offset_index; num_ lwid]);;
    clr_word offset_index
  | None =>
    assert_ (lwid =? ivl_signal_width lsig)%nat;;
    emit "%store/vec4" [net_ lsig; num_ 0; num_ lwid]
  end.

Fixpoint store_vec4_to_lval (lvals : list ivl_lval_s) : M unit :=
  match lvals with
  | [] => mret tt
  | lval :: lvals => store_vec4_slice lval (match lvals with [] => true | _ => false end);; store_vec4_to_lval lvals
  end.

Inductive vec_slice_info : Type :=
  | SLICE_SIMPLE_VECTOR
  | SLICE_PART_SELECT_STATIC (part_off : Z)
  | SLICE_PART_SELECT_DYNAMIC (word_idx_reg x_flag : nat).

Definition get_vec_from_lval_slice (lval : ivl_lval_s) (wid : nat) : M vec_slice_info :=
  let sig := ivl_lval_sig lval in
  part ← match ivl_lval_part_off lval with
         | None => mret (inl 0)
         | Some ex =>
           match immediate_digits ex IMM_WID with
           | Some (sg, bits) => if number_is_unknown bits then mret (inr ex) else v ← lift (get_number_immediate sg bits); mret (inl v)
           | None => mret (inr ex)
           end
         end;
  match part with
  | inl part_off =>
    emit "%load/vec4" [net_ sig];;
    if (part_off =? 0) && (wid =? ivl_signal_width sig)%nat then mret SLICE_SIMPLE_VECTOR
    else emit "%parti/u" [num_ wid; L_NUMB part_off; num_ 32];; mret (SLICE_PART_SELECT_STATIC part_off)
  | inr part_off_ex =>
    word_idx_reg ← allocate_word;
    x_flag ← allocate_flag;
    emit "%load/vec4" [net_ sig];;
    draw_eval_vec4 part_off_ex;;
    emit "%dup/vec4" [];;
    emit "%ix/vec4" [num_ word_idx_reg];;
    emit "%flag_mov" [num_ x_flag; num_ 4];;
    emit "%part/u" [num_ wid];;
    mret (SLICE_PART_SELECT_DYNAMIC word_idx_reg x_flag)
  end.

(** The loop of [get_vec_from_lval] over the l-values from the last to the first. *)
Fixpoint get_vec_loop (lvals : list ivl_lval_s) (wid cur_bit : nat) : M (list vec_slice_info) :=
  match lvals with
  | [] => mret []
  | lval :: lvals =>
    let bit_limit := Nat.min (wid - cur_bit) (ivl_lval_width lval) in
    slice ← get_vec_from_lval_slice lval bit_limit;
    (if (0 <? cur_bit)%nat then emit "%concat/vec4" [] else mret tt);;
    slices ← get_vec_loop lvals wid (cur_bit + bit_limit);
    mret (slices ++ [slice])
  end.

Definition get_vec_from_lval (lvals : list ivl_lval_s) : M (list vec_slice_info) := get_vec_loop (rev lvals) (ivl_stmt_lwidth lvals) 0.

Definition put_vec_to_lval_slice (lval : ivl_lval_s) (slice : vec_slice_info) (wid : nat) : M unit :=
  let sig := ivl_lval_sig lval in
  (match ivl_signal_data_type sig with IVL_VT_BOOL => emit "%cast2" [] | IVL_VT_LOGIC => mret tt end);;
  match slice with
  | SLICE_SIMPLE_VECTOR => emit "%store/vec4" [net_ sig; num_ 0; num_ wid]
  | SLICE_PART_SELECT_STATIC part_off =>
    part_off_idx ← allocate_word;
    emit "%ix/load" [num_ part_off_idx; L_NUMB part_off; num_ 0];;
    emit "%flag_set/imm" [num_ 4; num_ 0];;
    emit "%store/vec4" [net_ sig; num_ part_off_idx; num_ wid];;
    clr_word part_off_idx
  | SLICE_PART_SELECT_DYNAMIC word_idx_reg x_flag =>
    emit "%flag_mov" [num_ 4; num_ x_flag];;
    emit "%store/vec4" [net_ sig; num_ word_idx_reg; num_ wid];;
    clr_word word_idx_reg;; clr_flag x_flag
  end.

Fixpoint put_vec_loop (lvals : list ivl_lval_s) (slices : list vec_slice_info) (wid cur_bit : nat) : M unit :=
  match lvals, slices with
  | [], _ => mret tt
  | lval :: lvals, slice :: slices =>
    let bit_limit := Nat.min (wid - cur_bit) (ivl_lval_width lval) in
    (match lvals with [] => mret tt | _ => emit "%split/vec4" [num_ bit_limit] end);;
    put_vec_to_lval_slice lval slice bit_limit;;
    put_vec_loop lvals slices wid (cur_bit + bit_limit)
  | _ :: _, [] => bug
  end.

Definition put_vec_to_lval (lvals : list ivl_lval_s) (slices : list vec_slice_info) : M unit := put_vec_loop lvals slices (ivl_stmt_lwidth lvals) 0.

Definition draw_stmt_assign_vector_opcode (opcode : assign_op) (is_signed : bool) : M unit :=
  let shift (mn : string) := idx_reg ← allocate_word; emit "%ix/vec4" [num_ idx_reg];; emit mn [num_ idx_reg];; clr_word idx_reg in
  match opcode with
  | A_add => emit "%add" []
  | A_sub => emit "%sub" []
  | A_mul => emit "%mul" []
  | A_div => emit (if is_signed then "%div/s" else "%div") []
  | A_mod => emit (if is_signed then "%mod/s" else "%mod") []
  | A_and => emit "%and" []
  | A_or => emit "%or" []
  | A_xor => emit "%xor" []
  | A_shl => shift "%shiftl"%string
  | A_shr => shift "%shiftr"%string
  | A_sar => shift "%shiftr/s"%string
  end.

Definition show_stmt_assign_vector (opcode : option assign_op) (lvals : list ivl_lval_s) (rval : ivl_expr_t) : M nat :=
  let wid := ivl_stmt_lwidth lvals in
  match opcode with
  | Some op =>
    slices ← get_vec_from_lval lvals;
    draw_eval_vec4 rval;; resize_vec4_wid rval wid;;
    draw_stmt_assign_vector_opcode op (ivl_expr_signed rval);;
    put_vec_to_lval lvals slices;; mret 0%nat
  | None => draw_eval_vec4 rval;; resize_vec4_wid rval wid;; store_vec4_to_lval lvals;; mret 0%nat
  end.

(** ** Procedural continuous assignments and forces (vvp_process.c) *)

(** What [ivl_statement_type] says of the statement. *)
Inductive hold_type : Type := HOLD_CASSIGN | HOLD_FORCE.

Definition hold_opcode (type : hold_type) (off : bool) : string :=
  match type, off with
  | HOLD_CASSIGN, false => "%cassign/vec4" | HOLD_CASSIGN, true => "%cassign/vec4/off"
  | HOLD_FORCE, false => "%force/vec4" | HOLD_FORCE, true => "%force/vec4/off"
  end%string.

Fixpoint force_vector_to_lval (type : hold_type) (lvals : list ivl_lval_s) : M unit :=
  match lvals with
  | [] => mret tt
  | lval :: lvals =>
    let lsig := ivl_lval_sig lval in
    (match lvals with [] => mret tt | _ => emit "%split/vec4" [num_ (ivl_lval_width lval)] end);;
    match ivl_lval_part_off lval with
    | Some part_off_ex =>
      off_index ← allocate_word;
      draw_eval_expr_into_integer part_off_ex off_index;;
      emit (hold_opcode type true) [net_ lsig; num_ off_index];;
      clr_word off_index
    | None =>
      assert_ (ivl_lval_width lval =? ivl_signal_width lsig)%nat;;
      emit (hold_opcode type false) [net_ lsig]
    end;;
    force_vector_to_lval type lvals
  end.

(** A signal on the right is linked to the net; another expression is not. *)
Definition force_link_rval (type : hold_type) (lvals : list ivl_lval_s) (rval : ivl_expr_t) : M unit :=
  match rval with
  | IVL_EX_SIGNAL _ rsig =>
    match lvals with
    | [lval] =>
      match ivl_lval_part_off lval with
      | None => mret tt
      | Some ex => assert_ (match immediate_digits ex IMM_WID with Some (_, bits) => negb (number_is_unknown bits) | None => false end)
      end;;
      emit (match type with HOLD_CASSIGN => "%cassign/link" | HOLD_FORCE => "%force/link" end)%string
           [net_ (ivl_lval_sig lval); L_SYMB (SymNet rsig 0)]
    | _ => bug
    end
  | _ => mret tt
  end.

Definition show_stmt_cassign (lvals : list ivl_lval_s) (rval : ivl_expr_t) : M nat :=
  draw_eval_vec4 rval;; resize_vec4_wid rval (ivl_stmt_lwidth lvals);;
  force_vector_to_lval HOLD_CASSIGN lvals;; force_link_rval HOLD_CASSIGN lvals rval;; mret 0%nat.

Definition show_stmt_force (lvals : list ivl_lval_s) (rval : ivl_expr_t) : M nat :=
  draw_eval_vec4 rval;; force_vector_to_lval HOLD_FORCE lvals;; force_link_rval HOLD_FORCE lvals rval;; mret 0%nat.

(** The offset of a part that is released, [inl] when there is none to release; the
    assertion is that it is a number. *)
Definition part_off_number (lval : ivl_lval_s) : option (option Z) :=
  match ivl_lval_part_off lval with
  | None => Some (Some 0)
  | Some ex =>
    '(sg, bits) ← immediate_digits ex 64;
    if number_is_unknown bits then Some None else v ← get_number_immediate sg bits; Some (Some v)
  end.

(** The loops of [show_stmt_deassign] and [show_stmt_release]: an offset that is
    unknown ends them. *)
Fixpoint show_parts (opcode : ivl_signal_s -> string) (lvals : list ivl_lval_s) : M nat :=
  match lvals with
  | [] => mret 0%nat
  | lval :: lvals =>
    let lsig := ivl_lval_sig lval in
    part_off ← lift (part_off_number lval);
    match part_off with
    | None => mret 0%nat
    | Some part_off =>
      emit (opcode lsig) [net_ lsig; L_NUMB (u32 part_off); num_ (ivl_lval_width lval)];;
      show_parts opcode lvals
    end
  end.

Definition show_stmt_deassign (lvals : list ivl_lval_s) : M nat := show_parts (fun _ => "%deassign"%string) lvals.

Definition show_stmt_release (lvals : list ivl_lval_s) : M nat :=
  show_parts (fun lsig => if decide (ivl_signal_type lsig = IVL_SIT_REG) then "%release/reg" else "%release/net")%string lvals.

(** ** Control (vvp_process.c, vvp_proc_loops.c) *)

(** [break_label] and [continue_label], [None] outside of the loops; [PUSH_JUMPS] sets
    them for the statements of a loop. *)
Abbreviation jumps := (option nat * option nat)%type.

Variable show_statement : jumps -> ivl_statement_t -> M nat.

Definition show_opt (js : jumps) (stmt : option ivl_statement_t) : M nat :=
  match stmt with Some stmt => show_statement js stmt | None => mret 0%nat end.

Definition show_stmt_break (js : jumps) : M nat :=
  match fst js with None => mret 1%nat | Some l => emit "%jmp" [label_ l];; mret 0%nat end.

Definition show_stmt_continue (js : jumps) : M nat :=
  match snd js with None => mret 1%nat | Some l => emit "%jmp" [label_ l];; mret 0%nat end.

Fixpoint show_stmt_block (js : jumps) (stmts : list ivl_statement_t) : M nat :=
  match stmts with
  | [] => mret 0%nat
  | stmt :: stmts => rc1 ← show_statement js stmt; rc2 ← show_stmt_block js stmts; mret (rc1 + rc2)%nat
  end.

(** [draw_eval_condition], the jump on it, [clr_flag]. *)
Definition branch_on (cond : ivl_expr_t) (jmp : string) (lab : nat) : M unit :=
  use_flag ← draw_eval_condition cond; emit jmp [label_ lab; num_ use_flag];; clr_flag use_flag.

Definition show_stmt_condit (js : jumps) (cond : ivl_expr_t) (cond_true cond_false : option ivl_statement_t) : M nat :=
  lab_false ← new_label;
  lab_out ← new_label;
  branch_on cond "%jmp/0xz" lab_false;;
  rc1 ← show_opt js cond_true;
  match cond_false with
  | Some stmt =>
    emit "%jmp" [label_ lab_out];; emit_label lab_false;;
    rc2 ← show_statement js stmt;
    emit_label lab_out;; mret (rc1 + rc2)%nat
  | None => emit_label lab_false;; mret rc1
  end.

(** [local_count += n] *)
Definition new_labels (n : nat) : M nat := fun st =>
  Done (local_count st) (Cg (local_count st + n) (word_alloc_mask st) (allocate_flag_mask st)) [].

(** The last branch without an expression, or the number of branches. *)
Definition default_case (items : list (option ivl_expr_t * ivl_statement_t)) : nat :=
  (fix go idx dflt (items : list (option ivl_expr_t * ivl_statement_t)) : nat :=
     match items with
     | [] => dflt
     | (ex, _) :: items => go (S idx) (match ex with None => idx | Some _ => dflt end) items
     end) 0%nat (length items) items.

Definition case_test (type : case_type) (lab : nat) : M unit :=
  match type with
  | IVL_ST_CASE => emit "%cmp/e" [];; emit "%jmp/1" [label_ lab; num_ 6]
  | IVL_ST_CASEX => emit "%cmp/x" [];; emit "%jmp/1" [label_ lab; num_ 4]
  | IVL_ST_CASEZ => emit "%cmp/z" [];; emit "%jmp/1" [label_ lab; num_ 4]
  end.

(** The branch table; the labels are numbered from [lab]. *)
Fixpoint case_table (type : case_type) (lab : nat) (items : list (option ivl_expr_t * ivl_statement_t)) : M unit :=
  match items with
  | [] => mret tt
  | (None, _) :: items => case_table type (S lab) items
  | (Some cex, _) :: items =>
    emit "%dup/vec4" [];; draw_eval_vec4 cex;; case_test type lab;; case_table type (S lab) items
  end.

Fixpoint case_branches (js : jumps) (lab out dflt : nat) (items : list (option ivl_expr_t * ivl_statement_t)) : M nat :=
  match items with
  | [] => mret 0%nat
  | (_, cst) :: items =>
    if (lab =? dflt)%nat then case_branches js (S lab) out dflt items
    else
      emit_label lab;;
      rc1 ← show_statement js cst;
      emit "%jmp" [label_ out];;
      rc2 ← case_branches js (S lab) out dflt items;
      mret (rc1 + rc2)%nat
  end.

(** The statement of the default. *)
Fixpoint case_default (js : jumps) (n : nat) (items : list (option ivl_expr_t * ivl_statement_t)) {struct items} : M nat :=
  match items, n with
  | [], _ => mret 0%nat
  | (_, cst) :: _, O => show_statement js cst
  | _ :: items, S n => case_default js n items
  end.

Definition show_stmt_case (js : jumps) (type : case_type) (cond : ivl_expr_t) (items : list (option ivl_expr_t * ivl_statement_t)) : M nat :=
  let count := length items in
  local_base ← new_labels (count + 1);
  draw_eval_vec4 cond;;
  case_table type local_base items;;
  rc1 ← case_default js (default_case items) items;
  emit "%jmp" [label_ (local_base + count)];;
  rc2 ← case_branches js local_base (local_base + count) (local_base + default_case items) items;
  emit_label (local_base + count);;
  emit "%pop/vec4" [num_ 1];;
  mret (rc1 + rc2)%nat.

Definition show_stmt_forever (stmt : ivl_statement_t) : M nat :=
  lab_top ← new_label;
  lab_out ← new_label;
  emit_label lab_top;;
  rc ← show_statement (Some lab_out, Some lab_top) stmt;
  emit "%jmp" [label_ lab_top];;
  emit_label lab_out;; mret rc.

Definition show_stmt_forloop (init : option ivl_statement_t) (cond : option ivl_expr_t) (sub : ivl_statement_t) (step : option ivl_statement_t) : M nat :=
  top_label ← new_label;
  out_label ← new_label;
  cont_label ← new_label;
  let js := (Some out_label, Some cont_label) in
  rc1 ← show_opt js init;
  emit_label top_label;;
  (match cond with Some cond => branch_on cond "%jmp/0xz" out_label | None => mret tt end);;
  rc2 ← show_statement js sub;
  emit_label cont_label;;
  rc3 ← show_opt js step;
  emit "%jmp" [label_ top_label];;
  emit_label out_label;; mret (rc1 + rc2 + rc3)%nat.

Definition show_stmt_repeat (expr : ivl_expr_t) (sub : ivl_statement_t) : M nat :=
  lab_top ← new_label;
  lab_out ← new_label;
  draw_eval_vec4 expr;;
  emit_label lab_top;;
  emit "%dup/vec4" [];;
  emit (if ivl_expr_signed expr then "%cmpi/s" else "%cmpi/u") [num_ 0; num_ 0; num_ (ivl_expr_width expr)];;
  (if ivl_expr_signed expr then emit "%jmp/1xz" [label_ lab_out; num_ 5] else mret tt);;
  emit "%jmp/1" [label_ lab_out; num_ 4];;
  emit "%subi" [num_ 1; num_ 0; num_ (ivl_expr_width expr)];;
  rc ← show_statement (Some lab_out, Some lab_top) sub;
  emit "%jmp" [label_ lab_top];;
  emit_label lab_out;;
  emit "%pop/vec4" [num_ 1];; mret rc.

Definition show_stmt_while (cond : ivl_expr_t) (sub : ivl_statement_t) : M nat :=
  top_label ← new_label;
  out_label ← new_label;
  emit_label top_label;;
  branch_on cond "%jmp/0xz" out_label;;
  rc ← show_statement (Some out_label, Some top_label) sub;
  emit "%jmp" [label_ top_label];;
  emit_label out_label;; mret rc.

Definition show_stmt_do_while (cond : ivl_expr_t) (sub : ivl_statement_t) : M nat :=
  top_label ← new_label;
  cont_label ← new_label;
  out_label ← new_label;
  emit_label top_label;;
  rc ← show_statement (Some out_label, Some cont_label) sub;
  emit_label cont_label;;
  branch_on cond "%jmp/1" top_label;;
  emit_label out_label;; mret rc.
End Show.

(** [show_statement]; the expressions are drawn to a depth of [fuel]. *)
Fixpoint show_statement (thread_count fuel : nat) (js : option nat * option nat) (net : ivl_statement_t) {struct net} : M nat :=
  let draw := draw_eval_vec4 thread_count fuel in
  let draw_cond := draw_eval_condition thread_count fuel in
  let show := show_statement thread_count fuel in
  match net with
  | IVL_ST_NOOP => mret 0%nat
  | IVL_ST_ASSIGN opcode lvals rval => show_stmt_assign_vector draw opcode lvals rval
  | IVL_ST_BLOCK stmts => show_stmt_block show js stmts
  | IVL_ST_BREAK => show_stmt_break thread_count js
  | IVL_ST_CONTINUE => show_stmt_continue thread_count js
  | IVL_ST_CASES type cond items => show_stmt_case thread_count draw show js type cond items
  | IVL_ST_CASSIGN lvals rval => show_stmt_cassign draw lvals rval
  | IVL_ST_CONDIT cond t f => show_stmt_condit thread_count draw_cond show js cond t f
  | IVL_ST_DEASSIGN lvals => show_stmt_deassign lvals
  | IVL_ST_DO_WHILE cond sub => show_stmt_do_while thread_count draw_cond show cond sub
  | IVL_ST_FORCE lvals rval => show_stmt_force draw lvals rval
  | IVL_ST_FOREVER sub => show_stmt_forever thread_count show sub
  | IVL_ST_FORLOOP init cond sub step => show_stmt_forloop thread_count draw_cond show init cond sub step
  | IVL_ST_RELEASE lvals => show_stmt_release lvals
  | IVL_ST_REPEAT cond sub => show_stmt_repeat thread_count draw show cond sub
  | IVL_ST_WHILE cond sub => show_stmt_while thread_count draw_cond show cond sub
  end.
