(* ===== verification/StmtSem.v ===== *)
(** * StmtSem: what statements mean

    A statement is executed on the abstract signals of SignalSpec as the language
    has it.  [exec] takes at most [fuel] nested steps; it gives nothing when the fuel
    ends, and in the five cases where the code does something else than the language:
    a force of a part that reaches out of its signal without being clear of it
    ([force_ok]), a procedural continuous assignment to a part that begins below its
    signal ([cassign_lval]), a [deassign] of a part of a signal that is not assigned
    ([deassign_lval]), a [release] of a variable with an assigned bit that the force hides
    ([release_lval]), and a [repeat] of an unsigned unknown count ([repeat_count]).
    Lemmas at the end of SignalRun and of StmtMain show what the code does there. *)

From Stdlib Require Import Ascii.
From S2P Require Import Prelude FourState Vector4 Bits Thread ThreadSpec Machine Codegen ExprSem Signal SignalSpec ProcessSpec Stmt.
Import Bit4.

Open Scope ivl_scope.

(** How a statement ends. *)
Inductive ending : Type := Normal | Break | Continue.

#[export] Instance ending_dec : EqDecision ending.
Proof. solve_decision. Defined.

Section Sem.
(** The widths of the signals. *)
Variable swid : nat -> nat.
Implicit Types (E : senv) (e : ivl_expr_t) (l : bits) (lval : ivl_lval_s) (lvals : list ivl_lval_s) (s : ivl_statement_t).

Definition env_of E (sig : nat) : bits := seen_bits_of (swid sig) (E sig).
Definition value_of E e : bits := eval (env_of E) e.
Definition holds E e : bool := bool_decide (or_all (value_of E e) = BIT4_1).

(** The value of an offset, when it is known. *)
Definition offset_of E e : option Z := if has_unknown (value_of E e) then None else Some (num (ivl_expr_signed e) (value_of E e)).
Definition part_offset E lval : option Z := match ivl_lval_part_off lval with None => Some 0 | Some e => offset_of E e end.

Definition lval_id lval : nat := sig_id (ivl_lval_sig lval).

(** Each l-value takes its part of the value, the first the low bits. *)
Fixpoint over_lvals (f : ivl_lval_s -> bits -> senv -> option senv) lvals l E : option senv :=
  match lvals with
  | [] => Some E
  | lval :: lvals => E ← f lval (take (ivl_lval_width lval) l) E; over_lvals f lvals (drop (ivl_lval_width lval) l) E
  end.

Definition update lval (g : asig -> asig) E : senv := set_signal E (lval_id lval) (g (E (lval_id lval))).

(** The code of a force of a part fails when the part is neither in the signal nor
    clear of it. *)
Definition force_ok lval l (off : option Z) : bool :=
  let n := Z.of_nat (swid (lval_id lval)) in
  match off with
  | None => true
  | Some o => ((0 <=? o) && (o + Z.of_nat (length l) <=? n)) || (n <=? o) || (o <? - n)
  end.

Definition force_lval lval l E : option senv :=
  let off := part_offset E lval in
  if force_ok lval l off then Some (update lval (at_offset a_force_at off l) E) else None.

Definition assign_lval lval l E : option senv :=
  match ivl_lval_part_off lval, ivl_signal_type (ivl_lval_sig lval) with
  | Some _, IVL_SIT_UWIRE => force_lval lval l E
  | _, _ => Some (update lval (at_offset a_store (part_offset E lval) l) E)
  end.

(** The code does not take the right part of a value that begins below the signal. *)
Definition cassign_lval lval l E : option senv :=
  let off := part_offset E lval in
  if match off with Some o => 0 <=? o | None => true end then Some (update lval (at_offset a_hold off l) E) else None.

(** The parts of [deassign] and [release]; one with an unknown offset is skipped. *)
Fixpoint over_parts (f : ivl_lval_s -> nat -> senv -> option senv) lvals E : option senv :=
  match lvals with
  | [] => Some E
  | lval :: lvals =>
    E ← match part_offset E lval with None => Some E | Some off => f lval (Z.to_nat off) E end;
    over_parts f lvals E
  end.

Definition some_assigned (n : nat) (A : asig) : bool := existsb (asn A) (seq 0 n).

Definition deassign_lval lval (base : nat) E : option senv :=
  let n := swid (lval_id lval) in
  let wid := ivl_lval_width lval in
  if ((base =? 0) && (n <=? wid))%nat || (n <=? base)%nat || some_assigned n (E (lval_id lval))
  then Some (update lval (on_part a_deassign n base wid) E) else None.

(** The bits that are held by an assignment are seen. *)
Definition no_hidden (base wid : nat) (A : asig) : bool :=
  forallb (fun i => negb (asn A i) || bool_decide (seen A i = cur A i)) (seq base wid).

Definition release_lval lval (base : nat) E : option senv :=
  let n := swid (lval_id lval) in
  let wid := ivl_lval_width lval in
  let net_flag := negb (bool_decide (ivl_signal_type (ivl_lval_sig lval) = IVL_SIT_REG)) in
  if net_flag || no_hidden base (part_width n base wid) (E (lval_id lval)) then Some (update lval (on_part (a_release net_flag) n base wid) E) else None.

(** The value of the right side, as wide as the l-values. *)
Definition rvalue E lvals e : bits := fit (ivl_expr_signed e) (ivl_stmt_lwidth lvals) (value_of E e).

Definition case_matches (type : case_type) (v g : bits) : bool :=
  bool_decide (match type with IVL_ST_CASE => case_eq_bit v g | IVL_ST_CASEX => casex_bit v g | IVL_ST_CASEZ => casez_bit v g end = BIT4_1).

(** The first branch that matches, else the default. *)
Fixpoint case_find (type : case_type) (v : bits) E (items : list (option ivl_expr_t * ivl_statement_t)) : option ivl_statement_t :=
  match items with
  | [] => None
  | (Some g, s) :: items => if case_matches type v (value_of E g) then Some s else case_find type v E items
  | (None, _) :: items => case_find type v E items
  end.

Definition case_select (type : case_type) (v : bits) E (items : list (option ivl_expr_t * ivl_statement_t)) : option ivl_statement_t :=
  match case_find type v E items with
  | Some s => Some s
  | None => snd <$> items !! default_case items
  end.

(** How often a [repeat] goes round; the code never ends when the count is unsigned
    and unknown. *)
Definition repeat_count (sg : bool) (v : bits) : option nat :=
  if has_unknown v then if sg then Some 0%nat else None else Some (Z.to_nat (num sg v)).

Definition run_t : Type := senv -> option (senv * ending).

Definition exec_opt (run : ivl_statement_t -> run_t) (s : option ivl_statement_t) : run_t :=
  fun E => match s with Some s => run s E | None => Some (E, Normal) end.

Fixpoint exec_block (run : ivl_statement_t -> run_t) (stmts : list ivl_statement_t) : run_t := fun E =>
  match stmts with
  | [] => Some (E, Normal)
  | s :: stmts => '(E, o) ← run s E; match o with Normal => exec_block run stmts E | _ => Some (E, o) end
  end.

(** After the body of a loop: [again], or the end of the loop. *)
Definition after_body (r : option (senv * ending)) (again : run_t) : option (senv * ending) :=
  '(E, o) ← r; match o with Break => Some (E, Normal) | _ => again E end.

Fixpoint exec_repeat (body : run_t) (n : nat) : run_t := fun E =>
  match n with O => Some (E, Normal) | S n => after_body (body E) (exec_repeat body n) end.

Definition ends (r : option senv) : option (senv * ending) := E ← r; Some (E, Normal).

Fixpoint exec (fuel : nat) s : run_t := fun E =>
  match fuel with
  | O => None
  | S fuel =>
    let run := exec fuel in
    match s with
    | IVL_ST_NOOP => Some (E, Normal)
    | IVL_ST_ASSIGN None lvals rval => ends (over_lvals assign_lval lvals (rvalue E lvals rval) E)
    | IVL_ST_ASSIGN (Some _) _ _ => None
    | IVL_ST_BLOCK stmts => exec_block run stmts E
    | IVL_ST_BREAK => Some (E, Break)
    | IVL_ST_CONTINUE => Some (E, Continue)
    | IVL_ST_CASES type cond items => exec_opt run (case_select type (value_of E cond) E items) E
    | IVL_ST_CASSIGN lvals rval => ends (over_lvals cassign_lval lvals (rvalue E lvals rval) E)
    | IVL_ST_CONDIT cond t f => exec_opt run (if holds E cond then t else f) E
    | IVL_ST_DEASSIGN lvals => ends (over_parts deassign_lval lvals E)
    | IVL_ST_DO_WHILE cond sub =>
      after_body (run sub E) (fun E => if holds E cond then run s E else Some (E, Normal))
    | IVL_ST_FORCE lvals rval => ends (over_lvals force_lval lvals (value_of E rval) E)
    | IVL_ST_FOREVER sub => after_body (run sub E) (run s)
    | IVL_ST_FORLOOP (Some init) cond sub step => '(E, o) ← run init E; run (IVL_ST_FORLOOP None cond sub step) E
    | IVL_ST_FORLOOP None cond sub step =>
      if match cond with Some cond => holds E cond | None => true end then
        after_body (run sub E) (fun E => '(E, o) ← exec_opt run step E; run s E)
      else Some (E, Normal)
    | IVL_ST_RELEASE lvals => ends (over_parts release_lval lvals E)
    | IVL_ST_REPEAT cond sub =>
      n ← repeat_count (ivl_expr_signed cond) (value_of E cond); exec_repeat (run sub) n E
    | IVL_ST_WHILE cond sub => if holds E cond then after_body (run sub E) (run s) else Some (E, Normal)
    end
  end.
End Sem.
