(* ===== verification/StmtFrag.v ===== *)
(** * StmtFrag: the text that the statement generators print

    [sfrag] describes a piece of the text of a statement, which may jump to labels of
    the text around it; [swp] follows a generator and collects its pieces. *)

From Stdlib Require Import String Ascii.
From stdpp Require Import gmap.
From S2P Require Import Prelude FourState Vector4 Bits Thread ThreadSpec Machine MachineRun Codegen EmitWp Stmt.
Import Bit4.

Open Scope ivl_scope.

Section Frag.
Variables (nets : symbol -> option nat) (thread_count : nat).
Implicit Types (st : cg) (out : list asm_line) (P Q R L : list symbol).

Local Abbreviation fresh := (fresh thread_count).
Local Abbreviation line_ok := (line_ok nets).

(** The text prints labels of [P] and of those it numbers from [lo] to [hi], each
    once; [P'] are left to be printed.  Its lines name the labels of [L], its own and
    those of [P']. *)
Record sfrag L P (lo : nat) out P' (hi : nat) : Prop := SFrag {
  sf_le : (lo <= hi)%nat;
  sf_labels : labels out ++ P' ⊆+ P ++ fresh lo hi;
  sf_pending : P ⊆ labels out ++ P';
  sf_lines : Forall (line_ok (L ++ labels out ++ P')) out;
}.

Lemma sfrag_nil L P lo : sfrag L P lo [] P lo.
Proof. constructor; [done| |done|constructor]. unfold EmitWp.fresh. by rewrite Nat.sub_diag, app_nil_r. Qed.

Lemma sfrag_app L P lo x Q mid y R hi : sfrag L P lo x Q mid -> sfrag (labels x ++ L) Q mid y R hi -> sfrag L P lo (x ++ y) R hi.
Proof.
  intros [L1 S1 P1 F1] [L2 S2 P2 F2]. constructor; [lia| | |].
  - rewrite labels_app, <- app_assoc, (fresh_app thread_count lo mid hi) by done. etrans; [by apply submseteq_skips_l|].
    rewrite !app_assoc. by apply submseteq_skips_r.
  - rewrite labels_app. intros s Hs. specialize (P1 s Hs). specialize (P2 s). rewrite !elem_of_app in *. tauto.
  - rewrite labels_app. apply Forall_app. split; eapply List.Forall_impl; try eassumption; intros line; apply line_ok_mono; intros s;
      specialize (P2 s); rewrite !elem_of_app in *; tauto.
Qed.

Lemma sfrag_scope L L' P lo out P' hi : L ⊆ L' -> sfrag L P lo out P' hi -> sfrag L' P lo out P' hi.
Proof. intros HL []. constructor; [done..|]. eapply List.Forall_impl; [|eassumption]. intros line. apply line_ok_mono. intros s. specialize (HL s). rewrite !elem_of_app. tauto. Qed.

(** A piece leaves what it does not print alone. *)
Lemma sfrag_frame L P lo out hi : sfrag L [] lo out [] hi -> sfrag L P lo out P hi.
Proof.
  intros [Hle S _ F]. rewrite app_nil_r in *. constructor; [done| | |].
  - rewrite (Permutation_app_comm P). by apply submseteq_skips_r.
  - intros s. rewrite elem_of_app. tauto.
  - eapply List.Forall_impl; [|exact F]. intros line. apply line_ok_mono. intros s. rewrite !elem_of_app. tauto.
Qed.

Lemma frag_sfrag L lo out hi : frag nets thread_count [] lo out [] hi -> sfrag L [] lo out [] hi.
Proof.
  intros [Hle Hl F]. rewrite app_nil_r in *. cbn [app] in *. constructor; [done| |by intros s ?%not_elem_of_nil|].
  - by rewrite app_nil_r, Hl.
  - rewrite app_nil_r. eapply List.Forall_impl; [|exact F]. intros line. apply line_ok_mono. intros s Hs. rewrite elem_of_app, Hl. tauto.
Qed.

Lemma sfrag_perm L P P2 lo out P' hi : P ≡ₚ P2 -> sfrag L P2 lo out P' hi -> sfrag L P lo out P' hi.
Proof. intros HP [Hle S Hp F]. constructor; [done|by rewrite HP| |done]. intros s. rewrite HP. apply Hp. Qed.

(** ** Generators *)

Definition swp {X} L (m : M X) P st (Phi : X -> list symbol -> cg -> list asm_line -> Prop) : Prop :=
  match m st with
  | Done x st' out => exists P', sfrag L P (local_count st) out P' (local_count st') /\ Phi x P' st' out
  | Exit | Bug => False
  end.

Lemma swp_ret {X} L (x : X) P st (Phi : X -> list symbol -> cg -> list asm_line -> Prop) : Phi x P st [] -> swp L (mret x) P st Phi.
Proof. intros HP. exists P. split; [apply sfrag_nil|done]. Qed.

Lemma swp_bind {X Y} L (m : M X) (k : X -> M Y) P st (Phi : Y -> list symbol -> cg -> list asm_line -> Prop) :
  swp L m P st (fun x P1 st1 out1 => swp (labels out1 ++ L) (k x) P1 st1 (fun y P2 st2 out2 => Phi y P2 st2 (out1 ++ out2))) ->
  swp L (m ≫= k) P st Phi.
Proof.
  unfold swp, mbind, M_bind. destruct (m st) as [x st1 out1| |]; [|done..]. intros (P1 & F1 & Hk).
  destruct (k x st1) as [y st2 out2| |]; [|done..]. destruct Hk as (P2 & F2 & HP). exists P2. split; [by eapply sfrag_app|done].
Qed.

Lemma swp_assoc {X Y Z} L (m : M X) (k1 : X -> M Y) (k2 : Y -> M Z) P st (Phi : Z -> list symbol -> cg -> list asm_line -> Prop) :
  swp L ((m ≫= k1) ≫= k2) P st Phi -> swp L (m ≫= (fun x => k1 x ≫= k2)) P st Phi.
Proof.
  unfold swp, mbind, M_bind. destruct (m st) as [x st1 out1| |]; [|done..]. destruct (k1 x st1) as [y st2 out2| |]; [|done..].
  destruct (k2 y st2) as [z st3 out3| |]; [|done..]. by rewrite <- app_assoc.
Qed.

Lemma swp_assert L (b : bool) P st (Phi : unit -> list symbol -> cg -> list asm_line -> Prop) : b = true -> Phi tt P st [] -> swp L (assert_ b) P st Phi.
Proof. intros ->. apply (swp_ret _ tt). Qed.

Lemma swp_lift {X} L (o : option X) x P st (Phi : X -> list symbol -> cg -> list asm_line -> Prop) : o = Some x -> Phi x P st [] -> swp L (lift o) P st Phi.
Proof. intros ->. apply swp_ret. Qed.

Lemma swp_mono {X} L (m : M X) P st (Phi Psi : X -> list symbol -> cg -> list asm_line -> Prop) :
  (forall x P' st' out, Phi x P' st' out -> Psi x P' st' out) -> swp L m P st Phi -> swp L m P st Psi.
Proof. unfold swp. intros HPP. destruct (m st); [|done..]. intros (P1 & F & HP). exists P1. auto. Qed.

Lemma swp_scope {X} L L' (m : M X) P st (Phi : X -> list symbol -> cg -> list asm_line -> Prop) : L ⊆ L' -> swp L m P st Phi -> swp L' m P st Phi.
Proof. unfold swp. intros HL. destruct (m st); [|done..]. intros (P1 & F & HP). exists P1. split; [by eapply sfrag_scope|done]. Qed.

(** One line. *)
Lemma swp_emit L mnem opa P st (Phi : unit -> list symbol -> cg -> list asm_line -> Prop) :
  line_ok (L ++ P) (AsmCode mnem opa) -> Phi tt P st [AsmCode mnem opa] -> swp L (emit mnem opa) P st Phi.
Proof.
  intros Hl HP. exists P. split; [|done]. constructor; [done| |done|].
  - cbn. unfold EmitWp.fresh. by rewrite Nat.sub_diag, app_nil_r.
  - constructor; [done|constructor].
Qed.

(** A label is numbered; it is to be printed, or never is. *)
Lemma swp_new_label L P st (Phi : nat -> list symbol -> cg -> list asm_line -> Prop) :
  (let lc := local_count st in
   Phi lc (SymCode thread_count lc :: P) (Cg (S lc) (word_alloc_mask st) (allocate_flag_mask st)) []) ->
  swp L new_label P st Phi.
Proof.
  cbv zeta. intros HP. eexists. split; [|exact HP]. constructor; cbn [local_count labels app]; [lia| | |constructor].
  - unfold EmitWp.fresh. replace (S (local_count st) - local_count st)%nat with 1%nat by lia. cbn [seq map]. by rewrite Permutation_app_comm.
  - intros s Hs. apply elem_of_cons. by right.
Qed.

Lemma swp_unused_label L P st (Phi : nat -> list symbol -> cg -> list asm_line -> Prop) :
  (let lc := local_count st in Phi lc P (Cg (S lc) (word_alloc_mask st) (allocate_flag_mask st)) []) ->
  swp L new_label P st Phi.
Proof.
  cbv zeta. intros HP. eexists. split; [|exact HP]. constructor; cbn [local_count labels app]; [lia| |done|constructor].
  apply submseteq_inserts_r. done.
Qed.

Lemma swp_emit_label L n P P' st (Phi : unit -> list symbol -> cg -> list asm_line -> Prop) : P ≡ₚ SymCode thread_count n :: P' ->
  Phi tt P' st [AsmLabel (SymCode thread_count n)] -> swp L (emit_label thread_count n) P st Phi.
Proof.
  intros HP HPhi. exists P'. split; [|done]. apply (sfrag_perm _ _ _ _ _ _ _ HP). constructor; [done| |done|repeat constructor].
  cbn. unfold EmitWp.fresh. by rewrite Nat.sub_diag, app_nil_r.
Qed.
End Frag.

(** ** The lines *)

Lemma line_plain nets L mnem op opa argt : find_opcode mnem = Some (op, argt) ->
  (forall lab, (forall s, s ∈ L -> is_Some (lab s)) -> is_Some (compile_operands lab nets (Code op 0 0 0 0 0) argt opa)) ->
  line_ok nets L (AsmCode mnem opa).
Proof. intros Hf Ho lab Hl. unfold compile_code. rewrite Hf. cbn. by apply Ho. Qed.

Lemma line_jmp nets thread_count L n : SymCode thread_count n ∈ L -> line_ok nets L (AsmCode "%jmp" [label_ thread_count n]).
Proof. intros Hs. eapply line_plain; [reflexivity|]. intros lab Hl. cbn. destruct (Hl _ Hs) as [p ->]. by eexists. Qed.

Lemma line_jump nets thread_count L mnem f n flag : jump_test mnem f -> SymCode thread_count n ∈ L ->
  line_ok nets L (AsmCode mnem [label_ thread_count n; num_ flag]).
Proof.
  intros (op & Hf & _) Hs. eapply line_plain; [exact Hf|]. intros lab Hl. cbn. destruct (Hl _ Hs) as [p ->]. by eexists.
Qed.
