(* ===== verification/StmtPiece.v ===== *)
(** * StmtPiece: the pieces that statements are made of

    The code of an expression, of a branch on a condition and of an offset, as
    stretches of the code of a process. *)

From Stdlib Require Import String Ascii.
From stdpp Require Import gmap relations.
From S2P Require Import Prelude FourState Vector4 Vector4Value Vector4Ops Bits Thread ThreadSpec ThreadShift ThreadDivSpec Machine MachineRun.
From S2P Require Import Codegen EmitWp CodegenAlloc EmitOps ExprSem CodegenNumber CodegenSpec CodegenCond CodegenMain.
From S2P Require Import Signal SignalSpec Process ProcessSpec Stmt StmtSem StmtFrag.
Import Bit4.

Open Scope ivl_scope.

(** Well-formedness looks only at the widths of the signals. *)
Lemma gen_ok_env nets env1 env2 e : (forall sig, length (env1 sig) = length (env2 sig)) -> gen_ok nets env1 e = gen_ok nets env2 e.
Proof.
  intros Hl. induction e as [a ds|a text|a sig|a op e1 IH1|a op e1 e2 IH1 IH2|a e1 e2 e3 IH1 IH2 IH3|a rept parms IH|a e1 IH1|a e1 e2 IH1 IH2] using expr_ind;
    cbn -[Z.pow]; rewrite ?IH1, ?IH2, ?IH3; try done.
  - by rewrite Hl.
  - do 2 f_equal. f_equal. induction IH as [|p ps Hp _ IHp]; [done|]. cbn. by rewrite Hp, IHp.
Qed.

Lemma wf_env nets env1 env2 e : (forall sig, length (env1 sig) = length (env2 sig)) -> wf nets env1 e = wf nets env2 e.
Proof. intros Hl. unfold wf. by rewrite (gen_ok_env nets env1 env2). Qed.

(** ** Offsets *)

(** An offset is a native integer; a number must do as an immediate value. *)
Definition off_ok (e : ivl_expr_t) : bool :=
  (ivl_expr_width e <=? (if ivl_expr_signed e then 64 else 63))%nat &&
  match e with
  | IVL_EX_NUMBER a ds =>
    let bs := take (width_ a) ds in
    number_is_immediate false bs IMM_WID true && negb (signed_ a && digit (nth (length bs - 1) bs "0"%char) "1")
  | _ => true
  end.

(** Flag 4 and the word, for an offset of these bits. *)
Definition offset_value (sg : bool) (l : bits) (b4 : vvp_bit4_t) (v : Z) : Prop :=
  if has_unknown l then b4 = BIT4_1 else b4 <> BIT4_1 /\ s64 v = num sg l.

Lemma s64_mod z : - 2 ^ 63 <= z < 2 ^ 63 -> s64 (z mod 2 ^ 64) = z.
Proof. intros Hz. unfold s64. rewrite Z.add_mod_idemp_l by lia. rewrite Z.mod_small by lia. lia. Qed.

Lemma offset_range (sg : bool) (l : bits) : (0 < length l)%nat -> (length l <= (if sg then 64 else 63))%nat -> - 2 ^ 63 <= num sg l < 2 ^ 63.
Proof.
  intros H0 Hl. destruct sg; [apply num_range64; lia|]. unfold num. cbn [andb]. pose proof (unum_range l).
  assert (2 ^ Z.of_nat (length l) <= 2 ^ 63) by (apply Z.pow_le_mono_r; lia). lia.
Qed.

Lemma index_offset (sg : bool) (l : bits) : (0 < length l)%nat -> (length l <= (if sg then 64 else 63))%nat ->
  offset_value sg l (index_value sg l).1 (index_value sg l).2.
Proof.
  intros H0 Hl. pose proof (offset_range sg l H0 Hl) as Hr. unfold offset_value, index_value. destruct (has_unknown l); [done|]. cbn [fst snd].
  split; [|by apply s64_mod]. by destruct (_ && _).
Qed.

(** A number that is not negative. *)
Lemma number_offset (sg : bool) ds : forallb is_digit ds = true -> (length ds <= 64)%nat -> number_is_immediate false ds IMM_WID true = true ->
  sg && digit (nth (length ds - 1) ds "0"%char) "1" = false ->
  number_is_immediate sg ds IMM_WID true = true /\
  if number_is_unknown ds then offset_value sg (digits ds) BIT4_1 0
  else exists v, get_number_immediate sg ds = Some v /\ 0 <= v < 2 ^ 32 /\ offset_value sg (digits ds) BIT4_0 v.
Proof.
  intros Hd Hl Hi Hs. unfold number_is_immediate in *. rewrite Hs. cbn [andb] in Hi. split; [exact Hi|].
  unfold offset_value. rewrite <- (number_is_unknown_digits ds Hd). destruct (number_is_unknown ds) eqn:Hu; [done|].
  destruct (immediate_number ds Hd Hi Hu) as [Hg Hr]. exists (unum (digits ds)).
  assert (Hn : num sg (digits ds) = unum (digits ds)).
  { unfold num. destruct sg; [|done]. cbn [andb] in *. unfold digits. rewrite length_map. unfold bit_at.
    destruct (Nat.lt_ge_cases (length ds - 1) (length ds)) as [Hlt|Hge].
    - rewrite (nth_indep _ BIT4_X (bit_of_digit "0"%char)), map_nth by (by rewrite length_map). unfold bit_of_digit. rewrite Hs. by repeat case_match.
    - destruct ds; [done|]. cbn in Hge. lia. }
  split; [|split; [lia|]].
  - unfold get_number_immediate in *. rewrite Nat.min_l, Hs in * by done. exact Hg.
  - split; [done|]. rewrite Hn. rewrite <- (Z.mod_small (unum (digits ds)) (2 ^ 64)) at 1 by lia. apply s64_mod. lia.
Qed.

Section Piece.
Variables (nets : symbol -> option nat) (swid : nat -> nat) (view : nat -> nat -> vvp_bit4_t).
Variables (thread_count fuel : nat) (W U : gset nat).
(** There are such signals. *)
Hypothesis design : exists (ns : gmap nat vvp_net_t) (E : senv), forall sig n, nets (SymNet sig 0) = Some n -> exists s, ns !! n = Some s /\ SignalSpec.signal_is (swid sig) s (E sig).
Implicit Types (st : cg) (out : list asm_line) (P L : list symbol) (E : senv) (e : ivl_expr_t) (code : list vvp_code_t) (lab : symbol -> option nat).

Local Abbreviation swp := (swp nets thread_count).
Local Abbreviation transit := (transit nets swid view).
Local Abbreviation process_at := (process_at nets swid view).
Local Abbreviation draw := (draw_eval_vec4 thread_count fuel).
Local Abbreviation draw_cond := (draw_eval_condition thread_count fuel).
Local Abbreviation value_of := (value_of swid).
Local Abbreviation env_of := (env_of swid).

Definition stmt_wf e : bool := wf nets (fun sig => xs (swid sig)) e.

(** Fuel, flags and registers are enough for the expression. *)
Definition fits e : Prop := (2 * depth e + 1 <= fuel)%nat /\ room W U (2 + depth e) (2 + registers e).

Lemma length_env E sig : length (env_of E sig) = swid sig.
Proof. apply length_map_bits. Qed.

Lemma stmt_wf_env E e : stmt_wf e = true -> wf nets (env_of E) e = true.
Proof. intros Hw. rewrite <- Hw. apply wf_env. intros sig. by rewrite length_env, length_xs. Qed.

Definition nets_are (ns : gmap nat vvp_net_t) E : Prop :=
  forall sig n, nets (SymNet sig 0) = Some n -> exists s, ns !! n = Some s /\ SignalSpec.signal_is (swid sig) s (E sig).

Lemma world_signals ns E : nets_are ns E -> @signals_ok (world_of false ns) nets (env_of E).
Proof.
  intros Hn sig [n Hsn]. destruct (Hn sig n Hsn) as (s & Hs & Hsig). exists n, (vec4_value (fil s)). split; [done|]. cbn. rewrite Hs. split; [done|].
  destruct (vec4_value_spec (swid sig) (fil s) _ _ (sig_wire _ _ _ Hsig)) as (Wv & Sv & Vv). by apply vec_is_map.
Qed.

Lemma process_nets Pr p E S : process_at Pr p E S -> nets_are (nets_ Pr) E.
Proof. intros HP sig n Hsn. by destruct (at_nets _ _ _ _ _ _ _ HP sig n Hsn). Qed.

Lemma value_width E e : stmt_wf e = true -> length (value_of E e) = ivl_expr_width e /\ small (ivl_expr_width e) /\ (0 < ivl_expr_width e)%nat.
Proof. intros Hw. apply (wf_width nets). by apply stmt_wf_env. Qed.

(** ** Generators that only use the thread *)

(** What a generator of the thread's code gives, for any signals. *)
Lemma acts_piece (m : M unit) L P st (pre post : senv -> list bits) : alloc st W U ->
  (forall ns E, nets_are ns E -> @acts (world_of false ns) nets thread_count m W U (pre E) (post E)) ->
  (forall E, Forall (fun l => (0 < length l)%nat) (pre E)) ->
  swp L m P st (fun _ P' st' out => P' = P /\ alloc st' W U /\
    forall lab code p E, placed nets lab code p out -> transit code W U p E (pre E) (p + ninstr out)%nat E (post E)).
Proof.
  intros Ha Hm Hpre. destruct design as (ns0 & E0 & Hns0).
  destruct (@acts_run (world_of false ns0) nets thread_count m W U (pre E0) (post E0) [] st _ _ [] (Hm ns0 E0 Hns0) Ha (state_with_ok (pre E0 ++ []) ltac:(rewrite app_nil_r; apply Hpre)))
    as (st' & out & fl0 & ws0 & Em & Fm & _ & Ha' & _).
  unfold StmtFrag.swp. rewrite Em. exists P. split; [by apply sfrag_frame, frag_sfrag|]. split; [done|]. split; [done|].
  intros lab code p E Hpl Pr fl ws ls HP.
  destruct (@acts_run (world_of false (nets_ Pr)) nets thread_count m W U (pre E) (post E) [] st fl ws ls (Hm _ E (process_nets _ _ _ _ HP)) Ha (at_ok _ _ _ _ _ _ _ HP))
    as (st2 & out2 & fl' & ws' & Em2 & _ & Hr & _ & K). rewrite Em in Em2. injection Em2 as <- <-.
  destruct (Hr (at_ok _ _ _ _ _ _ _ HP)) as [_ Hreach]. destruct (thread_moves nets swid view code Pr p E _ _ _ HP (Hreach lab code p Hpl)) as (P' & Hs & HP').
  by exists P', fl', ws'.
Qed.

Lemma room_fits e : fits e -> room W U (depth e) (registers e) /\ room W U (S (depth e)) (registers e).
Proof. intros [_ Hr]. split; (eapply room_mono; [| |exact Hr]); lia. Qed.

Lemma draw_acts ns E e : nets_are ns E -> stmt_wf e = true -> fits e ->
  @acts (world_of false ns) nets thread_count (draw e) W U [] [value_of E e].
Proof.
  intros Hns Hw Hf. destruct (@draw_correct (world_of false ns) nets thread_count (env_of E) eq_refl (world_signals ns E Hns) fuel) as [Hd _].
  apply Hd; [|unfold vec4_fuel; destruct Hf; lia|by apply room_fits]. by apply (wf_parts nets (env_of E)), stmt_wf_env.
Qed.

(** The value of an expression is pushed. *)
Lemma draw_piece e L P st : stmt_wf e = true -> fits e -> alloc st W U ->
  swp L (draw e) P st (fun _ P' st' out => P' = P /\ alloc st' W U /\
    forall lab code p E, placed nets lab code p out -> transit code W U p E [] (p + ninstr out)%nat E [value_of E e]).
Proof.
  intros Hw Hf Ha. apply (acts_piece _ _ _ _ (fun _ => []) (fun E => [value_of E e])); [done| |constructor].
  intros ns E Hns. by apply draw_acts.
Qed.

(** The same, at another width. *)
Lemma draw_resized_piece e n L P st : stmt_wf e = true -> fits e -> alloc st W U -> small n -> (0 < n)%nat ->
  swp L (draw e;; resize_vec4_wid e n) P st (fun _ P' st' out => P' = P /\ alloc st' W U /\
    forall lab code p E, placed nets lab code p out -> transit code W U p E [] (p + ninstr out)%nat E [fit (ivl_expr_signed e) n (value_of E e)]).
Proof.
  intros Hw Hf Ha Hn H0. apply (acts_piece _ _ _ _ (fun _ => []) (fun E => [fit (ivl_expr_signed e) n (value_of E e)])); [done| |constructor].
  intros ns E Hns. eapply acts_bind; [by apply draw_acts|]. apply acts_resize; [|done|done]. by apply value_width.
Qed.

(** ** Branches *)

(** The code ends with the truth of the condition in flag [f]. *)
Definition decided code (p : nat) E (q f : nat) (b : vvp_bit4_t) : Prop :=
  forall Pr fl ws ls, process_at Pr p E (Abs fl ws ls) ->
  exists Pr' fl' ws' c, rtc (pstep code) Pr Pr' /\ process_at Pr' q E (Abs fl' ws' ls) /\ keeps W U fl ws fl' ws' /\
    fl' !! f = Some c /\ bit4_z2x c = b.

(** What a generator of a condition prints, and where its code leads. *)
Lemma decides_run `{World} (m : M nat) b P st fl ws ls : decides nets thread_count m W U b -> alloc st W U -> state_ok (Abs fl ws ls) ->
  exists f st' out fl' ws' c, m st = Done f st' out /\ frag nets thread_count P (local_count st) out P (local_count st') /\
    runs nets out (Abs fl ws ls) (Abs fl' ws' ls) /\ alloc st' W ({[f]} ∪ U) /\ (f < FLAGS_COUNT)%nat /\ ((8 <= f)%nat -> f ∉ U) /\
    keeps W U fl ws fl' ws' /\ fl' !! f = Some c /\ bit4_z2x c = b.
Proof.
  intros Hm Ha Hok. pose proof (Hm P st fl ws ls (fun f P' st' A' => P' = P /\ alloc st' W ({[f]} ∪ U) /\ (f < FLAGS_COUNT)%nat /\ ((8 <= f)%nat -> f ∉ U) /\
    exists fl' ws' c, A' = Abs fl' ws' ls /\ keeps W U fl ws fl' ws' /\ fl' !! f = Some c /\ bit4_z2x c = b) Ha) as Hw.
  specialize (Hw ltac:(intros; do 4 (split; [done|]); by eexists _, _, _) Hok). destruct (m st) as [f st' out| |]; [|done..].
  destruct Hw as (P' & A' & F & R & -> & Ha' & Hf & Hn & fl' & ws' & c & -> & K & Hc & Hb). by exists f, st', out, fl', ws', c.
Qed.

Lemma cond_decides ns E e : nets_are ns E -> stmt_wf e = true -> fits e ->
  @decides (world_of false ns) nets thread_count (draw_cond e) W U (or_all (value_of E e)).
Proof.
  intros Hns Hw Hf. destruct (@draw_correct (world_of false ns) nets thread_count (env_of E) eq_refl (world_signals ns E Hns) fuel) as [_ Hd].
  apply Hd; [by apply stmt_wf_env|unfold condition_fuel; destruct Hf; lia|by apply room_fits].
Qed.

Lemma cond_piece e L P st : stmt_wf e = true -> fits e -> alloc st W U ->
  swp L (draw_cond e) P st (fun f P' st' out => P' = P /\ alloc st' W ({[f]} ∪ U) /\ (f < FLAGS_COUNT)%nat /\ ((8 <= f)%nat -> f ∉ U) /\
    forall lab code p E, placed nets lab code p out -> decided code p E (p + ninstr out)%nat f (or_all (value_of E e))).
Proof.
  intros Hw Hf Ha. destruct design as (ns0 & E0 & Hns0).
  destruct (@decides_run (world_of false ns0) (draw_cond e) _ [] st _ _ [] (cond_decides ns0 E0 e Hns0 Hw Hf) Ha (state_with_ok [] (List.Forall_nil _)))
    as (f & st' & out & fl0 & ws0 & c0 & Em & Fm & _ & Ha' & Hlt & Hn & _).
  unfold StmtFrag.swp. rewrite Em. exists P. split; [by apply sfrag_frame, frag_sfrag|]. do 4 (split; [done|]).
  intros lab code p E Hpl Pr fl ws ls HP.
  destruct (@decides_run (world_of false (nets_ Pr)) (draw_cond e) _ [] st fl ws ls (cond_decides _ E e (process_nets _ _ _ _ HP) Hw Hf) Ha (at_ok _ _ _ _ _ _ _ HP))
    as (f2 & st2 & out2 & fl' & ws' & c & Em2 & _ & Hr & _ & _ & _ & K & Hc & Hb). rewrite Em in Em2. injection Em2 as <- <- <-.
  destruct (Hr (at_ok _ _ _ _ _ _ _ HP)) as [_ Hreach]. destruct (thread_moves nets swid view code Pr p E _ _ _ HP (Hreach lab code p Hpl)) as (P' & Hs & HP').
  by exists P', fl', ws', c.
Qed.

(** A conditional jump. *)
Lemma jump_moves mnem f lab code p dest flag Pr E fl ws ls b n : jump_test mnem f ->
  (forall c, compile_code lab nets mnem [label_ thread_count n; num_ flag] = Some c -> code !! p = Some c) -> lab (SymCode thread_count n) = Some dest ->
  (flag < FLAGS_COUNT)%nat -> fl !! flag = Some b -> process_at Pr p E (Abs fl ws ls) ->
  exists Pr', rtc (pstep code) Pr Pr' /\ process_at Pr' (if f b then dest else S p) E (Abs fl ws ls).
Proof.
  intros Hj Hc Hl Hf Hb HP. eapply (thread_moves nets swid view code Pr p E _ _ _ HP).
  by apply (@jump_step (world_of false (nets_ Pr)) nets eq_refl mnem f lab code p (SymCode thread_count n) dest flag (Abs fl ws ls) b).
Qed.

(** The flag of a condition is given back. *)
Lemma clr_piece f L P st (Phi : unit -> list symbol -> cg -> list asm_line -> Prop) : alloc st W ({[f]} ∪ U) -> (f < FLAGS_COUNT)%nat ->
  ((8 <= f)%nat -> f ∉ U) -> (forall st', alloc st' W U -> Phi tt P st' []) -> (forall i, (i < 8)%nat -> i ∈ U) -> swp L (clr_flag f) P st Phi.
Proof.
  intros Ha Hf Hn HP Hlow. unfold StmtFrag.swp. destruct (Nat.lt_ge_cases f 8) as [H8|H8].
  - rewrite clr_low_flag by done. exists P. split; [apply sfrag_nil|]. apply HP.
    replace U with ({[f]} ∪ U); [done|]. specialize (Hlow f H8). clear - Hlow. set_solver.
  - destruct (clr_flag_spec st W U f) as (st' & -> & Hlc & Ha'); [done|by apply Hn|done|].
    exists P. rewrite Hlc. split; [apply sfrag_nil|]. by apply HP.
Qed.

(** A jump on a condition: the test of the flag sees only whether the condition holds. *)
Lemma branch_piece e mnem f jumps n L P st : jump_test mnem f -> (forall b, f b = if bool_decide (b = BIT4_1) then jumps else negb jumps) ->
  stmt_wf e = true -> fits e -> alloc st W U -> SymCode thread_count n ∈ L ++ P ->
  swp L (branch_on thread_count draw_cond e mnem n) P st (fun _ P' st' out => P' = P /\ alloc st' W U /\
    forall lab code p E dest, placed nets lab code p out -> lab (SymCode thread_count n) = Some dest ->
      transit code W U p E [] (if eqb (holds swid E e) jumps then dest else (p + ninstr out)%nat) E []).
Proof.
  intros Hj Hjumps Hw Hf Ha Hn. unfold branch_on. apply swp_bind. eapply swp_mono; [|by apply cond_piece].
  intros flag P1 st1 out1 (-> & Ha1 & Hlt & Hfree & Hdec). apply swp_bind. apply swp_emit.
  { eapply line_jump; [done|]. revert Hn. rewrite !elem_of_app. tauto. }
  apply clr_piece; [done..| |by apply (al_flag_low _ _ _ Ha)]. intros st' Ha'. split; [done|]. split; [done|].
  intros lab code p E dest Hpl Hl. apply placed_app in Hpl as [Hp1 [Hc _]]. intros Pr fl ws ls HP.
  destruct (Hdec lab code p E Hp1 Pr fl ws ls HP) as (Pr1 & fl1 & ws1 & c & Hs1 & HP1 & K & Hfl & Hb).
  destruct (jump_moves mnem f lab code _ dest flag Pr1 E fl1 ws1 ls c n Hj Hc Hl Hlt Hfl HP1) as (Pr2 & Hs2 & HP2).
  exists Pr2, fl1, ws1. split; [by eapply rtc_trans|]. split; [|done].
  assert (Hh : holds swid E e = bool_decide (c = BIT4_1)) by (unfold holds; rewrite <- Hb; by destruct c).
  rewrite Hjumps in HP2. rewrite Hh, ninstr_app. cbn [ninstr]. rewrite Nat.add_assoc, Nat.add_1_r. cbn [app].
  destruct (bool_decide (c = BIT4_1)), jumps; exact HP2.
Qed.

(** ** Offsets in registers *)

Lemma wp_offset ns E e ix P st fl ws ls (Phi : unit -> list symbol -> cg -> abs -> Prop) : nets_are ns E -> stmt_wf e = true -> off_ok e = true -> fits e ->
  (ix < WORDS_COUNT)%nat -> ix ∉ W -> alloc st ({[ix]} ∪ W) U ->
  (forall st' fl' ws', alloc st' ({[ix]} ∪ W) U -> keeps W U fl ws fl' ws' -> offset_is ix fl' ws' (offset_of swid E e) -> Phi tt P st' (Abs fl' ws' ls)) ->
  @wp (world_of false ns) nets thread_count unit (draw_eval_expr_into_integer draw e ix) P st (Abs fl ws ls) Phi.
Proof.
  intros Hns Hw [Hwid%Nat.leb_le Hnum]%andb_prop Hf Hix Hn Ha HP. pose proof (stmt_wf_env E e Hw) as Hwe. destruct (value_width E e Hw) as (Hlen & _ & H0).
  destruct (@draw_correct (world_of false ns) nets thread_count (env_of E) eq_refl (world_signals ns E Hns) fuel) as [Hd _].
  assert (Hroom : room ({[ix]} ∪ W) U (depth e) (registers e)) by (apply room_word; destruct Hf as [_ Hr]; eapply room_mono; [| |exact Hr]; lia).
  eapply (@wp_index_with (world_of false ns) nets thread_count (env_of E) eq_refl draw (fun _ => mret 0%nat) (offset_value (ivl_expr_signed e) (value_of E e)) e ix W U).
  - by apply world_signals.
  - done.
  - destruct (ivl_expr_signed e); [right|left]; [lia|done].
  - rewrite <- Hlen in *. by apply index_offset.
  - destruct e as [a ds| | | | | | |]; try done. cbv zeta. apply andb_prop in Hnum as [Hi Hs%negb_true_iff].
    apply wf_parts in Hwe as [Hg _]. apply andb_prop in Hg as [_ [Hle Hdig]%andb_prop]. apply Nat.leb_le in Hle.
    change (value_of E (IVL_EX_NUMBER a ds)) with (digits (take (width_ a) ds)). apply number_offset; [done| |done|done].
    rewrite length_take, Nat.min_l by done. unfold ivl_expr_width in Hwid. cbn [attr_of] in Hwid. destruct (ivl_expr_signed _); lia.
  - apply Hd; [|unfold vec4_fuel; destruct Hf; lia]. by apply (wf_parts nets (env_of E)).
  - done.
  - done.
  - done.
  - done.
  - intros st' fl' ws' b4 v Ha' K Hb Hv Hoff. apply HP; [done|done|]. unfold offset_of. unfold offset_value in Hoff.
    destruct (has_unknown (value_of E e)); [subst; by eapply offset_unknown|]. destruct Hoff as [Hne <-]. by eapply offset_known.
Qed.

Lemma offset_piece e ix L P st : stmt_wf e = true -> off_ok e = true -> fits e -> (ix < WORDS_COUNT)%nat -> ix ∉ W -> alloc st ({[ix]} ∪ W) U ->
  swp L (draw_eval_expr_into_integer draw e ix) P st (fun _ P' st' out => P' = P /\ alloc st' ({[ix]} ∪ W) U /\
    forall lab code p E Pr fl ws ls, placed nets lab code p out -> process_at Pr p E (Abs fl ws ls) ->
      exists Pr' fl' ws', rtc (pstep code) Pr Pr' /\ process_at Pr' (p + ninstr out)%nat E (Abs fl' ws' ls) /\ keeps W U fl ws fl' ws' /\
        offset_is ix fl' ws' (offset_of swid E e)).
Proof.
  intros Hw Hoff Hf Hix Hn Ha.
  assert (Hrun : forall ns E fl ws ls, nets_are ns E -> state_ok (Abs fl ws ls) -> exists st' out fl' ws', draw_eval_expr_into_integer draw e ix st = Done tt st' out /\
    frag nets thread_count [] (local_count st) out [] (local_count st') /\ @runs (world_of false ns) nets out (Abs fl ws ls) (Abs fl' ws' ls) /\
    alloc st' ({[ix]} ∪ W) U /\ keeps W U fl ws fl' ws' /\ offset_is ix fl' ws' (offset_of swid E e)).
  { intros ns E fl ws ls Hns Hok.
    pose proof (wp_offset ns E e ix [] st fl ws ls (fun _ P' st' A' => P' = [] /\ alloc st' ({[ix]} ∪ W) U /\
      exists fl' ws', A' = Abs fl' ws' ls /\ keeps W U fl ws fl' ws' /\ offset_is ix fl' ws' (offset_of swid E e)) Hns Hw Hoff Hf Hix Hn Ha) as Hwp.
    specialize (Hwp ltac:(intros; split; [done|]; split; [done|]; by eexists _, _) Hok). destruct (draw_eval_expr_into_integer draw e ix st) as [[] st' out| |]; [|done..].
    destruct Hwp as (P' & A' & F & R & -> & Ha' & fl' & ws' & -> & K & Ho). by exists st', out, fl', ws'. }
  destruct design as (ns0 & E0 & Hns0). destruct (Hrun ns0 E0 _ _ [] Hns0 (state_with_ok [] (List.Forall_nil _))) as (st' & out & _ & _ & Em & F & _ & Ha' & _).
  unfold StmtFrag.swp. rewrite Em. exists P. split; [by apply sfrag_frame, frag_sfrag|]. split; [done|]. split; [done|].
  intros lab code p E Pr fl ws ls Hpl HP. destruct (Hrun (nets_ Pr) E fl ws ls (process_nets _ _ _ _ HP) (at_ok _ _ _ _ _ _ _ HP)) as (st2 & out2 & fl' & ws' & Em2 & _ & Hr & _ & K & Ho).
  rewrite Em in Em2. injection Em2 as <- <-. destruct (Hr (at_ok _ _ _ _ _ _ _ HP)) as [_ Hreach].
  destruct (thread_moves nets swid view code Pr p E _ _ _ HP (Hreach lab code p Hpl)) as (P' & Hs & HP'). by exists P', fl', ws'.
Qed.
End Piece.
