(* ===== verification/StmtLval.v ===== *)
(** * StmtLval: the code that stores, holds and forces l-values

    Each l-value takes its part of the value on the stack; together they do what
    [over_lvals] and [over_parts] say. *)

From Stdlib Require Import String Ascii.
From stdpp Require Import gmap relations.
From S2P Require Import Prelude FourState Vector4 Vector4Ops Bits Thread ThreadSpec Machine MachineRun.
From S2P Require Import Codegen EmitWp CodegenAlloc EmitOps ExprSem CodegenNumber CodegenSpec CodegenCond CodegenMain.
From S2P Require Import Signal SignalSpec Process ProcessSpec Stmt StmtSem StmtFrag StmtPiece.
Import Bit4.

Open Scope ivl_scope.

Section Lval.
Variables (nets : symbol -> option nat) (swid : nat -> nat) (view : nat -> nat -> vvp_bit4_t).
Variables (thread_count fuel : nat) (W U : gset nat).
Hypothesis nets_inj : forall s1 s2 n, nets (SymNet s1 0) = Some n -> nets (SymNet s2 0) = Some n -> s1 = s2.
Hypothesis design : exists (ns : gmap nat vvp_net_t) (E : senv), forall sig n, nets (SymNet sig 0) = Some n -> exists s, ns !! n = Some s /\ SignalSpec.signal_is (swid sig) s (E sig).
Implicit Types (st : cg) (out : list asm_line) (P L : list symbol) (E : senv) (e : ivl_expr_t) (code : list vvp_code_t) (lab : symbol -> option nat).
Implicit Types (l : bits) (lval : ivl_lval_s) (lvals : list ivl_lval_s).

Local Abbreviation swp := (swp nets thread_count).
Local Abbreviation transit := (transit nets swid view).
Local Abbreviation process_at := (process_at nets swid view).
Local Abbreviation draw := (draw_eval_vec4 thread_count fuel).
Local Abbreviation value_of := (value_of swid).
Local Abbreviation stmt_wf := (stmt_wf nets swid).
Local Abbreviation fits := (fits fuel W U).

(** ** Instructions that write to a net *)

Lemma emit_piece mn opa cp L P st : (forall lab, compile_code lab nets mn opa = Some cp) ->
  swp L (emit mn opa) P st (fun _ P' st' out => P' = P /\ st' = st /\ ninstr out = 1%nat /\
    forall lab code p, placed nets lab code p out -> code !! p = Some cp).
Proof using.
  intros Hc. apply swp_emit; [intros lab _; by rewrite Hc|]. split; [done|]. split; [done|]. split; [done|]. intros lab code p [Hp _]. apply Hp, Hc.
Qed.

(** An offset goes into a new register, and an instruction uses it; [R] says what
    the instruction does. *)
Lemma at_offset_piece e mn opa cp sig L P st (R : senv -> bits -> asig -> Prop) : stmt_wf e = true -> off_ok e = true -> fits e -> alloc st W U ->
  (forall ix, (4 <= ix < WORD_COUNT)%nat -> (forall lab, compile_code lab nets mn (opa ix) = Some (cp ix)) /\ nets (SymNet sig 0) = Some (net (cp ix)) /\
     forall E l A' fl ws ls, R E l A' -> offset_is ix fl ws (offset_of swid E e) -> state_ok (Abs fl ws (l :: ls)) ->
       net_effect (cp ix) (swid sig) (Abs fl ws (l :: ls)) (E sig) (Abs fl ws ls) A') ->
  swp L (ix ← allocate_word; draw_eval_expr_into_integer draw e ix;; emit mn (opa ix);; clr_word ix) P st (fun _ P' st' out => P' = P /\ alloc st' W U /\
    forall lab code p E l A', placed nets lab code p out -> R E l A' -> transit code W U p E [l] (p + ninstr out)%nat (set_signal E sig A') []).
Proof.
  intros Hw Hoff Hf Ha Hop. apply swp_bind. assert (Hsize : (base.size W < WORD_COUNT)%nat) by (destruct Hf as [_ [_ Hr]]; lia).
  destruct (allocate_word_spec st W U Ha Hsize) as (ix & st1 & Eix & Hlc & Hix & Hnew & Ha1). unfold StmtFrag.swp at 1. rewrite Eix.
  exists P. split; [rewrite Hlc; apply sfrag_nil|]. destruct (Hop ix Hix) as (Hc & Hsig & He).
  apply swp_bind. eapply swp_mono; [|apply (offset_piece nets swid view thread_count fuel W U design e ix); [done..|unfold WORDS_COUNT, WORD_COUNT in *; lia|done|done]].
  intros _ P2 st2 out2 (-> & Ha2 & Hrun). apply swp_bind. eapply swp_mono; [|by apply (emit_piece mn (opa ix) (cp ix))].
  intros _ P3 st3 out3 (-> & -> & Hn3 & Hcode). destruct (clr_word_spec st2 W U ix Ha2 Hnew Hix) as (st4 & Ecl & Hlc4 & Ha4).
  unfold StmtFrag.swp. rewrite Ecl. exists P. split; [rewrite Hlc4; apply sfrag_nil|]. split; [done|]. split; [done|].
  intros lab code p E l A' Hpl HR Pr fl ws ls HP. rewrite app_nil_r in *. apply placed_app in Hpl as [_ [Hp2 Hp3]%placed_app]. cbn [ninstr] in *. rewrite Nat.add_0_r in *.
  destruct (Hrun lab code p E Pr fl ws (l :: ls) Hp2 HP) as (Pr1 & fl1 & ws1 & Hs1 & HP1 & K & Ho).
  destruct (net_moves nets swid view nets_inj code Pr1 _ E _ (cp ix) sig (Abs fl1 ws1 ls) A' HP1 (Hcode _ _ _ Hp3) Hsig) as (Pr2 & Hs2 & HP2).
  { apply He; [done|done|]. apply (at_ok _ _ _ _ _ _ _ HP1). }
  exists Pr2, fl1, ws1. split; [eapply rtc_trans; [done|by apply rtc_once]|]. split; [|done].
  cbn [app]. rewrite ninstr_app, Hn3, Nat.add_assoc, Nat.add_1_r. done.
Qed.

(** An instruction that uses the value alone. *)
Lemma at_net_piece mn opa cp sig L P st (R : senv -> bits -> asig -> Prop) : (forall lab, compile_code lab nets mn opa = Some cp) -> nets (SymNet sig 0) = Some (net cp) ->
  (forall E l A' fl ws ls, R E l A' -> state_ok (Abs fl ws (l :: ls)) -> net_effect cp (swid sig) (Abs fl ws (l :: ls)) (E sig) (Abs fl ws ls) A') ->
  alloc st W U -> swp L (emit mn opa) P st (fun _ P' st' out => P' = P /\ alloc st' W U /\
    forall lab code p E l A', placed nets lab code p out -> R E l A' -> transit code W U p E [l] (p + ninstr out)%nat (set_signal E sig A') []).
Proof using nets_inj.
  intros Hc Hsig He Ha. eapply swp_mono; [|by apply (emit_piece mn opa cp)]. intros _ P' st' out (-> & -> & Hn & Hcode). split; [done|]. split; [done|].
  intros lab code p E l A' Hpl HR. rewrite Hn, Nat.add_1_r. apply (transit_net nets swid view nets_inj _ _ _ _ _ [l] cp); [by eapply Hcode|done|].
  intros fl ws ls Hok. by apply He.
Qed.

(** ** L-values *)

(** The l-value names a signal of the design and a part of it. *)
Definition lval_wf lval : bool :=
  let sig := ivl_lval_sig lval in
  match nets (SymNet (sig_id sig) 0) with Some _ => true | None => false end &&
  (swid (sig_id sig) =? ivl_signal_width sig)%nat && (0 <? ivl_lval_width lval)%nat && (ivl_lval_width lval <=? ivl_signal_width sig)%nat &&
  (Z.of_nat (ivl_signal_width sig) <? 2 ^ 30) &&
  match ivl_lval_part_off lval with
  | None => (ivl_lval_width lval =? ivl_signal_width sig)%nat
  | Some e => stmt_wf e && off_ok e
  end.

Definition lval_exprs lval : list ivl_expr_t := option_list (ivl_lval_part_off lval).

Record lval_ok lval (n : nat) : Prop := LvalOk {
  lo_net : nets (SymNet (lval_id lval) 0) = Some n;
  lo_width : swid (lval_id lval) = ivl_signal_width (ivl_lval_sig lval);
  lo_pos : (0 < ivl_lval_width lval <= ivl_signal_width (ivl_lval_sig lval))%nat;
  lo_small : small (ivl_signal_width (ivl_lval_sig lval));
}.

Lemma lval_wf_ok lval : lval_wf lval = true -> (exists n, lval_ok lval n) /\
  match ivl_lval_part_off lval with None => ivl_lval_width lval = ivl_signal_width (ivl_lval_sig lval) | Some e => stmt_wf e = true /\ off_ok e = true end.
Proof using.
  unfold lval_wf. destruct (nets (SymNet (sig_id (ivl_lval_sig lval)) 0)) as [n|] eqn:En; [|done]. cbn [andb].
  intros [[[[H1%Nat.eqb_eq H2%Nat.ltb_lt]%andb_prop H3%Nat.leb_le]%andb_prop H4%Z.ltb_lt]%andb_prop H5]%andb_prop.
  split; [exists n; by constructor|]. destruct (ivl_lval_part_off lval); [by apply andb_prop in H5|by apply Nat.eqb_eq in H5].
Qed.

(** The l-value takes the low bits of the value; [rest] of the value is left. *)
Definition rest (last : bool) lval l : list bits := if last then [] else [drop (ivl_lval_width lval) l].
Definition enough (last : bool) lval l : Prop := if last then length l = ivl_lval_width lval else (ivl_lval_width lval < length l)%nat.

Lemma length_lval_part last lval l : enough last lval l -> length (take (ivl_lval_width lval) l) = ivl_lval_width lval.
Proof using. unfold enough. rewrite length_take. destruct last; lia. Qed.

(** What the code of an l-value does. *)
Definition lval_code (last : bool) (f : ivl_lval_s -> bits -> senv -> option senv) lval lab code p q : Prop :=
  forall E l E', f lval (take (ivl_lval_width lval) l) E = Some E' -> enough last lval l ->
    transit code W U p E [l] q E' (rest last lval l).

(** The value is split, unless it is all for this l-value. *)
Lemma split_piece (last : bool) lval L P st : small (ivl_lval_width lval) -> (0 < ivl_lval_width lval)%nat -> alloc st W U ->
  swp L (if last then mret tt else emit "%split/vec4" [num_ (ivl_lval_width lval)]) P st (fun _ P' st' out => P' = P /\ alloc st' W U /\
    forall lab code p E l, placed nets lab code p out -> enough last lval l ->
      transit code W U p E [l] (p + ninstr out)%nat E (take (ivl_lval_width lval) l :: rest last lval l)).
Proof using.
  intros Hs H0 Ha. destruct last.
  - apply swp_ret. split; [done|]. split; [done|]. intros lab code p E l _ Hl. cbn [ninstr]. rewrite Nat.add_0_r, take_ge by (unfold enough in Hl; lia).
    apply transit_refl.
  - eapply swp_mono; [|apply (emit_piece _ _ (Code OP_SPLIT_VEC4 (u64 (Z.of_nat (ivl_lval_width lval))) 0 0 0 0)); done].
    intros _ P' st' out (-> & -> & Hn & Hcode). split; [done|]. split; [done|]. intros lab code p E l Hpl Hl. rewrite Hn, Nat.add_1_r.
    apply (transit_step nets swid view _ _ _ _ _ [l] _ _ (take (ivl_lval_width lval) l :: rest false lval l) (fun fl => fl) (fun ws => ws) (Hcode _ _ _ Hpl)).
    intros Pr fl ws ls HP. split; [|apply keeps_refl]. unfold rest. cbn [app]. pose proof (small_number _ Hs) as En.
    pose proof (@eff_split (world_of false (nets_ Pr)) (Code OP_SPLIT_VEC4 (u64 (Z.of_nat (ivl_lval_width lval))) 0 0 0 0) (S p) fl ws l ls eq_refl) as Ef.
    cbn [number] in Ef. rewrite En in Ef. apply Ef. unfold enough in Hl. lia.
Qed.

(** What follows the split. *)
Definition core_ok (f : ivl_lval_s -> bits -> senv -> option senv) lval (m : M unit) : Prop :=
  forall L P st, alloc st W U -> swp L m P st (fun _ P' st' out => P' = P /\ alloc st' W U /\
    forall lab code p E l E', placed nets lab code p out -> length l = ivl_lval_width lval -> f lval l E = Some E' ->
      transit code W U p E [l] (p + ninstr out)%nat E' []).

Lemma slice_piece f (last : bool) lval (m : M unit) n L P st : lval_ok lval n -> core_ok f lval m -> alloc st W U ->
  swp L ((if last then mret tt else emit "%split/vec4" [num_ (ivl_lval_width lval)]);; m) P st (fun _ P' st' out => P' = P /\ alloc st' W U /\
    forall lab code p, placed nets lab code p out -> lval_code last f lval lab code p (p + ninstr out)%nat).
Proof using.
  intros [_ _ Hpos Hs] Hm Ha. apply swp_bind. eapply swp_mono; [|apply split_piece; [unfold small in *; lia|lia|done]].
  intros _ P1 st1 out1 (-> & Ha1 & Hrun1). eapply swp_mono; [|by apply Hm]. intros _ P2 st2 out2 (-> & Ha2 & Hrun2). split; [done|]. split; [done|].
  intros lab code p [Hp1 Hp2]%placed_app E l E' Hf Hl. rewrite ninstr_app, Nat.add_assoc. eapply transit_trans; [by apply (Hrun1 lab)|].
  apply (transit_frame nets swid view _ _ _ _ _ [_] _ _ []). eapply Hrun2; [done| |done]. by eapply length_lval_part.
Qed.

(** A core is one of the two forms. *)
Lemma core_net f lval mn opa cp : (forall lab, compile_code lab nets mn opa = Some cp) -> nets (SymNet (lval_id lval) 0) = Some (net cp) ->
  (forall E l E' fl ws ls, length l = ivl_lval_width lval -> f lval l E = Some E' -> state_ok (Abs fl ws (l :: ls)) ->
     exists A', E' = set_signal E (lval_id lval) A' /\ net_effect cp (swid (lval_id lval)) (Abs fl ws (l :: ls)) (E (lval_id lval)) (Abs fl ws ls) A') ->
  core_ok f lval (emit mn opa).
Proof using nets_inj.
  intros Hc Hsig He L P st Ha.
  eapply swp_mono; [|apply (at_net_piece mn opa cp (lval_id lval) L P st (fun E l A' => length l = ivl_lval_width lval /\ f lval l E = Some (set_signal E (lval_id lval) A')))].
  - intros _ P' st' out (-> & Ha' & Hrun). split; [done|]. split; [done|]. intros lab code p E l E' Hpl Hl Hf Pr fl ws ls HP.
    destruct (He E l E' fl ws ls Hl Hf (at_ok _ _ _ _ _ _ _ HP)) as (A' & -> & _). by apply (Hrun lab code p E l A').
  - done.
  - done.
  - intros E l A' fl ws ls [Hl Hf] Hok. destruct (He E l _ fl ws ls Hl Hf Hok) as (A2 & Heq & Hne).
    apply (f_equal (fun g => g (lval_id lval))) in Heq. rewrite !set_signal_eq in Heq. by subst.
  - done.
Qed.

Lemma core_offset f lval e mn opa (cp : nat -> vvp_code_t) : stmt_wf e = true -> off_ok e = true -> fits e ->
  (forall ix, (4 <= ix < WORD_COUNT)%nat -> (forall lab, compile_code lab nets mn (opa ix) = Some (cp ix)) /\ nets (SymNet (lval_id lval) 0) = Some (net (cp ix)) /\
     forall E l E' fl ws ls, length l = ivl_lval_width lval -> f lval l E = Some E' -> offset_is ix fl ws (offset_of swid E e) -> state_ok (Abs fl ws (l :: ls)) ->
       exists A', E' = set_signal E (lval_id lval) A' /\ net_effect (cp ix) (swid (lval_id lval)) (Abs fl ws (l :: ls)) (E (lval_id lval)) (Abs fl ws ls) A') ->
  (forall E l E', length l = ivl_lval_width lval -> f lval l E = Some E' -> exists A', E' = set_signal E (lval_id lval) A') ->
  core_ok f lval (ix ← allocate_word; draw_eval_expr_into_integer draw e ix;; emit mn (opa ix);; clr_word ix).
Proof using nets_inj design.
  intros Hw Hoff Hf Hop Hset L P st Ha.
  eapply swp_mono; [|apply (at_offset_piece e mn opa cp (lval_id lval) L P st (fun E l A' => length l = ivl_lval_width lval /\ f lval l E = Some (set_signal E (lval_id lval) A')))].
  - intros _ P' st' out (-> & Ha' & Hrun). split; [done|]. split; [done|]. intros lab code p E l E' Hpl Hl Hfe.
    destruct (Hset E l E' Hl Hfe) as (A' & ->). by apply (Hrun lab code p E l A').
  - done.
  - done.
  - done.
  - done.
  - intros ix Hix. destruct (Hop ix Hix) as (Hc & Hsig & He). split; [done|]. split; [done|]. intros E l A' fl ws ls [Hl Hfe] Ho Hok.
    destruct (He E l _ fl ws ls Hl Hfe Ho Hok) as (A2 & Heq & Hne). apply (f_equal (fun g => g (lval_id lval))) in Heq. rewrite !set_signal_eq in Heq. by subst.
Qed.

(** ** The instructions *)

Lemma small_index ix : (4 <= ix < WORD_COUNT)%nat -> Z.to_nat (u32 (Z.of_nat ix)) = ix /\ 0 < u32 (Z.of_nat ix).
Proof using. unfold WORD_COUNT. intros Hix. unfold u32. rewrite Z.mod_small by lia. lia. Qed.

Lemma small_wid lval n : lval_ok lval n -> Z.to_nat (u32 (Z.of_nat (ivl_lval_width lval))) = ivl_lval_width lval.
Proof using. intros [_ _ Hp Hs]. unfold small in Hs. unfold u32. rewrite Z.mod_small by lia. lia. Qed.

(** The operand of the net. *)
Ltac assembles Hnet := intros lab; unfold compile_code; cbn; unfold lval_id in Hnet; rewrite Hnet; reflexivity.

Lemma store_core lval n (wid : nat) : lval_ok lval n -> wid = ivl_lval_width lval -> ivl_lval_part_off lval = None ->
  core_ok (assign_lval swid) lval (emit "%store/vec4" [net_ (ivl_lval_sig lval); num_ 0; num_ wid]).
Proof using nets_inj.
  intros Ho -> Hpart. pose proof (lo_net _ _ Ho) as Hnet. apply (core_net _ _ _ _ (Code OP_STORE_VEC4 0 (u32 0) (u32 (Z.of_nat (ivl_lval_width lval))) 0 n)); [assembles Hnet|done|].
  intros E l E' fl ws ls Hl Hf Hok. unfold assign_lval in Hf. rewrite Hpart in Hf. injection Hf as <-. eexists. split; [reflexivity|].
  unfold part_offset. rewrite Hpart. apply ne_store; [done|done|]. cbn [bit_idx1]. by rewrite (small_wid lval n).
Qed.

Lemma force_at_effect lval n ix E l fl ws ls e : lval_ok lval n -> (4 <= ix < WORD_COUNT)%nat -> length l = ivl_lval_width lval -> force_ok swid lval l (offset_of swid E e) = true ->
  offset_is ix fl ws (offset_of swid E e) -> 
  net_effect (Code OP_FORCE_VEC4_OFF 0 (u32 (Z.of_nat ix)) 0 0 n) (swid (lval_id lval)) (Abs fl ws (l :: ls)) (E (lval_id lval)) (Abs fl ws ls)
    (at_offset a_force_at (offset_of swid E e) l (E (lval_id lval))).
Proof using.
  intros [_ Hw Hp Hs] Hix Hl Hok Ho. apply ne_force_at; [done|cbn [bit_idx0]; by rewrite (proj1 (small_index ix Hix))| | |rewrite Hw; lia].
  - intros o Eo. unfold force_ok in Hok. rewrite Eo in Hok. unfold in_signal.
    apply orb_true_iff in Hok as [[[?%Z.leb_le ?%Z.leb_le]%andb_prop|?%Z.leb_le]%orb_true_iff|?%Z.ltb_lt]; [by left|right; by left|right; by right].
  - rewrite Hw. unfold small in Hs. lia.
Qed.

Lemma store_at_core lval n e : lval_ok lval n -> ivl_lval_part_off lval = Some e -> stmt_wf e = true -> off_ok e = true -> fits e ->
  core_ok (assign_lval swid) lval (ix ← allocate_word; draw_eval_expr_into_integer draw e ix;;
    (if decide (ivl_signal_type (ivl_lval_sig lval) = IVL_SIT_UWIRE) then emit "%force/vec4/off" [net_ (ivl_lval_sig lval); num_ ix]
     else emit "%store/vec4" [net_ (ivl_lval_sig lval); num_ ix; num_ (ivl_lval_width lval)]);;
    clr_word ix).
Proof using nets_inj design.
  intros Ho Hpart Hw Hoff Hf. pose proof (lo_net _ _ Ho) as Hnet. assert (Hpo : forall E, part_offset swid E lval = offset_of swid E e) by (intros E; unfold part_offset; by rewrite Hpart).
  case_decide as Hu.
  - apply (core_offset _ _ e "%force/vec4/off" (fun ix => [net_ (ivl_lval_sig lval); num_ ix]) (fun ix => Code OP_FORCE_VEC4_OFF 0 (u32 (Z.of_nat ix)) 0 0 n)); [done..| |].
    + intros ix Hix. split; [assembles Hnet|]. split; [done|]. intros E l E' fl ws ls Hl Hfe Ho' Hok. unfold assign_lval, force_lval in Hfe.
      rewrite Hpart, Hu, Hpo in Hfe. destruct (force_ok swid lval l (offset_of swid E e)) eqn:Hfo; [|done]. injection Hfe as <-. eexists. split; [reflexivity|].
      by apply force_at_effect.
    + intros E l E' Hl Hfe. unfold assign_lval, force_lval in Hfe. rewrite Hpart, Hu in Hfe. destruct (force_ok _ _ _ _); [|done]. injection Hfe as <-. by eexists.
  - assert (Hfun : forall E l, assign_lval swid lval l E = Some (update lval (at_offset a_store (offset_of swid E e) l) E)).
    { intros E l. unfold assign_lval. rewrite Hpart, Hpo. by destruct (ivl_signal_type (ivl_lval_sig lval)). }
    apply (core_offset _ _ e "%store/vec4" (fun ix => [net_ (ivl_lval_sig lval); num_ ix; num_ (ivl_lval_width lval)])
      (fun ix => Code OP_STORE_VEC4 0 (u32 (Z.of_nat ix)) (u32 (Z.of_nat (ivl_lval_width lval))) 0 n)); [done..| |].
    + intros ix Hix. split; [assembles Hnet|]. split; [done|]. intros E l E' fl ws ls Hl Hfe Ho' Hok. rewrite Hfun in Hfe. injection Hfe as <-. eexists. split; [reflexivity|].
      destruct (small_index ix Hix) as [Ei Hi]. apply ne_store_at; [done|done|cbn [bit_idx1]; by rewrite (small_wid lval n)|cbn [bit_idx0]; by rewrite Ei].
    + intros E l E' Hl Hfe. rewrite Hfun in Hfe. injection Hfe as <-. by eexists.
Qed.

(** What [force] and [assign] do to an l-value. *)
Definition hold_lval (type : hold_type) : ivl_lval_s -> bits -> senv -> option senv :=
  match type with HOLD_CASSIGN => cassign_lval swid | HOLD_FORCE => force_lval swid end.

Lemma hold_core type lval n : lval_ok lval n -> ivl_lval_part_off lval = None -> ivl_lval_width lval = ivl_signal_width (ivl_lval_sig lval) ->
  core_ok (hold_lval type) lval (emit (hold_opcode type false) [net_ (ivl_lval_sig lval)]).
Proof using nets_inj.
  intros Ho Hpart Hwid. pose proof (lo_net _ _ Ho) as Hnet. assert (Hpo : forall E, part_offset swid E lval = Some 0) by (intros E; unfold part_offset; by rewrite Hpart).
  apply (core_net _ _ _ _ (Code (match type with HOLD_CASSIGN => OP_CASSIGN_VEC4 | HOLD_FORCE => OP_FORCE_VEC4 end) 0 0 0 0 n)); [destruct type; assembles Hnet|done|].
  intros E l E' fl ws ls Hl Hf Hok. rewrite Hwid, <- (lo_width _ _ Ho) in Hl. destruct type; cbn [hold_lval] in Hf.
  - unfold cassign_lval in Hf. rewrite Hpo in Hf. injection Hf as <-. eexists. split; [reflexivity|]. by apply ne_cassign.
  - unfold force_lval in Hf. rewrite Hpo in Hf. destruct (force_ok _ _ _ _); [|done]. injection Hf as <-. eexists. split; [reflexivity|]. by apply ne_force.
Qed.

Lemma hold_at_core type lval n e : lval_ok lval n -> ivl_lval_part_off lval = Some e -> stmt_wf e = true -> off_ok e = true -> fits e ->
  core_ok (hold_lval type) lval (ix ← allocate_word; draw_eval_expr_into_integer draw e ix;;
    emit (hold_opcode type true) [net_ (ivl_lval_sig lval); num_ ix];; clr_word ix).
Proof using nets_inj design.
  intros Ho Hpart Hw Hoff Hf. pose proof (lo_net _ _ Ho) as Hnet. assert (Hpo : forall E, part_offset swid E lval = offset_of swid E e) by (intros E; unfold part_offset; by rewrite Hpart).
  apply (core_offset _ _ e (hold_opcode type true) (fun ix => [net_ (ivl_lval_sig lval); num_ ix])
    (fun ix => Code (match type with HOLD_CASSIGN => OP_CASSIGN_VEC4_OFF | HOLD_FORCE => OP_FORCE_VEC4_OFF end) 0 (u32 (Z.of_nat ix)) 0 0 n)); [done..| |].
  - intros ix Hix. split; [destruct type; assembles Hnet|]. split; [done|]. intros E l E' fl ws ls Hl Hfe Ho' Hok. destruct type; cbn [hold_lval] in Hfe.
    + unfold cassign_lval in Hfe. rewrite Hpo in Hfe. destruct (match offset_of swid E e with Some o => 0 <=? o | None => true end) eqn:Hpos; [|done]. injection Hfe as <-.
      eexists. split; [reflexivity|]. apply ne_cassign_at; [done|cbn [bit_idx0]; by rewrite (proj1 (small_index ix Hix))|]. intros o Eo. rewrite Eo in Hpos. by apply Z.leb_le.
    + unfold force_lval in Hfe. rewrite Hpo in Hfe. destruct (force_ok swid lval l (offset_of swid E e)) eqn:Hfo; [|done]. injection Hfe as <-. eexists. split; [reflexivity|].
      by apply force_at_effect.
  - intros E l E' Hl Hfe. destruct type; cbn [hold_lval] in Hfe; unfold cassign_lval, force_lval in Hfe; case_match; try done; injection Hfe as <-; by eexists.
Qed.

(** ** All the l-values *)

Lemma core_assert f lval (b : bool) (m : M unit) : b = true -> core_ok f lval m -> core_ok f lval (assert_ b;; m).
Proof using. intros Hb Hm L P st Ha. apply swp_bind. apply swp_assert; [done|]. by apply Hm. Qed.

Definition lval_fits lval : Prop := Forall fits (lval_exprs lval).

Lemma store_slice_core lval n : lval_ok lval n -> lval_wf lval = true -> lval_fits lval ->
  core_ok (assign_lval swid) lval
    match ivl_lval_part_off lval with
    | Some part_off_ex =>
      offset_index ← allocate_word;
      draw_eval_expr_into_integer draw part_off_ex offset_index;;
      (if decide (ivl_signal_type (ivl_lval_sig lval) = IVL_SIT_UWIRE) then emit "%force/vec4/off" [net_ (ivl_lval_sig lval); num_ offset_index]
       else emit "%store/vec4" [net_ (ivl_lval_sig lval); num_ offset_index; num_ (ivl_lval_width lval)]);;
      clr_word offset_index
    | None => assert_ (ivl_lval_width lval =? ivl_signal_width (ivl_lval_sig lval))%nat;;
      emit "%store/vec4" [net_ (ivl_lval_sig lval); num_ 0; num_ (ivl_lval_width lval)]
    end.
Proof using nets_inj design.
  intros Ho Hw Hf. destruct (lval_wf_ok lval Hw) as [_ Hpart]. unfold lval_fits, lval_exprs in Hf. destruct (ivl_lval_part_off lval) as [e|] eqn:Ep.
  - destruct Hpart as [Hwe Hoff]. apply list.Forall_cons in Hf as [Hf _]. by apply (store_at_core lval n e).
  - apply core_assert; [by apply Nat.eqb_eq|]. by apply (store_core lval n).
Qed.

Lemma hold_slice_core type lval n : lval_ok lval n -> lval_wf lval = true -> lval_fits lval ->
  core_ok (hold_lval type) lval
    match ivl_lval_part_off lval with
    | Some part_off_ex =>
      off_index ← allocate_word;
      draw_eval_expr_into_integer draw part_off_ex off_index;;
      emit (hold_opcode type true) [net_ (ivl_lval_sig lval); num_ off_index];;
      clr_word off_index
    | None => assert_ (ivl_lval_width lval =? ivl_signal_width (ivl_lval_sig lval))%nat;;
      emit (hold_opcode type false) [net_ (ivl_lval_sig lval)]
    end.
Proof using nets_inj design.
  intros Ho Hw Hf. destruct (lval_wf_ok lval Hw) as [_ Hpart]. unfold lval_fits, lval_exprs in Hf. destruct (ivl_lval_part_off lval) as [e|] eqn:Ep.
  - destruct Hpart as [Hwe Hoff]. apply list.Forall_cons in Hf as [Hf _]. by apply (hold_at_core type lval n e).
  - apply core_assert; [by apply Nat.eqb_eq|]. by apply (hold_core type lval n).
Qed.

(** The l-values one after the other. *)
Definition ends_list {X} (l : list X) : bool := match l with [] => true | _ => false end.

Definition slice_ok (f : ivl_lval_s -> bits -> senv -> option senv) (slice : ivl_lval_s -> bool -> M unit) lval : Prop :=
  (0 < ivl_lval_width lval)%nat /\
  forall last L P st, alloc st W U -> swp L (slice lval last) P st (fun _ P' st' out => P' = P /\ alloc st' W U /\
    forall lab code p, placed nets lab code p out -> lval_code last f lval lab code p (p + ninstr out)%nat).

Lemma over_lvals_piece f slice (loop : list ivl_lval_s -> M unit) lvals : loop [] = mret tt ->
  (forall lval lvals L P st Phi, swp L (slice lval (ends_list lvals);; loop lvals) P st Phi -> swp L (loop (lval :: lvals)) P st Phi) ->
  lvals <> [] -> Forall (slice_ok f slice) lvals -> forall L P st, alloc st W U ->
  swp L (loop lvals) P st (fun _ P' st' out => P' = P /\ alloc st' W U /\
    forall lab code p E l E', placed nets lab code p out -> length l = ivl_stmt_lwidth lvals -> over_lvals f lvals l E = Some E' ->
      transit code W U p E [l] (p + ninstr out)%nat E' []).
Proof using.
  intros Hnil Hcons Hne Hs. induction Hs as [|lval lvals [Hpos Hslice] Hrest IH]; [done|]. clear Hne. intros L P st Ha. apply Hcons, swp_bind.
  eapply swp_mono; [|by apply Hslice]. intros _ P1 st1 out1 (-> & Ha1 & Hrun1). destruct lvals as [|lval2 lvals].
  - rewrite Hnil. apply swp_ret. split; [done|]. split; [done|]. intros lab code p E l E' Hpl Hl Hf. rewrite app_nil_r in *.
    cbn [over_lvals] in Hf. destruct (f lval (take (ivl_lval_width lval) l) E) as [E1|] eqn:Ef; [|done]. injection Hf as <-.
    apply (Hrun1 lab code p Hpl E l E1 Ef). cbn in Hl |- *. lia.
  - eapply swp_mono; [|by apply IH]. intros _ P2 st2 out2 (-> & Ha2 & Hrun2). split; [done|]. split; [done|].
    intros lab code p E l E' [Hp1 Hp2]%placed_app Hl Hf. rewrite ninstr_app, Nat.add_assoc. cbn [over_lvals] in Hf.
    destruct (f lval (take (ivl_lval_width lval) l) E) as [E1|] eqn:Ef; [|done].
    assert (Hw : ivl_stmt_lwidth (lval :: lval2 :: lvals) = (ivl_lval_width lval + ivl_stmt_lwidth (lval2 :: lvals))%nat) by done.
    eapply transit_trans; [apply (Hrun1 lab code p Hp1 E l E1 Ef)|apply (Hrun2 lab code _ E1 _ E' Hp2); [rewrite length_drop; lia|done]].
    apply list.Forall_cons in Hrest as [[Hpos2 _] _]. cbn [ends_list enough]. rewrite Hl, Hw. cbn. lia.
Qed.

Definition lvals_wf lvals : bool := negb (ends_list lvals) && forallb lval_wf lvals.
Definition lvals_fit lvals : Prop := Forall lval_fits lvals.

Lemma slices_ok f slice lvals : (forall lval n, lval_ok lval n -> lval_wf lval = true -> lval_fits lval -> slice_ok f slice lval) ->
  lvals_wf lvals = true -> lvals_fit lvals -> lvals <> [] /\ Forall (slice_ok f slice) lvals.
Proof using.
  intros Hs [Hne Hall]%andb_prop Hf. split; [by destruct lvals|]. apply list.Forall_forall. intros lval Hin.
  assert (Hw : lval_wf lval = true) by (eapply forallb_forall in Hall; [exact Hall|by apply list_elem_of_In]).
  destruct (proj1 (lval_wf_ok lval Hw)) as [n Ho]. apply (Hs lval n); [done|done|]. by eapply (proj1 (list.Forall_forall _ _) Hf).
Qed.

Lemma store_lvals_piece lvals L P st : lvals_wf lvals = true -> lvals_fit lvals -> alloc st W U ->
  swp L (store_vec4_to_lval draw lvals) P st (fun _ P' st' out => P' = P /\ alloc st' W U /\
    forall lab code p E l E', placed nets lab code p out -> length l = ivl_stmt_lwidth lvals -> over_lvals (assign_lval swid) lvals l E = Some E' ->
      transit code W U p E [l] (p + ninstr out)%nat E' []).
Proof using nets_inj design.
  intros Hw Hf Ha. destruct (slices_ok (assign_lval swid) (store_vec4_slice draw) lvals) as [Hne Hs]; [|done..|].
  - intros lval n Ho Hwl Hfl. split; [apply Ho|]. intros last L' P' st' Ha'. apply (slice_piece _ last lval _ n); [done|by apply (store_slice_core lval n)|done].
  - by apply (over_lvals_piece (assign_lval swid) (store_vec4_slice draw) (store_vec4_to_lval draw)).
Qed.

Lemma hold_lvals_piece type lvals L P st : lvals_wf lvals = true -> lvals_fit lvals -> alloc st W U ->
  swp L (force_vector_to_lval draw type lvals) P st (fun _ P' st' out => P' = P /\ alloc st' W U /\
    forall lab code p E l E', placed nets lab code p out -> length l = ivl_stmt_lwidth lvals -> over_lvals (hold_lval type) lvals l E = Some E' ->
      transit code W U p E [l] (p + ninstr out)%nat E' []).
Proof using nets_inj design.
  intros Hw Hf Ha.
  set (slice := fun lval (last : bool) => (if last then mret tt else emit "%split/vec4" [num_ (ivl_lval_width lval)]);;
    match ivl_lval_part_off lval with
    | Some part_off_ex =>
      off_index ← allocate_word;
      draw_eval_expr_into_integer draw part_off_ex off_index;;
      emit (hold_opcode type true) [net_ (ivl_lval_sig lval); num_ off_index];;
      clr_word off_index
    | None => assert_ (ivl_lval_width lval =? ivl_signal_width (ivl_lval_sig lval))%nat;;
      emit (hold_opcode type false) [net_ (ivl_lval_sig lval)]
    end : M unit).
  destruct (slices_ok (hold_lval type) slice lvals) as [Hne Hs]; [|done..|].
  - intros lval n Ho Hwl Hfl. split; [apply Ho|]. intros last L' P' st' Ha'. apply (slice_piece _ last lval _ n); [done|by apply (hold_slice_core type lval n)|done].
  - apply (over_lvals_piece (hold_lval type) slice (force_vector_to_lval draw type)); [done| |done..].
    intros lval lvals' L' P' st' Phi Hs'. apply swp_assoc in Hs'. cbn [force_vector_to_lval]. destruct lvals'; exact Hs'.
Qed.

(** ** Parts that are released *)

(** The offset is a number that does as an operand. *)
Definition part_wf lval : bool :=
  lval_wf lval &&
  match part_off_number lval with
  | None => false
  | Some None => true
  | Some (Some v) => v + Z.of_nat (ivl_lval_width lval) <? 2 ^ 32
  end.

(** The code does not go on after an unknown offset: it is that of the last part. *)
Fixpoint parts_wf lvals : bool :=
  match lvals with
  | [] => true
  | lval :: rest => part_wf lval && parts_wf rest && match rest, part_off_number lval with _ :: _, Some None => false | _, _ => true end
  end.

Lemma part_offset_number lval E : lval_wf lval = true -> match part_off_number lval with
  | None => True | Some r => part_offset swid E lval = r /\ match r with Some v => 0 <= v | None => True end end.
Proof using.
  intros Hw. destruct (lval_wf_ok lval Hw) as [_ Hpart]. unfold part_off_number, part_offset. destruct (ivl_lval_part_off lval) as [e|]; [|done].
  destruct Hpart as [Hwe [Hwid%Nat.leb_le Hnum]%andb_prop]. destruct e as [a ds| | | | | | |]; try done. cbn [immediate_digits].
  apply andb_prop in Hnum as [Hi Hs%negb_true_iff]. pose proof (stmt_wf_env nets swid E _ Hwe) as Hg. apply wf_parts in Hg as [Hg _].
  cbn -[Z.pow take] in Hg. apply andb_prop in Hg as [_ [Hle Hdig]%andb_prop]. apply Nat.leb_le in Hle.
  unfold ivl_expr_width, ivl_expr_signed in *. cbn [attr_of] in *. set (bs := take (width_ a) ds) in *.
  assert (Hl : (length bs <= 64)%nat) by (unfold bs; rewrite length_take; destruct (signed_ a); lia).
  destruct (number_offset (signed_ a) bs Hdig Hl Hi Hs) as [_ Hv].
  destruct (number_is_immediate (signed_ a) bs 64 false); [|done]. cbn [mbind option_bind].
  unfold offset_of, value_of. cbn [eval]. change (number_value a ds) with (digits bs). unfold ivl_expr_signed. cbn [attr_of].
  destruct (number_is_unknown bs); unfold offset_value in Hv; [|destruct Hv as (v & -> & Hr & Hv); cbn [mbind option_bind]];
    destruct (has_unknown (digits bs)); try done; try (by destruct Hv).
  destruct Hv as [_ <-]. split; [|lia]. f_equal. rewrite <- (Z.mod_small v (2 ^ 64)) at 1 by lia. apply s64_mod. lia.
Qed.

(** What an instruction does to the part of an l-value. *)
Definition part_op (opcode : ivl_signal_s -> string) (f : ivl_lval_s -> nat -> senv -> option senv) : Prop :=
  forall lval n v, lval_ok lval n -> 0 <= v -> v + Z.of_nat (ivl_lval_width lval) < 2 ^ 32 ->
  exists cp, (forall lab, compile_code lab nets (opcode (ivl_lval_sig lval)) [net_ (ivl_lval_sig lval); L_NUMB (u32 v); num_ (ivl_lval_width lval)] = Some cp) /\
    net cp = n /\ forall E E' fl ws ls, f lval (Z.to_nat v) E = Some E' ->
      exists A', E' = set_signal E (lval_id lval) A' /\ net_effect cp (swid (lval_id lval)) (Abs fl ws ls) (E (lval_id lval)) (Abs fl ws ls) A'.

Lemma parts_piece opcode f lvals : part_op opcode f -> parts_wf lvals = true -> forall L P st, alloc st W U ->
  swp L (show_parts opcode lvals) P st (fun rc P' st' out => rc = 0%nat /\ P' = P /\ alloc st' W U /\
    forall lab code p E E', placed nets lab code p out -> over_parts swid f lvals E = Some E' ->
      transit code W U p E [] (p + ninstr out)%nat E' []).
Proof using nets_inj design.
  intros Hop. induction lvals as [|lval lvals IH]; intros Hw L P st Ha.
  - apply swp_ret. split; [done|]. split; [done|]. split; [done|]. intros lab code p E E' _ Hf. injection Hf as <-. cbn. rewrite Nat.add_0_r. apply transit_refl.
  - cbn [parts_wf] in Hw. apply andb_prop in Hw as [[[Hl Hn]%andb_prop Hw]%andb_prop Hlast]. destruct (proj1 (lval_wf_ok lval Hl)) as [n Ho].
    pose proof (fun E => part_offset_number lval E Hl) as Hpo. cbn [show_parts]. apply swp_bind. destruct (part_off_number lval) as [[v|]|]; [..|done].
    + eapply swp_lift; [reflexivity|]. apply Z.ltb_lt in Hn. destruct (Hop lval n v Ho) as (cp & Hc & Hcn & He); [destruct design as (_ & E0 & _); apply (Hpo E0)|done|].
      apply swp_bind. eapply swp_mono; [|by apply (emit_piece _ _ cp)]. intros _ P1 st1 out1 (-> & -> & Hn1 & Hcode).
      eapply swp_mono; [|by apply IH]. intros rc P2 st2 out2 (-> & -> & Ha2 & Hrun). do 3 (split; [done|]).
      cbn [app]. intros lab code p E E' Hpl Hf. apply placed_app in Hpl as [Hp1 Hp2]. rewrite Hn1, Nat.add_1_r in Hp2.
      cbn [over_parts] in Hf. rewrite (proj1 (Hpo E)) in Hf. destruct (f lval (Z.to_nat v) E) as [E1|] eqn:Ef; [|done]. cbn [mbind option_bind] in Hf.
      rewrite ninstr_app, Hn1. replace (p + (1 + ninstr out2))%nat with (S p + ninstr out2)%nat by lia.
      eapply transit_trans; [|by eapply Hrun]. destruct (He E E1 [] [] [] Ef) as (A' & -> & _).
      apply (transit_net nets swid view nets_inj _ _ _ _ _ [] cp _ []); [by eapply Hcode|rewrite Hcn; apply Ho|].
      intros fl ws ls Hok. destruct (He E _ fl ws ls Ef) as (A2 & Heq & Hne). apply (f_equal (fun g => g (lval_id lval))) in Heq. rewrite !set_signal_eq in Heq. by subst.
    + eapply swp_lift; [reflexivity|]. apply swp_ret. split; [done|]. split; [done|]. split; [done|]. intros lab code p E E' _ Hf.
      destruct lvals; [|done]. cbn [over_parts] in Hf. rewrite (proj1 (Hpo E)) in Hf. injection Hf as <-. cbn. rewrite Nat.add_0_r. apply transit_refl.
Qed.

Lemma part_operands v (wid : nat) op n : 0 <= v -> (0 < wid)%nat -> v + Z.of_nat wid < 2 ^ 32 ->
  let cp := Code op 0 (u32 (u32 v)) (u32 (Z.of_nat wid)) 0 n in
  part_fits cp /\ Z.to_nat (bit_idx0 cp) = Z.to_nat v /\ Z.to_nat (bit_idx1 cp) = wid.
Proof using. intros H0 Hw H cp. unfold cp, part_fits, u32. cbn [bit_idx0 bit_idx1]. rewrite !Z.mod_small by (rewrite ?Z.mod_small by lia; lia). lia. Qed.

Lemma deassign_op : part_op (fun _ => "%deassign"%string) (deassign_lval swid).
Proof using.
  intros lval n v Ho H0 Hlt. pose proof (lo_net _ _ Ho) as Hnet. destruct (part_operands v (ivl_lval_width lval) OP_DEASSIGN n) as (Hf & E0 & E1); [done|apply Ho|done|].
  eexists. split; [assembles Hnet|]. split; [done|]. intros E E' fl ws ls He. unfold deassign_lval in He.
  destruct (_ || _) eqn:Hc; [|done]. injection He as <-. eexists. split; [reflexivity|].
  pose proof (ne_deassign (Code OP_DEASSIGN 0 (u32 (u32 v)) (u32 (Z.of_nat (ivl_lval_width lval))) 0 n) (swid (lval_id lval)) (E (lval_id lval)) (Abs fl ws ls) eq_refl Hf) as Hne. rewrite E0, E1 in Hne. apply Hne.
  apply orb_true_iff in Hc as [[[?%Nat.eqb_eq ?%Nat.leb_le]%andb_prop|?%Nat.leb_le]%orb_true_iff|Hs]; [by left|right; by left|right; right].
  unfold some_assigned in Hs. apply existsb_exists in Hs as (i & Hi%in_seq & Hb). exists i. split; [lia|done].
Qed.

Lemma release_op : part_op (fun lsig => if decide (ivl_signal_type lsig = IVL_SIT_REG) then "%release/reg" else "%release/net")%string (release_lval swid).
Proof using.
  intros lval n v Ho H0 Hlt. pose proof (lo_net _ _ Ho) as Hnet. set (net_flag := negb (bool_decide (ivl_signal_type (ivl_lval_sig lval) = IVL_SIT_REG))).
  destruct (part_operands v (ivl_lval_width lval) (if net_flag then OP_RELEASE_NET else OP_RELEASE_REG) n) as (Hf & E0 & E1); [done|apply Ho|done|].
  eexists. split; [|split].
  - instantiate (1 := Code (if net_flag then OP_RELEASE_NET else OP_RELEASE_REG) 0 (u32 (u32 v)) (u32 (Z.of_nat (ivl_lval_width lval))) 0 n).
    unfold net_flag. destruct (decide (ivl_signal_type (ivl_lval_sig lval) = IVL_SIT_REG)) as [Hr|Hr];
      [rewrite bool_decide_true by done|rewrite bool_decide_false by done]; assembles Hnet.
  - done.
  - intros E E' fl ws ls He. unfold release_lval in He. fold net_flag in He. destruct (_ || _) eqn:Hc; [|done]. injection He as <-. eexists. split; [reflexivity|].
    pose proof (ne_release (Code (if net_flag then OP_RELEASE_NET else OP_RELEASE_REG) 0 (u32 (u32 v)) (u32 (Z.of_nat (ivl_lval_width lval))) 0 n) (swid (lval_id lval)) net_flag (E (lval_id lval)) (Abs fl ws ls) eq_refl Hf) as Hne. rewrite E0, E1 in Hne. apply Hne.
    apply orb_true_iff in Hc as [Hc|Hc]; [by left|right]. intros i Hi Hin Ha. unfold no_hidden in Hc. rewrite forallb_forall in Hc.
    specialize (Hc i (proj2 (in_seq _ _ _) Hin)). rewrite Ha in Hc. cbn [negb orb] in Hc. by apply bool_decide_eq_true in Hc.
Qed.
End Lval.
