(* ===== verification/StmtLoop.v ===== *)
(** * StmtLoop: the code of control statements, as stretches of code

    The code of a statement takes the process to the end of the statement, or to the
    labels of [break] and [continue] ([runs]).  From the runs of the parts follow
    those of blocks, conditions, loops and cases. *)

From Stdlib Require Import String Ascii.
From stdpp Require Import gmap relations.
From S2P Require Import Prelude FourState Vector4 Vector4Ops Bits Thread ThreadSpec ThreadCmp ThreadShift Machine MachineRun.
From S2P Require Import Codegen EmitWp CodegenAlloc EmitOps ExprSem CodegenNumber CodegenSpec CodegenCond.
From S2P Require Import Signal SignalSpec Process ProcessSpec Stmt StmtSem.
Import Bit4.

Open Scope ivl_scope.

Section Loop.
Variables (nets : symbol -> option nat) (swid : nat -> nat) (view : nat -> nat -> vvp_bit4_t).
Variables (W U : gset nat).
Implicit Types (E : senv) (e : ivl_expr_t) (code : list vvp_code_t) (l : bits) (s : ivl_statement_t).

Local Abbreviation process_at := (process_at nets swid view).
Local Abbreviation value_of := (value_of swid).
Local Abbreviation holds := (holds swid).
Local Abbreviation exec := (exec swid).

Variable code : list vvp_code_t.

Local Abbreviation transit := (transit nets swid view code W U).

(** ** Code that leaves flags for the jumps after it *)

Definition sets (p : nat) E (pre : list bits) (q : nat) (post : list bits) (R : list vvp_bit4_t -> Prop) : Prop :=
  forall P fl ws ls, process_at P p E (Abs fl ws (pre ++ ls)) ->
  exists P' fl' ws', rtc (pstep code) P P' /\ process_at P' q E (Abs fl' ws' (post ++ ls)) /\ keeps W U fl ws fl' ws' /\ R fl'.

Lemma sets_transit p E pre q post R : sets p E pre q post R -> transit p E pre q E post.
Proof. intros Hs P fl ws ls HP. destruct (Hs P fl ws ls HP) as (P' & fl' & ws' & S & HP' & K & _). by exists P', fl', ws'. Qed.

(** An instruction. *)
Lemma sets_step p E pre cp post (g : list vvp_bit4_t -> list vvp_bit4_t) (R : list vvp_bit4_t -> Prop) : code !! p = Some cp -> compares g ->
  (forall ns fl ws ls, @effect (world_of false ns) cp (S p) (Abs fl ws (pre ++ ls)) (S p) (Abs (g fl) ws (post ++ ls))) ->
  (forall fl, length fl = FLAGS_COUNT -> R (g fl)) -> sets p E pre (S p) post R.
Proof using.
  intros Hc Hg He HR P fl ws ls HP. pose proof (ok_flags _ (at_ok _ _ _ _ _ _ _ HP)) as Hf.
  destruct (thread_moves nets swid view code P p E _ (S p) _ HP (reaches_step _ _ _ _ _ _ Hc (fun _ => He (nets_ P) fl ws ls))) as (P' & Hs & HP').
  exists P', (g fl), ws. split; [done|]. split; [done|]. split; [by apply keeps_compare|by apply HR].
Qed.

(** A conditional jump after it. *)
Lemma sets_jump mnem f lab p E pre q post R dest flag (t : bool) sy : sets p E pre q post R -> jump_test mnem f ->
  (forall c, compile_code lab nets mnem [L_SYMB sy; num_ flag] = Some c -> code !! q = Some c) -> lab sy = Some dest ->
  (flag < FLAGS_COUNT)%nat -> (forall fl, R fl -> exists b, fl !! flag = Some b /\ f b = t) ->
  sets p E pre (if t then dest else S q) post R.
Proof using.
  intros Hs Hj Hc Hl Hf HR P fl ws ls HP. destruct (Hs P fl ws ls HP) as (P1 & fl1 & ws1 & S1 & HP1 & K & Hfl). destruct (HR fl1 Hfl) as (b & Hb & <-).
  destruct (thread_moves nets swid view code P1 q E _ _ _ HP1 (@jump_step (world_of false (nets_ P1)) nets eq_refl mnem f lab code q sy dest flag
    (Abs fl1 ws1 (post ++ ls)) b Hj Hc Hl Hf Hb)) as (P2 & S2 & HP2).
  exists P2, fl1, ws1. split; [by eapply rtc_trans|]. done.
Qed.

(** A step that leaves the flags and words. *)
Lemma transit_plain p E pre cp post : code !! p = Some cp ->
  (forall ns fl ws ls, @effect (world_of false ns) cp (S p) (Abs fl ws (pre ++ ls)) (S p) (Abs fl ws (post ++ ls))) -> transit p E pre (S p) E post.
Proof using.
  intros Hc He. apply (transit_step nets swid view code W U p E pre cp (S p) post (fun fl => fl) (fun ws => ws)); [done|].
  intros P fl ws ls HP. split; [apply He|apply keeps_refl].
Qed.

(** What [placed] says of a line. *)
Definition at_line (lab : symbol -> option nat) (p : nat) mnem opa : Prop := forall c, compile_code lab nets mnem opa = Some c -> code !! p = Some c.

Lemma pop_moves lab p E l : at_line lab p "%pop/vec4" [num_ 1] -> transit p E [l] (S p) E [].
Proof using.
  intros Hc. apply (transit_plain p E [l] (Code OP_POP_VEC4 (u64 1) 0 0 0 0) []); [by apply Hc|]. intros ns fl ws ls. by apply eff_pop.
Qed.

Lemma dup_moves lab p E l : at_line lab p "%dup/vec4" [] -> transit p E [l] (S p) E [l; l].
Proof using.
  intros Hc. apply (transit_plain p E [l] (Code OP_DUP_VEC4 0 0 0 0 0) [l; l]); [by apply Hc|]. intros ns fl ws ls. by apply eff_dup.
Qed.

(** An immediate operand of the width of the value. *)
Definition imm_code (op : vm_op) (v : Z) (w : nat) : vvp_code_t := Code op (u64 (Z.of_nat w)) (u32 v) (u32 0) 0 0.

Lemma imm_code_spec op v l : small (length l) -> (0 < length l)%nat -> 0 <= v < 2 -> let cp := imm_code op v (length l) in
  has_imm cp /\ Z.to_nat (number cp) = length l /\ imm_of cp = bits_of_Z (length l) v.
Proof using.
  intros Hs H0 Hv cp. pose proof (small_number _ Hs) as En. unfold has_imm, imm_of, cp, imm_code. cbn [bit_idx0 bit_idx1 number]. rewrite En.
  unfold u32. rewrite !Z.mod_small by lia. rewrite imm_number. split; [|done]. unfold is_word. lia.
Qed.

(** ** Statements *)

Definition at_end (q b c : nat) (o : ending) : nat := match o with Normal => q | Break => b | Continue => c end.

Definition runs_as (run : run_t) (p q b c : nat) : Prop :=
  forall E E' o, run E = Some (E', o) -> transit p E [] (at_end q b c o) E' [].

(** The code of the statement is from [p] to [q]; [b] and [c] are where [break] and
    [continue] go. *)
Definition runs s (p q b c : nat) : Prop := forall n, runs_as (exec n s) p q b c.

Definition runs_opt (os : option ivl_statement_t) (p q b c : nat) : Prop := match os with Some s => runs s p q b c | None => p = q end.

Lemma runs_exec_opt n os p q b c : runs_opt os p q b c -> runs_as (exec_opt (exec n) os) p q b c.
Proof. destruct os as [s|]; [intros Hr; apply Hr|]. intros Hr; cbn in Hr; subst q. intros E E' o He. injection He as <- <-. apply transit_refl. Qed.

(** A statement that ends normally, if at all. *)
Lemma runs_ends (run : senv -> option senv) p q b c : (forall E E', run E = Some E' -> transit p E [] q E' []) -> runs_as (fun E => ends (run E)) p q b c.
Proof. intros Hr E E' o He. unfold ends in He. destruct (run E) as [E1|] eqn:E1'; [|done]. injection He as <- <-. by apply Hr. Qed.

Lemma runs_noop p b c : runs IVL_ST_NOOP p p b c.
Proof. intros [|n] E E' o He; [done|]. injection He as <- <-. apply transit_refl. Qed.

Lemma runs_break p q b c : (forall E, transit p E [] b E []) -> runs IVL_ST_BREAK p q b c.
Proof. intros Hj [|n] E E' o He; [done|]. injection He as <- <-. apply Hj. Qed.

Lemma runs_continue p q b c : (forall E, transit p E [] c E []) -> runs IVL_ST_CONTINUE p q b c.
Proof. intros Hj [|n] E E' o He; [done|]. injection He as <- <-. apply Hj. Qed.

Lemma runs_block_nil p b c : runs (IVL_ST_BLOCK []) p p b c.
Proof. intros [|n] E E' o He; [done|]. injection He as <- <-. apply transit_refl. Qed.

Lemma runs_block_cons s stmts p q r b c : runs s p q b c -> runs (IVL_ST_BLOCK stmts) q r b c -> runs (IVL_ST_BLOCK (s :: stmts)) p r b c.
Proof.
  intros Hs Hr [|n] E E' o He; [done|]. cbn [StmtSem.exec exec_block] in He. destruct (exec n s E) as [[E1 o1]|] eqn:E1'; [|done]. cbn [mbind option_bind] in He.
  pose proof (Hs n E E1 o1 E1') as T1. destruct o1; cbn [at_end] in T1.
  - eapply transit_trans; [exact T1|]. by apply (Hr (S n)).
  - by injection He as <- <-.
  - by injection He as <- <-.
Qed.

(** The condition leads to [p1] or [p2], and both ends to [q]. *)
Lemma runs_condit cond t f p p1 p2 q1 q b c : (forall E, transit p E [] (if holds E cond then p1 else p2) E []) ->
  runs_opt t p1 q1 b c -> runs_opt f p2 q b c -> (forall E, transit q1 E [] q E []) -> runs (IVL_ST_CONDIT cond t f) p q b c.
Proof.
  intros Hc Ht Hf Hj [|n] E E' o He; [done|]. cbn [StmtSem.exec] in He. eapply transit_trans; [apply Hc|]. destruct (holds E cond).
  - pose proof (runs_exec_opt n t _ _ _ _ Ht E E' o He) as T. destruct o; cbn [at_end] in *; [by eapply transit_trans|done..].
  - exact (runs_exec_opt n f _ _ _ _ Hf E E' o He).
Qed.

(** ** Loops *)

(** After the body, [again] from where the body and [continue] lead. *)
Lemma runs_after_body (body again : run_t) p q bout cont E E' o qout : runs_as body p q bout cont -> bout = qout ->
  (forall E1 E2 o, again E1 = Some (E2, o) -> o = Normal /\ transit q E1 [] qout E2 [] /\ transit cont E1 [] qout E2 []) ->
  after_body (body E) again = Some (E', o) -> o = Normal /\ transit p E [] qout E' [].
Proof.
  intros Hb -> Ha He. unfold after_body in He. destruct (body E) as [[E1 o1]|] eqn:E1'; [|done]. cbn [mbind option_bind] in He.
  pose proof (Hb E E1 o1 E1') as T1. destruct o1; cbn [at_end] in T1.
  - destruct (Ha E1 E' o He) as (-> & T & _). split; [done|]. by eapply transit_trans.
  - injection He as <- <-. done.
  - destruct (Ha E1 E' o He) as (-> & _ & T). split; [done|]. by eapply transit_trans.
Qed.

(** A loop ends normally. *)
Definition loops s (p q : nat) : Prop := forall n E E' o, exec n s E = Some (E', o) -> o = Normal /\ transit p E [] q E' [].

Lemma loops_runs s p q b c : loops s p q -> runs s p q b c.
Proof. intros Hl n E E' o He. by destruct (Hl n E E' o He) as [-> T]. Qed.

Lemma loops_while cond sub top body q out : (forall E, transit top E [] (if holds E cond then body else out) E []) ->
  runs sub body q out top -> (forall E, transit q E [] top E []) -> loops (IVL_ST_WHILE cond sub) top out.
Proof.
  intros Hc Hb Hj n. induction n as [|n IH]; intros E E' o He; [done|]. cbn [StmtSem.exec] in He. pose proof (Hc E) as T. destruct (holds E cond).
  - destruct (runs_after_body (exec n sub) (exec n (IVL_ST_WHILE cond sub)) body q out top E E' o out (Hb n) eq_refl) as [-> T2]; [|done|].
    + intros E1 E2 o1 H1. destruct (IH E1 E2 o1 H1) as [-> T1]. split; [done|]. split; [by eapply transit_trans|done].
    + split; [done|]. by eapply transit_trans.
  - by injection He as <- <-.
Qed.

Lemma loops_forever sub top q out : runs sub top q out top -> (forall E, transit q E [] top E []) -> loops (IVL_ST_FOREVER sub) top out.
Proof.
  intros Hb Hj n. induction n as [|n IH]; intros E E' o He; [done|]. cbn [StmtSem.exec] in He.
  apply (runs_after_body (exec n sub) (exec n (IVL_ST_FOREVER sub)) top q out top E E' o out (Hb n) eq_refl); [|done].
  intros E1 E2 o1 H1. destruct (IH E1 E2 o1 H1) as [-> T1]. split; [done|]. split; [by eapply transit_trans|done].
Qed.

Lemma loops_do_while cond sub top q out : runs sub top q out q -> (forall E, transit q E [] (if holds E cond then top else out) E []) ->
  loops (IVL_ST_DO_WHILE cond sub) top out.
Proof.
  intros Hb Hc n. induction n as [|n IH]; intros E E' o He; [done|]. cbn [StmtSem.exec] in He.
  apply (runs_after_body (exec n sub) (fun E => if holds E cond then exec n (IVL_ST_DO_WHILE cond sub) E else Some (E, Normal)) top q out q E E' o out (Hb n) eq_refl); [|done].
  intros E1 E2 o1 H1. pose proof (Hc E1) as T. destruct (holds E1 cond).
  - destruct (IH E1 E2 o1 H1) as [-> T1]. split; [done|]. split; by eapply transit_trans.
  - by injection H1 as <- <-.
Qed.

(** The loop of [for], from its condition; the step ends normally. *)
Lemma loops_for cond sub step top body q r out : (forall E, transit top E [] (if match cond with Some cond => holds E cond | None => true end then body else out) E []) ->
  runs sub body q out q -> (forall b c, runs_opt step q r b c) -> (forall n E E' o, exec_opt (exec n) step E = Some (E', o) -> o = Normal) ->
  (forall E, transit r E [] top E []) -> loops (IVL_ST_FORLOOP None cond sub step) top out.
Proof.
  intros Hc Hb Hs Hn Hj n. induction n as [|n IH]; intros E E' o He; [done|]. cbn [StmtSem.exec] in He. pose proof (Hc E) as T.
  destruct (match cond with Some cond => holds E cond | None => true end); [|by injection He as <- <-].
  destruct (runs_after_body (exec n sub) (fun E => '(E, _) ← exec_opt (exec n) step E; exec n (IVL_ST_FORLOOP None cond sub step) E) body q out q E E' o out (Hb n) eq_refl) as [-> T2]; [|done|].
  - intros E1 E2 o1 H1. destruct (exec_opt (exec n) step E1) as [[E3 o3]|] eqn:E3'; [|done]. cbn [mbind option_bind] in H1. pose proof (Hn n E1 E3 o3 E3') as ->.
    pose proof (runs_exec_opt n step q r out q (Hs out q) E1 E3 Normal E3') as T3. destruct (IH E3 E2 o1 H1) as [-> T4].
    assert (transit q E1 [] out E2 []) by (eapply transit_trans; [exact T3|]; by eapply transit_trans). done.
  - split; [done|]. by eapply transit_trans.
Qed.

Lemma loops_for_init init cond sub step p top out : (forall b c, runs init p top b c) -> (forall n E E' o, exec n init E = Some (E', o) -> o = Normal) ->
  loops (IVL_ST_FORLOOP None cond sub step) top out -> loops (IVL_ST_FORLOOP (Some init) cond sub step) p out.
Proof.
  intros Hi Hn Hl n E E' o He. destruct n as [|n]; [done|]. cbn [StmtSem.exec] in He. destruct (exec n init E) as [[E1 o1]|] eqn:E1'; [|done].
  cbn [mbind option_bind] in He. pose proof (Hn n E E1 o1 E1') as ->. destruct (Hl n E1 E' o He) as [-> T]. split; [done|].
  eapply transit_trans; [exact (Hi out out n E E1 Normal E1')|done].
Qed.

(** *** repeat *)

(** The counter is on the stack; [%subi] takes one from it. *)
Definition one_less l : bits := arith2 false Z.sub l (bits_of_Z (length l) 1).

Definition counts (sg : bool) l (n : nat) : Prop := repeat_count sg l = Some n.

Lemma counts_step (sg : bool) l n : (0 < length l)%nat -> counts sg l (S n) -> counts sg (one_less l) n.
Proof using.
  unfold counts, repeat_count, one_less. intros Hl Hc. destruct (has_unknown l) eqn:Hu; [by destruct sg|]. injection Hc as Hc.
  assert (H1 : num false (bits_of_Z (length l) 1) = 1).
  { unfold num. cbn [andb]. rewrite unum_bits_of_Z. apply Z.mod_small. split; [lia|]. change 1 with (2 ^ 0). apply Z.pow_lt_mono_r; lia. }
  unfold arith2, arith. rewrite has_unknown_bits_of_Z, Hu, H1. cbn [orb]. rewrite has_unknown_bits_of_Z. f_equal. change (num false l) with (unum l).
  pose proof (unum_range l) as Hr. destruct (num_cases sg l Hl) as [Hn|(-> & _ & _ & Hn)]; [|lia].
  set (r := bits_of_Z (length l) (unum l - 1)). assert (Er : unum r = unum l - 1) by (unfold r; rewrite unum_bits_of_Z; apply Z.mod_small; lia).
  assert (Lr : length r = length l) by apply length_bits_of_Z.
  destruct (num_cases sg r ltac:(lia)) as [Hm|(-> & Hm & _ & _)]; [lia|]. pose proof (num_high l Hl Hn). rewrite Lr in Hm. lia.
Qed.

(** A repeat enters its body, or leaves it. *)
Definition leaves (sg : bool) l : bool :=
  let z := bits_of_Z (length l) 0 in sg && negb (bool_decide (order_bit sg Z.ltb l z = BIT4_0)) || bool_decide (order_eq sg l z = BIT4_1).

Lemma num_zero sg n : num sg (bits_of_Z n 0) = 0.
Proof using.
  assert (Hz : unum (bits_of_Z n 0) = 0) by (rewrite unum_bits_of_Z; apply Z.mod_0_l; lia).
  unfold num. destruct n as [|n]; [by destruct sg|]. unfold bits_of_Z at 1. rewrite length_bits_of_Z. rewrite bit_at_map by lia.
  rewrite Z.bits_0. cbn [Vector4Conv.bit4_of_bool is_one]. by rewrite andb_false_r.
Qed.

Lemma leaves_spec (sg : bool) l n : (0 < length l)%nat -> counts sg l n -> leaves sg l = (n =? 0)%nat.
Proof using.
  intros Hl Hc. unfold leaves. unfold counts, repeat_count in Hc. set (z := bits_of_Z (length l) 0) in *. assert (Lz : length z = length l) by apply length_bits_of_Z.
  assert (Uz : has_unknown z = false) by apply has_unknown_bits_of_Z. pose proof (num_zero sg (length l)) as Nz. fold z in Nz.
  destruct (has_unknown l) eqn:Hu.
  - destruct sg; [|done]. injection Hc as <-. unfold order_bit. by rewrite Hu.
  - assert (Heq : eq_bit l z = Vector4Conv.bit4_of_bool (num sg l =? 0)).
    { destruct (known_eq_bits l z) as [-> _]; [done|by rewrite Hu, Uz|]. rewrite case_eq_iff by done. destruct (Z.eqb_spec (num sg l) 0) as [E|Hne].
      - rewrite decide_True; [done|]. apply (num_inj sg); [done|by rewrite Hu, Uz|by rewrite Nz].
      - rewrite decide_False; [done|]. intros Hlz. apply Hne. by rewrite Hlz. }
    injection Hc as <-. unfold order_eq, signed_eq, order_bit. rewrite Hu, Uz, Nz. cbn [orb]. rewrite Heq. destruct sg; cbn [andb].
    + destruct (Z.ltb_spec (num true l) 0), (Z.eqb_spec (num true l) 0), (Nat.eqb_spec (Z.to_nat (num true l)) 0); (done || lia).
    + pose proof (unum_range l). change (num false l) with (unum l). destruct (Z.eqb_spec (unum l) 0), (Nat.eqb_spec (Z.to_nat (unum l)) 0); (done || lia).
Qed.

(** The rounds, with the counter below the operands of the body. *)
Lemma rounds sub (sg : bool) w top body q out : (0 < w)%nat -> 
  (forall E l n, length l = w -> counts sg l n -> transit top E [l] (if (n =? 0)%nat then out else body) E [if (n =? 0)%nat then l else one_less l]) ->
  runs sub body q out top -> (forall E, transit q E [] top E []) ->
  forall m n E E' o l, length l = w -> counts sg l n -> exec_repeat (exec m sub) n E = Some (E', o) -> o = Normal /\ exists l', transit top E [l] out E' [l'].
Proof.
  intros Hw Ht Hb Hj m n. induction n as [|n IH]; intros E E' o l Hl Hc He; pose proof (Ht E l _ Hl Hc) as T; cbn [Nat.eqb] in T.
  - injection He as <- <-. split; [done|]. by exists l.
  - cbn [exec_repeat] in He. unfold after_body in He. destruct (exec m sub E) as [[E1 o1]|] eqn:E1'; [|done]. cbn [mbind option_bind] in He.
    pose proof (transit_frame nets swid view code W U body E [] _ E1 [] [one_less l] (Hb m E E1 o1 E1')) as T1. cbn [app] in T1.
    assert (Hl1 : length (one_less l) = w) by (unfold one_less, arith2, arith; rewrite has_unknown_bits_of_Z; destruct (has_unknown l); cbn [orb]; by rewrite ?length_xs, ?length_bits_of_Z).
    assert (Hc1 : counts sg (one_less l) n) by (apply counts_step; [by rewrite Hl|done]).
    pose proof (transit_frame nets swid view code W U q E1 [] _ E1 [] [one_less l] (Hj E1)) as Tj. cbn [app] in Tj.
    destruct o1; cbn [at_end] in T1.
    + destruct (IH E1 E' o _ Hl1 Hc1 He) as (-> & l' & T2). split; [done|]. exists l'. eapply transit_trans; [exact T|]. eapply transit_trans; [exact T1|]. by eapply transit_trans.
    + injection He as <- <-. split; [done|]. exists (one_less l). by eapply transit_trans.
    + destruct (IH E1 E' o _ Hl1 Hc1 He) as (-> & l' & T2). split; [done|]. exists l'. eapply transit_trans; [exact T|]. by eapply transit_trans.
Qed.

Lemma loops_repeat cond sub w p top body q out r : (0 < w)%nat -> (forall E, transit p E [] top E [value_of E cond] /\ length (value_of E cond) = w) ->
  (forall E l n, length l = w -> counts (ivl_expr_signed cond) l n ->
     transit top E [l] (if (n =? 0)%nat then out else body) E [if (n =? 0)%nat then l else one_less l]) ->
  runs sub body q out top -> (forall E, transit q E [] top E []) -> (forall E l, transit out E [l] r E []) -> loops (IVL_ST_REPEAT cond sub) p r.
Proof.
  intros Hw Hv Ht Hb Hj Hpop n E E' o He. destruct n as [|n]; [done|]. cbn [StmtSem.exec] in He. destruct (Hv E) as [T1 Hl].
  destruct (repeat_count (ivl_expr_signed cond) (value_of E cond)) as [k|] eqn:Hk; [|done]. cbn [mbind option_bind] in He.
  destruct (rounds sub _ w top body q out Hw Ht Hb Hj n k E E' o _ Hl Hk He) as (-> & l' & T2). split; [done|].
  eapply transit_trans; [exact T1|]. eapply transit_trans; [exact T2|]. apply Hpop.
Qed.

(** The test of a repeat. *)
Definition test_lines (sg : bool) (w : nat) (sy : symbol) : list asm_line :=
  AsmCode "%dup/vec4" [] :: AsmCode (if sg then "%cmpi/s" else "%cmpi/u") [num_ 0; num_ 0; num_ w] ::
  (if sg then [AsmCode "%jmp/1xz" [L_SYMB sy; num_ 5]] else []) ++ [AsmCode "%jmp/1" [L_SYMB sy; num_ 4]; AsmCode "%subi" [num_ 1; num_ 0; num_ w]].

Lemma subi_moves lab p E l : small (length l) -> (0 < length l)%nat -> at_line lab p "%subi" [num_ 1; num_ 0; num_ (length l)] -> transit p E [l] (S p) E [one_less l].
Proof using.
  intros Hs H0 Hc. apply (transit_plain p E [l] (imm_code OP_SUBI 1 (length l)) [one_less l]); [by apply Hc|]. intros ns fl ws ls.
  destruct (imm_code_spec OP_SUBI 1 l Hs H0 ltac:(lia)) as (Hi & Hn & Ho). unfold one_less. rewrite <- Ho. by apply eff_immediate; [constructor|..].
Qed.

Lemma test_compares (sg : bool) lab p E l : small (length l) -> (0 < length l)%nat -> at_line lab p (if sg then "%cmpi/s" else "%cmpi/u") [num_ 0; num_ 0; num_ (length l)] ->
  let z := bits_of_Z (length l) 0 in
  sets p E [l; l] (S p) [l] (fun fl => fl !! 4%nat = Some (order_eq sg l z) /\ fl !! 5%nat = Some (order_bit sg Z.ltb l z)).
Proof using.
  intros Hs H0 Hc z. apply (sets_step p E [l; l] (imm_code (if sg then OP_CMPIS else OP_CMPIU) 0 (length l)) [l] (order_flags sg l z)).
  - apply Hc. by destruct sg.
  - apply order_flags_compares.
  - intros ns fl ws ls. destruct (imm_code_spec (if sg then OP_CMPIS else OP_CMPIU) 0 l Hs H0 ltac:(lia)) as (Hi & Hn & Ho). unfold z. rewrite <- Ho.
    apply (@eff_comparei (world_of false ns) _ (S p) (order_flags sg)); [by destruct sg; constructor|done|done].
  - intros fl Hf. by apply order_flags_at.
Qed.

Lemma jump_test_1xz : jump_test "%jmp/1xz" (fun b => negb (bool_decide (b = BIT4_0))).
Proof using. eexists. split; [reflexivity|constructor]. Qed.

Lemma test_moves (sg : bool) lab p sy out E l n : small (length l) -> (0 < length l)%nat -> placed nets lab code p (test_lines sg (length l) sy) -> lab sy = Some out ->
  counts sg l n -> transit p E [l] (if (n =? 0)%nat then out else (p + ninstr (test_lines sg (length l) sy))%nat) E [if (n =? 0)%nat then l else one_less l].
Proof.
  intros Hs H0 (Hdup & Hcmp & Hrest) Hl Hc. rewrite <- (leaves_spec sg l n H0 Hc). unfold leaves. set (z := bits_of_Z (length l) 0).
  eapply transit_trans; [exact (dup_moves lab p E l Hdup)|]. pose proof (test_compares sg lab (S p) E l Hs H0 Hcmp) as T. fold z in T. cbv zeta in T.
  set (t4 := bool_decide (order_eq sg l z = BIT4_1)).
  assert (Hend : forall q R, (forall fl, R fl -> fl !! 4%nat = Some (order_eq sg l z)) -> sets (S p) E [l; l] q [l] R ->
      at_line lab q "%jmp/1" [L_SYMB sy; num_ 4] -> at_line lab (S q) "%subi" [num_ 1; num_ 0; num_ (length l)] ->
      transit (S p) E [l; l] (if t4 then out else S (S q)) E [if t4 then l else one_less l]).
  { intros q R HR HT H4 Hsub. pose proof (sets_jump _ _ lab _ E _ q _ R out 4 t4 sy HT jump_test_1 H4 Hl ltac:(unfold FLAGS_COUNT; lia)) as T4.
    specialize (T4 ltac:(intros fl Hfl; eexists; split; [by apply HR|done])). apply sets_transit in T4. destruct t4; [done|].
    eapply transit_trans; [exact T4|]. by apply (subi_moves lab). }
  destruct sg; cbn [app placed test_lines ninstr andb] in *.
  - destruct Hrest as (H5 & H4 & Hsub & _). set (t5 := negb (bool_decide (order_bit true Z.ltb l z = BIT4_0))).
    pose proof (sets_jump _ _ lab _ E _ _ _ _ out 5 t5 sy T jump_test_1xz H5 Hl ltac:(unfold FLAGS_COUNT; lia)) as T5.
    specialize (T5 ltac:(intros fl [_ Hfl]; eexists; split; [exact Hfl|done])). destruct t5; cbn [orb]; [by apply sets_transit in T5|].
    replace (p + 5)%nat with (S (S (S (S (S p))))) by lia. eapply Hend; [|exact T5|done|done]. by intros fl [? _].
  - destruct Hrest as (H4 & Hsub & _). cbn [orb]. replace (p + 4)%nat with (S (S (S (S p)))) by lia. eapply Hend; [|exact T|done|done]. by intros fl [? _].
Qed.

(** The comparison of a case with a branch. *)
Lemma case_test_moves (type : case_type) lab p sy dest E v g : length v = length g -> lab sy = Some dest ->
  placed nets lab code p (match type with
    | IVL_ST_CASE => [AsmCode "%cmp/e" []; AsmCode "%jmp/1" [L_SYMB sy; num_ 6]]
    | IVL_ST_CASEX => [AsmCode "%cmp/x" []; AsmCode "%jmp/1" [L_SYMB sy; num_ 4]]
    | IVL_ST_CASEZ => [AsmCode "%cmp/z" []; AsmCode "%jmp/1" [L_SYMB sy; num_ 4]] end) ->
  transit p E [g; v] (if case_matches type v g then dest else S (S p)) E [].
Proof.
  intros Hlen Hl Hp.
  assert (Hgo : forall op f flag, compare_op op f -> code !! p = Some (Code op 0 0 0 0 0) -> at_line lab (S p) "%jmp/1" [L_SYMB sy; num_ flag] -> (flag < FLAGS_COUNT)%nat ->
    (forall fl, length fl = FLAGS_COUNT -> exists b, f v g fl !! flag = Some b /\ bool_decide (b = BIT4_1) = case_matches type v g) ->
    sets p E [g; v] (if case_matches type v g then dest else S (S p)) [] (fun fl => exists b, fl !! flag = Some b /\ bool_decide (b = BIT4_1) = case_matches type v g)).
  { intros op f flag Ho Hc Hj Hf Hb. eapply sets_jump; [|exact jump_test_1|exact Hj|done|done|done].
    apply (sets_step p E [g; v] (Code op 0 0 0 0 0) [] (f v g)); [done|by eapply compare_op_compares| |done].
    intros ns fl ws ls. by apply eff_compare. }
  assert (Hset : forall (fl : list vvp_bit4_t) i b, length fl = FLAGS_COUNT -> (i < 8)%nat -> <[i := b]> fl !! i = Some b).
  { intros fl i b Hf Hi. apply list_lookup_insert_eq. rewrite Hf. unfold FLAGS_COUNT. lia. }
  destruct type; destruct Hp as (Hcmp & Hj & _).
  - eapply sets_transit, (Hgo OP_CMPE flags_e 6%nat); [constructor|by apply Hcmp|exact Hj|unfold FLAGS_COUNT; lia|]. intros fl Hf. eexists. split; [revert fl Hf; flag_lookup|done].
  - eapply sets_transit, (Hgo OP_CMPX flags_x 4%nat); [constructor|by apply Hcmp|exact Hj|unfold FLAGS_COUNT; lia|]. intros fl Hf. eexists. split; [apply (Hset fl 4%nat _ Hf); lia|done].
  - eapply sets_transit, (Hgo OP_CMPZ flags_z 4%nat); [constructor|by apply Hcmp|exact Hj|unfold FLAGS_COUNT; lia|]. intros fl Hf. eexists. split; [apply (Hset fl 4%nat _ Hf); lia|done].
Qed.

(** *** case *)

(** The number of the branch that matches. *)
Fixpoint case_index (type : case_type) (v : bits) E (items : list (option ivl_expr_t * ivl_statement_t)) : option nat :=
  match items with
  | [] => None
  | (Some g, _) :: items => if case_matches type v (value_of E g) then Some 0%nat else S <$> case_index type v E items
  | (None, _) :: items => S <$> case_index type v E items
  end.

Lemma case_find_index type v E items : case_find swid type v E items = (i ← case_index type v E items; snd <$> items !! i) /\
  forall i, case_index type v E items = Some i -> exists g s, items !! i = Some (Some g, s).
Proof.
  induction items as [|[[g|] s] items [IH1 IH2]]; cbn [case_find case_index]; [done| |].
  - destruct (case_matches _ _ _); [split; [done|]; intros i Hi; injection Hi as <-; by exists g, s|]. rewrite IH1.
    destruct (case_index type v E items) as [i|]; cbn; [|done]. split; [done|]. intros j Hj. injection Hj as <-. by apply IH2.
  - rewrite IH1. destruct (case_index type v E items) as [i|]; cbn; [|done]. split; [done|]. intros j Hj. injection Hj as <-. by apply IH2.
Qed.

(** The default has no expression. *)
Lemma default_case_spec items : items !! default_case items = None \/ exists s, items !! default_case items = Some (None, s).
Proof using.
  unfold default_case. set (go := fix go idx dflt (items : list (option ivl_expr_t * ivl_statement_t)) : nat := _).
  assert (H : forall its idx dflt, go idx dflt its = dflt \/ exists i s, its !! i = Some (None, s) /\ go idx dflt its = (idx + i)%nat).
  { induction its as [|[ex s] its IH]; intros idx dflt; [by left|]. cbn [go]. destruct (IH (S idx) (match ex with None => idx | Some _ => dflt end)) as [->|(i & s' & Hi & ->)].
    - destruct ex; [by left|]. right. exists 0%nat, s. split; [done|lia].
    - right. exists (S i), s'. split; [done|lia]. }
  destruct (H items 0%nat (length items)) as [->|(i & s & Hi & ->)]; [left; by apply lookup_ge_None|right]. by exists s.
Qed.

(** The code of a branch, and what follows it. *)
Definition branch_runs s p out : Prop := exists q, (forall b c, runs s p q b c) /\ forall E, transit q E [] out E [].
Definition normal s : Prop := forall n E E' o, exec n s E = Some (E', o) -> o = Normal.

Lemma branch_framed s p out v n E E' o : branch_runs s p out -> normal s -> exec n s E = Some (E', o) -> o = Normal /\ transit p E [v] out E' [v].
Proof.
  intros (q & Hr & Hj) Hn He. pose proof (Hn n E E' o He) as ->. split; [done|].
  apply (transit_frame nets swid view _ _ _ _ _ [] _ _ []). eapply transit_trans; [exact (Hr out out n E E' Normal He)|apply Hj].
Qed.

Lemma loops_case type cond items w p top dflt out r (dest : nat -> nat) : (forall E, transit p E [] top E [value_of E cond] /\ length (value_of E cond) = w) ->
  (forall E v, length v = w -> transit top E [v] (match case_index type v E items with Some i => dest i | None => dflt end) E [v]) ->
  (forall i g s, items !! i = Some (Some g, s) -> branch_runs s (dest i) out /\ normal s) ->
  (match items !! default_case items with Some (_, s) => branch_runs s dflt out /\ normal s | None => forall E, transit dflt E [] out E [] end) ->
  (forall E v, transit out E [v] r E []) -> loops (IVL_ST_CASES type cond items) p r.
Proof.
  intros Hv Ht Hb Hd Hpop n E E' o He. destruct n as [|n]; [done|]. cbn [StmtSem.exec] in He. unfold case_select in He. destruct (Hv E) as [T1 Hl]. set (v := value_of E cond) in *.
  destruct (case_find_index type v E items) as [Ef Hi]. rewrite Ef in He. pose proof (Ht E v Hl) as T2.
  assert (Hgo : o = Normal /\ transit (match case_index type v E items with Some i => dest i | None => dflt end) E [v] out E' [v]).
  { destruct (case_index type v E items) as [i|].
    - destruct (Hi i eq_refl) as (g & s & Hs). cbn [mbind option_bind] in He. rewrite Hs in He. destruct (Hb i g s Hs). by apply (branch_framed s _ out v n).
    - cbn [mbind option_bind] in He. destruct (items !! default_case items) as [[ex s]|]; [destruct Hd; by apply (branch_framed s _ out v n)|].
      injection He as <- <-. split; [done|]. apply (transit_frame nets swid view _ _ _ _ _ [] _ _ [] [v]), Hd. }
  destruct Hgo as [-> T3]. split; [done|]. eapply transit_trans; [exact T1|]. eapply transit_trans; [exact T2|]. eapply transit_trans; [exact T3|apply Hpop].
Qed.
End Loop.
