(* ===== verification/StmtWf.v ===== *)
(** * StmtWf: well-formed statements

    The statements that the code generator is proved for, and how they end. *)

From Stdlib Require Import String Ascii.
From stdpp Require Import gmap relations.
From S2P Require Import Prelude FourState Vector4 Vector4Ops Bits Thread ThreadSpec Machine MachineRun.
From S2P Require Import Codegen EmitWp CodegenAlloc EmitOps ExprSem CodegenNumber CodegenSpec CodegenCond CodegenMain.
From S2P Require Import Signal SignalSpec Process ProcessSpec Stmt StmtSem StmtFrag StmtPiece StmtLval StmtLoop.
Import Bit4.

Open Scope ivl_scope.

(** Induction over the statements in a statement. *)
Definition substmts (s : ivl_statement_t) : list ivl_statement_t :=
  match s with
  | IVL_ST_BLOCK stmts => stmts
  | IVL_ST_CASES _ _ items => map snd items
  | IVL_ST_CONDIT _ t f => option_list t ++ option_list f
  | IVL_ST_DO_WHILE _ sub | IVL_ST_FOREVER sub | IVL_ST_REPEAT _ sub | IVL_ST_WHILE _ sub => [sub]
  | IVL_ST_FORLOOP init _ sub step => option_list init ++ sub :: option_list step
  | _ => []
  end.

Lemma stmt_ind (Pr : ivl_statement_t -> Prop) : (forall s, Forall Pr (substmts s) -> Pr s) -> forall s, Pr s.
Proof.
  intros H. fix IH 1. intros s. apply H. destruct s as [| |stmts| | |ty cond items| |cond t f| |cond sub| |sub|init cond sub step| |cond sub|cond sub]; cbn [substmts];
    try solve [repeat constructor; apply IH].
  - induction stmts as [|s stmts IHs]; constructor; [apply IH|exact IHs].
  - induction items as [|[g s] items IHs]; constructor; [apply IH|exact IHs].
  - destruct t, f; repeat constructor; apply IH.
  - destruct init, step; repeat constructor; apply IH.
Qed.

(** The expressions of a statement. *)
Fixpoint stmt_exprs (s : ivl_statement_t) : list ivl_expr_t :=
  let opt (s : option ivl_statement_t) := match s with Some s => stmt_exprs s | None => [] end in
  match s with
  | IVL_ST_NOOP | IVL_ST_BREAK | IVL_ST_CONTINUE => []
  | IVL_ST_ASSIGN _ lvals rval | IVL_ST_CASSIGN lvals rval | IVL_ST_FORCE lvals rval => rval :: flat_map lval_exprs lvals
  | IVL_ST_BLOCK stmts => flat_map stmt_exprs stmts
  | IVL_ST_CASES _ cond items => cond :: flat_map (fun '(g, s) => option_list g ++ stmt_exprs s) items
  | IVL_ST_CONDIT cond t f => cond :: opt t ++ opt f
  | IVL_ST_DEASSIGN lvals | IVL_ST_RELEASE lvals => flat_map lval_exprs lvals
  | IVL_ST_FOREVER sub => stmt_exprs sub
  | IVL_ST_DO_WHILE cond sub | IVL_ST_REPEAT cond sub | IVL_ST_WHILE cond sub => cond :: stmt_exprs sub
  | IVL_ST_FORLOOP init cond sub step => opt init ++ option_list cond ++ stmt_exprs sub ++ opt step
  end.

Section Wf.
Variables (nets : symbol -> option nat) (swid : nat -> nat) (view : nat -> nat -> vvp_bit4_t).
Variables (thread_count fuel : nat) (W U : gset nat).
Hypothesis nets_inj : forall s1 s2 n, nets (SymNet s1 0) = Some n -> nets (SymNet s2 0) = Some n -> s1 = s2.
Hypothesis design : exists (ns : gmap nat vvp_net_t) (E : senv), forall sig n, nets (SymNet sig 0) = Some n -> exists s, ns !! n = Some s /\ SignalSpec.signal_is (swid sig) s (E sig).
Implicit Types (st : cg) (out : list asm_line) (P L : list symbol) (E : senv) (e : ivl_expr_t) (code : list vvp_code_t) (lab : symbol -> option nat).
Implicit Types (l : bits) (lvals : list ivl_lval_s) (s : ivl_statement_t) (inl : bool) (js : option nat * option nat).

Local Abbreviation swp := (swp nets thread_count).
Local Abbreviation transit := (transit nets swid view).
Local Abbreviation draw := (draw_eval_vec4 thread_count fuel).
Local Abbreviation draw_cond := (draw_eval_condition thread_count fuel).
Local Abbreviation stmt_wf := (stmt_wf nets swid).
Local Abbreviation fits := (fits fuel W U).
Local Abbreviation holds := (holds swid).
Local Abbreviation exec := (exec swid).
Local Abbreviation runs code := (runs nets swid view W U code).
Local Abbreviation loops code := (loops nets swid view W U code).
Local Abbreviation Sym n := (SymCode thread_count n).

Definition is_signal e : bool := match e with IVL_EX_SIGNAL _ _ => true | _ => false end.

(** Statements that the compiler front end makes, with [break] and [continue] only in
    loops ([inl]) and not in the branches of a case, without compressed assignments
    and links to a signal, and with an unknown offset only in the last part of a
    [deassign] or [release]. *)
Fixpoint swf inl s : bool :=
  let opt inl (s : option ivl_statement_t) := match s with Some s => swf inl s | None => true end in
  let assigns lvals rval := lvals_wf nets swid lvals && stmt_wf rval && (Z.of_nat (ivl_stmt_lwidth lvals) <? 2 ^ 30) in
  match s with
  | IVL_ST_NOOP => true
  | IVL_ST_BREAK | IVL_ST_CONTINUE => inl
  | IVL_ST_ASSIGN None lvals rval => assigns lvals rval
  | IVL_ST_ASSIGN (Some _) _ _ => false
  | IVL_ST_BLOCK stmts => forallb (swf inl) stmts
  | IVL_ST_CASES _ cond items =>
    stmt_wf cond && forallb (fun '(g, s) => match g with Some g => stmt_wf g && (ivl_expr_width g =? ivl_expr_width cond)%nat | None => true end && swf false s) items
  | IVL_ST_CASSIGN lvals rval => assigns lvals rval && negb (is_signal rval)
  | IVL_ST_CONDIT cond t f => stmt_wf cond && opt inl t && opt inl f
  | IVL_ST_DEASSIGN lvals | IVL_ST_RELEASE lvals => parts_wf nets swid lvals
  | IVL_ST_DO_WHILE cond sub | IVL_ST_REPEAT cond sub | IVL_ST_WHILE cond sub => stmt_wf cond && swf true sub
  | IVL_ST_FORCE lvals rval => assigns lvals rval && (ivl_expr_width rval =? ivl_stmt_lwidth lvals)%nat && negb (is_signal rval)
  | IVL_ST_FOREVER sub => swf true sub
  | IVL_ST_FORLOOP init cond sub step => opt false init && match cond with Some cond => stmt_wf cond | None => true end && swf true sub && opt false step
  end.

(** ** How statements end *)

Lemma after_body_normal body again E E' o : (forall E E' o, again E = Some (E', o) -> o = Normal) -> after_body (body E) again = Some (E', o) -> o = Normal.
Proof using.
  intros Ha He. unfold after_body in He. destruct (body E) as [[E1 o1]|]; [|done]. cbn [mbind option_bind] in He.
  destruct o1; [by eapply Ha|by injection He|by eapply Ha].
Qed.

Lemma ends_normal (r : option senv) E' o : ends r = Some (E', o) -> o = Normal.
Proof using. unfold ends. destruct r; [|done]. intros He. by injection He. Qed.

Lemma swf_items cond items ty g s : swf false (IVL_ST_CASES ty cond items) = true -> (g, s) ∈ items ->
  swf false s = true /\ match g with Some g => stmt_wf g = true /\ ivl_expr_width g = ivl_expr_width cond | None => True end.
Proof using.
  cbn [swf]. intros [_ Hi]%andb_prop Hin. rewrite forallb_forall in Hi. apply list_elem_of_In in Hin. specialize (Hi _ Hin). cbn in Hi.
  apply andb_prop in Hi as [Hg Hs]. split; [done|]. destruct g; [|done]. apply andb_prop in Hg as [? ?%Nat.eqb_eq]. done.
Qed.

(** Outside of loops, a statement ends normally. *)
Lemma swf_normal n : forall s, swf false s = true -> forall E E' o, exec n s E = Some (E', o) -> o = Normal.
Proof using.
  induction n as [|n IH]; intros s Hw E E' o He; [done|]. cbn [StmtSem.exec] in He.
  assert (Hopt : forall os E E' o, match os with Some s => swf false s | None => true end = true -> exec_opt (exec n) os E = Some (E', o) -> o = Normal).
  { intros [s'|] E1 E2 o1 Hs H1; [by eapply IH|by injection H1]. }
  destruct s as [|op lvals rval|stmts| | |ty cond items|lvals rval|cond t f|lvals|cond sub|lvals rval|sub|init cond sub step|lvals|cond sub|cond sub]; try done;
    try solve [by eapply ends_normal | by injection He].
  - destruct op; [done|]. by eapply ends_normal.
  - cbn [swf] in Hw. revert E He. induction stmts as [|s stmts IHs]; intros E He; [by injection He|]. cbn [forallb] in Hw. apply andb_prop in Hw as [Hs Hw].
    cbn [exec_block] in He. destruct (exec n s E) as [[E1 o1]|] eqn:E1'; [|done]. cbn [mbind option_bind] in He.
    rewrite (IH s Hs E E1 o1 E1') in He. by eapply IHs.
  - destruct (case_select swid ty (StmtSem.value_of swid E cond) E items) as [s|] eqn:Es; [|by injection He]. apply (IH s) in He; [done|].
    assert (Hin : exists g, (g, s) ∈ items); [|destruct Hin as [g Hin]; apply (swf_items cond items ty g s Hw Hin)].
    unfold case_select in Es. destruct (case_find_index swid ty (StmtSem.value_of swid E cond) E items) as [Ef Hi]. rewrite Ef in Es.
    destruct (case_index swid ty _ E items) as [i|].
    + destruct (Hi i eq_refl) as (g & s' & Hs). cbn [mbind option_bind] in Es. rewrite Hs in Es. injection Es as ->. exists (Some g). by eapply list_elem_of_lookup_2.
    + cbn [mbind option_bind] in Es. destruct (items !! default_case items) as [[g s']|] eqn:Hd; [|done]. injection Es as ->. exists g. by eapply list_elem_of_lookup_2.
  - cbn [swf] in Hw. apply andb_prop in Hw as [[_ Ht]%andb_prop Hf]. destruct (holds E cond); [exact (Hopt t E E' o Ht He)|exact (Hopt f E E' o Hf He)].
  - eapply after_body_normal; [|exact He]. intros E1 E2 o1 H1. cbn beta in H1. destruct (holds E1 cond); [by eapply IH|by injection H1].
  - eapply after_body_normal; [|exact He]. by apply IH.
  - assert (Hloop : swf false (IVL_ST_FORLOOP None cond sub step) = true) by (cbn [swf] in *; destruct init; cbn [andb] in *; [by destruct (swf false i)|done]).
    destruct init as [init|].
    + destruct (exec n init E) as [[E1 o1]|]; [|done]. by apply (IH _ Hloop E1 E' o).
    + destruct (match cond with Some cond => holds E cond | None => true end); [|by injection He]. eapply after_body_normal; [|exact He].
      intros E1 E2 o1 H1. cbn beta in H1. destruct (exec_opt (exec n) step E1) as [[E3 o3]|]; [|done]. by apply (IH _ Hloop E3 E2 o1).
  - destruct (repeat_count _ _) as [k|]; [|done]. cbn [mbind option_bind] in He. revert E E' o He. induction k as [|k IHk]; intros E E' o He; [by injection He|].
    eapply after_body_normal; [|exact He]. exact IHk.
  - destruct (holds E cond); [|by injection He]. eapply after_body_normal; [|exact He]. by apply IH.
Qed.
End Wf.
