(* ===== verification/StmtCode.v ===== *)
(** * StmtCode: the code of control statements

    What the generators of blocks, conditions, loops and cases print, from what the
    generator of the statements in them prints. *)

From Stdlib Require Import String Ascii.
From stdpp Require Import gmap relations.
From S2P Require Import Prelude FourState Vector4 Vector4Ops Bits Thread ThreadSpec Machine MachineRun.
From S2P Require Import Codegen EmitWp CodegenAlloc EmitOps ExprSem CodegenNumber CodegenSpec CodegenCond CodegenMain.
From S2P Require Import Signal SignalSpec Process ProcessSpec Stmt StmtSem StmtFrag StmtPiece StmtLval StmtLoop StmtWf.
Import Bit4.

Open Scope ivl_scope.

Section Code.
Variables (nets : symbol -> option nat) (swid : nat -> nat) (view : nat -> nat -> vvp_bit4_t).
Variables (thread_count fuel : nat) (W U : gset nat).
Hypothesis nets_inj : forall s1 s2 n, nets (SymNet s1 0) = Some n -> nets (SymNet s2 0) = Some n -> s1 = s2.
Hypothesis design : exists (ns : gmap nat vvp_net_t) (E : senv), forall sig n, nets (SymNet sig 0) = Some n -> exists s, ns !! n = Some s /\ SignalSpec.signal_is (swid sig) s (E sig).
Implicit Types (st : cg) (out : list asm_line) (P L : list symbol) (E : senv) (e : ivl_expr_t) (code : list vvp_code_t) (lab : symbol -> option nat).
Implicit Types (l : bits) (lvals : list ivl_lval_s) (s : ivl_statement_t) (inl : bool) (js : option nat * option nat).

Local Abbreviation swp := (swp nets thread_count).
Local Abbreviation transit := (transit nets swid view).
Local Abbreviation draw := (draw_eval_vec4 thread_count fuel).
Local Abbreviation draw_cond := (draw_eval_condition thread_count fuel).
Local Abbreviation stmt_wf := (stmt_wf nets swid).
Local Abbreviation fits := (fits fuel W U).
Local Abbreviation holds := (holds swid).
Local Abbreviation exec := (exec swid).
Local Abbreviation runs code := (runs nets swid view W U code).
Local Abbreviation loops code := (loops nets swid view W U code).
Local Abbreviation Sym n := (SymCode thread_count n).

Local Abbreviation swf := (swf nets swid).

(** ** Labels and jumps *)

Lemma swp_label L P st (Phi : nat -> list symbol -> cg -> list asm_line -> Prop) : alloc st W U ->
  (forall n st', alloc st' W U -> Phi n (Sym n :: P) st' []) -> swp L new_label P st Phi.
Proof using. intros Ha HP. apply swp_new_label. cbv zeta. apply HP. by apply alloc_label. Qed.

Lemma swp_jmp L n P st (Phi : unit -> list symbol -> cg -> list asm_line -> Prop) : Sym n ∈ L ++ P ->
  Phi tt P st [AsmCode "%jmp" [label_ thread_count n]] -> swp L (emit "%jmp" [label_ thread_count n]) P st Phi.
Proof using. intros Hn HP. apply swp_emit; [by apply line_jmp|done]. Qed.

Local Abbreviation at_line lab code := (at_line nets code lab).

Lemma jmp_moves lab code p n dest E pre : at_line lab code p "%jmp" [label_ thread_count n] -> lab (Sym n) = Some dest -> transit code W U p E pre dest E pre.
Proof using.
  intros Hc Hl. apply (transit_jmp nets swid view code W U p E pre (Code OP_JMP 0 0 0 dest 0)); [|done].
  apply Hc. unfold compile_code. cbn. by rewrite Hl.
Qed.

(** ** The code of statements *)

Definition in_scope inl js (Ls : list symbol) : Prop := inl = true -> exists lb lc, js = (Some lb, Some lc) /\ Sym lb ∈ Ls /\ Sym lc ∈ Ls.
Definition js_at inl js lab (b c : nat) : Prop := inl = true -> exists lb lc, js = (Some lb, Some lc) /\ lab (Sym lb) = Some b /\ lab (Sym lc) = Some c.

(** The generator leaves the labels and the allocations as they were, and its code
    does [Q] from its address to its end. *)
Definition shows P (Q : (symbol -> option nat) -> list vvp_code_t -> nat -> nat -> Prop) (rc : nat) (P' : list symbol) st' out : Prop :=
  rc = 0%nat /\ P' = P /\ alloc st' W U /\ forall lab code p, placed nets lab code p out -> Q lab code p (p + ninstr out)%nat.

Lemma swp_shows L (m : M nat) P st (Q Q' : (symbol -> option nat) -> list vvp_code_t -> nat -> nat -> Prop) :
  (forall lab code p q, Q lab code p q -> Q' lab code p q) -> swp L m P st (shows P Q) -> swp L m P st (shows P Q').
Proof using. intros HQ. apply swp_mono. intros rc P' st' out (-> & -> & Ha & Hr). do 3 (split; [done|]). intros lab code p Hp. by apply HQ, Hr. Qed.

Definition stmt_runs inl js s lab code (p q : nat) : Prop := forall b c, js_at inl js lab b c -> runs code s p q b c.

Definition stmt_ok (show : option nat * option nat -> ivl_statement_t -> M nat) inl s : Prop :=
  forall js L P st, alloc st W U -> in_scope inl js (L ++ P) -> swp L (show js s) P st (shows P (stmt_runs inl js s)).

Lemma loops_ok (m : M nat) inl js s L P st : swp L m P st (shows P (fun _ code => loops code s)) -> swp L m P st (shows P (stmt_runs inl js s)).
Proof using. apply swp_shows. intros lab code p q Hl b c _. by apply loops_runs. Qed.

(** A jump to a label at the start of the loop or its end. *)
Ltac in_labels := cbn [labels app]; set_solver +.

Section Show.
Variable show : option nat * option nat -> ivl_statement_t -> M nat.

Lemma loop_scope lb lc Ls : Sym lb ∈ Ls -> Sym lc ∈ Ls -> in_scope true (Some lb, Some lc) Ls.
Proof using. intros H1 H2 _. by exists lb, lc. Qed.

(** The body of a loop, with the labels of the loop. *)
Lemma body_runs lb lc lab code sub p q b c : stmt_runs true (Some lb, Some lc) sub lab code p q -> lab (Sym lb) = Some b -> lab (Sym lc) = Some c ->
  runs code sub p q b c.
Proof using. intros Hr Hb Hc. apply Hr. intros _. by exists lb, lc. Qed.

Lemma while_ok cond sub L P st : stmt_wf cond = true -> fits cond -> stmt_ok show true sub -> alloc st W U ->
  swp L (show_stmt_while thread_count draw_cond show cond sub) P st (shows P (fun _ code => loops code (IVL_ST_WHILE cond sub))).
Proof using design.
  intros Hw Hf Hsub Ha. apply swp_bind, swp_label; [done|]. intros top st1 Ha1. apply swp_bind, swp_label; [done|]. intros bout st2 Ha2.
  apply swp_bind. eapply swp_emit_label; [apply perm_swap|]. apply swp_bind.
  eapply swp_mono; [|apply (branch_piece nets swid view thread_count fuel W U design cond "%jmp/0xz" _ false bout _ _ _ jump_test_0xz); [by intros []|done..|in_labels]].
  intros _ P3 st3 out3 (-> & Ha3 & Hcond). apply swp_bind. eapply swp_mono; [|apply Hsub; [done|apply loop_scope; in_labels]].
  intros rc P4 st4 out4 (-> & -> & Ha4 & Hbody). apply swp_bind, swp_jmp; [in_labels|]. apply swp_bind. eapply swp_emit_label; [reflexivity|].
  apply swp_ret. do 3 (split; [done|]). intros lab code p Hpl. cbn [app] in *. cbn [placed] in Hpl. rewrite !placed_app in Hpl. cbn [placed] in Hpl.
  destruct Hpl as (Htop & Hp3 & Hp4 & Hjmp & Hout & _). cbn [ninstr] in *. rewrite !ninstr_app. cbn [ninstr].
  eapply (loops_while nets swid view W U code cond sub p (p + ninstr out3) (p + ninstr out3 + ninstr out4)).
  - intros E. pose proof (Hcond lab code p E _ Hp3 Hout) as T. destruct (holds E cond); cbn [eqb] in T; [done|].
    replace (p + (ninstr out3 + (ninstr out4 + 1)))%nat with (S (p + ninstr out3 + ninstr out4)) by lia. done.
  - apply (body_runs bout top lab); [by apply Hbody| |done]. rewrite Hout. f_equal. lia.
  - intros E. by eapply jmp_moves.
Qed.

Lemma forever_ok sub L P st : stmt_ok show true sub -> alloc st W U ->
  swp L (show_stmt_forever thread_count show sub) P st (shows P (fun _ code => loops code (IVL_ST_FOREVER sub))).
Proof using.
  intros Hsub Ha. apply swp_bind, swp_label; [done|]. intros top st1 Ha1. apply swp_bind, swp_label; [done|]. intros bout st2 Ha2.
  apply swp_bind. eapply swp_emit_label; [apply perm_swap|]. apply swp_bind. eapply swp_mono; [|apply Hsub; [done|apply loop_scope; in_labels]].
  intros rc P4 st4 out4 (-> & -> & Ha4 & Hbody). apply swp_bind, swp_jmp; [in_labels|]. apply swp_bind. eapply swp_emit_label; [reflexivity|].
  apply swp_ret. do 3 (split; [done|]). intros lab code p Hpl. cbn [app] in *. cbn [placed] in Hpl. rewrite !placed_app in Hpl. cbn [placed] in Hpl.
  destruct Hpl as (Htop & Hp4 & Hjmp & Hout & _). cbn [ninstr] in *. rewrite !ninstr_app. cbn [ninstr].
  eapply (loops_forever nets swid view W U code sub p (p + ninstr out4)).
  - apply (body_runs bout top lab); [by apply Hbody| |done]. rewrite Hout. f_equal. lia.
  - intros E. by eapply jmp_moves.
Qed.

Lemma do_while_ok cond sub L P st : stmt_wf cond = true -> fits cond -> stmt_ok show true sub -> alloc st W U ->
  swp L (show_stmt_do_while thread_count draw_cond show cond sub) P st (shows P (fun _ code => loops code (IVL_ST_DO_WHILE cond sub))).
Proof using design.
  intros Hw Hf Hsub Ha. apply swp_bind, swp_label; [done|]. intros top st1 Ha1. apply swp_bind, swp_label; [done|]. intros cont st2 Ha2.
  apply swp_bind, swp_label; [done|]. intros bout st3 Ha3.
  apply swp_bind. apply (swp_emit_label _ _ _ top _ (Sym bout :: Sym cont :: P)); [by rewrite (perm_swap (Sym top)), (perm_swap (Sym top))|].
  apply swp_bind. eapply swp_mono; [|apply Hsub; [done|apply loop_scope; in_labels]].
  intros rc P4 st4 out4 (-> & -> & Ha4 & Hbody). apply swp_bind. eapply swp_emit_label; [apply perm_swap|]. apply swp_bind.
  eapply swp_mono; [|apply (branch_piece nets swid view thread_count fuel W U design cond "%jmp/1" _ true top _ _ _ jump_test_1); [by intros []|done..|in_labels]].
  intros _ P5 st5 out5 (-> & Ha5 & Hcond). apply swp_bind. eapply swp_emit_label; [reflexivity|].
  apply swp_ret. do 3 (split; [done|]). intros lab code p Hpl. cbn [app] in *. cbn [placed] in Hpl. rewrite placed_app in Hpl. cbn [placed] in Hpl. rewrite placed_app in Hpl. cbn [placed] in Hpl.
  destruct Hpl as (Htop & Hp4 & Hcl & Hp5 & Hout & _). cbn [ninstr] in *. rewrite ninstr_app. cbn [ninstr]. rewrite ninstr_app. cbn [ninstr].
  apply (loops_do_while nets swid view W U code cond sub p (p + ninstr out4)).
  - apply (body_runs bout cont lab); [by apply Hbody| |done]. rewrite Hout. f_equal. lia.
  - intros E. pose proof (Hcond lab code _ E _ Hp5 Htop) as T. replace (p + (ninstr out4 + (ninstr out5 + 0)))%nat with (p + ninstr out4 + ninstr out5)%nat by lia.
    by destruct (holds E cond).
Qed.

(** The statements that may be missing. *)
Definition opt_ok inl (os : option ivl_statement_t) : Prop := match os with Some s => stmt_ok show inl s | None => True end.
Definition opt_runs inl js (os : option ivl_statement_t) lab code (p q : nat) : Prop := forall b c, js_at inl js lab b c -> runs_opt nets swid view W U code os p q b c.

Lemma show_opt_ok inl js os L P st : opt_ok inl os -> alloc st W U -> in_scope inl js (L ++ P) ->
  swp L (show_opt show js os) P st (shows P (opt_runs inl js os)).
Proof using.
  intros Ho Ha Hs. destruct os as [s|]; [by apply Ho|]. apply swp_ret. do 3 (split; [done|]). intros lab code p _ b c _. cbn. lia.
Qed.

Definition opt_normal (os : option ivl_statement_t) : Prop := forall n E E' o, exec_opt (exec n) os E = Some (E', o) -> o = Normal.

Lemma not_in_loop js Ls : in_scope false js Ls.
Proof using. done. Qed.

Lemma opt_runs_out js os lab code p q : opt_runs false js os lab code p q -> forall b c, runs_opt nets swid view W U code os p q b c.
Proof using. intros H b c. by apply H. Qed.

(** The condition of a [for]. *)
Lemma for_cond_ok cond bout L P st : match cond with Some e => stmt_wf e = true /\ fits e | None => True end -> alloc st W U -> Sym bout ∈ L ++ P ->
  swp L (match cond with Some cond => branch_on thread_count draw_cond cond "%jmp/0xz" bout | None => mret tt end) P st (fun _ P' st' out => P' = P /\ alloc st' W U /\
    forall lab code p E dest, placed nets lab code p out -> lab (Sym bout) = Some dest ->
      transit code W U p E [] (if match cond with Some cond => holds E cond | None => true end then (p + ninstr out)%nat else dest) E []).
Proof using design.
  intros Hc Ha Hb. destruct cond as [e|].
  - destruct Hc as [Hw Hf].
    eapply swp_mono; [|apply (branch_piece nets swid view thread_count fuel W U design e "%jmp/0xz" _ false bout _ _ _ jump_test_0xz); [by intros []|done..]].
    intros _ P' st' out (-> & Ha' & Hr). split; [done|]. split; [done|]. intros lab code p E dest Hp Hl. pose proof (Hr lab code p E dest Hp Hl) as T. by destruct (holds E e).
  - apply swp_ret. split; [done|]. split; [done|]. intros lab code p E dest _ _. cbn [ninstr]. rewrite Nat.add_0_r. apply transit_refl.
Qed.

Lemma for_ok init cond sub step L P st : match cond with Some e => stmt_wf e = true /\ fits e | None => True end ->
  opt_ok false init -> opt_normal init -> stmt_ok show true sub -> opt_ok false step -> opt_normal step -> alloc st W U ->
  swp L (show_stmt_forloop thread_count draw_cond show init cond sub step) P st (shows P (fun _ code => loops code (IVL_ST_FORLOOP init cond sub step))).
Proof using design.
  intros Hc Hi Hni Hsub Hst Hnst Ha. apply swp_bind, swp_label; [done|]. intros top st1 Ha1. apply swp_bind, swp_label; [done|]. intros bout st2 Ha2.
  apply swp_bind, swp_label; [done|]. intros cont st3 Ha3. apply swp_bind. eapply swp_mono; [|by apply (show_opt_ok false)].
  intros rc1 P4 st4 out4 (-> & -> & Ha4 & Hinit). apply swp_bind. apply (swp_emit_label _ _ _ top _ (Sym cont :: Sym bout :: P)); [by rewrite (perm_swap (Sym top)), (perm_swap (Sym top))|].
  apply swp_bind. eapply swp_mono; [|apply for_cond_ok; [done|done|in_labels]]. intros _ P5 st5 out5 (-> & Ha5 & Hcond).
  apply swp_bind. eapply swp_mono; [|apply Hsub; [done|apply loop_scope; in_labels]]. intros rc2 P6 st6 out6 (-> & -> & Ha6 & Hbody).
  apply swp_bind. eapply swp_emit_label; [reflexivity|]. apply swp_bind. eapply swp_mono; [|by apply (show_opt_ok false)].
  intros rc3 P7 st7 out7 (-> & -> & Ha7 & Hstep). apply swp_bind, swp_jmp; [in_labels|]. apply swp_bind. eapply swp_emit_label; [reflexivity|].
  apply swp_ret. do 3 (split; [done|]). intros lab code p Hpl. cbn [app] in *. repeat (rewrite placed_app in Hpl; cbn [placed] in Hpl).
  destruct Hpl as (Hp4 & Htop & Hp5 & Hp6 & Hcl & Hp7 & Hjmp & Hout & _). cbn [ninstr] in *. repeat (rewrite ninstr_app; cbn [ninstr]).
  set (p1 := (p + ninstr out4)%nat) in *. set (p2 := (p1 + ninstr out5)%nat) in *. set (p3 := (p2 + ninstr out6)%nat) in *. set (p4 := (p3 + ninstr out7)%nat) in *.
  replace (p + (ninstr out4 + (ninstr out5 + (ninstr out6 + (ninstr out7 + 1)))))%nat with (S p4) by (unfold p4, p3, p2, p1; lia).
  assert (Hloop : loops code (IVL_ST_FORLOOP None cond sub step) p1 (S p4)).
  { apply (loops_for nets swid view W U code cond sub step p1 p2 p3 p4); [| |by eapply opt_runs_out, Hstep|done|].
    - intros E. exact (Hcond lab code p1 E _ Hp5 Hout).
    - apply (body_runs bout cont lab); [by apply Hbody|done|done].
    - intros E. by eapply jmp_moves. }
  pose proof (opt_runs_out _ _ _ _ _ _ (Hinit lab code p Hp4)) as Hri. destruct init as [init|].
  - apply (loops_for_init nets swid view W U code init cond sub step p p1); [exact Hri|exact Hni|done].
  - specialize (Hri 0%nat 0%nat). cbn in Hri. by rewrite Hri.
Qed.

(** A condition. *)
Lemma scope_sub inl js Ls Ls' : in_scope inl js Ls -> Ls ⊆ Ls' -> in_scope inl js Ls'.
Proof using. intros Hs Hsub Hi. destruct (Hs Hi) as (lb & lc & -> & H1 & H2). exists lb, lc. split; [done|]. split; by apply Hsub. Qed.

Lemma branch_false_ok cond n L P st : stmt_wf cond = true -> fits cond -> alloc st W U -> Sym n ∈ L ++ P ->
  swp L (branch_on thread_count draw_cond cond "%jmp/0xz" n) P st (fun _ P' st' out => P' = P /\ alloc st' W U /\
    forall lab code p E dest, placed nets lab code p out -> lab (Sym n) = Some dest -> transit code W U p E [] (if holds E cond then p + ninstr out else dest)%nat E []).
Proof using design. intros Hw Hf Ha Hn. by apply (for_cond_ok (Some cond)). Qed.

Lemma condit_else_ok inl js cond t f L P st : stmt_wf cond = true -> fits cond -> opt_ok inl t -> stmt_ok show inl f -> alloc st W U -> in_scope inl js (L ++ P) ->
  swp L (show_stmt_condit thread_count draw_cond show js cond t (Some f)) P st (shows P (stmt_runs inl js (IVL_ST_CONDIT cond t (Some f)))).
Proof using design.
  intros Hw Hf Ht He Ha Hs. apply swp_bind, swp_label; [done|]. intros lf st1 Ha1. apply swp_bind.
  apply swp_label; [done|]. intros lo st2 Ha2. apply swp_bind. eapply swp_mono; [|apply branch_false_ok; [done..|in_labels]].
  intros _ P3 st3 out3 (-> & Ha3 & Hcond). apply swp_bind. eapply swp_mono; [|apply (show_opt_ok inl); [done|done|apply (scope_sub _ _ _ _ Hs); in_labels]].
  intros rc1 P4 st4 out4 (-> & -> & Ha4 & Htrue). apply swp_bind, swp_jmp; [in_labels|]. apply swp_bind. eapply swp_emit_label; [apply perm_swap|].
  apply swp_bind. eapply swp_mono; [|apply He; [done|apply (scope_sub _ _ _ _ Hs); in_labels]].
  intros rc2 P5 st5 out5 (-> & -> & Ha5 & Hfalse). apply swp_bind. eapply swp_emit_label; [reflexivity|].
  apply swp_ret. do 3 (split; [done|]). intros lab code p Hpl b c Hjs. cbn [app] in *. repeat (rewrite placed_app in Hpl; cbn [placed] in Hpl).
  destruct Hpl as (Hp3 & Hp4 & Hjmp & Hlf & Hp5 & Hlo & _). cbn [ninstr] in *. repeat (rewrite ninstr_app; cbn [ninstr]).
  eapply (runs_condit nets swid view W U code cond t (Some f) p (p + ninstr out3) (S (p + ninstr out3 + ninstr out4)) (p + ninstr out3 + ninstr out4)).
  - intros E. exact (Hcond lab code p E _ Hp3 Hlf).
  - by apply (Htrue lab).
  - pose proof (Hfalse lab code _ Hp5 b c Hjs) as T. by replace (p + (ninstr out3 + (ninstr out4 + S (ninstr out5 + 0))))%nat with (S (p + ninstr out3 + ninstr out4) + ninstr out5)%nat by lia.
  - intros E. eapply jmp_moves; [exact Hjmp|]. rewrite Hlo. f_equal. lia.
Qed.

(** The label after the statement is not printed without an [else]. *)
Lemma condit_alone_ok inl js cond t L P st : stmt_wf cond = true -> fits cond -> opt_ok inl t -> alloc st W U -> in_scope inl js (L ++ P) ->
  swp L (show_stmt_condit thread_count draw_cond show js cond t None) P st (shows P (stmt_runs inl js (IVL_ST_CONDIT cond t None))).
Proof using design.
  intros Hw Hf Ht Ha Hs. apply swp_bind, swp_label; [done|]. intros lf st1 Ha1. apply swp_bind.
  apply swp_unused_label. cbv zeta. set (st2 := Cg _ _ _). assert (Ha2 : alloc st2 W U) by by apply alloc_label. clearbody st2.
  apply swp_bind. eapply swp_mono; [|apply branch_false_ok; [done..|in_labels]].
  intros _ P3 st3 out3 (-> & Ha3 & Hcond). apply swp_bind. eapply swp_mono; [|apply (show_opt_ok inl); [done|done|apply (scope_sub _ _ _ _ Hs); in_labels]].
  intros rc1 P4 st4 out4 (-> & -> & Ha4 & Htrue). apply swp_bind. eapply swp_emit_label; [reflexivity|].
  apply swp_ret. do 3 (split; [done|]). intros lab code p Hpl b c Hjs. cbn [app] in *. repeat (rewrite placed_app in Hpl; cbn [placed] in Hpl).
  destruct Hpl as (Hp3 & Hp4 & Hlf & _). cbn [ninstr] in *. repeat (rewrite ninstr_app; cbn [ninstr]).
  replace (p + (ninstr out3 + (ninstr out4 + 0)))%nat with (p + ninstr out3 + ninstr out4)%nat by lia.
  eapply (runs_condit nets swid view W U code cond t None p (p + ninstr out3) _ (p + ninstr out3 + ninstr out4)); [|by apply (Htrue lab)|reflexivity|intros E; apply transit_refl].
  intros E. exact (Hcond lab code p E _ Hp3 Hlf).
Qed.

Lemma condit_ok inl js cond t f L P st : stmt_wf cond = true -> fits cond -> opt_ok inl t -> opt_ok inl f -> alloc st W U -> in_scope inl js (L ++ P) ->
  swp L (show_stmt_condit thread_count draw_cond show js cond t f) P st (shows P (stmt_runs inl js (IVL_ST_CONDIT cond t f))).
Proof using design. intros. destruct f; [by apply condit_else_ok|by apply condit_alone_ok]. Qed.

Lemma block_ok inl js stmts : Forall (stmt_ok show inl) stmts -> forall L P st, alloc st W U -> in_scope inl js (L ++ P) ->
  swp L (show_stmt_block show js stmts) P st (shows P (stmt_runs inl js (IVL_ST_BLOCK stmts))).
Proof using.
  induction 1 as [|s stmts Hs _ IH]; intros L P st Ha Hsc.
  - apply swp_ret. do 3 (split; [done|]). intros lab code p _ b c _. cbn. rewrite Nat.add_0_r. apply runs_block_nil.
  - apply swp_bind. eapply swp_mono; [|by apply Hs]. intros rc1 P1 st1 out1 (-> & -> & Ha1 & H1). apply swp_bind. eapply swp_mono; [|apply IH; [done|]].
    + intros rc2 P2 st2 out2 (-> & -> & Ha2 & H2). apply swp_ret. do 3 (split; [done|]). intros lab code p Hpl b c Hjs. rewrite app_nil_r in *.
      apply placed_app in Hpl as [Hp1 Hp2]. rewrite ninstr_app, Nat.add_assoc. eapply runs_block_cons; [by apply (H1 lab)|by apply (H2 lab)].
    + intros Hi. destruct (Hsc Hi) as (lb & lc & -> & Hb & Hc). exists lb, lc. rewrite !elem_of_app in *. tauto.
Qed.

Lemma break_ok js L P st : alloc st W U -> in_scope true js (L ++ P) -> swp L (show_stmt_break thread_count js) P st (shows P (stmt_runs true js IVL_ST_BREAK)).
Proof using.
  intros Ha Hs. destruct (Hs eq_refl) as (lb & lc & -> & Hb & Hc). cbn [show_stmt_break fst]. apply swp_bind, swp_jmp; [done|]. apply swp_ret.
  do 3 (split; [done|]). intros lab code p [Hl _] b c Hjs. destruct (Hjs eq_refl) as (? & ? & [= <- <-] & H1 & H2). apply runs_break. intros E. by eapply jmp_moves.
Qed.

Lemma continue_ok js L P st : alloc st W U -> in_scope true js (L ++ P) -> swp L (show_stmt_continue thread_count js) P st (shows P (stmt_runs true js IVL_ST_CONTINUE)).
Proof using.
  intros Ha Hs. destruct (Hs eq_refl) as (lb & lc & -> & Hb & Hc). cbn [show_stmt_continue snd]. apply swp_bind, swp_jmp; [done|]. apply swp_ret.
  do 3 (split; [done|]). intros lab code p [Hl _] b c Hjs. destruct (Hjs eq_refl) as (? & ? & [= <- <-] & H1 & H2). apply runs_continue. intros E. by eapply jmp_moves.
Qed.

(** ** repeat *)

Lemma swp_line L mnem opa P st (Phi : unit -> list symbol -> cg -> list asm_line -> Prop) : (forall lab, is_Some (compile_code lab nets mnem opa)) ->
  Phi tt P st [AsmCode mnem opa] -> swp L (emit mnem opa) P st Phi.
Proof using. intros Hc HP. apply swp_emit; [intros lab _; apply Hc|done]. Qed.

Lemma swp_jump L mnem f n flag P st (Phi : unit -> list symbol -> cg -> list asm_line -> Prop) : jump_test mnem f -> Sym n ∈ L ++ P ->
  Phi tt P st [AsmCode mnem [label_ thread_count n; num_ flag]] -> swp L (emit mnem [label_ thread_count n; num_ flag]) P st Phi.
Proof using. intros Hj Hn HP. apply swp_emit; [by eapply line_jump|done]. Qed.

(** The test of a repeat, and what follows it. *)
Lemma swp_test {X} (sg : bool) w bout (k : M X) L P st (Phi : X -> list symbol -> cg -> list asm_line -> Prop) : Sym bout ∈ L ++ P ->
  swp L k P st (fun x P' st' out => Phi x P' st' (test_lines sg w (Sym bout) ++ out)) ->
  swp L (emit "%dup/vec4" [];; emit (if sg then "%cmpi/s" else "%cmpi/u") [num_ 0; num_ 0; num_ w];;
    (if sg then emit "%jmp/1xz" [label_ thread_count bout; num_ 5] else mret tt);; emit "%jmp/1" [label_ thread_count bout; num_ 4];;
    emit "%subi" [num_ 1; num_ 0; num_ w];; k) P st Phi.
Proof using.
  intros Hb Hk. apply swp_bind, swp_line; [intros lab; by eexists|]. apply swp_bind, swp_line; [intros lab; destruct sg; by eexists|]. apply swp_bind. destruct sg.
  - eapply swp_jump; [exact jump_test_1xz|exact Hb|]. apply swp_bind. eapply swp_jump; [exact jump_test_1|exact Hb|].
    apply swp_bind, swp_line; [intros lab; by eexists|]. exact Hk.
  - apply swp_ret. apply swp_bind. eapply swp_jump; [exact jump_test_1|exact Hb|]. apply swp_bind, swp_line; [intros lab; by eexists|]. exact Hk.
Qed.

Lemma repeat_ok cond sub L P st : stmt_wf cond = true -> fits cond -> stmt_ok show true sub -> alloc st W U ->
  swp L (show_stmt_repeat thread_count draw show cond sub) P st (shows P (fun _ code => loops code (IVL_ST_REPEAT cond sub))).
Proof using design.
  intros Hw Hf Hsub Ha. pose proof (fun E => value_width nets swid E cond Hw) as Hwid. destruct design as (ns0 & E0 & _). destruct (Hwid E0) as (_ & Hsm & H0). clear ns0 E0.
  apply swp_bind, swp_label; [done|]. intros top st1 Ha1. apply swp_bind, swp_label; [done|]. intros bout st2 Ha2.
  apply swp_bind. eapply swp_mono; [|by apply (draw_piece nets swid view thread_count fuel W U design cond)].
  intros _ P3 st3 out3 (-> & Ha3 & Hval). apply swp_bind. eapply swp_emit_label; [apply perm_swap|]. apply swp_test; [in_labels|].
  apply swp_bind. eapply swp_mono; [|apply Hsub; [done|apply loop_scope; in_labels]].
  intros rc P4 st4 out4 (-> & -> & Ha4 & Hbody). apply swp_bind, swp_jmp; [in_labels|]. apply swp_bind. eapply swp_emit_label; [reflexivity|].
  apply swp_bind, swp_line; [intros lab; by eexists|]. apply swp_ret. do 3 (split; [done|]). intros lab code p Hpl. cbn [app] in Hpl |- *.
  rewrite placed_app in Hpl. cbn [placed] in Hpl. rewrite placed_app in Hpl. rewrite placed_app in Hpl. cbn [placed] in Hpl.
  destruct Hpl as (Hp3 & Htop & Htest & Hp4 & Hjmp & Hout & Hpop & _). rewrite ninstr_app. cbn [ninstr]. rewrite ninstr_app, ninstr_app. cbn [ninstr] in *.
  set (w := ivl_expr_width cond) in *. set (p1 := (p + ninstr out3)%nat) in *. set (nt := ninstr (test_lines _ w _)) in *.
  replace (p + (ninstr out3 + (nt + (ninstr out4 + 2))))%nat with (S (S (p1 + nt + ninstr out4))) by (unfold p1; lia).
  apply (loops_repeat nets swid view W U code cond sub w p p1 (p1 + nt) (p1 + nt + ninstr out4) (S (p1 + nt + ninstr out4))); [done| | | | |].
  - intros E. split; [by apply (Hval lab)|apply Hwid].
  - intros E l n Hl Hc. pose proof (test_moves nets swid view W U code (ivl_expr_signed cond) lab p1 (Sym bout) (S (p1 + nt + ninstr out4)) E l n) as T. rewrite Hl in T. by apply T.
  - by apply (body_runs bout top lab); [apply Hbody|..].
  - intros E. by eapply jmp_moves.
  - intros E l. by apply (pop_moves nets swid view W U code lab).
Qed.

(** ** case *)

Abbreviation case_items := (list (option ivl_expr_t * ivl_statement_t)).

(** The test lines of a branch. *)
Lemma swp_case_test type n L P st (Phi : unit -> list symbol -> cg -> list asm_line -> Prop) : Sym n ∈ L ++ P ->
  Phi tt P st (match type with
    | IVL_ST_CASE => [AsmCode "%cmp/e" []; AsmCode "%jmp/1" [L_SYMB (Sym n); num_ 6]]
    | IVL_ST_CASEX => [AsmCode "%cmp/x" []; AsmCode "%jmp/1" [L_SYMB (Sym n); num_ 4]]
    | IVL_ST_CASEZ => [AsmCode "%cmp/z" []; AsmCode "%jmp/1" [L_SYMB (Sym n); num_ 4]] end) ->
  swp L (case_test thread_count type n) P st Phi.
Proof using.
  intros Hn HP. destruct type; (apply swp_bind, swp_line; [intros lab; by eexists|]; eapply swp_jump; [exact jump_test_1|exact Hn|exact HP]).
Qed.

Lemma ninstr_test type sy : ninstr (match type with
    | IVL_ST_CASE => [AsmCode "%cmp/e" []; AsmCode "%jmp/1" [L_SYMB sy; num_ 6]]
    | IVL_ST_CASEX => [AsmCode "%cmp/x" []; AsmCode "%jmp/1" [L_SYMB sy; num_ 4]]
    | IVL_ST_CASEZ => [AsmCode "%cmp/z" []; AsmCode "%jmp/1" [L_SYMB sy; num_ 4]] end) = 2%nat.
Proof using. by destruct type. Qed.

Definition guard_ok w (g : option ivl_expr_t) : Prop := match g with Some g => stmt_wf g = true /\ ivl_expr_width g = w /\ fits g | None => True end.

(** The table leads to the branch that matches, or to its end. *)
Lemma table_ok type w items : Forall (fun '(g, _) => guard_ok w g) items -> forall from L P st, alloc st W U ->
  (forall i g s, items !! i = Some (Some g, s) -> Sym (from + i) ∈ L ++ P) ->
  swp L (case_table thread_count draw type from items) P st (fun _ P' st' out => P' = P /\ alloc st' W U /\
    forall lab code p (dest : nat -> nat), placed nets lab code p out -> (forall i g s, items !! i = Some (Some g, s) -> lab (Sym (from + i)) = Some (dest i)) ->
      forall E v, length v = w -> transit code W U p E [v] (match case_index swid type v E items with Some i => dest i | None => (p + ninstr out)%nat end) E [v]).
Proof using design.
  induction 1 as [|[[g|] s] items Hg _ IH]; intros from L P st Ha Hlab; cbn [case_table case_index].
  - apply swp_ret. split; [done|]. split; [done|]. intros lab code p dest _ _ E v _. cbn. rewrite Nat.add_0_r. apply transit_refl.
  - destruct Hg as (Hw & Hwid & Hf). apply swp_bind, swp_line; [intros lab; by eexists|]. apply swp_bind.
    eapply swp_mono; [|by apply (draw_piece nets swid view thread_count fuel W U design g)]. intros _ P1 st1 out1 (-> & Ha1 & Hval).
    pose proof (Hlab 0%nat g s eq_refl) as H0. rewrite Nat.add_0_r in H0.
    apply swp_bind, swp_case_test; [revert H0; in_labels|]. eapply swp_mono; [|apply IH; [done|]].
    + intros _ P2 st2 out2 (-> & Ha2 & Hrest). split; [done|]. split; [done|]. intros lab code p dest Hpl Hdest E v Hv.
      rewrite !placed_app in Hpl. destruct Hpl as ([Hdup _] & Hp1 & Htest & Hp2). cbn [ninstr] in *. rewrite ninstr_test in Hp2. rewrite !ninstr_app, ninstr_test. cbn [ninstr].
      rewrite Nat.add_1_r in *. eapply transit_trans; [exact (dup_moves nets swid view W U code lab p E v Hdup)|].
      eapply transit_trans; [apply (transit_push nets swid view), (Hval lab code _ E Hp1)|].
      pose proof (Hdest 0%nat g s eq_refl) as Hd. rewrite Nat.add_0_r in Hd.
      pose proof (case_test_moves nets swid view W U code type lab _ _ _ E v (StmtSem.value_of swid E g) ltac:(rewrite Hv, (proj1 (value_width nets swid E g Hw)); done) Hd Htest) as T.
      eapply transit_trans; [exact (transit_frame nets swid view _ _ _ _ _ _ _ _ _ [v] T)|]. cbn [app]. destruct (case_matches _ _ _); [apply transit_refl|].
      specialize (Hrest lab code (S (S (S p + ninstr out1))) (fun i => dest (S i))). replace (S (S (S p + ninstr out1))) with (S p + ninstr out1 + 2)%nat in * by lia.
      specialize (Hrest Hp2 ltac:(intros i g' s' Hi; rewrite Nat.add_succ_comm; by apply (Hdest (S i) g' s')) E v Hv).
      destruct (case_index swid type v E items) as [i|]; cbn [fmap option_fmap option_map]; [done|].
      by replace (p + (1 + (ninstr out1 + (2 + ninstr out2))))%nat with (S p + ninstr out1 + 2 + ninstr out2)%nat by lia.
    + intros i g' s' Hi. rewrite Nat.add_succ_comm. specialize (Hlab (S i) g' s' Hi). revert Hlab. in_labels.
  - eapply swp_mono; [|apply IH; [done|]].
    + intros _ P2 st2 out2 (-> & Ha2 & Hrest). split; [done|]. split; [done|]. intros lab code p dest Hpl Hdest E v Hv.
      specialize (Hrest lab code p (fun i => dest (S i)) Hpl ltac:(intros i g' s' Hi; rewrite Nat.add_succ_comm; by apply (Hdest (S i) g' s')) E v Hv).
      by destruct (case_index swid type v E items).
    + intros i g' s' Hi. rewrite Nat.add_succ_comm. by apply (Hlab (S i) g' s').
Qed.

(** The branches that have a label. *)
Fixpoint branch_labels (from dflt : nat) (n : nat) : list symbol :=
  match n with
  | O => []
  | S n => if (from =? dflt)%nat then branch_labels (S from) dflt n else Sym from :: branch_labels (S from) dflt n
  end.

Lemma elem_of_branch_labels from dflt n i : (i < n)%nat -> (from + i)%nat <> dflt -> Sym (from + i) ∈ branch_labels from dflt n.
Proof using.
  revert from i. induction n as [|n IH]; intros from i Hi Hne; [lia|]. cbn [branch_labels]. destruct i as [|i].
  - rewrite Nat.add_0_r in *. rewrite (proj2 (Nat.eqb_neq _ _)) by done. apply list_elem_of_here.
  - specialize (IH (S from) i ltac:(lia) ltac:(lia)). rewrite Nat.add_succ_comm in IH. rewrite <- Nat.add_succ_comm in *. destruct (from =? dflt)%nat; [done|by apply list_elem_of_further].
Qed.

Lemma branch_labels_fresh from dflt n : branch_labels from dflt n ⊆+ map (SymCode thread_count) (seq from n).
Proof using.
  revert from. induction n as [|n IH]; intros from; [done|]. cbn [branch_labels seq map]. destruct (from =? dflt)%nat; [by apply submseteq_cons|by apply submseteq_skip].
Qed.

Lemma branches_ok js bout dflt items : Forall (fun '(_, s) => stmt_ok show false s) items -> forall from L P st, alloc st W U -> Sym bout ∈ L ++ P ->
  swp L (case_branches thread_count show js from bout dflt items) (branch_labels from dflt (length items) ++ P) st (fun rc P' st' out => rc = 0%nat /\ P' = P /\ alloc st' W U /\
    forall lab code p dout, placed nets lab code p out -> lab (Sym bout) = Some dout -> forall i g s, items !! i = Some (g, s) -> (from + i)%nat <> dflt ->
      exists d, lab (Sym (from + i)) = Some d /\ branch_runs nets swid view W U code s d dout).
Proof using.
  induction 1 as [|[g s] items Hs _ IH]; intros from L P st Ha Hb; cbn [case_branches branch_labels length].
  - apply swp_ret. do 3 (split; [done|]). intros lab code p dout _ _ i g s Hi. done.
  - destruct (Nat.eqb_spec from dflt) as [Heq|Hne].
    + eapply swp_mono; [|by apply IH]. intros rc P' st' out (-> & -> & Ha' & Hr). do 3 (split; [done|]). intros lab code p dout Hp Hl [|i] g' s' Hi Hd; [lia|].
      rewrite <- Nat.add_succ_comm in *. by eapply Hr.
    + apply swp_bind. apply (swp_emit_label _ _ _ _ _ (branch_labels (S from) dflt (length items) ++ P)); [done|]. apply swp_bind. eapply swp_mono; [|apply Hs; [done|by intros ?]].
      intros rc1 P1 st1 out1 (-> & -> & Ha1 & Hr1). apply swp_bind, swp_jmp; [revert Hb; in_labels|]. apply swp_bind. eapply swp_mono; [|apply IH; [done|revert Hb; in_labels]].
      intros rc2 P2 st2 out2 (-> & -> & Ha2 & Hr2). apply swp_ret. do 3 (split; [done|]). rewrite app_nil_r. intros lab code p dout Hpl Hl. cbn [app placed] in Hpl.
      rewrite placed_app in Hpl. cbn [placed] in Hpl. destruct Hpl as (H0 & Hp1 & Hjmp & Hp2). intros [|i] g' s' Hi Hd.
      * injection Hi as <- <-. rewrite Nat.add_0_r. exists p. split; [done|]. exists (p + ninstr out1)%nat. split; [intros b c; by apply (Hr1 lab)|].
        intros E. by eapply jmp_moves.
      * rewrite <- Nat.add_succ_comm in *. by eapply Hr2.
Qed.

Lemma case_default_nth js items n : case_default show js n items = match items !! n with Some (_, s) => show js s | None => mret 0%nat end.
Proof using. revert n. induction items as [|[g s] items IH]; intros [|n]; try done. apply IH. Qed.

Lemma swp_new_labels L n dflt P st (Phi : nat -> list symbol -> cg -> list asm_line -> Prop) : alloc st W U ->
  (forall base st', alloc st' W U -> Phi base (branch_labels base (base + dflt) n ++ Sym (base + n) :: P) st' []) -> swp L (new_labels (n + 1)) P st Phi.
Proof.
  intros Ha HP. eexists. split; [|apply HP; by apply alloc_label]. constructor; cbn [local_count labels app]; [lia| | |constructor].
  - unfold EmitWp.fresh. replace (local_count st + (n + 1) - local_count st)%nat with (n + 1)%nat by lia. rewrite seq_app, map_app. cbn [seq map].
    rewrite (Permutation_app_comm P), <- app_assoc. cbn [app]. apply submseteq_app; [apply branch_labels_fresh|done].
  - intros s Hs. rewrite elem_of_app, elem_of_cons. tauto.
Qed.

Lemma case_ok js type cond items L P st : stmt_wf cond = true -> fits cond -> Forall (fun '(g, s) => guard_ok (ivl_expr_width cond) g /\ stmt_ok show false s /\ swf false s = true) items ->
  alloc st W U -> swp L (show_stmt_case thread_count draw show js type cond items) P st (shows P (fun _ code => loops code (IVL_ST_CASES type cond items))).
Proof using design.
  intros Hw Hf Hitems Ha. pose proof (fun E => value_width nets swid E cond Hw) as Hwid. set (n := length items). set (dflt := default_case items).
  assert (Hg : Forall (fun '(g, _) => guard_ok (ivl_expr_width cond) g) items) by (eapply List.Forall_impl; [|exact Hitems]; by intros [g s] (? & _)).
  assert (Hs : Forall (fun '(_, s) => stmt_ok show false s) items) by (eapply List.Forall_impl; [|exact Hitems]; by intros [g s] (_ & ? & _)).
  assert (Hn : forall i g s, items !! i = Some (g, s) -> normal swid s).
  { intros i g s Hi k E E' o. destruct (proj1 (Forall_lookup _ _) Hitems i _ Hi) as (_ & _ & Hwf). by eapply (swf_normal nets swid). }
  assert (Hguard : forall i g s, items !! i = Some (Some g, s) -> i <> dflt /\ (i < n)%nat).
  { intros i g s Hi. split; [|by eapply lookup_lt_Some]. intros ->. destruct (default_case_spec items) as [Hd|[s' Hd]]; unfold dflt in Hi; by rewrite Hd in Hi. }
  apply swp_bind, (swp_new_labels _ _ dflt); [done|]. intros base st1 Ha1.
  apply swp_bind. eapply swp_mono; [|by apply (draw_piece nets swid view thread_count fuel W U design cond)]. intros _ P2 st2 out2 (-> & Ha2 & Hval).
  apply swp_bind. eapply swp_mono; [|apply (table_ok type (ivl_expr_width cond)); [done|done|]].
  2: { intros i g s Hi. destruct (Hguard i g s Hi). apply elem_of_app. right. apply elem_of_app. left. apply elem_of_branch_labels; [done|lia]. }
  intros _ P3 st3 out3 (-> & Ha3 & Htab). apply swp_bind. rewrite case_default_nth. fold dflt.
  assert (Hdef : forall L' P' st', alloc st' W U -> swp L' (match items !! dflt with Some (_, s) => show js s | None => mret 0%nat end) P' st'
    (shows P' (fun lab code p q => match items !! dflt with Some (_, s) => forall b c, runs code s p q b c | None => p = q end))).
  { intros L' P' st' Ha'. destruct (items !! dflt) as [[g s]|] eqn:Hd.
    - eapply swp_shows; [|apply (proj1 (Forall_lookup _ _) Hs dflt _ Hd js); [done|by intros ?]]. intros lab code p q Hr b c. by apply Hr.
    - apply swp_ret. do 3 (split; [done|]). intros lab code p _. cbn. lia. }
  eapply swp_mono; [|by apply Hdef]. intros rc4 P4 st4 out4 (-> & -> & Ha4 & Hdflt). apply swp_bind, swp_jmp; [in_labels|].
  apply swp_bind. eapply swp_mono; [|apply (branches_ok js (base + n) (base + dflt) items Hs); [done|in_labels]].
  intros rc5 P5 st5 out5 (-> & -> & Ha5 & Hbr). apply swp_bind. eapply swp_emit_label; [reflexivity|].
  apply swp_bind, swp_line; [intros lab; by eexists|]. apply swp_ret. do 3 (split; [done|]). intros lab code p Hpl. cbn [app] in Hpl |- *.
  repeat (rewrite placed_app in Hpl; cbn [placed] in Hpl). destruct Hpl as (Hp2 & Hp3 & Hp4 & Hjmp & Hp5 & Hout & Hpop & _). repeat (rewrite ninstr_app; cbn [ninstr]).
  set (p1 := (p + ninstr out2)%nat) in *. set (p2 := (p1 + ninstr out3)%nat) in *. set (p3 := (p2 + ninstr out4)%nat) in *. set (p4 := (S p3 + ninstr out5)%nat) in *.
  replace (p + (ninstr out2 + (ninstr out3 + (ninstr out4 + S (ninstr out5 + 1)))))%nat with (S p4) by (unfold p4, p3, p2, p1; lia).
  specialize (Hbr lab code (S p3) p4 Hp5 Hout). specialize (Hdflt lab code p2 Hp4). fold p3 in Hdflt.
  assert (Hjump : forall E, transit code W U p3 E [] p4 E []) by (intros E; by eapply jmp_moves).
  apply (loops_case nets swid view W U code type cond items (ivl_expr_width cond) p p1 p2 p4 (S p4) (fun i => default 0%nat (lab (Sym (base + i))))).
  - intros E. split; [by apply (Hval lab)|apply Hwid].
  - intros E v Hv. eapply (Htab lab code p1 _ Hp3); [|done]. intros i g s Hi. destruct (Hguard i g s Hi) as [Hne _]. destruct (Hbr i _ s Hi ltac:(lia)) as (d & -> & _). done.
  - intros i g s Hi. destruct (Hguard i g s Hi) as [Hne _]. destruct (Hbr i _ s Hi ltac:(lia)) as (d & -> & Hr). split; [done|by eapply Hn].
  - fold dflt. destruct (items !! dflt) as [[g s]|] eqn:Hd; [|by rewrite Hdflt]. split; [by exists p3|by eapply Hn].
  - intros E v. by apply (pop_moves nets swid view W U code lab).
Qed.
End Show.
End Code.
