(* ===== verification/StmtMain.v ===== *)
(** * StmtMain: statements keep their meaning in the code

    The theorem on the generator of statements, and where the code of statements does
    not do what it means to. *)

From Stdlib Require Import String Ascii.
From stdpp Require Import gmap relations.
From S2P Require Import Prelude FourState Vector4 Vector4Value Vector4Ops Vector4Arith Vector4Reduce Bits Thread ThreadSpec Machine MachineRun.
From S2P Require Import Codegen EmitWp CodegenAlloc EmitOps ExprSem CodegenNumber CodegenSpec CodegenCond.
From S2P Require Import CodegenMain Signal SignalSpec SignalRun Process ProcessSpec Stmt StmtSem StmtFrag StmtPiece StmtLval StmtLoop StmtWf.
From S2P Require Import StmtCode.
Import Bit4.

Open Scope ivl_scope.

Section Main.
Variables (nets : symbol -> option nat) (swid : nat -> nat) (view : nat -> nat -> vvp_bit4_t).
Variables (thread_count fuel : nat) (W U : gset nat).
Hypothesis nets_inj : forall s1 s2 n, nets (SymNet s1 0) = Some n -> nets (SymNet s2 0) = Some n -> s1 = s2.
Hypothesis design : exists (ns : gmap nat vvp_net_t) (E : senv), forall sig n, nets (SymNet sig 0) = Some n -> exists s, ns !! n = Some s /\ SignalSpec.signal_is (swid sig) s (E sig).
Implicit Types (st : cg) (out : list asm_line) (P L : list symbol) (E : senv) (e : ivl_expr_t) (code : list vvp_code_t) (lab : symbol -> option nat).
Implicit Types (l : bits) (lvals : list ivl_lval_s) (s : ivl_statement_t) (inl : bool) (js : option nat * option nat).

Local Abbreviation swp := (swp nets thread_count).
Local Abbreviation transit := (transit nets swid view).
Local Abbreviation draw := (draw_eval_vec4 thread_count fuel).
Local Abbreviation draw_cond := (draw_eval_condition thread_count fuel).
Local Abbreviation stmt_wf := (stmt_wf nets swid).
Local Abbreviation fits := (fits fuel W U).
Local Abbreviation holds := (holds swid).
Local Abbreviation exec := (exec swid).
Local Abbreviation runs code := (runs nets swid view W U code).
Local Abbreviation loops code := (loops nets swid view W U code).
Local Abbreviation Sym n := (SymCode thread_count n).

Local Abbreviation swf := (swf nets swid).
Local Abbreviation shows := (shows nets W U).
Local Abbreviation stmt_runs := (stmt_runs nets swid view thread_count W U).
Local Abbreviation stmt_ok := (stmt_ok nets swid view thread_count W U).
Local Abbreviation opt_ok := (opt_ok nets swid view thread_count W U).
Local Abbreviation opt_normal := (opt_normal swid).

(** ** All the statements *)

Local Abbreviation show := (show_statement thread_count fuel).















End Main.

(** ** The text, assembled *)



(** Two variables of eight bits, [a] and [b], and a statement on them with loops that
    are left, a repeat, a case and a part that is forced and released. *)
Module StmtSample.
Definition at8 : ivl_attr := Attr IVL_VT_LOGIC 8 false.
Definition number (digits : string) : ivl_expr_t := IVL_EX_NUMBER at8 (list_ascii_of_string digits).
Definition var (i : nat) : ivl_signal_s := Signal i 8 IVL_SIT_REG IVL_VT_LOGIC.
Definition whole (i : nat) : ivl_lval_s := Lval (var i) 8 None.
Definition a : ivl_expr_t := IVL_EX_SIGNAL at8 0.
Definition zero : ivl_expr_t := number "00000000".
Definition one : ivl_expr_t := number "10000000".
Definition assign (i : nat) (e : ivl_expr_t) : ivl_statement_t := IVL_ST_ASSIGN None [whole i] e.
Definition add (l r : ivl_expr_t) : ivl_expr_t := IVL_EX_BINARY at8 B_add l r.


Definition nets (s : symbol) : option nat := match s with SymNet 0 _ => Some 10%nat | SymNet 1 _ => Some 11%nat | _ => None end.
Definition swid (_ : nat) : nat := 8.

(** The variables after the value that they begin with is sent. *)
Definition begun : vvp_net_t :=
  match recv_vec4 (new_variable 8 BIT4_X) 0 (vec4_value (fil (new_variable 8 BIT4_X))) with Some (s, _) => s | None => new_variable 8 BIT4_X end.
Definition start : process_t := Process (<[10%nat := begun]> (<[11%nat := begun]> ∅)) (thread_with []) [].
Definition before : senv := fun _ => SignalRun.initial BIT4_X.




End StmtSample.


(** ** Where the code of statements does not do what it means to *)
Import Bit4 StmtSample.

Open Scope ivl_scope.

(** The code of a statement, run for so many steps on the two variables. *)
Fixpoint go (n : nat) (code : list vvp_code_t) (P : process_t) : process_t :=
  match n with O => P | S n => match process_step false code P with Some (P', true) => go n code P' | _ => P end end.

Definition code_of (s : ivl_statement_t) : list vvp_code_t :=
  match show_statement 0 20 (None, None) s cg_init with Done _ _ out => default [] (assemble nets (out ++ [AsmCode "%noop" []])) | _ => [] end.

(** Variable [n], the program counter and the depth of the stack. *)
Definition seen_at (n : nat) (P : process_t) : list bits * nat * nat :=
  (option_list ((fun s => bits_of (vec4_value (fil s))) <$> nets_ P !! n), pc (thread_ P), length (stack_vec4_ (thread_ P))).

(** [a = 0; repeat (1) begin a = a + 1; case (a) 1: continue; endcase end]: the value
    of the case is left on the stack, where it is taken for the counter of the repeat;
    the body is run twice, and the counter stays on the stack. *)
Definition continue_statement : ivl_statement_t := IVL_ST_BLOCK [assign 0 zero;
  IVL_ST_REPEAT one (IVL_ST_BLOCK [assign 0 (add a one); IVL_ST_CASES IVL_ST_CASE a [(Some one, IVL_ST_CONTINUE)]])].

Lemma continue_in_case : let P := go 500 (code_of continue_statement) start in
  seen_at 10 P = ([digits (list_ascii_of_string "01000000")], length (code_of continue_statement), 1%nat) /\
  ('(E, o) ← exec swid 20 continue_statement before; Some (seen_bits_of 8 (E 0%nat), o)) = Some (digits (list_ascii_of_string "10000000"), Normal).
Proof. vm_compute. split; reflexivity. Qed.

(** [break] leaves it there as well. *)
Lemma break_in_case : let s := IVL_ST_WHILE one (IVL_ST_CASES IVL_ST_CASE one [(Some one, IVL_ST_BREAK)]) in
  length (stack_vec4_ (thread_ (go 500 (code_of s) start))) = 1%nat.
Proof. vm_compute. reflexivity. Qed.

(** An unsigned count with an unknown bit never ends a repeat: the test does not leave
    the loop, and the count stays unknown. *)
Lemma unknown_repeat l : (0 < length l)%nat -> has_unknown l = true -> leaves false l = false /\ has_unknown (one_less l) = true.
Proof.
  intros Hl Hu. split.
  - unfold leaves, order_eq. cbn [andb orb]. unfold eq_bit. set (z := bits_of_Z (length l) 0).
    destruct (some_pair known_differ l z); [done|]. rewrite unknown_pair; [done|by unfold z; rewrite length_bits_of_Z|by rewrite Hu].
  - unfold one_less, arith2. rewrite Hu. cbn [orb arith]. destruct (length l) as [|n]; [lia|]. done.
Qed.

(** A continuous assignment of four bits two places below the variable: bits 2 and 3
    of the value belong to bits 0 and 1 of the variable; the code gives them bits 0
    and 1 of the value.  A blocking assignment gets it right. *)
Definition indexed (op : vm_op) (index : Z) (v : Z) : option (list bits) :=
  handler ← net_handler op;
  '(_, n, _) ← handler (Thr 0 (replicate FLAGS_COUNT BIT4_0) (<[4%nat := u64 index]> (replicate WORDS_COUNT 0)) [vec4_of_Z 4 v] 0) (Code op 0 4 4 0 10) begun;
  Some [bits_of (vec4_value (fil n))].

Lemma cassign_below : indexed OP_CASSIGN_VEC4_OFF (-2) 6 = Some [digits (list_ascii_of_string "01xxxxxx")] /\
  indexed OP_STORE_VEC4 (-2) 6 = Some [digits (list_ascii_of_string "10xxxxxx")].
Proof. vm_compute. split; reflexivity. Qed.

(** A force of a part that is not all in the variable fails an assertion. *)
Lemma force_part_outside : indexed OP_FORCE_VEC4_OFF (-2) 6 = None /\ indexed OP_FORCE_VEC4_OFF 6 6 = None.
Proof. vm_compute. split; reflexivity. Qed.

(** The parts after one with an unknown offset are not released. *)
Lemma unknown_part_ends : let x := number "xxxxxxxx" in
  show_stmt_release [Lval (var 0) 1 (Some x); Lval (var 1) 8 None] cg_init = Done 0%nat cg_init [] /\
  show_stmt_deassign [Lval (var 0) 1 (Some x); Lval (var 1) 8 None] cg_init = Done 0%nat cg_init [].
Proof. split; reflexivity. Qed.
