(* ===== verification/Udp.v ===== *)
(** * Udp: user-defined primitives (vvp/udp.h, vvp/udp.cc)

    The definition of a primitive - its table of rows, compiled into masks - and
    the functor of an instance.  A row is the list of the characters of its string
    without the terminator.  The arrays of compiled rows have the capacity that the
    first pass over the table counts; a write beyond it is [None], like a failed
    assertion.  The table of the names of definitions is not modelled. *)

From Stdlib Require Import Ascii String.
From S2P Require Import Prelude FourState Vector4 Vector4Ops.
Import Bit4.

Open Scope ivl_scope.
Open Scope char_scope.
Open Scope Z_scope.

#[export] Instance udp_char_dec : EqDecision ascii := ascii_dec.

(** [1 << n] for an [int]: 31 makes the sign bit, which the conversion to
    [unsigned long] extends; what a larger shift gives is up to the machine. *)
Class IntShift := { int_shl_beyond : nat -> Z }.

Section Udp.
Context `{IntShift}.

Definition int_one_shl (n : nat) : Z :=
  if (n <? 31)%nat then Z.shiftl 1 (Z.of_nat n)
  else if (n =? 31)%nat then u64 (- 2 ^ 31)
  else int_shl_beyond n.

(** [1UL << n] *)
Definition bit_mask (n : nat) : Z := 1 << n.

Record udp_levels_table := Levels { mask0 : Z; mask1 : Z; maskx : Z }.

(** [cur.mask0 |= mask_bit;] and so on *)
Definition or_mask0 (cur : udp_levels_table) (m : Z) : udp_levels_table := Levels (mask0 cur .| m) (mask1 cur) (maskx cur).
Definition or_mask1 (cur : udp_levels_table) (m : Z) : udp_levels_table := Levels (mask0 cur) (mask1 cur .| m) (maskx cur).
Definition or_maskx (cur : udp_levels_table) (m : Z) : udp_levels_table := Levels (mask0 cur) (mask1 cur) (maskx cur .| m).

Definition no_levels : udp_levels_table := Levels 0 0 0.

Definition or_based_on_char (cur : udp_levels_table) (flag : ascii) (mask_bit : Z) : option udp_levels_table :=
  match flag with
  | "0" => Some (or_mask0 cur mask_bit)
  | "1" => Some (or_mask1 cur mask_bit)
  | "x" => Some (or_maskx cur mask_bit)
  | "b" => Some (or_mask1 (or_mask0 cur mask_bit) mask_bit)
  | "l" => Some (or_maskx (or_mask0 cur mask_bit) mask_bit)
  | "h" => Some (or_mask1 (or_maskx cur mask_bit) mask_bit)
  | "?" => Some (or_mask1 (or_maskx (or_mask0 cur mask_bit) mask_bit) mask_bit)
  | _ => None
  end.

(** The three masks are [edge_levels]; [edge_position] has 8 bits. *)
Record udp_edges_table := Edges {
  edge_position : nat; edge_mask0 : bool; edge_mask1 : bool; edge_maskx : bool;
  edge_levels : udp_levels_table }.

Definition no_edges : udp_edges_table := Edges 0 false false false no_levels.

(** The masks of the final value, the position, and the masks of the initial value. *)
Definition set_edge (lev : udp_levels_table) (pos : nat) (m0 mx m1 : bool) : udp_edges_table :=
  Edges (pos mod 256) m0 m1 mx lev.

Definition edge_based_on_char (cur : udp_edges_table) (chr : ascii) (pos : nat) : option udp_edges_table :=
  let mask_bit := bit_mask pos in
  let lev := edge_levels cur in
  let level l := Some (Edges (edge_position cur) (edge_mask0 cur) (edge_mask1 cur) (edge_maskx cur) l) in
  match chr with
  | "0" => level (or_mask0 lev mask_bit)
  | "1" => level (or_mask1 lev mask_bit)
  | "x" => level (or_maskx lev mask_bit)
  | "b" => level (or_mask1 (or_mask0 lev mask_bit) mask_bit)
  | "l" => level (or_maskx (or_mask0 lev mask_bit) mask_bit)
  | "h" => level (or_mask1 (or_maskx lev mask_bit) mask_bit)
  | "?" => level (or_mask1 (or_maskx (or_mask0 lev mask_bit) mask_bit) mask_bit)
  | "B" => Some (set_edge (or_mask1 (or_mask0 lev mask_bit) mask_bit) pos false true false)
  | "f" => Some (set_edge (or_mask0 lev mask_bit) pos false false true)
  | "F" => Some (set_edge (or_mask0 lev mask_bit) pos false true false)
  | "M" => Some (set_edge (or_maskx lev mask_bit) pos false false true)
  | "N" => Some (set_edge (or_maskx (or_mask0 lev mask_bit) mask_bit) pos false false true)
  | "P" => Some (set_edge (or_mask1 (or_maskx lev mask_bit) mask_bit) pos true false false)
  | "q" => Some (set_edge (or_maskx lev mask_bit) pos true false true)
  | "Q" => Some (set_edge (or_maskx lev mask_bit) pos true false false)
  | "r" => Some (set_edge (or_mask1 lev mask_bit) pos true false false)
  | "R" => Some (set_edge (or_mask1 lev mask_bit) pos false true false)
  | "%" => Some (set_edge (or_maskx lev mask_bit) pos true false true)
  | "+" => Some (set_edge (or_mask1 lev mask_bit) pos true true false)
  | "_" => Some (set_edge (or_mask0 lev mask_bit) pos false true true)
  | _ => None
  end.

(** The row [row] of a table matches: [cur.mask == (cur.mask & row.mask)] three times. *)
Definition levels_match (cur row : udp_levels_table) : bool :=
  (mask0 cur =? mask0 cur .& mask0 row) && (mask1 cur =? mask1 cur .& mask1 row) && (maskx cur =? maskx cur .& maskx row).

(** [operator == (const udp_levels_table&a, const udp_levels_table&b)] *)
Definition levels_eqb (a b : udp_levels_table) : bool :=
  (mask0 a =? mask0 b) && (mask1 a =? mask1 b) && (maskx a =? maskx b).

(** ** Strings *)

(** [row[k]]; the string ends with a 0. *)
Definition char_at (row : list ascii) (k : nat) : ascii := default zero (row !! k).

(** [strspn(row, accept)] and [strchr(row, c)] *)
Fixpoint strspn (row accept : list ascii) : nat :=
  match row with
  | [] => 0
  | c :: row' => if existsb (fun a => bool_decide (a = c)) accept then S (strspn row' accept) else 0
  end.
Definition strchr (row : list ascii) (c : ascii) : bool := existsb (fun a => bool_decide (a = c)) row.

(** ** Combinational primitives *)

Record vvp_udp_comb_s := UdpComb {
  comb_ports : nat;
  comb_levels0 : list udp_levels_table;
  comb_levels1 : list udp_levels_table }.

(** The first pass of [vvp_udp_comb_s::compile_table]: rows for 0 and for 1. *)
Definition count_comb (ports : nat) (n : option (nat * nat)) (row : list ascii) : option (nat * nat) :=
  '(nrows0, nrows1) ← n;
  if (length row =? ports + 1)%nat then
    match char_at row ports with
    | "0" => Some (S nrows0, nrows1)
    | "1" => Some (nrows0, S nrows1)
    | "x" => Some (nrows0, nrows1)
    | _ => None
    end
  else None.

(** The masks of a row: the character of port [pp] is at [pp + skip]. *)
Definition row_levels (ports skip : nat) (row : list ascii) : option udp_levels_table :=
  for_loop ports 0 (fun pp cur => cur ← cur; or_based_on_char cur (char_at row (pp + skip)) (bit_mask pp)) (Some no_levels).

(** [arr[n++] = x] in an array of [cap] elements, of which [arr] are written. *)
Definition store {A} (cap : nat) (arr : list A) (x : A) : option (list A) :=
  if (length arr <? cap)%nat then Some (arr ++ [x])%list else None.

Definition fill_comb (ports nlevels0 nlevels1 : nat) (t : option (list udp_levels_table * list udp_levels_table)) (row : list ascii) :
    option (list udp_levels_table * list udp_levels_table) :=
  '(levels0, levels1) ← t;
  if (64 <? ports)%nat then None else
  cur ← row_levels ports 0 row;
  match char_at row ports with
  | "0" => levels0 ← store nlevels0 levels0 cur; Some (levels0, levels1)
  | "1" => levels1 ← store nlevels1 levels1 cur; Some (levels0, levels1)
  | _ => Some (levels0, levels1)
  end.

(** [vvp_udp_comb_s::compile_table] *)
Definition compile_table_comb (ports : nat) (tab : list (list ascii)) : option vvp_udp_comb_s :=
  '(nlevels0, nlevels1) ← fold_left (count_comb ports) tab (Some (0, 0)%nat);
  '(levels0, levels1) ← fold_left (fill_comb ports nlevels0 nlevels1) tab (Some ([], []));
  if (length levels0 =? nlevels0)%nat && (length levels1 =? nlevels1)%nat then Some (UdpComb ports levels0 levels1) else None.

(** [vvp_udp_comb_s::test_levels] *)
Definition test_levels (u : vvp_udp_comb_s) (cur : udp_levels_table) : vvp_bit4_t :=
  if existsb (levels_match cur) (comb_levels0 u) then BIT4_0
  else if existsb (levels_match cur) (comb_levels1 u) then BIT4_1
  else BIT4_X.

(** ** Sequential primitives *)

(** One array per output column: 0, 1, x and - (the edge tables have none for x). *)
Inductive udp_out := Out0 | Out1 | OutX | OutL.

#[export] Instance udp_out_dec : EqDecision udp_out.
Proof. solve_decision. Defined.

Definition outs (A : Type) : Type := udp_out -> A.

(** Replace one of the four members. *)
Definition set_out {A} (t : outs A) (o : udp_out) (x : A) : outs A := fun o' => if decide (o' = o) then x else t o'.

(** The counters and the arrays before the first row. *)
Definition no_rows : outs nat := fun _ => 0%nat.
Definition empty_rows {A} : outs (list A) := fun _ => [].

Definition out_of_char (c : ascii) : option udp_out :=
  match c with "0" => Some Out0 | "1" => Some Out1 | "x" => Some OutX | "-" => Some OutL | _ => None end.

Record vvp_udp_seq_s := UdpSeq {
  seq_ports : nat;
  seq_init : vvp_bit4_t;
  seq_levels : outs (list udp_levels_table);
  seq_edges : outs (list udp_edges_table) }.

Definition level_chars : list ascii := ["0"; "1"; "x"; "b"; "l"; "h"; "?"].

(** [strspn(row, "01xblh?") >= port_count()+1] *)
Definition is_level_row (ports : nat) (row : list ascii) : bool := (ports + 1 <=? strspn row level_chars)%nat.

(** The first pass of [vvp_udp_seq_s::compile_table]: [nlevels?_] and [nedges?_]. *)
Definition count_seq (ports : nat) (n : option (outs nat * outs nat)) (row : list ascii) : option (outs nat * outs nat) :=
  '(nlevels, nedges) ← n;
  if (length row =? ports + 2)%nat then
    o ← out_of_char (char_at row (ports + 1));
    if is_level_row ports row then Some (set_out nlevels o (S (nlevels o)), nedges)
    else
      let extra := 0%nat in
      let extra := if strchr row "n" then 1%nat else extra in
      let extra := if strchr row "p" then 1%nat else extra in
      let extra := if strchr row "*" then 2%nat else extra in
      match o with
      | OutX => Some (nlevels, nedges)
      | _ => Some (nlevels, set_out nedges o (nedges o + (1 + extra)))%nat
      end
  else None.

(** [cur], [ext0], [ext1] and [need_ext0_table], [need_ext1_table] *)
Record edge_rows := EdgeRows {
  er_cur : udp_edges_table; er_ext0 : udp_edges_table; er_ext1 : udp_edges_table; need_ext0 : bool; need_ext1 : bool }.

(** The body of the loop over the ports of a row with an edge. *)
Definition edge_row_port (row : list ascii) (pp : nat) (t : option edge_rows) : option edge_rows :=
  t ← t;
  match char_at row (pp + 1) with
  | "n" =>
    cur ← edge_based_on_char (er_cur t) "N" pp;
    ext0 ← edge_based_on_char (er_ext0 t) "_" pp;
    Some (EdgeRows cur ext0 (er_ext1 t) true (need_ext1 t))
  | "p" =>
    cur ← edge_based_on_char (er_cur t) "P" pp;
    ext0 ← edge_based_on_char (er_ext0 t) "+" pp;
    Some (EdgeRows cur ext0 (er_ext1 t) true (need_ext1 t))
  | "*" =>
    cur ← edge_based_on_char (er_cur t) "P" pp;
    ext0 ← edge_based_on_char (er_ext0 t) "N" pp;
    ext1 ← edge_based_on_char (er_ext1 t) "B" pp;
    Some (EdgeRows cur ext0 ext1 true true)
  | c =>
    cur ← edge_based_on_char (er_cur t) c pp;
    ext0 ← edge_based_on_char (er_ext0 t) c pp;
    ext1 ← edge_based_on_char (er_ext1 t) c pp;
    Some (EdgeRows cur ext0 ext1 (need_ext0 t) (need_ext1 t))
  end.

Definition edge_row (ports : nat) (row : list ascii) : option edge_rows :=
  t ← for_loop ports 0 (edge_row_port row) (Some (EdgeRows no_edges no_edges no_edges false false));
  cur ← edge_based_on_char (er_cur t) (char_at row 0) ports;
  ext0 ← edge_based_on_char (er_ext0 t) (char_at row 0) ports;
  ext1 ← edge_based_on_char (er_ext1 t) (char_at row 0) ports;
  Some (EdgeRows cur ext0 ext1 (need_ext0 t) (need_ext1 t)).

(** [edges[idx++] = cur; if (need_ext0_table) edges[idx++] = ext0; if (need_ext1_table) ...] *)
Definition store_edges (cap : nat) (arr : list udp_edges_table) (t : edge_rows) : option (list udp_edges_table) :=
  arr ← store cap arr (er_cur t);
  arr ← (if need_ext0 t then store cap arr (er_ext0 t) else Some arr);
  if need_ext1 t then store cap arr (er_ext1 t) else Some arr.

(** The second pass. *)
Definition fill_seq (ports : nat) (nlevels nedges : outs nat) (t : option (outs (list udp_levels_table) * outs (list udp_edges_table))) (row : list ascii) : option (outs (list udp_levels_table) * outs (list udp_edges_table)) :=
  '(levels, edges) ← t;
  if is_level_row ports row then
    cur ← row_levels ports 1 row;
    cur ← or_based_on_char cur (char_at row 0) (bit_mask ports);
    o ← out_of_char (char_at row (ports + 1));
    arr ← store (nlevels o) (levels o) cur;
    Some (set_out levels o arr, edges)
  else
    rows ← edge_row ports row;
    o ← out_of_char (char_at row (ports + 1));
    match o with
    | OutX => Some (levels, edges)
    | _ => arr ← store_edges (nedges o) (edges o) rows; Some (levels, set_out edges o arr)
    end.

(** [vvp_udp_seq_s::compile_table] *)
Definition compile_table_seq (ports : nat) (init : vvp_bit4_t) (tab : list (list ascii)) : option vvp_udp_seq_s :=
  '(nlevels, nedges) ← fold_left (count_seq ports) tab (Some (no_rows, no_rows));
  '(levels, edges) ← fold_left (fill_seq ports nlevels nedges) tab (Some (empty_rows, empty_rows));
  if (length (edges Out0) =? nedges Out0)%nat && (length (edges Out1) =? nedges Out1)%nat
     && (length (edges OutL) =? nedges OutL)%nat
  then Some (UdpSeq ports init levels edges) else None.

(** The current output, read back from the bit [port_count()] of the masks. *)
Definition current_output (ports : nat) (cur : udp_levels_table) : option vvp_bit4_t :=
  if negb (mask0 cur .& int_one_shl ports =? 0) then Some BIT4_0
  else if negb (mask1 cur .& int_one_shl ports =? 0) then Some BIT4_1
  else if negb (maskx cur .& int_one_shl ports =? 0) then Some BIT4_X
  else None.

(** [vvp_udp_seq_s::test_levels_] *)
Definition test_levels_ (u : vvp_udp_seq_s) (cur : udp_levels_table) : option vvp_bit4_t :=
  if existsb (levels_match cur) (seq_levels u Out0) then Some BIT4_0
  else if existsb (levels_match cur) (seq_levels u Out1) then Some BIT4_1
  else if existsb (levels_match cur) (seq_levels u OutX) then Some BIT4_X
  else if existsb (levels_match cur) (seq_levels u OutL) then current_output (seq_ports u) cur
  else Some BIT4_Z.

(** [while ((edge_mask&1) == 0) { edge_mask >>= 1; edge_position += 1; }], with what
    is left of the mask; the mask is not 0, so that 64 rounds are enough. *)
Fixpoint find_edge (fuel : nat) (edge_mask : Z) (edge_position : nat) : Z * nat :=
  match fuel with
  | O => (edge_mask, edge_position)
  | S fuel' =>
    if edge_mask .& 1 =? 0 then find_edge fuel' (edge_mask >> 1) (S edge_position) else (edge_mask, edge_position)
  end.

(** One row of an edge table is tested. *)
Definition edge_match (cur : udp_levels_table) (pos : nat) (m0 mx m1 : bool) (row : udp_edges_table) : bool :=
  if negb (edge_position row =? pos)%nat then false
  else if m0 && negb (edge_mask0 row) then false
  else if mx && negb (edge_maskx row) then false
  else if m1 && negb (edge_mask1 row) then false
  else levels_match cur (edge_levels row).

(** [vvp_udp_seq_s::test_edges_] *)
Definition test_edges_ (u : vvp_udp_seq_s) (cur prev : udp_levels_table) : option vvp_bit4_t :=
  let edge_mask := (mask0 cur .^ mask0 prev) .| (maskx cur .^ maskx prev) .| (mask1 cur .^ mask1 prev) in
  let edge_mask := edge_mask .& .~ (ones64 << seq_ports u) in
  if edge_mask =? 0 then Some BIT4_X
  else
    let '(rest, pos) := find_edge 64 edge_mask 0 in
    if rest =? 1 then
      let edge_mask := bit_mask pos in
      let m0 := negb (mask0 prev .& edge_mask =? 0) in
      let mx := negb (maskx prev .& edge_mask =? 0) in
      let m1 := negb (mask1 prev .& edge_mask =? 0) in
      if existsb (edge_match cur pos m0 mx m1) (seq_edges u Out0) then Some BIT4_0
      else if existsb (edge_match cur pos m0 mx m1) (seq_edges u Out1) then Some BIT4_1
      else if existsb (edge_match cur pos m0 mx m1) (seq_edges u OutL) then current_output (seq_ports u) cur
      else Some BIT4_X
    else None.

(** [vvp_udp_seq_s::calculate_output] *)
Definition calculate_output_seq (u : vvp_udp_seq_s) (cur prev : udp_levels_table) (cur_out : vvp_bit4_t) : option vvp_bit4_t :=
  if levels_eqb cur prev then Some cur_out
  else
    let mask_out := bit_mask (seq_ports u) in
    let cur_tmp := match cur_out with BIT4_0 => or_mask0 cur mask_out | BIT4_1 => or_mask1 cur mask_out | _ => or_maskx cur mask_out end in
    lev ← test_levels_ u cur_tmp;
    if decide (lev = BIT4_Z) then test_edges_ u cur_tmp prev else Some lev.

(** ** Definitions of both kinds, and instances *)

Inductive vvp_udp_s := Comb (u : vvp_udp_comb_s) | Seq (u : vvp_udp_seq_s).

Definition port_count (d : vvp_udp_s) : nat := match d with Comb u => comb_ports u | Seq u => seq_ports u end.

Definition get_init (d : vvp_udp_s) : vvp_bit4_t := match d with Comb _ => BIT4_X | Seq u => seq_init u end.

Definition calculate_output (d : vvp_udp_s) (cur prev : udp_levels_table) (cur_out : vvp_bit4_t) : option vvp_bit4_t :=
  match d with
  | Comb u => Some (test_levels u cur)
  | Seq u => calculate_output_seq u cur prev cur_out
  end.

(** [compile_udp_def]: the definition for a row of the source of [vvp]. *)
Definition compile_udp_def (sequ : bool) (nin init : nat) (table : list (list ascii)) : option vvp_udp_s :=
  if sequ then
    let init4 := if (init =? 0)%nat then BIT4_0 else if (init =? 1)%nat then BIT4_1 else BIT4_X in
    u ← compile_table_seq nin init4 table; Some (Seq u)
  else u ← compile_table_comb nin table; Some (Comb u).

(** What an instance asks of the scheduler and of its node. *)
Inductive udp_act := ScheduleGeneric | ScheduleFunctor | Propagate (bit : vvp_vector4_t).

(** [vvp_udp_fun_core], with the values of its ports; what was asked is [acts]. *)
Record vvp_udp_fun_core := UdpCore {
  def_ : vvp_udp_s; cur_out_ : vvp_bit4_t; current_ : udp_levels_table; port_values_ : list vvp_vector4_t; acts : list udp_act }.

(** The constructor. *)
Definition udp_fun_core (def : vvp_udp_s) : vvp_udp_fun_core :=
  let cur_out := get_init def in
  UdpCore def cur_out (Levels 0 0 (.~ (ones64 << port_count def))) (replicate (port_count def) (vec4_fill 0 BIT4_X))
    [if bool_decide (cur_out <> BIT4_X) then ScheduleGeneric else ScheduleFunctor].

(** [run_run]: propagate the output. *)
Definition udp_run_run (c : vvp_udp_fun_core) : vvp_udp_fun_core :=
  let tmp := set_bit (vec4_fill 1 BIT4_X) 0 (cur_out_ c) in
  UdpCore (def_ c) (cur_out_ c) (current_ c) (port_values_ c) (acts c ++ [Propagate tmp]).

(** [recv_vec4_from_inputs] *)
Definition recv_vec4_from_inputs (c : vvp_udp_fun_core) (port : nat) : option vvp_udp_fun_core :=
  v ← port_values_ c !! port;
  if (size v =? 1)%nat then
    let mask := bit_mask port in
    let prev := current_ c in
    let current := match value v 0 with
      | BIT4_0 => Levels (mask0 prev .| mask) (mask1 prev .& .~ mask) (maskx prev .& .~ mask)
      | BIT4_1 => Levels (mask0 prev .& .~ mask) (mask1 prev .| mask) (maskx prev .& .~ mask)
      | _ => Levels (mask0 prev .& .~ mask) (mask1 prev .& .~ mask) (maskx prev .| mask)
      end in
    out_bit ← calculate_output (def_ c) current prev (cur_out_ c);
    if decide (out_bit = cur_out_ c) then Some (UdpCore (def_ c) (cur_out_ c) current (port_values_ c) (acts c))
    else Some (UdpCore (def_ c) out_bit current (port_values_ c) (acts c ++ [ScheduleFunctor]))
  else None.

(** [vvp_wide_fun_core::dispatch_vec4_from_input_] *)
Definition dispatch_vec4_from_input_ (c : vvp_udp_fun_core) (port : nat) (bit : vvp_vector4_t) : option vvp_udp_fun_core :=
  if (port <? length (port_values_ c))%nat then
    recv_vec4_from_inputs (UdpCore (def_ c) (cur_out_ c) (current_ c) (<[port := bit]> (port_values_ c)) (acts c)) port
  else None.

End Udp.
