(* ===== verification/UdpSpec.v ===== *)
(** * UdpSpec: what a primitive computes, read off the characters of its table

    [comb_spec] and [seq_spec] look at the rows as they were written; the theorem
    says that the compiled masks, and the instance that keeps its inputs as masks,
    compute the same: first the masks of a row, the capacity of the arrays, and what
    is in them. *)

From Stdlib Require Import Ascii String.
From S2P Require Import Prelude FourState Vector4 Vector4Value Vector4Ops Udp.
Import Bit4.

Open Scope ivl_scope.
Open Scope char_scope.
Open Scope Z_scope.

(** ** The meaning of the characters; z counts as x *)

Definition is0 (b : vvp_bit4_t) : bool := bool_decide (b = BIT4_0).
Definition is1 (b : vvp_bit4_t) : bool := bool_decide (b = BIT4_1).
Definition isx (b : vvp_bit4_t) : bool := bit4_is_xz b.

(** A character for a level, and a value. *)
Definition level_ok (c : ascii) (b : vvp_bit4_t) : bool :=
  match c with
  | "0" => is0 b | "1" => is1 b | "x" => isx b
  | "b" => is0 b || is1 b | "l" => is0 b || isx b | "h" => isx b || is1 b
  | "?" => true | _ => false
  end.

(** A character for an edge, and the change of a value. *)
Definition edge_ok (c : ascii) (from to : vvp_bit4_t) : bool :=
  match c with
  | "f" => is1 from && is0 to
  | "r" => is0 from && is1 to
  | "F" => isx from && is0 to
  | "R" => isx from && is1 to
  | "M" => is1 from && isx to
  | "Q" => is0 from && isx to
  | "q" => (is0 from || is1 from) && isx to
  | "B" => isx from && (is0 to || is1 to)
  | "N" => is1 from && (is0 to || isx to)
  | "P" => is0 from && (is1 to || isx to)
  | "%" => negb (isx from) && isx to
  | "+" => negb (is1 from) && is1 to
  | "_" => negb (is0 from) && is0 to
  | "n" => (is1 from && negb (is1 to)) || (isx from && is0 to)
  | "p" => (is0 from && negb (is0 to)) || (isx from && is1 to)
  | "*" => negb (bool_decide (bit4_z2x from = bit4_z2x to))
  | _ => false
  end.

Definition edge_chars : list ascii :=
  ["f"; "r"; "F"; "R"; "M"; "Q"; "q"; "B"; "N"; "P"; "%"; "+"; "_"; "n"; "p"; "*"].

(** ** Rows and tables *)

Definition in_at (l : list vvp_bit4_t) (i : nat) : vvp_bit4_t := default BIT4_X (l !! i).

(** The value [b] is 0, 1 or x as [c] is. *)
Definition same3 (b c : vvp_bit4_t) : bool := bool_decide (bit4_z2x b = bit4_z2x c).

Definition all_ports (n : nat) (f : nat -> bool) : bool := forallb f (seq 0 n).

Definition comb_row_fires (n : nat) (ins : list vvp_bit4_t) (row : list ascii) : bool :=
  all_ports n (fun i => level_ok (char_at row i) (in_at ins i)).

Definition comb_spec (n : nat) (tab : list (list ascii)) (ins : list vvp_bit4_t) : vvp_bit4_t :=
  let fires c := existsb (fun row => bool_decide (char_at row n = c) && comb_row_fires n ins row) tab in
  if fires "0" then BIT4_0 else if fires "1" then BIT4_1 else BIT4_X.

Definition level_row_fires (n : nat) (ins : list vvp_bit4_t) (out : vvp_bit4_t) (row : list ascii) : bool :=
  level_ok (char_at row 0) out && all_ports n (fun i => level_ok (char_at row (i + 1)) (in_at ins i)).

(** A row with an edge: the port with the edge changed in that way, the others have their levels. *)
Definition edge_row_fires (n : nat) (prev ins : list vvp_bit4_t) (out : vvp_bit4_t) (row : list ascii) : bool :=
  level_ok (char_at row 0) out &&
  all_ports n (fun i =>
    let c := char_at row (i + 1) in
    if decide (c ∈ edge_chars) then edge_ok c (in_at prev i) (in_at ins i) else level_ok c (in_at ins i)).

(** Some row of levels, some row with an edge, with the next output [c]. *)
Definition level_fires (n : nat) (tab : list (list ascii)) (ins : list vvp_bit4_t) (out : vvp_bit4_t) (c : ascii) : bool :=
  existsb (fun row => bool_decide (char_at row (n + 1) = c) && is_level_row n row && level_row_fires n ins out row) tab.
Definition edge_fires (n : nat) (tab : list (list ascii)) (prev ins : list vvp_bit4_t) (out : vvp_bit4_t) (c : ascii) : bool :=
  existsb (fun row => bool_decide (char_at row (n + 1) = c) && negb (is_level_row n row) && edge_row_fires n prev ins out row) tab.

(** No change of the inputs keeps the output; rows of levels come before rows with
    edges; without a row the output is x. *)
Definition seq_spec (n : nat) (tab : list (list ascii)) (prev ins : list vvp_bit4_t) (out : vvp_bit4_t) : vvp_bit4_t :=
  let lev := level_fires n tab ins out in
  let edg := edge_fires n tab prev ins out in
  if all_ports n (fun i => same3 (in_at ins i) (in_at prev i)) then out
  else if lev "0" then BIT4_0 else if lev "1" then BIT4_1 else if lev "x" then BIT4_X else if lev "-" then out
  else if edg "0" then BIT4_0 else if edg "1" then BIT4_1 else if edg "-" then out
  else BIT4_X.

(** The rows that the compiler of primitives writes. *)
Definition comb_row_wf (n : nat) (row : list ascii) : Prop :=
  length row = (n + 1)%nat /\ (forall i, (i < n)%nat -> char_at row i ∈ level_chars) /\ char_at row n ∈ ["0"; "1"; "x"].

Definition edge_at (n : nat) (row : list ascii) (p : nat) : Prop :=
  (p < n)%nat /\ char_at row (p + 1) ∈ edge_chars /\
  forall i, (i < n)%nat -> i <> p -> char_at row (i + 1) ∈ level_chars.

Definition seq_row_wf (n : nat) (row : list ascii) : Prop :=
  length row = (n + 2)%nat /\ char_at row 0 ∈ level_chars /\ char_at row (n + 1) ∈ ["0"; "1"; "x"; "-"] /\
  ((forall i, (i < n)%nat -> char_at row (i + 1) ∈ level_chars) \/ exists p, edge_at n row p).

(** ** Masks *)

(** The masks that have at each port the values of a set. *)
Definition masks (n : nat) (s : nat -> vvp_bit4_t -> bool) : udp_levels_table :=
  Levels (Zbits (fun i => s i BIT4_0) n) (Zbits (fun i => s i BIT4_1) n) (Zbits (fun i => s i BIT4_X) n).

(** The masks of a vector of inputs. *)
Definition levels_of (n : nat) (l : list vvp_bit4_t) : udp_levels_table := masks n (fun i => same3 (in_at l i)).

Lemma masks_ext n s s' : (forall i b, (i < n)%nat -> s i b = s' i b) -> masks n s = masks n s'.
Proof. intros E. unfold masks. f_equal; apply Zbits_ext; auto. Qed.

Lemma bit_mask_pow n : (n < 64)%nat -> bit_mask n = 2 ^ Z.of_nat n.
Proof.
  intros. unfold bit_mask, shl64. rewrite Z.shiftl_1_l. apply u64_small. split.
  - apply Z.pow_nonneg. lia.
  - apply Z.pow_lt_mono_r; lia.
Qed.

Lemma bit_mask_bit n i : (n < 64)%nat -> 0 <= i -> Z.testbit (bit_mask n) i = (i =? Z.of_nat n).
Proof. intros. rewrite bit_mask_pow by done. rewrite Z.pow2_bits_eqb by lia. by rewrite Z.eqb_sym. Qed.

Lemma lor_top f n (b : bool) : (n < 64)%nat ->
  Zbits f n .| (if b then bit_mask n else 0) = Zbits f n + Z.b2z b * 2 ^ Z.of_nat n.
Proof.
  intros. apply Z.bits_inj'. intros i Hi.
  rewrite Z.lor_spec, testbit_add_high by (try apply Zbits_range; lia). rewrite Zbits_testbit by lia.
  destruct b; [rewrite bit_mask_bit by lia|rewrite Z.bits_0]; rewrite testbit_b2z; split_ltb; try lia; btauto.
Qed.

Lemma lor_top1 f n : (n < 64)%nat -> Zbits f n .| bit_mask n = Zbits f n + 1 * 2 ^ Z.of_nat n.
Proof. intros H. exact (lor_top f n true H). Qed.

(** [a == (a & b)] when every bit of [a] is one of [b]. *)
Lemma subset_bits f g n : (Zbits f n =? Zbits f n .& Zbits g n) = all_ports n (fun i => implb (f i) (g i)).
Proof.
  apply eq_true_iff_eq. unfold all_ports. rewrite Z.eqb_eq, forallb_forall. split.
  - intros E i Hi%in_seq. apply (f_equal (fun z => Z.testbit z (Z.of_nat i))) in E.
    rewrite Z.land_spec, !Zbits_testbit, !Nat2Z.id in E by lia.
    replace (Z.of_nat i <? Z.of_nat n) with true in E by (symmetry; apply Z.ltb_lt; lia).
    destruct (f i), (g i); done.
  - intros E. apply Z.bits_inj'. intros i Hi. rewrite Z.land_spec, !Zbits_testbit by lia.
    destruct (Z.ltb_spec i (Z.of_nat n)); [|done]. cbn.
    specialize (E (Z.to_nat i)). rewrite in_seq in E. specialize (E ltac:(lia)).
    destruct (f (Z.to_nat i)), (g (Z.to_nat i)); done.
Qed.

Lemma all_ports_and n f g : all_ports n f && all_ports n g = all_ports n (fun i => f i && g i).
Proof. unfold all_ports. induction (seq 0 n) as [|i l IH]; [done|]. cbn. rewrite <- IH. btauto. Qed.

Lemma all_ports_ext n f g : (forall i, (i < n)%nat -> f i = g i) -> all_ports n f = all_ports n g.
Proof. intros E. apply forallb_ext_in. intros i Hi%in_seq. apply E. lia. Qed.

(** A row matches when each input is in the set of its port. *)
Definition z_as_x (s : vvp_bit4_t -> bool) : Prop := forall b, s b = s (bit4_z2x b).

Lemma levels_match_masks n l s : (forall i, (i < n)%nat -> z_as_x (s i)) ->
  levels_match (levels_of n l) (masks n s) = all_ports n (fun i => s i (in_at l i)).
Proof.
  intros Hs. unfold levels_match. cbn. rewrite !subset_bits, !all_ports_and.
  apply all_ports_ext. intros i Hi. rewrite (Hs i Hi (in_at l i)).
  destruct (in_at l i); vm_compute; by destruct (s i _).
Qed.

Lemma all_ports_S n f : all_ports (S n) f = all_ports n f && f n.
Proof. unfold all_ports. rewrite seq_S, forallb_app. cbn. btauto. Qed.

(** Inputs and the current output together. *)
Lemma levels_of_out n l out : length l = n ->
  levels_of (S n) (l ++ [out]) = masks (S n) (fun i => same3 (if (i <? n)%nat then in_at l i else out)).
Proof.
  intros Hn. apply masks_ext. intros i b Hi. f_equal. unfold in_at. destruct (Nat.ltb_spec i n).
  - by rewrite lookup_app_l by lia.
  - rewrite lookup_app_r by lia. replace (i - length l)%nat with 0%nat by lia. done.
Qed.

Lemma in_at_app_l l l' i : (i < length l)%nat -> in_at (l ++ l') i = in_at l i.
Proof. intros. unfold in_at. by rewrite lookup_app_l. Qed.

Lemma in_at_end l b : in_at (l ++ [b]) (length l) = b.
Proof. unfold in_at. by rewrite list_lookup_middle. Qed.

(** ** Compiled tables *)

(** Cases on a character of a list. *)
Ltac char_cases H :=
  repeat (apply elem_of_cons in H as [->|H]); [..|exfalso; revert H; apply not_elem_of_nil].

(** ** One character *)

Lemma masks_S n s : masks (S n) s =
  Levels (mask0 (masks n s) + Z.b2z (s n BIT4_0) * 2 ^ Z.of_nat n) (mask1 (masks n s) + Z.b2z (s n BIT4_1) * 2 ^ Z.of_nat n)
    (maskx (masks n s) + Z.b2z (s n BIT4_X) * 2 ^ Z.of_nat n).
Proof. done. Qed.

Lemma or_char n s c : (n < 64)%nat -> c ∈ level_chars -> (forall b, s n b = level_ok c b) ->
  or_based_on_char (masks n s) c (bit_mask n) = Some (masks (S n) s).
Proof.
  intros Hn Hc Hs. rewrite masks_S, !Hs. unfold masks, level_chars in *.
  char_cases Hc; cbn -[Z.pow Z.of_nat Z.mul bit_mask Zbits]; unfold or_mask0, or_mask1, or_maskx;
    cbn -[Z.pow Z.of_nat Z.mul bit_mask Zbits]; rewrite ?lor_top1 by done; rewrite ?Z.add_0_r; done.
Qed.

Lemma level_ok_z c : z_as_x (level_ok c).
Proof. intros []; unfold level_ok; repeat case_match; done. Qed.

(** The masks of [n] ports, the characters at [k + skip]. *)
Lemma row_levels_masks n skip row s : (n <= 64)%nat ->
  (forall i, (i < n)%nat -> char_at row (i + skip) ∈ level_chars) ->
  (forall i b, (i < n)%nat -> s i b = level_ok (char_at row (i + skip)) b) ->
  row_levels n skip row = Some (masks n s).
Proof.
  intros Hn Hc Hs. unfold row_levels.
  apply (for_loop_ind (fun i t => (i <= n)%nat -> t = Some (masks i s))); [done| |lia].
  intros i t Hi IH _. rewrite IH by lia. cbn. apply or_char; [lia|apply Hc; lia|]. intros b. apply Hs. lia.
Qed.

(** ** Edges *)

(** What the code makes of a character with an edge: up to three rows, of which
    [cur_char] is always there. *)
Definition cur_char (c : ascii) : ascii := match c with "n" => "N" | "p" => "P" | "*" => "P" | c => c end.
Definition ext0_char (c : ascii) : ascii := match c with "n" => "_" | "p" => "+" | "*" => "N" | c => c end.
Definition ext1_char (c : ascii) : ascii := match c with "n" => zero | "p" => zero | "*" => "B" | c => c end.
Definition has_ext0 (c : ascii) : bool := match c with "n" | "p" | "*" => true | _ => false end.
Definition has_ext1 (c : ascii) : bool := match c with "*" => true | _ => false end.

(** The values before and after the edge, for a character of [edge_based_on_char]. *)
Definition edge_from (c : ascii) (b : vvp_bit4_t) : bool :=
  match c with
  | "f" | "M" | "N" => is1 b
  | "r" | "Q" | "P" => is0 b
  | "F" | "R" | "B" => isx b
  | "q" | "%" => is0 b || is1 b
  | "+" => is0 b || isx b
  | "_" => is1 b || isx b
  | _ => false
  end.
Definition edge_to (c : ascii) (b : vvp_bit4_t) : bool :=
  match c with
  | "f" | "F" | "_" => is0 b
  | "r" | "R" | "+" => is1 b
  | "M" | "Q" | "q" | "%" => isx b
  | "B" => is0 b || is1 b
  | "N" => is0 b || isx b
  | "P" => is1 b || isx b
  | _ => false
  end.

Definition edge_head (c : ascii) (p : nat) (lev : udp_levels_table) : udp_edges_table :=
  if decide (c = zero) then Edges 0 false false false lev
  else Edges (p mod 256) (edge_from c BIT4_0) (edge_from c BIT4_1) (edge_from c BIT4_X) lev.

Lemma edge_char_level t n s c : (n < 64)%nat -> c ∈ level_chars -> (forall b, s n b = level_ok c b) -> edge_levels t = masks n s ->
  edge_based_on_char t c n = Some (Edges (edge_position t) (edge_mask0 t) (edge_mask1 t) (edge_maskx t) (masks (S n) s)).
Proof.
  intros Hn Hc Hs Ht. pose proof (or_char n s c Hn Hc Hs) as E. rewrite <- Ht in E.
  unfold level_chars in Hc. char_cases Hc; apply (inj Some) in E; rewrite <- E; done.
Qed.

Lemma edge_head_masks c n s : (n < 64)%nat ->
  c ∈ ["f"; "r"; "F"; "R"; "M"; "Q"; "q"; "B"; "N"; "P"; "%"; "+"; "_"] -> (forall b, s n b = edge_to c b) ->
  edge_based_on_char (Edges 0 false false false (masks n s)) c n = Some (edge_head c n (masks (S n) s)).
Proof.
  intros Hn Hc Hs. unfold edge_head. rewrite masks_S, !Hs. unfold masks.
  char_cases Hc; cbn -[Z.pow Z.of_nat Z.mul bit_mask Zbits Nat.modulo]; unfold set_edge, or_mask0, or_mask1, or_maskx;
    cbn -[Z.pow Z.of_nat Z.mul bit_mask Zbits Nat.modulo]; rewrite ?lor_top1 by done; rewrite ?Z.add_0_r; done.
Qed.

(** The sets of the ports of a compiled row: at the edge [p] those of [d]. *)
Definition edge_sets (n : nat) (row : list ascii) (p : nat) (d : ascii) (i : nat) : vvp_bit4_t -> bool :=
  if (i =? n)%nat then level_ok (char_at row 0)
  else if (i =? p)%nat then edge_to d
  else level_ok (char_at row (i + 1)).

(** The three tables after the ports below [i]. *)
Definition rows_at (n : nat) (row : list ascii) (p i : nat) : edge_rows :=
  let c := char_at row (p + 1) in
  let tbl d := (if (i <=? p)%nat then Edges 0 false false false else edge_head d p) (masks i (edge_sets n row p d)) in
  EdgeRows (tbl (cur_char c)) (tbl (ext0_char c)) (tbl (ext1_char c)) ((p <? i)%nat && has_ext0 c) ((p <? i)%nat && has_ext1 c).

(** A character without meaning at the edge leaves the masks as they are. *)
Lemma edge_head_zero n s : (forall b, s n b = false) -> Edges 0 false false false (masks n s) = edge_head zero n (masks (S n) s).
Proof. intros Hs. unfold edge_head. cbn. rewrite masks_S, !Hs. cbn. by rewrite !Z.add_0_r. Qed.

Lemma char_eq_level c : c ∈ level_chars -> c ∈ edge_chars -> False.
Proof. intros H1 H2. unfold level_chars in H1. char_cases H1; revert H2; by apply (bool_decide_unpack (¬ _)). Qed.

Ltac eb := rewrite ?(proj2 (Nat.eqb_neq _ _)), ?Nat.eqb_refl by lia.

Lemma edge_sets_low n row p d i : (i < n)%nat -> i <> p -> edge_sets n row p d i = level_ok (char_at row (i + 1)).
Proof. intros. unfold edge_sets. by eb. Qed.
Lemma edge_sets_edge n row p d : (p < n)%nat -> edge_sets n row p d p = edge_to d.
Proof. intros. unfold edge_sets. by eb. Qed.
Lemma edge_sets_top n row p d : edge_sets n row p d n = level_ok (char_at row 0).
Proof. unfold edge_sets. by eb. Qed.

(** The step of a port without an edge, in any of the three tables. *)
Lemma edge_table_level n row p d i : (n < 64)%nat -> (i < n)%nat -> i <> p -> char_at row (i + 1) ∈ level_chars ->
  edge_based_on_char ((if (i <=? p)%nat then Edges 0 false false false else edge_head d p) (masks i (edge_sets n row p d))) (char_at row (i + 1)) i
  = Some ((if (S i <=? p)%nat then Edges 0 false false false else edge_head d p) (masks (S i) (edge_sets n row p d))).
Proof.
  intros Hn Hi Hp Hc. erewrite edge_char_level; [| |exact Hc| |].
  - destruct (Nat.leb_spec i p), (Nat.leb_spec (S i) p); try lia; cbn -[masks]; [done|].
    unfold edge_head. by case_decide.
  - lia.
  - intros b. by rewrite edge_sets_low.
  - case_match; [done|]. unfold edge_head. by case_decide.
Qed.

(** A character without an edge goes to all three tables. *)
Lemma port_level row i t : char_at row (i + 1) ∈ level_chars ->
  edge_row_port row i (Some t) =
    (cur ← edge_based_on_char (er_cur t) (char_at row (i + 1)) i;
     ext0 ← edge_based_on_char (er_ext0 t) (char_at row (i + 1)) i;
     ext1 ← edge_based_on_char (er_ext1 t) (char_at row (i + 1)) i;
     Some (EdgeRows cur ext0 ext1 (need_ext0 t) (need_ext1 t))).
Proof.
  intros Hc. unfold edge_row_port. cbn [mbind option_bind]. remember (char_at row (i + 1)) as c. clear Heqc.
  unfold level_chars in Hc. by char_cases Hc.
Qed.

Lemma rows_step_level n row p i : (n < 64)%nat -> (i < n)%nat -> i <> p -> char_at row (i + 1) ∈ level_chars ->
  edge_row_port row i (Some (rows_at n row p i)) = Some (rows_at n row p (S i)).
Proof.
  intros Hn Hi Hp Hc. rewrite port_level by done. unfold rows_at. cbn [er_cur er_ext0 er_ext1 need_ext0 need_ext1].
  rewrite !edge_table_level by done. cbn [mbind option_bind]. do 2 f_equal.
  all: destruct (Nat.ltb_spec p i), (Nat.ltb_spec p (S i)); try lia; done.
Qed.

Lemma rows_step_edge n row p : (n < 64)%nat -> (p < n)%nat -> char_at row (p + 1) ∈ edge_chars ->
  edge_row_port row p (Some (rows_at n row p p)) = Some (rows_at n row p (S p)).
Proof.
  intros Hn Hp Hc. unfold rows_at, edge_row_port. cbn [mbind option_bind er_cur er_ext0 er_ext1 need_ext0 need_ext1].
  rewrite Nat.leb_refl, Nat.ltb_irrefl, (proj2 (Nat.leb_gt (S p) p)), (proj2 (Nat.ltb_lt p (S p))) by lia.
  assert (He : forall c d, c = d -> d ∈ ["f"; "r"; "F"; "R"; "M"; "Q"; "q"; "B"; "N"; "P"; "%"; "+"; "_"] ->
    edge_based_on_char (Edges 0 false false false (masks p (edge_sets n row p c))) d p = Some (edge_head d p (masks (S p) (edge_sets n row p d)))).
  { intros c d -> Hd. apply edge_head_masks; [lia|done|]. intros b. by rewrite edge_sets_edge. }
  assert (Hz : Edges 0 false false false (masks p (edge_sets n row p zero)) = edge_head zero p (masks (S p) (edge_sets n row p zero))).
  { apply edge_head_zero. intros b. by rewrite edge_sets_edge. }
  remember (char_at row (p + 1)) as c. clear Heqc. unfold edge_chars in Hc.
  char_cases Hc; cbn [cur_char ext0_char ext1_char has_ext0 has_ext1 andb mbind option_bind];
    rewrite !He by (done || (by apply (bool_decide_unpack (_ ∈ _)))); cbn [mbind option_bind]; rewrite <- ?Hz; done.
Qed.

(** The compiled row. *)
Lemma edge_row_rows n row p : (n < 64)%nat -> edge_at n row p -> char_at row 0 ∈ level_chars -> edge_row n row = Some (rows_at n row p (S n)).
Proof.
  intros Hn (Hp & He & Hl) H0. unfold edge_row.
  assert (for_loop n 0 (edge_row_port row) (Some (EdgeRows no_edges no_edges no_edges false false)) = Some (rows_at n row p n)) as ->.
  { apply (for_loop_ind (fun i t => (i <= n)%nat -> t = Some (rows_at n row p i))); [done| |lia].
    intros i t Hi IH _. rewrite IH by lia. destruct (decide (i = p)) as [->|].
    - by apply rows_step_edge.
    - apply rows_step_level; [done|lia|done|]. apply Hl; [lia|done]. }
  unfold rows_at. cbn [mbind option_bind er_cur er_ext0 er_ext1 need_ext0 need_ext1].
  rewrite (proj2 (Nat.leb_gt n p)), (proj2 (Nat.leb_gt (S n) p)), (proj2 (Nat.ltb_lt p n)), (proj2 (Nat.ltb_lt p (S n))) by lia.
  assert (Hc : forall d, edge_based_on_char (edge_head d p (masks n (edge_sets n row p d))) (char_at row 0) n
    = Some (edge_head d p (masks (S n) (edge_sets n row p d)))).
  { intros d. erewrite edge_char_level; [|done|done| |].
    - unfold edge_head. by case_decide.
    - intros b. by rewrite edge_sets_top.
    - unfold edge_head. by case_decide. }
  by rewrite !Hc.
Qed.

(** ** Tables *)

(** The sets of a row of levels, the current output last. *)
Definition level_sets (n : nat) (row : list ascii) (i : nat) : vvp_bit4_t -> bool :=
  if (i =? n)%nat then level_ok (char_at row 0) else level_ok (char_at row (i + 1)).

Definition out_is (n : nat) (row : list ascii) (o : udp_out) : bool := bool_decide (out_of_char (char_at row (n + 1)) = Some o).

(** What a row adds to the arrays for the output [o]. *)
Definition level_rows (n : nat) (o : udp_out) (row : list ascii) : list udp_levels_table :=
  if out_is n row o && is_level_row n row then [masks (S n) (level_sets n row)] else [].

Definition stored (t : edge_rows) : list udp_edges_table :=
  er_cur t :: (if need_ext0 t then [er_ext0 t] else []) ++ (if need_ext1 t then [er_ext1 t] else []).

Definition edge_rows_of (n : nat) (o : udp_out) (row : list ascii) : list udp_edges_table :=
  if out_is n row o && negb (is_level_row n row) && negb (bool_decide (o = OutX)) then
    match edge_row n row with Some t => stored t | None => [] end
  else [].

Lemma strspn_ge accept k : forall row, (k <= length row)%nat ->
  (k <= strspn row accept)%nat <-> forall i, (i < k)%nat -> char_at row i ∈ accept.
Proof.
  induction k as [|k IH]; intros row Hl; [split; [lia|lia]|].
  destruct row as [|c row]; [cbn in Hl; lia|]. cbn [strspn length] in *.
  assert (Hc : existsb (fun a => bool_decide (a = c)) accept = true <-> c ∈ accept).
  { rewrite existsb_exists. setoid_rewrite bool_decide_eq_true. setoid_rewrite <- list_elem_of_In. naive_solver. }
  destruct (existsb _ accept).
  - rewrite <- Nat.succ_le_mono, IH by lia. split; intros H.
    + intros [|i] Hi; [by apply Hc|]. apply H. lia.
    + intros i Hi. apply (H (S i)). lia.
  - split; intros H; [lia|]. exfalso. specialize (H 0%nat ltac:(lia)). apply Hc in H. done.
Qed.

Lemma is_level_row_spec n row : length row = (n + 2)%nat ->
  is_level_row n row = true <-> char_at row 0 ∈ level_chars /\ forall i, (i < n)%nat -> char_at row (i + 1) ∈ level_chars.
Proof.
  intros Hl. unfold is_level_row. rewrite Nat.leb_le, strspn_ge by lia. split.
  - intros H. split; [apply H; lia|]. intros i Hi. apply H. lia.
  - intros [H0 H] [|i] Hi; [done|]. replace (S i) with (i + 1)%nat by lia. apply H. lia.
Qed.

Lemma edge_not_level n row p : length row = (n + 2)%nat -> edge_at n row p -> is_level_row n row = false.
Proof.
  intros Hl (Hp & He & _). apply not_true_iff_false. rewrite is_level_row_spec by done. intros [_ H].
  by apply (char_eq_level (char_at row (p + 1))); [apply H|].
Qed.

Lemma char_at_in row k : (k < length row)%nat -> char_at row k ∈ row.
Proof.
  intros Hk. unfold char_at. destruct (row !! k) as [c|] eqn:E; [by apply list_elem_of_lookup_2 in E|].
  apply lookup_ge_None in E. lia.
Qed.

(** A character of an edge is in the string of the row just when it is that of the edge. *)
Lemma strchr_edge n row p d : seq_row_wf n row -> edge_at n row p -> d ∈ ["n"; "p"; "*"] ->
  strchr row d = bool_decide (char_at row (p + 1) = d).
Proof.
  intros (Hl & H0 & Ho & _) (Hp & He & Hc) Hd. apply eq_true_iff_eq. unfold strchr.
  rewrite existsb_exists, bool_decide_eq_true. split.
  - intros (c & Hin & ->%bool_decide_eq_true). apply list_elem_of_In, list_elem_of_lookup in Hin as [k Hk].
    pose proof (lookup_lt_Some _ _ _ Hk) as Hlt.
    assert (E : char_at row k = d) by (unfold char_at; by rewrite Hk).
    assert (Hde : d ∈ edge_chars) by (char_cases Hd; by apply (bool_decide_unpack (_ ∈ _))).
    destruct k as [|k]; [rewrite E in H0; by destruct (char_eq_level _ H0 Hde)|].
    destruct (decide (k = p)) as [->|Hkp]; [by rewrite Nat.add_1_r|].
    destruct (decide (k < n)%nat) as [Hkn|].
    + specialize (Hc k Hkn Hkp). rewrite Nat.add_1_r, E in Hc. by destruct (char_eq_level _ Hc Hde).
    + replace (n + 1)%nat with (S k) in Ho by lia. rewrite E in Ho. exfalso. char_cases Hd; revert Ho; by apply (bool_decide_unpack (¬ _)).
  - intros <-. exists (char_at row (p + 1)). split; [|by apply bool_decide_eq_true].
    apply list_elem_of_In, char_at_in. lia.
Qed.

Lemma out_char_cases n row : seq_row_wf n row -> exists o, out_of_char (char_at row (n + 1)) = Some o.
Proof. intros (_ & _ & Ho & _). char_cases Ho; by eexists. Qed.

Lemma out_is_some n row o o' : out_of_char (char_at row (n + 1)) = Some o -> out_is n row o' = bool_decide (o' = o).
Proof. intros E. unfold out_is. rewrite E. apply bool_decide_ext. naive_solver. Qed.

Lemma stored_rows_at n row p : (p < n)%nat -> stored (rows_at n row p (S n)) =
  let c := char_at row (p + 1) in
  let tbl d := edge_head d p (masks (S n) (edge_sets n row p d)) in
  tbl (cur_char c) :: (if has_ext0 c then [tbl (ext0_char c)] else []) ++ (if has_ext1 c then [tbl (ext1_char c)] else []).
Proof.
  intros Hp. unfold rows_at, stored. cbn zeta. cbn [er_cur er_ext0 er_ext1 need_ext0 need_ext1].
  by rewrite (proj2 (Nat.leb_gt (S n) p)), (proj2 (Nat.ltb_lt p (S n))) by lia.
Qed.

(** The first pass counts what the second one stores. *)
Lemma count_seq_row n nl ne row : (n < 64)%nat -> seq_row_wf n row ->
  exists nl' ne' : outs nat, count_seq n (Some (nl, ne)) row = Some (nl', ne') /\
    forall o, nl' o = (nl o + length (level_rows n o row))%nat /\ ne' o = (ne o + length (edge_rows_of n o row))%nat.
Proof.
  intros Hn Hwf. destruct (out_char_cases n row Hwf) as [o Ho]. pose proof Hwf as (Hl & H0 & _ & Hrow).
  unfold count_seq. cbn [mbind option_bind]. rewrite (proj2 (Nat.eqb_eq _ _) Hl), Ho. cbn [mbind option_bind].
  unfold level_rows, edge_rows_of. destruct Hrow as [Hrow|[p Hp]].
  - rewrite (proj2 (is_level_row_spec n row Hl)) by done. eexists _, _. split; [done|]. intros o'.
    rewrite (out_is_some n row o o' Ho). unfold set_out. destruct (decide (o' = o)) as [->|Hne].
    + rewrite bool_decide_eq_true_2 by done. cbn. lia.
    + rewrite bool_decide_eq_false_2 by done. cbn. lia.
  - rewrite (edge_not_level n row p) by done. rewrite (edge_row_rows n row p) by done.
    rewrite (strchr_edge n row p "n"), (strchr_edge n row p "p"), (strchr_edge n row p "*") by (done || by apply (bool_decide_unpack (_ ∈ _))).
    assert (Hlen : length (stored (rows_at n row p (S n))) =
      (1 + (if bool_decide (char_at row (p + 1) = "*") then 2 else if bool_decide (char_at row (p + 1) = "p") then 1
        else if bool_decide (char_at row (p + 1) = "n") then 1 else 0))%nat).
    { rewrite stored_rows_at by apply Hp. destruct Hp as (_ & He & _). cbn zeta. remember (char_at row (p + 1)) as c. clear Heqc.
      unfold edge_chars in He. by char_cases He. }
    destruct (decide (o = OutX)) as [->|Hx].
    + eexists _, _. split; [done|]. intros o'. rewrite (out_is_some n row _ o' Ho). repeat case_bool_decide; cbn; lia.
    + eexists nl, _. split; [by destruct o|]. intros o'. rewrite (out_is_some n row _ o' Ho). unfold set_out.
      destruct (decide (o' = o)) as [->|Hne].
      * rewrite (bool_decide_eq_true_2 (o = o)), (bool_decide_eq_false_2 (o = OutX)) by done. cbn -[stored]. rewrite Hlen. lia.
      * rewrite (bool_decide_eq_false_2 (o' = o)) by done. cbn. lia.
Qed.

Lemma count_seq_fold n tab : forall nl ne, (n < 64)%nat -> Forall (seq_row_wf n) tab ->
  exists nl' ne' : outs nat, fold_left (count_seq n) tab (Some (nl, ne)) = Some (nl', ne') /\
    forall o, nl' o = (nl o + length (flat_map (level_rows n o) tab))%nat /\ ne' o = (ne o + length (flat_map (edge_rows_of n o) tab))%nat.
Proof.
  induction tab as [|row tab IH]; intros nl ne Hn Hwf.
  - exists nl, ne. split; [done|]. intros o. cbn. lia.
  - apply list.Forall_cons in Hwf as [Hrow Htab]. destruct (count_seq_row n nl ne row Hn Hrow) as (nl1 & ne1 & E1 & H1).
    destruct (IH nl1 ne1 Hn Htab) as (nl2 & ne2 & E2 & H2). exists nl2, ne2. cbn [fold_left]. rewrite E1. split; [done|].
    intros o. destruct (H1 o), (H2 o). cbn [flat_map]. rewrite !length_app. lia.
Qed.

Lemma level_row_masks n row : (n < 64)%nat -> char_at row 0 ∈ level_chars -> (forall i, (i < n)%nat -> char_at row (i + 1) ∈ level_chars) ->
  (cur ← row_levels n 1 row; or_based_on_char cur (char_at row 0) (bit_mask n)) = Some (masks (S n) (level_sets n row)).
Proof.
  intros Hn H0 Hl. rewrite (row_levels_masks n 1 row (level_sets n row)); [|lia|done|].
  - cbn [mbind option_bind]. apply or_char; [done|done|]. intros b. unfold level_sets. by eb.
  - intros i b Hi. unfold level_sets. by eb.
Qed.

Lemma store_room {A} cap (arr : list A) x : (length arr < cap)%nat -> store cap arr x = Some (arr ++ [x]).
Proof. intros. unfold store. by rewrite (proj2 (Nat.ltb_lt _ _)). Qed.

Lemma store_edges_room cap arr t : (length arr + length (stored t) <= cap)%nat -> store_edges cap arr t = Some (arr ++ stored t).
Proof.
  unfold store_edges, stored. destruct (need_ext0 t), (need_ext1 t); cbn; intros Hc.
  all: repeat (rewrite store_room by (rewrite ?length_app; cbn; lia); cbn [mbind option_bind]); by rewrite <- ?app_assoc.
Qed.

(** The second pass appends the rows of each output to its array. *)
Lemma fill_seq_row n nl ne (lv : outs (list udp_levels_table)) (eg : outs (list udp_edges_table)) row : (n < 64)%nat -> seq_row_wf n row ->
  (forall o, length (lv o) + length (level_rows n o row) <= nl o)%nat ->
  (forall o, length (eg o) + length (edge_rows_of n o row) <= ne o)%nat ->
  exists (lv' : outs (list udp_levels_table)) (eg' : outs (list udp_edges_table)), fill_seq n nl ne (Some (lv, eg)) row = Some (lv', eg') /\
    forall o, lv' o = lv o ++ level_rows n o row /\ eg' o = eg o ++ edge_rows_of n o row.
Proof.
  intros Hn Hwf Hnl Hne. destruct (out_char_cases n row Hwf) as [o Ho]. pose proof Hwf as (Hl & H0 & _ & Hrow).
  specialize (Hnl o). specialize (Hne o).
  unfold fill_seq, level_rows, edge_rows_of in *. cbn [mbind option_bind]. rewrite Ho in *. rewrite (out_is_some n row o o Ho), bool_decide_eq_true_2 in * by done.
  destruct Hrow as [Hrow|[p Hp]].
  - rewrite (proj2 (is_level_row_spec n row Hl)) in * by done. cbn in Hnl.
    pose proof (level_row_masks n row Hn H0 Hrow) as E. destruct (row_levels n 1 row) as [cur|]; [|done].
    cbn [mbind option_bind] in *. rewrite E. cbn [mbind option_bind]. rewrite store_room by lia. cbn [mbind option_bind]. eexists _, _. split; [done|].
    intros o'. rewrite (out_is_some n row o o' Ho). unfold set_out. destruct (decide (o' = o)) as [->|Hno].
    + rewrite bool_decide_eq_true_2 by done. cbn. by rewrite app_nil_r.
    + rewrite bool_decide_eq_false_2 by done. cbn. by rewrite !app_nil_r.
  - rewrite (edge_not_level n row p), (edge_row_rows n row p) in * by done. cbn [mbind option_bind].
    destruct (decide (o = OutX)) as [->|Hx].
    + eexists _, _. split; [done|]. intros o'. rewrite (out_is_some n row _ o' Ho).
      destruct (bool_decide (o' = OutX)); cbn; by rewrite !app_nil_r.
    + rewrite (bool_decide_eq_false_2 (o = OutX)) in * by done. cbn -[stored] in Hne.
      exists lv, (set_out eg o (eg o ++ stored (rows_at n row p (S n)))). split.
      { rewrite store_edges_room by done. by destruct o. }
      intros o'. rewrite (out_is_some n row o o' Ho). unfold set_out. destruct (decide (o' = o)) as [->|Hno].
      * rewrite (bool_decide_eq_true_2 (o = o)), (bool_decide_eq_false_2 (o = OutX)) by done. cbn. by rewrite app_nil_r.
      * rewrite (bool_decide_eq_false_2 (o' = o)) by done. cbn. by rewrite !app_nil_r.
Qed.

Lemma fill_seq_fold n nl ne tab : forall (lv : outs (list udp_levels_table)) (eg : outs (list udp_edges_table)), (n < 64)%nat -> Forall (seq_row_wf n) tab ->
  (forall o, length (lv o) + length (flat_map (level_rows n o) tab) <= nl o)%nat ->
  (forall o, length (eg o) + length (flat_map (edge_rows_of n o) tab) <= ne o)%nat ->
  exists (lv' : outs (list udp_levels_table)) (eg' : outs (list udp_edges_table)), fold_left (fill_seq n nl ne) tab (Some (lv, eg)) = Some (lv', eg') /\
    forall o, lv' o = lv o ++ flat_map (level_rows n o) tab /\ eg' o = eg o ++ flat_map (edge_rows_of n o) tab.
Proof.
  induction tab as [|row tab IH]; intros lv eg Hn Hwf Hnl Hne.
  - exists lv, eg. split; [done|]. intros o. cbn. by rewrite !app_nil_r.
  - apply list.Forall_cons in Hwf as [Hrow Htab]. cbn [flat_map] in Hnl, Hne.
    destruct (fill_seq_row n nl ne lv eg row Hn Hrow) as (lv1 & eg1 & E1 & H1).
    { intros o. specialize (Hnl o). rewrite length_app in Hnl. lia. }
    { intros o. specialize (Hne o). rewrite length_app in Hne. lia. }
    destruct (IH lv1 eg1 Hn Htab) as (lv2 & eg2 & E2 & H2).
    { intros o. destruct (H1 o) as [-> _]. specialize (Hnl o). rewrite length_app in *. lia. }
    { intros o. destruct (H1 o) as [_ ->]. specialize (Hne o). rewrite length_app in *. lia. }
    exists lv2, eg2. cbn [fold_left]. rewrite E1. split; [done|].
    intros o. destruct (H1 o) as [Ha Hb], (H2 o) as [-> ->]. rewrite Ha, Hb. cbn [flat_map]. by rewrite !app_assoc.
Qed.

Lemma compile_seq n init tab : (n < 64)%nat -> Forall (seq_row_wf n) tab ->
  exists u, compile_table_seq n init tab = Some u /\ seq_ports u = n /\ seq_init u = init /\
    forall o, seq_levels u o = flat_map (level_rows n o) tab /\ seq_edges u o = flat_map (edge_rows_of n o) tab.
Proof.
  intros Hn Hwf. unfold compile_table_seq.
  destruct (count_seq_fold n tab no_rows no_rows Hn Hwf) as (nl & ne & -> & Hc). cbn [mbind option_bind].
  destruct (fill_seq_fold n nl ne tab empty_rows empty_rows Hn Hwf) as (lv & eg & -> & Hf).
  { intros o. destruct (Hc o). cbn. lia. }
  { intros o. destruct (Hc o). cbn. lia. }
  cbn [mbind option_bind].
  assert (E : forall o, (length (eg o) =? ne o)%nat = true).
  { intros o. destruct (Hc o) as [_ ->], (Hf o) as [_ ->]. cbn. by rewrite Nat.eqb_refl. }
  rewrite !E. cbn. eexists. split; [done|]. split; [done|]. split; [done|]. intros o. cbn. by destruct (Hf o).
Qed.

(** ** Combinational tables *)

Definition comb_sets (row : list ascii) (i : nat) : vvp_bit4_t -> bool := level_ok (char_at row i).

Definition comb_rows (n : nat) (c : ascii) (row : list ascii) : list udp_levels_table :=
  if bool_decide (char_at row n = c) then [masks n (comb_sets row)] else [].

Lemma count_comb_fold n tab : forall n0 n1, Forall (comb_row_wf n) tab ->
  fold_left (count_comb n) tab (Some (n0, n1)) =
    Some (n0 + length (flat_map (comb_rows n "0") tab), n1 + length (flat_map (comb_rows n "1") tab))%nat.
Proof.
  induction tab as [|row tab IH]; intros n0 n1 Hwf; [cbn; by rewrite !Nat.add_0_r|].
  apply list.Forall_cons in Hwf as [(Hl & _ & Ho) Htab]. cbn [fold_left flat_map]. unfold count_comb at 2.
  assert (Hr : forall c, comb_rows n c row = if bool_decide (char_at row n = c) then [masks n (comb_sets row)] else []) by done.
  rewrite !Hr. clear Hr.
  cbn [mbind option_bind]. rewrite (proj2 (Nat.eqb_eq _ _) Hl). char_cases Ho; rewrite IH by done; repeat case_bool_decide; try done; cbn; do 2 f_equal; lia.
Qed.

Lemma fill_comb_fold n c0 c1 tab : forall l0 l1, (n <= 64)%nat -> Forall (comb_row_wf n) tab ->
  (length l0 + length (flat_map (comb_rows n "0") tab) <= c0)%nat -> (length l1 + length (flat_map (comb_rows n "1") tab) <= c1)%nat ->
  fold_left (fill_comb n c0 c1) tab (Some (l0, l1)) = Some (l0 ++ flat_map (comb_rows n "0") tab, l1 ++ flat_map (comb_rows n "1") tab).
Proof.
  induction tab as [|row tab IH]; intros l0 l1 Hn Hwf H0 H1; [cbn; by rewrite !app_nil_r|].
  apply list.Forall_cons in Hwf as [(Hl & Hc & Ho) Htab]. cbn [fold_left flat_map] in *.
  assert (E : row_levels n 0 row = Some (masks n (comb_sets row))).
  { apply row_levels_masks; [done| |]; intros i; rewrite Nat.add_0_r; [apply Hc|done]. }
  unfold fill_comb at 2. cbn [mbind option_bind]. rewrite (proj2 (Nat.ltb_ge 64 n)), E by lia. cbn [mbind option_bind].
  assert (Hr : forall c, comb_rows n c row = if bool_decide (char_at row n = c) then [masks n (comb_sets row)] else []) by done.
  rewrite !Hr in *. clear Hr. rewrite length_app in H0, H1.
  remember (char_at row n) as o eqn:Eo. clear Eo.
  char_cases Ho; repeat case_bool_decide; try done; cbn -[store] in H0, H1; rewrite ?store_room by lia; cbn [mbind option_bind].
  all: rewrite IH; rewrite ?length_app; cbn; try lia; try done; by rewrite <- ?app_assoc.
Qed.

Lemma compile_comb n tab : (n <= 64)%nat -> Forall (comb_row_wf n) tab ->
  compile_table_comb n tab = Some (UdpComb n (flat_map (comb_rows n "0") tab) (flat_map (comb_rows n "1") tab)).
Proof.
  intros Hn Hwf. unfold compile_table_comb. rewrite count_comb_fold by done. cbn [mbind option_bind].
  rewrite fill_comb_fold by (done || lia). cbn. by rewrite !Nat.eqb_refl.
Qed.
