(* ===== verification/UdpRun.v ===== *)
(** * UdpRun: primitives compute what their tables say

    The tests of the compiled tables against the rows, and the instance of a
    primitive through any sequence of inputs. *)

From Stdlib Require Import Ascii String.
From S2P Require Import Prelude FourState Vector4 Vector4Value Vector4Ops Udp UdpSpec.
Import Bit4.

Open Scope ivl_scope.
Open Scope char_scope.
Open Scope Z_scope.

(** What an instance of the primitive [tab] keeps, abstractly: its inputs, its
    output and how often it asked to be run. *)
Definition udp_spec (sequ : bool) (n : nat) (tab : list (list ascii)) (prev ins : list vvp_bit4_t) (out : vvp_bit4_t) : vvp_bit4_t :=
  if sequ then seq_spec n tab prev ins out else comb_spec n tab ins.

Definition udp_receive (sequ : bool) (n : nat) (tab : list (list ascii)) (s : list vvp_bit4_t * vvp_bit4_t * nat) (ev : nat * vvp_vector4_t) :
    list vvp_bit4_t * vvp_bit4_t * nat :=
  let '(ins, out, asked) := s in
  let ins' := <[fst ev := value (snd ev) 0]> ins in
  let out' := udp_spec sequ n tab ins ins' out in
  (ins', out', if decide (out' = out) then asked else S asked).

Definition udp_start (sequ : bool) (init : nat) : vvp_bit4_t :=
  if sequ then if (init =? 0)%nat then BIT4_0 else if (init =? 1)%nat then BIT4_1 else BIT4_X else BIT4_X.

(** The tables and the numbers of ports that are covered: in a sequential
    primitive the port above the last is the output. *)
Definition udp_wf (sequ : bool) (n : nat) (tab : list (list ascii)) : Prop :=
  if sequ then (n < 32)%nat /\ Forall (seq_row_wf n) tab else (n < 64)%nat /\ Forall (comb_row_wf n) tab.

(** ** Levels *)

Lemma existsb_flat_map {A B} (f : B -> bool) (g : A -> list B) l : existsb f (flat_map g l) = existsb (fun x => existsb f (g x)) l.
Proof. induction l as [|x l IH]; [done|]. cbn. by rewrite existsb_app, IH. Qed.

Lemma comb_row_match n ins row :
  levels_match (levels_of n ins) (masks n (comb_sets row)) = comb_row_fires n ins row.
Proof. apply levels_match_masks. intros i _. apply level_ok_z. Qed.

Lemma level_sets_z n row i : z_as_x (level_sets n row i).
Proof. unfold level_sets. case_match; apply level_ok_z. Qed.

Lemma in_at_app_out n ins out i : length ins = n -> (i < n)%nat -> in_at (ins ++ [out]) i = in_at ins i.
Proof. intros. apply in_at_app_l. lia. Qed.

Lemma in_at_out n ins out : length ins = n -> in_at (ins ++ [out]) n = out.
Proof. intros <-. apply in_at_end. Qed.

Lemma level_row_match n ins out row : length ins = n ->
  levels_match (levels_of (S n) (ins ++ [out])) (masks (S n) (level_sets n row)) = level_row_fires n ins out row.
Proof.
  intros Hl. rewrite levels_match_masks by (intros; apply level_sets_z).
  unfold level_row_fires. rewrite all_ports_S, (in_at_out n) by done. rewrite andb_comm. f_equal.
  - unfold level_sets. by rewrite Nat.eqb_refl.
  - apply all_ports_ext. intros i Hi. rewrite (in_at_app_out n) by done. unfold level_sets. by eb.
Qed.

(** The masks of the inputs with the current output. *)
Lemma levels_of_S n ins out : length ins = n -> (n < 64)%nat ->
  match out with BIT4_0 => or_mask0 (levels_of n ins) (bit_mask n) | BIT4_1 => or_mask1 (levels_of n ins) (bit_mask n)
  | _ => or_maskx (levels_of n ins) (bit_mask n) end = levels_of (S n) (ins ++ [out]).
Proof.
  intros Hl Hn. unfold levels_of at 5. rewrite masks_S, (in_at_out n) by done.
  rewrite (masks_ext n _ (fun i => same3 (in_at ins i))) by (intros; by rewrite (in_at_app_out n)).
  unfold levels_of, masks, or_mask0, or_mask1, or_maskx. cbn [mask0 mask1 maskx].
  destruct out; rewrite lor_top1 by done; cbn -[Z.pow Z.mul Z.of_nat bit_mask Zbits]; by rewrite ?Z.add_0_r.
Qed.

(** ** The current output *)

Section Shift.
Context `{IntShift}.

Lemma int_one_shl_bit n i : (n < 32)%nat -> 0 <= i <= Z.of_nat n -> Z.testbit (int_one_shl n) i = (i =? Z.of_nat n).
Proof.
  intros Hn Hi. unfold int_one_shl. destruct (Nat.ltb_spec n 31).
  - rewrite Z.shiftl_1_l, Z.pow2_bits_eqb by lia. by rewrite Z.eqb_sym.
  - replace n with 31%nat in * by lia. cbn [Nat.eqb].
    assert (E : forallb (fun j => Bool.eqb (Z.testbit (u64 (- 2 ^ 31)) (Z.of_nat j)) (Z.of_nat j =? Z.of_nat 31)) (seq 0 32) = true) by done.
    rewrite forallb_forall in E. specialize (E (Z.to_nat i)). rewrite in_seq, Z2Nat.id in E by lia.
    apply eqb_prop, E. lia.
Qed.

Lemma test_output f n : (n < 32)%nat -> negb (Zbits f (S n) .& int_one_shl n =? 0) = f n.
Proof.
  intros Hn. assert (E : Zbits f (S n) .& int_one_shl n = if f n then 2 ^ Z.of_nat n else 0).
  { apply Z.bits_inj'. intros i Hi. rewrite Z.land_spec, Zbits_testbit by lia. destruct (Z.ltb_spec i (Z.of_nat (S n))).
    - rewrite int_one_shl_bit by lia. destruct (Z.eqb_spec i (Z.of_nat n)) as [->|].
      + rewrite Nat2Z.id. destruct (f n); rewrite ?Z.pow2_bits_true, ?Z.bits_0 by lia; done.
      + destruct (f n); rewrite ?Z.pow2_bits_false, ?Z.bits_0 by lia; btauto.
    - destruct (f n); rewrite ?Z.pow2_bits_false, ?Z.bits_0 by lia; done. }
  rewrite E. pose proof (pow2_pos (Z.of_nat n) ltac:(lia)). destruct (f n); [|done]. by rewrite (proj2 (Z.eqb_neq _ _)) by lia.
Qed.

Lemma current_output_spec n ins out : length ins = n -> (n < 32)%nat -> out <> BIT4_Z ->
  current_output n (levels_of (S n) (ins ++ [out])) = Some out.
Proof.
  intros Hl Hn Hz. unfold current_output, levels_of, masks. cbn [mask0 mask1 maskx]. rewrite !test_output, (in_at_out n) by done.
  by destruct out.
Qed.

(** ** Edges *)

Lemma levels_eqb_same n a b : levels_eqb (levels_of n a) (levels_of n b) = all_ports n (fun i => same3 (in_at a i) (in_at b i)).
Proof.
  assert (E : forall f g, (Zbits f n =? Zbits g n) = all_ports n (fun i => Bool.eqb (f i) (g i))).
  { intros f g. apply eq_true_iff_eq. unfold all_ports. rewrite Z.eqb_eq, forallb_forall. split.
    - intros E i Hi%in_seq. apply (f_equal (fun z => Z.testbit z (Z.of_nat i))) in E. rewrite !Zbits_testbit, !Nat2Z.id in E by lia.
      rewrite (proj2 (Z.ltb_lt _ _)) in E by lia. cbn in E. rewrite E. apply eqb_reflx.
    - intros E. apply Zbits_ext. intros i Hi. apply eqb_prop, E, in_seq. lia. }
  unfold levels_eqb, levels_of, masks. cbn. rewrite !E, !all_ports_and. apply all_ports_ext. intros i _.
  by destruct (in_at a i), (in_at b i).
Qed.

(** The mask of the changed inputs. *)
Lemma changed_mask n prev ins out : length ins = n -> (n < 64)%nat ->
  let cur := levels_of (S n) (ins ++ [out]) in
  let p := levels_of n prev in
  ((mask0 cur .^ mask0 p) .| (maskx cur .^ maskx p) .| (mask1 cur .^ mask1 p)) .& .~ (ones64 << n)
  = Zbits (fun i => negb (same3 (in_at ins i) (in_at prev i))) n.
Proof.
  intros Hl Hn cur p. apply Z.bits_inj'. intros i Hi. unfold cur, p, levels_of, masks. cbn [mask0 mask1 maskx].
  autorewrite with bits; [|lia..]. rewrite !Zbits_testbit by lia.
  destruct (Z.ltb_spec i (Z.of_nat n)) as [Hin|Hin]; cbn [andb].
  - rewrite (proj2 (Z.ltb_lt i (Z.of_nat (S n)))), (proj2 (Z.ltb_lt i 64)), (proj2 (Z.leb_gt (Z.of_nat n) i)) by lia.
    rewrite (in_at_app_out n) by lia. by destruct (in_at ins (Z.to_nat i)), (in_at prev (Z.to_nat i)).
  - rewrite (proj2 (Z.leb_le (Z.of_nat n) i)), ones64_bit by lia. split_ltb; cbn; try lia; btauto.
Qed.

Lemma find_edge_pow k : forall fuel q, (k < fuel)%nat -> (k < 64)%nat -> find_edge fuel (2 ^ Z.of_nat k) q = (1, (q + k)%nat).
Proof.
  induction k as [|k IH]; intros [|fuel] q Hf Hk; try lia; cbn [find_edge].
  - cbn. by rewrite Nat.add_0_r.
  - assert (2 ^ Z.of_nat (S k) .& 1 = 0) as ->.
    { rewrite land_1_bit, Z.pow2_bits_false by lia. done. }
    rewrite Z.eqb_refl. unfold shr64. change (Z.of_nat 1) with 1.
    assert (Z.shiftr (2 ^ Z.of_nat (S k)) 1 = 2 ^ Z.of_nat k) as ->.
    { rewrite Z.shiftr_div_pow2, pow2_S by lia. rewrite Z.mul_comm. by rewrite Z.div_mul. }
    rewrite IH by lia. f_equal. lia.
Qed.

Lemma single_bit f n p : (p < n)%nat -> f p = true -> (forall i, (i < n)%nat -> i <> p -> f i = false) -> Zbits f n = 2 ^ Z.of_nat p.
Proof.
  intros Hp Hf Ho. apply Z.bits_inj'. intros i Hi. rewrite Zbits_testbit, Z.pow2_bits_eqb by lia.
  destruct (Z.ltb_spec i (Z.of_nat n)); [|by rewrite (proj2 (Z.eqb_neq _ _)) by lia]. cbn.
  destruct (Z.eqb_spec (Z.of_nat p) i) as [<-|]; [by rewrite Nat2Z.id|]. apply Ho; lia.
Qed.

Lemma prev_bit f n p : (p < n)%nat -> (p < 64)%nat -> negb (Zbits f n .& bit_mask p =? 0) = f p.
Proof.
  intros Hp Hp64. assert (E : Zbits f n .& bit_mask p = if f p then 2 ^ Z.of_nat p else 0).
  { apply Z.bits_inj'. intros i Hi. rewrite Z.land_spec, Zbits_testbit, bit_mask_bit by lia.
    destruct (Z.eqb_spec i (Z.of_nat p)) as [->|].
    - rewrite Nat2Z.id, (proj2 (Z.ltb_lt _ _)) by lia. destruct (f p); rewrite ?Z.pow2_bits_true, ?Z.bits_0 by lia; done.
    - destruct (f p); rewrite ?Z.pow2_bits_false, ?Z.bits_0 by lia; btauto. }
  rewrite E. pose proof (pow2_pos (Z.of_nat p) ltac:(lia)). destruct (f p); [|done]. by rewrite (proj2 (Z.eqb_neq _ _)) by lia.
Qed.

(** The characters of up to three rows are the changes that the character stands for. *)
Lemma edge_expand c a b : c ∈ edge_chars ->
  edge_ok c a b = edge_from (cur_char c) a && edge_to (cur_char c) b
    || has_ext0 c && (edge_from (ext0_char c) a && edge_to (ext0_char c) b)
    || has_ext1 c && (edge_from (ext1_char c) a && edge_to (ext1_char c) b).
Proof. intros Hc. unfold edge_chars in Hc. char_cases Hc; by destruct a, b. Qed.

Lemma edge_ok_changes c a b : c ∈ edge_chars -> same3 b a = true -> edge_ok c a b = false.
Proof. intros Hc. unfold edge_chars in Hc. by char_cases Hc; destruct a, b. Qed.

Lemma edge_to_z d : z_as_x (edge_to d).
Proof. intros []; unfold edge_to; repeat case_match; done. Qed.

Lemma edge_sets_z n row p d i : z_as_x (edge_sets n row p d i).
Proof. unfold edge_sets. repeat case_match; apply level_ok_z || apply edge_to_z. Qed.

(** All ports but one, and that one. *)
Lemma all_ports_at n f q : (q < n)%nat -> all_ports n f = f q && all_ports n (fun i => (i =? q)%nat || f i).
Proof.
  intros Hq. apply eq_true_iff_eq. unfold all_ports. rewrite andb_true_iff, !forallb_forall. setoid_rewrite in_seq. split.
  - intros Hf. split; [apply Hf; lia|]. intros i Hi. rewrite Hf by lia. by rewrite orb_true_r.
  - intros [Hf Hr] i Hi. specialize (Hr i Hi). by destruct (Nat.eqb_spec i q); subst.
Qed.

(** What a row with an edge at [q] asks for besides the edge. *)
Definition rest_ok (n : nat) (row : list ascii) (q : nat) (ins : list vvp_bit4_t) (out : vvp_bit4_t) : bool :=
  level_ok (char_at row 0) out && all_ports n (fun i => (i =? q)%nat || level_ok (char_at row (i + 1)) (in_at ins i)).

Lemma edge_row_fires_at n prev ins out row q : edge_at n row q ->
  edge_row_fires n prev ins out row = edge_ok (char_at row (q + 1)) (in_at prev q) (in_at ins q) && rest_ok n row q ins out.
Proof.
  intros (Hq & He & Hl). unfold edge_row_fires, rest_ok. rewrite (all_ports_at n _ q) by done. rewrite decide_True by done.
  rewrite andb_assoc, (andb_comm (level_ok _ _)), <- andb_assoc. do 2 f_equal. apply all_ports_ext. intros i Hi.
  destruct (Nat.eqb_spec i q); [done|]. cbn. rewrite decide_False; [done|]. intros Hin. by apply (char_eq_level _ (Hl i Hi n0)).
Qed.

Lemma edge_levels_match n ins out row q d : length ins = n -> (q < n)%nat ->
  levels_match (levels_of (S n) (ins ++ [out])) (masks (S n) (edge_sets n row q d)) = edge_to d (in_at ins q) && rest_ok n row q ins out.
Proof.
  intros Hl Hq. rewrite levels_match_masks by (intros; apply edge_sets_z). unfold rest_ok.
  rewrite all_ports_S, (in_at_out n), edge_sets_top, (all_ports_at n _ q) by done.
  rewrite edge_sets_edge, (in_at_app_out n) by done. rewrite <- andb_assoc. f_equal. rewrite andb_comm. f_equal.
  apply all_ports_ext. intros i Hi. destruct (Nat.eqb_spec i q); [done|]. cbn.
  by rewrite edge_sets_low, (in_at_app_out n) by done.
Qed.

(** One compiled row against a change at [p]. *)
Lemma edge_match_head n prev ins out row q d p : length ins = n -> (q < n)%nat -> (n < 64)%nat -> d <> zero ->
  edge_match (levels_of (S n) (ins ++ [out])) p (same3 (in_at prev p) BIT4_0) (same3 (in_at prev p) BIT4_X) (same3 (in_at prev p) BIT4_1)
    (edge_head d q (masks (S n) (edge_sets n row q d)))
  = (q =? p)%nat && (edge_from d (in_at prev p) && edge_to d (in_at ins q)) && rest_ok n row q ins out.
Proof.
  intros Hl Hq Hn Hd. unfold edge_match, edge_head. rewrite decide_False by done.
  cbn [edge_position edge_mask0 edge_mask1 edge_maskx edge_levels]. rewrite Nat.mod_small by lia.
  destruct (q =? p)%nat; [|done]. rewrite edge_levels_match by done. cbn [negb andb].
  assert (E : z_as_x (edge_from d)) by (intros []; unfold edge_from; repeat case_match; done).
  rewrite (E (in_at prev p)). destruct (in_at prev p); cbn [bit4_z2x];
    repeat match goal with |- context [same3 ?a ?b] => let r := eval vm_compute in (same3 a b) in change (same3 a b) with r end;
    cbn -[edge_from edge_to rest_ok]; destruct (edge_from d _); btauto.
Qed.

(** All the compiled rows of a row. *)
Lemma edge_row_match n prev ins out row q p : length ins = n -> (n < 64)%nat -> edge_at n row q ->
  existsb (edge_match (levels_of (S n) (ins ++ [out])) p (same3 (in_at prev p) BIT4_0) (same3 (in_at prev p) BIT4_X) (same3 (in_at prev p) BIT4_1))
    (stored (rows_at n row q (S n)))
  = (q =? p)%nat && edge_row_fires n prev ins out row.
Proof.
  intros Hl Hn Hq. rewrite (edge_row_fires_at n prev ins out row q Hq). destruct Hq as (Hq & He & _).
  rewrite stored_rows_at by done. cbn zeta. cbn [existsb]. rewrite existsb_app.
  rewrite (edge_expand _ _ _ He). remember (char_at row (q + 1)) as c eqn:Ec. clear Ec.
  assert (Hd : cur_char c <> zero /\ (has_ext0 c = true -> ext0_char c <> zero) /\ (has_ext1 c = true -> ext1_char c <> zero)).
  { unfold edge_chars in He. by char_cases He. }
  destruct Hd as (Hd & Hd0 & Hd1). rewrite edge_match_head by done.
  destruct (has_ext0 c), (has_ext1 c); cbn [existsb]; rewrite ?edge_match_head by auto; destruct (Nat.eqb_spec q p) as [->|]; btauto.
Qed.

(** The change is at [p] and nowhere else. *)
Definition changed_at (n : nat) (prev ins : list vvp_bit4_t) (p : nat) : Prop :=
  (p < n)%nat /\ same3 (in_at ins p) (in_at prev p) = false /\ forall i, (i < n)%nat -> i <> p -> same3 (in_at ins i) (in_at prev i) = true.

Lemma edge_fires_there n prev ins out row q p : changed_at n prev ins p -> edge_at n row q ->
  edge_row_fires n prev ins out row = true -> q = p.
Proof.
  intros (Hp & _ & Hs) Hq. rewrite (edge_row_fires_at n prev ins out row q Hq). destruct Hq as (Hq & He & _).
  destruct (decide (q = p)); [done|]. by rewrite (edge_ok_changes _ _ _ He (Hs q Hq n0)).
Qed.

(** ** Whole tables *)

Definition char_of_out (o : udp_out) : ascii := match o with Out0 => "0" | Out1 => "1" | OutX => "x" | OutL => "-" end.

Lemma out_is_char n row o : seq_row_wf n row -> out_is n row o = bool_decide (char_at row (n + 1) = char_of_out o).
Proof.
  intros (_ & _ & Ho & _). unfold out_is. remember (char_at row (n + 1)) as c. clear Heqc. by char_cases Ho; destruct o.
Qed.

Lemma levels_exist n ins out tab o : length ins = n -> Forall (seq_row_wf n) tab ->
  existsb (levels_match (levels_of (S n) (ins ++ [out]))) (flat_map (level_rows n o) tab)
  = level_fires n tab ins out (char_of_out o).
Proof.
  intros Hl Hwf. rewrite existsb_flat_map. apply existsb_ext_in. intros row Hrow.
  rewrite Forall_forall in Hwf. specialize (Hwf row Hrow). unfold level_rows. rewrite <- (out_is_char n row o Hwf).
  destruct (out_is n row o && is_level_row n row); [|done]. cbn [existsb]. by rewrite level_row_match, orb_false_r.
Qed.

Lemma edges_exist n prev ins out tab o p : length ins = n -> (n < 64)%nat -> Forall (seq_row_wf n) tab -> o <> OutX -> changed_at n prev ins p ->
  existsb (edge_match (levels_of (S n) (ins ++ [out])) p (same3 (in_at prev p) BIT4_0) (same3 (in_at prev p) BIT4_X) (same3 (in_at prev p) BIT4_1))
    (flat_map (edge_rows_of n o) tab)
  = edge_fires n tab prev ins out (char_of_out o).
Proof.
  intros Hl Hn Hwf Hx Hp. rewrite existsb_flat_map. apply existsb_ext_in. intros row Hrow.
  rewrite Forall_forall in Hwf. specialize (Hwf row Hrow). unfold edge_rows_of. rewrite <- (out_is_char n row o Hwf).
  rewrite (bool_decide_eq_false_2 (o = OutX)), andb_true_r by done.
  destruct Hwf as (Hlen & H0 & _ & [Hlev|[q Hq]]).
  - rewrite (proj2 (is_level_row_spec n row Hlen)) by done. by rewrite andb_false_r.
  - rewrite (edge_not_level n row q Hlen Hq), (edge_row_rows n row q Hn Hq H0). destruct (out_is n row o); [|done]. cbn [andb negb].
    rewrite edge_row_match by done. destruct (edge_row_fires n prev ins out row) eqn:E; [|by rewrite andb_false_r].
    by rewrite (edge_fires_there n prev ins out row q p Hp Hq E), Nat.eqb_refl.
Qed.

(** The output of a sequential primitive. *)
Lemma calculate_seq n init tab u prev ins out : (n < 32)%nat -> Forall (seq_row_wf n) tab -> compile_table_seq n init tab = Some u ->
  length ins = n -> out <> BIT4_Z ->
  (all_ports n (fun i => same3 (in_at ins i) (in_at prev i)) = true \/ exists p, changed_at n prev ins p) ->
  calculate_output_seq u (levels_of n ins) (levels_of n prev) out = Some (seq_spec n tab prev ins out).
Proof.
  intros Hn Hwf Hu Hl Hz Hch. destruct (compile_seq n init tab ltac:(lia) Hwf) as (u' & E & Hports & _ & Hrows).
  rewrite Hu in E. injection E as <-. unfold calculate_output_seq, seq_spec. rewrite levels_eqb_same.
  destruct (all_ports n (fun i => same3 (in_at ins i) (in_at prev i))) eqn:Hsame; [done|].
  destruct Hch as [Hch|[p Hp]]; [done|]. rewrite Hports, levels_of_S by (done || lia).
  unfold test_levels_. rewrite !(proj1 (Hrows _)), !levels_exist by done. cbn [char_of_out].
  destruct (level_fires n tab ins out "0"); [done|]. destruct (level_fires n tab ins out "1"); [done|].
  destruct (level_fires n tab ins out "x"); [done|]. destruct (level_fires n tab ins out "-").
  { rewrite Hports, current_output_spec by done. cbn [mbind option_bind]. by rewrite decide_False. }
  cbn [mbind option_bind]. rewrite decide_True by done. unfold test_edges_. rewrite Hports, changed_mask by (done || lia).
    rewrite (single_bit _ n p) by (first [apply Hp | intros i Hi Hip; by rewrite (proj2 (proj2 Hp))|by rewrite (proj1 (proj2 Hp))]).
    destruct Hp as (Hpn & Hpd & Hps). pose proof (pow2_pos (Z.of_nat p) ltac:(lia)). rewrite (proj2 (Z.eqb_neq _ _)) by lia.
    rewrite find_edge_pow by lia. rewrite Z.eqb_refl. cbn [Nat.add].
    change (mask0 (levels_of n prev)) with (Zbits (fun i => same3 (in_at prev i) BIT4_0) n).
    change (mask1 (levels_of n prev)) with (Zbits (fun i => same3 (in_at prev i) BIT4_1) n).
    change (maskx (levels_of n prev)) with (Zbits (fun i => same3 (in_at prev i) BIT4_X) n).
    rewrite !prev_bit, !(proj2 (Hrows _)), !edges_exist by (done || lia). cbn [char_of_out].
    destruct (edge_fires n tab prev ins out "0"); [done|]. destruct (edge_fires n tab prev ins out "1"); [done|].
    destruct (edge_fires n tab prev ins out "-"); [|done]. by rewrite current_output_spec.
Qed.

(** ** Instances *)

Lemma in_at_insert ins p b i : (p < length ins)%nat -> in_at (<[p := b]> ins) i = if decide (i = p) then b else in_at ins i.
Proof.
  intros Hp. unfold in_at. case_decide as E; [subst; by rewrite list_lookup_insert_eq|by rewrite list_lookup_insert_ne].
Qed.

(** Receiving a bit replaces it in the masks. *)
Lemma levels_of_insert n ins p b : length ins = n -> (n < 64)%nat -> (p < n)%nat ->
  let t := levels_of n ins in
  let mask := bit_mask p in
  levels_of n (<[p := b]> ins) =
    match b with
    | BIT4_0 => Levels (mask0 t .| mask) (mask1 t .& .~ mask) (maskx t .& .~ mask)
    | BIT4_1 => Levels (mask0 t .& .~ mask) (mask1 t .| mask) (maskx t .& .~ mask)
    | _ => Levels (mask0 t .& .~ mask) (mask1 t .& .~ mask) (maskx t .| mask)
    end.
Proof.
  intros Hl Hn Hp t mask.
  assert (Hset : forall f, (forall i, f i = if decide (i = p) then true else f i) -> Zbits f n .| mask = Zbits f n).
  { intros f Hf. apply Z.bits_inj'. intros i Hi. unfold mask. rewrite Z.lor_spec, bit_mask_bit, Zbits_testbit by lia.
    destruct (Z.eqb_spec i (Z.of_nat p)) as [->|]; [|btauto]. rewrite Nat2Z.id, Hf, decide_True, (proj2 (Z.ltb_lt _ _)) by (done || lia). done. }
  assert (Hor : forall c, Zbits (fun i => same3 (in_at ins i) c) n .| mask
      = Zbits (fun i => if decide (i = p) then true else same3 (in_at ins i) c) n).
  { intros c. apply Z.bits_inj'. intros i Hi. unfold mask. rewrite Z.lor_spec, bit_mask_bit, !Zbits_testbit by lia.
    destruct (Z.eqb_spec i (Z.of_nat p)) as [->|].
    - rewrite Nat2Z.id, decide_True, (proj2 (Z.ltb_lt _ _)) by (done || lia). btauto.
    - rewrite decide_False by lia. btauto. }
  assert (Hand : forall c, Zbits (fun i => same3 (in_at ins i) c) n .& .~ mask
      = Zbits (fun i => if decide (i = p) then false else same3 (in_at ins i) c) n).
  { intros c. apply Z.bits_inj'. intros i Hi. unfold mask. rewrite Z.land_spec, not64_bit, bit_mask_bit, !Zbits_testbit by lia.
    destruct (Z.ltb_spec i (Z.of_nat n)); [|done]. rewrite (proj2 (Z.ltb_lt i 64)) by lia.
    destruct (Z.eqb_spec i (Z.of_nat p)) as [->|].
    - rewrite Nat2Z.id, decide_True by done. btauto.
    - rewrite decide_False by lia. btauto. }
  unfold t, levels_of, masks. cbn [mask0 mask1 maskx]. rewrite !Hor, !Hand.
  destruct b; f_equal; apply Zbits_ext; intros i Hi; rewrite in_at_insert by lia; by case_decide.
Qed.

Lemma insert_changes n ins p b : length ins = n -> (p < n)%nat ->
  all_ports n (fun i => same3 (in_at (<[p := b]> ins) i) (in_at ins i)) = true \/ exists q, changed_at n ins (<[p := b]> ins) q.
Proof.
  intros Hl Hp.
  assert (Ho : forall i, i <> p -> same3 (in_at (<[p := b]> ins) i) (in_at ins i) = true).
  { intros i Hi. rewrite in_at_insert, decide_False by (lia || done). unfold same3. by apply bool_decide_eq_true. }
  destruct (same3 (in_at (<[p := b]> ins) p) (in_at ins p)) eqn:E.
  - left. apply forallb_forall. intros i _. destruct (decide (i = p)) as [->|]; [done|by apply Ho].
  - right. exists p. by split; [|split; [|intros; apply Ho]].
Qed.

Lemma calculate_comb n tab ins : (n <= 64)%nat -> Forall (comb_row_wf n) tab -> forall u, compile_table_comb n tab = Some u ->
  test_levels u (levels_of n ins) = comb_spec n tab ins.
Proof.
  intros Hn Hwf u Hu. rewrite (compile_comb n tab Hn Hwf) in Hu. injection Hu as <-. unfold test_levels, comb_spec. cbn.
  assert (E : forall c, existsb (levels_match (levels_of n ins)) (flat_map (comb_rows n c) tab)
    = existsb (fun row => bool_decide (char_at row n = c) && comb_row_fires n ins row) tab).
  { intros c. rewrite existsb_flat_map. apply existsb_ext_in. intros row _. unfold comb_rows.
    case_bool_decide; [|done]. cbn. by rewrite comb_row_match, orb_false_r. }
  by rewrite !E.
Qed.

Lemma compile_def sequ n init tab : udp_wf sequ n tab -> exists d, compile_udp_def sequ n init tab = Some d /\
  port_count d = n /\ get_init d = udp_start sequ init /\
  forall prev ins out, length ins = n -> out <> BIT4_Z ->
    (all_ports n (fun i => same3 (in_at ins i) (in_at prev i)) = true \/ exists p, changed_at n prev ins p) ->
    calculate_output d (levels_of n ins) (levels_of n prev) out = Some (udp_spec sequ n tab prev ins out).
Proof.
  unfold udp_wf, compile_udp_def. destruct sequ; intros [Hn Hwf].
  - edestruct (compile_seq n) as (u & E & Hp & Hi & _); [| |rewrite E]; [lia|done|]. cbn [mbind option_bind].
    exists (Seq u). split; [done|]. split; [done|]. split; [done|]. intros prev ins out Hl Hz Hch. cbn.
    by eapply calculate_seq.
  - rewrite (compile_comb n tab) by (done || lia). cbn [mbind option_bind]. eexists. split; [done|]. split; [done|]. split; [done|].
    intros prev ins out _ _ _. cbn [calculate_output udp_spec]. f_equal. apply (calculate_comb n); [lia|done|]. apply compile_comb; [lia|done].
Qed.

(** The outputs are 0, 1 or x. *)
Lemma spec_not_z sequ n tab prev ins out : out <> BIT4_Z -> udp_spec sequ n tab prev ins out <> BIT4_Z.
Proof. intros Hz. unfold udp_spec, seq_spec, comb_spec. by repeat case_match. Qed.

(** The state of an instance shows the abstract one; [s0] is how it asked for its first run. *)
Definition core_shows (d : vvp_udp_s) (n : nat) (s0 : udp_act) (c : vvp_udp_fun_core) (s : list vvp_bit4_t * vvp_bit4_t * nat) : Prop :=
  let '(ins, out, asked) := s in
  def_ c = d /\ length ins = n /\ out <> BIT4_Z /\ length (port_values_ c) = n /\
  current_ c = levels_of n ins /\ cur_out_ c = out /\ acts c = s0 :: replicate asked ScheduleFunctor.

Lemma replicate_end {A} k (x : A) : replicate k x ++ [x] = replicate (S k) x.
Proof. induction k as [|k IH]; [done|]. cbn. by rewrite IH. Qed.

Lemma dispatch_shows d sequ n tab s0 c s p v : (n < 64)%nat -> port_count d = n ->
  (forall prev ins out, length ins = n -> out <> BIT4_Z ->
    (all_ports n (fun i => same3 (in_at ins i) (in_at prev i)) = true \/ exists p, changed_at n prev ins p) ->
    calculate_output d (levels_of n ins) (levels_of n prev) out = Some (udp_spec sequ n tab prev ins out)) ->
  (p < n)%nat -> size v = 1%nat -> core_shows d n s0 c s ->
  exists c', dispatch_vec4_from_input_ c p v = Some c' /\ core_shows d n s0 c' (udp_receive sequ n tab s (p, v)).
Proof.
  destruct s as [[ins out] asked]. intros Hn Hpc Hcalc Hp Hv (Hd & Hl & Hz & Hpv & Hcur & Hout & Hacts).
  unfold dispatch_vec4_from_input_. rewrite (proj2 (Nat.ltb_lt _ _)) by lia. unfold recv_vec4_from_inputs.
  cbn [port_values_ current_ def_ cur_out_ acts]. rewrite list_lookup_insert_eq by lia. cbn [mbind option_bind].
  rewrite Hv, Nat.eqb_refl, Hd, Hcur, Hout. rewrite <- (levels_of_insert n ins p (value v 0)) by (done || lia).
  rewrite Hcalc by (rewrite ?length_insert; done || by apply insert_changes). cbn [mbind option_bind udp_receive fst snd].
  case_decide as E; (eexists; split; [reflexivity|]); cbn; rewrite !length_insert.
  - repeat split; try done. by rewrite E.
  - repeat split; try done; [by apply spec_not_z|]. by rewrite Hacts, <- app_comm_cons, replicate_end.
Qed.

(** Any sequence of values on the ports. *)
Definition receive (c : option vvp_udp_fun_core) (ev : nat * vvp_vector4_t) : option vvp_udp_fun_core :=
  c ← c; dispatch_vec4_from_input_ c (fst ev) (snd ev).

Definition udp_events_ok (n : nat) (evs : list (nat * vvp_vector4_t)) : Prop :=
  Forall (fun ev => (fst ev < n)%nat /\ size (snd ev) = 1%nat) evs.

Lemma start_shows d n s0 : (n < 64)%nat -> port_count d = n -> get_init d <> BIT4_Z ->
  s0 = (if bool_decide (get_init d <> BIT4_X) then ScheduleGeneric else ScheduleFunctor) ->
  core_shows d n s0 (udp_fun_core d) (replicate n BIT4_X, get_init d, 0%nat).
Proof.
  intros Hn Hpc Hz ->. unfold udp_fun_core. cbn. rewrite Hpc, !length_replicate. repeat split; try done.
  assert (E : forall c, Zbits (fun i => same3 (in_at (replicate n BIT4_X) i) c) n = Zbits (fun _ => same3 BIT4_X c) n).
  { intros c. apply Zbits_ext. intros i Hi. unfold in_at. by rewrite lookup_replicate_2. }
  unfold levels_of, masks. rewrite !E. clear E. f_equal; apply Z.bits_inj'; intros i Hi; rewrite Zbits_testbit by lia.
  - by rewrite Z.bits_0, andb_false_r.
  - by rewrite Z.bits_0, andb_false_r.
  - autorewrite with bits; [|lia..]. destruct (Z.ltb_spec i (Z.of_nat n)).
    + rewrite (proj2 (Z.leb_gt _ _)) by lia. split_ltb; done || lia.
    + rewrite (proj2 (Z.leb_le (Z.of_nat n) i)), ones64_bit by lia. split_ltb; done || lia.
Qed.

(** C8. A user-defined primitive computes what the characters of its table say.  A
    well-formed table compiles, within the capacity of its arrays, and an instance
    that starts with all inputs x and receives any one-bit values on its ports
    always has as its output that of the table: in a combinational primitive that
    of a row whose characters match the inputs, in a sequential one the old output
    if no input changed, else that of a matching row of levels, else that of a row
    whose edge is the change that was made, else x.  Rows for 0 come before rows for
    1.  The instance asks the scheduler for a run once at its start and once per
    change of the output, and a run sends the output of that moment. *)
Theorem udp_correct (sequ : bool) (n init : nat) (tab : list (list ascii)) (evs : list (nat * vvp_vector4_t)) :
  udp_wf sequ n tab -> udp_events_ok n evs ->
  exists d c, compile_udp_def sequ n init tab = Some d /\ fold_left receive evs (Some (udp_fun_core d)) = Some c /\
    let '(ins, out, asked) := fold_left (udp_receive sequ n tab) evs (replicate n BIT4_X, udp_start sequ init, 0%nat) in
    cur_out_ c = out /\ current_ c = levels_of n ins /\
    acts c = (if bool_decide (udp_start sequ init <> BIT4_X) then ScheduleGeneric else ScheduleFunctor) :: replicate asked ScheduleFunctor /\
    exists v, acts (udp_run_run c) = acts c ++ [Propagate v] /\ size v = 1%nat /\ value v 0 = out.
Proof.
  intros Hwf Hevs. destruct (compile_def sequ n init tab Hwf) as (d & Hd & Hpc & Hi & Hcalc).
  assert (Hn : (n < 64)%nat) by (unfold udp_wf in Hwf; destruct sequ; lia). exists d.
  assert (Hz : get_init d <> BIT4_Z) by (rewrite Hi; unfold udp_start; by repeat case_match).
  pose proof (start_shows d n _ Hn Hpc Hz eq_refl) as Hstart. rewrite Hi in Hstart.
  revert Hstart. generalize (udp_fun_core d). generalize (replicate n BIT4_X, udp_start sequ init, 0%nat).
  induction Hevs as [|[p v] evs [Hp Hv] Hevs IH]; intros s c Hs.
  - exists c. split; [done|]. split; [done|]. cbn [fold_left]. destruct s as [[ins out] asked].
    destruct Hs as (_ & _ & _ & _ & Hcur & Hout & Hacts). repeat split; try done.
    eexists. split; [done|]. rewrite set_bit_size. split; [done|].
    rewrite set_bit_value by (apply vec4_fill_wf || (cbn; lia)). by rewrite Nat.eqb_refl, Hout.
  - destruct (dispatch_shows d sequ n tab _ c s p v Hn Hpc Hcalc Hp Hv Hs) as (c' & Ec & Hs').
    cbn [fold_left]. unfold receive at 2. cbn [mbind option_bind fst snd]. rewrite Ec. by apply IH.
Qed.

End Shift.

(** ** A D flip-flop: ports clk and d *)

(** The shift of an [int] by 32 or more on x86: the count is taken modulo 32. *)
Definition x86_shift : IntShift := {| int_shl_beyond n := 2 ^ (Z.of_nat n mod 32) |}.

Definition dff : list (list ascii) := map list_ascii_of_string ["?r00"; "?r11"; "?n?-"; "??*-"]%string.

Definition one_bit (b : vvp_bit4_t) : vvp_vector4_t := vec4_fill 1 b.

(** d rises, the clock rises, d falls. *)
Definition dff_inputs : list (nat * vvp_vector4_t) := [(0, one_bit BIT4_0); (1, one_bit BIT4_1); (0, one_bit BIT4_1); (1, one_bit BIT4_0)]%nat.

Lemma dff_wf : udp_wf true 2 dff.
Proof.
  assert (Hlev : forall row, forallb (fun i => bool_decide (char_at row (i + 1) ∈ level_chars)) (seq 0 2) = true ->
    forall i, (i < 2)%nat -> char_at row (i + 1) ∈ level_chars).
  { intros row E i Hi. rewrite forallb_forall in E. eapply bool_decide_eq_true_1, E, in_seq. lia. }
  assert (Hedge : forall p row, (p < 2)%nat -> bool_decide (char_at row (p + 1) ∈ edge_chars) = true ->
    bool_decide (char_at row (1 - p + 1) ∈ level_chars) = true -> edge_at 2 row p).
  { intros p row Hp He Hl. split; [done|]. split; [by eapply bool_decide_eq_true_1|]. intros i Hi Hip.
    replace i with (1 - p)%nat by lia. by eapply bool_decide_eq_true_1. }
  assert (Hrow : forall row, length row = 4%nat -> bool_decide (char_at row 0 ∈ level_chars) = true ->
    bool_decide (char_at row 3 ∈ ["0"; "1"; "x"; "-"]) = true -> (exists p, edge_at 2 row p) -> seq_row_wf 2 row).
  { intros row Hl H0 Ho He. split; [done|]. split; [by eapply bool_decide_eq_true_1|]. split; [|by right].
    by eapply (bool_decide_eq_true_1 (char_at row 3 ∈ _)). }
  split; [lia|]. unfold dff. cbn [map].
  repeat (apply list.Forall_cons; split); [..|apply Forall_nil; done].
  - apply Hrow; [done..|]. exists 0%nat. apply Hedge; [lia|done..].
  - apply Hrow; [done..|]. exists 0%nat. apply Hedge; [lia|done..].
  - apply Hrow; [done..|]. exists 0%nat. apply Hedge; [lia|done..].
  - apply Hrow; [done..|]. exists 1%nat. apply Hedge; [lia|done..].
Qed.

Lemma dff_inputs_ok : udp_events_ok 2 dff_inputs.
Proof. repeat constructor. Qed.

Lemma dff_outputs : fold_left (udp_receive true 2 dff) dff_inputs (replicate 2 BIT4_X, udp_start true 0, 0%nat) = ([BIT4_1; BIT4_0], BIT4_1, 1%nat).
Proof. by vm_compute. Qed.

(** The output rose with the clock, and kept its value when d fell. *)
Lemma udp_correct_witness : exists d c, @compile_udp_def true 2 0 dff = Some d /\
  fold_left (@receive x86_shift) dff_inputs (Some (udp_fun_core d)) = Some c /\
  cur_out_ c = BIT4_1 /\ acts c = [ScheduleGeneric; ScheduleFunctor].
Proof.
  pose proof (@udp_correct x86_shift true 2 0 dff dff_inputs dff_wf dff_inputs_ok) as (d & c & Hd & Hc & Hs).
  rewrite dff_outputs in Hs. destruct Hs as (Ho & _ & Ha & _). exists d, c. split; [exact Hd|]. split; [exact Hc|]. split; [exact Ho|exact Ha].
Defined.

(** The bit of the current output is tested with [1 << port_count()], an [int]: in a
    sequential primitive of 32 inputs a row that keeps the output gives, on x86,
    the value of the first input instead. *)
Definition keep32 : list (list ascii) := [replicate 33 "?" ++ ["-"]].

Lemma keep_output_of_32_inputs : exists u, compile_table_seq 32 BIT4_1 keep32 = Some u /\
  @calculate_output_seq x86_shift u (levels_of 32 (BIT4_0 :: replicate 31 BIT4_1)) (levels_of 32 (replicate 32 BIT4_1)) BIT4_1 = Some BIT4_0 /\
  seq_spec 32 keep32 (replicate 32 BIT4_1) (BIT4_0 :: replicate 31 BIT4_1) BIT4_1 = BIT4_1.
Proof. eexists. split; [vm_compute; reflexivity|]. split; vm_compute; reflexivity. Qed.
