(* ===== verification/Strength.v ===== *)
(** * Strength: values with strengths, vectors of them, and resolvers (vvp/vvp_net.h, vvp/vvp_net.cc, vvp/resolv.cc)

    A [vvp_scalar_t] is its byte: two nibbles VSSS, the high one the side nearest to
    supply1, the low one that nearest to supply0.  A [vvp_vector8_t] is its size
    and its bytes: eight in place for sizes up to 8, as many as the size beyond. *)

From S2P Require Import Prelude FourState Vector4 Vector4Ops Vector2.
Import Bit4.

Open Scope ivl_scope.

(** ** vvp_scalar_t *)

Abbreviation vvp_scalar_t := Z (only parsing).

(** [vvp_scalar_t()] *)
Definition scalar_hiz : vvp_scalar_t := 0.

(** [vvp_scalar_t(val, str0, str1)] *)
Definition scalar_of_bit4 (val : vvp_bit4_t) (str0 str1 : Z) : option vvp_scalar_t :=
  if (str0 <=? 7) && (str1 <=? 7) then
    Some (if (str0 =? 0) && (str1 =? 0) then 0
          else match val with
               | BIT4_0 => str0 .| Z.shiftl str0 4
               | BIT4_1 => str1 .| Z.shiftl str1 4 .| 0x88
               | BIT4_X => str0 .| Z.shiftl str1 4 .| 0x80
               | BIT4_Z => 0
               end)
  else None.

Definition is_hiz (a : vvp_scalar_t) : bool := a .& 0x77 =? 0.

(** [vvp_scalar_t::value] *)
Definition scalar_value (a : vvp_scalar_t) : vvp_bit4_t :=
  if a .& 0x77 =? 0 then BIT4_Z
  else if a .& 0x88 =? 0 then BIT4_0
  else if a .& 0x88 =? 0x88 then BIT4_1
  else BIT4_X.

(** [STREN1], [STREN0], [UNAMBIG] *)
Definition STREN1 (v : Z) : Z := Z.shiftr (v .& 0x70) 4.
Definition STREN0 (v : Z) : Z := v .& 0x07.
Definition UNAMBIG (v : Z) : bool := v .& 0x0f =? Z.shiftr v 4 .& 0x0f.

(** [strength0] and [strength1] *)
Definition strength0 (a : vvp_scalar_t) : Z := STREN0 a.
Definition strength1 (a : vvp_scalar_t) : Z := STREN1 a.

(** The branch of one unambiguous value [a]: it sweeps up the weaker parts of [b]. *)
Definition resolv_unambig (a b : vvp_scalar_t) : vvp_scalar_t :=
  let res := scalar_hiz in
  let res := if a .& 0x70 >? b .& 0x70 then res .| (a .& 0xf0) else res .| (b .& 0xf0) in
  if a .& 0x07 >? b .& 0x07 then res .| (a .& 0x0f) else res .| (b .& 0x0f).

(** The signed strengths of the two sides. *)
Definition side1 (v : Z) : Z := if v .& 0x80 =? 0 then - STREN1 v else STREN1 v.
Definition side0 (v : Z) : Z := if v .& 0x08 =? 0 then - STREN0 v else STREN0 v.

Definition fully_featured_resolv_ (a b : vvp_scalar_t) : vvp_scalar_t :=
  if UNAMBIG a && UNAMBIG b then
    if b .& 0x07 >? a .& 0x07 then b
    else if b .& 0x77 =? a .& 0x77 then (a .& 0x77) .| 0x80
    else a
  else if UNAMBIG a then resolv_unambig a b
  else if UNAMBIG b then resolv_unambig b a
  else
    let sv1a := side1 a in let sv0a := side0 a in
    let sv1b := side1 b in let sv0b := side0 b in
    let sv1 := sv1a in
    let sv0 := sv0a in
    let sv1 := if sv0a >? sv1 then sv0a else sv1 in
    let sv1 := if sv1b >? sv1 then sv1b else sv1 in
    let sv1 := if sv0b >? sv1 then sv0b else sv1 in
    let sv0 := if sv1a <? sv0 then sv1a else sv0 in
    let sv0 := if sv1b <? sv0 then sv1b else sv0 in
    let sv0 := if sv0b <? sv0 then sv0b else sv0 in
    let tmp := if sv1 >? 0 then 0x80 .| Z.shiftl sv1 4 else (a .& b .& 0x80) .| Z.shiftl (- sv1) 4 in
    let tmp := if sv0 >? 0 then tmp .| 0x08 .| sv0 else tmp .| - sv0 in
    if tmp .& 0x77 =? 0 then 0 else tmp.

(** [resolve(vvp_scalar_t, vvp_scalar_t)] *)
Definition resolve (a b : vvp_scalar_t) : vvp_scalar_t :=
  if is_hiz a then b
  else if is_hiz b then a
  else if a =? b then a
  else fully_featured_resolv_ a b.

(** ** vvp_vector8_t *)

Record vvp_vector8_t := Vec8 { size8 : nat; bytes8 : list Z }.

(** [sizeof(val_)] *)
Definition VAL_BYTES : nat := 8.

Definition room8 (size : nat) : nat := if (size <=? VAL_BYTES)%nat then VAL_BYTES else size.

(** [vvp_vector8_t(size)] *)
Definition vec8_new (size : nat) : vvp_vector8_t := Vec8 size (replicate (room8 size) 0).

Definition value8 (v : vvp_vector8_t) (idx : nat) : option vvp_scalar_t :=
  if (idx <? size8 v)%nat then bytes8 v !! idx else None.

Definition set_bit8 (v : vvp_vector8_t) (idx : nat) (val : vvp_scalar_t) : option vvp_vector8_t :=
  if (idx <? size8 v)%nat then Some (Vec8 (size8 v) (<[idx := val]> (bytes8 v))) else None.

(** [vvp_vector8_t(const vvp_vector4_t&, str0, str1)]; the bytes of an empty vector are never read. *)
Definition vec8_of_vec4 (that : vvp_vector4_t) (str0 str1 : Z) : option vvp_vector8_t :=
  for_loop (size that) 0 (fun idx v =>
    v ← v; s ← scalar_of_bit4 (value that idx) str0 str1; Some (Vec8 (size8 v) (<[idx := s]> (bytes8 v))))
    (Some (vec8_new (size that))).

(** [vvp_vector8_t(const vvp_vector2_t&, str0, str1)] *)
Definition vec8_of_vec2 (that : vvp_vector2_t) (str0 str1 : Z) : option vvp_vector8_t :=
  for_loop (wid_ that) 0 (fun idx v =>
    v ← v; s ← scalar_of_bit4 (if vec2_value that idx then BIT4_1 else BIT4_0) str0 str1; Some (Vec8 (size8 v) (<[idx := s]> (bytes8 v))))
    (Some (vec8_new (wid_ that))).

(** [eeq]: up to 8 bits all the bytes in place are compared, as one pointer. *)
Definition eeq8 (this that : vvp_vector8_t) : bool :=
  if negb (size8 this =? size8 that)%nat then false
  else if (size8 this =? 0)%nat then true
  else bool_decide (bytes8 this = bytes8 that).

Definition subvalue8 (this : vvp_vector8_t) (base wid : nat) : vvp_vector8_t :=
  let tmp := vec8_new wid in
  for_loop (Nat.min wid (size8 this - base)) 0 (fun idx tmp => Vec8 (size8 tmp) (<[idx := default 0 (bytes8 this !! (base + idx)%nat)]> (bytes8 tmp))) tmp.

Definition set_vec8 (this : vvp_vector8_t) (base : nat) (that : vvp_vector8_t) : option vvp_vector8_t :=
  if (base + size8 that <=? size8 this)%nat then
    for_loop (size8 that) 0 (fun idx t => t ← t; s ← value8 that idx; set_bit8 t (base + idx) s) (Some this)
  else None.

Definition part_expand8 (that : vvp_vector8_t) (wid off : nat) : option vvp_vector8_t :=
  if (off <? wid)%nat then
    Some (for_loop (Nat.min (wid - off) (size8 that)) off
      (fun idx tmp => Vec8 (size8 tmp) (<[idx := default 0 (bytes8 that !! (idx - off)%nat)]> (bytes8 tmp))) (vec8_new wid))
  else None.

(** [resolve(vvp_vector8_t, vvp_vector8_t)] *)
Definition resolve8 (a b : vvp_vector8_t) : option vvp_vector8_t :=
  if (size8 a =? size8 b)%nat then
    for_loop (size8 a) 0 (fun idx out => out ← out; x ← value8 a idx; y ← value8 b idx; set_bit8 out idx (resolve x y)) (Some (vec8_new (size8 a)))
  else None.

(** [reduce4] *)
Definition reduce4 (that : vvp_vector8_t) : option vvp_vector4_t :=
  for_loop (size8 that) 0 (fun idx out => out ← out; s ← value8 that idx; Some (set_bit out idx (scalar_value s)))
    (Some (vec4_fill (size8 that) BIT4_X)).

(** [vvp_net_fun_t::recv_vec8_pv_]: the part as a full vector for [recv_vec8]. *)
Definition recv_vec8_pv_ {A} (recv_vec8 : vvp_vector8_t -> option A) (bit : vvp_vector8_t) (base vwid : nat) : option A :=
  if (base + size8 bit <=? vwid)%nat then tmp ← set_vec8 (vec8_new vwid) base bit; recv_vec8 tmp else None.

(** [vvp_fun_drive::recv_vec4] *)
Definition drive_recv_vec4 (drive0 drive1 : Z) (bit : vvp_vector4_t) : option vvp_vector8_t := vec8_of_vec4 bit drive0 drive1.

(** ** Nets with several drivers (vvp/resolv.h, vvp/resolv.cc)

    A resolver keeps the values of its inputs and of the inner nodes of a tree in
    which each node has four children; the array [val_] holds the levels one after
    the other.  [resolv_tri] and [resolv_wired_logic] have the same loop, on
    different vectors: Section [Tree]. *)
Import Bit4.

Open Scope ivl_scope.

Section Tree.
Context {V : Type} (vsize : V -> nat) (veeq : V -> V -> bool) (math : V -> V -> option V).

(** [for (ip = ip + 1; ip < ll; ip += 1) ...] on the children of a node. *)
Definition resolve_children (val_ : list V) (ip ll : nat) : option V :=
  for_loop (ll - (ip + 1)) (ip + 1) (fun ip out =>
    out ← out; v ← val_ !! ip;
    if (vsize v =? 0)%nat then Some out
    else if (vsize out =? 0)%nat then Some v
    else math out v) (val_ !! ip).

(** Where the loop down the tree ends: at a node that does not change, or at the root. *)
Inductive walk_end := Unchanged | Root (base : nat).

(** [while (span > 1) ...]; the span shrinks in every round. *)
Fixpoint walk (fuel : nat) (val_ : list V) (base span port : nat) : option (list V * walk_end) :=
  if (span <=? 1)%nat then Some (val_, Root base)
  else
    match fuel with
    | O => None
    | S fuel' =>
      let next_base := (base + span)%nat in
      let ip := (base + (port - port mod 4))%nat in
      let op := (next_base + port / 4)%nat in
      let ll := Nat.min (ip + 4) next_base in
      out ← resolve_children val_ ip ll;
      old ← val_ !! op;
      if veeq old out then Some (val_, Unchanged)
      else walk fuel' (<[op := out]> val_) next_base ((span + 3) / 4) (port / 4)
    end.

(** The nodes of the tree: inputs, branches, and the output if it is not an input. *)
Fixpoint branch_nodes (fuel nports : nat) : nat :=
  match fuel with
  | O => 0
  | S fuel' => if (4 <? nports)%nat then (nports + 3) / 4 + branch_nodes fuel' ((nports + 3) / 4) else 0
  end.

Definition nnodes (nports : nat) : nat :=
  let n := (nports + branch_nodes nports nports)%nat in
  if (1 <? n)%nat then S n else n.

(** The common part of [recv_vec4_] and [recv_vec8_]: the input, then the loop. *)
Definition recv_input (nports : nat) (val_ : list V) (port : nat) (bit : V) : option (list V * walk_end) :=
  if (port <? nports)%nat then
    old ← val_ !! port;
    if veeq old bit then Some (val_, Unchanged)
    else walk nports (<[port := bit]> val_) 0 nports port
  else None.

End Tree.

(** ** resolv_tri *)

Record resolv_tri := ResolvTri { tri_nports : nat; hiz_value_ : vvp_scalar_t; tri_val : list vvp_vector8_t }.

Definition new_resolv_tri (nports : nat) (hiz_value : vvp_scalar_t) : resolv_tri :=
  ResolvTri nports hiz_value (replicate (nnodes nports) (vec8_new 0)).

(** The puller, blended into the output in place. *)
Definition pull_output (hiz : vvp_scalar_t) (v : vvp_vector8_t) : option vvp_vector8_t :=
  if is_hiz hiz then Some v
  else for_loop (size8 v) 0 (fun idx v => v ← v; s ← value8 v idx; set_bit8 v idx (resolve s hiz)) (Some v).

(** [resolv_tri::recv_vec8_], with the vector that is sent. *)
Definition tri_recv_vec8 (r : resolv_tri) (port : nat) (bit : vvp_vector8_t) : option (resolv_tri * option vvp_vector8_t) :=
  '(vals, e) ← recv_input size8 eeq8 resolve8 (tri_nports r) (tri_val r) port bit;
  match e with
  | Unchanged => Some (ResolvTri (tri_nports r) (hiz_value_ r) vals, None)
  | Root base =>
    v ← vals !! base;
    v ← pull_output (hiz_value_ r) v;
    Some (ResolvTri (tri_nports r) (hiz_value_ r) (<[base := v]> vals), Some v)
  end.

(** [resolv_tri::recv_vec4_]: strong values. *)
Definition tri_recv_vec4 (r : resolv_tri) (port : nat) (bit : vvp_vector4_t) : option (resolv_tri * option vvp_vector8_t) :=
  v ← vec8_of_vec4 bit 6 6; tri_recv_vec8 r port v.

(** [resolv_core::recv_vec4_pv_] and [recv_vec8_pv_]: the bits around the part are not driven. *)
Definition core_vec4_pv (bit : vvp_vector4_t) (base vwid : nat) : vvp_vector4_t :=
  let wid := size bit in
  let res := vec4_fill vwid BIT4_X in
  let res := for_loop base 0 (fun idx res => set_bit res idx BIT4_Z) res in
  let res := for_loop (Nat.min wid (vwid - base)) 0 (fun idx res => set_bit res (idx + base) (value bit idx)) res in
  for_loop (vwid - (base + wid)) (base + wid) (fun idx res => set_bit res idx BIT4_Z) res.

Definition core_vec8_pv (bit : vvp_vector8_t) (base vwid : nat) : option vvp_vector8_t :=
  let wid := size8 bit in
  let res := Some (vec8_new vwid) in
  let res := for_loop base 0 (fun idx res => res ← res; set_bit8 res idx scalar_hiz) res in
  let res := for_loop (Nat.min wid (vwid - base)) 0 (fun idx res => res ← res; s ← value8 bit idx; set_bit8 res (idx + base) s) res in
  for_loop (vwid - (base + wid)) (base + wid) (fun idx res => res ← res; set_bit8 res idx scalar_hiz) res.

Definition tri_recv_vec4_pv (r : resolv_tri) (port : nat) (bit : vvp_vector4_t) (base vwid : nat) : option (resolv_tri * option vvp_vector8_t) :=
  tri_recv_vec4 r port (core_vec4_pv bit base vwid).

Definition tri_recv_vec8_pv (r : resolv_tri) (port : nat) (bit : vvp_vector8_t) (base vwid : nat) : option (resolv_tri * option vvp_vector8_t) :=
  v ← core_vec8_pv bit base vwid; tri_recv_vec8 r port v.

(** [resolv_extend] hands the inputs beyond the first four to the resolver. *)
Definition extend_port (port_base port : nat) : nat := port_base + port.

(** ** resolv_triand, resolv_trior *)

Definition triand_bit (abit bbit : vvp_bit4_t) : vvp_bit4_t :=
  if decide (abit = BIT4_Z) then bbit
  else if decide (bbit = BIT4_Z) then abit
  else if decide (abit = BIT4_0 \/ bbit = BIT4_0) then BIT4_0
  else if decide (abit = BIT4_X \/ bbit = BIT4_X) then BIT4_X
  else BIT4_1.

Definition trior_bit (abit bbit : vvp_bit4_t) : vvp_bit4_t :=
  if decide (abit = BIT4_Z) then bbit
  else if decide (bbit = BIT4_Z) then abit
  else if decide (abit = BIT4_1 \/ bbit = BIT4_1) then BIT4_1
  else if decide (abit = BIT4_X \/ bbit = BIT4_X) then BIT4_X
  else BIT4_0.

(** [wired_logic_math_] of both classes. *)
Definition wired_logic_math_ (f : vvp_bit4_t -> vvp_bit4_t -> vvp_bit4_t) (a b : vvp_vector4_t) : option vvp_vector4_t :=
  if (size a =? size b)%nat then
    Some (for_loop (size a) 0 (fun idx out => set_bit out idx (f (value a idx) (value b idx))) (vec4_fill (size a) BIT4_X))
  else None.

Record resolv_wired_logic := ResolvWired { wired_nports : nat; wired_bit : vvp_bit4_t -> vvp_bit4_t -> vvp_bit4_t; wired_val : list vvp_vector4_t }.

Definition new_resolv_wired_logic (nports : nat) (f : vvp_bit4_t -> vvp_bit4_t -> vvp_bit4_t) : resolv_wired_logic :=
  ResolvWired nports f (replicate (nnodes nports) (vec4_fill 0 BIT4_X)).

(** [resolv_wired_logic::recv_vec4_] *)
Definition wired_recv_vec4 (r : resolv_wired_logic) (port : nat) (bit : vvp_vector4_t) : option (resolv_wired_logic * option vvp_vector4_t) :=
  '(vals, e) ← recv_input size eeq (wired_logic_math_ (wired_bit r)) (wired_nports r) (wired_val r) port bit;
  match e with
  | Unchanged => Some (ResolvWired (wired_nports r) (wired_bit r) vals, None)
  | Root base => v ← vals !! base; Some (ResolvWired (wired_nports r) (wired_bit r) vals, Some v)
  end.

(** [resolv_wired_logic::recv_vec8_] *)
Definition wired_recv_vec8 (r : resolv_wired_logic) (port : nat) (bit : vvp_vector8_t) : option (resolv_wired_logic * option vvp_vector4_t) :=
  v ← reduce4 bit; wired_recv_vec4 r port v.
