(* ===== verification/StrengthSpec.v ===== *)
(** * StrengthSpec: what strength values mean

    [drive m0 m1] is the value of a net that is driven to 0 with strength [m0] and
    to 1 with strength [m1] at most, without further ambiguity; resolution of such
    values takes the maximum on both sides.  Vectors are viewed as lists of bytes. *)

From S2P Require Import Prelude FourState Vector4 Vector4Value Vector4Ops Vector4Reduce Vector2 Bits Strength.
Import Bit4.

Open Scope ivl_scope.

(** ** Values that are not ambiguous, and x of equal strengths *)

Definition drive (m0 m1 : Z) : vvp_scalar_t :=
  if m1 <? m0 then 0x11 * m0
  else if m0 <? m1 then 0x11 * m1 + 0x88
  else if m0 =? 0 then 0
  else 0x11 * m0 + 0x80.

(** The strengths with which a value drives to 0 and to 1. *)
Definition push0 (s : vvp_scalar_t) : Z :=
  match scalar_value s with BIT4_0 | BIT4_X => strength0 s | _ => 0 end.
Definition push1 (s : vvp_scalar_t) : Z :=
  match scalar_value s with BIT4_1 | BIT4_X => strength1 s | _ => 0 end.

(** The strongest of several drivers. *)
Definition strongest (l : list vvp_scalar_t) : vvp_scalar_t :=
  drive (foldr Z.max 0 (map push0 l)) (foldr Z.max 0 (map push1 l)).

Definition strengths : list Z := [0; 1; 2; 3; 4; 5; 6; 7].

Definition definite (s : vvp_scalar_t) : Prop := exists m0 m1, m0 ∈ strengths /\ m1 ∈ strengths /\ s = drive m0 m1.

(** Check a property of the strengths by evaluation. *)
Lemma strengths_forall (f : Z -> bool) : forallb f strengths = true -> forall m, m ∈ strengths -> f m = true.
Proof. intros E m Hm. rewrite forallb_forall in E. apply E. by apply list_elem_of_In. Qed.

Lemma strengths2_forall (f : Z -> Z -> bool) : forallb (fun a => forallb (f a) strengths) strengths = true ->
  forall a b, a ∈ strengths -> b ∈ strengths -> f a b = true.
Proof. intros E a b Ha Hb. apply (strengths_forall (f a)); [|done]. by apply (strengths_forall (fun a => forallb (f a) strengths)). Qed.

Lemma strengths4_forall (f : Z -> Z -> Z -> Z -> bool) :
  forallb (fun a => forallb (fun b => forallb (fun c => forallb (f a b c) strengths) strengths) strengths) strengths = true ->
  forall a b c d, a ∈ strengths -> b ∈ strengths -> c ∈ strengths -> d ∈ strengths -> f a b c d = true.
Proof.
  intros E a b c d Ha Hb Hc Hd. apply (strengths2_forall (f a b)); [|done..].
  apply (strengths2_forall (fun a b => forallb (fun c => forallb (f a b c) strengths) strengths)); done.
Qed.

Lemma in_strengths m : m ∈ strengths <-> 0 <= m <= 7.
Proof.
  unfold strengths. rewrite !elem_of_cons. split; [|lia]. intros Hm.
  repeat destruct Hm as [->|Hm]; try lia. by apply not_elem_of_nil in Hm.
Qed.

Lemma resolve_drive a0 a1 b0 b1 : a0 ∈ strengths -> a1 ∈ strengths -> b0 ∈ strengths -> b1 ∈ strengths ->
  resolve (drive a0 a1) (drive b0 b1) = drive (Z.max a0 b0) (Z.max a1 b1).
Proof.
  intros H1 H2 H3 H4. apply Z.eqb_eq. apply (strengths4_forall (fun a0 a1 b0 b1 =>
    resolve (drive a0 a1) (drive b0 b1) =? drive (Z.max a0 b0) (Z.max a1 b1))); [|done..]. by vm_compute.
Qed.

Lemma max_strengths a b : a ∈ strengths -> b ∈ strengths -> Z.max a b ∈ strengths.
Proof. rewrite !in_strengths. lia. Qed.

Lemma definite_resolve a b : definite a -> definite b -> definite (resolve a b).
Proof.
  intros (a0 & a1 & Ha0 & Ha1 & ->) (b0 & b1 & Hb0 & Hb1 & ->). rewrite resolve_drive by done.
  exists (Z.max a0 b0), (Z.max a1 b1). by split; [|split]; [apply max_strengths..|].
Qed.

Lemma resolve_assoc a b c : definite a -> definite b -> definite c -> resolve (resolve a b) c = resolve a (resolve b c).
Proof.
  intros (a0 & a1 & Ha0 & Ha1 & ->) (b0 & b1 & Hb0 & Hb1 & ->) (c0 & c1 & Hc0 & Hc1 & ->).
  rewrite !resolve_drive by (done || by apply max_strengths). by rewrite !Z.max_assoc.
Qed.

Lemma drive_push s : definite s -> push0 s ∈ strengths /\ push1 s ∈ strengths /\ drive (push0 s) (push1 s) = s.
Proof.
  intros (m0 & m1 & H0 & H1 & ->).
  pose proof (strengths2_forall (fun m0 m1 => bool_decide (push0 (drive m0 m1) ∈ strengths) && bool_decide (push1 (drive m0 m1) ∈ strengths) &&
    (drive (push0 (drive m0 m1)) (push1 (drive m0 m1)) =? drive m0 m1)) ltac:(by vm_compute) m0 m1 H0 H1) as E.
  cbn beta in E. rewrite !andb_true_iff, !bool_decide_eq_true, Z.eqb_eq in E. tauto.
Qed.

Lemma foldr_max_strengths l : Forall (fun m => m ∈ strengths) l -> foldr Z.max 0 l ∈ strengths.
Proof. induction 1 as [|m l Hm Hl IH]; [apply in_strengths; cbn; lia|]. cbn. by apply max_strengths. Qed.

Lemma pushes_strengths l : Forall definite l ->
  foldr Z.max 0 (map push0 l) ∈ strengths /\ foldr Z.max 0 (map push1 l) ∈ strengths.
Proof.
  intros Hl. split; apply foldr_max_strengths, Forall_map; (eapply Forall_impl; [|exact Hl]); intros s Hs; by apply drive_push.
Qed.

(** Resolution in sequence gives the strongest. *)
Lemma resolve_strongest l : forall c, definite c -> Forall definite l -> foldl resolve c l = strongest (c :: l).
Proof.
  unfold strongest. induction l as [|d l IH]; intros c Hc Hl; cbn [foldl].
  - destruct (drive_push c Hc) as (H0 & H1 & E). apply in_strengths in H0, H1. cbn. by rewrite !Z.max_l by lia.
  - apply list.Forall_cons in Hl as [Hd Hl]. rewrite IH by (done || by apply definite_resolve).
    destruct (pushes_strengths l Hl) as [P0 P1]. destruct (drive_push c Hc) as (C0 & C1 & Ec), (drive_push d Hd) as (D0 & D1 & Ed).
    cbn [map foldr]. rewrite !Z.max_assoc. rewrite <- (resolve_drive (Z.max (push0 c) (push0 d))) by (done || by apply max_strengths).
    rewrite <- (resolve_drive (push0 c)) by done. rewrite Ec, Ed.
    destruct (drive_push (resolve c d) (definite_resolve c d Hc Hd)) as (R0 & R1 & Er).
    rewrite <- Er at 3. by rewrite resolve_drive.
Qed.

Lemma strongest_app l h : Forall definite l -> definite h -> resolve (strongest l) h = strongest (h :: l).
Proof.
  intros Hl Hh. destruct (pushes_strengths l Hl) as [P0 P1], (drive_push h Hh) as (H0 & H1 & E). unfold strongest.
  rewrite <- E at 1. rewrite resolve_drive by done. cbn [map foldr]. f_equal; apply Z.max_comm.
Qed.

(** The value of a strong driver. *)
Definition strong (b : vvp_bit4_t) : vvp_scalar_t :=
  match b with BIT4_0 => drive 6 0 | BIT4_1 => drive 0 6 | BIT4_X => drive 6 6 | BIT4_Z => drive 0 0 end.

Lemma strong_scalar b : scalar_of_bit4 b 6 6 = Some (strong b).
Proof. by destruct b. Qed.

Lemma strong_definite b : definite (strong b).
Proof. destruct b; eexists _, _; (split; [|split; [|reflexivity]]); apply in_strengths; lia. Qed.

(** The pullers of a resolver: none, pull0, pull1. *)
Definition pullers : list vvp_scalar_t := [0x00; 0x55; 0xdd].

Lemma puller_definite h : h ∈ pullers -> definite h.
Proof.
  unfold pullers. rewrite !elem_of_cons. intros [->|[->|[->|H]]]; [..|by apply not_elem_of_nil in H].
  - exists 0, 0. repeat split; by apply in_strengths.
  - exists 5, 0. repeat split; by apply in_strengths.
  - exists 0, 5. repeat split; by apply in_strengths.
Qed.

(** A driver without strength does not count; the puller is one more driver. *)
Lemma strongest_pulled h l : h ∈ pullers -> Forall definite l ->
  (if is_hiz h then strongest l else resolve (strongest l) h) = strongest (h :: l).
Proof.
  intros Hh Hl. pose proof Hh as Hp. unfold pullers in Hp. rewrite !elem_of_cons in Hp.
  destruct Hp as [->|[->|[->|Hp]]]; [..|by apply not_elem_of_nil in Hp].
  - destruct (pushes_strengths l Hl) as [P0 P1]. apply in_strengths in P0, P1. unfold strongest. cbn [map foldr is_hiz].
    change (push0 0x00) with 0. change (push1 0x00) with 0. by rewrite !Z.max_r by lia.
  - by apply strongest_app, puller_definite.
  - by apply strongest_app, puller_definite.
Qed.

(** Bytes, not only definite values: the puller is blended in once and for all. *)
Definition bytes : list Z := map Z.of_nat (seq 0 256).

Lemma in_bytes z : z ∈ bytes <-> 0 <= z < 256.
Proof.
  unfold bytes. rewrite list_elem_of_fmap. setoid_rewrite elem_of_seq. split; [intros (n & -> & Hn); lia|].
  intros Hz. exists (Z.to_nat z). lia.
Qed.

Lemma resolve_bytes a b : a ∈ bytes -> b ∈ bytes -> resolve a b ∈ bytes.
Proof.
  intros Ha Hb. rewrite in_bytes. assert (E : forallb (fun a => forallb (fun b => (0 <=? resolve a b) && (resolve a b <? 256)) bytes) bytes = true) by by vm_compute.
  rewrite forallb_forall in E. specialize (E a ltac:(by apply list_elem_of_In)). rewrite forallb_forall in E.
  specialize (E b ltac:(by apply list_elem_of_In)). lia.
Qed.

Lemma pull_twice h s : h ∈ pullers -> s ∈ bytes -> resolve (resolve s h) h = resolve s h.
Proof.
  intros Hh Hs. assert (E : forallb (fun h => forallb (fun s => (resolve (resolve s h) h =? resolve s h)) bytes) pullers = true)
    by by vm_compute.
  rewrite forallb_forall in E. specialize (E h ltac:(by apply list_elem_of_In)). rewrite forallb_forall in E.
  specialize (E s ltac:(by apply list_elem_of_In)). by apply Z.eqb_eq.
Qed.

(** ** Vectors as lists *)

Definition bits8 (v : vvp_vector8_t) : list vvp_scalar_t := take (size8 v) (bytes8 v).

(** The bytes in place beyond the size are 0. *)
Record wf8 (v : vvp_vector8_t) : Prop := Wf8 {
  wf8_room : length (bytes8 v) = room8 (size8 v);
  wf8_rest : forall i, (size8 v <= i < room8 (size8 v))%nat -> bytes8 v !! i = Some 0;
}.

Lemma wf8_intro v : length (bytes8 v) = room8 (size8 v) -> drop (size8 v) (bytes8 v) = replicate (room8 (size8 v) - size8 v) 0 -> wf8 v.
Proof.
  intros Hl Hd. split; [done|]. intros i Hi. replace i with (size8 v + (i - size8 v))%nat by lia.
  rewrite <- lookup_drop, Hd. apply lookup_replicate_2. lia.
Qed.

Lemma room8_size n : (n <= room8 n)%nat.
Proof. unfold room8. destruct (Nat.leb_spec n VAL_BYTES); lia. Qed.

Lemma length_bits8 v : wf8 v -> length (bits8 v) = size8 v.
Proof. intros W. unfold bits8. rewrite length_take, (wf8_room v W). pose proof (room8_size (size8 v)). lia. Qed.

Lemma bits8_lookup v i : (i < size8 v)%nat -> bits8 v !! i = bytes8 v !! i.
Proof. intros. unfold bits8. by rewrite lookup_take_lt. Qed.

Lemma value8_bits v i : (i < size8 v)%nat -> value8 v i = bits8 v !! i.
Proof. intros Hi. unfold value8. by rewrite (proj2 (Nat.ltb_lt _ _)), bits8_lookup by done. Qed.

Lemma vec8_new_wf n : wf8 (vec8_new n).
Proof.
  split; cbn; [by rewrite length_replicate|]. intros i Hi. apply lookup_replicate_2. lia.
Qed.

Lemma eeq8_bits a b : wf8 a -> wf8 b -> (0 < size8 a \/ 0 < size8 b)%nat -> eeq8 a b = true <-> bits8 a = bits8 b.
Proof.
  intros Wa Wb Hpos. pose proof (length_bits8 a Wa) as La. pose proof (length_bits8 b Wb) as Lb. unfold eeq8.
  destruct (Nat.eqb_spec (size8 a) (size8 b)) as [E|E]; cbn [negb].
  - rewrite (proj2 (Nat.eqb_neq _ _)), bool_decide_eq_true by lia. split; [unfold bits8; by intros ->; rewrite E|].
    intros Hb. apply list_eq. intros i. destruct (decide (i < size8 a)%nat).
    + rewrite <- !bits8_lookup by lia. by rewrite Hb.
    + destruct (decide (i < room8 (size8 a))%nat).
      * rewrite (wf8_rest a Wa), (wf8_rest b Wb) by (rewrite <- ?E; lia). done.
      * rewrite !lookup_ge_None_2; [done|rewrite (wf8_room b Wb), <- E; lia|rewrite (wf8_room a Wa); lia].
  - split; [done|]. intros Hb. rewrite Hb in La. lia.
Qed.

(** A loop that writes the bytes in order: [g] the new ones, [h] what was there. *)
Lemma fill8 n (v0 : vvp_vector8_t) (body : nat -> option vvp_vector8_t -> option vvp_vector8_t) (g h : nat -> vvp_scalar_t) :
  wf8 v0 -> size8 v0 = n -> (forall i, (i < n)%nat -> bytes8 v0 !! i = Some (h i)) ->
  (forall i v, (i < n)%nat -> size8 v = n -> bytes8 v !! i = Some (h i) -> body i (Some v) = Some (Vec8 (size8 v) (<[i := g i]> (bytes8 v)))) ->
  exists v, for_loop n 0 body (Some v0) = Some v /\ wf8 v /\ size8 v = n /\ bits8 v = map g (seq 0 n).
Proof.
  intros W0 S0 H0 Hbody.
  pose proof (for_loop_ind (fun idx t => exists v, t = Some v /\ wf8 v /\ size8 v = n /\
    forall i, (i < n)%nat -> bytes8 v !! i = Some (if (i <? idx)%nat then g i else h i)) n 0 body (Some v0)) as Hind.
  destruct Hind as (v & E & W & S & H).
  - exists v0. split; [done|]. split; [done|]. split; [done|]. intros i Hi. rewrite (proj2 (Nat.ltb_ge i 0)) by lia. by apply H0.
  - intros idx t Hidx (v & -> & W & S & H). eexists. split.
    { apply Hbody; [lia|done|]. rewrite H by lia. by rewrite (proj2 (Nat.ltb_ge _ _)) by lia. }
    pose proof (wf8_room v W) as Hr. pose proof (room8_size (size8 v)). split; [split; cbn|].
    + by rewrite length_insert.
    + intros i Hi. rewrite list_lookup_insert_ne by lia. by apply (wf8_rest v W).
    + split; [done|]. intros i Hi. cbn [bytes8]. destruct (decide (i = idx)) as [->|].
      * rewrite list_lookup_insert_eq by lia. by rewrite (proj2 (Nat.ltb_lt _ _)) by lia.
      * rewrite list_lookup_insert_ne, H by lia. destruct (Nat.ltb_spec i idx), (Nat.ltb_spec i (Datatypes.S idx)); try lia; done.
  - exists v. split; [done|]. split; [done|]. split; [done|]. apply list_eq. intros i. destruct (decide (i < n)%nat).
    + rewrite bits8_lookup, H by lia. rewrite (proj2 (Nat.ltb_lt _ _)) by lia.
      rewrite list_lookup_fmap, lookup_seq_lt by done. done.
    + rewrite !lookup_ge_None_2; [done|rewrite length_map, length_seq; lia|rewrite length_bits8 by done; lia].
Qed.

(** Building a new vector. *)
Lemma build8 n (body : nat -> option vvp_vector8_t -> option vvp_vector8_t) (g : nat -> vvp_scalar_t) :
  (forall i v, (i < n)%nat -> size8 v = n -> body i (Some v) = Some (Vec8 (size8 v) (<[i := g i]> (bytes8 v)))) ->
  exists v, for_loop n 0 body (Some (vec8_new n)) = Some v /\ wf8 v /\ size8 v = n /\ bits8 v = map g (seq 0 n).
Proof.
  intros Hbody. apply (fill8 n (vec8_new n) body g (fun _ => 0)); [apply vec8_new_wf|done| |by intros; apply Hbody].
  intros i Hi. cbn. apply lookup_replicate_2. pose proof (room8_size n). lia.
Qed.

Lemma set_bit8_eq v i s : (i < size8 v)%nat -> set_bit8 v i s = Some (Vec8 (size8 v) (<[i := s]> (bytes8 v))).
Proof. intros. unfold set_bit8. by rewrite (proj2 (Nat.ltb_lt _ _)). Qed.

Lemma value8_at v i : wf8 v -> (i < size8 v)%nat -> exists s, value8 v i = Some s /\ bits8 v !! i = Some s.
Proof.
  intros W Hi. rewrite value8_bits by done. destruct (bits8 v !! i) as [s|] eqn:E; [by exists s|].
  apply lookup_ge_None in E. rewrite length_bits8 in E by done. lia.
Qed.

Lemma map_seq_lookup {A} (g : nat -> A) n i : (i < n)%nat -> map g (seq 0 n) !! i = Some (g i).
Proof. intros. by rewrite list_lookup_fmap, lookup_seq_lt. Qed.

Lemma vec8_of_vec4_strong v : exists u, vec8_of_vec4 v 6 6 = Some u /\ wf8 u /\ size8 u = size v /\ bits8 u = map strong (bits_of v).
Proof.
  unfold vec8_of_vec4. match goal with |- context [for_loop _ 0 ?body _] => destruct (build8 (size v) body (fun i => strong (value v i))) as (u & E & W & S & B) end.
  - intros i u Hi Hs. cbn [mbind option_bind]. by rewrite strong_scalar.
  - exists u. split; [exact E|]. split; [done|]. split; [done|]. rewrite B. unfold bits_of. by rewrite map_map.
Qed.
