(* ===== verification/ResolvSpec.v ===== *)
(** * ResolvSpec: what a net with several drivers carries

    First the loop of the resolvers, over any vectors with a view as lists: after
    any input the array holds the levels of the tree of the current inputs, each
    node combined from its four children, with the puller blended into the root.
    Then what it makes of the drivers: a resolver sends, whenever its output
    changes, what its tree makes of the current inputs; for values without ambiguity
    that is the strongest driver of each bit, for wired logic the wired and or the
    wired or. *)

From S2P Require Import Prelude FourState Vector4 Vector4Value Vector4Ops Vector4Reduce Bits Strength StrengthSpec.

Section Combine.
Context {C : Type} (op : C -> C -> C).

(** Inputs that were never received are empty; they are skipped. *)
Definition combine (a b : list C) : list C :=
  match a, b with [], _ => b | _, [] => a | _, _ => zip_with op a b end.

Definition combine_all (l : list (list C)) : list C := foldl combine [] l.

Definition next_level (l : list (list C)) : list (list C) :=
  map (fun k => combine_all (take 4 (drop (4 * k) l))) (seq 0 ((length l + 3) / 4)).

(** The root of the tree over the inputs [l], and the array with [r] at the root. *)
Fixpoint tree_root (fuel : nat) (l : list (list C)) : list C :=
  match fuel with
  | O => []
  | S fuel' => if (length l <=? 1)%nat then combine_all l else tree_root fuel' (next_level l)
  end.

Fixpoint tree_array (fuel : nat) (l : list (list C)) (r : list C) : list (list C) :=
  match fuel with
  | O => []
  | S fuel' => if (length l <=? 1)%nat then [r] else l ++ tree_array fuel' (next_level l) r
  end.

Lemma length_next_level l : length (next_level l) = ((length l + 3) / 4)%nat.
Proof. unfold next_level. by rewrite length_map, length_seq. Qed.

Lemma level_shrinks n : (1 < n)%nat -> ((n + 3) / 4 < n)%nat /\ (0 < (n + 3) / 4)%nat.
Proof. intros. split; [apply Nat.Div0.div_lt_upper_bound; lia|apply Nat.div_str_pos; lia]. Qed.

Lemma next_level_lookup l k : (k < (length l + 3) / 4)%nat -> next_level l !! k = Some (combine_all (take 4 (drop (4 * k) l))).
Proof.
  intros Hk. unfold next_level. rewrite list_lookup_fmap, lookup_seq_lt by done. done.
Qed.

(** A changed input changes the node above it and no other. *)
Lemma next_level_insert l p x : (p < length l)%nat ->
  next_level (<[p := x]> l) = <[(p / 4)%nat := combine_all (take 4 (drop (4 * (p / 4)) (<[p := x]> l)))]> (next_level l).
Proof.
  intros Hp. pose proof (Nat.div_mod_eq p 4) as Hd. pose proof (Nat.mod_upper_bound p 4 ltac:(lia)) as Hm.
  assert (Hk : (p / 4 < (length l + 3) / 4)%nat).
  { apply Nat.div_le_lower_bound; [lia|]. lia. }
  apply list_eq. intros k. destruct (decide (k < (length l + 3) / 4)%nat) as [Hlt|Hge].
  - rewrite next_level_lookup by (by rewrite length_insert). destruct (decide (k = (p / 4)%nat)) as [->|Hne].
    + rewrite list_lookup_insert_eq by (by rewrite length_next_level). done.
    + rewrite list_lookup_insert_ne, next_level_lookup by done. do 2 f_equal. apply list_eq. intros j.
      destruct (decide (j < 4)%nat); [|by rewrite !lookup_take_ge by lia].
      rewrite !lookup_take_lt, !lookup_drop by lia. apply list_lookup_insert_ne. lia.
  - rewrite !lookup_ge_None_2; [done|rewrite length_insert, length_next_level; lia|rewrite length_next_level, length_insert; lia].
Qed.

Lemma combine_empty a b : combine a b = [] -> a = [] /\ b = [].
Proof. by destruct a, b. Qed.

Lemma combine_all_empty l : forall x, combine_all l = [] -> x ∈ l -> x = [].
Proof.
  induction l as [|y l IH] using rev_ind; intros x; [by rewrite elem_of_nil|].
  unfold combine_all. rewrite foldl_app. cbn. intros [E1 E2]%combine_empty. rewrite elem_of_app, list_elem_of_singleton.
  intros [Hx| ->]; [by apply IH|done].
Qed.

(** The fuel of [branch_nodes] is enough. *)
Lemma branch_nodes_fuel : forall f g n, (n <= f)%nat -> (n <= g)%nat -> branch_nodes f n = branch_nodes g n.
Proof.
  induction f as [|f IH]; intros [|g] n Hf Hg; try (replace n with 0%nat by lia; done). cbn [branch_nodes].
  destruct (Nat.ltb_spec 4 n); [|done]. f_equal. destruct (level_shrinks n) as [? ?]; [lia|]. apply IH; lia.
Qed.

End Combine.

Section Walk.
Context {V C : Type} (vsize : V -> nat) (veeq : V -> V -> bool) (math : V -> V -> option V).
Context (abs : V -> list C) (op : C -> C -> C) (good : V -> Prop) (w : nat).
Hypothesis good_size : forall v, good v -> vsize v = length (abs v) /\ (abs v = [] \/ length (abs v) = w).
Hypothesis good_eeq : forall a b, good a -> good b -> (0 < vsize a \/ 0 < vsize b)%nat -> veeq a b = true <-> abs a = abs b.
Hypothesis good_math : forall a b, good a -> good b -> vsize a = w -> vsize b = w ->
  exists c, math a b = Some c /\ good c /\ abs c = zip_with op (abs a) (abs b).

Local Abbreviation combine := (combine op).
Local Abbreviation combine_all := (combine_all op).

Lemma nil_size v : good v -> (vsize v =? 0)%nat = true <-> abs v = [].
Proof.
  intros Hv. destruct (good_size v Hv) as [-> _]. rewrite Nat.eqb_eq. split; [apply nil_length_inv|by intros ->].
Qed.

(** One child. *)
Lemma combine_step out v : good out -> good v ->
  exists out', (if (vsize v =? 0)%nat then Some out else if (vsize out =? 0)%nat then Some v else math out v) = Some out' /\
    good out' /\ abs out' = combine (abs out) (abs v).
Proof.
  intros Ho Hv. destruct (vsize v =? 0)%nat eqn:Ev.
  { apply nil_size in Ev; [|done]. exists out. rewrite Ev. split; [done|]. split; [done|]. by destruct (abs out). }
  destruct (vsize out =? 0)%nat eqn:Eo.
  { apply nil_size in Eo; [|done]. exists v. by rewrite Eo. }
  assert (Hnv : abs v <> []) by (intros E; apply nil_size in E; congruence).
  assert (Hno : abs out <> []) by (intros E; apply nil_size in E; congruence).
  destruct (good_size v Hv) as [Hsv [?|Hlv]], (good_size out Ho) as [Hso [?|Hlo]]; try done.
  destruct (good_math out v Ho Hv) as (c & Hc & Hg & Ha); [congruence..|]. exists c. split; [done|]. split; [done|].
  rewrite Ha. by destruct (abs out), (abs v).
Qed.

Lemma good_lookup vals i : Forall good vals -> (i < length vals)%nat -> exists v, vals !! i = Some v /\ good v.
Proof.
  intros Hg Hi. apply lookup_lt_is_Some in Hi as [v Hv]. exists v. split; [done|]. by eapply Forall_lookup_1.
Qed.

(** The children of a node. *)
Lemma children_spec vals ip ll : Forall good vals -> (ip < ll <= length vals)%nat ->
  exists out, resolve_children vsize math vals ip ll = Some out /\ good out /\
    abs out = combine_all (take (ll - ip) (drop ip (map abs vals))).
Proof.
  intros Hg Hl. unfold resolve_children.
  destruct (good_lookup vals ip Hg ltac:(lia)) as (v0 & E0 & Hg0). rewrite E0.
  match goal with |- context [for_loop ?n ?s ?b ?init] =>
    pose proof (for_loop_ind (fun i t => exists out, t = Some out /\ good out /\
      ((i <= ll)%nat -> abs out = combine_all (take (i - ip) (drop ip (map abs vals))))) n s b init) as Hind end.
  replace (ip + 1 + (ll - (ip + 1)))%nat with ll in Hind by lia.
  destruct Hind as (out & E & Hgo & Ha).
  - exists v0. split; [done|]. split; [done|]. intros _. replace (ip + 1 - ip)%nat with 1%nat by lia.
    assert (Ed : drop ip (map abs vals) = abs v0 :: drop (S ip) (map abs vals)).
    { apply drop_S. rewrite list_lookup_fmap, E0. done. }
    rewrite Ed. cbn. by destruct (abs v0).
  - intros i t Hi (out & -> & Hgo & Ha). cbn [mbind option_bind].
    destruct (good_lookup vals i Hg ltac:(lia)) as (v & Ev & Hgv). rewrite Ev. cbn [mbind option_bind].
    destruct (combine_step out v Hgo Hgv) as (out' & E' & Hg' & Ha'). exists out'. split; [done|]. split; [done|].
    intros _. rewrite Ha', Ha by lia. replace (S i - ip)%nat with (S (i - ip)) by lia.
    assert (El : drop ip (map abs vals) !! (i - ip)%nat = Some (abs v)).
    { rewrite lookup_drop. replace (ip + (i - ip))%nat with i by lia. by rewrite list_lookup_fmap, Ev. }
    rewrite (take_S_r _ _ _ El). unfold ResolvSpec.combine_all. by rewrite foldl_app.
  - exists out. split; [done|]. split; [done|]. apply Ha. lia.
Qed.

(** What the loop leaves: the array over the new inputs, with the old root or the new one. *)
Definition walked (fuel : nat) (pre : list (list C)) (old cur : list (list C)) (r : list C) (res : option (list V * walk_end)) : Prop :=
  exists vals e, res = Some (vals, e) /\ Forall good vals /\
    match e with
    | Unchanged => map abs vals = pre ++ tree_array op fuel cur r /\ (tree_root op fuel cur = r \/ tree_root op fuel cur = tree_root op fuel old)
    | Root base => map abs vals = pre ++ tree_array op fuel cur (tree_root op fuel cur) /\ S base = length vals
    end.

Lemma combine_all_one x : combine_all [x] = x.
Proof. by destruct x. Qed.

Lemma child_slice (pre cur rest : list (list C)) p : (p < length cur)%nat ->
  let ip := (length pre + (p - p mod 4))%nat in
  let ll := Nat.min (ip + 4) (length pre + length cur) in
  (ip < ll)%nat /\ take (ll - ip) (drop ip (pre ++ cur ++ rest)) = take 4 (drop (4 * (p / 4)) cur).
Proof.
  intros Hp ip ll. pose proof (Nat.div_mod_eq p 4) as Hd. pose proof (Nat.mod_upper_bound p 4 ltac:(lia)) as Hm.
  split; [lia|]. rewrite drop_app_ge by lia. replace (ip - length pre)%nat with (4 * (p / 4))%nat by lia.
  rewrite drop_app_le by lia. apply list_eq. intros j.
  destruct (decide (j < ll - ip)%nat).
  - rewrite !lookup_take_lt by lia. apply lookup_app_l. rewrite length_drop. lia.
  - rewrite lookup_take_ge by lia. symmetry. apply lookup_ge_None_2. rewrite length_take, length_drop. lia.
Qed.

Lemma walk_spec : forall fuel (pre old rest : list (list C)) p x r vals n,
  (length old <= fuel)%nat -> (p < length old)%nat -> x <> [] -> n = length old -> Forall good vals ->
  map abs vals = pre ++ <[p := x]> old ++ rest ->
  (if (length old <=? 1)%nat then rest = [] else tree_array op fuel old r = old ++ rest) ->
  walked fuel pre old (<[p := x]> old) r (walk vsize veeq math fuel vals (length pre) n p).
Proof.
  induction fuel as [|fuel IH]; intros pre old rest p x r vals n Hf Hp Hx -> Hg Hvals Hrest; [lia|].
  set (cur := <[p := x]> old) in *. assert (Hlc : length cur = length old) by apply length_insert.
  cbn [walk]. destruct (Nat.leb_spec (length old) 1) as [H1|H1].
  { (* the root *)
    rewrite Hrest, app_nil_r in Hvals. exists vals, (Root (length pre)). split; [done|]. split; [done|].
    cbn [tree_array tree_root]. rewrite Hlc, (proj2 (Nat.leb_le _ _)) by lia.
    destruct cur as [|c [|]] eqn:Ec; cbn in Hlc; try lia. rewrite combine_all_one. split; [done|].
    apply (f_equal length) in Hvals. rewrite length_map, length_app in Hvals. cbn in Hvals. lia. }
  cbn [tree_array] in Hrest. rewrite (proj2 (Nat.leb_gt _ _)) in Hrest by lia. apply app_inv_head in Hrest.
  destruct (level_shrinks (length old) H1) as [Hshrink Hpos].
  assert (Hrl : length rest = length (tree_array op fuel (next_level op old) r)) by by rewrite Hrest.
  (* the node above the input *)
  destruct (child_slice pre cur rest p) as [Hip Hslice]; [lia|].
  assert (Hlv : length vals = (length pre + length old + length rest)%nat).
  { apply (f_equal length) in Hvals. rewrite length_map, !length_app in Hvals. lia. }
  destruct (children_spec vals (length pre + (p - p mod 4)) (Nat.min (length pre + (p - p mod 4) + 4) (length pre + length old)) Hg)
    as (out & -> & Hgo & Hao); [lia|]. cbn [mbind option_bind].
  rewrite Hvals in Hao. rewrite Hlc in Hslice. rewrite Hslice in Hao.
  (* the old value of the node *)
  assert (Hq : (p / 4 < (length old + 3) / 4)%nat).
  { apply Nat.div_le_lower_bound; [lia|]. pose proof (Nat.div_mod_eq p 4). lia. }
  assert (Hnode : exists c rest', rest = c ++ rest' /\ length c = ((length old + 3) / 4)%nat /\
    (length (next_level op old) <= 1 /\ c = [r] /\ rest' = [] \/
     1 < length (next_level op old) /\ c = next_level op old /\ tree_array op fuel (next_level op old) r = next_level op old ++ rest')%nat).
  { rewrite <- Hrest. destruct fuel as [|fuel']; [lia|]. cbn [tree_array]. rewrite length_next_level.
    destruct (Nat.leb_spec ((length old + 3) / 4) 1).
    - exists [r], []. split; [done|]. split; [change (length [r]) with 1%nat; lia|]. by left.
    - exists (next_level op old), (tree_array op fuel' (next_level op (next_level op old)) r).
      split; [done|]. split; [apply length_next_level|]. by right. }
  destruct Hnode as (c & rest' & -> & Hlen & Hc).
  set (x' := combine_all (take 4 (drop (4 * (p / 4)) cur))) in *.
  assert (Hnext : next_level op cur = <[(p / 4)%nat := x']> (next_level op old)) by by apply next_level_insert.
  assert (Hcx : <[(p / 4)%nat := x']> c = <[(p / 4)%nat := x']> (next_level op old)).
  { destruct Hc as [(Hle & -> & _)|(_ & -> & _)]; [|done]. rewrite length_next_level in Hle.
    replace (p / 4)%nat with 0%nat by lia. pose proof (length_next_level op old) as Hnl.
    destruct (next_level op old) as [|? [|]]; cbn [length] in Hnl; try lia; done. }
  assert (Hx' : x' <> []).
  { intros E. apply (combine_all_empty op _ x) in E; [done|]. apply list_elem_of_lookup. exists (p mod 4)%nat.
    pose proof (Nat.div_mod_eq p 4). pose proof (Nat.mod_upper_bound p 4 ltac:(lia)).
    rewrite lookup_take_lt, lookup_drop by lia. replace (4 * (p / 4) + p mod 4)%nat with p by lia. by apply list_lookup_insert_eq. }
  assert (Hop : exists o, vals !! (length pre + length old + p / 4)%nat = Some o /\ good o /\ c !! (p / 4)%nat = Some (abs o)).
  { rewrite length_app in Hlv. destruct (good_lookup vals (length pre + length old + p / 4) Hg) as (o & Eo & Hgo'); [lia|].
    exists o. split; [done|]. split; [done|]. apply (f_equal (fun l => l !! (length pre + length old + p / 4)%nat)) in Hvals.
    rewrite list_lookup_fmap, Eo in Hvals. rewrite lookup_app_r, lookup_app_r, lookup_app_l in Hvals by lia.
    change (Some (abs o) = c !! (length pre + length old + p / 4 - length pre - length cur)%nat) in Hvals. rewrite Hvals. f_equal. lia. }
  destruct Hop as (o & -> & Hgoo & Ho). cbn [mbind option_bind].
  destruct (veeq o out) eqn:Eeq.
  - (* nothing changes above *)
    apply good_eeq in Eeq; [|done..|]; cycle 1.
    { right. destruct (good_size out Hgo) as [-> _]. rewrite Hao. destruct x'; [done|cbn; lia]. }
    rewrite Hao in Eeq. rewrite Eeq in Ho. exists vals, Unchanged. split; [done|]. split; [done|].
    assert (Hcc : <[(p / 4)%nat := x']> c = c) by (by apply list_insert_id).
    cbn [tree_array tree_root]. rewrite Hlc, (proj2 (Nat.leb_gt _ _)) by lia. rewrite Hnext, <- Hcx, Hcc, Hvals.
    destruct Hc as [(Hle & -> & ->)|(_ & -> & Hta)].
    + rewrite app_nil_r. destruct fuel as [|fuel']; [lia|]. cbn [tree_array tree_root length Nat.leb]. split; [done|].
      left. apply combine_all_one.
    + rewrite Hta. split; [done|]. by right.
  - (* the node takes its new value *)
    destruct (IH (pre ++ cur) (next_level op old) rest' (p / 4)%nat x' r (<[(length pre + length old + p / 4)%nat := out]> vals) ((length old + 3) / 4)%nat)
      as (vals' & e & Ew & Hg' & He).
    { rewrite length_next_level. lia. }
    { rewrite length_next_level. lia. }
    { done. }
    { by rewrite length_next_level. }
    { by apply Forall_insert. }
    { rewrite list_fmap_insert. change (abs <$> vals) with (map abs vals). rewrite Hvals, Hao, <- app_assoc.
      rewrite insert_app_r_alt by lia. f_equal. rewrite insert_app_r_alt by lia. f_equal.
      replace (length pre + length old + p / 4 - length pre - length cur)%nat with (p / 4)%nat by lia.
      rewrite insert_app_l by lia. by rewrite Hcx. }
    { destruct Hc as [(Hle & _ & ->)|(Hlt & _ & Hta)].
      - by rewrite (proj2 (Nat.leb_le _ _)) by lia.
      - by rewrite (proj2 (Nat.leb_gt _ _)) by lia. }
    rewrite length_app, Hlc in Ew. exists vals', e. split; [exact Ew|]. split; [done|].
    cbn [tree_array tree_root]. rewrite Hlc, (proj2 (Nat.leb_gt _ _)) by lia. rewrite Hnext.
    destruct e; destruct He as [He1 He2]; rewrite <- app_assoc in He1; done.
Qed.

(** ** Receiving an input *)

Lemma tree_array_end : forall fuel l, (length l <= fuel)%nat -> (0 < length l)%nat -> exists pre, forall r, tree_array op fuel l r = pre ++ [r].
Proof.
  induction fuel as [|fuel IH]; intros l Hf Hl; [lia|]. cbn [tree_array].
  destruct (Nat.leb_spec (length l) 1); [by exists []|]. destruct (level_shrinks (length l)) as [? ?]; [lia|].
  destruct (IH (next_level op l)) as [pre Hpre]; [rewrite length_next_level; lia..|].
  exists (l ++ pre). intros r. by rewrite Hpre, app_assoc.
Qed.

Definition holds_tree (n : nat) (vals : list V) (l : list (list C)) (r : list C) : Prop :=
  Forall good vals /\ length l = n /\ map abs vals = tree_array op n l r.

Context (pull : list C -> list C).

(** Whatever was received before: the root is that of the tree of the inputs. *)
Lemma recv_input_spec n vals l r port bit : (port < n)%nat -> good bit -> abs bit <> [] ->
  holds_tree n vals l r -> r = pull (tree_root op n l) -> pull r = r ->
  let l' := <[port := abs bit]> l in
  exists vals' e, recv_input vsize veeq math n vals port bit = Some (vals', e) /\
    match e with
    | Unchanged => holds_tree n vals' l' r /\ r = pull (tree_root op n l')
    | Root base => holds_tree n vals' l' (tree_root op n l') /\ S base = length vals'
    end.
Proof.
  intros Hp Hgb Hb (Hg & Hl & Hv) Hr pull_r l'. unfold recv_input. rewrite (proj2 (Nat.ltb_lt _ _)) by done.
  destruct (tree_array_end n l) as [pre Hpre]; [lia..|].
  assert (Hlv : length vals = S (length pre)).
  { apply (f_equal length) in Hv. rewrite Hpre, length_map, length_app in Hv. cbn in Hv. lia. }
  assert (Hlen : (n <= length vals)%nat).
  { apply (f_equal length) in Hv. rewrite length_map in Hv. rewrite Hv. destruct n as [|n]; [lia|]. cbn [tree_array].
    destruct (Nat.leb_spec (length l) 1); [cbn; lia|]. rewrite length_app. lia. }
  destruct (good_lookup vals port Hg) as (o & Eo & Hgo); [lia|]. rewrite Eo. cbn [mbind option_bind].
  assert (Hao : map abs vals !! port = Some (abs o)) by by rewrite list_lookup_fmap, Eo.
  assert (Hl' : length l' = n) by (unfold l'; by rewrite length_insert).
  destruct (veeq o bit) eqn:Eq.
  - apply good_eeq in Eq; [|done..|]; cycle 1.
    { right. destruct (good_size bit Hgb) as [-> _]. by destruct (abs bit); [|cbn; lia]. }
    exists vals, Unchanged. split; [done|]. rewrite Hv in Hao. destruct n as [|n]; [lia|]. cbn [tree_array] in Hao.
    destruct (Nat.leb_spec (length l) 1) as [H1|H1].
    + (* the only input is the output *)
      assert (port = 0%nat) by lia. subst port. injection Hao as Hao. assert (El : l' = [abs bit]).
      { unfold l'. destruct l as [|? [|]]; cbn [length] in *; [lia|reflexivity|lia]. }
      assert (Er : tree_root op (S n) l' = r) by (rewrite El; cbn [tree_root length Nat.leb]; by rewrite combine_all_one, Hao).
      rewrite Er. split; [|done]. split; [done|]. split; [done|]. rewrite Hv. cbn [tree_array].
      by rewrite El, (proj2 (Nat.leb_le _ _) H1).
    + rewrite lookup_app_l in Hao by lia. assert (El : l' = l) by (unfold l'; rewrite <- Eq; by apply list_insert_id).
      rewrite El. by split.
  - assert (Hrest : exists rest, map abs (<[port := bit]> vals) = [] ++ l' ++ rest /\
      (if (length l <=? 1)%nat then rest = [] else tree_array op n l r = l ++ rest)).
    { rewrite list_fmap_insert. change (abs <$> vals) with (map abs vals). rewrite Hv. destruct n as [|n]; [lia|]. cbn [tree_array].
      destruct (Nat.leb_spec (length l) 1) as [H1|H1].
      - exists []. split; [|done]. unfold l'. replace port with 0%nat by lia. destruct l as [|? [|]]; cbn [length] in *; [lia|reflexivity|lia].
      - eexists. split; [|done]. unfold l'. rewrite insert_app_l by lia. done. }
    destruct Hrest as (rest & Hvals & Hrest).
    destruct (walk_spec n [] l rest port (abs bit) r (<[port := bit]> vals) n) as (vals' & e & Ew & Hg' & He); try done; [lia..| |].
    { by apply Forall_insert. }
    exists vals', e. split; [exact Ew|]. fold l' in He. destruct e as [|base]; destruct He as [He1 He2].
    + split; [done|]. destruct He2 as [->| ->]; done.
    + done.
Qed.

(** The root is the last element. *)
Lemma holds_tree_root n vals l r base : (0 < n)%nat -> holds_tree n vals l r -> S base = length vals ->
  exists v, vals !! base = Some v /\ good v /\ abs v = r /\
    forall v', good v' -> holds_tree n (<[base := v']> vals) l (abs v').
Proof.
  intros Hn (Hg & Hl & Hv) Hb. destruct (tree_array_end n l) as [pre Hpre]; [lia..|]. rewrite Hpre in Hv.
  assert (Hlp : length pre = base).
  { apply (f_equal length) in Hv. rewrite length_map, length_app in Hv. cbn in Hv. lia. }
  destruct (good_lookup vals base Hg) as (v & Ev & Hgv); [lia|]. exists v. split; [done|]. split; [done|]. split.
  - assert (E : map abs vals !! base = Some (abs v)) by by rewrite list_lookup_fmap, Ev.
    rewrite Hv, lookup_app_r, Hlp, Nat.sub_diag in E by lia. by injection E.
  - intros v' Hv'. split; [by apply Forall_insert|]. split; [done|]. rewrite list_fmap_insert, Hpre.
    change (abs <$> vals) with (map abs vals). rewrite Hv, insert_app_r_alt, Hlp, Nat.sub_diag by lia. done.
Qed.

End Walk.

(** ** The empty tree *)

Section Empty.
Context {C : Type} (op : C -> C -> C).

Lemma combine_all_nils n : combine_all op (replicate n []) = [].
Proof. induction n as [|n IH]; [done|]. cbn. exact IH. Qed.

Lemma next_level_nils n : next_level op (replicate n []) = replicate ((n + 3) / 4) [].
Proof.
  apply list_eq. intros k. destruct (decide (k < (n + 3) / 4)%nat).
  - rewrite next_level_lookup by (by rewrite length_replicate). rewrite drop_replicate, take_replicate, combine_all_nils.
    by rewrite lookup_replicate_2.
  - rewrite !lookup_ge_None_2; [done|rewrite length_replicate; lia|rewrite length_next_level, length_replicate; lia].
Qed.

Lemma tree_root_nils : forall fuel n, tree_root op fuel (replicate n []) = [].
Proof.
  induction fuel as [|fuel IH]; intros n; [done|]. cbn [tree_root]. rewrite next_level_nils, IH, combine_all_nils. by case_match.
Qed.

Lemma tree_array_nils : forall fuel n, (0 < n <= fuel)%nat -> tree_array op fuel (replicate n []) [] = replicate (nnodes n) [].
Proof.
  induction fuel as [|fuel IH]; intros n Hn; [lia|]. cbn [tree_array]. rewrite length_replicate.
  destruct (Nat.leb_spec n 1); [by replace n with 1%nat by lia|]. destruct (level_shrinks n) as [Hs Hp]; [lia|].
  rewrite next_level_nils, IH by lia. rewrite <- replicate_add. f_equal. unfold nnodes.
  destruct n as [|n]; [lia|]. cbn [branch_nodes]. destruct (Nat.ltb_spec 4 (S n)) as [H4|H4].
  - rewrite (branch_nodes_fuel n ((S n + 3) / 4) ((S n + 3) / 4)) by lia.
    pose proof (Nat.div_le_lower_bound (S n + 3) 4 2).
    destruct (Nat.ltb_spec 1 ((S n + 3) / 4 + branch_nodes ((S n + 3) / 4) ((S n + 3) / 4))); [|lia].
    destruct (Nat.ltb_spec 1 (S n + ((S n + 3) / 4 + branch_nodes ((S n + 3) / 4) ((S n + 3) / 4)))); lia.
  - assert ((S n + 3) / 4 = 1)%nat as -> by (symmetry; apply (Nat.div_unique _ _ _ (S n - 1)); lia).
    cbn [branch_nodes]. rewrite (proj2 (Nat.ltb_ge 4 1)) by lia. cbn [Nat.ltb Nat.leb Nat.add]. destruct n as [|n]; [lia|]. cbn. f_equal. lia.
Qed.

Lemma tree_root_empty fuel l : Forall (fun v => v = []) l -> tree_root op fuel l = [].
Proof.
  intros Hl. assert (l = replicate (length l) []) as ->; [|apply tree_root_nils].
  induction Hl as [|v l -> Hl IH]; [done|]. cbn. by rewrite <- IH.
Qed.

(** An input that is there is seen at the root. *)
Lemma tree_root_nonempty : forall fuel l x, tree_root op fuel l = [] -> (length l <= fuel)%nat -> x ∈ l -> x = [].
Proof.
  induction fuel as [|fuel IH]; intros l x Hr Hf Hx; [destruct l; [by apply elem_of_nil in Hx|cbn in Hf; lia]|].
  cbn [tree_root] in Hr. destruct (Nat.leb_spec (length l) 1); [by apply (combine_all_empty op l)|].
  destruct (level_shrinks (length l)) as [? ?]; [lia|]. apply list_elem_of_lookup in Hx as [p Hp].
  pose proof (lookup_lt_Some _ _ _ Hp). pose proof (Nat.div_mod_eq p 4). pose proof (Nat.mod_upper_bound p 4 ltac:(lia)).
  assert (Hk : (p / 4 < (length l + 3) / 4)%nat) by (apply Nat.div_le_lower_bound; lia).
  apply (IH _ (combine_all op (take 4 (drop (4 * (p / 4)) l)))) in Hr; [|rewrite length_next_level; lia|].
  - apply (combine_all_empty op _ x) in Hr; [done|]. apply list_elem_of_lookup. exists (p mod 4)%nat.
    rewrite lookup_take_lt, lookup_drop by lia. by replace (4 * (p / 4) + p mod 4)%nat with p by lia.
  - apply list_elem_of_lookup. exists (p / 4)%nat. by apply next_level_lookup.
Qed.

End Empty.

(** ** Trees of an associative operator *)

Section Assoc.
Context {C : Type} (op : C -> C -> C) (D : C -> Prop) (w : nat).
Hypothesis D_op : forall a b, D a -> D b -> D (op a b).
Hypothesis op_assoc : forall a b c, D a -> D b -> D c -> op (op a b) c = op a (op b c).

Definition in_dom (l : list C) : Prop := Forall D l /\ (l = [] \/ length l = w).

Lemma zip_dom : forall a b, Forall D a -> Forall D b -> Forall D (zip_with op a b).
Proof. induction a as [|x a IH]; intros [|y b] Ha Hb; try done. inversion Ha; inversion Hb; subst. cbn. constructor; [by apply D_op|by apply IH]. Qed.

Lemma combine_dom a b : in_dom a -> in_dom b -> in_dom (combine op a b).
Proof.
  intros [Ha Hla] [Hb Hlb]. unfold combine. destruct a as [|x a], b as [|y b]; try done. split; [by apply zip_dom|].
  destruct Hla, Hlb; try done. right. rewrite length_zip_with. lia.
Qed.

Lemma zip_assoc : forall a b c, Forall D a -> Forall D b -> Forall D c ->
  zip_with op (zip_with op a b) c = zip_with op a (zip_with op b c).
Proof.
  induction a as [|x a IH]; intros [|y b] [|z c] Ha Hb Hc; try done. inversion Ha; inversion Hb; inversion Hc; subst.
  cbn. f_equal; [by apply op_assoc|by apply IH].
Qed.

Lemma combine_assoc a b c : in_dom a -> in_dom b -> in_dom c -> combine op (combine op a b) c = combine op a (combine op b c).
Proof.
  intros [Ha _] [Hb _] [Hc _]. destruct a as [|x a], b as [|y b], c as [|z c]; try done.
  exact (zip_assoc (x :: a) (y :: b) (z :: c) Ha Hb Hc).
Qed.

Lemma combine_all_dom l : Forall in_dom l -> in_dom (combine_all op l).
Proof.
  unfold combine_all. assert (H0 : in_dom []) by (split; [done|by left]). revert H0. generalize (@nil C).
  induction l as [|x l IH]; intros a Ha Hl; [done|]. inversion Hl; subst. cbn. apply IH; [by apply combine_dom|done].
Qed.

Lemma foldl_combine l : forall a, in_dom a -> Forall in_dom l -> foldl (combine op) a l = combine op a (combine_all op l).
Proof.
  induction l as [|x l IH]; intros a Ha Hl; [by destruct a|]. inversion Hl; subst. cbn.
  unfold combine_all. cbn. rewrite !IH by (done || by apply combine_dom).
  rewrite combine_assoc by (done || by apply combine_all_dom). by destruct x.
Qed.

Lemma combine_all_app l k : Forall in_dom l -> Forall in_dom k -> combine_all op (l ++ k) = combine op (combine_all op l) (combine_all op k).
Proof.
  intros Hl Hk. unfold combine_all at 1. rewrite foldl_app. apply foldl_combine; [by apply combine_all_dom|done].
Qed.

(** Groups of four, then all: the same as all. *)
Lemma combine_groups : forall n l, Forall in_dom l -> (length l <= 4 * n)%nat ->
  combine_all op (map (fun k => combine_all op (take 4 (drop (4 * k) l))) (seq 0 n)) = combine_all op l.
Proof.
  induction n as [|n IH]; intros l Hl Hn; [by destruct l; [|cbn in Hn; lia]|].
  transitivity (combine_all op (take 4 l ++ drop 4 l)); [|by rewrite take_drop]. cbn [seq map]. rewrite <- seq_shift, map_map.
  rewrite (map_ext _ (fun k => combine_all op (take 4 (drop (4 * k) (drop 4 l))))).
  2: { intros k. rewrite drop_drop. do 3 f_equal. lia. }
  rewrite combine_all_app by (by apply Forall_take || by apply Forall_drop).
  rewrite <- (IH (drop 4 l)) by (by apply Forall_drop || (rewrite length_drop; lia)).
  match goal with |- combine_all op (?x :: ?l) = _ => change (x :: l) with ([x] ++ l) end.
  assert (Hg : Forall in_dom (map (fun k => combine_all op (take 4 (drop (4 * k) (drop 4 l)))) (seq 0 n))).
  { apply Forall_map, Forall_true. intros k. apply combine_all_dom. by apply Forall_take, Forall_drop, Forall_drop. }
  rewrite combine_all_app; [|by apply Forall_singleton, combine_all_dom, Forall_take, Forall_drop|done].
  f_equal.
Qed.

Lemma next_level_dom l : Forall in_dom l -> Forall in_dom (next_level op l).
Proof. intros Hl. apply Forall_map, Forall_true. intros k. by apply combine_all_dom, Forall_take, Forall_drop. Qed.

Lemma tree_root_all : forall fuel l, (length l <= fuel)%nat -> (0 < length l)%nat -> Forall in_dom l -> tree_root op fuel l = combine_all op l.
Proof.
  induction fuel as [|fuel IH]; intros l Hf Hl Hd; [lia|]. cbn [tree_root]. destruct (Nat.leb_spec (length l) 1); [done|].
  destruct (level_shrinks (length l)) as [? ?]; [lia|].
  rewrite IH by (rewrite ?length_next_level; lia || by apply next_level_dom). apply combine_groups; [done|].
  pose proof (Nat.div_mod_eq (length l + 3) 4). pose proof (Nat.mod_upper_bound (length l + 3) 4). lia.
Qed.

Lemma tree_root_dom : forall fuel l, Forall in_dom l -> in_dom (tree_root op fuel l).
Proof.
  induction fuel as [|fuel IH]; intros l Hl; [by split; [done|left]|]. cbn [tree_root]. case_match; [by apply combine_all_dom|].
  by apply IH, next_level_dom.
Qed.

(** One index of the result: all the inputs that have one there. *)
Definition column (l : list (list C)) (i : nat) : list C := omap (fun v => v !! i) l.

Lemma combine_all_lookup l i : (i < w)%nat -> Forall in_dom l ->
  combine_all op l !! i = match column l i with [] => None | c :: cs => Some (foldl op c cs) end.
Proof.
  intros Hi. induction l as [|x l IH] using rev_ind; intros Hd; [done|]. apply Forall_app in Hd as [Hl Hx]. inversion Hx as [|? ? Hxd _]; subst.
  unfold combine_all, column. rewrite foldl_app, omap_app. cbn. fold (combine_all op l). fold (column l i). specialize (IH Hl).
  destruct (combine_all_dom l Hl) as [_ Hlen]. destruct Hxd as [Hxd [-> | Hlx]].
  - cbn. rewrite app_nil_r, <- IH. by destruct (combine_all op l).
  - destruct x as [|y x]; [cbn in Hlx; lia|]. destruct ((y :: x) !! i) as [xi|] eqn:Exi; [|apply lookup_ge_None in Exi; lia].
    destruct (combine_all op l) as [|z r] eqn:Er.
    + cbn [combine]. rewrite Exi. destruct (column l i); [done|]. cbn in IH. done.
    + destruct Hlen as [?|Hlen]; [done|]. destruct (column l i) as [|c cs].
      { apply lookup_ge_None in IH. lia. }
      cbn [combine app]. rewrite foldl_app. cbn [foldl]. by rewrite lookup_zip_with, IH, Exi.
Qed.

End Assoc.

Import Bit4.

Open Scope ivl_scope.

(** ** Operations on vectors, as operations on lists *)

Lemma nth_lookup_some {A} (l : list A) i d : (i < length l)%nat -> l !! i = Some (nth i l d).
Proof. intros Hi. destruct (l !! i) eqn:E; [by rewrite (nth_lookup_Some _ _ _ _ E)|]. apply lookup_ge_None in E. lia. Qed.

Lemma value8_nth v i : wf8 v -> (i < size8 v)%nat -> value8 v i = Some (nth i (bits8 v) 0).
Proof. intros W Hi. rewrite value8_bits by done. apply nth_lookup_some. by rewrite length_bits8. Qed.

Lemma resolve8_bits a b : wf8 a -> wf8 b -> size8 a = size8 b ->
  exists c, resolve8 a b = Some c /\ wf8 c /\ size8 c = size8 a /\ bits8 c = zip_with resolve (bits8 a) (bits8 b).
Proof.
  intros Wa Wb Hs. unfold resolve8. rewrite (proj2 (Nat.eqb_eq _ _) Hs).
  match goal with |- context [for_loop _ 0 ?body _] =>
    destruct (build8 (size8 a) body (fun i => resolve (nth i (bits8 a) 0) (nth i (bits8 b) 0))) as (c & E & W & S & B) end.
  - intros i u Hi Hu. cbn [mbind option_bind]. rewrite (value8_nth a), (value8_nth b) by (done || lia). cbn [mbind option_bind]. by rewrite set_bit8_eq by lia.
  - exists c. split; [exact E|]. split; [done|]. split; [done|]. rewrite B. apply list_eq. intros i.
    destruct (decide (i < size8 a)%nat).
    + rewrite map_seq_lookup, lookup_zip_with by done.
      rewrite (nth_lookup_some (bits8 a) i 0), (nth_lookup_some (bits8 b) i 0) by (rewrite length_bits8; done || lia). done.
    + rewrite !lookup_ge_None_2; [done|rewrite length_zip_with, !length_bits8 by done; lia|rewrite length_map, length_seq; lia].
Qed.

(** The puller on a list of values. *)
Definition pull_bits (h : vvp_scalar_t) (l : list vvp_scalar_t) : list vvp_scalar_t :=
  if is_hiz h then l else map (fun s => resolve s h) l.

Lemma pull_output_bits h v : wf8 v -> exists u, pull_output h v = Some u /\ wf8 u /\ size8 u = size8 v /\ bits8 u = pull_bits h (bits8 v).
Proof.
  intros W. unfold pull_output, pull_bits. destruct (is_hiz h); [by exists v|].
  match goal with |- context [for_loop _ 0 ?body _] =>
    destruct (fill8 (size8 v) v body (fun i => resolve (nth i (bits8 v) 0) h) (fun i => nth i (bits8 v) 0)) as (u & E & Wu & S & B); [done|done|..] end.
  - intros i Hi. rewrite <- bits8_lookup by done. apply (nth_lookup_some _ i 0). by rewrite length_bits8.
  - intros i u Hi Hs Hu. cbn [mbind option_bind]. rewrite value8_bits, bits8_lookup, Hu by lia. cbn [mbind option_bind]. by rewrite set_bit8_eq by lia.
  - exists u. split; [exact E|]. split; [done|]. split; [done|]. rewrite B. apply list_eq. intros i.
    destruct (decide (i < size8 v)%nat).
    + rewrite map_seq_lookup by done. rewrite list_lookup_fmap, (nth_lookup_some _ i 0) by (by rewrite length_bits8). done.
    + rewrite !lookup_ge_None_2; [done|rewrite length_map, length_bits8 by done; lia|rewrite length_map, length_seq; lia].
Qed.

Lemma reduce4_bits v : wf8 v -> exists u, reduce4 v = Some u /\ vec_is u (map scalar_value (bits8 v)).
Proof.
  intros W. unfold reduce4.
  pose proof (for_loop_ind (fun idx t => exists u, t = Some u /\ vec_wf u /\ size u = size8 v /\
    forall i, (i < idx)%nat -> value u i = scalar_value (nth i (bits8 v) 0)) (size8 v) 0
    (fun idx out => out ← out; s ← value8 v idx; Some (set_bit out idx (scalar_value s))) (Some (vec4_fill (size8 v) BIT4_X))) as Hind.
  destruct Hind as (u & E & Wu & Su & Hu).
  - eexists. split; [done|]. split; [apply vec4_fill_wf|]. split; [done|lia].
  - intros idx t Hidx (u & -> & Wu & Su & Hu). cbn. rewrite value8_nth by (done || lia). cbn. eexists. split; [done|].
    split; [apply set_bit_wf; [done|lia]|]. rewrite set_bit_size. split; [done|]. intros i Hi. rewrite set_bit_value by (done || lia).
    destruct (Nat.eqb_spec i idx) as [->|]; [done|]. apply Hu. lia.
  - exists u. split; [exact E|]. apply vec_is_intro; [done|by rewrite length_map, length_bits8|].
    rewrite length_map, length_bits8 by done. intros i Hi. rewrite Hu by lia. unfold bit_at.
    rewrite (nth_indep _ _ (scalar_value 0)) by (rewrite length_map, length_bits8; done). by rewrite map_nth.
Qed.

(** ** resolv_tri *)

(** A value that arrives at a port. *)
Inductive driver := Drive4 (port : nat) (bit : vvp_vector4_t) | Drive8 (port : nat) (bit : vvp_vector8_t).

Definition driver_port (d : driver) : nat := match d with Drive4 p _ | Drive8 p _ => p end.
Definition driver_bits (d : driver) : list vvp_scalar_t :=
  match d with Drive4 _ v => map strong (bits_of v) | Drive8 _ v => bits8 v end.

Definition tri_step (r : resolv_tri) (d : driver) : option (resolv_tri * option vvp_vector8_t) :=
  match d with Drive4 p v => tri_recv_vec4 r p v | Drive8 p v => tri_recv_vec8 r p v end.

(** The resolver after a sequence of values, with the vector it sent last. *)
Definition tri_recv (s : option (resolv_tri * option vvp_vector8_t)) (d : driver) : option (resolv_tri * option vvp_vector8_t) :=
  '(r, sent) ← s; '(r, o) ← tri_step r d; Some (r, match o with Some v => Some v | None => sent end).
Definition tri_run (n : nat) (hiz : vvp_scalar_t) (ds : list driver) : option (resolv_tri * option vvp_vector8_t) :=
  fold_left tri_recv ds (Some (new_resolv_tri n hiz, None)).

(** The values at the ports; a port that received nothing has none. *)
Definition tri_inputs (n : nat) (ds : list driver) : list (list vvp_scalar_t) :=
  fold_left (fun l d => <[driver_port d := driver_bits d]> l) ds (replicate n []).

Definition driver_ok (n w : nat) (d : driver) : Prop :=
  (driver_port d < n)%nat /\
  match d with
  | Drive4 _ v => size v = w
  | Drive8 _ v => wf8 v /\ size8 v = w /\ Forall (fun s => s ∈ bytes) (bits8 v)
  end.

Section Tri.
Context (n w : nat) (hiz : vvp_scalar_t).
Hypothesis w_pos : (0 < w)%nat.
Hypothesis n_pos : (0 < n)%nat.
Hypothesis hiz_puller : hiz ∈ pullers.

Definition good8 (v : vvp_vector8_t) : Prop := wf8 v /\ (size8 v = 0 \/ size8 v = w)%nat.

Lemma good8_size v : good8 v -> size8 v = length (bits8 v) /\ (bits8 v = [] \/ length (bits8 v) = w).
Proof.
  intros [W S]. rewrite length_bits8 by done. split; [done|]. destruct S as [S|S]; [left|by right].
  apply nil_length_inv. by rewrite length_bits8.
Qed.

Lemma good8_math a b : good8 a -> good8 b -> size8 a = w -> size8 b = w ->
  exists c, resolve8 a b = Some c /\ good8 c /\ bits8 c = zip_with resolve (bits8 a) (bits8 b).
Proof.
  intros [Wa _] [Wb _] Ha Hb. destruct (resolve8_bits a b Wa Wb) as (c & E & Wc & Sc & Bc); [congruence|].
  exists c. split; [done|]. split; [|done]. split; [done|]. right. congruence.
Qed.

Lemma good8_eeq a b : good8 a -> good8 b -> (0 < size8 a \/ 0 < size8 b)%nat -> eeq8 a b = true <-> bits8 a = bits8 b.
Proof. intros [Wa _] [Wb _]. by apply eeq8_bits. Qed.

Local Abbreviation root l := (tree_root resolve n l).
Local Abbreviation holds := (holds_tree bits8 resolve good8 n).
Local Abbreviation all_bytes := (in_dom (fun s => s ∈ bytes) w).

Lemma pull_again l : Forall (fun s => s ∈ bytes) l -> pull_bits hiz (pull_bits hiz l) = pull_bits hiz l.
Proof using hiz_puller.
  intros Hl. unfold pull_bits. destruct (is_hiz hiz); [done|]. rewrite map_map. apply map_ext_in. intros s Hs%list_elem_of_In.
  rewrite Forall_forall in Hl. apply pull_twice; [done|by apply Hl, list_elem_of_In].
Qed.

Lemma root_bytes l : Forall all_bytes l -> Forall (fun s => s ∈ bytes) (root l).
Proof. intros Hl. apply (tree_root_dom resolve (fun s => s ∈ bytes) w resolve_bytes n l Hl). Qed.

(** The state of the resolver after the inputs [l], and what it sent last. *)
Definition tri_shows (l : list (list vvp_scalar_t)) (s : resolv_tri * option vvp_vector8_t) : Prop :=
  let '(r, sent) := s in
  tri_nports r = n /\ hiz_value_ r = hiz /\ Forall all_bytes l /\ holds (tri_val r) l (pull_bits hiz (root l)) /\
  match sent with
  | Some v => wf8 v /\ bits8 v = pull_bits hiz (root l)
  | None => Forall (fun v => v = []) l
  end.

Lemma recv8_shows l s p v : tri_shows l s -> (p < n)%nat -> wf8 v -> size8 v = w -> Forall (fun s => s ∈ bytes) (bits8 v) ->
  exists s', ('(r, o) ← tri_recv_vec8 (fst s) p v; Some (r, match o with Some v => Some v | None => snd s end)) = Some s' /\
    tri_shows (<[p := bits8 v]> l) s'.
Proof using w_pos n_pos hiz_puller.
  destruct s as [r sent]. intros (Hn & Hh & Hb & Hholds & Hsent) Hp Wv Sv Bv. cbn [fst snd].
  assert (Hb' : Forall all_bytes (<[p := bits8 v]> l)).
  { apply Forall_insert; [done|]. split; [done|]. right. by rewrite length_bits8. }
  assert (Hlen : length (bits8 v) = w) by by rewrite length_bits8.
  assert (Hne : bits8 v <> []) by (intros E; rewrite E in Hlen; cbn in Hlen; lia).
  destruct (recv_input_spec size8 eeq8 resolve8 bits8 resolve good8 w good8_size good8_eeq good8_math
    (pull_bits hiz) n (tri_val r) l (pull_bits hiz (root l)) p v Hp) as (vals & e & E & He); try done.
  { split; [done|by right]. }
  { by apply pull_again, root_bytes. }
  unfold tri_recv_vec8. rewrite Hn, E. cbn [mbind option_bind]. destruct e as [|base].
  - destruct He as [Hk Hr]. eexists. split; [done|]. cbn. rewrite <- Hr. do 4 (split; [done|]).
    destruct sent as [u|]; [done|]. exfalso.
    assert (Hz : pull_bits hiz (root l) = []).
    { rewrite (tree_root_empty resolve n l Hsent). unfold pull_bits. by destruct (is_hiz hiz). }
    rewrite Hz in Hr. apply (f_equal length) in Hr. cbn in Hr.
    assert (Hlr : length (pull_bits hiz (root (<[p := bits8 v]> l))) = length (root (<[p := bits8 v]> l))).
    { unfold pull_bits. case_match; [done|]. by rewrite length_map. }
    rewrite Hlr in Hr. symmetry in Hr. apply nil_length_inv in Hr.
    destruct Hholds as (_ & Hl & _).
    apply (tree_root_nonempty resolve n (<[p := bits8 v]> l) (bits8 v)) in Hr; [done|rewrite length_insert; lia|].
    apply list_elem_of_lookup. exists p. apply list_lookup_insert_eq. lia.
  - destruct He as [Hk Hbase].
    destruct (holds_tree_root bits8 resolve good8 n vals _ _ base n_pos Hk Hbase) as (u & Eu & [Wu Su] & Bu & Hput).
    rewrite Eu. cbn [mbind option_bind]. rewrite Hh. destruct (pull_output_bits hiz u Wu) as (u' & Eu' & Wu' & Su' & Bu').
    rewrite Eu'. cbn [mbind option_bind]. eexists. split; [done|]. cbn. do 3 (split; [done|]).
    rewrite Bu in Bu'. split; [|by split]. rewrite <- Bu'. apply Hput. split; [done|]. by rewrite Su'.
Qed.

Lemma tri_run_shows ds : Forall (driver_ok n w) ds -> exists s, tri_run n hiz ds = Some s /\ tri_shows (tri_inputs n ds) s.
Proof using w_pos n_pos hiz_puller.
  intros Hds. unfold tri_run, tri_inputs.
  assert (H0 : tri_shows (replicate n []) (new_resolv_tri n hiz, None)).
  { cbn. do 2 (split; [done|]). split; [apply Forall_replicate; by split; [|left]|]. rewrite tree_root_nils. split.
    - assert (pull_bits hiz [] = []) as -> by (unfold pull_bits; by case_match).
      split; [apply Forall_replicate; split; [apply vec8_new_wf|by left]|]. split; [apply length_replicate|].
      rewrite tree_array_nils by lia. exact (fmap_replicate bits8 _ _).
    - by apply Forall_replicate. }
  revert H0. generalize (replicate n ([] : list vvp_scalar_t)), (new_resolv_tri n hiz, None : option vvp_vector8_t).
  induction Hds as [|d ds [Hp Hd] Hds IH]; intros l s Hs; [by exists s|]. cbn [fold_left].
  assert (exists v, wf8 v /\ size8 v = w /\ Forall (fun s => s ∈ bytes) (bits8 v) /\ bits8 v = driver_bits d /\
    tri_recv (Some s) d = ('(r, o) ← tri_recv_vec8 (fst s) (driver_port d) v; Some (r, match o with Some v => Some v | None => snd s end)))
    as (v & Wv & Sv & Bv & Ebits & Ev).
  { destruct s as [r sent], d as [p v|p v]; cbn in Hd.
    - destruct (vec8_of_vec4_strong v) as (u & Eu & Wu & Su & Bu). exists u. split; [done|]. split; [congruence|].
      split; [|split; [done|]].
      + rewrite Bu. apply Forall_map, Forall_true. intros b. rewrite in_bytes. destruct b; cbn; lia.
      + cbn. unfold tri_recv_vec4. by rewrite Eu.
    - destruct Hd as (Wv & Sv & Bv). by exists v. }
  rewrite Ev. destruct (recv8_shows l s (driver_port d) v Hs Hp Wv Sv Bv) as (s' & -> & Hs'). rewrite Ebits in Hs'. by apply IH.
Qed.

End Tri.

(** Some port has received a value. *)
Lemma tri_inputs_some n w d ds : Forall (driver_ok n w) (d :: ds) -> (0 < w)%nat ->
  length (tri_inputs n (d :: ds)) = n /\ Forall (fun l => l = [] \/ length l = w) (tri_inputs n (d :: ds)) /\
  exists l, l ∈ tri_inputs n (d :: ds) /\ length l = w.
Proof.
  intros Hds Hw. unfold tri_inputs. assert (Hbits : forall d, driver_ok n w d -> length (driver_bits d) = w).
  { intros [p v|p v] [_ Hd]; cbn in *; [by unfold bits_of; rewrite !length_map, length_seq|].
    destruct Hd as (W & S & _). by rewrite length_bits8. }
  remember (d :: ds) as es eqn:Ees. assert (Hne : es <> []) by by subst. clear Ees d ds.
  induction es as [|e es IH] using rev_ind; [done|]. apply Forall_app in Hds as [Hes He]. apply list.Forall_cons in He as [He _].
  rewrite fold_left_app. cbn [fold_left].
  assert (Hl : length (fold_left (fun l d => <[driver_port d := driver_bits d]> l) es (replicate n [])) = n).
  { clear. generalize (replicate n ([] : list vvp_scalar_t)) (length_replicate n ([] : list vvp_scalar_t)).
    induction es as [|e es IH]; intros l Hl; [done|]. cbn. apply IH. by rewrite length_insert. }
  split; [by rewrite length_insert|]. split.
  - apply Forall_insert; [|right; by apply Hbits]. destruct es as [|e' es']; [by apply Forall_replicate; left|]. by apply IH.
  - exists (driver_bits e). split; [|by apply Hbits]. apply list_elem_of_lookup. exists (driver_port e).
    apply list_lookup_insert_eq. rewrite Hl. apply He.
Qed.

Lemma tri_inputs_definite n w ds : Forall (driver_ok n w) ds -> Forall (fun d => Forall definite (driver_bits d)) ds ->
  Forall (in_dom definite w) (tri_inputs n ds).
Proof.
  intros Hok Hdef. unfold tri_inputs. assert (H0 : Forall (in_dom definite w) (replicate n [])) by (apply Forall_replicate; by split; [|left]).
  revert H0. generalize (replicate n ([] : list vvp_scalar_t)). induction ds as [|d ds IH]; intros l Hl; [done|].
  apply list.Forall_cons in Hok as [Hd Hok], Hdef as [Hdd Hdef]. cbn [fold_left]. apply IH; [done..|]. apply Forall_insert; [done|].
  split; [done|]. right. destruct d as [p v|p v], Hd as [_ Hd]; cbn in *; [by unfold bits_of; rewrite !length_map, length_seq|].
  destruct Hd as (W & S & _). by rewrite length_bits8.
Qed.

(** C9. A net with several drivers carries what its drivers make of it, whatever the
    order in which their values arrived.  A resolver that receives any sequence of
    vectors of one width, strong values or values with strengths, fails no
    assertion and keeps within its array; the vector it sent last is that of the
    tree over the values now at its ports, resolved four by four, with the puller of
    a tri0 or tri1 blended in, although nodes that do not change end the
    recomputation early and the puller is stored in the root.  When no value is
    ambiguous, each bit is the strongest of its drivers and the puller: 0 or 1 with
    the greatest strength, x on a tie, z without a driver - in any order. *)
Theorem tri_resolves (n w : nat) (hiz : vvp_scalar_t) (ds : list driver) :
  (0 < n)%nat -> (0 < w)%nat -> hiz ∈ pullers -> ds <> [] -> Forall (driver_ok n w) ds ->
  exists r v, tri_run n hiz ds = Some (r, Some v) /\
    bits8 v = pull_bits hiz (tree_root resolve n (tri_inputs n ds)) /\
    (Forall (fun d => Forall definite (driver_bits d)) ds ->
      size8 v = w /\ forall i, (i < w)%nat -> value8 v i = Some (strongest (hiz :: column (tri_inputs n ds) i))).
Proof.
  intros Hn Hw Hh Hne Hds. destruct (tri_run_shows n w hiz Hw Hn Hh ds Hds) as ([r sent] & E & _ & _ & _ & _ & Hsent).
  destruct ds as [|d ds]; [done|]. destruct (tri_inputs_some n w d ds Hds Hw) as (Hlen & Hsz & l0 & Hl0 & Hlw).
  destruct sent as [v|].
  2: { rewrite Forall_forall in Hsent. apply list_elem_of_In, Hsent in Hl0. subst l0. cbn in Hlw. lia. }
  destruct Hsent as [Wv Bv]. exists r, v. split; [done|]. split; [done|]. intros Hdef.
  pose proof (tri_inputs_definite n w _ Hds Hdef) as Hdom. set (l := tri_inputs n (d :: ds)) in *.
  rewrite (tree_root_all resolve definite w definite_resolve resolve_assoc) in Bv by (done || lia).
  assert (Hcol : forall i, (i < w)%nat -> exists c cs, column l i = c :: cs /\ Forall definite (c :: cs)).
  { intros i Hi. assert (Hf : Forall definite (column l i)).
    { rewrite Forall_forall in Hdom. apply Forall_forall. intros s Hs%list_elem_of_In. apply list_elem_of_omap in Hs as (x & Hx & Hs).
      apply list_elem_of_In, Hdom in Hx as [Hx _]. by eapply Forall_lookup_1. }
    destruct (column l i) as [|c cs] eqn:Ec; [|by exists c, cs]. exfalso.
    destruct (l0 !! i) as [s|] eqn:Es; [|apply lookup_ge_None in Es; lia].
    assert (Hin : s ∈ column l i) by (apply list_elem_of_omap; by exists l0). rewrite Ec in Hin. by apply elem_of_nil in Hin. }
  assert (Hlook : forall i, (i < w)%nat -> bits8 v !! i = Some (strongest (hiz :: column l i))).
  { intros i Hi. destruct (Hcol i Hi) as (c & cs & Ec & Hf).
    pose proof (combine_all_lookup resolve definite w definite_resolve l i Hi Hdom) as Hall.
    rewrite Ec in *. apply list.Forall_cons in Hf as [Hc Hcs]. rewrite resolve_strongest in Hall by done.
    rewrite Bv, <- (strongest_pulled hiz (c :: cs)) by (done || by apply list.Forall_cons). unfold pull_bits.
    destruct (is_hiz hiz); [done|]. by rewrite list_lookup_fmap, Hall. }
  assert (Hsize : size8 v = w).
  { rewrite <- length_bits8 by done. pose proof (combine_all_dom resolve definite w definite_resolve l Hdom) as [_ Hd].
    assert (Hz : length (bits8 v) = length (combine_all resolve l)) by (rewrite Bv; unfold pull_bits; case_match; [done|by rewrite length_map]).
    rewrite Hz. destruct Hd as [Hd|Hd]; [|done]. exfalso. specialize (Hlook 0%nat Hw). apply lookup_lt_Some in Hlook. rewrite Hz, Hd in Hlook. cbn in Hlook. lia. }
  split; [done|]. intros i Hi. rewrite value8_bits by lia. by apply Hlook.
Qed.

(** ** resolv_triand and resolv_trior *)

Definition wired_bits (d : driver) : list vvp_bit4_t :=
  match d with Drive4 _ v => bits_of v | Drive8 _ v => map scalar_value (bits8 v) end.

Definition wired_step (r : resolv_wired_logic) (d : driver) : option (resolv_wired_logic * option vvp_vector4_t) :=
  match d with Drive4 p v => wired_recv_vec4 r p v | Drive8 p v => wired_recv_vec8 r p v end.

Definition wired_recv (s : option (resolv_wired_logic * option vvp_vector4_t)) (d : driver) : option (resolv_wired_logic * option vvp_vector4_t) :=
  '(r, sent) ← s; '(r, o) ← wired_step r d; Some (r, match o with Some v => Some v | None => sent end).
Definition wired_run (n : nat) (f : vvp_bit4_t -> vvp_bit4_t -> vvp_bit4_t) (ds : list driver) : option (resolv_wired_logic * option vvp_vector4_t) :=
  fold_left wired_recv ds (Some (new_resolv_wired_logic n f, None)).

Definition wired_inputs (n : nat) (ds : list driver) : list (list vvp_bit4_t) :=
  fold_left (fun l d => <[driver_port d := wired_bits d]> l) ds (replicate n []).

Definition wired_ok (n w : nat) (d : driver) : Prop :=
  (driver_port d < n)%nat /\ match d with Drive4 _ v => vec_wf v /\ size v = w | Drive8 _ v => wf8 v /\ size8 v = w end.

(** The wired and, and the wired or, of the drivers of a bit. *)
Definition has_bit (c : vvp_bit4_t) (l : list vvp_bit4_t) : bool := existsb (fun b => bool_decide (b = c)) l.
Definition wired_and (l : list vvp_bit4_t) : vvp_bit4_t :=
  if has_bit BIT4_0 l then BIT4_0 else if has_bit BIT4_X l then BIT4_X else if has_bit BIT4_1 l then BIT4_1 else BIT4_Z.
Definition wired_or (l : list vvp_bit4_t) : vvp_bit4_t :=
  if has_bit BIT4_1 l then BIT4_1 else if has_bit BIT4_X l then BIT4_X else if has_bit BIT4_0 l then BIT4_0 else BIT4_Z.

Lemma triand_step c l : triand_bit c (wired_and l) = wired_and (c :: l).
Proof.
  unfold wired_and. cbn [has_bit existsb]. fold (has_bit BIT4_0 l) (has_bit BIT4_X l) (has_bit BIT4_1 l).
  destruct c, (has_bit BIT4_0 l), (has_bit BIT4_X l), (has_bit BIT4_1 l); done.
Qed.
Lemma trior_step c l : trior_bit c (wired_or l) = wired_or (c :: l).
Proof.
  unfold wired_or. cbn [has_bit existsb]. fold (has_bit BIT4_0 l) (has_bit BIT4_X l) (has_bit BIT4_1 l).
  destruct c, (has_bit BIT4_0 l), (has_bit BIT4_X l), (has_bit BIT4_1 l); done.
Qed.

Lemma triand_assoc a b c : triand_bit (triand_bit a b) c = triand_bit a (triand_bit b c).
Proof. by destruct a, b, c. Qed.
Lemma trior_assoc a b c : trior_bit (trior_bit a b) c = trior_bit a (trior_bit b c).
Proof. by destruct a, b, c. Qed.

(** A fold from the left is one from the right. *)
Lemma foldl_spec {C} (f : C -> C -> C) (g : list C -> C) :
  (forall a b c, f (f a b) c = f a (f b c)) -> (forall c, g [c] = c) -> (forall c l, f c (g l) = g (c :: l)) ->
  forall l c, foldl f c l = g (c :: l).
Proof.
  intros Ha H1 Hs. assert (Hf : forall l c d, foldl f (f c d) l = f c (foldl f d l)).
  { induction l as [|x l IH]; intros c d; [done|]. cbn. by rewrite Ha, IH. }
  induction l as [|x l IH]; intros c; [by rewrite H1|]. cbn [foldl]. by rewrite Hf, IH, Hs.
Qed.

Lemma bits_of_nil v : vec_wf v -> (size v = 0)%nat -> bits_of v = [].
Proof. intros _ Hs. unfold bits_of. by rewrite Hs. Qed.

Lemma vec_is_length u l : vec_is u l -> length l = size u.
Proof. intros [_ S _]. done. Qed.

Section Wired.
Context (n w : nat) (f : vvp_bit4_t -> vvp_bit4_t -> vvp_bit4_t).
Hypothesis w_pos : (0 < w)%nat.
Hypothesis n_pos : (0 < n)%nat.

Definition good4 (v : vvp_vector4_t) : Prop := vec_wf v /\ (size v = 0 \/ size v = w)%nat.

Lemma good4_size v : good4 v -> size v = length (bits_of v) /\ (bits_of v = [] \/ length (bits_of v) = w).
Proof.
  intros [W S]. rewrite length_bits_of. split; [done|]. destruct S; [left; by apply bits_of_nil|by right].
Qed.

Lemma good4_eeq a b : good4 a -> good4 b -> (0 < size a \/ 0 < size b)%nat -> eeq a b = true <-> bits_of a = bits_of b.
Proof.
  intros [Wa _] [Wb _] Hpos. destruct (decide (size a = size b)) as [E|E]; [apply eeq_bits_of; (done || lia)|]. split.
  - unfold eeq, same_words. by rewrite (proj2 (Nat.eqb_neq _ _) E).
  - intros Hb. apply (f_equal length) in Hb. by rewrite !length_bits_of in Hb.
Qed.

Lemma good4_math a b : good4 a -> good4 b -> size a = w -> size b = w ->
  exists c, wired_logic_math_ f a b = Some c /\ good4 c /\ bits_of c = zip_with f (bits_of a) (bits_of b).
Proof.
  intros [Wa _] [Wb _] Ha Hb. unfold wired_logic_math_. rewrite Ha, Hb, Nat.eqb_refl.
  pose proof (for_loop_ind (fun idx out => vec_wf out /\ size out = w /\ forall i, (i < idx)%nat -> value out i = f (value a i) (value b i))
    w 0 (fun idx out => set_bit out idx (f (value a idx) (value b idx))) (vec4_fill w BIT4_X)) as Hind.
  destruct Hind as (W & S & V).
  - split; [apply vec4_fill_wf|]. split; [done|lia].
  - intros idx out Hidx (W & S & V). split; [apply set_bit_wf; [done|lia]|]. rewrite set_bit_size. split; [done|].
    intros i Hi. rewrite set_bit_value by (done || lia). destruct (Nat.eqb_spec i idx) as [->|]; [done|]. apply V. lia.
  - eexists. split; [done|]. split; [by split; [|right]|]. unfold bits_of. rewrite S, Ha, Hb. apply list_eq. intros i.
    destruct (decide (i < w)%nat).
    + rewrite lookup_zip_with, !map_seq_lookup by done. cbn. by rewrite V by lia.
    + rewrite !lookup_ge_None_2; [done|rewrite length_zip_with, !length_map, length_seq; lia|rewrite length_map, length_seq; lia].
Qed.

Local Abbreviation root l := (tree_root f n l).

Definition wired_shows (l : list (list vvp_bit4_t)) (s : resolv_wired_logic * option vvp_vector4_t) : Prop :=
  let '(r, sent) := s in
  wired_nports r = n /\ wired_bit r = f /\ holds_tree bits_of f good4 n (wired_val r) l (root l) /\
  match sent with Some v => vec_wf v /\ bits_of v = root l | None => Forall (fun v => v = []) l end.

Lemma wired_recv4_shows l s p v : wired_shows l s -> (p < n)%nat -> vec_wf v -> size v = w ->
  exists s', ('(r, o) ← wired_recv_vec4 (fst s) p v; Some (r, match o with Some v => Some v | None => snd s end)) = Some s' /\
    wired_shows (<[p := bits_of v]> l) s'.
Proof using w_pos n_pos.
  destruct s as [r sent]. intros (Hn & Hf & Hholds & Hsent) Hp Wv Sv. cbn [fst snd].
  assert (Hne : bits_of v <> []) by (intros E; apply (f_equal length) in E; rewrite length_bits_of in E; cbn in E; lia).
  destruct (recv_input_spec size eeq (wired_logic_math_ f) bits_of f good4 w good4_size good4_eeq good4_math
    (fun x => x) n (wired_val r) l (root l) p v Hp) as (vals & e & E & He); try done.
  { split; [done|by right]. }
  unfold wired_recv_vec4. rewrite Hn, Hf, E. cbn [mbind option_bind]. destruct e as [|base].
  - destruct He as [Hk Hr]. eexists. split; [done|]. cbn. rewrite <- Hr. do 3 (split; [done|]).
    destruct sent as [u|]; [done|]. exfalso. rewrite (tree_root_empty f n l Hsent) in Hr. symmetry in Hr.
    destruct Hholds as (_ & Hl & _).
    apply (tree_root_nonempty f n (<[p := bits_of v]> l) (bits_of v)) in Hr; [done|rewrite length_insert; lia|].
    apply list_elem_of_lookup. exists p. apply list_lookup_insert_eq. lia.
  - destruct He as [Hk Hbase].
    destruct (holds_tree_root bits_of f good4 n vals _ _ base n_pos Hk Hbase) as (u & Eu & [Wu _] & Bu & _).
    rewrite Eu. cbn [mbind option_bind]. eexists. split; [done|]. cbn. done.
Qed.

Lemma wired_run_shows ds : Forall (wired_ok n w) ds -> exists s, wired_run n f ds = Some s /\ wired_shows (wired_inputs n ds) s.
Proof using w_pos n_pos.
  intros Hds. unfold wired_run, wired_inputs.
  assert (H0 : wired_shows (replicate n []) (new_resolv_wired_logic n f, None)).
  { cbn. do 2 (split; [done|]). rewrite tree_root_nils. split.
    - split; [apply Forall_replicate; split; [apply vec4_fill_wf|by left]|]. split; [apply length_replicate|].
      rewrite tree_array_nils by lia. exact (fmap_replicate bits_of _ _).
    - by apply Forall_replicate. }
  revert H0. generalize (replicate n ([] : list vvp_bit4_t)), (new_resolv_wired_logic n f, None : option vvp_vector4_t).
  induction Hds as [|d ds [Hp Hd] Hds IH]; intros l s Hs; [by exists s|]. cbn [fold_left].
  assert (exists v, vec_wf v /\ size v = w /\ bits_of v = wired_bits d /\
    wired_recv (Some s) d = ('(r, o) ← wired_recv_vec4 (fst s) (driver_port d) v; Some (r, match o with Some v => Some v | None => snd s end)))
    as (v & Wv & Sv & Ebits & Ev).
  { destruct s as [r sent], d as [p v|p v]; cbn in Hd.
    - exists v. destruct Hd as (Wv & Sv). done.
    - destruct Hd as (Wv & Sv). destruct (reduce4_bits v Wv) as (u & Eu & Hu). pose proof Hu as [Wu Su _]. exists u. split; [done|].
      split; [rewrite Su, length_map, length_bits8 by done; done|]. split; [by apply bits_of_is|]. cbn. unfold wired_recv_vec8. by rewrite Eu. }
  rewrite Ev. destruct (wired_recv4_shows l s (driver_port d) v Hs Hp Wv Sv) as (s' & -> & Hs'). rewrite Ebits in Hs'. by apply IH.
Qed.

End Wired.

Lemma wired_inputs_some n w ds : Forall (wired_ok n w) ds -> ds <> [] ->
  length (wired_inputs n ds) = n /\ Forall (in_dom (fun _ => True) w) (wired_inputs n ds) /\
  exists l, l ∈ wired_inputs n ds /\ length l = w.
Proof.
  unfold wired_inputs. assert (Hbits : forall d, wired_ok n w d -> length (wired_bits d) = w).
  { intros [p v|p v] [_ [W S]]; cbn in *; [by rewrite length_bits_of|by rewrite length_map, length_bits8]. }
  induction ds as [|e es IH] using rev_ind; [done|]. intros [Hes He]%Forall_app _. apply list.Forall_cons in He as [He _].
  rewrite fold_left_app. cbn [fold_left].
  assert (Hl : length (fold_left (fun l d => <[driver_port d := wired_bits d]> l) es (replicate n [])) = n).
  { clear. generalize (replicate n ([] : list vvp_bit4_t)) (length_replicate n ([] : list vvp_bit4_t)).
    induction es as [|e es IH]; intros l Hl; [done|]. cbn. apply IH. by rewrite length_insert. }
  assert (Htrue : forall l : list vvp_bit4_t, Forall (fun _ => True) l) by (intros l; by apply Forall_true).
  split; [by rewrite length_insert|]. split.
  - apply Forall_insert; [|split; [done|right; by apply Hbits]].
    destruct es as [|e' es']; [apply Forall_replicate; split; [done|by left]|]. by apply IH.
  - exists (wired_bits e). split; [|by apply Hbits]. apply list_elem_of_lookup. exists (driver_port e).
    apply list_lookup_insert_eq. rewrite Hl. apply He.
Qed.

(** C16. A triand carries the wired and of its drivers, a trior the wired or, whatever
    the order in which their values arrived: a resolver with any number of ports
    that receives any sequence of vectors of one width, with strengths or without,
    fails no assertion, and every bit of the vector it sent last is that of the
    values now at its ports - for a triand 0 when some driver is 0, else x when some
    is x, else 1 when some is 1, and z without a driver - although the tree is
    recomputed only along the path that changed. *)
Theorem wired_resolves (n w : nat) (ds : list driver) f g : (f, g) ∈ [(triand_bit, wired_and); (trior_bit, wired_or)] ->
  (0 < n)%nat -> (0 < w)%nat -> ds <> [] -> Forall (wired_ok n w) ds ->
  exists r v, wired_run n f ds = Some (r, Some v) /\ size v = w /\
    forall i, (i < w)%nat -> value v i = g (column (wired_inputs n ds) i).
Proof.
  intros Hfg Hn Hw Hne Hds. destruct (wired_run_shows n w f Hw Hn ds Hds) as ([r sent] & E & _ & _ & _ & Hsent).
  assert (Hspec : (forall a b c, f (f a b) c = f a (f b c)) /\ (forall c, g [c] = c) /\ forall c l, f c (g l) = g (c :: l)).
  { apply elem_of_cons in Hfg as [Efg|Hfg]; [|apply list_elem_of_singleton in Hfg as Efg]; injection Efg as -> ->.
    - split; [exact triand_assoc|]. split; [by intros []|exact triand_step].
    - split; [exact trior_assoc|]. split; [by intros []|exact trior_step]. }
  destruct Hspec as (Ha & H1 & Hs). destruct (wired_inputs_some n w ds Hds Hne) as (Hlen & Hdom & l0 & Hl0 & Hlw).
  destruct sent as [v|].
  2: { rewrite Forall_forall in Hsent. apply list_elem_of_In, Hsent in Hl0. subst l0. cbn in Hlw. lia. }
  destruct Hsent as [Wv Bv]. exists r, v. split; [done|]. set (l := wired_inputs n ds) in *.
  rewrite (tree_root_all f (fun _ => True) w ltac:(done) ltac:(intros; apply Ha)) in Bv by (done || lia).
  assert (Hlook : forall i, (i < w)%nat -> bits_of v !! i = Some (g (column l i))).
  { intros i Hi. rewrite Bv, (combine_all_lookup f (fun _ => True) w ltac:(done) l i Hi Hdom).
    destruct (column l i) as [|c cs] eqn:Ec; [|by rewrite (foldl_spec f g Ha H1 Hs)]. exfalso.
    destruct (l0 !! i) as [s|] eqn:Es; [|apply lookup_ge_None in Es; lia].
    assert (Hin : s ∈ column l i) by (apply list_elem_of_omap; by exists l0). rewrite Ec in Hin. by apply elem_of_nil in Hin. }
  assert (Hsize : size v = w).
  { rewrite <- length_bits_of. destruct (combine_all_dom f (fun _ => True) w ltac:(done) l Hdom) as [_ [Hd|Hd]]; [|by rewrite Bv].
    specialize (Hlook 0%nat Hw). apply lookup_lt_Some in Hlook. rewrite Bv, Hd in Hlook. cbn in Hlook. lia. }
  split; [done|]. intros i Hi. specialize (Hlook i Hi). unfold bits_of in Hlook. rewrite map_seq_lookup in Hlook by lia. by injection Hlook.
Qed.

(** ** Concrete nets *)

Definition bit4_vec (b : vvp_bit4_t) : vvp_vector4_t := set_bit (vec4_fill 2 BIT4_0) 1 b.

(** Five drivers of a tri1: pull 0 on port 0, strong 1 in bit 1 of port 4, z on port 2, then port 0 released. *)
Definition five_drivers : list driver :=
  [Drive8 0 (Vec8 2 [0x55; 0x55; 0; 0; 0; 0; 0; 0]); Drive4 4 (bit4_vec BIT4_1); Drive4 2 (bit4_vec BIT4_Z); Drive8 0 (vec8_new 2)].

Lemma five_drivers_ok : Forall (driver_ok 5 2) five_drivers.
Proof.
  repeat (apply list.Forall_cons; split); [..|by apply Forall_nil_2]; (split; [cbn; lia|]); try done;
    (split; [by apply wf8_intro|split; [done|]]); cbn; repeat (apply list.Forall_cons; split); by (apply in_bytes; lia) || apply Forall_nil_2.
Qed.

Lemma tri_resolves_witness : Forall (driver_ok 5 2) five_drivers /\ exists r v, tri_run 5 0xdd five_drivers = Some (r, Some v) /\
  size8 v = 2%nat /\ value8 v 0 = Some 0x66 /\ value8 v 1 = Some 0xee.
Proof.
  split; [exact five_drivers_ok|].
  destruct (tri_resolves 5 2 0xdd five_drivers) as (r & v & E & _ & H);
    [lia|lia|by right; right; left|done|exact five_drivers_ok|].
  exists r, v. split; [exact E|]. destruct H as [S H].
  - repeat (apply list.Forall_cons; split); [..|by apply Forall_nil_2]; cbn;
      repeat (apply list.Forall_cons; split); try apply Forall_nil_2.
    all: first [by exists 5, 0; repeat split; apply in_strengths|idtac].
    all: first [by exists 6, 0; repeat split; apply in_strengths|idtac].
    all: first [by exists 0, 6; repeat split; apply in_strengths|idtac].
    all: by exists 0, 0; repeat split; apply in_strengths.
  - split; [exact S|]. split; [rewrite (H 0%nat) by lia; reflexivity|rewrite (H 1%nat) by lia; reflexivity].
Defined.

Lemma wired_resolves_witness : Forall (wired_ok 5 2) five_drivers /\ exists r v, wired_run 5 triand_bit five_drivers = Some (r, Some v) /\
  size v = 2%nat /\ value v 0 = BIT4_0 /\ value v 1 = BIT4_1.
Proof.
  assert (Hok : Forall (wired_ok 5 2) five_drivers).
  { assert (Hb : forall b, vec_wf (bit4_vec b)) by (intros b; apply set_bit_wf; [apply vec4_fill_wf|cbn; lia]).
    repeat (apply list.Forall_cons; split); [..|by apply Forall_nil_2]; (split; [cbn; lia|]);
      (split; [|reflexivity]); first [apply Hb|by apply wf8_intro]. }
  split; [exact Hok|]. destruct (wired_resolves 5 2 five_drivers triand_bit wired_and) as (r & v & E & S & H);
    [by left|lia|lia|done|exact Hok|].
  exists r, v. split; [exact E|]. split; [exact S|].
  split; [rewrite (H 0%nat) by lia; reflexivity|rewrite (H 1%nat) by lia; reflexivity].
Defined.

(** ** Where resolution loses a driver *)

(** A strong 0 against a value between strong 1 and supply 1: the 0 is as strong as
    the weakest of these, yet the result is the 1 alone. *)
Lemma tie_with_ambiguous : scalar_of_bit4 BIT4_0 6 6 = Some 0x66 /\ resolve 0x66 0xfe = 0xfe /\ scalar_value 0xfe = BIT4_1 /\
  resolve 0x66 0xee = 0xe6 /\ scalar_value (resolve 0x66 0xee) = BIT4_X.
Proof. by vm_compute. Qed.

(** A strong 0, a strong 1, and a bufif1 of supply strength whose enable is x, as its
    value 0xf0 says: the first two tie when the third is off.  The net is x when the
    ambiguous driver is on the last port, and 1 when it is on the first. *)
Lemma port_order_decides :
  scalar_of_bit4 BIT4_X 0 7 = Some 0xf0 /\
  (let drivers p q r := [Drive8 p (Vec8 1 [0x66; 0; 0; 0; 0; 0; 0; 0]); Drive8 q (Vec8 1 [0xee; 0; 0; 0; 0; 0; 0; 0]); Drive8 r (Vec8 1 [0xf0; 0; 0; 0; 0; 0; 0; 0])] in
   let sent ds := '(_, v) ← tri_run 3 0 ds; v ← v; s ← value8 v 0; Some (scalar_value s) in
   sent (drivers 0 1 2)%nat = Some BIT4_X /\ sent (drivers 2 1 0)%nat = Some BIT4_1).
Proof. by vm_compute. Qed.

(** A 0 or 1 of the constructor with no strength on its side is a second encoding of
    z, which an exact comparison tells from the first. *)
Lemma two_encodings_of_z : scalar_of_bit4 BIT4_1 6 0 = Some 0x88 /\ scalar_value 0x88 = BIT4_Z /\ 0x88 <> scalar_hiz.
Proof. by vm_compute. Qed.
