(* ===== verification/Logic.v ===== *)
(** * Logic: gates and other functors with an event of their own (vvp/logic.h, vvp/logic.cc, vvp/concat.cc)

    Such a functor keeps its inputs; when one changes it calls [schedule_functor],
    unless [net_] says that its event is queued, and sends from [run_run].  It
    receives at and sends from one node, so of the pointer [net_] only whether it is
    null is kept.  Receiving a value gives the new functor and whether the event
    was scheduled; [None] is a failed assertion or a null pointer followed. *)

From S2P Require Import Prelude FourState Vector4 Vector4Ops.
Import Bit4.

Open Scope ivl_scope.

(** The virtual functions of such a functor. *)
Record event_functor := EventFunctor {
  state : Type;
  net_ : state -> bool;
  recv_vec4 : state -> nat -> vvp_vector4_t -> option (state * bool);
  recv_vec4_pv : state -> nat -> vvp_vector4_t -> nat -> nat -> option (state * bool);
  run_run : state -> option (state * vvp_vector4_t);
}.

(** [if (net_ == 0) { net_ = ptr.ptr(); schedule_functor(this); }] *)
Definition wake {F} (net : bool) (set_net : F) (f : F) : F * bool := if net then (f, false) else (set_net, true).

(** ** vvp_fun_boolean_ and the gates of up to four inputs *)

Record vvp_fun_boolean_ := Boolean { bool_net_ : bool; bool_input_ : list vvp_vector4_t }.

Definition new_boolean (wid : nat) : vvp_fun_boolean_ := Boolean false (replicate 4 (vec4_fill wid BIT4_Z)).

Definition boolean_wake (f : vvp_fun_boolean_) : vvp_fun_boolean_ * bool :=
  wake (bool_net_ f) (Boolean true (bool_input_ f)) f.

Definition boolean_recv_vec4 (f : vvp_fun_boolean_) (port : nat) (bit : vvp_vector4_t) : option (vvp_fun_boolean_ * bool) :=
  old ← bool_input_ f !! port;
  if eeq old bit then Some (f, false)
  else Some (boolean_wake (Boolean (bool_net_ f) (<[port := bit]> (bool_input_ f)))).

Definition boolean_recv_vec4_pv (f : vvp_fun_boolean_) (port : nat) (bit : vvp_vector4_t) (base vwid : nat) : option (vvp_fun_boolean_ * bool) :=
  if (base + size bit <=? vwid)%nat then
    old ← bool_input_ f !! port;
    '(new, flag) ← set_vec old base bit;
    let f := Boolean (bool_net_ f) (<[port := new]> (bool_input_ f)) in
    if (flag : bool) then Some (boolean_wake f) else Some (f, false)
  else None.

(** [result = input_[0]; for (pdx = 1; pdx < 4) result &= input_[pdx]; if (invert_) result.invert();] *)
Definition gate_result (op : vvp_vector4_t -> vvp_vector4_t -> vvp_vector4_t) (invert_ : bool) (input_ : list vvp_vector4_t) : option vvp_vector4_t :=
  result ← input_ !! 0%nat;
  result ← for_loop 3 1 (fun pdx result => result ← result; i ← input_ !! pdx; Some (op result i)) (Some result);
  Some (if invert_ then invert result else result).

(** The result of [vvp_fun_equiv] and [vvp_fun_impl] from one bit of each input. *)
Definition bit_result (op : vvp_bit4_t -> vvp_bit4_t -> vvp_bit4_t) (input_ : list vvp_vector4_t) : option vvp_vector4_t :=
  a ← input_ !! 0%nat;
  b ← input_ !! 1%nat;
  if (size a =? 1)%nat && (size b =? 1)%nat then Some (vec4_fill 1 (op (value a 0) (value b 0))) else None.

Definition fun_and_result (invert_ : bool) := gate_result vec4_and invert_.
Definition fun_or_result (invert_ : bool) := gate_result vec4_or invert_.
Definition fun_xor_result (invert_ : bool) := gate_result vec4_xor invert_.
Definition fun_equiv_result := bit_result (fun a b => bit4_not (bit4_xor a b)).
Definition fun_impl_result := bit_result (fun a b => bit4_or (bit4_not a) b).

Definition boolean_run_run (result : list vvp_vector4_t -> option vvp_vector4_t) (f : vvp_fun_boolean_) : option (vvp_fun_boolean_ * vvp_vector4_t) :=
  if bool_net_ f then r ← result (bool_input_ f); Some (Boolean false (bool_input_ f), r) else None.

Definition boolean_functor (result : list vvp_vector4_t -> option vvp_vector4_t) : event_functor :=
  EventFunctor vvp_fun_boolean_ bool_net_ boolean_recv_vec4 boolean_recv_vec4_pv (boolean_run_run result).

(** ** vvp_fun_buf and vvp_fun_not *)

Record vvp_fun_buf_not_ := BufNot { buf_net_ : bool; buf_input_ : vvp_vector4_t }.

Definition new_buf_not (wid : nat) : vvp_fun_buf_not_ := BufNot false (vec4_fill wid BIT4_Z).

Definition buf_not_wake (f : vvp_fun_buf_not_) : vvp_fun_buf_not_ * bool := wake (buf_net_ f) (BufNot true (buf_input_ f)) f.

Definition buf_not_recv_vec4 (f : vvp_fun_buf_not_) (port : nat) (bit : vvp_vector4_t) : option (vvp_fun_buf_not_ * bool) :=
  if negb (port =? 0)%nat then Some (f, false)
  else if eeq (buf_input_ f) bit then Some (f, false)
  else Some (buf_not_wake (BufNot (buf_net_ f) bit)).

Definition buf_not_recv_vec4_pv (f : vvp_fun_buf_not_) (port : nat) (bit : vvp_vector4_t) (base vwid : nat) : option (vvp_fun_buf_not_ * bool) :=
  if negb (port =? 0)%nat then Some (f, false)
  else if (base + size bit <=? vwid)%nat then
    '(new, flag) ← set_vec (buf_input_ f) base bit;
    let f := BufNot (buf_net_ f) new in
    if (flag : bool) then Some (buf_not_wake f) else Some (f, false)
  else None.

Definition buf_not_run_run (result : vvp_vector4_t -> vvp_vector4_t) (f : vvp_fun_buf_not_) : option (vvp_fun_buf_not_ * vvp_vector4_t) :=
  if buf_net_ f then Some (BufNot false (buf_input_ f), result (buf_input_ f)) else None.

Definition buf_not_functor (result : vvp_vector4_t -> vvp_vector4_t) : event_functor :=
  EventFunctor vvp_fun_buf_not_ buf_net_ buf_not_recv_vec4 buf_not_recv_vec4_pv (buf_not_run_run result).

(** ** vvp_fun_muxz *)

Inductive sel_type := SEL_PORT0 | SEL_PORT1 | SEL_BOTH.

#[export] Instance sel_type_eq_dec : EqDecision sel_type.
Proof. solve_decision. Defined.

Record vvp_fun_muxz := Muxz { a_ : vvp_vector4_t; b_ : vvp_vector4_t; mux_net_ : bool; select_ : sel_type; has_run_ : bool }.

Definition new_muxz (wid : nat) : vvp_fun_muxz := Muxz (vec4_fill wid BIT4_Z) (vec4_fill wid BIT4_Z) false SEL_BOTH false.

Definition mux_wake (f : vvp_fun_muxz) : vvp_fun_muxz * bool :=
  wake (mux_net_ f) (Muxz (a_ f) (b_ f) true (select_ f) (has_run_ f)) f.

Definition set_a (f : vvp_fun_muxz) (a : vvp_vector4_t) := Muxz a (b_ f) (mux_net_ f) (select_ f) (has_run_ f).
Definition set_b (f : vvp_fun_muxz) (b : vvp_vector4_t) := Muxz (a_ f) b (mux_net_ f) (select_ f) (has_run_ f).
Definition set_select (f : vvp_fun_muxz) (s : sel_type) := Muxz (a_ f) (b_ f) (mux_net_ f) s (has_run_ f).

Definition muxz_recv_vec4 (f : vvp_fun_muxz) (port : nat) (bit : vvp_vector4_t) : option (vvp_fun_muxz * bool) :=
  match port with
  | 0%nat =>
    if eeq (a_ f) bit && has_run_ f then Some (f, false)
    else let f := set_a f bit in if decide (select_ f = SEL_PORT1) then Some (f, false) else Some (mux_wake f)
  | 1%nat =>
    if eeq (b_ f) bit && has_run_ f then Some (f, false)
    else let f := set_b f bit in if decide (select_ f = SEL_PORT0) then Some (f, false) else Some (mux_wake f)
  | 2%nat =>
    if negb (size bit =? 1)%nat then None
    else match value bit 0 with
         | BIT4_0 => if decide (select_ f = SEL_PORT0) then Some (f, false) else Some (mux_wake (set_select f SEL_PORT0))
         | BIT4_1 => if decide (select_ f = SEL_PORT1) then Some (f, false) else Some (mux_wake (set_select f SEL_PORT1))
         | _ => if bool_decide (select_ f = SEL_BOTH) && has_run_ f then Some (f, false) else Some (mux_wake (set_select f SEL_BOTH))
         end
  | _ => Some (f, false)
  end.

Definition muxz_recv_vec4_pv (f : vvp_fun_muxz) (port : nat) (bit : vvp_vector4_t) (base vwid : nat) : option (vvp_fun_muxz * bool) :=
  if negb (base + size bit <=? vwid)%nat then None
  else match port with
  | 0%nat =>
    '(a, flag) ← set_vec (a_ f) base bit;
    let f := set_a f a in
    if negb flag && has_run_ f then Some (f, false)
    else if decide (select_ f = SEL_PORT1) then Some (f, false) else Some (mux_wake f)
  | 1%nat =>
    '(b, flag) ← set_vec (b_ f) base bit;
    let f := set_b f b in
    if negb flag && has_run_ f then Some (f, false)
    else if decide (select_ f = SEL_PORT0) then Some (f, false) else Some (mux_wake f)
  | 2%nat => if (base =? 0)%nat && (size bit =? 1)%nat then muxz_recv_vec4 f port bit else None
  | _ => Some (f, false)
  end.

(** What [run_run] sends when the select input is unknown. *)
Definition muxz_blend (a b : vvp_vector4_t) : vvp_vector4_t :=
  let min_size := Nat.min (size a) (size b) in
  let max_size := Nat.max (size a) (size b) in
  let res := vec4_fill max_size BIT4_X in
  let res := for_loop min_size 0 (fun idx res => set_bit res idx (if decide (value a idx = value b idx) then value a idx else BIT4_X)) res in
  for_loop (max_size - min_size) min_size (fun idx res => set_bit res idx BIT4_X) res.

Definition muxz_run_run (f : vvp_fun_muxz) : option (vvp_fun_muxz * vvp_vector4_t) :=
  if mux_net_ f then
    Some (Muxz (a_ f) (b_ f) false (select_ f) true,
          match select_ f with SEL_PORT0 => a_ f | SEL_PORT1 => b_ f | SEL_BOTH => muxz_blend (a_ f) (b_ f) end)
  else None.

Definition muxz_functor : event_functor := EventFunctor vvp_fun_muxz mux_net_ muxz_recv_vec4 muxz_recv_vec4_pv muxz_run_run.

(** ** vvp_fun_concat *)

Record vvp_fun_concat := Concat { con_wid_ : list nat; con_val_ : vvp_vector4_t; con_net_ : bool }.

Definition new_concat (w0 w1 w2 w3 : nat) : vvp_fun_concat := Concat [w0; w1; w2; w3] (vec4_fill (w0 + w1 + w2 + w3) BIT4_Z) false.

Definition concat_recv_vec4_pv (f : vvp_fun_concat) (port : nat) (bit : vvp_vector4_t) (base vwid : nat) : option (vvp_fun_concat * bool) :=
  w ← con_wid_ f !! port;
  if negb (vwid =? w)%nat then None
  else
    off ← for_loop port 0 (fun idx off => off ← off; w ← con_wid_ f !! idx; Some (off + w)%nat) (Some base);
    '(val, flag) ← set_vec (con_val_ f) off bit;
    if negb flag then Some (Concat (con_wid_ f) val (con_net_ f), false)
    else Some (wake (con_net_ f) (Concat (con_wid_ f) val true) (Concat (con_wid_ f) val (con_net_ f))).

Definition concat_recv_vec4 (f : vvp_fun_concat) (port : nat) (bit : vvp_vector4_t) : option (vvp_fun_concat * bool) :=
  concat_recv_vec4_pv f port bit 0 (size bit).

Definition concat_run_run (f : vvp_fun_concat) : option (vvp_fun_concat * vvp_vector4_t) :=
  if con_net_ f then Some (Concat (con_wid_ f) (con_val_ f) false, con_val_ f) else None.

Definition concat_functor : event_functor := EventFunctor vvp_fun_concat con_net_ concat_recv_vec4 concat_recv_vec4_pv concat_run_run.

(** ** Functors that send at once *)

(** [vvp_fun_bufz::recv_vec4] and [recv_vec4_pv] *)
Definition bufz_recv_vec4 (port : nat) (bit : vvp_vector4_t) : option vvp_vector4_t := if negb (port =? 0)%nat then None else Some bit.

(** The functors of reduce.cc; [None] also when nothing is sent. *)
Definition calculate_result (reduce : vvp_vector4_t -> vvp_bit4_t) (bits_ : vvp_vector4_t) : vvp_vector4_t := vec4_fill 1 (reduce bits_).

Definition reduce_recv_vec4 (reduce : vvp_vector4_t -> vvp_bit4_t) (bits_ : vvp_vector4_t) (bit : vvp_vector4_t) : vvp_vector4_t * vvp_vector4_t :=
  (bit, calculate_result reduce bit).

Definition reduce_recv_vec4_pv (reduce : vvp_vector4_t -> vvp_bit4_t) (bits_ : vvp_vector4_t) (bit : vvp_vector4_t) (base vwid : nat) : option (vvp_vector4_t * vvp_vector4_t) :=
  let bits_ := if (size bits_ =? 0)%nat then vec4_fill vwid BIT4_X else bits_ in
  if (size bits_ =? vwid)%nat then '(bits_, _) ← set_vec bits_ base bit; Some (bits_, calculate_result reduce bits_) else None.
