(* ===== verification/LogicSpec.v ===== *)
(** * LogicSpec: what a gate sends

    A node is a functor with the events of it that are queued and the value it sent
    last.  Whatever arrives, one event is queued as long as the output is not that
    of the inputs: the laws [lawful], proved once for every functor, give it. *)

From S2P Require Import Prelude FourState Vector4 Vector4Value Vector4Ops Vector4Parts Vector4Arith Vector4Logic Vector4Reduce.
From S2P Require Import Vector4Conv Bits Logic.
Import Bit4.

Open Scope ivl_scope.

(** ** Nodes *)

(** A value that arrives at a port, whole or a part of [vwid] bits. *)
Inductive input := Recv (port : nat) (bit : vvp_vector4_t) | RecvPv (port : nat) (bit : vvp_vector4_t) (base vwid : nat).

Definition receive (fn : event_functor) (f : state fn) (i : input) : option (state fn * bool) :=
  match i with Recv p v => recv_vec4 fn f p v | RecvPv p v base vwid => recv_vec4_pv fn f p v base vwid end.

(** What happens to a node: a value arrives, or the scheduler runs one of its events. *)
Inductive action := Arrive (i : input) | RunEvent.

Record node (fn : event_functor) := Node { self : state fn; queued : nat; sent : option vvp_vector4_t }.
Arguments Node {fn}.
Arguments self {fn}.
Arguments queued {fn}.
Arguments sent {fn}.

Definition act {fn} (n : option (node fn)) (a : action) : option (node fn) :=
  n ← n;
  match a with
  | Arrive i => '(f, schedule) ← receive fn (self n) i; Some (Node f (queued n + (if schedule : bool then 1 else 0)) (sent n))
  | RunEvent =>
    match queued n with
    | O => Some n
    | S q => '(f, v) ← run_run fn (self n); Some (Node f q (Some v))
    end
  end.

(** The inputs as lists of bits, and what an arrival makes of them. *)
Definition put (base : nat) (r l : bits) : bits :=
  map_bits (length l) (fun i => if ((base <=? i) && (i <? base + length r))%nat then bit_at r (i - base) else bit_at l i).

Definition arrive (norm : nat -> bits -> bits) (l : list bits) (a : action) : list bits :=
  match a with
  | Arrive (Recv p v) => <[p := norm p (bits_of v)]> l
  | Arrive (RecvPv p v base _) => alter (fun old => norm p (put base (bits_of v) old)) p l
  | RunEvent => l
  end.

(** An input that fits the widths of the ports; other ports of the four are ignored. *)
Definition input_ok (widths : list nat) (i : input) : Prop :=
  match i with
  | Recv p v => (p < 4)%nat /\ vec_wf v /\ (0 < size v)%nat /\ forall w, widths !! p = Some w -> size v = w
  | RecvPv p v base vwid => (p < 4)%nat /\ vec_wf v /\ (0 < size v)%nat /\ (base + size v <= vwid)%nat /\ forall w, widths !! p = Some w -> vwid = w
  end.

Definition action_ok (widths : list nat) (a : action) : Prop := match a with Arrive i => input_ok widths i | RunEvent => True end.

(** The laws of a functor whose output is [meaning] of its inputs, [holds] relating
    its state to them. *)
Record lawful (fn : event_functor) (widths : list nat) (norm : nat -> bits -> bits) (initial : list bits)
    (holds : state fn -> list bits -> Prop) (meaning : list bits -> bits) : Prop := Lawful {
  law_receive : forall f l i, holds f l -> input_ok widths i ->
    exists f' schedule, receive fn f i = Some (f', schedule) /\ holds f' (arrive norm l (Arrive i)) /\
      net_ fn f' = net_ fn f || schedule /\ (schedule = true -> net_ fn f = false) /\
      (net_ fn f' = false -> meaning (arrive norm l (Arrive i)) = meaning l /\ (l = initial -> arrive norm l (Arrive i) = initial));
  law_run : forall f l, holds f l -> net_ fn f = true ->
    exists f' v, run_run fn f = Some (f', v) /\ holds f' l /\ net_ fn f' = false /\ vec_is v (meaning l);
}.

Section Lawful.
Context (fn : event_functor) (widths : list nat) (norm : nat -> bits -> bits) (initial : list bits).
Context (holds : state fn -> list bits -> Prop) (meaning : list bits -> bits).
Hypothesis laws : lawful fn widths norm initial holds meaning.

(** One event is queued exactly while [net_] is set; without one the output is up to date. *)
Definition node_shows (n : node fn) (l : list bits) : Prop :=
  holds (self n) l /\ queued n = (if net_ fn (self n) then 1 else 0)%nat /\
  (net_ fn (self n) = false -> match sent n with Some v => vec_is v (meaning l) | None => l = initial end).

Lemma act_shows n l a : node_shows n l -> action_ok widths a ->
  exists n', act (Some n) a = Some n' /\ node_shows n' (arrive norm l a).
Proof using laws.
  destruct n as [f q s]. intros (H & Hq & Hs) Ha. cbn [self queued sent] in *. destruct a as [i|].
  - destruct (law_receive _ _ _ _ _ _ laws f l i H Ha) as (f' & sch & E & H' & Hn & Hsch & Hq').
    cbn [act self mbind option_bind]. rewrite E. cbn [mbind option_bind]. eexists. split; [done|].
    split; [done|]. cbn [self queued sent]. rewrite Hn, Hq. split.
    + destruct sch; [by rewrite Hsch|]. destruct (net_ fn f); cbn; lia.
    + rewrite <- Hn. intros E'. destruct (Hq' E') as [Em Ei]. rewrite E' in Hn. symmetry in Hn. apply orb_false_iff in Hn as [Hn _].
      specialize (Hs Hn). destruct s; [by rewrite Em|]. by apply Ei.
  - cbn [act self queued mbind option_bind]. rewrite Hq. destruct (net_ fn f) eqn:En.
    + destruct (law_run _ _ _ _ _ _ laws f l H En) as (f' & v & E & H' & En' & Hv). rewrite E. cbn [mbind option_bind].
      eexists. split; [done|]. split; [done|]. cbn [self queued sent]. by rewrite En'.
    + eexists. split; [done|]. split; [done|]. cbn [self queued sent]. by rewrite En.
Qed.

Lemma acts_show acts : forall n l, node_shows n l -> Forall (action_ok widths) acts ->
  exists n', fold_left act acts (Some n) = Some n' /\ node_shows n' (fold_left (arrive norm) acts l).
Proof using laws.
  induction acts as [|a acts IH]; intros n l Hn Ha; [by exists n|]. apply list.Forall_cons in Ha as [Ha Has].
  destruct (act_shows n l a Hn Ha) as (n' & E & Hn'). cbn [fold_left]. rewrite E. by apply IH.
Qed.

End Lawful.

(** ** Values at the ports *)

Lemma eeq_decides v w l : vec_is v l -> vec_wf w -> size w = length l -> (0 < size w)%nat -> eeq v w = true <-> bits_of w = l.
Proof.
  intros V W Hs H0. rewrite eeq_bits_of by (done || apply V || (rewrite (is_size v l) by done; lia)). rewrite (bits_of_is v l V). done.
Qed.

Lemma length_put base r l : length (put base r l) = length l.
Proof. apply length_map_bits. Qed.

Lemma set_vec_put v w l base : vec_is v l -> vec_wf w -> (base + size w <= length l)%nat -> (0 < size w)%nat ->
  exists v' flag, set_vec v base w = Some (v', flag) /\ vec_is v' (put base (bits_of w) l) /\ (flag = false -> put base (bits_of w) l = l).
Proof.
  intros V W Hb H0. pose proof (vec_is_bits_of w W) as Vw.
  destruct (set_vec_spec v w base (is_wf v l V) W) as (v' & flag & E & Wf & S & B & Hflag); [by rewrite (is_size v l)|done|].
  assert (V' : vec_is v' (put base (bits_of w) l)).
  { apply vec_is_map; [done|by rewrite S, (is_size v l)|]. intros i Hi. rewrite B by (by rewrite (is_size v l)).
    rewrite (is_bits v l), (is_bits w _ Vw), (is_size w _ Vw) by done. done. }
  exists v', flag. split; [done|]. split; [done|]. intros ->. apply bits_eq; [apply length_put|]. rewrite length_put. intros i Hi.
  rewrite <- (is_bits v' _ V'), <- (is_bits v l V). destruct (decide (value v' i = value v i)) as [|Hne]; [done|].
  exfalso. assert (Hlt : (i < size v)%nat) by (by rewrite (is_size v l)).
  destruct Hflag as [_ Hf]. specialize (Hf (ex_intro _ i (conj Hlt Hne))). done.
Qed.

(** Vectors at ports of given widths. *)
Definition ports_hold (widths : list nat) (vs : list vvp_vector4_t) (l : list bits) : Prop :=
  Forall2 vec_is vs l /\ Forall2 (fun w (b : bits) => length b = w) widths l.

Lemma ports_lookup widths vs l p : ports_hold widths vs l -> (p < length widths)%nat ->
  exists v b w, vs !! p = Some v /\ l !! p = Some b /\ widths !! p = Some w /\ vec_is v b /\ length b = w.
Proof.
  intros [Hv Hw] Hp. pose proof (list.Forall2_length _ _ _ Hv) as L1. pose proof (list.Forall2_length _ _ _ Hw) as L2.
  destruct (lookup_lt_is_Some_2 vs p) as [v Ev]; [lia|]. destruct (lookup_lt_is_Some_2 l p) as [b Eb]; [lia|].
  destruct (lookup_lt_is_Some_2 widths p) as [w Ew]; [lia|]. exists v, b, w. repeat (split; [done|]).
  split; [by eapply list.Forall2_lookup_lr|exact (list.Forall2_lookup_lr _ widths l p w b Hw Ew Eb)].
Qed.

Lemma ports_insert widths vs l p v b : ports_hold widths vs l -> vec_is v b -> widths !! p = Some (length b) ->
  ports_hold widths (<[p := v]> vs) (<[p := b]> l).
Proof.
  intros [Hv Hw] V Ew. split; [by apply list.Forall2_insert|]. rewrite <- (list_insert_id widths p (length b)) by done. by apply list.Forall2_insert.
Qed.

Lemma ports_initial widths : ports_hold widths (map (fun w => vec4_fill w BIT4_Z) widths) (map (fun w => repeat BIT4_Z w) widths).
Proof.
  split; induction widths as [|w ws IH]; constructor; auto; [apply vec_is_fill|apply repeat_length].
Qed.

Lemma alter_insert {A} (f : A -> A) (l : list A) p x : l !! p = Some x -> alter f p l = <[p := f x]> l.
Proof.
  intros E. apply list_eq. intros i. destruct (decide (p = i)) as [<-|Hne].
  - rewrite list_lookup_alter_eq, E, list_lookup_insert_eq; [done|by eapply lookup_lt_Some].
  - by rewrite list_lookup_alter_ne, list_lookup_insert_ne.
Qed.

Definition plain (_ : nat) (b : bits) : bits := b.

(** ** The gates of up to four inputs *)

Definition boolean_holds (widths : list nat) (f : vvp_fun_boolean_) (l : list bits) : Prop := ports_hold widths (bool_input_ f) l.

Lemma boolean_wakes widths f l l' meaning initial : boolean_holds widths f l' ->
  exists f' schedule, Some (boolean_wake f) = Some (f', schedule) /\ boolean_holds widths f' l' /\
    bool_net_ f' = bool_net_ f || schedule /\ (schedule = true -> bool_net_ f = false) /\
    (bool_net_ f' = false -> meaning l' = meaning l :> bits /\ (l = initial -> l' = initial :> list bits)).
Proof.
  intros H. unfold boolean_wake, wake. destruct (bool_net_ f) eqn:E.
  - eexists _, _. split; [done|]. rewrite E. done.
  - eexists _, _. split; [done|]. split; [done|]. cbn. done.
Qed.

Lemma boolean_lawful (result : list vvp_vector4_t -> option vvp_vector4_t) widths initial (meaning : list bits -> bits) :
  length widths = 4%nat ->
  (forall vs l, ports_hold widths vs l -> exists v, result vs = Some v /\ vec_is v (meaning l)) ->
  lawful (boolean_functor result) widths plain initial (boolean_holds widths) meaning.
Proof.
  intros Hw Hr. split.
  - intros f l [p v|p v base vwid] H; cbn [input_ok receive boolean_functor recv_vec4 recv_vec4_pv arrive net_ plain].
    + intros (Hp & Wv & H0 & Hs). destruct (ports_lookup widths _ l p H) as (old & b & w & E1 & E2 & E3 & V & L); [lia|].
      unfold boolean_recv_vec4. rewrite E1. cbn [mbind option_bind]. specialize (Hs w E3).
      pose proof (eeq_decides old v b V Wv ltac:(lia) ltac:(lia)) as Hd. destruct (eeq old v) eqn:Ee.
      * rewrite (proj1 Hd eq_refl), list_insert_id by done. eexists _, _. split; [done|]. rewrite orb_false_r. done.
      * change (bool_net_ f) with (bool_net_ (Boolean (bool_net_ f) (<[p:=v]> (bool_input_ f)))) at 2 3. apply boolean_wakes.
        apply ports_insert; [done|by apply vec_is_bits_of|unfold plain; by rewrite length_bits_of, Hs].
    + intros (Hp & Wv & H0 & Hb & Hs). destruct (ports_lookup widths _ l p H) as (old & b & w & E1 & E2 & E3 & V & L); [lia|].
      unfold boolean_recv_vec4_pv. rewrite E1, (proj2 (Nat.leb_le _ _) Hb). cbn [mbind option_bind]. specialize (Hs w E3).
      destruct (set_vec_put old v b base V Wv) as (new & flag & E & Vn & Hf); [lia|done|]. rewrite E. cbn [mbind option_bind].
      rewrite (alter_insert _ l p b E2).
      assert (H' : boolean_holds widths (Boolean (bool_net_ f) (<[p:=new]> (bool_input_ f))) (<[p := put base (bits_of v) b]> l)).
      { apply ports_insert; [done|done|]. by rewrite length_put, L. }
      destruct flag.
      * change (bool_net_ f) with (bool_net_ (Boolean (bool_net_ f) (<[p:=new]> (bool_input_ f)))) at 2 3. by apply boolean_wakes.
      * eexists _, _. split; [done|]. split; [done|]. cbn [bool_net_]. rewrite orb_false_r. rewrite (Hf eq_refl), list_insert_id by done. done.
  - intros f l H Hn. cbn in Hn. cbn [run_run boolean_functor]. unfold boolean_run_run. rewrite Hn.
    destruct (Hr (bool_input_ f) l H) as (v & E & V). rewrite E. by eexists _, _.
Qed.

Lemma one_port l : length l = 4%nat -> exists a b c d : bits, l = [a; b; c; d].
Proof. destruct l as [|a [|b [|c [|d [|]]]]]; try done. intros _. by exists a, b, c, d. Qed.

(** Column [i] of the inputs. *)
Definition bit_column (l : list bits) (i : nat) : bits := map (fun b => bit_at b i) l.

Lemma gate_result_spec op bop inv w vs l :
  (forall a b, vec_wf a -> vec_wf b -> size a = size b ->
    let r := op a b in vec_wf r /\ size r = size a /\ forall i, (i < size a)%nat -> value r i = bop (value a i) (value b i)) ->
  ports_hold [w; w; w; w] vs l ->
  exists v, gate_result op inv vs = Some v /\
    vec_is v (map_bits w (fun i => (if inv then bit4_not else fun b => b)
      match bit_column l i with [a; b; c; d] => bop (bop (bop a b) c) d | _ => BIT4_X end)).
Proof.
  intros Hop [Hv Hw]. pose proof (list.Forall2_length _ _ _ Hw) as L. symmetry in L. apply one_port in L as (a & b & c & d & ->).
  apply list.Forall2_cons_inv_r in Hv as (va & vs1 & Va & Hv & ->). apply list.Forall2_cons_inv_r in Hv as (vb & vs2 & Vb & Hv & ->).
  apply list.Forall2_cons_inv_r in Hv as (vc & vs3 & Vc & Hv & ->). apply list.Forall2_cons_inv_r in Hv as (vd & vs4 & Vd & Hv & ->).
  apply list.Forall2_nil_inv_r in Hv as ->.
  apply list.Forall2_cons in Hw as [<- Hw]. apply list.Forall2_cons in Hw as [Lb Hw]. apply list.Forall2_cons in Hw as [Lc Hw]. apply list.Forall2_cons in Hw as [Ld _].
  unfold gate_result. cbn [for_loop lookup list_lookup mbind option_bind]. eexists. split; [done|].
  assert (Hstep : forall u u' k b', vec_is u (map_bits (length a) k) -> vec_is u' b' -> length b' = length a ->
    vec_is (op u u') (map_bits (length a) (fun i => bop (k i) (bit_at b' i)))).
  { intros u u' k b' U U' Hb. destruct (Hop u u' (is_wf _ _ U) (is_wf _ _ U')) as (Wr & Sr & Br).
    - by rewrite (is_size _ _ U), (is_size _ _ U'), length_map_bits.
    - apply vec_is_map; [done|by rewrite Sr, (is_size _ _ U), length_map_bits|]. intros i Hi.
      rewrite Br, (is_bits _ _ U), (is_bits _ _ U'), bit_at_map by (rewrite ?(is_size _ _ U), ?length_map_bits; done). done. }
  assert (Hall : vec_is (op (op (op va vb) vc) vd) (map_bits (length a) (fun i => bop (bop (bop (bit_at a i) (bit_at b i)) (bit_at c i)) (bit_at d i)))).
  { refine (Hstep _ _ (fun i => bop (bop (bit_at a i) (bit_at b i)) (bit_at c i)) d _ Vd Ld).
    refine (Hstep _ _ (fun i => bop (bit_at a i) (bit_at b i)) c _ Vc Lc). refine (Hstep _ _ (bit_at a) b _ Vb Lb).
    apply (vec_is_ext va a); [done|]. apply bits_eq; [by rewrite length_map_bits|]. intros i Hi. by rewrite bit_at_map. }
  destruct inv; [|exact Hall]. destruct (invert_spec _ (is_wf _ _ Hall)) as (Wr & Sr & Br).
  apply vec_is_map; [done|by rewrite Sr, (is_size _ _ Hall), length_map_bits|]. intros i Hi.
  rewrite Br, (is_bits _ _ Hall), bit_at_map by (rewrite ?(is_size _ _ Hall), ?length_map_bits; done). done.
Qed.

Lemma bit_result_spec op vs l : ports_hold [1; 1; 1; 1]%nat vs l ->
  exists v, bit_result op vs = Some v /\
    vec_is v (map_bits 1 (fun i => match bit_column l i with a :: b :: _ => op a b | _ => BIT4_X end)).
Proof.
  intros H. destruct (ports_lookup _ vs l 0 H) as (va & a & w & E1 & E2 & E3 & Va & La); [cbn; lia|].
  destruct (ports_lookup _ vs l 1 H) as (vb & b & w' & F1 & F2 & F3 & Vb & Lb); [cbn; lia|].
  injection E3 as <-. injection F3 as <-. unfold bit_result. rewrite E1. cbn [mbind option_bind]. rewrite F1. cbn [mbind option_bind].
  rewrite (is_size _ _ Va), (is_size _ _ Vb), La, Lb. cbn [Nat.eqb andb]. eexists. split; [done|].
  destruct l as [|a' [|b' l]]; [done|done|]. injection E2 as ->. injection F2 as ->.
  apply (vec_is_ext _ [op (value va 0) (value vb 0)]); [apply vec_is_bit|]. cbn. by rewrite (is_bits _ _ Va), (is_bits _ _ Vb).
Qed.

(** ** buf and not *)

Definition buf_not_holds (w : nat) (f : vvp_fun_buf_not_) (l : list bits) : Prop :=
  exists b, l = [b] /\ length b = w /\ vec_is (buf_input_ f) b.

Lemma buf_not_wakes w f l l' (meaning : list bits -> bits) initial : buf_not_holds w f l' ->
  exists f' schedule, Some (buf_not_wake f) = Some (f', schedule) /\ buf_not_holds w f' l' /\
    buf_net_ f' = buf_net_ f || schedule /\ (schedule = true -> buf_net_ f = false) /\
    (buf_net_ f' = false -> meaning l' = meaning l /\ (l = initial -> l' = initial)).
Proof.
  intros H. unfold buf_not_wake, wake. destruct (buf_net_ f) eqn:E.
  - eexists _, _. split; [done|]. rewrite E. done.
  - eexists _, _. split; [done|]. split; [done|]. cbn. done.
Qed.

Lemma buf_not_lawful result w initial (op : vvp_bit4_t -> vvp_bit4_t) (m : list bits -> bits) :
  (forall v, vec_wf v -> vec_wf (result v) /\ size (result v) = size v /\ forall i, (i < size v)%nat -> value (result v) i = op (value v i)) ->
  (forall b, m [b] = map_bits w (fun i => op (bit_at b i))) ->
  lawful (buf_not_functor result) [w] plain initial (buf_not_holds w) m.
Proof.
  intros Hr Hm. split.
  - intros f l i (b & -> & Lb & V) Hi.
    assert (Hport : match i with Recv p _ | RecvPv p _ _ _ => p <> 0%nat end ->
      receive (buf_not_functor result) f i = Some (f, false) /\ arrive plain [b] (Arrive i) = [b]).
    { destruct i as [[|p] v|[|p] v base vwid]; [done| |done|]; intros _; cbn; split; try done. }
    destruct i as [p v|p v base vwid]; (destruct (decide (p = 0%nat)) as [->|Hp];
      [clear Hport|destruct (Hport Hp) as [-> ->]; eexists _, _; split; [done|]; rewrite orb_false_r; split; [by exists b|done]]);
      cbn [input_ok receive buf_not_functor recv_vec4 recv_vec4_pv arrive net_ plain] in *.
    + destruct Hi as (_ & Wv & H0 & Hs). specialize (Hs w eq_refl). unfold buf_not_recv_vec4. cbn [Nat.eqb negb].
      pose proof (eeq_decides _ v b V Wv ltac:(lia) ltac:(lia)) as Hd. destruct (eeq _ v) eqn:Ee; cbn [list_insert insert].
      * rewrite (proj1 Hd eq_refl). eexists _, _. split; [done|]. rewrite orb_false_r. split; [by exists b|done].
      * change (buf_net_ f) with (buf_net_ (BufNot (buf_net_ f) v)) at 2 3. apply buf_not_wakes.
        exists (bits_of v). split; [done|]. split; [by rewrite length_bits_of|by apply vec_is_bits_of].
    + destruct Hi as (_ & Wv & H0 & Hb & Hs). specialize (Hs w eq_refl). unfold buf_not_recv_vec4_pv. cbn [Nat.eqb negb].
      rewrite (proj2 (Nat.leb_le _ _) Hb). destruct (set_vec_put _ v b base V Wv) as (new & flag & E & Vn & Hf); [lia|done|].
      rewrite E. cbn [mbind option_bind alter list_alter].
      assert (H' : buf_not_holds w (BufNot (buf_net_ f) new) [put base (bits_of v) b]).
      { exists (put base (bits_of v) b). by rewrite length_put. }
      destruct flag.
      * change (buf_net_ f) with (buf_net_ (BufNot (buf_net_ f) new)) at 2 3. by apply buf_not_wakes.
      * eexists _, _. split; [done|]. split; [done|]. cbn [buf_net_]. rewrite orb_false_r. unfold plain. rewrite (Hf eq_refl). done.
  - intros f l (b & -> & Lb & V) Hn. cbn in Hn. cbn [run_run buf_not_functor]. unfold buf_not_run_run. rewrite Hn.
    destruct (Hr _ (is_wf _ _ V)) as (Wr & Sr & Br). eexists _, _. split; [done|]. split; [by exists b|]. split; [done|].
    rewrite Hm. apply vec_is_map; [done|by rewrite Sr, (is_size _ _ V)|]. intros i Hi. rewrite Br by (by rewrite (is_size _ _ V), Lb).
    by rewrite (is_bits _ _ V).
Qed.

(** ** muxz *)

Definition sel_of (s : vvp_bit4_t) : sel_type := match s with BIT4_0 => SEL_PORT0 | BIT4_1 => SEL_PORT1 | _ => SEL_BOTH end.

(** The select input is kept as 0, 1 or unknown. *)
Definition mux_norm (p : nat) (b : bits) : bits := if (p =? 2)%nat then map bit4_z2x b else b.

Definition mux_initial (w : nat) : list bits := [repeat BIT4_Z w; repeat BIT4_Z w; [BIT4_X]].

Definition mux_meaning (l : list bits) : bits :=
  match l with
  | [a; b; [BIT4_0]] => a
  | [a; b; [BIT4_1]] => b
  | [a; b; _] => zip_bits blend_bit a b
  | _ => []
  end.

Lemma muxz_blend_is va vb a b : vec_is va a -> vec_is vb b -> length a = length b -> vec_is (muxz_blend va vb) (zip_bits blend_bit a b).
Proof.
  intros Va Vb Hl. unfold muxz_blend. rewrite (is_size _ _ Va), (is_size _ _ Vb), <- Hl, Nat.min_id, Nat.max_id, Nat.sub_diag. cbn [for_loop].
  pose proof (for_loop_ind (fun idx r => vec_wf r /\ size r = length a /\ forall i, (i < idx)%nat -> value r i = blend_bit (bit_at a i) (bit_at b i))
    (length a) 0 (fun idx res => set_bit res idx (if decide (value va idx = value vb idx) then value va idx else BIT4_X)) (vec4_fill (length a) BIT4_X)) as (W & S & B).
  - split; [apply vec4_fill_wf|]. split; [done|lia].
  - intros i r Hi (W & S & B). split; [apply set_bit_wf; [done|lia]|]. rewrite set_bit_size. split; [done|]. intros j Hj.
    rewrite set_bit_value by (done || lia). rewrite (is_bits _ _ Va), (is_bits _ _ Vb). destruct (Nat.eqb_spec j i) as [->|]; [done|]. apply B. lia.
  - by apply vec_is_map.
Qed.

Section Mux.
Context (w : nat).

Record mux_data (f : vvp_fun_muxz) (a b : bits) (s : vvp_bit4_t) : Prop := MuxData {
  mux_a : vec_is (a_ f) a;
  mux_b : vec_is (b_ f) b;
  mux_la : length a = w;
  mux_lb : length b = w;
  mux_known : s <> BIT4_Z;
  mux_sel : select_ f = sel_of s;
}.

Definition mux_holds (f : vvp_fun_muxz) (l : list bits) : Prop :=
  exists a b s, l = [a; b; [s]] /\ mux_data f a b s /\ (mux_net_ f = false -> has_run_ f = true \/ l = mux_initial w).

Definition mux_outcome (f : vvp_fun_muxz) (l l' : list bits) (r : option (vvp_fun_muxz * bool)) : Prop :=
  exists f' schedule, r = Some (f', schedule) /\ mux_holds f' l' /\ mux_net_ f' = mux_net_ f || schedule /\ (schedule = true -> mux_net_ f = false) /\
    (mux_net_ f' = false -> mux_meaning l' = mux_meaning l /\ (l = mux_initial w -> l' = mux_initial w)).

Lemma mux_wakes f g l a b s : mux_data g a b s -> mux_net_ g = mux_net_ f -> mux_outcome f l [a; b; [s]] (Some (mux_wake g)).
Proof.
  intros D Hn. unfold mux_wake, wake. rewrite Hn. destruct (mux_net_ f) eqn:E.
  - eexists g, false. split; [done|]. split; [exists a, b, s; split; [done|]; split; [done|]; by rewrite Hn|]. rewrite E, Hn. done.
  - eexists _, true. split; [done|]. split; [|by rewrite E]. exists a, b, s. split; [done|]. split; [by destruct D|by cbn].
Qed.

Lemma mux_skips f g l a b s : mux_data g a b s -> mux_net_ g = mux_net_ f ->
  (mux_net_ f = false -> (has_run_ g = true \/ [a; b; [s]] = mux_initial w) /\ mux_meaning [a; b; [s]] = mux_meaning l /\ (l = mux_initial w -> [a; b; [s]] = mux_initial w)) ->
  mux_outcome f l [a; b; [s]] (Some (g, false)).
Proof.
  intros D Hn H. eexists g, false. split; [done|]. split; [exists a, b, s; split; [done|]; split; [done|]; rewrite Hn; by apply H|].
  rewrite Hn, orb_false_r. split; [done|]. split; [done|]. intros E. by apply H.
Qed.

Lemma mux_same f a b s : mux_holds f [a; b; [s]] -> mux_outcome f [a; b; [s]] [a; b; [s]] (Some (f, false)).
Proof. intros (a' & b' & s' & [= <- <- <-] & D & Hr). by apply mux_skips; [|done|auto]. Qed.

(** A data input changes: nothing to do when the other one is selected. *)
Lemma mux_sets_a f a b s va a' : mux_holds f [a; b; [s]] -> vec_is va a' -> length a' = w ->
  mux_outcome f [a; b; [s]] [a'; b; [s]] (if decide (select_ (set_a f va) = SEL_PORT1) then Some (set_a f va, false) else Some (mux_wake (set_a f va))).
Proof.
  intros (a0 & b0 & s0 & [= <- <- <-] & [Da Db La Lb Dk Ds] & Hr) V L.
  assert (D : mux_data (set_a f va) a' b s) by by split. destruct (decide _) as [E|E]; [|by apply mux_wakes].
  apply mux_skips; [done|done|]. intros Hn. cbn in E. rewrite Ds in E. destruct s; try done. cbn. destruct (Hr Hn) as [Hrun|]; [|done]. by split; [left|].
Qed.

Lemma mux_sets_b f a b s vb b' : mux_holds f [a; b; [s]] -> vec_is vb b' -> length b' = w ->
  mux_outcome f [a; b; [s]] [a; b'; [s]] (if decide (select_ (set_b f vb) = SEL_PORT0) then Some (set_b f vb, false) else Some (mux_wake (set_b f vb))).
Proof.
  intros (a0 & b0 & s0 & [= <- <- <-] & [Da Db La Lb Dk Ds] & Hr) V L.
  assert (D : mux_data (set_b f vb) a b' s) by by split. destruct (decide _) as [E|E]; [|by apply mux_wakes].
  apply mux_skips; [done|done|]. intros Hn. cbn in E. rewrite Ds in E. destruct s; try done. cbn. destruct (Hr Hn) as [Hrun|]; [|done]. by split; [left|].
Qed.

(** The select input changes. *)
Lemma mux_selects f a b s v : mux_holds f [a; b; [s]] -> size v = 1%nat ->
  mux_outcome f [a; b; [s]] [a; b; [bit4_z2x (value v 0)]] (muxz_recv_vec4 f 2 v).
Proof.
  intros H Hs. pose proof H as (a0 & b0 & s0 & [= <- <- <-] & [Da Db La Lb Dk Ds] & Hr). cbn [muxz_recv_vec4]. rewrite Hs. cbn [Nat.eqb negb].
  assert (D : forall c, c <> BIT4_Z -> mux_data (set_select f (sel_of c)) a b c) by (intros c Hc; by split).
  destruct (value v 0); cbn [bit4_z2x].
  - destruct (decide _) as [E|E]; [|by apply mux_wakes; [apply (D BIT4_0)|]]. rewrite Ds in E. destruct s; try done. by apply mux_same.
  - destruct (decide _) as [E|E]; [|by apply mux_wakes; [apply (D BIT4_1)|]]. rewrite Ds in E. destruct s; try done. by apply mux_same.
  - destruct (bool_decide_reflect (select_ f = SEL_BOTH)) as [E|E]; [|by apply mux_wakes; [apply (D BIT4_X)|]]. rewrite Ds in E.
    destruct s; try done. destruct (has_run_ f); cbn [andb]; [by apply mux_same|by apply mux_wakes; [apply (D BIT4_X)|]].
  - destruct (bool_decide_reflect (select_ f = SEL_BOTH)) as [E|E]; [|by apply mux_wakes; [apply (D BIT4_X)|]]. rewrite Ds in E.
    destruct s; try done. destruct (has_run_ f); cbn [andb]; [by apply mux_same|by apply mux_wakes; [apply (D BIT4_X)|]].
Qed.

End Mux.

Lemma mux_lawful w : lawful muxz_functor [w; w; 1]%nat mux_norm (mux_initial w) (mux_holds w) mux_meaning.
Proof.
  split.
  - intros f l i H Hi. pose proof H as (a & b & s & -> & D & Hr). pose proof D as [Va Vb La Lb Hk Hs].
    change (mux_outcome w f [a; b; [s]] (arrive mux_norm [a; b; [s]] (Arrive i)) (receive muxz_functor f i)).
    destruct i as [p v|p v base vwid]; cbn [receive muxz_functor recv_vec4 recv_vec4_pv arrive]; destruct Hi as (Hp & Wv & H0 & Hi).
    + destruct p as [|[|[|p]]]; cbn [list_insert insert mux_norm Nat.eqb].
      * specialize (Hi w eq_refl). pose proof (eeq_decides _ v a Va Wv ltac:(lia) H0) as Hd. cbn [muxz_recv_vec4].
        destruct (eeq (a_ f) v && has_run_ f) eqn:E; [|apply (mux_sets_a w); [done|by apply vec_is_bits_of|by rewrite length_bits_of]].
        apply andb_true_iff in E as [E _]. rewrite (proj1 Hd E). by apply mux_same.
      * specialize (Hi w eq_refl). pose proof (eeq_decides _ v b Vb Wv ltac:(lia) H0) as Hd. cbn [muxz_recv_vec4].
        destruct (eeq (b_ f) v && has_run_ f) eqn:E; [|apply (mux_sets_b w); [done|by apply vec_is_bits_of|by rewrite length_bits_of]].
        apply andb_true_iff in E as [E _]. rewrite (proj1 Hd E). by apply mux_same.
      * specialize (Hi 1%nat eq_refl). replace (map bit4_z2x (bits_of v)) with [bit4_z2x (value v 0)]; [by apply mux_selects|].
        unfold bits_of. by rewrite Hi.
      * by apply mux_same.
    + destruct Hi as [Hb Hi]. unfold muxz_recv_vec4_pv. rewrite (proj2 (Nat.leb_le _ _) Hb). cbn [negb].
      destruct p as [|[|[|p]]]; cbn [alter list_alter mux_norm Nat.eqb].
      * specialize (Hi w eq_refl). destruct (set_vec_put _ v a base Va Wv) as (na & flag & E & Vn & Hf); [lia|done|].
        rewrite E. cbn [mbind option_bind]. destruct (negb flag && has_run_ (set_a f na)) eqn:Eh; [|apply (mux_sets_a w); [done|done|by rewrite length_put]].
        apply andb_true_iff in Eh as [Ef Eh]. apply negb_true_iff in Ef. rewrite (Hf Ef) in *. apply mux_skips; [by split|done|]. intros _. by split; [left|].
      * specialize (Hi w eq_refl). destruct (set_vec_put _ v b base Vb Wv) as (nb & flag & E & Vn & Hf); [lia|done|].
        rewrite E. cbn [mbind option_bind]. destruct (negb flag && has_run_ (set_b f nb)) eqn:Eh; [|apply (mux_sets_b w); [done|done|by rewrite length_put]].
        apply andb_true_iff in Eh as [Ef Eh]. apply negb_true_iff in Ef. rewrite (Hf Ef) in *. apply mux_skips; [by split|done|]. intros _. by split; [left|].
      * specialize (Hi 1%nat eq_refl). assert (size v = 1 /\ base = 0)%nat as [Sv ->] by lia. rewrite Sv. cbn [Nat.eqb andb].
        replace (map bit4_z2x (put 0 (bits_of v) [s])) with [bit4_z2x (value v 0)]; [by apply mux_selects|].
        unfold put, bits_of. by rewrite Sv.
      * by apply mux_same.
  - intros f l (a & b & s & -> & [Va Vb La Lb Hk Hs] & Hr) Hn. cbn in Hn. cbn [run_run muxz_functor]. unfold muxz_run_run. rewrite Hn.
    eexists _, _. split; [done|]. split; [exists a, b, s; split; [done|]; split; [by split|by left]|]. split; [done|]. rewrite Hs.
    destruct s; cbn; [done|done|apply muxz_blend_is; [done|done|congruence]|done].
Qed.

(** ** concat *)

Lemma bit_at_appended (a b : bits) i : bit_at (a ++ b) i = if (i <? length a)%nat then bit_at a i else bit_at b (i - length a).
Proof.
  unfold bit_at. destruct (Nat.ltb_spec i (length a)); [by rewrite app_nth1|by rewrite app_nth2 by lia].
Qed.

Lemma bit_at_put base r l i : (i < length l)%nat ->
  bit_at (put base r l) i = if ((base <=? i) && (i <? base + length r))%nat then bit_at r (i - base) else bit_at l i.
Proof. intros. unfold put. by rewrite bit_at_map. Qed.

Lemma put_app_l base r a b : (base + length r <= length a)%nat -> put base r (a ++ b) = put base r a ++ b.
Proof.
  intros Hr. apply bits_eq; [rewrite length_put, !length_app, length_put; done|]. rewrite length_put, length_app. intros i Hi.
  rewrite bit_at_put by (by rewrite length_app). rewrite !bit_at_appended, length_put. destruct (Nat.ltb_spec i (length a)).
  - by rewrite bit_at_put.
  - by decide_nat.
Qed.

Lemma put_app_r base r a b : put (length a + base) r (a ++ b) = a ++ put base r b.
Proof.
  apply bits_eq; [rewrite length_put, !length_app, length_put; done|]. rewrite length_put, length_app. intros i Hi.
  rewrite bit_at_put by (by rewrite length_app). rewrite !bit_at_appended. destruct (Nat.ltb_spec i (length a)).
  - by decide_nat.
  - rewrite bit_at_put by lia. destruct (Nat.leb_spec base (i - length a)), (Nat.ltb_spec (i - length a) (base + length r)); decide_nat; try done.
    all: (f_equal; lia).
Qed.

Lemma put_all r l : length r = length l -> put 0 r l = r.
Proof.
  intros Hl. apply bits_eq; [by rewrite length_put|]. rewrite length_put. intros i Hi. rewrite bit_at_put by done. decide_nat. f_equal. lia.
Qed.

Definition offset (widths : list nat) (p : nat) : nat := foldr Nat.add 0%nat (take p widths).

Lemma put_concat widths (l : list bits) p b base r : Forall2 (fun w (b : bits) => length b = w) widths l -> l !! p = Some b -> (base + length r <= length b)%nat ->
  put (offset widths p + base) r (concat l) = concat (<[p := put base r b]> l).
Proof.
  intros Hw. revert p. induction Hw as [|w a ws l Hl Hw IH]; intros p Hp Hr; [done|]. destruct p as [|p]; cbn [offset take foldr concat].
  - injection Hp as ->. cbn [list_insert insert concat]. by rewrite put_app_l.
  - change (concat (<[S p := put base r b]> (a :: l))) with (a ++ concat (<[p := put base r b]> l)).
    rewrite <- (IH p) by done. rewrite <- Hl, <- Nat.add_assoc. unfold offset. by rewrite put_app_r.
Qed.

Lemma offset_bound widths p w : widths !! p = Some w -> (offset widths p + w <= foldr Nat.add 0 widths)%nat.
Proof.
  unfold offset. revert p. induction widths as [|v ws IH]; intros p E; [done|]. destruct p as [|p]; cbn in *; [injection E; lia|].
  specialize (IH p E). lia.
Qed.

Lemma length_concat_widths widths (l : list bits) : Forall2 (fun w (b : bits) => length b = w) widths l -> length (concat l) = foldr Nat.add 0%nat widths.
Proof. induction 1 as [|w b ws l Hl Hw IH]; [done|]. cbn. rewrite length_app. lia. Qed.

Definition concat_holds (widths : list nat) (f : vvp_fun_concat) (l : list bits) : Prop :=
  con_wid_ f = widths /\ Forall2 (fun w (b : bits) => length b = w) widths l /\ vec_is (con_val_ f) (concat l).

Lemma concat_offset w0 w1 w2 w3 p base : (p < 4)%nat ->
  for_loop p 0 (fun idx off => off ← off; w ← [w0; w1; w2; w3] !! idx; Some (off + w)%nat) (Some base) = Some (offset [w0; w1; w2; w3] p + base)%nat.
Proof.
  intros Hp. destruct p as [|[|[|[|p]]]]; try lia; cbn; f_equal; lia.
Qed.

Lemma concat_inj widths (l l' : list bits) : Forall2 (fun w (b : bits) => length b = w) widths l -> Forall2 (fun w (b : bits) => length b = w) widths l' ->
  concat l = concat l' -> l = l'.
Proof.
  intros H. revert l'. induction H as [|w b ws l Hb Hl IH]; intros l' H' E; [by apply list.Forall2_nil_inv_l in H' as ->|].
  apply list.Forall2_cons_inv_l in H' as (b' & l'' & Hb' & H' & ->). cbn in E. apply app_inj_1 in E as [-> E]; [|congruence]. f_equal. by apply IH.
Qed.

Lemma concat_lawful w0 w1 w2 w3 :
  lawful concat_functor [w0; w1; w2; w3] plain (map (fun w => repeat BIT4_Z w) [w0; w1; w2; w3]) (concat_holds [w0; w1; w2; w3]) (@concat vvp_bit4_t).
Proof.
  set (ws := [w0; w1; w2; w3]). set (initial := map _ ws).
  assert (Hpv : forall f l p v base w b, concat_holds ws f l -> (p < 4)%nat -> vec_wf v -> (0 < size v)%nat -> ws !! p = Some w -> l !! p = Some b ->
    length b = w -> (base + size v <= w)%nat ->
    exists f' schedule, concat_recv_vec4_pv f p v base w = Some (f', schedule) /\ concat_holds ws f' (<[p := put base (bits_of v) b]> l) /\
      con_net_ f' = con_net_ f || schedule /\ (schedule = true -> con_net_ f = false) /\
      (con_net_ f' = false -> concat (<[p := put base (bits_of v) b]> l) = concat l /\ (l = initial -> <[p := put base (bits_of v) b]> l = initial))).
  { intros f l p v base w b (Hw & Hl & V) Hp Wv H0 Ew Eb Lb Hb. unfold concat_recv_vec4_pv. rewrite Hw, Ew. cbn [mbind option_bind].
    rewrite Nat.eqb_refl. cbn [negb]. rewrite (concat_offset w0 w1 w2 w3 p base Hp : for_loop p 0 (fun idx off => off ← off; w ← ws !! idx; Some (off + w)%nat) (Some base) = Some (offset ws p + base)%nat). cbn [mbind option_bind].
    pose proof (offset_bound ws p w Ew). pose proof (length_concat_widths ws l Hl).
    destruct (set_vec_put _ v (concat l) (offset ws p + base) V Wv) as (val & flag & E & Vn & Hf); [lia|done|].
    rewrite E. cbn [mbind option_bind]. rewrite (put_concat ws l p b) in Vn, Hf by (done || (rewrite length_bits_of; lia)).
    assert (H' : forall n, concat_holds ws (Concat ws val n) (<[p := put base (bits_of v) b]> l)).
    { intros n. split; [done|]. split; [|done]. rewrite <- (list_insert_id ws p w) by done. apply list.Forall2_insert; [done|]. by rewrite length_put. }
    destruct flag; cbn [negb].
    - unfold wake. destruct (con_net_ f) eqn:En; eexists _, _; (split; [done|]); split; try apply H'; by cbn.
    - eexists _, _. split; [done|]. split; [apply H'|]. cbn. rewrite orb_false_r. split; [done|]. split; [done|]. intros _. split; [by apply Hf|].
      intros ->. apply (concat_inj ws); [by apply (H' false)|done|by apply Hf]. }
  split.
  - intros f l i H Hi. destruct i as [p v|p v base vwid]; destruct Hi as (Hp & Wv & H0 & Hi);
      destruct (lookup_lt_is_Some_2 ws p Hp) as [w Ew]; destruct (list.Forall2_lookup_l _ ws l p w (proj1 (proj2 H)) Ew) as (b & Eb & Lb);
      cbn [receive concat_functor recv_vec4 recv_vec4_pv net_].
    + specialize (Hi w Ew). replace (arrive plain l (Arrive (Recv p v))) with (<[p := put 0 (bits_of v) b]> l).
      2: { cbn. by rewrite put_all by (rewrite length_bits_of; lia). }
      unfold concat_recv_vec4. rewrite Hi. apply (Hpv f l p v 0%nat w b); (done || lia).
    + destruct Hi as [Hb Hi]. specialize (Hi w Ew) as ->. cbn [arrive]. rewrite (alter_insert _ l p b Eb).
      by apply (Hpv f l p v base w b).
  - intros f l (Hw & Hl & V) Hn. cbn in Hn. cbn [run_run concat_functor]. unfold concat_run_run. rewrite Hn.
    eexists _, _. split; [done|]. split; [by split|]. done.
Qed.

(** ** The theorem *)

(** The gates, with the width of their vectors. *)
Inductive gate :=
  | GateAnd (invert : bool) (wid : nat)
  | GateOr (invert : bool) (wid : nat)
  | GateXor (invert : bool) (wid : nat)
  | GateEquiv
  | GateImpl
  | GateBuf (wid : nat)
  | GateNot (wid : nat)
  | GateMux (wid : nat)
  | GateConcat (w0 w1 w2 w3 : nat).

Definition functor_of (g : gate) : event_functor :=
  match g with
  | GateAnd inv _ => boolean_functor (fun_and_result inv)
  | GateOr inv _ => boolean_functor (fun_or_result inv)
  | GateXor inv _ => boolean_functor (fun_xor_result inv)
  | GateEquiv => boolean_functor fun_equiv_result
  | GateImpl => boolean_functor fun_impl_result
  | GateBuf _ => buf_not_functor change_z2x
  | GateNot _ => buf_not_functor copy_inverted_from_
  | GateMux _ => muxz_functor
  | GateConcat _ _ _ _ => concat_functor
  end.

Definition new_of (g : gate) : state (functor_of g) :=
  match g return state (functor_of g) with
  | GateAnd _ w | GateOr _ w | GateXor _ w => new_boolean w
  | GateEquiv | GateImpl => new_boolean 1
  | GateBuf w | GateNot w => new_buf_not w
  | GateMux w => new_muxz w
  | GateConcat w0 w1 w2 w3 => new_concat w0 w1 w2 w3
  end.

Definition widths (g : gate) : list nat :=
  match g with
  | GateAnd _ w | GateOr _ w | GateXor _ w => [w; w; w; w]
  | GateEquiv | GateImpl => [1; 1; 1; 1]%nat
  | GateBuf w | GateNot w => [w]
  | GateMux w => [w; w; 1]%nat
  | GateConcat w0 w1 w2 w3 => [w0; w1; w2; w3]
  end.

Definition norm (g : gate) : nat -> bits -> bits := match g with GateMux _ => mux_norm | _ => plain end.

(** Before anything arrives: z everywhere, and an unknown select input. *)
Definition initial (g : gate) : list bits :=
  match g with GateMux w => mux_initial w | _ => map (fun w => repeat BIT4_Z w) (widths g) end.

(** The tables of the language for any number of inputs. *)
Definition all_ones (l : bits) : bool := forallb (fun b => bool_decide (b = BIT4_1)) l.
Definition all_zeros (l : bits) : bool := forallb (fun b => bool_decide (b = BIT4_0)) l.
Definition and_bits (l : bits) : vvp_bit4_t :=
  if existsb (fun b => bool_decide (b = BIT4_0)) l then BIT4_0 else if all_ones l then BIT4_1 else BIT4_X.
Definition or_bits (l : bits) : vvp_bit4_t :=
  if existsb (fun b => bool_decide (b = BIT4_1)) l then BIT4_1 else if all_zeros l then BIT4_0 else BIT4_X.
Definition xor_bits (l : bits) : vvp_bit4_t :=
  if has_unknown l then BIT4_X else bit4_of_bool (Nat.odd (length (filter (fun b => b = BIT4_1) l))).
Definition not_if (inv : bool) (b : vvp_bit4_t) : vvp_bit4_t :=
  if inv then match b with BIT4_0 => BIT4_1 | BIT4_1 => BIT4_0 | _ => BIT4_X end else b.

(** What a gate sends for its inputs. *)
Definition meaning (g : gate) (l : list bits) : bits :=
  match g with
  | GateAnd inv w => map_bits w (fun i => not_if inv (and_bits (bit_column l i)))
  | GateOr inv w => map_bits w (fun i => not_if inv (or_bits (bit_column l i)))
  | GateXor inv w => map_bits w (fun i => not_if inv (xor_bits (bit_column l i)))
  | GateEquiv => [not_if true (xor_bits (take 2 (bit_column l 0)))]
  | GateImpl => [match bit_column l 0 with a :: b :: _ => or_bits [not_if true a; b] | _ => BIT4_X end]
  | GateBuf w => map_bits w (fun i => not_if true (not_if true (bit_at (nth 0 l []) i)))
  | GateNot w => map_bits w (fun i => not_if true (bit_at (nth 0 l []) i))
  | GateMux _ => mux_meaning l
  | GateConcat _ _ _ _ => concat l
  end.

Lemma map_bits_ext n f g : (forall i, (i < n)%nat -> f i = g i) -> map_bits n f = map_bits n g.
Proof. intros H. apply bits_eq; rewrite !length_map_bits; [done|]. intros i Hi. by rewrite !bit_at_map, H. Qed.

Lemma ports_of_four w vs l : ports_hold [w; w; w; w] vs l -> exists a b c d, l = [a; b; c; d].
Proof. intros [_ Hw]. apply one_port. by rewrite <- (list.Forall2_length _ _ _ Hw). Qed.

Lemma boolean_gate_lawful op bop (inv : bool) w (m : list bits -> bits) :
  (forall a b, vec_wf a -> vec_wf b -> size a = size b ->
    let r := op a b in vec_wf r /\ size r = size a /\ forall i, (i < size a)%nat -> value r i = bop (value a i) (value b i)) ->
  (forall a b c d : bits, m [a; b; c; d] = map_bits w (fun i => (if inv then bit4_not else fun x : vvp_bit4_t => x) (bop (bop (bop (bit_at a i) (bit_at b i)) (bit_at c i)) (bit_at d i)))) ->
  lawful (boolean_functor (gate_result op inv)) [w; w; w; w] plain (map (fun w => repeat BIT4_Z w) [w; w; w; w]) (boolean_holds [w; w; w; w]) m.
Proof.
  intros Hop Hm. apply boolean_lawful; [done|]. intros vs l H. destruct (gate_result_spec op bop inv w vs l Hop H) as (v & E & V).
  exists v. split; [done|]. destruct (ports_of_four w vs l H) as (a & b & c & d & ->). by rewrite Hm.
Qed.

Lemma gate_lawful g : exists holds, lawful (functor_of g) (widths g) (norm g) (initial g) holds (meaning g) /\
  holds (new_of g) (initial g) /\ net_ (functor_of g) (new_of g) = false.
Proof.
  destruct g as [inv w|inv w|inv w| | |w|w|w|w0 w1 w2 w3]; cbn [functor_of widths norm new_of].
  - exists (boolean_holds [w; w; w; w]). split; [|split; [apply ports_initial|done]].
    apply (boolean_gate_lawful _ bit4_and); [apply and_word_spec|]. intros a b c d. apply map_bits_ext. intros i _. cbn.
    by destruct inv, (bit_at a i), (bit_at b i), (bit_at c i), (bit_at d i).
  - exists (boolean_holds [w; w; w; w]). split; [|split; [apply ports_initial|done]].
    apply (boolean_gate_lawful _ bit4_or); [apply or_word_spec|]. intros a b c d. apply map_bits_ext. intros i _. cbn.
    by destruct inv, (bit_at a i), (bit_at b i), (bit_at c i), (bit_at d i).
  - exists (boolean_holds [w; w; w; w]). split; [|split; [apply ports_initial|done]].
    apply (boolean_gate_lawful _ bit4_xor); [apply xor_word_spec|]. intros a b c d. apply map_bits_ext. intros i _. cbn.
    by destruct inv, (bit_at a i), (bit_at b i), (bit_at c i), (bit_at d i).
  - exists (boolean_holds [1; 1; 1; 1]%nat). split; [|split; [apply (ports_initial [1; 1; 1; 1]%nat)|done]].
    apply boolean_lawful; [done|]. intros vs l H. destruct (bit_result_spec (fun a b => bit4_not (bit4_xor a b)) vs l H) as (v & E & V).
    exists v. split; [done|]. destruct (ports_of_four 1 vs l H) as (a & b & c & d & ->). eapply vec_is_ext; [done|]. cbn.
    by destruct (bit_at a 0), (bit_at b 0).
  - exists (boolean_holds [1; 1; 1; 1]%nat). split; [|split; [apply (ports_initial [1; 1; 1; 1]%nat)|done]].
    apply boolean_lawful; [done|]. intros vs l H. destruct (bit_result_spec (fun a b => bit4_or (bit4_not a) b) vs l H) as (v & E & V).
    exists v. split; [done|]. destruct (ports_of_four 1 vs l H) as (a & b & c & d & ->). eapply vec_is_ext; [done|]. cbn.
    by destruct (bit_at a 0), (bit_at b 0).
  - exists (buf_not_holds w). split; [|split; [exists (repeat BIT4_Z w); repeat split; [apply repeat_length|apply vec_is_fill..]|done]].
    apply (buf_not_lawful _ _ _ bit4_z2x); [apply change_z2x_spec|]. intros b. apply map_bits_ext. intros i _. cbn [nth]. by destruct (bit_at b i).
  - exists (buf_not_holds w). split; [|split; [exists (repeat BIT4_Z w); repeat split; [apply repeat_length|apply vec_is_fill..]|done]].
    apply (buf_not_lawful _ _ _ bit4_not); [apply copy_inverted_spec|]. intros b. apply map_bits_ext. intros i _. cbn [nth]. by destruct (bit_at b i).
  - exists (mux_holds w). split; [apply mux_lawful|]. split; [|done]. exists (repeat BIT4_Z w), (repeat BIT4_Z w), BIT4_X. split; [done|].
    split; [split; (apply vec_is_fill || apply repeat_length || done)|by right].
  - exists (concat_holds [w0; w1; w2; w3]). split; [apply concat_lawful|]. split; [|done]. split; [done|]. split; [apply ports_initial|].
    eapply vec_is_ext; [apply vec_is_fill|]. cbn. rewrite app_nil_r, <- !repeat_app. f_equal. lia.
Qed.

(** A new node, and what happens to it. *)
Definition node_run (g : gate) (acts : list action) : option (node (functor_of g)) :=
  fold_left act acts (Some (Node (new_of g) 0 None)).

Definition inputs_after (g : gate) (acts : list action) : list bits := fold_left (arrive (norm g)) acts (initial g).

(** The conditional operator of the language for an unknown condition: the bits that
    are both 0 or both 1 are kept, all others are x. *)
Definition conditional_bit (a b : vvp_bit4_t) : vvp_bit4_t :=
  match a, b with BIT4_0, BIT4_0 => BIT4_0 | BIT4_1, BIT4_1 => BIT4_1 | _, _ => BIT4_X end.

(** The function of its inputs that the language gives to a gate. *)
Definition language (g : gate) (l : list bits) : bits :=
  match g with
  | GateMux _ =>
    match l with
    | [a; b; [BIT4_0]] => a
    | [a; b; [BIT4_1]] => b
    | [a; b; _] => zip_bits conditional_bit a b
    | _ => []
    end
  | _ => meaning g l
  end.

(** The bits where both inputs of a multiplexer are z and its select is unknown. *)
Definition both_z (g : gate) (l : list bits) (i : nat) : bool :=
  match g, l with
  | GateMux _, [a; b; s] => has_unknown s && bool_decide (bit_at a i = BIT4_Z) && bool_decide (bit_at b i = BIT4_Z)
  | _, _ => false
  end.

(** [v] has the bits that the language gives, but z where [both_z]. *)
Record answers (g : gate) (l : list bits) (v : vvp_vector4_t) : Prop := Answers {
  answers_wf : vec_wf v;
  answers_size : size v = length (language g l);
  answers_bits : forall i, (i < size v)%nat -> value v i = if both_z g l i then BIT4_Z else bit_at (language g l) i }.

Lemma blend_language (a b : bits) i : (i < length a)%nat ->
  bit_at (zip_bits blend_bit a b) i =
  if bool_decide (bit_at a i = BIT4_Z) && bool_decide (bit_at b i = BIT4_Z) then BIT4_Z else bit_at (zip_bits conditional_bit a b) i.
Proof. intros Hi. unfold zip_bits. rewrite !bit_at_map by done. by destruct (bit_at a i), (bit_at b i). Qed.

Lemma meaning_answers g l v : Forall2 (fun w (b : bits) => length b = w) (widths g) l -> vec_is v (meaning g l) -> answers g l v.
Proof.
  intros Hl [W S B]. destruct g; try (by split; [|done|intros; rewrite B]).
  destruct l as [|a [|b [|s [|]]]]; try (by inversion Hl as [|? ? ? ? _ Hl1]; inversion Hl1 as [|? ? ? ? _ Hl2]; inversion Hl2 as [|? ? ? ? _ Hl3]; inversion Hl3).
  assert (Hs : length s = 1%nat).
  { inversion Hl as [|? ? ? ? _ Hl1]; subst. inversion Hl1 as [|? ? ? ? _ Hl2]; subst. by inversion Hl2. }
  destruct s as [|s [|]]; try done. cbn [meaning mux_meaning language] in *. split; [done| |].
  - rewrite S. destruct s; cbn; rewrite ?length_zip; done.
  - intros i Hi. rewrite B. rewrite S in Hi. destruct s; try done; cbn in Hi; rewrite length_zip in Hi; by rewrite blend_language.
Qed.

Lemma length_norm g p (b : bits) : length (norm g p b) = length b.
Proof. destruct g; try done. unfold norm, mux_norm. destruct (p =? 2)%nat; [apply length_map|done]. Qed.

Lemma Forall2_insert_value {X Y} (P : X -> Y -> Prop) l k i y : Forall2 P l k -> (forall x, l !! i = Some x -> P x y) -> Forall2 P l (<[i := y]> k).
Proof. intros Hl. revert i. induction Hl; intros [|]; constructor; auto. Qed.

Lemma inputs_widths g acts : Forall (action_ok (widths g)) acts ->
  Forall2 (fun w (b : bits) => length b = w) (widths g) (inputs_after g acts).
Proof.
  unfold inputs_after. assert (H0 : Forall2 (fun w (b : bits) => length b = w) (widths g) (initial g)).
  { destruct g; repeat constructor; apply repeat_length. }
  revert H0. generalize (initial g) as l. induction acts as [|a acts IH]; intros l H0 Ha; [done|].
  apply list.Forall_cons in Ha as [Ha Has]. cbn [fold_left]. apply IH; [|done]. destruct a as [[p v|p v base vwid]|]; [| |done]; cbn [arrive].
  - destruct Ha as (_ & _ & _ & Hw). apply Forall2_insert_value; [done|]. intros w E. rewrite length_norm, <- (Hw w E).
    unfold bits_of. by rewrite length_map, length_seq.
  - apply Forall2_alter_r; [done|]. intros w b _ _ Hl. by rewrite length_norm, length_put.
Qed.

(** C13. A gate always catches up with its inputs.  For the gates and, or, xor and
    their inverses, equiv, impl, buf, not, the multiplexer and the concatenation, of
    any width, and any interleaving of arrivals - whole vectors or parts, on any
    port - with runs of its event by the scheduler: no assertion fails and no null
    pointer is followed; at most one event of the gate is queued; and when none is,
    the gate has sent, last, the function of its inputs that the language gives, or
    it has sent nothing and its inputs are as they were at the beginning (see
    [silent_gate]).  One kind of bit is excepted: where both data inputs of a
    multiplexer are z and its select input is unknown, it sends z, although logic.h
    promises the behaviour of the conditional operator, which gives x (see
    [blend_of_z]).  So a change of the inputs that calls for another output is never
    left without an event that will send it. *)
Theorem gates_catch_up (g : gate) (acts : list action) : Forall (action_ok (widths g)) acts ->
  exists n, node_run g acts = Some n /\ (queued n <= 1)%nat /\
    (queued n = 0%nat ->
      match sent n with
      | Some v => answers g (inputs_after g acts) v
      | None => inputs_after g acts = initial g
      end) /\
    (queued n = 1%nat -> exists n' v, act (Some n) RunEvent = Some n' /\ queued n' = 0%nat /\ sent n' = Some v /\
      answers g (inputs_after g acts) v).
Proof.
  intros Ha. destruct (gate_lawful g) as (holds & laws & H0 & Hnet).
  assert (Hn0 : node_shows _ (initial g) holds (meaning g) (Node (new_of g) 0 None) (initial g)).
  { split; [done|]. cbn [self queued sent]. by rewrite Hnet. }
  destruct (acts_show _ _ _ _ _ _ laws acts _ _ Hn0 Ha) as (n & E & Hn). exists n. split; [exact E|].
  destruct Hn as (H & Hq & Hs). fold (inputs_after g acts) in H, Hs. destruct (net_ (functor_of g) (self n)) eqn:Hnet1.
  - split; [by rewrite Hq|]. split; [by rewrite Hq|]. intros Hq1.
    destruct (law_run _ _ _ _ _ _ laws _ _ H Hnet1) as (f' & v & Er & _ & _ & V).
    cbn [act mbind option_bind]. rewrite Hq1, Er. cbn [mbind option_bind]. eexists _, v. do 3 (split; [done|]).
    apply meaning_answers; [by apply inputs_widths|done].
  - split; [rewrite Hq; clear; lia|]. split; [|by rewrite Hq]. intros _. specialize (Hs eq_refl).
    destruct (sent n) as [v|]; [apply meaning_answers; [by apply inputs_widths|done]|done].
Qed.

(** A nand of three ones and then a 0 in one bit, a second event before it runs. *)
Definition nand_story : list action :=
  [Arrive (Recv 0 (vec4_fill 2 BIT4_1)); Arrive (Recv 1 (vec4_fill 2 BIT4_1)); Arrive (Recv 2 (vec4_fill 2 BIT4_1)); RunEvent;
   Arrive (RecvPv 3 (vec4_fill 1 BIT4_0) 1 2); Arrive (RecvPv 3 (vec4_fill 1 BIT4_1) 0 2); RunEvent].

Lemma gates_catch_up_witness : Forall (action_ok (widths (GateAnd true 2))) nand_story /\
  exists n v, node_run (GateAnd true 2) nand_story = Some n /\ queued n = 0%nat /\ sent n = Some v /\ vec_is v [BIT4_0; BIT4_1].
Proof.
  assert (Hok : Forall (action_ok (widths (GateAnd true 2))) nand_story).
  { repeat (apply list.Forall_cons; split); try apply Forall_nil_2; try done; cbn;
      (split; [lia|split; [apply vec4_fill_wf|split; [lia|]]]); try split; try lia; intros w [= <-]; done. }
  split; [exact Hok|]. destruct (gates_catch_up (GateAnd true 2) nand_story Hok) as (n & E & _ & H & _).
  assert (Hq : option_map queued (node_run (GateAnd true 2) nand_story) = Some 0%nat) by by vm_compute.
  assert (Hs : option_map (fun n => bool_decide (sent n = None)) (node_run (GateAnd true 2) nand_story) = Some false) by by vm_compute.
  rewrite E in Hq, Hs. injection Hq as Hq. injection Hs as Hs. specialize (H Hq). destruct (sent n) as [v|] eqn:Es; [|done].
  exists n, v. split; [exact E|]. split; [exact Hq|]. split; [exact Es|]. destruct H as [W S B].
  apply vec_is_intro; [exact W|exact S|]. intros i Hi. exact (B i (eq_ind_r (fun k => (i < k)%nat) Hi S)).
Defined.

(** A gate that receives nothing but the z its inputs begin with never runs: its net
    stays as it was created, although the output of a not of z is x. *)
Lemma silent_gate :
  option_map (fun n => (queued n, sent n)) (node_run (GateNot 1) [Arrive (Recv 0 (vec4_fill 1 BIT4_Z)); RunEvent]) = Some (0%nat, None) /\
  meaning (GateNot 1) (inputs_after (GateNot 1) [Arrive (Recv 0 (vec4_fill 1 BIT4_Z))]) = [BIT4_X].
Proof. by vm_compute. Qed.

(** With an unknown select input two bits that are z give z; the language has x. *)
Lemma blend_of_z : value (muxz_blend (vec4_fill 1 BIT4_Z) (vec4_fill 1 BIT4_Z)) 0 = BIT4_Z.
Proof. by vm_compute. Qed.
