(* ===== verification/Delay.v ===== *)
(** * Delay: the inertial delay of gates and continuous assignments (vvp/delay.h, vvp/delay.cc)

    [vvp_fun_delay] keeps the value it shows and a list of the changes it has
    scheduled.  [recv_vec4] and [recv_vec8] are the same code on different vectors:
    Section [Delay].  The circular list whose [list_] is the tail is the list of its
    events from the first, [list_->next], to the last. *)

From S2P Require Import Prelude FourState Vector4 Vector4Ops Strength.
Import Bit4.

Open Scope ivl_scope.

(** ** vvp_delay_t *)

Record vvp_delay_t := DelayT { rise_ : Z; fall_ : Z; decay_ : Z; min_delay_ : Z; ignore_decay_ : bool }.

Definition calculate_min_delay_ (d : vvp_delay_t) : vvp_delay_t :=
  let min := rise_ d in
  let min := if fall_ d <? min then fall_ d else min in
  if ignore_decay_ d then DelayT (rise_ d) (fall_ d) min min true
  else DelayT (rise_ d) (fall_ d) (decay_ d) (if decay_ d <? min then decay_ d else min) false.

(** The two constructors. *)
Definition delay_of_two (rise fall : Z) : vvp_delay_t :=
  let decay := if fall <? rise then fall else rise in DelayT rise fall decay decay false.
Definition delay_of_three (rise fall decay : Z) : vvp_delay_t := calculate_min_delay_ (DelayT rise fall decay 0 false).

Definition set_ignore_decay (d : vvp_delay_t) : vvp_delay_t :=
  calculate_min_delay_ (DelayT (rise_ d) (fall_ d) (decay_ d) (min_delay_ d) true).

Definition get_delay (d : vvp_delay_t) (from to : vvp_bit4_t) : Z :=
  match from, to with
  | BIT4_0, BIT4_0 => 0
  | BIT4_0, BIT4_1 => rise_ d
  | BIT4_0, BIT4_X => min_delay_ d
  | BIT4_0, BIT4_Z => decay_ d
  | BIT4_1, BIT4_0 => fall_ d
  | BIT4_1, BIT4_1 => 0
  | BIT4_1, BIT4_X => min_delay_ d
  | BIT4_1, BIT4_Z => decay_ d
  | BIT4_X, BIT4_0 => fall_ d
  | BIT4_X, BIT4_1 => rise_ d
  | BIT4_X, BIT4_X => 0
  | BIT4_X, BIT4_Z => decay_ d
  | BIT4_Z, BIT4_0 => fall_ d
  | BIT4_Z, BIT4_1 => rise_ d
  | BIT4_Z, BIT4_X => min_delay_ d
  | BIT4_Z, BIT4_Z => 0
  end.

Definition set_rise (d : vvp_delay_t) (val : Z) : vvp_delay_t :=
  if val <? min_delay_ d then DelayT val (fall_ d) (if ignore_decay_ d then val else decay_ d) val (ignore_decay_ d)
  else calculate_min_delay_ (DelayT val (fall_ d) (decay_ d) (min_delay_ d) (ignore_decay_ d)).
Definition set_fall (d : vvp_delay_t) (val : Z) : vvp_delay_t :=
  if val <? min_delay_ d then DelayT (rise_ d) val (if ignore_decay_ d then val else decay_ d) val (ignore_decay_ d)
  else calculate_min_delay_ (DelayT (rise_ d) val (decay_ d) (min_delay_ d) (ignore_decay_ d)).
Definition set_decay (d : vvp_delay_t) (val : Z) : option vvp_delay_t :=
  if ignore_decay_ d then None
  else if val <? min_delay_ d then Some (DelayT (rise_ d) (fall_ d) val val (ignore_decay_ d))
  else Some (calculate_min_delay_ (DelayT (rise_ d) (fall_ d) val (min_delay_ d) (ignore_decay_ d))).

(** ** vvp_fun_delay *)

(** A change that is scheduled: [event_]. *)
Record event_ (V : Type) := Event { sim_time : Z; ptr_vec : V }.
Arguments Event {V}.
Arguments sim_time {V}.
Arguments ptr_vec {V}.

Record vvp_fun_delay (V : Type) := FunDelay {
  delay_ : vvp_delay_t;
  initial_ : bool;
  cur_vec_ : V;
  list_ : list (event_ V);
}.
Arguments FunDelay {V}.
Arguments delay_ {V}.
Arguments initial_ {V}.
Arguments cur_vec_ {V}.
Arguments list_ {V}.

(** What receiving a value does: [send], or [schedule_generic] with the delay. *)
Inductive delay_effect (V : Type) := Nothing | Sends (v : V) | Schedules (use_delay : Z).
Arguments Nothing {V}.
Arguments Sends {V}.
Arguments Schedules {V}.

Section Delay.
Context {V : Type} (vsize : V -> nat) (vvalue : V -> nat -> option vvp_bit4_t) (veeq : V -> V -> bool).

(** The largest delay of the bits: [from i] is the bit that bit [i] of [bit] replaces. *)
Definition scan_delays (d : vvp_delay_t) (from : nat -> option vvp_bit4_t) (bit : V) (wid : nat) : option Z :=
  let delay_at idx := a ← from idx; b ← vvalue bit idx; Some (get_delay d a b) in
  for_loop (wid - 1) 1 (fun idx use_delay =>
    use_delay ← use_delay; tmp ← delay_at idx; Some (if tmp >? use_delay then tmp else use_delay)) (delay_at 0%nat).

(** [clean_pulse_events_(use_delay)]: drop events from the first on, up to one that is due. *)
Fixpoint drop_pulses (now use_delay : Z) (l : list (event_ V)) : list (event_ V) :=
  match l with
  | [] => []
  | cur :: rest => if add64 (sim_time cur) use_delay <=? add64 use_delay now then l else drop_pulses now use_delay rest
  end.

(** [clean_pulse_events_(use_delay, bit)]: the list, and whether the new event is skipped. *)
Definition clean_pulse_events_ (now use_delay : Z) (bit : V) (l : list (event_ V)) : list (event_ V) * bool :=
  match l with
  | [] => (l, false)
  | first :: _ => if veeq (ptr_vec first) bit then (l, true) else (drop_pulses now use_delay l, false)
  end.

(** [recv_vec4] and [recv_vec8] at port 0, at simulation time [now]. *)
Definition delay_recv (now : Z) (f : vvp_fun_delay V) (bit : V) : option (vvp_fun_delay V * delay_effect V) :=
  use_delay ←
    (if initial_ f then scan_delays (delay_ f) (fun _ => vvalue (cur_vec_ f) 0) bit (vsize bit)
     else
       let use_vec := match list_ f with
                      | first :: _ => if sim_time first =? now then ptr_vec first else cur_vec_ f
                      | [] => cur_vec_ f
                      end in
       let use_wid := vsize use_vec in
       let use_wid := if (vsize bit <? use_wid)%nat then vsize bit else use_wid in
       scan_delays (delay_ f) (vvalue use_vec) bit use_wid);
  let '(l, skip) := clean_pulse_events_ now use_delay bit (list_ f) in
  if (skip : bool) then Some (FunDelay (delay_ f) (initial_ f) (cur_vec_ f) l, Nothing)
  else
    let use_simtime := add64 now use_delay in
    match use_delay =? 0, l with
    | true, [] => Some (FunDelay (delay_ f) false bit l, Sends bit)
    | _, _ => Some (FunDelay (delay_ f) (initial_ f) (cur_vec_ f) (l ++ [Event use_simtime bit]), Schedules use_delay)
    end.

(** [run_run] *)
Definition delay_run_run (now : Z) (f : vvp_fun_delay V) : vvp_fun_delay V * option V :=
  match list_ f with
  | [] => (f, None)
  | cur :: rest =>
    if sim_time cur >? now then (f, None)
    else (FunDelay (delay_ f) false (ptr_vec cur) rest, Some (ptr_vec cur))
  end.

End Delay.

Definition new_fun_delay {V} (d : vvp_delay_t) (cur : V) : vvp_fun_delay V := FunDelay d true cur [].

Definition delay_recv_vec4 := delay_recv size (fun v idx => Some (value v idx)) eeq.
Definition delay_recv_vec8 := delay_recv size8 (fun v idx => s ← value8 v idx; Some (scalar_value s)) eeq8.

(** [recv_vec4] at the ports of variable delays. *)
Definition delay_recv_port {V} (round_ scale_ : Z) (f : vvp_fun_delay V) (port : nat) (bit : vvp_vector4_t) : option (vvp_fun_delay V) :=
  let bval := match vector4_to_value_overflow bit with Some (v, _) => v | None => 0 end in
  let val := mul64 (mul64 bval round_) scale_ in
  d ← match port with
      | 1%nat => Some (set_rise (delay_ f) val)
      | 2%nat => Some (set_fall (delay_ f) val)
      | 3%nat => set_decay (delay_ f) val
      | _ => Some (delay_ f)
      end;
  Some (FunDelay d (initial_ f) (cur_vec_ f) (list_ f)).
