(* ===== verification/DelaySpec.v ===== *)
(** * DelaySpec: a delay is inertial

    The world of a delay: the time, the device, the times at which the scheduler
    will run an event of it, and what it sent when.  The specification [inertial] is
    an element that holds at most one future change. *)

From S2P Require Import Prelude FourState Vector4 Vector4Value Vector4Ops Vector4Reduce Bits Strength StrengthSpec Delay.
Import Bit4.

Open Scope ivl_scope.

(** ** The specification *)

(** What is seen of a net behind a delay, the change to come, and the changes there were. *)
Record inertial (B : Type) := Inertial { shown : B; next : option (Z * B); shows : list (Z * B) }.
Arguments Inertial {B}.
Arguments shown {B}.
Arguments next {B}.
Arguments shows {B}.

(** The delay of a change: the largest of its bits. *)
Definition slowest (d : vvp_delay_t) (from to : list vvp_bit4_t) : Z := foldl Z.max 0 (zip_with (get_delay d) from to).

Section Inertial.
Context {B : Type} `{EqDecision B} (levels : B -> list vvp_bit4_t) (d : vvp_delay_t).

Definition show (t : Z) (u : B) (a : inertial B) : inertial B :=
  Inertial u None (shows a ++ if decide (u = shown a) then [] else [(t, u)]).

(** A value arrives: the change to come is replaced by one to the new value, unless it
    is to this value already. *)
Definition inertial_input (now : Z) (v : B) (a : inertial B) : inertial B :=
  if decide (snd <$> next a = Some v) then a
  else
    let use_delay := slowest d (levels (shown a)) (levels v) in
    if use_delay =? 0 then show now v a else Inertial (shown a) (Some (now + use_delay, v)) (shows a).

(** Time passes. *)
Definition inertial_wait (until : Z) (a : inertial B) : inertial B :=
  match next a with Some (t, u) => if t <=? until then show t u a else a | None => a end.

(** The value that the element shows in the end. *)
Definition settled (a : inertial B) : B := match next a with Some (_, u) => u | None => shown a end.

Lemma settled_input now v a : settled (inertial_input now v a) = v.
Proof.
  unfold inertial_input. destruct (decide _) as [E|E].
  - unfold settled. destruct (next a) as [[t u]|]; [by injection E|done].
  - by destruct (_ =? 0).
Qed.

Lemma settled_wait until a : settled (inertial_wait until a) = settled a.
Proof. unfold inertial_wait, settled. destruct (next a) as [[t u]|] eqn:E; [|by rewrite E]. destruct (t <=? until); cbn; [done|by rewrite E]. Qed.

End Inertial.

(** ** The world of a delay *)

Section World.
Context {V : Type} (recv : Z -> vvp_fun_delay V -> V -> option (vvp_fun_delay V * delay_effect V)).

Record world := World { now : Z; device : vvp_fun_delay V; pending : list Z; trace : list (Z * V) }.

Inductive delay_action := Input (v : V) | RunEvent | Wait (n : Z).

(** The scheduler runs what it was told to schedule when its time comes, and time
    does not pass an event. *)
Inductive delay_step : world -> delay_action -> world -> Prop :=
  | step_sends t f p tr v f' u : recv t f v = Some (f', Sends u) ->
      delay_step (World t f p tr) (Input v) (World t f' p (tr ++ [(t, u)]))
  | step_schedules t f p tr v f' use_delay : recv t f v = Some (f', Schedules use_delay) ->
      delay_step (World t f p tr) (Input v) (World t f' (p ++ [add64 t use_delay]) tr)
  | step_skips t f p tr v f' : recv t f v = Some (f', Nothing) ->
      delay_step (World t f p tr) (Input v) (World t f' p tr)
  | step_run t f p1 p2 tr f' o : delay_run_run t f = (f', o) ->
      delay_step (World t f (p1 ++ t :: p2) tr) RunEvent (World t f' (p1 ++ p2) (tr ++ match o with Some v => [(t, v)] | None => [] end))
  | step_wait t f p tr n : 0 < n -> t + n < 2 ^ 62 -> Forall (fun e => t + n <= e) p ->
      delay_step (World t f p tr) (Wait n) (World (t + n) f p tr).

(** Inputs that arrive only in worlds that satisfy [P]. *)
Inductive delay_steps (P : world -> Prop) : world -> list delay_action -> world -> Prop :=
  | steps_nil w : delay_steps P w [] w
  | steps_cons w a w' acts w'' : match a with Input _ => P w | _ => True end -> delay_step w a w' -> delay_steps P w' acts w'' ->
      delay_steps P w (a :: acts) w''.

(** At the time of a change that has not been sent yet a value arrives only when an
    earlier change was sent before, and only one. *)
Definition calm (w : world) : Prop :=
  match list_ (device w) with
  | [] => True
  | [e] => sim_time e = now w -> initial_ (device w) = false
  | _ => False
  end.

End World.
Arguments world : clear implicits.
Arguments delay_action : clear implicits.

(** ** Refinement *)

(** The values in order, without repetitions. *)
Fixpoint changes {B} `{EqDecision B} (prev : B) (tr : list (Z * B)) : list (Z * B) :=
  match tr with
  | [] => []
  | (t, u) :: tr => (if decide (u = prev) then [] else [(t, u)]) ++ changes u tr
  end.

Definition last_shown {B} (prev : B) (tr : list (Z * B)) : B := foldl (fun _ '(_, u) => u) prev tr.

Lemma changes_app {B} `{EqDecision B} tr : forall (prev : B) tr', changes prev (tr ++ tr') = changes prev tr ++ changes (last_shown prev tr) tr'.
Proof. induction tr as [|[t u] tr IH]; intros prev tr'; [done|]. cbn. by rewrite IH, app_assoc. Qed.

Lemma last_shown_app {B} tr tr' : forall prev : B, last_shown prev (tr ++ tr') = last_shown (last_shown prev tr) tr'.
Proof. intros prev. unfold last_shown. by rewrite foldl_app. Qed.

Section Refinement.
Context {V B : Type} `{EqDecision B} (vsize : V -> nat) (vvalue : V -> nat -> option vvp_bit4_t) (veeq : V -> V -> bool).
Context (abs : V -> B) (levels : B -> list vvp_bit4_t) (good : V -> Prop) (w : nat) (d : vvp_delay_t).
Hypothesis w_pos : (0 < w)%nat.
Hypothesis good_size : forall v, good v -> vsize v = w /\ length (levels (abs v)) = w.
Hypothesis good_value : forall v i, good v -> (i < w)%nat -> vvalue v i = levels (abs v) !! i.
Hypothesis good_eeq : forall a b, good a -> good b -> veeq a b = true <-> abs a = abs b.
Hypothesis d_ok : forall a b, 0 <= get_delay d a b < 2 ^ 62.

Local Abbreviation recv := (delay_recv vsize vvalue veeq).

Lemma scan_slowest from lf v : good v -> length lf = w -> (forall i, (i < w)%nat -> from i = lf !! i) ->
  scan_delays vvalue d from v w = Some (slowest d lf (levels (abs v))).
Proof using w_pos good_size good_value d_ok.
  intros Hv Hl Hfrom. destruct (good_size v Hv) as [_ Hlv]. set (zs := zip_with (get_delay d) lf (levels (abs v))).
  assert (Hzs : length zs = w) by (unfold zs; rewrite length_zip_with; lia).
  set (delay_at := fun idx : nat => a ← from idx; b ← vvalue v idx; Some (get_delay d a b)).
  change (for_loop (w - 1) 1 (fun idx r => r ← r; tmp ← delay_at idx; Some (if tmp >? r then tmp else r)) (delay_at 0%nat) = Some (foldl Z.max 0 zs)).
  assert (Hat : forall i, (i < w)%nat -> delay_at i = zs !! i).
  { intros i Hi. unfold delay_at, zs. rewrite Hfrom, good_value, lookup_zip_with by done.
    destruct (lf !! i); cbn; [|done]. by destruct (levels (abs v) !! i). }
  pose proof (for_loop_ind (fun idx r => (idx <= w)%nat -> r = Some (foldl Z.max 0 (take idx zs))) (w - 1) 1
    (fun idx r => r ← r; tmp ← delay_at idx; Some (if tmp >? r then tmp else r)) (delay_at 0%nat)) as Hind.
  replace (1 + (w - 1))%nat with w in Hind by lia. rewrite Hind; [by rewrite take_ge by lia| | |done].
  - intros _. rewrite Hat by done. destruct zs as [|z zs'] eqn:E; [cbn in Hzs; lia|]. cbn. rewrite take_0. cbn. f_equal.
    assert (0 <= z); [|lia]. unfold zs in E. destruct lf as [|a lf]; [done|]. destruct (levels (abs v)) as [|b lv]; [done|].
    injection E as <- _. apply d_ok.
  - intros i r Hi IH Hle. rewrite (IH ltac:(lia)). cbn [mbind option_bind]. rewrite Hat by lia.
    destruct (lookup_lt_is_Some_2 zs i) as [z Ez]; [lia|]. rewrite Ez. cbn [mbind option_bind].
    rewrite (take_S_r zs i z Ez), foldl_app. cbn [foldl]. f_equal. rewrite Z.gtb_ltb. destruct (Z.ltb_spec (foldl Z.max 0 (take i zs)) z); lia.
Qed.

Lemma slowest_range a b : 0 <= slowest d a b < 2 ^ 62.
Proof using d_ok w_pos.
  unfold slowest. assert (H : forall l z, 0 <= z < 2 ^ 62 -> Forall (fun z => 0 <= z < 2 ^ 62) l -> 0 <= foldl Z.max z l < 2 ^ 62).
  { induction l as [|x l IH]; intros z Hz Hl; [done|]. apply list.Forall_cons in Hl as [Hx Hl]. cbn. apply IH; [lia|done]. }
  apply H; [lia|]. revert b. induction a as [|x a IH]; intros [|y b]; constructor; [apply d_ok|apply IH].
Qed.

Lemma slowest_same l : slowest d l l = 0.
Proof using. unfold slowest. induction l as [|x l IH]; [done|]. cbn. replace (get_delay d x x) with 0 by (by destruct x). done. Qed.

(** The world shows what the element shows, but for the changes that are due and not
    sent yet. *)
Context (init : V).
Hypothesis init_good : good init.
Hypothesis init_x : levels (abs init) = replicate w BIT4_X.

Definition seen (tr : list (Z * V)) : list (Z * B) := map (fun '(t, v) => (t, abs v)) tr.
Definition due_changes (due : list (event_ V)) : list (Z * B) := map (fun e => (sim_time e, abs (ptr_vec e))) due.

Record refines (x : world V) (a : inertial B) (due coming : list (event_ V)) : Prop := Refines {
  ref_delay : delay_ (device x) = d;
  ref_list : list_ (device x) = due ++ coming;
  ref_due : Forall (fun e => sim_time e = now x) due;
  ref_coming : match next a, coming with
               | None, [] => True
               | Some (t, u), [e] => now x < t < 2 ^ 63 /\ sim_time e = t /\ abs (ptr_vec e) = u
               | _, _ => False
               end;
  ref_pending : map sim_time (due ++ coming) ⊆+ pending x;
  ref_future : Forall (fun t => now x <= t) (pending x);
  ref_good : good (cur_vec_ (device x)) /\ Forall (fun e => good (ptr_vec e)) (due ++ coming);
  ref_cur : abs (cur_vec_ (device x)) = last_shown (abs init) (seen (trace x));
  ref_shown : shown a = last_shown (abs init) (seen (trace x) ++ due_changes due);
  ref_shows : shows a = changes (abs init) (seen (trace x) ++ due_changes due);
  ref_initial : initial_ (device x) = true -> abs (cur_vec_ (device x)) = abs init;
  ref_now : 0 <= now x < 2 ^ 62;
}.

Lemma seen_snoc tr t v : seen (tr ++ [(t, v)]) = seen tr ++ [(t, abs v)].
Proof using. unfold seen. by rewrite map_app. Qed.

(** One more change. *)
Lemma shows_snoc tr t u (a : inertial B) : shown a = last_shown (abs init) tr -> shows a = changes (abs init) tr ->
  let a' := show t u a in shown a' = last_shown (abs init) (tr ++ [(t, u)]) /\ shows a' = changes (abs init) (tr ++ [(t, u)]).
Proof using.
  intros H1 H2. cbn. rewrite last_shown_app, changes_app, H1, H2. cbn. by rewrite app_nil_r.
Qed.

(** The delay that the code computes is that of the change. *)
Lemma recv_delay x a due coming v : refines x a due coming -> calm x -> good v ->
  (if initial_ (device x) then scan_delays vvalue (delay_ (device x)) (fun _ => vvalue (cur_vec_ (device x)) 0) v (vsize v)
   else
     let use_vec := match list_ (device x) with
                    | first :: _ => if sim_time first =? now x then ptr_vec first else cur_vec_ (device x)
                    | [] => cur_vec_ (device x)
                    end in
     let use_wid := if (vsize v <? vsize use_vec)%nat then vsize v else vsize use_vec in
     scan_delays vvalue (delay_ (device x)) (vvalue use_vec) v use_wid) =
  Some (slowest d (levels (shown a)) (levels (abs v))).
Proof using All.
  intros R C Hv. pose proof R as [Rd Rl Rdue Rc _ _ [Rg Rgl] Rcur Rsh _ Ri _]. destruct (good_size v Hv) as [Sv Lv]. rewrite Rd.
  destruct (initial_ (device x)) eqn:Einit.
  - assert (due = []) as ->.
    { unfold calm in C. rewrite Rl in C. destruct due as [|e due]; [done|]. exfalso.
      assert (He : sim_time e = now x) by (by apply list.Forall_cons in Rdue as [? _]).
      destruct ((e :: due) ++ coming) as [|e' [|]] eqn:El; [done| |done]. injection El as <- _. specialize (C He). congruence. }
    cbn in Rsh. rewrite app_nil_r, <- Rcur, Ri in Rsh by done. rewrite Rsh, init_x, Sv.
    apply scan_slowest; [done|apply length_replicate|]. intros i Hi. rewrite lookup_replicate_2 by done.
    rewrite good_value by done. rewrite (Ri eq_refl), init_x. by rewrite lookup_replicate_2.
  - assert (Href : forall u, good u -> abs u = shown a -> scan_delays vvalue d (vvalue u) v (if (vsize v <? vsize u)%nat then vsize v else vsize u) =
      Some (slowest d (levels (shown a)) (levels (abs v)))).
    { intros u Hu Eu. destruct (good_size u Hu) as [Su Lu]. rewrite Sv, Su, Nat.ltb_irrefl. apply scan_slowest; [done|by rewrite <- Eu|].
      intros i Hi. rewrite good_value by done. by rewrite Eu. }
    cbv zeta. unfold calm in C. rewrite Rl in C |- *. destruct due as [|e due].
    + cbn in Rsh. rewrite app_nil_r, <- Rcur in Rsh. destruct coming as [|e coming]; cbn [app]; [by apply Href|].
      replace (sim_time e =? now x) with false; [by apply Href|]. symmetry. apply Z.eqb_neq.
      destruct (next a) as [[t u]|], coming; try done. destruct Rc as (? & -> & _). lia.
    + cbn [app] in *. apply list.Forall_cons in Rdue as [He _]. apply list.Forall_cons in Rgl as [Hg _].
      destruct due, coming; try done. rewrite He, Z.eqb_refl. apply Href; [done|]. rewrite Rsh, last_shown_app. done.
Qed.

(** The world after a value was received. *)
Definition received (x : world V) (f : vvp_fun_delay V) (eff : delay_effect V) : world V :=
  match eff with
  | Nothing => World (now x) f (pending x) (trace x)
  | Sends u => World (now x) f (pending x) (trace x ++ [(now x, u)])
  | Schedules use_delay => World (now x) f (pending x ++ [add64 (now x) use_delay]) (trace x)
  end.

Lemma not_due (e : event_ V) t dl : 0 <= t < 2 ^ 62 -> 0 <= dl < 2 ^ 62 -> 0 <= sim_time e < 2 ^ 63 ->
  (add64 (sim_time e) dl <=? add64 dl t) = (sim_time e <=? t) :> bool.
Proof using.
  clear. intros Ht Hd He. unfold add64, u64. rewrite !Z.mod_small by lia. destruct (Z.leb_spec (sim_time e) t), (Z.leb_spec (sim_time e + dl) (dl + t)); lia.
Qed.

(** The list that is left when a change replaces the one to come. *)
Lemma kept_events x a due coming dl : refines x a due coming -> calm x -> 0 <= dl < 2 ^ 62 ->
  drop_pulses (now x) dl (due ++ coming) = due /\ (due = [] \/ coming = []).
Proof using w_pos.
  intros [_ Rl Rdue Rc _ _ _ _ _ _ _ Rn] C Hdl. unfold calm in C. rewrite Rl in C. destruct due as [|e due].
  - split; [|by left]. destruct coming as [|e coming]; [done|]. destruct (next a) as [[t u]|], coming; try done.
    destruct Rc as (? & Et & _). cbn. rewrite not_due by lia. by rewrite (proj2 (Z.leb_gt _ _)) by lia.
  - apply list.Forall_cons in Rdue as [He _]. destruct due, coming; try done. split; [|by right]. cbn.
    rewrite not_due by lia. by rewrite (proj2 (Z.leb_le _ _)) by lia.
Qed.

Lemma clean_refines x a due coming v : refines x a due coming -> calm x -> good v ->
  let dl := slowest d (levels (shown a)) (levels (abs v)) in
  let r := clean_pulse_events_ veeq (now x) dl v (list_ (device x)) in
  (r = (list_ (device x), true) /\ inertial_input levels d (now x) (abs v) a = a) \/
  (r = (due, false) /\ (due = [] \/ coming = []) /\
   inertial_input levels d (now x) (abs v) a = if dl =? 0 then show (now x) (abs v) a else Inertial (shown a) (Some (now x + dl, abs v)) (shows a)).
Proof using All.
  intros R C Hv dl. pose proof (slowest_range (levels (shown a)) (levels (abs v))) as Hr. fold dl in Hr.
  destruct (kept_events x a due coming dl R C Hr) as [Hdrop Hone].
  destruct R as [_ Rl Rdue Rc _ _ [_ Rgl] _ Rsh _ _ _]. cbv zeta. rewrite Rl. unfold clean_pulse_events_.
  assert (Hnew : snd <$> next a <> Some (abs v) -> inertial_input levels d (now x) (abs v) a =
    if dl =? 0 then show (now x) (abs v) a else Inertial (shown a) (Some (now x + dl, abs v)) (shows a)).
  { intros Hne. unfold inertial_input. by destruct (decide _). }
  destruct due as [|e due].
  - destruct coming as [|e coming]; cbn [app] in *.
    + right. split; [done|]. split; [by left|]. apply Hnew. by destruct (next a) as [[]|].
    + destruct (next a) as [[t u]|] eqn:En, coming; try done. destruct Rc as (_ & _ & Eu). apply list.Forall_cons in Rgl as [Hg _].
      pose proof (good_eeq _ _ Hg Hv) as He. destruct (veeq (ptr_vec e) v).
      * left. split; [done|]. unfold inertial_input. rewrite En, decide_True; [done|]. cbn. by rewrite <- Eu, (proj1 He).
      * right. rewrite Hdrop. split; [done|]. split; [by left|]. apply Hnew. cbn. intros [= E]. rewrite <- Eu in E. by apply He in E.
  - cbn [app] in *. unfold calm in C. rewrite Rl in C. destruct due, coming; try done. cbn [app] in *. apply list.Forall_cons in Rgl as [Hg _].
    destruct (next a) as [[]|] eqn:En; [done|]. pose proof (good_eeq _ _ Hg Hv) as He. destruct (veeq (ptr_vec e) v).
    + left. split; [done|]. rewrite Hnew by done. cbn in Rsh. rewrite last_shown_app in Rsh. cbn in Rsh. rewrite (proj1 He eq_refl) in Rsh.
      unfold dl. rewrite Rsh, slowest_same. cbn. unfold show. rewrite <- Rsh, decide_True, app_nil_r by done. destruct a; cbn in *. by rewrite En.
    + right. rewrite Hdrop. split; [done|]. split; [by right|]. by apply Hnew.
Qed.

Lemma input_refines x a due coming v : refines x a due coming -> calm x -> good v ->
  exists f eff due' coming', recv (now x) (device x) v = Some (f, eff) /\
    refines (received x f eff) (inertial_input levels d (now x) (abs v) a) due' coming'.
Proof using All.
  intros R C Hv. pose proof (recv_delay x a due coming v R C Hv) as Hd. cbv zeta in Hd. unfold delay_recv. cbv zeta. rewrite Hd.
  cbn [mbind option_bind]. pose proof (slowest_range (levels (shown a)) (levels (abs v))) as Hr.
  pose proof (clean_refines x a due coming v R C Hv) as Hclean. cbv zeta in Hclean. set (dl := slowest d _ _) in *.
  pose proof R as [Rd Rl Rdue Rc Rp Rf [Rg Rgl] Rcur Rsh Rss Ri Rn].
  destruct Hclean as [[-> ->]|(-> & Hone & ->)].
  - eexists _, _, due, coming. split; [done|]. by split.
  - assert (Hpend : forall e, map sim_time (due ++ [e]) ⊆+ pending x ++ [sim_time e]).
    { intros e. rewrite map_app. apply submseteq_app; [|done]. etrans; [|exact Rp]. rewrite map_app. by apply submseteq_inserts_r. }
    assert (Hgood : forall t, Forall (fun e => good (ptr_vec e)) (due ++ [Event t v])).
    { intros t. apply Forall_app in Rgl as [Rgl _]. apply Forall_app. split; [done|]. by apply list.Forall_cons. }
    assert (Hadd : add64 (now x) dl = now x + dl) by (unfold add64, u64; rewrite Z.mod_small; lia).
    rewrite Hadd. destruct (Z.eqb_spec dl 0) as [E0|E0].
    + assert (Hsnoc : forall tr, shown a = last_shown (abs init) tr -> shows a = changes (abs init) tr ->
        shown (show (now x) (abs v) a) = last_shown (abs init) (tr ++ [(now x, abs v)]) /\
        shows (show (now x) (abs v) a) = changes (abs init) (tr ++ [(now x, abs v)])) by (intros; by apply shows_snoc).
      destruct due as [|e due].
      * cbn in Rsh, Rss. rewrite app_nil_r in Rsh, Rss. destruct (Hsnoc _ Rsh Rss) as [Hs1 Hs2].
        eexists _, _, [], []. split; [done|]. split; cbn [received device now pending trace delay_ list_ cur_vec_ initial_ app map]; try done.
        { apply submseteq_nil_l. }
        { by rewrite seen_snoc, last_shown_app. } { by rewrite seen_snoc, app_nil_r. } { by rewrite seen_snoc, app_nil_r. }
      * destruct (Hsnoc _ Rsh Rss) as [Hs1 Hs2]. eexists _, _, ((e :: due) ++ [Event (now x + dl) v]), [].
        split; [done|]. split; cbn [received device now pending trace delay_ list_ cur_vec_ initial_]; rewrite ?app_nil_r; try done.
        { apply Forall_app. split; [done|]. apply list.Forall_cons. split; [cbn; lia|by apply Forall_nil_2]. }
        { rewrite Hadd. exact (Hpend (Event (now x + dl) v)). }
        { rewrite Hadd. apply Forall_app. split; [done|]. apply list.Forall_cons. split; [lia|by apply Forall_nil_2]. }
        { unfold due_changes in *. rewrite map_app, app_assoc. cbn [map sim_time ptr_vec]. by rewrite E0, Z.add_0_r. }
        { unfold due_changes in *. rewrite map_app, app_assoc. cbn [map sim_time ptr_vec]. by rewrite E0, Z.add_0_r. }
    + eexists _, (Schedules dl), due, [Event (now x + dl) v]. split; [by destruct due|].
      split; cbn [received device now pending trace delay_ list_ cur_vec_ initial_]; try done.
      { cbn. split; [lia|done]. }
      { rewrite Hadd. exact (Hpend (Event (now x + dl) v)). }
      { rewrite Hadd. apply Forall_app. split; [done|]. apply list.Forall_cons. split; [lia|by apply Forall_nil_2]. }
Qed.

(** An event runs: those of changes that were dropped do nothing. *)
Lemma submseteq_remove (t : Z) l p1 p2 : l ⊆+ p1 ++ t :: p2 -> t ∉ l -> l ⊆+ p1 ++ p2.
Proof using.
  clear. rewrite <- Permutation_middle. intros [H|(l' & E & H)]%submseteq_cons_r Hn; [done|]. exfalso. apply Hn. rewrite E. by left.
Qed.

Lemma submseteq_both (t : Z) l p1 p2 : t :: l ⊆+ p1 ++ t :: p2 -> l ⊆+ p1 ++ p2.
Proof using. clear. rewrite <- Permutation_middle. intros H. by apply (submseteq_app_inv_l l (p1 ++ p2) [t]). Qed.

Tactic Notation "world_cbn" := cbn [now device pending trace delay_ list_ cur_vec_ initial_].
Tactic Notation "world_cbn" "in" "*" := cbn [now device pending trace delay_ list_ cur_vec_ initial_] in *.

Lemma run_refines t f p1 p2 tr a due coming f' o : refines (World t f (p1 ++ t :: p2) tr) a due coming -> delay_run_run t f = (f', o) ->
  exists due' coming', refines (World t f' (p1 ++ p2) (tr ++ match o with Some v => [(t, v)] | None => [] end)) a due' coming'.
Proof using.
  clear - init. intros [Rd Rl Rdue Rc Rp Rf [Rg Rgl] Rcur Rsh Rss Ri Rn]. world_cbn in *.
  assert (Rf' : Forall (fun t' => t <= t') (p1 ++ p2)).
  { apply Forall_app in Rf as [Rf1 Rf2]. apply list.Forall_cons in Rf2 as [_ Rf2]. by apply Forall_app. }
  unfold delay_run_run. rewrite Rl. destruct due as [|e due].
  - intros E. exists [], coming. assert (Hc : match coming with [] => True | e :: _ => t < sim_time e end).
    { destruct coming as [|e coming]; [done|]. destruct (next a) as [[t' u]|], coming; try done. by destruct Rc as ([? _] & -> & _). }
    assert (E' : (f, None) = (f', o)).
    { rewrite <- E. destruct coming as [|e coming]; [done|]. cbn [app]. by rewrite Z.gtb_ltb, (proj2 (Z.ltb_lt _ _) Hc). }
    injection E' as <- <-. rewrite app_nil_r. split; world_cbn; try done. apply (submseteq_remove t); [done|].
    destruct coming as [|e [|]]; cbn in Rp |- *; [by apply not_elem_of_nil| |by destruct (next a) as [[]|]].
    intros Hin%list_elem_of_singleton. lia.
  - apply list.Forall_cons in Rdue as [He Rdue]. apply list.Forall_cons in Rgl as [Hg Rgl]. cbn [app]. rewrite He, Z.gtb_ltb, Z.ltb_irrefl.
    intros [= <- <-]. exists due, coming. split; world_cbn; try done.
    + cbn in Rp. rewrite He in Rp. by apply submseteq_both in Rp.
    + by rewrite seen_snoc, last_shown_app.
    + cbn in Rsh. rewrite seen_snoc, <- app_assoc. cbn. by rewrite <- He.
    + cbn in Rss. rewrite seen_snoc, <- app_assoc. cbn. by rewrite <- He.
Qed.

Lemma wait_refines t f p tr a due coming n : refines (World t f p tr) a due coming -> 0 < n -> t + n < 2 ^ 62 -> Forall (fun e => t + n <= e) p ->
  exists due' coming', refines (World (t + n) f p tr) (inertial_wait (t + n) a) due' coming'.
Proof using.
  clear - init. intros [Rd Rl Rdue Rc Rp Rf [Rg Rgl] Rcur Rsh Rss Ri Rn] Hn Hb Hp. world_cbn in *.
  assert (Hlate : forall e, e ∈ due ++ coming -> t + n <= sim_time e).
  { intros e He. rewrite Forall_forall in Hp. apply Hp, list_elem_of_In. eapply elem_of_submseteq; [|exact Rp]. by apply list_elem_of_fmap_2. }
  assert (due = []) as ->.
  { destruct due as [|e due]; [done|]. exfalso. apply list.Forall_cons in Rdue as [He _]. specialize (Hlate e ltac:(by left)). lia. }
  cbn in Rsh, Rss. rewrite app_nil_r in Rsh, Rss. unfold inertial_wait. destruct (next a) as [[t' u]|] eqn:En, coming as [|e [|]]; try done.
  - destruct Rc as ([Ht Ht'] & <- & <-). specialize (Hlate e ltac:(by left)). destruct (Z.leb_spec (sim_time e) (t + n)).
    + pose proof (shows_snoc (seen tr) (sim_time e) (abs (ptr_vec e)) a Rsh Rss) as [Hs1 Hs2]. exists [e], []. split; world_cbn; try done; try lia.
      * apply list.Forall_cons. split; [lia|by apply Forall_nil_2].
    + exists [], [e]. split; world_cbn; rewrite ?En, ?app_nil_r; try done; lia.
  - exists [], []. split; world_cbn; rewrite ?En, ?app_nil_r; try done; lia.
Qed.

(** The element takes the same steps. *)
Definition inertial_action (s : Z * inertial B) (act : delay_action V) : Z * inertial B :=
  let '(t, a) := s in
  match act with
  | Input v => (t, inertial_input levels d t (abs v) a)
  | RunEvent => (t, a)
  | Wait n => (t + n, inertial_wait (t + n) a)
  end.

Definition input_good (act : delay_action V) : Prop := match act with Input v => good v | _ => True end.

Lemma step_refines x act x' a due coming : refines x a due coming -> match act with Input _ => calm x | _ => True end -> input_good act ->
  delay_step recv x act x' ->
  exists due' coming', refines x' (inertial_action (now x, a) act).2 due' coming' /\ now x' = (inertial_action (now x, a) act).1.
Proof using All.
  intros R C Hg Hs. destruct act as [v| |n].
  - destruct (input_refines x a due coming v R C Hg) as (f & eff & due' & coming' & E & R').
    exists due', coming'. inversion Hs as [t f0 p tr v0 f' u Er|t f0 p tr v0 f' dl Er|t f0 p tr v0 f' Er| |]; subst; cbn in E; rewrite Er in E;
      injection E as <- <-; by split.
  - inversion Hs as [| | |t f p1 p2 tr f' o Er|]; subst. destruct (run_refines _ _ _ _ _ _ _ _ _ _ R Er) as (due' & coming' & R').
    by exists due', coming'.
  - inversion Hs as [| | | |t f p tr n0 Hn Hb Hp]; subst. destruct (wait_refines _ _ _ _ _ _ _ _ R Hn Hb Hp) as (due' & coming' & R').
    by exists due', coming'.
Qed.

Lemma steps_refine acts : forall x x' a due coming, refines x a due coming -> delay_steps recv calm x acts x' -> Forall input_good acts ->
  exists due' coming', refines x' (fold_left inertial_action acts (now x, a)).2 due' coming'.
Proof using All.
  induction acts as [|act acts IH]; intros x x' a due coming R Hs Hg; inversion Hs as [|w0 a0 x1 acts0 x'' C Hstep Hrest]; subst; [by exists due, coming|].
  apply list.Forall_cons in Hg as [Hg Hgs]. destruct (step_refines x act x1 a due coming R C Hg Hstep) as (due' & coming' & R' & En).
  cbn [fold_left]. destruct (inertial_action (now x, a) act) as [t a'] eqn:Ea. cbn in R', En. subst t. by eapply IH.
Qed.

(** What the code and the element have in common after any such sequence. *)
Definition agrees (x : world V) (a : inertial B) : Prop :=
  (forall v, good v -> calm x -> exists x', delay_step recv x (Input v) x') /\
  (exists due, Forall (fun '(t, _) => t = now x /\ t ∈ pending x) due /\ shows a = changes (abs init) (seen (trace x) ++ due)) /\
  (forall t u, next a = Some (t, u) -> t ∈ pending x) /\
  (pending x = [] -> shows a = changes (abs init) (seen (trace x)) /\ abs (cur_vec_ (device x)) = settled a).

Lemma refines_agrees x a due coming : refines x a due coming -> agrees x a.
Proof using All.
  intros R. pose proof R as [Rd Rl Rdue Rc Rp Rf [Rg Rgl] Rcur Rsh Rss Ri Rn].
  assert (Hin : forall e, e ∈ due ++ coming -> sim_time e ∈ pending x).
  { intros e He. eapply elem_of_submseteq; [|exact Rp]. by apply list_elem_of_fmap_2. }
  split; [|split; [|split]].
  - intros v Hv C. destruct (input_refines x a due coming v R C Hv) as (f & eff & _ & _ & E & _). destruct x as [t f0 p tr]. cbn in E.
    destruct eff; eexists; [by eapply step_skips|by eapply step_sends|by eapply step_schedules].
  - exists (due_changes due). split; [|done]. unfold due_changes. apply Forall_map, Forall_forall. intros e He%list_elem_of_In. split.
    + rewrite Forall_forall in Rdue. by apply Rdue, list_elem_of_In.
    + apply Hin, elem_of_app. by left.
  - intros t u En. rewrite En in Rc. destruct coming as [|e [|]]; try done. destruct Rc as (_ & <- & _). apply Hin, elem_of_app. right. by left.
  - intros Ep. rewrite Ep in Rp. apply submseteq_nil_r in Rp. apply map_eq_nil, app_nil in Rp as [-> ->].
    cbn in Rsh, Rss. rewrite app_nil_r in Rsh, Rss. split; [done|]. unfold settled. destruct (next a) as [[]|]; [done|]. congruence.
Qed.

Lemma delay_agrees t0 acts x : 0 <= t0 < 2 ^ 62 -> delay_steps recv calm (World t0 (new_fun_delay d init) [] []) acts x -> Forall input_good acts ->
  agrees x (fold_left inertial_action acts (t0, Inertial (abs init) None [])).2.
Proof using All.
  intros Ht Hs Hg. destruct (steps_refine acts (World t0 (new_fun_delay d init) [] []) x (Inertial (abs init) None []) [] []) as (due & coming & R); [|done|done|].
  - split; cbn; done.
  - by eapply refines_agrees.
Qed.

Lemma settled_actions acts : forall s, settled (fold_left inertial_action acts s).2 = foldl (fun u act => match act with Input v => abs v | _ => u end) (settled s.2) acts.
Proof using.
  induction acts as [|act acts IH]; intros [t a]; [done|]. cbn [fold_left foldl]. rewrite IH. f_equal.
  destruct act; cbn; [apply settled_input|done|apply settled_wait].
Qed.

End Refinement.

(** ** The delays of four-state vectors and of vectors with strengths *)

Definition delay_range (d : vvp_delay_t) : Prop := forall a b, 0 <= get_delay d a b < 2 ^ 62.

Definition new_delay_world (d : vvp_delay_t) (w : nat) (t0 : Z) : world vvp_vector4_t := World t0 (new_fun_delay d (vec4_fill w BIT4_X)) [] [].

Definition arrives (w : nat) (act : delay_action vvp_vector4_t) : Prop := input_good (fun v => vec_wf v /\ size v = w) act.

(** The element after a sequence of actions that begins at [t0]. *)
Definition element (d : vvp_delay_t) (w : nat) (t0 : Z) (acts : list (delay_action vvp_vector4_t)) : inertial bits :=
  (fold_left (inertial_action bits_of (fun b => b) d) acts (t0, Inertial (repeat BIT4_X w) None [])).2.

Definition last_input (w : nat) (acts : list (delay_action vvp_vector4_t)) : bits :=
  foldl (fun u act => match act with Input v => bits_of v | _ => u end) (repeat BIT4_X w) acts.

Lemma repeat_replicate {A} (x : A) n : repeat x n = replicate n x.
Proof. induction n as [|n IH]; [done|]. cbn. by rewrite IH. Qed.

Lemma bits_of_fill w c : bits_of (vec4_fill w c) = repeat c w.
Proof. apply bits_of_is, vec_is_fill. Qed.

(** C14. What a delay sends is what an inertial element shows that holds one future
    change: a new value replaces the change to come, so that a pulse shorter than the
    delay vanishes; all bits of a value change together, after the largest of the
    delays of its bits (a comment in delay.cc marks this as wrong for bits with
    different delays, which should change one by one; the element follows the code).
    The delays are below [2^62], the width is any, and the actions are values that
    arrive, time that passes, and events that the scheduler runs when it was asked to,
    with one assumption, [calm]: at the very time of a change that is due and has not
    been sent, no value arrives before the first change of all has been sent, and at
    most one value later.  Then the changes that the delay sends, with their times,
    are those of the element, but for those that are due at the moment, whose event is
    queued; no arrival fails; every change to come has its event; and once no event is
    left the delay shows the value that arrived last.  Without [calm] this is not so:
    see [value_at_first_change], [second_value_skipped] and [fast_change_stuck]. *)
Theorem delay_correct (d : vvp_delay_t) (w : nat) (t0 : Z) acts x : (0 < w)%nat -> delay_range d -> 0 <= t0 < 2 ^ 62 ->
  delay_steps delay_recv_vec4 calm (new_delay_world d w t0) acts x -> Forall (arrives w) acts ->
  let a := element d w t0 acts in
  (forall v, vec_wf v -> size v = w -> calm x -> exists x', delay_step delay_recv_vec4 x (Input v) x') /\
  (exists due, Forall (fun '(t, _) => t = now x /\ t ∈ pending x) due /\
     shows a = changes (repeat BIT4_X w) (seen bits_of (trace x) ++ due)) /\
  (forall t u, next a = Some (t, u) -> t ∈ pending x) /\
  (pending x = [] -> shows a = changes (repeat BIT4_X w) (seen bits_of (trace x)) /\ bits_of (cur_vec_ (device x)) = last_input w acts).
Proof.
  intros Hw Hd Ht Hs Ha a.
  destruct (delay_agrees size (fun v i => Some (value v i)) eeq bits_of (fun b => b) (fun v => vec_wf v /\ size v = w) w d Hw) with
    (init := vec4_fill w BIT4_X) (t0 := t0) (acts := acts) (x := x) as (P & Q & T & S); try done.
  - intros v [Wv Sv]. by rewrite length_bits_of.
  - intros v i [Wv Sv] Hi. unfold bits_of. by rewrite list_lookup_fmap, lookup_seq_lt by lia.
  - intros u v [Wu Su] [Wv Sv]. apply eeq_bits_of; (done || lia).
  - split; [apply vec4_fill_wf|done].
  - rewrite bits_of_fill. apply repeat_replicate.
  - rewrite bits_of_fill in *. fold (element d w t0 acts) in Q, T, S. fold a in Q, T, S.
    split; [intros v Wv Sv; by apply P|]. split; [done|]. split; [done|]. intros Ep. destruct (S Ep) as [S1 S2]. split; [done|].
    rewrite S2. unfold a, element. rewrite settled_actions. done.
Qed.

(** The same for vectors with strengths: delays look at the values of their bits. *)
Lemma delay8_correct (d : vvp_delay_t) (w : nat) (t0 : Z) init acts x : (0 < w)%nat -> delay_range d -> 0 <= t0 < 2 ^ 62 ->
  vec8_of_vec4 (vec4_fill w BIT4_X) 6 6 = Some init ->
  delay_steps delay_recv_vec8 calm (World t0 (new_fun_delay d init) [] []) acts x ->
  Forall (input_good (fun v => wf8 v /\ size8 v = w)) acts ->
  agrees size8 (fun v i => s ← value8 v i; Some (scalar_value s)) eeq8 bits8 (fun v => wf8 v /\ size8 v = w) init x
    (fold_left (inertial_action bits8 (map scalar_value) d) acts (t0, Inertial (bits8 init) None [])).2.
Proof.
  intros Hw Hd Ht Ei Hs Ha. destruct (vec8_of_vec4_strong (vec4_fill w BIT4_X)) as (u & Eu & Wu & Su & Bu). rewrite Ei in Eu. injection Eu as <-.
  apply (delay_agrees size8 (fun v i => s ← value8 v i; Some (scalar_value s)) eeq8 bits8 (map scalar_value) _ w d Hw); try done.
  - intros v [Wv Sv]. by rewrite length_map, length_bits8.
  - intros v i [Wv Sv] Hi. rewrite list_lookup_fmap. destruct (value8_at v i Wv ltac:(lia)) as (s & -> & ->). done.
  - intros a b [Wa Sa] [Wb Sb]. apply eeq8_bits; (done || lia).
  - rewrite Bu, bits_of_fill. by rewrite map_map, map_repeat, repeat_replicate.
Qed.

(** ** Concrete delays *)

(** A rise of 5 and a fall of 2 on one bit: a pulse of 1 that is shorter than 5. *)
Definition rise5_fall2 : vvp_delay_t := delay_of_two 5 2.

Lemma rise5_fall2_range : delay_range rise5_fall2.
Proof. by intros [] []. Qed.

(** Evaluates the world before the next step; takes a step whatever it is. *)
Ltac eval_world := match goal with |- delay_steps _ _ ?x _ _ => let y := eval vm_compute in x in change x with y end.
Ltac take_input tac := eapply steps_cons; [tac|first [eapply step_sends; vm_compute; reflexivity|eapply step_schedules; vm_compute; reflexivity|eapply step_skips; vm_compute; reflexivity]|eval_world].
Ltac take_run p1 p2 := eapply steps_cons; [exact I|eapply (step_run _ _ _ p1 p2); vm_compute; reflexivity|eval_world].
Ltac take_wait := eapply steps_cons; [exact I|apply step_wait; [lia|lia|repeat (apply list.Forall_cons; split; [lia|]); apply Forall_nil_2]|eval_world].

Definition bit1 (c : vvp_bit4_t) : vvp_vector4_t := vec4_fill 1 c.

(** 0 at time 0, shown at 2; a pulse from 3 to 6, which vanishes; 1 at 10, shown at 15. *)
Definition pulse_story : list (delay_action vvp_vector4_t) :=
  [Input (bit1 BIT4_0); Wait 2; RunEvent; Wait 1; Input (bit1 BIT4_1); Wait 3; Input (bit1 BIT4_0); Wait 2; RunEvent; Wait 2;
   Input (bit1 BIT4_1); Wait 5; RunEvent].

Lemma delay_correct_witness : exists x, delay_steps delay_recv_vec4 calm (new_delay_world rise5_fall2 1 0) pulse_story x /\
  pending x = [] /\ changes [BIT4_X] (seen bits_of (trace x)) = [(2, [BIT4_0]); (15, [BIT4_1])] /\ bits_of (cur_vec_ (device x)) = [BIT4_1].
Proof.
  assert (Hs : exists x, delay_steps delay_recv_vec4 calm (new_delay_world rise5_fall2 1 0) pulse_story x /\ pending x = []).
  { eexists. split; [unfold pulse_story; eval_world|].
    - take_input ltac:(exact I). take_wait. take_run (@nil Z) (@nil Z). take_wait. take_input ltac:(exact I). take_wait.
      take_input ltac:(intros ?; reflexivity). take_wait. take_run (@nil Z) (@nil Z). take_wait. take_input ltac:(exact I). take_wait.
      take_run (@nil Z) (@nil Z). apply steps_nil.
    - reflexivity. }
  destruct Hs as (x & Hs & Hp). exists x. split; [exact Hs|]. split; [exact Hp|].
  destruct (delay_correct rise5_fall2 1 0 pulse_story x) as (_ & _ & _ & H).
  - lia.
  - exact rise5_fall2_range.
  - lia.
  - exact Hs.
  - repeat (apply list.Forall_cons; split; [try exact I; try (split; [apply vec4_fill_wf|reflexivity])|]). apply Forall_nil_2.
  - destruct (H Hp) as [H1 H2]. split; [|exact H2]. exact (eq_sym H1).
Defined.

(** Two values that arrive at the time of a change that is due: the second is compared
    with the due change instead of the last one, and skipped.  The delay shows 0 for
    an input that is 1. *)
Definition skipped_story : list (delay_action vvp_vector4_t) :=
  [Input (bit1 BIT4_0); Wait 2; RunEvent; Input (bit1 BIT4_1); Wait 5; Input (bit1 BIT4_0); Input (bit1 BIT4_1); RunEvent; Wait 2; RunEvent].

Lemma second_value_skipped : exists x, delay_steps delay_recv_vec4 (fun _ => True) (new_delay_world rise5_fall2 1 0) skipped_story x /\
  pending x = [] /\ bits_of (cur_vec_ (device x)) = [BIT4_0] /\ last_input 1 skipped_story = [BIT4_1].
Proof.
  eexists. split; [unfold skipped_story; eval_world|split; [|split]].
  - take_input ltac:(exact I). take_wait. take_run (@nil Z) (@nil Z). take_input ltac:(exact I). take_wait.
    take_input ltac:(exact I). take_input ltac:(exact I). take_run (@nil Z) [9]. take_wait. take_run (@nil Z) (@nil Z). apply steps_nil.
  - reflexivity.
  - reflexivity.
  - reflexivity.
Qed.

(** The same with a slow change followed by a fast one: the list is not in the order
    of time, the event of the fast change finds the slow one first and does nothing,
    and no event is left for the fast one. *)
Definition stuck_story : list (delay_action vvp_vector4_t) :=
  [Input (bit1 BIT4_1); Wait 5; RunEvent; Input (bit1 BIT4_0); Wait 2; Input (bit1 BIT4_1); Input (bit1 BIT4_X); RunEvent;
   Wait 2; RunEvent; Wait 3; RunEvent].

Lemma fast_change_stuck : exists x, delay_steps delay_recv_vec4 (fun _ => True) (new_delay_world rise5_fall2 1 0) stuck_story x /\
  pending x = [] /\ bits_of (cur_vec_ (device x)) = [BIT4_1] /\ last_input 1 stuck_story = [BIT4_X] /\
  map (fun e => bits_of (ptr_vec e)) (list_ (device x)) = [[BIT4_X]].
Proof.
  eexists. split; [unfold stuck_story; eval_world|split; [|split; [|split]]].
  - take_input ltac:(exact I). take_wait. take_run (@nil Z) (@nil Z). take_input ltac:(exact I). take_wait.
    take_input ltac:(exact I). take_input ltac:(exact I). take_run (@nil Z) [12; 9]. take_wait. take_run [12] (@nil Z). take_wait.
    take_run (@nil Z) (@nil Z). apply steps_nil.
  - reflexivity.
  - reflexivity.
  - reflexivity.
  - reflexivity.
Qed.

(** The first value has not been sent when another arrives at the time at which it is
    due: its bits are compared with the x that the output began with, not with the due
    change, so the delay is the 5 of a rise, where the one bit that changes falls.  The
    element shows the value at 7, the delay at 10. *)
Definition two_bits (a b : vvp_bit4_t) : vvp_vector4_t := set_bit (vec4_fill 2 a) 1 b.
Definition first_story : list (delay_action vvp_vector4_t) :=
  [Input (two_bits BIT4_1 BIT4_1); Wait 5; Input (two_bits BIT4_1 BIT4_0); RunEvent; Wait 5; RunEvent].

Lemma value_at_first_change : exists x, delay_steps delay_recv_vec4 (fun _ => True) (new_delay_world rise5_fall2 2 0) first_story x /\
  pending x = [] /\ seen bits_of (trace x) = [(5, [BIT4_1; BIT4_1]); (10, [BIT4_1; BIT4_0])] /\
  shows (element rise5_fall2 2 0 first_story) = [(5, [BIT4_1; BIT4_1]); (7, [BIT4_1; BIT4_0])].
Proof.
  eexists. split; [unfold first_story; eval_world|split; [|split]].
  - take_input ltac:(exact I). take_wait. take_input ltac:(exact I). take_run (@nil Z) [10]. take_wait. take_run (@nil Z) (@nil Z). apply steps_nil.
  - reflexivity.
  - reflexivity.
  - vm_compute. reflexivity.
Qed.
