(* ===== verification/Devices.v ===== *)
(** * Devices: three-state buffers, switches, latches and flip-flops (vvp/bufif.cc, vvp/npmos.cc, vvp/latch.cc, vvp/dff.cc)

    The buffers and switches send vectors with strengths at once; the latch and the
    flip-flops schedule what they propagate. *)

From S2P Require Import Prelude FourState Vector4 Vector4Value Vector4Ops Vector4Logic Vector4Reduce Functor Bits Strength StrengthSpec ResolvSpec.
Import Bit4.

Open Scope ivl_scope.

(** ** bufif0, bufif1, notif0, notif1 *)

Record vvp_fun_bufif := Bufif { bufif_bit_ : vvp_vector4_t; bufif_en_ : vvp_vector4_t; pol_ : bool; inv_ : bool; drive0_ : Z; drive1_ : Z }.

Definition new_bufif (en_invert out_invert : bool) (str0 str1 : Z) : vvp_fun_bufif :=
  Bufif (vec4_fill 0 BIT4_X) (vec4_fill 0 BIT4_X) en_invert out_invert str0 str1.

(** The [switch (b_en)] of [recv_vec4]. *)
Definition bufif_scalar (drive0 drive1 : Z) (b_en b_bit : vvp_bit4_t) : option vvp_scalar_t :=
  match b_en with
  | BIT4_0 => scalar_of_bit4 BIT4_Z drive0 drive1
  | BIT4_1 => if bit4_is_xz b_bit then scalar_of_bit4 BIT4_X drive0 drive1 else scalar_of_bit4 b_bit drive0 drive1
  | _ =>
    match b_bit with
    | BIT4_0 => scalar_of_bit4 BIT4_X drive0 0
    | BIT4_1 => scalar_of_bit4 BIT4_X 0 drive1
    | _ => scalar_of_bit4 BIT4_X drive0 drive1
    end
  end.

(** The vector that is sent, as wide as the value that arrived. *)
Definition bufif_out (f : vvp_fun_bufif) (wid : nat) : option vvp_vector8_t :=
  for_loop wid 0 (fun idx out =>
    out ← out; s ← bufif_scalar (drive0_ f) (drive1_ f) (value (bufif_en_ f) idx) (value (bufif_bit_ f) idx); set_bit8 out idx s)
    (Some (vec8_new wid)).

Definition bufif_recv_vec4 (f : vvp_fun_bufif) (port : nat) (bit : vvp_vector4_t) : option (vvp_fun_bufif * option vvp_vector8_t) :=
  match port with
  | 0%nat =>
    let f := Bufif (if inv_ f then copy_inverted_from_ bit else bit) (bufif_en_ f) (pol_ f) (inv_ f) (drive0_ f) (drive1_ f) in
    out ← bufif_out f (size bit); Some (f, Some out)
  | 1%nat =>
    let f := Bufif (bufif_bit_ f) (if pol_ f then copy_inverted_from_ bit else bit) (pol_ f) (inv_ f) (drive0_ f) (drive1_ f) in
    out ← bufif_out f (size bit); Some (f, Some out)
  | _ => Some (f, None)
  end.

(** Parts: [recv_vec4_pv], and [recv_vec8_pv] of all functors. *)
Definition bufif_recv_vec4_pv (f : vvp_fun_bufif) (port : nat) (bit : vvp_vector4_t) (base vwid : nat) : option (vvp_fun_bufif * option vvp_vector8_t) :=
  recv_vec4_pv_ (bufif_recv_vec4 f port) bit base vwid.
Definition bufif_recv_vec8_pv (f : vvp_fun_bufif) (port : nat) (bit : vvp_vector8_t) (base vwid : nat) : option (vvp_fun_bufif * option vvp_vector8_t) :=
  tmp ← reduce4 bit; bufif_recv_vec4_pv f port tmp base vwid.

(** ** pmos, nmos and their resistive kinds *)

(** [vvp_switch_strength_map]; beyond the table nothing. *)
Definition vvp_switch_strength_map (resistive : bool) (strength : Z) : option Z :=
  (if resistive then [0; 1; 1; 2; 2; 3; 5; 5] else [0; 1; 2; 3; 4; 5; 6; 6]) !! Z.to_nat strength.

(** The value of a bit behind the switch, when it is on. *)
Definition switch_scalar (resistive : bool) (b_bit : vvp_scalar_t) : option vvp_scalar_t :=
  s0 ← vvp_switch_strength_map resistive (strength0 b_bit);
  s1 ← vvp_switch_strength_map resistive (strength1 b_bit);
  scalar_of_bit4 (scalar_value b_bit) s0 s1.

(** When it is not known whether the switch is on. *)
Definition maybe_off (b_bit : vvp_scalar_t) : option vvp_scalar_t :=
  match scalar_value b_bit with
  | BIT4_0 => scalar_of_bit4 BIT4_X (strength0 b_bit) 0
  | BIT4_1 => scalar_of_bit4 BIT4_X 0 (strength1 b_bit)
  | _ => Some b_bit
  end.

Record vvp_fun_pmos_ := Pmos { pmos_bit_ : vvp_vector8_t; pmos_en_ : vvp_vector4_t; inv_en_ : bool; pmos_resistive_ : bool }.

Definition new_pmos (enable_invert resistive : bool) : vvp_fun_pmos_ := Pmos (vec8_new 0) (vec4_fill 0 BIT4_X) enable_invert resistive.

(** The loop of [generate_output_]; [bit_at idx b] is the output for the scalar [b]. *)
Definition generate_bits (bit_ : vvp_vector8_t) (resistive : bool) (output : nat -> vvp_scalar_t -> option vvp_scalar_t) : option (option vvp_vector8_t) :=
  out ← for_loop (size8 bit_) 0 (fun idx out =>
    out ← out; b_bit ← value8 bit_ idx; b_bit ← switch_scalar resistive b_bit; s ← output idx b_bit; set_bit8 out idx s)
    (Some (vec8_new (size8 bit_)));
  Some (if (0 <? size8 out)%nat then Some out else None).

Definition pmos_output (b_en : vvp_bit4_t) (b_bit : vvp_scalar_t) : option vvp_scalar_t :=
  match b_en with
  | BIT4_0 => Some b_bit
  | BIT4_1 => scalar_of_bit4 BIT4_Z 0 0
  | _ => maybe_off b_bit
  end.

Definition pmos_generate_output_ (f : vvp_fun_pmos_) : option (vvp_fun_pmos_ * option vvp_vector8_t) :=
  out ← generate_bits (pmos_bit_ f) (pmos_resistive_ f) (fun idx => pmos_output (value (pmos_en_ f) idx)); Some (f, out).

Definition pmos_data (f : vvp_fun_pmos_) (bit : vvp_vector8_t) := pmos_generate_output_ (Pmos bit (pmos_en_ f) (inv_en_ f) (pmos_resistive_ f)).
Definition pmos_enable (f : vvp_fun_pmos_) (bit : vvp_vector4_t) :=
  pmos_generate_output_ (Pmos (pmos_bit_ f) (if inv_en_ f then copy_inverted_from_ bit else bit) (inv_en_ f) (pmos_resistive_ f)).

Definition pmos_recv_vec4 (f : vvp_fun_pmos_) (port : nat) (bit : vvp_vector4_t) : option (vvp_fun_pmos_ * option vvp_vector8_t) :=
  match port with
  | 0%nat => tmp ← vec8_of_vec4 bit 6 6; pmos_data f tmp
  | 1%nat => pmos_enable f bit
  | _ => Some (f, None)
  end.

Definition pmos_recv_vec8 (f : vvp_fun_pmos_) (port : nat) (bit : vvp_vector8_t) : option (vvp_fun_pmos_ * option vvp_vector8_t) :=
  match port with
  | 0%nat => pmos_data f bit
  | 1%nat => tmp ← reduce4 bit; pmos_enable f tmp
  | _ => Some (f, None)
  end.

Definition pmos_recv_vec4_pv (f : vvp_fun_pmos_) (port : nat) (bit : vvp_vector4_t) (base vwid : nat) : option (vvp_fun_pmos_ * option vvp_vector8_t) :=
  recv_vec4_pv_ (pmos_recv_vec4 f port) bit base vwid.
Definition pmos_recv_vec8_pv (f : vvp_fun_pmos_) (port : nat) (bit : vvp_vector8_t) (base vwid : nat) : option (vvp_fun_pmos_ * option vvp_vector8_t) :=
  recv_vec8_pv_ (pmos_recv_vec8 f port) bit base vwid.

(** ** cmos and rcmos *)

Record vvp_fun_cmos_ := Cmos { cmos_bit_ : vvp_vector8_t; n_en_ : vvp_vector4_t; p_en_ : vvp_vector4_t; cmos_resistive_ : bool }.

Definition new_cmos (resistive : bool) : vvp_fun_cmos_ := Cmos (vec8_new 0) (vec4_fill 0 BIT4_X) (vec4_fill 0 BIT4_X) resistive.

Definition cmos_output (b_n_en b_p_en : vvp_bit4_t) (b_bit : vvp_scalar_t) : option vvp_scalar_t :=
  if decide (b_n_en = BIT4_1 \/ b_p_en = BIT4_0) then Some b_bit
  else if decide (b_n_en = BIT4_0 /\ b_p_en = BIT4_1) then scalar_of_bit4 BIT4_Z 0 0
  else maybe_off b_bit.

Definition cmos_generate_output_ (f : vvp_fun_cmos_) : option (vvp_fun_cmos_ * option vvp_vector8_t) :=
  out ← generate_bits (cmos_bit_ f) (cmos_resistive_ f) (fun idx => cmos_output (value (n_en_ f) idx) (value (p_en_ f) idx)); Some (f, out).

Definition cmos_data (f : vvp_fun_cmos_) (bit : vvp_vector8_t) := cmos_generate_output_ (Cmos bit (n_en_ f) (p_en_ f) (cmos_resistive_ f)).

Definition cmos_recv_vec4 (f : vvp_fun_cmos_) (port : nat) (bit : vvp_vector4_t) : option (vvp_fun_cmos_ * option vvp_vector8_t) :=
  match port with
  | 0%nat => tmp ← vec8_of_vec4 bit 6 6; cmos_data f tmp
  | 1%nat => cmos_generate_output_ (Cmos (cmos_bit_ f) bit (p_en_ f) (cmos_resistive_ f))
  | 2%nat => cmos_generate_output_ (Cmos (cmos_bit_ f) (n_en_ f) bit (cmos_resistive_ f))
  | _ => Some (f, None)
  end.

(** [vvp_fun_cmos::recv_vec8], and [vvp_fun_rcmos::recv_vec8], which knows two ports only. *)
Definition cmos_recv_vec8 (f : vvp_fun_cmos_) (port : nat) (bit : vvp_vector8_t) : option (vvp_fun_cmos_ * option vvp_vector8_t) :=
  match port with
  | 0%nat => cmos_data f bit
  | 1%nat | 2%nat => tmp ← reduce4 bit; cmos_recv_vec4 f port tmp
  | _ => Some (f, None)
  end.

Definition rcmos_recv_vec8 (f : vvp_fun_cmos_) (port : nat) (bit : vvp_vector8_t) : option (vvp_fun_cmos_ * option vvp_vector8_t) :=
  match port with
  | 0%nat => cmos_data f bit
  | 1%nat => tmp ← reduce4 bit; cmos_recv_vec4 f port tmp
  | _ => Some (f, None)
  end.

Definition cmos_recv_vec4_pv (f : vvp_fun_cmos_) (port : nat) (bit : vvp_vector4_t) (base vwid : nat) : option (vvp_fun_cmos_ * option vvp_vector8_t) :=
  recv_vec4_pv_ (cmos_recv_vec4 f port) bit base vwid.
Definition cmos_recv_vec8_pv (f : vvp_fun_cmos_) (port : nat) (bit : vvp_vector8_t) (base vwid : nat) : option (vvp_fun_cmos_ * option vvp_vector8_t) :=
  recv_vec8_pv_ ((if cmos_resistive_ f then rcmos_recv_vec8 else cmos_recv_vec8) f port) bit base vwid.

(** ** Latches and flip-flops *)

(** What a value that arrives causes: [schedule_propagate_vector], or a vector sent. *)
Inductive flop_effect := Idle | Propagates (v : vvp_vector4_t) | SendsNow (v : vvp_vector4_t).

Record vvp_latch := Latch { latch_en_ : vvp_bit4_t; latch_d_ : vvp_vector4_t }.

Definition new_latch (width : nat) : vvp_latch := Latch BIT4_X (vec4_fill width BIT4_X).

Definition latch_recv_vec4 (f : vvp_latch) (port : nat) (bit : vvp_vector4_t) : option (vvp_latch * flop_effect) :=
  match port with
  | 0%nat => Some (Latch (latch_en_ f) bit, if decide (latch_en_ f = BIT4_1) then Propagates bit else Idle)
  | 1%nat =>
    if (size bit =? 1)%nat then
      let tmp := latch_en_ f in
      let en := value bit 0 in
      Some (Latch en (latch_d_ f), if decide (en = BIT4_1 /\ tmp <> BIT4_1) then Propagates (latch_d_ f) else Idle)
    else None
  | 2%nat => None
  | 3%nat => Some (f, SendsNow (vec4_fill (size (latch_d_ f)) BIT4_X))
  | _ => Some (f, Idle)
  end.

Record vvp_dff := Dff { clk_ : vvp_bit4_t; ena_ : vvp_bit4_t; asc_ : vvp_bit4_t; d_ : vvp_vector4_t; clk_active_ : vvp_bit4_t }.

Definition new_dff (width : nat) (negedge : bool) : vvp_dff :=
  Dff BIT4_X BIT4_X BIT4_Z (vec4_fill width BIT4_X) (if negedge then BIT4_0 else BIT4_1).

(** [recv_async] of [vvp_dff], [vvp_dff_aclr], [vvp_dff_aset] and [vvp_dff_asc]. *)
Definition dff_async (_ : nat) : option vvp_vector4_t := None.
Definition aclr_async (width : nat) : option vvp_vector4_t := Some (vec4_fill width BIT4_0).
Definition aset_async (width : nat) : option vvp_vector4_t := Some (vec4_fill width BIT4_1).
Definition asc_async (asc_value_ : vvp_vector4_t) (_ : nat) : option vvp_vector4_t := Some asc_value_.

Definition dff_recv_vec4 (recv_async : nat -> option vvp_vector4_t) (f : vvp_dff) (port : nat) (bit : vvp_vector4_t) : option (vvp_dff * flop_effect) :=
  match port with
  | 0%nat => Some (Dff (clk_ f) (ena_ f) (asc_ f) bit (clk_active_ f), Idle)
  | 1%nat =>
    if (size bit =? 1)%nat then
      if negb (bool_decide (asc_ f = BIT4_0)) then Some (f, Idle)
      else if negb (bool_decide (ena_ f = BIT4_1)) then Some (f, Idle)
      else
        let tmp := clk_ f in
        let clk := value bit 0 in
        Some (Dff clk (ena_ f) (asc_ f) (d_ f) (clk_active_ f),
              if decide (clk = clk_active_ f /\ tmp <> clk_active_ f) then Propagates (d_ f) else Idle)
    else None
  | 2%nat => if (size bit =? 1)%nat then Some (Dff (clk_ f) (value bit 0) (asc_ f) (d_ f) (clk_active_ f), Idle) else None
  | 3%nat =>
    if (size bit =? 1)%nat then
      let tmp := asc_ f in
      let asc := value bit 0 in
      let f' := Dff (clk_ f) (ena_ f) asc (d_ f) (clk_active_ f) in
      if decide (asc = BIT4_1 /\ tmp <> BIT4_1) then v ← recv_async (size (d_ f)); Some (f', Propagates v)
      else if decide (tmp = BIT4_Z) then Some (f', SendsNow (vec4_fill (size (d_ f)) BIT4_X))
      else Some (f', Idle)
    else None
  | _ => Some (f, Idle)
  end.

Definition latch_recv_vec4_pv (f : vvp_latch) (port : nat) (bit : vvp_vector4_t) (base vwid : nat) : option (vvp_latch * flop_effect) :=
  recv_vec4_pv_ (latch_recv_vec4 f port) bit base vwid.
Definition dff_recv_vec4_pv (recv_async : nat -> option vvp_vector4_t) (f : vvp_dff) (port : nat) (bit : vvp_vector4_t) (base vwid : nat) : option (vvp_dff * flop_effect) :=
  recv_vec4_pv_ (dff_recv_vec4 recv_async f port) bit base vwid.

(** ** What a value with strengths may be *)

(** A value is an interval of the line from supply 0, -7, over z, 0, to supply 1, 7. *)
Definition range (s : vvp_scalar_t) : Z * Z := (side0 s, side1 s).

(** The values that the constructor makes: one strength of one side, or all between
    one of the side of 0 and one of the side of 1. *)
Definition plain : list vvp_scalar_t :=
  b ← [BIT4_0; BIT4_1; BIT4_X]; s0 ← strengths; s1 ← strengths;
  match scalar_of_bit4 b s0 s1 with Some s => [s] | None => [] end.

(** A driver of strengths [d0] and [d1]. *)
Definition driven (d0 d1 : Z) (b : vvp_bit4_t) : Z * Z :=
  match b with BIT4_0 => (- d0, - d0) | BIT4_1 => (d1, d1) | _ => (- d0, d1) end.

(** A switch that is on, off, or one of both. *)
Inductive conduction := On | Off | Unknown.

Definition conduct (c : conduction) (r : Z * Z) : Z * Z :=
  match c with On => r | Off => (0, 0) | Unknown => (Z.min (fst r) 0, Z.max (snd r) 0) end.

Definition on_by (level : vvp_bit4_t) (b : vvp_bit4_t) : conduction :=
  if bit4_is_xz b then Unknown else if decide (b = level) then On else Off.

(** What a switch leaves of a strength. *)
Definition weaken (resistive : bool) (z : Z) : Z :=
  Z.sgn z * nth (Z.to_nat (Z.abs z)) (if resistive then [0; 1; 1; 2; 2; 3; 5; 5] else [0; 1; 2; 3; 4; 5; 6; 6]) 0.
Definition pass (resistive : bool) (r : Z * Z) : Z * Z := (weaken resistive (fst r), weaken resistive (snd r)).

Definition cmos_conduction (n p : vvp_bit4_t) : conduction :=
  match on_by BIT4_1 n, on_by BIT4_0 p with
  | On, _ | _, On => On
  | Off, Off => Off
  | _, _ => Unknown
  end.

Definition is_some_with (o : option vvp_scalar_t) (r : Z * Z) : bool :=
  match o with Some s => bool_decide (s ∈ plain) && bool_decide (range s = r) | None => false end.

Lemma is_some_with_true o r : is_some_with o r = true -> exists s, o = Some s /\ s ∈ plain /\ range s = r.
Proof. destruct o as [s|]; [|done]. cbn. rewrite andb_true_iff, !bool_decide_eq_true. intros [H1 H2]. by exists s. Qed.

Lemma plain_forall (f : vvp_scalar_t -> bool) : forallb f plain = true -> forall s, s ∈ plain -> f s = true.
Proof. intros E s Hs. rewrite forallb_forall in E. by apply E, list_elem_of_In. Qed.

Lemma bufif_table d0 d1 en b : d0 ∈ strengths -> d1 ∈ strengths ->
  exists s, bufif_scalar d0 d1 en b = Some s /\ s ∈ plain /\ range s = conduct (on_by BIT4_1 en) (driven d0 d1 b).
Proof.
  intros H0 H1. apply is_some_with_true.
  apply (strengths2_forall (fun d0 d1 => is_some_with (bufif_scalar d0 d1 en b) (conduct (on_by BIT4_1 en) (driven d0 d1 b)))); [|done..].
  by destruct en, b; vm_compute.
Qed.

Lemma pmos_table resistive en s : s ∈ plain ->
  exists u, (t ← switch_scalar resistive s; pmos_output en t) = Some u /\ u ∈ plain /\ range u = conduct (on_by BIT4_0 en) (pass resistive (range s)).
Proof.
  intros Hs. apply is_some_with_true.
  apply (plain_forall (fun s => is_some_with (t ← switch_scalar resistive s; pmos_output en t) (conduct (on_by BIT4_0 en) (pass resistive (range s))))); [|done].
  by destruct resistive, en; vm_compute.
Qed.

Lemma cmos_table resistive n p s : s ∈ plain ->
  exists u, (t ← switch_scalar resistive s; cmos_output n p t) = Some u /\ u ∈ plain /\ range u = conduct (cmos_conduction n p) (pass resistive (range s)).
Proof.
  intros Hs. apply is_some_with_true.
  apply (plain_forall (fun s => is_some_with (t ← switch_scalar resistive s; cmos_output n p t) (conduct (cmos_conduction n p) (pass resistive (range s))))); [|done].
  by destruct resistive, n, p; vm_compute.
Qed.

(** ** Vectors *)

(** A well-formed vector of plain values with the ranges of a table. *)
Definition vec_ranges (n : nat) (table : nat -> Z * Z) (v : vvp_vector8_t) : Prop :=
  wf8 v /\ size8 v = n /\ forall i, (i < n)%nat -> exists s, value8 v i = Some s /\ s ∈ plain /\ range s = table i.

(** What is sent: nothing for no bits. *)
Definition sends_ranges (n : nat) (table : nat -> Z * Z) (o : option vvp_vector8_t) : Prop :=
  match o with None => n = 0%nat | Some v => (0 < n)%nat /\ vec_ranges n table v end.

Lemma vec_ranges_ext n f g v : vec_ranges n f v -> (forall i, (i < n)%nat -> f i = g i) -> vec_ranges n g v.
Proof.
  intros (W & S & H) E. split; [done|]. split; [done|]. intros i Hi. destruct (H i Hi) as (s & E1 & E2 & E3). exists s.
  by rewrite <- E.
Qed.

(** A loop that writes every bit of a new vector. *)
Lemma send_loop n (g : nat -> option vvp_scalar_t) body (table : nat -> Z * Z) :
  (forall i v, (i < n)%nat -> size8 v = n -> body i (Some v) = (s ← g i; set_bit8 v i s)) ->
  (forall i, (i < n)%nat -> exists s, g i = Some s /\ s ∈ plain /\ range s = table i) ->
  exists v, for_loop n 0 body (Some (vec8_new n)) = Some v /\ size8 v = n /\ vec_ranges n table v.
Proof.
  intros Hbody Hg. destruct (build8 n body (fun i => default 0 (g i))) as (v & E & W & S & B).
  - intros i v Hi Hs. rewrite Hbody by done. destruct (Hg i Hi) as (s & -> & _). cbn [mbind option_bind default]. apply set_bit8_eq. lia.
  - exists v. split; [done|]. split; [done|]. split; [done|]. split; [done|]. intros i Hi. destruct (Hg i Hi) as (s & Es & Hp & Hr).
    exists s. split; [|done]. by rewrite value8_bits, B, map_seq_lookup, Es by lia.
Qed.

Lemma generate_spec bit_ resistive output (table : nat -> Z * Z) : wf8 bit_ ->
  (forall i s, (i < size8 bit_)%nat -> bits8 bit_ !! i = Some s -> exists u, (t ← switch_scalar resistive s; output i t) = Some u /\ u ∈ plain /\ range u = table i) ->
  exists o, generate_bits bit_ resistive output = Some o /\ sends_ranges (size8 bit_) table o.
Proof.
  intros W H. unfold generate_bits. match goal with |- context [for_loop _ 0 ?body _] =>
    destruct (send_loop (size8 bit_) (fun i => s ← bits8 bit_ !! i; t ← switch_scalar resistive s; output i t) body table) as (v & E & S & Hv) end.
  - intros i v Hi Hs. cbn [mbind option_bind]. rewrite value8_bits by done. destruct (bits8 bit_ !! i) as [s|]; [|done]. cbn [mbind option_bind].
    by destruct (switch_scalar resistive s).
  - intros i Hi. destruct (value8_at bit_ i W Hi) as (s & _ & Es). rewrite Es. cbn [mbind option_bind]. by apply H.
  - rewrite E. cbn [mbind option_bind]. eexists. split; [done|]. rewrite S. destruct (Nat.ltb_spec 0 (size8 bit_)); [done|]. cbn. lia.
Qed.

Definition plain_vec (v : vvp_vector8_t) : Prop := wf8 v /\ Forall (fun s => s ∈ plain) (bits8 v).

(** The range of bit [i] of the data. *)
Definition data_range (v : vvp_vector8_t) (i : nat) : Z * Z := range (default 0 (bits8 v !! i)).

(** A bit without strength comes from a strong driver. *)
Definition strong_range (b : vvp_bit4_t) : Z * Z := match b with BIT4_Z => (0, 0) | _ => driven 6 6 b end.

Lemma strong_plain v : exists u, vec8_of_vec4 v 6 6 = Some u /\ plain_vec u /\ size8 u = size v /\ map range (bits8 u) = map strong_range (bits_of v).
Proof.
  destruct (vec8_of_vec4_strong v) as (u & E & W & S & B). exists u. split; [done|]. split; [split; [done|]|split; [done|]]; rewrite B.
  - apply Forall_map, Forall_true. intros []; apply list_elem_of_In; vm_compute; tauto.
  - rewrite map_map. apply map_ext. by intros [].
Qed.

Lemma pmos_generate_spec f : plain_vec (pmos_bit_ f) ->
  exists o, pmos_generate_output_ f = Some (f, o) /\
    sends_ranges (size8 (pmos_bit_ f)) (fun i => conduct (on_by BIT4_0 (value (pmos_en_ f) i)) (pass (pmos_resistive_ f) (data_range (pmos_bit_ f) i))) o.
Proof.
  intros [W P]. unfold pmos_generate_output_. edestruct (generate_spec (pmos_bit_ f) (pmos_resistive_ f) (fun idx => pmos_output (value (pmos_en_ f) idx))) as (o & -> & Ho);
    [done| |by exists o].
  intros i s Hi Es. destruct (pmos_table (pmos_resistive_ f) (value (pmos_en_ f) i) s) as (u & Eu & Hu & Hr); [exact (Forall_lookup_1 _ _ _ _ P Es)|].
  exists u. split; [done|]. split; [done|]. rewrite Hr. unfold data_range. by rewrite Es.
Qed.

Lemma cmos_generate_spec f : plain_vec (cmos_bit_ f) ->
  exists o, cmos_generate_output_ f = Some (f, o) /\
    sends_ranges (size8 (cmos_bit_ f)) (fun i => conduct (cmos_conduction (value (n_en_ f) i) (value (p_en_ f) i)) (pass (cmos_resistive_ f) (data_range (cmos_bit_ f) i))) o.
Proof.
  intros [W P]. unfold cmos_generate_output_.
  edestruct (generate_spec (cmos_bit_ f) (cmos_resistive_ f) (fun idx => cmos_output (value (n_en_ f) idx) (value (p_en_ f) idx))) as (o & -> & Ho);
    [done| |by exists o].
  intros i s Hi Es. destruct (cmos_table (cmos_resistive_ f) (value (n_en_ f) i) (value (p_en_ f) i) s) as (u & Eu & Hu & Hr); [exact (Forall_lookup_1 _ _ _ _ P Es)|].
  exists u. split; [done|]. split; [done|]. rewrite Hr. unfold data_range. by rewrite Es.
Qed.

(** ** Devices and their inputs *)

Inductive arrival := In4 (port : nat) (bit : vvp_vector4_t) | In8 (port : nat) (bit : vvp_vector8_t).

Inductive device := DevBufif (en_invert out_invert : bool) (d0 d1 : Z) | DevMos (n resistive : bool) | DevCmos (resistive : bool).

Inductive device_state := StBufif (f : vvp_fun_bufif) | StMos (f : vvp_fun_pmos_) | StCmos (f : vvp_fun_cmos_).

Definition new_device (dv : device) : device_state :=
  match dv with
  | DevBufif en_invert out_invert d0 d1 => StBufif (new_bufif en_invert out_invert d0 d1)
  | DevMos n resistive => StMos (new_pmos n resistive)
  | DevCmos resistive => StCmos (new_cmos resistive)
  end.

Definition with_state {F} (st : F -> device_state) (r : option (F * option vvp_vector8_t)) : option (device_state * option vvp_vector8_t) :=
  '(f, o) ← r; Some (st f, o).

(** A value arrives; a bufif has the [recv_vec8] of all functors, which drops the strengths. *)
Definition device_recv (s : device_state) (a : arrival) : option (device_state * option vvp_vector8_t) :=
  match s, a with
  | StBufif f, In4 p v => with_state StBufif (bufif_recv_vec4 f p v)
  | StBufif f, In8 p v => with_state StBufif (v ← reduce4 v; bufif_recv_vec4 f p v)
  | StMos f, In4 p v => with_state StMos (pmos_recv_vec4 f p v)
  | StMos f, In8 p v => with_state StMos (pmos_recv_vec8 f p v)
  | StCmos f, In4 p v => with_state StCmos (cmos_recv_vec4 f p v)
  | StCmos f, In8 p v => with_state StCmos (if cmos_resistive_ f then rcmos_recv_vec8 f p v else cmos_recv_vec8 f p v)
  end.

(** The device after a sequence of arrivals, with what it sent last. *)
Definition device_act (s : option (device_state * option vvp_vector8_t)) (a : arrival) : option (device_state * option vvp_vector8_t) :=
  '(s, sent) ← s; '(s, o) ← device_recv s a; Some (s, match o with Some v => Some v | None => sent end).
Definition device_run (dv : device) (l : list arrival) : option (device_state * option vvp_vector8_t) :=
  fold_left device_act l (Some (new_device dv, None)).

(** The lines of a device: what the data would be behind a switch that is on, and the
    controls. *)
Record lines := Lines { on_data : list (Z * Z); control_n : bits; control_p : bits }.

Definition arrival_port (a : arrival) : nat := match a with In4 p _ | In8 p _ => p end.
Definition arrival_bits (a : arrival) : bits := match a with In4 _ v => bits_of v | In8 _ v => map scalar_value (bits8 v) end.
Definition arrival_ranges (a : arrival) : list (Z * Z) := match a with In4 _ v => map strong_range (bits_of v) | In8 _ v => map range (bits8 v) end.

Definition flip (invert : bool) (b : vvp_bit4_t) : vvp_bit4_t := if invert then bit4_not b else b.

Definition on_ranges (dv : device) (a : arrival) : list (Z * Z) :=
  match dv with
  | DevBufif _ out_invert d0 d1 => map (fun b => driven d0 d1 (flip out_invert b)) (arrival_bits a)
  | DevMos _ resistive | DevCmos resistive => map (pass resistive) (arrival_ranges a)
  end.

Definition lines_after (dv : device) (l : lines) (a : arrival) : lines :=
  match arrival_port a with
  | 0%nat => Lines (on_ranges dv a) (control_n l) (control_p l)
  | 1%nat => Lines (on_data l) (arrival_bits a) (control_p l)
  | 2%nat => Lines (on_data l) (control_n l) (arrival_bits a)
  | _ => l
  end.

(** Whether bit [i] is on: by 1 for bufif1 and nmos, by 0 for bufif0 and pmos, by
    either control for cmos.  A control that has not arrived is unknown. *)
Definition conduction_of (dv : device) (l : lines) (i : nat) : conduction :=
  match dv with
  | DevBufif en_invert _ _ _ => on_by (if en_invert then BIT4_0 else BIT4_1) (bit_at (control_n l) i)
  | DevMos n _ => on_by (if n then BIT4_1 else BIT4_0) (bit_at (control_n l) i)
  | DevCmos _ => cmos_conduction (bit_at (control_n l) i) (bit_at (control_p l) i)
  end.

(** The data of a bufif that has not arrived are x. *)
Definition undriven (dv : device) : Z * Z := match dv with DevBufif _ _ d0 d1 => (- d0, d1) | _ => (0, 0) end.

Definition device_range (dv : device) (l : lines) (i : nat) : Z * Z :=
  conduct (conduction_of dv l i) (nth i (on_data l) (undriven dv)).

(** A value that fits; see the findings for the two kinds that are excluded. *)
Definition arrival_ok (dv : device) (w : nat) (a : arrival) : Prop :=
  match a with
  | In4 _ v => vec_wf v /\ size v = w
  | In8 p v => plain_vec v /\ size8 v = w /\ ~ (dv = DevCmos true /\ p = 2%nat)
  end /\
  match dv with
  | DevBufif _ _ d0 d1 => d0 ∈ strengths /\ d1 ∈ strengths /\ (arrival_port a < 2)%nat
  | DevMos _ _ => (arrival_port a < 2)%nat
  | DevCmos _ => (arrival_port a < 3)%nat
  end.

Definition state_shows (dv : device) (w : nat) (st : device_state) (l : lines) : Prop :=
  match dv, st with
  | DevBufif en_invert out_invert d0 d1, StBufif f =>
    pol_ f = en_invert /\ inv_ f = out_invert /\ drive0_ f = d0 /\ drive1_ f = d1 /\
    (forall i, value (bufif_en_ f) i = flip en_invert (bit_at (control_n l) i)) /\
    (forall i, driven d0 d1 (value (bufif_bit_ f) i) = nth i (on_data l) (- d0, d1))
  | DevMos n resistive, StMos f =>
    inv_en_ f = n /\ pmos_resistive_ f = resistive /\ plain_vec (pmos_bit_ f) /\ (size8 (pmos_bit_ f) = 0 \/ size8 (pmos_bit_ f) = w)%nat /\
    (forall i, value (pmos_en_ f) i = flip n (bit_at (control_n l) i)) /\
    on_data l = map (pass resistive) (map range (bits8 (pmos_bit_ f)))
  | DevCmos resistive, StCmos f =>
    cmos_resistive_ f = resistive /\ plain_vec (cmos_bit_ f) /\ (size8 (cmos_bit_ f) = 0 \/ size8 (cmos_bit_ f) = w)%nat /\
    (forall i, value (n_en_ f) i = bit_at (control_n l) i) /\ (forall i, value (p_en_ f) i = bit_at (control_p l) i) /\
    on_data l = map (pass resistive) (map range (bits8 (cmos_bit_ f)))
  | _, _ => False
  end.

Definition no_output (dv : device) (l : lines) : Prop :=
  on_data l = [] /\ match dv with DevBufif _ _ _ _ => control_n l = [] | _ => True end.

Lemma flipped_value inv v i : vec_wf v -> value (if inv : bool then copy_inverted_from_ v else v) i = flip inv (bit_at (bits_of v) i).
Proof.
  intros W. rewrite <- (is_bits v _ (vec_is_bits_of v W)). destruct inv; [|done]. destruct (copy_inverted_spec v W) as (Wr & Sr & Br).
  destruct (Nat.lt_ge_cases i (size v)); [by apply Br|]. by rewrite !value_beyond by lia.
Qed.

Lemma on_by_flip0 n b : on_by BIT4_0 (flip n b) = on_by (if n then BIT4_1 else BIT4_0) b.
Proof. by destruct n, b. Qed.
Lemma on_by_flip1 n b : on_by BIT4_1 (flip n b) = on_by (if n then BIT4_0 else BIT4_1) b.
Proof. by destruct n, b. Qed.

Lemma nth_data resistive v i d : (i < size8 v)%nat -> wf8 v -> nth i (map (pass resistive) (map range (bits8 v))) d = pass resistive (data_range v i).
Proof.
  intros Hi W. unfold data_range. destruct (value8_at v i W Hi) as (s & _ & E). rewrite E. cbn [default].
  apply nth_lookup_Some. by rewrite map_map, list_lookup_fmap, E.
Qed.

(** A bufif computes its output anew for every value. *)
Lemma bufif_step ei oi d0 d1 w f l p v : (0 < w)%nat -> state_shows (DevBufif ei oi d0 d1) w (StBufif f) l -> d0 ∈ strengths -> d1 ∈ strengths ->
  vec_wf v -> size v = w -> (p < 2)%nat ->
  let l' := lines_after (DevBufif ei oi d0 d1) l (In4 p v) in
  exists f' o, bufif_recv_vec4 f p v = Some (f', Some o) /\ state_shows (DevBufif ei oi d0 d1) w (StBufif f') l' /\
    vec_ranges w (device_range (DevBufif ei oi d0 d1) l') o /\ ~ no_output (DevBufif ei oi d0 d1) l'.
Proof.
  intros Hw (Hp & Hi & H0 & H1 & Hen & Hbit) D0 D1 Wv Sv Hport l'.
  assert (Hsend : forall f', state_shows (DevBufif ei oi d0 d1) w (StBufif f') l' ->
    exists o, bufif_out f' (size v) = Some o /\ vec_ranges w (device_range (DevBufif ei oi d0 d1) l') o).
  { intros f' (Hp' & Hi' & H0' & H1' & Hen' & Hbit'). rewrite Sv. unfold bufif_out.
    match goal with |- context [for_loop _ 0 ?body _] =>
      destruct (send_loop w (fun i => bufif_scalar (drive0_ f') (drive1_ f') (value (bufif_en_ f') i) (value (bufif_bit_ f') i)) body (device_range (DevBufif ei oi d0 d1) l'))
        as (o & E & _ & Ho) end; [done| |by exists o].
    intros i Hi''. rewrite H0', H1'. destruct (bufif_table d0 d1 (value (bufif_en_ f') i) (value (bufif_bit_ f') i) D0 D1) as (s & E & P & R).
    exists s. split; [done|]. split; [done|]. rewrite R. unfold device_range, conduction_of. by rewrite Hen', on_by_flip1, Hbit'. }
  set (f' := match p with
             | O => Bufif (if inv_ f then copy_inverted_from_ v else v) (bufif_en_ f) (pol_ f) (inv_ f) (drive0_ f) (drive1_ f)
             | _ => Bufif (bufif_bit_ f) (if pol_ f then copy_inverted_from_ v else v) (pol_ f) (inv_ f) (drive0_ f) (drive1_ f)
             end).
  assert (Hf' : state_shows (DevBufif ei oi d0 d1) w (StBufif f') l').
  { destruct p as [|[|p]]; [..|lia]; cbn; do 4 (split; [done|]); (split; [|try done]); try done; intros i; rewrite flipped_value by done.
    - rewrite Hi. destruct (Nat.lt_ge_cases i (length (bits_of v))).
      + symmetry. apply nth_lookup_Some. by rewrite list_lookup_fmap, (nth_lookup_some _ i BIT4_X).
      + rewrite bit_at_beyond, nth_overflow by (rewrite ?length_map; done). by destruct oi.
    - by rewrite Hp. }
  destruct (Hsend f' Hf') as (o & E & Ho). exists f', o. split; [|split; [done|split; [done|]]].
  2: { assert (L : length (bits_of v) = w) by by rewrite length_bits_of. destruct p as [|[|p]]; [..|lia]; intros [E1 E2]; cbn in E1, E2;
         [apply (f_equal length) in E1; rewrite length_map in E1|apply (f_equal length) in E2]; cbn in *; lia. } destruct p as [|[|p]]; [..|lia]; cbn [bufif_recv_vec4]; fold f'; by rewrite E.
Qed.

(** A switch sends what its data are behind it, once data have arrived. *)
Lemma mos_step n r w f l : (0 < w)%nat -> state_shows (DevMos n r) w (StMos f) l ->
  exists o, pmos_generate_output_ f = Some (f, o) /\
    match o with Some v => vec_ranges w (device_range (DevMos n r) l) v /\ on_data l <> [] | None => on_data l = [] end.
Proof.
  intros Hw (Hn & Hr & Hp & Hs & Hen & Hd). destruct (pmos_generate_spec f Hp) as (o & E & Ho). exists o. split; [done|].
  destruct o as [v|]; cbn [sends_ranges] in Ho.
  - destruct Ho as [H0 Hv]. assert (size8 (pmos_bit_ f) = w) as Es by lia. rewrite Es in Hv. split.
    + eapply vec_ranges_ext; [exact Hv|]. intros i Hi. cbn beta. unfold device_range, conduction_of. rewrite Hen, on_by_flip0, Hd, nth_data, Hr by (apply Hp || lia). done.
    + rewrite Hd. intros E0%(f_equal length). rewrite !length_map, length_bits8 in E0 by apply Hp. cbn in E0. lia.
  - rewrite Hd. apply nil_length_inv. by rewrite !length_map, length_bits8 by apply Hp.
Qed.

Lemma cmos_step r w f l : (0 < w)%nat -> state_shows (DevCmos r) w (StCmos f) l ->
  exists o, cmos_generate_output_ f = Some (f, o) /\
    match o with Some v => vec_ranges w (device_range (DevCmos r) l) v /\ on_data l <> [] | None => on_data l = [] end.
Proof.
  intros Hw (Hr & Hp & Hs & Hn & Hpe & Hd). destruct (cmos_generate_spec f Hp) as (o & E & Ho). exists o. split; [done|].
  destruct o as [v|]; cbn [sends_ranges] in Ho.
  - destruct Ho as [H0 Hv]. assert (size8 (cmos_bit_ f) = w) as Es by lia. rewrite Es in Hv. split.
    + eapply vec_ranges_ext; [exact Hv|]. intros i Hi. cbn beta. unfold device_range, conduction_of. rewrite Hn, Hpe, Hd, nth_data, Hr by (apply Hp || lia). done.
    + rewrite Hd. intros E0%(f_equal length). rewrite !length_map, length_bits8 in E0 by apply Hp. cbn in E0. lia.
  - rewrite Hd. apply nil_length_inv. by rewrite !length_map, length_bits8 by apply Hp.
Qed.

(** A value with strengths at a control counts as its bits. *)
Lemma reduced v : plain_vec v -> exists u, reduce4 v = Some u /\ vec_wf u /\ size u = size8 v /\ bits_of u = map scalar_value (bits8 v).
Proof.
  intros [W _]. destruct (reduce4_bits v W) as (u & E & V). exists u. split; [done|]. split; [apply V|].
  split; [by rewrite (is_size _ _ V), length_map, length_bits8|by apply bits_of_is].
Qed.

Lemma value_bit_at v i : vec_wf v -> value v i = bit_at (bits_of v) i.
Proof. intros W. by rewrite <- (is_bits v _ (vec_is_bits_of v W)). Qed.

Definition step_goal (dv : device) (w : nat) (st : device_state) (l : lines) (a : arrival) : Prop :=
  exists st' o, device_recv st a = Some (st', o) /\ state_shows dv w st' (lines_after dv l a) /\
    match o with
    | Some v => vec_ranges w (device_range dv (lines_after dv l a)) v /\ ~ no_output dv (lines_after dv l a)
    | None => no_output dv (lines_after dv l a)
    end.

Lemma device_bufif ei oi d0 d1 w st l a : (0 < w)%nat -> state_shows (DevBufif ei oi d0 d1) w st l -> arrival_ok (DevBufif ei oi d0 d1) w a ->
  step_goal (DevBufif ei oi d0 d1) w st l a.
Proof.
  intros Hw H [Ha (D0 & D1 & Hp)]. destruct st as [f|f|f]; try done. destruct a as [p v|p v]; cbn [arrival_port] in Hp; unfold step_goal; cbn [device_recv].
  - destruct Ha as [Wv Sv]. destruct (bufif_step ei oi d0 d1 w f l p v Hw H D0 D1 Wv Sv Hp) as (f' & o & -> & Hs & Ho). by exists (StBufif f'), (Some o).
  - destruct Ha as (Pv & Sv & _). destruct (reduced v Pv) as (u & E & Wu & Su & Bu). rewrite E. cbn [mbind option_bind].
    destruct (bufif_step ei oi d0 d1 w f l p u Hw H D0 D1 Wu ltac:(congruence) Hp) as (f' & o & -> & Hs & Ho).
    exists (StBufif f'), (Some o). split; [done|].
    replace (lines_after (DevBufif ei oi d0 d1) l (In8 p v)) with (lines_after (DevBufif ei oi d0 d1) l (In4 p u)); [by split|].
    unfold lines_after. cbn [arrival_port on_ranges arrival_bits]. by rewrite Bu.
Qed.

Lemma device_mos n r w st l a : (0 < w)%nat -> state_shows (DevMos n r) w st l -> arrival_ok (DevMos n r) w a -> step_goal (DevMos n r) w st l a.
Proof.
  intros Hw H [Ha Hp]. destruct st as [f|f|f]; try done. pose proof H as (Hn & Hr & Hpl & Hs & Hen & Hd).
  assert (Hgo : forall f' l', state_shows (DevMos n r) w (StMos f') l' ->
    exists st' o, with_state StMos (pmos_generate_output_ f') = Some (st', o) /\ state_shows (DevMos n r) w st' l' /\
      match o with Some v => vec_ranges w (device_range (DevMos n r) l') v /\ ~ no_output (DevMos n r) l' | None => no_output (DevMos n r) l' end).
  { intros f' l' H'. destruct (mos_step n r w f' l' Hw H') as (o & -> & Ho). exists (StMos f'), o. split; [done|]. split; [done|]. destruct o; [split; [apply Ho|intros [H0 _]; by apply Ho]|by split]. }
  unfold step_goal. destruct a as [[|[|p]] v|[|[|p]] v]; cbn [arrival_port] in Hp; try lia; cbn [device_recv pmos_recv_vec4 pmos_recv_vec8].
  - destruct Ha as [Wv Sv]. destruct (strong_plain v) as (u & -> & Pu & Su & Bu). cbn [mbind option_bind]. apply Hgo. cbn. rewrite Bu.
    do 2 (split; [done|]). split; [done|]. split; [right; congruence|]. by split.
  - destruct Ha as [Wv Sv]. apply Hgo. cbn. do 4 (split; [done|]). split; [|done]. intros i. rewrite <- Hn. by apply flipped_value.
  - destruct Ha as (Pv & Sv & _). apply Hgo. cbn. do 3 (split; [done|]). split; [by right|]. by split.
  - destruct Ha as (Pv & Sv & _). destruct (reduced v Pv) as (u & -> & Wu & Su & Bu). cbn [mbind option_bind]. apply Hgo. cbn. do 4 (split; [done|]).
    split; [|done]. intros i. rewrite <- Bu, <- Hn. by apply flipped_value.
Qed.

Lemma device_cmos r w st l a : (0 < w)%nat -> state_shows (DevCmos r) w st l -> arrival_ok (DevCmos r) w a -> step_goal (DevCmos r) w st l a.
Proof.
  intros Hw H [Ha Hp]. destruct st as [f|f|f]; try done. pose proof H as (Hr & Hpl & Hs & Hn & Hpe & Hd).
  assert (Hgo : forall f' l', state_shows (DevCmos r) w (StCmos f') l' ->
    exists st' o, with_state StCmos (cmos_generate_output_ f') = Some (st', o) /\ state_shows (DevCmos r) w st' l' /\
      match o with Some v => vec_ranges w (device_range (DevCmos r) l') v /\ ~ no_output (DevCmos r) l' | None => no_output (DevCmos r) l' end).
  { intros f' l' H'. destruct (cmos_step r w f' l' Hw H') as (o & -> & Ho). exists (StCmos f'), o. split; [done|]. split; [done|]. destruct o; [split; [apply Ho|intros [H0 _]; by apply Ho]|by split]. }
  assert (Hctl : forall p v, (p = 1 \/ p = 2)%nat -> vec_wf v -> exists st' o, with_state StCmos (cmos_recv_vec4 f p v) = Some (st', o) /\
      state_shows (DevCmos r) w st' (lines_after (DevCmos r) l (In4 p v)) /\
      match o with Some u => vec_ranges w (device_range (DevCmos r) (lines_after (DevCmos r) l (In4 p v))) u /\ ~ no_output (DevCmos r) (lines_after (DevCmos r) l (In4 p v)) | None => no_output (DevCmos r) (lines_after (DevCmos r) l (In4 p v)) end).
  { intros p v [->| ->] Wv; cbn [cmos_recv_vec4]; apply Hgo; cbn; repeat (split; [done|]); [split; [|done]|split; [|done]]; intros i; by apply value_bit_at. }
  unfold step_goal. destruct a as [p v|p v]; cbn [device_recv].
  - destruct Ha as [Wv Sv]. destruct p as [|p]; [|apply Hctl; [cbn in Hp; lia|done]].
    cbn [cmos_recv_vec4]. destruct (strong_plain v) as (u & -> & Pu & Su & Bu). cbn [mbind option_bind]. apply Hgo. cbn. rewrite Bu.
    do 2 (split; [done|]). split; [right; congruence|]. by repeat split.
  - destruct Ha as (Pv & Sv & Hrc). destruct p as [|p].
    + replace (if cmos_resistive_ f then rcmos_recv_vec8 f 0 v else cmos_recv_vec8 f 0 v) with (cmos_data f v) by by destruct (cmos_resistive_ f).
      apply Hgo. cbn. do 2 (split; [done|]). split; [by right|]. by repeat split.
    + destruct (reduced v Pv) as (u & E & Wu & Su & Bu).
      replace (if cmos_resistive_ f then rcmos_recv_vec8 f (S p) v else cmos_recv_vec8 f (S p) v) with (cmos_recv_vec4 f (S p) u).
      2: { rewrite Hr. cbn in Hp. destruct r, p as [|[|p]]; try lia; cbn [rcmos_recv_vec8 cmos_recv_vec8]; rewrite ?E; try done. exfalso. by apply Hrc. }
      replace (lines_after (DevCmos r) l (In8 (S p) v)) with (lines_after (DevCmos r) l (In4 (S p) u)).
      2: { unfold lines_after. cbn [arrival_port arrival_bits]. rewrite Bu. done. }
      apply Hctl; [cbn in Hp; lia|done].
Qed.

(** ** The theorem *)

Definition lines_of (dv : device) (l : list arrival) : lines := fold_left (lines_after dv) l (Lines [] [] []).

Lemma new_device_shows dv w : state_shows dv w (new_device dv) (Lines [] [] []).
Proof.
  assert (Hx : forall i, value (vec4_fill 0 BIT4_X) i = BIT4_X) by (intros i; apply value_beyond; cbn; lia).
  assert (H0 : plain_vec (vec8_new 0)) by (split; [apply vec8_new_wf|by apply Forall_nil_2]).
  assert (Hn : forall i, bit_at [] i = BIT4_X) by by intros [].
  destruct dv as [ei oi d0 d1|n r|r]; cbn -[vec4_fill vec8_new bit_at]; repeat (split; [done|]); try (split; [by left|]); try done.
  - split; intros i; rewrite ?Hx, ?Hn; [by destruct ei|]. by destruct i.
  - split; [|done]. intros i. rewrite Hx, Hn. by destruct n.
Qed.

Lemma arrival_length dv w a : arrival_ok dv w a -> length (arrival_bits a) = w /\ length (on_ranges dv a) = w.
Proof.
  intros [Ha _]. destruct a as [p v|p v]; [destruct Ha as [_ S]|destruct Ha as ([W _] & S & _)]; split; try destruct dv;
    cbn [arrival_bits on_ranges arrival_ranges]; by rewrite ?length_map, ?length_bits_of, ?length_bits8.
Qed.

(** Once something was sent there is something to send. *)
Lemma output_stays dv w l a : (0 < w)%nat -> arrival_ok dv w a -> no_output dv (lines_after dv l a) -> no_output dv l.
Proof.
  intros Hw Ha. destruct (arrival_length dv w a Ha) as [L1 L2]. unfold no_output, lines_after.
  destruct (arrival_port a) as [|[|[|p]]]; cbn [on_data control_n]; try done; intros [H1 H2]; (split; [|destruct dv; try done]); try done.
  - rewrite H1 in L2. cbn in L2. lia.
  - rewrite H2 in L1. cbn in L1. lia.
Qed.

Definition run_shows (dv : device) (w : nat) (l : lines) (s : device_state * option vvp_vector8_t) : Prop :=
  state_shows dv w (fst s) l /\ match snd s with Some v => vec_ranges w (device_range dv l) v /\ ~ no_output dv l | None => no_output dv l end.

Lemma device_step dv w st l a : (0 < w)%nat -> state_shows dv w st l -> arrival_ok dv w a -> step_goal dv w st l a.
Proof. destruct dv; intros Hw; [by apply device_bufif|by apply device_mos|by apply device_cmos]. Qed.

(** C15. Buffers and switches send what the language says, in values that every other
    device accepts.  For bufif0, bufif1, notif0 and notif1 of any drive strengths,
    nmos, pmos, cmos and their resistive kinds, and any sequence of arrivals at data
    and controls, each as wide as the device, without strengths or with them
    ([arrival_ok]): values with strengths are those that the constructor of a value
    with a strength for 0 and one for 1 makes, and none arrives at the second control
    of an rcmos.  Then no assertion fails and no table is read beyond its end; the device
    sends nothing before there is something to send; and each bit of the vector it
    sent last is the data behind the switch where the control is on, z where it is
    off, and the interval from the data to z where the control is x, z or has not
    arrived - the data of a bufif with its drive strengths, those of a switch weakened
    as the tables say - in a well-formed vector of values as the constructor makes
    them.  The two exclusions are where the code differs from the language: a switch
    makes another value of an interval of strengths on one side
    ([one_sided_interval]), and an rcmos drops values with strengths at its second
    control ([rcmos_ignores_control]). *)
Theorem switches_correct (dv : device) (w : nat) (l : list arrival) : (0 < w)%nat -> Forall (arrival_ok dv w) l ->
  exists st sent, device_run dv l = Some (st, sent) /\
    match sent with
    | Some v => vec_ranges w (device_range dv (lines_of dv l)) v /\ ~ no_output dv (lines_of dv l)
    | None => no_output dv (lines_of dv l)
    end.
Proof.
  intros Hw Hl. unfold device_run, lines_of.
  assert (H0 : run_shows dv w (Lines [] [] []) (new_device dv, None)) by (split; [apply new_device_shows|by split; [|destruct dv]]).
  revert H0. generalize (Lines [] [] []), (new_device dv, None : option vvp_vector8_t).
  induction Hl as [|a l Ha Hl IH]; intros ls [st sent] [Hst Hs]; [by exists st, sent|]. cbn [fold_left].
  destruct (device_step dv w st ls a Hw Hst Ha) as (st' & o & E & Hst' & Ho). cbn [device_act mbind option_bind]. rewrite E. cbn [mbind option_bind].
  apply IH. split; [done|]. cbn [snd] in Hs |- *. destruct o as [v|]; [done|]. destruct sent as [v|]; [|done]. exfalso.
  apply Hs. by apply (output_stays dv w ls a).
Qed.

Lemma switches_correct_witness :
  let one := vec4_fill 1 BIT4_1 in let l := [In4 0 one; In4 1 (vec4_fill 1 BIT4_X)] in
  exists st sent, device_run (DevMos true true) l = Some (st, sent) /\
    match sent with
    | Some v => vec_ranges 1 (device_range (DevMos true true) (lines_of (DevMos true true) l)) v /\ ~ no_output (DevMos true true) (lines_of (DevMos true true) l)
    | None => no_output (DevMos true true) (lines_of (DevMos true true) l)
    end.
Proof.
  cbn zeta. apply (switches_correct (DevMos true true) 1); [lia|].
  apply list.Forall_cons_2; [|apply list.Forall_cons_2; [|by apply list.Forall_nil_2]]; (split; [|cbn; lia]); (split; [apply vec4_fill_wf|done]).
Defined.

(** The resistive nmos with data 1 and an unknown gate: between z and pull 1. *)
Example weak_and_unknown :
  device_range (DevMos true true) (lines_of (DevMos true true) [In4 0 (vec4_fill 1 BIT4_1); In4 1 (vec4_fill 1 BIT4_X)]) 0 = (0, 5).
Proof. done. Qed.

(** ** What modelling showed *)

(** A value with strengths at the second control of an rcmos is dropped. *)
Lemma rcmos_ignores_control f v : rcmos_recv_vec8 f 2 v = Some (f, None).
Proof. done. Qed.

(** The effects of a sequence of one-bit values at the ports of a flip-flop. *)
Definition dff_effects (f : vvp_dff) (l : list (nat * vvp_bit4_t)) : option (list flop_effect) :=
  r ← fold_left (fun s '(p, b) => '(f, es) ← s; '(f, e) ← dff_recv_vec4 dff_async f p (vec4_fill 1 b); Some (f, es ++ [e])) l (Some (f, []));
  Some (snd r).

(** The clock falls while the flip-flop is not enabled; the next rising edge, with the
    enable back, is not seen. *)
Lemma missed_edge :
  dff_effects (new_dff 1 false) [(3, BIT4_0); (2, BIT4_1); (0, BIT4_1); (1, BIT4_0); (1, BIT4_1); (2, BIT4_0); (1, BIT4_0); (2, BIT4_1); (0, BIT4_0); (1, BIT4_1)]%nat
  = Some [SendsNow (vec4_fill 1 BIT4_X); Idle; Idle; Idle; Propagates (vec4_fill 1 BIT4_1); Idle; Idle; Idle; Idle; Idle].
Proof. by vm_compute. Qed.

(** A weak 1 and a bufif1 that may drive a strong 1 make a value between the two, in
    the interval from 3 to 6; behind a switch it counts as a strong 1. *)
Lemma one_sided_interval : exists a b, scalar_of_bit4 BIT4_1 3 3 = Some a /\ bufif_scalar 6 6 BIT4_X BIT4_1 = Some b /\
  range (resolve a b) = (3, 6) /\ option_map range (switch_scalar false (resolve a b)) = Some (6, 6).
Proof. exists 187, 224. by vm_compute. Qed.
