(* ===== verification/EvalTree.v ===== *)
(** * EvalTree: the expressions of the net list and their evaluation by the compiler (eval_tree.cc, netmisc.cc, t-dll-expr.cc)

    [eval_tree] of an expression evaluates its operands in place and gives a new
    expression for the whole, or none: the model gives the expression as it is left
    and the optional result.  The outer [option] is a failed assertion.  Expressions
    have vector values; real operands and the calls of functions are not modelled. *)

From Stdlib Require Import Ascii.
From S2P Require Import Prelude FourState Verinum VerinumCmp VerinumArith VerinumDiv VerinumPow Codegen.
Import VNum.

Open Scope ivl_scope.

(** ** Expressions (netlist.h, net_expr.cc, netlist.cc) *)

(** The subclasses of [NetEBinary] are told apart by their operators, but for
    [NetEBMinMax]; the operator of [NetECast] is [2]. *)
Inductive NetExpr : Type :=
  | NetEConst (value : verinum)
  | NetESignal (vt : ivl_variable_type_t) (wid : nat) (sg : bool) (sig : nat)
  | NetEUnary (op : unary_op) (ex : NetExpr) (wid : nat) (sg : bool)
  | NetEUReduce (op : unary_op) (ex : NetExpr)
  | NetECast (ex : NetExpr) (wid : nat) (sg : bool)
  | NetEBinary (op : binary_op) (l r : NetExpr) (wid : nat) (sg : bool)
  | NetEBMinMax (max : bool) (l r : NetExpr) (wid : nat) (sg : bool)
  | NetETernary (c t f : NetExpr) (wid : nat) (sg : bool)
  | NetEConcat (rept : nat) (parms : list NetExpr) (wid : nat) (sg : bool) (vt : ivl_variable_type_t)
  | NetESelect (ex : NetExpr) (base : option NetExpr) (wid : nat) (sg : bool).

#[export] Instance ivl_variable_type_dec : EqDecision ivl_variable_type_t.
Proof. solve_decision. Defined.

Definition expr_width (e : NetExpr) : nat :=
  match e with
  | NetEConst v => len v
  | NetEUReduce _ _ => 1
  | NetESignal _ w _ _ | NetEUnary _ _ w _ | NetECast _ w _ | NetEBinary _ _ _ w _ | NetEBMinMax _ _ _ w _
  | NetETernary _ _ _ w _ | NetEConcat _ _ w _ _ | NetESelect _ _ w _ => w
  end.

Definition has_sign (e : NetExpr) : bool :=
  match e with
  | NetEConst v => has_sign_ v
  | NetEUReduce _ _ => false
  | NetESignal _ _ s _ | NetEUnary _ _ _ s | NetECast _ _ s | NetEBinary _ _ _ _ s | NetEBMinMax _ _ _ _ s
  | NetETernary _ _ _ _ s | NetEConcat _ _ _ s _ | NetESelect _ _ _ s => s
  end.

Definition logic_if_either (l r : ivl_variable_type_t) : ivl_variable_type_t :=
  match l, r with IVL_VT_BOOL, IVL_VT_BOOL => IVL_VT_BOOL | _, _ => IVL_VT_LOGIC end.

Fixpoint expr_type (e : NetExpr) : ivl_variable_type_t :=
  match e with
  | NetEConst v =>
    if (len v =? 0)%nat then IVL_VT_LOGIC else if string_flag_ v || is_defined v then IVL_VT_BOOL else IVL_VT_LOGIC
  | NetESignal vt _ _ _ => vt
  | NetEUnary _ ex _ _ | NetEUReduce _ ex => expr_type ex
  | NetECast _ _ _ => IVL_VT_BOOL
  | NetEBinary op l r _ _ =>
    match op with
    | B_div | B_mod => IVL_VT_LOGIC
    | B_ceq | B_cne => IVL_VT_BOOL
    | _ => logic_if_either (expr_type l) (expr_type r)
    end
  | NetEBMinMax _ l r _ _ => logic_if_either (expr_type l) (expr_type r)
  | NetETernary c t f _ _ => logic_if_either (logic_if_either (expr_type c) (expr_type t)) (expr_type f)
  | NetEConcat _ _ _ _ vt => vt
  | NetESelect ex _ _ _ => expr_type ex
  end.

Fixpoint has_width (e : NetExpr) : bool :=
  match e with
  | NetEConst v => has_len_ v
  | NetEBinary op l r _ _ =>
    match op with
    | B_eq | B_ne | B_ceq | B_cne | B_weq | B_wne | B_lt | B_le | B_gt | B_ge => true
    | B_shl | B_shr | B_sar => has_width l
    | _ => has_width l && has_width r
    end
  | NetEBMinMax _ l r _ _ => has_width l && has_width r
  | NetETernary _ t f _ _ => has_width t && has_width f
  | _ => true
  end.

(** ** The operators: [eval_arguments_] *)

Definition const1 (res : V) : NetExpr := NetEConst (verinum_fill res 1 true).

(** [ivl_assert(len == wid)] and the like *)
Definition with_assert {A} (b : bool) (k : option A) : option A := if b then k else None.

(** [NetEUnary::eval_arguments_]: [+] is dropped by the elaborator. *)
Definition unary_arguments (op : unary_op) (ex : NetExpr) : option (option NetExpr) :=
  match ex with
  | NetEConst val =>
    match op with
    | U_neg => Some (Some (NetEConst (verinum_uminus val)))
    | U_abs =>
      Some (Some (NetEConst (
        if negb (is_defined val) then for_loop (len val) 0 (fun idx val => set val idx Vx) val
        else if is_negative val then verinum_uminus val else val)))
    | U_inv => Some (Some (NetEConst (verinum_not val)))
    | U_not => None
    | _ => Some None
    end
  | _ => Some None
  end.

(** The scan of [!] for bits that are 1, x or z: it ends at the first 1. *)
Definition logical_not (val : verinum) : V :=
  let '(v1, vx) :=
    for_loop (len val) 0 (fun idx '(v1, vx) =>
      if (v1 : bool) then (v1, vx) else match bit_at val idx with V0 => (v1, vx) | V1 => (true, vx) | _ => (v1, true) end)
      (false, false) in
  if v1 then V0 else if (vx : bool) then Vx else V1.

Definition scan_and_bits (val : verinum) : V := for_loop (len val) 0 (fun idx res => V_and res (bit_at val idx)) V1.
Definition scan_or_bits (val : verinum) : V := for_loop (len val) 0 (fun idx res => V_or res (bit_at val idx)) V0.
Definition scan_xor_bits (val : verinum) : V :=
  let '(ones, unknown) :=
    for_loop (len val) 0 (fun idx '(ones, unknown) =>
      match bit_at val idx with V0 => (ones, unknown) | V1 => (S ones, unknown) | _ => (ones, S unknown) end)
      (0%nat, 0%nat) in
  if negb (unknown =? 0)%nat then Vx else if Nat.odd ones then V1 else V0.

(** [NetEUReduce::eval_arguments_] *)
Definition reduce_arguments (op : unary_op) (ex : NetExpr) : option NetExpr :=
  match ex with
  | NetEConst val =>
    match op with
    | U_not => Some (const1 (logical_not val))
    | U_and => Some (const1 (scan_and_bits val))
    | U_nand => Some (const1 (V_not (scan_and_bits val)))
    | U_or => Some (const1 (scan_or_bits val))
    | U_nor => Some (const1 (V_not (scan_or_bits val)))
    | U_xor => Some (const1 (scan_xor_bits val))
    | U_xnor => Some (const1 (V_not (scan_xor_bits val)))
    | _ => None
    end
  | _ => None
  end.

(** [NetECast::eval_arguments_], for [2] *)
Definition cast_arguments (ex : NetExpr) (wid : nat) : option NetExpr :=
  match ex with
  | NetEConst val =>
    let res_val := cast_to_int2 val in
    Some (NetEConst (if (0 <? wid)%nat then cast_to_width res_val wid else res_val))
  | _ => None
  end.

(** The assertions on the widths of both operands *)
Definition both_widths (wid : nat) (lval rval : verinum) : bool := (0 <? wid)%nat && (len lval =? wid)%nat && (len rval =? wid)%nat.

(** [NetEBAdd::eval_arguments_] *)
Definition add_arguments (op : binary_op) (l r : NetExpr) (wid : nat) : option (option NetExpr) :=
  match l, r with
  | NetEConst lval, NetEConst rval =>
    with_assert (both_widths wid lval rval)
      match op with
      | B_add => Some (Some (NetEConst (cast_to_width (verinum_plus lval rval) wid)))
      | B_sub => Some (Some (NetEConst (cast_to_width (verinum_minus lval rval) wid)))
      | _ => Some None
      end
  | _, _ => Some None
  end.

(** [NetEBMult::eval_arguments_] *)
Definition mult_arguments (l r : NetExpr) (wid : nat) : option (option NetExpr) :=
  match l, r with
  | NetEConst lval, NetEConst rval =>
    with_assert (both_widths wid lval rval) (Some (Some (NetEConst (cast_to_width (verinum_times lval rval) wid))))
  | _, _ => Some None
  end.

(** [NetEBDiv::eval_arguments_] *)
Definition div_arguments (op : binary_op) (l r : NetExpr) (wid : nat) : option (option NetExpr) :=
  match l, r with
  | NetEConst lval, NetEConst rval =>
    with_assert (both_widths wid lval rval)
      match op with
      | B_div => v ← verinum_div lval rval; Some (Some (NetEConst (cast_to_width v wid)))
      | B_mod => v ← verinum_mod lval rval; Some (Some (NetEConst (cast_to_width v wid)))
      | _ => Some None
      end
  | _, _ => Some None
  end.

(** [NetEBPow::eval_arguments_] *)
Definition pow_arguments (l r : NetExpr) (wid : nat) : option (option NetExpr) :=
  match l, r with
  | NetEConst lval, NetEConst rval =>
    with_assert ((0 <? wid)%nat && (len lval =? wid)%nat) (v ← verinum_pow lval rval; Some (Some (NetEConst (cast_to_width v wid))))
  | _, _ => Some None
  end.

(** [NetEBBits::eval_arguments_] *)
Definition bits_arguments (op : binary_op) (l r : NetExpr) (wid : nat) (sg : bool) : option (option NetExpr) :=
  match l, r with
  | NetEConst lval, NetEConst rval =>
    let zero := Some (Some (NetEConst (set_has_sign (verinum_fill V0 wid true) sg))) in
    let loop (f : V -> V -> V) :=
      with_assert (both_widths wid lval rval)
        (Some (Some (NetEConst (set_has_sign
          (for_loop wid 0 (fun idx res => set res idx (f (bit_at lval idx) (bit_at rval idx))) (verinum_fill V0 wid true)) sg)))) in
    match op with
    | B_and =>
      if truthy (verinum_eq lval (verinum_of_int64 0)) then zero
      else if truthy (verinum_eq rval (verinum_of_int64 0)) then zero
      else loop V_and
    | B_or => loop V_or
    | B_xnor => loop (fun a b => V_not (V_xor a b))
    | B_xor => loop V_xor
    | _ => with_assert (both_widths wid lval rval) (Some None)
    end
  | _, _ => Some None
  end.

(** [NetEBComp::must_be_leeq_]: whether the result is 1 whatever [le] is *)
Definition must_be_leeq_ (le : NetExpr) (rv : verinum) (eq_flag : bool) : option bool :=
  if decide (expr_type le = IVL_VT_LOGIC) then Some false
  else with_assert (0 <? expr_width le)%nat (
    let lv := verinum_fill V1 (expr_width le) true in
    let lv := if has_sign le && has_sign_ rv then set_has_sign (set lv (len lv - 1) V0) true else lv in
    Some (truthy (verinum_lt lv rv) || (eq_flag && truthy (verinum_eq lv rv)))).

(** The text shared by [eval_less_] and [eval_leeq_], and, with the operands and
    the comparison exchanged, by [eval_gt_] and [eval_gteq_]: the argument [re] is the operand
    that is looked at first. *)
Definition eval_order_ (cmp : verinum -> verinum -> V) (eq_flag : bool) (le re : NetExpr) : option (option NetExpr) :=
  match re with
  | NetEConst rv =>
    if negb (is_defined rv) then Some (Some (const1 Vx))
    else
      must ← must_be_leeq_ le rv eq_flag;
      if (must : bool) then Some (Some (const1 V1))
      else match le with
           | NetEConst lv =>
             if negb (is_defined lv) then Some (Some (const1 Vx))
             else Some (Some (const1 (if truthy (cmp lv rv) then V1 else V0)))
           | _ => Some None
           end
  | _ => Some None
  end.

Definition eval_less_ (le re : NetExpr) := eval_order_ verinum_lt false le re.
Definition eval_leeq_ (le re : NetExpr) := eval_order_ verinum_le true le re.
Definition eval_gt_ (le re : NetExpr) := eval_order_ (fun r l => verinum_gt l r) false re le.
Definition eval_gteq_ (le re : NetExpr) := eval_order_ (fun r l => verinum_ge l r) true re le.

(** A loop over the bits of two numbers with [break]: [step] gives the new result
    and whether the loop ends. *)
Definition scan_pairs (step : V -> V -> V -> V * bool) (lv rv : verinum) (res : V) : V :=
  fst (for_loop (len lv) 0 (fun idx '(res, ended) => if (ended : bool) then (res, ended) else step (bit_at lv idx) (bit_at rv idx) res) (res, false)).

Definition unknown_V (b : V) : bool := match b with Vx | Vz => true | _ => false end.

Definition equality_arguments (scan : verinum -> verinum -> V) (le re : NetExpr) : option (option NetExpr) :=
  match le, re with
  | NetEConst lv, NetEConst rv => with_assert (len lv =? len rv)%nat (Some (Some (const1 (scan lv rv))))
  | _, _ => Some None
  end.

Definition eval_eqeq_ (ne_flag : bool) : NetExpr -> NetExpr -> option (option NetExpr) :=
  equality_arguments (fun lv rv =>
    scan_pairs (fun l r res =>
      if unknown_V l || unknown_V r then (Vx, false)
      else if decide (r <> l) then (if ne_flag then V1 else V0, true) else (res, false)) lv rv (if ne_flag then V0 else V1)).

Definition eval_eqeqeq_ (ne_flag : bool) : NetExpr -> NetExpr -> option (option NetExpr) :=
  equality_arguments (fun lv rv =>
    let res := scan_pairs (fun l r res => if decide (l <> r) then (V0, true) else (res, false)) lv rv V1 in
    if ne_flag then (if decide (res = V0) then V1 else V0) else res).

Definition eval_weqeq_ (ne_flag : bool) : NetExpr -> NetExpr -> option (option NetExpr) :=
  equality_arguments (fun lv rv =>
    scan_pairs (fun l r res =>
      if unknown_V r then (res, false)
      else if unknown_V l then (Vx, false)
      else if decide (r <> l) then (if ne_flag then V1 else V0, true) else (res, false)) lv rv (if ne_flag then V0 else V1)).

(** [NetEBComp::eval_arguments_] *)
Definition comp_arguments (op : binary_op) (l r : NetExpr) : option (option NetExpr) :=
  match op with
  | B_ceq => eval_eqeqeq_ false l r
  | B_eq => eval_eqeq_ false l r
  | B_weq => eval_weqeq_ false l r
  | B_ge => eval_gteq_ l r
  | B_le => eval_leeq_ l r
  | B_cne => eval_eqeqeq_ true l r
  | B_ne => eval_eqeq_ true l r
  | B_wne => eval_weqeq_ true l r
  | B_lt => eval_less_ l r
  | B_gt => eval_gt_ l r
  | _ => Some None
  end.

(** The scan of [NetEBLogic::eval_arguments_] for a 1. *)
Definition truth_of (v : verinum) : V :=
  let lv := if existsb (fun b => bool_decide (b = V1)) (bits_ v) then V1 else V0 in
  if bool_decide (lv = V0) && negb (is_defined v) then Vx else lv.

(** [NetEBLogic::eval_arguments_] *)
Definition logic_arguments (op : binary_op) (l r : NetExpr) : option NetExpr :=
  match l, r with
  | NetEConst lc, NetEConst rc =>
    let lv := truth_of lc in
    let rv := truth_of rc in
    match op with
    | B_land =>
      Some (const1 (if decide (lv = V0 \/ rv = V0) then V0 else if decide (lv = V1 /\ rv = V1) then V1 else Vx))
    | B_lor =>
      Some (const1 (if decide (lv = V1 \/ rv = V1) then V1 else if decide (lv = V0 /\ rv = V0) then V0 else Vx))
    | B_impl =>
      Some (const1 (if decide (lv = V0 \/ rv = V1) then V1 else if decide (lv = V1 /\ rv = V0) then V0 else Vx))
    | B_equiv =>
      Some (const1 (if decide (lv = V0 /\ rv = V0 \/ lv = V1 /\ rv = V1) then V1
                    else if decide (lv = V0 /\ rv = V1 \/ lv = V1 /\ rv = V0) then V0 else Vx))
    | _ => None
    end
  | NetEConst v, _ =>
    match op with
    | B_land => if is_zero v then Some (const1 V0) else None
    | B_lor => if negb (is_zero v) && is_defined v then Some (const1 V1) else None
    | B_impl => if is_zero v then Some (const1 V1) else None
    | _ => None
    end
  | _, _ => None
  end.

(** [NetEBMinMax::eval_arguments_] *)
Definition min_max_arguments (max : bool) (l r : NetExpr) (wid : nat) (sg : bool) : option (option NetExpr) :=
  match l, r with
  | NetEConst lval, NetEConst rval =>
    with_assert (both_widths wid lval rval)
      (let res_val :=
         if is_defined lval && is_defined rval then
           if truthy (if max then verinum_gt lval rval else verinum_lt lval rval) then lval else rval
         else verinum_fill Vx wid true in
       Some (Some (NetEConst (set_has_sign res_val sg))))
  | _, _ => Some None
  end.

(** [NetEBShift::eval_arguments_] *)
Definition shift_arguments (op : binary_op) (l r : NetExpr) (wid : nat) (sg : bool) : option (option NetExpr) :=
  match l, r with
  | NetEConst lv, NetEConst rv =>
    let result v := Some (Some (NetEConst (set_has_sign v sg))) in
    with_assert ((0 <? wid)%nat && (len lv =? wid)%nat)
      (if is_defined rv then
         let shift := Z.to_nat (as_unsigned rv) in
         match op with
         | B_shl => result (cast_to_width (verinum_shl lv shift) wid)
         | B_shr => result (cast_to_width (verinum_shr (set_has_sign lv false) shift) wid)
         | B_sar => result (cast_to_width (verinum_shr lv shift) wid)
         | _ => Some None
         end
       else result (verinum_fill Vx wid true))
  | _, _ => Some None
  end.

Definition binary_arguments (op : binary_op) (l r : NetExpr) (wid : nat) (sg : bool) : option (option NetExpr) :=
  match op with
  | B_add | B_sub => add_arguments op l r wid
  | B_mul => mult_arguments l r wid
  | B_div | B_mod => div_arguments op l r wid
  | B_pow => pow_arguments l r wid
  | B_and | B_or | B_xor | B_nand | B_nor | B_xnor => bits_arguments op l r wid sg
  | B_eq | B_ne | B_ceq | B_cne | B_weq | B_wne | B_lt | B_le | B_gt | B_ge => comp_arguments op l r
  | B_land | B_lor | B_impl | B_equiv => Some (logic_arguments op l r)
  | B_shl | B_shr | B_sar => shift_arguments op l r wid sg
  end.

(** The rest of [NetEBAdd::eval_tree]: [(a + 2) - 1] becomes [a + 1]. *)
Definition combine_constants (op : binary_op) (l r : NetExpr) (wid : nat) (sg : bool) : option NetExpr :=
  match op, l, r with
  | (B_add | B_sub), NetEBinary ((B_add | B_sub) as se_op) a (NetEConst lval) _ _, NetEConst rval =>
    with_assert (both_widths wid lval rval)
      (let val := cast_to_width (if decide (op = se_op) then verinum_plus rval lval else verinum_minus rval lval) wid in
       Some (NetEBinary op a (NetEConst val) wid sg))
  | _, _, _ => Some (NetEBinary op l r wid sg)
  end.

(** [NetEConcat::eval_arguments_]: the parameters from the last to the first; the
    state is the value, the next bit and whether all were strings. *)
Definition concat_part (rept gap : nat) (s : option (verinum * nat * bool)) (parm : NetExpr) : option (verinum * nat * bool) :=
  '(val, cur, is_string_flag) ← s;
  match parm with
  | NetEConst tmp =>
    let val :=
      for_loop (len tmp) 0 (fun bit val =>
        for_loop rept 0 (fun rep val => set val (rep * gap + (cur + bit)) (bit_at tmp bit)) val) val in
    Some (val, (cur + len tmp)%nat, is_string_flag && string_flag_ tmp)
  | _ => None
  end.

Definition concat_arguments (rept : nat) (parms : list NetExpr) (gap : nat) (sg : bool) : option (option NetExpr) :=
  match fold_left (concat_part rept gap) (rev parms) (Some (verinum_fill Vx (rept * gap) true, 0%nat, true)) with
  | Some (val, _, is_string_flag) =>
    val ← (if (is_string_flag : bool) then s ← as_string val; verinum_of_string s else Some val);
    Some (Some (NetEConst (set_has_sign val sg)))
  | None => Some None
  end.

(** The loop of [NetESelect::eval_tree] *)
Definition select_bits (eval : verinum) (bval : Z) (pad_bit : V) (wid : nat) : verinum :=
  for_loop wid 0 (fun idx oval =>
    let b := bval + Z.of_nat idx in
    set oval idx (if (0 <=? b) && (b <? Z.of_nat (len eval)) then bit_at eval (Z.to_nat b) else pad_bit))
    (verinum_fill V0 wid true).

Definition select_arguments (ex : NetExpr) (base : option NetExpr) (wid : nat) (sg : bool) : option NetExpr :=
  match ex, base with
  | NetEConst eval, None =>
    Some (NetEConst (set_has_sign (select_bits eval 0 (if sg then bit_at eval (len eval - 1) else V0) wid) sg))
  | NetEConst eval, Some (NetEConst base) =>
    Some (NetEConst (set_has_sign (select_bits eval (as_long base) Vx wid) sg))
  | _, _ => None
  end.

(** [const_logical]; [C_NON] for an expression that is not constant. *)
Inductive const_bool := C_0 | C_1 | C_X | C_NON.

Definition const_logical (e : NetExpr) : const_bool :=
  match e with
  | NetEConst cval =>
    fst (for_loop (len cval) 0 (fun idx '(res, ended) =>
      if (ended : bool) then (res, ended)
      else match bit_at cval idx with
           | V1 => (C_1, true)
           | V0 => (res, false)
           | _ => (match res with C_0 => C_X | _ => res end, false)
           end) (C_0, false))
  | _ => C_NON
  end.

(** [NetETernary::blended_arguments_] *)
Definition blended_arguments_ (te fe : NetExpr) (sg : bool) : option NetExpr :=
  match te, fe with
  | NetEConst t, NetEConst f =>
    let rsize := Nat.max (len t) (len f) in
    Some (NetEConst (set_has_sign
      (for_loop rsize 0 (fun idx val =>
         let tv := if (idx <? len t)%nat then bit_at t idx else V0 in
         let fv := if (idx <? len f)%nat then bit_at f idx else V0 in
         set val idx (if decide (tv = fv) then tv else Vx)) (verinum_fill V0 rsize true)) sg))
  | _, _ => None
  end.

(** ** [eval_tree] and [eval_expr] *)

Definition is_const (e : NetExpr) : bool := match e with NetEConst _ => true | _ => false end.

(** [if (tmp != 0) { delete expr; expr = tmp; }] *)
Definition replaced (r : NetExpr * option NetExpr) : NetExpr := default (fst r) (snd r).

Fixpoint eval_tree (e : NetExpr) : option (NetExpr * option NetExpr) :=
  let eval_expr e := r ← eval_tree e; Some (replaced r) in
  match e with
  | NetEConst _ | NetESignal _ _ _ _ => Some (e, None)
  | NetEUnary op ex wid sg =>
    ex ← eval_expr ex; res ← unary_arguments op ex; Some (NetEUnary op ex wid sg, res)
  | NetEUReduce op ex => ex ← eval_expr ex; Some (NetEUReduce op ex, reduce_arguments op ex)
  | NetECast ex wid sg => ex ← eval_expr ex; Some (NetECast ex wid sg, cast_arguments ex wid)
  | NetEBinary op l r wid sg =>
    l ← eval_expr l;
    r ← eval_expr r;
    res ← binary_arguments op l r wid sg;
    match res with
    | Some res => Some (NetEBinary op l r wid sg, Some res)
    | None => self ← combine_constants op l r wid sg; Some (self, None)
    end
  | NetEBMinMax max l r wid sg =>
    l ← eval_expr l; r ← eval_expr r; res ← min_max_arguments max l r wid sg; Some (NetEBMinMax max l r wid sg, res)
  | NetETernary c t f wid sg =>
    c ← eval_expr c;
    match const_logical c with
    | C_0 => f ← eval_expr f; t ← eval_expr t; Some (NetETernary c t f wid sg, Some f)
    | C_1 => t ← eval_expr t; f ← eval_expr f; Some (NetETernary c t f wid sg, Some t)
    | C_X => t ← eval_expr t; f ← eval_expr f; Some (NetETernary c t f wid sg, blended_arguments_ t f sg)
    | C_NON => Some (NetETernary c t f wid sg, None)
    end
  | NetEConcat rept parms wid sg vt =>
    (* the parameters, their width so far, and the errors *)
    '(parms, gap, local_errors) ←
      (fix eval_parms (parms : list NetExpr) : option (list NetExpr * nat * bool) :=
         match parms with
         | [] => Some ([], 0%nat, false)
         | p :: parms =>
           r ← eval_tree p;
           '(parms, gap, local_errors) ← eval_parms parms;
           if is_const p then Some (p :: parms, (expr_width p + gap)%nat, local_errors)
           else match snd r with
                | Some expr =>
                  Some (expr :: parms, (expr_width expr + gap)%nat,
                        local_errors || negb (has_width expr) || (expr_width expr =? 0)%nat)
                | None => Some (fst r :: parms, gap, local_errors)
                end
         end) parms;
    let self := NetEConcat rept parms wid sg vt in
    if (local_errors : bool) then Some (self, None)
    else res ← concat_arguments rept parms gap sg; Some (self, res)
  | NetESelect ex base wid sg =>
    ex ← eval_expr ex;
    base ← match base with Some b => b ← eval_expr b; Some (Some b) | None => Some None end;
    Some (NetESelect ex base wid sg, select_arguments ex base wid sg)
  end.

(** [eval_expr] of netmisc.cc without a context width *)
Definition eval_expr (e : NetExpr) : option NetExpr := r ← eval_tree e; Some (replaced r).

(** ** The expression for the code generator (t-dll-expr.cc) *)

Definition char_of_V (b : V) : ascii :=
  match b with V0 => "0" | V1 => "1" | Vx => "x" | Vz => "z" end%char.

Definition attr (e : NetExpr) : ivl_attr := Attr (expr_type e) (expr_width e) (has_sign e).

Definition expr_const (v : verinum) : option ivl_expr_t :=
  let a := attr (NetEConst v) in
  if string_flag_ v then s ← as_string v; Some (IVL_EX_STRING (Attr (value_ a) (width_ a) false) s)
  else Some (IVL_EX_NUMBER a (map char_of_V (bits_ v))).

(** [expr_scan]; the operators of [NetEBMinMax] are not among those of the
    generator that are modelled. *)
Fixpoint expr_scan (e : NetExpr) : option ivl_expr_t :=
  match e with
  | NetEConst v => expr_const v
  | NetESignal _ _ _ sig => Some (IVL_EX_SIGNAL (attr e) sig)
  | NetEUnary op ex _ _ | NetEUReduce op ex => sub ← expr_scan ex; Some (IVL_EX_UNARY (attr e) op sub)
  | NetECast ex _ _ => sub ← expr_scan ex; Some (IVL_EX_UNARY (attr e) U_cast2 sub)
  | NetEBinary op l r _ _ => left ← expr_scan l; rght ← expr_scan r; Some (IVL_EX_BINARY (attr e) op left rght)
  | NetEBMinMax _ _ _ _ _ => None
  | NetETernary c t f _ _ => c ← expr_scan c; t ← expr_scan t; f ← expr_scan f; Some (IVL_EX_TERNARY (attr e) c t f)
  | NetEConcat rept parms _ _ _ =>
    parms ← (fix scan_parms (parms : list NetExpr) : option (list ivl_expr_t) :=
               match parms with [] => Some [] | p :: parms => p ← expr_scan p; ps ← scan_parms parms; Some (p :: ps) end) parms;
    Some (IVL_EX_CONCAT (attr e) rept parms)
  | NetESelect ex base _ _ =>
    ex ← expr_scan ex;
    base ← match base with Some b => b ← expr_scan b; Some (Some b) | None => Some None end;
    Some (IVL_EX_SELECT (attr e) ex base)
  end.
