(* ===== verification/EvalTreeSpec.v ===== *)
(** * EvalTreeSpec: the operators of constant folding

    The folding of constants computes with [verinum], the machine with packed
    vectors; both are related to the operators of the language on lists of bits.
    [vbits] gives the bits of a [verinum]; a lemma on an operator says that the
    number that is computed is the [answer]: it has the bits that the operator gives. *)

From Stdlib Require Import Ascii.
From S2P Require Import Prelude FourState Vector4 Vector4Conv Bits ThreadSpec ThreadData ThreadDivSpec Codegen ExprSem CodegenNumber CodegenSelect.
From S2P Require Import Verinum VerinumValue VerinumCmp VerinumArith VerinumConv VerinumDiv VerinumPow EvalTree.
Import Bit4 VNum.

Open Scope ivl_scope.

(** ** The bits of a number *)

Definition vbits (v : verinum) : bits := map bit4_of_V (bits_ v).

(** What the constants of an elaborated expression are: [PENumber::elaborate_expr]
    casts them to a width. *)
Definition sized (v : verinum) : bool := has_len_ v && negb (is_single_ v) && negb (string_flag_ v) && (0 <? len v)%nat.

Lemma sized_spec v : sized v = true <-> has_len_ v = true /\ is_single_ v = false /\ string_flag_ v = false /\ (0 < len v)%nat.
Proof. unfold sized. rewrite !andb_true_iff, !negb_true_iff, Nat.ltb_lt. tauto. Qed.

Lemma sized_wf v : sized v = true -> wf v.
Proof. intros (_ & _ & _ & H)%sized_spec _. done. Qed.

Lemma length_vbits v : length (vbits v) = len v.
Proof. apply length_map. Qed.

Lemma vbits_at v i : (i < len v)%nat -> Bits.bit_at (vbits v) i = bit4_of_V (bit_at v i).
Proof.
  intros Hi. unfold Bits.bit_at, vbits, bit_at, len in *. rewrite (nth_indep _ _ (bit4_of_V V0)) by (rewrite length_map; lia).
  rewrite map_nth. f_equal. rewrite <- nth_lookup. done.
Qed.

Lemma vbits_map (f : nat -> V) n hl hs sg st : vbits (Verinum (map f (seq 0 n)) hl hs sg st) = map_bits n (fun i => bit4_of_V (f i)).
Proof. unfold vbits, map_bits. cbn [bits_]. by rewrite map_map. Qed.

Lemma vbits_fill b n h : vbits (verinum_fill b n h) = repeat (bit4_of_V b) n.
Proof. unfold vbits, verinum_fill. cbn [bits_]. induction n as [|n IH]; [done|]. cbn. by rewrite IH. Qed.

Lemma vbits_eq v l : len v = length l -> (forall i, (i < len v)%nat -> bit4_of_V (bit_at v i) = Bits.bit_at l i) -> vbits v = l.
Proof. intros Hl Hb. apply bits_eq; [by rewrite length_vbits|]. rewrite length_vbits. intros i Hi. rewrite vbits_at by done. by apply Hb. Qed.

Lemma is_one_V b : Bits.is_one (bit4_of_V b) = is_one b.
Proof. by destruct b. Qed.

Lemma unknown_vbits v : has_unknown (vbits v) = negb (is_defined v).
Proof.
  unfold has_unknown, vbits, is_defined. induction (bits_ v) as [|b l IH]; [done|]. cbn. rewrite IH. by destruct b.
Qed.

Lemma unum_vbits v : unum (vbits v) = uval (bits_ v).
Proof.
  unfold unum, uval. rewrite length_vbits. apply Zbits_ext. intros i Hi. rewrite vbits_at by done. apply is_one_V.
Qed.

Lemma num_vbits s v : wf v -> num s (vbits v) = if s && is_one (bit_at v (len v - 1)) && (0 <? len v)%nat then uval (bits_ v) - 2 ^ Z.of_nat (len v) else uval (bits_ v).
Proof.
  intros _. unfold num. rewrite unum_vbits, length_vbits. destruct (Nat.ltb_spec 0 (len v)) as [Hl|Hl].
  - by rewrite vbits_at, is_one_V, andb_true_r by lia.
  - unfold Bits.bit_at. rewrite nth_overflow by (rewrite length_vbits; lia). cbn. by rewrite !andb_false_r.
Qed.

Lemma num_value v : sized v = true -> num (has_sign_ v) (vbits v) = value v.
Proof. intros Hs. rewrite num_vbits by by apply sized_wf. apply sized_spec in Hs as (_ & _ & _ & Hl). rewrite (proj2 (Nat.ltb_lt _ _)), andb_true_r by done. done. Qed.

Lemma num_cmp s v : sized v = true -> (s = true -> has_sign_ v = true) -> num s (vbits v) = cmp_value s v.
Proof.
  intros Hv Hs. destruct s; cbn [cmp_value]; [rewrite <- (num_value v Hv), Hs by done; done|].
  unfold num. cbn [andb]. apply unum_vbits.
Qed.

Lemma vbits_of_Z v z : is_defined v = true -> uval (bits_ v) = z mod 2 ^ Z.of_nat (len v) -> vbits v = bits_of_Z (len v) z.
Proof.
  intros Hd Hu. pose proof (bits_of_num false (vbits v)) as E. rewrite unknown_vbits, Hd, length_vbits in E.
  rewrite <- E by done. apply bits_of_Z_mod. unfold num. cbn [andb]. rewrite unum_vbits, Hu. apply Z.mod_mod.
  pose proof (pow2_pos (Z.of_nat (len v))). lia.
Qed.

Lemma value_mod v : value v mod 2 ^ Z.of_nat (len v) = unum (vbits v) mod 2 ^ Z.of_nat (len v).
Proof. rewrite unum_vbits, uval_mod. symmetry. apply Z.mod_mod. pose proof (pow2_pos (Z.of_nat (len v))). lia. Qed.

(** The number [v] is the answer [l]. *)
Record answer (v : verinum) (l : bits) (sg : bool) : Prop := Answer {
  a_sized : sized v = true;
  a_bits : vbits v = l;
  a_sign : has_sign_ v = sg;
}.

Lemma answer_len v l sg : answer v l sg -> len v = length l.
Proof. intros [_ <- _]. by rewrite length_vbits. Qed.

Lemma answer_map (f : nat -> V) n sg l : (0 < n)%nat -> map_bits n (fun i => bit4_of_V (f i)) = l ->
  answer (set_has_sign (for_loop n 0 (fun idx r => set r idx (f idx)) (verinum_fill V0 n true)) sg) l sg.
Proof.
  intros Hn <-. change (for_loop n 0 _ _) with (copy_loop n f (verinum_fill V0 n true)).
  rewrite copy_loop_eq by (unfold len; cbn; by rewrite length_replicate). cbn [verinum_fill bits_ has_len_ has_sign_ is_single_ string_flag_].
  rewrite drop_ge, app_nil_r by by rewrite length_replicate. split; [|apply vbits_map|done].
  apply sized_spec. cbn. unfold len. cbn. rewrite length_map, length_seq. done.
Qed.

Lemma answer_fill b n sg : (0 < n)%nat -> answer (set_has_sign (verinum_fill b n true) sg) (repeat (bit4_of_V b) n) sg.
Proof.
  intros Hn. split; [|exact (vbits_fill b n true)|done]. apply sized_spec. unfold len. cbn. by rewrite length_replicate.
Qed.

Lemma answer_xs n sg : (0 < n)%nat -> answer (undefined_result n true sg) (xs n) sg.
Proof. apply (answer_fill Vx). Qed.

Lemma answer_bit b : answer (verinum_fill b 1 true) [bit4_of_V b] false.
Proof. apply (answer_fill b 1 false). lia. Qed.

Lemma set_sign_same v : set_has_sign v (has_sign_ v) = v.
Proof. by destruct v. Qed.

Lemma cast_same v w : has_len_ v = true -> len v = w -> cast_to_width v w = v.
Proof. intros Hl <-. unfold cast_to_width. by rewrite Hl, Nat.eqb_refl. Qed.

Lemma trim_sized v : has_len_ v = true -> trim_vnum v = v.
Proof. intros Hl. unfold trim_vnum. by rewrite Hl. Qed.

(** A number that the integer lemmas describe. *)
Lemma answer_number v w z sg : has_len_ v = true -> is_single_ v = false -> string_flag_ v = false -> (0 < w)%nat -> len v = w ->
  is_defined v = true -> has_sign_ v = sg -> uval (bits_ v) = z mod 2 ^ Z.of_nat w -> answer v (bits_of_Z w z) sg.
Proof.
  intros Hl Hs Ht Hw Hn Hd Hg Hu. split; [by apply sized_spec; rewrite Hn|subst w; by apply vbits_of_Z|done].
Qed.

(** ** The operators *)

Section Columns.
Context (l r : verinum) (w : nat).
Context (Hl : sized l = true) (Hr : sized r = true) (Wl : len l = w) (Wr : len r = w).

Lemma columns_answer z v : (0 < w)%nat -> columns_result z w true (has_sign_ l && has_sign_ r) false v -> is_single_ v = false -> string_flag_ v = false ->
  answer v (bits_of_Z w z) (has_sign_ l && has_sign_ r).
Proof using.
  intros Hw (H1 & H2 & H3 & H4 & H5 & _) Hs Ht. assert (len v = w) as Hn by (destruct H5 as [->|[_ ?]]; done).
  rewrite Hn in H4. by apply answer_number.
Qed.

(** Sums, differences and products, x when an operand is not defined. *)
Lemma arith_answer (f : Z -> Z -> Z) v : (0 < w)%nat ->
  (forall a b, f a b mod 2 ^ Z.of_nat w = f (a mod 2 ^ Z.of_nat w) (b mod 2 ^ Z.of_nat w) mod 2 ^ Z.of_nat w) ->
  (is_defined l = true -> is_defined r = true -> answer v (bits_of_Z w (f (value l) (value r))) (has_sign_ l && has_sign_ r)) ->
  (negb (is_defined l) || negb (is_defined r) = true -> v = undefined_result w true (has_sign_ l && has_sign_ r)) ->
  answer v (arith2 false f (vbits l) (vbits r)) (has_sign_ l && has_sign_ r).
Proof using Hl Hr Wl Wr.
  intros Hw Hf Hd Hx. unfold arith2, arith. rewrite !unknown_vbits, length_vbits, Wl.
  destruct (negb (is_defined l) || negb (is_defined r)) eqn:E; [rewrite Hx by done; by apply answer_xs|].
  apply orb_false_iff in E as [E1%negb_false_iff E2%negb_false_iff]. specialize (Hd E1 E2).
  erewrite bits_of_Z_mod; [exact Hd|]. cbn beta. unfold num. cbn [andb].
  rewrite Hf, (Hf (value l)). f_equal. pose proof (value_mod l) as Ml. pose proof (value_mod r) as Mr. rewrite Wl in Ml. rewrite Wr in Mr. by rewrite Ml, Mr.
Qed.

Lemma defined_flags : has_len_ l && has_len_ r = true /\ Nat.max (len l) (len r) = w.
Proof using Hl Hr Wl Wr. apply sized_spec in Hl as (-> & _), Hr as (-> & _). split; [done|lia]. Qed.

Lemma sized_pos : (0 < w)%nat.
Proof using Hl Wl. rewrite <- Wl. by apply sized_spec in Hl as (_ & _ & _ & H). Qed.

Lemma plus_answer : answer (verinum_plus l r) (arith2 false Z.add (vbits l) (vbits r)) (has_sign_ l && has_sign_ r).
Proof using Hl Hr Wl Wr.
  destruct defined_flags as [Hh Hm]. apply arith_answer; [apply sized_pos|intros; apply Z.add_mod; pose proof (pow2_pos (Z.of_nat w)); lia| |].
  - intros D1 D2. pose proof (verinum_plus_columns l r D1 (sized_wf l Hl) D2 (sized_wf r Hr)) as C. rewrite Hh, Hm in C.
    apply columns_answer; [apply sized_pos|exact C| |]; unfold verinum_plus; rewrite D1, D2, Hh; cbn [negb orb]; by destruct (add_columns _ _ _ _).
  - intros E. unfold verinum_plus. by rewrite E, Hh, Hm.
Qed.

Lemma minus_answer : answer (verinum_minus l r) (arith2 false Z.sub (vbits l) (vbits r)) (has_sign_ l && has_sign_ r).
Proof using Hl Hr Wl Wr.
  destruct defined_flags as [Hh Hm]. apply arith_answer; [apply sized_pos|intros; apply Zminus_mod| |].
  - intros D1 D2. pose proof (verinum_minus_columns l r D1 (sized_wf l Hl) D2 (sized_wf r Hr)) as C. rewrite Hh, Hm, andb_false_r in C.
    apply columns_answer; [apply sized_pos|exact C| |]; unfold verinum_minus; rewrite D1, D2, Hh; cbn [negb orb]; rewrite andb_false_r; by destruct (add_columns _ _ _ _).
  - intros E. unfold verinum_minus. by rewrite E, Hh, Hm.
Qed.

Lemma times_answer : answer (verinum_times l r) (arith2 false Z.mul (vbits l) (vbits r)) (has_sign_ l && has_sign_ r).
Proof using Hl Hr Wl Wr.
  destruct defined_flags as [Hh Hm]. apply arith_answer; [apply sized_pos|intros; apply Z.mul_mod; pose proof (pow2_pos (Z.of_nat w)); lia| |].
  - intros D1 D2. destruct (verinum_times_columns l r D1 (sized_wf l Hl) D2 (sized_wf r Hr)) as (p & E & C).
    assert (Hp : has_len_ p = true) by (destruct C as [-> _]; done). rewrite E, trim_sized by done.
    assert (Ep : p = verinum_times l r) by by rewrite E, trim_sized.
    unfold times_len in C. rewrite Hh, Hm in C. apply columns_answer; [apply sized_pos|exact C| |];
      rewrite Ep; unfold verinum_times; rewrite D1, D2, Hh; cbn [negb orb]; by rewrite trim_sized.
  - intros E. unfold verinum_times. by rewrite E, Hh, Hm.
Qed.
End Columns.

Lemma uminus_answer v : sized v = true -> answer (verinum_uminus v) (neg_bits (vbits v)) (has_sign_ v).
Proof.
  intros Hv. pose proof Hv as (Hh & _ & _ & Hw)%sized_spec. unfold neg_bits, arith. rewrite unknown_vbits, length_vbits.
  destruct (is_defined v) eqn:Hd; cbn [negb].
  - pose proof (verinum_uminus_columns v Hd (sized_wf v Hv)) as C. rewrite Hh, andb_false_r in C.
    destruct C as (H1 & H2 & H3 & H4 & H5 & _). assert (len (verinum_uminus v) = len v) as Hn by (destruct H5 as [->|[_ ?]]; done).
    rewrite Hn in H4. apply answer_number; try done; try (unfold verinum_uminus; rewrite Hd, Hh; cbn [negb]; rewrite andb_false_r; by destruct (ripple _ _ _ _ _)).
    rewrite H4. pose proof (value_mod v) as Hm. rewrite <- (Z.sub_0_l (value v)), <- (Z.sub_0_l (unum _)), Zminus_mod, Hm, <- Zminus_mod. done.
  - unfold verinum_uminus. rewrite Hd, Hh. by apply answer_xs.
Qed.

Lemma not_answer v : sized v = true -> answer (verinum_not v) (not_bits (vbits v)) (has_sign_ v).
Proof.
  intros Hv. pose proof Hv as (Hh & Hs & Ht & Hw)%sized_spec. unfold verinum_not.
  set (g := fun b => match b with V0 => V1 | V1 => V0 | _ => Vx end).
  assert (H : let r := for_loop (len v) 0 (fun idx val => set val idx (g (bit_at val idx))) v in
    has_len_ r = has_len_ v /\ has_sign_ r = has_sign_ v /\ is_single_ r = is_single_ v /\ string_flag_ r = string_flag_ v /\ len r = len v /\
    forall i, (i < len v)%nat -> bit_at r i = if (i <? 0 + len v)%nat then g (bit_at v i) else bit_at v i).
  { apply (for_loop_ind (fun k r => has_len_ r = has_len_ v /\ has_sign_ r = has_sign_ v /\ is_single_ r = is_single_ v /\ string_flag_ r = string_flag_ v /\
      len r = len v /\ forall i, (i < len v)%nat -> bit_at r i = if (i <? k)%nat then g (bit_at v i) else bit_at v i)).
    - do 5 (split; [done|]). by intros [].
    - intros k r Hk (H1 & H2 & H3 & H4 & H5 & H6). do 4 (split; [done|]). split; [by rewrite <- H5; unfold len, set; cbn; rewrite length_insert|].
      intros i Hi. unfold set, bit_at at 1. cbn [bits_]. destruct (decide (i = k)) as [->|Hne].
      + rewrite list_lookup_insert_eq by (fold (len r); lia). cbn [default]. rewrite H6, Nat.ltb_irrefl by done. by rewrite (proj2 (Nat.ltb_lt _ _)) by lia.
      + rewrite list_lookup_insert_ne by done. change (default V0 (bits_ r !! i)) with (bit_at r i). rewrite H6 by done.
        destruct (Nat.ltb_spec i k), (Nat.ltb_spec i (S k)); (done || lia). }
  destruct H as (H1 & H2 & H3 & H4 & H5 & H6). change (fun idx val => set val idx _) with (fun idx val => set val idx (g (bit_at val idx))). split; [|apply vbits_eq|done].
  - apply sized_spec. rewrite H1, H3, H4, H5. done.
  - rewrite H5, length_not, length_vbits. done.
  - rewrite H5. intros i Hi. rewrite H6 by done. rewrite (proj2 (Nat.ltb_lt _ _)) by lia. unfold not_bits. rewrite bit_at_map by by rewrite length_vbits.
    rewrite vbits_at by done. by destruct (bit_at v i).
Qed.

(** ** Scans of all bits *)

Lemma for_loop_list {S} (f : S -> V -> S) (l pre : list V) s :
  for_loop (length l) (length pre) (fun i s => f s (default V0 ((pre ++ l) !! i))) s = fold_left f l s.
Proof.
  revert pre s. induction l as [|b l IH]; intros pre s; [done|]. cbn [length for_loop fold_left].
  rewrite list_lookup_middle by done. cbn [default]. specialize (IH (pre ++ [b]) (f s b)).
  rewrite <- app_assoc, length_app, Nat.add_1_r in IH. exact IH.
Qed.

(** The states [s] of a scan stand for bits [h s]; [I] holds of them. *)
Lemma scan_fold {S} (I : S -> Prop) (h : S -> vvp_bit4_t) (f : S -> V -> S) (g : vvp_bit4_t -> vvp_bit4_t -> vvp_bit4_t) v s :
  (forall s b, I s -> I (f s b) /\ h (f s b) = g (h s) (bit4_of_V b)) -> I s ->
  h (for_loop (len v) 0 (fun i s => f s (bit_at v i)) s) = fold_left g (vbits v) (h s).
Proof.
  intros Hf. pose proof (for_loop_list f (bits_ v) [] s) as E. cbn [length app] in E. unfold len, bit_at. rewrite E. clear E.
  unfold vbits. revert s. induction (bits_ v) as [|b l IH]; intros s Hs; [done|]. cbn [fold_left map].
  destruct (Hf s b Hs) as [Hi <-]. by apply IH.
Qed.

Lemma fold_assoc g e (l : bits) : (forall a b c, g (g a b) c = g a (g b c)) -> (forall a b, g (g a b) e = g a b) ->
  forall s, g s e = s -> fold_left g l s = g s (foldr g e l).
Proof.
  intros Ha He. induction l as [|b l IH]; intros s Hs; [done|]. cbn [fold_left foldr]. by rewrite IH, Ha.
Qed.

Lemma scan_or l : fold_left bit4_or l BIT4_0 = or_all l.
Proof.
  unfold or_all. rewrite (fold_assoc bit4_or BIT4_0); [|by intros [] [] []|by intros [] []|done].
  change (bit4_or BIT4_0 (or_all l) = or_all l). rewrite <- (z2x_or_all l). by destruct (or_all l).
Qed.

Lemma scan_and l : fold_left bit4_and l BIT4_1 = and_all l.
Proof.
  unfold and_all. rewrite (fold_assoc bit4_and BIT4_1); [|by intros [] [] []|by intros [] []|done].
  destruct l as [|b l]; [done|]. cbn [foldr]. by destruct b, (foldr bit4_and BIT4_1 l).
Qed.

Lemma scan_xor l : fold_left bit4_xor l BIT4_0 = xor_all l.
Proof.
  unfold xor_all. rewrite (fold_assoc bit4_xor BIT4_0); [|by intros [] [] []|by intros [] []|done].
  destruct l as [|b l]; [done|]. cbn [foldr]. by destruct b, (foldr bit4_xor BIT4_0 l).
Qed.

Lemma scan_or_bit v : bit4_of_V (scan_or_bits v) = or_all (vbits v).
Proof. rewrite <- scan_or. apply (scan_fold (fun _ => True) bit4_of_V V_or bit4_or v V0); [|done]. intros s b _. split; [done|]. by destruct s, b. Qed.

Lemma scan_and_bit v : bit4_of_V (scan_and_bits v) = and_all (vbits v).
Proof. rewrite <- scan_and. apply (scan_fold (fun _ => True) bit4_of_V V_and bit4_and v V1); [|done]. intros s b _. split; [done|]. by destruct s, b. Qed.

Lemma scan_xor_bit v : bit4_of_V (scan_xor_bits v) = xor_all (vbits v).
Proof.
  rewrite <- scan_xor. etransitivity; [|apply (scan_fold (fun _ => True)
    (fun '(ones, unknown) => if negb (unknown =? 0)%nat then BIT4_X else if Nat.odd ones then BIT4_1 else BIT4_0)
    (fun s b => let '(ones, unknown) := s in match b with V0 => (ones, unknown) | V1 => (S ones, unknown) | _ => (ones, S unknown) end) bit4_xor v (0%nat, 0%nat)); [|done]].
  - unfold scan_xor_bits. cbv beta. destruct (for_loop _ _ _ _) as [ones unknown]. by destruct (unknown =? 0)%nat, (Nat.odd ones).
  - intros [ones unknown] b _. split; [done|]. destruct b; cbn [bit4_of_V]; [| |by destruct (unknown =? 0)%nat, (Nat.odd ones)..].
    + by destruct (unknown =? 0)%nat, (Nat.odd ones).
    + rewrite Nat.odd_succ, <- Nat.negb_odd. by destruct (unknown =? 0)%nat, (Nat.odd ones).
Qed.

Lemma logical_not_bit v : bit4_of_V (logical_not v) = bit4_not (or_all (vbits v)).
Proof.
  rewrite <- scan_or. etransitivity; [|apply f_equal, (scan_fold (fun _ => True) (fun '(v1, vx) => if (v1 : bool) then BIT4_1 else if (vx : bool) then BIT4_X else BIT4_0)
    (fun s b => let '(v1, vx) := s in if (v1 : bool) then (v1, vx) else match b with V0 => (v1, vx) | V1 => (true, vx) | _ => (v1, true) end) bit4_or v (false, false)); [|done]].
  - unfold logical_not. cbv beta. by destruct (for_loop _ _ _ _) as [[] []].
  - by intros [[] []] [] _.
Qed.

Lemma or_all_cases l : or_all l = if existsb Bits.is_one l then BIT4_1 else if has_unknown l then BIT4_X else BIT4_0.
Proof.
  induction l as [|b l IH]; [done|]. unfold or_all, has_unknown in *. cbn [foldr existsb]. rewrite IH.
  by destruct b, (existsb Bits.is_one l), (existsb bit4_is_xz l).
Qed.

Lemma truth_of_bit v : bit4_of_V (truth_of v) = or_all (vbits v).
Proof.
  rewrite or_all_cases, unknown_vbits. unfold truth_of, vbits. assert (E : existsb Bits.is_one (map bit4_of_V (bits_ v)) = existsb (fun b => bool_decide (b = V1)) (bits_ v)).
  { induction (bits_ v) as [|b l IH]; [done|]. cbn [map existsb]. rewrite IH, is_one_V. done. }
  rewrite E. destruct (existsb (fun b => bool_decide (b = V1)) (bits_ v)), (is_defined v); reflexivity.
Qed.

Lemma is_zero_bit v : is_zero v = true -> or_all (vbits v) = BIT4_0.
Proof.
  unfold is_zero, vbits. induction (bits_ v) as [|b l IH]; [done|]. cbn [forallb map or_all foldr]. intros [->%bool_decide_eq_true Hl]%andb_true_iff.
  fold (or_all (map bit4_of_V l)). by rewrite IH.
Qed.

Lemma nonzero_bit v : is_zero v = false -> is_defined v = true -> or_all (vbits v) = BIT4_1.
Proof.
  unfold is_zero, is_defined, vbits. induction (bits_ v) as [|b l IH]; [done|]. cbn [forallb map or_all foldr]. fold (or_all (map bit4_of_V l)).
  destruct b; cbn; [|by intros _ _|done..]. intros Hz Hd. by rewrite IH.
Qed.

Definition bit_of_const (c : const_bool) : vvp_bit4_t := match c with C_0 => BIT4_0 | C_1 => BIT4_1 | _ => BIT4_X end.

Lemma const_logical_bit v : or_all (vbits v) = bit_of_const (const_logical (NetEConst v)).
Proof.
  rewrite <- scan_or. symmetry. apply (scan_fold (fun '(res, ended) => (ended : bool) = true -> res = C_1) (fun s => bit_of_const (fst s))
    (fun s b => let '(res, ended) := s in if (ended : bool) then (res, ended) else match b with V1 => (C_1, true) | V0 => (res, false)
       | _ => (match res with C_0 => C_X | _ => res end, false) end) bit4_or v (C_0, false)); [|done].
  intros [res []] b Hs; [rewrite Hs by done; by destruct b|]. by destruct res, b.
Qed.

Lemma const_logical_known v : const_logical (NetEConst v) <> C_NON.
Proof.
  enough (H : fst (fst (for_loop (len v) 0 (fun idx '(res, ended) => if (ended : bool) then (res, ended)
      else match bit_at v idx with V1 => (C_1, true) | V0 => (res, false) | _ => (match res with C_0 => C_X | _ => res end, false) end) (C_0, false)), true) <> C_NON) by exact H.
  cbn [fst]. apply (for_loop_ind (fun _ s => fst s <> C_NON) (len v) 0 _ (C_0, false)); [done|].
  intros i [res []] _ Hs; [done|]. by destruct (bit_at v i), res.
Qed.

(** ** Casts and magnitudes *)

(** Neither a single bit nor a string. *)
Definition vector (v : verinum) : Prop := is_single_ v = false /\ string_flag_ v = false.

Lemma vector_cast v w : vector v -> vector (cast_to_width v w).
Proof.
  intros [Hs Ht]. unfold cast_to_width. destruct (has_len_ v && (len v =? w)%nat); [done|]. destruct (w <=? len v)%nat; [by unfold vector; cbn; rewrite Ht|].
  destruct (len v =? 0)%nat; [done|]. unfold copy_loop, set_has_sign. split; cbn;
    apply (for_loop_ind (fun _ r => _ r = false) _ 0 _ (verinum_fill _ _ _)); done.
Qed.

Lemma vector_uminus v : vector v -> vector (verinum_uminus v).
Proof.
  intros Hv. unfold verinum_uminus. destruct (is_defined v); cbn [negb]; [|done]. destruct (ripple _ _ _ _ _) as [bits c].
  by destruct (has_sign_ v && negb (has_len_ v)).
Qed.

Lemma bit_of_bool b : bit4_of_V (V_of_bool b) = bit4_of_bool b.
Proof. by destruct b. Qed.

Lemma fit_value v w : sized v = true -> is_defined v = true -> fit (has_sign_ v) w (vbits v) = bits_of_Z w (value v).
Proof.
  intros Hv Hd. pose proof (sized_wf v Hv) as Hw. apply sized_spec in Hv as (_ & _ & _ & Hl).
  unfold fit, bits_of_Z, map_bits. apply map_ext. intros i. rewrite length_vbits. rewrite testbit_value by done.
  unfold sign_bit. destruct (Nat.ltb_spec i (len v)).
  - by rewrite vbits_at, <- bit_of_bool, <- bit_defined.
  - destruct (has_sign_ v); [|done]. by rewrite vbits_at, <- bit_of_bool, <- bit_defined by (done || lia).
Qed.

Lemma int2_vbits v : vbits (cast_to_int2 v) = two_state (vbits v).
Proof.
  apply vbits_eq; [by rewrite length_two_state, length_vbits; unfold len; cbn; rewrite length_map|]. intros i Hi.
  assert (Hi' : (i < len v)%nat) by (unfold len in Hi; cbn in Hi; by rewrite length_map in Hi).
  unfold two_state. rewrite bit_at_map, vbits_at by (rewrite ?length_vbits; done). unfold bit_at, cast_to_int2. cbn [bits_].
  rewrite list_lookup_fmap. unfold len in Hi'. apply lookup_lt_is_Some in Hi' as [b ->]. by destruct b.
Qed.

Lemma int2_defined v : is_defined (cast_to_int2 v) = true.
Proof. unfold is_defined, cast_to_int2. cbn. rewrite forallb_forall. intros b (b' & <- & _)%in_map_iff. by destruct b'. Qed.

Lemma int2_sized v : sized v = true -> sized (cast_to_int2 v) = true.
Proof. unfold sized, len. cbn. by rewrite length_map. Qed.

Lemma cast_answer v w : sized v = true -> (0 < w)%nat ->
  answer (cast_to_width (cast_to_int2 v) w) (fit (has_sign_ v) w (two_state (vbits v))) (has_sign_ v).
Proof.
  intros Hv Hw. pose proof (int2_sized v Hv) as H2. pose proof H2 as (Hl & Hs & Ht & _)%sized_spec.
  destruct (cast_to_width_spec _ w (int2_defined v) (sized_wf _ H2) Hs) as (Ln & Hl' & Hs' & Hu & Hd).
  destruct (vector_cast (cast_to_int2 v) w (conj Hs Ht)). rewrite <- int2_vbits.
  rewrite (fit_value (cast_to_int2 v)) by (done || apply int2_defined). by apply answer_number.
Qed.

Lemma abs_answer v : sized v = true -> is_defined v = true ->
  answer (if is_negative v then verinum_uminus v else v) (abs_bits (has_sign_ v) (vbits v)) (has_sign_ v).
Proof.
  intros Hv Hd. unfold abs_bits, is_negative. rewrite unknown_vbits, Hd. cbn [negb]. rewrite andb_true_r.
  destruct (has_sign_ v) eqn:Hs; [|by rewrite andb_false_r]. rewrite andb_true_r, length_vbits.
  assert (Hn : num true (vbits v) = value v) by by rewrite <- Hs, num_value.
  pose proof Hv as (_ & _ & _ & Hl)%sized_spec. pose proof (uval_range (bits_ v)) as Hr.
  destruct (uminus_answer v Hv) as [U1 U2 U3]. case_bool_decide as Hb.
  - split; [done| |by rewrite U3]. rewrite U2. unfold neg_bits, arith. rewrite unknown_vbits, Hd, length_vbits, Hn. cbn [negb].
    apply bits_of_Z_mod. assert (value v <= 0) by (unfold value; rewrite Hs, Hb; change (uval (bits_ v) - 2 ^ Z.of_nat (length (bits_ v)) <= 0); lia).
    rewrite Z.abs_neq by done. pose proof (value_mod v) as Hm. rewrite <- (Z.sub_0_l (value v)), <- (Z.sub_0_l (unum _)), Zminus_mod, <- Hm, <- Zminus_mod. done.
  - split; [done| |done]. assert (Hp : 0 <= value v).
    { unfold value. rewrite Hs. cbn [andb]. replace (is_one (bit_at v (len v - 1))) with false; [lia|]. unfold is_one. symmetry. by apply bool_decide_eq_false. }
    rewrite Hn, Z.abs_eq, <- Hn, <- length_vbits by done. symmetry. apply bits_of_num. by rewrite unknown_vbits, Hd.
Qed.

(** ** Division *)

Lemma vector_sign v s : vector v -> vector (set_has_sign v s).
Proof. done. Qed.

Lemma vector_minus l r : vector (verinum_minus l r).
Proof.
  unfold verinum_minus. destruct (negb (is_defined l) || negb (is_defined r)); [done|]. destruct (add_columns _ _ _ _) as [bits c].
  by destruct (_ && _).
Qed.

Lemma vector_store n h u : vector (store_native n h u).
Proof. apply (for_loop_ind (fun _ s => vector (fst s)) n 0 _ (verinum_fill Vz n h, u)); [done|]. by intros i [r u'] _ Hr. Qed.

Lemma vector_divide num den s : vector (unsigned_divide num den s).
Proof.
  unfold unsigned_divide. destruct (_ <? _)%nat; [done|]. set (n := (leading_width _ _ - _ + 1)%nat). set (s0 := (_, _, _)).
  assert (H : vector (snd (for_down n divide_step s0))); [|by destruct (for_down _ _ _) as [[? ?] ?]].
  apply (for_down_ind (fun _ s => vector (snd s))); [by destruct s|].
  intros i [[a b] r] _ Hr. cbn [snd] in *. unfold divide_step. by destruct (truthy _).
Qed.

Lemma vector_modulus num den : vector num -> vector (unsigned_modulus num den).
Proof.
  intros Hn. unfold unsigned_modulus. destruct (_ <? _)%nat; [done|]. apply (for_down_ind (fun _ s => vector (fst s))); [done|].
  intros i [a b] _ Ha. cbn [fst modulus_step]. destruct (truthy _); [apply vector_minus|done].
Qed.

Lemma vector_magnitude v : vector v -> vector (magnitude v).
Proof. intros Hv. unfold magnitude. destruct (is_negative v); [by apply vector_sign, vector_uminus|done]. Qed.

Lemma has_len_cast v w : has_len_ (cast_to_width v w) = true.
Proof.
  unfold cast_to_width. destruct (has_len_ v && (len v =? w)%nat) eqn:E; [by apply andb_true_iff in E as [? _]|].
  destruct (w <=? len v)%nat; [done|]. destruct (len v =? 0)%nat; [done|].
  apply (for_loop_ind (fun _ r => has_len_ r = true) _ 0 _ (verinum_fill _ _ _)); done.
Qed.

Section Quotients.
Context (l r : verinum) (Hl : sized l = true) (Hr : sized r = true) (W : len l = len r) (S : has_sign_ l = has_sign_ r).

Lemma finish_vector res : vector res ->
  let q := trim_vnum (set_has_sign (if has_len_ l && has_len_ r then cast_to_width res (len l) else res) (has_sign_ l && has_sign_ r)) in
  vector q /\ has_len_ q = true.
Proof using Hl Hr W.
  intros Hv. destruct (defined_flags l r (len l) Hl Hr eq_refl (eq_sym W)) as [-> _]. cbv zeta.
  rewrite trim_sized by apply has_len_cast. split; [by apply vector_cast|apply has_len_cast].
Qed.

Lemma div_vector q : verinum_div l r = Some q -> vector q /\ has_len_ q = true.
Proof using Hl Hr W.
  unfold verinum_div. destruct (_ || is_zero r); [|].
  - intros [= <-]. split; [done|]. by destruct (defined_flags l r (len l) Hl Hr eq_refl (eq_sym W)) as [-> _].
  - match goal with |- (res ← ?e; _) = _ -> _ => destruct e as [res|] eqn:E end; [|done]. cbn [mbind option_bind]. intros [= <-]. apply finish_vector.
    destruct (has_sign_ l && has_sign_ r), (len l <=? _)%nat; cbn [mbind option_bind] in E.
    + apply bind_Some in E as (u & _ & [= <-]). apply vector_store.
    + injection E as <-. destruct (xorb _ _); [apply vector_uminus|]; apply vector_divide.
    + apply bind_Some in E as (u & _ & [= <-]). apply vector_store.
    + injection E as <-. apply vector_divide.
Qed.

Lemma mod_vector q : verinum_mod l r = Some q -> vector q /\ has_len_ q = true.
Proof using Hl Hr W.
  unfold verinum_mod. destruct (_ || is_zero r); [|].
  - intros [= <-]. split; [done|]. by destruct (defined_flags l r (len l) Hl Hr eq_refl (eq_sym W)) as [-> _].
  - match goal with |- (res ← ?e; _) = _ -> _ => destruct e as [res|] eqn:E end; [|done]. cbn [mbind option_bind]. intros [= <-]. apply finish_vector.
    assert (Vl : vector l) by (apply sized_spec in Hl as (_ & ? & ? & _); done).
    destruct (has_sign_ l && has_sign_ r), (len l <=? _)%nat; cbn [mbind option_bind] in E.
    + apply bind_Some in E as (u & _ & [= <-]). apply vector_store.
    + injection E as <-. destruct (is_negative l); [apply vector_uminus|]; by apply vector_modulus, vector_magnitude.
    + apply bind_Some in E as (u & _ & [= <-]). apply vector_store.
    + injection E as <-. by apply vector_modulus.
Qed.

Lemma regular_sized n : (n <= 64)%nat -> regular n l r.
Proof using Hl W S.
  intros Hn. unfold regular. destruct (Nat.leb_spec (len l) n); [lia|]. split; [done|]. by apply sized_spec in Hl as (_ & ? & _).
Qed.

(** The cases of both operators: [f] is the one on numbers, [g] on integers. *)
Lemma quotient_answer (f : verinum -> verinum -> option verinum) (g : Z -> Z -> Z) fit :
  let s := has_sign_ l && has_sign_ r in
  (negb (is_defined l) || negb (is_defined r) || is_zero r = true -> f l r = Some (undefined_result (len l) (has_len_ l && has_len_ r) s)) ->
  (is_defined l && is_defined r = true -> value r <> 0 -> exists q, f l r = Some q /\ answers (len l) (has_len_ l && has_len_ r) s fit (g (operand s l) (operand s r)) q) ->
  (forall q, f l r = Some q -> vector q /\ has_len_ q = true) ->
  exists q, f l r = Some q /\
    answer q (arith (length (vbits l)) (has_unknown (vbits l) || has_unknown (vbits r) || (unum (vbits r) =? 0)) (g (num s (vbits l)) (num s (vbits r)))) s.
Proof using Hl Hr W S.
  intros s Hx Hd Hv. destruct (defined_flags l r (len l) Hl Hr eq_refl (eq_sym W)) as [Hh _]. rewrite Hh in *.
  pose proof Hl as (_ & _ & _ & Hp)%sized_spec. rewrite !unknown_vbits, length_vbits, unum_vbits.
  assert (Hz : is_defined r = true -> is_zero r = (uval (bits_ r) =? 0)).
  { intros D. rewrite is_zero_iff by done. pose proof (uval_mod r) as Hu. pose proof (value_range_unsigned (set_has_sign r false) eq_refl) as Hb.
    destruct (Z.eqb_spec (value r) 0) as [E|E]; [rewrite Hu, E, Z.mod_0_l by (pose proof (pow2_pos (Z.of_nat (len r))); lia); done|].
    symmetry. apply Z.eqb_neq. intros E0. apply E. unfold value. rewrite E0. cbn [bits_]. destruct (is_one (bit_at r (len r - 1))) eqn:O; [|by rewrite andb_false_r].
    pose proof (testbit_uval (bits_ r) (len r - 1)) as T. rewrite E0, Z.bits_0 in T. unfold bit_at in O. congruence. }
  destruct (negb (is_defined l) || negb (is_defined r)) eqn:E1; cbn [orb] in *.
  - rewrite Hx by done. eexists; split; [done|]. by apply answer_xs.
  - apply orb_false_iff in E1 as [D1%negb_false_iff D2%negb_false_iff]. rewrite <- Hz by done. destruct (is_zero r) eqn:Z0.
    + rewrite Hx by done. eexists; split; [done|]. by apply answer_xs.
    + destruct Hd as (q & Eq & (A1 & A2 & A3 & _)); [by rewrite D1, D2| |].
      { intros E. rewrite is_zero_iff, E in Z0 by done. done. }
      destruct (Hv q Eq) as [[V1 V2] Hl']. destruct (A3 eq_refl) as [A4 A5]. exists q. split; [done|]. cbn [arith].
      apply answer_number; try done. rewrite A5. unfold s. rewrite <- S, andb_diag. do 2 f_equal.
      * rewrite (num_cmp (has_sign_ l)) by done. unfold operand, cmp_value. done.
      * rewrite (num_cmp (has_sign_ l)) by (done || by rewrite S). unfold operand, cmp_value. done.
Qed.

Lemma div_answer : exists q, verinum_div l r = Some q /\ answer q (quotient (has_sign_ l && has_sign_ r) (vbits l) (vbits r)) (has_sign_ l && has_sign_ r).
Proof using Hl Hr W S.
  apply (quotient_answer verinum_div Z.quot (quotient_fits (has_sign_ l && has_sign_ r) l r)).
  - intros E. unfold verinum_div. by rewrite E.
  - intros D Hz. apply verinum_div_correct; try done; try by apply sized_wf. apply regular_sized. destruct (has_sign_ l && has_sign_ r); lia.
  - apply div_vector.
Qed.

Lemma mod_answer : exists q, verinum_mod l r = Some q /\ answer q (remainder (has_sign_ l && has_sign_ r) (vbits l) (vbits r)) (has_sign_ l && has_sign_ r).
Proof using Hl Hr W S.
  apply (quotient_answer verinum_mod Z.rem True).
  - intros E. unfold verinum_mod. by rewrite E.
  - intros D Hz. apply verinum_mod_correct; try done; try by apply sized_wf. by apply regular_sized.
  - apply mod_vector.
Qed.
End Quotients.

(** ** Pairs of bits *)

Definition differ (a b : V) : bool := negb (bool_decide (b = a)).

Lemma differ_decide {A} (P : Prop) `{Decision P} a b (x y : A) : (P <-> b <> a) -> (if decide P then x else y) = if differ a b then x else y.
Proof. intros HP. unfold differ. destruct (decide (b = a)); [rewrite decide_False, bool_decide_true by tauto|rewrite decide_True, bool_decide_false by tauto]; done. Qed.

Section Pairs.
Context (l r : verinum) (w : nat) (Hl : sized l = true) (Hr : sized r = true) (Wl : len l = w) (Wr : len r = w).

Lemma pos_width : (0 < w)%nat.
Proof using Hl Wl. rewrite <- Wl. by apply sized_spec in Hl as (_ & _ & _ & H). Qed.

Lemma asserted_widths : both_widths w l r = true.
Proof using Hl Wl Wr. unfold both_widths. by rewrite Wl, Wr, Nat.eqb_refl, (proj2 (Nat.ltb_lt _ _)) by apply pos_width. Qed.

Lemma zip_answer (f : V -> V -> V) g sg : (forall a b, bit4_of_V (f a b) = g (bit4_of_V a) (bit4_of_V b)) ->
  answer (set_has_sign (for_loop w 0 (fun idx res => set res idx (f (bit_at l idx) (bit_at r idx))) (verinum_fill V0 w true)) sg)
    (zip_bits g (vbits l) (vbits r)) sg.
Proof using Hl Wl Wr.
  intros Hf. apply answer_map; [by apply pos_width|]. unfold zip_bits, map_bits. rewrite length_vbits, Wl. apply map_ext_in. intros i Hi%in_seq.
  by rewrite Hf, !vbits_at by lia.
Qed.

Lemma pair_scan (f : vvp_bit4_t -> vvp_bit4_t -> bool) (g : V -> V -> bool) : (forall a b, g a b = f (bit4_of_V a) (bit4_of_V b)) ->
  existsb (fun i => g (bit_at l i) (bit_at r i)) (seq 0 (len l)) = some_pair f (vbits l) (vbits r).
Proof using Wl Wr.
  intros Hg. unfold some_pair. rewrite length_vbits. apply existsb_ext_in. intros i Hi%in_seq. by rewrite Hg, !vbits_at by lia.
Qed.

(** A scan that ends with [n] at a pair that differs, and has met x at others. *)
Lemma scan_pairs_spec (step : V -> V -> V -> V * bool) (D U : V -> V -> bool) n e :
  (forall a b res, step a b res = if D a b then (n, true) else if U a b then (Vx, false) else (res, false)) ->
  scan_pairs step l r e = if existsb (fun i => D (bit_at l i) (bit_at r i)) (seq 0 (len l)) then n
    else if existsb (fun i => U (bit_at l i) (bit_at r i)) (seq 0 (len l)) then Vx else e.
Proof using.
  intros Hs. unfold scan_pairs.
  assert (H : for_loop (len l) 0 (fun idx '(res, ended) => if (ended : bool) then (res, ended) else step (bit_at l idx) (bit_at r idx) res) (e, false) =
    if existsb (fun i => D (bit_at l i) (bit_at r i)) (seq 0 (len l)) then (n, true)
    else (if existsb (fun i => U (bit_at l i) (bit_at r i)) (seq 0 (len l)) then Vx else e, false)).
  { apply (for_loop_ind (fun k s => s = if existsb (fun i => D (bit_at l i) (bit_at r i)) (seq 0 k) then (n, true)
      else (if existsb (fun i => U (bit_at l i) (bit_at r i)) (seq 0 k) then Vx else e, false))); [done|].
    intros k s _ ->. rewrite !seq_S, !existsb_app. cbn [existsb Nat.add]. rewrite !orb_false_r.
    destruct (existsb (fun i => D _ _) _); [done|]. cbn [orb]. rewrite Hs. destruct (D _ _); [done|]. destruct (U _ _); [by rewrite orb_true_r|by rewrite orb_false_r]. }
  rewrite H. by destruct (existsb (fun i => D _ _) _).
Qed.

Lemma eqeq_answer (ne : bool) : eval_eqeq_ ne (NetEConst l) (NetEConst r) =
  Some (Some (const1 (match eq_bit (vbits l) (vbits r) with BIT4_0 => if ne then V1 else V0 | BIT4_1 => if ne then V0 else V1 | _ => Vx end))).
Proof using Wl Wr.
  unfold eval_eqeq_, equality_arguments. rewrite Wl, Wr, Nat.eqb_refl. cbn [with_assert]. do 3 f_equal.
  rewrite (scan_pairs_spec _ (fun a b => negb (unknown_V a || unknown_V b) && differ a b) (fun a b => unknown_V a || unknown_V b) (if ne then V1 else V0)).
  - unfold eq_bit. rewrite (pair_scan known_differ (fun a b => negb (unknown_V a || unknown_V b) && differ a b)), (pair_scan unknown (fun a b => unknown_V a || unknown_V b)) by by intros [] [].
    by destruct (some_pair known_differ (vbits l) (vbits r)), (some_pair unknown (vbits l) (vbits r)), ne.
  - intros a b res. destruct (unknown_V a || unknown_V b); [done|]. cbn [negb andb]. apply differ_decide; tauto.
Qed.

Lemma weqeq_answer (ne : bool) : eval_weqeq_ ne (NetEConst l) (NetEConst r) =
  Some (Some (const1 (match wild_eq_bit (vbits l) (vbits r) with BIT4_0 => if ne then V1 else V0 | BIT4_1 => if ne then V0 else V1 | _ => Vx end))).
Proof using Wl Wr.
  unfold eval_weqeq_, equality_arguments. rewrite Wl, Wr, Nat.eqb_refl. cbn [with_assert]. do 3 f_equal.
  rewrite (scan_pairs_spec _ (fun a b => negb (unknown_V b) && negb (unknown_V a) && differ a b) (fun a b => negb (unknown_V b) && unknown_V a) (if ne then V1 else V0)).
  - unfold wild_eq_bit. rewrite (pair_scan known_differ (fun a b => negb (unknown_V b) && negb (unknown_V a) && differ a b)), (pair_scan left_unknown (fun a b => negb (unknown_V b) && unknown_V a)) by by intros [] [].
    by destruct (some_pair known_differ (vbits l) (vbits r)), (some_pair left_unknown (vbits l) (vbits r)), ne.
  - intros a b res. destruct (unknown_V b), (unknown_V a); try done. cbn [negb andb]. apply differ_decide; tauto.
Qed.

Lemma eqeqeq_answer (ne : bool) : eval_eqeqeq_ ne (NetEConst l) (NetEConst r) =
  Some (Some (const1 (match case_eq_bit (vbits l) (vbits r) with BIT4_0 => if ne then V1 else V0 | _ => if ne then V0 else V1 end))).
Proof using Wl Wr.
  unfold eval_eqeqeq_, equality_arguments. rewrite Wl, Wr, Nat.eqb_refl. cbn [with_assert]. do 3 f_equal. cbv zeta.
  rewrite (scan_pairs_spec _ differ (fun _ _ => false) V0).
  - unfold case_eq_bit. rewrite (pair_scan unequal differ) by by intros [] [].
    assert (E : existsb (fun _ : nat => false) (seq 0 (len l)) = false) by by induction (seq 0 (len l)). rewrite E.
    by destruct (some_pair unequal (vbits l) (vbits r)), ne.
  - intros a b res. apply differ_decide; split; congruence.
Qed.
End Pairs.

(** ** Order *)

Lemma num_upper sg l : (0 < length l)%nat -> num sg l <= (if sg then 2 ^ (Z.of_nat (length l) - 1) else 2 ^ Z.of_nat (length l)) - 1.
Proof.
  intros Hl. pose proof (unum_range l) as Hr. unfold num. destruct sg; cbn [andb]; [|lia].
  destruct (top_split l Hl) as (low & Hlow & Hu & H2). destruct (Bits.is_one _); cbn [Z.b2z] in Hu; lia.
Qed.

(** The largest value of an operand *)
Definition top_number (w : nat) (s : bool) : verinum :=
  let lv := verinum_fill V1 w true in if s then set_has_sign (set lv (len lv - 1) V0) true else lv.

Lemma top_number_spec w s : (0 < w)%nat -> is_defined (top_number w s) = true /\ has_sign_ (top_number w s) = s /\ len (top_number w s) = w /\
  cmp_value s (top_number w s) = (if s then 2 ^ (Z.of_nat w - 1) else 2 ^ Z.of_nat w) - 1.
Proof.
  intros Hw. assert (Hn : len (verinum_fill V1 w true) = w) by (unfold len; cbn; by rewrite length_replicate).
  assert (Hb : forall i, (i < w)%nat -> bits_ (top_number w s) !! i = Some (V_of_bool (Z.testbit ((if s then 2 ^ (Z.of_nat w - 1) else 2 ^ Z.of_nat w) - 1) (Z.of_nat i)))).
  { intros i Hi. replace ((if s then 2 ^ (Z.of_nat w - 1) else 2 ^ Z.of_nat w) - 1) with (Z.ones (if s then Z.of_nat w - 1 else Z.of_nat w)) by (rewrite Z.ones_equiv; destruct s; lia).
    rewrite Z.testbit_ones_nonneg by (destruct s; lia). unfold top_number. rewrite Hn. destruct s; cbn.
    - destruct (decide (i = (w - 1)%nat)) as [->|Hne].
      + rewrite list_lookup_insert_eq by (rewrite length_replicate; lia). by rewrite (proj2 (Z.ltb_ge _ _)) by lia.
      + rewrite list_lookup_insert_ne, lookup_replicate_2 by done. by rewrite (proj2 (Z.ltb_lt _ _)) by lia.
    - rewrite lookup_replicate_2 by done. by rewrite (proj2 (Z.ltb_lt _ _)) by lia. }
  assert (Hl : len (top_number w s) = w) by (unfold top_number; destruct s; [unfold len at 1; cbn; by rewrite length_insert, length_replicate|done]).
  assert (Hs : has_sign_ (top_number w s) = s) by by destruct s.
  pose proof (pow2_pos (Z.of_nat w - 1) ltac:(lia)). pose proof (pow2_half w Hw).
  assert (Hu : uval (bits_ (top_number w s)) = ((if s then 2 ^ (Z.of_nat w - 1) else 2 ^ Z.of_nat w) - 1) mod 2 ^ Z.of_nat (len (top_number w s))).
  { unfold len. apply uval_bits. intros i Hi. apply Hb. by rewrite <- Hl. }
  split; [by apply (is_defined_bits _ ((if s then 2 ^ (Z.of_nat w - 1) else 2 ^ Z.of_nat w) - 1)); rewrite Hl|].
  split; [done|]. split; [done|]. unfold cmp_value. rewrite Hl in Hu. destruct s.
  - apply value_fits; rewrite Hl; [done|]. rewrite Hs. lia.
  - rewrite Hu. apply Z.mod_small. lia.
Qed.

Lemma lt_spec l r : is_defined l = true -> wf l -> is_defined r = true -> wf r ->
  let s := has_sign_ l && has_sign_ r in verinum_lt l r = V_of_bool (cmp_value s l <? cmp_value s r).
Proof.
  intros D1 W1 D2 W2 s. unfold verinum_lt. rewrite compare_from_spec by done. fold s. unfold outcome.
  destruct (Z.ltb_spec (cmp_value s l) (cmp_value s r)); [done|]. by destruct (_ <? _).
Qed.

Lemma le_spec l r : is_defined l = true -> wf l -> is_defined r = true -> wf r ->
  let s := has_sign_ l && has_sign_ r in verinum_le l r = V_of_bool (cmp_value s l <=? cmp_value s r).
Proof.
  intros D1 W1 D2 W2 s. unfold verinum_le. rewrite compare_from_spec by done. fold s. unfold outcome.
  destruct (Z.ltb_spec (cmp_value s l) (cmp_value s r)), (Z.ltb_spec (cmp_value s r) (cmp_value s l)), (Z.leb_spec (cmp_value s l) (cmp_value s r)); (done || lia).
Qed.

Lemma truthy_bool b : truthy (V_of_bool b) = b.
Proof. by destruct b. Qed.

(** An operand of the net list with the bits [l]. *)
Record operand_is (e : NetExpr) (l : bits) : Prop := OperandIs {
  o_width : expr_width e = length l;
  o_known : expr_type e = IVL_VT_BOOL -> has_unknown l = false;
  o_type : expr_type e = IVL_VT_BOOL \/ expr_type e = IVL_VT_LOGIC;
  o_const : forall v, e = NetEConst v -> sized v = true /\ vbits v = l;
}.

Definition order (eq : bool) : Z -> Z -> bool := if eq then Z.leb else Z.ltb.

Lemma must_be_answer eq le rv l : operand_is le l -> sized rv = true -> length l = len rv -> is_defined rv = true ->
  let s := has_sign le && has_sign_ rv in
  exists must, must_be_leeq_ le rv eq = Some must /\ (must = true -> has_unknown l = false /\ order eq (num s l) (cmp_value s rv) = true).
Proof.
  intros [Ow Ok Ot Oc] Hr Hw Hd s. pose proof Hr as (_ & _ & _ & Hp)%sized_spec. unfold must_be_leeq_.
  set (bound := (if s then 2 ^ (Z.of_nat (len rv) - 1) else 2 ^ Z.of_nat (len rv)) - 1).
  assert (Hm : order eq bound (cmp_value s rv) = true -> order eq (num s l) (cmp_value s rv) = true).
  { pose proof (num_upper s l ltac:(lia)) as Hu. rewrite Hw in Hu. fold bound in Hu. destruct eq; cbn; rewrite ?Z.leb_le, ?Z.ltb_lt; lia. }
  case_decide as El; [by eexists|]. assert (Et : has_unknown l = false) by (destruct Ot; [auto|done]).
  rewrite Ow, Hw, (proj2 (Nat.ltb_lt _ _)) by done. cbn [with_assert]. eexists; split; [reflexivity|]. fold s. fold (top_number (len rv) s).
  destruct (top_number_spec (len rv) s Hp) as (T1 & T2 & T3 & T4). assert (Tw : wf (top_number (len rv) s)) by (intros _; by rewrite T3).
  assert (Es : s && has_sign_ rv = s) by (unfold s; destruct (has_sign le), (has_sign_ rv); done).
  rewrite lt_spec, verinum_eq_spec, T2, Es, T4 by (done || by apply sized_wf). fold bound. intros Ho. split; [done|]. apply Hm.
  destruct eq; cbn [andb order] in *; rewrite truthy_bool in Ho; [|by rewrite orb_false_r in Ho].
  destruct (Z.ltb_spec bound (cmp_value s rv)); [apply Z.leb_le; lia|]. cbn [orb] in Ho. destruct (Z.eqb_spec bound (cmp_value s rv)); [apply Z.leb_le; lia|done].
Qed.

Lemma eval_order_answer cmp eq le rv l : operand_is le l -> sized rv = true -> length l = len rv ->
  let s := has_sign le && has_sign_ rv in
  (forall lv, le = NetEConst lv -> is_defined lv = true -> is_defined rv = true -> truthy (cmp lv rv) = order eq (cmp_value s lv) (cmp_value s rv)) ->
  exists res, eval_order_ cmp eq le (NetEConst rv) = Some res /\ (is_const le = true -> res <> None) /\
    forall e, res = Some e -> exists b, e = const1 b /\ bit4_of_V b = order_bit s (order eq) l (vbits rv).
Proof.
  intros Ho Hr Hw s Hcmp. unfold eval_order_, order_bit. rewrite unknown_vbits.
  destruct (is_defined rv) eqn:Hd; cbn [negb]; [|eexists; split; [done|]; split; [done|]; intros e [= <-]; exists Vx; by rewrite orb_true_r].
  assert (Hn : num s (vbits rv) = cmp_value s rv) by (apply num_cmp; [done|unfold s; by destruct (has_sign le)]).
  rewrite orb_false_r, Hn. destruct (must_be_answer eq le rv l Ho Hr Hw Hd) as (must & -> & Hmust). cbn [mbind option_bind]. destruct must.
  { destruct (Hmust eq_refl) as [Hx Hb]. eexists; split; [done|]. split; [done|]. intros e [= <-]. exists V1. fold s in Hb. by rewrite Hx, Hb. }
  destruct le as [lv| | | | | | | | |]; try (eexists; split; [done|]; split; [done|]; done).
  destruct (o_const _ _ Ho lv eq_refl) as [Hl <-]. rewrite unknown_vbits. destruct (is_defined lv) eqn:Dl; cbn [negb].
  - eexists; split; [done|]. split; [done|]. intros e [= <-]. eexists; split; [done|].
    rewrite (Hcmp lv eq_refl) by done. rewrite (num_cmp s lv); [destruct (order eq (cmp_value s lv) (cmp_value s rv)); reflexivity|done|]. unfold s. cbn. by destruct (has_sign_ lv).
  - eexists; split; [done|]. split; [done|]. intros e [= <-]. by exists Vx.
Qed.

(** ** Logic *)

Definition logic_bit (op : binary_op) (a b : vvp_bit4_t) : vvp_bit4_t :=
  match op with
  | B_land => bit4_and a b
  | B_lor => bit4_or a b
  | B_impl => bit4_or (bit4_not a) b
  | _ => xnor_bit a b
  end.

Definition is_logic (op : binary_op) : bool := match op with B_land | B_lor | B_impl | B_equiv => true | _ => false end.

Lemma logic_answer op l r : is_logic op = true ->
  exists b, logic_arguments op (NetEConst l) (NetEConst r) = Some (const1 b) /\ bit4_of_V b = logic_bit op (or_all (vbits l)) (or_all (vbits r)).
Proof.
  intros Hop. rewrite <- !truth_of_bit. unfold logic_arguments.
  assert (Ht : forall v, truth_of v <> Vz) by (intros v; unfold truth_of; by destruct (existsb _ _), (is_defined v)).
  pose proof (Ht l). pose proof (Ht r). by destruct op; try done; (eexists; split; [done|]); destruct (truth_of l), (truth_of r).
Qed.

(** The right operand does not count when the left one decides. *)
Lemma logic_half_answer op l r e : is_const r = false -> logic_arguments op (NetEConst l) r = Some e ->
  exists b, e = const1 b /\ forall x, bit4_of_V b = logic_bit op (or_all (vbits l)) x.
Proof.
  intros Hr. unfold logic_arguments. destruct r; try done; destruct op; try done.
  all: try (destruct (is_zero l) eqn:Hz; [|try done]); try (destruct (is_defined l) eqn:Hd; [|done]); intros [= <-]; (eexists; split; [done|]).
  all: rewrite ?is_zero_bit, ?nonzero_bit by done; by intros [].
Qed.

Lemma logic_const op l r e : logic_arguments op l r = Some e -> is_const l = true.
Proof. by destruct l. Qed.

(** ** Shifts *)

Lemma set_loop_eq (f : nat -> V) (g : nat -> nat) n start v :
  for_loop n start (fun idx r => set r (g idx) (f idx)) v =
  Verinum (for_loop n start (fun idx b => <[g idx := f idx]> b) (bits_ v)) (has_len_ v) (has_sign_ v) (is_single_ v) (string_flag_ v).
Proof. revert start v. induction n as [|n IH]; intros start v; [by destruct v|]. cbn [for_loop]. by rewrite IH. Qed.

(** A number given by its bits. *)
Lemma answer_bits v n (f : nat -> V) sg l : (0 < n)%nat -> has_len_ v = true -> vector v -> has_sign_ v = sg ->
  bits_ v = map f (seq 0 n) -> map_bits n (fun i => bit4_of_V (f i)) = l -> answer v l sg.
Proof.
  intros Hn Hl [Hs Ht] Hg Hb <-. destruct v as [bits hl hs si st]. cbn in *. subst. split; [|apply vbits_map|done].
  apply sized_spec. unfold len. cbn. by rewrite length_map, length_seq.
Qed.

Lemma shl_answer v k sg : sized v = true -> answer (set_has_sign (verinum_shl v k) sg) (shl_bits (Z.of_nat k) (vbits v)) sg.
Proof.
  intros Hv. pose proof Hv as (Hh & _ & _ & Hp)%sized_spec. unfold verinum_shl. rewrite Hh, (set_loop_eq (fun idx => bit_at v (idx - k)) (fun idx => idx)).
  rewrite trim_sized by done. cbn [verinum_fill set_has_sign bits_ has_len_ has_sign_ is_single_ string_flag_].
  apply (answer_bits _ (len v) (fun i => if (i <? k)%nat then V0 else bit_at v (i - k))); try done; cbn [bits_].
  - destruct (Nat.le_gt_cases k (len v)) as [Hk|Hk].
    + pose proof (set_from_loop (fun i => bit_at v (i - k)) (len v - k) k (replicate (len v) V0)) as [E1 E2]; [rewrite length_replicate; lia|].
      rewrite length_replicate in E1. apply list_eq. intros i. rewrite E2, lookup_map_seq. destruct (Nat.leb_spec k i), (Nat.ltb_spec i (k + (len v - k))), (Nat.ltb_spec i (len v)), (Nat.ltb_spec i k); cbn [andb]; try lia; try done.
      * apply lookup_ge_None_2. rewrite length_replicate. lia.
      * by apply lookup_replicate_2.
    + replace (len v - k)%nat with 0%nat by lia. cbn [for_loop set_has_sign bits_]. apply list_eq. intros i. rewrite lookup_map_seq.
      destruct (Nat.ltb_spec i (len v)); [rewrite lookup_replicate_2, (proj2 (Nat.ltb_lt i k)) by lia; done|apply lookup_ge_None_2; by rewrite length_replicate].
  - unfold shl_bits, map_bits. rewrite length_vbits. apply map_ext_in. intros i Hi%in_seq.
    destruct (Nat.ltb_spec i k), (Z.ltb_spec (Z.of_nat i) (Z.of_nat k)); try lia; [done|]. rewrite vbits_at by lia. do 2 f_equal. lia.
Qed.

Lemma shr_answer v k sg : sized v = true ->
  answer (set_has_sign (verinum_shr v k) sg) (shr_bits (if has_sign_ v then Bits.bit_at (vbits v) (len v - 1) else BIT4_0) (Z.of_nat k) (vbits v)) sg.
Proof.
  intros Hv. pose proof Hv as (Hh & _ & _ & Hp)%sized_spec. unfold verinum_shr. rewrite Hh.
  set (sgn := if has_sign_ v then bit_at v (len v - 1) else V0).
  assert (Hsgn : (if has_sign_ v then Bits.bit_at (vbits v) (len v - 1) else BIT4_0) = bit4_of_V sgn) by (unfold sgn; destruct (has_sign_ v); [rewrite vbits_at by lia|]; done).
  rewrite Hsgn. assert (Hr : forall b, map_bits (len v) (fun i => if (i + k <? len v)%nat then bit4_of_V (bit_at v (i + k)) else bit4_of_V b) = shr_bits (bit4_of_V b) (Z.of_nat k) (vbits v)).
  { intros b. unfold shr_bits, map_bits. rewrite length_vbits. apply map_ext_in. intros i Hi%in_seq.
    destruct (Nat.ltb_spec (i + k) (len v)), (Z.ltb_spec (Z.of_nat i + Z.of_nat k) (Z.of_nat (len v))); try lia; [|done].
    rewrite <- vbits_at by lia. f_equal. lia. }
  destruct (Nat.leb_spec (len v) k) as [Hk|Hk].
  - apply (answer_bits _ (len v) (fun _ => sgn)); try done; cbn.
    + apply list_eq. intros i. rewrite lookup_map_seq. destruct (Nat.ltb_spec i (len v)); [by rewrite lookup_replicate_2|apply lookup_ge_None_2; by rewrite length_replicate].
    + rewrite <- Hr. apply map_ext. intros i. by rewrite (proj2 (Nat.ltb_ge _ _)) by lia.
  - rewrite <- Hh. rewrite shr_loop_eq, Hh, trim_sized by done.
    apply (answer_bits _ (len v) (fun i => if (i + k <? len v)%nat then bit_at v (i + k) else sgn)); try done; cbn [set_has_sign bits_].
    + pose proof (set_from_loop (fun i => bit_at v (i + k)) (len v - k) 0 (replicate (len v) sgn)) as [E1 E2]; [rewrite length_replicate; lia|].
      apply list_eq. intros i. rewrite E2, lookup_map_seq. cbn [Nat.leb andb]. destruct (Nat.ltb_spec i (0 + (len v - k))), (Nat.ltb_spec i (len v)), (Nat.ltb_spec (i + k) (len v)); try lia; try done.
      * by apply lookup_replicate_2.
      * apply lookup_ge_None_2. by rewrite length_replicate.
    + rewrite <- Hr. apply map_ext. intros i. by destruct (i + k <? len v)%nat.
Qed.

(** A shift of all the bits or more *)
Lemma shl_beyond k j l : Z.of_nat (length l) <= k -> Z.of_nat (length l) <= j -> shl_bits k l = shl_bits j l.
Proof. intros Hk Hj. unfold shl_bits, map_bits. apply map_ext_in. intros i Hi%in_seq. by rewrite !(proj2 (Z.ltb_lt _ _)) by lia. Qed.

Lemma shr_beyond b k j l : Z.of_nat (length l) <= k -> Z.of_nat (length l) <= j -> shr_bits b k l = shr_bits b j l.
Proof. intros Hk Hj. unfold shr_bits, map_bits. apply map_ext_in. intros i Hi%in_seq. by rewrite !(proj2 (Z.ltb_ge _ _)) by lia. Qed.

Lemma shift_amount r (f : Z -> bits) n : is_defined r = true -> Z.of_nat n < 2 ^ 30 -> (forall k j, Z.of_nat n <= k -> Z.of_nat n <= j -> f k = f j) ->
  f (Z.of_nat (Z.to_nat (as_unsigned r))) = f (unum (vbits r)).
Proof.
  intros Hd Hn Hf. unfold as_unsigned. rewrite as_native_value by done. rewrite unum_vbits. pose proof (uval_range (bits_ r)).
  destruct (Z.le_gt_cases (uval (bits_ r)) (2 ^ 32 - 1)).
  - rewrite Z.min_l, Z2Nat.id by lia. done.
  - rewrite Z.min_r, Z2Nat.id by lia. apply Hf; lia.
Qed.

Definition shift_bits (op : binary_op) (sl : bool) (l r : bits) : bits :=
  match op with
  | B_shl => shift_by shl_bits l r
  | B_shr => shift_by (shr_bits BIT4_0) l r
  | _ => shift_by (shr_bits (if sl then Bits.bit_at l (length l - 1) else BIT4_0)) l r
  end.

Definition is_shift (op : binary_op) : bool := match op with B_shl | B_shr | B_sar => true | _ => false end.

Lemma shift_answer op l r w sg : is_shift op = true -> sized l = true -> sized r = true -> len l = w -> Z.of_nat w < 2 ^ 30 ->
  exists v, shift_arguments op (NetEConst l) (NetEConst r) w sg = Some (Some (NetEConst v)) /\ answer v (shift_bits op (has_sign_ l) (vbits l) (vbits r)) sg.
Proof.
  intros Hop Hl Hr Wl Hw. pose proof Hl as (Hh & _ & _ & Hp)%sized_spec. unfold shift_arguments, shift_bits, shift_by.
  rewrite unknown_vbits, Wl, Nat.eqb_refl, (proj2 (Nat.ltb_lt _ _)) by lia. cbn [andb with_assert].
  destruct (is_defined r) eqn:Hd; cbn [negb].
  - pose proof (length_vbits l) as Ln. set (k := Z.to_nat (as_unsigned r)).
    assert (A : len (verinum_shl l k) = w) by (etransitivity; [exact (answer_len _ _ _ (shl_answer l k false Hl))|by rewrite length_shl, Ln]).
    assert (B : len (verinum_shr (set_has_sign l false) k) = w) by (etransitivity; [exact (answer_len _ _ _ (shr_answer (set_has_sign l false) k false Hl))|rewrite length_shr; exact (eq_trans Ln Wl)]).
    assert (C : len (verinum_shr l k) = w) by (etransitivity; [exact (answer_len _ _ _ (shr_answer l k false Hl))|by rewrite length_shr, Ln]).
    destruct op; try done; (eexists; split; [reflexivity|]).
    + rewrite cast_same; [|by unfold verinum_shl; rewrite trim_vnum_has_len, set_loop_eq|done].
      rewrite <- (shift_amount r (fun k => shl_bits k (vbits l)) w); [by apply shl_answer|done..|]. intros. apply shl_beyond; lia.
    + pose proof (verinum_shr_flags (set_has_sign l false) k) as [F _]. rewrite cast_same; [|by rewrite F|done].
      rewrite <- (shift_amount r (fun k => shr_bits BIT4_0 k (vbits l)) w); [by apply (shr_answer (set_has_sign l false))|done..|]. intros. apply shr_beyond; lia.
    + pose proof (verinum_shr_flags l k) as [F _]. rewrite cast_same; [|by rewrite F|done].
      rewrite <- (shift_amount r (fun k => shr_bits _ k (vbits l)) w); [rewrite Ln; by apply (shr_answer l)|done..|]. intros. apply shr_beyond; lia.
  - destruct op; try done; (eexists; split; [reflexivity|]); rewrite length_vbits, Wl; apply answer_xs; lia.
Qed.

(** ** Selects *)

Lemma pad_answer v w (sg : bool) : sized v = true -> (0 < w)%nat ->
  answer (set_has_sign (select_bits v 0 (if sg then bit_at v (len v - 1) else V0) w) sg) (fit sg w (vbits v)) sg.
Proof.
  intros Hv Hw. pose proof Hv as (_ & _ & _ & Hp)%sized_spec. apply answer_map; [done|]. unfold fit, map_bits. rewrite length_vbits.
  apply map_ext. intros i. rewrite Z.add_0_l, (proj2 (Z.leb_le _ _)), Nat2Z.id by lia. cbn [andb].
  destruct (Z.ltb_spec (Z.of_nat i) (Z.of_nat (len v))), (Nat.ltb_spec i (len v)); try lia; [by rewrite vbits_at|].
  destruct sg; [by rewrite vbits_at by lia|done].
Qed.

Lemma part_answer v base w sg : (0 < w)%nat -> answer (set_has_sign (select_bits v base Vx w) sg) (part_bits base w (vbits v)) sg.
Proof.
  intros Hw. apply answer_map; [done|]. unfold part_bits, map_bits. apply map_ext. intros i.
  destruct (Z.leb_spec 0 (base + Z.of_nat i)); [|done]. cbn [andb].
  destruct (Z.ltb_spec (base + Z.of_nat i) (Z.of_nat (len v))); [by rewrite vbits_at by lia|]. rewrite bit_at_beyond; [done|rewrite length_vbits; lia].
Qed.

Lemma base_value b : is_defined b = true -> (0 < len b)%nat -> (len b <= 63)%nat -> as_long b = num (has_sign_ b) (vbits b).
Proof.
  intros Hd Hp Hl. assert (Hw : wf b) by (intros _; done). rewrite num_vbits, (proj2 (Nat.ltb_lt 0 (len b))), andb_true_r by done. change (as_long b = value b). apply as_long_value; [done..|].
  assert (2 ^ Z.of_nat (len b) <= 2 ^ 63) by (apply Z.pow_le_mono_r; lia).
  pose proof (uval_range (bits_ b)) as Hr. unfold value, len in *. destruct (_ && _); lia.
Qed.

(** ** The conditional operator *)

Lemma blend_answer t f sg : sized t = true -> sized f = true -> len t = len f ->
  exists v, blended_arguments_ (NetEConst t) (NetEConst f) sg = Some (NetEConst v) /\ answer v (zip_bits blend_bit (vbits t) (vbits f)) sg.
Proof.
  intros Ht Hf W. pose proof Ht as (_ & _ & _ & Hp)%sized_spec. cbn [blended_arguments_]. eexists; split; [reflexivity|]. rewrite <- W, Nat.max_id.
  apply answer_map; [done|]. unfold zip_bits, map_bits. rewrite length_vbits. apply map_ext_in. intros i Hi%in_seq.
  rewrite (proj2 (Nat.ltb_lt _ _)), !vbits_at by lia. unfold blend_bit. by destruct (bit_at t i), (bit_at f i).
Qed.

(** ** Concatenation *)

Lemma index_eq gap c k i : (c < gap)%nat -> i = (k * gap + c)%nat <-> (i mod gap = c /\ i / gap = k)%nat.
Proof.
  intros Hc. split.
  - intros ->. split; [symmetry; by apply (Nat.mod_unique _ _ k c); [|lia]|symmetry; apply (Nat.div_unique _ _ k c); lia].
  - intros [E1 E2]. pose proof (Nat.div_mod i gap ltac:(lia)). nia.
Qed.

Section Concat.
Context (rept gap : nat).

(** The number of a concatenation while it is filled: [F] gives the bits of a repetition. *)
Record filled (val : verinum) (F : nat -> V) : Prop := Filled {
  f_len : len val = (rept * gap)%nat;
  f_flags : has_len_ val = true /\ vector val;
  f_bits : forall i, (i < rept * gap)%nat -> bit_at val i = F (i mod gap)%nat;
}.

Lemma bit_at_set v j b i : (j < len v)%nat -> bit_at (set v j b) i = if decide (i = j) then b else bit_at v i.
Proof using.
  intros Hj. unfold bit_at, set. cbn [bits_]. case_decide as E; [subst; by rewrite list_lookup_insert_eq|by rewrite list_lookup_insert_ne].
Qed.

Lemma fill_column val F c b : (c < gap)%nat -> filled val F ->
  filled (for_loop rept 0 (fun rep val => set val (rep * gap + c) b) val) (fun j => if decide (j = c) then b else F j).
Proof using.
  intros Hc [Hl Hf Hb].
  pose proof (for_loop_ind (fun k v => len v = (rept * gap)%nat /\ (has_len_ v = true /\ vector v) /\
    forall i, (i < rept * gap)%nat -> bit_at v i = if decide (i mod gap = c /\ i / gap < k)%nat then b else F (i mod gap)%nat) rept 0
    (fun rep val => set val (rep * gap + c) b) val) as H.
  destruct H as (H1 & H2 & H3).
  - split; [done|]. split; [done|]. intros i Hi. rewrite decide_False by lia. by apply Hb.
  - intros k v Hk (H1 & H2 & H3). split; [by rewrite <- H1; unfold len; cbn; rewrite length_insert|]. split; [done|]. intros i Hi.
    rewrite bit_at_set by nia. pose proof (index_eq gap c k i Hc) as Hx. rewrite H3 by done. repeat case_decide; try done; exfalso; lia.
  - split; [done|done|]. intros i Hi. rewrite H3 by done. assert (i / gap < rept)%nat by (apply Nat.Div0.div_lt_upper_bound; lia).
    repeat case_decide; try done; exfalso; lia.
Qed.

Lemma fill_part val F cur tmp : (cur + len tmp <= gap)%nat -> filled val F ->
  filled (for_loop (len tmp) 0 (fun bit val => for_loop rept 0 (fun rep val => set val (rep * gap + (cur + bit)) (bit_at tmp bit)) val) val)
    (fun j => if (cur <=? j)%nat && (j <? cur + len tmp)%nat then bit_at tmp (j - cur) else F j).
Proof using.
  intros Hc HF.
  assert (H : filled (for_loop (len tmp) 0 (fun bit val => for_loop rept 0 (fun rep val => set val (rep * gap + (cur + bit)) (bit_at tmp bit)) val) val)
    (fun j => if (cur <=? j)%nat && (j <? cur + (0 + len tmp))%nat then bit_at tmp (j - cur) else F j)); [|done].
  apply (for_loop_ind (fun k v => filled v (fun j => if (cur <=? j)%nat && (j <? cur + k)%nat then bit_at tmp (j - cur) else F j))).
  - destruct HF as [H1 H2 H3]. split; [done..|]. intros i Hi. rewrite H3 by done. destruct (Nat.leb_spec cur (i mod gap)), (Nat.ltb_spec (i mod gap) (cur + 0)); (done || lia).
  - intros k v Hk Hv. apply (fill_column _ _ (cur + k) (bit_at tmp k)) in Hv as [H1 H2 H3]; [|lia]. split; [done..|]. intros i Hi. rewrite H3 by done.
    case_decide as E; [rewrite E, (proj2 (Nat.leb_le _ _)), (proj2 (Nat.ltb_lt _ _)) by lia; cbn [andb]; f_equal; lia|].
    destruct (Nat.leb_spec cur (i mod gap)), (Nat.ltb_spec (i mod gap) (cur + k)), (Nat.ltb_spec (i mod gap) (cur + S k)); try done; lia.
Qed.
Lemma filled_ext val F G : (forall j, F j = G j) -> filled val F -> filled val G.
Proof using. intros E [H1 H2 H3]. split; [done..|]. intros i Hi. by rewrite H3, E. Qed.

Lemma append_bits P v j : (if (length P <=? j)%nat && (j <? length P + len v)%nat then bit_at v (j - length P) else default Vx (P !! j)) = default Vx ((P ++ bits_ v) !! j).
Proof using.
  unfold len, bit_at. destruct (Nat.leb_spec (length P) j); cbn [andb]; [|by rewrite lookup_app_l].
  rewrite lookup_app_r by done. destruct (Nat.ltb_spec j (length P + length (bits_ v))).
  - destruct (lookup_lt_is_Some_2 (bits_ v) (j - length P)) as [b ->]; [lia|done].
  - by rewrite !lookup_ge_None_2 by lia.
Qed.

(** The parameters [vs], from the last one on, after the bits [P] *)
Lemma fill_parts vs : forall val P flag, filled val (fun j => default Vx (P !! j)) -> Forall (fun v => sized v = true) vs ->
  (length P + length (concat (map bits_ vs)) <= gap)%nat ->
  exists val', fold_left (concat_part rept gap) (map NetEConst vs) (Some (val, length P, flag)) =
      Some (val', (length P + length (concat (map bits_ vs)))%nat, flag && (length vs =? 0)%nat) /\
    filled val' (fun j => default Vx ((P ++ concat (map bits_ vs)) !! j)).
Proof using.
  induction vs as [|v vs IH]; intros val P flag HF Hs Hn.
  { exists val. cbn. by rewrite andb_true_r, Nat.add_0_r, app_nil_r. }
  apply list.Forall_cons in Hs as [Hv Hs]. cbn [map concat] in *. rewrite length_app in Hn. fold (len v) in Hn.
  pose proof Hv as (_ & _ & Ht & _)%sized_spec.
  apply (fill_part val _ (length P) v) in HF; [|lia]. cbn [fold_left concat_part mbind option_bind]. rewrite Ht, andb_false_r.
  destruct (IH _ (P ++ bits_ v) false (filled_ext _ _ _ (append_bits P v) HF)) as (val' & E & HF'); [done|rewrite length_app; unfold len in *; lia|].
  exists val'. rewrite <- app_assoc in HF'. split; [|done]. rewrite length_app in E. fold (len v) in E. rewrite E, length_app. fold (len v).
  cbn [length Nat.eqb]. by rewrite andb_false_r, Nat.add_assoc.
Qed.

Lemma fill_none es : Exists (fun e => is_const e = false) es -> forall s, fold_left (concat_part rept gap) es s = None.
Proof using.
  assert (Hn : forall l, fold_left (concat_part rept gap) l None = None) by (intros l; by induction l).
  induction 1 as [e es He|e es _ IH]; intros s; cbn [fold_left]; [|apply IH]. destruct s as [[[val cur] flag]|]; [|apply Hn].
  destruct e; try done; apply Hn.
Qed.
End Concat.

Lemma concat_answer rept ws sg : Forall (fun v => sized v = true) ws -> ws <> [] -> (0 < rept)%nat ->
  let P := concat (map vbits (rev ws)) in
  exists v, concat_arguments rept (map NetEConst ws) (length P) sg = Some (Some (NetEConst v)) /\ answer v (repeat_bits rept P) sg.
Proof.
  intros Hs Hne Hr P. set (Q := concat (map bits_ (rev ws))). assert (HP : P = map bit4_of_V Q).
  { unfold P, Q. rewrite concat_map, map_map. done. }
  assert (Hlen : length P = length Q) by by rewrite HP, length_map. assert (Hp : (0 < length Q)%nat).
  { destruct ws as [|v ws]; [done|]. apply list.Forall_cons in Hs as [(_ & _ & _ & Hv)%sized_spec _]. unfold Q. cbn [rev]. rewrite map_app, concat_app, length_app. cbn. rewrite length_app. unfold len in Hv. lia. }
  unfold concat_arguments. rewrite <- map_rev, Hlen.
  destruct (fill_parts rept (length Q) (rev ws) (verinum_fill Vx (rept * length Q) true) [] true) as (val & E & [F1 [F2 [F3 F4]] F5]).
  - split; [unfold len; cbn; by rewrite length_replicate|done|]. intros i Hi. unfold bit_at. cbn. by rewrite lookup_replicate_2.
  - apply list.Forall_forall. intros v Hv. rewrite list.Forall_forall in Hs. apply Hs. rewrite list_elem_of_In in *. by apply in_rev.
  - done.
  - cbn [length] in E. rewrite E. rewrite length_rev. destruct (Nat.eqb_spec (length ws) 0) as [E0|_]; [by destruct ws|]. cbn [andb mbind option_bind].
    eexists; split; [reflexivity|]. split; [|apply vbits_eq|done].
    + apply sized_spec. cbn. split; [done|]. split; [done|]. split; [done|]. change (0 < len val)%nat. rewrite F1. nia.
    + change (len val = length (repeat_bits rept P)). by rewrite F1, length_repeat_bits, Hlen.
    + intros i Hi. change (i < len val)%nat in Hi. rewrite F1 in Hi. change (bit4_of_V (bit_at val i) = Bits.bit_at (repeat_bits rept P) i).
      rewrite F5, bit_at_repeat, Hlen by (done || by rewrite Hlen). cbn [app]. fold Q. rewrite HP. unfold Bits.bit_at.
      change BIT4_X with (bit4_of_V Vx). rewrite map_nth. f_equal. assert (i mod length Q < length Q)%nat by (apply Nat.mod_upper_bound; lia).
      by rewrite <- nth_lookup.
Qed.
