(* ===== verification/EvalTreeFold.v ===== *)
(** * EvalTreeFold: constant folding keeps the value of an expression

    The meaning [den] of the expressions of the net list is that of the expressions
    that the code generator gets; [shape_ok] and [folds_ok] say for which of
    them the evaluation by the compiler has the value that the run has. *)

From Stdlib Require Import Ascii.
From S2P Require Import Prelude FourState Vector4 Vector4Conv Bits ThreadSpec ThreadCmp ThreadData ThreadShift ThreadDivSpec Codegen ExprSem CodegenNumber CodegenSelect.
From S2P Require Import Verinum VerinumValue VerinumCmp VerinumArith VerinumConv VerinumDiv VerinumPow EvalTree EvalTreeSpec.
Import Bit4 VNum.

Open Scope ivl_scope.

(** ** Induction *)

Section Ind.
Variable Q : NetExpr -> Prop.
Hypothesis H_const : forall v, Q (NetEConst v).
Hypothesis H_signal : forall vt w s sig, Q (NetESignal vt w s sig).
Hypothesis H_unary : forall op e w s, Q e -> Q (NetEUnary op e w s).
Hypothesis H_reduce : forall op e, Q e -> Q (NetEUReduce op e).
Hypothesis H_cast : forall e w s, Q e -> Q (NetECast e w s).
Hypothesis H_binary : forall op l r w s, Q l -> Q r -> Q (NetEBinary op l r w s).
Hypothesis H_min_max : forall m l r w s, Q l -> Q r -> Q (NetEBMinMax m l r w s).
Hypothesis H_ternary : forall c t f w s, Q c -> Q t -> Q f -> Q (NetETernary c t f w s).
Hypothesis H_concat : forall n ps w s vt, Forall Q ps -> Q (NetEConcat n ps w s vt).
Hypothesis H_pad : forall e w s, Q e -> Q (NetESelect e None w s).
Hypothesis H_select : forall e b w s, Q e -> Q b -> Q (NetESelect e (Some b) w s).

Fixpoint net_ind (e : NetExpr) : Q e :=
  match e with
  | NetEConst v => H_const v
  | NetESignal vt w s sig => H_signal vt w s sig
  | NetEUnary op e w s => H_unary op e w s (net_ind e)
  | NetEUReduce op e => H_reduce op e (net_ind e)
  | NetECast e w s => H_cast e w s (net_ind e)
  | NetEBinary op l r w s => H_binary op l r w s (net_ind l) (net_ind r)
  | NetEBMinMax m l r w s => H_min_max m l r w s (net_ind l) (net_ind r)
  | NetETernary c t f w s => H_ternary c t f w s (net_ind c) (net_ind t) (net_ind f)
  | NetEConcat n ps w s vt =>
    H_concat n ps w s vt ((fix go ps : Forall Q ps := match ps with [] => @List.Forall_nil _ Q | p :: ps => @List.Forall_cons _ Q p ps (net_ind p) (go ps) end) ps)
  | NetESelect e None w s => H_pad e w s (net_ind e)
  | NetESelect e (Some b) w s => H_select e b w s (net_ind e) (net_ind b)
  end.
End Ind.

(** ** Meaning and shape *)

(** The values of the parts, the last one in the low bits. *)
Definition den_parts (den : NetExpr -> bits) : list NetExpr -> bits :=
  fix go ps := match ps with [] => [] | p :: ps => go ps ++ den p end.

Section Shape.
Context (env : nat -> bits).

Fixpoint den (e : NetExpr) : bits :=
  match e with
  | NetEConst v => vbits v
  | NetESignal _ _ _ sig => env sig
  | NetEUnary op ex _ _ | NetEUReduce op ex => eval_unary (attr e) op (has_sign ex) (expr_type ex) (den ex)
  | NetECast ex _ _ => eval_unary (attr e) U_cast2 (has_sign ex) (expr_type ex) (den ex)
  | NetEBinary op l r _ _ => eval_binary (attr e) op (has_sign l) (has_sign r) (den l) (den r)
  | NetEBMinMax _ _ _ _ _ => []
  | NetETernary c t f _ _ => eval_ternary (den c) (den t) (den f)
  | NetEConcat rept ps _ _ _ => repeat_bits (Nat.max rept 1) (den_parts den ps)
  | NetESelect ex None w s => fit s w (den ex)
  | NetESelect ex (Some b) w _ => eval_select w (has_sign b) (den ex) (den b)
  end.

Definition is_bool (e : NetExpr) : bool := bool_decide (expr_type e = IVL_VT_BOOL).

Definition binary_shape (op : binary_op) (l r : NetExpr) (w : nat) (s : bool) : bool :=
  match op with
  | B_add | B_sub | B_mul | B_div | B_mod =>
    (expr_width l =? w)%nat && (expr_width r =? w)%nat && eqb (has_sign l) s && eqb (has_sign r) s
  | B_and | B_or | B_xor | B_nand | B_nor | B_xnor => (expr_width l =? w)%nat && (expr_width r =? w)%nat
  | B_eq | B_ne | B_ceq | B_cne | B_weq | B_wne | B_lt | B_le | B_gt | B_ge => (expr_width l =? expr_width r)%nat && (w =? 1)%nat && negb s
  | B_land | B_lor => (w =? 1)%nat && negb s
  | B_impl | B_equiv => (expr_width l =? 1)%nat && (expr_width r =? 1)%nat && (w =? 1)%nat && negb s
  | B_shl | B_shr | B_sar => (expr_width l =? w)%nat
  | B_pow => false
  end.

(** A select of a two-state operand has two-state bits when it is inside of the operand. *)
Definition select_known (ex : NetExpr) (base : NetExpr) (w : nat) : bool :=
  negb (is_bool ex) ||
  match base with
  | NetEConst b => is_defined b && (0 <=? as_long b) && (as_long b + Z.of_nat w <=? Z.of_nat (expr_width ex))
  | _ => false
  end.

Definition parts_sum (ps : list NetExpr) : nat := foldr (fun p n => (expr_width p + n)%nat) 0%nat ps.

(** The widths, signs and types that the elaboration of expressions gives; no power,
    minimum or maximum. *)
Fixpoint shape_ok (e : NetExpr) : bool :=
  (0 <? expr_width e)%nat && (Z.of_nat (expr_width e) <? 2 ^ 30) &&
  match e with
  | NetEConst v => sized v
  | NetESignal vt w _ sig => (w =? length (env sig))%nat && match vt with IVL_VT_BOOL => negb (has_unknown (env sig)) | _ => true end
  | NetEUnary op ex w s =>
    shape_ok ex && match op with U_inv | U_neg | U_abs => true | _ => false end && (w =? expr_width ex)%nat && eqb s (has_sign ex)
  | NetEUReduce op ex => shape_ok ex && match op with U_inv | U_neg | U_abs | U_cast2 => false | _ => true end
  | NetECast ex w s => shape_ok ex && eqb s (has_sign ex)
  | NetEBinary op l r w s => shape_ok l && shape_ok r && binary_shape op l r w s
  | NetEBMinMax _ _ _ _ _ => false
  | NetETernary c t f w s =>
    shape_ok c && shape_ok t && shape_ok f && (expr_width t =? w)%nat && (expr_width f =? w)%nat && eqb (has_sign t) s && eqb (has_sign f) s
  | NetEConcat rept ps w _ vt =>
    forallb shape_ok ps && (w =? rept * parts_sum ps)%nat && match vt with IVL_VT_BOOL => forallb is_bool ps | _ => true end
  | NetESelect ex None _ _ => shape_ok ex
  | NetESelect ex (Some b) w _ =>
    shape_ok ex && select_known ex b w && (expr_width b <=? 63)%nat &&
    match b with NetEConst v => negb (is_single_ v) && negb (string_flag_ v) && (0 <? len v)%nat | _ => shape_ok b end
  end.

(** An operand that becomes a constant becomes one without x. *)
Definition folds_defined (e : NetExpr) : bool := match eval_expr e with Some (NetEConst v) => is_defined v | _ => true end.

(** Where a constant operand would be evaluated otherwise than at run time: the
    magnitude and the base of a select have no x, and a select of an operand that
    becomes a two-state constant stays inside of it. *)
Fixpoint folds_ok (e : NetExpr) : bool :=
  match e with
  | NetEConst _ | NetESignal _ _ _ _ => true
  | NetEUnary op ex _ _ => folds_ok ex && match op with U_abs => folds_defined ex | _ => true end
  | NetEUReduce _ ex | NetECast ex _ _ => folds_ok ex
  | NetEBinary _ l r _ _ | NetEBMinMax _ l r _ _ => folds_ok l && folds_ok r
  | NetETernary c t f _ _ => folds_ok c && folds_ok t && folds_ok f
  | NetEConcat _ ps _ _ _ => forallb folds_ok ps
  | NetESelect ex None _ _ => folds_ok ex
  | NetESelect ex (Some b) w _ =>
    folds_ok ex && folds_ok b && folds_defined b &&
    match eval_expr ex, eval_expr b with Some ex, Some b => select_known ex b w | _, _ => true end
  end.

End Shape.

(** An expression of constants; [~&] and [~|] are not evaluated. *)
Fixpoint closed (e : NetExpr) : bool :=
  match e with
  | NetEConst _ => true
  | NetESignal _ _ _ _ => false
  | NetEUnary _ ex _ _ | NetEUReduce _ ex | NetECast ex _ _ | NetESelect ex None _ _ => closed ex
  | NetEBinary op l r _ _ => match op with B_nand | B_nor => false | _ => true end && closed l && closed r
  | NetEBMinMax _ l r _ _ => closed l && closed r
  | NetETernary c t f _ _ => closed c && closed t && closed f
  | NetEConcat _ ps _ _ _ => forallb closed ps
  | NetESelect ex (Some b) _ _ => closed ex && closed b
  end.

(** Boolean conditions as propositions *)
Ltac shape_split :=
  repeat match goal with
  | H : _ && _ = true |- _ => apply andb_prop in H; destruct H
  | H : (_ =? _)%nat = true |- _ => apply Nat.eqb_eq in H
  | H : (_ <=? _)%nat = true |- _ => apply Nat.leb_le in H
  | H : (_ <? _)%nat = true |- _ => apply Nat.ltb_lt in H
  | H : (_ <? _) = true |- _ => apply Z.ltb_lt in H
  | H : eqb _ _ = true |- _ => apply eqb_prop in H
  | H : negb _ = true |- _ => apply negb_true_iff in H
  end.

(** ** Bits without x *)

Lemma known_at l i : has_unknown l = false -> (i < length l)%nat -> bit4_is_xz (Bits.bit_at l i) = false.
Proof. rewrite has_unknown_false. auto. Qed.

Lemma known_map n f : (forall i, (i < n)%nat -> bit4_is_xz (f i) = false) -> has_unknown (map_bits n f) = false.
Proof. intros Hf. rewrite has_unknown_false, length_map_bits. intros i Hi. rewrite bit_at_map by done. by apply Hf. Qed.

Lemma known_app l r : has_unknown (l ++ r) = has_unknown l || has_unknown r.
Proof. apply existsb_app. Qed.

Lemma known_single b : has_unknown [b] = bit4_is_xz b.
Proof. unfold has_unknown. cbn [existsb]. apply orb_false_r. Qed.

Lemma known_all (g : vvp_bit4_t -> vvp_bit4_t -> vvp_bit4_t) e l : (forall a b, bit4_is_xz a = false -> bit4_is_xz b = false -> bit4_is_xz (g a b) = false) ->
  bit4_is_xz e = false -> has_unknown l = false -> bit4_is_xz (foldr g e l) = false.
Proof.
  intros Hg He. induction l as [|b l IH]; [done|]. unfold has_unknown. cbn [existsb foldr]. intros [Hb Hl]%orb_false_iff. apply Hg; [done|by apply IH].
Qed.

Lemma xz_not a : bit4_is_xz (bit4_not a) = bit4_is_xz a.
Proof. by destruct a. Qed.
Lemma xz_of_bool b : bit4_is_xz (bit4_of_bool b) = false.
Proof. by destruct b. Qed.

Lemma known_or_all l : has_unknown l = false -> bit4_is_xz (or_all l) = false.
Proof. apply known_all; [by intros [] []|done]. Qed.
Lemma known_and_all l : has_unknown l = false -> bit4_is_xz (and_all l) = false.
Proof. apply known_all; [by intros [] []|done]. Qed.
Lemma known_xor_all l : has_unknown l = false -> bit4_is_xz (xor_all l) = false.
Proof. apply known_all; [by intros [] []|done]. Qed.

Lemma known_fit sg n l : (0 < length l)%nat -> has_unknown l = false -> has_unknown (fit sg n l) = false.
Proof.
  intros Hl Hx. apply known_map. intros i _. destruct (Nat.ltb_spec i (length l)); [by apply known_at|]. destruct sg; [apply known_at; [done|lia]|done].
Qed.

Lemma known_zip f l r : (forall a b, bit4_is_xz a = false -> bit4_is_xz b = false -> bit4_is_xz (f a b) = false) ->
  length l = length r -> has_unknown l = false -> has_unknown r = false -> has_unknown (zip_bits f l r) = false.
Proof. intros Hf Hw Hl Hr. apply known_map. intros i Hi. apply Hf; apply known_at; (done || lia). Qed.

Lemma known_arith n z : has_unknown (arith n false z) = false.
Proof. apply has_unknown_bits_of_Z. Qed.

Lemma known_two_state l : has_unknown (two_state l) = false.
Proof. apply known_map. intros i _. by destruct (Bits.is_one _). Qed.

Lemma known_abs sg l : has_unknown l = false -> has_unknown (abs_bits sg l) = false.
Proof. intros Hx. unfold abs_bits. destruct (_ && _); [apply has_unknown_bits_of_Z|done]. Qed.

Lemma known_arith2 sg f l r : has_unknown l = false -> has_unknown r = false -> has_unknown (arith2 sg f l r) = false.
Proof. intros Hl Hr. unfold arith2. rewrite Hl, Hr. apply known_arith. Qed.

Lemma known_shl k l : 0 <= k -> has_unknown l = false -> has_unknown (shl_bits k l) = false.
Proof. intros Hk Hl. apply known_map. intros i Hi. destruct (Z.ltb_spec (Z.of_nat i) k); [done|]. apply known_at; [done|lia]. Qed.

Lemma known_shr b k l : 0 <= k -> bit4_is_xz b = false -> has_unknown l = false -> has_unknown (shr_bits b k l) = false.
Proof. intros Hk Hb Hl. apply known_map. intros i Hi. destruct (Z.ltb_spec (Z.of_nat i + k) (Z.of_nat (length l))); [|done]. apply known_at; [done|lia]. Qed.

Lemma known_repeat n l : has_unknown l = false -> has_unknown (repeat_bits n l) = false.
Proof. intros Hl. induction n as [|n IH]; [done|]. cbn [repeat_bits]. by rewrite known_app, Hl, IH. Qed.

Lemma known_pairs f l r : (forall a b, bit4_is_xz a = false -> bit4_is_xz b = false -> f a b = false) -> length l = length r ->
  has_unknown l = false -> has_unknown r = false -> some_pair f l r = false.
Proof. intros Hf Hw Hl Hr. apply some_pair_false. intros i Hi. apply Hf; apply known_at; (done || lia). Qed.

Lemma known_equality l r : length l = length r -> has_unknown l = false -> has_unknown r = false ->
  bit4_is_xz (eq_bit l r) = false /\ bit4_is_xz (wild_eq_bit l r) = false.
Proof.
  intros Hw Hl Hr. unfold eq_bit, wild_eq_bit. rewrite (known_pairs unknown), (known_pairs left_unknown) by (done || intros [] []; done).
  by destruct (some_pair known_differ l r).
Qed.

Lemma known_case_eq l r : bit4_is_xz (case_eq_bit l r) = false.
Proof. unfold case_eq_bit. by destruct (some_pair unequal l r). Qed.

Lemma known_order sg f l r : has_unknown l = false -> has_unknown r = false -> bit4_is_xz (order_bit sg f l r) = false.
Proof. intros Hl Hr. unfold order_bit. rewrite Hl, Hr. apply xz_of_bool. Qed.

Lemma known_part base w l : 0 <= base -> base + Z.of_nat w <= Z.of_nat (length l) -> has_unknown l = false -> has_unknown (part_bits base w l) = false.
Proof. intros H0 Hb Hl. apply known_map. intros i Hi. rewrite (proj2 (Z.leb_le _ _)) by lia. apply known_at; [done|lia]. Qed.

(** ** What the shape gives *)

Section Facts.
Context (env : nat -> bits).
Local Abbreviation shape_ok := (shape_ok env).
Local Abbreviation den := (den env).

Lemma shape_pos e : shape_ok e = true -> (0 < expr_width e)%nat /\ Z.of_nat (expr_width e) < 2 ^ 30.
Proof.
  assert (E : exists b, shape_ok e = (0 <? expr_width e)%nat && (Z.of_nat (expr_width e) <? 2 ^ 30) && b) by (destruct e; eexists; reflexivity).
  destruct E as [b ->]. intros H. shape_split. done.
Qed.

Lemma parts_length ps : Forall (fun p => length (den p) = expr_width p) ps -> length (den_parts den ps) = parts_sum ps.
Proof. induction 1 as [|p ps Hp _ IH]; [done|]. cbn. rewrite length_app. fold (den_parts den ps) (parts_sum ps). lia. Qed.

Lemma shape_parts rept ps w s vt : shape_ok (NetEConcat rept ps w s vt) = true ->
  Forall (fun p => shape_ok p = true) ps /\ w = (rept * parts_sum ps)%nat /\ (0 < rept)%nat /\ (0 < parts_sum ps)%nat /\
  (vt = IVL_VT_BOOL -> Forall (fun p => is_bool p = true) ps).
Proof.
  intros H. pose proof (shape_pos _ H) as [Hp _]. cbn -[Z.pow] in H, Hp. shape_split. subst w.
  split; [by apply List.Forall_forall, forallb_forall|]. split; [done|]. split; [lia|]. split; [lia|]. intros ->. by apply List.Forall_forall, forallb_forall.
Qed.

Lemma shape_length e : shape_ok e = true -> length (den e) = expr_width e.
Proof.
  induction e as [v|vt w s sig|op e w s IH|op e IH|e w s IH|op l r w s IHl IHr|m l r w s IHl IHr|c t f w s IHc IHt IHf|n ps w s vt IH|e w s IH|e b w s IH IHb] using net_ind; intros H.
  - apply length_vbits.
  - cbn -[Z.pow] in *. shape_split. done.
  - cbn -[Z.pow] in H. shape_split. cbn [EvalTreeFold.den expr_width]. rewrite (length_unary _ _ _ _ _ _ (IH ltac:(done))). by destruct op.
  - cbn -[Z.pow] in H. shape_split. cbn [EvalTreeFold.den expr_width]. rewrite (length_unary _ _ _ _ _ _ (IH ltac:(done))). by destruct op.
  - cbn -[Z.pow] in H. shape_split. cbn [EvalTreeFold.den expr_width]. by rewrite (length_unary _ _ _ _ _ _ (IH ltac:(done))).
  - cbn -[Z.pow] in H. shape_split. cbn [EvalTreeFold.den expr_width]. rewrite length_binary by by intros ->. rewrite IHl by done.
    destruct op; cbn in *; shape_split; congruence.
  - cbn -[Z.pow] in H. shape_split. done.
  - cbn -[Z.pow] in H. shape_split. cbn [EvalTreeFold.den expr_width]. rewrite length_ternary; rewrite ?IHt, ?IHf by done; congruence.
  - destruct (shape_parts _ _ _ _ _ H) as (Hs & -> & H0 & _ & _). cbn [EvalTreeFold.den expr_width]. rewrite length_repeat_bits, Nat.max_l by lia. f_equal.
    apply parts_length. rewrite List.Forall_forall in *. auto.
  - apply length_fit.
  - cbn [EvalTreeFold.den]. unfold eval_select. destruct (has_unknown _); [apply length_xs|apply length_part].
Qed.

Lemma shape_len_pos e : shape_ok e = true -> (0 < length (den e))%nat.
Proof. intros H. rewrite shape_length by done. by apply shape_pos. Qed.

(** The type [IVL_VT_BOOL] is kept when the expression has no x. *)
Lemma logic_if_bool a b : logic_if_either a b = IVL_VT_BOOL <-> a = IVL_VT_BOOL /\ b = IVL_VT_BOOL.
Proof. destruct a, b; cbn; intuition congruence. Qed.

Lemma const_bool_type v : sized v = true -> expr_type (NetEConst v) = IVL_VT_BOOL <-> is_defined v = true.
Proof.
  intros (_ & _ & Ht & Hl)%sized_spec. cbn. destruct (Nat.eqb_spec (len v) 0); [lia|]. rewrite Ht. cbn [orb]. by destruct (is_defined v).
Qed.

Lemma known_unary a op sg vt l : (0 < length l)%nat -> has_unknown l = false -> has_unknown (eval_unary a op sg vt l) = false.
Proof using.
  intros Hl Hx. destruct op; cbn [eval_unary]; rewrite ?known_single, ?xz_not.
  all: try (by apply known_and_all); try (by apply known_or_all); try (by apply known_xor_all).
  - by rewrite has_unknown_not.
  - unfold neg_bits. rewrite Hx. apply known_arith.
  - by apply known_abs.
  - apply known_fit; destruct vt; rewrite ?length_two_state; try done. apply known_two_state.
Qed.

Lemma known_binary a op sl sr l r : (0 < length l)%nat -> (0 < length r)%nat -> has_unknown l = false -> has_unknown r = false ->
  match op with B_and | B_or | B_xor | B_nand | B_nor | B_xnor | B_impl | B_equiv => length l = length r | B_div | B_mod | B_pow => False | _ => True end ->
  has_unknown (eval_binary a op sl sr l r) = false.
Proof using.
  intros Hl Hr Xl Xr Hw. set (m := Nat.max (length l) (length r)).
  assert (F : forall n, has_unknown (fit sl n l) = false /\ has_unknown (fit sr n r) = false) by by split; apply known_fit.
  assert (E : length (fit sl m l) = length (fit sr m r)) by by rewrite !length_fit.
  destruct (known_equality _ _ E (proj1 (F m)) (proj2 (F m))) as [E1 E2].
  assert (U : 0 <= unum r) by apply unum_range.
  destruct op; cbn [eval_binary]; try done; rewrite ?known_single, ?xz_not; try done.
  all: try (by apply known_arith2; apply F); try (by apply known_zip; [by intros [] []|..]); try apply known_case_eq; try (by apply known_order; apply F).
  - apply known_fit; [cbn; lia|]. rewrite known_single. pose proof (known_or_all l Xl). pose proof (known_or_all r Xr). by destruct (or_all l), (or_all r).
  - apply known_fit; [cbn; lia|]. rewrite known_single. pose proof (known_or_all l Xl). pose proof (known_or_all r Xr). by destruct (or_all l), (or_all r).
  - unfold shift_by. rewrite Xr. by apply known_shl.
  - unfold shift_by. rewrite Xr. by apply known_shr.
  - unfold shift_by. rewrite Xr. apply known_shr; [done| |done]. destruct sl; [apply known_at; [done|lia]|done].
  - apply known_zip; rewrite ?has_unknown_not, ?length_not; try done. by intros [] [].
Qed.

Lemma known_ternary c t f : has_unknown c = false -> has_unknown t = false -> has_unknown f = false -> has_unknown (eval_ternary c t f) = false.
Proof using. intros Hc Ht Hf. unfold eval_ternary. pose proof (known_or_all c Hc). by destruct (or_all c). Qed.

(** The base of a select *)
Lemma shape_select ex b w s : shape_ok (NetESelect ex (Some b) w s) = true ->
  shape_ok ex = true /\ select_known ex b w = true /\ (expr_width b <= 63)%nat /\ (0 < expr_width b)%nat /\
  ((exists v, b = NetEConst v /\ vector v /\ (0 < len v)%nat) \/ is_const b = false /\ shape_ok b = true).
Proof.
  intros [_ H]%andb_prop. shape_split. do 3 (split; [done|]).
  destruct b as [v| | | | | | | | |]; cbv iota in *; [shape_split; split; [done|]; left; by eexists|..].
  all: split; [by apply shape_pos|by right].
Qed.

Lemma select_known_base ex b w : is_bool ex = true -> select_known ex b w = true ->
  exists v, b = NetEConst v /\ is_defined v = true /\ 0 <= as_long v /\ as_long v + Z.of_nat w <= Z.of_nat (expr_width ex).
Proof using.
  unfold select_known. intros ->. cbn [negb orb]. destruct b as [v| | | | | | | | |]; try done. intros H. exists v. shape_split.
  split; [done|]. split; [done|]. split; [by apply Z.leb_le|by apply Z.leb_le].
Qed.

Lemma shape_known e : shape_ok e = true -> expr_type e = IVL_VT_BOOL -> has_unknown (den e) = false.
Proof.
  induction e as [v|vt w s sig|op e w s IH|op e IH|e w s IH|op l r w s IHl IHr|m l r w s IHl IHr|c t f w s IHc IHt IHf|n ps w s vt IH|e w s IH|e b w s IH IHb] using net_ind; intros H T.
  - cbn [EvalTreeFold.den]. rewrite unknown_vbits. apply negb_false_iff, const_bool_type; [|done]. cbn -[Z.pow] in H. by shape_split.
  - cbn -[Z.pow] in *. shape_split. subst vt. by shape_split.
  - cbn -[Z.pow] in H. shape_split. apply known_unary; [by apply shape_len_pos|by apply IH].
  - cbn -[Z.pow] in H. shape_split. apply known_unary; [by apply shape_len_pos|by apply IH].
  - cbn -[Z.pow] in H. shape_split. cbn [EvalTreeFold.den eval_unary]. apply known_fit.
    + destruct (expr_type e); rewrite ?length_two_state; by apply shape_len_pos.
    + destruct (expr_type e); [by apply IH|apply known_two_state].
  - cbn -[Z.pow] in H. shape_split. cbn [expr_type] in T. destruct op; try done; cbn [EvalTreeFold.den].
    all: try (apply logic_if_bool in T as [Tl Tr]; apply known_binary; try (by apply shape_len_pos); [by apply IHl|by apply IHr|]; rewrite ?shape_length by done; try done;
      match goal with Hb : binary_shape _ _ _ _ _ = true |- _ => cbn in Hb end; shape_split; congruence).
    all: cbn [eval_binary]; rewrite known_single, ?xz_not; apply known_case_eq.
  - cbn -[Z.pow] in H. shape_split. done.
  - cbn -[Z.pow] in H. shape_split. cbn in T. apply logic_if_bool in T as [[Tc Tt]%logic_if_bool Tf]. apply known_ternary; auto.
  - destruct (shape_parts _ _ _ _ _ H) as (Hs & _ & _ & _ & Hb). cbn in T. specialize (Hb T). cbn [EvalTreeFold.den]. apply known_repeat.
    clear - IH Hs Hb. induction ps as [|p ps IHp]; [done|]. apply list.Forall_cons in IH as [I1 I2], Hs as [S1 S2], Hb as [B1 B2].
    cbn. rewrite known_app. apply orb_false_iff. split; [by apply IHp|]. apply I1; [done|]. by apply bool_decide_eq_true in B1.
  - cbn -[Z.pow] in H. shape_split. apply known_fit; [by apply shape_len_pos|by apply IH].
  - destruct (shape_select _ _ _ _ H) as (He & Hk & Hw & Hp & Hb). cbn in T.
    destruct (select_known_base e b w) as (v & -> & Hd & H0 & Hn); [by apply bool_decide_eq_true|done|].
    cbn [EvalTreeFold.den has_sign]. unfold eval_select. rewrite unknown_vbits, Hd. cbn [negb]. rewrite <- base_value by done.
    apply known_part; [done|by rewrite shape_length|by apply IH].
Qed.

Lemma shape_has_width e : shape_ok e = true -> has_width e = true.
Proof.
  induction e as [v|vt w s sig|op e w s IH|op e IH|e w s IH|op l r w s IHl IHr|m l r w s IHl IHr|c t f w s IHc IHt IHf|n ps w s vt IH|e w s IH|e b w s IH IHb] using net_ind; intros H; try done.
  - cbn -[Z.pow] in H. shape_split. by match goal with Hs : sized v = true |- _ => apply sized_spec in Hs as [? _] end.
  - cbn -[Z.pow] in H. shape_split. cbn. rewrite IHl, IHr by done. by destruct op.
  - cbn -[Z.pow] in H. shape_split. done.
  - cbn -[Z.pow] in H. shape_split. cbn. by rewrite IHt, IHf.
Qed.

Lemma shape_operand e : shape_ok e = true -> operand_is e (den e).
Proof.
  intros H. split; [by rewrite shape_length|by apply shape_known|by destruct (expr_type e); auto|]. intros v ->. split; [|done].
  cbn -[Z.pow] in H. by shape_split.
Qed.

(** ** The expressions that the code generator gets *)

Definition scanned (e : NetExpr) (d : ivl_expr_t) : Prop :=
  expr_scan e = Some d /\ eval env d = den e /\ attr_of d = attr e /\ is_zero_replication d = false.

Lemma scan_const v : vector v -> exists d, scanned (NetEConst v) d.
Proof.
  intros [_ Ht]. eexists. unfold scanned. cbn [expr_scan]. unfold expr_const. rewrite Ht. split; [reflexivity|]. split; [|done].
  cbn [eval EvalTreeFold.den]. unfold number_value, vbits. cbn [attr width_ expr_width]. rewrite firstn_all2 by (unfold len; by rewrite length_map).
  rewrite map_map. apply map_ext. by intros [].
Qed.

Lemma scan_ok e : shape_ok e = true -> exists d, scanned e d.
Proof.
  assert (A : forall e d, scanned e d -> ivl_expr_signed d = has_sign e /\ ivl_expr_value d = expr_type e).
  { intros e' d (_ & _ & Ha & _). unfold ivl_expr_signed, ivl_expr_value. by rewrite Ha. }
  induction e as [v|vt w s sig|op e w s IH|op e IH|e w s IH|op l r w s IHl IHr|m l r w s IHl IHr|c t f w s IHc IHt IHf|n ps w s vt IH|e w s IH|e b w s IH IHb] using net_ind; intros H.
  - apply scan_const. cbn -[Z.pow] in H. shape_split. match goal with Hs : sized v = true |- _ => apply sized_spec in Hs as (_ & ? & ? & _) end. done.
  - by eexists.
  - cbn -[Z.pow] in H. shape_split. destruct IH as (d & Hd); [done|]. destruct (A _ _ Hd) as [A1 A2], Hd as (E1 & E2 & E3 & _).
    eexists. unfold scanned. cbn [expr_scan]. rewrite E1. split; [reflexivity|]. cbn [eval EvalTreeFold.den]. by rewrite A1, A2, E2.
  - cbn -[Z.pow] in H. shape_split. destruct IH as (d & Hd); [done|]. destruct (A _ _ Hd) as [A1 A2], Hd as (E1 & E2 & E3 & _).
    eexists. unfold scanned. cbn [expr_scan]. rewrite E1. split; [reflexivity|]. cbn [eval EvalTreeFold.den]. by rewrite A1, A2, E2.
  - cbn -[Z.pow] in H. shape_split. destruct IH as (d & Hd); [done|]. destruct (A _ _ Hd) as [A1 A2], Hd as (E1 & E2 & E3 & _).
    eexists. unfold scanned. cbn [expr_scan]. rewrite E1. split; [reflexivity|]. cbn [eval EvalTreeFold.den]. by rewrite A1, A2, E2.
  - cbn -[Z.pow] in H. shape_split. destruct IHl as (dl & Hl); [done|]. destruct IHr as (dr & Hr); [done|].
    destruct (A _ _ Hl) as [A1 _], (A _ _ Hr) as [A2 _], Hl as (E1 & E2 & _), Hr as (F1 & F2 & _).
    eexists. unfold scanned. cbn [expr_scan]. rewrite E1, F1. split; [reflexivity|]. cbn [eval EvalTreeFold.den]. by rewrite A1, A2, E2, F2.
  - cbn -[Z.pow] in H. by shape_split.
  - cbn -[Z.pow] in H. shape_split. destruct IHc as (dc & C1 & C2 & _); [done|]. destruct IHt as (dt & T1 & T2 & _); [done|]. destruct IHf as (df & F1 & F2 & _); [done|].
    eexists. unfold scanned. cbn [expr_scan]. rewrite C1, T1, F1. split; [reflexivity|]. cbn [eval EvalTreeFold.den]. by rewrite C2, T2, F2.
  - destruct (shape_parts _ _ _ _ _ H) as (Hs & _ & H0 & _).
    assert (P : exists ds, (fix scan_parms (parms : list NetExpr) : option (list ivl_expr_t) :=
        match parms with [] => Some [] | p :: parms => p ← expr_scan p; ps ← scan_parms parms; Some (p :: ps) end) ps = Some ds /\
        eval_parts (eval env) ds = den_parts den ps).
    { clear - IH Hs. induction ps as [|p ps IHp]; [by eexists|]. apply list.Forall_cons in IH as [I1 I2], Hs as [S1 S2].
      destruct (I1 S1) as (d & D1 & D2 & _ & D4), (IHp I2 S2) as (ds & P1 & P2). exists (d :: ds). rewrite D1, P1. split; [done|].
      cbn [eval_parts den_parts]. fold (eval_parts (eval env)) (den_parts den). by rewrite D4, P2, D2. }
    destruct P as (ds & P1 & P2). eexists. unfold scanned. cbn [expr_scan]. rewrite P1. split; [reflexivity|]. cbn [eval EvalTreeFold.den]. rewrite P2.
    split; [done|]. split; [done|]. destruct n; [lia|done].
  - cbn -[Z.pow] in H. shape_split. destruct IH as (d & E1 & E2 & _); [done|].
    eexists. unfold scanned. cbn [expr_scan]. rewrite E1. split; [reflexivity|]. cbn [eval EvalTreeFold.den]. by rewrite E2.
  - destruct (shape_select _ _ _ _ H) as (He & _ & _ & _ & Hb). destruct IH as (d & E1 & E2 & _); [done|].
    assert (B : exists db, scanned b db) by (destruct Hb as [(v & -> & Hv & _)|[_ Hb]]; [by apply scan_const|by apply IHb]).
    destruct B as (db & Hd). destruct (A _ _ Hd) as [A1 _], Hd as (F1 & F2 & _).
    eexists. unfold scanned. cbn [expr_scan]. rewrite E1, F1. split; [reflexivity|]. cbn [eval EvalTreeFold.den]. by rewrite A1, E2, F2.
Qed.
End Facts.

(** ** The operators on folded operands *)

Section Fold.
Context (env : nat -> bits).
Local Abbreviation shape_ok := (shape_ok env).
Local Abbreviation den := (den env).

Lemma const_or_not e : (exists v, e = NetEConst v) \/ is_const e = false.
Proof using. destruct e; [left; by eexists|by right..]. Qed.

Lemma shape_const v : shape_ok (NetEConst v) = true -> sized v = true.
Proof using. intros [_ H]%andb_prop. done. Qed.

(** What the evaluation of the operands [l] and [r] gives: nothing, or the value [b]. *)
Definition evaluated (consts : bool) (b : bits) (sg : bool) (res : option NetExpr) : Prop :=
  match res with Some e => exists v, e = NetEConst v /\ answer v b sg | None => consts = false end.

Definition evaluates (consts : bool) (b : bits) (sg : bool) (o : option (option NetExpr)) : Prop :=
  exists res, o = Some res /\ evaluated consts b sg res.

Lemma evaluates_const consts v b sg : answer v b sg -> evaluates consts b sg (Some (Some (NetEConst v))).
Proof using. intros Ha. eexists; split; [done|]. by exists v. Qed.

Lemma evaluates_none b sg : evaluates false b sg (Some None).
Proof using. by eexists. Qed.

Lemma evaluates_bit consts c b : bit4_of_V c = b -> evaluates consts [b] false (Some (Some (const1 c))).
Proof using. intros <-. apply evaluates_const, answer_bit. Qed.

Lemma answer_cast v b sg w : answer v b sg -> length b = w -> cast_to_width v w = v.
Proof using. intros Ha <-. pose proof (answer_len _ _ _ Ha). destruct Ha as [(Hl & _)%sized_spec _ _]. by apply cast_same. Qed.

Section Operands.
Context (l r : NetExpr) (Hl : shape_ok l = true) (Hr : shape_ok r = true).
Local Abbreviation consts := (is_const l && is_const r).

(** A function that evaluates constants alone *)
Lemma evaluates_pair (f : NetExpr -> NetExpr -> option (option NetExpr)) b sg :
  (is_const l && is_const r = false -> f l r = Some None) ->
  (forall lv rv, l = NetEConst lv -> r = NetEConst rv -> sized lv = true -> sized rv = true -> evaluates true b sg (f l r)) ->
  evaluates consts b sg (f l r).
Proof using Hl Hr.
  intros Hn Hc. destruct (is_const l && is_const r) eqn:E; [|rewrite Hn by done; apply evaluates_none].
  apply andb_true_iff in E as [El Er]. destruct (const_or_not l) as [[lv E1]|]; [|congruence]. destruct (const_or_not r) as [[rv E2]|]; [|congruence].
  apply (Hc lv rv E1 E2); apply shape_const; congruence.
Qed.

Lemma arith_evaluates op w s a : match op with B_add | B_sub | B_mul | B_div | B_mod => True | _ => False end ->
  binary_shape op l r w s = true -> width_ a = w ->
  evaluates consts (eval_binary a op (has_sign l) (has_sign r) (den l) (den r)) s (binary_arguments op l r w s).
Proof using Hl Hr.
  intros Hop Hb Ha.
  assert (Hw : expr_width l = w /\ expr_width r = w /\ has_sign l = s /\ has_sign r = s) by (destruct op; try done; cbn in Hb; by shape_split).
  destruct Hw as (Wl & Wr & Sl & Sr). apply (evaluates_pair (fun l r => binary_arguments op l r w s)); [by destruct op; try done; destruct l, r|].
  intros lv rv -> -> Hlv Hrv. cbn [EvalTreeFold.den has_sign expr_width] in *. unfold binary_arguments, add_arguments, mult_arguments, div_arguments.
  rewrite (asserted_widths lv rv w Hlv Wl Wr). cbn [with_assert].
  assert (Es : has_sign_ lv && has_sign_ rv = s) by (rewrite Sl, Sr; apply andb_diag).
  assert (Fl : forall sg, fit sg w (vbits lv) = vbits lv) by (intros; apply fit_same; by rewrite length_vbits).
  assert (Fr : forall sg, fit sg w (vbits rv) = vbits rv) by (intros; apply fit_same; by rewrite length_vbits).
  destruct op; try done; cbn [eval_binary]; rewrite Ha, Fl, Fr.
  - pose proof (plus_answer lv rv w Hlv Hrv Wl Wr) as A. rewrite Es in A. rewrite (answer_cast _ _ _ w A) by by rewrite length_arith2, length_vbits. by apply evaluates_const.
  - pose proof (minus_answer lv rv w Hlv Hrv Wl Wr) as A. rewrite Es in A. rewrite (answer_cast _ _ _ w A) by by rewrite length_arith2, length_vbits. by apply evaluates_const.
  - pose proof (times_answer lv rv w Hlv Hrv Wl Wr) as A. rewrite Es in A. rewrite (answer_cast _ _ _ w A) by by rewrite length_arith2, length_vbits. by apply evaluates_const.
  - destruct (div_answer lv rv Hlv Hrv) as (q & -> & A); [congruence..|]. rewrite Es in *. cbn [mbind option_bind].
    rewrite (answer_cast _ _ _ w A) by by rewrite length_quotient, length_vbits. by apply evaluates_const.
  - destruct (mod_answer lv rv Hlv Hrv) as (q & -> & A); [congruence..|]. rewrite Es in *. cbn [mbind option_bind].
    rewrite (answer_cast _ _ _ w A) by by rewrite length_remainder, length_vbits. by apply evaluates_const.
Qed.

Lemma eq_zero_bits v : truthy (verinum_eq v (verinum_of_int64 0)) = true -> forall i, (i < len v)%nat -> bit_at v i = V0.
Proof using.
  change (verinum_of_int64 0) with (Verinum [V0; V0] false true false false). unfold verinum_eq. cbn [has_sign_]. rewrite andb_true_r.
  set (lp := if has_sign_ v then bit_at v (len v - 1) else V0). change (if has_sign_ v then bit_at _ _ else V0) with (if has_sign_ v then V0 else V0).
  replace (if has_sign_ v then V0 else V0) with V0 by by destruct (has_sign_ v).
  destruct (has_sign_ v && bool_decide (lp = V1 /\ V0 = V0)); [done|].
  rewrite (bool_decide_false (lp = V0 /\ V0 = V1)) by (intros [_ ?]; done). rewrite andb_false_r. cbv zeta.
  set (n := Nat.max _ _). set (f := fun idx => if (idx <? len v)%nat then bit_at v idx else lp).
  set (g := fun idx => if (idx <? len (Verinum [V0; V0] false true false false))%nat then bit_at (Verinum [V0; V0] false true false false) idx else V0).
  intros Ht i Hi. destruct (eq_loop_range f g n) as [E|E].
  - change (for_loop n 0 _ V1) with (for_loop n 0 (fun idx res => if decide (res = V0) then res else if decide (f idx <> g idx) then V0 else res) V1) in Ht.
    by rewrite E in Ht.
  - pose proof (proj1 (eq_loop_spec f g n) E i ltac:(unfold n; lia)) as Hf. unfold f in Hf. rewrite (proj2 (Nat.ltb_lt _ _)) in Hf by done. rewrite Hf.
    unfold g. by destruct i as [|[|i]].
Qed.

Lemma zero_vbits v i : (forall i, (i < len v)%nat -> bit_at v i = V0) -> (i < len v)%nat -> Bits.bit_at (vbits v) i = BIT4_0.
Proof using. intros Hz Hi. by rewrite vbits_at, Hz. Qed.

Lemma zip_zeros (x y : bits) w : length x = w -> (forall i, (i < w)%nat -> bit4_and (Bits.bit_at x i) (Bits.bit_at y i) = BIT4_0) -> zip_bits bit4_and x y = repeat BIT4_0 w.
Proof using.
  intros <- Hz. apply bits_eq; [by rewrite length_zip, repeat_length|]. rewrite length_zip. intros i Hi. unfold zip_bits. rewrite bit_at_map, Hz by done.
  unfold Bits.bit_at. by rewrite nth_repeat_lt.
Qed.

Lemma bits_evaluates op w s a : match op with B_and | B_or | B_xor | B_xnor | B_nand | B_nor => True | _ => False end -> binary_shape op l r w s = true ->
  evaluates (match op with B_nand | B_nor => false | _ => true end && consts) (eval_binary a op (has_sign l) (has_sign r) (den l) (den r)) s (bits_arguments op l r w s).
Proof using Hl Hr.
  intros Hop Hb. assert (Hw : expr_width l = w /\ expr_width r = w) by (destruct op; try done; cbn in Hb; by shape_split). destruct Hw as [Wl Wr].
  destruct (is_const l && is_const r) eqn:E; [|rewrite andb_false_r; unfold bits_arguments; by destruct l, r; try apply evaluates_none].
  rewrite andb_true_r. apply andb_true_iff in E as [El Er]. destruct (const_or_not l) as [[lv ->]|]; [|congruence]. destruct (const_or_not r) as [[rv ->]|]; [|congruence].
  pose proof (shape_const lv Hl) as Hlv. pose proof (shape_const rv Hr) as Hrv. cbn [EvalTreeFold.den has_sign expr_width] in *.
  pose proof (pos_width lv w Hlv Wl) as Hp. unfold bits_arguments. rewrite (asserted_widths lv rv w Hlv Wl Wr). cbn [with_assert].
  destruct op; try done; cbn [eval_binary].
  - assert (Z : (forall i, (i < w)%nat -> bit4_and (Bits.bit_at (vbits lv) i) (Bits.bit_at (vbits rv) i) = BIT4_0) ->
      evaluates true (zip_bits bit4_and (vbits lv) (vbits rv)) s (Some (Some (NetEConst (set_has_sign (verinum_fill V0 w true) s))))).
    { intros Hz. rewrite (zip_zeros _ _ w) by (rewrite ?length_vbits; done). by apply evaluates_const, answer_fill. }
    destruct (truthy (verinum_eq lv _)) eqn:E1; [|destruct (truthy (verinum_eq rv _)) eqn:E2].
    + apply Z. intros i Hi. rewrite (zero_vbits lv) by (by apply eq_zero_bits || lia). by destruct (Bits.bit_at (vbits rv) i).
    + apply Z. intros i Hi. rewrite (zero_vbits rv) by (by apply eq_zero_bits || lia). by destruct (Bits.bit_at (vbits lv) i).
    + apply evaluates_const, zip_answer; try done. by intros [] [].
  - apply evaluates_const, zip_answer; try done. by intros [] [].
  - apply evaluates_const, zip_answer; try done. by intros [] [].
  - apply evaluates_none.
  - apply evaluates_none.
  - apply evaluates_const, (zip_answer lv rv w Hlv Wl Wr (fun a b => V_not (V_xor a b))). by intros [] [].
Qed.

Definition is_comp (op : binary_op) : bool := match op with B_eq | B_ne | B_ceq | B_cne | B_weq | B_wne | B_lt | B_le | B_gt | B_ge => true | _ => false end.

Lemma order_evaluates cmp eq le re L rv : operand_is le L -> re = NetEConst rv -> sized rv = true -> length L = len rv ->
  (forall lv, le = NetEConst lv -> is_defined lv = true -> is_defined rv = true ->
     truthy (cmp lv rv) = order eq (cmp_value (has_sign le && has_sign_ rv) lv) (cmp_value (has_sign le && has_sign_ rv) rv)) ->
  evaluates (is_const le) [order_bit (has_sign le && has_sign_ rv) (order eq) L (vbits rv)] false (eval_order_ cmp eq le re).
Proof using.
  intros Ho -> Hrv Hw Hc. destruct (eval_order_answer cmp eq le rv L Ho Hrv Hw Hc) as (res & E & Hn & He).
  exists res. split; [done|]. destruct res as [e|]; cbn [evaluated].
  - destruct (He e eq_refl) as (b & -> & <-). eexists; split; [done|]. apply answer_bit.
  - destruct (is_const le); [by specialize (Hn eq_refl)|done].
Qed.

Lemma order_none cmp eq le re : is_const re = false -> eval_order_ cmp eq le re = Some None.
Proof using. by destruct re. Qed.

Section Comparison.
Context (W : expr_width l = expr_width r).

Lemma same_length : length (den l) = length (den r).
Proof using Hl Hr W. by rewrite !shape_length. Qed.

Lemma fit_operands sl sr :
  fit sl (Nat.max (length (den l)) (length (den r))) (den l) = den l /\ fit sr (Nat.max (length (den l)) (length (den r))) (den r) = den r.
Proof using Hl Hr W. rewrite same_length, Nat.max_id. split; apply fit_same; [apply same_length|done]. Qed.

Lemma pair_evaluates (f : NetExpr -> NetExpr -> option (option NetExpr)) g c :
  (is_const l && is_const r = false -> f l r = Some None) ->
  (forall lv rv, len lv = len rv -> f (NetEConst lv) (NetEConst rv) = Some (Some (const1 (g lv rv))) /\ bit4_of_V (g lv rv) = c (vbits lv) (vbits rv)) ->
  evaluates consts [c (den l) (den r)] false (f l r).
Proof using Hl Hr W.
  intros Hn Hc. apply evaluates_pair; [done|]. intros lv rv El Er _ _. rewrite El, Er in *. destruct (Hc lv rv W) as [-> E2]. by apply evaluates_bit.
Qed.

Lemma eqeq_evaluates (ne : bool) : evaluates consts [if ne then bit4_not (eq_bit (den l) (den r)) else eq_bit (den l) (den r)] false (eval_eqeq_ ne l r).
Proof using Hl Hr W.
  eapply (pair_evaluates (eval_eqeq_ ne) _ (fun l r => if (ne : bool) then bit4_not (eq_bit l r) else eq_bit l r)); [by destruct l, r|].
  intros lv rv Wv. split; [by apply (eqeq_answer lv rv (len lv))|]. cbv beta. unfold eq_bit. by destruct (some_pair known_differ (vbits lv) (vbits rv)), (some_pair unknown (vbits lv) (vbits rv)), ne.
Qed.

Lemma weqeq_evaluates (ne : bool) : evaluates consts [if ne then bit4_not (wild_eq_bit (den l) (den r)) else wild_eq_bit (den l) (den r)] false (eval_weqeq_ ne l r).
Proof using Hl Hr W.
  eapply (pair_evaluates (eval_weqeq_ ne) _ (fun l r => if (ne : bool) then bit4_not (wild_eq_bit l r) else wild_eq_bit l r)); [by destruct l, r|].
  intros lv rv Wv. split; [by apply (weqeq_answer lv rv (len lv))|]. cbv beta. unfold wild_eq_bit. by destruct (some_pair known_differ (vbits lv) (vbits rv)), (some_pair left_unknown (vbits lv) (vbits rv)), ne.
Qed.

Lemma eqeqeq_evaluates (ne : bool) : evaluates consts [if ne then bit4_not (case_eq_bit (den l) (den r)) else case_eq_bit (den l) (den r)] false (eval_eqeqeq_ ne l r).
Proof using Hl Hr W.
  eapply (pair_evaluates (eval_eqeqeq_ ne) _ (fun l r => if (ne : bool) then bit4_not (case_eq_bit l r) else case_eq_bit l r)); [by destruct l, r|].
  intros lv rv Wv. split; [by apply (eqeqeq_answer lv rv (len lv))|]. cbv beta. unfold case_eq_bit. by destruct (some_pair unequal (vbits lv) (vbits rv)), ne.
Qed.

(** The comparisons by [lt] or [le] in both orders of the operands *)
Lemma ordered_evaluates eq cmp : (forall lv rv, is_defined lv = true -> wf lv -> is_defined rv = true -> wf rv ->
    truthy (cmp lv rv) = order eq (cmp_value (has_sign_ lv && has_sign_ rv) lv) (cmp_value (has_sign_ lv && has_sign_ rv) rv)) ->
  let sg := has_sign l && has_sign r in
  evaluates consts [order_bit sg (order eq) (den l) (den r)] false (eval_order_ cmp eq l r) /\
  evaluates consts [order_bit sg (order eq) (den r) (den l)] false (eval_order_ cmp eq r l).
Proof using Hl Hr W.
  intros Hc. pose proof (shape_operand env l Hl) as Ol. pose proof (shape_operand env r Hr) as Or. pose proof same_length as Ln. split.
  - destruct (const_or_not r) as [[rv E]|E]; [|rewrite order_none, E, andb_false_r by done; apply evaluates_none].
    assert (Hrv : sized rv = true) by (apply shape_const; congruence).
    pose proof (order_evaluates cmp eq l r (den l) rv Ol E Hrv ltac:(by rewrite Ln, E; apply length_vbits)) as H. rewrite E at 1 2 3. cbn [is_const has_sign EvalTreeFold.den].
    rewrite andb_true_r. apply H. intros lv El D1 D2. rewrite El. apply Hc; try done; apply sized_wf; [apply shape_const; congruence|done].
  - destruct (const_or_not l) as [[lv E]|E]; [|rewrite order_none, E by done; apply evaluates_none].
    assert (Hlv : sized lv = true) by (apply shape_const; congruence).
    pose proof (order_evaluates cmp eq r l (den r) lv Or E Hlv ltac:(by rewrite <- Ln, E; apply length_vbits)) as H. rewrite E at 1 2 3. cbn [is_const has_sign EvalTreeFold.den andb].
    rewrite andb_comm. apply H. intros rv Er D1 D2. rewrite Er. apply Hc; try done; apply sized_wf; [apply shape_const; congruence|done].
Qed.

Lemma lt_evaluates : let sg := has_sign l && has_sign r in
  evaluates consts [order_bit sg Z.ltb (den l) (den r)] false (eval_less_ l r) /\ evaluates consts [order_bit sg Z.gtb (den l) (den r)] false (eval_gt_ l r).
Proof using Hl Hr W.
  cbv zeta. rewrite order_gt_lt. unfold eval_less_, eval_gt_. split; [apply (ordered_evaluates false verinum_lt)|apply (ordered_evaluates false (fun r l => verinum_gt l r))];
    intros; rewrite ?lt_spec, ?truthy_bool by done; try done. unfold verinum_gt. by rewrite lt_spec, truthy_bool.
Qed.

Lemma le_evaluates : let sg := has_sign l && has_sign r in
  evaluates consts [order_bit sg Z.leb (den l) (den r)] false (eval_leeq_ l r) /\ evaluates consts [order_bit sg Z.geb (den l) (den r)] false (eval_gteq_ l r).
Proof using Hl Hr W.
  cbv zeta. rewrite order_ge_le. unfold eval_leeq_, eval_gteq_. split; [apply (ordered_evaluates true verinum_le)|apply (ordered_evaluates true (fun r l => verinum_ge l r))];
    intros; rewrite ?le_spec, ?truthy_bool by done; try done. unfold verinum_ge. by rewrite le_spec, truthy_bool.
Qed.

Lemma comp_evaluates op a : is_comp op = true ->
  evaluates consts (eval_binary a op (has_sign l) (has_sign r) (den l) (den r)) false (comp_arguments op l r).
Proof using Hl Hr W.
  intros Hop. destruct (fit_operands (has_sign l) (has_sign r)) as [F1 F2].
  destruct op; try done; cbn [comp_arguments eval_binary]; rewrite F1, F2;
    (apply (eqeq_evaluates false) || apply (eqeq_evaluates true) || apply (weqeq_evaluates false) || apply (weqeq_evaluates true)
     || apply (eqeqeq_evaluates false) || apply (eqeqeq_evaluates true) || apply lt_evaluates || apply le_evaluates).
Qed.
End Comparison.

Lemma one_bit (x : bits) : length x = 1%nat -> exists b, x = [b].
Proof using. destruct x as [|b [|]]; try done. by exists b. Qed.

Lemma eval_logic op w s a : is_logic op = true -> binary_shape op l r w s = true -> width_ a = w ->
  s = false /\ eval_binary a op (has_sign l) (has_sign r) (den l) (den r) = [logic_bit op (or_all (den l)) (or_all (den r))].
Proof using Hl Hr.
  intros Hop Hb Ha. pose proof (shape_length env l Hl) as Ll. pose proof (shape_length env r Hr) as Lr.
  destruct op; try done; cbn in Hb; shape_split; (split; [done|]); subst w; cbn [eval_binary logic_bit]; try (rewrite fit_same by done; reflexivity).
  all: destruct (one_bit (den l)) as [x ->]; [lia|]; destruct (one_bit (den r)) as [y ->]; [lia|]; by destruct x, y.
Qed.

Lemma logic_evaluates op w s a : is_logic op = true -> binary_shape op l r w s = true -> width_ a = w ->
  evaluates consts (eval_binary a op (has_sign l) (has_sign r) (den l) (den r)) s (Some (logic_arguments op l r)).
Proof using Hl Hr.
  intros Hop Hb Ha. destruct (eval_logic op w s a Hop Hb Ha) as [-> ->]. eexists; split; [done|].
  destruct (const_or_not l) as [[lv El]|El]; [|by destruct l].
  destruct (const_or_not r) as [[rv Er]|Er].
  - rewrite El, Er. cbn [is_const andb EvalTreeFold.den]. destruct (logic_answer op lv rv Hop) as (b & -> & <-). cbn [evaluated]. eexists; split; [done|]. apply answer_bit.
  - rewrite Er, andb_false_r, El. destruct (logic_arguments op (NetEConst lv) r) as [e|] eqn:E; [|done].
    destruct (logic_half_answer op lv r e Er E) as (b & -> & Hx). cbn [evaluated EvalTreeFold.den]. rewrite <- (Hx (or_all (den r))). eexists; split; [done|]. apply answer_bit.
Qed.

Lemma shift_evaluates op w s a : is_shift op = true -> binary_shape op l r w s = true ->
  evaluates consts (eval_binary a op (has_sign l) (has_sign r) (den l) (den r)) s (shift_arguments op l r w s).
Proof using Hl Hr.
  intros Hop Hb. assert (Wl : expr_width l = w) by (destruct op; try done; cbn in Hb; by shape_split). pose proof (shape_pos env l Hl) as [_ Hs].
  replace (eval_binary a op (has_sign l) (has_sign r) (den l) (den r)) with (shift_bits op (has_sign l) (den l) (den r)) by by destruct op.
  apply (evaluates_pair (fun l r => shift_arguments op l r w s)); [by destruct l, r|]. intros lv rv -> -> Hlv Hrv. cbn [expr_width] in *. subst w.
  destruct (shift_answer op lv rv (len lv) s Hop Hlv Hrv eq_refl Hs) as (v & -> & A). by apply evaluates_const.
Qed.

Lemma binary_evaluates op w s a : binary_shape op l r w s = true -> width_ a = w ->
  evaluates (match op with B_nand | B_nor => false | _ => true end && consts) (eval_binary a op (has_sign l) (has_sign r) (den l) (den r)) s (binary_arguments op l r w s).
Proof using Hl Hr.
  intros Hb Ha. destruct op; try (by apply (arith_evaluates _ w s)); cbn [binary_arguments andb]; try done.
  all: try match goal with |- context [bits_arguments ?o] => exact (bits_evaluates o w s a I Hb) end.
  all: try (by apply (logic_evaluates _ w)); try by apply shift_evaluates.
  all: cbn in Hb; shape_split; subst s; by apply comp_evaluates.
Qed.
End Operands.

Lemma shape_binary op l r w s : (0 < w)%nat -> Z.of_nat w < 2 ^ 30 -> shape_ok l = true -> shape_ok r = true -> binary_shape op l r w s = true ->
  shape_ok (NetEBinary op l r w s) = true.
Proof using.
  intros Hp%Nat.ltb_lt Hs%Z.ltb_lt Hl Hr Hb. change ((0 <? w)%nat && (Z.of_nat w <? 2 ^ 30) && (shape_ok l && shape_ok r && binary_shape op l r w s) = true).
  by rewrite Hp, Hs, Hl, Hr, Hb.
Qed.

(** [e'] may stand for [e]. *)
Record good (e e' : NetExpr) : Prop := Good {
  g_shape : shape_ok e' = true;
  g_den : den e' = den e;
  g_width : expr_width e' = expr_width e;
  g_sign : has_sign e' = has_sign e;
  g_bool : expr_type e = IVL_VT_BOOL -> expr_type e' = IVL_VT_BOOL;
}.

Lemma good_refl e : shape_ok e = true -> good e e.
Proof using. by split. Qed.

Lemma good_trans e1 e2 e3 : good e1 e2 -> good e2 e3 -> good e1 e3.
Proof using. intros [A1 A2 A3 A4 A5] [B1 B2 B3 B4 B5]. split; [done|congruence|congruence|congruence|auto]. Qed.

Lemma answer_shape v b sg : answer v b sg -> Z.of_nat (length b) < 2 ^ 30 -> shape_ok (NetEConst v) = true.
Proof using.
  intros Ha Hb. pose proof (answer_len _ _ _ Ha) as Hn. destruct Ha as [Hs _ _]. pose proof Hs as (_ & _ & _ & Hp)%sized_spec.
  cbn [EvalTreeFold.shape_ok expr_width]. rewrite Hs, andb_true_r. apply andb_true_iff. split; [by apply Nat.ltb_lt|apply Z.ltb_lt; by rewrite Hn].
Qed.

Lemma good_const e v : shape_ok e = true -> answer v (den e) (has_sign e) -> good e (NetEConst v).
Proof using.
  intros He Ha. pose proof (shape_pos env e He) as [Hp Hs]. pose proof (shape_length env e He) as Hn. pose proof (answer_len _ _ _ Ha) as Hv.
  pose proof (answer_shape v _ _ Ha ltac:(by rewrite Hn)) as Sh. destruct Ha as [Hz Hb Hg]. split; try done; [by rewrite <- Hn|].
  intros T. apply const_bool_type; [done|]. apply negb_false_iff. rewrite <- unknown_vbits, Hb. by apply shape_known.
Qed.

Lemma unknown_arith n u z : (0 < n)%nat -> has_unknown (arith n u z) = u.
Proof using. intros Hn. destruct u; [|apply known_arith]. destruct n; [lia|done]. Qed.

Lemma num_arith n z : num false (arith n false z) mod 2 ^ Z.of_nat n = z mod 2 ^ Z.of_nat n.
Proof using. unfold num, arith. cbn [andb]. rewrite unum_bits_of_Z. apply Z.mod_mod. pose proof (pow2_pos (Z.of_nat n)). lia. Qed.

(** [(a g b) f c = a f (c k b)] for sums and differences *)
Lemma arith2_combine (f g k : Z -> Z -> Z) A B C :
  (forall n a b, 0 < n -> f a b mod n = f (a mod n) (b mod n) mod n) -> (forall a b c, f (g a b) c = f a (k c b)) ->
  length A = length B -> length B = length C -> (0 < length A)%nat ->
  arith2 false f (arith2 false g A B) C = arith2 false f A (arith2 false k C B).
Proof using.
  intros Hf Hk HA HB Hp. set (n := length A). unfold arith2. rewrite <- HB, <- HA, length_arith. fold n. rewrite !unknown_arith by done.
  replace (has_unknown A || has_unknown B || has_unknown C) with (has_unknown A || (has_unknown C || has_unknown B))
    by (destruct (has_unknown A), (has_unknown B), (has_unknown C); done).
  apply arith_ext. intros [XA [XC XB]%orb_false_iff]%orb_false_iff. rewrite XA, XB, XC. cbn [orb].
  assert (Hn : 0 < 2 ^ Z.of_nat n) by (apply pow2_pos; lia).
  rewrite Hf, num_arith, <- Hf by done. symmetry. rewrite Hf, num_arith, <- Hf by done. by rewrite Hk.
Qed.

Lemma type_add op a b w s : op = B_add \/ op = B_sub -> expr_type (NetEBinary op a b w s) = logic_if_either (expr_type a) (expr_type b).
Proof using. by intros [-> | ->]. Qed.

(** When the transformation applies, and the expression it gives *)
Lemma combine_cases op l r w s : combine_constants op l r w s = Some (NetEBinary op l r w s) \/
  exists se a lv rv w' s', l = NetEBinary se a (NetEConst lv) w' s' /\ r = NetEConst rv /\ (op = B_add \/ op = B_sub) /\ (se = B_add \/ se = B_sub) /\
    combine_constants op l r w s = with_assert (both_widths w lv rv)
      (Some (NetEBinary op a (NetEConst (cast_to_width (if decide (op = se) then verinum_plus rv lv else verinum_minus rv lv) w)) w s)).
Proof using.
  destruct op; try (by left); (destruct l as [| | | | |se a b w' s'| | | |]; try (by left)); (destruct se; try (by left)); (destruct b as [lv| | | | | | | | |]; try (by left));
    (destruct r as [rv| | | | | | | | |]; try (by left)); right; do 6 eexists; (split; [done|]); (split; [done|]); auto.
Qed.

Lemma combined_answer op se lv rv w s : sized lv = true -> sized rv = true -> len lv = w -> len rv = w -> has_sign_ lv = s -> has_sign_ rv = s ->
  answer (cast_to_width (if decide (op = se :> binary_op) then verinum_plus rv lv else verinum_minus rv lv) w)
    (arith2 false (if decide (op = se) then Z.add else Z.sub) (vbits rv) (vbits lv)) s.
Proof using.
  intros Zl Zr Wl Wr Sl Sr. assert (Es : has_sign_ rv && has_sign_ lv = s) by (rewrite Sl, Sr; apply andb_diag). case_decide.
  - pose proof (plus_answer rv lv w Zr Zl Wr Wl) as A. rewrite Es in A. by rewrite (answer_cast _ _ _ w A) by by rewrite length_arith2, length_vbits.
  - pose proof (minus_answer rv lv w Zr Zl Wr Wl) as A. rewrite Es in A. by rewrite (answer_cast _ _ _ w A) by by rewrite length_arith2, length_vbits.
Qed.

Lemma combine_good op l r w s : shape_ok (NetEBinary op l r w s) = true ->
  exists self, combine_constants op l r w s = Some self /\ good (NetEBinary op l r w s) self.
Proof using.
  intros H. destruct (combine_cases op l r w s) as [->|(se & a & lv & rv & w' & s' & -> & -> & Hop & Hse & ->)]; [eexists; split; [done|by apply good_refl]|].
  pose proof (shape_pos env _ H) as [Hp Hs]. pose proof H as [_ [[Hl Hr]%andb_prop Hb]%andb_prop]%andb_prop. pose proof Hl as [_ [[Ha Hlv]%andb_prop Hb']%andb_prop]%andb_prop.
  apply shape_const in Hr as Zr. apply shape_const in Hlv as Zl.
  assert (Hw : w' = w /\ len lv = w /\ len rv = w /\ expr_width a = w /\ s' = s /\ has_sign_ lv = s /\ has_sign_ rv = s /\ has_sign a = s).
  { destruct Hop as [-> | ->], Hse as [-> | ->]; cbn in Hb, Hb'; shape_split; subst; done. }
  destruct Hw as (-> & Wl & Wr & Wa & -> & Sl & Sr & Sa).
  rewrite (asserted_widths lv rv w Zl Wl Wr). cbn [with_assert]. eexists; split; [reflexivity|].
  pose proof (combined_answer op se lv rv w s Zl Zr Wl Wr Sl Sr) as A. set (v := cast_to_width _ w) in *.
  pose proof (answer_len _ _ _ A) as Lv. rewrite length_arith2, length_vbits, Wr in Lv.
  pose proof (answer_shape v _ _ A) as Sv. rewrite length_arith2, length_vbits, Wr in Sv. specialize (Sv Hs). destruct A as [Zv Bv Gv].
  assert (Fit : forall sg x, length x = w -> fit sg w x = x) by (intros; by apply fit_same).
  assert (La : length (den a) = w) by by rewrite shape_length.
  split; try done.
  - apply shape_binary; [done..|]. destruct Hop as [-> | ->]; cbn; by rewrite Lv, Wa, Gv, Sa, Nat.eqb_refl, eqb_reflx.
  - clearbody v. destruct Hop as [-> | ->], Hse as [-> | ->]; cbn [EvalTreeFold.den eval_binary width_ attr expr_width]; rewrite Bv, !Fit by (rewrite ?length_arith2, ?length_vbits; done || congruence);
      symmetry; apply arith2_combine; rewrite ?length_vbits; try congruence; try (by apply shape_len_pos).
    all: intros; try (rewrite Z.add_mod by lia; done); try (rewrite Zminus_mod; done); case_decide; (done || lia).
  - rewrite !type_add by done. intros [[Ta Tl]%logic_if_bool Tr]%logic_if_bool. apply logic_if_bool. split; [done|]. apply const_bool_type; [done|].
    apply const_bool_type in Tl, Tr; try done. apply negb_false_iff. rewrite <- unknown_vbits, Bv. apply known_arith2; rewrite unknown_vbits; by apply negb_false_iff.
Qed.

(** ** Folded operands in their place *)

(** A node keeps its shape when the condition on its operands is kept. *)
Lemma shape_node (c b b' : bool) : c && b = true -> (b = true -> b' = true) -> c && b' = true.
Proof using. intros [Hc Hb]%andb_prop Hi. rewrite Hc. by apply Hi. Qed.

Lemma good_unary op ex ex' w s : shape_ok (NetEUnary op ex w s) = true -> good ex ex' -> good (NetEUnary op ex w s) (NetEUnary op ex' w s).
Proof using.
  intros H [G1 G2 G3 G4 G5]. split; try done.
  - refine (shape_node _ _ _ H _). intros Hb. shape_split. rewrite G3, G4. repeat (apply andb_true_iff; split); try done; [by apply Nat.eqb_eq|by subst; apply eqb_reflx].
  - apply andb_prop in H as [_ Hb]. shape_split. cbn [EvalTreeFold.den]. rewrite G2, G4. by destruct op.
Qed.

Lemma good_reduce op ex ex' : shape_ok (NetEUReduce op ex) = true -> good ex ex' -> good (NetEUReduce op ex) (NetEUReduce op ex').
Proof using.
  intros H [G1 G2 G3 G4 G5]. split; try done.
  - refine (shape_node _ _ _ H _). intros Hb. shape_split. by apply andb_true_iff.
  - apply andb_prop in H as [_ Hb]. shape_split. cbn [EvalTreeFold.den]. rewrite G2, G4. by destruct op.
Qed.

Lemma two_state_known l : has_unknown l = false -> two_state l = l.
Proof using.
  intros Hx. apply bits_eq; [apply length_two_state|]. rewrite length_two_state. intros i Hi. unfold two_state. rewrite bit_at_map by done.
  rewrite (known_bit_at l i) by done. by destruct (Z.testbit _ _).
Qed.

Lemma den_cast ex w s : shape_ok ex = true -> den (NetECast ex w s) = fit (has_sign ex) w (two_state (den ex)).
Proof using.
  intros H. cbn [EvalTreeFold.den eval_unary]. cbn [attr width_ expr_width]. destruct (expr_type ex) eqn:T; [|done]. by rewrite two_state_known by by apply shape_known.
Qed.

Lemma good_cast ex ex' w s : shape_ok (NetECast ex w s) = true -> good ex ex' -> good (NetECast ex w s) (NetECast ex' w s).
Proof using.
  intros H [G1 G2 G3 G4 G5]. split; try done.
  - refine (shape_node _ _ _ H _). intros Hb. shape_split. rewrite G4. by apply andb_true_iff; split; [|subst; apply eqb_reflx].
  - apply andb_prop in H as [_ Hb]. shape_split. by rewrite !den_cast, G2, G4.
Qed.

Lemma binary_shape_same op l r l' r' w s : expr_width l' = expr_width l -> has_sign l' = has_sign l -> expr_width r' = expr_width r -> has_sign r' = has_sign r ->
  binary_shape op l' r' w s = binary_shape op l r w s.
Proof using. intros E1 E2 E3 E4. destruct op; cbn; by rewrite ?E1, ?E2, ?E3, ?E4. Qed.

Lemma good_binary op l r l' r' w s : shape_ok (NetEBinary op l r w s) = true -> good l l' -> good r r' -> good (NetEBinary op l r w s) (NetEBinary op l' r' w s).
Proof using.
  intros H [G1 G2 G3 G4 G5] [K1 K2 K3 K4 K5]. split; try done.
  - refine (shape_node _ _ _ H _). intros Hb. shape_split. repeat (apply andb_true_iff; split); try done. by rewrite (binary_shape_same _ l r).
  - cbn [EvalTreeFold.den]. rewrite G2, K2, G4, K4. by destruct op.
  - cbn [expr_type]. destruct op; try done; rewrite !logic_if_bool; tauto.
Qed.

Lemma good_ternary c t f c' t' f' w s : shape_ok (NetETernary c t f w s) = true -> good c c' -> good t t' -> good f f' ->
  good (NetETernary c t f w s) (NetETernary c' t' f' w s).
Proof using.
  intros H [G1 G2 G3 G4 G5] [K1 K2 K3 K4 K5] [L1 L2 L3 L4 L5]. split; try done.
  - refine (shape_node _ _ _ H _). intros Hb. shape_split. rewrite K3, K4, L3, L4. repeat (apply andb_true_iff; split); try done; try (by apply Nat.eqb_eq); by subst; apply eqb_reflx || (apply eqb_true_iff; congruence).
  - cbn [EvalTreeFold.den]. by rewrite G2, K2, L2.
  - cbn [expr_type]. rewrite !logic_if_bool. tauto.
Qed.

Lemma good_pad ex ex' w s : shape_ok (NetESelect ex None w s) = true -> good ex ex' -> good (NetESelect ex None w s) (NetESelect ex' None w s).
Proof using.
  intros H [G1 G2 G3 G4 G5]. split; try done.
  - exact (shape_node _ _ _ H (fun _ => G1)).
  - cbn [EvalTreeFold.den]. by rewrite G2.
Qed.

(** ** Evaluation *)

Definition folds (e : NetExpr) : Prop := exists e', eval_expr e = Some e' /\ good e e' /\ (closed e = true -> is_const e' = true).

Lemma folds_intro e self res : eval_tree e = Some (self, res) ->
  match res with Some x => good e x /\ (closed e = true -> is_const x = true) | None => good e self /\ closed e = false end -> folds e.
Proof using.
  intros E H. exists (replaced (self, res)). unfold eval_expr. rewrite E. split; [done|]. destruct res as [x|]; [done|]. cbn [replaced snd fst default].
  destruct H as [Hg ->]. done.
Qed.

(** What an operator that is [evaluated] makes of the node. *)
Lemma folds_evaluated e e1 consts res : eval_tree e = Some (e1, res) -> shape_ok e1 = true -> good e e1 ->
  evaluated consts (den e1) (has_sign e1) res -> (closed e = true -> consts = true) -> folds e.
Proof using.
  intros E Hs Hg He Hc. apply (folds_intro e e1 res E). destruct res as [x|]; cbn [evaluated] in He.
  - destruct He as (v & -> & Ha). split; [|done]. apply (good_trans _ e1); [done|]. by apply good_const.
  - split; [done|]. destruct (closed e); [|done]. rewrite He in Hc. by specialize (Hc eq_refl).
Qed.

Lemma folds_unary op ex w s : shape_ok (NetEUnary op ex w s) = true -> (op = U_abs -> folds_defined ex = true) -> folds ex -> folds (NetEUnary op ex w s).
Proof using.
  intros H Hd (ex' & E & G & C). pose proof (good_unary op ex ex' w s H G) as Gu. unfold folds_defined in Hd. rewrite E in Hd.
  assert (Hev : evaluates (is_const ex') (den (NetEUnary op ex' w s)) s (unary_arguments op ex')).
  { pose proof (g_shape _ _ Gu) as Su. pose proof Su as Hb. apply andb_prop in Hb as [_ Hb]. shape_split. destruct (const_or_not ex') as [[v ->]|N]; [|rewrite N; by destruct ex'; try apply evaluates_none].
    pose proof (shape_const v (g_shape _ _ G)) as Zv. subst s. destruct op; try done; apply evaluates_const; cbn [EvalTreeFold.den eval_unary].
    - by apply not_answer.
    - by apply uminus_answer.
    - specialize (Hd eq_refl). cbv iota in Hd. rewrite Hd. by apply abs_answer. }
  destruct Hev as (res & Er & He). apply (folds_evaluated _ (NetEUnary op ex' w s) (is_const ex') res); try done; [|apply Gu].
  change (eval_tree (NetEUnary op ex w s)) with (ex ← eval_expr ex; res ← unary_arguments op ex; Some (NetEUnary op ex w s, res)).
  rewrite E. cbn [mbind option_bind]. by rewrite Er.
Qed.

Lemma folds_reduce op ex : shape_ok (NetEUReduce op ex) = true -> folds ex -> folds (NetEUReduce op ex).
Proof using.
  intros H (ex' & E & G & C). pose proof (good_reduce op ex ex' H G) as Gu.
  assert (Hev : evaluated (is_const ex') (den (NetEUReduce op ex')) false (reduce_arguments op ex')).
  { pose proof (g_shape _ _ Gu) as Hb. apply andb_prop in Hb as [_ Hb]. shape_split. destruct (const_or_not ex') as [[v ->]|N]; [|rewrite N; by destruct ex'].
    assert (B : forall b c, bit4_of_V b = c -> evaluated true [c] false (Some (const1 b))) by (intros b c <-; eexists; split; [done|]; apply answer_bit).
    assert (N : forall b, bit4_of_V (V_not b) = bit4_not (bit4_of_V b)) by by intros [].
    destruct op; try done; cbn [reduce_arguments EvalTreeFold.den eval_unary]; apply B; rewrite ?N;
      by rewrite ?scan_and_bit, ?scan_or_bit, ?scan_xor_bit, ?logical_not_bit. }
  apply (folds_evaluated _ (NetEUReduce op ex') (is_const ex') (reduce_arguments op ex')); try done; [|apply Gu].
  change (eval_tree (NetEUReduce op ex)) with (ex ← eval_expr ex; Some (NetEUReduce op ex, reduce_arguments op ex)). by rewrite E.
Qed.

Lemma folds_cast ex w s : shape_ok (NetECast ex w s) = true -> folds ex -> folds (NetECast ex w s).
Proof using.
  intros H (ex' & E & G & C). pose proof (good_cast ex ex' w s H G) as Gu.
  assert (Hev : evaluated (is_const ex') (den (NetECast ex' w s)) s (cast_arguments ex' w)).
  { pose proof (g_shape _ _ Gu) as Su. pose proof (shape_pos env _ Su) as [Hp _]. apply andb_prop in Su as [_ Hb]. shape_split.
    destruct (const_or_not ex') as [[v ->]|N]; [|rewrite N; by destruct ex'].
    pose proof (g_shape _ _ G) as Sv. pose proof (shape_const v Sv) as Zv. rewrite den_cast by done. subst s.
    cbn [cast_arguments expr_width] in *. rewrite (proj2 (Nat.ltb_lt _ _)) by done. eexists; split; [done|]. by apply cast_answer. }
  apply (folds_evaluated _ (NetECast ex' w s) (is_const ex') (cast_arguments ex' w)); try done; [|apply Gu].
  change (eval_tree (NetECast ex w s)) with (ex ← eval_expr ex; Some (NetECast ex w s, cast_arguments ex w)). by rewrite E.
Qed.

Lemma folds_binary op l r w s : shape_ok (NetEBinary op l r w s) = true -> folds l -> folds r -> folds (NetEBinary op l r w s).
Proof using.
  intros H (l' & El & Gl & Cl) (r' & Er & Gr & Cr). pose proof (good_binary op l r l' r' w s H Gl Gr) as Gu.
  pose proof (g_shape _ _ Gu) as Su. pose proof Su as Hb. apply andb_prop in Hb as [_ [[Sl Sr]%andb_prop Hb]%andb_prop].
  destruct (binary_evaluates l' r' Sl Sr op w s (attr (NetEBinary op l' r' w s)) Hb eq_refl) as (res & Ea & He).
  assert (Ht : eval_tree (NetEBinary op l r w s) =
    match res with Some x => Some (NetEBinary op l' r' w s, Some x) | None => self ← combine_constants op l' r' w s; Some (self, None) end).
  { change (eval_tree (NetEBinary op l r w s)) with (l ← eval_expr l; r ← eval_expr r; res ← binary_arguments op l r w s;
      match res with Some res => Some (NetEBinary op l r w s, Some res) | None => self ← combine_constants op l r w s; Some (self, None) end).
    rewrite El, Er. cbn [mbind option_bind]. by rewrite Ea. }
  assert (Hc : closed (NetEBinary op l r w s) = true -> match op with B_nand | B_nor => false | _ => true end && (is_const l' && is_const r') = true).
  { cbn [closed]. intros Hc. shape_split. rewrite Cl, Cr by done. by destruct op. }
  destruct res as [x|].
  - by apply (folds_evaluated _ (NetEBinary op l' r' w s) _ (Some x) Ht Su Gu He).
  - destruct (combine_good op l' r' w s Su) as (self & Ec & Gc). rewrite Ec in Ht. cbn [mbind option_bind] in Ht.
    apply (folds_intro _ self None Ht). split; [by apply (good_trans _ (NetEBinary op l' r' w s))|]. cbn [evaluated] in He.
    apply not_true_iff_false. intros Hcl. specialize (Hc Hcl). congruence.
Qed.

Lemma folds_ternary c t f w s : shape_ok (NetETernary c t f w s) = true -> folds c -> folds t -> folds f -> folds (NetETernary c t f w s).
Proof using.
  intros H (c' & Ec & Gc & Cc) (t' & Et & Gt & Ct) (f' & Ef & Gf & Cf).
  pose proof H as Hb. apply andb_prop in Hb as [_ Hb]. shape_split.
  assert (Ht : eval_tree (NetETernary c t f w s) =
    match const_logical c' with
    | C_0 => Some (NetETernary c' t' f' w s, Some f')
    | C_1 => Some (NetETernary c' t' f' w s, Some t')
    | C_X => Some (NetETernary c' t' f' w s, blended_arguments_ t' f' s)
    | C_NON => Some (NetETernary c' t f w s, None)
    end).
  { change (eval_tree (NetETernary c t f w s)) with (c ← eval_expr c;
      match const_logical c with
      | C_0 => f ← eval_expr f; t ← eval_expr t; Some (NetETernary c t f w s, Some f)
      | C_1 => t ← eval_expr t; f ← eval_expr f; Some (NetETernary c t f w s, Some t)
      | C_X => t ← eval_expr t; f ← eval_expr f; Some (NetETernary c t f w s, blended_arguments_ t f s)
      | C_NON => Some (NetETernary c t f w s, None)
      end). rewrite Ec, Et, Ef. cbn [mbind option_bind]. destruct (const_logical c'); reflexivity. }
  assert (Hcl : closed (NetETernary c t f w s) = true -> is_const c' = true /\ is_const t' = true /\ is_const f' = true) by (cbn [closed]; intros ?; shape_split; auto).
  destruct (const_or_not c') as [[v ->]|N].
  - pose proof (const_logical_bit v) as Hv. pose proof (const_logical_known v) as Hn. pose proof (g_den _ _ Gc : vbits v = den c) as Dc.
    assert (D : den (NetETernary c t f w s) = match bit_of_const (const_logical (NetEConst v)) with BIT4_0 => den f | BIT4_1 => den t | _ => zip_bits blend_bit (den t) (den f) end).
    { cbn [EvalTreeFold.den]. unfold eval_ternary. by rewrite <- Dc, Hv. }
    destruct (const_logical (NetEConst v)); cbn [bit_of_const] in D; try done.
    + apply (folds_intro _ _ _ Ht). destruct Gf as [G1 G2 G3 G4 G5]. split; [|by intros Hc; apply Hcl].
      split; [done|congruence|cbn; congruence|cbn; congruence|]. cbn [expr_type]. rewrite logic_if_bool. tauto.
    + apply (folds_intro _ _ _ Ht). destruct Gt as [G1 G2 G3 G4 G5]. split; [|by intros Hc; apply Hcl].
      split; [done|congruence|cbn; congruence|cbn; congruence|]. cbn [expr_type]. rewrite !logic_if_bool. tauto.
    + pose proof (good_ternary c t f _ t' f' w s H Gc Gt Gf) as Gu.
      apply (folds_evaluated _ _ (is_const t' && is_const f') _ Ht (g_shape _ _ Gu) Gu); [|by intros Hc; destruct (Hcl Hc) as (_ & -> & ->)].
      destruct (is_const t' && is_const f') eqn:E; [|by destruct t', f']. apply andb_prop in E as [E1 E2].
      destruct (const_or_not t') as [[tv ->]|]; [|congruence]. destruct (const_or_not f') as [[fv ->]|]; [|congruence].
      destruct (blend_answer tv fv s) as (b & -> & A); [by apply shape_const, (g_shape _ _ Gt)|by apply shape_const, (g_shape _ _ Gf)| |].
      { pose proof (g_width _ _ Gt) as W1. pose proof (g_width _ _ Gf) as W2. cbn in W1, W2. congruence. }
      exists b. split; [done|]. rewrite (g_den _ _ Gu), D, <- (g_den _ _ Gt), <- (g_den _ _ Gf). done.
  - pose proof (good_ternary c t f c' t f w s H Gc (good_refl t ltac:(done)) (good_refl f ltac:(done))) as Gu.
    assert (Hn : const_logical c' = C_NON) by by destruct c'. rewrite Hn in Ht. apply (folds_intro _ _ _ Ht). split; [done|].
    apply not_true_iff_false. intros Hc. destruct (Hcl Hc) as (Hx & _). congruence.
Qed.

Lemma folds_pad ex w s : shape_ok (NetESelect ex None w s) = true -> folds ex -> folds (NetESelect ex None w s).
Proof using.
  intros H (ex' & E & G & C). pose proof (good_pad ex ex' w s H G) as Gu. pose proof (shape_pos env _ H) as [Hp _].
  apply (folds_evaluated _ (NetESelect ex' None w s) (is_const ex') (select_arguments ex' None w s)); try done; [|apply Gu|].
  - change (eval_tree (NetESelect ex None w s)) with (ex ← eval_expr ex; base ← Some None; Some (NetESelect ex base w s, select_arguments ex base w s)). by rewrite E.
  - destruct (const_or_not ex') as [[v ->]|N]; [|rewrite N; by destruct ex']. eexists; split; [done|]. apply pad_answer; [|done].
    apply shape_const, (g_shape _ _ G).
Qed.

(** The base of a select before and after its evaluation *)
Definition base_shape (b : NetExpr) : bool :=
  match b with NetEConst v => negb (is_single_ v) && negb (string_flag_ v) && (0 <? len v)%nat | _ => shape_ok b end.

Record good_base (b b' : NetExpr) : Prop := GoodBase {
  b_shape : base_shape b' = true;
  b_den : den b' = den b;
  b_width : expr_width b' = expr_width b;
  b_sign : has_sign b' = has_sign b;
}.

Lemma shape_base b : shape_ok b = true -> base_shape b = true.
Proof using. destruct b; try done. intros H%shape_const%sized_spec. destruct H as (_ & Hs & Ht & H%Nat.ltb_lt). cbn [base_shape]. by rewrite Hs, Ht, H. Qed.

Lemma folds_base b : base_shape b = true -> (shape_ok b = true -> folds b) ->
  exists b', eval_expr b = Some b' /\ good_base b b' /\ (closed b = true -> is_const b' = true).
Proof using.
  intros Hb Hf. destruct (const_or_not b) as [[v ->]|N]; [by exists (NetEConst v)|].
  destruct Hf as (b' & E & G & C); [by destruct b|]. exists b'. split; [done|]. split; [|done]. destruct G. split; try done. by apply shape_base.
Qed.

Lemma folds_select ex b w s : shape_ok (NetESelect ex (Some b) w s) = true -> folds_defined b = true ->
  match eval_expr ex, eval_expr b with Some ex, Some b => select_known ex b w | _, _ => true end = true ->
  folds ex -> (shape_ok b = true -> folds b) -> folds (NetESelect ex (Some b) w s).
Proof using.
  intros H Hd Hk (ex' & E & G & C) Hb. pose proof (shape_pos env _ H) as [Hp _]. pose proof (shape_select _ _ _ _ _ H) as (_ & _ & Hw & Hbp & _).
  destruct (folds_base b) as (b' & Eb & Gb & Cb); [by apply andb_prop in H as [_ H]; shape_split|done|]. rewrite E, Eb in Hk. unfold folds_defined in Hd. rewrite Eb in Hd.
  assert (Gu : good (NetESelect ex (Some b) w s) (NetESelect ex' (Some b') w s)).
  { destruct G as [G1 G2 G3 G4 G5], Gb as [B1 B2 B3 B4]. split; try done.
    - refine (shape_node _ _ _ H _). intros _. repeat (apply andb_true_iff; split); try done. rewrite B3. by apply Nat.leb_le.
    - cbn [EvalTreeFold.den]. by rewrite G2, B2, B4. }
  apply (folds_evaluated _ (NetESelect ex' (Some b') w s) (is_const ex' && is_const b') (select_arguments ex' (Some b') w s)); try done; [|apply Gu| |].
  - change (eval_tree (NetESelect ex (Some b) w s)) with (ex ← eval_expr ex; base ← (b ← eval_expr b; Some (Some b)); Some (NetESelect ex base w s, select_arguments ex base w s)).
    by rewrite E, Eb.
  - destruct (const_or_not ex') as [[v ->]|N]; [|rewrite N; by destruct ex']. destruct (const_or_not b') as [[bv ->]|N]; [|rewrite N; by destruct b'].
    eexists; split; [done|]. cbn [EvalTreeFold.den has_sign]. unfold eval_select. rewrite unknown_vbits, Hd. cbn [negb].
    pose proof (b_width _ _ Gb) as Wb. cbn in Wb. rewrite <- base_value by (done || lia). by apply part_answer.
  - cbn [closed]. intros Hc. shape_split. rewrite C, Cb by done. done.
Qed.

(** The loop of [NetEConcat::eval_tree] *)
Definition eval_parms : list NetExpr -> option (list NetExpr * nat * bool) :=
  fix eval_parms (parms : list NetExpr) : option (list NetExpr * nat * bool) :=
    match parms with
    | [] => Some ([], 0%nat, false)
    | p :: parms =>
      r ← eval_tree p;
      '(parms, gap, local_errors) ← eval_parms parms;
      if is_const p then Some (p :: parms, (expr_width p + gap)%nat, local_errors)
      else match snd r with
           | Some expr =>
             Some (expr :: parms, (expr_width expr + gap)%nat,
                   local_errors || negb (has_width expr) || (expr_width expr =? 0)%nat)
           | None => Some (fst r :: parms, gap, local_errors)
           end
    end.

Lemma combine_not_const op l r w s self : combine_constants op l r w s = Some self -> is_const self = false.
Proof using.
  destruct (combine_cases op l r w s) as [->|(se & a & lv & rv & w' & s' & _ & _ & _ & _ & ->)]; [by intros [= <-]|].
  unfold with_assert. destruct (both_widths w lv rv); [by intros [= <-]|done].
Qed.

(** An expression that is left in place does not become a constant. *)
Lemma eval_tree_self e self : is_const e = false -> eval_tree e = Some (self, None) -> is_const self = false.
Proof using.
  destruct e as [v|vt w s sig|op ex w s|op ex|ex w s|op l r w s|m l r w s|c t f w s|n ps w s vt|ex b w s]; try done; intros _ H; cbn [eval_tree] in H.
  - by injection H as <-.
  - apply bind_Some in H as (ex' & _ & H). by apply bind_Some in H as (res & _ & [= <- _]).
  - by apply bind_Some in H as (ex' & _ & [= <- _]).
  - by apply bind_Some in H as (ex' & _ & [= <- _]).
  - apply bind_Some in H as (l' & _ & H). apply bind_Some in H as (r' & _ & H). apply bind_Some in H as ([res|] & _ & H); [done|].
    apply bind_Some in H as (self' & H & [= <-]). by apply combine_not_const in H.
  - apply bind_Some in H as (l' & _ & H). apply bind_Some in H as (r' & _ & H). by apply bind_Some in H as (res & _ & [= <- _]).
  - apply bind_Some in H as (c' & _ & H). destruct (const_logical c').
    + apply bind_Some in H as (f' & _ & H). by apply bind_Some in H as (t' & _ & [= <- _]).
    + apply bind_Some in H as (f' & _ & H). by apply bind_Some in H as (t' & _ & [= <- _]).
    + apply bind_Some in H as (f' & _ & H). by apply bind_Some in H as (t' & _ & [= <- _]).
    + by injection H as <-.
  - apply bind_Some in H as ([[ps' gap] err] & _ & H). destruct err; [by injection H as <-|]. by apply bind_Some in H as (res & _ & [= <- _]).
  - apply bind_Some in H as (ex' & _ & H). by apply bind_Some in H as (b' & _ & [= <- _]).
Qed.

Lemma parms_good ps : Forall folds ps -> Forall (fun p => shape_ok p = true) ps ->
  exists ps' gap, eval_parms ps = Some (ps', gap, false) /\ Forall2 good ps ps' /\
    (forallb is_const ps' = true -> gap = parts_sum ps') /\ (forallb closed ps = true -> forallb is_const ps' = true).
Proof using.
  induction ps as [|p ps IH]; intros Hf Hs; [by exists [], 0%nat|].
  apply list.Forall_cons in Hf as [(p' & E & G & C) Hf], Hs as [S1 Hs]. destruct (IH Hf Hs) as (ps' & gap & Ep & Gp & Hg & Hc).
  unfold eval_expr in E. apply bind_Some in E as ([self res] & E & [= Er]). cbn [eval_parms]. fold eval_parms. rewrite E, Ep. cbn [mbind option_bind].
  destruct (const_or_not p) as [[v ->]|N].
  - injection E as <- <-. cbn in Er. subst p'. cbn [is_const]. do 2 eexists. split; [reflexivity|]. split; [by constructor|]. split.
    + cbn [forallb is_const andb]. intros H. by rewrite (Hg H).
    + exact Hc.
  - rewrite N. destruct res as [x|]; [change (x = p') in Er|change (self = p') in Er]; subst p'; cbn [snd fst].
    + pose proof (g_shape _ _ G) as Sx. pose proof (shape_pos env _ Sx) as [Hp _]. rewrite (shape_has_width env _ Sx), (proj2 (Nat.eqb_neq _ _)) by lia. cbn [negb orb].
      do 2 eexists. split; [reflexivity|]. split; [by constructor|]. split.
      * cbn [forallb]. intros H. shape_split. cbn. by rewrite Hg.
      * cbn [forallb]. intros H. shape_split. apply andb_true_iff. split; [by apply C|by apply Hc].
    + assert (Ns : is_const self = false) by by apply (eval_tree_self p).
      do 2 eexists. split; [reflexivity|]. split; [by constructor|]. split.
      * cbn [forallb]. by rewrite Ns.
      * cbn [forallb]. intros H. shape_split. rewrite C in Ns by done. done.
Qed.

Lemma parts_same ps ps' : Forall2 good ps ps' -> parts_sum ps' = parts_sum ps /\ den_parts den ps' = den_parts den ps /\
  Forall (fun p => shape_ok p = true) ps' /\ (Forall (fun p => is_bool p = true) ps -> Forall (fun p => is_bool p = true) ps').
Proof using.
  induction 1 as [|p p' ps ps' [G1 G2 G3 G4 G5] _ (I1 & I2 & I3 & I4)]; [done|]. cbn. fold (parts_sum ps) (parts_sum ps') (den_parts den ps) (den_parts den ps').
  rewrite I1, I2, G2, G3. split; [done|]. split; [done|]. split; [by constructor|]. intros [B1 B2]%list.Forall_cons. constructor; [|by apply I4].
  apply bool_decide_eq_true in B1. by apply bool_decide_eq_true, G5.
Qed.

Lemma good_concat rept ps ps' w s vt : shape_ok (NetEConcat rept ps w s vt) = true -> Forall2 good ps ps' ->
  good (NetEConcat rept ps w s vt) (NetEConcat rept ps' w s vt).
Proof using.
  intros H G. destruct (parts_same ps ps' G) as (E1 & E2 & E3 & E4). pose proof (shape_parts _ _ _ _ _ _ H) as (_ & Hw & _ & _ & Hb). split; try done.
  - refine (shape_node _ _ _ H _). intros _. repeat (apply andb_true_iff; split).
    + apply forallb_forall. by rewrite List.Forall_forall in E3.
    + rewrite E1. by apply Nat.eqb_eq.
    + destruct vt; [|done]. apply forallb_forall. specialize (E4 (Hb eq_refl)). by rewrite List.Forall_forall in E4.
  - cbn [EvalTreeFold.den]. by rewrite E2.
Qed.

Lemma all_const ps : forallb is_const ps = true -> exists ws, ps = map NetEConst ws.
Proof using.
  induction ps as [|p ps IH]; cbn [forallb]; [by exists []|]. intros [H1 H2]%andb_prop. destruct (IH H2) as [ws ->].
  destruct (const_or_not p) as [[v ->]|]; [|congruence]. by exists (v :: ws).
Qed.

Lemma den_consts ws : den_parts den (map NetEConst ws) = concat (map vbits (rev ws)).
Proof using.
  induction ws as [|v ws IH]; [done|]. cbn [map den_parts rev]. fold (den_parts den). rewrite IH, map_app, concat_app. cbn. by rewrite app_nil_r.
Qed.

Lemma folds_concat rept ps w s vt : shape_ok (NetEConcat rept ps w s vt) = true -> Forall folds ps -> folds (NetEConcat rept ps w s vt).
Proof using.
  intros H Hf. destruct (shape_parts _ _ _ _ _ _ H) as (Hs & Hw & H0 & Hp & _). destruct (parms_good ps Hf Hs) as (ps' & gap & E & G & Hg & Hc).
  pose proof (good_concat rept ps ps' w s vt H G) as Gu. pose proof (g_shape _ _ Gu) as Su. destruct (shape_parts _ _ _ _ _ _ Su) as (Hs' & Hw' & _ & Hp' & _).
  assert (Hev : evaluates (forallb is_const ps') (den (NetEConcat rept ps' w s vt)) s (concat_arguments rept ps' gap s)).
  { destruct (forallb is_const ps') eqn:Ec.
    - destruct (all_const ps' Ec) as [ws ->]. specialize (Hg eq_refl). rewrite <- (parts_length env) in Hg; [|by eapply list.Forall_impl; [exact Hs'|]; intros; by apply shape_length].
      rewrite den_consts in Hg. subst gap. destruct (concat_answer rept ws s) as (v & -> & A); [|intros ->; cbn in Hp'; lia|done|].
      + apply list.Forall_forall. intros v Hv. rewrite list.Forall_forall in Hs'. apply shape_const, Hs'. by apply list_elem_of_fmap_2.
      + cbn [EvalTreeFold.den]. rewrite Nat.max_l, den_consts by lia. by apply evaluates_const.
    - unfold concat_arguments. rewrite fill_none; [apply evaluates_none|]. apply Exists_exists. clear - Ec.
      induction ps' as [|p ps' IH]; [done|]. cbn [forallb] in Ec. destruct (is_const p) eqn:Ep.
      + destruct (IH Ec) as (x & Hx & Nx). exists x. split; [|done]. cbn [rev]. apply in_or_app. by left.
      + exists p. split; [|done]. cbn [rev]. apply in_or_app. right. by left. }
  destruct Hev as (res & Er & He). apply (folds_evaluated _ (NetEConcat rept ps' w s vt) (forallb is_const ps') res); try done.
  change (eval_tree (NetEConcat rept ps w s vt)) with ('(parms, gap, local_errors) ← eval_parms ps; let self := NetEConcat rept parms w s vt in
    if (local_errors : bool) then Some (self, None) else res ← concat_arguments rept parms gap s; Some (self, res)).
  rewrite E. cbn [mbind option_bind]. by rewrite Er.
Qed.

Lemma net_folds e : shape_ok e = true -> folds_ok e = true -> folds e.
Proof using.
  induction e as [v|vt w s sig|op e w s IH|op e IH|e w s IH|op l r w s IHl IHr|m l r w s IHl IHr|c t f w s IHc IHt IHf|n ps w s vt IH|e w s IH|e b w s IH IHb] using net_ind;
    intros H F; cbn [folds_ok] in F; shape_split; pose proof H as Hb; apply andb_prop in Hb as [_ Hb]; shape_split.
  - exists (NetEConst v). split; [done|]. split; [by apply good_refl|done].
  - exists (NetESignal vt w s sig). split; [done|]. split; [by apply good_refl|done].
  - apply folds_unary; [done|by intros ->|auto].
  - apply folds_reduce; auto.
  - apply folds_cast; auto.
  - apply folds_binary; auto.
  - done.
  - apply folds_ternary; auto.
  - apply folds_concat; [done|]. destruct (shape_parts _ _ _ _ _ _ H) as (Hs & _). rewrite forallb_forall in F. rewrite List.Forall_forall in *. auto.
  - apply folds_pad; auto.
  - apply folds_select; auto.
Qed.
End Fold.

(** ** The theorem *)

(** C5. The compiler's evaluation of expressions is an optimisation that keeps
    their value, where its operators treat x as the run does.  Two conditions are
    assumed.  [shape_ok]: the widths, signs and types of the nodes agree as those that
    elaboration makes do, there is no power, minimum or maximum in the expression, and
    a select from a two-state operand has a constant base inside of it.  [folds_ok]:
    no operand that becomes a constant with an x is the operand of a magnitude or the
    base of a select, and a constant select from an operand that becomes a two-state
    constant stays inside of it.  Then [eval_expr] ends without a failed assertion,
    and the expression that the code generator gets afterwards has, for any values of
    the signals, the width, the signedness and the value of the one it would have got
    before: [eval] is the meaning that the compiled code is proved to compute.  An
    expression of constants without the bitwise [~&] and [~|], which are not
    evaluated, becomes one number, with the bits of that value.  Both conditions are
    needed: see [folded_comparison_of_select], [folded_magnitude_of_unknown] and
    [folded_select_of_unknown_base], where the folded expression has another value. *)
Theorem constant_folding_correct (env : nat -> bits) (e : NetExpr) : shape_ok env e = true -> folds_ok e = true ->
  exists e' d d', eval_expr e = Some e' /\ expr_scan e = Some d /\ expr_scan e' = Some d' /\
    eval env d' = eval env d /\ ivl_expr_width d' = ivl_expr_width d /\ ivl_expr_signed d' = ivl_expr_signed d /\
    (closed e = true -> exists v, e' = NetEConst v /\ vbits v = eval env d).
Proof.
  intros H F. destruct (net_folds env e H F) as (e' & E & [G1 G2 G3 G4 G5] & C).
  destruct (scan_ok env e H) as (d & D1 & D2 & D3 & _), (scan_ok env e' G1) as (d' & D1' & D2' & D3' & _).
  exists e', d, d'. unfold ivl_expr_width, ivl_expr_signed. rewrite D3, D3', D2, D2'. cbn [attr width_ signed_]. do 6 (split; [done|]).
  intros Hc. destruct (const_or_not e') as [[v ->]|N]; [by exists v|]. by rewrite C in N.
Qed.

(** A number of [n] bits *)
Definition number (sg : bool) (n : nat) (z : Z) : NetExpr := NetEConst (set_has_sign (verinum_of_uint64 z n) sg).

(** [|{2{-7 / 2 < 0, 8'd165[4 +: 4]}} ? (a + 4'd5) - 4'd2 : &a] *)
Definition witness_expr : NetExpr :=
  let a := NetESignal IVL_VT_LOGIC 4 false 0 in
  let s := NetEBinary B_lt (NetEBinary B_div (number true 4 9) (number true 4 2) 4 true) (number true 4 0) 1 false in
  NetETernary (NetEUReduce U_or (NetEConcat 2 [s; NetESelect (number false 8 165) (Some (number false 3 4)) 4 false] 10 false IVL_VT_LOGIC))
    (NetEBinary B_sub (NetEBinary B_add a (number false 4 5) 4 false) (number false 4 2) 4 false)
    (NetESelect (NetEUReduce U_and a) None 4 false) 4 false.

(** The condition is evaluated to 1, and the constants of the sum are combined:
    the code adds 3 to the signal. *)
Lemma constant_folding_correct_witness :
  let env _ := [BIT4_1; BIT4_1; BIT4_0; BIT4_1] in
  eval_expr witness_expr = Some (NetEBinary B_sub (NetESignal IVL_VT_LOGIC 4 false 0) (number false 4 13) 4 false) /\
  exists e' d d', eval_expr witness_expr = Some e' /\ expr_scan witness_expr = Some d /\ expr_scan e' = Some d' /\
    eval env d' = eval env d /\ eval env d = bits_of_Z 4 14.
Proof.
  cbv zeta. split; [by vm_compute|].
  destruct (constant_folding_correct (fun _ => [BIT4_1; BIT4_1; BIT4_0; BIT4_1]) witness_expr) as (e' & d & d' & H1 & H2 & H3 & H4 & _); [by vm_compute|by vm_compute|].
  exists e', d, d'. split; [done|]. split; [done|]. split; [done|]. split; [done|].
  assert (E : (d ← expr_scan witness_expr; Some (eval (fun _ => [BIT4_1; BIT4_1; BIT4_0; BIT4_1]) d)) = Some (bits_of_Z 4 14)) by by vm_compute.
  rewrite H2 in E. by injection E.
Defined.

(** ** Where the compiler and the run differ *)

Definition x_number (sg : bool) (n : nat) : NetExpr := NetEConst (set_has_sign (set (verinum_fill Vx n true) 0 V1) sg).

(** The magnitude of a constant with x bits is all x; at run time it is the operand. *)
Lemma folded_magnitude_of_unknown :
  let e := NetEUnary U_abs (x_number true 3) 3 true in
  (den (fun _ => []) <$> eval_expr e) = Some (xs 3) /\ den (fun _ => []) e = [BIT4_1; BIT4_X; BIT4_X].
Proof. by vm_compute. Qed.

(** A base with x bits is read as 0; at run time the select gives x. *)
Lemma folded_select_of_unknown_base :
  let e := NetESelect (number false 4 6) (Some (x_number false 2)) 3 false in
  (den (fun _ => []) <$> eval_expr e) = Some (bits_of_Z 3 6) /\ den (fun _ => []) e = xs 3.
Proof. by vm_compute. Qed.

(** [b[i +: 4] <= 4'd15] of a two-state [b] of 4 bits is taken for true; at run time it is x
    when the select reaches outside of [b]. *)
Lemma folded_comparison_of_select :
  let b := NetESignal IVL_VT_BOOL 4 false 0 in
  let i := NetESignal IVL_VT_BOOL 3 false 1 in
  let e := NetEBinary B_le (NetESelect b (Some i) 4 false) (number false 4 15) 1 false in
  let env sig := if (sig =? 0)%nat then bits_of_Z 4 0 else bits_of_Z 3 2 in
  (den env <$> eval_expr e) = Some ([BIT4_1]) /\ den env e = [BIT4_X].
Proof. by vm_compute. Qed.
